(* ===== verification/_CoqProject ===== *)
-Q . S2P
Prelude.v
Program.v
Encoding.v
ProofTypes.v
Lineage.v
ContractReads.v
Proposer.v
ProposerBonds.v
Challenger.v
ChallengerBonds.v
ProverTypes.v
Defender.v
ProverStore.v
Planner.v
GasFetch.v
Aggregation.v
Sp1Worker.v
Rpc.v
Race.v
Worker.v
NitroWire.v
Attestation.v
NitroEnclave.v
NitroHost.v
P384Hints.v
P384Ecdsa.v
Prewarm.v
NitroRegister.v
Pbh.v
PbhPool.v
Builder.v
AccessList.v
Flashblocks.v
EventStream.v
P2pCodec.v
P2pPeers.v
P2pHandler.v
Reverts.v
PayloadJob.v
Validator.v
Coordinator.v
Generator.v
Pipeline.v
Solidity.v
StakingVault.v
MultiProofGame.v
GameRules.v
DisputeSystem.v
DisputeSafety.v
NitroContracts.v
GameClients.v
PbhContracts.v
PbhRules.v
FeeContracts.v
Simulate.v
SimulateApi.v
SimulateRules.v
ChainSpec.v
AdminApi.v
