(* ===== verification/Prelude.v ===== *)
(** * World Chain: a verification of its proof system, its contracts and its node

    World Chain is a rollup.  Its repository holds the node, which builds blocks, gives
    priority to verified humans and publishes every block in pieces while it is being
    built, and the proof system, which proposes the state of the rollup to a contract on
    L1, challenges wrong proposals and defends right ones with proofs.  It also holds these
    contracts and those of the priority for humans.  This library translates all of them into
    Rocq and proves what they promise.

    ** The parts of the program and how they interact

    - The _proposer_ finds the chain of accepted proposals (the lineage) that extends
      the anchor of the contract, and proposes its next root.  The _challenger_ compares
      new proposals with the rollup node and challenges the wrong ones.  The _defender_
      follows the challenged proposals of the lineage and has them proven.
    - The _prover service_ keeps proof requests, locks and sessions in a database.
      _Workers_ claim a job over JSON-RPC, keep its lock alive, prove it and submit.
    - The SP1 worker cuts an interval into ranges, has them proven and aggregated; the
      _aggregation guest_ is the program whose execution is proven.  The Nitro worker
      asks an _enclave_, which derives the transition, signs it and has its key attested.
      The key is _registered_ on chain, with hints for the signatures of its certificates.
    - The _pool_ validates transactions that claim priority with Semaphore proofs, and the
      _payload builder_ executes them within a share of the block and spends their nullifiers.
    - The _engine interface_ hands an authorization to the _generator_, which starts a
      _payload job_.  The job commits to its best build at intervals and publishes what is
      new in it as a _flashblock_.  The _network layer_ signs flashblocks, sends them to a
      chosen set of peers, checks what comes in, hands it on in order and lets one builder
      take over from another.  The _event stream_ holds flashblocks back until their parent
      is canonical.  The _coordinator_ executes them with the _validator_ and keeps the
      pending block.
    - The _dispute game_ is the contract of one proposal: anyone may challenge it, prove a lane
      of it and resolve it.  The _staking vault_ keeps the bonds of all games and pays them
      out.  The lanes ask _verifiers_: of SP1, of the keys of attested enclaves, and of the
      security council.
    - The _PBH entry point_ verifies the proofs of a bundle of user operations; the
      _aggregator_ and the _Safe module_ make bundles that it accepts.  Builders report the
      nullifiers that they have spent.  The fee contracts share out and burn fees.
    - Over RPC the node _simulates_ user operations and overrides its log filter; its _chain
      specification_ says which rules hold when.

    ** Files

    Shared: [Prelude] (results, machine integers, sorting), [Program] (programs that
    make calls), [Race] (programs that race), [Encoding] (bytes and ABI words).

    Under [src/proofs/protocol/src]:
    - [ProofTypes]: [types.rs], [proof_game.rs]; [Lineage]: [lineage.rs], the selection over
      an abstract provider; [ContractReads]: the same file's provider over contract calls,
      and [consensus_provider.rs].

    Under [src/proofs/services]:
    - [Proposer], [ProposerBonds]: [proposer/src/proposer.rs], [bond_manager.rs];
    - [Challenger], [ChallengerBonds]: [challenger/src/challenger.rs], [bond_manager.rs],
      [resolution_manager.rs];
    - [Defender]: [defender/src/defender.rs], [game.rs], [lane.rs];
    - [ProverTypes], [ProverStore], [Rpc]: [prover-service/src/types.rs], [store.rs],
      [status_poller.rs], [rpc.rs], [error.rs].

    Under [src/proofs/workers], [measured] and [backends]:
    - [Worker]: [workers/core/src]; [Planner], [GasFetch], [Sp1Worker]: [workers/sp1/src/planner.rs],
      [backend.rs]; [Aggregation]: [measured/sp1-programs/aggregation/src/main.rs];
    - [NitroWire], [Attestation], [NitroEnclave], [NitroHost]: [measured/nitro-enclave/src]
      ([protocol.rs], [attestation.rs] and [cose.rs], [enclave.rs], [host.rs]) and [workers/nitro/src/lib.rs];
    - [P384Hints], [P384Ecdsa], [Prewarm]: [p384_hints.rs], [prewarm.rs];
    - [NitroRegister]: [backends/nitro/register/src/lib.rs], [services/tx-signer/src/lib.rs].

    Under [src/crates]:
    - [Pbh]: [pbh/src]; [PbhPool]: [pool/src]; [Builder]: [builder/src/execution_context.rs],
      [payload_builder.rs];
    - [Flashblocks], [AccessList], [P2pCodec]: [primitives/src] ([flashblocks.rs], [payload_id.rs];
      [access_list.rs]; [p2p.rs], [primitives.rs]);
    - [P2pPeers], [P2pHandler], [EventStream]: [p2p/src/protocol] ([handler.rs] and
      [connection.rs]: the choice of peers; the same files: flashblocks, publishers and frames; [event.rs]);
    - [PayloadJob], [Generator]: [payload/src/job.rs], [generator.rs] and [rpc/src/engine.rs];
    - [Reverts], [Validator], [Coordinator]: [evm/src/utils.rs]; [validator/src/validator.rs],
      [execution_strategy.rs] and [evm/src/execution/bal.rs]; [validator/src/coordinator.rs];
    - [Pipeline]: builder, network and receiver composed;
    - [Simulate], [SimulateApi], [SimulateRules]: [rpc/src/simulate.rs] (the inspector and its
      trace; logs, metadata and the response; theorems about them); [AdminApi]: [rpc/src/admin.rs];
    - [ChainSpec]: [chainspec/src/spec.rs], [hardfork.rs].

    Under [src/pkg/contracts/src]:
    - [Solidity]: checked arithmetic, reverts and mappings, shared by the contracts;
    - [StakingVault]: [dispute/ERC20StakingVault.sol]; [MultiProofGame]: [dispute/MultiProofGame.sol]
      and [dispute/lib]; [GameRules]: its invariants; [DisputeSystem], [DisputeSafety]: all games and
      the vault together, under any calls;
    - [NitroContracts]: [dispute/nitro], [dispute/sp1], [dispute/council]; [GameClients]: the
      services' encodings against the contracts;
    - [PbhContracts]: [pbh], [lib]; [PbhRules]: theorems about them; [FeeContracts]: [fees].

    ** How code becomes definitions

    Data keeps the constructors and fields of the source.  Integers are [Z], with
    wrapping, checked and saturating operations written out where the source has them.
    A function that awaits something outside the process is a [prog]: a tree whose nodes
    are calls and whose branches are the possible replies.  A theorem about [runs] is
    about all replies: any chain, any database answer, any enclave, any EVM.  A call has the
    type of its trait method, so that an error reply is a value.  [interp] runs a program
    against a concrete world, and the witnesses use it; [wp] computes what holds of all
    runs, and most proofs about the node step through it.  State that outlives a call is
    passed explicitly; a region under a lock is one function on the state.  Concurrent parts are [buffer_unordered] and [race], which
    interleave, and step relations ([worker_step] in [Worker], [db_step] in [ProverStore], [fan_step] in
    [P2pPeers], [node_step] in [P2pHandler], [step] in [DisputeSystem], [PbhRules] and [AdminApi]).

    A function of a contract returns a [result] whose error is a revert, with the effects on
    storage in its value, so that a revert undoes them.  Other contracts are arguments: their answers
    in a call are an environment, which the theorems about runs choose anew for every call.
    Where games ask each other, [answers] ties the environment to the games of the system.

    Cryptography, codecs of third-party crates, and the EVM are arguments.  Where a
    theorem needs something of them it is a named hypothesis, such as that a hash does not
    collide on the texts at hand or that a decoder inverts its encoder, and a witness
    instantiates it.

    ** What the theorems show

    - Lineage and services: every proposal extends a lineage that is canonical, as the
      providers answered ([select_lineage_sound], [selected_lineage_on_chain],
      [tick_proposes_canonically]); a challenge is sent only for a wrong claim and no game is
      forgotten ([challenges_are_justified], [no_game_lost], [first_recent_correct]); the
      defender proves only games of the lineage that need it, and drops none that is open
      ([defends_selected_games], [defenses_accounted]).
    - Prover service: all interleavings of its operations refine the life cycle of a
      request ([store_refines_lifecycle]); proofs are final, jobs are not stuck, ended sessions
      stay ended ([stored_proof_is_final], [no_stuck_job], [sessions_are_safe]); errors keep
      their meaning over RPC ([job_errors_cross_rpc]).
    - Workers: the loop accounts for its jobs, the heartbeat gives up exactly when it should,
      a task submits only its handler's proof, and a reported success is in the database
      ([worker_loop_accounts], [heartbeat_gives_up], [job_task_sound], [success_is_stored]).
    - SP1: plans tile their interval ([by_gas_correct]); all work is for the confirmed game
      ([sp1_job_justified]); the guest commits exactly to what is attested, and accepts what
      the worker asks for ([guest_commits_iff], [guest_accepts_worker]).
    - Nitro: frames round trip; an attestation is accepted exactly if genuine; the enclave
      answers exactly if it derived; the host accepts an honest enclave, binds documents to
      transitions, and the job is for the claim ([frame_roundtrip],
      [attestation_accepted_iff], [range_answer_iff], [honest_enclave_accepted],
      [document_binds_transition], [nitro_job_sound]).
    - Registration: hints exist exactly for valid signatures and suffice for the verifier
      ([collect_hints_iff_valid], [hints_suffice]); the plan is the chain
      ([plan_is_the_chain]); the key is submitted in order, and success is confirmed
      ([registration_in_order], [registration_succeeds]).
    - Priority: the nullifier codec, the monthly quota, proofs behind each priority,
      the age of roots ([nullifier_codec], [monthly_quota], [priority_is_proven],
      [roots_are_recent]); what enters a block, and that its nullifiers are spent within the gas
      kept back ([block_inclusion], [nullifiers_are_spent], [reservation_exact]).
    - Building in pieces: what a job publishes are the pieces of growing builds, which fold
      into the payload it is committed to, and a frozen job is over
      ([job_publishes_committed], [due_build_published], [frozen_job_idle],
      [published_block_recovered]); a job publishes only with an authorization
      ([job_is_authorized], [authorized_update]); another builder continues where the first
      one stopped ([takeover_continues], [pre_state_found]).
    - Network: messages round trip, the parser is total, only what an authorized builder
      signed passes ([message_roundtrip], [parsing_never_panics], [verified_frame_is_signed],
      [signed_message_accepted], [unverified_frame_ignored]); flashblocks are handed on in
      order and have an origin ([broadcast_in_order], [broadcast_has_origin],
      [publish_delivers]); publishing is handed over ([handover]); the sets of peers stay within
      their limits and are filled, and scores and rates are what they should be
      ([receive_set_bounded], [requests_fill_receive_set], [rotation_drops_worst],
      [serving_is_granted], [control_rate_bounded], [score_is_average]).
    - Receiving: the stream yields only anchored flashblocks, in order
      ([stream_is_anchored], [delivery_in_order]); a flashblock is accepted only if its
      execution gives the announced block, within the limits, and builder and validator count
      alike ([accepted_flashblock], [commits_within_limits], [access_indices_agree],
      [access_list_post_state]); flattened reverts undo the block ([flatten_reverts_undoes],
      [flattened_status], [prestate_is_present]); the coordinator's state is consistent
      ([push_keeps_collection], [coordinator_consistent], [receiver_follows_builder]).
    - Building, network and receiver together: [receiver_has_committed_block].
    - Disputes: whatever calls are made, the vault is solvent and a finalized game pays out its
      pot ([vault_solvent], [finalized_game_settles]); a defended game is proven down to the anchor,
      and of the attempts at a proposal at most one is defended ([defended_lineage],
      [retried_never_defended]); [resolutionStatus] says what [resolve] does
      ([resolution_status_exact]).
    - Services and contracts together: the game reads the proposal that the services encode
      ([proposal_reads_back]), active keys are attested ([active_signers_attested]), and what such an
      enclave signs is accepted ([enclave_proof_accepted]).
    - Priority on chain: node and contract accept the same nullifiers
      ([nullifier_checks_agree]); the aggregator passes exactly what was verified in the transaction
      ([aggregator_passes_verified]); bundles that the pool or the aggregator validated are verified
      ([pool_bundle_verified], [validated_bundle_verified]); spent nullifiers are refused for good
      ([spent_nullifier_refused]); the proof does not change the Safe's answer ([proof_rides_along]).
      A burn pays the price of the oracles ([burn_pays_price]).
    - Simulation: the inspector reports what took effect ([inspector_reports_landed]); the cause
      of a failure is that of the tree of calls ([terminal_failure_on_tree]); the response, the
      contract events and the reasons are complete ([response_reports],
      [contract_management_complete], [revert_reason_roundtrip]).
    - Configuration: defaults act as if they were in the genesis file ([defaults_as_in_genesis]);
      a log override ends on its own ([override_expires], [later_override_kept]).

    Some theorems show where the code departs from its comments or from its purpose:
    [tick_exceeds_max_resolutions], [resolution_limit_ignores_reverts],
    [retries_exceed_maximum], [resubmission_is_rejected], [date_parser_panics],
    [refused_nullifier_is_spent], [reservation_missed], [continuation_refuses_priority],
    [thirteenth_is_dropped], [padded_message_not_relayed], [burst_of_twenty],
    [forced_peer_asked_again], [stream_misses_flashblock], [failed_publish_leaves_gap],
    [v4_authorization_publishes_nothing], [overlapping_publish_orphans_payload] and
    [empty_payload_indices_differ].

    ** Fuel and bounds

    Loops whose length depends on replies take fuel, and a theorem shows how much is
    enough: the selection of a lineage ([select_lineage_terminates]: the blocks left
    up to the finalized head bound the steps), the binary search ([search_fuel_enough]: the
    width of the window halves), the proving loop of the SP1 worker ([loop_safe]: a
    potential of rounds and splits that is left decreases), Euclid's algorithm ([euclid_enough]: operands
    halve in two steps), the iterator of the builder ([builder_terminates]: what the pool
    holds), the loop that asks for peers ([requests_fill_receive_set]: one round per peer), the
    delivery of cached flashblocks ([publish_delivers]: the length of the cache), the search for
    the cause of a failure ([terminal_failure_on_tree]: calls go to later entries of the trace).  The endless
    loops around a tick or a poll are not run: the theorems are
    about one pass from any state that satisfies the invariant, or about a step relation.

    ** Not modelled

    Command lines, metrics and wiring; the clients that forward one contract call per
    function, which are the calls of the programs; the text that errors are logged with.
    Kona's derivation, the SP1 and KMS clients, the X.509, CBOR and Semaphore libraries,
    revm and reth: third-party code, present as arguments or replies.  Of the node: the
    tasks and sessions of the network, its recorder and monitor ([crates/p2p/src/monitor]),
    the adapters of revm's executors ([crates/evm]), the endpoints that forward ([crates/rpc]:
    [transactions.rs], [sequencer.rs], [core.rs], [witness.rs]), the headers and the accessors of the
    chain specification, and start-up ([crates/node], [crates/cli]).  Of the contracts: events that
    nothing reads, gas, proxies and ownership (OpenZeppelin's), the factory and the registry of
    the OP stack, and the deployment scripts.  Test and developer tooling ([crates/devnet],
    [crates/test-utils], [e2e-tests], [proofs/it], [proofs/debug], [xtask]). *)

From stdpp Require Export base prelude list numbers strings gmap sorting.
From Stdlib Require Export ZArith Lia.

Set Default Goal Selector "!".
#[global] Open Scope Z_scope.

(** ** Results: Rust's [Result<A, E>] *)

Inductive result (A E : Type) : Type :=
| Ok (a : A)
| Err (e : E).
Arguments Ok {A E} a.
Arguments Err {A E} e.

#[export] Instance result_eq_dec `{EqDecision A, EqDecision E} : EqDecision (result A E).
Proof. solve_decision. Defined.

Definition is_ok {A E} (r : result A E) : bool :=
  match r with Ok _ => true | Err _ => false end.

(** [Result::map_err] *)
Definition map_err {A E F} (f : E -> F) (r : result A E) : result A F :=
  match r with Ok a => Ok a | Err e => Err (f e) end.

(** [Option::ok_or] *)
Definition ok_or {A E} (o : option A) (e : E) : result A E :=
  match o with Some a => Ok a | None => Err e end.

(** The [?] operator inside a function that returns a [Result]. *)
Definition rbind {A B E} (r : result A E) (k : A -> result B E) : result B E :=
  match r with Ok a => k a | Err e => Err e end.

Declare Scope rust_scope.
Delimit Scope rust_scope with rust.

Notation "'let?' x := r 'in' k" := (rbind r (fun x => k))
  (at level 10, x name, r at level 100, k at level 200) : rust_scope.
Notation "'let?' ' x := r 'in' k" := (rbind r (fun x => k))
  (at level 10, x strict pattern, r at level 100, k at level 200) : rust_scope.

#[global] Open Scope rust_scope.

Lemma rbind_Ok {A B E} (r : result A E) (k : A -> result B E) b :
  rbind r k = Ok b <-> exists a, r = Ok a /\ k a = Ok b.
Proof. destruct r; split; [eauto|by intros (?&[= ->]&?)|done|by intros (?&?&?)]. Qed.

Lemma map_err_Ok {A E F} (f : E -> F) (r : result A E) a :
  map_err f r = Ok a <-> r = Ok a.
Proof. destruct r; naive_solver. Qed.

Lemma ok_or_Ok {A E} (o : option A) (e : E) a : ok_or o e = Ok a <-> o = Some a.
Proof. destruct o; naive_solver. Qed.

(** ** Machine integers

    A [u64], [u32], [u8], [usize] or [U256] is a [Z] kept in its range; the
    operations below write out what Rust does at the ends of the range. *)

Definition U8_MAX : Z := 2 ^ 8 - 1.
Definition U16_MAX : Z := 2 ^ 16 - 1.
Definition U32_MAX : Z := 2 ^ 32 - 1.
Definition U64_MAX : Z := 2 ^ 64 - 1.
Definition U256_MAX : Z := 2 ^ 256 - 1.
Definition I64_MAX : Z := 2 ^ 63 - 1.

Definition u8 (x : Z) : Prop := 0 <= x <= U8_MAX.
Definition u16 (x : Z) : Prop := 0 <= x <= U16_MAX.
Definition u64 (x : Z) : Prop := 0 <= x <= U64_MAX.
Definition u256 (x : Z) : Prop := 0 <= x <= U256_MAX.

(** [u64::checked_add], [u64::checked_sub] *)
Definition checked_add (a b : Z) : option Z :=
  if a + b <=? U64_MAX then Some (a + b) else None.
Definition checked_sub (a b : Z) : option Z :=
  if b <=? a then Some (a - b) else None.

(** [saturating_add] at width [max], [saturating_sub] on an unsigned type *)
Definition saturating_add (max a b : Z) : Z := Z.min (a + b) max.
Definition saturating_sub (a b : Z) : Z := Z.max (a - b) 0.

(** [u64::try_from] on a wider unsigned value *)
Definition to_u64 (x : Z) : option Z := if x <=? U64_MAX then Some x else None.

Lemma checked_add_Some a b c :
  checked_add a b = Some c <-> c = a + b /\ a + b <= U64_MAX.
Proof.
  unfold checked_add. destruct (Z.leb_spec (a + b) U64_MAX); naive_solver lia.
Qed.

Lemma checked_add_None a b : checked_add a b = None <-> U64_MAX < a + b.
Proof.
  unfold checked_add. destruct (Z.leb_spec (a + b) U64_MAX); naive_solver lia.
Qed.

Lemma checked_sub_Some a b c : checked_sub a b = Some c <-> c = a - b /\ b <= a.
Proof.
  unfold checked_sub. destruct (Z.leb_spec b a); naive_solver lia.
Qed.

(** ** Lists *)

Lemma Forall_app_2 {A} (P : A -> Prop) l k : Forall P l -> Forall P k -> Forall P (l ++ k).
Proof. intros. by apply Forall_app. Qed.

Lemma filter_length_le {A} (P : A -> Prop) `{forall x, Decision (P x)} (l : list A) :
  (length (filter P l) <= length l)%nat.
Proof. apply length_filter. Qed.

(** [sort_by_key]: Rust's stable sort, as an insertion sort by key. *)
Fixpoint insert_by {A} (key : A -> Z) (x : A) (l : list A) : list A :=
  match l with
  | [] => [x]
  | y :: l' => if key x <=? key y then x :: y :: l' else y :: insert_by key x l'
  end.

Fixpoint sort_by_key {A} (key : A -> Z) (l : list A) : list A :=
  match l with
  | [] => []
  | x :: l' => insert_by key x (sort_by_key key l')
  end.

Lemma insert_by_perm {A} (key : A -> Z) x l : insert_by key x l ≡ₚ x :: l.
Proof.
  induction l as [|y l IH]; simpl; [done|]. case_match; [done|].
  rewrite IH. apply Permutation_swap.
Qed.

Lemma sort_by_key_perm {A} (key : A -> Z) l : sort_by_key key l ≡ₚ l.
Proof. induction l as [|x l IH]; simpl; [done|]. by rewrite insert_by_perm, IH. Qed.

Definition key_sorted {A} (key : A -> Z) : list A -> Prop := Sorted (fun x y => key x <= key y).

Lemma insert_by_sorted {A} (key : A -> Z) x l :
  key_sorted key l -> key_sorted key (insert_by key x l).
Proof.
  unfold key_sorted. induction 1 as [|y l Hl IH Hhd]; simpl; [by repeat constructor|].
  destruct (Z.leb_spec (key x) (key y)).
  - repeat constructor; auto.
  - constructor; [done|]. destruct l as [|z l]; simpl; [constructor; lia|].
    inversion Hhd; subst. case_match; constructor; lia.
Qed.

Lemma sort_by_key_sorted {A} (key : A -> Z) l : key_sorted key (sort_by_key key l).
Proof. induction l; simpl; [constructor|]. by apply insert_by_sorted. Qed.

Lemma key_sorted_app {A} (key : A -> Z) l k :
  key_sorted key (l ++ k) -> key_sorted key l /\ key_sorted key k.
Proof.
  unfold key_sorted. induction l as [|x l IH]; simpl; [by auto|].
  intros H. inversion H as [|? ? Hl Hhd]; subst. apply IH in Hl as [Hl Hk]. split; [|done].
  constructor; [done|]. destruct l; [constructor|]. inversion Hhd; subst. by constructor.
Qed.

Lemma key_sorted_strongly {A} (key : A -> Z) l :
  key_sorted key l -> StronglySorted (fun x y => key x <= key y) l.
Proof. intros H. apply Sorted_StronglySorted; [|exact H]. intros ???. lia. Qed.

(** ** Automation *)

(** [Iterator::max_by]: the last of the greatest elements; [gt x y] is
    [Ordering::Greater].  [max_by_key] compares keys. *)
Definition max_by {A} (gt : A -> A -> bool) (l : list A) : option A :=
  foldl (fun best y => match best with Some x => Some (if gt x y then x else y) | None => Some y end) None l.
Definition max_by_key {A} (key : A -> Z) : list A -> option A := max_by (fun x y => key y <? key x).

Lemma max_by_snoc {A} (gt : A -> A -> bool) l y :
  max_by gt (l ++ [y]) = match max_by gt l with Some x => Some (if gt x y then x else y) | None => Some y end.
Proof. unfold max_by. by rewrite foldl_snoc. Qed.

Lemma max_by_None {A} (gt : A -> A -> bool) l : max_by gt l = None <-> l = [].
Proof.
  destruct l as [|y l _] using rev_ind; [done|]. rewrite max_by_snoc.
  split; [by destruct (max_by gt l)|by destruct l].
Qed.

(** The greatest element: no other one is greater, if being greater is transitive
    in the negative, as in a total order. *)
Lemma max_by_Some {A} (gt : A -> A -> bool) l x :
  (forall a b c, gt b a = false -> gt c b = false -> gt c a = false) -> (forall a, gt a a = false) ->
  (forall a b, gt a b = true -> gt b a = false) ->
  max_by gt l = Some x -> x ∈ l /\ Forall (fun y => gt y x = false) l.
Proof.
  intros Htrans Hrefl Hasym. revert x. induction l as [|y l IH] using rev_ind; intros x; [done|].
  rewrite max_by_snoc. destruct (max_by gt l) as [b|] eqn:Hb.
  - destruct (IH b eq_refl) as [Hin Hall]. intros [= <-]. destruct (gt b y) eqn:Hg.
    + split; [set_solver|]. apply Forall_app; split; [done|]. by repeat constructor; apply Hasym.
    + split; [set_solver|]. apply Forall_app; split; [|by repeat constructor].
      eapply Forall_impl; [exact Hall|]. intros z Hz. by eapply Htrans.
  - apply max_by_None in Hb as ->. intros [= <-]. split; [set_solver|]. by repeat constructor.
Qed.

Lemma max_by_key_Some {A} (key : A -> Z) l x :
  max_by_key key l = Some x -> x ∈ l /\ Forall (fun y => key y <= key x) l.
Proof.
  intros H. apply max_by_Some in H as [Hin H]; [|intros; rewrite Z.ltb_ge in *; lia|intros; apply Z.ltb_irrefl|
    intros a b; rewrite Z.ltb_lt, Z.ltb_ge; lia].
  split; [done|]. eapply Forall_impl; [exact H|]. intros y. simpl. by rewrite Z.ltb_ge.
Qed.

Create HintDb wc.
#[export] Hint Resolve Forall_app_2 sort_by_key_perm sort_by_key_sorted : wc.

(** Splits the conjunctions and existentials of the context. *)
Ltac destruct_all :=
  repeat match goal with
  | H : exists _, _ |- _ => destruct H
  | H : _ /\ _ |- _ => destruct H
  end.

(** Case analysis on the boolean comparisons of [Z] in goal and context. *)
Ltac zbool :=
  repeat match goal with
  | H : context [Z.leb ?a ?b] |- _ => destruct (Z.leb_spec a b)
  | H : context [Z.ltb ?a ?b] |- _ => destruct (Z.ltb_spec a b)
  | H : context [Z.eqb ?a ?b] |- _ => destruct (Z.eqb_spec a b)
  | |- context [Z.leb ?a ?b] => destruct (Z.leb_spec a b)
  | |- context [Z.ltb ?a ?b] => destruct (Z.ltb_spec a b)
  | |- context [Z.eqb ?a ?b] => destruct (Z.eqb_spec a b)
  end.
