(* ===== verification/Program.v ===== *)
(** * Programs that talk to the outside world

    The services under [src/proofs/services] are generic over traits whose
    methods are RPC calls.  A program here is a finite tree of such calls: a
    node holds the call and says, for every reply, how the code goes on.  What
    the outside world replies is not fixed, so a theorem about every run of a
    program is a theorem about every behaviour of the chain, of the consensus
    node and of the prover service.  [runs p tr a] says that [p] can return [a]
    after the calls and replies recorded in [tr]; [interp] runs a program
    against a concrete world; [prun] is the futures crate's
    [buffer_unordered], where several programs are in flight. *)

From Stdlib Require Import Eqdep_dec.
From S2P Require Import Prelude.

Record Sig := MkSig { call : Type; reply : call -> Type }.

Inductive prog (S : Sig) (A : Type) : Type :=
| Ret (a : A)
| Call (c : call S) (k : reply S c -> prog S A).
Arguments Ret {S A} a.
Arguments Call {S A} c k.

Fixpoint bind {S A B} (p : prog S A) (f : A -> prog S B) : prog S B :=
  match p with
  | Ret a => f a
  | Call c k => Call c (fun r => bind (k r) f)
  end.

(** An [.await?] on a fallible program: an error returns at once. *)
Definition bind_try {S A B E} (p : prog S (result A E)) (f : A -> prog S (result B E))
    : prog S (result B E) :=
  bind p (fun r => match r with Ok a => f a | Err e => Ret (Err e) end).

(** The same inside a method with [&mut self]: [s] is the state at the [?],
    and is what the caller finds in [self] when the method returns early. *)
Definition bind_try_st {S A B E T} (s : T) (p : prog S (result A E))
    (f : A -> prog S (result B E * T)) : prog S (result B E * T) :=
  bind p (fun r => match r with Ok a => f a | Err e => Ret (Err e, s) end).

(** A [?] on a call to another [&mut self] method, whose own changes stay. *)
Definition bind_try_mut {S A B E T} (p : prog S (result A E * T))
    (f : A -> T -> prog S (result B E * T)) : prog S (result B E * T) :=
  bind p (fun '(r, s) => match r with Ok a => f a s | Err e => Ret (Err e, s) end).

Declare Scope prog_scope.
Delimit Scope prog_scope with prog.

Notation "'do' x <- p ; k" := (bind p (fun x => k))
  (at level 10, x pattern, p at level 100, k at level 200) : prog_scope.
Notation "'do?' x <- p ; k" := (bind_try p (fun x => k))
  (at level 10, x name, p at level 100, k at level 200) : prog_scope.
Notation "'do?[' s ] x <- p ; k" := (bind_try_st s p (fun x => k))
  (at level 10, s at level 100, x name, p at level 100, k at level 200) : prog_scope.
Notation "'do?!' x , s <- p ; k" := (bind_try_mut p (fun x s => k))
  (at level 10, x name, s name, p at level 100, k at level 200) : prog_scope.
#[global] Open Scope prog_scope.

(** ** Traces *)

Definition event (S : Sig) : Type := { c : call S & reply S c }.
Definition ev {S : Sig} (c : call S) (r : reply S c) : event S := existT c r.

(** Two records of one call have one reply. *)
Lemma ev_inj {S : Sig} `{EqDecision (call S)} (c : call S) r r' : ev c r = ev c r' -> r = r'.
Proof. apply inj_pair2_eq_dec. apply (decide_rel (=)). Qed.

Fixpoint runs {S A} (p : prog S A) (tr : list (event S)) (a : A) : Prop :=
  match p with
  | Ret a' => tr = [] /\ a = a'
  | Call c k => exists r tr', tr = ev c r :: tr' /\ runs (k r) tr' a
  end.

Lemma runs_bind {S A B} (p : prog S A) (f : A -> prog S B) tr b :
  runs (bind p f) tr b <->
  exists t1 t2 a, tr = t1 ++ t2 /\ runs p t1 a /\ runs (f a) t2 b.
Proof.
  revert tr. induction p as [a|c k IH]; intros tr; simpl.
  - split; [|by intros (?&?&?&->&[-> ->]&?)]. intros H. by exists [], tr, a.
  - split.
    + intros (r&tr'&->&(t1&t2&a&->&Ha&Hb)%IH). exists (ev c r :: t1), t2, a. naive_solver.
    + intros (t1&t2&a&->&(r&t1'&->&Ha)&Hb). exists r, (t1' ++ t2). split; [done|].
      apply IH. by exists t1', t2, a.
Qed.

Lemma runs_bind_try {S A B E} (p : prog S (result A E)) (f : A -> prog S (result B E)) tr b :
  runs (bind_try p f) tr b <->
  (exists t1 t2 a, tr = t1 ++ t2 /\ runs p t1 (Ok a) /\ runs (f a) t2 b) \/
  (exists e, runs p tr (Err e) /\ b = Err e).
Proof.
  unfold bind_try. rewrite runs_bind. split.
  - intros (t1&t2&[a|e]&->&Hp&Hf); simpl in *; [by left; exists t1, t2, a|].
    destruct Hf as [-> ->]. right. exists e. by rewrite app_nil_r.
  - intros [(t1&t2&a&->&?&?)|(e&?&->)]; [by exists t1, t2, (Ok a)|].
    exists tr, [], (Err e). by rewrite app_nil_r.
Qed.

Lemma runs_bind_try_st {S A B E T} (s : T) (p : prog S (result A E))
    (f : A -> prog S (result B E * T)) tr b :
  runs (bind_try_st s p f) tr b <->
  (exists t1 t2 a, tr = t1 ++ t2 /\ runs p t1 (Ok a) /\ runs (f a) t2 b) \/
  (exists e, runs p tr (Err e) /\ b = (Err e, s)).
Proof.
  unfold bind_try_st. rewrite runs_bind. split.
  - intros (t1&t2&[a|e]&->&Hp&Hf); simpl in *; [by left; exists t1, t2, a|].
    destruct Hf as [-> ->]. right. exists e. by rewrite app_nil_r.
  - intros [(t1&t2&a&->&?&?)|(e&?&->)]; [by exists t1, t2, (Ok a)|].
    exists tr, [], (Err e). by rewrite app_nil_r.
Qed.

Lemma runs_bind_try_mut {S A B E T} (p : prog S (result A E * T))
    (f : A -> T -> prog S (result B E * T)) tr b :
  runs (bind_try_mut p f) tr b <->
  (exists t1 t2 a s, tr = t1 ++ t2 /\ runs p t1 (Ok a, s) /\ runs (f a s) t2 b) \/
  (exists e s, runs p tr (Err e, s) /\ b = (Err e, s)).
Proof.
  unfold bind_try_mut. rewrite runs_bind. split.
  - intros (t1&t2&[[a|e] s]&->&Hp&Hf); simpl in *; [by left; exists t1, t2, a, s|].
    destruct Hf as [-> ->]. right. exists e, s. by rewrite app_nil_r.
  - intros [(t1&t2&a&s&->&?&?)|(e&s&?&->)]; [by exists t1, t2, (Ok a, s)|].
    exists tr, [], (Err e, s). by rewrite app_nil_r.
Qed.

(** ** Interpretation in a concrete world

    A world replies to every call and may change while it does. *)

Definition handler (S : Sig) (W : Type) : Type := forall c : call S, W -> reply S c * W.

Fixpoint interp {S W A} (h : handler S W) (p : prog S A) (w : W) : list (event S) * A * W :=
  match p with
  | Ret a => ([], a, w)
  | Call c k =>
      let '(r, w1) := h c w in
      let '(tr, a, w2) := interp h (k r) w1 in (ev c r :: tr, a, w2)
  end.

Definition trace_of {S W A} (h : handler S W) (p : prog S A) (w : W) : list (event S) :=
  (interp h p w).1.1.
Definition value_of {S W A} (h : handler S W) (p : prog S A) (w : W) : A :=
  (interp h p w).1.2.
Definition world_of {S W A} (h : handler S W) (p : prog S A) (w : W) : W :=
  (interp h p w).2.

Lemma interp_runs {S W A} (h : handler S W) (p : prog S A) w :
  runs p (trace_of h p w) (value_of h p w).
Proof.
  unfold trace_of, value_of. revert w. induction p as [a|c k IH]; intros w; simpl; [done|].
  destruct (h c w) as [r w1] eqn:Hc. destruct (interp h (k r) w1) as [[tr a] w2] eqn:Hi.
  simpl. exists r, tr. split; [done|]. specialize (IH r w1). by rewrite Hi in IH.
Qed.

Lemma interp_bind {S W A B} (h : handler S W) (p : prog S A) (f : A -> prog S B) w :
  interp h (bind p f) w =
  let '(t1, a, w1) := interp h p w in
  let '(t2, b, w2) := interp h (f a) w1 in (t1 ++ t2, b, w2).
Proof.
  revert w. induction p as [a|c k IH]; intros w; simpl; [by destruct (interp h (f a) w) as [[t2 b] w2]|].
  destruct (h c w) as [r w1]. rewrite IH. destruct (interp h (k r) w1) as [[t1 a] w2].
  by destruct (interp h (f a) w2) as [[t2 b] w3].
Qed.

Lemma value_of_bind {S W A B} (h : handler S W) (p : prog S A) (f : A -> prog S B) w :
  value_of h (bind p f) w = value_of h (f (value_of h p w)) (world_of h p w).
Proof.
  unfold value_of, world_of. rewrite interp_bind. destruct (interp h p w) as [[t1 a] w1]. simpl.
  by destruct (interp h (f a) w1) as [[t2 b] w2].
Qed.

Lemma world_of_bind {S W A B} (h : handler S W) (p : prog S A) (f : A -> prog S B) w :
  world_of h (bind p f) w = world_of h (f (value_of h p w)) (world_of h p w).
Proof.
  unfold value_of, world_of. rewrite interp_bind. destruct (interp h p w) as [[t1 a] w1]. simpl.
  by destruct (interp h (f a) w1) as [[t2 b] w2].
Qed.

(** In a world that does not change, replies depend on the call alone. *)
Lemma trace_replies {S A} (h : handler S unit) (p : prog S A) e :
  e ∈ trace_of h p () -> projT2 e = (h (projT1 e) ()).1.
Proof.
  unfold trace_of. induction p as [a|c k IH]; simpl; [by intros ?%elem_of_nil|].
  destruct (h c ()) as [r []] eqn:Hc. destruct (interp h (k r) ()) as [[tr a] []] eqn:Hi. simpl.
  intros [->|He]%elem_of_cons; [simpl; by rewrite Hc|]. apply (IH r). by rewrite Hi.
Qed.

(** What holds of every reply of a world holds of the replies of a run in it. *)
Lemma trace_Forall {S W A} (h : handler S W) (P : forall c : call S, reply S c -> Prop) (p : prog S A) w :
  (forall c w, P c (h c w).1) -> Forall (fun e => P (projT1 e) (projT2 e)) (trace_of h p w).
Proof.
  intros HP. unfold trace_of. revert w. induction p as [a|c k IH]; intros w; simpl; [constructor|].
  specialize (HP c w) as Hc. destruct (h c w) as [r w1]. specialize (IH r w1).
  destruct (interp h (k r) w1) as [[tr a] w2]. by constructor.
Qed.

(** Every program returns: whatever the world replies, there is a run. *)
Lemma runs_total {S A} (p : prog S A) (default : forall c, reply S c) :
  exists tr a, runs p tr a.
Proof.
  pose proof (interp_runs (W := unit) (fun c _ => (default c, ())) p ()). eauto.
Qed.

(** ** Signatures as interfaces

    [Sub S T] is Rust's trait bound: code written against the trait [S] runs
    in a service that offers [T].  A service whose client implements several
    traits has the sum of their signatures. *)

Class Sub (S T : Sig) := {
  inj : call S -> call T;
  prj : forall c : call S, reply T (inj c) -> reply S c
}.

Definition sig_sum (S T : Sig) : Sig :=
  MkSig (call S + call T)
    (fun c => match c with inl c => reply S c | inr c => reply T c end).
Infix "⊕" := sig_sum (at level 50, left associativity).

#[export] Instance sub_refl S : Sub S S := {| inj c := c; prj _ r := r |}.
#[export] Instance sub_inl S T U `{!Sub S T} : Sub S (T ⊕ U) :=
  {| inj c := inl (inj c) : call (T ⊕ U); prj c r := prj c r |}.
#[export] Instance sub_inr S T U `{!Sub S U} : Sub S (T ⊕ U) :=
  {| inj c := inr (inj c) : call (T ⊕ U); prj c r := prj c r |}.

Fixpoint lift {S T A} `{!Sub S T} (p : prog S A) : prog T A :=
  match p with
  | Ret a => Ret a
  | Call c k => Call (inj c) (fun r => lift (k (prj c r)))
  end.

Definition trigger {S T} `{!Sub S T} (c : call S) : prog T (reply S c) :=
  Call (inj c) (fun r => Ret (prj c r)).

(** Two worlds side by side. *)
Definition beside {S T W V} (h : handler S W) (g : handler T V) : handler (S ⊕ T) (W * V) := fun c w =>
  match c return reply (S ⊕ T) c * (W * V) with
  | inl c => let '(r, w1) := h c w.1 in (r, (w1, w.2))
  | inr c => let '(r, v1) := g c w.2 in (r, (w.1, v1))
  end.

Lemma beside_left {S T W V A} (h : handler S W) (g : handler T V) (p : prog S A) w v :
  value_of (beside h g) (lift p) (w, v) = value_of h p w /\
  world_of (beside h g) (lift p) (w, v) = (world_of h p w, v).
Proof.
  unfold value_of, world_of. revert w. induction p as [a|c k IH]; intros w; simpl; [done|].
  destruct (h c w) as [r w1]. specialize (IH r w1).
  destruct (interp (beside h g) _ (w1, v)) as [[t1 a1] w2]. by destruct (interp h (k r) w1) as [[t2 a2] w3].
Qed.

Lemma beside_right {S T W V A} (h : handler S W) (g : handler T V) (p : prog T A) w v :
  value_of (beside h g) (lift p) (w, v) = value_of g p v /\
  world_of (beside h g) (lift p) (w, v) = (w, world_of g p v).
Proof.
  unfold value_of, world_of. revert v. induction p as [a|c k IH]; intros v; simpl; [done|].
  destruct (g c v) as [r v1]. specialize (IH r v1).
  destruct (interp (beside h g) _ (w, v1)) as [[t1 a1] w2]. by destruct (interp g (k r) v1) as [[t2 a2] w3].
Qed.

(** The event of the large signature that records an event of the small one. *)
Definition embeds {S T} `{!Sub S T} (e : event S) (e' : event T) : Prop :=
  exists r, e' = ev (inj (projT1 e)) r /\ prj (projT1 e) r = projT2 e.

Lemma runs_lift {S T A} `{!Sub S T} (p : prog S A) (tr : list (event T)) a :
  runs (lift p) tr a <-> exists tr0, Forall2 embeds tr0 tr /\ runs p tr0 a.
Proof.
  revert tr. induction p as [b|c k IH]; intros tr; simpl.
  - split; [intros [-> ->]; by exists []|].
    intros (tr0&H&->&->). by apply Forall2_nil_inv_l in H as ->.
  - split.
    + intros (r&tr'&->&(tr0&H&Hk)%IH). exists (ev c (prj c r) :: tr0).
      split; [constructor; [by exists r|done]|by exists (prj c r), tr0].
    + intros (tr0&H&r0&tr0'&->&Hk). apply Forall2_cons_inv_l in H as (e&tr'&He&H&->).
      destruct He as (r&->&Hr). simpl in *. subst r0.
      exists r, tr'. split; [done|]. apply IH. by exists tr0'.
Qed.

(** [saw c a tr]: during [tr] the call [c] was answered with [a]. *)
Definition saw {S T} `{!Sub S T} (c : call S) (a : reply S c) (tr : list (event T)) : Prop :=
  exists r, ev (inj c) r ∈ tr /\ prj c r = a.

Lemma saw_app {S T} `{!Sub S T} c a (t1 t2 : list (event T)) :
  saw c a (t1 ++ t2) <-> saw (S := S) c a t1 \/ saw c a t2.
Proof. unfold saw. setoid_rewrite elem_of_app. naive_solver. Qed.

Lemma saw_app_l {S T} `{!Sub S T} c a (t1 t2 : list (event T)) :
  saw (S := S) c a t1 -> saw c a (t1 ++ t2).
Proof. rewrite saw_app. auto. Qed.

Lemma saw_app_r {S T} `{!Sub S T} c a (t1 t2 : list (event T)) :
  saw (S := S) c a t2 -> saw c a (t1 ++ t2).
Proof. rewrite saw_app. auto. Qed.

Lemma saw_here {S T} `{!Sub S T} (c : call S) r (tr : list (event T)) :
  saw c (prj c r) (ev (inj c) r :: tr).
Proof. exists r. split; [by left|done]. Qed.

Lemma saw_cons {S T} `{!Sub S T} (c : call S) a e (tr : list (event T)) :
  saw c a tr -> saw c a (e :: tr).
Proof. intros (r&?&?). exists r. split; [by right|done]. Qed.

Lemma saw_embeds {S T} `{!Sub S T} (c : call S) a tr0 (tr : list (event T)) :
  Forall2 embeds tr0 tr -> ev c a ∈ tr0 -> saw c a tr.
Proof.
  intros H (i&Hi)%list_elem_of_lookup.
  destruct (Forall2_lookup_l _ _ _ _ _ H Hi) as (e&He&r&->&Hr).
  exists r. split; [|done]. by apply list_elem_of_lookup_2 in He.
Qed.

#[export] Hint Resolve saw_here saw_cons saw_app_l saw_app_r : wc.

(** Number of calls of a trace that satisfy a test. *)
Fixpoint count_calls {S} (f : call S -> bool) (tr : list (event S)) : nat :=
  match tr with
  | [] => 0%nat
  | e :: tr' => ((if f (projT1 e) then 1 else 0) + count_calls f tr')%nat
  end.

Lemma count_calls_app {S} (f : call S -> bool) t1 t2 :
  count_calls f (t1 ++ t2) = (count_calls f t1 + count_calls f t2)%nat.
Proof. induction t1; simpl; lia. Qed.

#[global] Instance count_calls_perm {S} (f : call S -> bool) :
  Proper ((≡ₚ) ==> (=)) (count_calls f).
Proof. induction 1; simpl; lia. Qed.

(** ** Computations with concurrency

    [comp S A] is the set of (trace, value) pairs a piece of code can produce;
    a program is one, and so is a pool of programs whose calls interleave. *)

Definition comp (S : Sig) (A : Type) : Type := list (event S) -> A -> Prop.

Definition cbind {S A B} (c : comp S A) (k : A -> comp S B) : comp S B :=
  fun tr b => exists t1 t2 a, tr = t1 ++ t2 /\ c t1 a /\ k a t2 b.

Section buffer_unordered.
Context {S : Sig} {K A : Type}.

(** [prun n fl q tr out]: with the futures [fl] in flight and [q] still in
    the stream, at most [n] futures are polled at a time, the calls happen
    in the order [tr], and the results arrive in the order [out]. *)
Inductive prun (n : nat) :
    list (K * prog S A) -> list (K * prog S A) ->
    list (event S) -> list (K * A) -> Prop :=
| prun_done : prun n [] [] [] []
| prun_start fl t q tr out :
    (length fl < n)%nat -> prun n (fl ++ [t]) q tr out -> prun n fl (t :: q) tr out
| prun_call fl1 k c kont fl2 q r tr out :
    prun n (fl1 ++ (k, kont r) :: fl2) q tr out ->
    prun n (fl1 ++ (k, Call c kont) :: fl2) q (ev c r :: tr) out
| prun_ret fl1 k a fl2 q tr out :
    prun n (fl1 ++ fl2) q tr out ->
    prun n (fl1 ++ (k, Ret a) :: fl2) q tr ((k, a) :: out).

(** [stream::iter(tasks).buffer_unordered(n).collect()] *)
Definition buffer_unordered (n : nat) (tasks : list (K * prog S A)) : comp S (list (K * A)) :=
  prun n [] tasks.

(** One task after the other: the schedule a single-threaded executor with
    calls that answer at once takes. *)
Fixpoint run_all (tasks : list (K * prog S A)) : prog S (list (K * A)) :=
  match tasks with
  | [] => Ret []
  | (k, p) :: tasks' => do a <- p; do out <- run_all tasks'; Ret ((k, a) :: out)
  end.

(** What a pool does is what its tasks do: there is one run per task, the
    pool's results are the tasks' results in some order, and the pool's
    trace is a merge of the tasks' traces that keeps each of them in order. *)
Definition pool_outcome (tasks : list (K * prog S A)) (tr : list (event S))
    (out : list (K * A)) : Prop :=
  exists res : list (list (event S) * A),
    Forall2 (fun t ra => runs t.2 ra.1 ra.2) tasks res /\
    out ≡ₚ zip_with (fun t ra => (t.1, ra.2)) tasks res /\
    tr ≡ₚ concat (map fst res) /\
    Forall (fun ra => sublist ra.1 tr) res.

Lemma prun_outcome n fl q tr out :
  prun n fl q tr out -> pool_outcome (fl ++ q) tr out.
Proof.
  induction 1 as [|fl t q tr out _ _ IH|fl1 k c kont fl2 q r tr out _ IH
                 |fl1 k a fl2 q tr out _ IH].
  - by exists [].
  - by rewrite <-app_assoc in IH.
  - destruct IH as (res&Hr&Hout&Htr&Hsub). rewrite <-app_assoc in *. simpl in *.
    apply Forall2_app_inv_l in Hr as (r1&r2&H1&(ra&r2'&Ha&H2&->)%Forall2_cons_inv_l&->).
    apply Forall_app in Hsub as [Hs1 [Hsa Hs2]%Forall_cons].
    exists (r1 ++ (ev c r :: ra.1, ra.2) :: r2'). split_and!.
    + apply Forall2_app; [done|]. constructor; [|done]. simpl. by exists r, ra.1.
    + rewrite Hout, !zip_with_app by (by eapply Forall2_length). simpl. done.
    + rewrite Htr, !map_app, !concat_app. simpl. by rewrite Permutation_middle.
    + apply Forall_app. split; [|constructor].
      * eapply Forall_impl; [apply Hs1|]. intros x Hx. by constructor.
      * simpl. by constructor.
      * eapply Forall_impl; [apply Hs2|]. intros x Hx. by constructor.
  - destruct IH as (res&Hr&Hout&Htr&Hsub). rewrite <-app_assoc in *. simpl in *.
    apply Forall2_app_inv_l in Hr as (r1&r2&H1&H2&->).
    apply Forall_app in Hsub as [Hs1 Hs2].
    exists (r1 ++ ([], a) :: r2). split_and!.
    + apply Forall2_app; [done|]. by constructor.
    + rewrite Hout, !zip_with_app by (by eapply Forall2_length). simpl.
      by rewrite Permutation_middle.
    + by rewrite Htr, !map_app, !concat_app.
    + apply Forall_app. split; [done|]. constructor; [apply sublist_nil_l|done].
Qed.

(** With a positive limit the pool can finish, and running the tasks one
    after the other is one of its schedules. *)
Lemma prun_one n k p q tr1 a tr out :
  runs p tr1 a -> prun n [] q tr out -> prun n [(k, p)] q (tr1 ++ tr) ((k, a) :: out).
Proof.
  revert tr1. induction p as [b|c kont IH]; intros tr1; simpl.
  - intros [-> ->] Hq. by apply (prun_ret n [] k b []).
  - intros (r&tr1'&->&Hk) Hq. apply (prun_call n [] k c kont []). by apply IH.
Qed.

Lemma run_all_buffer_unordered n tasks tr out :
  (0 < n)%nat -> runs (run_all tasks) tr out -> buffer_unordered n tasks tr out.
Proof.
  intros Hn. revert tr out. induction tasks as [|[k p] tasks IH]; intros tr out; simpl.
  - intros [-> ->]. constructor.
  - rewrite runs_bind. setoid_rewrite runs_bind. simpl.
    intros (t1&t2&a&->&Hp&t3&t4&o&->&Ho&->&->). rewrite app_nil_r.
    constructor; [done|]. apply prun_one; [done|]. by apply IH.
Qed.
End buffer_unordered.

(** A property of single results that no run of a task violates holds of
    every result of the pool. *)
Lemma buffer_unordered_results {S K A} n (tasks : list (K * prog S A)) tr out
    (P : K -> A -> Prop) :
  buffer_unordered n tasks tr out ->
  (forall t tr a, t ∈ tasks -> runs t.2 tr a -> P t.1 a) ->
  Forall (fun ka => P ka.1 ka.2) out.
Proof.
  intros (res&Hr&->&_&_)%prun_outcome HP. simpl in *. clear tr.
  induction Hr as [|t ra tasks res Ha Hr IH]; simpl; constructor.
  - eapply HP; [by left|done].
  - apply IH. intros t' tr a Ht. eapply HP. by right.
Qed.

Lemma buffer_unordered_keys {S K A} n (tasks : list (K * prog S A)) tr out :
  buffer_unordered n tasks tr out -> map fst out ≡ₚ map fst tasks.
Proof.
  intros (res&Hr&->&_&_)%prun_outcome. simpl in *. clear tr.
  induction Hr as [|t ra tasks res Ha Hr IH]; simpl; [done|]. by rewrite IH.
Qed.

(** A property of single events that every task's trace has holds of the
    pool's trace. *)
Lemma buffer_unordered_events {S K A} n (tasks : list (K * prog S A)) tr out
    (P : event S -> Prop) :
  buffer_unordered n tasks tr out ->
  (forall t tr a, t ∈ tasks -> runs t.2 tr a -> Forall P tr) ->
  Forall P tr.
Proof.
  intros (res&Hr&_&->&_)%prun_outcome HP. simpl in *.
  induction Hr as [|t ra tasks res Ha Hr IH]; simpl; [constructor|].
  apply Forall_app. split; [by eapply HP; [left|]|].
  apply IH. intros t' tr' a Ht. apply HP. by right.
Qed.

Lemma saw_mono {S T} `{!Sub S T} (c : call S) a (t1 t2 : list (event T)) :
  t1 ⊆ t2 -> saw c a t1 -> saw c a t2.
Proof. intros Hs (r&Hr&?). exists r. auto. Qed.

Lemma subseteq_cons_r {A} (x : A) l : l ⊆ x :: l.
Proof. intros y Hy. by right. Qed.
Lemma subseteq_app_r {A} (l k : list A) : k ⊆ l ++ k.
Proof. intros y Hy. apply elem_of_app. auto. Qed.
Lemma subseteq_app_l {A} (l k : list A) : l ⊆ l ++ k.
Proof. intros y Hy. apply elem_of_app. auto. Qed.
#[export] Hint Resolve subseteq_cons_r subseteq_app_l subseteq_app_r : wc.

Lemma saw_replies {S T A} `{!Sub S T} (h : handler T unit) (p : prog T A) (c : call S) a :
  saw c a (trace_of h p ()) -> a = prj c (h (inj c) ()).1.
Proof. intros (r&Hr&<-). apply trace_replies in Hr. simpl in Hr. by rewrite Hr. Qed.

(** A call that is answered at the head of a trace. *)
Lemma runs_trigger {S T} `{!Sub S T} (c : call S) (tr : list (event T)) a :
  runs (trigger c) tr a <-> exists r, tr = [ev (inj c) r] /\ a = prj c r.
Proof. simpl. naive_solver. Qed.

(** ** Implementations of an interface

    [impl S T]: each call of [S] as a program over the interface [T] below it;
    [subst] runs a client of [S] on such an implementation. *)

Definition impl (S T : Sig) : Type := forall c : call S, prog T (reply S c).

Fixpoint subst {S T A} (h : impl S T) (p : prog S A) : prog T A :=
  match p with
  | Ret a => Ret a
  | Call c k => do r <- h c; subst h (k r)
  end.

Definition impl_sum {S1 S2 T} (h1 : impl S1 T) (h2 : impl S2 T) : impl (S1 ⊕ S2) T :=
  fun c => match c as c return prog T (reply (S1 ⊕ S2) c) with inl c => h1 c | inr c => h2 c end.

(** A run of the client on the implementation is a run of the client against
    the interface in which every event is a run of the implementation. *)
Lemma runs_subst {S T A} (h : impl S T) (p : prog S A) tr a :
  runs (subst h p) tr a <->
  exists tr0 trs, runs p tr0 a /\ tr = concat trs /\
    Forall2 (fun e t => runs (h (projT1 e)) t (projT2 e)) tr0 trs.
Proof.
  revert tr. induction p as [b|c k IH]; intros tr; simpl.
  - split; [intros [-> ->]; by exists [], []|].
    intros (tr0&trs&[-> ->]&->&->%Forall2_nil_inv_l). done.
  - rewrite runs_bind. split.
    + intros (t1&t2&r&->&Hc&(tr0&trs&Hk&->&Hf)%IH).
      exists (ev c r :: tr0), (t1 :: trs). split; [by exists r, tr0|]. split; [done|].
      by constructor.
    + intros (tr0&trs&(r&tr0'&->&Hk)&->&(t1&trs'&Hc&Hf&->)%Forall2_cons_inv_l).
      exists t1, (concat trs'), r. split; [done|]. split; [done|]. apply IH. by exists tr0', trs'.
Qed.

(** What the client saw is what the implementation returned after calls that
    are part of the trace. *)
Lemma elem_of_subst {S T} (h : impl S T) (tr0 : list (event S)) trs e :
  Forall2 (fun e t => runs (h (projT1 e)) t (projT2 e)) tr0 trs -> e ∈ tr0 ->
  exists t, t ⊆ concat trs /\ runs (h (projT1 e)) t (projT2 e).
Proof.
  intros H (i&Hi)%list_elem_of_lookup.
  destruct (Forall2_lookup_l _ _ _ _ _ H Hi) as (t&Ht&Hr).
  exists t. split; [|done]. intros x Hx. apply list_elem_of_In, in_concat.
  apply list_elem_of_lookup_2 in Ht. exists t. by rewrite <-!list_elem_of_In.
Qed.

(** ** What precedes a call

    [guarded P tr]: every event of [tr] is allowed by [P] after the events
    before it. *)

Definition guarded {S} (P : list (event S) -> event S -> Prop) (tr : list (event S)) : Prop :=
  forall t1 e t2, tr = t1 ++ e :: t2 -> P t1 e.

Lemma guarded_nil {S} (P : list (event S) -> event S -> Prop) : guarded P [].
Proof. intros [|] ? ?; discriminate. Qed.

Lemma guarded_cons {S} (P : list (event S) -> event S -> Prop) e tr :
  guarded P (e :: tr) <-> P [] e /\ guarded (fun h => P (e :: h)) tr.
Proof.
  split.
  - intros H. split; [by apply (H [] e tr)|]. intros t1 e' t2 ->. by apply (H (e :: t1) e' t2).
  - intros [H1 H2] [|e1 t1] e' t2 [= -> ->]; [done|]. by apply (H2 t1 e' t2).
Qed.

Lemma guarded_app {S} (P : list (event S) -> event S -> Prop) t1 t2 :
  guarded P (t1 ++ t2) <-> guarded P t1 /\ guarded (fun h => P (t1 ++ h)) t2.
Proof.
  revert P. induction t1 as [|e t1 IH]; intros P; simpl.
  - split; [|by intros [_ ?]]. split; [apply guarded_nil|done].
  - rewrite !guarded_cons, IH. tauto.
Qed.

Lemma guarded_impl {S} (P Q : list (event S) -> event S -> Prop) tr :
  (forall h e, h ⊆ tr -> P h e -> Q h e) -> guarded P tr -> guarded Q tr.
Proof.
  intros HPQ H t1 e t2 ->. apply HPQ; [apply subseteq_app_l|]. by apply (H t1 e t2).
Qed.

Lemma guarded_Forall {S} (P : event S -> Prop) tr : Forall P tr -> guarded (fun _ => P) tr.
Proof. intros H t1 e t2 ->. apply Forall_app in H as [_ H]. by inversion H. Qed.

(** A trace whose guard excludes a kind of call has none of it. *)
Lemma guarded_count {S} (f : call S -> bool) (P : list (event S) -> event S -> Prop) tr :
  guarded P tr -> (forall h e, P h e -> f (projT1 e) = false) -> count_calls f tr = 0%nat.
Proof.
  intros Hg HP. induction tr as [|e tr IH] using rev_ind; [done|].
  apply guarded_app in Hg as [Hg He]. rewrite count_calls_app, (IH Hg). simpl.
  apply guarded_cons in He as [He _]. by rewrite (HP _ _ He).
Qed.

(** The calls of a lifted program are calls of the smaller interface. *)
Lemma embeds_calls {S T} `{!Sub S T} (tr0 : list (event S)) (tr : list (event T)) :
  Forall2 embeds tr0 tr -> Forall (fun e => exists c : call S, projT1 e = inj c) tr.
Proof. induction 1 as [|e e' tr0 tr (r&->&_) _ IH]; constructor; simpl; eauto. Qed.

(** ** Specifications of programs

    [safe P p Q]: in every run of [p] each call is allowed by [P] given what
    was seen before it, and the trace and the value satisfy [Q].  The rules
    below follow the structure of a program. *)

Definition safe {S A} (P : list (event S) -> event S -> Prop) (p : prog S A)
    (Q : list (event S) -> A -> Prop) : Prop :=
  forall tr a, runs p tr a -> guarded P tr /\ Q tr a.

Section safe.
Context {S : Sig}.
Implicit Types P : list (event S) -> event S -> Prop.

Lemma safe_ret {A} P (a : A) (Q : list (event S) -> A -> Prop) : Q [] a -> safe P (Ret a) Q.
Proof. intros HQ tr b [-> ->]. split; [apply guarded_nil|done]. Qed.

Lemma safe_call {A} P (c : call S) (k : reply S c -> prog S A) Q :
  (forall r, P [] (ev c r) /\
     safe (fun h => P (ev c r :: h)) (k r) (fun t b => Q (ev c r :: t) b)) ->
  safe P (Call c k) Q.
Proof.
  intros H tr b (r&tr'&->&Hk). destruct (H r) as [Hr Hs]. apply Hs in Hk as [Hg HQ].
  split; [|done]. by apply guarded_cons.
Qed.

Lemma safe_bind {A B} P (p : prog S A) (f : A -> prog S B) Q1 Q :
  safe P p Q1 ->
  (forall a t1, Q1 t1 a -> safe (fun h => P (t1 ++ h)) (f a) (fun t2 b => Q (t1 ++ t2) b)) ->
  safe P (bind p f) Q.
Proof.
  intros Hp Hf tr b (t1&t2&a&->&Ha&Hb)%runs_bind. apply Hp in Ha as [Hg1 HQ1].
  apply (Hf _ _ HQ1) in Hb as [Hg2 HQ]. split; [by apply guarded_app|done].
Qed.

Lemma safe_bind_try {A B E} P (p : prog S (result A E)) (f : A -> prog S (result B E)) Q1 Q :
  safe P p Q1 ->
  (forall e t, Q1 t (Err e) -> Q t (Err e)) ->
  (forall a t1, Q1 t1 (Ok a) ->
     safe (fun h => P (t1 ++ h)) (f a) (fun t2 b => Q (t1 ++ t2) b)) ->
  safe P (bind_try p f) Q.
Proof.
  intros Hp He Hf. eapply safe_bind; [exact Hp|]. intros [a|e] t1 HQ1; [by apply Hf|].
  apply safe_ret. rewrite app_nil_r. by apply He.
Qed.

Lemma safe_conseq {A} P P' (p : prog S A) (Q Q' : list (event S) -> A -> Prop) :
  safe P p Q -> (forall h e, P h e -> P' h e) -> (forall t a, Q t a -> Q' t a) -> safe P' p Q'.
Proof.
  intros H HP HQ tr a [Hg Hq]%H. split; [|by apply HQ].
  eapply guarded_impl; [|exact Hg]. auto.
Qed.
End safe.

(** A lifted program makes no call outside its own interface. *)
Lemma safe_lift {S T A} `{!Sub S T} (P : list (event T) -> event T -> Prop) (p : prog S A) :
  (forall h c r, P h (ev (inj (S := S) c) r)) ->
  safe P (lift p) (fun t a => exists tr0, Forall2 embeds tr0 t /\ runs p tr0 a).
Proof.
  intros HP tr a (tr0&He&Hr)%runs_lift. split; [|eauto].
  intros t1 [c r] t2 ->. apply embeds_calls in He. apply Forall_app in He as [_ He].
  inversion He as [|? ? [c' Hc] _]; subst. simpl in Hc. subst c. apply HP.
Qed.

(** What holds of a program's own trace holds of the lifted one. *)
Lemma safe_lift_guarded {S T A} `{!Sub S T} (P0 : list (event S) -> event S -> Prop) (P : list (event T) -> event T -> Prop)
    (p : prog S A) Q0 :
  safe P0 p Q0 ->
  (forall h0 h e0 e, Forall2 embeds h0 h -> embeds e0 e -> P0 h0 e0 -> P h e) ->
  safe P (lift p) (fun t a => exists t0, Forall2 embeds t0 t /\ Q0 t0 a).
Proof.
  intros Hp HP tr a (tr0&He&Hr)%runs_lift. apply Hp in Hr as [Hg HQ]. split; [|eauto].
  intros t1 e t2 ->. apply Forall2_app_inv_r in He as (u1&u2&He1&He2&->).
  inversion He2 as [|e0 ? u2' ? He0 _]; subst. eapply HP; [done..|]. by apply (Hg u1 e0 u2').
Qed.

(** What a program has seen is seen of the lifted one. *)
Lemma saw_lifted {S T} `{!Sub S T} (c : call S) a tr0 (tr : list (event T)) :
  Forall2 embeds tr0 tr -> saw (T := S) c a tr0 -> saw c a tr.
Proof. intros He (r&Hr&<-). by eapply saw_embeds. Qed.

Lemma safe_trigger {S T} `{!Sub S T} (P : list (event T) -> event T -> Prop) (c : call S) :
  (forall r, P [] (ev (inj c) r)) ->
  safe P (trigger c) (fun t a => saw c a t).
Proof.
  intros HP tr a (r&->&->)%runs_trigger. split; [|by eexists; split; [left|]].
  apply guarded_cons. split; [apply HP|apply guarded_nil].
Qed.

(** Seen through one more layer of a sum. *)
Lemma saw_inr {S T U} `{!Sub S T} (c : call S) a (tr0 : list (event T)) (tr : list (event (U ⊕ T))) :
  Forall2 embeds tr0 tr -> saw c a tr0 -> saw c a tr.
Proof.
  intros He (r&Hr&Ha). destruct (saw_embeds (T := U ⊕ T) _ _ _ _ He Hr) as (r'&Hr'&Hp).
  exists r'. split; [exact Hr'|]. simpl in *. by rewrite Hp.
Qed.

Lemma saw_inl {S T U} `{!Sub S T} (c : call S) a (tr0 : list (event T)) (tr : list (event (T ⊕ U))) :
  Forall2 embeds tr0 tr -> saw c a tr0 -> saw c a tr.
Proof.
  intros He (r&Hr&Ha). destruct (saw_embeds (T := T ⊕ U) _ _ _ _ He Hr) as (r'&Hr'&Hp).
  exists r'. split; [exact Hr'|]. simpl in *. by rewrite Hp.
Qed.

(** Closes the side conditions of [safe_conseq] that only regroup a trace. *)
Ltac shift_trace := intros ? ?; cbv beta; by rewrite <-!app_assoc.

(** ** Loops over a mutable state

    [for_each]: a [for] loop whose body may return early with [?]; the state
    the body has changed by then stays.  [fold_prog]: a loop that handles its
    own errors. *)

Fixpoint for_each {S K T E} (body : K -> T -> prog S (result unit E * T)) (l : list K) (s : T)
    : prog S (result unit E * T) :=
  match l with
  | [] => Ret (Ok tt, s)
  | k :: l' => do?! _u, s' <- body k s; for_each body l' s'
  end.

Fixpoint fold_prog {S K T} (body : K -> T -> prog S T) (l : list K) (s : T) : prog S T :=
  match l with
  | [] => Ret s
  | k :: l' => do s' <- body k s; fold_prog body l' s'
  end.

(** [start..end] *)
Definition range (start stop : Z) : list Z := seqZ start (stop - start).

Section loops.
Context {S : Sig} {K T E : Type}.
Implicit Types P : list (event S) -> event S -> Prop.

(** [J l t s]: the loop invariant with the elements [l] still to come, after
    the trace [t], in state [s]. *)
Lemma safe_fold P (J : list K -> list (event S) -> T -> Prop) (body : K -> T -> prog S T) l s t0 :
  (forall k l' s t, J (k :: l') t s ->
     safe (fun h => P (t ++ h)) (body k s) (fun t' s' => J l' (t ++ t') s')) ->
  J l t0 s ->
  safe (fun h => P (t0 ++ h)) (fold_prog body l s) (fun t s' => J [] (t0 ++ t) s').
Proof.
  intros Hbody. revert s t0. induction l as [|k l IH]; intros s t0 HJ; simpl.
  { apply safe_ret. by rewrite app_nil_r. }
  eapply safe_bind; [by apply Hbody|]. intros s' t1 HJ'. simpl in HJ'.
  eapply safe_conseq; [apply (IH s' (t0 ++ t1) HJ')| |]; shift_trace.
Qed.

Lemma safe_for_each P (J : list K -> list (event S) -> T -> Prop) (Jerr : list (event S) -> T -> E -> Prop)
    (body : K -> T -> prog S (result unit E * T)) l s t0 :
  (forall k l' s t, J (k :: l') t s ->
     safe (fun h => P (t ++ h)) (body k s) (fun t' rs =>
       match rs.1 with Ok _ => J l' (t ++ t') rs.2 | Err e => Jerr (t ++ t') rs.2 e end)) ->
  J l t0 s ->
  safe (fun h => P (t0 ++ h)) (for_each body l s) (fun t rs =>
    match rs.1 with Ok _ => J [] (t0 ++ t) rs.2 | Err e => Jerr (t0 ++ t) rs.2 e end).
Proof.
  intros Hbody. revert s t0. induction l as [|k l IH]; intros s t0 HJ; simpl.
  { apply safe_ret. by rewrite app_nil_r. }
  eapply safe_bind; [by apply Hbody|]. intros [[u|e] s'] t1 HJ'; simpl in HJ'.
  - eapply safe_conseq; [apply (IH s' (t0 ++ t1) HJ')| |]; shift_trace.
  - apply safe_ret. by rewrite app_nil_r.
Qed.
End loops.

(** Weakest preconditions: [wp p Q] says that every run of [p] ends with [Q]; it
    computes along the program. *)
Fixpoint wp {S A} (p : prog S A) (Q : list (event S) -> A -> Prop) : Prop :=
  match p with
  | Ret a => Q [] a
  | Call c k => forall r, wp (k r) (fun t a => Q (ev c r :: t) a)
  end.

Lemma wp_runs {S A} (p : prog S A) Q : wp p Q <-> forall tr a, runs p tr a -> Q tr a.
Proof.
  revert Q. induction p as [a|c k IH]; intros Q; cbn.
  - split; [by intros H tr b [-> ->]|auto].
  - setoid_rewrite IH. split.
    + intros H tr a (r & t & -> & Hr). by apply H.
    + intros H r tr a Hr. apply H. eauto.
Qed.

Lemma wp_mono {S A} (p : prog S A) (Q Q' : list (event S) -> A -> Prop) :
  wp p Q -> (forall t a, Q t a -> Q' t a) -> wp p Q'.
Proof. rewrite !wp_runs. auto. Qed.

Lemma wp_bind {S A B} (p : prog S A) (f : A -> prog S B) Q :
  wp (bind p f) Q <-> wp p (fun t a => wp (f a) (fun t' b => Q (t ++ t') b)).
Proof.
  revert Q. induction p as [a|c k IH]; intros Q; cbn; [done|]. by setoid_rewrite IH.
Qed.

(** A loop keeps what each round keeps. *)
Lemma wp_fold {S K T} (I : T -> Prop) (body : K -> T -> prog S T) l s :
  (forall k s, k ∈ l -> I s -> wp (body k s) (fun _ s' => I s')) -> I s -> wp (fold_prog body l s) (fun _ s' => I s').
Proof.
  revert s. induction l as [|k l IH]; intros s Hb Hs; cbn; [done|]. apply wp_bind.
  eapply wp_mono; [apply Hb; [set_solver|done]|]. intros ? s' Hs'. apply IH; [|done]. set_solver.
Qed.

Lemma wp_try {S A B E} (p : prog S (result A E)) (f : A -> prog S (result B E)) Q :
  wp p (fun t r => match r with
                   | Ok a => wp (f a) (fun t' b => Q (t ++ t') b)
                   | Err e => Q t (Err e)
                   end) -> wp (bind_try p f) Q.
Proof.
  intros H. apply wp_bind. eapply wp_mono; [exact H|]. intros t [a|e]; [done|]. cbn. by rewrite app_nil_r.
Qed.

(** What holds of every run of a program holds of it inside a larger interface. *)
Lemma wp_lift {S T A} `{!Sub S T} (p : prog S A) (Q : list (event T) -> A -> Prop) :
  (forall tr0 tr a, runs p tr0 a -> Forall2 embeds tr0 tr -> Q tr a) -> wp (lift p) Q.
Proof. intros HQ. apply wp_runs. intros tr a (tr0 & He & Hr)%runs_lift. by eapply HQ. Qed.

(** The same after calls that were made already *)
Definition wp_after {S A} (t0 : list (event S)) (p : prog S A) (Q : list (event S) -> A -> Prop) : Prop :=
  wp p (fun t a => Q (t0 ++ t) a).

Lemma wp_after_ret {S A} t0 (a : A) (Q : list (event S) -> A -> Prop) : Q t0 a -> wp_after t0 (Ret a) Q.
Proof. unfold wp_after. cbn. by rewrite app_nil_r. Qed.

Lemma wp_after_call {S A} t0 c (k : reply S c -> prog S A) Q :
  (forall r, wp_after (t0 ++ [ev c r]) (k r) Q) -> wp_after t0 (Call c k) Q.
Proof.
  intros H r. eapply wp_mono; [apply (H r)|]. intros t a HQ. cbn in HQ. by rewrite <- app_assoc in HQ.
Qed.

Lemma wp_after_bind {S A B} t0 (p : prog S A) (f : A -> prog S B) Q :
  wp_after t0 p (fun t a => wp_after t (f a) Q) -> wp_after t0 (bind p f) Q.
Proof.
  intros H. apply wp_bind. eapply wp_mono; [exact H|]. intros t a HQ. eapply wp_mono; [exact HQ|].
  intros t' b HQ'. by rewrite app_assoc.
Qed.

Lemma wp_after_mono {S A} t0 (p : prog S A) (Q Q' : list (event S) -> A -> Prop) :
  wp_after t0 p Q -> (forall t a, Q t a -> Q' t a) -> wp_after t0 p Q'.
Proof. intros H HQ. eapply wp_mono; [exact H|]. intros t a. apply HQ. Qed.


(** Symbolic execution of a [safe] goal: [sym_call r] takes the next call and
    names its reply. *)
Ltac sym_simpl := cbn [bind bind_try bind_try_st bind_try_mut runs map_err fst snd
  inj prj sub_inl sub_inr sub_refl].
Tactic Notation "sym_call" simple_intropattern(r) :=
  let x := fresh in sym_simpl; apply safe_call; intros x; split; [|destruct x as r; sym_simpl].

(** Finds an event of a trace that is written out. *)
Ltac find_event :=
  repeat first
    [ exact (list_elem_of_here _ _)
    | apply elem_of_cons; right
    | apply elem_of_app; right ].
Ltac seen := eexists; split; [find_event|reflexivity].

(** ** Specifications of computations with concurrency *)

Definition csafe {S A} (P : list (event S) -> event S -> Prop) (c : comp S A)
    (Q : list (event S) -> A -> Prop) : Prop :=
  forall tr a, c tr a -> guarded P tr /\ Q tr a.

Lemma csafe_runs {S A} P (p : prog S A) Q : safe P p Q -> csafe P (runs p) Q.
Proof. done. Qed.

Lemma csafe_ret {S A} P (a : A) (Q : list (event S) -> A -> Prop) :
  Q [] a -> csafe P (runs (Ret a)) Q.
Proof. intros HQ. by apply csafe_runs, safe_ret. Qed.

Lemma csafe_cbind {S A B} P (c : comp S A) (k : A -> comp S B) Q1 Q :
  csafe P c Q1 ->
  (forall a t1, Q1 t1 a -> csafe (fun h => P (t1 ++ h)) (k a) (fun t2 b => Q (t1 ++ t2) b)) ->
  csafe P (cbind c k) Q.
Proof.
  intros Hc Hk tr b (t1&t2&a&->&Ha&Hb). apply Hc in Ha as [Hg1 HQ1].
  apply (Hk _ _ HQ1) in Hb as [Hg2 HQ]. split; [by apply guarded_app|done].
Qed.

Lemma csafe_conseq {S A} P P' (c : comp S A) (Q Q' : list (event S) -> A -> Prop) :
  csafe P c Q -> (forall h e, P h e -> P' h e) -> (forall t a, Q t a -> Q' t a) -> csafe P' c Q'.
Proof.
  intros H HP HQ tr a [Hg Hq]%H. split; [|by apply HQ]. eapply guarded_impl; [|exact Hg]. auto.
Qed.

(** Each result of a pool comes from a run of its task inside the pool's trace. *)
Lemma buffer_unordered_runs {S K A} n (tasks : list (K * prog S A)) tr out k a :
  buffer_unordered n tasks tr out -> (k, a) ∈ out ->
  exists p t, (k, p) ∈ tasks /\ runs p t a /\ t ⊆ tr.
Proof.
  intros (res&Hr&Hout&Htr&_)%prun_outcome Hin. simpl in *. rewrite Hout in Hin. clear Hout.
  assert (concat (map fst res) ⊆ tr) as Hs by (intros x; by rewrite Htr). clear Htr.
  induction Hr as [|[k' p] [t b] tasks res Ha Hr IH]; simpl in *; [by apply elem_of_nil in Hin|].
  apply elem_of_cons in Hin as [[= -> ->]|Hin].
  - exists p, t. split; [by left|]. split; [done|]. set_solver.
  - destruct IH as (p'&t'&?&?&?); [done|set_solver|]. exists p', t'. split; [by right|done].
Qed.

(** A pool whose tasks only make calls that are allowed at any time. *)
Lemma csafe_buffer {S K A} (P : list (event S) -> event S -> Prop) n (tasks : list (K * prog S A)) :
  (forall t tr a e h, t ∈ tasks -> runs t.2 tr a -> e ∈ tr -> P h e) ->
  csafe P (buffer_unordered n tasks) (fun tr out =>
    map fst out ≡ₚ map fst tasks /\
    forall k a, (k, a) ∈ out -> exists p t, (k, p) ∈ tasks /\ runs p t a /\ t ⊆ tr).
Proof.
  intros HP tr out Hrun. split.
  - assert (Forall (fun e => forall h, P h e) tr) as Hall.
    { eapply buffer_unordered_events; [exact Hrun|]. intros t tr' a Ht Hr.
      apply Forall_forall. intros e He h. by eapply HP. }
    intros t1 e t2 ->. apply Forall_app in Hall as [_ Hall]. by inversion Hall.
  - split; [by eapply buffer_unordered_keys|]. intros k a. by eapply buffer_unordered_runs.
Qed.

Lemma cbind_runs {S A B} (p : prog S A) (f : A -> prog S B) (c : comp S A) (k : A -> comp S B) tr b :
  runs (bind p f) tr b -> (forall t a, runs p t a -> c t a) ->
  (forall a t, runs (f a) t b -> k a t b) -> cbind c k tr b.
Proof. intros (t1&t2&a&->&Hp&Hf)%runs_bind Hc Hk. exists t1, t2, a. auto. Qed.

(** Guards that more history cannot invalidate. *)
Definition monotone {S} (P : list (event S) -> event S -> Prop) : Prop :=
  forall h h' e, h ⊆ h' -> P h e -> P h' e.

Section pool_guard.
Context {S : Sig} {K A : Type} (P : list (event S) -> event S -> Prop) (HP : monotone P).

(** Every run of [p] is guarded when it starts after [H]. *)
Definition safe_after (H : list (event S)) (p : prog S A) : Prop :=
  forall tr a, runs p tr a -> guarded (fun h => P (H ++ h)) tr.

Lemma safe_after_mono H H' p : H ⊆ H' -> safe_after H p -> safe_after H' p.
Proof.
  intros Hs Hp tr a Hr. eapply guarded_impl; [|by eapply Hp].
  intros h e _. apply HP. intros x [?|?]%elem_of_app; apply elem_of_app; auto.
Qed.

Lemma safe_after_step H c k r : safe_after H (Call c k) -> safe_after (H ++ [ev c r]) (k r).
Proof.
  intros Hp tr a Hr. specialize (Hp (ev c r :: tr) a). apply guarded_cons in Hp as [_ Hg].
  - eapply guarded_impl; [|exact Hg]. intros h e _. cbv beta. by rewrite <-app_assoc.
  - by exists r, tr.
Qed.

Lemma prun_guarded n (fl q : list (K * prog S A)) tr out :
  prun n fl q tr out -> forall H,
  Forall (fun t => safe_after H t.2) fl -> Forall (fun t => safe_after H t.2) q ->
  guarded (fun h => P (H ++ h)) tr.
Proof.
  induction 1 as [|fl t q tr out _ _ IH|fl1 k c kont fl2 q r tr out Hrun IH
                 |fl1 k a fl2 q tr out _ IH]; intros H Hfl Hq.
  - apply guarded_nil.
  - apply Forall_cons in Hq as [Ht Hq]. apply IH; [|done]. apply Forall_app_2; [done|].
    constructor; [done|constructor].
  - apply Forall_app in Hfl as [H1 [Hc H2]%Forall_cons]. simpl in Hc.
    assert (forall l : list (K * prog S A), Forall (fun t => safe_after H t.2) l ->
      Forall (fun t => safe_after (H ++ [ev c r]) t.2) l) as Hmono.
    { intros l Hl. eapply Forall_impl; [exact Hl|]. intros t. apply safe_after_mono, subseteq_app_l. }
    apply guarded_cons. split.
    + apply prun_outcome in Hrun as (res&Hres&_). rewrite <-app_assoc in Hres.
      apply Forall2_app_inv_l in Hres as (r1&r2&_&([t a]&r2'&Hr&_&_)%Forall2_cons_inv_l&_).
      specialize (Hc (ev c r :: t) a). apply guarded_cons in Hc as [Hc _]; [done|]. by exists r, t.
    + eapply guarded_impl; [|apply (IH (H ++ [ev c r]))].
      * intros h e _. cbv beta. by rewrite <-app_assoc.
      * apply Forall_app_2; [by apply Hmono|]. constructor; [by apply safe_after_step|by apply Hmono].
      * by apply Hmono.
  - apply Forall_app in Hfl as [H1 [_ H2]%Forall_cons]. apply IH; [|done]. by apply Forall_app_2.
Qed.

(** A pool of guarded tasks is guarded. *)
Lemma csafe_pool n (tasks : list (K * prog S A)) t0 :
  (forall t, t ∈ tasks -> safe_after t0 t.2) ->
  csafe (fun h => P (t0 ++ h)) (buffer_unordered n tasks) (fun tr out =>
    map fst out ≡ₚ map fst tasks /\
    forall k a, (k, a) ∈ out -> exists p t, (k, p) ∈ tasks /\ runs p t a /\ t ⊆ tr).
Proof.
  intros Ht tr out Hrun. split; [|split].
  - eapply prun_guarded; [exact Hrun|constructor|]. by apply Forall_forall.
  - by eapply buffer_unordered_keys.
  - intros k a. by eapply buffer_unordered_runs.
Qed.
End pool_guard.

(** ** Systems: programs that share a state

    Instances of the programs [api] start at any time, run interleaved one call
    at a time against a shared state, and may be dropped at any call. *)

Section system.
Context {S : Sig} {D : Type} (step : D -> event S -> D -> Prop) (start : D).
Context (api : prog S unit -> Prop).

Inductive reach : list (event S) -> D -> list (prog S unit) -> Prop :=
| reach_start : reach [] start []
| reach_spawn h d ts p : reach h d ts -> api p -> reach h d (p :: ts)
| reach_call h d ts1 c k ts2 r d' :
    reach h d (ts1 ++ Call c k :: ts2) -> step d (ev c r) d' ->
    reach (h ++ [ev c r]) d' (ts1 ++ k r :: ts2)
| reach_drop h d ts1 p ts2 : reach h d (ts1 ++ p :: ts2) -> reach h d (ts1 ++ ts2).

Context (some_reply : forall c, reply S c).
Context (P : list (event S) -> event S -> Prop) (HP : monotone P).
Context (Hapi : forall p, api p -> safe_after P [] p).

Lemma safe_after_call H c k r : safe_after (A := unit) P H (Call c k) -> P H (ev c r).
Proof.
  intros Hp. destruct (runs_total (k r) some_reply) as (tr&a&Hr).
  specialize (Hp (ev c r :: tr) a ltac:(by exists r, tr)).
  apply guarded_cons in Hp as [Hg _]. by rewrite app_nil_r in Hg.
Qed.

Lemma reach_safe h d ts : reach h d ts -> Forall (safe_after P h) ts.
Proof.
  induction 1 as [|h d ts p _ IH Hp|h d ts1 c k ts2 r d' _ IH _|h d ts1 p ts2 _ IH].
  - constructor.
  - constructor; [|done]. eapply safe_after_mono; [done| |by apply Hapi]. apply list_subseteq_nil.
  - apply Forall_app in IH as [H1 [Hc H2]%Forall_cons].
    assert (forall l : list (prog S unit), Forall (safe_after P h) l ->
      Forall (safe_after P (h ++ [ev c r])) l) as Hmono.
    { intros l Hl. eapply Forall_impl; [exact Hl|]. intros p. apply safe_after_mono, subseteq_app_l.
      done. }
    apply Forall_app_2; [by apply Hmono|]. constructor; [by apply safe_after_step|by apply Hmono].
  - apply Forall_app in IH as [H1 [_ H2]%Forall_cons]. by apply Forall_app_2.
Qed.

(** An invariant of the history and the state, kept by every guarded step. *)
Lemma reach_invariant (Inv : list (event S) -> D -> Prop) :
  Inv [] start ->
  (forall h d e d', Inv h d -> P h e -> step d e d' -> Inv (h ++ [e]) d') ->
  forall h d ts, reach h d ts -> Inv h d.
Proof.
  intros H0 Hstep h d ts Hr.
  induction Hr as [|h d ts p _ IH Hp|h d ts1 c k ts2 r d' Hr IH Hs|h d ts1 p ts2 _ IH]; [done..| |done].
  eapply Hstep; [done| |done]. eapply safe_after_call.
  apply reach_safe, Forall_app in Hr as [_ [Hc _]%Forall_cons]. exact Hc.
Qed.
End system.
