(* ===== verification/Encoding.v ===== *)
(** * Bytes and ABI words

    Big-endian integers as byte lists, and the parts of Solidity's ABI
    encoding the protocol crate uses: 32-byte words, and a trailing [bytes]
    argument with its offset, length and padding. *)

From S2P Require Import Prelude.

(** A byte string is a list of integers between 0 and 255. *)
Abbreviation bytes := (list Z).

Definition is_bytes (l : bytes) : Prop := Forall (fun b => 0 <= b < 256) l.

(** [to_be_bytes] of an integer of [w] bytes *)
Fixpoint be_bytes (w : nat) (n : Z) : bytes :=
  match w with
  | O => []
  | S w' => (n / 256 ^ Z.of_nat w') mod 256 :: be_bytes w' n
  end.

(** The integer a byte string spells. *)
Definition be_val (l : bytes) : Z := foldl (fun acc b => acc * 256 + b) 0 l.

Lemma be_bytes_length w n : length (be_bytes w n) = w.
Proof. induction w; simpl; congruence. Qed.

Lemma be_bytes_is_bytes w n : is_bytes (be_bytes w n).
Proof.
  induction w; simpl; constructor; [|done]. by apply Z.mod_pos_bound.
Qed.

Lemma be_val_acc l a : foldl (fun acc b => acc * 256 + b) a l = a * 256 ^ Z.of_nat (length l) + be_val l.
Proof.
  unfold be_val. revert a. induction l as [|b l IH]; intros a; cbn [foldl length]; [lia|].
  rewrite IH, (IH (0 * 256 + b)), Nat2Z.inj_succ, Z.pow_succ_r by lia. lia.
Qed.

Lemma be_val_app l k : be_val (l ++ k) = be_val l * 256 ^ Z.of_nat (length k) + be_val k.
Proof. unfold be_val at 1. rewrite foldl_app. apply be_val_acc. Qed.

Lemma be_val_bytes w n : be_val (be_bytes w n) = n mod 256 ^ Z.of_nat w.
Proof.
  induction w as [|w IH]; [by rewrite Z.mod_1_r|].
  cbn [be_bytes]. change (?x :: ?l) with ([x] ++ l).
  rewrite be_val_app, be_bytes_length, IH. unfold be_val at 1. cbn [foldl].
  rewrite Nat2Z.inj_succ, Z.pow_succ_r, (Z.mul_comm 256) by lia.
  rewrite (Z.rem_mul_r n (256 ^ Z.of_nat w) 256) by lia. lia.
Qed.

Lemma be_val_bound l : is_bytes l -> 0 <= be_val l < 256 ^ Z.of_nat (length l).
Proof.
  induction l as [|b l IH] using rev_ind; intros H.
  - unfold be_val. simpl. lia.
  - apply Forall_app in H as [Hl [Hb _]%Forall_cons]. specialize (IH Hl).
    rewrite be_val_app, length_app, Nat2Z.inj_add. simpl length.
    rewrite Z.pow_add_r by lia. unfold be_val at 2 4. cbn [foldl].
    change (Z.of_nat 1) with 1. rewrite Z.pow_1_r. nia.
Qed.

Lemma be_bytes_add_high w n b v :
  (w <= n)%nat -> be_bytes w (b * 256 ^ Z.of_nat n + v) = be_bytes w v.
Proof.
  induction w as [|w IHw]; intros Hle; simpl; [done|]. f_equal; [|apply IHw; lia].
  replace (Z.of_nat n) with (Z.of_nat (n - w - 1) + 1 + Z.of_nat w) by lia.
  rewrite !Z.pow_add_r by lia.
  replace (b * (256 ^ Z.of_nat (n - w - 1) * 256 ^ 1 * 256 ^ Z.of_nat w))
    with ((b * 256 ^ Z.of_nat (n - w - 1) * 256) * 256 ^ Z.of_nat w) by lia.
  rewrite Z.div_add_l by lia. rewrite Z.add_comm. by rewrite Z.mod_add.
Qed.

Lemma be_bytes_val n l :
  is_bytes l -> length l = n -> be_bytes n (be_val l) = l.
Proof.
  revert l. induction n as [|n IH]; intros [|b l] Hl Hlen; simplify_eq/=; [done|].
  apply Forall_cons in Hl as [Hb Hl].
  assert (be_val (b :: l) = b * 256 ^ Z.of_nat (length l) + be_val l) as ->.
  { change (b :: l) with ([b] ++ l). by rewrite be_val_app. }
  pose proof (be_val_bound l Hl). f_equal.
  - rewrite Z.div_add_l, (Z.div_small (be_val l)) by lia.
    rewrite Z.add_0_r. by apply Z.mod_small.
  - rewrite be_bytes_add_high by done. by apply IH.
Qed.

Lemma be_bytes_inj w n m :
  0 <= n < 256 ^ Z.of_nat w -> 0 <= m < 256 ^ Z.of_nat w ->
  be_bytes w n = be_bytes w m -> n = m.
Proof.
  intros Hn Hm H%(f_equal be_val). rewrite !be_val_bytes in H.
  by rewrite !Z.mod_small in H by done.
Qed.

(** ** ABI words *)

Definition abi_word (n : Z) : bytes := be_bytes 32 n.

Lemma abi_word_length n : length (abi_word n) = 32%nat.
Proof. apply be_bytes_length. Qed.

Lemma abi_word_inj n m : u256 n -> u256 m -> abi_word n = abi_word m -> n = m.
Proof.
  intros Hn Hm. apply be_bytes_inj; change (256 ^ Z.of_nat 32) with (U256_MAX + 1);
    unfold u256 in *; lia.
Qed.

(** Zero padding of [bytes] to a whole number of words *)
Definition abi_pad (l : bytes) : bytes :=
  l ++ replicate ((32 - length l mod 32) mod 32)%nat 0.

(** A dynamic [bytes] argument's tail: its length and its padded contents *)
Definition abi_bytes_tail (l : bytes) : bytes := abi_word (Z.of_nat (length l)) ++ abi_pad l.

(** Words of equal length at the front of two strings can be compared. *)
Lemma app_word_inj n m l k :
  u256 n -> u256 m -> abi_word n ++ l = abi_word m ++ k -> n = m /\ l = k.
Proof.
  intros Hn Hm H. apply app_inj_1 in H as [H ->]; [|by rewrite !abi_word_length].
  split; [by apply abi_word_inj|done].
Qed.

Lemma u64_u256 x : u64 x -> u256 x.
Proof. unfold u64, u256, U64_MAX, U256_MAX. lia. Qed.

Lemma u8_u64 x : u8 x -> u64 x.
Proof. unfold u8, u64, U8_MAX, U64_MAX. lia. Qed.

#[export] Hint Resolve u64_u256 u8_u64 : wc.
