(* ===== verification/ProofTypes.v ===== *)
(** * Shared protocol types ([src/proofs/protocol/src/types.rs], [proof_game.rs])

    Statuses, proof lanes and bitmaps, the commitments a game is identified
    by, the compact proof payload, and the check a worker makes of a queued
    job against the game it defends. *)

From S2P Require Import Prelude Encoding.

(** An [Address] (20 bytes) and a [B256] are the integers their big-endian
    bytes spell. *)
Abbreviation Address := Z (only parsing).
Abbreviation B256 := Z (only parsing).

Definition ADDRESS_MAX : Z := 2 ^ 160 - 1.
Definition address (a : Z) : Prop := 0 <= a <= ADDRESS_MAX.

(** [Address::ZERO] *)
Definition ZERO : Address := 0.

Definition PROOF_THRESHOLD : Z := 2.
Definition PROOF_LANE_COUNT : nat := 3.
Definition PROOF_SYSTEM_VERSION : Z := 1.
Definition MULTI_PROOF_GAME_TYPE : Z := 1006.
Definition MAX_ATTEMPT_SCAN : nat := 64.
Definition PROOF_HEADER_LENGTH : nat := 21.

(** ** Statuses *)

Inductive GameStatus := InProgress | ChallengerWins | DefenderWins.
#[export] Instance GameStatus_eq_dec : EqDecision GameStatus.
Proof. solve_decision. Defined.

Inductive GameStatusError := InvalidGameStatus (value : Z).

Definition GameStatus_try_from (value : Z) : result GameStatus GameStatusError :=
  match value with
  | 0 => Ok InProgress
  | 1 => Ok ChallengerWins
  | 2 => Ok DefenderWins
  | _ => Err (InvalidGameStatus value)
  end.

Definition GameStatus_u8 (s : GameStatus) : Z :=
  match s with InProgress => 0 | ChallengerWins => 1 | DefenderWins => 2 end.

Inductive ProposalStatus :=
| Unchallenged
| Challenged
| UnchallengedAndValidProofProvided
| ChallengedAndValidProofProvided
| Resolved.
#[export] Instance ProposalStatus_eq_dec : EqDecision ProposalStatus.
Proof. solve_decision. Defined.

Definition has_sufficient_proof_support (s : ProposalStatus) : bool :=
  match s with
  | UnchallengedAndValidProofProvided | ChallengedAndValidProofProvided => true
  | _ => false
  end.

Definition is_challengeable (s : ProposalStatus) : bool :=
  match s with
  | Unchallenged | UnchallengedAndValidProofProvided => true
  | _ => false
  end.

Inductive ProposalStatusError := InvalidProposalStatus (value : Z).

Definition ProposalStatus_try_from (value : Z) : result ProposalStatus ProposalStatusError :=
  match value with
  | 0 => Ok Unchallenged
  | 1 => Ok Challenged
  | 2 => Ok UnchallengedAndValidProofProvided
  | 3 => Ok ChallengedAndValidProofProvided
  | 4 => Ok Resolved
  | _ => Err (InvalidProposalStatus value)
  end.

Definition ProposalStatus_u8 (s : ProposalStatus) : Z :=
  match s with
  | Unchallenged => 0
  | Challenged => 1
  | UnchallengedAndValidProofProvided => 2
  | ChallengedAndValidProofProvided => 3
  | Resolved => 4
  end.

Inductive InvalidationReason := NoReason | ProofTimeout | InvalidParent.
#[export] Instance InvalidationReason_eq_dec : EqDecision InvalidationReason.
Proof. solve_decision. Defined.

Inductive InvalidationReasonError := InvalidReason (value : Z).

Definition InvalidationReason_try_from (value : Z)
    : result InvalidationReason InvalidationReasonError :=
  match value with
  | 0 => Ok NoReason
  | 1 => Ok ProofTimeout
  | 2 => Ok InvalidParent
  | _ => Err (InvalidReason value)
  end.

(** The enum constants of [LibProof.sol] in their order. *)
Definition InvalidationReason_u8 (r : InvalidationReason) : Z :=
  match r with NoReason => 0 | ProofTimeout => 1 | InvalidParent => 2 end.

Record ResolutionStatus := {
  status : GameStatus;
  resolvable : bool;
  outcome : GameStatus;
  invalidation_reason : InvalidationReason
}.
#[export] Instance ResolutionStatus_eq_dec : EqDecision ResolutionStatus.
Proof. solve_decision. Defined.

Definition positive_resolvable (s : ResolutionStatus) : bool :=
  resolvable s && bool_decide (outcome s = DefenderWins).

Definition invalid_parent_resolvable (s : ResolutionStatus) : bool :=
  resolvable s && bool_decide (outcome s = ChallengerWins)
    && bool_decide (invalidation_reason s = InvalidParent).

Definition is_resolved (s : ResolutionStatus) : bool :=
  bool_decide (status s <> InProgress).

Record ClaimData := {
  claim_status : ProposalStatus;
  claim_challenger : Address;
  claim_deadline : Z;
  claim_proof_bitmap : Z;
  claim_invalidation_reason : InvalidationReason
}.

(** ** Proof lanes *)

Inductive ProofLane := ValidityProof | TeeAttestation | SecurityCouncil.
#[export] Instance ProofLane_eq_dec : EqDecision ProofLane.
Proof. solve_decision. Defined.

Definition lane_u8 (lane : ProofLane) : Z :=
  match lane with ValidityProof => 0 | TeeAttestation => 1 | SecurityCouncil => 2 end.

Definition mask (lane : ProofLane) : Z := Z.shiftl 1 (lane_u8 lane).

(** The [while index < PROOF_LANE_COUNT] loop: [n] iterations are left. *)
Fixpoint proof_count_loop (n : nat) (bitmap index count : Z) : Z :=
  match n with
  | O => count
  | S n' =>
      let count' := if Z.land bitmap (Z.shiftl 1 index) =? 0 then count else count + 1 in
      proof_count_loop n' bitmap (index + 1) count'
  end.

Definition proof_count (bitmap : Z) : Z := proof_count_loop PROOF_LANE_COUNT bitmap 0 0.

Definition has_threshold (bitmap : Z) : bool := PROOF_THRESHOLD <=? proof_count bitmap.

Definition encode_compact_proof (lane : ProofLane) (recipient : Address) (proof : bytes) : bytes :=
  [lane_u8 lane] ++ be_bytes 20 recipient ++ proof.

(** [LibProof.decodeCompact]: the header word is loaded from the calldata, so
    it takes in whatever follows the payload there ([rest]); reads beyond the
    calldata are zero. *)
Definition calldataload (data : bytes) : Z := be_val (take 32 (data ++ replicate 32 0)).

Definition decodeCompact (compact rest : bytes) : Z * Address * bytes :=
  let header := calldataload (compact ++ rest) in
  (Z.shiftr header 248,
   Z.shiftr (Z.shiftl header 8 mod 2 ^ 256) 96,
   drop PROOF_HEADER_LENGTH compact).

(** ** Commitments *)

Record ProofDomain := {
  chain_id : Z;
  proof_system_version : Z;
  rollup_config_hash : B256;
  block_interval : Z
}.

Record ProposalCommitment := {
  parent_ref : Address;
  root_claim : B256;
  l2_block_number : Z;
  attempt : Z
}.

Record RootCommitment := {
  proposal : ProposalCommitment;
  l1_origin_hash : B256;
  l1_origin_number : Z
}.

(** The bytes [ProofDomain::hash], [game_uuid] and [root_id] hash. *)
Definition domain_preimage (d : ProofDomain) : bytes :=
  abi_word (chain_id d) ++ abi_word (proof_system_version d)
    ++ abi_word (rollup_config_hash d) ++ abi_word (block_interval d).

Definition extra_data (c : ProposalCommitment) (domain_hash : B256) : bytes :=
  abi_word domain_hash ++ abi_word (l2_block_number c)
    ++ abi_word (parent_ref c) ++ abi_word (attempt c).

Definition uuid_preimage (c : ProposalCommitment) (domain_hash : B256) : bytes :=
  abi_word MULTI_PROOF_GAME_TYPE ++ abi_word (root_claim c) ++ abi_word 96
    ++ abi_bytes_tail (extra_data c domain_hash).

Definition root_preimage (c : RootCommitment) (domain_hash : B256) : bytes :=
  abi_word domain_hash ++ abi_word (parent_ref (proposal c))
    ++ abi_word (root_claim (proposal c)) ++ abi_word (l2_block_number (proposal c))
    ++ abi_word (l1_origin_hash c) ++ abi_word (l1_origin_number c).

Section keccak.
(** The hash function is a parameter. *)
Variable keccak256 : bytes -> B256.

Definition domain_hash (d : ProofDomain) : B256 := keccak256 (domain_preimage d).
Definition game_uuid (c : ProposalCommitment) (domain : B256) : B256 :=
  keccak256 (uuid_preimage c domain).
Definition root_id (c : RootCommitment) (domain : B256) : B256 :=
  keccak256 (root_preimage c domain).
Definition root_game_uuid (c : RootCommitment) (domain : B256) : B256 :=
  game_uuid (proposal c) domain.
End keccak.

(** ** Game context of a proof job ([proof_game.rs]) *)

Record ProofGameContext := {
  ctx_block_interval : Z;
  ctx_rollup_config_hash : B256;
  ctx_root_claim : B256;
  ctx_l2_block_number : Z;
  ctx_l1_head : B256
}.

Inductive ProofGameContextError :=
| ContractFailure (game : Address) (error : string)
| ValueOverflow (game : Address) (field : string) (value : Z)
| RootClaimMismatch (game : Address) (expected actual : B256)
| L2BlockNumberMismatch (game : Address) (expected actual : Z)
| L1HeadMismatch (game : Address) (expected actual : B256)
| RollupConfigHashMismatch (game : Address) (expected actual : B256)
| InvalidBlockInterval (game : Address) (l2_block block_interval : Z).

Definition u256_to_u64 (game : Address) (field : string) (value : Z)
    : result Z ProofGameContextError :=
  ok_or (to_u64 value) (ValueOverflow game field value).

Definition validated_start_block (self : ProofGameContext) (game : Address)
    (root : B256) (l2_block : Z) (l1_head : B256) (config_hash : B256)
    : result Z ProofGameContextError :=
  if negb (ctx_root_claim self =? root)
  then Err (RootClaimMismatch game (ctx_root_claim self) root)
  else if negb (ctx_l2_block_number self =? l2_block)
  then Err (L2BlockNumberMismatch game (ctx_l2_block_number self) l2_block)
  else if negb (ctx_l1_head self =? l1_head)
  then Err (L1HeadMismatch game (ctx_l1_head self) l1_head)
  else if negb (ctx_rollup_config_hash self =? config_hash)
  then Err (RollupConfigHashMismatch game (ctx_rollup_config_hash self) config_hash)
  else if ctx_block_interval self =? 0
  then Err (InvalidBlockInterval game l2_block (ctx_block_interval self))
  else ok_or (checked_sub l2_block (ctx_block_interval self))
         (InvalidBlockInterval game l2_block (ctx_block_interval self)).

(** ** Lemmas *)

Definition all_lanes : list ProofLane := [ValidityProof; TeeAttestation; SecurityCouncil].

Definition lane_set (bitmap : Z) (lane : ProofLane) : bool := Z.testbit bitmap (lane_u8 lane).

Lemma land_pow2_eq0 b i : 0 <= i -> (Z.land b (Z.shiftl 1 i) =? 0) = negb (Z.testbit b i).
Proof.
  intros Hi. rewrite Z.shiftl_1_l.
  destruct (Z.eqb_spec (Z.land b (2 ^ i)) 0) as [H|H].
  - apply (f_equal (fun z => Z.testbit z i)) in H.
    rewrite Z.land_spec, Z.pow2_bits_true, Z.bits_0, andb_true_r in H by done. by rewrite H.
  - destruct (Z.testbit b i) eqn:Hb; [done|]. exfalso. apply H.
    apply Z.bits_inj'. intros n Hn. rewrite Z.land_spec, Z.bits_0.
    destruct (decide (i = n)) as [->|Hne]; [by rewrite Hb|].
    by rewrite Z.pow2_bits_false, andb_false_r.
Qed.

(** The test [bitmap & lane.mask() != 0]. *)
Lemma land_mask b lane : (Z.land b (mask lane) =? 0) = negb (lane_set b lane).
Proof. unfold mask, lane_set. apply land_pow2_eq0. by destruct lane. Qed.

Lemma proof_count_unfold b :
  proof_count b =
    Z.b2z (lane_set b ValidityProof) + Z.b2z (lane_set b TeeAttestation)
      + Z.b2z (lane_set b SecurityCouncil).
Proof.
  unfold proof_count, lane_set. cbn [proof_count_loop PROOF_LANE_COUNT lane_u8].
  rewrite !land_pow2_eq0 by lia. change (0 + 1 + 1) with 2. change (0 + 1) with 1.
  destruct (Z.testbit b 0), (Z.testbit b 1), (Z.testbit b 2); reflexivity.
Qed.

Lemma lane_set_lor b c lane : lane_set (Z.lor b c) lane = lane_set b lane || lane_set c lane.
Proof. apply Z.lor_spec. Qed.

Lemma lane_set_mask lane lane' : lane_set (mask lane) lane' = bool_decide (lane = lane').
Proof. by destruct lane, lane'. Qed.

Lemma proof_count_lor_mask b lane :
  proof_count (Z.lor b (mask lane)) = proof_count b + (if lane_set b lane then 0 else 1).
Proof.
  rewrite !proof_count_unfold, !lane_set_lor, !lane_set_mask.
  destruct lane; simpl; repeat destruct (lane_set b _); reflexivity.
Qed.

Lemma proof_count_bounds b : 0 <= proof_count b <= 3.
Proof. rewrite proof_count_unfold. repeat destruct (lane_set b _); simpl; lia. Qed.

Create Rewrite HintDb lanes.
#[export] Hint Rewrite land_mask lane_set_lor lane_set_mask proof_count_lor_mask : lanes.

(** ** Properties *)

(** the number the bitmap loop returns is the number of distinct lanes
    whose bit is set, whatever the five unused bits of the byte hold, and the
    WIP-1006 threshold is met exactly when two different lanes are set. *)
Theorem proof_count_counts_distinct_lanes bitmap :
  proof_count bitmap = Z.of_nat (length (filter (fun l => lane_set bitmap l = true) all_lanes)) /\
  (has_threshold bitmap = true <->
   exists l1 l2, l1 <> l2 /\ lane_set bitmap l1 = true /\ lane_set bitmap l2 = true).
Proof.
  unfold has_threshold, PROOF_THRESHOLD. rewrite proof_count_unfold.
  destruct (lane_set bitmap ValidityProof) eqn:E0, (lane_set bitmap TeeAttestation) eqn:E1,
    (lane_set bitmap SecurityCouncil) eqn:E2; split;
    try (unfold all_lanes; rewrite !filter_cons, !filter_nil;
         repeat (case_decide; try congruence); reflexivity);
    simpl; split; try done; try (by eauto with wc);
    try (intros _; solve
      [by exists ValidityProof, TeeAttestation | by exists ValidityProof, SecurityCouncil
      |by exists TeeAttestation, SecurityCouncil]);
    intros (l1&l2&Hne&H1&H2); destruct l1, l2; congruence.
Qed.

Lemma abi_pad_aligned l : (length l mod 32 = 0)%nat -> abi_pad l = l.
Proof. intros H. unfold abi_pad. rewrite H. apply app_nil_r. Qed.

Lemma extra_data_length c d : length (extra_data c d) = 128%nat.
Proof. unfold extra_data. by rewrite !length_app, !abi_word_length. Qed.

(** The fields of a commitment are in the ranges of their Rust types. *)
Definition proposal_ok (c : ProposalCommitment) : Prop :=
  address (parent_ref c) /\ u256 (root_claim c) /\ u64 (l2_block_number c) /\ u64 (attempt c).

Definition root_ok (c : RootCommitment) : Prop :=
  proposal_ok (proposal c) /\ u256 (l1_origin_hash c) /\ u64 (l1_origin_number c).

Lemma address_u256 a : address a -> u256 a.
Proof. unfold address, u256, ADDRESS_MAX, U256_MAX. lia. Qed.
#[export] Hint Resolve address_u256 : wc.

Lemma extra_data_inj c1 c2 d1 d2 :
  proposal_ok c1 -> proposal_ok c2 -> u256 d1 -> u256 d2 ->
  extra_data c1 d1 = extra_data c2 d2 ->
  d1 = d2 /\ l2_block_number c1 = l2_block_number c2 /\
  parent_ref c1 = parent_ref c2 /\ attempt c1 = attempt c2.
Proof.
  unfold extra_data, proposal_ok. intros ???? H. destruct_all.
  apply app_word_inj in H as [-> H]; [|done..].
  apply app_word_inj in H as [-> H]; [|eauto with wc..].
  apply app_word_inj in H as [-> H]; [|eauto with wc..].
  apply abi_word_inj in H as ->; eauto with wc.
Qed.

Lemma uuid_preimage_inj c1 c2 d1 d2 :
  proposal_ok c1 -> proposal_ok c2 -> u256 d1 -> u256 d2 ->
  uuid_preimage c1 d1 = uuid_preimage c2 d2 -> c1 = c2 /\ d1 = d2.
Proof.
  unfold uuid_preimage, abi_bytes_tail. intros H1 H2 ?? H.
  apply app_inv_head in H. pose proof H1 as (_&?&_). pose proof H2 as (_&?&_).
  apply app_word_inj in H as [Hr H]; [|done..].
  apply app_inv_head in H. rewrite !extra_data_length in H. apply app_inv_head in H.
  rewrite !abi_pad_aligned in H by (by rewrite extra_data_length).
  apply extra_data_inj in H as (->&?&?&?); [|done..].
  destruct c1, c2; naive_solver.
Qed.

Lemma root_preimage_inj c1 c2 d1 d2 :
  root_ok c1 -> root_ok c2 -> u256 d1 -> u256 d2 ->
  root_preimage c1 d1 = root_preimage c2 d2 ->
  d1 = d2 /\ parent_ref (proposal c1) = parent_ref (proposal c2) /\
  root_claim (proposal c1) = root_claim (proposal c2) /\
  l2_block_number (proposal c1) = l2_block_number (proposal c2) /\
  l1_origin_hash c1 = l1_origin_hash c2 /\ l1_origin_number c1 = l1_origin_number c2.
Proof.
  unfold root_preimage, root_ok, proposal_ok. intros ???? H. destruct_all.
  apply app_word_inj in H as [-> H]; [|done..].
  apply app_word_inj in H as [-> H]; [|eauto with wc..].
  apply app_word_inj in H as [-> H]; [|eauto with wc..].
  apply app_word_inj in H as [-> H]; [|eauto with wc..].
  apply app_word_inj in H as [-> H]; [|eauto with wc..].
  apply abi_word_inj in H as ->; [done|eauto with wc..].
Qed.

(** two proposals share a factory UUID only when every field and the
    domain agree, so each retry attempt has its own game; any other pair with
    one UUID is a collision of the hash function on the two encodings. *)
Theorem game_uuid_identifies_proposal keccak256 c1 c2 d1 d2 :
  proposal_ok c1 -> proposal_ok c2 -> u256 d1 -> u256 d2 ->
  game_uuid keccak256 c1 d1 = game_uuid keccak256 c2 d2 ->
  (c1 = c2 /\ d1 = d2) \/
  (uuid_preimage c1 d1 <> uuid_preimage c2 d2 /\
   keccak256 (uuid_preimage c1 d1) = keccak256 (uuid_preimage c2 d2)).
Proof.
  intros H1 H2 Hd1 Hd2 H.
  destruct (decide (uuid_preimage c1 d1 = uuid_preimage c2 d2)) as [Heq|Hne]; [left|by right].
  by apply uuid_preimage_inj.
Qed.

Lemma game_uuid_identifies_proposal_witness :
  let c := {| parent_ref := 4102; root_claim := 34; l2_block_number := 100; attempt := 0 |} in
  let h := be_val in
  proposal_ok c /\ u256 17 /\ game_uuid h c 17 = game_uuid h c 17 /\
  ((c = c /\ 17 = 17) \/
   (uuid_preimage c 17 <> uuid_preimage c 17 /\
    h (uuid_preimage c 17) = h (uuid_preimage c 17))).
Proof.
  intros c h. assert (proposal_ok c) as Hc.
  { repeat split; vm_compute; discriminate. }
  assert (u256 17) as H17 by (split; vm_compute; discriminate).
  split; [done|]. split; [done|]. split; [done|].
  by apply (game_uuid_identifies_proposal h c c 17 17).
Defined.

(** The fields of a proposal that its root id commits to. *)
Definition same_transition (c1 c2 : RootCommitment) : Prop :=
  parent_ref (proposal c1) = parent_ref (proposal c2) /\
  root_claim (proposal c1) = root_claim (proposal c2) /\
  l2_block_number (proposal c1) = l2_block_number (proposal c2) /\
  l1_origin_hash c1 = l1_origin_hash c2 /\ l1_origin_number c1 = l1_origin_number c2.

(** proposals with one transition and one L1 origin share their root id
    under a domain whatever their attempt numbers are, and two proposals with
    one root id have the same domain, transition and L1 origin unless their
    encodings are a collision of the hash function. *)
Theorem root_id_binds_transition keccak256 c1 c2 d1 d2 :
  root_ok c1 -> root_ok c2 -> u256 d1 -> u256 d2 ->
  (d1 = d2 /\ same_transition c1 c2 -> root_id keccak256 c1 d1 = root_id keccak256 c2 d2) /\
  (root_id keccak256 c1 d1 = root_id keccak256 c2 d2 ->
   (d1 = d2 /\ same_transition c1 c2) \/
   (root_preimage c1 d1 <> root_preimage c2 d2 /\
    keccak256 (root_preimage c1 d1) = keccak256 (root_preimage c2 d2))).
Proof.
  intros H1 H2 Hd1 Hd2. split.
  - intros (->&Hp&Hr&Hb&Hh&Hn). unfold root_id, root_preimage. by rewrite Hp, Hr, Hb, Hh, Hn.
  - intros H. destruct (decide (root_preimage c1 d1 = root_preimage c2 d2)); [left|by right].
    by apply root_preimage_inj.
Qed.

Lemma root_id_binds_transition_witness :
  let p a := {| parent_ref := 4102; root_claim := 34; l2_block_number := 100; attempt := a |} in
  let c a := {| proposal := p a; l1_origin_hash := 51; l1_origin_number := 1 |} in
  root_ok (c 0) /\ root_ok (c 1) /\ root_id be_val (c 0) 17 = root_id be_val (c 1) 17.
Proof.
  intros p c.
  assert (root_ok (c 0)) as H0 by (repeat split; vm_compute; discriminate).
  assert (root_ok (c 1)) as H1 by (repeat split; vm_compute; discriminate).
  assert (u256 17) as H17 by (split; vm_compute; discriminate).
  destruct (root_id_binds_transition be_val (c 0) (c 1) 17 17 H0 H1 H17 H17) as [H _].
  split; [exact H0|]. split; [exact H1|]. apply H.
  split; [reflexivity|]. repeat split; reflexivity.
Defined.

Lemma decodeCompact_header b0 addr tail :
  0 <= b0 < 256 -> is_bytes addr -> length addr = 20%nat -> is_bytes tail ->
  let header := calldataload (b0 :: addr ++ tail) in
  Z.shiftr header 248 = b0 /\ Z.shiftr (Z.shiftl header 8 mod 2 ^ 256) 96 = be_val addr.
Proof.
  intros Hb Ha Hlen Ht header. subst header. unfold calldataload.
  set (z := take 11 (tail ++ replicate 32 0)).
  assert (take 32 ((b0 :: addr ++ tail) ++ replicate 32 0) = [b0] ++ addr ++ z) as ->.
  { subst z. simpl. f_equal. rewrite <-app_assoc, take_app_ge, Hlen by lia. done. }
  assert (length z = 11%nat) as Hz.
  { subst z. rewrite length_take, length_app, length_replicate. lia. }
  assert (is_bytes z) as Hzb.
  { subst z. apply Forall_take, Forall_app. split; [done|].
    apply Forall_replicate. lia. }
  rewrite !be_val_app, length_app, Hlen, Hz.
  pose proof (be_val_bound addr Ha) as Hab. pose proof (be_val_bound z Hzb) as Hzv.
  rewrite Hlen in Hab. rewrite Hz in Hzv. unfold be_val at 1 4. cbn [foldl].
  change (256 ^ Z.of_nat (20 + 11)) with (2 ^ 248). change (256 ^ Z.of_nat 11) with (2 ^ 88) in *.
  change (256 ^ Z.of_nat 20) with (2 ^ 160) in *.
  rewrite !Z.shiftr_div_pow2, Z.shiftl_mul_pow2 by lia. split.
  - rewrite Z.div_add_l by lia. rewrite Z.div_small; lia.
  - replace (((0 * 256 + b0) * 2 ^ 248 + (be_val addr * 2 ^ 88 + be_val z)) * 2 ^ 8)
      with ((be_val addr * 2 ^ 96 + be_val z * 2 ^ 8) + b0 * 2 ^ 256) by lia.
    rewrite Z.mod_add, Z.mod_small by lia.
    rewrite Z.div_add_l, Z.div_small by lia. lia.
Qed.

(** what [encode_compact_proof] writes, the contract's [decodeCompact]
    reads back: lane id, recipient and proof bytes, whatever calldata follows
    the payload; and the payload is never shorter than the header. *)
Theorem compact_proof_roundtrip lane recipient proof rest :
  address recipient -> is_bytes proof -> is_bytes rest ->
  decodeCompact (encode_compact_proof lane recipient proof) rest
    = (lane_u8 lane, recipient, proof) /\
  (PROOF_HEADER_LENGTH <= length (encode_compact_proof lane recipient proof))%nat.
Proof.
  intros Hr Hp Hs. unfold decodeCompact, encode_compact_proof.
  rewrite <-!app_assoc. split; [|rewrite !length_app, be_bytes_length; unfold PROOF_HEADER_LENGTH; simpl; lia].
  change ([lane_u8 lane] ++ be_bytes 20 recipient ++ proof ++ rest)
    with (lane_u8 lane :: be_bytes 20 recipient ++ proof ++ rest).
  destruct (decodeCompact_header (lane_u8 lane) (be_bytes 20 recipient) (proof ++ rest))
    as [-> ->].
  - destruct lane; simpl; lia.
  - apply be_bytes_is_bytes.
  - apply be_bytes_length.
  - by apply Forall_app.
  - rewrite be_val_bytes, Z.mod_small by (unfold address, ADDRESS_MAX in Hr; simpl; lia).
    rewrite app_assoc, drop_app_length'; [done|].
    by rewrite length_app, be_bytes_length.
Qed.

Lemma compact_proof_roundtrip_witness :
  address 170 /\ is_bytes [187; 204] /\ is_bytes [1; 2; 3] /\
  decodeCompact (encode_compact_proof TeeAttestation 170 [187; 204]) [1; 2; 3]
    = (1, 170, [187; 204]).
Proof.
  assert (address 170) by (split; vm_compute; discriminate).
  assert (is_bytes [187; 204]) by (repeat constructor; lia).
  assert (is_bytes [1; 2; 3]) by (repeat constructor; lia).
  split; [done|]. split; [done|]. split; [done|].
  by apply (compact_proof_roundtrip TeeAttestation 170 [187; 204] [1; 2; 3]).
Defined.

(** the queued job of a worker is accepted exactly when its claim, block,
    L1 head and rollup configuration are the game's and the game's interval is
    positive and does not exceed the block; the range start returned then lies
    one interval below the block. *)
Theorem validated_start_block_spec ctx game root l2_block l1_head config_hash start :
  0 <= ctx_block_interval ctx ->
  validated_start_block ctx game root l2_block l1_head config_hash = Ok start <->
  (root = ctx_root_claim ctx /\ l2_block = ctx_l2_block_number ctx /\
   l1_head = ctx_l1_head ctx /\ config_hash = ctx_rollup_config_hash ctx) /\
  0 < ctx_block_interval ctx <= l2_block /\ start + ctx_block_interval ctx = l2_block.
Proof.
  intros Hi. unfold validated_start_block, checked_sub.
  zbool; cbn [negb ok_or]; (split;
    [intros H'; first [discriminate H' | injection H' as <-; lia]
    |intros ((?&?&?&?)&?&?); first [lia | f_equal; lia]]).
Qed.

Lemma validated_start_block_spec_witness :
  let ctx := {| ctx_block_interval := 450; ctx_rollup_config_hash := 68; ctx_root_claim := 34;
                ctx_l2_block_number := 1000; ctx_l1_head := 51 |} in
  0 <= ctx_block_interval ctx /\ validated_start_block ctx 17 34 1000 51 68 = Ok 550.
Proof.
  intros ctx. assert (0 <= ctx_block_interval ctx) as H by (vm_compute; discriminate).
  split; [exact H|]. apply (validated_start_block_spec ctx 17 34 1000 51 68 550 H).
  repeat split; vm_compute; congruence.
Defined.
