(* ===== verification/Lineage.v ===== *)
(** * Lineage selection ([src/proofs/protocol/src/lineage.rs], [consensus_provider.rs])

    The proposer and the defender rebuild, from the anchor on, the chain of
    games whose claims are the canonical output roots.  [select_lineage] is
    written against two interfaces: the contract reads of the
    [LineageProvider] trait and the L2 node of the [ConsensusProvider] trait.
    [ContractReads.v] implements both on the interfaces below them. *)

From S2P Require Import Prelude Program Encoding ProofTypes.

(** ** Consensus provider *)

Inductive ConsensusError :=
| MissingOutputRoot
| FinalizedBlockNotFound
| Rpc (message : string)
| Endpoint (endpoint : string) (source : ConsensusError)
| OutputRootMismatch (block : Z) (primary verifying : B256).

Inductive consensus_call :=
| OutputRootAtBlock (l2_block_number : Z)
| LatestL2FinalizedBlock.

Definition ConsensusSig : Sig := MkSig consensus_call (fun c =>
  match c with
  | OutputRootAtBlock _ => result B256 ConsensusError
  | LatestL2FinalizedBlock => result Z ConsensusError
  end).

Definition output_root_at_block {T} `{!Sub ConsensusSig T} (b : Z)
    : prog T (result B256 ConsensusError) :=
  trigger (S := ConsensusSig) (OutputRootAtBlock b).
Definition latest_l2_finalized_block {T} `{!Sub ConsensusSig T}
    : prog T (result Z ConsensusError) :=
  trigger (S := ConsensusSig) LatestL2FinalizedBlock.

(** ** Lineage data *)

Record LineageAnchor := { la_address : Address; la_block : Z }.
Record RecoveryParent := {
  rp_anchor : LineageAnchor;
  rp_root_claim : B256;
  rp_eligible : bool
}.
Record LineageTransition := {
  lt_parent_ref : Address;
  lt_root_claim : B256;
  lt_block : Z
}.
Record LineageGame := { lg_address : Address; lg_attempt : Z }.
Record SelectedLineageGame := {
  slg_transition : LineageTransition;
  slg_game : LineageGame
}.
Record RegisteredLineageConfig := {
  rl_domain_hash : B256;
  rl_block_interval : Z;
  rl_anchor_registry : Address
}.

Inductive LineageStop :=
| CaughtUp (target_block finalized_block : Z)
| Missing (transition : LineageTransition)
| Invalidated (transition : LineageTransition) (game : LineageGame) (status : ResolutionStatus).

Record SelectedLineage := {
  sl_anchor : LineageAnchor;
  sl_games : list SelectedLineageGame;
  sl_stop : LineageStop
}.

#[export] Instance LineageAnchor_eq_dec : EqDecision LineageAnchor.
Proof. solve_decision. Defined.
#[export] Instance LineageTransition_eq_dec : EqDecision LineageTransition.
Proof. solve_decision. Defined.
#[export] Instance LineageGame_eq_dec : EqDecision LineageGame.
Proof. solve_decision. Defined.
#[export] Instance SelectedLineageGame_eq_dec : EqDecision SelectedLineageGame.
Proof. solve_decision. Defined.
#[export] Instance LineageStop_eq_dec : EqDecision LineageStop.
Proof. solve_decision. Defined.
#[export] Instance SelectedLineage_eq_dec : EqDecision SelectedLineage.
Proof. solve_decision. Defined.

(** The texts of [LineageError::Contract], with what they interpolate. *)
Inductive contract_message :=
| MsgError (error : string)
| MsgReadRecoveryParent (game : Address) (error : string)
| MsgRecoveryParentOverflow (game : Address)
| MsgAnchorRootOverflow
| MsgNoAnchorRegistry
| MsgBlockIntervalOverflow
| MsgNoBondVault
| MsgNoImplementation (factory : Address)
| MsgReadRetryContext (game : Address) (error : string)
| MsgLookUpRetry (game : Address) (error : string)
| MsgReadResolutionStatus (game : Address) (error : string)
| MsgReadAnchorEligibility (game : Address) (error : string).

Inductive LineageError :=
| InvalidRecoveryParent (game : Address)
| NonCanonicalRecoveryParent (game : Address)
| LContract (message : contract_message)
| BlockNumberOverflow (parent_block block_interval : Z)
| ZeroBlockInterval
| LConsensus (error : ConsensusError)
| LInvalidGameStatus (error : GameStatusError)
| LInvalidInvalidationReason (error : InvalidationReasonError).

(** ** The [LineageProvider] trait

    [lineage_block_interval] is a stored constant of the provider and is an
    argument of the code that reads it. *)

Inductive lineage_call :=
| GetLineageAnchor
| GetRecoveryParent (game : Address)
| LineageAnchorClaimValid (game : Address)
| GameForTransition (transition : LineageTransition)
| LineageResolutionStatus (game : Address).

Definition LineageSig : Sig := MkSig lineage_call (fun c =>
  match c with
  | GetLineageAnchor => result LineageAnchor LineageError
  | GetRecoveryParent _ => result RecoveryParent LineageError
  | LineageAnchorClaimValid _ => result bool LineageError
  | GameForTransition _ => result (option LineageGame) LineageError
  | LineageResolutionStatus _ => result ResolutionStatus LineageError
  end).

(** A provider call, and a consensus call with the [From] conversion of its
    error that [?] applies. *)
Definition lineage {T} `{!Sub LineageSig T} (c : call LineageSig) : prog T (reply LineageSig c) :=
  trigger c.
Definition consensus {T A} (p : prog T (result A ConsensusError)) : prog T (result A LineageError) :=
  do r <- p; Ret (map_err LConsensus r).

(** The interfaces [select_lineage] is generic over. *)
Definition SelectSig : Sig := LineageSig ⊕ ConsensusSig.

Definition mk_lineage anchor games stop : SelectedLineage :=
  {| sl_anchor := anchor; sl_games := games; sl_stop := stop |}.

(** The [loop] of [select_lineage].  Every iteration but the last moves the
    parent up by the interval and stays at or below the finalized block, so
    one more than the number of intervals that fit below it is enough fuel
    ([select_loop_fuel]); [None] is running out of it. *)
Fixpoint select_loop (fuel : nat) (block_interval finalized_block : Z)
    (anchor parent : LineageAnchor) (games : list SelectedLineageGame)
    : prog SelectSig (option (result SelectedLineage LineageError)) :=
  match fuel with
  | O => Ret None
  | S fuel' =>
      match checked_add (la_block parent) block_interval with
      | None => Ret (Some (Err (BlockNumberOverflow (la_block parent) block_interval)))
      | Some l2_block_number =>
          if finalized_block <? l2_block_number
          then Ret (Some (Ok (mk_lineage anchor games (CaughtUp l2_block_number finalized_block))))
          else
            do root <- consensus (output_root_at_block l2_block_number);
            match root with
            | Err e => Ret (Some (Err e))
            | Ok root =>
                let transition := {| lt_parent_ref := la_address parent;
                                     lt_root_claim := root;
                                     lt_block := l2_block_number |} in
                do found <- lineage (GameForTransition transition);
                match found with
                | Err e => Ret (Some (Err e))
                | Ok None => Ret (Some (Ok (mk_lineage anchor games (Missing transition))))
                | Ok (Some game) =>
                    do st <- lineage (LineageResolutionStatus (lg_address game));
                    match st with
                    | Err e => Ret (Some (Err e))
                    | Ok st =>
                        if bool_decide (outcome st = ChallengerWins)
                        then Ret (Some (Ok (mk_lineage anchor games
                               (Invalidated transition game st))))
                        else
                          select_loop fuel' block_interval finalized_block anchor
                            {| la_address := lg_address game; la_block := l2_block_number |}
                            (games ++ [{| slg_transition := transition; slg_game := game |}])
                    end
                end
            end
      end
  end.

Definition loop_fuel (block_interval finalized_block parent_block : Z) : nat :=
  S (Z.to_nat ((finalized_block - parent_block) / block_interval)).

(** The block of [select_lineage] that replaces the anchor by the operator's
    recovery parent. *)
Definition recover_anchor (recovery_parent : option Address) (anchor : LineageAnchor)
    (finalized_block : Z) : prog SelectSig (result LineageAnchor LineageError) :=
  match recovery_parent with
  | None => Ret (Ok anchor)
  | Some addr =>
      if addr =? ZERO then Ret (Err (InvalidRecoveryParent addr))
      else
        do? recovery <- lineage (GetRecoveryParent addr);
        do? recovered <-
          (if la_block (rp_anchor recovery) <? la_block anchor
           then lineage (LineageAnchorClaimValid (la_address anchor))
           else Ret (Ok false));
        if recovered then Ret (Ok anchor)
        else if negb (rp_eligible recovery) then Ret (Err (InvalidRecoveryParent addr))
        else if finalized_block <? la_block (rp_anchor recovery)
        then Ret (Err (NonCanonicalRecoveryParent addr))
        else
          do? root <- consensus (output_root_at_block (la_block (rp_anchor recovery)));
          if root =? rp_root_claim recovery then Ret (Ok (rp_anchor recovery))
          else Ret (Err (NonCanonicalRecoveryParent addr))
  end.

(** A zero interval is the one way the loop could fail to advance, and is
    refused before it. *)
Definition select_lineage (block_interval : Z) (recovery_parent : option Address)
    : prog SelectSig (result SelectedLineage LineageError) :=
  if block_interval =? 0 then Ret (Err ZeroBlockInterval)
  else
    do? anchor0 <- lineage GetLineageAnchor;
    do? finalized_block <- consensus latest_l2_finalized_block;
    do? anchor <- recover_anchor recovery_parent anchor0 finalized_block;
    do out <- select_loop (loop_fuel block_interval finalized_block (la_block anchor))
                block_interval finalized_block anchor anchor [];
    Ret (match out with Some r => r | None => Err ZeroBlockInterval end).

(** ** What a selected lineage is

    [chain tr I F p gs q]: the games [gs] lead from [p] to [q] in steps of [I]
    blocks up to the finalized block [F]; the replies of [tr] say that every
    claim is the canonical root, that the game exists for that very
    transition, and that it was not lost to a challenger. *)

Section chain.
Context {T : Sig} `{!Sub LineageSig T, !Sub ConsensusSig T}.
Implicit Types tr : list (event T).

Definition next_transition tr (I F : Z) (p : LineageAnchor) (t : LineageTransition) : Prop :=
  lt_parent_ref t = la_address p /\ lt_block t = la_block p + I /\
  lt_block t <= U64_MAX /\ lt_block t <= F /\
  saw (S := ConsensusSig) (OutputRootAtBlock (lt_block t)) (Ok (lt_root_claim t)) tr.

Inductive chain tr (I F : Z) : LineageAnchor -> list SelectedLineageGame -> LineageAnchor -> Prop :=
| chain_nil p : chain tr I F p [] p
| chain_cons p g gs q st :
    next_transition tr I F p (slg_transition g) ->
    saw (S := LineageSig) (GameForTransition (slg_transition g)) (Ok (Some (slg_game g))) tr ->
    saw (S := LineageSig) (LineageResolutionStatus (lg_address (slg_game g))) (Ok st) tr ->
    outcome st <> ChallengerWins ->
    chain tr I F {| la_address := lg_address (slg_game g);
                    la_block := lt_block (slg_transition g) |} gs q ->
    chain tr I F p (g :: gs) q.

Definition stop_ok tr (I F : Z) (tip : LineageAnchor) (s : LineageStop) : Prop :=
  match s with
  | CaughtUp target finalized => target = la_block tip + I /\ finalized = F /\ F < target
  | Missing t =>
      next_transition tr I F tip t /\
      saw (S := LineageSig) (GameForTransition t) (Ok None) tr
  | Invalidated t g st =>
      next_transition tr I F tip t /\
      saw (S := LineageSig) (GameForTransition t) (Ok (Some g)) tr /\
      saw (S := LineageSig) (LineageResolutionStatus (lg_address g)) (Ok st) tr /\
      outcome st = ChallengerWins
  end.

Lemma next_transition_mono t1 t2 I F p t :
  t1 ⊆ t2 -> next_transition t1 I F p t -> next_transition t2 I F p t.
Proof. unfold next_transition. naive_solver eauto using saw_mono. Qed.

Lemma chain_mono t1 t2 I F p gs q : t1 ⊆ t2 -> chain t1 I F p gs q -> chain t2 I F p gs q.
Proof.
  intros Hs. induction 1; econstructor; eauto using saw_mono, next_transition_mono.
Qed.

Lemma stop_ok_mono t1 t2 I F p s : t1 ⊆ t2 -> stop_ok t1 I F p s -> stop_ok t2 I F p s.
Proof.
  intros Hs. destruct s; simpl; naive_solver eauto using saw_mono, next_transition_mono.
Qed.

(** Block heights along a chain: [k] steps of [I]. *)
Lemma chain_blocks tr I F p gs q :
  chain tr I F p gs q -> la_block q = la_block p + I * Z.of_nat (length gs).
Proof.
  induction 1 as [|p g gs q st (?&Hb&?) ??? Hc IH]; simpl; [lia|].
  rewrite IH. simpl. rewrite Hb. lia.
Qed.

Lemma chain_app tr I F p gs1 q gs2 r :
  chain tr I F p gs1 q -> chain tr I F q gs2 r -> chain tr I F p (gs1 ++ gs2) r.
Proof. induction 1; simpl; [done|]. intros. econstructor; eauto. Qed.
End chain.

(** The same facts in a service whose environment has more interfaces. *)
Section chain_inr.
Context {U : Sig} (tr0 : list (event SelectSig)) (tr : list (event (U ⊕ SelectSig)))
  (He : Forall2 embeds tr0 tr).

Lemma next_transition_inr I F p t : next_transition tr0 I F p t -> next_transition tr I F p t.
Proof. unfold next_transition. naive_solver eauto using saw_inr. Qed.

Lemma chain_inr I F p gs q : chain tr0 I F p gs q -> chain tr I F p gs q.
Proof.
  induction 1; econstructor; eauto using next_transition_inr; by eapply saw_inr.
Qed.

Lemma stop_ok_inr I F p s : stop_ok tr0 I F p s -> stop_ok tr I F p s.
Proof.
  destruct s; simpl; [done| |]; intros H; destruct_and?; split_and?;
    first [by apply next_transition_inr|by eapply saw_inr|done].
Qed.
End chain_inr.

(** ** The loop *)

(** Opens one iteration: the reply to the first call splits the run. *)
Ltac step_runs H :=
  cbn [runs bind lineage consensus output_root_at_block latest_l2_finalized_block trigger map_err
       inj prj sub_inl sub_inr sub_refl] in H.

Lemma select_loop_sound fuel I F anchor parent games tr lin :
  runs (select_loop fuel I F anchor parent games) tr (Some (Ok lin)) ->
  sl_anchor lin = anchor /\
  exists gs tip, sl_games lin = games ++ gs /\
    chain tr I F parent gs tip /\ stop_ok tr I F tip (sl_stop lin).
Proof.
  revert parent games tr. induction fuel as [|fuel IH]; intros parent games tr H.
  { by destruct H. }
  cbn [select_loop] in H. destruct (checked_add _ _) as [b|] eqn:Hb; [|by destruct H].
  apply checked_add_Some in Hb as [Hb Hmax]. destruct (Z.ltb_spec F b) as [HF|HF].
  { destruct H as [-> [= ->]]. split; [done|]. exists [], parent.
    rewrite app_nil_r. simpl. auto using chain_nil. }
  step_runs H. destruct H as (root&t1&->&H).
  destruct root as [root|]; step_runs H; [|by destruct H].
  set (t := {| lt_parent_ref := la_address parent; lt_root_claim := root; lt_block := b |}) in H.
  destruct H as (found&t2&->&H).
  assert (forall tr', next_transition
      (ev (inr (OutputRootAtBlock b) : call SelectSig) (Ok root) :: tr') I F parent t) as Hnext.
  { intros tr'. repeat split; simpl; try lia. exists (Ok root). split; [by left|done]. }
  destruct found as [[game|]|]; step_runs H; [| |by destruct H].
  2: { destruct H as [-> [= ->]]. split; [done|]. exists [], parent. rewrite app_nil_r.
       split; [done|]. split; [constructor|]. split; [apply Hnext|].
       apply saw_cons. exists (Ok None). split; [by left|done]. }
  destruct H as (st&t3&->&H). destruct st as [st|]; step_runs H; [|by destruct H].
  match type of H with context [select_loop] => idtac end.
  match goal with |- context [chain (?e1 :: ?e2 :: ?e3 :: t3)] =>
    set (evs := [e1; e2; e3]); change (e1 :: e2 :: e3 :: t3) with (evs ++ t3) end.
  assert (saw (T := SelectSig) (S := LineageSig) (GameForTransition t) (Ok (Some game)) (evs ++ t3)).
  { apply saw_cons. exists (Ok (Some game)). split; [by left|done]. }
  assert (saw (T := SelectSig) (S := LineageSig)
            (LineageResolutionStatus (lg_address game)) (Ok st) (evs ++ t3)).
  { do 2 apply saw_cons. exists (Ok st). split; [by left|done]. }
  destruct (decide (outcome st = ChallengerWins)) as [Ho|Ho].
  - rewrite bool_decide_eq_true_2 in H by done. destruct H as [-> [= ->]].
    split; [done|]. exists [], parent. rewrite (app_nil_r games). split; [done|].
    split; [constructor|]. split_and!; [apply Hnext|done..].
  - rewrite bool_decide_eq_false_2 in H by done.
    apply IH in H as (?&gs&tip&Hgs&Hc&Hstop). split; [done|].
    exists ({| slg_transition := t; slg_game := game |} :: gs), tip.
    rewrite Hgs, <-app_assoc. split; [done|]. split.
    + econstructor; simpl; eauto using chain_mono with wc.
    + eauto using stop_ok_mono with wc.
Qed.

Lemma loop_fuel_step I F p : 0 < I -> p + I <= F -> (F - (p + I)) / I = (F - p) / I - 1.
Proof.
  intros HI HF. replace (F - p) with (F - (p + I) + 1 * I) by lia.
  rewrite Z.div_add by lia. lia.
Qed.

Lemma select_loop_fuel fuel I F anchor parent games tr :
  0 < I -> (0 < fuel)%nat -> (F - la_block parent) / I < Z.of_nat fuel ->
  ~ runs (select_loop fuel I F anchor parent games) tr None.
Proof.
  intros HI. revert parent games tr.
  induction fuel as [|fuel IH]; intros parent games tr Hf Hlt H; [lia|].
  cbn [select_loop] in H. destruct (checked_add _ _) as [b|] eqn:Hb; [|by destruct H].
  apply checked_add_Some in Hb as [Hb _]. destruct (Z.ltb_spec F b); [by destruct H|].
  step_runs H. destruct H as ([root|]&t1&->&H); step_runs H; [|by destruct H].
  destruct H as ([[game|]|]&t2&->&H); step_runs H; [|by destruct H..].
  destruct H as ([st|]&t3&->&H); step_runs H; [|by destruct H].
  case_bool_decide; [by destruct H|].
  pose proof (loop_fuel_step I F (la_block parent) HI ltac:(lia)) as Hstep.
  assert (0 <= (F - (la_block parent + I)) / I) by (apply Z.div_pos; lia).
  apply IH in H; [done|lia|simpl; rewrite Hb; lia].
Qed.

Lemma select_loop_calls fuel I F anchor parent games tr o :
  runs (select_loop fuel I F anchor parent games) tr o -> (length tr <= 3 * fuel)%nat.
Proof.
  revert parent games tr.
  induction fuel as [|fuel IH]; intros parent games tr H; [by destruct H as [-> _]|].
  cbn [select_loop] in H. destruct (checked_add _ _) as [b|]; [|by destruct H as [-> _]; simpl; lia].
  destruct (Z.ltb_spec F b); [by destruct H as [-> _]; simpl; lia|].
  step_runs H. destruct H as ([root|]&t1&->&H); step_runs H; [|by destruct H as [-> _]; simpl; lia].
  destruct H as ([[game|]|]&t2&->&H); step_runs H; [|by destruct H as [-> _]; simpl; lia..].
  destruct H as ([st|]&t3&->&H); step_runs H; [|by destruct H as [-> _]; simpl; lia].
  case_bool_decide; [by destruct H as [-> _]; simpl; lia|].
  apply IH in H. simpl. lia.
Qed.

(** The error a reply carries, as [select_lineage] sees it. *)
Definition err_of {A E} (r : result A E) : option E :=
  match r with Ok _ => None | Err e => Some e end.

Definition reply_error (c : call SelectSig) : reply SelectSig c -> option LineageError :=
  match c with
  | inl GetLineageAnchor | inl (GetRecoveryParent _) | inl (LineageAnchorClaimValid _)
  | inl (GameForTransition _) | inl (LineageResolutionStatus _) => err_of
  | inr (OutputRootAtBlock _) | inr LatestL2FinalizedBlock =>
      fun r => LConsensus <$> err_of r
  end.

(** The last call of the trace failed with [e]. *)
Definition failed_with (tr : list (event SelectSig)) (e : LineageError) : Prop :=
  exists t c r, tr = t ++ [ev c r] /\ reply_error c r = Some e.

Lemma failed_with_cons x tr e : failed_with tr e -> failed_with (x :: tr) e.
Proof. intros (t&c&r&->&?). by exists (x :: t), c, r. Qed.

Lemma failed_with_app t tr e : failed_with tr e -> failed_with (t ++ tr) e.
Proof. intros (t'&c&r&->&?). exists (t ++ t'), c, r. by rewrite app_assoc. Qed.

Lemma failed_with_here c r e : reply_error c r = Some e -> failed_with [ev c r] e.
Proof. by exists [], c, r. Qed.
#[export] Hint Resolve failed_with_cons failed_with_app failed_with_here : wc.

Lemma select_loop_error fuel I F anchor parent games tr e :
  runs (select_loop fuel I F anchor parent games) tr (Some (Err e)) ->
  failed_with tr e \/ exists p, e = BlockNumberOverflow p I /\ U64_MAX < p + I.
Proof.
  revert parent games tr.
  induction fuel as [|fuel IH]; intros parent games tr H; [by destruct H as [_ ?]|].
  cbn [select_loop] in H. destruct (checked_add _ _) as [b|] eqn:Hb.
  2: { apply checked_add_None in Hb. destruct H as [-> [= ->]]. eauto. }
  destruct (Z.ltb_spec F b); [by destruct H as [_ ?]|].
  step_runs H. destruct H as ([root|er]&t1&->&H); step_runs H.
  2: { destruct H as [-> [= ->]]. left. by apply failed_with_here. }
  destruct H as ([[game|]|er]&t2&->&H); step_runs H.
  - destruct H as ([st|er]&t3&->&H); step_runs H.
    + case_bool_decide; [by destruct H as [_ ?]|]. apply IH in H as [H|H]; eauto 6 with wc.
    + destruct H as [-> [= ->]]. left. do 2 apply failed_with_cons. by apply failed_with_here.
  - by destruct H as [_ ?].
  - destruct H as [-> [= ->]]. left. apply failed_with_cons. by apply failed_with_here.
Qed.

(** ** The starting point *)

Section recovery.
Context {T : Sig} `{!Sub LineageSig T, !Sub ConsensusSig T}.

(** Where a lineage may start: at the registry's anchor when the operator
    named no recovery parent or the anchor is past it again and valid;
    otherwise at the recovery parent, which is eligible and canonical. *)
Definition start_ok (tr : list (event T)) (F : Z) (rp : option Address)
    (anchor0 a : LineageAnchor) : Prop :=
  match rp with
  | None => a = anchor0
  | Some addr =>
      addr <> ZERO /\
      exists rec, saw (S := LineageSig) (GetRecoveryParent addr) (Ok rec) tr /\
        ((a = anchor0 /\ la_block (rp_anchor rec) < la_block anchor0 /\
          saw (S := LineageSig) (LineageAnchorClaimValid (la_address anchor0)) (Ok true) tr) \/
         (a = rp_anchor rec /\ rp_eligible rec = true /\ la_block a <= F /\
          saw (S := ConsensusSig) (OutputRootAtBlock (la_block a)) (Ok (rp_root_claim rec)) tr))
  end.

Lemma start_ok_mono t1 t2 F rp anchor0 a :
  t1 ⊆ t2 -> start_ok t1 F rp anchor0 a -> start_ok t2 F rp anchor0 a.
Proof.
  intros Hs. destruct rp; simpl; [|done]. intros (?&rec&?&Hor). split; [done|].
  exists rec. split; [by eapply saw_mono|]. destruct Hor as [(?&?&?)|(?&?&?&?)];
    [left|right]; repeat split; eauto using saw_mono.
Qed.
End recovery.

Ltac step_try H :=
  cbn [bind_try bind runs lineage consensus output_root_at_block latest_l2_finalized_block trigger
       map_err inj prj sub_inl sub_inr sub_refl] in H.

Lemma recover_anchor_canonical addr rec F tr0 tr r :
  addr <> ZERO ->
  runs (do? root <- consensus (T := SelectSig) (output_root_at_block (la_block (rp_anchor rec)));
        if root =? rp_root_claim rec then Ret (Ok (rp_anchor rec))
        else Ret (Err (NonCanonicalRecoveryParent addr))) tr r ->
  saw (T := SelectSig) (S := LineageSig) (GetRecoveryParent addr) (Ok rec) tr0 ->
  rp_eligible rec = true -> la_block (rp_anchor rec) <= F ->
  match r with
  | Ok a => forall anchor0, start_ok (tr0 ++ tr) F (Some addr) anchor0 a
  | Err e => failed_with tr e \/ e = NonCanonicalRecoveryParent addr
  end.
Proof.
  intros Haddr H Hsaw He HF. step_try H. destruct H as ([root|er]&t1&->&H); step_try H.
  - destruct (Z.eqb_spec root (rp_root_claim rec)) as [->|]; destruct H as [-> ->]; [|by right].
    intros anchor0. split; [done|]. exists rec. split; [by apply saw_app_l|]. right.
    repeat split; try done. apply saw_app_r. by eexists; split; [left|].
  - destruct H as [-> ->]. left. by apply failed_with_here.
Qed.

Lemma recover_anchor_runs rp anchor0 F tr r :
  runs (recover_anchor rp anchor0 F) tr r ->
  match r with
  | Ok a => start_ok tr F rp anchor0 a
  | Err e => failed_with tr e \/
      exists addr, rp = Some addr /\
        (e = InvalidRecoveryParent addr \/ e = NonCanonicalRecoveryParent addr)
  end.
Proof.
  unfold recover_anchor. destruct rp as [addr|]; [|by intros [-> ->]].
  destruct (Z.eqb_spec addr ZERO) as [->|Haddr]; [intros [-> ->]; eauto|].
  intros H. step_try H. destruct H as ([rec|er]&t1&->&H); step_try H.
  2: { destruct H as [-> ->]. left. by apply failed_with_here. }
  set (e0 := ev _ _).
  assert (forall tr, saw (T := SelectSig) (S := LineageSig) (GetRecoveryParent addr) (Ok rec) (e0 :: tr))
    as Hsaw by (intros; eexists; split; [by left|done]).
  assert (forall t1, runs (if negb (rp_eligible rec) then Ret (Err (InvalidRecoveryParent addr))
     else if F <? la_block (rp_anchor rec) then Ret (Err (NonCanonicalRecoveryParent addr))
     else do? root <- consensus (output_root_at_block (la_block (rp_anchor rec)));
          if root =? rp_root_claim rec then Ret (Ok (rp_anchor rec))
          else Ret (Err (NonCanonicalRecoveryParent addr))) t1 r ->
    forall t0, match r with
    | Ok a => start_ok ((e0 :: t0) ++ t1) F (Some addr) anchor0 a
    | Err e => failed_with ((e0 :: t0) ++ t1) e \/ exists addr', Some addr = Some addr' /\
        (e = InvalidRecoveryParent addr' \/ e = NonCanonicalRecoveryParent addr')
    end) as Hrest.
  { clear H t1. intros t1 H t0. destruct (rp_eligible rec) eqn:He; cbn [negb] in H;
      [|destruct H as [-> ->]; eauto].
    destruct (Z.ltb_spec F (la_block (rp_anchor rec))); [destruct H as [-> ->]; eauto|].
    eapply recover_anchor_canonical in H; eauto. destruct r as [a|e]; [done|].
    destruct H as [H| ->]; [left; eauto with wc|eauto]. }
  destruct (Z.ltb_spec (la_block (rp_anchor rec)) (la_block anchor0)).
  - step_try H. destruct H as ([v|er]&t2&->&H); step_try H.
    2: { destruct H as [-> ->]. left. apply failed_with_cons. by apply failed_with_here. }
    destruct v; [|by apply (Hrest _ H [_])]. destruct H as [-> ->].
    split; [done|]. exists rec. split; [done|]. left. repeat split; try done.
    apply saw_cons. by eexists; split; [left|].
  - step_try H. by apply (Hrest _ H []).
Qed.

Lemma recover_anchor_calls rp anchor0 F tr r :
  runs (recover_anchor rp anchor0 F) tr r -> (length tr <= 3)%nat.
Proof.
  unfold recover_anchor. destruct rp as [addr|]; [|by intros [-> _]; simpl; lia].
  destruct (addr =? ZERO); [by intros [-> _]; simpl; lia|]. intros H.
  repeat first
    [ progress step_try H
    | match type of H with
      | exists _, _ => destruct H as (?&?&->&H)
      | _ = [] /\ _ => destruct H as [-> _]; simpl; lia
      | context [match ?x with _ => _ end] => destruct x
      end ].
Qed.

(** ** [select_lineage] *)

(** The stages of a run: the two head reads, the starting point, the loop. *)
Lemma select_lineage_stages I rp tr r :
  runs (select_lineage I rp) tr r -> 0 < I ->
  (exists e, r = Err e /\ (length tr <= 5)%nat /\ (failed_with tr e \/
     exists addr, rp = Some addr /\
       (e = InvalidRecoveryParent addr \/ e = NonCanonicalRecoveryParent addr))) \/
  (exists anchor0 F a t1 t2,
     tr = t1 ++ t2 /\ (length t1 <= 5)%nat /\
     saw (S := LineageSig) GetLineageAnchor (Ok anchor0) tr /\
     saw (S := ConsensusSig) LatestL2FinalizedBlock (Ok F) tr /\
     start_ok tr F rp anchor0 a /\
     runs (select_loop (loop_fuel I F (la_block a)) I F a a []) t2 (Some r)).
Proof.
  intros H HI. unfold select_lineage in H. destruct (Z.eqb_spec I 0); [lia|].
  step_try H. destruct H as ([anchor0|er]&t1&->&H); step_try H.
  2: { left. destruct H as [-> ->]. eexists. split; [done|]. split; [simpl; lia|].
       left. by apply failed_with_here. }
  destruct H as ([F|er]&t2&->&H); step_try H.
  2: { left. destruct H as [-> ->]. eexists. split; [done|]. split; [simpl; lia|].
       left. apply failed_with_cons. by apply failed_with_here. }
  apply runs_bind_try in H as [(t3&t4&a&->&Ha&H)|(e&He&->)].
  2: { left. exists e. split; [done|]. pose proof (recover_anchor_calls _ _ _ _ _ He).
       split; [simpl; lia|]. apply recover_anchor_runs in He as [He|He]; [|auto].
       left. by do 2 apply failed_with_cons. }
  right. apply runs_bind in H as (t5&t6&o&->&Ho&->&->). rewrite app_nil_r.
  assert (length t3 <= 3)%nat as Hlen.
  { by eapply recover_anchor_calls. }
  destruct o as [r|].
  2: { exfalso. eapply select_loop_fuel; [done| |..|exact Ho]; unfold loop_fuel; lia. }
  match goal with |- context [?e1 :: ?e2 :: t3 ++ t5] =>
    exists anchor0, F, a, (e1 :: e2 :: t3), t5 end.
  split; [done|]. split; [simpl; lia|]. split; [by eexists; split; [left|]|].
  split; [apply saw_cons; by eexists; split; [left|]|]. split; [|done].
  apply recover_anchor_runs in Ha. eapply start_ok_mono; [|exact Ha].
  intros x Hx. do 2 right. apply elem_of_app. auto.
Qed.

(** A lineage that the replies of [tr] support. *)
Definition selected {T} `{!Sub LineageSig T, !Sub ConsensusSig T} (tr : list (event T))
    (I : Z) (rp : option Address) (lin : SelectedLineage) : Prop :=
  exists anchor0 F tip,
    saw (S := LineageSig) GetLineageAnchor (Ok anchor0) tr /\
    saw (S := ConsensusSig) LatestL2FinalizedBlock (Ok F) tr /\
    start_ok tr F rp anchor0 (sl_anchor lin) /\
    chain tr I F (sl_anchor lin) (sl_games lin) tip /\
    la_block tip = la_block (sl_anchor lin) + I * Z.of_nat (length (sl_games lin)) /\
    stop_ok tr I F tip (sl_stop lin).

Lemma selected_mono {T} `{!Sub LineageSig T, !Sub ConsensusSig T} (t1 t2 : list (event T)) I rp lin :
  t1 ⊆ t2 -> selected t1 I rp lin -> selected t2 I rp lin.
Proof.
  intros Hs (anchor0&F&tip&?&?&?&?&?&?). exists anchor0, F, tip.
  split_and!; eauto using saw_mono, start_ok_mono, chain_mono, stop_ok_mono.
Qed.

Lemma selected_inr {U} (tr0 : list (event SelectSig)) (tr : list (event (U ⊕ SelectSig))) I rp lin :
  Forall2 embeds tr0 tr -> selected tr0 I rp lin -> selected tr I rp lin.
Proof.
  intros He (anchor0&F&tip&?&?&Hs&?&?&?). exists anchor0, F, tip.
  split_and!; eauto using chain_inr, stop_ok_inr; [by eapply saw_inr..|].
  destruct rp; [|done]. destruct Hs as (?&rec&?&Hor). split; [done|]. exists rec.
  split; [by eapply saw_inr|].
  destruct Hor as [(?&?&?)|(?&?&?&?)]; [left|right]; repeat split; eauto; by eapply saw_inr.
Qed.

Lemma select_lineage_selected I rp tr lin :
  runs (select_lineage I rp) tr (Ok lin) -> 0 <= I -> selected tr I rp lin.
Proof.
  intros H HI. unfold selected. destruct (decide (I = 0)) as [->|]; [by destruct H|].
  apply select_lineage_stages in H as [(e&[=]&_&_)|(anchor0&F&a&t1&t2&->&_&?&?&Hs&Hl)]; [|lia].
  apply select_loop_sound in Hl as (<-&gs&tip&->&Hc&Hst). exists anchor0, F, tip.
  split_and!; try done.
  - eapply chain_mono; [|exact Hc]. apply subseteq_app_r.
  - exact (chain_blocks _ _ _ _ _ _ Hc).
  - eapply stop_ok_mono; [|exact Hst]. apply subseteq_app_r.
Qed.

(** a lineage that [select_lineage] returns starts at the registry's
    anchor or at an eligible canonical recovery parent, and its games form an
    unbroken chain from there: each claims the canonical output root one
    interval above its parent, is the game the factory holds for exactly that
    transition, and is not lost to a challenger; the stop condition describes
    the next transition above the tip. *)
Theorem select_lineage_sound I rp tr lin :
  runs (select_lineage I rp) tr (Ok lin) -> 0 <= I ->
  exists anchor0 F tip,
    saw (S := LineageSig) GetLineageAnchor (Ok anchor0) tr /\
    saw (S := ConsensusSig) LatestL2FinalizedBlock (Ok F) tr /\
    start_ok tr F rp anchor0 (sl_anchor lin) /\
    chain tr I F (sl_anchor lin) (sl_games lin) tip /\
    la_block tip = la_block (sl_anchor lin) + I * Z.of_nat (length (sl_games lin)) /\
    stop_ok tr I F tip (sl_stop lin).
Proof. apply select_lineage_selected. Qed.

(** [select_lineage] fails only for a reason of its own that holds — a
    zero interval, an invalid or non-canonical recovery parent, a block number
    past [u64::MAX] — or with the error of its last call. *)
Theorem select_lineage_error I rp tr e :
  runs (select_lineage I rp) tr (Err e) -> 0 <= I ->
  (I = 0 /\ e = ZeroBlockInterval /\ tr = []) \/
  failed_with tr e \/
  (exists p, e = BlockNumberOverflow p I /\ U64_MAX < p + I) \/
  (exists addr, rp = Some addr /\
     (e = InvalidRecoveryParent addr \/ e = NonCanonicalRecoveryParent addr)).
Proof.
  intros H HI. destruct (decide (I = 0)) as [->|].
  { left. by destruct H as [-> [= ->]]. }
  right. apply select_lineage_stages in H as [(e'&[= ->]&_&[?|?])|(?&?&?&t1&t2&->&?&?&?&?&Hl)];
    [by left|by right; right| |lia].
  apply select_loop_error in Hl as [?|?]; [left; by apply failed_with_app|by right; left].
Qed.


(** A chain with anchor block 100, interval 10 and finalized block 125, whose
    factory holds one game, for block 110. *)
Definition demo_world : handler SelectSig unit := fun c w =>
  match c with
  | inl GetLineageAnchor => (Ok {| la_address := 7; la_block := 100 |}, w)
  | inl (GetRecoveryParent g) =>
      (Ok {| rp_anchor := {| la_address := g; la_block := 90 |};
             rp_root_claim := 90000; rp_eligible := true |}, w)
  | inl (LineageAnchorClaimValid _) => (Ok true, w)
  | inl (GameForTransition t) =>
      (Ok (if lt_block t =? 110 then Some {| lg_address := 201; lg_attempt := 0 |} else None), w)
  | inl (LineageResolutionStatus _) =>
      (Ok {| status := InProgress; resolvable := false; outcome := InProgress;
             invalidation_reason := NoReason |}, w)
  | inr (OutputRootAtBlock b) => (Ok (b * 1000), w)
  | inr LatestL2FinalizedBlock => (Ok 125, w)
  end.

Definition demo_lineage : SelectedLineage := {|
  sl_anchor := {| la_address := 7; la_block := 100 |};
  sl_games := [{| slg_transition := {| lt_parent_ref := 7; lt_root_claim := 110000; lt_block := 110 |};
                  slg_game := {| lg_address := 201; lg_attempt := 0 |} |}];
  sl_stop := Missing {| lt_parent_ref := 201; lt_root_claim := 120000; lt_block := 120 |}
|}.

Definition demo_trace : list (event SelectSig) := trace_of demo_world (select_lineage 10 (Some 5)) tt.

Lemma demo_runs : runs (select_lineage 10 (Some 5)) demo_trace (Ok demo_lineage).
Proof. exact (interp_runs demo_world (select_lineage 10 (Some 5)) tt). Qed.

Lemma select_lineage_sound_witness :
  exists anchor0 F tip,
    saw (S := LineageSig) GetLineageAnchor (Ok anchor0) demo_trace /\
    saw (S := ConsensusSig) LatestL2FinalizedBlock (Ok F) demo_trace /\
    start_ok demo_trace F (Some 5) anchor0 (sl_anchor demo_lineage) /\
    chain demo_trace 10 F (sl_anchor demo_lineage) (sl_games demo_lineage) tip /\
    la_block tip = 110 /\ stop_ok demo_trace 10 F tip (sl_stop demo_lineage).
Proof. exact (select_lineage_sound 10 (Some 5) demo_trace demo_lineage demo_runs ltac:(lia)). Defined.

Lemma select_lineage_error_witness :
  runs (select_lineage 10 (Some 0)) (trace_of demo_world (select_lineage 10 (Some 0)) tt)
    (Err (InvalidRecoveryParent 0)) /\
  ((10 = 0 /\ InvalidRecoveryParent 0 = ZeroBlockInterval /\
      trace_of demo_world (select_lineage 10 (Some 0)) tt = []) \/
   failed_with (trace_of demo_world (select_lineage 10 (Some 0)) tt) (InvalidRecoveryParent 0) \/
   (exists p, InvalidRecoveryParent 0 = BlockNumberOverflow p 10 /\ U64_MAX < p + 10) \/
   (exists addr, Some 0 = Some addr /\
      (InvalidRecoveryParent 0 = InvalidRecoveryParent addr \/
       InvalidRecoveryParent 0 = NonCanonicalRecoveryParent addr))).
Proof.
  assert (runs (select_lineage 10 (Some 0)) (trace_of demo_world (select_lineage 10 (Some 0)) tt)
            (Err (InvalidRecoveryParent 0))) as H
    by exact (interp_runs demo_world (select_lineage 10 (Some 0)) tt).
  split; [exact H|]. exact (select_lineage_error 10 (Some 0) _ _ H ltac:(lia)).
Defined.

