(* ===== verification/ContractReads.v ===== *)
(** * The providers behind lineage selection
    ([src/proofs/protocol/src/lineage.rs], [consensus_provider.rs],
    [src/proofs/services/proposer/src/alloy.rs])

    The [read_*] functions read the dispute-game factory, the anchor registry
    and the games; the [LineageProvider] of the service clients is made of
    them, and [VerifyingConsensusProvider] is the [ConsensusProvider] the
    services use.  The theorems at the end are about [select_lineage] running
    on these implementations. *)

From S2P Require Import Prelude Program Encoding ProofTypes Lineage.

(** ** The contracts' read surface

    [ChainSig] is the read surface of the dispute-game factory, the anchor
    registry and the games that the [read_*] functions use; a multicall is
    one call.  Numbers the contracts return are [U256] or [u8] words. *)

Inductive chain_call :=
| RecoveryParentCalls (registry game : Address)
| AnchorCalls (registry : Address)
| GameImpls (factory : Address) (game_type : Z)
| ImplementationCalls (implementation : Address)
| BondVault (implementation : Address)
| Games (factory : Address) (game_type : Z) (root_claim : B256) (extra_data : bytes)
| RetryContextCalls (game : Address)
| ResolutionCalls (game : Address)
| IsGameClaimValid (registry game : Address).

Record RecoveryWords := {
  rw_proper : bool; rw_respected : bool; rw_status : Z; rw_root_claim : B256; rw_block : Z
}.
Record AnchorWords := { aw_l2_sequence_number : Z; aw_anchor_game : Address }.
Record ImplementationWords := {
  iw_domain_hash : B256; iw_anchor_registry : Address; iw_block_interval : Z
}.
Record RetryWords := {
  tw_domain : B256; tw_block : Z; tw_parent : Address; tw_attempt : Z; tw_root : B256
}.
Record ResolutionWords := { sw_status : Z; sw_resolvable : bool; sw_outcome : Z; sw_reason : Z }.

#[export] Instance chain_call_eq_dec : EqDecision chain_call.
Proof. solve_decision. Defined.

Definition ChainSig : Sig := MkSig chain_call (fun c =>
  match c with
  | RecoveryParentCalls _ _ => result RecoveryWords string
  | AnchorCalls _ => result AnchorWords string
  | GameImpls _ _ => result Address string
  | ImplementationCalls _ => result ImplementationWords string
  | BondVault _ => result Address string
  | Games _ _ _ _ => result Address string
  | RetryContextCalls _ => result RetryWords string
  | ResolutionCalls _ => result ResolutionWords string
  | IsGameClaimValid _ _ => result bool string
  end).

(** A contract read whose failure becomes [LineageError::Contract]. *)
Definition read_chain {A} (msg : string -> contract_message) (p : prog ChainSig (result A string))
    : prog ChainSig (result A LineageError) :=
  do r <- p; Ret (map_err (fun e => LContract (msg e)) r).

Definition chain_read (c : call ChainSig) : prog ChainSig (reply ChainSig c) := Call c Ret.

Definition read_recovery_parent (registry addr : Address)
    : prog ChainSig (result RecoveryParent LineageError) :=
  if (addr =? ZERO) || (addr =? registry) then Ret (Err (InvalidRecoveryParent addr))
  else
    do? w <- read_chain (MsgReadRecoveryParent addr) (chain_read (RecoveryParentCalls registry addr));
    match to_u64 (rw_block w) with
    | None => Ret (Err (LContract (MsgRecoveryParentOverflow addr)))
    | Some block =>
        let mk e := Ok {| rp_anchor := {| la_address := addr; la_block := block |};
                          rp_root_claim := rw_root_claim w; rp_eligible := e |} in
        Ret (if rw_proper w && rw_respected w then
               match GameStatus_try_from (rw_status w) with
               | Err e => Err (LInvalidGameStatus e)
               | Ok s => mk (bool_decide (s = DefenderWins))
               end
             else mk false)
    end.

Definition read_lineage_anchor (registry : Address)
    : prog ChainSig (result LineageAnchor LineageError) :=
  do? w <- read_chain MsgError (chain_read (AnchorCalls registry));
  match to_u64 (aw_l2_sequence_number w) with
  | None => Ret (Err (LContract MsgAnchorRootOverflow))
  | Some block =>
      Ret (Ok {| la_address := if aw_anchor_game w =? ZERO then registry else aw_anchor_game w;
                 la_block := block |})
  end.

Definition read_registered_game_implementation (factory : Address)
    : prog ChainSig (result Address LineageError) :=
  do? implementation <- read_chain MsgError (chain_read (GameImpls factory MULTI_PROOF_GAME_TYPE));
  Ret (if implementation =? ZERO then Err (LContract (MsgNoImplementation factory))
       else Ok implementation).

Definition read_registered_lineage_config (factory : Address)
    : prog ChainSig (result RegisteredLineageConfig LineageError) :=
  do? implementation <- read_registered_game_implementation factory;
  do? w <- read_chain MsgError (chain_read (ImplementationCalls implementation));
  if iw_anchor_registry w =? ZERO then Ret (Err (LContract MsgNoAnchorRegistry))
  else
    match to_u64 (iw_block_interval w) with
    | None => Ret (Err (LContract MsgBlockIntervalOverflow))
    | Some interval =>
        Ret (if interval =? 0 then Err ZeroBlockInterval
             else Ok {| rl_domain_hash := iw_domain_hash w; rl_block_interval := interval;
                        rl_anchor_registry := iw_anchor_registry w |})
    end.

Definition read_registered_bond_vault (factory : Address)
    : prog ChainSig (result Address LineageError) :=
  do? implementation <- read_registered_game_implementation factory;
  do? bond_vault <- read_chain MsgError (chain_read (BondVault implementation));
  Ret (if bond_vault =? ZERO then Err (LContract MsgNoBondVault) else Ok bond_vault).

(** The [for attempt in 0..MAX_ATTEMPT_SCAN] loop, [n] attempts before the end. *)
Fixpoint scan_attempts (n : nat) (factory : Address) (domain : B256) (t : LineageTransition)
    (att : Z) (latest : option LineageGame)
    : prog ChainSig (result (option LineageGame) LineageError) :=
  match n with
  | O => Ret (Ok latest)
  | S n' =>
      let commitment := {| parent_ref := lt_parent_ref t; root_claim := lt_root_claim t;
                           l2_block_number := lt_block t; attempt := att |} in
      do? proxy <- read_chain MsgError
        (chain_read (Games factory MULTI_PROOF_GAME_TYPE (lt_root_claim t)
                       (extra_data commitment domain)));
      if proxy =? ZERO then Ret (Ok latest)
      else scan_attempts n' factory domain t (att + 1)
             (Some {| lg_address := proxy; lg_attempt := att |})
  end.

Definition read_game_for_transition (factory : Address) (domain : B256) (t : LineageTransition)
    : prog ChainSig (result (option LineageGame) LineageError) :=
  scan_attempts MAX_ATTEMPT_SCAN factory domain t 0 None.

Definition read_game_has_retry (factory game : Address) : prog ChainSig (result bool LineageError) :=
  do? w <- read_chain (MsgReadRetryContext game) (chain_read (RetryContextCalls game));
  if U256_MAX <? tw_attempt w + 1 then Ret (Ok false)
  else
    let extra := abi_word (tw_domain w) ++ abi_word (tw_block w)
                   ++ abi_word (tw_parent w) ++ abi_word (tw_attempt w + 1) in
    do? proxy <- read_chain (MsgLookUpRetry game)
      (chain_read (Games factory MULTI_PROOF_GAME_TYPE (tw_root w) extra));
    Ret (Ok (negb (proxy =? ZERO))).

Definition read_lineage_resolution_status (game : Address)
    : prog ChainSig (result ResolutionStatus LineageError) :=
  do? w <- read_chain (MsgReadResolutionStatus game) (chain_read (ResolutionCalls game));
  Ret (let? s := map_err LInvalidGameStatus (GameStatus_try_from (sw_status w)) in
       let? o := map_err LInvalidGameStatus (GameStatus_try_from (sw_outcome w)) in
       let? r := map_err LInvalidInvalidationReason (InvalidationReason_try_from (sw_reason w)) in
       Ok {| status := s; resolvable := sw_resolvable w; outcome := o; invalidation_reason := r |}).

(** ** [LineageProvider] of the service client

    The client stores the addresses of the factory and of the registry and
    the domain hash it read at start-up. *)

Definition lineage_client (factory registry : Address) (domain : B256) : impl LineageSig ChainSig :=
  fun c => match c with
  | GetLineageAnchor => read_lineage_anchor registry
  | GetRecoveryParent game => read_recovery_parent registry game
  | LineageAnchorClaimValid game =>
      read_chain (MsgReadAnchorEligibility game) (chain_read (IsGameClaimValid registry game))
  | GameForTransition t => read_game_for_transition factory domain t
  | LineageResolutionStatus game => read_lineage_resolution_status game
  end.

(** ** The verifying consensus provider

    The two endpoints are one interface: a request to the primary, and the
    [join!] of a request to each, which goes on once both have replied. *)

Inductive endpoints_call :=
| PrimaryRoot (l2_block_number : Z)
| JoinRoots (l2_block_number : Z)
| PrimaryFinalized.

Definition EndpointsSig : Sig := MkSig endpoints_call (fun c =>
  match c with
  | PrimaryRoot _ => result B256 ConsensusError
  | JoinRoots _ => result B256 ConsensusError * result B256 ConsensusError
  | PrimaryFinalized => result Z ConsensusError
  end)%type.

Definition endpoints (c : call EndpointsSig) : prog EndpointsSig (reply EndpointsSig c) := Call c Ret.

Definition verifying_output_root (has_verifier : bool) (b : Z)
    : prog EndpointsSig (result B256 ConsensusError) :=
  if negb has_verifier then endpoints (PrimaryRoot b)
  else
    do both <- endpoints (JoinRoots b);
    Ret (let? primary := map_err (Endpoint "primary") (fst both) in
         let? verifying := map_err (Endpoint "verifying") (snd both) in
         if primary =? verifying then Ok primary
         else Err (OutputRootMismatch b primary verifying)).

Definition verifying_consensus (has_verifier : bool) : impl ConsensusSig EndpointsSig :=
  fun c => match c with
  | OutputRootAtBlock b => verifying_output_root has_verifier b
  | LatestL2FinalizedBlock => endpoints PrimaryFinalized
  end.

(** The environment of a service: the chain and the consensus endpoints. *)
Definition EnvSig : Sig := ChainSig ⊕ EndpointsSig.

Definition select_impl (factory registry : Address) (domain : B256) (has_verifier : bool)
    : impl SelectSig EnvSig :=
  impl_sum (fun c => lift (lineage_client factory registry domain c))
           (fun c => lift (verifying_consensus has_verifier c)).

(** ** The attempt scan *)

Definition attempt_key (factory : Address) (domain : B256) (t : LineageTransition) (att : Z)
    : call ChainSig :=
  Games factory MULTI_PROOF_GAME_TYPE (lt_root_claim t)
    (extra_data {| parent_ref := lt_parent_ref t; root_claim := lt_root_claim t;
                   l2_block_number := lt_block t; attempt := att |} domain).

(** [registered tr f d t a g]: the factory answered that the attempt [a] at
    the transition [t] is the game [g]; [g = 0] is an empty slot. *)
Definition registered {T} `{!Sub ChainSig T} (tr : list (event T)) (factory : Address)
    (domain : B256) (t : LineageTransition) (att : Z) (proxy : Address) : Prop :=
  saw (S := ChainSig)
    (Games factory MULTI_PROOF_GAME_TYPE (lt_root_claim t)
      (extra_data {| parent_ref := lt_parent_ref t; root_claim := lt_root_claim t;
                     l2_block_number := lt_block t; attempt := att |} domain))
    (Ok proxy) tr.

(** The last game of a run of occupied slots [0 .. n-1]. *)
Definition latest_attempt {T} `{!Sub ChainSig T} (tr : list (event T)) factory domain t
    (n : nat) (found : option LineageGame) : Prop :=
  (forall a : nat, (a < n)%nat -> exists proxy, proxy <> ZERO /\
     registered tr factory domain t (Z.of_nat a) proxy) /\
  (n = MAX_ATTEMPT_SCAN \/ registered tr factory domain t (Z.of_nat n) ZERO) /\
  match found with
  | None => n = 0%nat
  | Some g => (0 < n)%nat /\ lg_attempt g = Z.of_nat n - 1 /\ lg_address g <> ZERO /\
              registered tr factory domain t (lg_attempt g) (lg_address g)
  end.

Ltac open_read H := cbn [runs bind bind_try read_chain chain_read map_err] in H.

Lemma scan_attempts_spec m f d t att latest tr r :
  runs (scan_attempts m f d t att latest) tr (Ok r) ->
  exists n, (n <= m)%nat /\
    (forall a : nat, (a < n)%nat -> exists proxy, proxy <> ZERO /\
       registered tr f d t (att + Z.of_nat a) proxy) /\
    (n = m \/ registered tr f d t (att + Z.of_nat n) ZERO) /\
    ((n = 0%nat /\ r = latest) \/
     exists proxy, (0 < n)%nat /\ proxy <> ZERO /\
       r = Some {| lg_address := proxy; lg_attempt := att + Z.of_nat n - 1 |} /\
       registered tr f d t (att + Z.of_nat n - 1) proxy).
Proof.
  revert att latest tr. induction m as [|m IH]; intros att latest tr H.
  { destruct H as [-> [= ->]]. exists 0%nat. split; [done|].
    split; [lia|]. split; [by left|by left]. }
  cbn [scan_attempts] in H. open_read H. destruct H as ([proxy|e]&tr'&->&H);
    open_read H; [|by destruct H].
  destruct (Z.eqb_spec proxy ZERO) as [->|Hne].
  { destruct H as [-> [= ->]]. exists 0%nat. split; [lia|]. split; [lia|].
    split; [right|by left]. rewrite Z.add_0_r. by exists (Ok ZERO); split; [left|]. }
  assert (registered (ev (attempt_key f d t att) (Ok proxy) :: tr') f d t att proxy) as Hhd
    by (by exists (Ok proxy); split; [left|]).
  apply IH in H as (n&Hn&Hocc&Hend&Hr). exists (S n). split; [lia|].
  split; [|split].
  - intros [|a] Ha; [exists proxy; rewrite Z.add_0_r; auto|].
    destruct (Hocc a) as (q&Hq&Hreg); [lia|]. exists q. split; [done|].
    replace (att + Z.of_nat (S a)) with (att + 1 + Z.of_nat a) by lia. by apply saw_cons.
  - destruct Hend as [->|Hend]; [by left|right].
    replace (att + Z.of_nat (S n)) with (att + 1 + Z.of_nat n) by lia. by apply saw_cons.
  - right. destruct Hr as [[-> ->]|(q&?&?&->&Hreg)].
    + exists proxy. replace (att + Z.of_nat 1 - 1) with att by lia. auto with lia.
    + exists q. replace (att + Z.of_nat (S n) - 1) with (att + 1 + Z.of_nat n - 1) by lia.
      split; [lia|]. split_and!; [done|done|by apply saw_cons].
Qed.

Lemma read_game_for_transition_latest f d t tr r :
  runs (read_game_for_transition f d t) tr (Ok r) ->
  exists n, (n <= MAX_ATTEMPT_SCAN)%nat /\ latest_attempt tr f d t n r.
Proof.
  intros (n&Hn&Hocc&Hend&Hr)%scan_attempts_spec. exists n. split; [done|].
  split; [done|]. split; [done|]. destruct Hr as [[-> ->]|(q&?&?&->&?)]; [done|].
  simpl. split_and!; [done|lia|done|done].
Qed.

(** ** Supersession *)

(** All answers of the factory in [tr] come from one assignment of games to
    slots. *)
Definition factory_is {T} `{!Sub ChainSig T} (factory : Address) (slots : B256 -> bytes -> Address)
    (tr : list (event T)) : Prop :=
  forall root extra proxy,
    saw (S := ChainSig) (Games factory MULTI_PROOF_GAME_TYPE root extra) (Ok proxy) tr ->
    proxy = slots root extra.

Lemma read_game_has_retry_spec f game tr b :
  runs (read_game_has_retry f game) tr (Ok b) ->
  exists w, (forall w', saw (S := ChainSig) (RetryContextCalls game) (Ok w') tr -> w' = w) /\
    ((U256_MAX < tw_attempt w + 1 /\ b = false) \/
     exists proxy, b = negb (proxy =? ZERO) /\
       registered tr f (tw_domain w)
         {| lt_parent_ref := tw_parent w; lt_root_claim := tw_root w; lt_block := tw_block w |}
         (tw_attempt w + 1) proxy).
Proof.
  intros H. unfold read_game_has_retry in H. open_read H.
  destruct H as ([w|e]&tr'&->&H); open_read H; [|by destruct H]. exists w.
  destruct (Z.ltb_spec U256_MAX (tw_attempt w + 1)).
  - destruct H as [-> [= ->]]. split; [|by left].
    intros w' (r&Hr%list_elem_of_singleton&Hw). apply (ev_inj (S := ChainSig)) in Hr.
    simpl in *. congruence.
  - open_read H. destruct H as ([proxy|e]&tr2&->&H); open_read H; [|by destruct H].
    destruct H as [-> [= ->]]. split.
    + intros w' (r&[Hr|Hr%list_elem_of_singleton]%elem_of_cons&Hw); [|discriminate].
      apply (ev_inj (S := ChainSig)) in Hr. simpl in *. congruence.
    + right. exists proxy. split; [done|]. apply saw_cons. by exists (Ok proxy); split; [left|].
Qed.

(** The two readers of the attempt chain agree.  On one state of the
    factory, [read_game_has_retry] reports a retry for an attempt of a
    transition exactly when [read_game_for_transition] selects a later
    attempt, as long as the selected one is below the scan's last index. *)
Theorem retry_iff_superseded f d t slots tr1 tr2 g a game b :
  factory_is f slots tr1 -> factory_is f slots tr2 ->
  runs (read_game_for_transition f d t) tr1 (Ok (Some g)) ->
  runs (read_game_has_retry f game) tr2 (Ok b) ->
  saw (S := ChainSig) (RetryContextCalls game)
    (Ok {| tw_domain := d; tw_block := lt_block t; tw_parent := lt_parent_ref t;
           tw_attempt := a; tw_root := lt_root_claim t |}) tr2 ->
  0 <= a <= lg_attempt g -> lg_attempt g < Z.of_nat MAX_ATTEMPT_SCAN - 1 ->
  b = bool_decide (a < lg_attempt g).
Proof.
  intros Hf1 Hf2 Hscan Hretry Hctx Ha Hcap.
  apply read_game_for_transition_latest in Hscan as (n&Hn&Hocc&Hend&Hpos&Hatt&_).
  apply read_game_has_retry_spec in Hretry as (w&Hw&Hr). apply Hw in Hctx as <-. simpl in *.
  assert (MAX_ATTEMPT_SCAN = 64%nat) as Hmax by done.
  destruct Hr as [[Hbig _]|(proxy&->&Hreg)]; [unfold U256_MAX in *; lia|].
  apply Hf2 in Hreg. simpl in Hreg.
  destruct (bool_decide_reflect (a < lg_attempt g)) as [Hlt|Hge].
  - destruct (Hocc (Z.to_nat (a + 1))) as (q&Hq&Hs); [lia|]. apply Hf1 in Hs.
    rewrite Z2Nat.id in Hs by lia. rewrite <-Hreg in Hs. subst q.
    apply negb_true_iff. by apply Z.eqb_neq.
  - destruct Hend as [->|Hs]; [lia|]. apply Hf1 in Hs.
    replace (Z.of_nat n) with (a + 1) in Hs by lia. rewrite <-Hreg in Hs. by subst proxy.
Qed.

(** ** Selection on the implementations *)

(** What the environment said about one canonical output root. *)
Definition root_confirmed (has_verifier : bool) (tr : list (event EnvSig)) (b : Z) (root : B256)
    : Prop :=
  if has_verifier
  then saw (S := EndpointsSig) (JoinRoots b) (Ok root, Ok root) tr
  else saw (S := EndpointsSig) (PrimaryRoot b) (Ok root) tr.

Lemma verifying_output_root_agreed v b tr r :
  runs (verifying_output_root v b) tr (Ok r) ->
  if v then tr = [ev (JoinRoots b : call EndpointsSig) (Ok r, Ok r)]
  else tr = [ev (PrimaryRoot b : call EndpointsSig) (Ok r)].
Proof.
  destruct v; simpl; [|by intros (?&?&->&->&<-)].
  intros ([p q]&tr'&->&->&H). destruct p as [p|], q as [q|]; simpl in H; try discriminate.
  destruct (Z.eqb_spec p q); [|discriminate]. by injection H as <-; subst.
Qed.

Lemma read_resolution_words game tr st :
  runs (read_lineage_resolution_status game) tr (Ok st) ->
  exists w, tr = [ev (ResolutionCalls game : call ChainSig) (Ok w)] /\
    GameStatus_try_from (sw_status w) = Ok (status st) /\
    GameStatus_try_from (sw_outcome w) = Ok (outcome st) /\
    resolvable st = sw_resolvable w.
Proof.
  intros H. unfold read_lineage_resolution_status in H. open_read H.
  destruct H as ([w|e]&tr'&->&H); open_read H; destruct H as [-> H]; [|discriminate].
  exists w. split; [done|]. symmetry in H.
  apply rbind_Ok in H as (s&Hs%map_err_Ok&H). apply rbind_Ok in H as (o&Ho%map_err_Ok&H).
  by apply rbind_Ok in H as (r&Hr%map_err_Ok&[= <-]).
Qed.

(** Events of the interface, opened as runs of the implementation inside the
    environment's trace. *)
Lemma select_impl_saw {S0} `{!Sub S0 SelectSig} (h : impl SelectSig EnvSig) tr0 trs
    (c : call S0) a :
  Forall2 (fun e t => runs (h (projT1 e)) t (projT2 e)) tr0 trs ->
  saw c a tr0 -> exists r t, prj c r = a /\ t ⊆ concat trs /\ runs (h (inj c)) t r.
Proof.
  intros Hf (r&Hr&Ha). destruct (elem_of_subst h _ _ _ Hf Hr) as (t&Ht&Hrun).
  by exists r, t.
Qed.

Lemma embeds_subset {S T} `{!Sub S T} (tr0 : list (event S)) (t tr : list (event T)) c a :
  Forall2 embeds tr0 t -> t ⊆ tr -> saw (S := S) c a tr0 -> saw (S := S) c a tr.
Proof.
  intros He Hs (r&Hr&Ha). simpl in *. subst a. eapply saw_mono; [exact Hs|].
  by eapply saw_embeds.
Qed.

Lemma registered_lift (tr0 : list (event ChainSig)) (t tr : list (event EnvSig)) f d x a g :
  Forall2 embeds tr0 t -> t ⊆ tr -> registered tr0 f d x a g -> registered tr f d x a g.
Proof. intros. by eapply embeds_subset. Qed.

Lemma latest_attempt_lift (tr0 : list (event ChainSig)) (t tr : list (event EnvSig)) f d x n r :
  Forall2 embeds tr0 t -> t ⊆ tr -> latest_attempt tr0 f d x n r -> latest_attempt tr f d x n r.
Proof.
  intros He Hs (Hocc&Hend&Hr). split; [|split].
  - intros a Ha. destruct (Hocc a Ha) as (q&?&?). eauto using registered_lift.
  - destruct Hend; eauto using registered_lift.
  - destruct r; [|done]. naive_solver eauto using registered_lift.
Qed.

(** A game of the selected lineage, in terms of the chain's own answers. *)
Definition game_on_chain (f : Address) (d : B256) (v : bool) (tr : list (event EnvSig))
    (g : SelectedLineageGame) : Prop :=
  let t := slg_transition g in
  root_confirmed v tr (lt_block t) (lt_root_claim t) /\
  (exists n, (n <= MAX_ATTEMPT_SCAN)%nat /\ latest_attempt tr f d t n (Some (slg_game g))) /\
  (exists w, saw (S := ChainSig) (ResolutionCalls (lg_address (slg_game g))) (Ok w) tr /\
     sw_outcome w <> GameStatus_u8 ChallengerWins).

Lemma chain_on_chain f reg d v (tr0 : list (event SelectSig)) trs I F p gs q :
  Forall2 (fun e t => runs (select_impl f reg d v (projT1 e)) t (projT2 e)) tr0 trs ->
  chain tr0 I F p gs q -> Forall (game_on_chain f d v (concat trs)) gs.
Proof.
  intros Hf. induction 1 as [|p g gs q st (_&_&_&_&Hroot) Hgame Hst Hne _ IH]; constructor; [|done].
  apply (select_impl_saw _ _ _ _ _ Hf) in Hroot as (r1&t1&Hr1'&Hs1&(u1&He1&Hr1)%runs_lift).
  apply (select_impl_saw _ _ _ _ _ Hf) in Hgame as (r2&t2&Hr2'&Hs2&(u2&He2&Hr2)%runs_lift).
  apply (select_impl_saw _ _ _ _ _ Hf) in Hst as (r3&t3&Hr3'&Hs3&(u3&He3&Hr3)%runs_lift).
  simpl in *. subst r1 r2 r3. split; [|split].
  - cbn in Hr1. apply verifying_output_root_agreed in Hr1. unfold root_confirmed.
    destruct v; subst u1; (eapply embeds_subset; [exact He1|exact Hs1|]);
      by eexists; split; [left|].
  - apply read_game_for_transition_latest in Hr2 as (n&Hn&Hl). exists n.
    eauto using latest_attempt_lift.
  - apply read_resolution_words in Hr3 as (w&->&_&Ho&_). exists w. split.
    + eapply embeds_subset; [exact He3|exact Hs3|]. by eexists; split; [left|].
    + intros Hw. rewrite Hw in Ho. change (Ok ChallengerWins = Ok (E := GameStatusError) (outcome st)) in Ho.
      congruence.
Qed.

(** C5: End to end: when [select_lineage] runs on the contract reads and on
    the consensus endpoints, every game it selects (1) claims a root that the
    primary endpoint returned for its block, and the verifying one too if it
    is configured; (2) is the factory's entry for that transition at its
    attempt, with every lower attempt occupied and the next slot empty or
    beyond the scan; (3) was read as not lost to a challenger. *)
Theorem selected_lineage_on_chain f reg d v I rp tr lin :
  runs (subst (select_impl f reg d v) (select_lineage I rp)) tr (Ok lin) -> 0 <= I ->
  Forall (game_on_chain f d v tr) (sl_games lin).
Proof.
  intros (tr0&trs&Hrun&->&Hf)%runs_subst HI. destruct (decide (I = 0)) as [->|]; [by destruct Hrun|].
  apply select_lineage_stages in Hrun as [(e&[=]&_&_)|(anchor0&F&a&t1&t2&->&_&_&_&_&Hl)]; [|lia].
  apply select_loop_sound in Hl as (_&gs&tip&->&Hc&_).
  eapply chain_on_chain; [exact Hf|]. eapply chain_mono; [|exact Hc]. apply subseteq_app_r.
Qed.

(** With a verifying endpoint an output root is returned only if both
    endpoints returned it; every other outcome is the error that names the
    endpoint that failed (the primary first) or the two roots. *)
Theorem verifying_output_root_cases b tr r :
  runs (verifying_output_root true b) tr r <->
  exists p q, tr = [ev (JoinRoots b : call EndpointsSig) (p, q)] /\
    match p, q with
    | Err e, _ => r = Err (Endpoint "primary" e)
    | Ok _, Err e => r = Err (Endpoint "verifying" e)
    | Ok x, Ok y => (x = y /\ r = Ok x) \/ (x <> y /\ r = Err (OutputRootMismatch b x y))
    end.
Proof.
  simpl. split.
  - intros ([p q]&tr'&->&->&->). exists p, q. split; [done|].
    destruct p as [x|], q as [y|]; simpl; try done. destruct (Z.eqb_spec x y); naive_solver.
  - intros (p&q&->&H). exists (p, q), []. split; [done|]. split; [done|].
    destruct p as [x|], q as [y|]; simpl; try done. destruct (Z.eqb_spec x y); naive_solver.
Qed.

(** A registered lineage configuration can drive lineage selection: its
    interval is a positive [u64], its registry is not the zero address, and
    both were read from the implementation the factory registers for the
    game type. *)
Theorem registered_config_valid f tr c :
  runs (read_registered_lineage_config f) tr (Ok c) ->
  (forall i w, saw (S := ChainSig) (ImplementationCalls i) (Ok w) tr -> 0 <= iw_block_interval w) ->
  0 < rl_block_interval c <= U64_MAX /\ rl_anchor_registry c <> ZERO /\
  exists i, i <> ZERO /\
    saw (S := ChainSig) (GameImpls f MULTI_PROOF_GAME_TYPE) (Ok i) tr /\
    saw (S := ChainSig) (ImplementationCalls i)
      (Ok {| iw_domain_hash := rl_domain_hash c; iw_anchor_registry := rl_anchor_registry c;
             iw_block_interval := rl_block_interval c |}) tr.
Proof.
  intros H Hu. unfold read_registered_lineage_config, read_registered_game_implementation in H.
  open_read H. destruct H as ([i|e]&tr'&->&H); open_read H; [|by destruct H].
  destruct (Z.eqb_spec i ZERO) as [->|Hi]; open_read H; [by destruct H|].
  destruct H as ([w|e]&tr2&->&H); open_read H; [|by destruct H].
  assert (0 <= iw_block_interval w) as Hpos
    by (apply (Hu i w), saw_cons; by exists (Ok w); split; [left|]).
  destruct (Z.eqb_spec (iw_anchor_registry w) ZERO); [by destruct H|].
  unfold to_u64 in H. destruct (Z.leb_spec (iw_block_interval w) U64_MAX); [|by destruct H].
  destruct (Z.eqb_spec (iw_block_interval w) 0); destruct H as [-> [= ->]]. simpl.
  split; [lia|]. split; [done|]. exists i. split; [done|]. split.
  - by exists (Ok i); split; [left|].
  - apply saw_cons. exists (Ok w). split; [by left|]. by destruct w.
Qed.

(** ** A concrete environment

    Anchor game 7 at block 100, interval 10; the factory holds attempts 0 and
    1 for block 110; both endpoints agree on the output roots. *)

Definition env_transition : LineageTransition :=
  {| lt_parent_ref := 7; lt_root_claim := 110000; lt_block := 110 |}.

Definition env_slots (root : B256) (extra : bytes) : Address :=
  let key a := extra_data {| parent_ref := 7; root_claim := 110000; l2_block_number := 110;
                             attempt := a |} 9 in
  if root =? 110000 then
    if bool_decide (extra = key 0) then 201 else if bool_decide (extra = key 1) then 202 else ZERO
  else ZERO.

Definition chain_world : handler ChainSig unit := fun c w =>
  match c with
  | RecoveryParentCalls _ _ => (Err "unused", w)
  | AnchorCalls _ => (Ok {| aw_l2_sequence_number := 100; aw_anchor_game := 7 |}, w)
  | GameImpls _ _ => (Ok 50, w)
  | ImplementationCalls _ =>
      (Ok {| iw_domain_hash := 9; iw_anchor_registry := 2; iw_block_interval := 10 |}, w)
  | BondVault _ => (Ok 60, w)
  | Games _ _ root extra => (Ok (env_slots root extra), w)
  | RetryContextCalls g =>
      (Ok {| tw_domain := 9; tw_block := 110; tw_parent := 7;
             tw_attempt := g - 201; tw_root := 110000 |}, w)
  | ResolutionCalls _ => (Ok {| sw_status := 0; sw_resolvable := false; sw_outcome := 0; sw_reason := 0 |}, w)
  | IsGameClaimValid _ _ => (Ok true, w)
  end.

Definition env_world : handler EnvSig unit := fun c w =>
  match c with
  | inl c => chain_world c w
  | inr (PrimaryRoot b) => (Ok (b * 1000), w)
  | inr (JoinRoots b) => ((Ok (b * 1000), Ok (b * 1000)), w)
  | inr PrimaryFinalized => (Ok 125, w)
  end.

Definition env_client : prog EnvSig (result SelectedLineage LineageError) :=
  subst (select_impl 1 2 9 true) (select_lineage 10 None).
Definition env_lineage : SelectedLineage := {|
  sl_anchor := {| la_address := 7; la_block := 100 |};
  sl_games := [{| slg_transition := env_transition;
                  slg_game := {| lg_address := 202; lg_attempt := 1 |} |}];
  sl_stop := Missing {| lt_parent_ref := 202; lt_root_claim := 120000; lt_block := 120 |}
|}.

Lemma env_runs : runs env_client (trace_of env_world env_client tt) (Ok env_lineage).
Proof.
  replace (Ok env_lineage) with (value_of env_world env_client tt) by (vm_compute; reflexivity).
  apply interp_runs.
Qed.

Lemma selected_lineage_on_chain_witness :
  Forall (game_on_chain 1 9 true (trace_of env_world env_client tt)) (sl_games env_lineage).
Proof. exact (selected_lineage_on_chain 1 2 9 true 10 None _ _ env_runs ltac:(lia)). Defined.

Lemma chain_world_factory A (p : prog ChainSig A) :
  factory_is 1 env_slots (trace_of chain_world p tt).
Proof. intros root extra proxy [= ->]%saw_replies. done. Qed.

Definition scan_demo := read_game_for_transition 1 9 env_transition.
Definition retry_demo := read_game_has_retry 1 201.

Lemma scan_demo_runs : runs scan_demo (trace_of chain_world scan_demo tt)
  (Ok (Some {| lg_address := 202; lg_attempt := 1 |})).
Proof.
  replace (Ok (Some {| lg_address := 202; lg_attempt := 1 |}))
    with (value_of chain_world scan_demo tt) by (vm_compute; reflexivity).
  apply interp_runs.
Qed.

Lemma retry_demo_runs : runs retry_demo (trace_of chain_world retry_demo tt) (Ok true).
Proof.
  replace (Ok true) with (value_of chain_world retry_demo tt) by (vm_compute; reflexivity).
  apply interp_runs.
Qed.

Lemma retry_iff_superseded_witness :
  runs retry_demo (trace_of chain_world retry_demo tt) (Ok true) /\ true = bool_decide (0 < 1).
Proof.
  split; [exact retry_demo_runs|].
  refine (retry_iff_superseded 1 9 env_transition env_slots (trace_of chain_world scan_demo tt)
    (trace_of chain_world retry_demo tt) {| lg_address := 202; lg_attempt := 1 |} 0 201 true
    (chain_world_factory _ _) (chain_world_factory _ _) scan_demo_runs retry_demo_runs _ _ _).
  - eexists. split; [left|reflexivity].
  - simpl. lia.
  - reflexivity.
Defined.

Lemma registered_config_valid_witness :
  let tr := trace_of chain_world (read_registered_lineage_config 1) tt in
  0 < 10 <= U64_MAX /\ 2 <> ZERO /\
  exists i, i <> ZERO /\
    saw (S := ChainSig) (GameImpls 1 MULTI_PROOF_GAME_TYPE) (Ok i) tr /\
    saw (S := ChainSig) (ImplementationCalls i)
      (Ok {| iw_domain_hash := 9; iw_anchor_registry := 2; iw_block_interval := 10 |}) tr.
Proof.
  refine (registered_config_valid 1 _
    {| rl_domain_hash := 9; rl_block_interval := 10; rl_anchor_registry := 2 |}
    (interp_runs chain_world (read_registered_lineage_config 1) tt) _).
  intros i w [= ->]%saw_replies. simpl. lia.
Defined.
