(* ===== verification/Proposer.v ===== *)
(** * The proposer ([src/proofs/services/proposer/src])

    Each tick rebuilds the selected lineage, resolves its positively
    resolvable games, advances the anchor and acts on the tip.  The proposer
    keeps no state between ticks, so a tick is a program that depends on the
    configuration only. *)

From S2P Require Import Prelude Program Encoding ProofTypes Lineage.

(** ** Data *)

Inductive ProposerError :=
| InvalidConfig (message : string)
| NonZeroFactoryBond (bond : Z)
| VaultFactoryMismatch (vault expected actual : Address)
| Contract (message : string)
| PendingTransaction (message : string)
| Multicall (message : string)
| AlloyJsonRpc (message : string)
| FromLineage (error : LineageError)
| Revert (tx_hash : B256)
| Overflow
| MissingProposalEvent (tx_hash : B256)
| MissingProposerBondLockedEvent (tx_hash : B256)
| Permit (message : string).

Record Proposal := {
  pr_parent_ref : Address;
  pr_root_claim : B256;
  pr_l2_block_number : Z;
  pr_attempt : Z
}.

Definition commitment (p : Proposal) : ProposalCommitment :=
  {| parent_ref := pr_parent_ref p; root_claim := pr_root_claim p;
     l2_block_number := pr_l2_block_number p; attempt := pr_attempt p |}.

Inductive NextProposalAction :=
| Propose (proposal : Proposal)
| RetryTimedOut (proposal : Proposal) (invalidated_game : Address)
| ResolveNegative (game : Address) (reason : InvalidationReason)
| BlockedByInvalidation (game : Address) (reason : InvalidationReason)
| ActionCaughtUp (target_block finalized_block : Z).

Record ProposerScan := { scan_lineage : SelectedLineage; next_action : NextProposalAction }.

Record ProposalSubmission := { ps_tx_hash : B256; ps_game_address : Address }.

(** Durations are kept in milliseconds. *)
Record ProposerConfig := {
  recovery_parent : option Address;
  poll_interval : Z;
  max_resolutions_per_tick : nat
}.

Definition validate (c : ProposerConfig) : result unit ProposerError :=
  if poll_interval c =? 0 then Err (InvalidConfig "poll_interval must be greater than zero")
  else if Nat.eqb (max_resolutions_per_tick c) 0
  then Err (InvalidConfig "max_resolutions_per_tick must be greater than zero")
  else Ok tt.

Definition default_config : ProposerConfig :=
  {| recovery_parent := None; poll_interval := 12 * 1000; max_resolutions_per_tick := 1 |}.

(** ** The [ProposerClient] trait; [LineageProvider] is its supertrait *)

Inductive proposer_call :=
| ResolveGame (game : Address)
| IsClaimValid (game : Address)
| CloseGame (game : Address)
| SubmitProposal (proposal : Proposal).

Definition ProposerSig : Sig := MkSig proposer_call (fun c =>
  match c with
  | ResolveGame _ => result B256 ProposerError
  | IsClaimValid _ => result bool ProposerError
  | CloseGame _ => result B256 ProposerError
  | SubmitProposal _ => result ProposalSubmission ProposerError
  end).

Definition TickSig : Sig := ProposerSig ⊕ SelectSig.

Definition client (c : call ProposerSig) : prog TickSig (reply ProposerSig c) := trigger c.
Definition from_lineage {A} (p : prog TickSig (result A LineageError))
    : prog TickSig (result A ProposerError) :=
  do r <- p; Ret (map_err FromLineage r).

(** ** The steps of a tick *)

(** The [match lineage.stop()] of [scan_selected_lineage]. *)
Definition action_at_stop (stop : LineageStop) : result NextProposalAction ProposerError :=
  match stop with
  | CaughtUp target finalized => Ok (ActionCaughtUp target finalized)
  | Missing t =>
      Ok (Propose {| pr_parent_ref := lt_parent_ref t; pr_root_claim := lt_root_claim t;
                     pr_l2_block_number := lt_block t; pr_attempt := 0 |})
  | Invalidated t game st =>
      if resolvable st then Ok (ResolveNegative (lg_address game) (invalidation_reason st))
      else if bool_decide (invalidation_reason st = ProofTimeout) then
        let? attempt := ok_or (checked_add (lg_attempt game) 1) Overflow in
        Ok (RetryTimedOut
              {| pr_parent_ref := lt_parent_ref t; pr_root_claim := lt_root_claim t;
                 pr_l2_block_number := lt_block t; pr_attempt := attempt |} (lg_address game))
      else Ok (BlockedByInvalidation (lg_address game) (invalidation_reason st))
  end.

Definition scan_selected_lineage (cfg : ProposerConfig) (block_interval : Z)
    : prog TickSig (result ProposerScan ProposerError) :=
  match validate cfg with
  | Err e => Ret (Err e)
  | Ok _ =>
      do? lin <- from_lineage (lift (select_lineage block_interval (recovery_parent cfg)));
      Ret (let? act := action_at_stop (sl_stop lin) in
           Ok {| scan_lineage := lin; next_action := act |})
  end.

(** The loop of [resolve_games] with its two mutable locals. *)
Fixpoint resolve_loop (max_resolutions : nat) (games resolved_games : list SelectedLineageGame)
    (resolutions_submitted : nat) : prog TickSig (result (list SelectedLineageGame) ProposerError) :=
  match games with
  | [] => Ret (Ok resolved_games)
  | selected :: rest =>
      let game := lg_address (slg_game selected) in
      do? st <- from_lineage (lineage (LineageResolutionStatus game));
      if positive_resolvable st then
        if Nat.leb max_resolutions resolutions_submitted
        then resolve_loop max_resolutions rest resolved_games resolutions_submitted
        else
          do? _submission <- client (ResolveGame game);
          resolve_loop max_resolutions rest (resolved_games ++ [selected])
            (S resolutions_submitted)
      else if bool_decide (outcome st = DefenderWins)
      then resolve_loop max_resolutions rest (resolved_games ++ [selected]) resolutions_submitted
      else resolve_loop max_resolutions rest resolved_games resolutions_submitted
  end.

Definition resolve_games (cfg : ProposerConfig) (games : list SelectedLineageGame)
    : prog TickSig (result (list SelectedLineageGame) ProposerError) :=
  resolve_loop (max_resolutions_per_tick cfg) games [] 0.

Fixpoint advance_loop (rev_games : list SelectedLineageGame)
    : prog TickSig (result unit ProposerError) :=
  match rev_games with
  | [] => Ret (Ok tt)
  | selected :: rest =>
      do? valid <- client (IsClaimValid (lg_address (slg_game selected)));
      if negb valid then advance_loop rest
      else
        do? _submission <- client (CloseGame (lg_address (slg_game selected)));
        Ret (Ok tt)
  end.

Definition advance_anchor (resolved_games : list SelectedLineageGame)
    : prog TickSig (result unit ProposerError) :=
  advance_loop (reverse resolved_games).

Definition submit_next_proposal (scan : ProposerScan) : prog TickSig (result unit ProposerError) :=
  let submit p := (do? _submission <- client (SubmitProposal p); Ret (Ok tt)) in
  match next_action scan with
  | Propose proposal => submit proposal
  | RetryTimedOut proposal _ => submit proposal
  | ResolveNegative game _ => do? _submission <- client (ResolveGame game); Ret (Ok tt)
  | BlockedByInvalidation _ _ => Ret (Ok tt)
  | ActionCaughtUp _ _ => Ret (Ok tt)
  end.

Definition tick (cfg : ProposerConfig) (block_interval : Z) : prog TickSig (result unit ProposerError) :=
  do? scan <- scan_selected_lineage cfg block_interval;
  do? resolved_games <- resolve_games cfg (sl_games (scan_lineage scan));
  do? _advanced <- advance_anchor resolved_games;
  do? _submitted <- submit_next_proposal scan;
  Ret (Ok tt).

(** The first [n] iterations of [run_forever]'s loop: a failed tick is logged
    and forgotten. *)
Fixpoint run_ticks (n : nat) (cfg : ProposerConfig) (block_interval : Z) : prog TickSig unit :=
  match n with
  | O => Ret tt
  | S n' => do _r <- tick cfg block_interval; run_ticks n' cfg block_interval
  end.

Definition run_forever (n : nat) (cfg : ProposerConfig) (block_interval : Z)
    : prog TickSig (result unit ProposerError) :=
  match validate cfg with
  | Err e => Ret (Err e)
  | Ok _ => do _r <- run_ticks n cfg block_interval; Ret (Ok tt)
  end.

(** ** What the proposer may do

    [allowed cfg I h e]: the call [e] is justified by the replies [h]. *)

Definition transition_of (p : Proposal) : LineageTransition :=
  {| lt_parent_ref := pr_parent_ref p; lt_root_claim := pr_root_claim p;
     lt_block := pr_l2_block_number p |}.

(** The slot of the proposal is free: no attempt exists, or the last one lost
    by proof timeout and is already resolved. *)
Definition slot_open (h : list (event TickSig)) (p : Proposal) : Prop :=
  (pr_attempt p = 0 /\ saw (S := LineageSig) (GameForTransition (transition_of p)) (Ok None) h) \/
  exists g st,
    saw (S := LineageSig) (GameForTransition (transition_of p)) (Ok (Some g)) h /\
    saw (S := LineageSig) (LineageResolutionStatus (lg_address g)) (Ok st) h /\
    pr_attempt p = lg_attempt g + 1 /\ outcome st = ChallengerWins /\
    resolvable st = false /\ invalidation_reason st = ProofTimeout.

Definition proposal_ok (cfg : ProposerConfig) (I : Z) (h : list (event TickSig)) (p : Proposal)
    : Prop :=
  exists anchor0 F anchor games tip,
    saw (S := LineageSig) GetLineageAnchor (Ok anchor0) h /\
    saw (S := ConsensusSig) LatestL2FinalizedBlock (Ok F) h /\
    start_ok h F (recovery_parent cfg) anchor0 anchor /\
    chain h I F anchor games tip /\
    next_transition h I F tip (transition_of p) /\ slot_open h p.

Definition resolution_ok (h : list (event TickSig)) (g : Address) : Prop :=
  exists st, saw (S := LineageSig) (LineageResolutionStatus g) (Ok st) h /\ resolvable st = true.

Definition closing_ok (h : list (event TickSig)) (g : Address) : Prop :=
  saw (S := ProposerSig) (IsClaimValid g) (Ok true) h /\
  exists st, saw (S := LineageSig) (LineageResolutionStatus g) (Ok st) h /\
    outcome st = DefenderWins.

Definition allowed (cfg : ProposerConfig) (I : Z) (h : list (event TickSig)) (e : event TickSig)
    : Prop :=
  match projT1 e with
  | inl (ResolveGame g) => resolution_ok h g
  | inl (CloseGame g) => closing_ok h g
  | inl (SubmitProposal p) => proposal_ok cfg I h p
  | _ => True
  end.

(** A game the resolve step hands on was read as won by the defender. *)
Definition defended (h : list (event TickSig)) (g : SelectedLineageGame) : Prop :=
  exists st, saw (S := LineageSig) (LineageResolutionStatus (lg_address (slg_game g))) (Ok st) h /\
    outcome st = DefenderWins.

Lemma defended_mono h h' g : h ⊆ h' -> defended h g -> defended h' g.
Proof. intros Hs (st&?&?). exists st. eauto using saw_mono. Qed.

Lemma positive_resolvable_spec st :
  positive_resolvable st = true <-> resolvable st = true /\ outcome st = DefenderWins.
Proof. unfold positive_resolvable. by rewrite andb_true_iff, bool_decide_eq_true. Qed.

Lemma scan_safe cfg I (P : list (event TickSig) -> event TickSig -> Prop) :
  0 <= I -> (forall h (c : call SelectSig) r, P h (ev (inr c : call TickSig) r)) ->
  safe P (scan_selected_lineage cfg I) (fun t r =>
    match r with
    | Ok scan => selected t I (recovery_parent cfg) (scan_lineage scan) /\
                 action_at_stop (sl_stop (scan_lineage scan)) = Ok (next_action scan)
    | Err _ => True
    end).
Proof.
  intros HI HP. unfold scan_selected_lineage. destruct (validate cfg); [|by apply safe_ret].
  eapply safe_bind_try.
  - unfold from_lineage. eapply safe_bind; [by apply (safe_lift (S := SelectSig)), HP|].
    intros r t1 (tr0&He&Hr). apply safe_ret. rewrite app_nil_r.
    instantiate (1 := fun t r => match r with
      | Ok lin => selected t I (recovery_parent cfg) lin | Err _ => True end).
    destruct r as [lin|]; simpl; [|done]. eapply selected_inr; [exact He|].
    by apply select_lineage_selected.
  - done.
  - intros lin t1 Hsel. apply safe_ret. rewrite app_nil_r.
    destruct (action_at_stop (sl_stop lin)) eqn:Ha; simpl; [|done]. auto.
Qed.

Lemma from_lineage_status (P : list (event TickSig) -> event TickSig -> Prop) g :
  (forall h (c : call SelectSig) r, P h (ev (inr c : call TickSig) r)) ->
  safe P (from_lineage (lineage (LineageResolutionStatus g))) (fun t r =>
    match r with
    | Ok st => saw (S := LineageSig) (LineageResolutionStatus g) (Ok st) t
    | Err _ => True
    end).
Proof.
  intros HP. eapply safe_bind; [apply (safe_trigger (S := LineageSig) _ (LineageResolutionStatus g)); intros; apply HP|].
  intros r t1 Hr. apply safe_ret. rewrite app_nil_r. by destruct r.
Qed.

(** ** Safety of the steps *)

Lemma safe_client (P : list (event TickSig) -> event TickSig -> Prop) (c : call ProposerSig) :
  (forall r, P [] (ev (inl c : call TickSig) r)) -> safe P (client c) (fun t a => saw c a t).
Proof. exact (safe_trigger (S := ProposerSig) (T := TickSig) P c). Qed.

Lemma resolve_loop_safe cfg I m games acc k t0 :
  Forall (defended t0) acc ->
  safe (fun h => allowed cfg I (t0 ++ h)) (resolve_loop m games acc k) (fun t r =>
    match r with Ok out => Forall (defended (t0 ++ t)) out | Err _ => True end).
Proof.
  revert acc k t0. induction games as [|g games IH]; intros acc k t0 Hacc; simpl.
  { apply safe_ret. by rewrite app_nil_r. }
  eapply safe_bind_try; [by apply from_lineage_status|done|]. intros st t1 Hst.
  assert (forall h, Forall (defended (t0 ++ t1 ++ h)) acc) as Hacc'.
  { intros h. eapply Forall_impl; [exact Hacc|]. intros x. apply defended_mono. set_solver. }
  assert (forall h, outcome st = DefenderWins -> defended (t0 ++ t1 ++ h) g) as Hg.
  { intros h Ho. exists st. split; [|done]. by apply saw_app_r, saw_app_l. }
  destruct (positive_resolvable st) eqn:Hpos.
  - apply positive_resolvable_spec in Hpos as [Hres Ho]. destruct (Nat.leb m k).
    + eapply safe_conseq; [apply (IH acc k (t0 ++ t1))| |].
      * rewrite <-(app_nil_r t1). apply Hacc'.
      * shift_trace.
      * shift_trace.
    + eapply safe_bind_try; [apply (safe_client _ (ResolveGame _))|done|].
      * intros r. rewrite app_nil_r. exists st. split; [by apply saw_app_r|done].
      * intros tx t2 _. eapply safe_conseq; [apply (IH (acc ++ [g]) (S k) (t0 ++ t1 ++ t2))| |].
        -- apply Forall_app_2; [apply Hacc'|]. constructor; [by apply Hg|constructor].
        -- shift_trace.
        -- shift_trace.
  - assert (forall acc', Forall (defended (t0 ++ t1)) acc' ->
      safe (fun h => allowed cfg I (t0 ++ t1 ++ h)) (resolve_loop m games acc' k) (fun t r =>
        match r with Ok out => Forall (defended (t0 ++ t1 ++ t)) out | Err _ => True end)) as Hgo.
    { intros acc' Ha. eapply safe_conseq; [apply (IH acc' k (t0 ++ t1) Ha)| |];
        shift_trace. }
    specialize (Hacc' []). specialize (Hg []). rewrite app_nil_r in *.
    case_bool_decide; apply Hgo; [|done]. apply Forall_app_2; [done|].
    constructor; [by apply Hg|constructor].
Qed.

Lemma advance_loop_safe cfg I games t0 :
  Forall (defended t0) games ->
  safe (fun h => allowed cfg I (t0 ++ h)) (advance_loop games) (fun _ _ => True).
Proof.
  revert t0. induction games as [|g games IH]; intros t0 Hd; simpl; [by apply safe_ret|].
  apply Forall_cons in Hd as [Hg Hd].
  eapply safe_bind_try; [by apply (safe_client _ (IsClaimValid _))|done|]. intros valid t1 Hv.
  destruct valid; simpl.
  - eapply safe_bind_try; [apply (safe_client _ (CloseGame _))|done|].
    + intros r. rewrite app_nil_r. split; [by apply saw_app_r|].
      eapply defended_mono; [|exact Hg]. apply subseteq_app_l.
    + intros tx t2 _. by apply safe_ret.
  - eapply safe_conseq; [apply (IH (t0 ++ t1))| |done].
    + eapply Forall_impl; [exact Hd|]. intros x. apply defended_mono, subseteq_app_l.
    + shift_trace.
Qed.

Lemma submit_next_safe cfg I scan t0 :
  selected t0 I (recovery_parent cfg) (scan_lineage scan) ->
  action_at_stop (sl_stop (scan_lineage scan)) = Ok (next_action scan) ->
  safe (fun h => allowed cfg I (t0 ++ h)) (submit_next_proposal scan) (fun _ _ => True).
Proof.
  intros (anchor0&F&tip&Ha&HF&Hs&Hc&_&Hst) Hact. unfold submit_next_proposal.
  assert (forall p, next_transition t0 I F tip (transition_of p) -> slot_open t0 p ->
    safe (fun h => allowed cfg I (t0 ++ h)) (do? _s <- client (SubmitProposal p); Ret (Ok tt))
      (fun _ _ => True)) as Hsub.
  { intros p Hn Ho. eapply safe_bind_try; [apply (safe_client _ (SubmitProposal _))|done|by intros; apply safe_ret].
    intros r. rewrite app_nil_r. by exists anchor0, F, (sl_anchor (scan_lineage scan)),
      (sl_games (scan_lineage scan)), tip. }
  destruct (sl_stop (scan_lineage scan)) as [tb fb|t|t g st]; simpl in Hact.
  - injection Hact as <-. by apply safe_ret.
  - destruct Hst as [Hn Hnone]. injection Hact as <-. apply Hsub.
    + by destruct t.
    + left. split; [done|]. by destruct t.
  - destruct Hst as (Hn&Hg&Hsaw&Hout). destruct (resolvable st) eqn:Hres.
    + injection Hact as <-. eapply safe_bind_try; [apply (safe_client _ (ResolveGame _))|done|by intros; apply safe_ret].
      intros r. rewrite app_nil_r. by exists st.
    + case_bool_decide as Hreason; [|injection Hact as <-; by apply safe_ret].
      apply rbind_Ok in Hact as (a&(->&_)%ok_or_Ok%checked_add_Some&[= <-]). apply Hsub.
      * by destruct t.
      * right. exists g, st. destruct t. split_and!; done.
Qed.

Lemma tick_safe cfg I : 0 <= I -> safe (allowed cfg I) (tick cfg I) (fun _ _ => True).
Proof.
  intros HI. unfold tick. eapply safe_bind_try; [by apply scan_safe|done|].
  intros scan t1 [Hsel Hact].
  eapply safe_bind_try; [apply (resolve_loop_safe cfg I _ _ [] 0 t1); constructor|done|].
  intros rs t2 Hrs. eapply safe_bind_try; [|done|].
  - eapply safe_conseq; [apply (advance_loop_safe cfg I _ (t1 ++ t2))| |done].
    + by rewrite reverse_Permutation.
    + shift_trace.
  - intros _ t3 _. eapply safe_bind_try; [|done|by intros; apply safe_ret].
    eapply safe_conseq; [apply (submit_next_safe cfg I scan (t1 ++ t2 ++ t3))| |done]; [|done|].
    + eapply selected_mono; [|exact Hsel]. apply subseteq_app_l.
    + shift_trace.
Qed.

(** C4: Whatever the chain and the consensus node reply, a proposal that a
    tick submits extends the selected lineage: its parent is the tip of an
    unbroken canonical chain from the anchor (or the recovery parent), its
    block is one interval above the tip and finalized, its root claim is the
    output root the node returned for that block, and its slot is open: no
    attempt exists, or the last one was lost by proof timeout, is resolved,
    and the proposal is the next attempt. *)
Theorem tick_proposes_canonically cfg I tr r t1 p rep t2 :
  runs (tick cfg I) tr r -> 0 <= I ->
  tr = t1 ++ ev (inl (SubmitProposal p) : call TickSig) rep :: t2 -> proposal_ok cfg I t1 p.
Proof. intros Hr HI ->. destruct (tick_safe cfg I HI _ _ Hr) as [Hg _]. exact (Hg t1 _ t2 eq_refl). Qed.

(** A tick sends a resolve transaction only to a game that it has read as
    resolvable before. *)
Theorem tick_resolves_resolvable cfg I tr r t1 g rep t2 :
  runs (tick cfg I) tr r -> 0 <= I ->
  tr = t1 ++ ev (inl (ResolveGame g) : call TickSig) rep :: t2 -> resolution_ok t1 g.
Proof. intros Hr HI ->. destruct (tick_safe cfg I HI _ _ Hr) as [Hg _]. exact (Hg t1 _ t2 eq_refl). Qed.

(** A tick closes a game, which makes it the anchor, only if it has read
    the game as won by the defender and the registry as accepting its claim. *)
Theorem tick_closes_defended cfg I tr r t1 g rep t2 :
  runs (tick cfg I) tr r -> 0 <= I ->
  tr = t1 ++ ev (inl (CloseGame g) : call TickSig) rep :: t2 -> closing_ok t1 g.
Proof. intros Hr HI ->. destruct (tick_safe cfg I HI _ _ Hr) as [Hg _]. exact (Hg t1 _ t2 eq_refl). Qed.

(** ** Transaction budgets *)

Definition is_resolve (c : call TickSig) : bool :=
  match c with inl (ResolveGame _) => true | _ => false end.
Definition is_close (c : call TickSig) : bool :=
  match c with inl (CloseGame _) => true | _ => false end.
Definition is_submit (c : call TickSig) : bool :=
  match c with inl (SubmitProposal _) => true | _ => false end.

(** Opens a run of the code up to its next call. *)
Ltac open_tick H :=
  cbn [runs bind bind_try client from_lineage lineage trigger map_err
       inj prj sub_inl sub_inr sub_refl] in H.

Lemma resolve_loop_counts m games acc k tr r :
  runs (resolve_loop m games acc k) tr r -> (k <= m)%nat ->
  (count_calls is_resolve tr <= m - k)%nat /\ count_calls is_close tr = 0%nat /\
  count_calls is_submit tr = 0%nat.
Proof.
  revert acc k tr. induction games as [|g games IH]; intros acc k tr H Hk;
    cbn [resolve_loop] in H; [destruct H as [-> _]; simpl; lia|].
  open_tick H. destruct H as ([st|e]&tr'&->&H); open_tick H; [|destruct H as [-> _]; simpl; lia].
  cbn [count_calls projT1 is_resolve is_close is_submit]. simpl.
  destruct (positive_resolvable st); [|case_bool_decide; by eapply IH].
  destruct (Nat.leb_spec m k); [by eapply IH|].
  open_tick H. destruct H as ([tx|e]&tr2&->&H); open_tick H.
  - apply IH in H; simpl; lia.
  - destruct H as [-> _]. simpl. lia.
Qed.

Lemma advance_loop_counts games tr r :
  runs (advance_loop games) tr r ->
  count_calls is_resolve tr = 0%nat /\ (count_calls is_close tr <= 1)%nat /\
  count_calls is_submit tr = 0%nat.
Proof.
  revert tr. induction games as [|g games IH]; intros tr H; cbn [advance_loop] in H.
  { destruct H as [-> _]. simpl. lia. }
  open_tick H. destruct H as ([[]|e]&tr'&->&H); open_tick H; simpl.
  - cbn [negb] in H. open_tick H. destruct H as ([tx|e]&tr2&->&H); destruct H as [-> _]; simpl; lia.
  - by apply IH.
  - destruct H as [-> _]. simpl. lia.
Qed.

Lemma submit_next_counts scan tr r :
  runs (submit_next_proposal scan) tr r ->
  (count_calls is_resolve tr + count_calls is_submit tr <= 1)%nat /\
  count_calls is_close tr = 0%nat.
Proof.
  intros H. unfold submit_next_proposal in H.
  destruct (next_action scan); open_tick H; try (by destruct H as [-> _]; simpl; lia);
    destruct H as ([tx|e]&tr2&->&H); destruct H as [-> _]; simpl; lia.
Qed.

Lemma scan_counts cfg I tr r (f : call TickSig -> bool) :
  (forall c : call SelectSig, f (inr c) = false) ->
  runs (scan_selected_lineage cfg I) tr r -> count_calls f tr = 0%nat.
Proof.
  intros Hf H. unfold scan_selected_lineage in H.
  assert (forall (tr0 : list (event SelectSig)) tr, Forall2 embeds tr0 tr ->
    count_calls f tr = 0%nat) as Hsel.
  { induction 1 as [|e e' ?? (rr&->&_) _ IH]; simpl; [done|]. by rewrite Hf. }
  destruct (validate cfg); [|by destruct H as [-> _]].
  apply runs_bind_try in H as [(t1&t2&lin&->&H1&H2)|(e&H1&_)].
  - apply runs_bind in H1 as (u1&u2&b&->&(?&?&_)%runs_lift&Hret).
    destruct H2 as [-> _], Hret as [-> _]. rewrite !app_nil_r. eauto.
  - apply runs_bind in H1 as (u1&u2&b&->&(?&?&_)%runs_lift&Hret).
    destruct Hret as [-> _]. rewrite app_nil_r. eauto.
Qed.

(** A tick submits at most one proposal, closes at most one game, and
    sends at most [max_resolutions_per_tick] resolutions and one more: the
    negative resolution of the tip, which takes the place of a proposal. *)
Theorem tick_budget cfg I tr r :
  runs (tick cfg I) tr r ->
  (count_calls is_resolve tr + count_calls is_submit tr <= S (max_resolutions_per_tick cfg))%nat /\
  (count_calls is_submit tr <= 1)%nat /\ (count_calls is_close tr <= 1)%nat.
Proof.
  intros H. unfold tick in H.
  apply runs_bind_try in H as [(t1&t2&scan&->&H1&H)|(e&H1&_)].
  2: { rewrite !(scan_counts _ _ _ _ _ (fun c => eq_refl) H1). lia. }
  rewrite !count_calls_app, !(scan_counts _ _ _ _ _ (fun c => eq_refl) H1). simpl.
  apply runs_bind_try in H as [(t3&t4&rs&->&H2&H)|(e&H2&_)].
  all: apply resolve_loop_counts in H2; [|lia].
  2: lia.
  apply runs_bind_try in H as [(t5&t6&u&->&H3&H)|(e&H3&_)].
  all: apply advance_loop_counts in H3; rewrite !count_calls_app.
  2: lia.
  apply runs_bind_try in H as [(t7&t8&u'&->&H4&[-> _])|(e&H4&_)];
    apply submit_next_counts in H4; rewrite ?count_calls_app; simpl; lia.
Qed.

(** ** The resolve and anchor steps as functions *)

Definition resolve_target (e : event TickSig) : option Address :=
  match projT1 e with inl (ResolveGame g) => Some g | _ => None end.

Definition addr_of (g : SelectedLineageGame) : Address := lg_address (slg_game g).

(** Games that can be resolved positively now, and games the defender has
    already won. *)
Definition positives (l : list (SelectedLineageGame * ResolutionStatus)) :=
  filter (fun gs => positive_resolvable gs.2 = true) l.
Definition settled_wins (l : list (SelectedLineageGame * ResolutionStatus)) :=
  filter (fun gs => positive_resolvable gs.2 = false /\ outcome gs.2 = DefenderWins) l.

Definition status_read (tr : list (event TickSig)) (g : SelectedLineageGame) (st : ResolutionStatus)
    : Prop := saw (S := LineageSig) (LineageResolutionStatus (addr_of g)) (Ok st) tr.

(** What [resolve_games] did, given the status read for each game. *)
Definition resolve_outcome (m : nat) (l : list (SelectedLineageGame * ResolutionStatus))
    (tr : list (event TickSig)) (found : list SelectedLineageGame) : Prop :=
  sublist found (map fst l) /\
  found ≡ₚ map fst (take m (positives l)) ++ map fst (settled_wins l) /\
  omap resolve_target tr = map (fun gs => addr_of gs.1) (take m (positives l)).

Lemma resolve_loop_out m games acc k tr out :
  runs (resolve_loop m games acc k) tr (Ok out) -> (k <= m)%nat ->
  exists l found, map fst l = games /\ Forall (fun gs => status_read tr gs.1 gs.2) l /\
    out = acc ++ found /\ resolve_outcome (m - k) l tr found.
Proof.
  revert acc k tr. induction games as [|g games IH]; intros acc k tr H Hk; cbn [resolve_loop] in H.
  { destruct H as [-> [= ->]]. exists [], []. rewrite app_nil_r. unfold resolve_outcome.
    cbn. rewrite firstn_nil. split_and!; auto using sublist_nil. }
  open_tick H. destruct H as ([st|e]&tr'&->&H); open_tick H; [|by destruct H].
  set (e0 := ev _ _).
  assert (forall t2, status_read (e0 :: t2) g st) as Hst
    by (intros; by exists (Ok st); split; [left|]).
  assert (forall l t1 t2, t1 ⊆ t2 -> Forall (fun gs => status_read t1 gs.1 gs.2) l ->
    Forall (fun gs => status_read t2 gs.1 gs.2) l) as Hmono
    by (intros l t1 t2 Hs Hl; eapply Forall_impl; [exact Hl|]; intros ?; by apply saw_mono).
  assert (forall acc', runs (resolve_loop m games acc' k) tr' (Ok out) ->
    (forall l, positives ((g, st) :: l) = positives l) \/ (m - k = 0)%nat ->
    acc' = acc /\ settled_wins [(g, st)] = [] \/ acc' = acc ++ [g] /\ settled_wins [(g, st)] = [(g, st)] ->
    exists l found, map fst l = g :: games /\
      Forall (fun gs => status_read (e0 :: tr') gs.1 gs.2) l /\
      out = acc ++ found /\ resolve_outcome (m - k) l (e0 :: tr') found) as Hskip.
  { intros acc' Hrun Hpos Hset. apply IH in Hrun as (l&found&<-&Hl&->&Hsub&Hperm&Hcalls); [|done].
    assert (take (m - k) (positives ((g, st) :: l)) = take (m - k) (positives l)) as Hp
      by (destruct Hpos as [-> | ->]; done).
    assert (settled_wins ((g, st) :: l) = settled_wins [(g, st)] ++ settled_wins l) as Hs
      by (unfold settled_wins; by rewrite <-filter_app).
    destruct Hset as [ [-> Hw] | [-> Hw] ]; rewrite Hw in Hs; simpl in Hs.
    - exists ((g, st) :: l), found. unfold resolve_outcome. rewrite Hp, Hs. cbn.
      split_and!; try done; [constructor; eauto using subseteq_cons_r|by constructor].
    - exists ((g, st) :: l), (g :: found). unfold resolve_outcome. rewrite Hp, Hs. cbn.
      rewrite <-app_assoc.
      split_and!; try done; [constructor; eauto using subseteq_cons_r|by constructor|].
      by rewrite Hperm, <-Permutation_middle. }
  destruct (positive_resolvable st) eqn:Hpos.
  - assert (settled_wins [(g, st)] = []) as Hw
      by (unfold settled_wins; rewrite filter_cons_False; [done|simpl; intros [? _]; congruence]).
    destruct (Nat.leb_spec m k); [apply Hskip in H; auto with lia|].
    open_tick H. destruct H as ([tx|e]&tr2&->&H); open_tick H; [|by destruct H].
    apply IH in H as (l&found&<-&Hl&->&Hsub&Hperm&Hcalls); [|lia].
    assert (settled_wins ((g, st) :: l) = settled_wins l) as Hs
      by (unfold settled_wins in *; by rewrite (filter_app _ [(g, st)] l), Hw).
    assert (take (m - k) (positives ((g, st) :: l)) = (g, st) :: take (m - S k) (positives l)) as Hp.
    { unfold positives. rewrite filter_cons_True by done. by replace (m - k)%nat with (S (m - S k)) by lia. }
    exists ((g, st) :: l), (g :: found). unfold resolve_outcome. rewrite Hp, Hs, <-app_assoc.
    split_and!; try done; [constructor; [apply Hst|]|by constructor|cbn; by rewrite Hperm|cbn; by f_equal].
    eapply Hmono; [|exact Hl]. set_solver.
  - assert (forall l, positives ((g, st) :: l) = positives l) as Hp
      by (intros; unfold positives; rewrite filter_cons_False; [done|simpl; congruence]).
    case_bool_decide as Ho; apply Hskip in H; auto.
    + right. split; [done|]. unfold settled_wins. by rewrite filter_cons_True.
    + left. split; [done|]. unfold settled_wins. rewrite filter_cons_False; [done|]. by intros [_ ?].
Qed.

(** The resolve step reads every game of the lineage once, sends
    resolutions to the first [max_resolutions_per_tick] positively resolvable
    ones, parent first, and returns exactly these and the games the defender
    has already won, in lineage order. *)
Theorem resolve_games_spec cfg games tr out :
  runs (resolve_games cfg games) tr (Ok out) ->
  exists l, map fst l = games /\ Forall (fun gs => status_read tr gs.1 gs.2) l /\
    resolve_outcome (max_resolutions_per_tick cfg) l tr out.
Proof.
  intros (l&found&?&?&->&?)%resolve_loop_out; [|lia]. exists l.
  by replace (max_resolutions_per_tick cfg) with (max_resolutions_per_tick cfg - 0)%nat by lia.
Qed.

(** The anchor step tries the games from the tip down and closes the
    first one whose claim the registry accepts, that is the highest one, and
    nothing else; it closes none exactly when no claim is accepted. *)
Theorem advance_anchor_highest games tr :
  runs (advance_anchor games) tr (Ok tt) ->
  (exists lower g higher tx, games = lower ++ g :: higher /\
     tr = map (fun x => ev (inl (IsClaimValid (addr_of x)) : call TickSig) (Ok false)) (reverse higher)
          ++ [ev (inl (IsClaimValid (addr_of g)) : call TickSig) (Ok true);
              ev (inl (CloseGame (addr_of g)) : call TickSig) (Ok tx)]) \/
  tr = map (fun x => ev (inl (IsClaimValid (addr_of x)) : call TickSig) (Ok false)) (reverse games).
Proof.
  unfold advance_anchor. remember (reverse games) as l eqn:Hl0.
  assert (games = reverse l) as -> by (by rewrite Hl0, reverse_involutive). clear Hl0.
  revert tr. induction l as [|g l IH]; intros tr H; cbn [advance_loop] in H.
  { right. by destruct H as [-> _]. }
  open_tick H. destruct H as ([[]|e]&tr'&->&H); open_tick H; [| |by destruct H].
  - cbn [negb] in H. open_tick H. destruct H as ([tx|e]&tr2&->&H); [|by destruct H].
    destruct H as [-> _]. left. exists (reverse l), g, [], tx. by rewrite reverse_cons.
  - apply IH in H as [(lower&g'&higher&tx&Hl&->)| ->].
    + left. exists lower, g', (higher ++ [g]), tx. rewrite reverse_cons, Hl, <-app_assoc.
      by rewrite reverse_app.
    + by right.
Qed.

(** ** A concrete chain

    Game 201 at block 110 can be resolved positively.  For block 120 the
    factory holds game 301, which is lost by timeout and can be resolved, if
    [tip_lost]; otherwise it holds none. *)

Definition tick_world (tip_lost : bool) : handler TickSig unit := fun c w =>
  match c with
  | inl (ResolveGame g) => (Ok (g + 1000), w)
  | inl (IsClaimValid _) => (Ok true, w)
  | inl (CloseGame g) => (Ok (g + 2000), w)
  | inl (SubmitProposal p) => (Ok {| ps_tx_hash := 5; ps_game_address := 401 |}, w)
  | inr (inl (GameForTransition t)) =>
      (Ok (if lt_block t =? 110 then Some {| lg_address := 201; lg_attempt := 0 |}
           else if tip_lost then Some {| lg_address := 301; lg_attempt := 2 |} else None), w)
  | inr (inl (LineageResolutionStatus g)) =>
      (Ok (if g =? 201 then {| status := InProgress; resolvable := true; outcome := DefenderWins;
                               invalidation_reason := NoReason |}
           else {| status := InProgress; resolvable := true; outcome := ChallengerWins;
                   invalidation_reason := ProofTimeout |}), w)
  | inr c => demo_world c w
  end.

Definition tick_trace (tip_lost : bool) : list (event TickSig) :=
  trace_of (tick_world tip_lost) (tick default_config 10) tt.

Definition tip_proposal : Proposal :=
  {| pr_parent_ref := 201; pr_root_claim := 120000; pr_l2_block_number := 120; pr_attempt := 0 |}.

Lemma tick_runs b : runs (tick default_config 10) (tick_trace b) (Ok tt).
Proof. destruct b; exact (interp_runs (tick_world _) (tick default_config 10) tt). Qed.

Lemma tick_proposes_canonically_witness :
  proposal_ok default_config 10 (take 11 (tick_trace false)) tip_proposal.
Proof.
  exact (tick_proposes_canonically default_config 10 (tick_trace false) (Ok tt)
    (take 11 (tick_trace false)) tip_proposal
    (Ok {| ps_tx_hash := 5; ps_game_address := 401 |}) [] (tick_runs false) ltac:(lia) eq_refl).
Defined.

Lemma tick_resolves_resolvable_witness : resolution_ok (take 8 (tick_trace false)) 201.
Proof.
  exact (tick_resolves_resolvable default_config 10 (tick_trace false) (Ok tt)
    (take 8 (tick_trace false)) 201 (Ok 1201) (drop 9 (tick_trace false)) (tick_runs false) ltac:(lia) eq_refl).
Defined.

Lemma tick_closes_defended_witness : closing_ok (take 10 (tick_trace false)) 201.
Proof.
  exact (tick_closes_defended default_config 10 (tick_trace false) (Ok tt)
    (take 10 (tick_trace false)) 201 (Ok 2201) (drop 11 (tick_trace false)) (tick_runs false) ltac:(lia) eq_refl).
Defined.

Lemma tick_budget_witness :
  (count_calls is_resolve (tick_trace false) + count_calls is_submit (tick_trace false) <= 2)%nat /\
  (count_calls is_submit (tick_trace false) <= 1)%nat /\
  (count_calls is_close (tick_trace false) <= 1)%nat.
Proof. exact (tick_budget default_config 10 (tick_trace false) (Ok tt) (tick_runs false)). Defined.

(** The configured maximum is not a bound on the resolve transactions of
    a tick: with [max_resolutions_per_tick = 1] a tick sends a positive
    resolution and then the negative resolution of the tip. *)
Theorem tick_exceeds_max_resolutions :
  runs (tick default_config 10) (tick_trace true) (Ok tt) /\
  max_resolutions_per_tick default_config = 1%nat /\
  omap resolve_target (tick_trace true) = [201; 301].
Proof. split; [apply tick_runs|]. split; reflexivity. Qed.

Definition two_games : list SelectedLineageGame :=
  [{| slg_transition := {| lt_parent_ref := 7; lt_root_claim := 110000; lt_block := 110 |};
      slg_game := {| lg_address := 201; lg_attempt := 0 |} |};
   {| slg_transition := {| lt_parent_ref := 201; lt_root_claim := 120000; lt_block := 120 |};
      slg_game := {| lg_address := 301; lg_attempt := 0 |} |}].

Lemma resolve_games_spec_witness :
  exists l, map fst l = two_games /\
    Forall (fun gs => status_read
      (trace_of (tick_world true) (resolve_games default_config two_games) tt) gs.1 gs.2) l /\
    resolve_outcome 1 l (trace_of (tick_world true) (resolve_games default_config two_games) tt)
      (take 1 two_games).
Proof.
  exact (resolve_games_spec default_config two_games _ _
    (interp_runs (tick_world true) (resolve_games default_config two_games) tt)).
Defined.

Lemma advance_anchor_highest_witness :
  let tr := trace_of (tick_world true) (advance_anchor two_games) tt in
  (exists lower g higher tx, two_games = lower ++ g :: higher /\
     tr = map (fun x => ev (inl (IsClaimValid (addr_of x)) : call TickSig) (Ok false)) (reverse higher)
          ++ [ev (inl (IsClaimValid (addr_of g)) : call TickSig) (Ok true);
              ev (inl (CloseGame (addr_of g)) : call TickSig) (Ok tx)]) \/
  tr = map (fun x => ev (inl (IsClaimValid (addr_of x)) : call TickSig) (Ok false))
         (reverse two_games).
Proof.
  exact (advance_anchor_highest two_games _
    (interp_runs (tick_world true) (advance_anchor two_games) tt)).
Defined.
