(* ===== verification/ProposerBonds.v ===== *)
(** * The proposer's bond manager ([src/proofs/services/proposer/src/bond_manager.rs])

    It discovers the games the proposer created, resolves the abandoned ones
    and settles their bond pots.  Its state lives between passes, so its
    methods take the state and return it. *)

From S2P Require Import Prelude Program Encoding ProofTypes Lineage Proposer.

(** ** Data *)

Record BondManagerConfig := {
  poll_interval : Z;
  initial_scan_limit : Z;
  max_retry_resolutions_per_tick : nat
}.

Definition validate (c : BondManagerConfig) : result unit ProposerError :=
  if poll_interval c =? 0
  then Err (InvalidConfig "bond_manager.poll_interval must be greater than zero")
  else if initial_scan_limit c =? 0
  then Err (InvalidConfig "bond_manager.initial_scan_limit must be greater than zero")
  else Ok tt.

Definition default_config : BondManagerConfig :=
  {| poll_interval := 5 * 60 * 1000; initial_scan_limit := 1000;
     max_retry_resolutions_per_tick := 1 |}.

Record BondManager := {
  proposed_games : gset Address;
  next_game_index : option Z;
  last_retry_resolution : option Address
}.

Definition new : BondManager :=
  {| proposed_games := ∅; next_game_index := None; last_retry_resolution := None |}.

Definition tracks_game (m : BondManager) (game : Address) : bool :=
  bool_decide (game ∈ proposed_games m).

Definition set_games (f : gset Address -> gset Address) (m : BondManager) : BondManager :=
  {| proposed_games := f (proposed_games m); next_game_index := next_game_index m;
     last_retry_resolution := last_retry_resolution m |}.

(** ** The [BondManagerClient] trait

    [proposer_address] and [active_domain_hash] are stored by the client and
    are arguments. *)

Inductive bond_call :=
| GameCount
| GameAt (index : Z)
| GameCreator (game : Address)
| GameDomainHash (game : Address)
| HasRetry (game : Address)
| ResolutionStatusOf (game : Address)
| ResolveGame (game : Address)
| IsGameFinalized (game : Address)
| IsGameSettled (game : Address)
| CloseGame (game : Address).

#[export] Instance bond_call_eq_dec : EqDecision bond_call.
Proof. solve_decision. Defined.

Definition BondSig : Sig := MkSig bond_call (fun c =>
  match c with
  | GameCount => result Z ProposerError
  | GameAt _ => result (option Address) ProposerError
  | GameCreator _ => result Address ProposerError
  | GameDomainHash _ => result B256 ProposerError
  | HasRetry _ => result bool ProposerError
  | ResolutionStatusOf _ => result ResolutionStatus ProposerError
  | ResolveGame _ => result B256 ProposerError
  | IsGameFinalized _ => result bool ProposerError
  | IsGameSettled _ => result bool ProposerError
  | CloseGame _ => result B256 ProposerError
  end).

Definition client (c : call BondSig) : prog BondSig (reply BondSig c) := Call c Ret.

(** ** Discovery *)

Definition scan_index (proposer : Address) (index : Z) (m : BondManager)
    : prog BondSig (result unit ProposerError * BondManager) :=
  do?[ m ] game <- client (GameAt index);
  match game with
  | None => Ret (Ok tt, m)
  | Some game =>
      do?[ m ] creator <- client (GameCreator game);
      Ret (Ok tt, if creator =? proposer then set_games (union {[game]}) m else m)
  end.

Definition scan_start (cfg : BondManagerConfig) (m : BondManager) (game_count : Z) : Z :=
  match next_game_index m with
  | Some next => if next <=? game_count then next
                 else saturating_sub game_count (initial_scan_limit cfg)
  | None => saturating_sub game_count (initial_scan_limit cfg)
  end.

Definition scan_games (cfg : BondManagerConfig) (proposer : Address) (m : BondManager)
    : prog BondSig (result unit ProposerError * BondManager) :=
  match validate cfg with
  | Err e => Ret (Err e, m)
  | Ok _ =>
      do?[ m ] game_count <- client GameCount;
      do?! _u, m' <- for_each (scan_index proposer) (range (scan_start cfg m game_count) game_count) m;
      Ret (Ok tt, {| proposed_games := proposed_games m'; next_game_index := Some game_count;
                     last_retry_resolution := last_retry_resolution m' |})
  end.

(** ** Settlement *)

(** [partition_point]: the length of the prefix that satisfies the test. *)
Fixpoint partition_point {A} (p : A -> bool) (l : list A) : nat :=
  match l with
  | [] => 0
  | x :: l' => if p x then S (partition_point p l') else 0
  end.

Definition rotate_left {A} (n : nat) (l : list A) : list A := drop n l ++ take n l.

(** The order in which a pass visits the tracked games. *)
Definition settle_order (m : BondManager) : list Address :=
  let sorted := sort_by_key (fun g => g) (elements (proposed_games m)) in
  match last_retry_resolution m with
  | Some last => rotate_left (partition_point (fun game => game <=? last) sorted) sorted
  | None => sorted
  end.

(** The state of a pass: the manager and [retry_resolutions_attempted]. *)
Definition Pass : Type := BondManager * nat.

(** Resolution of a game that is not resolved yet. *)
Definition cleanup (cfg : BondManagerConfig) (active_domain_hash : B256) (game : Address)
    (st : ResolutionStatus) (pass : Pass) : prog BondSig (result bool ProposerError * Pass) :=
  do?[ pass ] obsolete <-
    (if resolvable st
     then do? domain <- client (GameDomainHash game); Ret (Ok (negb (domain =? active_domain_hash)))
     else Ret (Ok false));
  do?[ pass ] superseded <-
    (if resolvable st && bool_decide (outcome st = ChallengerWins)
          && bool_decide (invalidation_reason st = ProofTimeout) && negb obsolete
          && Nat.ltb (snd pass) (max_retry_resolutions_per_tick cfg)
     then client (HasRetry game)
     else Ret (Ok false));
  if invalid_parent_resolvable st || obsolete || superseded then
    let pass' :=
      if superseded : bool
      then ({| proposed_games := proposed_games (fst pass);
               next_game_index := next_game_index (fst pass);
               last_retry_resolution := Some game |}, S (snd pass))
      else pass in
    do?[ pass' ] _submission <- client (ResolveGame game);
    Ret (Ok false, pass')
  else Ret (Ok false, pass).

Definition settle_game (cfg : BondManagerConfig) (active_domain_hash : B256) (game : Address)
    (pass : Pass) : prog BondSig (result bool ProposerError * Pass) :=
  do?[ pass ] settled <- client (IsGameSettled game);
  if settled : bool then Ret (Ok true, pass)
  else
    do?[ pass ] st <- client (ResolutionStatusOf game);
    if negb (is_resolved st) then cleanup cfg active_domain_hash game st pass
    else
      do?[ pass ] finalized <- client (IsGameFinalized game);
      if negb finalized then Ret (Ok false, pass)
      else
        do?[ pass ] _submission <- client (CloseGame game);
        Ret (Ok true, pass).

(** One iteration: a settled game is forgotten, an error is only logged. *)
Definition settle_step (cfg : BondManagerConfig) (active_domain_hash : B256) (game : Address)
    (pass : Pass) : prog BondSig Pass :=
  do rs <- settle_game cfg active_domain_hash game pass;
  Ret (match rs.1 with
       | Ok true => (set_games (fun gs => gs ∖ {[game]}) (fst rs.2), snd rs.2)
       | _ => rs.2
       end).

Definition settle_games (cfg : BondManagerConfig) (active_domain_hash : B256) (m : BondManager)
    : prog BondSig BondManager :=
  do pass <- fold_prog (settle_step cfg active_domain_hash) (settle_order m) (m, 0%nat);
  Ret (fst pass).

(** One iteration of [run_forever]: both errors are logged. *)
Definition run_iteration (cfg : BondManagerConfig) (proposer : Address) (active_domain_hash : B256)
    (m : BondManager) : prog BondSig BondManager :=
  do scanned <- scan_games cfg proposer m;
  settle_games cfg active_domain_hash (snd scanned).

(** ** What the bond manager may do *)

Abbreviation trace := (list (event BondSig)).

(** Why a game is abandoned: its parent is invalid, it belongs to an old
    proposal domain, or it timed out and a newer attempt exists. *)
Definition abandoned (dom : B256) (h : trace) (g : Address) (st : ResolutionStatus) : Prop :=
  invalid_parent_resolvable st = true \/
  (exists d, saw (S := BondSig) (GameDomainHash g) (Ok d) h /\ d <> dom) \/
  (outcome st = ChallengerWins /\ invalidation_reason st = ProofTimeout /\
   saw (S := BondSig) (GameDomainHash g) (Ok dom) h /\
   saw (S := BondSig) (HasRetry g) (Ok true) h).

Definition may_resolve (dom : B256) (h : trace) (g : Address) : Prop :=
  exists st, saw (S := BondSig) (ResolutionStatusOf g) (Ok st) h /\
    is_resolved st = false /\ resolvable st = true /\ abandoned dom h g st.

Definition may_close (h : trace) (g : Address) : Prop :=
  saw (S := BondSig) (IsGameSettled g) (Ok false) h /\
  saw (S := BondSig) (IsGameFinalized g) (Ok true) h /\
  exists st, saw (S := BondSig) (ResolutionStatusOf g) (Ok st) h /\ is_resolved st = true.

Definition bond_allowed (dom : B256) (games : gset Address) (h : trace) (e : event BondSig) : Prop :=
  match projT1 e with
  | ResolveGame g => g ∈ games /\ may_resolve dom h g
  | CloseGame g => g ∈ games /\ may_close h g
  | _ => True
  end.

(** The game needs no more work: its pot is settled, or this pass closed it. *)
Definition finished (h : trace) (g : Address) : Prop :=
  saw (S := BondSig) (IsGameSettled g) (Ok true) h \/
  exists tx, saw (S := BondSig) (CloseGame g) (Ok tx) h.

Lemma finished_mono h h' g : h ⊆ h' -> finished h g -> finished h' g.
Proof. intros Hs [?|[tx ?]]; [left|right; exists tx]; by eapply saw_mono. Qed.

(** Games of the trace that were found superseded by a retry. *)
Definition superseded_event (e : event BondSig) : option Address :=
  match e with
  | existT (HasRetry g) (Ok true) => Some g
  | _ => None
  end.
Definition superseded (h : trace) : list Address := omap superseded_event h.

Lemma superseded_app h h' : superseded (h ++ h') = superseded h ++ superseded h'.
Proof. apply omap_app. Qed.

(** What a step leaves behind, relative to the pass it starts from. *)
Definition step_post (cfg : BondManagerConfig) (g : Address) (p p' : Pass) (t : trace) : Prop :=
  proposed_games (fst p') = proposed_games (fst p) /\
  next_game_index (fst p') = next_game_index (fst p) /\
  (snd p <= max_retry_resolutions_per_tick cfg ->
   snd p' <= max_retry_resolutions_per_tick cfg)%nat /\
  snd p' = (snd p + length (superseded t))%nat /\
  (superseded t = [] /\ last_retry_resolution (fst p') = last_retry_resolution (fst p) \/
   superseded t = [g] /\ last_retry_resolution (fst p') = Some g).

Lemma cleanup_safe cfg dom games g st p t0 :
  g ∈ games -> saw (S := BondSig) (ResolutionStatusOf g) (Ok st) t0 -> is_resolved st = false ->
  safe (fun h => bond_allowed dom games (t0 ++ h)) (cleanup cfg dom g st p)
    (fun t rs => rs.1 <> Ok true /\ step_post cfg g p rs.2 t).
Proof.
  intros Hg Hst Hres. unfold cleanup.
  assert (forall t, superseded t = [] -> step_post cfg g p p t) as Hsame
    by (intros t Ht; unfold step_post; rewrite Ht; split_and!; auto; simpl; lia).
  destruct (resolvable st) eqn:Hr.
  2: { unfold invalid_parent_resolvable. rewrite Hr. apply safe_ret. auto. }
  sym_call [d|e]; [done| |apply safe_ret; auto]. destruct (Z.eqb_spec d dom) as [->|Hd]; simpl.
  2: { rewrite !andb_false_r, orb_true_r. simpl.
       apply safe_call. intros r. split; [|by destruct r; sym_simpl; apply safe_ret; auto].
       split; [done|]. exists st. rewrite Hr. split_and!; auto using saw_app_l.
       right; left. exists d. split; [|done]. seen. }
  rewrite andb_true_r. destruct (_ && Nat.ltb _ _) eqn:Hcond.
  - rewrite !andb_true_iff, !bool_decide_eq_true, Nat.ltb_lt in Hcond.
    destruct Hcond as [[Ho Hi] Hlt].
    sym_call [b|e]; [done| |apply safe_ret; auto]. destruct b.
    + rewrite orb_true_r. simpl. apply safe_call. intros r. split.
      * split; [done|]. exists st. rewrite Hr. split_and!; auto using saw_app_l.
        right; right. split_and!; [done|done|seen|seen].
      * assert (forall x, step_post cfg g p ({| proposed_games := proposed_games p.1;
          next_game_index := next_game_index p.1; last_retry_resolution := Some g |}, S p.2)
          [ev (GameDomainHash g : call BondSig) (Ok dom); ev (HasRetry g : call BondSig) (Ok true);
           ev (ResolveGame g : call BondSig) x]) as Hpost
          by (intros x; unfold step_post; simpl; split_and!; auto; lia).
        destruct r; sym_simpl; apply safe_ret; split; try done; apply Hpost.
    + rewrite !orb_false_r. destruct (invalid_parent_resolvable st) eqn:Hip;
        [|by apply safe_ret; auto].
      apply safe_call. intros r. split; [|by destruct r; sym_simpl; apply safe_ret; auto].
      split; [done|]. exists st. rewrite Hr. split_and!; auto using saw_app_l. by left.
  - sym_simpl. rewrite !orb_false_r. destruct (invalid_parent_resolvable st) eqn:Hip;
      [|by apply safe_ret; auto].
    apply safe_call. intros r. split; [|by destruct r; sym_simpl; apply safe_ret; auto].
    split; [done|]. exists st. rewrite Hr. split_and!; auto using saw_app_l. by left.
Qed.

Lemma settle_game_safe cfg dom games g p t0 :
  g ∈ games ->
  safe (fun h => bond_allowed dom games (t0 ++ h)) (settle_game cfg dom g p)
    (fun t rs => (rs.1 = Ok true -> finished t g) /\ step_post cfg g p rs.2 t).
Proof.
  intros Hg. unfold settle_game.
  assert (forall t, superseded t = [] -> step_post cfg g p p t) as Hsame
    by (intros t Ht; unfold step_post; rewrite Ht; split_and!; auto; simpl; lia).
  sym_call [settled|e]; [done| |apply safe_ret; split; [discriminate|by apply Hsame]].
  destruct settled; [apply safe_ret; split; [left; seen|by apply Hsame]|].
  sym_call [st|e]; [done| |apply safe_ret; split; [discriminate|by apply Hsame]].
  destruct (is_resolved st) eqn:Hres; cbn [negb].
  - sym_call [fin|e]; [done| |apply safe_ret; split; [discriminate|by apply Hsame]].
    destruct fin; [|apply safe_ret; split; [discriminate|by apply Hsame]]. cbn [negb].
    sym_call [tx|e]; [| |apply safe_ret; split; [discriminate|by apply Hsame]].
    + split; [done|]. split; [seen|]. split; [seen|]. exists st. split; [seen|done].
    + apply safe_ret. split; [right; exists tx; seen|by apply Hsame].
  - eapply safe_conseq; [apply (cleanup_safe cfg dom games g st p
      (t0 ++ [ev (IsGameSettled g : call BondSig) (Ok false);
              ev (ResolutionStatusOf g : call BondSig) (Ok st)]))| |]; try done.
    + seen.
    + shift_trace.
    + intros t [r p'] [Hr (?&?&?&?&?)]. split; [done|]. unfold step_post. simpl in *. auto.
Qed.

(** The invariant of a pass that starts from [m]. *)
Definition pass_inv (cfg : BondManagerConfig) (m : BondManager) (l : list Address) (t : trace)
    (p : Pass) : Prop :=
  Forall (fun g => g ∈ proposed_games m) l /\
  proposed_games (fst p) ⊆ proposed_games m /\
  (forall g, g ∈ proposed_games m -> g ∈ proposed_games (fst p) \/ finished t g) /\
  next_game_index (fst p) = next_game_index m /\
  (snd p <= max_retry_resolutions_per_tick cfg)%nat /\
  snd p = length (superseded t) /\
  last_retry_resolution (fst p) =
    match last (superseded t) with Some g => Some g | None => last_retry_resolution m end.

Lemma settle_step_safe cfg dom m g l p t :
  pass_inv cfg m (g :: l) t p ->
  safe (fun h => bond_allowed dom (proposed_games m) (t ++ h)) (settle_step cfg dom g p)
    (fun t' p' => pass_inv cfg m l (t ++ t') p').
Proof.
  intros ([Hg Hl]%Forall_cons&Hsub&Hfin&Hidx&Hmax&Hn&Hlast).
  eapply safe_bind; [by apply (settle_game_safe cfg dom (proposed_games m) g p t)|].
  intros [r p'] t1 [Hdone (Hgs&Hi&Hm&Hc&Hsup)]. simpl in *. apply safe_ret. rewrite app_nil_r.
  assert (forall x, finished t x -> finished (t ++ t1) x) as Hmono
    by (intros x; apply finished_mono, subseteq_app_l).
  assert (forall p'', snd p'' = snd p' -> next_game_index (fst p'') = next_game_index (fst p') ->
    last_retry_resolution (fst p'') = last_retry_resolution (fst p') ->
    proposed_games (fst p'') ⊆ proposed_games m ->
    (forall x, x ∈ proposed_games m -> x ∈ proposed_games (fst p'') \/ finished (t ++ t1) x) ->
    pass_inv cfg m l (t ++ t1) p'') as Hinv.
  { intros p'' H1 H2 H3 H4 H5. split_and!; [done|done|done|congruence|rewrite H1; auto| |].
    - rewrite H1, superseded_app, length_app. lia.
    - rewrite H3, superseded_app. destruct Hsup as [[-> ->]|[-> ->]].
      + by rewrite app_nil_r.
      + by rewrite last_snoc. }
  assert (forall x, x ∈ proposed_games m -> x ∈ proposed_games p'.1 \/ finished (t ++ t1) x) as Hfin'
    by (intros x Hx; rewrite Hgs; destruct (Hfin x Hx); auto).
  destruct r as [[]|e]; apply Hinv; try done; try (by rewrite Hgs); simpl; [set_solver|].
  intros x Hx. destruct (decide (x = g)) as [->|].
  - right. eapply finished_mono; [|by apply Hdone]. apply subseteq_app_r.
  - destruct (Hfin' x Hx); [left; set_solver|by right].
Qed.

Lemma settle_order_perm m : settle_order m ≡ₚ elements (proposed_games m).
Proof.
  unfold settle_order. destruct (last_retry_resolution m); [|apply sort_by_key_perm].
  unfold rotate_left. rewrite Permutation_app_comm, take_drop. apply sort_by_key_perm.
Qed.

Lemma settle_games_inv cfg dom m :
  safe (bond_allowed dom (proposed_games m)) (settle_games cfg dom m) (fun t m' =>
    exists n, pass_inv cfg m [] t (m', n)).
Proof.
  eapply (safe_bind _ _ _ (fun t p => pass_inv cfg m [] t p)).
  - apply (safe_fold (bond_allowed dom (proposed_games m)) (pass_inv cfg m) _ _ _ []).
    + intros. by apply settle_step_safe.
    + split_and!; simpl; auto; [|lia]. rewrite settle_order_perm, Forall_forall.
      intros x. apply elem_of_elements.
  - intros [m' n] t H. apply safe_ret. rewrite app_nil_r. eauto.
Qed.

(** A settlement pass resolves a game only if the game is tracked, was
    read as unresolved and resolvable, and is abandoned: its parent is
    invalid, its domain is not the active one, or it is a proof timeout of
    the active domain with a newer attempt. *)
Theorem settle_resolves_abandoned cfg dom m tr m' t1 g rep t2 :
  runs (settle_games cfg dom m) tr m' ->
  tr = t1 ++ ev (ResolveGame g : call BondSig) rep :: t2 ->
  g ∈ proposed_games m /\ may_resolve dom t1 g.
Proof. intros Hr ->. destruct (settle_games_inv _ _ _ _ _ Hr) as [Hg _]. exact (Hg t1 _ t2 eq_refl). Qed.

(** A settlement pass closes a game only if the game is tracked, its pot
    is not settled, it is resolved and past the finality airgap; and a game
    is forgotten exactly if it was read as settled or closed in this pass. *)
Theorem settle_closes_finalized cfg dom m tr m' :
  runs (settle_games cfg dom m) tr m' ->
  (forall t1 g rep t2, tr = t1 ++ ev (CloseGame g : call BondSig) rep :: t2 ->
     g ∈ proposed_games m /\ may_close t1 g) /\
  proposed_games m' ⊆ proposed_games m /\
  (forall g, g ∈ proposed_games m -> g ∉ proposed_games m' -> finished tr g) /\
  next_game_index m' = next_game_index m.
Proof.
  intros Hr. destruct (settle_games_inv _ _ _ _ _ Hr) as [Hg (n&_&Hsub&Hfin&Hi&_)].
  split_and!; [|done| |done].
  - intros t1 g rep t2 ->. exact (Hg t1 _ t2 eq_refl).
  - intros g Hin Hout. by destruct (Hfin g Hin).
Qed.

(** A pass attempts at most [max_retry_resolutions_per_tick] resolutions
    of superseded attempts, failed submissions included, and remembers the
    last game it charged. *)
Theorem settle_retry_budget cfg dom m tr m' :
  runs (settle_games cfg dom m) tr m' ->
  (length (superseded tr) <= max_retry_resolutions_per_tick cfg)%nat /\
  last_retry_resolution m' =
    match last (superseded tr) with Some g => Some g | None => last_retry_resolution m end.
Proof.
  intros Hr. destruct (settle_games_inv _ _ _ _ _ Hr) as [_ (n&_&_&_&_&Hmax&Hn&Hl)]. simpl in *.
  split; [lia|done].
Qed.

(** ** Rotation *)

Lemma partition_point_split last l :
  key_sorted (fun g => g) l -> let n := partition_point (fun g => g <=? last) l in
  Forall (fun g => g <= last) (take n l) /\ Forall (fun g => last < g) (drop n l).
Proof.
  intros Hs%key_sorted_strongly. induction Hs as [|x l Hs IH Hx]; simpl; [done|].
  destruct (Z.leb_spec x last) as [H|H]; simpl.
  - destruct IH. split; [by constructor|done].
  - split; [done|]. constructor; [done|]. eapply Forall_impl; [exact Hx|]. simpl. lia.
Qed.

(** The rotation is fair: the pass after one that charged [g] visits
    every game above [g] in ascending order, then every other one, and [g]
    itself last, so a game whose resolution keeps failing is charged again
    only after every other tracked game has been visited. *)
Theorem settle_rotation_fair m g :
  last_retry_resolution m = Some g ->
  exists above below, settle_order m = above ++ below /\
    settle_order m ≡ₚ elements (proposed_games m) /\
    key_sorted (fun x => x) above /\ Forall (fun x => g < x) above /\
    key_sorted (fun x => x) below /\ Forall (fun x => x <= g) below /\
    (g ∈ proposed_games m -> last (settle_order m) = Some g).
Proof.
  intros Hlast. pose proof (settle_order_perm m) as Hperm. revert Hperm.
  unfold settle_order. rewrite Hlast. unfold rotate_left.
  set (l := sort_by_key _ _). set (n := partition_point _ l). intros Hperm.
  pose proof (sort_by_key_sorted (fun x => x) (elements (proposed_games m))) as Hs. fold l in Hs.
  destruct (partition_point_split g l Hs) as [Hbelow Habove]. fold n in Hbelow, Habove.
  pose proof Hs as Hs'. rewrite <-(take_drop n l) in Hs'. apply key_sorted_app in Hs' as [Hs1 Hs2].
  exists (drop n l), (take n l). split_and!; try done.
  - intros Hg. assert (g ∈ drop n l ++ take n l) as Hin
      by (rewrite Hperm; by apply elem_of_elements).
    apply elem_of_app in Hin as [Hin|Hin].
    { rewrite Forall_forall in Habove. specialize (Habove g Hin). lia. }
    apply key_sorted_strongly in Hs1.
    assert (NoDup (take n l)) as Hnd.
    { assert (NoDup (drop n l ++ take n l)) as H
        by (rewrite Hperm; apply NoDup_elements). by apply NoDup_app in H as (_&_&?). }
    clear -Hin Hbelow Hs1 Hnd. rewrite last_app.
    induction Hs1 as [|x k Hk IH Hx]; [by apply elem_of_nil in Hin|].
    apply Forall_cons in Hbelow as [Hxg Hbelow]. apply NoDup_cons in Hnd as [Hnx Hnd].
    destruct k as [|y k]; [apply list_elem_of_singleton in Hin as ->; done|].
    apply elem_of_cons in Hin as [->|Hin].
    { apply Forall_cons in Hx as [Hxy _], Hbelow as [Hyg _]. set_solver by lia. }
    rewrite last_cons_cons. by apply IH.
Qed.

(** ** What a scan finds *)

(** Index [i] was read, and the creator of the game it holds. *)
Definition inspected (h : trace) (i : Z) : Prop :=
  exists o, saw (S := BondSig) (GameAt i) (Ok o) h /\
    match o with
    | Some g => exists a, saw (S := BondSig) (GameCreator g) (Ok a) h
    | None => True
    end.

Lemma inspected_mono h h' i : h ⊆ h' -> inspected h i -> inspected h' i.
Proof.
  intros Hs (o&Ho&Hg). exists o. split; [by eapply saw_mono|].
  destruct o; [|done]. destruct Hg as [a ?]. exists a. by eapply saw_mono.
Qed.

(** The games gained since [m] are those whose creator was read as [me]. *)
Definition gained (me : Address) (m : BondManager) (l : list Z) (h : trace) (m' : BondManager) : Prop :=
  (forall g, g ∈ proposed_games m' <->
     g ∈ proposed_games m \/ saw (S := BondSig) (GameCreator g) (Ok me) h) /\
  (forall g a, saw (S := BondSig) (GameCreator g) (Ok a) h ->
     exists i, i ∈ l /\ saw (S := BondSig) (GameAt i) (Ok (Some g)) h) /\
  last_retry_resolution m' = last_retry_resolution m.

Definition scan_inv (me : Address) (m : BondManager) (l todo : list Z) (h : trace) (m' : BondManager)
    : Prop :=
  (exists visited, l = visited ++ todo /\ Forall (inspected h) visited) /\
  next_game_index m' = next_game_index m /\ gained me m l h m'.

Definition creator_read (e : event BondSig) : option (Address * Address) :=
  match e with
  | existT (GameCreator g) (Ok a) => Some (g, a)
  | _ => None
  end.

Lemma saw_creator g a h :
  saw (S := BondSig) (GameCreator g) (Ok a) h <-> (g, a) ∈ omap creator_read h.
Proof.
  rewrite list_elem_of_omap. split.
  - intros (r&Hr&Ha). simpl in *. subst r. by exists (ev (GameCreator g : call BondSig) (Ok a)).
  - intros ([c r]&Hin&Hc). destruct c; try discriminate. simpl in r. destruct r; [|discriminate].
    simpl in Hc. injection Hc as -> ->. by exists (Ok a).
Qed.

Lemma saw_creator_snoc g a h e :
  saw (S := BondSig) (GameCreator g) (Ok a) (h ++ [e]) <->
  saw (S := BondSig) (GameCreator g) (Ok a) h \/ creator_read e = Some (g, a).
Proof.
  rewrite !saw_creator, omap_app, elem_of_app. simpl. destruct (creator_read e); simpl; set_solver.
Qed.

Lemma gained_other me m l h m' e :
  creator_read e = None -> gained me m l h m' -> gained me m l (h ++ [e]) m'.
Proof.
  intros He (H1&H2&H3). split_and!; [| |done].
  - intros g. rewrite saw_creator_snoc, He, H1. naive_solver.
  - intros g a [Hs|?]%saw_creator_snoc; [|congruence].
    destruct (H2 g a Hs) as (i&?&?). eauto using saw_app_l.
Qed.

Lemma gained_creator me m l h m' i g x :
  i ∈ l -> saw (S := BondSig) (GameAt i) (Ok (Some g)) h -> gained me m l h m' ->
  gained me m l (h ++ [ev (GameCreator g : call BondSig) (Ok x)])
    (if x =? me then set_games (union {[g]}) m' else m').
Proof.
  intros Hi Hat (H1&H2&H3). split_and!.
  - intros g'. rewrite saw_creator_snoc. destruct (Z.eqb_spec x me) as [->|Hne]; simpl.
    + rewrite elem_of_union, elem_of_singleton, H1. naive_solver.
    + rewrite H1. naive_solver.
  - intros g' y [Hs|[= -> ->]]%saw_creator_snoc; [|eauto using saw_app_l].
    destruct (H2 _ _ Hs) as (j&?&?); eauto using saw_app_l.
  - by destruct (x =? me).
Qed.

Lemma scan_index_safe me m l i todo m' t :
  scan_inv me m l (i :: todo) t m' ->
  safe (fun _ _ => True) (scan_index me i m') (fun t' rs =>
    match rs.1 with
    | Ok _ => scan_inv me m l todo (t ++ t') rs.2
    | Err e => next_game_index rs.2 = next_game_index m /\ gained me m l (t ++ t') rs.2
    end).
Proof.
  intros ((visited&Hl&Hv)&Hi&Hg). unfold scan_index.
  assert (i ∈ l) as Hil by (rewrite Hl; set_solver).
  assert (forall t', t ⊆ t' -> inspected t' i ->
    exists visited', l = visited' ++ todo /\ Forall (inspected t') visited') as Hvisit.
  { intros t' Hs Hin. exists (visited ++ [i]). rewrite <-app_assoc. split; [done|].
    apply Forall_app_2; [|by repeat constructor].
    eapply Forall_impl; [exact Hv|]. intros ?. by apply inspected_mono. }
  sym_call [game|e]; [done| |apply safe_ret; split; [done|by apply gained_other]].
  destruct game as [g|].
  2: { apply safe_ret. split_and!; [|done|by apply gained_other].
       apply Hvisit; [apply subseteq_app_l|]. exists None. split; [seen|done]. }
  assert (forall e', t ++ [ev (GameAt i : call BondSig) (Ok (Some g)); e']
    = (t ++ [ev (GameAt i : call BondSig) (Ok (Some g))]) ++ [e']) as Happ
    by (intros; by rewrite <-app_assoc).
  sym_call [a|e]; [done| |].
  - apply safe_ret. cbn [fst snd]. rewrite Happ. split_and!.
    + rewrite <-Happ. apply Hvisit; [apply subseteq_app_l|].
      exists (Some g). split; [seen|exists a; seen].
    + by destruct (a =? me).
    + apply (gained_creator me m l _ m' i); [done|seen|by apply gained_other].
  - apply safe_ret. cbn [fst snd]. rewrite Happ. split; [done|].
    apply gained_other; [done|]. by apply gained_other.
Qed.

(** A scan inspects every factory index of its range and tracks, besides
    the games it tracked, exactly the games it read the proposer as creator
    of; the cursor moves to the game count only if the whole range succeeded,
    and after a failure it stays, so that the range is read again. *)
Theorem scan_games_spec cfg me m tr r m' :
  runs (scan_games cfg me m) tr (r, m') ->
  match r with
  | Ok _ => exists count, saw (S := BondSig) GameCount (Ok count) tr /\
      next_game_index m' = Some count /\
      Forall (inspected tr) (range (scan_start cfg m count) count) /\
      gained me m (range (scan_start cfg m count) count) tr m'
  | Err _ => m' = m \/
      exists count, saw (S := BondSig) GameCount (Ok count) tr /\
        next_game_index m' = next_game_index m /\
        gained me m (range (scan_start cfg m count) count) tr m'
  end.
Proof.
  unfold scan_games. destruct (validate cfg); [|by intros [-> [= -> ->]]; left].
  intros ([count|e]&tr'&->&H); cbn [bind bind_try_st] in H; [|by destruct H as [-> [= -> ->]]; left].
  apply runs_bind_try_mut in H as [(t1&t2&u&m1&->&Hloop&[-> [= -> ->]])|(e&m1&Hloop&[= -> ->])].
  all: set (l := range (scan_start cfg m count) count) in *.
  all: apply (safe_for_each (fun _ _ => True) (scan_inv me m l) (fun t m2 _ =>
    next_game_index m2 = next_game_index m /\ gained me m l t m2) (scan_index me) l m
    [ev (GameCount : call BondSig) (Ok count)]) in Hloop as [_ Hloop].
  2, 5: intros; by eapply scan_index_safe.
  2, 4: split_and!; [by exists []|done|]; split_and!; [|by intros g x Hs%saw_creator%elem_of_nil|done];
    intros g; rewrite saw_creator; split; [by left|by intros [?|[]%elem_of_nil]].
  - destruct Hloop as ((visited&Hl&Hv)&Hi&Hg). rewrite app_nil_r in *. exists count.
    split; [seen|]. split; [done|]. split; [by subst visited|]. exact Hg.
  - right. exists count. split; [seen|]. exact Hloop.
Qed.

(** ** A concrete factory

    Six entries: index 2 is a foreign game; games 13 and 15 are not the
    proposer's (account 1); 10 is a superseded timeout whose resolution
    reverts; 11 is settled; 14 is resolved and finalized. *)

Definition bond_world : handler BondSig unit := fun c w =>
  match c with
  | GameCount => (Ok 6, w)
  | GameAt i => (Ok (if i =? 2 then None else Some (10 + i)), w)
  | GameCreator g => (Ok (if (g =? 13) || (g =? 15) then 2 else 1), w)
  | GameDomainHash _ => (Ok 9, w)
  | HasRetry _ => (Ok true, w)
  | ResolutionStatusOf g =>
      (Ok (if g =? 14
           then {| status := DefenderWins; resolvable := false; outcome := DefenderWins;
                   invalidation_reason := NoReason |}
           else {| status := InProgress; resolvable := true; outcome := ChallengerWins;
                   invalidation_reason := ProofTimeout |}), w)
  | ResolveGame g => (Err (Revert (g + 100)), w)
  | IsGameFinalized _ => (Ok true, w)
  | IsGameSettled g => (Ok (g =? 11), w)
  | CloseGame g => (Ok (g + 200), w)
  end.

Definition tracked_demo : BondManager :=
  {| proposed_games := {[ 10; 11; 14 ]}; next_game_index := Some 6; last_retry_resolution := None |}.

Definition settle_demo : prog BondSig BondManager := settle_games default_config 9 tracked_demo.
Definition settle_trace : list (event BondSig) := trace_of bond_world settle_demo tt.

Lemma settle_demo_runs : runs settle_demo settle_trace (value_of bond_world settle_demo tt).
Proof. apply interp_runs. Qed.

Lemma settle_demo_order : settle_order tracked_demo = [10; 11; 14].
Proof. vm_compute. reflexivity. Qed.

Lemma settle_demo_split : settle_trace =
  take 4 settle_trace ++ ev (ResolveGame 10 : call BondSig) (Err (Revert 110)) :: drop 5 settle_trace.
Proof. vm_compute. reflexivity. Qed.

Lemma settle_resolves_abandoned_witness :
  10 ∈ proposed_games tracked_demo /\ may_resolve 9 (take 4 settle_trace) 10.
Proof.
  exact (settle_resolves_abandoned default_config 9 tracked_demo settle_trace _ _ 10 _ _
    settle_demo_runs settle_demo_split).
Defined.

Lemma settle_closes_finalized_witness :
  let m' := value_of bond_world settle_demo tt in
  (forall t1 g rep t2, settle_trace = t1 ++ ev (CloseGame g : call BondSig) rep :: t2 ->
     g ∈ proposed_games tracked_demo /\ may_close t1 g) /\
  proposed_games m' ⊆ proposed_games tracked_demo /\
  (forall g, g ∈ proposed_games tracked_demo -> g ∉ proposed_games m' -> finished settle_trace g) /\
  next_game_index m' = Some 6.
Proof. exact (settle_closes_finalized default_config 9 tracked_demo _ _ settle_demo_runs). Defined.

Lemma settle_retry_budget_witness :
  let m' := value_of bond_world settle_demo tt in
  (length (superseded settle_trace) <= 1)%nat /\
  last_retry_resolution m' =
    match last (superseded settle_trace) with Some g => Some g | None => None end.
Proof. exact (settle_retry_budget default_config 9 tracked_demo _ _ settle_demo_runs). Defined.

Definition rotated_demo : BondManager :=
  {| proposed_games := {[ 10; 11; 14 ]}; next_game_index := Some 6; last_retry_resolution := Some 10 |}.

Lemma settle_rotation_fair_witness :
  exists above below, settle_order rotated_demo = above ++ below /\
    settle_order rotated_demo ≡ₚ elements (proposed_games rotated_demo) /\
    key_sorted (fun x => x) above /\ Forall (fun x => 10 < x) above /\
    key_sorted (fun x => x) below /\ Forall (fun x => x <= 10) below /\
    (10 ∈ proposed_games rotated_demo -> last (settle_order rotated_demo) = Some 10).
Proof. exact (settle_rotation_fair rotated_demo 10 eq_refl). Defined.

Definition scan_demo : prog BondSig (result unit ProposerError * BondManager) :=
  scan_games default_config 1 new.

Lemma scan_games_spec_witness :
  let tr := trace_of bond_world scan_demo tt in
  let m' := snd (value_of bond_world scan_demo tt) in
  exists count, saw (S := BondSig) GameCount (Ok count) tr /\
    next_game_index m' = Some count /\
    Forall (inspected tr) (range (scan_start default_config new count) count) /\
    gained 1 new (range (scan_start default_config new count) count) tr m'.
Proof.
  cbv zeta. assert (value_of bond_world scan_demo tt = (Ok tt, snd (value_of bond_world scan_demo tt)))
    as Hv by (vm_compute; reflexivity).
  pose proof (interp_runs bond_world scan_demo tt) as Hr. rewrite Hv in Hr.
  exact (scan_games_spec default_config 1 new _ _ _ Hr).
Defined.
