(* ===== verification/Challenger.v ===== *)
(** * The output-root challenger ([src/proofs/services/challenger/src])

    Each tick scans a window of the factory, checks the games' claims against
    the consensus node, several games at a time, and challenges the wrong
    ones.  Games whose check fails are kept in a retry queue.  The set of
    owned games is shared with the loops of [ChallengerBonds.v], so the
    operations on it are calls. *)

From S2P Require Import Prelude Program Encoding ProofTypes Lineage.

(** ** Data *)

Inductive ChallengerError :=
| InvalidConfig (message : string)
| NonZeroFactoryBond (bond : Z)
| VaultFactoryMismatch (vault expected actual : Address)
| ChBlockNumberOverflow (parent_block block_interval : Z)
| Contract (message : string)
| OutputRoot (error : ConsensusError)
| Revert (tx_hash : B256)
| ChInvalidGameStatus (error : GameStatusError)
| InvalidProposalStatus (error : ProposalStatusError)
| NotExistingInvalidReason (error : InvalidationReasonError)
| PendingTransaction (message : string)
| Overflow
| AlloyJsonRpc (message : string)
| L1FinalizedBlockNotFound
| L2BlockNotFinalized (game : Address) (latest_finalized given_block : Z)
| Permit (message : string)
| FromLineage (error : LineageError).

Record GameMetadata := { gm_address : Address; gm_root_claim : B256; gm_block : Z }.

Record RetryGame := {
  rg_game : GameMetadata;
  rg_deadline : option Z;
  rg_attempts : Z
}.

Inductive GameScanOutcome :=
| Valid
| NeedsChallenge (challenge_deadline : Z)
| Skip.

Record GameScanError := { gse_error : ChallengerError; gse_deadline : option Z }.

Record ChallengerConfig := {
  poll_interval : Z;
  max_game_concurrency : nat;
  max_games_per_tick : Z;
  game_scan_lookback : Z
}.

Definition validate (c : ChallengerConfig) : result unit ChallengerError :=
  if poll_interval c =? 0 then Err (InvalidConfig "poll_interval must be greater than zero")
  else if Nat.eqb (max_game_concurrency c) 0
  then Err (InvalidConfig "max_game_concurrency must be greater than zero")
  else if max_games_per_tick c =? 0
  then Err (InvalidConfig "max_games_per_tick must be greater than zero")
  else Ok tt.

Definition default_config : ChallengerConfig :=
  {| poll_interval := 60 * 1000; max_game_concurrency := 10; max_games_per_tick := 100;
     game_scan_lookback := 100 |}.

(** The fields of [WorldChainChallenger] that change. *)
Record Challenger := {
  next_game_index : option Z;
  retry_games : gmap Address RetryGame
}.

Definition new : Challenger := {| next_game_index := None; retry_games := ∅ |}.

Definition set_retry (f : gmap Address RetryGame -> gmap Address RetryGame) (s : Challenger)
    : Challenger := {| next_game_index := next_game_index s; retry_games := f (retry_games s) |}.
Definition set_cursor (i : Z) (s : Challenger) : Challenger :=
  {| next_game_index := Some i; retry_games := retry_games s |}.

(** ** Interfaces *)

Inductive challenger_call :=
| GameCount
| GameAddressAt (index : Z)
| GetGameMetadata (game : Address)
| GetProposalStatus (game : Address)
| ChallengeDeadline (game : Address)
| SubmitChallenge (game : Address).

#[export] Instance challenger_call_eq_dec : EqDecision challenger_call.
Proof. solve_decision. Defined.

(** A submitted challenge returns its transaction hash and bond. *)
Definition ChallengerSig : Sig := MkSig challenger_call (fun c =>
  match c with
  | GameCount => result Z ChallengerError
  | GameAddressAt _ => result (option Address) ChallengerError
  | GetGameMetadata _ => result GameMetadata ChallengerError
  | GetProposalStatus _ => result ProposalStatus ChallengerError
  | ChallengeDeadline _ => result Z ChallengerError
  | SubmitChallenge _ => result (B256 * Z) ChallengerError
  end).

(** [OwnedGames], behind its lock. *)
Inductive owned_call :=
| OwnedInsert (game : Address)
| OwnedRemove (game : Address)
| OwnedSnapshot.

Definition OwnedSig : Sig := MkSig owned_call (fun c =>
  match c with
  | OwnedInsert _ => unit
  | OwnedRemove _ => unit
  | OwnedSnapshot => list Address
  end).

Definition TickSig : Sig := ChallengerSig ⊕ OwnedSig ⊕ ConsensusSig.

Definition client (c : call ChallengerSig) : prog TickSig (reply ChallengerSig c) := trigger c.
Definition owned (c : call OwnedSig) : prog TickSig (reply OwnedSig c) := trigger c.
Definition node (c : call ConsensusSig) : prog TickSig (reply ConsensusSig c) := trigger c.

(** ** The retry queue *)

Definition queue_retry_game (game : GameMetadata) (challenge_deadline : option Z) (s : Challenger)
    : Challenger :=
  let existing := retry_games s !! gm_address game in
  let retry_game := {|
    rg_game := game;
    rg_deadline := match challenge_deadline with
                   | Some d => Some d
                   | None => existing ≫= rg_deadline
                   end;
    rg_attempts := match existing with
                   | Some retry => saturating_add U32_MAX (rg_attempts retry) 1
                   | None => 1
                   end |} in
  set_retry (insert (gm_address game) retry_game) s.

(** ** The start of the scan *)

(** The [while low < high] loop; [None] is running out of fuel, which
    [search_loop_fuel] excludes. *)
Fixpoint search_loop (fuel : nat) (now low high : Z)
    : prog TickSig (option (result Z ChallengerError)) :=
  match fuel with
  | O => Ret None
  | S fuel' =>
      if low <? high then
        let middle := low + (high - low) / 2 in
        do game <- client (GameAddressAt middle);
        match game with
        | Err e => Ret (Some (Err e))
        | Ok None => search_loop fuel' now (middle + 1) high
        | Ok (Some game) =>
            do deadline <- client (ChallengeDeadline game);
            match deadline with
            | Err e => Ret (Some (Err e))
            | Ok deadline =>
                if deadline <? now then search_loop fuel' now (middle + 1) high
                else search_loop fuel' now low middle
            end
        end
      else Ret (Some (Ok low))
  end.

Definition search_fuel (low high : Z) : nat := S (S (Z.to_nat (Z.log2 (high - low)))).

Definition first_recent_game_index (game_count now : Z) : prog TickSig (result Z ChallengerError) :=
  do out <- search_loop (search_fuel 0 game_count) now 0 game_count;
  Ret (match out with Some r => r | None => Err Overflow end).

(** ** Checking games *)

Definition scan_error (error : ChallengerError) (d : option Z) : GameScanError :=
  {| gse_error := error; gse_deadline := d |}.

Definition process_game (game : GameMetadata) (latest_finalized_l2_block now : Z)
    : prog TickSig (result GameScanOutcome GameScanError) :=
  let address := gm_address game in
  do r <- client (GetProposalStatus address);
  match r with
  | Err e => Ret (Err (scan_error e None))
  | Ok proposal_status =>
      if negb (is_challengeable proposal_status) then Ret (Ok Skip)
      else
        do r <- client (ChallengeDeadline address);
        match r with
        | Err e => Ret (Err (scan_error e None))
        | Ok challenge_deadline =>
            if challenge_deadline <=? now then Ret (Ok Skip)
            else if latest_finalized_l2_block <? gm_block game then
              Ret (Err (scan_error
                (L2BlockNotFinalized address latest_finalized_l2_block (gm_block game))
                (Some challenge_deadline)))
            else
              do r <- node (OutputRootAtBlock (gm_block game));
              Ret (match r with
                   | Ok root =>
                       if root =? gm_root_claim game then Ok Valid
                       else Ok (NeedsChallenge challenge_deadline)
                   | Err e => Err (scan_error (OutputRoot e) (Some challenge_deadline))
                   end)
        end
  end.

Definition Results : Type := list (GameMetadata * result GameScanOutcome GameScanError).

Definition process_games (cfg : ChallengerConfig) (games : list GameMetadata)
    (latest_finalized_l2_block now : Z) : comp TickSig Results :=
  buffer_unordered (max_game_concurrency cfg)
    (map (fun game => (game, process_game game latest_finalized_l2_block now)) games).

(** The first loop of [handle_game_results]. *)
Fixpoint sort_results (results : Results) (s : Challenger) (challenge_games : list (GameMetadata * Z))
    : Challenger * list (GameMetadata * Z) :=
  match results with
  | [] => (s, challenge_games)
  | (game, r) :: rest =>
      match r with
      | Ok (NeedsChallenge d) => sort_results rest s (challenge_games ++ [(game, d)])
      | Ok _ => sort_results rest (set_retry (delete (gm_address game)) s) challenge_games
      | Err e => sort_results rest (queue_retry_game game (gse_deadline e) s) challenge_games
      end
  end.

(** The body of its second loop. *)
Definition submit_one (gd : GameMetadata * Z) (s : Challenger) : prog TickSig Challenger :=
  let '(game, challenge_deadline) := gd in
  do r <- client (SubmitChallenge (gm_address game));
  match r with
  | Ok _submission =>
      do _u <- owned (OwnedInsert (gm_address game));
      Ret (set_retry (delete (gm_address game)) s)
  | Err _ => Ret (queue_retry_game game (Some challenge_deadline) s)
  end.

Definition handle_game_results (results : Results) (s : Challenger) : prog TickSig Challenger :=
  let '(s', challenge_games) := sort_results results s [] in
  fold_prog submit_one (sort_by_key snd challenge_games) s'.

(** ** The window *)

Definition select_range (cfg : ChallengerConfig) (now : Z) (s : Challenger)
    : prog TickSig (result (Z * Z) ChallengerError * Challenger) :=
  do?[ s ] game_count <- client GameCount;
  let initialize_cursor :=
    match next_game_index s with None => true | Some next => game_count <? next end in
  do?! _u, s' <-
    (if initialize_cursor then
       do?[ s ] first_recent <- first_recent_game_index game_count now;
       Ret (Ok tt, set_cursor first_recent s)
     else Ret (Ok tt, s));
  let cursor := default game_count (next_game_index s') in
  let start := if initialize_cursor then cursor
               else saturating_sub cursor (game_scan_lookback cfg) in
  let stop := Z.min (saturating_add U64_MAX cursor (max_games_per_tick cfg)) game_count in
  Ret (Ok (start, stop), s').

Fixpoint discover_loop (retry : gmap Address RetryGame) (indices : list Z)
    (new_games : list GameMetadata) : prog TickSig (result (list GameMetadata) ChallengerError) :=
  match indices with
  | [] => Ret (Ok new_games)
  | index :: rest =>
      do? game <- client (GameAddressAt index);
      match game with
      | None => discover_loop retry rest new_games
      | Some game =>
          if bool_decide (is_Some (retry !! game)) then discover_loop retry rest new_games
          else
            do? metadata <- client (GetGameMetadata game);
            discover_loop retry rest (new_games ++ [metadata])
      end
  end.

Definition discover_new_games (start stop : Z) (s : Challenger)
    : prog TickSig (result (list GameMetadata) ChallengerError) :=
  discover_loop (retry_games s) (range start stop) [].

(** ** The tick *)

(** [retain]: games whose deadline has passed leave the queue. *)
Definition expired (now : Z) (r : RetryGame) : bool :=
  match rg_deadline r with Some d => d <=? now | None => false end.

Definition retain_retry (now : Z) (l : list RetryGame) (s : Challenger) : list RetryGame * Challenger :=
  (base.filter (fun r => expired now r = false) l,
   set_retry (fun m => foldr (fun r m => if expired now r then delete (gm_address (rg_game r)) m else m)
                m l) s).

(** [values()] lists the queue in an order of the hash map's choice. *)
Definition handle_retry_games (cfg : ChallengerConfig) (now latest_finalized_l2_block : Z)
    (s : Challenger) : comp TickSig Challenger := fun tr s' =>
  exists values : list RetryGame, values ≡ₚ (map_to_list (retry_games s)).*2 /\
    let '(retry, s1) :=
      retain_retry now (sort_by_key (fun r => default 0 (rg_deadline r)) values) s in
    cbind (process_games cfg (map rg_game retry) latest_finalized_l2_block now)
      (fun results => runs (handle_game_results results s1)) tr s'.

Definition handle_new_games (cfg : ChallengerConfig) (new_games : list GameMetadata)
    (now latest_finalized_l2_block : Z) (s : Challenger) : comp TickSig Challenger :=
  cbind (process_games cfg new_games latest_finalized_l2_block now)
    (fun results => runs (handle_game_results results s)).

(** What follows a [?]: the rest of the code, or the error at once. *)
Definition ctry {A B E T} (c : comp TickSig (result A E * T))
    (k : A -> T -> comp TickSig (result B E * T)) : comp TickSig (result B E * T) :=
  cbind c (fun rs => match rs with (Ok a, s) => k a s | (Err e, s) => runs (Ret (Err e, s)) end).

Definition tick_at (cfg : ChallengerConfig) (now : Z) (s : Challenger)
    : comp TickSig (result unit ChallengerError * Challenger) :=
  match validate cfg with
  | Err e => runs (Ret (Err e, s))
  | Ok _ =>
      ctry (runs (select_range cfg now s)) (fun '(start, stop) s =>
      ctry (runs (do r <- discover_new_games start stop s; Ret (r, s))) (fun new_games s =>
      if bool_decide (new_games = []) && bool_decide (retry_games s = ∅)
      then runs (Ret (Ok tt, set_cursor stop s))
      else
        ctry (runs (do r <- node LatestL2FinalizedBlock; Ret (map_err OutputRoot r, s)))
          (fun latest_finalized_l2_block s =>
        cbind (handle_retry_games cfg now latest_finalized_l2_block s) (fun s =>
        cbind (handle_new_games cfg new_games now latest_finalized_l2_block s) (fun s =>
        runs (Ret (Ok tt, set_cursor stop s))))))
      )
  end.

(** ** The binary search *)

Ltac open_run H :=
  cbn [runs bind bind_try bind_try_st bind_try_mut client owned node trigger
       inj prj sub_inl sub_inr sub_refl map_err] in H.

Abbreviation trace := (list (event TickSig)).

Lemma half_bounds n : 0 < n -> 0 <= n / 2 < n /\ n - n / 2 - 1 <= n / 2.
Proof. intros. pose proof (Z.div_mod n 2). pose proof (Z.mod_pos_bound n 2). lia. Qed.

Lemma half_pow n k : 0 <= n < 2 ^ Z.of_nat (S k) -> n / 2 < 2 ^ Z.of_nat k.
Proof.
  intros [? H]. rewrite Nat2Z.inj_succ, Z.pow_succ_r in H by lia.
  apply Z.div_lt_upper_bound; lia.
Qed.

(** The interval halves, so [k] iterations are enough for fewer than [2^k]
    games. *)
Lemma search_loop_fuel k now low high tr r :
  runs (search_loop (S k) now low high) tr r -> high - low < 2 ^ Z.of_nat k ->
  r <> None /\ (length tr <= 2 * k)%nat.
Proof.
  revert low high tr. induction k as [|k IH]; intros low high tr H Hlt.
  { cbn [search_loop] in H. destruct (Z.ltb_spec low high); [simpl in Hlt; lia|].
    destruct H as [-> ->]. split; [done|simpl; lia]. }
  remember (S k) as fuel. cbn [search_loop] in H. subst fuel.
  destruct (Z.ltb_spec low high); [|destruct H as [-> ->]; split; [done|simpl; lia]].
  pose proof (half_bounds (high - low) ltac:(lia)) as Hhalf.
  pose proof (half_pow (high - low) k ltac:(lia)) as Hpow.
  open_run H. destruct H as ([[g|]|e]&t1&->&H); [| |destruct H as [-> ->]; split; [done|simpl; lia]].
  - open_run H. destruct H as ([d|e]&t2&->&H); [|destruct H as [-> ->]; split; [done|simpl; lia]].
    destruct (d <? now); apply IH in H as [? Hlen]; (split; [done|simpl; lia]) || lia.
  - apply IH in H as [? Hlen]; [split; [done|simpl; lia]|lia].
Qed.

Section search.
Context (addr : Z -> option Address) (deadline : Address -> Z) (now : Z).

(** All answers of the chain come from one state. *)
Definition factory_state (tr : trace) : Prop :=
  (forall i o, saw (S := ChallengerSig) (GameAddressAt i) (Ok o) tr -> o = addr i) /\
  (forall g d, saw (S := ChallengerSig) (ChallengeDeadline g) (Ok d) tr -> d = deadline g).

(** The search takes an entry for old if it is foreign or past its deadline. *)
Definition old (i : Z) : bool :=
  match addr i with None => true | Some g => deadline g <? now end.

Lemma factory_state_cons e tr : factory_state (e :: tr) -> factory_state tr.
Proof. intros [H1 H2]. split; intros; [apply H1|apply H2]; by apply saw_cons. Qed.

Lemma search_loop_bounds fuel low high tr r :
  runs (search_loop fuel now low high) tr (Some (Ok r)) -> factory_state tr -> low <= high ->
  low <= r <= high /\ (low < r -> old (r - 1) = true) /\ (r < high -> old r = false).
Proof.
  revert low high tr. induction fuel as [|fuel IH]; intros low high tr H Hst Hle; [by destruct H|].
  cbn [search_loop] in H. destruct (Z.ltb_spec low high) as [Hlt|]; [|destruct H as [-> [= ->]]; lia].
  pose proof (half_bounds (high - low) ltac:(lia)) as Hhalf.
  set (mid := low + (high - low) / 2) in *.
  assert (old mid = true -> forall tr, runs (search_loop fuel now (mid + 1) high) tr (Some (Ok r)) ->
    factory_state tr ->
    low <= r <= high /\ (low < r -> old (r - 1) = true) /\ (r < high -> old r = false)) as Hup.
  { intros Hold tr' Hr Hs. apply IH in Hr as (?&Ha&?); [|done|lia]. split; [lia|]. split; [|done].
    intros _. destruct (decide (r = mid + 1)) as [->|]; [|apply Ha; lia].
    by replace (mid + 1 - 1) with mid by lia. }
  open_run H. destruct H as ([[g|]|e]&t1&->&H); [| |by destruct H].
  - assert (Some g = addr mid) as Hg by (apply Hst; by exists (Ok (Some g)); split; [left|]).
    open_run H. destruct H as ([d|e]&t2&->&H); [|by destruct H].
    assert (d = deadline g) as -> by (apply Hst, saw_cons; by exists (Ok d); split; [left|]).
    do 2 apply factory_state_cons in Hst.
    destruct (deadline g <? now) eqn:Hd; [eapply Hup; eauto; by unfold old; rewrite <-Hg|].
    apply IH in H as (?&?&Hb); [|done|lia]. split; [lia|]. split; [done|].
    intros _. destruct (decide (r = mid)) as [->|]; [by unfold old; rewrite <-Hg|apply Hb; lia].
  - assert (None = addr mid) as Hg by (apply Hst; by exists (Ok None); split; [left|]).
    apply factory_state_cons in Hst. eapply Hup; eauto. by unfold old; rewrite <-Hg.
Qed.
End search.

Lemma search_loop_error fuel now low high tr e :
  runs (search_loop fuel now low high) tr (Some (Err e)) ->
  (exists i, saw (S := ChallengerSig) (GameAddressAt i) (Err e) tr) \/
  (exists g, saw (S := ChallengerSig) (ChallengeDeadline g) (Err e) tr).
Proof.
  revert low high tr. induction fuel as [|fuel IH]; intros low high tr H; [by destruct H|].
  cbn [search_loop] in H. destruct (low <? high); [|by destruct H].
  assert (forall ev0 lo hi tr, runs (search_loop fuel now lo hi) tr (Some (Err e)) ->
    (exists i, saw (S := ChallengerSig) (GameAddressAt i) (Err e) (ev0 :: tr)) \/
    (exists g, saw (S := ChallengerSig) (ChallengeDeadline g) (Err e) (ev0 :: tr))) as Hrec.
  { intros ev0 lo hi tr' [[i ?]|[g ?]]%IH; [left|right]; eexists; by apply saw_cons. }
  open_run H. destruct H as ([[g|]|e']&t1&->&H); [|by eapply Hrec|].
  - open_run H. destruct H as ([d|e']&t2&->&H).
    + destruct (d <? now); apply (Hrec (ev (inl (inl (ChallengeDeadline g)) : call TickSig) (Ok d)))
        in H as [[i ?]|[g' ?]]; [left|right|left|right]; eexists; by apply saw_cons.
    + destruct H as [-> [= ->]]. right. exists g. apply saw_cons. by eexists; split; [left|].
  - destruct H as [-> [= ->]]. left. eexists. by eexists; split; [left|].
Qed.

Lemma search_fuel_enough high : 0 <= high -> high - 0 < 2 ^ Z.of_nat (S (Z.to_nat (Z.log2 (high - 0)))).
Proof.
  intros H. rewrite Nat2Z.inj_succ, Z2Nat.id by apply Z.log2_nonneg.
  destruct (decide (high = 0)) as [->|]; [done|]. apply Z.log2_spec. lia.
Qed.

Lemma first_recent_inv count now tr r :
  runs (first_recent_game_index count now) tr r -> 0 <= count ->
  runs (search_loop (search_fuel 0 count) now 0 count) tr (Some r).
Proof.
  intros (t1&t2&[out|]&->&H&[-> ->])%runs_bind Hc.
  - by rewrite app_nil_r.
  - by destruct (search_loop_fuel _ _ _ _ _ _ H (search_fuel_enough count Hc)).
Qed.

(** The start of the scan is found by binary search in at most
    [2 * (log2 count + 1)] calls.  It fails only with the error of a failed
    call; and when the chain does not change meanwhile and the entries the
    search takes for old (foreign ones, and those past their deadline) come
    before all others, it returns the first entry that is not old. *)
Theorem first_recent_correct addr deadline now count tr r :
  runs (first_recent_game_index count now) tr r -> 0 <= count ->
  (length tr <= 2 * S (Z.to_nat (Z.log2 count)))%nat /\
  match r with
  | Ok first =>
      factory_state addr deadline tr ->
      (forall i j, 0 <= i <= j -> j < count -> old addr deadline now j = true ->
         old addr deadline now i = true) ->
      0 <= first <= count /\
      (forall i, 0 <= i < first -> old addr deadline now i = true) /\
      (forall i, first <= i < count -> old addr deadline now i = false)
  | Err e =>
      (exists i, saw (S := ChallengerSig) (GameAddressAt i) (Err e) tr) \/
      (exists g, saw (S := ChallengerSig) (ChallengeDeadline g) (Err e) tr)
  end.
Proof.
  intros Hr Hc. apply first_recent_inv in Hr; [|done]. split.
  { destruct (search_loop_fuel _ _ _ _ _ _ Hr (search_fuel_enough count Hc)) as [_ Hlen].
    by rewrite Z.sub_0_r in Hlen. }
  destruct r as [first|e]; [|by eapply search_loop_error].
  intros Hst Hmono. destruct (search_loop_bounds addr deadline _ _ _ _ _ _ Hr Hst Hc) as (?&Ha&Hb).
  split; [lia|]. split.
  - intros i Hi. apply (Hmono i (first - 1)); [lia|lia|apply Ha; lia].
  - intros i Hi. destruct (old addr deadline now i) eqn:Ho; [|done].
    rewrite <-Hb by lia. symmetry. apply (Hmono first i); [lia|lia|done].
Qed.

(** ** The window *)

Definition index_read (tr : trace) (i : Z) : Prop :=
  exists o, saw (S := ChallengerSig) (GameAddressAt i) (Ok o) tr.

Lemma search_loop_range fuel now low high tr r :
  runs (search_loop fuel now low high) tr (Some (Ok r)) -> low <= high -> low <= r <= high.
Proof.
  revert low high tr. induction fuel as [|fuel IH]; intros low high tr H Hle; [by destruct H|].
  cbn [search_loop] in H. destruct (Z.ltb_spec low high) as [Hlt|]; [|destruct H as [-> [= ->]]; lia].
  pose proof (half_bounds (high - low) ltac:(lia)).
  open_run H. destruct H as ([[g|]|e]&t1&->&H); [| |by destruct H].
  - open_run H. destruct H as ([d|e]&t2&->&H); [|by destruct H].
    destruct (d <? now); apply IH in H; lia.
  - apply IH in H; lia.
Qed.

(** The window of one tick: [c] is the cursor the tick works from. *)
Definition window (cfg : ChallengerConfig) (s : Challenger) (count c start stop : Z) : Prop :=
  0 <= start <= c /\ c <= stop <= count /\
  stop = Z.min (Z.min (c + max_games_per_tick cfg) U64_MAX) count /\
  match next_game_index s with
  | Some next => next <= count -> c = next /\ start = Z.max (next - game_scan_lookback cfg) 0
  | None => start = c
  end.

Definition config_ok (cfg : ChallengerConfig) : Prop :=
  0 <= max_games_per_tick cfg /\ 0 <= game_scan_lookback cfg.

Lemma select_range_window cfg now s tr start stop s' :
  runs (select_range cfg now s) tr (Ok (start, stop), s') -> config_ok cfg ->
  (forall next, next_game_index s = Some next -> 0 <= next) ->
  (forall n, saw (S := ChallengerSig) GameCount (Ok n) tr -> u64 n) ->
  exists count c, saw (S := ChallengerSig) GameCount (Ok count) tr /\
    window cfg s count c start stop.
Proof.
  intros H [Hmax Hlook] Hnext Hcount. unfold select_range in H. open_run H.
  destruct H as ([count|e]&t1&->&H); [|by destruct H]. cbv zeta in H.
  assert (u64 count) as Hu by (apply Hcount; by exists (Ok count); split; [left|]).
  unfold u64 in Hu.
  set (init := match next_game_index s with None => true | Some next => count <? next end) in H.
  apply runs_bind_try_mut in H as [(t2&t3&u&s1&->&Hinit&[-> [= -> -> ->]])|(e&s1&_&[=])].
  assert (exists c, 0 <= c <= count /\ s1 = set_cursor c s /\
    (init = false -> next_game_index s = Some c)) as (c&Hc&->&Hinit').
  { destruct init eqn:Hi.
    - apply runs_bind_try_st in Hinit as [(t4&t5&f&->&Hf&[-> [= ->]])|(e&_&[=])].
      apply first_recent_inv in Hf; [|lia]. apply search_loop_range in Hf; [|lia].
      exists f. split; [lia|]. split; [done|discriminate].
    - destruct Hinit as [-> [= ->]]. unfold init in Hi. destruct (next_game_index s) as [c|] eqn:Hs;
        [|discriminate]. apply Z.ltb_ge in Hi. specialize (Hnext c eq_refl).
      exists c. split; [lia|]. split; [|done]. unfold set_cursor. rewrite <-Hs. by destruct s. }
  exists count, c. split; [by exists (Ok count); split; [left|]|].
  simpl. unfold saturating_add, saturating_sub, window, U64_MAX in *.
  unfold init in *. destruct (next_game_index s) as [next|] eqn:Hs; simpl.
  - destruct (Z.ltb_spec count next); simpl in *; [split_and!; lia|].
    specialize (Hinit' eq_refl). injection Hinit' as ->. split_and!; lia.
  - split_and!; lia.
Qed.

(** The game at index [i], if it is one of ours, is queued or was handed on. *)
Definition covered (retry : gmap Address RetryGame) (found : list GameMetadata) (tr : trace) (i : Z)
    : Prop :=
  exists o, saw (S := ChallengerSig) (GameAddressAt i) (Ok o) tr /\
    match o with
    | None => True
    | Some g => is_Some (retry !! g) \/
        exists m, m ∈ found /\ saw (S := ChallengerSig) (GetGameMetadata g) (Ok m) tr
    end.

Definition metadata_read (tr : trace) (m : GameMetadata) : Prop :=
  exists g, saw (S := ChallengerSig) (GetGameMetadata g) (Ok m) tr.

Lemma covered_mono retry found found' t t' i :
  found ⊆ found' -> t ⊆ t' -> covered retry found t i -> covered retry found' t' i.
Proof.
  intros Hf Ht (o&Ho&Hg). exists o. split; [by eapply saw_mono|]. destruct o; [|done].
  destruct Hg as [?|(m&?&?)]; [by left|right]. exists m. split; [by apply Hf|by eapply saw_mono].
Qed.

Lemma metadata_read_mono t t' m : t ⊆ t' -> metadata_read t m -> metadata_read t' m.
Proof. intros Ht [g ?]. exists g. by eapply saw_mono. Qed.

Lemma discover_loop_spec retry idx acc tr out :
  runs (discover_loop retry idx acc) tr (Ok out) ->
  exists found, out = acc ++ found /\ Forall (covered retry found tr) idx /\
    Forall (metadata_read tr) found.
Proof.
  revert acc tr. induction idx as [|i idx IH]; intros acc tr H; cbn [discover_loop] in H.
  { destruct H as [-> [= ->]]. exists []. by rewrite app_nil_r. }
  assert (forall e t found, Forall (covered retry found t) idx -> Forall (metadata_read t) found ->
    forall found', found ⊆ found' ->
    Forall (covered retry found' (e :: t)) idx /\ Forall (metadata_read (e :: t)) found) as Hmono.
  { intros e t found Hc Hm found' Hs. split; (eapply Forall_impl; [eassumption|]); intros ?.
    - apply covered_mono; [done|apply subseteq_cons_r].
    - apply metadata_read_mono, subseteq_cons_r. }
  open_run H. destruct H as ([[g|]|e]&t1&->&H); [| |by destruct H].
  - set (e0 := ev _ _).
    assert (forall t, saw (S := ChallengerSig) (GameAddressAt i) (Ok (Some g)) (e0 :: t)) as Hi
      by (intros; by exists (Ok (Some g)); split; [left|]).
    case_bool_decide as Hq.
    + apply IH in H as (found&->&Hc&Hm). destruct (Hmono e0 _ _ Hc Hm found ltac:(done)) as [??].
      exists found. split; [done|]. split; [|done]. constructor; [|done]. exists (Some g). auto.
    + open_run H. destruct H as ([m|e]&t2&->&H); [|by destruct H].
      apply IH in H as (found&->&Hc&Hm). set (e1 := ev _ _).
      destruct (Hmono e1 _ _ Hc Hm (m :: found) ltac:(set_solver)) as [Hc1 Hm1].
      assert (saw (S := ChallengerSig) (GetGameMetadata g) (Ok m) (e0 :: e1 :: t2)) as Hmeta
        by (apply saw_cons; by exists (Ok m); split; [left|]).
      exists (m :: found). rewrite <-app_assoc. split; [done|]. split; constructor.
      * exists (Some g). split; [apply Hi|]. right. exists m. split; [by left|done].
      * eapply Forall_impl; [exact Hc1|]. intros x. apply covered_mono; [done|apply subseteq_cons_r].
      * by exists g.
      * eapply Forall_impl; [exact Hm1|]. intros x. apply metadata_read_mono, subseteq_cons_r.
  - apply IH in H as (found&->&Hc&Hm). set (e0 := ev _ _).
    destruct (Hmono e0 _ _ Hc Hm found ltac:(done)) as [??].
    exists found. split; [done|]. split; [|done]. constructor; [|done].
    exists None. split; [|done]. by exists (Ok None); split; [left|].
Qed.

(** ** Checks *)

(** The claim of [m] was found wrong while it could be challenged. *)
Definition found_wrong (now F : Z) (h : trace) (m : GameMetadata) (d : Z) : Prop :=
  (exists ps, saw (S := ChallengerSig) (GetProposalStatus (gm_address m)) (Ok ps) h /\
     is_challengeable ps = true) /\
  saw (S := ChallengerSig) (ChallengeDeadline (gm_address m)) (Ok d) h /\ now < d /\
  gm_block m <= F /\
  exists root, saw (S := ConsensusSig) (OutputRootAtBlock (gm_block m)) (Ok root) h /\
    root <> gm_root_claim m.

Lemma found_wrong_mono now F t t' m d :
  t ⊆ t' -> found_wrong now F t m d -> found_wrong now F t' m d.
Proof.
  intros Ht ((ps&?&?)&?&?&?&root&?&?). split_and!; eauto using saw_mono.
Qed.

Definition is_submit (e : event TickSig) : option Address :=
  match projT1 e with inl (inl (SubmitChallenge g)) => Some g | _ => None end.

Lemma process_game_spec m F now tr r :
  runs (process_game m F now) tr r ->
  Forall (fun e => is_submit e = None) tr /\
  match r with
  | Ok (NeedsChallenge d) => found_wrong now F tr m d
  | Ok Valid => saw (S := ConsensusSig) (OutputRootAtBlock (gm_block m)) (Ok (gm_root_claim m)) tr
  | Ok Skip =>
      (exists ps, saw (S := ChallengerSig) (GetProposalStatus (gm_address m)) (Ok ps) tr /\
         is_challengeable ps = false) \/
      (exists d, saw (S := ChallengerSig) (ChallengeDeadline (gm_address m)) (Ok d) tr /\ d <= now)
  | Err _ => True
  end.
Proof.
  intros H. unfold process_game in H. open_run H.
  destruct H as ([ps|e]&t1&->&H); [|destruct H as [-> ->]; by repeat constructor].
  destruct (is_challengeable ps) eqn:Hps; cbn [negb] in H.
  2: { destruct H as [-> ->]. split; [by repeat constructor|]. left. exists ps. split; [seen|done]. }
  open_run H. destruct H as ([d|e]&t2&->&H); [|destruct H as [-> ->]; by repeat constructor].
  destruct (Z.leb_spec d now).
  { destruct H as [-> ->]. split; [by repeat constructor|]. right. exists d. split; [seen|done]. }
  destruct (Z.ltb_spec F (gm_block m)); [destruct H as [-> ->]; by repeat constructor|].
  open_run H. destruct H as ([root|e]&t3&->&[-> ->]); [|by repeat constructor].
  split; [by repeat constructor|]. destruct (Z.eqb_spec root (gm_root_claim m)) as [->|Hne]; [seen|].
  split; [exists ps; split; [seen|done]|]. split; [seen|]. split; [done|]. split; [done|].
  exists root. split; [seen|done].
Qed.

(** ** Handling the results *)

Section tick.
Context (now : Z) (s0 : Challenger).
Implicit Types h t : trace.

(** The data of a game the tick knows: read in this tick, or queued before. *)
Definition known h (m : GameMetadata) : Prop :=
  metadata_read h m \/ exists a r, retry_games s0 !! a = Some r /\ rg_game r = m.

(** Why a challenge against [m] is in order. *)
Definition justified h (m : GameMetadata) (d : Z) : Prop :=
  known h m /\
  exists F, saw (S := ConsensusSig) LatestL2FinalizedBlock (Ok F) h /\ found_wrong now F h m d.

(** Why a game needs no challenge: its claim is the canonical root, or it
    cannot be challenged (any more). *)
Definition dismissed h (g : Address) : Prop :=
  (exists m, known h m /\ gm_address m = g /\
     saw (S := ConsensusSig) (OutputRootAtBlock (gm_block m)) (Ok (gm_root_claim m)) h) \/
  (exists ps, saw (S := ChallengerSig) (GetProposalStatus g) (Ok ps) h /\
     is_challengeable ps = false) \/
  (exists d, saw (S := ChallengerSig) (ChallengeDeadline g) (Ok d) h /\ d <= now) \/
  (exists r, retry_games s0 !! g = Some r /\ expired now r = true).

(** The challenge was accepted, and the game was put under management. *)
Definition challenged h (g : Address) : Prop :=
  (exists sub, saw (S := ChallengerSig) (SubmitChallenge g) (Ok sub) h) /\
  saw (S := OwnedSig) (OwnedInsert g) tt h.

Definition handled h (s : Challenger) (g : Address) : Prop :=
  is_Some (retry_games s !! g) \/ challenged h g \/ dismissed h g.

Definition queue_ok h (s : Challenger) : Prop :=
  map_Forall (fun a r => gm_address (rg_game r) = a /\ known h (rg_game r)) (retry_games s).

Definition challenge_allowed h (e : event TickSig) : Prop :=
  match is_submit e with
  | Some g => exists m d, gm_address m = g /\ justified h m d
  | None => True
  end.

Lemma known_mono h t m : h ⊆ t -> known h m -> known t m.
Proof. intros Hs [?|?]; [left; by eapply metadata_read_mono|by right]. Qed.

Lemma justified_mono h t m d : h ⊆ t -> justified h m d -> justified t m d.
Proof.
  intros Hs (?&F&?&?). split; [by eapply known_mono|]. exists F.
  split; [by eapply saw_mono|by eapply found_wrong_mono].
Qed.

Lemma dismissed_mono h t g : h ⊆ t -> dismissed h g -> dismissed t g.
Proof.
  intros Hs [(m&?&?&?)|[(ps&?&?)|[(d&?&?)|?]]].
  - left. exists m. eauto using known_mono, saw_mono.
  - right; left. eauto using saw_mono.
  - do 2 right; left. eauto using saw_mono.
  - by do 3 right.
Qed.

Lemma challenged_mono h t g : h ⊆ t -> challenged h g -> challenged t g.
Proof. intros Hs [[sub ?] ?]. split; [exists sub|]; by eapply saw_mono. Qed.

Lemma handled_mono h t s g : h ⊆ t -> handled h s g -> handled t s g.
Proof.
  intros Hs [?|[?|?]]; [by left|right; left|do 2 right];
    eauto using challenged_mono, dismissed_mono.
Qed.

Lemma queue_ok_mono h t s : h ⊆ t -> queue_ok h s -> queue_ok t s.
Proof. intros Hs Hq a r Hr. destruct (Hq a r Hr). eauto using known_mono. Qed.

(** Queueing and dequeueing *)
Lemma queue_retry_ok h s m d :
  known h m -> queue_ok h s -> queue_ok h (queue_retry_game m d s).
Proof. intros Hm Hq. by apply map_Forall_insert_2. Qed.

Lemma queue_delete_ok h s a : queue_ok h s -> queue_ok h (set_retry (delete a) s).
Proof. intros Hq. by apply map_Forall_delete. Qed.

Lemma handled_queue h s m d g :
  handled h s g \/ g = gm_address m -> handled h (queue_retry_game m d s) g.
Proof.
  unfold handled. simpl. destruct (decide (g = gm_address m)) as [->|Hne].
  - intros _. left. rewrite lookup_insert_eq. eauto.
  - rewrite lookup_insert_ne by done. naive_solver.
Qed.

Lemma handled_delete h s a g :
  handled h s g -> (g = a -> challenged h g \/ dismissed h g) ->
  handled h (set_retry (delete a) s) g.
Proof.
  intros Hg Ha. unfold handled in *. simpl. destruct (decide (g = a)) as [->|Hne]; [naive_solver|].
  rewrite lookup_delete_ne by done. done.
Qed.

(** What is known about a result when it is handled. *)
Definition result_ok h (mr : GameMetadata * result GameScanOutcome GameScanError) : Prop :=
  known h mr.1 /\
  match mr.2 with
  | Ok (NeedsChallenge d) => justified h mr.1 d
  | Ok _ => dismissed h (gm_address mr.1)
  | Err _ => True
  end.

Definition pending (l : list (GameMetadata * Z)) (g : Address) : Prop :=
  g ∈ map (fun md => gm_address md.1) l.

Lemma sort_results_ok h results s acc s' out :
  sort_results results s acc = (s', out) -> Forall (result_ok h) results ->
  queue_ok h s -> Forall (fun md => justified h md.1 md.2) acc ->
  queue_ok h s' /\ Forall (fun md => justified h md.1 md.2) out /\
  next_game_index s' = next_game_index s /\
  (forall g, handled h s g \/ pending acc g \/ g ∈ map (fun mr => gm_address mr.1) results ->
     handled h s' g \/ pending out g).
Proof.
  revert s acc. induction results as [|[m r] results IH]; intros s acc H Hres Hq Hacc; simpl in H.
  { injection H as <- <-. split_and!; try done. intros g [?|[?|[]%elem_of_nil]]; auto. }
  apply Forall_cons in Hres as [[Hk Hr] Hres]. simpl in *.
  destruct r as [[|d|]|e]; (eapply IH in H as (?&?&Hi&Hall); [|done|..]).
  all: try (split_and!; [done|done|exact Hi|]; intros g Hg; apply Hall; clear Hall).
  - destruct Hg as [Hg|[?|[->|?]%elem_of_cons]]; auto; left.
    + apply handled_delete; [done|]. intros ->. by right.
    + by do 2 right.
  - by apply queue_delete_ok.
  - done.
  - unfold pending in *. rewrite map_app, elem_of_app. simpl. set_solver.
  - done.
  - apply Forall_app_2; [done|]. constructor; [done|constructor].
  - destruct Hg as [Hg|[?|[->|?]%elem_of_cons]]; auto; left.
    + apply handled_delete; [done|]. intros ->. by right.
    + by do 2 right.
  - by apply queue_delete_ok.
  - done.
  - destruct Hg as [Hg|[?|[->|?]%elem_of_cons]]; auto; left; apply handled_queue; auto.
  - by apply queue_retry_ok.
  - done.
Qed.

(** The invariant of the submission loop: the challenges [l] are still to be
    sent, and the games [G] are taken care of or among them. *)
Definition submit_inv (G : Address -> Prop) (cursor : option Z) (l : list (GameMetadata * Z)) t
    (s : Challenger) : Prop :=
  queue_ok t s /\ Forall (fun md => justified t md.1 md.2) l /\ next_game_index s = cursor /\
  forall g, G g -> handled t s g \/ pending l g.

Lemma submit_one_safe G cursor md l s t :
  submit_inv G cursor (md :: l) t s ->
  safe (fun h => challenge_allowed (t ++ h)) (submit_one md s)
    (fun t' s' => submit_inv G cursor l (t ++ t') s').
Proof.
  destruct md as [m d]. intros (Hq&[Hm Hl]%Forall_cons&Hc&HG). simpl in *.
  assert (forall t', Forall (fun md => justified (t ++ t') md.1 md.2) l) as Hl'.
  { intros t'. eapply Forall_impl; [exact Hl|]. intros x. apply justified_mono, subseteq_app_l. }
  unfold submit_one, client, owned, trigger. sym_call [sub|e].
  - rewrite app_nil_r. by exists m, d.
  - sym_call []; [done|]. apply safe_ret. split_and!; [|apply Hl'|done|].
    + apply queue_delete_ok. eapply queue_ok_mono; [|exact Hq]. apply subseteq_app_l.
    + intros g Hg. destruct (decide (g = gm_address m)) as [->|Hne].
      * left. right; left. split; [exists sub|]; seen.
      * destruct (HG g Hg) as [Hh|Hp]; [left|right; by apply elem_of_cons in Hp as [?|?]].
        apply handled_delete; [|done]. eapply handled_mono; [|exact Hh]. apply subseteq_app_l.
  - apply safe_ret. split_and!; [|apply Hl'|done|].
    + apply queue_retry_ok; [|eapply queue_ok_mono; [|exact Hq]; apply subseteq_app_l].
      eapply known_mono; [|apply Hm]. apply subseteq_app_l.
    + intros g Hg. destruct (HG g Hg) as [Hh|[->|?]%elem_of_cons]; [left|left|by right];
        apply handled_queue; [left|by right].
      eapply handled_mono; [|exact Hh]. apply subseteq_app_l.
Qed.

Lemma handle_game_results_safe (G : Address -> Prop) results s t0 :
  Forall (result_ok t0) results -> queue_ok t0 s ->
  (forall g, G g -> handled t0 s g \/ g ∈ map (fun mr => gm_address mr.1) results) ->
  safe (fun h => challenge_allowed (t0 ++ h)) (handle_game_results results s) (fun t s' =>
    queue_ok (t0 ++ t) s' /\ next_game_index s' = next_game_index s /\
    forall g, G g -> handled (t0 ++ t) s' g).
Proof.
  intros Hres Hq HG. unfold handle_game_results.
  destruct (sort_results results s []) as [s1 out] eqn:Hsort.
  destruct (sort_results_ok _ _ _ _ _ _ Hsort Hres Hq ltac:(constructor)) as (Hq1&Hout&Hi&Hall).
  eapply safe_conseq; [apply (safe_fold challenge_allowed
    (submit_inv G (next_game_index s)) submit_one _ s1 t0)| |].
  - intros. by apply submit_one_safe.
  - split_and!; [done|by rewrite sort_by_key_perm|done|]. intros g Hg.
    destruct (Hall g) as [?|Hp]; [destruct (HG g Hg); auto|by left|right].
    unfold pending in *. by rewrite sort_by_key_perm.
  - done.
  - intros t s' (?&_&?&Hh). split_and!; try done. intros g Hg.
    destruct (Hh g Hg) as [?|[]%elem_of_nil]. done.
Qed.

(** A batch: concurrent checks, then the results. *)
Lemma batch_safe (G : Address -> Prop) cfg games F s t0 :
  saw (S := ConsensusSig) LatestL2FinalizedBlock (Ok F) t0 ->
  Forall (known t0) games -> queue_ok t0 s ->
  (forall g, G g -> handled t0 s g \/ g ∈ map gm_address games) ->
  csafe (fun h => challenge_allowed (t0 ++ h))
    (cbind (process_games cfg games F now) (fun results => runs (handle_game_results results s)))
    (fun t s' => queue_ok (t0 ++ t) s' /\ next_game_index s' = next_game_index s /\
       forall g, G g -> handled (t0 ++ t) s' g).
Proof.
  intros HF Hk Hq HG. eapply csafe_cbind.
  { apply csafe_buffer. intros t tr a e h Ht Hr He.
    apply list_elem_of_fmap in Ht as (m&->&_). apply process_game_spec in Hr as [Hns _].
    rewrite Forall_forall in Hns. unfold challenge_allowed. by rewrite (Hns e He). }
  intros results t1 [Hkeys Hruns]. eapply csafe_conseq.
  - apply csafe_runs, (handle_game_results_safe G results s (t0 ++ t1)).
    + apply Forall_forall. intros [m r] Hin. destruct (Hruns m r Hin) as (p&t&Hp&Hr&Hs).
      apply list_elem_of_fmap in Hp as (m'&[= <- ->]&Hm).
      apply process_game_spec in Hr as [_ Hr]. rewrite Forall_forall in Hk.
      assert (known (t0 ++ t1) m) as Hkm
        by (eapply known_mono; [apply subseteq_app_l|by apply Hk]).
      assert (t ⊆ t0 ++ t1) as Hs' by (intros x Hx; apply elem_of_app; auto).
      split; [done|]. simpl. destruct r as [[|d|]|e]; [| | |done].
      * left. exists m. split_and!; [done|done|by eapply saw_mono].
      * split; [done|]. exists F. split; [by apply saw_app_l|by eapply found_wrong_mono].
      * right. destruct Hr as [(ps&?&?)|(d&?&?)]; [left|right; left]; eauto using saw_mono.
    + eapply queue_ok_mono; [|exact Hq]. apply subseteq_app_l.
    + intros g Hg. destruct (HG g Hg) as [Hh|Hin].
      * left. eapply handled_mono; [|exact Hh]. apply subseteq_app_l.
      * right. rewrite <-(map_map fst gm_address), Hkeys, !map_map. exact Hin.
  - shift_trace.
  - shift_trace.
Qed.

(** ** A whole tick *)

Definition keys_ok (s : Challenger) : Prop :=
  map_Forall (fun a r => gm_address (rg_game r) = a) (retry_games s).

Lemma keys_queue_ok h : keys_ok s0 -> queue_ok h s0.
Proof. intros Hk a r Hr. split; [by apply Hk|]. right. eauto. Qed.

Lemma retained_lookup l (m : gmap Address RetryGame) a :
  foldr (fun r m => if expired now r then delete (gm_address (rg_game r)) m else m) m l !! a = m !! a \/
  foldr (fun r m => if expired now r then delete (gm_address (rg_game r)) m else m) m l !! a = None /\
  exists r, r ∈ l /\ expired now r = true /\ gm_address (rg_game r) = a.
Proof.
  induction l as [|r l IH]; simpl; [by left|]. destruct (expired now r) eqn:He.
  - destruct (decide (gm_address (rg_game r) = a)) as [<-|Hne].
    + right. rewrite lookup_delete_eq. split; [done|]. exists r. split; [by left|done].
    + rewrite lookup_delete_ne by done. destruct IH as [?|(?&r'&?&?&?)]; [by left|right].
      split; [done|]. exists r'. split; [by right|done].
  - destruct IH as [?|(?&r'&?&?&?)]; [by left|right].
    split; [done|]. exists r'. split; [by right|done].
Qed.

Lemma handle_retry_safe cfg F s t0 :
  keys_ok s0 -> retry_games s = retry_games s0 ->
  saw (S := ConsensusSig) LatestL2FinalizedBlock (Ok F) t0 ->
  csafe (fun h => challenge_allowed (t0 ++ h)) (handle_retry_games cfg now F s)
    (fun t s' => queue_ok (t0 ++ t) s' /\ next_game_index s' = next_game_index s /\
       forall g, is_Some (retry_games s0 !! g) -> handled (t0 ++ t) s' g).
Proof.
  intros Hk Hs HF tr s' (values&Hperm&H). unfold retain_retry in H.
  set (l := sort_by_key _ values) in H.
  assert (forall r, r ∈ l -> retry_games s0 !! gm_address (rg_game r) = Some r) as Hl.
  { intros r Hr. unfold l in Hr. rewrite sort_by_key_perm, Hperm, Hs in Hr.
    apply list_elem_of_fmap in Hr as ([a r']&->&Hin%elem_of_map_to_list). simpl.
    by rewrite (Hk _ _ Hin). }
  refine (batch_safe (fun g => is_Some (retry_games s0 !! g)) cfg _ F _ t0 HF _ _ _ tr s' H).
  - apply Forall_forall. intros m (r&->&[_ Hr]%list_elem_of_filter)%list_elem_of_fmap.
    right. eauto.
  - intros a r Hr. simpl in Hr. rewrite Hs in Hr.
    destruct (retained_lookup l (retry_games s0) a) as [He|[He _]]; rewrite He in Hr; [|done].
    by apply keys_queue_ok.
  - intros g Hg. left. unfold handled. simpl. rewrite Hs.
    destruct (retained_lookup l (retry_games s0) g) as [->|(->&r&Hin&He&<-)]; [by left|].
    do 5 right. exists r. split; [by apply Hl|done].
Qed.

(** What a tick leaves behind. *)
Definition tick_post cfg tr (rs : result unit ChallengerError * Challenger) : Prop :=
  queue_ok tr rs.2 /\
  match rs.1 with
  | Err _ => retry_games rs.2 = retry_games s0
  | Ok _ => exists t1 t2 s1 start stop found, tr = t1 ++ t2 /\
      runs (select_range cfg now s0) t1 (Ok (start, stop), s1) /\
      Forall (covered (retry_games s0) found tr) (range start stop) /\
      next_game_index rs.2 = Some stop /\
      forall g, is_Some (retry_games s0 !! g) \/ g ∈ map gm_address found -> handled tr rs.2 g
  end.

Lemma csafe_ctry {A B E T} P (c : comp TickSig (result A E * T))
    (k : A -> T -> comp TickSig (result B E * T)) Q1 Q :
  csafe P c Q1 ->
  (forall e s t, Q1 t (Err e, s) -> Q t (Err e, s)) ->
  (forall a s t1, Q1 t1 (Ok a, s) ->
     csafe (fun h => P (t1 ++ h)) (k a s) (fun t2 b => Q (t1 ++ t2) b)) ->
  csafe P (ctry c k) Q.
Proof.
  intros Hc He Hk. eapply csafe_cbind; [exact Hc|]. intros [[a|e] s] t1 HQ; [by apply Hk|].
  apply csafe_ret. rewrite app_nil_r. by apply He.
Qed.

(** The reads before the checks send no challenge and leave the queue. *)
Definition quiet t : Prop := Forall (fun e => is_submit e = None) t.

Lemma safe_quiet {A} (f : trace -> trace) (p : prog TickSig A) :
  (forall tr a, runs p tr a -> quiet tr) ->
  safe (fun h => challenge_allowed (f h)) p (fun t a => runs p t a).
Proof.
  intros Hq tr a H. split; [|done]. specialize (Hq tr a H). intros t1 e t2 ->.
  apply Forall_app in Hq as [_ Hq]. inversion Hq as [|? ? He _]; subst.
  unfold challenge_allowed. by rewrite He.
Qed.

Lemma search_loop_quiet fuel lo hi tr r : runs (search_loop fuel now lo hi) tr r -> quiet tr.
Proof.
  revert lo hi tr. induction fuel as [|fuel IH]; intros lo hi tr H; cbn [search_loop] in H;
    [destruct H as [-> _]; constructor|].
  destruct (lo <? hi); [|destruct H as [-> _]; constructor].
  open_run H. destruct H as ([[g|]|e]&t1&->&H); constructor; try done;
    [|by eapply IH|destruct H as [-> _]; constructor].
  open_run H. destruct H as ([d|e]&t2&->&H); constructor; try done;
    [destruct (d <? now); by eapply IH|destruct H as [-> _]; constructor].
Qed.

Lemma first_recent_quiet count tr r : runs (first_recent_game_index count now) tr r -> quiet tr.
Proof.
  intros (t1&t2&o&->&H&[-> _])%runs_bind. rewrite app_nil_r. by eapply search_loop_quiet.
Qed.

Lemma select_range_quiet cfg tr r s :
  runs (select_range cfg now s0) tr (r, s) -> quiet tr /\ retry_games s = retry_games s0.
Proof.
  intros H. unfold select_range in H. open_run H.
  destruct H as ([n|e]&t1&->&H); [|destruct H as [-> [= _ ->]]; by repeat constructor].
  cbv zeta in H. set (b := match next_game_index s0 with None => true | Some _ => _ end) in H.
  assert (forall t r s, runs (if b then do?[ s0 ] first_recent <- first_recent_game_index n now;
       Ret (Ok tt, set_cursor first_recent s0) else Ret (Ok tt, s0)) t (r, s) ->
    quiet t /\ retry_games s = retry_games s0) as Hinit.
  { clear H. intros t r' s' Hi. destruct b; [|destruct Hi as [-> [= _ ->]]; by repeat constructor].
    apply runs_bind_try_st in Hi as [(t4&t5&f&->&Hf&[-> [= _ ->]])|(e&Hf&[= _ ->])];
      rewrite ?app_nil_r; split; try done; by eapply first_recent_quiet. }
  apply runs_bind_try_mut in H as [(t2&t3&u&s1&->&Hi&[-> [= _ ->]])|(e&s1&Hi&[= _ ->])];
    apply Hinit in Hi as [??]; rewrite ?app_nil_r; by repeat constructor.
Qed.

Lemma discover_loop_quiet retry idx acc tr r : runs (discover_loop retry idx acc) tr r -> quiet tr.
Proof.
  revert acc tr. induction idx as [|i idx IH]; intros acc tr H; cbn [discover_loop] in H.
  { destruct H as [-> _]. constructor. }
  open_run H. destruct H as ([[g|]|e]&t1&->&H); constructor; try done;
    [|by eapply IH|destruct H as [-> _]; constructor].
  case_bool_decide; [by eapply IH|].
  open_run H. destruct H as ([m|e]&t2&->&H); constructor; try done;
    [by eapply IH|destruct H as [-> _]; constructor].
Qed.

Lemma handle_batches_safe cfg F new_games stop s t0 :
  keys_ok s0 -> retry_games s = retry_games s0 -> Forall (metadata_read t0) new_games ->
  saw (S := ConsensusSig) LatestL2FinalizedBlock (Ok F) t0 ->
  csafe (fun h => challenge_allowed (t0 ++ h))
    (cbind (handle_retry_games cfg now F s) (fun s =>
     cbind (handle_new_games cfg new_games now F s) (fun s =>
     runs (Ret (Ok tt, set_cursor stop s)))))
    (fun t (rs : result unit ChallengerError * Challenger) =>
       queue_ok (t0 ++ t) rs.2 /\ rs.1 = Ok tt /\ next_game_index rs.2 = Some stop /\
       forall g, is_Some (retry_games s0 !! g) \/ g ∈ map gm_address new_games ->
         handled (t0 ++ t) rs.2 g).
Proof.
  intros Hk Hs Hnew HF. eapply csafe_cbind; [by apply handle_retry_safe|].
  intros s1 t1 (Hq1&_&Hh1). eapply csafe_cbind.
  - eapply csafe_conseq; [eapply (batch_safe
      (fun g => is_Some (retry_games s0 !! g) \/ g ∈ map gm_address new_games)
      cfg new_games F s1 (t0 ++ t1))| |]; [by apply saw_app_l| |done| | |].
    + eapply Forall_impl; [exact Hnew|]. intros m Hm. left.
      eapply metadata_read_mono; [|exact Hm]. apply subseteq_app_l.
    + intros g [Hg|Hg]; [left; by apply Hh1|by right].
    + shift_trace.
    + intros t s2 H. exact H.
  - intros s2 t2 (Hq2&_&Hh2). apply csafe_ret. rewrite app_nil_r, app_assoc.
    split_and!; done.
Qed.

Lemma tick_at_csafe cfg :
  keys_ok s0 -> csafe challenge_allowed (tick_at cfg now s0) (tick_post cfg).
Proof.
  intros Hk. unfold tick_at. destruct (validate cfg).
  2: { apply csafe_ret. split; [by apply keys_queue_ok|done]. }
  assert (forall t s, retry_games s = retry_games s0 -> queue_ok t s) as Hq0.
  { intros t s Hs. unfold queue_ok. rewrite Hs. by apply keys_queue_ok. }
  eapply csafe_ctry.
  { apply csafe_runs, (safe_quiet id). intros tr [r s] H. by apply select_range_quiet in H as [? _]. }
  { intros e s t [_ Hs]%select_range_quiet. split; [by apply Hq0|done]. }
  intros [start stop] s t1 Hsel. pose proof (select_range_quiet _ _ _ _ Hsel) as [_ Hs].
  eapply csafe_ctry.
  { apply csafe_runs, (safe_quiet (app t1)). intros tr [r s'] (t2&t3&r'&->&Hd&[-> _])%runs_bind.
    rewrite app_nil_r. by eapply discover_loop_quiet. }
  { intros e s' t (t2&t3&r&->&Hd&[-> [= _ ->]])%runs_bind. split; [by apply Hq0|done]. }
  intros new_games s' t2 (t3&t4&r&->&Hd&[-> [= <- ->]])%runs_bind.
  apply discover_loop_spec in Hd as (found&Hfound&Hcov&Hmeta). simpl in Hfound. subst found.
  rewrite Hs in Hcov. rewrite app_nil_r.
  assert (forall t, Forall (covered (retry_games s0) new_games (t1 ++ t3 ++ t)) (range start stop))
    as Hcov'.
  { intros t. eapply Forall_impl; [exact Hcov|]. intros i. apply covered_mono; [done|set_solver]. }
  destruct (bool_decide (new_games = []) && bool_decide (retry_games s = ∅)) eqn:Hempty.
  { apply andb_true_iff in Hempty as [->%bool_decide_eq_true He%bool_decide_eq_true].
    apply csafe_ret. split; [by apply Hq0|]. simpl.
    exists t1, t3, s, start, stop, []. rewrite app_nil_r. specialize (Hcov' []).
    rewrite app_nil_r in Hcov'. split_and!; try done.
    intros g [[r Hr]|[]%elem_of_nil]. rewrite <-Hs, He in Hr. done. }
  eapply csafe_ctry.
  { apply csafe_runs, (safe_quiet (fun h => t1 ++ t3 ++ h)). intros tr rs H. open_run H.
    destruct H as (r&t5&->&[-> _]). by repeat constructor. }
  { intros e s' t H. open_run H. destruct H as (r&t5&->&[-> [= _ ->]]). split; [by apply Hq0|done]. }
  intros F s' t5 H. open_run H. destruct H as ([F'|e]&t6&->&[-> [= -> ->]]).
  eapply csafe_conseq; [apply (handle_batches_safe cfg F' new_games stop s (t1 ++ t3 ++
    [ev (inr LatestL2FinalizedBlock : call TickSig) (Ok F')])); [done|done| |seen]| |].
  - eapply Forall_impl; [exact Hmeta|]. intros m. apply metadata_read_mono. set_solver.
  - shift_trace.
  - intros t [r s'] (Hq&Hr&Hi&Hh). simpl in Hr. subst r. rewrite <-!app_assoc in *. split; [done|]. cbn [fst].
    eexists t1, _, s, start, stop, new_games. by split_and!.
Qed.
End tick.

(** C22: Whatever the chain and the node reply, and however the concurrent
    checks interleave, a tick challenges a game only after it has read, in
    this tick, that the game can be challenged, that its deadline lies after
    [now], that its block is finalized, and that the canonical output root of
    that block is not the claim in the game's metadata. *)
Theorem challenges_are_justified cfg now s tr rs t1 g rep t2 :
  keys_ok s -> tick_at cfg now s tr rs ->
  tr = t1 ++ ev (inl (inl (SubmitChallenge g)) : call TickSig) rep :: t2 ->
  exists m d, gm_address m = g /\ justified now s t1 m d.
Proof.
  intros Hk H ->. destruct (tick_at_csafe now s cfg Hk _ _ H) as [Hg _]. exact (Hg t1 _ t2 eq_refl).
Qed.

(** No game is lost.  After a tick that succeeds, the cursor is at the end
    of the window, and every game at an index of the window and every game of
    the retry queue is queued for retry, or was challenged and put under
    management, or was dismissed for a reason read in this tick (canonical
    claim, not challengeable, deadline passed).  After a tick that fails, the
    retry queue is what it was. *)
Theorem no_game_lost cfg now s tr r s' :
  keys_ok s -> tick_at cfg now s tr (r, s') ->
  (forall g m, saw (S := ChallengerSig) (GetGameMetadata g) (Ok m) tr -> gm_address m = g) ->
  keys_ok s' /\
  match r with
  | Err _ => retry_games s' = retry_games s
  | Ok _ => exists start stop, next_game_index s' = Some stop /\
      (forall g, is_Some (retry_games s !! g) -> handled now s tr s' g) /\
      (forall i, start <= i < stop -> exists o,
         saw (S := ChallengerSig) (GameAddressAt i) (Ok o) tr /\
         match o with Some g => handled now s tr s' g | None => True end) /\
      exists t1 t2 s1, tr = t1 ++ t2 /\ runs (select_range cfg now s) t1 (Ok (start, stop), s1)
  end.
Proof.
  intros Hk H Hmeta. destruct (tick_at_csafe now s cfg Hk _ _ H) as [_ [Hq Hpost]].
  split; [intros a x Hx; by apply (Hq a x)|]. destruct r; [|done].
  destruct Hpost as (t1&t2&s1&start&stop&found&->&Hsel&Hcov&Hi&Hh). exists start, stop.
  split_and!; [done|by auto| |by exists t1, t2, s1].
  intros i Hin. rewrite Forall_forall in Hcov. destruct (Hcov i) as (o&Ho&Hg).
  { unfold range. apply elem_of_seqZ. lia. }
  exists o. split; [done|]. destruct o as [g|]; [|done]. apply Hh.
  destruct Hg as [?|(m&Hm&Hsaw)]; [by left|right]. rewrite <-(Hmeta g m Hsaw).
  by apply list_elem_of_fmap_2.
Qed.

(** The window of a tick stays inside the factory and contains the cursor:
    it ends [max_games_per_tick] entries after the cursor or at the last
    entry, and starts [game_scan_lookback] entries before it, or at it when
    the tick set the cursor anew.  So the cursor, which moves to the end of
    the window, goes back only if the factory has shrunk below it. *)
Theorem select_range_bounds cfg now s tr start stop s' :
  runs (select_range cfg now s) tr (Ok (start, stop), s') -> config_ok cfg ->
  (forall next, next_game_index s = Some next -> 0 <= next) ->
  (forall n, saw (S := ChallengerSig) GameCount (Ok n) tr -> u64 n) ->
  exists count c, saw (S := ChallengerSig) GameCount (Ok count) tr /\
    window cfg s count c start stop.
Proof. apply select_range_window. Qed.

(** Challenges of one batch are submitted in the order of their deadlines,
    one for each game whose check asked for it. *)
Theorem challenges_by_deadline results s tr s' :
  runs (handle_game_results results s) tr s' ->
  exists order : list (GameMetadata * Z),
    key_sorted snd order /\
    order ≡ₚ omap (fun mr => match mr.2 with Ok (NeedsChallenge d) => Some (mr.1, d) | _ => None end)
               results /\
    omap is_submit tr = map (fun md => gm_address md.1) order.
Proof.
  intros H. unfold handle_game_results in H.
  destruct (sort_results results s []) as [s1 out] eqn:Hs.
  exists (sort_by_key snd out). split; [apply sort_by_key_sorted|]. split.
  - rewrite sort_by_key_perm. assert (forall acc s0, sort_results results s0 acc = (s1, out) ->
      out = acc ++ omap (fun mr => match mr.2 with Ok (NeedsChallenge d) => Some (mr.1, d)
        | _ => None end) results) as Hout; [|by apply Hout in Hs as ->].
    clear H Hs s. induction results as [|[m [[|d|]|e]] results IH]; intros acc s0 Hs; simpl in *.
    + injection Hs as _ <-. by rewrite app_nil_r.
    + by eapply IH.
    + apply IH in Hs. by rewrite <-app_assoc in Hs.
    + by eapply IH.
    + by eapply IH.
  - clear Hs. revert s1 tr H. induction (sort_by_key snd out) as [|[m d] l IH]; intros s1 tr H.
    { by destruct H as [-> _]. }
    cbn [fold_prog] in H. apply runs_bind in H as (t1&t2&s2&->&H1&H2).
    rewrite omap_app, (IH _ _ H2). unfold submit_one in H1. open_run H1.
    destruct H1 as ([sub|e]&t3&->&H1); open_run H1; [destruct H1 as (u&t4&->&[-> _])|destruct H1 as [-> _]];
      done.
Qed.

(** ** One schedule of a tick

    The tick whose checks run one after the other and whose queue is listed in
    the order of the finite map. *)

Definition batch_seq (games : list GameMetadata) (F now : Z) (s : Challenger) : prog TickSig Challenger :=
  do results <- run_all (map (fun game => (game, process_game game F now)) games);
  handle_game_results results s.

Definition handle_retry_seq (now F : Z) (s : Challenger) : prog TickSig Challenger :=
  let '(retry, s1) := retain_retry now
    (sort_by_key (fun r => default 0 (rg_deadline r)) ((map_to_list (retry_games s)).*2)) s in
  batch_seq (map rg_game retry) F now s1.

Definition tick_seq (cfg : ChallengerConfig) (now : Z) (s : Challenger)
    : prog TickSig (result unit ChallengerError * Challenger) :=
  match validate cfg with
  | Err e => Ret (Err e, s)
  | Ok _ =>
      do rs <- select_range cfg now s;
      match rs with
      | (Err e, s) => Ret (Err e, s)
      | (Ok (start, stop), s) =>
          do rs <- (do r <- discover_new_games start stop s; Ret (r, s));
          match rs with
          | (Err e, s) => Ret (Err e, s)
          | (Ok new_games, s) =>
              if bool_decide (new_games = []) && bool_decide (retry_games s = ∅)
              then Ret (Ok tt, set_cursor stop s)
              else
                do rs <- (do r <- node LatestL2FinalizedBlock; Ret (map_err OutputRoot r, s));
                match rs with
                | (Err e, s) => Ret (Err e, s)
                | (Ok F, s) =>
                    do s <- handle_retry_seq now F s;
                    do s <- batch_seq new_games F now s;
                    Ret (Ok tt, set_cursor stop s)
                end
          end
      end
  end.

Lemma batch_seq_runs cfg games F now s tr s' :
  (0 < max_game_concurrency cfg)%nat -> runs (batch_seq games F now s) tr s' ->
  cbind (process_games cfg games F now) (fun results => runs (handle_game_results results s)) tr s'.
Proof.
  intros Hn H. eapply cbind_runs; [exact H| |done].
  intros t a. by apply run_all_buffer_unordered.
Qed.

Lemma tick_seq_tick_at cfg now s tr rs :
  runs (tick_seq cfg now s) tr rs -> tick_at cfg now s tr rs.
Proof.
  unfold tick_seq, tick_at. destruct (validate cfg) eqn:Hv; [|done]. intros H.
  assert (0 < max_game_concurrency cfg)%nat as Hn.
  { unfold validate in Hv. destruct (poll_interval cfg =? 0); [done|].
    destruct (Nat.eqb_spec (max_game_concurrency cfg) 0); [done|lia]. }
  eapply cbind_runs; [exact H|done|]. clear H. intros [[[start stop]|e] s1] t1 H; [|exact H].
  eapply cbind_runs; [exact H|done|]. clear H. intros [[new_games|e] s2] t2 H; [|exact H].
  destruct (_ && _); [exact H|].
  eapply cbind_runs; [exact H|done|]. clear H. intros [[F|e] s3] t3 H; [|exact H].
  eapply cbind_runs; [exact H| |].
  { intros t s' Hr. exists ((map_to_list (retry_games s3)).*2). split; [done|].
    unfold handle_retry_seq in Hr. destruct (retain_retry _ _ _). by apply batch_seq_runs. }
  clear H. intros s4 t4 H. eapply cbind_runs; [exact H| |done].
  intros t s'. by apply batch_seq_runs.
Qed.

(** A tick never gets stuck: in every world that answers the calls, some
    schedule of the tick runs to its end. *)
Theorem tick_at_total {W} (h : handler TickSig W) (w : W) cfg now s :
  exists tr rs, tick_at cfg now s tr rs.
Proof.
  exists (trace_of h (tick_seq cfg now s) w), (value_of h (tick_seq cfg now s) w).
  apply tick_seq_tick_at, interp_runs.
Qed.

(** ** A concrete factory

    Six entries; entry 0 is a foreign game and the games up to 11 are past
    their deadline; game 13 claims a wrong root, game 14's status cannot be
    read, and block 150 of game 15 is not finalized. *)

Definition factory_addr (i : Z) : option Address := if i =? 0 then None else Some (10 + i).
Definition factory_deadline (g : Address) : Z := if g <=? 11 then 50 else 1000 - g.

Definition tick_world : handler TickSig unit := fun c w =>
  match c with
  | inl (inl GameCount) => (Ok 6, w)
  | inl (inl (GameAddressAt i)) => (Ok (factory_addr i), w)
  | inl (inl (GetGameMetadata g)) =>
      (Ok {| gm_address := g; gm_root_claim := if g =? 13 then 1 else (g * 10) * 1000;
             gm_block := g * 10 |}, w)
  | inl (inl (GetProposalStatus g)) => (if g =? 14 then Err Overflow else Ok Unchallenged, w)
  | inl (inl (ChallengeDeadline g)) => (Ok (factory_deadline g), w)
  | inl (inl (SubmitChallenge g)) => (Ok (g, 5), w)
  | inl (inr (OwnedInsert _)) => (tt, w)
  | inl (inr (OwnedRemove _)) => (tt, w)
  | inl (inr OwnedSnapshot) => ([], w)
  | inr (OutputRootAtBlock b) => (Ok (b * 1000), w)
  | inr LatestL2FinalizedBlock => (Ok 145, w)
  end.

Definition tick_demo := tick_seq default_config 100 new.
Definition tick_trace : trace := trace_of tick_world tick_demo tt.
Definition tick_result := value_of tick_world tick_demo tt.

Lemma tick_demo_runs : tick_at default_config 100 new tick_trace tick_result.
Proof. apply tick_seq_tick_at, interp_runs. Qed.

Lemma new_keys_ok : keys_ok new.
Proof. apply map_Forall_empty. Qed.


Lemma first_recent_correct_witness :
  let p := first_recent_game_index 6 100 in
  (length (trace_of tick_world p tt) <= 2 * 3)%nat /\
  (0 <= 2 <= 6 /\
   (forall i, 0 <= i < 2 -> old factory_addr factory_deadline 100 i = true) /\
   (forall i, 2 <= i < 6 -> old factory_addr factory_deadline 100 i = false)).
Proof.
  cbv zeta.
  destruct (first_recent_correct factory_addr factory_deadline 100 6 _ _
    (interp_runs tick_world (first_recent_game_index 6 100) tt) ltac:(lia)) as [Hlen Hres].
  split; [exact Hlen|]. apply Hres.
  - split; intros ? ? H%saw_replies; simpl in H; congruence.
  - intros i j Hij Hj. assert (0 <= i <= 1 \/ 2 <= j <= 5) as [Hi|Hi] by lia.
    + assert (i = 0 \/ i = 1) as [->| ->] by lia; done.
    + assert (j = 2 \/ j = 3 \/ j = 4 \/ j = 5) as [->|[->|[->| ->]]] by lia; done.
Defined.

Lemma challenges_are_justified_witness :
  exists m d, gm_address m = 13 /\ justified 100 new (take 25 tick_trace) m d.
Proof.
  refine (challenges_are_justified default_config 100 new tick_trace tick_result
    (take 25 tick_trace) 13 (Ok (13, 5)) (drop 26 tick_trace) new_keys_ok tick_demo_runs _).
  vm_compute. reflexivity.
Defined.

Lemma no_game_lost_witness :
  keys_ok (snd tick_result) /\
  exists start stop, next_game_index (snd tick_result) = Some stop /\
    (forall g, is_Some (retry_games new !! g) -> handled 100 new tick_trace (snd tick_result) g) /\
    (forall i, start <= i < stop -> exists o,
       saw (S := ChallengerSig) (GameAddressAt i) (Ok o) tick_trace /\
       match o with Some g => handled 100 new tick_trace (snd tick_result) g | None => True end) /\
    exists t1 t2 s1, tick_trace = t1 ++ t2 /\
      runs (select_range default_config 100 new) t1 (Ok (start, stop), s1).
Proof.
  assert (tick_result = (Ok tt, snd tick_result)) as Hv by (vm_compute; reflexivity).
  pose proof tick_demo_runs as Hr. rewrite Hv in Hr.
  refine (no_game_lost default_config 100 new tick_trace (Ok tt) (snd tick_result) new_keys_ok Hr _).
  intros g m H%saw_replies. simpl in H. by injection H as ->.
Defined.

Definition select_demo := select_range default_config 100 {| next_game_index := Some 4; retry_games := ∅ |}.

Lemma select_range_bounds_witness :
  exists count c, saw (S := ChallengerSig) GameCount (Ok count) (trace_of tick_world select_demo tt) /\
    window default_config {| next_game_index := Some 4; retry_games := ∅ |} count c 0 6.
Proof.
  refine (select_range_bounds default_config 100 {| next_game_index := Some 4; retry_games := ∅ |}
    _ 0 6 _ (interp_runs tick_world select_demo tt) _ _ _).
  - by split; simpl; lia.
  - intros next [= <-]. lia.
  - intros n H%saw_replies. simpl in H. injection H as ->. unfold u64, U64_MAX. lia.
Defined.

Definition results_demo : Results :=
  [({| gm_address := 21; gm_root_claim := 1; gm_block := 5 |}, Ok (NeedsChallenge 400));
   ({| gm_address := 22; gm_root_claim := 1; gm_block := 6 |}, Ok Valid);
   ({| gm_address := 23; gm_root_claim := 1; gm_block := 7 |}, Ok (NeedsChallenge 300))].

Lemma challenges_by_deadline_witness :
  exists order : list (GameMetadata * Z),
    key_sorted snd order /\
    order ≡ₚ omap (fun mr => match mr.2 with Ok (NeedsChallenge d) => Some (mr.1, d) | _ => None end)
               results_demo /\
    omap is_submit (trace_of tick_world (handle_game_results results_demo new) tt) =
      map (fun md => gm_address md.1) order.
Proof.
  exact (challenges_by_deadline results_demo new _ _
    (interp_runs tick_world (handle_game_results results_demo new) tt)).
Defined.
