(* ===== verification/ChallengerBonds.v ===== *)
(** * The challenger's lifecycle managers
    ([src/proofs/services/challenger/src/bond_manager.rs], [resolution_manager.rs])

    The bond manager finds the games the challenger has challenged and settles
    their bond pots; the resolution manager resolves the ones whose outcome is
    ready.  Both run beside the challenger and share the set of owned games
    with it, so a snapshot of that set is a reply of the outside world: the
    theorems hold whatever the other loops do to the set. *)

From S2P Require Import Prelude Program Encoding ProofTypes Lineage Challenger.

(** ** Configurations *)

Record ResolutionManagerConfig := {
  rm_poll_interval : Z;
  rm_max_resolutions_per_tick : nat
}.

Definition resolution_validate (c : ResolutionManagerConfig) : result unit ChallengerError :=
  if rm_poll_interval c =? 0
  then Err (InvalidConfig "resolution_manager.poll_interval must be greater than zero")
  else if Nat.eqb (rm_max_resolutions_per_tick c) 0
  then Err (InvalidConfig "resolution_manager.max_resolutions_per_tick must be greater than zero")
  else Ok tt.

Definition resolution_default : ResolutionManagerConfig :=
  {| rm_poll_interval := 30 * 1000; rm_max_resolutions_per_tick := 1 |}.

Record BondManagerConfig := {
  bm_poll_interval : Z;
  bm_initial_scan_limit : Z
}.

Definition bond_validate (c : BondManagerConfig) : result unit ChallengerError :=
  if bm_poll_interval c =? 0
  then Err (InvalidConfig "bond_manager.poll_interval must be greater than zero")
  else if bm_initial_scan_limit c =? 0
  then Err (InvalidConfig "bond_manager.initial_scan_limit must be greater than zero")
  else Ok tt.

Definition bond_default : BondManagerConfig :=
  {| bm_poll_interval := 5 * 60 * 1000; bm_initial_scan_limit := 1000 |}.

(** ** Interfaces *)

Inductive resolution_call :=
| ResolutionStatusOf (game : Address)
| Resolve (game : Address).

Definition ResolutionSig : Sig := MkSig resolution_call (fun c =>
  match c with
  | ResolutionStatusOf _ => result ResolutionStatus ChallengerError
  | Resolve _ => result B256 ChallengerError
  end).

Inductive bond_call :=
| GameCount
| GameAddressAt (index : Z)
| GameChallenger (game : Address)
| IsGameFinalized (game : Address)
| IsGameSettled (game : Address)
| CloseGame (game : Address).

Definition BondSig : Sig := MkSig bond_call (fun c =>
  match c with
  | GameCount => result Z ChallengerError
  | GameAddressAt _ => result (option Address) ChallengerError
  | GameChallenger _ => result Address ChallengerError
  | IsGameFinalized _ => result bool ChallengerError
  | IsGameSettled _ => result bool ChallengerError
  | CloseGame _ => result B256 ChallengerError
  end).

(** [BondManagerClient] extends [ResolutionManagerClient]. *)
Definition ManagerSig : Sig := ResolutionSig ⊕ OwnedSig.
Definition BondsSig : Sig := BondSig ⊕ ManagerSig.

Abbreviation ask c := (trigger (S := BondSig) (T := BondsSig) c).
Abbreviation ask_resolution c := (trigger (S := ResolutionSig) c).
Abbreviation ask_owned c := (trigger (S := OwnedSig) c).

(** ** The bond manager; its state is [next_game_index] *)

Definition scan_index (challenger : Address) (index : Z) (s : unit)
    : prog BondsSig (result unit ChallengerError * unit) :=
  do?[ s ] game <- ask (GameAddressAt index);
  match game with
  | None => Ret (Ok tt, s)
  | Some game =>
      do?[ s ] who <- ask (GameChallenger game);
      if who =? challenger then do _u <- ask_owned (OwnedInsert game); Ret (Ok tt, s)
      else Ret (Ok tt, s)
  end.

Definition scan_start (cfg : BondManagerConfig) (next : option Z) (game_count : Z) : Z :=
  match next with
  | Some next_game_index =>
      if next_game_index <=? game_count then next_game_index
      else saturating_sub game_count (bm_initial_scan_limit cfg)
  | None => saturating_sub game_count (bm_initial_scan_limit cfg)
  end.

Definition scan_games (cfg : BondManagerConfig) (challenger : Address) (next : option Z)
    : prog BondsSig (result unit ChallengerError * option Z) :=
  match bond_validate cfg with
  | Err e => Ret (Err e, next)
  | Ok _ =>
      do?[ next ] game_count <- ask GameCount;
      do rs <- for_each (scan_index challenger) (range (scan_start cfg next game_count) game_count) tt;
      Ret (match rs.1 with Ok _ => (Ok tt, Some game_count) | Err e => (Err e, next) end)
  end.

Definition settle_game (game : Address) : prog BondsSig (result bool ChallengerError) :=
  do? settled <- ask (IsGameSettled game);
  if settled : bool then Ret (Ok true)
  else
    do? st <- ask_resolution (ResolutionStatusOf game);
    if negb (is_resolved st) then Ret (Ok false)
    else
      do? finalized <- ask (IsGameFinalized game);
      if negb finalized then Ret (Ok false)
      else
        do? _submission <- ask (CloseGame game);
        Ret (Ok true).

Definition settle_step (game : Address) (s : unit) : prog BondsSig unit :=
  do r <- settle_game game;
  match r with
  | Ok true => ask_owned (OwnedRemove game)
  | _ => Ret tt
  end.

Definition settle_games : prog BondsSig unit :=
  do games <- ask_owned OwnedSnapshot;
  fold_prog settle_step games tt.

Definition bond_iteration (cfg : BondManagerConfig) (challenger : Address) (next : option Z)
    : prog BondsSig (option Z) :=
  do rs <- scan_games cfg challenger next;
  do _u <- settle_games;
  Ret (snd rs).

(** ** The resolution manager *)

Definition resolve_one (game : Address) : prog ManagerSig (result bool ChallengerError) :=
  do? st <- ask_resolution (ResolutionStatusOf game);
  if negb (resolvable st) then Ret (Ok false)
  else
    do? _submission <- ask_resolution (Resolve game);
    Ret (Ok true).

(** [n] is [resolutions_submitted], which only a successful submission
    increases. *)
Fixpoint resolve_loop (max_resolutions : nat) (games : list Address) (n : nat)
    : prog ManagerSig (result unit ChallengerError) :=
  match games with
  | [] => Ret (Ok tt)
  | game :: rest =>
      if Nat.leb max_resolutions n then Ret (Ok tt)
      else
        do r <- resolve_one game;
        resolve_loop max_resolutions rest (match r with Ok true => S n | _ => n end)
  end.

Definition resolve_games (cfg : ResolutionManagerConfig) : prog ManagerSig (result unit ChallengerError) :=
  match resolution_validate cfg with
  | Err e => Ret (Err e)
  | Ok _ =>
      do games <- ask_owned OwnedSnapshot;
      resolve_loop (rm_max_resolutions_per_tick cfg) (sort_by_key (fun g => g) games) 0
  end.

(** ** Settlement *)

(** The games a trace asks about, finds settled or closes, and forgets. *)
Definition asked_of (e : event BondsSig) : option Address :=
  match projT1 e with inl (IsGameSettled g) => Some g | _ => None end.
Definition finished_of (e : event BondsSig) : option Address :=
  match e with
  | existT (inl (IsGameSettled g)) (Ok true) => Some g
  | existT (inl (CloseGame g)) (Ok _) => Some g
  | _ => None
  end.
Definition removed_of (e : event BondsSig) : option Address :=
  match projT1 e with inr (inr (OwnedRemove g)) => Some g | _ => None end.

Definition may_close (games : list Address) (h : list (event BondsSig)) (g : Address) : Prop :=
  g ∈ games /\
  saw (S := BondSig) (IsGameSettled g) (Ok false) h /\
  saw (S := BondSig) (IsGameFinalized g) (Ok true) h /\
  exists st, saw (S := ResolutionSig) (ResolutionStatusOf g) (Ok st) h /\ is_resolved st = true.

Definition settle_allowed (games : list Address) (h : list (event BondsSig)) (e : event BondsSig)
    : Prop :=
  match projT1 e with
  | inl (CloseGame g) => may_close games h g
  | inr (inl (Resolve _)) => False
  | _ => True
  end.

Lemma challenger_settle_step_safe games g s t0 :
  g ∈ games ->
  safe (fun h => settle_allowed games (t0 ++ h)) (settle_step g s) (fun t _ =>
    omap asked_of t = [g] /\ omap removed_of t = omap finished_of t).
Proof.
  intros Hg. unfold settle_step, settle_game, trigger.
  sym_call [[]|e]; [done| | |by apply safe_ret].
  { sym_call []; [done|]. by apply safe_ret. }
  sym_call [st|e]; [done| |by apply safe_ret].
  destruct (is_resolved st) eqn:Hres; cbn [negb]; [|by apply safe_ret].
  sym_call [[]|e]; [done| |by apply safe_ret..]. cbn [negb].
  sym_call [tx|e]; [| |by apply safe_ret].
  - split; [done|]. split; [seen|]. split; [seen|]. exists st. split; [seen|done].
  - sym_call []; [done|]. by apply safe_ret.
Qed.

(** The loop invariant, with the games [l] of the snapshot still to come. *)
Definition settle_inv (games l : list Address) (t : list (event BondsSig)) (_ : unit) : Prop :=
  Forall (fun g => g ∈ games) l /\ omap asked_of t ++ l = games /\
  omap removed_of t = omap finished_of t.

(** A settlement pass asks once about every game of its snapshot of the
    shared set, closes only games of the snapshot that it has read as not
    settled, resolved and finalized, and forgets exactly the games it found
    settled or has closed.  It sends no resolution. *)
Theorem challenger_settlement tr u :
  runs settle_games tr u ->
  exists games, saw (S := OwnedSig) OwnedSnapshot games tr /\
    omap asked_of tr = games /\ omap removed_of tr = omap finished_of tr /\
    guarded (settle_allowed games) tr.
Proof.
  intros (games&tr'&->&H). cbn [bind prj sub_inr sub_refl] in H. exists games.
  split; [seen|].
  set (e0 := ev _ _).
  refine (match safe_fold (settle_allowed games) (settle_inv games) settle_step games tt [e0]
    _ _ tr' u H with conj Hg (conj _ (conj Hasked Hrem)) => _ end).
  { intros g l s t ([Hg Hl]%Forall_cons&Ha&Hr).
    eapply safe_conseq; [by apply (challenger_settle_step_safe games g s t)|done|].
    intros t' u' [Ha' Hr']. unfold settle_inv. by rewrite !omap_app, Ha', Hr, Hr', <-app_assoc. }
  { split_and!; [|done|done]. by apply Forall_forall. }
  split_and!; [by rewrite app_nil_r in Hasked|done|]. apply guarded_cons. split; [done|exact Hg].
Qed.

(** ** Discovery *)

Definition inspected (me : Address) (h : list (event BondsSig)) (i : Z) : Prop :=
  exists o, saw (S := BondSig) (GameAddressAt i) (Ok o) h /\
    match o with
    | None => True
    | Some g => exists who, saw (S := BondSig) (GameChallenger g) (Ok who) h /\
        (who = me -> saw (S := OwnedSig) (OwnedInsert g) tt h)
    end.

Lemma challenger_inspected_mono me h h' i : h ⊆ h' -> inspected me h i -> inspected me h' i.
Proof.
  intros Hs (o&Ho&Hg). exists o. split; [by eapply saw_mono|]. destruct o; [|done].
  destruct Hg as (who&?&?). exists who. split; [by eapply saw_mono|]. eauto using saw_mono.
Qed.

Definition scan_allowed (me : Address) (h : list (event BondsSig)) (e : event BondsSig) : Prop :=
  match projT1 e with
  | inr (inr (OwnedInsert g)) =>
      (exists i, saw (S := BondSig) (GameAddressAt i) (Ok (Some g)) h) /\
      saw (S := BondSig) (GameChallenger g) (Ok me) h
  | inr (inr (OwnedRemove _)) => False
  | _ => True
  end.

Lemma challenger_scan_index_safe me i s t0 :
  safe (fun h => scan_allowed me (t0 ++ h)) (scan_index me i s) (fun t rs =>
    match rs.1 with Ok _ => inspected me t i | Err _ => True end).
Proof.
  unfold scan_index, trigger. sym_call [[g|]|e]; [done| | |by apply safe_ret].
  2: { apply safe_ret. exists None. split; [seen|done]. }
  sym_call [who|e]; [done| |by apply safe_ret]. destruct (Z.eqb_spec who me) as [->|Hne].
  - sym_call []; [split; [exists i|]; seen|]. apply safe_ret. exists (Some g). split; [seen|].
    exists me. split; [seen|intros _; seen].
  - apply safe_ret. exists (Some g). split; [seen|]. exists who. split; [seen|done].
Qed.

(** A scan adds a game to the shared set only if the factory holds it and
    the game names this challenger; it removes none.  If it succeeds, every
    index of its range was inspected and its games of this challenger were
    added, and the cursor moves to the game count; if not, the cursor stays. *)
Theorem challenger_scan cfg me next tr r next' :
  runs (scan_games cfg me next) tr (r, next') ->
  guarded (scan_allowed me) tr /\
  match r with
  | Ok _ => exists count, saw (S := BondSig) GameCount (Ok count) tr /\ next' = Some count /\
      Forall (inspected me tr) (range (scan_start cfg next count) count)
  | Err _ => next' = next
  end.
Proof.
  unfold scan_games. destruct (bond_validate cfg); [|intros [-> [= -> ->]]; split; [apply guarded_nil|done]].
  intros (rep&tr'&->&H). cbn [bind bind_try_st prj sub_inl sub_refl] in H.
  destruct rep as [count|e].
  2: { destruct H as [-> [= -> ->]]. split; [|done]. apply guarded_cons. split; [done|apply guarded_nil]. }
  apply runs_bind in H as (t1&t2&rs&->&H&[-> Hout]). rewrite app_nil_r.
  set (l := range (scan_start cfg next count) count) in *.
  set (e0 := ev _ _).
  refine (match safe_for_each (scan_allowed me) (fun todo t _ => exists visited,
      l = visited ++ todo /\ Forall (inspected me t) visited) (fun _ _ _ => True)
      (scan_index me) l tt [e0] _ _ t1 rs H with conj Hg Hpost => _ end).
  { intros i todo s t (visited&Hl&Hv). eapply safe_conseq; [apply (challenger_scan_index_safe me i s t)|done|].
    intros t' [[u|e] s'] Hi; [|done]. exists (visited ++ [i]). rewrite <-app_assoc. split; [done|].
    apply Forall_app_2; [|constructor; [|constructor]].
    - eapply Forall_impl; [exact Hv|]. intros x. apply challenger_inspected_mono, subseteq_app_l.
    - eapply challenger_inspected_mono; [|exact Hi]. apply subseteq_app_r. }
  { by exists []. }
  split; [apply guarded_cons; split; [done|exact Hg]|].
  destruct rs as [[u|e] s']; injection Hout as -> ->; [|done].
  exists count. split; [seen|]. split; [done|]. destruct Hpost as (visited&Hl&Hv).
  rewrite app_nil_r in Hl. by subst visited.
Qed.

(** ** Resolution *)

Definition status_of (e : event ManagerSig) : option Address :=
  match projT1 e with inl (ResolutionStatusOf g) => Some g | _ => None end.
Definition resolved_of (e : event ManagerSig) : option Address :=
  match e with existT (inl (Resolve g)) (Ok _) => Some g | _ => None end.
Definition resolve_sent (e : event ManagerSig) : option Address :=
  match projT1 e with inl (Resolve g) => Some g | _ => None end.

Definition resolve_allowed (h : list (event ManagerSig)) (e : event ManagerSig) : Prop :=
  match projT1 e with
  | inl (Resolve g) =>
      exists st, saw (S := ResolutionSig) (ResolutionStatusOf g) (Ok st) h /\ resolvable st = true
  | inl (ResolutionStatusOf _) => True
  | inr OwnedSnapshot => True
  | inr _ => False
  end.

Lemma resolve_one_safe g t0 :
  safe (fun h => resolve_allowed (t0 ++ h)) (resolve_one g) (fun t r =>
    omap status_of t = [g] /\
    length (omap resolved_of t) = match r with Ok true => 1%nat | _ => 0%nat end).
Proof.
  unfold resolve_one, trigger. sym_call [st|e]; [done| |by apply safe_ret].
  destruct (resolvable st) eqn:Hr; cbn [negb]; [|by apply safe_ret].
  sym_call [tx|e]; [exists st; split; [seen|done]|by apply safe_ret..].
Qed.

Lemma resolution_loop_safe max games n t0 :
  (n <= max)%nat ->
  safe (fun h => resolve_allowed (t0 ++ h)) (resolve_loop max games n) (fun t _ =>
    exists rest, games = omap status_of t ++ rest /\
      (n + length (omap resolved_of t) <= max)%nat /\
      (rest = [] \/ n + length (omap resolved_of t) = max)%nat).
Proof.
  revert n t0. induction games as [|g games IH]; intros n t0 Hn; cbn [resolve_loop].
  { apply safe_ret. exists []. simpl. auto with lia. }
  destruct (Nat.leb_spec max n) as [Hle|Hlt].
  { apply safe_ret. exists (g :: games). simpl. split_and!; [done|lia|right; lia]. }
  eapply safe_bind; [apply resolve_one_safe|]. intros r t1 [Hs Hc].
  eapply safe_conseq; [apply (IH (match r with Ok true => S n | _ => n end) (t0 ++ t1))| |].
  - destruct r as [[]|]; lia.
  - shift_trace.
  - intros t _ (rest&->&H1&H2). exists rest. rewrite !omap_app, Hs, length_app, Hc.
    split; [done|]. destruct r as [[]|]; simpl in *; (split; [lia|]); destruct H2; auto with lia.
Qed.

(** A resolution pass visits the games of its snapshot in ascending order
    and sends a resolution only to a game it has just read as resolvable; at
    most [max_resolutions_per_tick] resolutions succeed, and it leaves games
    unvisited only when that number has been reached. *)
Theorem resolution_pass cfg tr u :
  runs (resolve_games cfg) tr (Ok u) ->
  guarded resolve_allowed tr /\
  exists games rest, saw (S := OwnedSig) OwnedSnapshot games tr /\
    sort_by_key (fun g => g) games = omap status_of tr ++ rest /\
    (length (omap resolved_of tr) <= rm_max_resolutions_per_tick cfg)%nat /\
    (rest = [] \/ length (omap resolved_of tr) = rm_max_resolutions_per_tick cfg).
Proof.
  unfold resolve_games. destruct (resolution_validate cfg); [|by intros [_ [=]]].
  intros (games&tr'&->&H). cbn [bind prj sub_inr sub_refl] in H.
  destruct (resolution_loop_safe _ _ 0 [ev (inr OwnedSnapshot : call ManagerSig) games] ltac:(lia) _ _ H)
    as [Hg (rest&Hrest&Hmax&Hor)].
  split; [apply guarded_cons; split; [done|exact Hg]|]. exists games, rest. split; [seen|]. auto.
Qed.

(** ** Concrete worlds *)

Definition bonds_world : handler BondsSig unit := fun c w =>
  match c with
  | inl GameCount => (Ok 4, w)
  | inl (GameAddressAt i) => (Ok (if i =? 1 then None else Some (20 + i)), w)
  | inl (GameChallenger g) => (Ok (if g =? 22 then 5 else 6), w)
  | inl (IsGameFinalized g) => (Ok (g =? 22), w)
  | inl (IsGameSettled g) => (Ok (g =? 23), w)
  | inl (CloseGame g) => (Ok g, w)
  | inr (inl (ResolutionStatusOf _)) =>
      (Ok {| status := ChallengerWins; resolvable := false; outcome := ChallengerWins;
             invalidation_reason := ProofTimeout |}, w)
  | inr (inl (Resolve _)) => (Err Overflow, w)
  | inr (inr (OwnedInsert _)) => (tt, w)
  | inr (inr (OwnedRemove _)) => (tt, w)
  | inr (inr OwnedSnapshot) => ([23; 20; 22], w)
  end.

Lemma challenger_settlement_witness :
  let tr := trace_of bonds_world settle_games tt in
  omap finished_of tr = [23; 22] /\
  exists games, saw (S := OwnedSig) OwnedSnapshot games tr /\
    omap asked_of tr = games /\ omap removed_of tr = omap finished_of tr /\
    guarded (settle_allowed games) tr.
Proof.
  split; [vm_compute; reflexivity|].
  exact (challenger_settlement _ _ (interp_runs bonds_world settle_games tt)).
Defined.

Lemma challenger_scan_witness :
  let tr := trace_of bonds_world (scan_games bond_default 5 (Some 2)) tt in
  guarded (scan_allowed 5) tr /\
  exists count, saw (S := BondSig) GameCount (Ok count) tr /\ Some 4 = Some count /\
    Forall (inspected 5 tr) (range (scan_start bond_default (Some 2) count) count).
Proof.
  exact (challenger_scan bond_default 5 (Some 2) _ (Ok tt) (Some 4)
    (interp_runs bonds_world (scan_games bond_default 5 (Some 2)) tt)).
Defined.

(** Every resolution of this world reverts. *)
Definition reverting_world : handler ManagerSig unit := fun c w =>
  match c with
  | inl (ResolutionStatusOf _) =>
      (Ok {| status := InProgress; resolvable := true; outcome := ChallengerWins;
             invalidation_reason := ProofTimeout |}, w)
  | inl (Resolve g) => (Err (Revert g), w)
  | inr OwnedSnapshot => ([33; 31; 32], w)
  | inr _ => (tt, w)
  end.

Definition reverting_trace : list (event ManagerSig) :=
  trace_of reverting_world (resolve_games resolution_default) tt.

Lemma resolution_pass_witness :
  guarded resolve_allowed reverting_trace /\
  exists games rest, saw (S := OwnedSig) OwnedSnapshot games reverting_trace /\
    sort_by_key (fun g => g) games = omap status_of reverting_trace ++ rest /\
    (length (omap resolved_of reverting_trace) <= 1)%nat /\
    (rest = [] \/ length (omap resolved_of reverting_trace) = 1%nat).
Proof.
  exact (resolution_pass resolution_default _ tt
    (interp_runs reverting_world (resolve_games resolution_default) tt)).
Defined.

(** The limit counts successes only: with [max_resolutions_per_tick = 1] a
    pass whose transactions revert submits one for every resolvable game. *)
Theorem resolution_limit_ignores_reverts :
  runs (resolve_games resolution_default) reverting_trace (Ok tt) /\
  rm_max_resolutions_per_tick resolution_default = 1%nat /\
  omap resolve_sent reverting_trace = [31; 32; 33].
Proof. split; [apply (interp_runs reverting_world)|]. split; vm_compute; reflexivity. Qed.
