(* ===== verification/ProverTypes.v ===== *)
(** * Data of the prover service
    ([src/proofs/services/prover-service/src/types.rs], [error.rs], [config.rs])

    The requests, statuses and responses that the defender, the workers and
    the service exchange, the text form of the statuses in the database, and
    the identifier of a request. *)

From S2P Require Import Prelude Encoding ProofTypes.

(** ** Backends and statuses with their text form *)

Inductive ProofBackend := Sp1 | Nitro.

Definition ProofBackend_as_str (b : ProofBackend) : string :=
  match b with Sp1 => "sp1" | Nitro => "nitro" end.

Definition ProofBackend_from_str (s : string) : result ProofBackend string :=
  if bool_decide (s = "sp1"%string) then Ok Sp1
  else if bool_decide (s = "nitro"%string) then Ok Nitro
  else Err s.

(** [backend as u8] *)
Definition backend_u8 (b : ProofBackend) : Z := match b with Sp1 => 0 | Nitro => 1 end.

Inductive ProofStatus := Created | Running | Succeeded | Failed | Cancelled.

Definition ProofStatus_as_str (s : ProofStatus) : string :=
  match s with
  | Created => "CREATED"
  | Running => "RUNNING"
  | Succeeded => "SUCCEEDED"
  | Failed => "FAILED"
  | Cancelled => "CANCELLED"
  end.

(** An unknown text is the error's argument; the code formats a message
    around it. *)
Definition ProofStatus_from_str (s : string) : result ProofStatus string :=
  if bool_decide (s = "CREATED"%string) then Ok Created
  else if bool_decide (s = "RUNNING"%string) then Ok Running
  else if bool_decide (s = "SUCCEEDED"%string) then Ok Succeeded
  else if bool_decide (s = "FAILED"%string) then Ok Failed
  else if bool_decide (s = "CANCELLED"%string) then Ok Cancelled
  else Err s.

Inductive ProofJobStatus := JPending | JClaimed | JSucceeded | JFailed.

Definition ProofJobStatus_as_str (s : ProofJobStatus) : string :=
  match s with
  | JPending => "PENDING"
  | JClaimed => "CLAIMED"
  | JSucceeded => "SUCCEEDED"
  | JFailed => "FAILED"
  end.

Definition ProofJobStatus_from_str (s : string) : result ProofJobStatus string :=
  if bool_decide (s = "PENDING"%string) then Ok JPending
  else if bool_decide (s = "CLAIMED"%string) then Ok JClaimed
  else if bool_decide (s = "SUCCEEDED"%string) then Ok JSucceeded
  else if bool_decide (s = "FAILED"%string) then Ok JFailed
  else Err s.

Inductive SessionType := Stark | Snark.

Definition SessionType_as_str (s : SessionType) : string :=
  match s with Stark => "STARK" | Snark => "SNARK" end.

Definition SessionType_from_str (s : string) : result SessionType string :=
  if bool_decide (s = "STARK"%string) then Ok Stark
  else if bool_decide (s = "SNARK"%string) then Ok Snark
  else Err s.

Inductive BackendSessionStatus := SSubmitting | SRunning | SCompleted | SFailed.

Definition BackendSessionStatus_as_str (s : BackendSessionStatus) : string :=
  match s with
  | SSubmitting => "SUBMITTING"
  | SRunning => "RUNNING"
  | SCompleted => "COMPLETED"
  | SFailed => "FAILED"
  end.

Definition BackendSessionStatus_from_str (s : string) : result BackendSessionStatus string :=
  if bool_decide (s = "SUBMITTING"%string) then Ok SSubmitting
  else if bool_decide (s = "RUNNING"%string) then Ok SRunning
  else if bool_decide (s = "COMPLETED"%string) then Ok SCompleted
  else if bool_decide (s = "FAILED"%string) then Ok SFailed
  else Err s.

Definition session_is_terminal (s : BackendSessionStatus) : bool :=
  match s with SCompleted | SFailed => true | _ => false end.

#[export] Instance ProofBackend_eq_dec : EqDecision ProofBackend.
Proof. solve_decision. Defined.
#[export] Instance ProofStatus_eq_dec : EqDecision ProofStatus.
Proof. solve_decision. Defined.
#[export] Instance ProofJobStatus_eq_dec : EqDecision ProofJobStatus.
Proof. solve_decision. Defined.
#[export] Instance SessionType_eq_dec : EqDecision SessionType.
Proof. solve_decision. Defined.
#[export] Instance BackendSessionStatus_eq_dec : EqDecision BackendSessionStatus.
Proof. solve_decision. Defined.

(** A type whose values are stored as text and read back. *)
Class TextColumn (A : Type) := {
  as_str : A -> string;
  from_str : string -> result A string;
  from_as_str : forall a, from_str (as_str a) = Ok a;
  as_from_str : forall s a, from_str s = Ok a -> s = as_str a
}.

(** Walks down the comparisons of a [from_str]. *)
Ltac text_cases := intros s a; repeat (case_bool_decide; [intros [= <-]; done|]); discriminate.

#[export] Instance ProofBackend_text : TextColumn ProofBackend.
Proof.
  refine {| as_str := ProofBackend_as_str; from_str := ProofBackend_from_str |};
    [by intros []|unfold ProofBackend_from_str; text_cases].
Defined.
#[export] Instance ProofStatus_text : TextColumn ProofStatus.
Proof.
  refine {| as_str := ProofStatus_as_str; from_str := ProofStatus_from_str |};
    [by intros []|unfold ProofStatus_from_str; text_cases].
Defined.
#[export] Instance ProofJobStatus_text : TextColumn ProofJobStatus.
Proof.
  refine {| as_str := ProofJobStatus_as_str; from_str := ProofJobStatus_from_str |};
    [by intros []|unfold ProofJobStatus_from_str; text_cases].
Defined.
#[export] Instance SessionType_text : TextColumn SessionType.
Proof.
  refine {| as_str := SessionType_as_str; from_str := SessionType_from_str |};
    [by intros []|unfold SessionType_from_str; text_cases].
Defined.
#[export] Instance BackendSessionStatus_text : TextColumn BackendSessionStatus.
Proof.
  refine {| as_str := BackendSessionStatus_as_str; from_str := BackendSessionStatus_from_str |};
    [by intros []|unfold BackendSessionStatus_from_str; text_cases].
Defined.

#[export] Instance as_str_inj `{!TextColumn A} : Inj (=) (=) (as_str (A := A)).
Proof.
  intros a b H. pose proof (from_as_str a) as Ha. rewrite H, from_as_str in Ha. by injection Ha.
Qed.

(** ** Requests *)

Record ProofRequest := {
  rq_backend : ProofBackend;
  rq_game : Address;
  rq_root_claim : B256;
  rq_l2_block_number : Z;
  rq_l1_head : B256;
  rq_verifier_id : B256;
  rq_range_vkey_commitment : option B256
}.

#[export] Instance ProofRequest_eq_dec : EqDecision ProofRequest.
Proof. solve_decision. Defined.

Definition request_preimage (r : ProofRequest) : bytes :=
  [backend_u8 (rq_backend r)] ++ be_bytes 20 (rq_game r) ++ be_bytes 32 (rq_root_claim r)
    ++ be_bytes 8 (rq_l2_block_number r) ++ be_bytes 32 (rq_l1_head r).

(** A [ProofRequestId] is a 32-byte word. *)
Definition request_id (keccak256 : bytes -> B256) (r : ProofRequest) : B256 :=
  keccak256 (request_preimage r).

Definition request_fields (r : ProofRequest) : Prop :=
  0 <= rq_game r < 2 ^ 160 /\ u256 (rq_root_claim r) /\ u64 (rq_l2_block_number r) /\
  u256 (rq_l1_head r).

(** ** Proofs and responses *)

Inductive ProofData :=
| Sp1Data (proof public_values : bytes)
| NitroData (attestation public_values signature : bytes).

#[export] Instance ProofData_eq_dec : EqDecision ProofData.
Proof. solve_decision. Defined.

Definition proof_backend (p : ProofData) : ProofBackend :=
  match p with Sp1Data _ _ => Sp1 | NitroData _ _ _ => Nitro end.

Record SucceededProofResponse := { sp_id : B256; sp_proof : ProofData }.

Inductive ProofResponse :=
| ResponseSucceeded (id : B256) (proof : ProofData)
| ResponseFailed (id : B256) (reason : string)
| ResponsePending (id : B256) (status : ProofStatus).

Record RequestProofResponse := { rp_proof_id : B256; rp_l1_head : B256 }.

Record BackendSession := { bs_backend_session_id : string; bs_status : BackendSessionStatus }.

Record LockedProofRequest := { lk_request : ProofRequest; lk_lock_id : Z }.

Record GetNextProofRequest := {
  gn_backend : ProofBackend;
  gn_worker_id : string;
  gn_verifier_id : B256;
  gn_range_vkey_commitment : option B256
}.

Record SubmitProofRequest := {
  sb_proof : SucceededProofResponse;
  sb_worker_id : string;
  sb_lock_id : Z
}.

Record RecordProofSessionRequest := {
  rs_proof_id : B256;
  rs_session_type : SessionType;
  rs_worker_id : string;
  rs_lock_id : Z;
  rs_backend_session_id : string;
  rs_status : BackendSessionStatus;
  rs_failure_reason : option string
}.

Record HeartbeatRequest := { hb_proof_id : B256; hb_worker_id : string; hb_lock_id : Z }.

(** ** Errors *)

Inductive ProofRequestError :=
| RSqlx (message : string)
| RowMissingAfterConflict (id : B256)
| RequestMismatch (id : B256)
| UnknownProofStatus (text : string)
| TooManyRetries (proof_id : B256) (max_retries : Z)
| RProofIdNotFound (id : B256)
| RProofEncoding (message : string)
| BlockNumberExceedsI64 (block : Z)
| RMalformedB256 (length : nat)
| RemoteInternal
| RemoteSqlx
| RpcRequestTimeout
| RpcTransport (message : string)
| RpcRestartNeeded (message : string)
| RpcServiceDisconnected
| RpcClient (message : string).

(** ** Configuration *)

Record ProverServiceConfig := {
  lock_timeout : Z;
  max_attempts : Z;
  max_retries : Z;
  backend_poll_interval : Z;
  status_poller_interval : Z
}.

Definition service_validate (c : ProverServiceConfig) : result unit string :=
  if lock_timeout c =? 0 then Err "lock_timeout must be greater than zero"%string
  else if max_attempts c =? 0 then Err "max_attempts must be greater than zero"%string
  else if max_retries c =? 0 then Err "max_retries must be greater than zero"%string
  else if backend_poll_interval c =? 0
  then Err "backend_poll_interval must be greater than zero"%string
  else if status_poller_interval c =? 0
  then Err "status_poller_interval must be greater than zero"%string
  else Ok tt.

Definition service_default : ProverServiceConfig :=
  {| lock_timeout := 30 * 60 * 1000; max_attempts := 3; max_retries := 3;
     backend_poll_interval := 30 * 1000; status_poller_interval := 30 * 1000 |}.

(** ** Identity of requests *)

Lemma backend_u8_inj b b' : backend_u8 b = backend_u8 b' -> b = b'.
Proof. by destruct b, b'. Qed.

Lemma request_preimage_inj r r' :
  request_fields r -> request_fields r' -> request_preimage r = request_preimage r' ->
  rq_backend r = rq_backend r' /\ rq_game r = rq_game r' /\
  rq_root_claim r = rq_root_claim r' /\ rq_l2_block_number r = rq_l2_block_number r' /\
  rq_l1_head r = rq_l1_head r'.
Proof.
  unfold request_fields, u64, u256, U64_MAX, U256_MAX. intros H H' Heq.
  unfold request_preimage in Heq.
  apply app_inj_1 in Heq as [[= Hb] Heq]; [|reflexivity].
  apply app_inj_1 in Heq as [Hg Heq]; [|by rewrite !be_bytes_length].
  apply app_inj_1 in Heq as [Hr Heq]; [|by rewrite !be_bytes_length].
  apply app_inj_1 in Heq as [Hn Hl]; [|by rewrite !be_bytes_length].
  apply backend_u8_inj in Hb. apply be_bytes_inj in Hg, Hr, Hn, Hl; try lia. done.
Qed.

(** Two requests share an identifier only if they ask the same backend to
    prove the same claim of the same game at the same block from the same L1
    head, or else they exhibit a collision of the hash function. *)
Theorem request_id_binds_statement keccak256 r r' :
  request_fields r -> request_fields r' -> request_id keccak256 r = request_id keccak256 r' ->
  (rq_backend r = rq_backend r' /\ rq_game r = rq_game r' /\
   rq_root_claim r = rq_root_claim r' /\ rq_l2_block_number r = rq_l2_block_number r' /\
   rq_l1_head r = rq_l1_head r') \/
  (request_preimage r <> request_preimage r' /\
   keccak256 (request_preimage r) = keccak256 (request_preimage r')).
Proof.
  intros H H' Hid. destruct (decide (request_preimage r = request_preimage r')) as [He|Hne].
  - left. by apply request_preimage_inj.
  - by right.
Qed.

Definition request_demo (l1_head : B256) : ProofRequest :=
  {| rq_backend := Nitro; rq_game := 7; rq_root_claim := 8; rq_l2_block_number := 9;
     rq_l1_head := l1_head; rq_verifier_id := 1; rq_range_vkey_commitment := None |}.

Lemma request_id_binds_statement_witness :
  (rq_backend (request_demo 3) = rq_backend (request_demo 3) /\
   rq_game (request_demo 3) = rq_game (request_demo 3) /\
   rq_root_claim (request_demo 3) = rq_root_claim (request_demo 3) /\
   rq_l2_block_number (request_demo 3) = rq_l2_block_number (request_demo 3) /\
   rq_l1_head (request_demo 3) = rq_l1_head (request_demo 3)) \/
  (request_preimage (request_demo 3) <> request_preimage (request_demo 3) /\
   be_val (request_preimage (request_demo 3)) = be_val (request_preimage (request_demo 3))).
Proof.
  assert (request_fields (request_demo 3)) as H
    by (unfold request_fields, u64, u256, U64_MAX, U256_MAX; simpl; lia).
  exact (request_id_binds_statement be_val (request_demo 3) (request_demo 3) H H eq_refl).
Defined.
