(* ===== verification/Defender.v ===== *)
(** * The defender ([src/proofs/services/defender/src])

    The defender rebuilds the proposer's lineage on each tick and drives proof
    lanes for the selected games that need support.  A lane is requested from
    the prover service, polled, and submitted on chain.  Defenses are kept
    between ticks; they are advanced concurrently. *)

From S2P Require Import Prelude Program Encoding ProofTypes Lineage ProverTypes.

(** ** Data *)

Inductive DefenderError :=
| InvalidConfig (message : string)
| Contract (message : string)
| PendingTransaction (message : string)
| Multicall (message : string)
| AlloyJsonRpc (message : string)
| FromLineage (error : LineageError)
| InvalidProposalStatus (error : ProposalStatusError)
| InvalidInvalidationReason (error : InvalidationReasonError)
| Revert (tx_hash : B256)
| LaneAlreadyProven (game : Address) (lane : ProofLane)
| Overflow
| InvalidProofThreshold (proof_threshold : Z) (game : Address)
| Permit (message : string).

Record GameMetadata := {
  dm_address : Address;
  dm_domain_hash : B256;
  dm_aggregation_vkey : B256;
  dm_range_vkey_commitment : B256;
  dm_tee_image_id : B256;
  dm_parent_ref : Address;
  dm_root_claim : B256;
  dm_l2_block_number : Z;
  dm_l1_origin_hash : B256;
  dm_l1_origin_number : Z;
  dm_challenge_deadline : Z;
  dm_proof_deadline : Z;
  dm_proof_threshold : Z
}.

#[export] Instance GameMetadata_eq_dec : EqDecision GameMetadata.
Proof. solve_decision. Defined.

Record DefenderConfig := {
  recovery_parent : option Address;
  poll_interval : Z;
  max_game_concurrency : nat
}.

Definition validate (c : DefenderConfig) : result unit DefenderError :=
  if poll_interval c =? 0 then Err (InvalidConfig "poll_interval must be greater than zero")
  else if Nat.eqb (max_game_concurrency c) 0
  then Err (InvalidConfig "max_game_concurrency must be greater than zero")
  else Ok tt.

Definition default_config : DefenderConfig :=
  {| recovery_parent := None; poll_interval := 60 * 1000; max_game_concurrency := 10 |}.

(** ** Interfaces *)

Inductive defender_call :=
| GetGameMetadata (game : Address)
| GetClaimData (game : Address)
| SubmitProof (game : Address) (lane : ProofLane) (proof : bytes).

Definition DefenderSig : Sig := MkSig defender_call (fun c =>
  match c with
  | GetGameMetadata _ => result GameMetadata DefenderError
  | GetClaimData _ => result ClaimData DefenderError
  | SubmitProof _ _ _ => result B256 DefenderError
  end).

(** The [ProofRequester] trait of the prover service. *)
Inductive requester_call :=
| RequestProof (request : ProofRequest)
| GetProofStatus (id : B256)
| GetProof (id : B256).

Definition RequesterSig : Sig := MkSig requester_call (fun c =>
  match c with
  | RequestProof _ => result RequestProofResponse ProofRequestError
  | GetProofStatus _ => result ProofStatus ProofRequestError
  | GetProof _ => result ProofResponse ProofRequestError
  end).

Definition TickSig : Sig := DefenderSig ⊕ RequesterSig ⊕ SelectSig.

Abbreviation client c := (trigger (S := DefenderSig) (T := TickSig) c).
Abbreviation requester c := (trigger (S := RequesterSig) (T := TickSig) c).
Definition from_lineage {A} (p : prog TickSig (result A LineageError))
    : prog TickSig (result A DefenderError) :=
  do r <- p; Ret (map_err FromLineage r).

(** ** Observation of a game *)

Inductive GameObservation :=
| Proposed (proof_bitmap : Z) (has_initial_support : bool)
| ObsChallenged (proof_bitmap : Z) (has_required_support : bool)
| Finalized
| ObsInvalidated (reason : InvalidationReason)
| Unset.

Definition observe (game : GameMetadata) : prog TickSig (result GameObservation DefenderError) :=
  do? st <- from_lineage (lineage (LineageResolutionStatus (dm_address game)));
  match outcome st with
  | DefenderWins => Ret (Ok Finalized)
  | ChallengerWins => Ret (Ok (ObsInvalidated (invalidation_reason st)))
  | InProgress =>
      do? claim <- client (GetClaimData (dm_address game));
      let proof_bitmap := claim_proof_bitmap claim in
      Ret (Ok (match claim_status claim with
               | Unchallenged | UnchallengedAndValidProofProvided =>
                   Proposed proof_bitmap (has_sufficient_proof_support (claim_status claim))
               | Challenged | ChallengedAndValidProofProvided =>
                   ObsChallenged proof_bitmap (has_sufficient_proof_support (claim_status claim))
               | Resolved => Unset
               end))
  end.

Definition needs_defense (game : GameMetadata) (now : Z) : prog TickSig (result bool DefenderError) :=
  do? obs <- observe game;
  Ret (Ok (match obs with
           | Proposed _ has_initial_support =>
               negb has_initial_support && (now <? dm_challenge_deadline game)
           | ObsChallenged _ has_required_support =>
               negb has_required_support && (now <? dm_proof_deadline game)
           | Finalized | ObsInvalidated _ | Unset => false
           end)).

(** ** Lanes *)

Definition DEFENDED_LANES : list (ProofLane * ProofBackend) :=
  [(TeeAttestation, Nitro); (ValidityProof, Sp1)].

Inductive LaneState :=
| LanePending
| LaneRequested (id : B256)
| LaneProven
| LaneAbandoned.

#[export] Instance LaneState_eq_dec : EqDecision LaneState.
Proof. solve_decision. Defined.

Definition is_terminal (s : LaneState) : bool :=
  match s with LaneProven | LaneAbandoned => true | _ => false end.

Definition proof_request (game : GameMetadata) (backend : ProofBackend) : ProofRequest :=
  let '(verifier_id, range_vkey_commitment) :=
    match backend with
    | Sp1 => (dm_aggregation_vkey game, Some (dm_range_vkey_commitment game))
    | Nitro => (dm_tee_image_id game, None)
    end in
  {| rq_backend := backend; rq_game := dm_address game; rq_root_claim := dm_root_claim game;
     rq_l2_block_number := dm_l2_block_number game; rq_l1_head := dm_l1_origin_hash game;
     rq_verifier_id := verifier_id; rq_range_vkey_commitment := range_vkey_commitment |}.

Definition verifier_payload (proof : ProofData) : bytes :=
  match proof with
  | Sp1Data proof _ => proof
  | NitroData _ _ signature => signature
  end.

Definition request_pending_lane (metadata : GameMetadata) (backend : ProofBackend)
    : prog TickSig LaneState :=
  do r <- requester (RequestProof (proof_request metadata backend));
  Ret (match r with
       | Ok response => LaneRequested (rp_proof_id response)
       | Err (TooManyRetries _ _) => LaneAbandoned
       | Err _ => LanePending
       end).

Definition submit_succeeded_lane (metadata : GameMetadata) (lane : ProofLane) (id : B256)
    (state : LaneState) : prog TickSig LaneState :=
  do r <- requester (GetProof id);
  match r with
  | Ok (ResponseSucceeded _ proof) =>
      do s <- client (SubmitProof (dm_address metadata) lane (verifier_payload proof));
      Ret (match s with
           | Ok _ => LaneProven
           | Err (LaneAlreadyProven _ _) => LaneProven
           | Err _ => state
           end)
  | _ => Ret state
  end.

Definition retry_lane (metadata : GameMetadata) (backend : ProofBackend) (state : LaneState)
    : prog TickSig LaneState :=
  do r <- requester (RequestProof (proof_request metadata backend));
  Ret (match r with
       | Ok response => LaneRequested (rp_proof_id response)
       | Err (TooManyRetries _ _) => LaneAbandoned
       | Err _ => state
       end).

Definition advance_requested_lane (metadata : GameMetadata) (lane : ProofLane)
    (backend : ProofBackend) (id : B256) : prog TickSig LaneState :=
  let state := LaneRequested id in
  do r <- requester (GetProofStatus id);
  match r with
  | Err _ => Ret state
  | Ok (Created | Running) => Ret state
  | Ok Succeeded => submit_succeeded_lane metadata lane id state
  | Ok (Failed | Cancelled) => retry_lane metadata backend state
  end.

Definition advance_lane (metadata : GameMetadata) (lane : ProofLane) (backend : ProofBackend)
    (state : LaneState) : prog TickSig LaneState :=
  match state with
  | LaneProven | LaneAbandoned => Ret state
  | LanePending => request_pending_lane metadata backend
  | LaneRequested id => advance_requested_lane metadata lane backend id
  end.

(** ** Defenses *)

(** [lanes] is the two-element array indexed like [DEFENDED_LANES]. *)
Record ActiveDefense := { ad_game : GameMetadata; ad_lanes : list LaneState }.

Definition new_defense (game : GameMetadata) : ActiveDefense :=
  {| ad_game := game; ad_lanes := [LanePending; LanePending] |}.

Inductive DefenseProgress :=
| Closed
| Complete
| DeadlineElapsed
| Lanes (lanes : list LaneState) (sufficient_support_submitted : bool).

Fixpoint effective_loop (slots : list (ProofLane * ProofBackend)) (lanes : list LaneState) (bitmap : Z)
    : Z :=
  match slots, lanes with
  | (proof_lane, _) :: slots', st :: lanes' =>
      effective_loop slots' lanes'
        (if bool_decide (st = LaneProven) then Z.lor bitmap (mask proof_lane) else bitmap)
  | _, _ => bitmap
  end.

Definition effective_proof_bitmap (proof_bitmap : Z) (lanes : list LaneState) : Z :=
  effective_loop DEFENDED_LANES lanes proof_bitmap.

(** The [for] loop of [advance_defense] over the lanes and their slots. *)
Fixpoint drive_lanes (metadata : GameMetadata) (proof_bitmap : Z) (tee_only : bool)
    (slots : list (ProofLane * ProofBackend)) (lanes : list LaneState) (lanes_needed : Z)
    : prog TickSig (list LaneState) :=
  match slots, lanes with
  | (proof_lane, backend) :: slots', st :: lanes' =>
      if negb (Z.land proof_bitmap (mask proof_lane) =? 0) then
        do rest <- drive_lanes metadata proof_bitmap tee_only slots' lanes' lanes_needed;
        Ret (LaneProven :: rest)
      else if tee_only && negb (bool_decide (proof_lane = TeeAttestation)) then
        do rest <- drive_lanes metadata proof_bitmap tee_only slots' lanes' lanes_needed;
        Ret (st :: rest)
      else if bool_decide (st = LaneProven) || (lanes_needed =? 0) then
        do rest <- drive_lanes metadata proof_bitmap tee_only slots' lanes' lanes_needed;
        Ret (st :: rest)
      else
        do st' <- advance_lane metadata proof_lane backend st;
        let lanes_needed' :=
          if bool_decide (st' <> LaneAbandoned) then lanes_needed - 1 else lanes_needed in
        do rest <- drive_lanes metadata proof_bitmap tee_only slots' lanes' lanes_needed';
        Ret (st' :: rest)
  | _, _ => Ret lanes
  end.

(** The part of [advance_defense] after the observation. *)
Definition support_game (defense : ActiveDefense) (now proof_bitmap deadline required_support : Z)
    (tee_only : bool) : prog TickSig (result DefenseProgress DefenderError) :=
  if deadline <=? now then Ret (Ok DeadlineElapsed)
  else
    let lanes_needed := saturating_sub required_support
      (proof_count (effective_proof_bitmap proof_bitmap (ad_lanes defense))) in
    do lanes <- drive_lanes (ad_game defense) proof_bitmap tee_only DEFENDED_LANES
                  (ad_lanes defense) lanes_needed;
    Ret (Ok (Lanes lanes
      (required_support <=? proof_count (effective_proof_bitmap proof_bitmap lanes)))).

Definition advance_defense (defense : ActiveDefense) (now : Z)
    : prog TickSig (result DefenseProgress DefenderError) :=
  let metadata := ad_game defense in
  do? obs <- observe metadata;
  match obs with
  | Finalized => Ret (Ok Complete)
  | ObsInvalidated reason =>
      Ret (Ok (if bool_decide (reason = ProofTimeout) then DeadlineElapsed else Closed))
  | Proposed proof_bitmap has_initial_support =>
      if has_initial_support : bool then Ret (Ok Complete)
      else support_game defense now proof_bitmap (dm_challenge_deadline metadata) 1 true
  | ObsChallenged proof_bitmap has_required_support =>
      if has_required_support : bool then Ret (Ok Complete)
      else support_game defense now proof_bitmap (dm_proof_deadline metadata)
             (dm_proof_threshold metadata) false
  | Unset => Ret (Ok Closed)
  end.

(** ** The state of the defender *)

Record Defender := {
  active_defenses : gmap Address ActiveDefense;
  abandoned_defenses : gmap Address Z
}.

Definition new : Defender := {| active_defenses := ∅; abandoned_defenses := ∅ |}.

Definition set_active (f : gmap Address ActiveDefense -> gmap Address ActiveDefense) (s : Defender)
    : Defender := {| active_defenses := f (active_defenses s);
                     abandoned_defenses := abandoned_defenses s |}.

Fixpoint metadata_loop (games : list SelectedLineageGame) (acc : list GameMetadata)
    : prog TickSig (result (list GameMetadata) DefenderError) :=
  match games with
  | [] => Ret (Ok acc)
  | selected :: rest =>
      do? metadata <- client (GetGameMetadata (lg_address (slg_game selected)));
      metadata_loop rest (acc ++ [metadata])
  end.

Definition selected_lineage (cfg : DefenderConfig) (block_interval : Z)
    : prog TickSig (result (list GameMetadata) DefenderError) :=
  do? lin <- from_lineage (lift (select_lineage block_interval (recovery_parent cfg)));
  metadata_loop (sl_games lin) [].

(** The two [retain]s of [sync_defenses_with_selected_lineage]. *)
Definition retain_selected (selected : list GameMetadata) (now : Z) (s : Defender) : Defender :=
  let selected_addresses : gset Address := list_to_set (map dm_address selected) in
  {| active_defenses := base.filter (fun kv => kv.1 ∈ selected_addresses) (active_defenses s);
     abandoned_defenses := base.filter (fun kv => kv.1 ∈ selected_addresses /\ now < kv.2)
                             (abandoned_defenses s) |}.

Definition start_defense (now : Z) (game : GameMetadata) (s : Defender)
    : prog TickSig (result unit DefenderError * Defender) :=
  if bool_decide (is_Some (active_defenses s !! dm_address game))
     || bool_decide (is_Some (abandoned_defenses s !! dm_address game))
  then Ret (Ok tt, s)
  else
    do?[ s ] needed <- needs_defense game now;
    Ret (Ok tt, if needed : bool then set_active (insert (dm_address game) (new_defense game)) s else s).

Definition sync_defenses_with_selected_lineage (selected : list GameMetadata) (now : Z) (s : Defender)
    : prog TickSig (result unit DefenderError * Defender) :=
  for_each (start_defense now) selected (retain_selected selected now s).

Definition Progress : Type := list (ActiveDefense * result DefenseProgress DefenderError).

(** [values()] lists the defenses in an order of the hash map's choice. *)
Definition scan_active_defenses (cfg : DefenderConfig) (now : Z) (s : Defender)
    : comp TickSig Progress := fun tr out =>
  exists values : list ActiveDefense, values ≡ₚ (map_to_list (active_defenses s)).*2 /\
    buffer_unordered (max_game_concurrency cfg)
      (map (fun d => (d, advance_defense d now)) values) tr out.

(** [get_mut] followed by the assignment of the lanes. *)
Definition set_lanes (game : Address) (lanes : list LaneState) : Defender -> Defender :=
  set_active (alter (fun d => {| ad_game := ad_game d; ad_lanes := lanes |}) game).

Definition handle_one (dr : ActiveDefense * result DefenseProgress DefenderError) (s : Defender)
    : Defender :=
  let '(defense, r) := dr in
  let game := dm_address (ad_game defense) in
  match r with
  | Ok Closed | Ok Complete | Ok DeadlineElapsed => set_active (delete game) s
  | Ok (Lanes lanes sufficient_support_submitted) =>
      if forallb (fun l => bool_decide (l = LaneProven)) lanes then set_active (delete game) s
      else if sufficient_support_submitted : bool then set_lanes game lanes s
      else if forallb is_terminal lanes then
        {| active_defenses := delete game (active_defenses s);
           abandoned_defenses := <[game := dm_proof_deadline (ad_game defense)]> (abandoned_defenses s) |}
      else set_lanes game lanes s
  | Err _ => s
  end.

Definition handle_defense_progress (results : Progress) (s : Defender) : Defender :=
  foldl (fun s dr => handle_one dr s) s results.

Definition tick_at (cfg : DefenderConfig) (block_interval now : Z) (s : Defender)
    : comp TickSig (result unit DefenderError * Defender) :=
  match validate cfg with
  | Err e => runs (Ret (Err e, s))
  | Ok _ =>
      cbind (runs (do r <- selected_lineage cfg block_interval;
                   match r with
                   | Err e => Ret (Err e, s)
                   | Ok selected => sync_defenses_with_selected_lineage selected now s
                   end)) (fun '(r, s) =>
      match r with
      | Err e => runs (Ret (Err e, s))
      | Ok _ =>
          cbind (scan_active_defenses cfg now s) (fun progress =>
          runs (Ret (Ok tt, handle_defense_progress progress s)))
      end)
  end.

(** ** One lane *)

Abbreviation trace := (list (event TickSig)).

(** What a lane of [m] may call, from the state [st]: a request is the game's
    own, made when there is none or after a failure; a submission is the
    payload of the proof that the service returned for the lane's request. *)
Definition lane_allowed (m : GameMetadata) (lane : ProofLane) (backend : ProofBackend)
    (st : LaneState) (h : trace) (e : event TickSig) : Prop :=
  match projT1 e with
  | inl (inr (RequestProof q)) =>
      q = proof_request m backend /\
      (st = LanePending \/ exists id s, st = LaneRequested id /\ (s = Failed \/ s = Cancelled) /\
         saw (S := RequesterSig) (GetProofStatus id) (Ok s) h)
  | inl (inl (SubmitProof g l payload)) =>
      g = dm_address m /\ l = lane /\
      exists id id' proof, st = LaneRequested id /\
        saw (S := RequesterSig) (GetProofStatus id) (Ok Succeeded) h /\
        saw (S := RequesterSig) (GetProof id) (Ok (ResponseSucceeded id' proof)) h /\
        payload = verifier_payload proof
  | inl (inl (GetGameMetadata _)) | inl (inl (GetClaimData _)) => False
  | _ => True
  end.

(** How a lane may move. *)
Definition lane_moves (m : GameMetadata) (lane : ProofLane) (backend : ProofBackend)
    (st st' : LaneState) (h : trace) : Prop :=
  match st' with
  | LanePending => st = LanePending
  | LaneRequested id => st = LaneRequested id \/
      exists resp, rp_proof_id resp = id /\
        saw (S := RequesterSig) (RequestProof (proof_request m backend)) (Ok resp) h
  | LaneProven => st = LaneProven \/
      exists payload r,
        saw (S := DefenderSig) (SubmitProof (dm_address m) lane payload) r h /\
        (is_ok r = true \/ exists g l, r = Err (LaneAlreadyProven g l))
  | LaneAbandoned => st = LaneAbandoned \/
      exists id n, saw (S := RequesterSig) (RequestProof (proof_request m backend))
        (Err (TooManyRetries id n)) h
  end.

(** Proofs submitted and requests accepted. *)
Definition spends (e : event TickSig) : nat :=
  match e with
  | existT (inl (inl (SubmitProof _ _ _))) _ => 1
  | existT (inl (inr (RequestProof _))) (Ok _) => 1
  | _ => 0
  end.
Definition spent (h : trace) : nat := sum_list_with spends h.

Lemma spent_app h h' : spent (h ++ h') = (spent h + spent h')%nat.
Proof. apply sum_list_with_app. Qed.

(** The end of a lane's run: its move is left to show. *)
Ltac end_lane := apply safe_ret; split; [|split; [cbn; lia|first [discriminate|done]]].

Lemma request_lane_safe m lane backend st t0 :
  st = LanePending \/ (exists id s, st = LaneRequested id /\ (s = Failed \/ s = Cancelled) /\
    saw (S := RequesterSig) (GetProofStatus id) (Ok s) t0) ->
  spent t0 = 0%nat ->
  safe (fun h => lane_allowed m lane backend st (t0 ++ h)) (retry_lane m backend st)
    (fun t st' => lane_moves m lane backend st st' (t0 ++ t) /\
       (spent (t0 ++ t) <= 1)%nat /\ (st' = LaneAbandoned -> spent (t0 ++ t) = 0%nat)).
Proof.
  intros Hst H0. unfold retry_lane, trigger. sym_call [resp|err].
  - split; [done|]. destruct Hst as [?|(id&s&?&?&?)]; [by left|right]. exists id, s.
    eauto using saw_app_l.
  - apply safe_ret. rewrite spent_app, H0. split; [|split; [cbn; lia|done]].
    right. exists resp. split; [done|seen].
  - assert (forall h, lane_moves m lane backend st st h) as Hsame
      by (intros h; destruct st; try done; by left).
    destruct err; apply safe_ret; rewrite spent_app, H0; (split; [|split; [cbn; lia|done]]);
      try apply Hsame. right. eexists _, _. seen.
Qed.

Lemma advance_lane_safe m lane backend st :
  safe (lane_allowed m lane backend st) (advance_lane m lane backend st) (fun t st' =>
    lane_moves m lane backend st st' t /\
    (spent t <= 1)%nat /\ (st' = LaneAbandoned -> spent t = 0%nat)).
Proof.
  destruct st as [|id| |]; cbn [advance_lane].
  - apply (request_lane_safe m lane backend LanePending []); [by left|done].
  - unfold advance_requested_lane, submit_succeeded_lane, trigger.
    sym_call [[]|e]; [done|end_lane; by left|end_lane; by left| | | |end_lane; by left].
    + sym_call [[id' proof|id' reason|id' s]|e]; [done| |end_lane; by left..].
      sym_call [tx|err].
      * split_and!; [done|done|]. exists id, id', proof. split_and!; [done|seen|seen|done].
      * end_lane. right. exists (verifier_payload proof), (Ok tx). split; [seen|by left].
      * destruct err; end_lane; try (by left).
        right. eexists _, _. split; [seen|right; eauto].
    + apply (request_lane_safe m lane backend (LaneRequested id)
        [ev (inl (inr (GetProofStatus id)) : call TickSig) (Ok Failed)]); [|done].
      right. exists id, Failed. split_and!; [done|by left|seen].
    + apply (request_lane_safe m lane backend (LaneRequested id)
        [ev (inl (inr (GetProofStatus id)) : call TickSig) (Ok Cancelled)]); [|done].
      right. exists id, Cancelled. split_and!; [done|by right|seen].
  - end_lane. by left.
  - end_lane. by left.
Qed.

(** ** The lanes of one game *)

Lemma lane_moves_mono m lane b st st' h h' :
  h ⊆ h' -> lane_moves m lane b st st' h -> lane_moves m lane b st st' h'.
Proof.
  intros Hs. destruct st'; simpl; [done| | |].
  - intros [?|(resp&?&?)]; [by left|right]. eauto using saw_mono.
  - intros [?|(p&r&?&?)]; [by left|right]. eauto using saw_mono.
  - intros [?|(id&n&?)]; [by left|right]. eauto using saw_mono.
Qed.

(** Calls for the lanes of [m] whose bit is not set in [bm]; only the TEE lane
    if [tee]. *)
Definition support_allowed (m : GameMetadata) (bm : Z) (tee : bool) (h : trace) (e : event TickSig)
    : Prop :=
  match projT1 e with
  | inl (inr (RequestProof q)) =>
      exists lane b, (lane, b) ∈ DEFENDED_LANES /\ lane_set bm lane = false /\
        (tee = true -> lane = TeeAttestation) /\ q = proof_request m b
  | inl (inl (SubmitProof g lane payload)) =>
      g = dm_address m /\ lane_set bm lane = false /\ (tee = true -> lane = TeeAttestation) /\
      exists id id' proof,
        saw (S := RequesterSig) (GetProofStatus id) (Ok Succeeded) h /\
        saw (S := RequesterSig) (GetProof id) (Ok (ResponseSucceeded id' proof)) h /\
        payload = verifier_payload proof
  | _ => True
  end.

Lemma lane_support m bm tee lane b st h h' e :
  (lane, b) ∈ DEFENDED_LANES -> lane_set bm lane = false -> (tee = true -> lane = TeeAttestation) ->
  h ⊆ h' -> lane_allowed m lane b st h e -> support_allowed m bm tee h' e.
Proof.
  intros Hin Hset Htee Hs. destruct e as [[[[]|[]]|[]] r]; try done; simpl.
  - intros (->&->&id&id'&pf&_&?&?&->). split_and!; [done..|]. exists id, id', pf.
    eauto using saw_mono.
  - intros [-> _]. by exists lane, b.
Qed.

(** How the slots of a defense may change. *)
Definition slot_moves (m : GameMetadata) (bm : Z) (h : trace) (lb : ProofLane * ProofBackend)
    (st st' : LaneState) : Prop :=
  (st' = LaneProven /\ lane_set bm lb.1 = true) \/ lane_moves m lb.1 lb.2 st st' h.

Lemma slots_mono m bm h h' slots lanes lanes' :
  h ⊆ h' -> Forall3 (slot_moves m bm h) slots lanes lanes' ->
  Forall3 (slot_moves m bm h') slots lanes lanes'.
Proof.
  intros Hs. induction 1 as [|lb st st' ??? Hm _ IH]; constructor; [|done].
  destruct Hm; [by left|right]. by eapply lane_moves_mono.
Qed.

Lemma lane_moves_refl m lane b st h : lane_moves m lane b st st h.
Proof. destruct st; try done; by left. Qed.

Lemma drive_lanes_safe m bm tee slots lanes n t0 :
  slots ⊆ DEFENDED_LANES -> length slots = length lanes -> 0 <= n ->
  safe (fun h => support_allowed m bm tee (t0 ++ h)) (drive_lanes m bm tee slots lanes n)
    (fun t lanes' => Forall3 (slot_moves m bm t) slots lanes lanes' /\ Z.of_nat (spent t) <= n).
Proof.
  revert lanes n t0. induction slots as [|[lane b] slots IH]; intros [|st lanes] n t0 Hsub Hlen Hn;
    try discriminate; cbn [drive_lanes].
  { apply safe_ret. split; [constructor|simpl; lia]. }
  assert (slots ⊆ DEFENDED_LANES) as Hsub' by set_solver. injection Hlen as Hlen.
  assert (forall st', (forall t, slot_moves m bm t (lane, b) st st') ->
    safe (fun h => support_allowed m bm tee (t0 ++ h))
      (do rest <- drive_lanes m bm tee slots lanes n; Ret (st' :: rest))
      (fun t lanes' => Forall3 (slot_moves m bm t) ((lane, b) :: slots) (st :: lanes) lanes' /\
         Z.of_nat (spent t) <= n)) as Hskip.
  { intros st' Hst'. eapply safe_bind; [by apply IH|]. intros rest t1 [Hf Hsp].
    apply safe_ret. rewrite app_nil_r. split; [|done]. constructor; [apply Hst'|done]. }
  rewrite land_mask, negb_involutive. destruct (lane_set bm lane) eqn:Hset; [apply Hskip; by left|].
  destruct (tee && negb (bool_decide (lane = TeeAttestation))) eqn:Htee;
    [apply Hskip; right; apply lane_moves_refl|].
  destruct (bool_decide (st = LaneProven) || (n =? 0)) eqn:Hdone;
    [apply Hskip; right; apply lane_moves_refl|].
  apply orb_false_iff in Hdone as [_ Hn0%Z.eqb_neq]. eapply safe_bind.
  { eapply safe_conseq; [apply (advance_lane_safe m lane b st)| |intros t st' H; exact H].
    intros h e. apply lane_support; [set_solver|done| |set_solver].
    intros ->. simpl in Htee. apply negb_false_iff, bool_decide_eq_true in Htee. done. }
  intros st' t1 (Hmove&Hsp&Hab). cbv beta zeta. clear Htee Hskip.
  eapply safe_bind; [eapply safe_conseq; [apply (IH lanes
    (if bool_decide (st' <> LaneAbandoned) then n - 1 else n) (t0 ++ t1))| |intros t r H; exact H]|].
  1, 2: done. { case_bool_decide; lia. } { shift_trace. }
  intros rest t2 [Hf Hsp2]. apply safe_ret. rewrite app_nil_r. split.
  - constructor; [right; eapply lane_moves_mono; [|exact Hmove]; apply subseteq_app_l|].
    eapply slots_mono; [|exact Hf]. apply subseteq_app_r.
  - rewrite spent_app. case_bool_decide as Hne; [lia|]. destruct (decide (st' = LaneAbandoned)) as [->|];
      [rewrite (Hab eq_refl); lia|by destruct Hne].
Qed.

(** ** One defense *)

(** The game was read in this tick as in progress and short of support, with
    the lanes [bm] proven, and its deadline lies ahead. *)
Definition lacks_support (now : Z) (h : trace) (m : GameMetadata) (bm : Z) (challenged : bool) : Prop :=
  exists st claim,
    saw (S := LineageSig) (LineageResolutionStatus (dm_address m)) (Ok st) h /\
    outcome st = InProgress /\
    saw (S := DefenderSig) (GetClaimData (dm_address m)) (Ok claim) h /\
    claim_status claim = (if challenged then Challenged else Unchallenged) /\
    claim_proof_bitmap claim = bm /\
    now < (if challenged then dm_proof_deadline m else dm_challenge_deadline m).

(** The game needs no defense (any more). *)
Definition settled (now : Z) (h : trace) (m : GameMetadata) : Prop :=
  exists st, saw (S := LineageSig) (LineageResolutionStatus (dm_address m)) (Ok st) h /\
    (outcome st <> InProgress \/
     exists claim, saw (S := DefenderSig) (GetClaimData (dm_address m)) (Ok claim) h /\
       (has_sufficient_proof_support (claim_status claim) = true \/ claim_status claim = Resolved \/
        dm_challenge_deadline m <= now \/ dm_proof_deadline m <= now)).

Definition needed (m : GameMetadata) (bm : Z) (challenged : bool) (lanes : list LaneState) : Z :=
  saturating_sub (if challenged then dm_proof_threshold m else 1)
    (proof_count (effective_proof_bitmap bm lanes)).

(** Requests and submissions; the other calls only read. *)
Definition acts (e : event TickSig) : bool :=
  match projT1 e with
  | inl (inr (RequestProof _)) | inl (inl (SubmitProof _ _ _)) => true
  | _ => false
  end.

Definition defense_allowed (now : Z) (m : GameMetadata) (h : trace) (e : event TickSig) : Prop :=
  acts e = true -> exists bm challenged,
    lacks_support now h m bm challenged /\ support_allowed m bm (negb challenged) h e.

Definition defense_post (now : Z) (d : ActiveDefense) (t : trace)
    (r : result DefenseProgress DefenderError) : Prop :=
  match r with
  | Ok (Lanes lanes' sufficient) => exists bm challenged,
      lacks_support now t (ad_game d) bm challenged /\
      Forall3 (slot_moves (ad_game d) bm t) DEFENDED_LANES (ad_lanes d) lanes' /\
      Z.of_nat (spent t) <= needed (ad_game d) bm challenged (ad_lanes d)
  | Ok _ => settled now t (ad_game d) /\ spent t = 0%nat
  | Err _ => spent t = 0%nat
  end.

Lemma lacks_support_mono now h h' m bm ch :
  h ⊆ h' -> lacks_support now h m bm ch -> lacks_support now h' m bm ch.
Proof. intros Hs (st&claim&?&?&?&?&?&?). exists st, claim. eauto 10 using saw_mono. Qed.

Lemma settled_mono now h h' m : h ⊆ h' -> settled now h m -> settled now h' m.
Proof.
  intros Hs (st&?&[?|(claim&?&?)]); exists st; (split; [by eapply saw_mono|]); [by left|right].
  exists claim. eauto using saw_mono.
Qed.

Lemma saturating_sub_nonneg a b : 0 <= saturating_sub a b.
Proof. unfold saturating_sub. lia. Qed.

(** What the two calls of an observation establish. *)
Definition observed (h : trace) (m : GameMetadata) (obs : GameObservation) : Prop :=
  exists st, saw (S := LineageSig) (LineageResolutionStatus (dm_address m)) (Ok st) h /\
    match obs with
    | Finalized => outcome st = DefenderWins
    | ObsInvalidated reason => outcome st = ChallengerWins /\ invalidation_reason st = reason
    | Proposed bm support => outcome st = InProgress /\
        exists claim, saw (S := DefenderSig) (GetClaimData (dm_address m)) (Ok claim) h /\
          claim_proof_bitmap claim = bm /\ has_sufficient_proof_support (claim_status claim) = support /\
          (support = false -> claim_status claim = Unchallenged)
    | ObsChallenged bm support => outcome st = InProgress /\
        exists claim, saw (S := DefenderSig) (GetClaimData (dm_address m)) (Ok claim) h /\
          claim_proof_bitmap claim = bm /\ has_sufficient_proof_support (claim_status claim) = support /\
          (support = false -> claim_status claim = Challenged)
    | Unset => outcome st = InProgress /\
        exists claim, saw (S := DefenderSig) (GetClaimData (dm_address m)) (Ok claim) h /\
          claim_status claim = Resolved
    end.

Lemma observe_safe (P : trace -> event TickSig -> Prop) m :
  (forall h e, acts e = false -> P h e) ->
  safe P (observe m) (fun t r =>
    Forall (fun e => acts e = false) t /\ match r with Ok obs => observed t m obs | Err _ => True end).
Proof.
  intros HP. unfold observe, from_lineage, lineage, trigger.
  sym_call [st|e]; [by apply HP| |apply safe_ret; by repeat constructor].
  destruct (outcome st) eqn:Ho.
  - sym_call [claim|e]; [by apply HP| |apply safe_ret; by repeat constructor].
    apply safe_ret. split; [by repeat constructor|]. exists st.
    assert (forall h, saw (S := LineageSig) (T := TickSig) (LineageResolutionStatus (dm_address m)) (Ok st)
      (ev (inr (inl (LineageResolutionStatus (dm_address m))) : call TickSig) (Ok st) :: h)) as Hst
      by (intros; seen).
    destruct (claim_status claim) eqn:Hc; (split; [apply Hst|split; [done|]]); exists claim;
      rewrite ?Hc; split_and?; try done; seen.
  - apply safe_ret. split; [by repeat constructor|]. exists st. split; [seen|done].
  - apply safe_ret. split; [by repeat constructor|]. exists st. split; [seen|done].
Qed.

Lemma quiet_spent t : Forall (fun e => acts e = false) t -> spent t = 0%nat.
Proof.
  induction 1 as [|[[[[]|[]]|c] r] t He _ IH]; simpl in *; try discriminate; try done; by destruct r.
Qed.

Lemma support_game_safe d now bm ch t0 :
  length (ad_lanes d) = 2%nat -> spent t0 = 0%nat ->
  (now < (if ch : bool then dm_proof_deadline (ad_game d) else dm_challenge_deadline (ad_game d)) ->
   lacks_support now t0 (ad_game d) bm ch) ->
  ((if ch : bool then dm_proof_deadline (ad_game d) else dm_challenge_deadline (ad_game d)) <= now ->
   settled now t0 (ad_game d)) ->
  safe (fun h => defense_allowed now (ad_game d) (t0 ++ h))
    (support_game d now bm (if ch : bool then dm_proof_deadline (ad_game d) else dm_challenge_deadline (ad_game d))
       (if ch : bool then dm_proof_threshold (ad_game d) else 1) (negb ch))
    (fun t r => defense_post now d (t0 ++ t) r).
Proof.
  intros Hlen Hsp Hlack Hset. unfold support_game.
  destruct (Z.leb_spec (if ch then dm_proof_deadline (ad_game d) else dm_challenge_deadline (ad_game d)) now).
  { apply safe_ret. rewrite app_nil_r. split; [by apply Hset|done]. }
  specialize (Hlack H). eapply safe_bind.
  - eapply safe_conseq; [apply (drive_lanes_safe (ad_game d) bm (negb ch) DEFENDED_LANES _ _ t0);
      [done|done|apply saturating_sub_nonneg]| |intros t r Hr; exact Hr].
    intros h e He _. exists bm, ch. split; [|done].
    eapply lacks_support_mono; [|exact Hlack]. apply subseteq_app_l.
  - intros lanes' t1 [Hf Hn]. apply safe_ret. rewrite app_nil_r. exists bm, ch. split_and!.
    + eapply lacks_support_mono; [|exact Hlack]. apply subseteq_app_l.
    + eapply slots_mono; [|exact Hf]. apply subseteq_app_r.
    + rewrite spent_app, Hsp. exact Hn.
Qed.

Lemma advance_defense_safe d now :
  length (ad_lanes d) = 2%nat ->
  safe (defense_allowed now (ad_game d)) (advance_defense d now)
    (fun t r => defense_post now d t r).
Proof.
  intros Hlen. unfold advance_defense. eapply safe_bind_try.
  { apply observe_safe. intros h e He. unfold defense_allowed. by rewrite He. }
  { intros e t [Hq _]. by apply quiet_spent. }
  intros obs t1 [Hq%quiet_spent (st&Hst&Hobs)].
  assert (forall r, (settled now t1 (ad_game d) -> defense_post now d t1 (Ok r)) ->
    outcome st <> InProgress \/ (exists claim, saw (S := DefenderSig)
      (GetClaimData (dm_address (ad_game d))) (Ok claim) t1 /\
       (has_sufficient_proof_support (claim_status claim) = true \/ claim_status claim = Resolved)) ->
    safe (fun h => defense_allowed now (ad_game d) (t1 ++ h)) (Ret (Ok r))
      (fun t2 b => defense_post now d (t1 ++ t2) b)) as Hover.
  { intros r Hr Hor. apply safe_ret. rewrite app_nil_r. apply Hr. exists st. split; [done|].
    destruct Hor as [?|(claim&?&[?|?])]; [by left|right..]; exists claim; auto. }
  destruct obs as [bm support|bm support| |reason|]; simpl in Hobs.
  - destruct Hobs as (Ho&claim&Hc&Hbm&Hsup&Hun). destruct support; [apply Hover; eauto; done|].
    apply (support_game_safe d now bm false t1 Hlen Hq); intros Hnow.
    + exists st, claim. auto 10.
    + exists st. split; [done|right]. exists claim. auto.
  - destruct Hobs as (Ho&claim&Hc&Hbm&Hsup&Hun). destruct support; [apply Hover; eauto; done|].
    apply (support_game_safe d now bm true t1 Hlen Hq); intros Hnow.
    + exists st, claim. auto 10.
    + exists st. split; [done|right]. exists claim. auto.
  - apply Hover; [done|]. left. congruence.
  - destruct Hobs as [Ho _]. apply Hover; [by case_bool_decide|]. left. congruence.
  - destruct Hobs as (_&claim&?&?). apply Hover; [done|]. eauto.
Qed.

Lemma support_allowed_mono m bm tee h h' e :
  h ⊆ h' -> support_allowed m bm tee h e -> support_allowed m bm tee h' e.
Proof.
  intros Hs. destruct e as [[[[]|[]]|[]] r]; try done; simpl.
  intros (?&?&?&id&id'&pf&?&?&?). split_and!; [done..|]. exists id, id', pf. eauto using saw_mono.
Qed.

(** ** The state between ticks *)

Definition def_inv (s : Defender) : Prop :=
  map_Forall (fun a d => dm_address (ad_game d) = a /\ length (ad_lanes d) = 2%nat) (active_defenses s) /\
  forall a, is_Some (active_defenses s !! a) -> abandoned_defenses s !! a = None.

Lemma new_inv : def_inv new.
Proof. split; [apply map_Forall_empty|]. intros a [d Hd]. done. Qed.

Section tick.
Context (cfg : DefenderConfig) (I now : Z) (s0 : Defender).

(** The data of a game: read in this tick, or kept with its defense. *)
Definition known_game (h : trace) (m : GameMetadata) : Prop :=
  (exists g, saw (S := DefenderSig) (GetGameMetadata g) (Ok m) h) \/
  (exists a d, active_defenses s0 !! a = Some d /\ ad_game d = m).

(** The game [g] is on the lineage selected in this tick. *)
Definition in_lineage (h : trace) (g : Address) : Prop :=
  exists lin sg m, selected h I (recovery_parent cfg) lin /\ sg ∈ sl_games lin /\
    saw (S := DefenderSig) (GetGameMetadata (lg_address (slg_game sg))) (Ok m) h /\ dm_address m = g.

Definition tick_allowed (h : trace) (e : event TickSig) : Prop :=
  acts e = true -> exists m bm challenged,
    known_game h m /\ in_lineage h (dm_address m) /\
    lacks_support now h m bm challenged /\ support_allowed m bm (negb challenged) h e.

Lemma known_game_mono h h' m : h ⊆ h' -> known_game h m -> known_game h' m.
Proof. intros Hs [[g ?]|?]; [left; eauto using saw_mono|by right]. Qed.

Lemma in_lineage_mono h h' g : h ⊆ h' -> in_lineage h g -> in_lineage h' g.
Proof.
  intros Hs (lin&sg&m&?&?&?&?). exists lin, sg, m.
  split_and!; [by eapply selected_mono|done|by eapply saw_mono|done].
Qed.

Lemma tick_allowed_monotone : monotone tick_allowed.
Proof.
  intros h h' e Hs He Ha. destruct (He Ha) as (m&bm&ch&?&?&?&?). exists m, bm, ch.
  split_and!; [by eapply known_game_mono|by eapply in_lineage_mono|by eapply lacks_support_mono|].
  by eapply support_allowed_mono.
Qed.

(** *** Selection *)

Definition metadata_of (h : trace) (sg : SelectedLineageGame) (m : GameMetadata) : Prop :=
  saw (S := DefenderSig) (GetGameMetadata (lg_address (slg_game sg))) (Ok m) h.

Lemma metadata_loop_safe (P : trace -> event TickSig -> Prop) games acc :
  (forall h e, acts e = false -> P h e) ->
  safe P (metadata_loop games acc) (fun t r =>
    match r with
    | Ok out => exists ms, out = acc ++ ms /\ Forall2 (metadata_of t) games ms
    | Err _ => True
    end).
Proof.
  intros HP. revert P acc HP. induction games as [|sg games IH]; intros P acc HP; cbn [metadata_loop].
  { apply safe_ret. exists []. rewrite app_nil_r. split; [done|constructor]. }
  unfold trigger. sym_call [m|e]; [by apply HP| |by apply safe_ret].
  eapply safe_conseq; [by apply (IH (fun _ e => acts e = false))|by intros; apply HP|].
  intros t [out|e]; [|done].
  intros (ms&->&Hf). exists (m :: ms). rewrite <-app_assoc. split; [done|]. constructor; [seen|].
  eapply Forall2_impl; [exact Hf|]. intros x y. apply saw_mono, subseteq_cons_r.
Qed.

Lemma selected_lineage_safe (P : trace -> event TickSig -> Prop) :
  0 <= I -> (forall h e, acts e = false -> P h e) ->
  safe P (selected_lineage cfg I) (fun t r =>
    match r with
    | Ok ms => exists lin, selected t I (recovery_parent cfg) lin /\ Forall2 (metadata_of t) (sl_games lin) ms
    | Err _ => True
    end).
Proof.
  intros HI HP. unfold selected_lineage, from_lineage. eapply safe_bind_try.
  - eapply safe_bind; [apply (safe_lift (S := SelectSig)); intros; by apply HP|].
    intros r t1 (tr0&He&Hr). apply safe_ret. rewrite app_nil_r.
    instantiate (1 := fun t r => match r with
      | Ok lin => selected t I (recovery_parent cfg) lin | Err _ => True end).
    destruct r as [lin|]; simpl; [|done]. eapply selected_inr; [exact He|].
    by apply select_lineage_selected.
  - done.
  - intros lin t1 Hsel. eapply safe_conseq;
      [by apply (metadata_loop_safe (fun _ e => acts e = false))|by intros; apply HP|].
    intros t [out|e]; [|done]. intros (ms&->&Hf). exists lin. split.
    + eapply selected_mono; [|exact Hsel]. apply subseteq_app_l.
    + eapply Forall2_impl; [exact Hf|]. intros x y. apply saw_mono, subseteq_app_r.
Qed.

(** *** Starting defenses *)

Definition sync_inv (ms todo : list GameMetadata) (t : trace) (s : Defender) : Prop :=
  todo ⊆ ms /\ def_inv s /\
  map_Forall (fun a d => a ∈ map dm_address ms /\
    (active_defenses s0 !! a = Some d \/ ad_game d ∈ ms)) (active_defenses s) /\
  (forall a d, a ∈ map dm_address ms -> active_defenses s0 !! a = Some d ->
     active_defenses s !! a = Some d) /\
  abandoned_defenses s = abandoned_defenses (retain_selected ms now s0).

Lemma retain_inv ms t : def_inv s0 -> sync_inv ms ms t (retain_selected ms now s0).
Proof.
  intros [Hk Hd]. split_and!; simpl; [done| | | |done].
  - split; simpl.
    + intros a d [Ha _]%map_lookup_filter_Some. by apply Hk.
    + intros a [d [Ha _]%map_lookup_filter_Some]. apply map_lookup_filter_None. left. eauto.
  - intros a d [Ha Hin]%map_lookup_filter_Some. simpl in Hin.
    apply elem_of_list_to_set in Hin. auto.
  - intros a d Ha Hs. apply map_lookup_filter_Some. split; [done|]. simpl.
    by apply elem_of_list_to_set.
Qed.

Lemma start_defense_safe (P : trace -> event TickSig -> Prop) ms m todo t s :
  (forall h e, acts e = false -> P h e) -> sync_inv ms (m :: todo) t s ->
  safe P (start_defense now m s) (fun t' rs =>
    match rs.1 with Ok _ => sync_inv ms todo (t ++ t') rs.2 | Err _ => def_inv rs.2 end).
Proof.
  intros HP (Hsub&[Hk Hd]&Hact&Hkeep&Hab). unfold start_defense.
  assert (forall t', sync_inv ms todo t' s) as Hsame by (intros; split_and!; [set_solver|done..]).
  destruct (_ || _) eqn:Hskip; [apply safe_ret, Hsame|].
  apply orb_false_iff in Hskip as [Ha%bool_decide_eq_false Hb%bool_decide_eq_false].
  apply eq_None_not_Some in Ha, Hb. unfold needs_defense.
  eapply (safe_bind _ _ _ (fun _ _ => True)).
  - eapply safe_bind_try; [apply observe_safe, HP|done|]. intros obs t1 _.
    destruct obs; by apply safe_ret.
  - intros [b|e] t1 _; apply safe_ret; [|done]. cbn [fst snd]. destruct b; [|apply Hsame].
    split_and!; [set_solver| | | |done].
    + split; simpl.
      * by apply map_Forall_insert_2.
      * intros a [<- |[_ [d Hd']]]%lookup_insert_is_Some; [done|]. apply Hd. eauto.
    + apply map_Forall_insert_2; [|done]. simpl. split; [|right; set_solver].
      apply list_elem_of_fmap_2. set_solver.
    + intros a d Ha' Hs. simpl. rewrite lookup_insert_ne; [by apply Hkeep|].
      intros <-. rewrite (Hkeep _ _ Ha' Hs) in Ha. done.
Qed.

Lemma sync_safe ms t :
  def_inv s0 ->
  safe (fun _ e => acts e = false) (sync_defenses_with_selected_lineage ms now s0) (fun t' rs =>
    match rs.1 with Ok _ => sync_inv ms [] (t ++ t') rs.2 | Err _ => def_inv rs.2 end).
Proof.
  intros H0. apply (safe_for_each (fun _ e => acts e = false) (sync_inv ms) (fun _ s _ => def_inv s)
    (start_defense now) ms (retain_selected ms now s0) t).
  - intros m todo s t1. by apply start_defense_safe.
  - by apply retain_inv.
Qed.

(** *** Settling the progress *)

(** All lanes of the defense have been proven, as the chain or an accepted
    submission told. *)
Definition all_proven (h : trace) (d : ActiveDefense) : Prop :=
  exists bm challenged, lacks_support now h (ad_game d) bm challenged /\
    Forall2 (fun lb st => lane_set bm lb.1 = true \/ lane_moves (ad_game d) lb.1 lb.2 st LaneProven h)
      DEFENDED_LANES (ad_lanes d).

(** The lanes moved to [lanes], all terminal, at least one abandoned. *)
Definition gave_up (h : trace) (d : ActiveDefense) : Prop :=
  exists bm challenged lanes, lacks_support now h (ad_game d) bm challenged /\
    Forall3 (slot_moves (ad_game d) bm h) DEFENDED_LANES (ad_lanes d) lanes /\
    Forall (fun l => is_terminal l = true) lanes /\ LaneAbandoned ∈ lanes.

Definition settle_inv (h : trace) (s1 s : Defender) : Prop :=
  def_inv s /\
  (forall a d, active_defenses s !! a = Some d ->
     exists d1, active_defenses s1 !! a = Some d1 /\ ad_game d = ad_game d1) /\
  (forall a d, active_defenses s1 !! a = Some d ->
     is_Some (active_defenses s !! a) \/ is_Some (abandoned_defenses s !! a) \/
     settled now h (ad_game d) \/ all_proven h d) /\
  (forall a dl, abandoned_defenses s !! a = Some dl ->
     abandoned_defenses s1 !! a = Some dl \/
     exists d, active_defenses s1 !! a = Some d /\ dl = dm_proof_deadline (ad_game d) /\ gave_up h d).

Lemma delete_settle h s1 s a d :
  settle_inv h s1 s -> active_defenses s1 !! a = Some d ->
  settled now h (ad_game d) \/ all_proven h d -> settle_inv h s1 (set_active (delete a) s).
Proof.
  intros ([Hk Hd]&Hfrom&Hcov&Hab) Ha Hend. split_and!; simpl; [split; simpl| | |done].
  - by apply map_Forall_delete.
  - intros b [Hne Hb]%lookup_delete_is_Some. by apply Hd.
  - intros b d' [_ Hb]%lookup_delete_Some. by apply Hfrom.
  - intros b d' Hb. destruct (decide (a = b)) as [<-|Hne]; [simplify_eq; auto|].
    rewrite lookup_delete_ne by done. by apply Hcov.
Qed.

Lemma set_lanes_settle h s1 s a lanes :
  settle_inv h s1 s -> length lanes = 2%nat -> settle_inv h s1 (set_lanes a lanes s).
Proof.
  intros ([Hk Hd]&Hfrom&Hcov&Hab) Hlen. unfold set_lanes. split_and!; simpl; [split; simpl| | |done].
  - intros b d [(<-&d'&Hb&->)|[_ Hb]]%lookup_alter_Some; simpl; [|by apply Hk].
    split; [by apply (Hk a d')|done].
  - intros b. rewrite lookup_alter_is_Some. by apply Hd.
  - intros b d [(<-&d'&Hb&->)|[_ Hb]]%lookup_alter_Some; [by apply (Hfrom a d')|by apply Hfrom].
  - intros b d Hb. rewrite lookup_alter_is_Some. by apply Hcov.
Qed.

Lemma abandon_settle h s1 s a d :
  settle_inv h s1 s -> active_defenses s1 !! a = Some d -> gave_up h d ->
  settle_inv h s1 {| active_defenses := delete a (active_defenses s);
    abandoned_defenses := <[a := dm_proof_deadline (ad_game d)]> (abandoned_defenses s) |}.
Proof.
  intros ([Hk Hd]&Hfrom&Hcov&Hab) Ha Hend. split_and!; simpl; [split; simpl| | |].
  - by apply map_Forall_delete.
  - intros b [Hne Hb]%lookup_delete_is_Some. rewrite lookup_insert_ne by done. by apply Hd.
  - intros b d' [_ Hb]%lookup_delete_Some. by apply Hfrom.
  - intros b d' Hb. destruct (decide (a = b)) as [<-|Hne]; [rewrite lookup_insert_eq; eauto|].
    rewrite lookup_delete_ne, lookup_insert_ne by done. by apply Hcov.
  - intros b dl [[<- <-]|[_ Hb]]%lookup_insert_Some; [eauto|by apply Hab].
Qed.

(** A result of the scan, with the run it comes from. *)
Definition progress_of (h : trace) (s1 : Defender) (dr : ActiveDefense * result DefenseProgress DefenderError)
    : Prop :=
  active_defenses s1 !! dm_address (ad_game dr.1) = Some dr.1 /\
  exists t, t ⊆ h /\ defense_post now dr.1 t dr.2.

Lemma proven_slots m bm h slots lanes lanes' :
  Forall3 (slot_moves m bm h) slots lanes lanes' ->
  Forall (fun l => l = LaneProven) lanes' ->
  Forall2 (fun lb st => lane_set bm lb.1 = true \/ lane_moves m lb.1 lb.2 st LaneProven h) slots lanes.
Proof.
  induction 1 as [|lb st st' ??? Hm _ IH]; [constructor|]. intros [-> Hall]%Forall_cons.
  constructor; [|by apply IH]. destruct Hm as [[_ ?]|?]; [by left|by right].
Qed.

Lemma terminal_abandoned lanes :
  Forall (fun l => is_terminal l = true) lanes -> ~ Forall (fun l => l = LaneProven) lanes ->
  LaneAbandoned ∈ lanes.
Proof.
  induction 1 as [|l lanes Hl _ IH]; intros Hn; [by destruct Hn|].
  destruct l; try discriminate; [|by left]. right. apply IH. intros Hp. apply Hn. by constructor.
Qed.

Lemma handle_one_settle h s1 s dr :
  settle_inv h s1 s -> progress_of h s1 dr -> settle_inv h s1 (handle_one dr s).
Proof.
  intros Hinv. destruct dr as [d [p|e]]; [|done]. intros (Ha&t&Hsub&Hpost). simpl in *.
  destruct p as [| | |lanes sufficient].
  1-3: apply delete_settle with (d := d); [done..|]; left; by eapply settled_mono, Hpost.
  destruct Hpost as (bm&ch&Hlack%(lacks_support_mono _ _ h)&Hslots%(slots_mono _ _ _ h)&_); [|done..].
  assert (length lanes = 2%nat) as Hlen by by apply Forall3_length_lr in Hslots.
  destruct (forallb (fun l => bool_decide (l = LaneProven)) lanes) eqn:Hp.
  { apply delete_settle with (d := d); [done..|]. right. exists bm, ch. split; [done|].
    eapply proven_slots; [exact Hslots|]. apply Forall_forall. intros l Hl%list_elem_of_In.
    rewrite forallb_forall in Hp. by apply Hp, bool_decide_eq_true in Hl. }
  destruct sufficient; [by apply set_lanes_settle|].
  destruct (forallb is_terminal lanes) eqn:Ht; [|by apply set_lanes_settle].
  apply abandon_settle; [done..|]. exists bm, ch, lanes.
  assert (Forall (fun l => is_terminal l = true) lanes).
  { apply Forall_forall. intros l Hl%list_elem_of_In. rewrite forallb_forall in Ht. by apply Ht. }
  split_and!; [done..|]. apply terminal_abandoned; [done|]. intros Hall.
  apply not_true_iff_false in Hp. apply Hp, forallb_forall. intros l Hl%list_elem_of_In.
  apply bool_decide_eq_true. by apply (Forall_forall (fun l => l = LaneProven) lanes).
Qed.

Lemma handle_progress_settle h s1 rs s :
  settle_inv h s1 s -> Forall (progress_of h s1) rs ->
  settle_inv h s1 (handle_defense_progress rs s).
Proof.
  intros Hinv Hrs. unfold handle_defense_progress. revert s Hinv.
  induction Hrs as [|dr rs Hdr _ IH]; intros s Hinv; [done|]. simpl. apply IH.
  by apply handle_one_settle.
Qed.

Lemma settle_inv_refl h s : def_inv s -> settle_inv h s s.
Proof. intros Hi. split_and!; [done|eauto|eauto|eauto]. Qed.

(** *** A tick *)

Definition tick_post (h : trace) (r : result unit DefenderError) (s' : Defender) : Prop :=
  def_inv s' /\
  (r = Ok tt -> exists lin ms,
     selected h I (recovery_parent cfg) lin /\ Forall2 (metadata_of h) (sl_games lin) ms /\
     (forall a d, active_defenses s' !! a = Some d ->
        a ∈ map dm_address ms /\ known_game h (ad_game d)) /\
     (forall a d, a ∈ map dm_address ms -> active_defenses s0 !! a = Some d ->
        is_Some (active_defenses s' !! a) \/ is_Some (abandoned_defenses s' !! a) \/
        settled now h (ad_game d) \/ all_proven h d) /\
     (forall a dl, abandoned_defenses s' !! a = Some dl ->
        (abandoned_defenses s0 !! a = Some dl /\ a ∈ map dm_address ms /\ now < dl) \/
        exists d, dm_address (ad_game d) = a /\ known_game h (ad_game d) /\
          dl = dm_proof_deadline (ad_game d) /\ gave_up h d)).

Lemma selected_in_lineage h lin ms a :
  selected h I (recovery_parent cfg) lin -> Forall2 (metadata_of h) (sl_games lin) ms ->
  a ∈ map dm_address ms -> in_lineage h a.
Proof.
  intros Hsel Hf (m&->&Hm)%list_elem_of_fmap. apply list_elem_of_lookup in Hm as [i Hi].
  destruct (Forall2_lookup_r _ _ _ _ _ Hf Hi) as (sg&Hsg&Hmeta). exists lin, sg, m.
  split_and!; [done|by eapply list_elem_of_lookup_2|done|done].
Qed.

Lemma synced_known h lin ms s a d :
  Forall2 (metadata_of h) (sl_games lin) ms -> sync_inv ms [] h s ->
  active_defenses s !! a = Some d -> known_game h (ad_game d).
Proof.
  intros Hf (_&_&Hact&_) Ha. destruct (Hact _ _ Ha) as [_ [Hs|Hm]]; [right; eauto|left].
  apply list_elem_of_lookup in Hm as [i Hi].
  destruct (Forall2_lookup_r _ _ _ _ _ Hf Hi) as (sg&_&?). by eexists.
Qed.

Lemma metadata_of_mono h h' games ms :
  h ⊆ h' -> Forall2 (metadata_of h) games ms -> Forall2 (metadata_of h') games ms.
Proof. intros Hs Hf. eapply Forall2_impl; [exact Hf|]. intros sg m. by apply saw_mono. Qed.

Lemma defenses_scan_safe t0 lin ms s :
  selected t0 I (recovery_parent cfg) lin -> Forall2 (metadata_of t0) (sl_games lin) ms ->
  sync_inv ms [] t0 s ->
  csafe (fun h => tick_allowed (t0 ++ h)) (scan_active_defenses cfg now s)
    (fun tr out => Forall (progress_of (t0 ++ tr) s) out).
Proof.
  intros Hsel Hf Hsync tr out (values&Hperm&Hbuf).
  assert (forall d, d ∈ values -> active_defenses s !! dm_address (ad_game d) = Some d /\
    length (ad_lanes d) = 2%nat) as Hvals.
  { intros d. rewrite Hperm. intros ([a d']&->&Hin)%list_elem_of_fmap.
    apply elem_of_map_to_list in Hin. destruct Hsync as (_&[Hk _]&_).
    destruct (Hk _ _ Hin) as [<- ?]. done. }
  apply (csafe_pool _ tick_allowed_monotone _ _ t0) in Hbuf as (Hg&_&Hruns).
  - split; [done|]. apply Forall_forall. intros [d r] Hin.
    destruct (Hruns _ _ Hin) as (p&t&(d'&[= <- ->]&Hd)%list_elem_of_fmap&Hr&Hsub).
    destruct (Hvals _ Hd) as [Ha Hlen]. split; [done|]. exists t. split; [set_solver|].
    by apply (advance_defense_safe d now Hlen) in Hr as [_ ?].
  - intros [? ?] (d&[= -> ->]&Hd)%list_elem_of_fmap t r Hr. simpl in Hr.
    destruct (Hvals _ Hd) as [Ha Hlen]. apply (advance_defense_safe d now Hlen) in Hr as [Hg _].
    eapply guarded_impl; [|exact Hg]. intros h e _ Hal Hact.
    destruct (Hal Hact) as (bm&ch&Hlack&Hsup). exists (ad_game d), bm, ch.
    assert (in_lineage t0 (dm_address (ad_game d))) as Hlin.
    { eapply selected_in_lineage; [done..|]. destruct Hsync as (_&_&Hs&_). by eapply Hs. }
    split_and!.
    + eapply known_game_mono; [apply subseteq_app_l|]. by eapply synced_known.
    + eapply in_lineage_mono; [apply subseteq_app_l|done].
    + eapply lacks_support_mono; [apply subseteq_app_r|done].
    + eapply support_allowed_mono; [apply subseteq_app_r|done].
Qed.

Lemma finish_tick t0 tr lin ms s rs :
  selected t0 I (recovery_parent cfg) lin -> Forall2 (metadata_of t0) (sl_games lin) ms ->
  sync_inv ms [] t0 s -> Forall (progress_of (t0 ++ tr) s) rs ->
  tick_post (t0 ++ tr) (Ok tt) (handle_defense_progress rs s).
Proof.
  intros Hsel Hf Hsync Hrs. pose proof Hsync as (_&Hinv&Hact&Hkeep&Hab).
  destruct (handle_progress_settle (t0 ++ tr) s rs s) as (Hinv'&Hfrom&Hcov&Hgave);
    [by apply settle_inv_refl|done|].
  assert (t0 ⊆ t0 ++ tr) as Hsub by apply subseteq_app_l.
  assert (forall a d, active_defenses s !! a = Some d -> known_game (t0 ++ tr) (ad_game d)) as Hknown.
  { intros a d Ha. eapply known_game_mono; [done|]. by eapply synced_known. }
  split; [done|]. intros _. exists lin, ms. split_and!.
  - by eapply selected_mono.
  - by eapply metadata_of_mono.
  - intros a d Ha. destruct (Hfrom _ _ Ha) as (d1&Ha1&->). split; [by eapply Hact|by eapply Hknown].
  - intros a d Hin Ha. by apply Hcov, Hkeep.
  - intros a dl Ha. destruct (Hgave _ _ Ha) as [Hold|(d&Hd&->&?)].
    + left. rewrite Hab in Hold. apply map_lookup_filter_Some in Hold as [? [Hin ?]].
      split_and!; [done| |done]. by apply elem_of_list_to_set in Hin.
    + right. exists d. split_and!; [|by eapply Hknown|done|done]. by apply (proj1 Hinv).
Qed.

Lemma defender_tick_csafe :
  0 <= I -> def_inv s0 ->
  csafe tick_allowed (tick_at cfg I now s0) (fun tr rs => tick_post tr rs.1 rs.2).
Proof.
  intros HI H0. unfold tick_at. destruct (validate cfg); [|by apply csafe_ret].
  assert (forall h e, acts e = false -> tick_allowed h e) as Hquiet.
  { intros h e He Ha. by rewrite He in Ha. }
  eapply csafe_cbind; [apply csafe_runs; eapply safe_bind; [by apply selected_lineage_safe|]|].
  - intros [ms|e] t1 Hsel.
    + eapply safe_conseq; [by apply (sync_safe ms t1)|by intros; apply Hquiet|].
      intros t [r s] H. cbn [fst snd] in *.
      instantiate (1 := fun t rs => match rs.1 with
        | Ok _ => exists lin ms, selected t I (recovery_parent cfg) lin /\
            Forall2 (metadata_of t) (sl_games lin) ms /\ sync_inv ms [] t rs.2
        | Err _ => def_inv rs.2 end). cbn [fst snd]. destruct r; [|done].
      destruct Hsel as (lin&?&?). exists lin, ms.
      split_and!; [eapply selected_mono|eapply metadata_of_mono|done]; eauto using subseteq_app_l.
    + by apply safe_ret.
  - intros [[[]|e] s] t1; cbn [fst snd]; [|intros; apply csafe_ret; by split].
    intros (lin&ms&?&?&?). eapply csafe_cbind; [by eapply defenses_scan_safe|].
    intros rs t2 Hrs. apply csafe_ret. rewrite app_nil_r. by eapply finish_tick.
Qed.
End tick.

(** ** Theorems *)

(** C19: Whatever the interleaving of the concurrent defenses and whatever the
    chain and the prover service answer, each proof request and each submission
    of a tick is for a game on the lineage selected in that tick, which the tick
    has read as in progress and short of support before the deadline that
    applies; it concerns a lane that is not yet proven on chain (the TEE lane
    only, while the game is unchallenged), a request states the game's own
    claim, and a submission carries the payload that the service returned for a
    proof that it reported as succeeded. *)
Theorem defends_selected_games cfg I now s0 tr r s' :
  tick_at cfg I now s0 tr (r, s') -> 0 <= I -> def_inv s0 ->
  guarded (tick_allowed cfg I now s0) tr.
Proof. intros Ht HI H0. by apply (defender_tick_csafe cfg I now s0 HI H0) in Ht as [? _]. Qed.

(** A tick keeps the defender's state well formed (defenses are filed under
    their game's address, with one state per lane, and no game is both active
    and abandoned).  A tick that succeeds leaves only defenses of selected
    games, drops the defense of a game that stays selected only for a stated
    reason (it is settled, all its lanes are proven, or it is abandoned), and
    abandons a game only when all its lanes ended and some lane was abandoned,
    until the game's proof deadline. *)
Theorem defenses_accounted cfg I now s0 tr r s' :
  tick_at cfg I now s0 tr (r, s') -> 0 <= I -> def_inv s0 ->
  tick_post cfg I now s0 tr r s'.
Proof. intros Ht HI H0. by apply (defender_tick_csafe cfg I now s0 HI H0) in Ht as [_ ?]. Qed.

(** One pass over a defense submits proofs and opens requests at most as many
    times as the game still lacks distinct proof lanes, counting the lanes
    proven on chain and those this defender has proven; a game that is settled,
    or that cannot be read, costs nothing.  Each lane moves only along its life
    cycle (requested by an accepted request, proven by an accepted submission,
    abandoned when the service has no retry left). *)
Theorem support_within_need d now tr r :
  runs (advance_defense d now) tr r -> length (ad_lanes d) = 2%nat ->
  defense_post now d tr r.
Proof. intros Hr Hlen. by apply (advance_defense_safe d now Hlen) in Hr as [_ ?]. Qed.

(** ** A schedule: the defenses one after the other *)

Definition tick_seq (cfg : DefenderConfig) (block_interval now : Z) (s : Defender)
    : prog TickSig (result unit DefenderError * Defender) :=
  match validate cfg with
  | Err e => Ret (Err e, s)
  | Ok _ =>
      do rs <- (do r <- selected_lineage cfg block_interval;
                match r with
                | Err e => Ret (Err e, s)
                | Ok selected => sync_defenses_with_selected_lineage selected now s
                end);
      match rs with
      | (Err e, s) => Ret (Err e, s)
      | (Ok _, s) =>
          do progress <- run_all (map (fun d => (d, advance_defense d now))
                           ((map_to_list (active_defenses s)).*2));
          Ret (Ok tt, handle_defense_progress progress s)
      end
  end.

Lemma defender_tick_seq cfg I now s tr rs :
  runs (tick_seq cfg I now s) tr rs -> tick_at cfg I now s tr rs.
Proof.
  unfold tick_seq, tick_at. destruct (validate cfg) eqn:Hv; [|done]. intros H.
  assert (0 < max_game_concurrency cfg)%nat as Hn.
  { unfold validate in Hv. destruct (poll_interval cfg =? 0); [done|].
    destruct (Nat.eqb_spec (max_game_concurrency cfg) 0); [done|lia]. }
  eapply cbind_runs; [exact H|done|]. clear H. intros [[[]|e] s1] t1 H; [|exact H].
  eapply cbind_runs; [exact H| |done]. intros t rs' Hr.
  exists ((map_to_list (active_defenses s1)).*2). split; [done|].
  by apply run_all_buffer_unordered.
Qed.

(** Game 201 of the lineage is challenged and needs two lanes; its TEE lane has
    been requested in an earlier tick. *)
Definition demo_game : GameMetadata := {|
  dm_address := 201; dm_domain_hash := 1; dm_aggregation_vkey := 2; dm_range_vkey_commitment := 3;
  dm_tee_image_id := 4; dm_parent_ref := 7; dm_root_claim := 110000; dm_l2_block_number := 110;
  dm_l1_origin_hash := 6; dm_l1_origin_number := 8; dm_challenge_deadline := 500;
  dm_proof_deadline := 900; dm_proof_threshold := 2 |}.

Definition defense_world : handler TickSig unit := fun c w =>
  match c return reply TickSig c * unit with
  | inl (inl (GetGameMetadata _)) => (Ok demo_game, w)
  | inl (inl (GetClaimData _)) => 
      (Ok {| claim_status := Challenged; claim_challenger := 9; claim_deadline := 900;
             claim_proof_bitmap := 0; claim_invalidation_reason := NoReason |}, w)
  | inl (inl (SubmitProof _ _ _)) => (Ok 77, w)
  | inl (inr (RequestProof _)) => (Ok {| rp_proof_id := 11; rp_l1_head := 6 |}, w)
  | inl (inr (GetProofStatus _)) => (Ok Succeeded, w)
  | inl (inr (GetProof id)) => (Ok (ResponseSucceeded id (NitroData [] [] [1; 2])), w)
  | inr c => demo_world c w
  end.

Definition demo_defense : ActiveDefense :=
  {| ad_game := demo_game; ad_lanes := [LaneRequested 10; LanePending] |}.
Definition demo_state : Defender :=
  {| active_defenses := {[201 := demo_defense]}; abandoned_defenses := ∅ |}.
Definition demo_tick := tick_seq default_config 10 100 demo_state.

Lemma demo_tick_runs :
  tick_at default_config 10 100 demo_state (trace_of defense_world demo_tick tt)
    (Ok tt, {| active_defenses := {[201 := {| ad_game := demo_game;
                 ad_lanes := [LaneProven; LaneRequested 11] |}]};
               abandoned_defenses := ∅ |}).
Proof. apply defender_tick_seq. exact (interp_runs defense_world demo_tick tt). Qed.

Lemma demo_state_inv : def_inv demo_state.
Proof. split; [by apply map_Forall_singleton|]. intros a _. apply lookup_empty. Qed.

(** The tick submits the TEE proof and requests the validity proof. *)
Lemma defends_selected_games_witness :
  guarded (tick_allowed default_config 10 100 demo_state) (trace_of defense_world demo_tick tt) /\
  filter (fun e => acts e = true) (trace_of defense_world demo_tick tt) =
    [ev (inl (inl (SubmitProof 201 TeeAttestation [1; 2])) : call TickSig) (Ok 77);
     ev (inl (inr (RequestProof (proof_request demo_game Sp1))) : call TickSig)
       (Ok {| rp_proof_id := 11; rp_l1_head := 6 |})].
Proof.
  split; [|vm_compute; reflexivity].
  exact (defends_selected_games default_config 10 100 demo_state _ _ _ demo_tick_runs
    ltac:(lia) demo_state_inv).
Defined.

Lemma defenses_accounted_witness :
  tick_post default_config 10 100 demo_state (trace_of defense_world demo_tick tt) (Ok tt)
    {| active_defenses := {[201 := {| ad_game := demo_game; ad_lanes := [LaneProven; LaneRequested 11] |}]};
       abandoned_defenses := ∅ |}.
Proof.
  exact (defenses_accounted default_config 10 100 demo_state _ _ _ demo_tick_runs
    ltac:(lia) demo_state_inv).
Defined.

Lemma support_within_need_witness :
  let tr := trace_of defense_world (advance_defense demo_defense 100) tt in
  spent tr = 2%nat /\
  defense_post 100 demo_defense tr (value_of defense_world (advance_defense demo_defense 100) tt).
Proof.
  split; [vm_compute; reflexivity|].
  exact (support_within_need demo_defense 100 _ _
    (interp_runs defense_world (advance_defense demo_defense 100) tt) eq_refl).
Defined.
