(* ===== verification/ProverStore.v ===== *)
(** * The store of the prover service
    ([src/proofs/services/prover-service/src/store.rs], [status_poller.rs])

    The two tables of the database, the SQL statements of the store as atomic
    actions on them, and the operations of the store as programs over the
    statements, the clock and the lock identifiers.  A transaction that holds
    the row of its request locked is one action.  A statement may fail; the
    failure of a statement whose answer was lost may have taken effect. *)

From stdpp Require Import pretty.
From S2P Require Import Prelude Program Encoding ProofTypes ProverTypes.

Inductive ProofJobQueueError :=
| QSqlx (message : string)
| NegativeBlockNumber (block : Z)
| UnknownProofBackend (text : string)
| UnknownBackendSessionStatus (text : string)
| UnknownProofJobStatus (text : string)
| MalformedAddress (length : nat)
| QMalformedB256 (length : nat)
| QProofIdNotFound (id : B256)
| ProofJobStatusNotClaimed (proof_id : B256) (expected actual : ProofJobStatus)
| StaleLock (id : B256)
| LockExpired (id : B256)
| BackendMismatch (proof_id : B256) (expected actual : ProofBackend)
| AlreadyTerminal (id : B256)
| BackendSessionAlreadyTerminal (proof_id : B256) (session_type : SessionType)
    (backend_session_id : string) (stored attempted : BackendSessionStatus)
| QProofEncoding (message : string)
| ProofMismatch (proof_id : B256) (expected actual : ProofData)
| Unknown (id : B256)
| QRemoteInternal
| QRemoteSqlx
| QRpcRequestTimeout
| QRpcTransport (message : string)
| QRpcRestartNeeded (message : string)
| QRpcServiceDisconnected
| QRpcClient (message : string).

(** ** The tables *)

(** The columns that state the request. *)
Record Columns := {
  c_backend : string;
  c_game : bytes;
  c_root_claim : bytes;
  c_l2_block_number : Z;
  c_l1_head : bytes;
  c_verifier_id : bytes;
  c_range_vkey_commitment : option bytes
}.

Record Row := {
  cols : Columns;
  proof_status : string;
  proof_data : option bytes;
  failure_reason : option string;
  retry_count : Z;
  worker_id : option string;
  lock_id : option Z;
  job_status : string;
  attempt : Z;
  lock_expires_at : option Z;
  created_at : Z;
  updated_at : Z;
  finished_at : option Z
}.

Record Session := {
  se_id : Z;
  se_proof_id : B256;
  se_session_type : string;
  se_backend_session_id : string;
  se_status : string;
  se_failure_reason : option string;
  se_created_at : Z;
  se_completed_at : option Z
}.

(** [next_session] is the sequence behind the [BIGSERIAL] identifiers. *)
Record DB := {
  requests : gmap B256 Row;
  sessions : list Session;
  next_session : Z
}.

Definition empty_db : DB := {| requests := ∅; sessions := []; next_session := 1 |}.

Definition set_requests (r : gmap B256 Row) (db : DB) : DB :=
  {| requests := r; sessions := sessions db; next_session := next_session db |}.
Definition set_sessions (s : list Session) (db : DB) : DB :=
  {| requests := requests db; sessions := s; next_session := next_session db |}.

#[export] Instance Columns_eq_dec : EqDecision Columns.
Proof. solve_decision. Defined.

(** A comparison with a nullable column is not true on [NULL]. *)
Definition sql_eq `{EqDecision A} (column : option A) (x : A) : bool := bool_decide (column = Some x).
Definition sql_lt (column : option Z) (x : Z) : bool := from_option (fun e => e <? x) false column.
Definition sql_gt (column : option Z) (x : Z) : bool := from_option (fun e => x <? e) false column.

(** [value as i32] *)
Definition I32_MAX : Z := 2 ^ 31 - 1.
Definition as_i32 (x : Z) : Z :=
  let m := x mod 2 ^ 32 in if m <=? I32_MAX then m else m - 2 ^ 32.

Definition text (s : string) (l : list string) : bool := bool_decide (s ∈ l).

(** ** Conversions of columns *)

Definition l2_to_i64 (value : Z) : result Z ProofRequestError :=
  if value <=? I64_MAX then Ok value else Err (BlockNumberExceedsI64 value).

Definition b256_from_bytes (l : bytes) : result B256 nat :=
  if Nat.eqb (length l) 32 then Ok (be_val l) else Err (length l).

Definition option_b256_from_bytes (o : option bytes) : result (option B256) nat :=
  match o with
  | None => Ok None
  | Some l => let? v := b256_from_bytes l in Ok (Some v)
  end.

Definition address_from_bytes (l : bytes) : result Address ProofJobQueueError :=
  if Nat.eqb (length l) 20 then Ok (be_val l) else Err (MalformedAddress (length l)).

Definition parse_status (s : string) : result ProofStatus ProofRequestError :=
  map_err UnknownProofStatus (from_str s).

Definition request_from_row (c : Columns) : result ProofRequest ProofJobQueueError :=
  if c_l2_block_number c <? 0 then Err (NegativeBlockNumber (c_l2_block_number c))
  else
    let? backend := map_err UnknownProofBackend (from_str (c_backend c)) in
    let? game := address_from_bytes (c_game c) in
    let? root_claim := map_err QMalformedB256 (b256_from_bytes (c_root_claim c)) in
    let? l1_head := map_err QMalformedB256 (b256_from_bytes (c_l1_head c)) in
    let? verifier_id := map_err QMalformedB256 (b256_from_bytes (c_verifier_id c)) in
    let? range_vkey_commitment :=
      map_err QMalformedB256 (option_b256_from_bytes (c_range_vkey_commitment c)) in
    Ok {| rq_backend := backend; rq_game := game; rq_root_claim := root_claim;
          rq_l2_block_number := c_l2_block_number c; rq_l1_head := l1_head;
          rq_verifier_id := verifier_id; rq_range_vkey_commitment := range_vkey_commitment |}.

(** The values bound by the [INSERT] of [request_proof]. *)
Definition bind_columns (q : ProofRequest) (l2_block_number : Z) : Columns :=
  {| c_backend := as_str (rq_backend q); c_game := be_bytes 20 (rq_game q);
     c_root_claim := be_bytes 32 (rq_root_claim q); c_l2_block_number := l2_block_number;
     c_l1_head := be_bytes 32 (rq_l1_head q); c_verifier_id := be_bytes 32 (rq_verifier_id q);
     c_range_vkey_commitment := be_bytes 32 <$> rq_range_vkey_commitment q |}.

(** The columns are compared from left to right and the block number is
    converted only when the earlier columns agree. *)
Definition request_matches (c : Columns) (q : ProofRequest) : result bool ProofRequestError :=
  let? stored_l1_head := map_err RMalformedB256 (b256_from_bytes (c_l1_head c)) in
  if bool_decide (c_backend c = as_str (rq_backend q))
     && bool_decide (c_game c = be_bytes 20 (rq_game q))
     && bool_decide (c_root_claim c = be_bytes 32 (rq_root_claim q))
  then
    let? l2 := l2_to_i64 (rq_l2_block_number q) in
    Ok (bool_decide (c_l2_block_number c = l2) && bool_decide (stored_l1_head = rq_l1_head q))
  else Ok false.

(** ** Statements *)

Definition FAILURE_REASON : string := "game no longer requires proof support".

Definition exhausted_reason (cfg : ProverServiceConfig) : string :=
  String.append "proof request exhausted max attempts ("
    (String.append (pretty (max_attempts cfg)) ")").

(** [INSERT ... ON CONFLICT (proof_id) DO NOTHING] of [request_proof]: whether a
    row was inserted. *)
Definition insert_request (id : B256) (c : Columns) (now : Z) (db : DB) : bool * DB :=
  match requests db !! id with
  | Some _ => (false, db)
  | None =>
      (true, set_requests (<[id := {|
         cols := c; proof_status := as_str Created; proof_data := None; failure_reason := None;
         retry_count := 0; worker_id := None; lock_id := None; job_status := as_str JPending;
         attempt := 0; lock_expires_at := None; created_at := now; updated_at := now;
         finished_at := None |}]> (requests db)) db)
  end.

(** The [UPDATE] of [request_proof] for a request that failed or was cancelled. *)
Definition requeued (l1_head : B256) (n : Z) (row : Row) : Row :=
  {| cols := {| c_backend := c_backend (cols row); c_game := c_game (cols row);
                c_root_claim := c_root_claim (cols row);
                c_l2_block_number := c_l2_block_number (cols row);
                c_l1_head := be_bytes 32 l1_head; c_verifier_id := c_verifier_id (cols row);
                c_range_vkey_commitment := c_range_vkey_commitment (cols row) |};
     proof_status := as_str Created; proof_data := None; failure_reason := None;
     retry_count := retry_count row + n; worker_id := None; lock_id := None;
     job_status := as_str JPending; attempt := 0; lock_expires_at := None;
     created_at := created_at row; updated_at := updated_at row; finished_at := None |}.

(** The part of [request_proof] after the conflict: the row is locked from the
    [SELECT ... FOR UPDATE] to the end of the transaction.  The row as it is
    committed comes with the result; a [retry_count] that leaves its column's
    range is an error of the database. *)
Definition request_conflict (cfg : ProverServiceConfig) (id : B256) (q : ProofRequest)
    (row : option Row) : result (RequestProofResponse * option Row) ProofRequestError :=
  match row with
  | None => Err (RowMissingAfterConflict id)
  | Some row =>
      let? status := parse_status (proof_status row) in
      let? matches := request_matches (cols row) q in
      if negb matches then Err (RequestMismatch id)
      else
        let? stored_verifier_id := map_err RMalformedB256 (b256_from_bytes (c_verifier_id (cols row))) in
        let? mismatch :=
          if negb (bool_decide (stored_verifier_id = rq_verifier_id q)) then Ok true
          else
            let? stored_range_vkey_commitment :=
              map_err RMalformedB256 (option_b256_from_bytes (c_range_vkey_commitment (cols row))) in
            Ok (negb (bool_decide (stored_range_vkey_commitment = rq_range_vkey_commitment q))) in
        if mismatch : bool then Err (RequestMismatch id)
        else
          let response := {| rp_proof_id := id; rp_l1_head := rq_l1_head q |} in
          match status with
          | Failed =>
              if as_i32 (max_retries cfg) <? retry_count row
              then Err (TooManyRetries id (max_retries cfg))
              else if I32_MAX <? retry_count row + 1 then Err (RSqlx "integer out of range")
              else Ok (response, Some (requeued (rq_l1_head q) 1 row))
          | Cancelled => Ok (response, Some (requeued (rq_l1_head q) 0 row))
          | Created | Running | Succeeded =>
              let? stored_l1_head := map_err RMalformedB256 (b256_from_bytes (c_l1_head (cols row))) in
              Ok ({| rp_proof_id := id; rp_l1_head := stored_l1_head |}, None)
          end
  end.

Definition request_tx (cfg : ProverServiceConfig) (id : B256) (q : ProofRequest) (db : DB)
    : result RequestProofResponse ProofRequestError * DB :=
  match request_conflict cfg id q (requests db !! id) with
  | Ok (response, Some row) => (Ok response, set_requests (<[id := row]> (requests db)) db)
  | Ok (response, None) => (Ok response, db)
  | Err e => (Err e, db)
  end.

Definition active_row (row : Row) : bool :=
  text (proof_status row) [as_str Created; as_str Running].

(** [SELECT DISTINCT game ... WHERE proof_status IN ('CREATED', 'RUNNING')] *)
Definition select_active_games (db : DB) : list bytes :=
  remove_dups (map (fun kv => c_game (cols kv.2)) (List.filter (fun kv => active_row kv.2)
    (map_to_list (requests db)))).

(** The end of a job without a proof: [proof_status], [job_status = 'FAILED'], the
    reason, and no lock. *)
Definition ended (status : ProofStatus) (reason : string) (now : Z) (row : Row) : Row :=
  {| cols := cols row; proof_status := as_str status; proof_data := proof_data row;
     failure_reason := Some reason; retry_count := retry_count row; worker_id := None;
     lock_id := None; job_status := as_str JFailed; attempt := attempt row; lock_expires_at := None;
     created_at := created_at row; updated_at := now; finished_at := Some now |}.

(** [UPDATE ... WHERE p]: the rows that satisfy [p] are changed by [f]. *)
Definition update_where (p : Row -> bool) (f : Row -> Row) (m : gmap B256 Row) : gmap B256 Row :=
  (fun row => if p row then f row else row) <$> m.

Definition count_where (p : Row -> bool) (m : gmap B256 Row) : Z :=
  Z.of_nat (size (base.filter (fun kv => p kv.2 = true) m)).

Definition cancel_game (game : bytes) (now : Z) (db : DB) : Z * DB :=
  let p row := bool_decide (c_game (cols row) = game) && active_row row in
  (count_where p (requests db),
   set_requests (update_where p (ended Cancelled FAILURE_REASON now) (requests db)) db).

Definition exhausted (cfg : ProverServiceConfig) (now : Z) (row : Row) : bool :=
  (as_i32 (max_attempts cfg) <=? attempt row) && active_row row
  && (bool_decide (job_status row = as_str JPending)
      || bool_decide (job_status row = as_str JClaimed) && sql_lt (lock_expires_at row) now).

Definition session_active (s : Session) : bool :=
  text (se_status s) [as_str SSubmitting; as_str SRunning].

Definition fail_session (reason : string) (now : Z) (s : Session) : Session :=
  {| se_id := se_id s; se_proof_id := se_proof_id s; se_session_type := se_session_type s;
     se_backend_session_id := se_backend_session_id s; se_status := as_str SFailed;
     se_failure_reason := Some reason; se_created_at := se_created_at s;
     se_completed_at := Some now |}.

(** The statement of [mark_exhausted_proof_requests_failed]. *)
Definition fail_exhausted (cfg : ProverServiceConfig) (now : Z) (db : DB) : Z * DB :=
  let p := exhausted cfg now in
  let reason := exhausted_reason cfg in
  (count_where p (requests db),
   {| requests := update_where p (ended Failed reason now) (requests db);
      sessions := map (fun s =>
        if from_option p false (requests db !! se_proof_id s) && session_active s
        then fail_session reason now s else s) (sessions db);
      next_session := next_session db |}).

(** *** The claim of the next job *)

Definition claimable (cfg : ProverServiceConfig) (r : GetNextProofRequest) (now : Z) (row : Row) : bool :=
  bool_decide (c_backend (cols row) = as_str (gn_backend r))
  && bool_decide (c_verifier_id (cols row) = be_bytes 32 (gn_verifier_id r))
  && bool_decide (c_range_vkey_commitment (cols row) = (be_bytes 32 <$> gn_range_vkey_commitment r))
  && (attempt row <? as_i32 (max_attempts cfg))
  && (bool_decide (job_status row = as_str JPending)
      || bool_decide (job_status row = as_str JClaimed) && sql_lt (lock_expires_at row) now).

(** [ORDER BY l2_block_number ASC, created_at ASC, proof_id ASC] *)
Definition before (a b : B256 * Row) : bool :=
  let n r := c_l2_block_number (cols r) in
  (n a.2 <? n b.2)
  || (n a.2 =? n b.2) && ((created_at a.2 <? created_at b.2)
      || (created_at a.2 =? created_at b.2) && (a.1 <=? b.1)).

Fixpoint first_by {A} (le : A -> A -> bool) (l : list A) : option A :=
  match l with
  | [] => None
  | x :: l' =>
      match first_by le l' with
      | None => Some x
      | Some y => Some (if le x y then x else y)
      end
  end.

Definition claimed (r : GetNextProofRequest) (lock expires now : Z) (row : Row) : Row :=
  {| cols := cols row; proof_status := as_str Running; proof_data := proof_data row;
     failure_reason := failure_reason row; retry_count := retry_count row;
     worker_id := Some (gn_worker_id r); lock_id := Some lock; job_status := as_str JClaimed;
     attempt := attempt row + 1; lock_expires_at := Some expires; created_at := created_at row;
     updated_at := now; finished_at := finished_at row |}.

(** [skip] are the rows that other transactions hold locked. *)
Definition claim_next (cfg : ProverServiceConfig) (r : GetNextProofRequest) (lock expires now : Z)
    (skip : gset B256) (db : DB) : option Columns * DB :=
  match first_by before (List.filter (fun kv => negb (bool_decide (kv.1 ∈ skip)) && claimable cfg r now kv.2)
          (map_to_list (requests db))) with
  | None => (None, db)
  | Some (id, row) =>
      (Some (cols row), set_requests (<[id := claimed r lock expires now row]> (requests db)) db)
  end.

(** *** Locks of workers *)

Definition holds_lock (worker : string) (lock now : Z) (row : Row) : bool :=
  bool_decide (job_status row = as_str JClaimed) && sql_eq (worker_id row) worker
  && sql_eq (lock_id row) lock && sql_gt (lock_expires_at row) now.

Definition succeeded (data : bytes) (now : Z) (row : Row) : Row :=
  {| cols := cols row; proof_status := as_str Succeeded; proof_data := Some data;
     failure_reason := None; retry_count := retry_count row; worker_id := worker_id row;
     lock_id := lock_id row; job_status := as_str JSucceeded; attempt := attempt row;
     lock_expires_at := lock_expires_at row; created_at := created_at row;
     updated_at := updated_at row; finished_at := Some now |}.

Definition extended (expires now : Z) (row : Row) : Row :=
  {| cols := cols row; proof_status := proof_status row; proof_data := proof_data row;
     failure_reason := failure_reason row; retry_count := retry_count row;
     worker_id := worker_id row; lock_id := lock_id row; job_status := job_status row;
     attempt := attempt row; lock_expires_at := Some expires; created_at := created_at row;
     updated_at := now; finished_at := finished_at row |}.

(** [UPDATE ... WHERE proof_id = id AND <the worker holds the lock>]: whether a
    row was returned. *)
Definition update_held (id : B256) (worker : string) (lock now : Z) (f : Row -> Row) (db : DB) : bool * DB :=
  match requests db !! id with
  | Some row =>
      if holds_lock worker lock now row
      then (true, set_requests (<[id := f row]> (requests db)) db) else (false, db)
  | None => (false, db)
  end.

(** *** Sessions of backends *)

(** [SELECT ... ORDER BY <active first>, completed_at DESC NULLS LAST, id DESC LIMIT 1] *)
Definition session_before (a b : Session) : bool :=
  let rank s := if session_active s then 0 else 1 in
  (rank a <? rank b)
  || (rank a =? rank b) &&
     match se_completed_at a, se_completed_at b with
     | Some x, Some y => (y <? x) || (x =? y) && (se_id b <=? se_id a)
     | Some _, None => true
     | None, Some _ => false
     | None, None => se_id b <=? se_id a
     end.

Definition select_session (id : B256) (ty : SessionType) (db : DB) : option Session :=
  if bool_decide (is_Some (requests db !! id)) then
    first_by session_before (List.filter (fun s => bool_decide (se_proof_id s = id)
      && bool_decide (se_session_type s = as_str ty)
      && text (se_status s) [as_str SSubmitting; as_str SRunning; as_str SCompleted]) (sessions db))
  else None.

(** The loop over the rows of the same backend session: [Some] is an early
    return. *)
Fixpoint check_terminal (r : RecordProofSessionRequest) (rows : list Session)
    : option (result unit ProofJobQueueError) :=
  match rows with
  | [] => None
  | row :: rest =>
      match from_str (se_status row) with
      | Err t => Some (Err (UnknownBackendSessionStatus t))
      | Ok stored =>
          if session_is_terminal stored then
            if bool_decide (stored = rs_status r) then Some (Ok tt)
            else Some (Err (BackendSessionAlreadyTerminal (rs_proof_id r) (rs_session_type r)
                              (rs_backend_session_id r) stored (rs_status r)))
          else check_terminal r rest
      end
  end.

(** The checks of [record_proof_session] on the locked request. *)
Definition record_authorized (r : RecordProofSessionRequest) (now : Z) (row : option Row)
    : result unit ProofJobQueueError :=
  match row with
  | None => Err (QProofIdNotFound (rs_proof_id r))
  | Some claim =>
      let? stored := map_err UnknownProofJobStatus (from_str (job_status claim)) in
      if bool_decide (stored <> JClaimed)
      then Err (ProofJobStatusNotClaimed (rs_proof_id r) JClaimed stored)
      else if bool_decide (lock_id claim <> Some (rs_lock_id r))
              || bool_decide (worker_id claim <> Some (rs_worker_id r))
      then Err (StaleLock (rs_proof_id r))
      else if from_option (fun e => e <=? now) true (lock_expires_at claim)
      then Err (LockExpired (rs_proof_id r))
      else Ok tt
  end.

Definition of_type (r : RecordProofSessionRequest) (s : Session) : bool :=
  bool_decide (se_proof_id s = rs_proof_id r)
  && bool_decide (se_session_type s = as_str (rs_session_type r)).

Definition update_session (r : RecordProofSessionRequest) (s : Session) : Session :=
  {| se_id := se_id s; se_proof_id := se_proof_id s; se_session_type := se_session_type s;
     se_backend_session_id := rs_backend_session_id r; se_status := as_str (rs_status r);
     se_failure_reason := rs_failure_reason r; se_created_at := se_created_at s;
     se_completed_at := se_completed_at s |}.

Definition new_session (r : RecordProofSessionRequest) (id now : Z) : Session :=
  {| se_id := id; se_proof_id := rs_proof_id r; se_session_type := as_str (rs_session_type r);
     se_backend_session_id := rs_backend_session_id r; se_status := as_str (rs_status r);
     se_failure_reason := None; se_created_at := now; se_completed_at := None |}.

(** The transaction of [record_proof_session]; it holds the row of the request
    locked. *)
Definition record_tx (r : RecordProofSessionRequest) (now : Z) (db : DB)
    : result unit ProofJobQueueError * DB :=
  match record_authorized r now (requests db !! rs_proof_id r) with
  | Err e => (Err e, db)
  | Ok _ =>
      match check_terminal r (List.filter (fun s => of_type r s
              && bool_decide (se_backend_session_id s = rs_backend_session_id r)) (sessions db)) with
      | Some out => (out, db)
      | None =>
          match List.find (fun s => of_type r s && session_active s) (sessions db) with
          | Some active =>
              (Ok tt, set_sessions (map (fun s =>
                 if bool_decide (se_id s = se_id active) && session_active s
                 then update_session r s else s) (sessions db)) db)
          | None =>
              (Ok tt, {| requests := requests db;
                         sessions := sessions db ++ [new_session r (next_session db) now];
                         next_session := next_session db + 1 |})
          end
      end
  end.

(** ** The interface to the database, the clock, the lock identifiers and the chain

    [GameSnapshot] is the multicall of [resolutionStatus] and [claimData]; its
    answer is the outcome and the status as bytes. *)

Inductive store_call :=
| UtcNow
| NewLockId
| BeginTx
| InsertRequest (id : B256) (c : Columns) (now : Z)
| RequestTx (id : B256) (q : ProofRequest)
| SelectRow (id : B256)
| SelectActiveGames
| CancelGame (game : bytes) (now : Z)
| FailExhausted (now : Z)
| ClaimNext (r : GetNextProofRequest) (lock expires now : Z)
| SelectSession (id : B256) (ty : SessionType)
| RecordTx (r : RecordProofSessionRequest) (now : Z)
| StoreProof (id : B256) (worker : string) (lock : Z) (data : bytes) (now : Z)
| ExtendLock (id : B256) (worker : string) (lock expires now : Z)
| GameSnapshot (game : Address).

Definition StoreSig : Sig := MkSig store_call (fun c =>
  match c with
  | UtcNow | NewLockId => Z
  | BeginTx => result unit string
  | InsertRequest _ _ _ => result bool string
  | RequestTx _ _ => result RequestProofResponse ProofRequestError
  | SelectRow _ => result (option Row) string
  | SelectActiveGames => result (list bytes) string
  | CancelGame _ _ | FailExhausted _ => result Z string
  | ClaimNext _ _ _ _ => result (option Columns) string
  | SelectSession _ _ => result (option Session) string
  | RecordTx _ _ => result unit ProofJobQueueError
  | StoreProof _ _ _ _ _ | ExtendLock _ _ _ _ _ => result bool string
  | GameSnapshot _ => result (Z * Z) string
  end).

Abbreviation sql c := (Call (c : call StoreSig) (fun r => Ret r)).

(** ** Operations

    [keccak256] hashes; [to_vec] and [from_slice] are the JSON encoding of a
    proof and its decoding. *)

Section operations.
Context (keccak256 : bytes -> B256).
Context (to_vec : ProofData -> result bytes string) (from_slice : bytes -> result ProofData string).
Context (cfg : ProverServiceConfig).

Definition request_proof (q : ProofRequest) : prog StoreSig (result RequestProofResponse ProofRequestError) :=
  let id := request_id keccak256 q in
  do now <- sql UtcNow;
  do began <- sql BeginTx;
  match map_err RSqlx began with
  | Err e => Ret (Err e)
  | Ok _ =>
      match l2_to_i64 (rq_l2_block_number q) with
      | Err e => Ret (Err e)
      | Ok l2_block_number =>
          do inserted <- sql (InsertRequest id (bind_columns q l2_block_number) now);
          match inserted with
          | Err m => Ret (Err (RSqlx m))
          | Ok true => Ret (Ok {| rp_proof_id := id; rp_l1_head := rq_l1_head q |})
          | Ok false => sql (RequestTx id q)
          end
      end
  end.

(** The column [proof_status] of the row [id]. *)
Definition get_proof_status (id : B256) : prog StoreSig (result ProofStatus ProofRequestError) :=
  do r <- sql (SelectRow id);
  Ret (let? row := map_err RSqlx r in
       let? row := ok_or row (RProofIdNotFound id) in
       parse_status (proof_status row)).

(** Reading [NULL] as the bytes of a proof panics; it is written as an error. *)
Definition get_proof (id : B256) : prog StoreSig (result ProofResponse ProofRequestError) :=
  do r <- sql (SelectRow id);
  Ret (let? row := map_err RSqlx r in
       let? row := ok_or row (RProofIdNotFound id) in
       let? status := parse_status (proof_status row) in
       match status with
       | Succeeded =>
           let? data := ok_or (proof_data row) (RSqlx "panic: proof_data is NULL") in
           let? proof := map_err RProofEncoding (from_slice data) in
           Ok (ResponseSucceeded id proof)
       | Failed | Cancelled =>
           Ok (ResponseFailed id (default "proof job failed"%string (failure_reason row)))
       | Created | Running => Ok (ResponsePending id status)
       end).

Fixpoint collect_addresses (games : list bytes) : result (list Address) ProofJobQueueError :=
  match games with
  | [] => Ok []
  | g :: rest =>
      let? a := address_from_bytes g in
      let? l := collect_addresses rest in Ok (a :: l)
  end.

Definition active_games : prog StoreSig (result (list Address) ProofJobQueueError) :=
  do r <- sql SelectActiveGames;
  Ret (let? games := map_err QSqlx r in collect_addresses games).

Definition cancel_game_proofs (game : Address) : prog StoreSig (result Z string) :=
  do now <- sql UtcNow;
  sql (CancelGame (be_bytes 20 game) now).

Definition mark_exhausted_proof_requests_failed : prog StoreSig (result Z string) :=
  do now <- sql UtcNow;
  sql (FailExhausted now).

Definition get_next_proof (r : GetNextProofRequest)
    : prog StoreSig (result (option LockedProofRequest) ProofJobQueueError) :=
  do lock <- sql NewLockId;
  do now <- sql UtcNow;
  do row <- sql (ClaimNext r lock (now + lock_timeout cfg) now);
  Ret (let? row := map_err QSqlx row in
       match row with
       | None => Ok None
       | Some c =>
           let? request := request_from_row c in
           Ok (Some {| lk_request := request; lk_lock_id := lock |})
       end).

Definition get_proof_session (id : B256) (ty : SessionType)
    : prog StoreSig (result (option BackendSession) ProofJobQueueError) :=
  do row <- sql (SelectSession id ty);
  Ret (let? row := map_err QSqlx row in
       match row with
       | None => Ok None
       | Some s =>
           let? state := map_err UnknownBackendSessionStatus (from_str (se_status s)) in
           Ok (Some {| bs_backend_session_id := se_backend_session_id s; bs_status := state |})
       end).

Definition record_proof_session (r : RecordProofSessionRequest)
    : prog StoreSig (result unit ProofJobQueueError) :=
  do now <- sql UtcNow;
  do began <- sql BeginTx;
  match began with
  | Err m => Ret (Err (QSqlx m))
  | Ok _ => sql (RecordTx r now)
  end.

(** The checks of [submit_proof] on the row as first read. *)
Definition submit_checks (r : SubmitProofRequest) (now : Z) (row : Row) : result unit ProofJobQueueError :=
  let id := sp_id (sb_proof r) in
  let proof := sp_proof (sb_proof r) in
  let? stored_proof_request := request_from_row (cols row) in
  let? stored_job_status := map_err UnknownProofJobStatus (from_str (job_status row)) in
  if bool_decide (rq_backend stored_proof_request <> proof_backend proof)
  then Err (BackendMismatch id (rq_backend stored_proof_request) (proof_backend proof))
  else if bool_decide (lock_id row <> Some (sb_lock_id r))
          || bool_decide (worker_id row <> Some (sb_worker_id r))
  then Err (StaleLock id)
  else if from_option (fun e => e <=? now) true (lock_expires_at row) then Err (LockExpired id)
  else match stored_job_status with
       | JSucceeded | JFailed => Err (AlreadyTerminal id)
       | JPending | JClaimed => Ok tt
       end.

(** The answer of [submit_proof] when its update matched no row. *)
Definition submit_diagnosis (r : SubmitProofRequest) (row : Row) (later : Z)
    : result unit ProofJobQueueError :=
  let id := sp_id (sb_proof r) in
  let proof := sp_proof (sb_proof r) in
  let? stored_job_status := map_err UnknownProofJobStatus (from_str (job_status row)) in
  if bool_decide (stored_job_status = JSucceeded)
     && bool_decide (worker_id row = Some (sb_worker_id r))
     && bool_decide (lock_id row = Some (sb_lock_id r))
  then
    let? data := ok_or (proof_data row) (QSqlx "panic: proof_data is NULL") in
    let? stored := map_err QProofEncoding (from_slice data) in
    if bool_decide (stored = proof) then Ok tt else Err (ProofMismatch id stored proof)
  else match stored_job_status with
       | JSucceeded | JFailed => Err (AlreadyTerminal id)
       | JPending => Err (ProofJobStatusNotClaimed id JClaimed JPending)
       | JClaimed =>
           if bool_decide (lock_id row <> Some (sb_lock_id r))
              || bool_decide (worker_id row <> Some (sb_worker_id r))
           then Err (StaleLock id)
           else if from_option (fun e => e <=? later) true (lock_expires_at row)
           then Err (LockExpired id)
           else Err (Unknown id)
       end.

(** [later] is the clock read for the last check of the diagnosis; only that
    check uses it. *)
Definition submit_proof (r : SubmitProofRequest) : prog StoreSig (result unit ProofJobQueueError) :=
  let id := sp_id (sb_proof r) in
  do now <- sql UtcNow;
  do row <- sql (SelectRow id);
  match row with
  | Err m => Ret (Err (QSqlx m))
  | Ok None => Ret (Err (QProofIdNotFound id))
  | Ok (Some existing) =>
      match submit_checks r now existing with
      | Err e => Ret (Err e)
      | Ok _ =>
          match to_vec (sp_proof (sb_proof r)) with
          | Err m => Ret (Err (QProofEncoding m))
          | Ok data =>
              do stored <- sql (StoreProof id (sb_worker_id r) (sb_lock_id r) data now);
              match stored with
              | Err m => Ret (Err (QSqlx m))
              | Ok true => Ret (Ok tt)
              | Ok false =>
                  do row <- sql (SelectRow id);
                  match row with
                  | Err m => Ret (Err (QSqlx m))
                  | Ok None => Ret (Err (QProofIdNotFound id))
                  | Ok (Some existing) =>
                      do later <- sql UtcNow;
                      Ret (submit_diagnosis r existing later)
                  end
              end
          end
      end
  end.

Definition heartbeat_diagnosis (r : HeartbeatRequest) (now : Z) (row : Row)
    : result unit ProofJobQueueError :=
  let id := hb_proof_id r in
  let? stored := map_err UnknownProofJobStatus (from_str (job_status row)) in
  match stored with
  | JSucceeded | JFailed => Err (AlreadyTerminal id)
  | JPending => Err (ProofJobStatusNotClaimed id JClaimed JPending)
  | JClaimed =>
      if bool_decide (lock_id row <> Some (hb_lock_id r))
         || bool_decide (worker_id row <> Some (hb_worker_id r))
      then Err (StaleLock id)
      else if from_option (fun e => e <=? now) true (lock_expires_at row)
      then Err (LockExpired id)
      else Err (Unknown id)
  end.

Definition heartbeat (r : HeartbeatRequest) : prog StoreSig (result unit ProofJobQueueError) :=
  do now <- sql UtcNow;
  do updated <- sql (ExtendLock (hb_proof_id r) (hb_worker_id r) (hb_lock_id r)
                       (now + lock_timeout cfg) now);
  match updated with
  | Err m => Ret (Err (QSqlx m))
  | Ok true => Ret (Ok tt)
  | Ok false =>
      do row <- sql (SelectRow (hb_proof_id r));
      Ret (let? row := map_err QSqlx row in
           let? row := ok_or row (QProofIdNotFound (hb_proof_id r)) in
           heartbeat_diagnosis r now row)
  end.

(** *** The status poller ([status_poller.rs]) *)

Definition obsolete (outcome : GameStatus) (status : ProposalStatus) : bool :=
  bool_decide (outcome <> InProgress) || has_sufficient_proof_support status
  || bool_decide (status = Resolved).

Definition proof_is_obsolete (game : Address) : prog StoreSig (result bool string) :=
  do r <- sql (GameSnapshot game);
  Ret (let? snapshot := r in
       let? outcome := map_err (fun _ => "invalid game status"%string) (GameStatus_try_from snapshot.1) in
       let? status := map_err (fun _ => "invalid proposal status"%string)
                        (ProposalStatus_try_from snapshot.2) in
       Ok (obsolete outcome status)).

Fixpoint cancel_loop (games : list Address) : prog StoreSig unit :=
  match games with
  | [] => Ret tt
  | game :: rest =>
      do r <- proof_is_obsolete game;
      match r with
      | Ok true => do _ <- cancel_game_proofs game; cancel_loop rest
      | Ok false | Err _ => cancel_loop rest
      end
  end.

Definition cancel_obsolete_proofs : prog StoreSig (result unit ProofJobQueueError) :=
  do? games <- active_games;
  do _ <- cancel_loop games;
  Ret (Ok tt).

(** One iteration of [run_status_poller]. *)
Definition poll : prog StoreSig unit :=
  do _ <- cancel_obsolete_proofs;
  do _ <- mark_exhausted_proof_requests_failed;
  Ret tt.
End operations.

(** ** The database

    What the database may answer to a call, and its state after it.  The order
    of the rows of a [SELECT DISTINCT] and the rows that a claim skips are the
    database's choice. *)

Section database.
Context (cfg : ProverServiceConfig).

Definition answers (db : DB) (c : call StoreSig) : reply StoreSig c -> DB -> Prop :=
  match c return reply StoreSig c -> DB -> Prop with
  | UtcNow | NewLockId => fun _ db' => db' = db
  | BeginTx => fun r db' => r = Ok tt /\ db' = db
  | InsertRequest id c now => fun r db' =>
      exists inserted, r = Ok inserted /\ insert_request id c now db = (inserted, db')
  | RequestTx id q => fun r db' => request_tx cfg id q db = (r, db')
  | SelectRow id => fun r db' => r = Ok (requests db !! id) /\ db' = db
  | SelectActiveGames => fun r db' =>
      exists games, r = Ok games /\ games ≡ₚ select_active_games db /\ db' = db
  | CancelGame game now => fun r db' => exists n, r = Ok n /\ cancel_game game now db = (n, db')
  | FailExhausted now => fun r db' => exists n, r = Ok n /\ fail_exhausted cfg now db = (n, db')
  | ClaimNext q lock expires now => fun r db' =>
      exists row skip, r = Ok row /\ claim_next cfg q lock expires now skip db = (row, db')
  | SelectSession id ty => fun r db' => r = Ok (select_session id ty db) /\ db' = db
  | RecordTx q now => fun r db' => record_tx q now db = (r, db')
  | StoreProof id worker lock data now => fun r db' =>
      exists held, r = Ok held /\ update_held id worker lock now (succeeded data now) db = (held, db')
  | ExtendLock id worker lock expires now => fun r db' =>
      exists held, r = Ok held /\ update_held id worker lock now (extended expires now) db = (held, db')
  | GameSnapshot _ => fun _ db' => db' = db
  end.

(** An error of the connection or of the database. *)
Definition lost (c : call StoreSig) : reply StoreSig c -> Prop :=
  match c return reply StoreSig c -> Prop with
  | UtcNow | NewLockId => fun _ => False
  | RequestTx _ _ => fun r => exists m, r = Err (RSqlx m)
  | RecordTx _ _ => fun r => exists m, r = Err (QSqlx m)
  | BeginTx => fun r => exists m, r = Err m
  | InsertRequest _ _ _ => fun r => exists m, r = Err m
  | SelectRow _ => fun r => exists m, r = Err m
  | SelectActiveGames => fun r => exists m, r = Err m
  | CancelGame _ _ => fun r => exists m, r = Err m
  | FailExhausted _ => fun r => exists m, r = Err m
  | ClaimNext _ _ _ _ => fun r => exists m, r = Err m
  | SelectSession _ _ => fun r => exists m, r = Err m
  | StoreProof _ _ _ _ _ => fun r => exists m, r = Err m
  | ExtendLock _ _ _ _ _ => fun r => exists m, r = Err m
  | GameSnapshot _ => fun r => exists m, r = Err m
  end.

Definition db_step (db : DB) (e : event StoreSig) (db' : DB) : Prop :=
  answers db (projT1 e) (projT2 e) db' \/
  (lost (projT1 e) (projT2 e) /\ (db' = db \/ exists r, answers db (projT1 e) r db')).

(** A database that answers every call, with a clock that advances at each read
    and that also numbers the locks; game 0 is resolved, the other games are
    challenged. *)
Definition serve : handler StoreSig (DB * Z) := fun c w =>
  let '(db, clock) := w in
  let same {A} (p : A * DB) : A * (DB * Z) := (p.1, (p.2, clock)) in
  let ok {A} (p : A * DB) : result A string * (DB * Z) := (Ok p.1, (p.2, clock)) in
  match c return reply StoreSig c * (DB * Z) with
  | UtcNow | NewLockId => (clock, (db, clock + 1))
  | BeginTx => (Ok tt, w)
  | InsertRequest id c now => ok (insert_request id c now db)
  | RequestTx id q => same (request_tx cfg id q db)
  | SelectRow id => (Ok (requests db !! id), w)
  | SelectActiveGames => (Ok (select_active_games db), w)
  | CancelGame game now => ok (cancel_game game now db)
  | FailExhausted now => ok (fail_exhausted cfg now db)
  | ClaimNext q lock expires now => ok (claim_next cfg q lock expires now ∅ db)
  | SelectSession id ty => (Ok (select_session id ty db), w)
  | RecordTx q now => same (record_tx q now db)
  | StoreProof id worker lock data now =>
      ok (update_held id worker lock now (succeeded data now) db)
  | ExtendLock id worker lock expires now =>
      ok (update_held id worker lock now (extended expires now) db)
  | GameSnapshot game => (Ok (if game =? 0 then (2, 4) else (0, 1)), w)
  end.

Lemma serve_step db clock c :
  db_step db (ev c (serve c (db, clock)).1) (serve c (db, clock)).2.1.
Proof.
  left. destruct c; simpl; eauto using surjective_pairing.
Qed.
End database.

(** ** The jobs that the rows stand for *)

Inductive Job :=
| Queued
| Locked (worker : string) (lock expires : Z)
| Done (worker : string) (lock expires : Z) (proof : ProofData)
| JobFailed (reason : string)
| JobCancelled (reason : string).

(** A request with its retries, the claims since the last retry, and its job. *)
Inductive JobState := JS (q : ProofRequest) (retries attempts : Z) (job : Job).

(** The identifiers that a worker sends are 32-byte words. *)
Definition worker_ok (r : GetNextProofRequest) : Prop :=
  u256 (gn_verifier_id r) /\
  match gn_range_vkey_commitment r with Some v => u256 v | None => True end.

(** The job may be claimed at [now], as far as its lock goes. *)
Definition unlocked (now : Z) (j : Job) : Prop :=
  j = Queued \/ exists w l e, j = Locked w l e /\ e < now.

Definition open (j : Job) : Prop := j = Queued \/ exists w l e, j = Locked w l e.

(** The worker asks for proofs of this kind. *)
Definition serves (r : GetNextProofRequest) (q : ProofRequest) : Prop :=
  rq_backend q = gn_backend r /\ rq_verifier_id q = gn_verifier_id r /\
  rq_range_vkey_commitment q = gn_range_vkey_commitment r.

Section lifecycle.
Context (to_vec : ProofData -> result bytes string) (cfg : ProverServiceConfig).

(** The life cycle of a job. *)
Inductive job_step : store_call -> JobState -> JobState -> Prop :=
| js_retry id q n k why :
    n <= as_i32 (max_retries cfg) ->
    job_step (RequestTx id q) (JS q n k (JobFailed why)) (JS q (n + 1) 0 Queued)
| js_revive id q n k why :
    job_step (RequestTx id q) (JS q n k (JobCancelled why)) (JS q n 0 Queued)
| js_claim r lock expires now q n k j :
    unlocked now j -> serves r q -> k < as_i32 (max_attempts cfg) ->
    job_step (ClaimNext r lock expires now) (JS q n k j)
      (JS q n (k + 1) (Locked (gn_worker_id r) lock expires))
| js_extend id worker lock expires expires' now q n k :
    now < expires ->
    job_step (ExtendLock id worker lock expires' now) (JS q n k (Locked worker lock expires))
      (JS q n k (Locked worker lock expires'))
| js_finish id worker lock expires now data proof q n k :
    now < expires -> to_vec proof = Ok data -> proof_backend proof = rq_backend q ->
    job_step (StoreProof id worker lock data now) (JS q n k (Locked worker lock expires))
      (JS q n k (Done worker lock expires proof))
| js_cancel now q n k j :
    open j ->
    job_step (CancelGame (be_bytes 20 (rq_game q)) now) (JS q n k j)
      (JS q n k (JobCancelled FAILURE_REASON))
| js_exhaust now q n k j :
    as_i32 (max_attempts cfg) <= k -> unlocked now j ->
    job_step (FailExhausted now) (JS q n k j) (JS q n k (JobFailed (exhausted_reason cfg))).
End lifecycle.

(** ** Rows and jobs *)

Definition request_ok (q : ProofRequest) : Prop :=
  request_fields q /\ u256 (rq_verifier_id q) /\
  match rq_range_vkey_commitment q with Some v => u256 v | None => True end.

Section representation.
Context (keccak256 : bytes -> B256) (to_vec : ProofData -> result bytes string).
Context (cfg : ProverServiceConfig).

(** The columns of the job's life. *)
Definition job_columns (q : ProofRequest) (j : Job) (row : Row) : Prop :=
  match j with
  | Queued =>
      proof_status row = as_str Created /\ job_status row = as_str JPending /\
      worker_id row = None /\ lock_id row = None /\ lock_expires_at row = None
  | Locked w l e =>
      proof_status row = as_str Running /\ job_status row = as_str JClaimed /\
      worker_id row = Some w /\ lock_id row = Some l /\ lock_expires_at row = Some e
  | Done w l e proof =>
      proof_status row = as_str Succeeded /\ job_status row = as_str JSucceeded /\
      worker_id row = Some w /\ lock_id row = Some l /\ lock_expires_at row = Some e /\
      proof_backend proof = rq_backend q /\
      exists data, to_vec proof = Ok data /\ proof_data row = Some data
  | JobFailed why =>
      proof_status row = as_str Failed /\ job_status row = as_str JFailed /\
      worker_id row = None /\ lock_id row = None /\ lock_expires_at row = None /\
      failure_reason row = Some why
  | JobCancelled why =>
      proof_status row = as_str Cancelled /\ job_status row = as_str JFailed /\
      worker_id row = None /\ lock_id row = None /\ lock_expires_at row = None /\
      failure_reason row = Some why
  end.

(** The row [id] stands for the job state. *)
Definition represents (id : B256) (row : Row) (a : JobState) : Prop :=
  let '(JS q n k j) := a in
  id = request_id keccak256 q /\ request_ok q /\ rq_l2_block_number q <= I64_MAX /\
  cols row = bind_columns q (rq_l2_block_number q) /\
  retry_count row = n /\ 0 <= n <= Z.max 0 (as_i32 (max_retries cfg) + 1) /\
  attempt row = k /\ 0 <= k <= Z.max 0 (as_i32 (max_attempts cfg)) /\
  job_columns q j row.

Lemma b256_roundtrip v : u256 v -> b256_from_bytes (be_bytes 32 v) = Ok v.
Proof.
  unfold u256, U256_MAX. intros Hv. unfold b256_from_bytes. rewrite be_bytes_length, be_val_bytes.
  simpl. rewrite Z.mod_small; [done|]. change (256 ^ Z.of_nat 32) with (2 ^ 256). lia.
Qed.

Lemma address_roundtrip v : 0 <= v < 2 ^ 160 -> address_from_bytes (be_bytes 20 v) = Ok v.
Proof.
  intros Hv. unfold address_from_bytes. rewrite be_bytes_length, be_val_bytes. simpl.
  rewrite Z.mod_small; [done|]. change (256 ^ Z.of_nat 20) with (2 ^ 160). lia.
Qed.

(** A request is read back as it was written. *)
Lemma request_roundtrip q :
  request_ok q -> request_from_row (bind_columns q (rq_l2_block_number q)) = Ok q.
Proof.
  intros ((Hg&Hr&Hn&Hl)&Hv&Hk). unfold u64 in Hn. unfold request_from_row, bind_columns.
  cbn [c_l2_block_number c_backend c_game c_root_claim c_l1_head c_verifier_id c_range_vkey_commitment].
  destruct (Z.ltb_spec (rq_l2_block_number q) 0); [lia|].
  rewrite from_as_str, address_roundtrip, !b256_roundtrip by done. cbn [rbind map_err].
  destruct q as [b g r n l v [k|]]; [|done]. unfold option_b256_from_bytes. simpl option_fmap.
  simpl in Hk. cbn [fmap option_fmap option_map rq_range_vkey_commitment].
  by rewrite b256_roundtrip.
Qed.

Lemma u256_bytes_inj v v' : u256 v -> u256 v' -> be_bytes 32 v = be_bytes 32 v' -> v = v'.
Proof. intros Hv Hv' H. pose proof (b256_roundtrip v Hv) as E. rewrite H, b256_roundtrip in E by done. congruence. Qed.

Lemma columns_inj q q' :
  request_ok q -> request_ok q' ->
  bind_columns q (rq_l2_block_number q) = bind_columns q' (rq_l2_block_number q') -> q = q'.
Proof. intros H H' E. pose proof (request_roundtrip q H) as R. rewrite E, request_roundtrip in R by done. congruence. Qed.

Lemma request_matches_spec q q' :
  request_ok q -> request_ok q' -> rq_l2_block_number q <= I64_MAX ->
  request_matches (bind_columns q (rq_l2_block_number q)) q' = Ok true ->
  rq_verifier_id q = rq_verifier_id q' -> rq_range_vkey_commitment q = rq_range_vkey_commitment q' ->
  q = q'.
Proof.
  intros H H' Hn Hm Hv Hk. apply columns_inj; [done..|]. unfold request_matches in Hm.
  cbn [bind_columns c_l2_block_number c_backend c_game c_root_claim c_l1_head] in Hm.
  rewrite b256_roundtrip in Hm by apply H. cbn [rbind map_err] in Hm.
  destruct (_ && _ && _) eqn:Ec; [|done]. apply andb_true_iff in Ec as [[Eb Eg]%andb_true_iff Er].
  apply bool_decide_eq_true in Eb, Eg, Er. unfold l2_to_i64 in Hm.
  destruct (rq_l2_block_number q' <=? I64_MAX); [|done]. cbn [rbind] in Hm. injection Hm as Hm.
  apply andb_true_iff in Hm as [En El]. apply bool_decide_eq_true in En, El.
  unfold bind_columns. by rewrite Eb, Eg, Er, En, El, Hv, Hk.
Qed.

(** *** What the conditions of the statements say of the job *)

Lemma text_spec s l : text s l = true <-> s ∈ l.
Proof. apply bool_decide_eq_true. Qed.

Lemma active_open q j row : job_columns q j row -> active_row row = true -> open j.
Proof.
  intros Hj Ha%text_spec. destruct j; [by left|right; eauto|..]; exfalso;
    destruct Hj as [Hs _]; rewrite Hs in Ha;
    (apply elem_of_cons in Ha as [Ha|[Ha|[]%elem_of_nil]%elem_of_cons]; discriminate).
Qed.

Lemma job_unlocked q j row now :
  job_columns q j row ->
  bool_decide (job_status row = as_str JPending)
    || bool_decide (job_status row = as_str JClaimed) && sql_lt (lock_expires_at row) now = true ->
  unlocked now j.
Proof.
  intros Hj [Hp%bool_decide_eq_true|[Hc%bool_decide_eq_true Hl]%andb_true_iff]%orb_true_iff.
  - destruct j; [by left|..]; exfalso; destruct Hj as (_&Hs&_); rewrite Hs in Hp; discriminate.
  - destruct j as [|w l e| | |]; try (exfalso; destruct Hj as (_&Hs&_); rewrite Hs in Hc; discriminate).
    right. exists w, l, e. destruct Hj as (_&_&_&_&He). rewrite He in Hl. simpl in Hl.
    by apply Z.ltb_lt in Hl.
Qed.

Lemma holds_lock_spec q j row w l now :
  job_columns q j row -> holds_lock w l now row = true -> exists e, j = Locked w l e /\ now < e.
Proof.
  intros Hj Hh. unfold holds_lock in Hh.
  apply andb_true_iff in Hh as [[[Hs Hw]%andb_true_iff Hl]%andb_true_iff He].
  apply bool_decide_eq_true in Hs, Hw, Hl.
  destruct j as [|w' l' e| | |]; destruct Hj as (_&Hs'&Hw'&Hl'&He'); rewrite Hs' in Hs; try discriminate.
  rewrite Hw' in Hw. rewrite Hl' in Hl. rewrite He' in He. injection Hw as ->. injection Hl as ->.
  exists e. split; [done|]. by apply Z.ltb_lt.
Qed.

(** *** Every change of a row is a step of its job *)

(** Shows that a changed row represents a job. *)
Ltac represent := split_and!; first [done|lia|cbn [job_columns]; split_and!; by eauto].

Definition moves (c : store_call) (id : B256) (row row' : Row) : Prop :=
  cols row' = cols row /\
  forall a, represents id row a ->
    exists a', represents id row' a' /\ (a' = a \/ job_step to_vec cfg c a a').

Lemma moves_refl c id row : moves c id row row.
Proof. split; [done|]. intros a Ha. exists a. auto. Qed.

Lemma cancel_moves id game now row :
  c_game (cols row) = game -> active_row row = true ->
  moves (CancelGame game now) id row (ended Cancelled FAILURE_REASON now row).
Proof.
  intros Hg Ha. split; [done|]. intros [q n k j] (Hid&Hok&Hl&Hc&Hn&Hnb&Hk&Hkb&Hj).
  exists (JS q n k (JobCancelled FAILURE_REASON)). split; [represent|right].
  rewrite Hc in Hg. subst game. constructor. by eapply active_open.
Qed.

Lemma exhaust_moves id now row :
  exhausted cfg now row = true ->
  moves (FailExhausted now) id row (ended Failed (exhausted_reason cfg) now row).
Proof.
  intros He. split; [done|]. intros [q n k j] (Hid&Hok&Hl&Hc&Hn&Hnb&Hk&Hkb&Hj).
  apply andb_true_iff in He as [[Hat%Z.leb_le _]%andb_true_iff Hun].
  exists (JS q n k (JobFailed (exhausted_reason cfg))). split; [represent|right].
  constructor; [by rewrite <-Hk|by eapply job_unlocked].
Qed.

Lemma serves_columns r q :
  worker_ok r -> request_ok q ->
  be_bytes 32 (rq_verifier_id q) = be_bytes 32 (gn_verifier_id r) ->
  be_bytes 32 <$> rq_range_vkey_commitment q = be_bytes 32 <$> gn_range_vkey_commitment r ->
  rq_verifier_id q = gn_verifier_id r /\ rq_range_vkey_commitment q = gn_range_vkey_commitment r.
Proof.
  intros [Hv Hk] (_&Hv'&Hk') Ev Ek. split; [by apply u256_bytes_inj|].
  destruct (rq_range_vkey_commitment q) as [v|], (gn_range_vkey_commitment r) as [v'|];
    try discriminate; [|done].
  apply (base.inj Some (be_bytes 32 v) (be_bytes 32 v')) in Ek. f_equal. by apply u256_bytes_inj.
Qed.

Lemma claim_moves id r lock expires now row :
  worker_ok r -> claimable cfg r now row = true ->
  moves (ClaimNext r lock expires now) id row (claimed r lock expires now row).
Proof.
  intros Hr Hcl. split; [done|]. intros [q n k j] (Hid&Hok&Hl&Hc&Hn&Hnb&Hk&Hkb&Hj).
  unfold claimable in Hcl. rewrite Hc in Hcl.
  apply andb_true_iff in Hcl as [[[[Eb Ev]%andb_true_iff Ek]%andb_true_iff Hat]%andb_true_iff Hun].
  apply bool_decide_eq_true in Eb, Ev, Ek. apply Z.ltb_lt in Hat.
  exists (JS q n (k + 1) (Locked (gn_worker_id r) lock expires)). split.
  - split_and!; try done; cbn [claimed attempt retry_count]; lia.
  - right. constructor; [by eapply job_unlocked| |lia].
    apply (base.inj as_str) in Eb. split; [done|]. by apply serves_columns.
Qed.

Lemma extend_moves id w l expires now row :
  holds_lock w l now row = true ->
  moves (ExtendLock id w l expires now) id row (extended expires now row).
Proof.
  intros Hh. split; [done|]. intros [q n k j] (Hid&Hok&Hl&Hc&Hn&Hnb&Hk&Hkb&Hj).
  destruct (holds_lock_spec _ _ _ _ _ _ Hj Hh) as (e&->&He).
  exists (JS q n k (Locked w l expires)). destruct Hj as (?&?&?&?&?).
  split; [represent|right]. by constructor.
Qed.

Lemma finish_done id w l data now row q0 proof a :
  holds_lock w l now row = true -> to_vec proof = Ok data ->
  request_from_row (cols row) = Ok q0 -> rq_backend q0 = proof_backend proof -> represents id row a ->
  exists q n k e, a = JS q n k (Locked w l e) /\ now < e /\ proof_backend proof = rq_backend q /\
    represents id (succeeded data now row) (JS q n k (Done w l e proof)).
Proof.
  intros Hh Hd Hq Hb. destruct a as [q n k j]. intros (Hid&Hok&Hl&Hc&Hn&Hnb&Hk&Hkb&Hj).
  rewrite Hc, request_roundtrip in Hq by done. injection Hq as <-.
  destruct (holds_lock_spec _ _ _ _ _ _ Hj Hh) as (e&->&He). exists q, n, k, e.
  destruct Hj as (?&?&?&?&?). split_and!; [done|done|done|represent].
Qed.

Lemma finish_moves id w l data now row q0 proof :
  holds_lock w l now row = true -> to_vec proof = Ok data ->
  request_from_row (cols row) = Ok q0 -> rq_backend q0 = proof_backend proof ->
  moves (StoreProof id w l data now) id row (succeeded data now row).
Proof.
  intros Hh Hd Hq Hb. split; [done|]. intros a Ha.
  destruct (finish_done _ _ _ _ _ _ _ _ _ Hh Hd Hq Hb Ha) as (q&n&k&e&->&He&Hpb&Hrep).
  eexists. split; [exact Hrep|right]. by apply js_finish.
Qed.

Lemma request_matches_total q q0 :
  request_ok q0 -> rq_l2_block_number q <= I64_MAX ->
  exists b, request_matches (bind_columns q0 (rq_l2_block_number q0)) q = Ok b.
Proof.
  intros H Hl. unfold request_matches.
  cbn [bind_columns c_l2_block_number c_backend c_game c_root_claim c_l1_head].
  rewrite b256_roundtrip by apply H. cbn [rbind map_err]. destruct (_ && _ && _); [|eauto].
  unfold l2_to_i64. destruct (Z.leb_spec (rq_l2_block_number q) I64_MAX); [|lia]. by eexists.
Qed.

Lemma request_matches_refl q :
  request_ok q -> rq_l2_block_number q <= I64_MAX ->
  request_matches (bind_columns q (rq_l2_block_number q)) q = Ok true.
Proof.
  intros H Hl. unfold request_matches.
  cbn [bind_columns c_l2_block_number c_backend c_game c_root_claim c_l1_head].
  rewrite b256_roundtrip by apply H. cbn [rbind map_err]. rewrite !bool_decide_eq_true_2 by done.
  unfold l2_to_i64. destruct (Z.leb_spec (rq_l2_block_number q) I64_MAX); [|lia]. cbn [rbind andb].
  by rewrite !bool_decide_eq_true_2.
Qed.

Lemma option_b256_roundtrip o :
  match o with Some v => u256 v | None => True end ->
  option_b256_from_bytes (be_bytes 32 <$> o) = Ok o.
Proof.
  destruct o as [v|]; intros Hv; [|done]. unfold option_b256_from_bytes.
  cbn [fmap option_fmap option_map]. by rewrite b256_roundtrip.
Qed.

(** The transaction of a conflicting request, by the job of the row. *)
Lemma request_conflict_spec id q row q0 n k j :
  request_ok q -> rq_l2_block_number q <= I64_MAX -> represents id row (JS q0 n k j) ->
  request_conflict cfg id q (Some row) =
    if bool_decide (q0 = q) then
      let response := {| rp_proof_id := id; rp_l1_head := rq_l1_head q |} in
      match j with
      | JobFailed _ =>
          if as_i32 (max_retries cfg) <? n then Err (TooManyRetries id (max_retries cfg))
          else if I32_MAX <? n + 1 then Err (RSqlx "integer out of range")
          else Ok (response, Some (requeued (rq_l1_head q) 1 row))
      | JobCancelled _ => Ok (response, Some (requeued (rq_l1_head q) 0 row))
      | Queued | Locked _ _ _ | Done _ _ _ _ => Ok (response, None)
      end
    else Err (RequestMismatch id).
Proof.
  intros Hok Hl' (Hid&Hok0&Hl&Hc&Hn&Hnb&Hk&Hkb&Hj).
  assert (parse_status (proof_status row) = Ok match j with
    | Queued => Created | Locked _ _ _ => Running | Done _ _ _ _ => Succeeded
    | JobFailed _ => Failed | JobCancelled _ => Cancelled end) as Hst.
  { unfold parse_status. destruct j; destruct Hj as [Hps _]; by rewrite Hps, from_as_str. }
  unfold request_conflict. rewrite Hst. cbn [rbind]. rewrite Hc.
  destruct (request_matches_total q q0 Hok0 Hl') as [b Hb]. rewrite Hb. cbn [rbind].
  case_bool_decide as Hq.
  - subst q0. rewrite request_matches_refl in Hb by done. injection Hb as <-. cbn [negb].
    cbn [bind_columns c_verifier_id c_range_vkey_commitment c_l1_head].
    rewrite b256_roundtrip by apply Hok. cbn [rbind map_err].
    rewrite bool_decide_eq_true_2 by done. cbn [negb].
    rewrite option_b256_roundtrip by apply Hok. cbn [rbind map_err].
    rewrite bool_decide_eq_true_2 by done. cbn [negb rbind].
    destruct j; rewrite ?b256_roundtrip by apply Hok; subst n; done.
  - destruct b; [|done]. cbn [negb].
    cbn [bind_columns c_verifier_id c_range_vkey_commitment c_l1_head].
    rewrite b256_roundtrip by apply Hok0. cbn [rbind map_err].
    case_bool_decide as Hv; [|done]. cbn [negb].
    rewrite option_b256_roundtrip by apply Hok0. cbn [rbind map_err].
    case_bool_decide as Hr; [|done]. destruct Hq.
    by apply request_matches_spec.
Qed.

Lemma requeued_columns q n row :
  cols row = bind_columns q (rq_l2_block_number q) -> cols (requeued (rq_l1_head q) n row) = cols row.
Proof. intros Hc. cbn. by rewrite Hc. Qed.

Lemma requeued_represents id row q n k j m :
  represents id row (JS q n k j) -> 0 <= n + m <= Z.max 0 (as_i32 (max_retries cfg) + 1) ->
  represents id (requeued (rq_l1_head q) m row) (JS q (n + m) 0 Queued).
Proof.
  intros (?&?&?&Hc&?&?&?&?&_) Hm. split_and!; try done; [by rewrite requeued_columns|cbn; lia..].
Qed.

Lemma request_tx_moves id q row response row' :
  request_ok q -> rq_l2_block_number q <= I64_MAX -> (exists a, represents id row a) ->
  request_conflict cfg id q (Some row) = Ok (response, Some row') ->
  moves (RequestTx id q) id row row'.
Proof.
  intros Hok Hl [[q0 n0 k0 j0] Ha0] Hr.
  assert (forall q0 n k j, represents id row (JS q0 n k j) -> q0 = q /\
    ((exists why, j = JobFailed why /\ n <= as_i32 (max_retries cfg) /\ row' = requeued (rq_l1_head q) 1 row) \/
     (exists why, j = JobCancelled why /\ row' = requeued (rq_l1_head q) 0 row))) as Hcases.
  { intros q1 n k j Hrep. rewrite (request_conflict_spec _ _ _ _ _ _ _ Hok Hl Hrep) in Hr.
    case_bool_decide; [|done]. split; [done|]. destruct j as [| | |why|why]; try discriminate.
    - destruct (Z.ltb_spec (as_i32 (max_retries cfg)) n); [done|].
      destruct (I32_MAX <? n + 1); [done|]. injection Hr as _ <-. left. eauto.
    - injection Hr as _ <-. right. eauto. }
  assert (cols row' = cols row) as Hcols.
  { destruct (Hcases _ _ _ _ Ha0) as (->&[(why&_&_&->)|(why&_&->)]);
      apply requeued_columns; apply Ha0. }
  split; [done|]. intros [q1 n k j] Hrep. pose proof Hrep as (?&?&?&?&?&?&?&?&_).
  destruct (Hcases _ _ _ _ Hrep) as (->&[(why&->&?&->)|(why&->&->)]).
  - exists (JS q (n + 1) 0 Queued). split; [|right; by constructor].
    eapply requeued_represents; [exact Hrep|lia].
  - exists (JS q n 0 Queued). split; [|right; by constructor].
    rewrite <-(Z.add_0_r n). eapply requeued_represents; [exact Hrep|lia].
Qed.

(** ** The statements on the whole table *)

Definition table_moves (c : store_call) (m m' : gmap B256 Row) : Prop :=
  forall id, match m !! id, m' !! id with
  | Some row, Some row' => moves c id row row'
  | None, None => True
  | None, Some row' => exists q now, c = InsertRequest id (cols row') now /\
      represents id row' (JS q 0 0 Queued)
  | Some _, None => False
  end.

Definition table_ok (m : gmap B256 Row) : Prop :=
  map_Forall (fun id row => exists a, represents id row a) m.

Lemma table_moves_refl c m : table_moves c m m.
Proof. intros id. destruct (m !! id); [apply moves_refl|done]. Qed.

Lemma table_moves_ok c m m' : table_ok m -> table_moves c m m' -> table_ok m'.
Proof.
  intros Hm Hmv id row' Hr. specialize (Hmv id). rewrite Hr in Hmv.
  destruct (m !! id) as [row|] eqn:E.
  - destruct (Hm _ _ E) as [a Ha]. destruct Hmv as [_ Hmv]. destruct (Hmv _ Ha) as (a'&?&_). eauto.
  - destruct Hmv as (q&now&_&?). eauto.
Qed.

Lemma insert_moves c m id row row' :
  m !! id = Some row -> moves c id row row' -> table_moves c m (<[id := row']> m).
Proof.
  intros Hr Hmv i. destruct (decide (i = id)) as [->|Hne].
  - by rewrite lookup_insert_eq, Hr.
  - rewrite lookup_insert_ne by done. apply table_moves_refl.
Qed.

Lemma update_where_moves c m p f :
  (forall id row, p row = true -> moves c id row (f row)) -> table_moves c m (update_where p f m).
Proof.
  intros Hf id. unfold update_where. rewrite lookup_fmap. destruct (m !! id) as [row|]; [|done]. simpl.
  destruct (p row) eqn:E; [by apply Hf|apply moves_refl].
Qed.

Lemma first_by_elem {A} (le : A -> A -> bool) l x : first_by le l = Some x -> x ∈ l.
Proof.
  revert x. induction l as [|y l IH]; intros x; simpl; [done|].
  destruct (first_by le l) as [z|]; intros [= <-]; [|by left].
  destruct (le y z); [by left|right; by apply IH].
Qed.

Lemma claim_next_spec r lock expires now skip db out db' :
  claim_next cfg r lock expires now skip db = (out, db') ->
  (out = None /\ db' = db) \/
  exists id row, out = Some (cols row) /\ requests db !! id = Some row /\ (id ∉ skip) /\
    claimable cfg r now row = true /\
    db' = set_requests (<[id := claimed r lock expires now row]> (requests db)) db.
Proof.
  unfold claim_next. destruct (first_by _ _) as [[id row]|] eqn:E; intros [= <- <-]; [|by left].
  right. apply first_by_elem, list_elem_of_In, filter_In in E as [E1 E2].
  apply list_elem_of_In, elem_of_map_to_list in E1. apply andb_true_iff in E2 as [E2 E3].
  exists id, row. split_and!; try done. apply negb_true_iff, bool_decide_eq_false in E2. done.
Qed.

(** The calls that the operations make. *)
Definition store_allowed (h : list (event StoreSig)) (e : event StoreSig) : Prop :=
  match projT1 e with
  | InsertRequest id c _ => exists q, request_ok q /\ rq_l2_block_number q <= I64_MAX /\
      id = request_id keccak256 q /\ c = bind_columns q (rq_l2_block_number q)
  | RequestTx id q => request_ok q /\ rq_l2_block_number q <= I64_MAX /\ id = request_id keccak256 q
  | ClaimNext r _ expires now => worker_ok r /\ expires = now + lock_timeout cfg
  | ExtendLock _ _ _ expires now => expires = now + lock_timeout cfg
  | CancelGame g _ => exists game o s outcome status, g = be_bytes 20 game /\
      saw (S := StoreSig) (GameSnapshot game) (Ok (o, s)) h /\
      GameStatus_try_from o = Ok outcome /\ ProposalStatus_try_from s = Ok status /\
      obsolete outcome status = true
  | StoreProof id _ _ data _ => exists row q proof,
      saw (S := StoreSig) (SelectRow id) (Ok (Some row)) h /\
      request_from_row (cols row) = Ok q /\ rq_backend q = proof_backend proof /\
      to_vec proof = Ok data
  | _ => True
  end.

(** The rows that were read still state the same request. *)
Definition reads_stable (h : list (event StoreSig)) (m : gmap B256 Row) : Prop :=
  forall id row, saw (S := StoreSig) (SelectRow id) (Ok (Some row)) h ->
    exists row', m !! id = Some row' /\ cols row' = cols row.

Lemma update_held_moves c id w l now f db held db' :
  update_held id w l now f db = (held, db') ->
  (forall row, requests db !! id = Some row -> holds_lock w l now row = true -> moves c id row (f row)) ->
  table_moves c (requests db) (requests db').
Proof.
  unfold update_held. intros Hu Hf. destruct (requests db !! id) as [row|] eqn:E.
  - destruct (holds_lock w l now row) eqn:Eh; injection Hu as <- <-; [|apply table_moves_refl].
    eapply insert_moves; [exact E|]. by apply Hf.
  - injection Hu as <- <-. apply table_moves_refl.
Qed.

Lemma answers_moves h db c r db' :
  table_ok (requests db) -> reads_stable h (requests db) -> store_allowed h (ev c r) ->
  (exists r', answers cfg db c r' db') -> table_moves c (requests db) (requests db').
Proof.
  intros Hok Hst Hal [r' Ha].
  destruct c as [| | |id c now|id q|id| |game now|now|q lock expires now|id ty|q now
                |id w l data now|id w l expires now|game]; simpl in Hal, Ha.
  1-3, 6-7, 11, 15: destruct_and?; try (destruct Ha as (?&?&?&->)); subst; apply table_moves_refl.
  - destruct Ha as (b&_&Ha), Hal as (q&Hq&Hl&Hid&Hc). unfold insert_request in Ha.
    destruct (requests db !! id) eqn:E; injection Ha as _ <-; [apply table_moves_refl|].
    intros i. simpl. destruct (decide (i = id)) as [->|Hne].
    + rewrite lookup_insert_eq, E. exists q, now. split; [done|]. subst c. represent.
    + rewrite lookup_insert_ne by done. apply table_moves_refl.
  - destruct Hal as (Hq&Hl&Hid). unfold request_tx in Ha.
    destruct (request_conflict cfg id q (requests db !! id)) as [[resp [row'|]]|e] eqn:E;
      injection Ha as _ <-; [|apply table_moves_refl..].
    destruct (requests db !! id) as [row|] eqn:Er; [|done]. eapply insert_moves; [exact Er|].
    eapply request_tx_moves; [done..|by eapply Hok|exact E].
  - destruct Ha as (n&_&[= _ <-]). apply update_where_moves.
    intros id row [Hg%bool_decide_eq_true Hact]%andb_true_iff. by apply cancel_moves.
  - destruct Ha as (n&_&[= _ <-]). apply update_where_moves. intros id row. apply exhaust_moves.
  - destruct Ha as (row&skip&_&[[_ ->]|(id&row'&_&Hr&_&Hcl&->)]%claim_next_spec);
      [apply table_moves_refl|]. eapply insert_moves; [exact Hr|]. destruct Hal. by apply claim_moves.
  - unfold record_tx in Ha. destruct (record_authorized _ _ _); [|injection Ha as _ <-; apply table_moves_refl].
    destruct (check_terminal _ _); [injection Ha as _ <-; apply table_moves_refl|].
    destruct (List.find _ _); injection Ha as _ <-; apply table_moves_refl.
  - destruct Ha as (held&_&Ha), Hal as (row&q&proof&Hrow&Hq&Hb&Hd).
    eapply update_held_moves; [exact Ha|]. intros row' Hr' Hh.
    destruct (Hst _ _ Hrow) as (row''&Hr''&Hc). rewrite Hr' in Hr''. injection Hr'' as <-.
    eapply finish_moves; [done|done|by rewrite Hc|done].
  - destruct Ha as (held&_&Ha). eapply update_held_moves; [exact Ha|]. intros row' _ Hh.
    by apply extend_moves.
Qed.

Definition store_inv (h : list (event StoreSig)) (db : DB) : Prop :=
  table_ok (requests db) /\ reads_stable h (requests db).

Lemma db_step_moves h db e db' :
  store_inv h db -> store_allowed h e -> db_step cfg db e db' ->
  table_moves (projT1 e) (requests db) (requests db').
Proof.
  intros [Hok Hst] Hal Hs. destruct e as [c r]. destruct Hs as [Ha|[_ [->|Ha]]]; simpl in *.
  - eapply answers_moves; eauto.
  - apply table_moves_refl.
  - eapply answers_moves; eauto.
Qed.

Lemma store_inv_step h db e db' :
  store_inv h db -> store_allowed h e -> db_step cfg db e db' -> store_inv (h ++ [e]) db'.
Proof.
  intros Hinv Hal Hs. pose proof (db_step_moves _ _ _ _ Hinv Hal Hs) as Hmv. destruct Hinv as [Hok Hst].
  split; [by eapply table_moves_ok|]. intros id row [Hin|Hin]%saw_app.
  - destruct (Hst _ _ Hin) as (row'&Hr&Hc). specialize (Hmv id). rewrite Hr in Hmv.
    destruct (requests db' !! id) as [row''|]; [|done]. exists row''. split; [done|].
    destruct Hmv as [-> _]. done.
  - destruct Hin as (r&He%list_elem_of_singleton&Hr). simpl in Hr. subst r e.
    destruct Hs as [[[= Hr] ->]|[[m [=]] _]]. exists row. by rewrite <-Hr.
Qed.
End representation.

(** ** The running service *)

(** A call whose answer has no cases. *)
Tactic Notation "sym_name" ident(x) :=
  sym_simpl; apply safe_call; intros x; split; [|sym_simpl].

Section service.
Context (keccak256 : bytes -> B256).
Context (to_vec : ProofData -> result bytes string) (from_slice : bytes -> result ProofData string).
Context (cfg : ProverServiceConfig).

Definition discard {A} (p : prog StoreSig A) : prog StoreSig unit := do _ <- p; Ret tt.

(** The entry points of the service and the iterations of its poller; the
    words that clients send have their types' widths. *)
Inductive api : prog StoreSig unit -> Prop :=
| api_request_proof q : request_ok q -> api (discard (request_proof keccak256 q))
| api_proof_status id : api (discard (get_proof_status id))
| api_get_proof id : api (discard (get_proof from_slice id))
| api_get_next_proof r : worker_ok r -> api (discard (get_next_proof cfg r))
| api_get_proof_session id ty : api (discard (get_proof_session id ty))
| api_record_proof_session r : api (discard (record_proof_session r))
| api_submit_proof r : api (discard (submit_proof to_vec from_slice r))
| api_heartbeat r : api (discard (heartbeat cfg r))
| api_poll : api poll.

(** The service over an empty database, in any interleaving of its operations. *)
Definition service_runs : list (event StoreSig) -> DB -> list (prog StoreSig unit) -> Prop :=
  reach (db_step cfg) empty_db api.

Definition some_reply (c : call StoreSig) : reply StoreSig c :=
  match c return reply StoreSig c with
  | UtcNow | NewLockId => 0
  | BeginTx => Ok tt
  | InsertRequest _ _ _ => Ok true
  | RequestTx _ _ => Err RemoteInternal
  | SelectRow _ => Ok None
  | SelectActiveGames => Ok []
  | CancelGame _ _ => Ok 0
  | FailExhausted _ => Ok 0
  | ClaimNext _ _ _ _ => Ok None
  | SelectSession _ _ => Ok None
  | RecordTx _ _ => Ok tt
  | StoreProof _ _ _ _ _ => Ok true
  | ExtendLock _ _ _ _ _ => Ok true
  | GameSnapshot _ => Ok (0, 0)
  end.

Abbreviation allowed := (store_allowed keccak256 to_vec cfg).

Lemma saw_store_mono c a (h h' : list (event StoreSig)) :
  h ⊆ h' -> saw (S := StoreSig) c a h -> saw (S := StoreSig) c a h'.
Proof. apply saw_mono. Qed.

Lemma allowed_monotone : monotone allowed.
Proof.
  intros h h' [c r] Hs. destruct c; try done; simpl.
  - intros (g&o&s&oc&st&?&?&?&?&?). exists g, o, s, oc, st. eauto 10 using saw_store_mono.
  - intros (row&q&p&?&?&?&?). exists row, q, p. eauto 10 using saw_store_mono.
Qed.

Lemma safe_discard {A} P (p : prog StoreSig A) Q : safe P p Q -> safe P (discard p) (fun _ _ => True).
Proof. intros Hp. eapply safe_bind; [exact Hp|]. intros a t _. by apply safe_ret. Qed.

Lemma request_proof_safe q : request_ok q -> safe allowed (request_proof keccak256 q) (fun _ _ => True).
Proof.
  intros Hq. unfold request_proof. sym_name now; [done|]. sym_call [[]|m]; [done| |by apply safe_ret].
  unfold l2_to_i64. destruct (Z.leb_spec (rq_l2_block_number q) I64_MAX); [|by apply safe_ret].
  sym_call [[]|m]; [by exists q|by apply safe_ret| |by apply safe_ret].
  sym_call [resp|m]; [done|by apply safe_ret..].
Qed.

Lemma submit_proof_safe r : safe allowed (submit_proof to_vec from_slice r) (fun _ _ => True).
Proof.
  unfold submit_proof. sym_name now; [done|]. sym_call [[row|]|m]; [done| |by apply safe_ret..].
  destruct (submit_checks r now row) as [[]|e] eqn:Hchk; [|by apply safe_ret].
  destruct (to_vec (sp_proof (sb_proof r))) as [data|m] eqn:Hd; [|by apply safe_ret].
  unfold submit_checks in Hchk. apply rbind_Ok in Hchk as (q&Hq&Hchk).
  apply rbind_Ok in Hchk as (st&_&Hchk). case_bool_decide as Hb; [done|].
  sym_call [[]|m]; [|by apply safe_ret| |by apply safe_ret].
  { exists row, q, (sp_proof (sb_proof r)). split_and!; [seen|done|done|done]. }
  sym_call [[row'|]|m]; [done| |by apply safe_ret..]. sym_name later; [done|]. by apply safe_ret.
Qed.

Lemma cancel_loop_safe games t0 :
  safe (fun h => allowed (t0 ++ h)) (cancel_loop games) (fun _ _ => True).
Proof.
  revert t0. induction games as [|game games IH]; intros t0; cbn [cancel_loop]; [by apply safe_ret|].
  assert (forall l, safe (fun h => allowed (t0 ++ l ++ h)) (cancel_loop games) (fun _ _ => True)) as Hrest.
  { intros l. eapply safe_conseq; [apply (IH (t0 ++ l))| |done]. intros h' e. cbv beta. by rewrite <-app_assoc. }
  unfold proof_is_obsolete. sym_call [[o s]|m]; [done| |eapply (Hrest [_])].
  cbn [rbind fst snd].
  destruct (GameStatus_try_from o) as [oc|] eqn:Ho; cbn [rbind map_err]; [|eapply (Hrest [_])].
  destruct (ProposalStatus_try_from s) as [st|] eqn:Hst; cbn [rbind map_err]; [|eapply (Hrest [_])].
  destruct (obsolete oc st) eqn:Hob; [|eapply (Hrest [_])]. unfold cancel_game_proofs.
  sym_name now; [done|]. sym_call [n|m]; [|eapply (Hrest [_; _; _])..].
  exists game, o, s, oc, st. split_and!; [done|seen|done..].
Qed.

Lemma poll_safe : safe allowed poll (fun _ _ => True).
Proof.
  unfold poll. eapply (safe_bind _ _ _ (fun _ _ => True)).
  - unfold cancel_obsolete_proofs. eapply (safe_bind_try _ _ _ (fun _ _ => True)); [|done|].
    + unfold active_games. sym_call [games|m]; [done|by apply safe_ret..].
    + intros games t1 _. eapply safe_bind; [apply (cancel_loop_safe games t1)|].
      intros [] t2 _. by apply safe_ret.
  - intros r t1 _. unfold mark_exhausted_proof_requests_failed. sym_name now; [done|].
    sym_call [n|m]; [done|by apply safe_ret..].
Qed.

Lemma api_safe p : api p -> safe_after allowed [] p.
Proof.
  assert (forall p : prog StoreSig unit,
    safe allowed p (fun _ _ => True) -> safe_after allowed [] p) as Hp.
  { intros q Hq tr a Hr. by apply Hq in Hr as [? _]. }
  intros Ha. apply Hp. destruct Ha as [q Hq|id|id|r Hr|id ty|r|r|r|].
  - by eapply safe_discard, request_proof_safe.
  - eapply (safe_discard _ _ (fun _ _ => True)). unfold get_proof_status.
    sym_call [row|m]; [done|by apply safe_ret..].
  - eapply (safe_discard _ _ (fun _ _ => True)). unfold get_proof.
    sym_call [row|m]; [done|by apply safe_ret..].
  - eapply (safe_discard _ _ (fun _ _ => True)). unfold get_next_proof.
    sym_name lock; [done|]. sym_name now; [done|]. sym_call [row|m]; [done|by apply safe_ret..].
  - eapply (safe_discard _ _ (fun _ _ => True)). unfold get_proof_session.
    sym_call [row|m]; [done|by apply safe_ret..].
  - eapply (safe_discard _ _ (fun _ _ => True)). unfold record_proof_session.
    sym_name now; [done|]. sym_call [[]|m]; [done| |by apply safe_ret].
    sym_call [[]|m]; [done|by apply safe_ret..].
  - eapply safe_discard, submit_proof_safe.
  - eapply (safe_discard _ _ (fun _ _ => True)). unfold heartbeat.
    sym_name now; [done|]. sym_call [[]|m]; [done|by apply safe_ret| |by apply safe_ret].
    sym_call [row|m]; [done|by apply safe_ret..].
  - apply poll_safe.
Qed.

Lemma service_guarded h db ts : service_runs h db ts -> guarded allowed h.
Proof.
  eapply (reach_invariant _ _ _ some_reply allowed allowed_monotone api_safe (fun h _ => guarded allowed h)).
  - apply guarded_nil.
  - intros h' d e d' Hg He _. apply guarded_app. split; [done|]. apply guarded_cons.
    split; [by rewrite app_nil_r|apply guarded_nil].
Qed.

Lemma service_inv h db ts : service_runs h db ts -> store_inv keccak256 to_vec cfg h db.
Proof.
  eapply (reach_invariant _ _ _ some_reply allowed allowed_monotone api_safe).
  - split; [apply map_Forall_empty|]. intros id row (r&Hin&_). by apply elem_of_nil in Hin.
  - apply store_inv_step.
Qed.

Lemma service_next h db ts1 c k ts2 r :
  service_runs h db (ts1 ++ Call c k :: ts2) -> allowed h (ev c r).
Proof.
  intros Hr. eapply (safe_after_call some_reply).
  apply (reach_safe _ _ _ allowed allowed_monotone api_safe) in Hr.
  apply Forall_app in Hr as [_ [Hc _]%Forall_cons]. exact Hc.
Qed.

(** *** Proofs that were stored *)

Definition stored_final (h : list (event StoreSig)) (db : DB) : Prop :=
  forall id w l data now, saw (S := StoreSig) (StoreProof id w l data now) (Ok true) h ->
    exists row q n k e proof, requests db !! id = Some row /\
      represents keccak256 to_vec cfg id row (JS q n k (Done w l e proof)) /\ to_vec proof = Ok data /\
      proof_data row = Some data.

Lemma done_moves c id row row' q n k w l e proof data :
  moves keccak256 to_vec cfg c id row row' ->
  represents keccak256 to_vec cfg id row (JS q n k (Done w l e proof)) -> to_vec proof = Ok data ->
  represents keccak256 to_vec cfg id row' (JS q n k (Done w l e proof)) /\ proof_data row' = Some data.
Proof.
  intros [_ Hmv] Hrep Hd. destruct (Hmv _ Hrep) as (a'&Hrep'&[->|Hs]).
  - split; [done|]. destruct Hrep' as (_&_&_&_&_&_&_&_&_&_&_&_&_&_&data'&Hd'&Hp). congruence.
  - exfalso. inversion Hs as [| |??????? j Hun| | |???? j Ho|???? j ? Hun]; subst.
    + destruct Hun as [?|(?&?&?&?&_)]; discriminate.
    + destruct Ho as [?|(?&?&?&?)]; discriminate.
    + destruct Hun as [?|(?&?&?&?&_)]; discriminate.
Qed.

Lemma stored_final_step h db e db' :
  store_inv keccak256 to_vec cfg h db -> stored_final h db -> allowed h e -> db_step cfg db e db' ->
  stored_final (h ++ [e]) db'.
Proof.
  intros Hinv Hfin Hal Hs. pose proof (db_step_moves _ _ _ _ _ _ _ Hinv Hal Hs) as Hmv.
  intros id w l data now [Hin|Hin]%saw_app.
  - destruct (Hfin _ _ _ _ _ Hin) as (row&q&n&k&x&p&Hr&Hrep&Hd&_). specialize (Hmv id).
    rewrite Hr in Hmv. destruct (requests db' !! id) as [row'|]; [|done].
    destruct (done_moves _ _ _ _ _ _ _ _ _ _ _ _ Hmv Hrep Hd) as [? ?]. by exists row', q, n, k, x, p.
  - destruct Hin as (r&He%list_elem_of_singleton&Hr). simpl in Hr. subst r e.
    destruct Hs as [(held&[= <-]&Hu)|[[m [=]] _]]. unfold update_held in Hu.
    destruct (requests db !! id) as [row|] eqn:Er; [|done].
    destruct (holds_lock w l now row) eqn:Hh; [|done]. injection Hu as <-.
    destruct Hal as (row0&q0&proof&Hsaw&Hq&Hb&Hd). destruct Hinv as [Hok Hst].
    destruct (Hst _ _ Hsaw) as (row1&Hr1&Hc). rewrite Er in Hr1. injection Hr1 as <-.
    destruct (Hok _ _ Er) as [a Ha]. rewrite <-Hc in Hq.
    destruct (finish_done _ _ _ _ _ _ _ _ _ _ _ _ Hh Hd Hq Hb Ha) as (q&n&k&x&_&_&_&Hrep).
    exists (succeeded data now row), q, n, k, x, proof. simpl. by rewrite lookup_insert_eq.
Qed.

Lemma service_stored h db ts : service_runs h db ts -> stored_final h db.
Proof.
  intros Hr. cut (store_inv keccak256 to_vec cfg h db /\ stored_final h db); [by intros []|].
  revert h db ts Hr.
  eapply (reach_invariant _ _ _ some_reply allowed allowed_monotone api_safe
    (fun h db => store_inv keccak256 to_vec cfg h db /\ stored_final h db)).
  - split; [split; [apply map_Forall_empty|]|]; intros id; intros; destruct_and?;
      match goal with H : saw _ _ [] |- _ => destruct H as (?&Hin&_) end; by apply elem_of_nil in Hin.
  - intros h d e d' [Hi Hf] He Hs. split; [by eapply store_inv_step|by eapply stored_final_step].
Qed.

(** *** Sessions *)

Definition sessions_ok (db : DB) : Prop :=
  NoDup (map se_id (sessions db)) /\ Forall (fun s => se_id s < next_session db) (sessions db) /\
  forall s s', s ∈ sessions db -> s' ∈ sessions db -> session_active s = true -> session_active s' = true ->
    se_proof_id s = se_proof_id s' -> se_session_type s = se_session_type s' -> s = s'.

Definition terminal_kept (db db' : DB) : Prop :=
  forall s, s ∈ sessions db -> session_active s = false -> s ∈ sessions db'.

Lemma sessions_map_ok (g : Session -> Session) db db' :
  sessions db' = map g (sessions db) -> next_session db' = next_session db ->
  (forall s, se_id (g s) = se_id s /\ se_proof_id (g s) = se_proof_id s /\
     se_session_type (g s) = se_session_type s /\
     (session_active (g s) = true -> session_active s = true) /\
     (session_active s = false -> g s = s)) ->
  sessions_ok db -> sessions_ok db' /\ terminal_kept db db'.
Proof.
  intros Hs Hn Hg (Hnd&Hlt&Huniq). split; [split_and!|].
  - rewrite Hs, List.map_map. erewrite map_ext; [exact Hnd|]. intros s. apply Hg.
  - rewrite Hs, Hn. apply Forall_fmap. eapply Forall_impl; [exact Hlt|]. intros s Hlt'. simpl.
    by rewrite (proj1 (Hg s)).
  - rewrite Hs. intros s s' (x&->&Hx)%list_elem_of_fmap (y&->&Hy)%list_elem_of_fmap Ha Ha' Hp Ht.
    destruct (Hg x) as (_&Hpx&Htx&Hax&_), (Hg y) as (_&Hpy&Hty&Hay&_). f_equal.
    apply Huniq; [done|done|auto|auto|congruence|congruence].
  - intros s Hin Ha. rewrite Hs. rewrite <-(proj2 (proj2 (proj2 (proj2 (Hg s)))) Ha).
    by apply list_elem_of_fmap_2.
Qed.

Lemma terminal_kept_refl db : terminal_kept db db.
Proof. by intros s. Qed.

Lemma fail_exhausted_sessions now db n db' :
  fail_exhausted cfg now db = (n, db') -> sessions_ok db -> sessions_ok db' /\ terminal_kept db db'.
Proof.
  intros [= _ <-]. eapply sessions_map_ok; [reflexivity|done|]. intros s. cbv beta.
  destruct (from_option _ _ _); [|by split_and!]. destruct (session_active s) eqn:Ha; [by split_and!|].
  cbn [andb]. rewrite Ha. by split_and!.
Qed.

Lemma record_tx_sessions r now db out db' :
  record_tx r now db = (out, db') -> sessions_ok db -> sessions_ok db' /\ terminal_kept db db'.
Proof.
  intros Hr Hok. assert (sessions_ok db /\ terminal_kept db db) as Hsame by auto using terminal_kept_refl.
  unfold record_tx in Hr. destruct (record_authorized _ _ _); [|by injection Hr as _ <-].
  destruct (check_terminal _ _); [by injection Hr as _ <-|].
  destruct (List.find _ _) as [active|] eqn:Hf; injection Hr as _ <-.
  - eapply sessions_map_ok; [reflexivity|done| |done]. intros s. cbv beta.
    destruct (bool_decide _); [|by split_and!].
    destruct (session_active s) eqn:Ha; [by split_and!|].
    cbn [andb]. rewrite Ha. by split_and!.
  - destruct Hok as (Hnd&Hlt&Huniq). pose proof (List.find_none _ _ Hf) as Hnone.
    split; [split_and!; simpl|].
    + rewrite map_app. apply NoDup_app. split_and!; [done| |apply NoDup_singleton].
      intros i (s&->&Hs)%list_elem_of_fmap Hi%list_elem_of_singleton. simpl in Hi.
      rewrite Forall_forall in Hlt. specialize (Hlt _ Hs). lia.
    + apply Forall_app_2; [|constructor; [simpl; lia|constructor]].
      eapply Forall_impl; [exact Hlt|]. simpl. lia.
    + assert (forall s, s ∈ sessions db -> session_active s = true ->
        se_proof_id s = rs_proof_id r -> se_session_type s = as_str (rs_session_type r) -> False) as Hno.
      { intros s Hs%list_elem_of_In Ha Hp Ht. specialize (Hnone _ Hs). unfold of_type in Hnone.
        by rewrite Ha, Hp, Ht, !bool_decide_eq_true_2 in Hnone. }
      intros s s' [Hs| ->%list_elem_of_singleton]%elem_of_app [Hs'| ->%list_elem_of_singleton]%elem_of_app
        Ha Ha' Hp Ht; simpl in *; [by apply Huniq|by destruct (Hno s)|by destruct (Hno s')|done].
    + intros s Hs _. simpl. by apply elem_of_app; left.
Qed.

Lemma answers_sessions db c r db' :
  answers cfg db c r db' -> sessions_ok db -> sessions_ok db' /\ terminal_kept db db'.
Proof.
  intros Ha Hok.
  assert (forall d, sessions d = sessions db -> next_session d = next_session db ->
    sessions_ok d /\ terminal_kept db d) as Hsame.
  { intros d Hs Hn. unfold sessions_ok, terminal_kept. by rewrite Hs, Hn. }
  destruct c as [| | |id c now|id q|id| |game now|now|q lock expires now|id ty|q now
                |id w l data now|id w l expires now|game]; simpl in Ha.
  1-3, 6-7, 11, 15: destruct_and?; try (destruct Ha as (?&?&?&->)); subst; by apply Hsame.
  - destruct Ha as (b&_&Ha). unfold insert_request in Ha.
    destruct (requests db !! id); injection Ha as _ <-; by apply Hsame.
  - unfold request_tx in Ha. destruct (request_conflict _ _ _ _) as [[? [|]]|]; injection Ha as _ <-;
      by apply Hsame.
  - destruct Ha as (n&_&[= _ <-]). by apply Hsame.
  - destruct Ha as (n&_&Ha). by eapply fail_exhausted_sessions.
  - destruct Ha as (row&skip&_&[[_ ->]|(id&row'&_&_&_&_&->)]%claim_next_spec); by apply Hsame.
  - by eapply record_tx_sessions.
  - destruct Ha as (held&_&Ha). unfold update_held in Ha. destruct (requests db !! id); [|injection Ha as _ <-; by apply Hsame].
    destruct (holds_lock _ _ _ _); injection Ha as _ <-; by apply Hsame.
  - destruct Ha as (held&_&Ha). unfold update_held in Ha. destruct (requests db !! id); [|injection Ha as _ <-; by apply Hsame].
    destruct (holds_lock _ _ _ _); injection Ha as _ <-; by apply Hsame.
Qed.

Lemma db_step_sessions db e db' :
  db_step cfg db e db' -> sessions_ok db -> sessions_ok db' /\ terminal_kept db db'.
Proof.
  intros [Ha|[_ [->|[r Ha]]]] Hok; [by eapply answers_sessions| |by eapply answers_sessions].
  split; [done|apply terminal_kept_refl].
Qed.

Lemma service_sessions h db ts : service_runs h db ts -> sessions_ok db.
Proof.
  eapply (reach_invariant _ _ _ some_reply allowed allowed_monotone api_safe (fun _ db => sessions_ok db)).
  - split_and!; [constructor|constructor|]. intros s s' Hs. by apply elem_of_nil in Hs.
  - intros h' d e d' Hok _ Hs. by eapply db_step_sessions.
Qed.

(** A session is recorded by the worker that holds the lock of its request. *)
Lemma record_tx_authorized h db ts r now out db' :
  service_runs h db ts -> record_tx r now db = (out, db') -> sessions db' <> sessions db ->
  exists row q n k e, requests db !! rs_proof_id r = Some row /\ now < e /\
    represents keccak256 to_vec cfg (rs_proof_id r) row
      (JS q n k (Locked (rs_worker_id r) (rs_lock_id r) e)).
Proof.
  intros Hrun Hr Hne. unfold record_tx in Hr.
  destruct (record_authorized r now _) as [[]|] eqn:Hauth; [|by injection Hr as _ <-].
  clear Hr Hne. unfold record_authorized in Hauth.
  destruct (requests db !! rs_proof_id r) as [row|] eqn:Er; [|done].
  destruct (proj1 (service_inv _ _ _ Hrun) _ _ Er) as [[q n k j] Hrep].
  pose proof Hrep as (_&_&_&_&_&_&_&_&Hj). exists row, q, n, k.
  apply rbind_Ok in Hauth as (st&Hst&Hauth). case_bool_decide as Hc; [done|].
  destruct (_ || _) eqn:Hlk; [done|]. apply orb_false_iff in Hlk as [Hl Hw].
  apply bool_decide_eq_false, dec_stable in Hl, Hw.
  apply map_err_Ok, as_from_str in Hst.
  subst st.
  destruct j as [|w l e| | |]; destruct Hj as (_&Hjs&Hw'&Hl'&He'); rewrite Hjs in Hst; try discriminate.
  exists e. rewrite He' in Hauth. simpl in Hauth. destruct (Z.leb_spec e now); [done|].
  split_and!; [done|done|]. congruence.
Qed.

(** *** The order of claims *)

Lemma first_by_min {A} (le : A -> A -> bool) l x :
  (forall a b, le a b = true \/ le b a = true) ->
  (forall a b c, le a b = true -> le b c = true -> le a c = true) ->
  first_by le l = Some x -> forall y, y ∈ l -> le x y = true.
Proof.
  intros Htot Htr. assert (forall a, le a a = true) as Hrefl by (intros a; by destruct (Htot a a)).
  revert x. induction l as [|a l IH]; intros x; simpl; [done|].
  destruct (first_by le l) as [z|] eqn:E; intros [= <-] y [->|Hy]%elem_of_cons.
  - destruct (le a z) eqn:Hle; [done|]. destruct (Htot a z); congruence.
  - specialize (IH _ eq_refl _ Hy). destruct (le a z) eqn:Hle; [by eapply Htr|done].
  - done.
  - destruct l; [by apply elem_of_nil in Hy|]. simpl in E. by destruct (first_by le l).
Qed.

Lemma before_spec a b :
  before a b = true <->
  c_l2_block_number (cols a.2) < c_l2_block_number (cols b.2) \/
  c_l2_block_number (cols a.2) = c_l2_block_number (cols b.2) /\
    (created_at a.2 < created_at b.2 \/ created_at a.2 = created_at b.2 /\ a.1 <= b.1).
Proof.
  unfold before. rewrite orb_true_iff, andb_true_iff, orb_true_iff, andb_true_iff.
  by rewrite !Z.ltb_lt, !Z.eqb_eq, Z.leb_le.
Qed.

Lemma first_claimable (rows : list (B256 * Row)) x :
  first_by before rows = Some x -> forall y, y ∈ rows -> before x y = true.
Proof.
  apply first_by_min.
  - intros a b. rewrite !before_spec. lia.
  - intros a b c. rewrite !before_spec. lia.
Qed.

Lemma first_by_None {A} (le : A -> A -> bool) l : first_by le l = None -> l = [].
Proof. destruct l as [|x l]; [done|]. simpl. by destruct (first_by le l). Qed.

Lemma claim_candidates r now (skip : gset B256) db id row :
  (id, row) ∈ List.filter (fun kv => negb (bool_decide (kv.1 ∈ skip)) && claimable cfg r now kv.2)
    (map_to_list (requests db)) <->
  requests db !! id = Some row /\ (id ∉ skip) /\ claimable cfg r now row = true.
Proof.
  rewrite list_elem_of_In, filter_In, <-list_elem_of_In, elem_of_map_to_list.
  rewrite andb_true_iff, negb_true_iff, bool_decide_eq_false. done.
Qed.

(** *** Jobs whose lock has run out *)

Definition worker_for (q : ProofRequest) (name : string) : GetNextProofRequest :=
  {| gn_backend := rq_backend q; gn_worker_id := name; gn_verifier_id := rq_verifier_id q;
     gn_range_vkey_commitment := rq_range_vkey_commitment q |}.

Lemma open_job_columns q j row now :
  job_columns to_vec q j row -> active_row row = true ->
  from_option (fun e => e < now) True (lock_expires_at row) ->
  bool_decide (job_status row = as_str JPending)
    || bool_decide (job_status row = as_str JClaimed) && sql_lt (lock_expires_at row) now = true.
Proof.
  intros Hj Ha He. destruct (active_open _ _ _ _ Hj Ha) as [->|(w&l&e&->)].
  - destruct Hj as (_&Hs&_). rewrite Hs. by rewrite bool_decide_eq_true_2.
  - destruct Hj as (_&Hs&_&_&Hx). rewrite Hx in *. simpl in *. rewrite Hs.
    apply orb_true_iff. right. rewrite bool_decide_eq_true_2 by done. by apply Z.ltb_lt.
Qed.

(** *** Operations that run alone *)

(** The answer of [submit_proof] and the row after it. *)
Definition submit_outcome (id : B256) (proof : ProofData) (w : string) (l now : Z) (q : ProofRequest) (j : Job)
    : result unit ProofJobQueueError :=
  if bool_decide (rq_backend q <> proof_backend proof)
  then Err (BackendMismatch id (rq_backend q) (proof_backend proof))
  else match j with
       | Locked w' l' e | Done w' l' e _ =>
           if bool_decide (l' <> l) || bool_decide (w' <> w) then Err (StaleLock id)
           else if e <=? now then Err (LockExpired id)
           else match j with Done _ _ _ _ => Err (AlreadyTerminal id) | _ => Ok tt end
       | Queued | JobFailed _ | JobCancelled _ => Err (StaleLock id)
       end.

Lemma job_status_of q j row :
  job_columns to_vec q j row ->
  from_str (job_status row) = Ok match j with
    | Queued => JPending | Locked _ _ _ => JClaimed | Done _ _ _ _ => JSucceeded
    | JobFailed _ | JobCancelled _ => JFailed end.
Proof. intros Hj. destruct j; destruct Hj as (_&Hs&_); by rewrite Hs, from_as_str. Qed.

Lemma lock_of q j row :
  job_columns to_vec q j row ->
  (worker_id row, lock_id row, lock_expires_at row) = match j with
    | Locked w l e | Done w l e _ => (Some w, Some l, Some e)
    | Queued | JobFailed _ | JobCancelled _ => (None, None, None) end.
Proof.
  intros Hj. destruct j; simpl in Hj; destruct_and?; congruence.
Qed.

Lemma submit_checks_spec id proof w l now row q n k j :
  represents keccak256 to_vec cfg id row (JS q n k j) ->
  submit_checks {| sb_proof := {| sp_id := id; sp_proof := proof |}; sb_worker_id := w; sb_lock_id := l |}
    now row = submit_outcome id proof w l now q j.
Proof.
  intros (Hid&Hok&Hl&Hc&Hn&Hnb&Hk&Hkb&Hj). unfold submit_checks, submit_outcome.
  cbn [sb_proof sp_id sp_proof sb_worker_id sb_lock_id].
  rewrite Hc, request_roundtrip by done. cbn [rbind]. rewrite (job_status_of _ _ _ Hj). cbn [rbind map_err].
  case_bool_decide; [done|]. apply lock_of in Hj.
  destruct j as [|w' l' e|w' l' e p|why|why]; injection Hj as Hw' Hl' He';
    rewrite Hw', Hl', He'; cbn [from_option]; try done.
  - rewrite (bool_decide_ext (Some l' <> Some l) (l' <> l)), (bool_decide_ext (Some w' <> Some w) (w' <> w))
      by naive_solver. done.
  - rewrite (bool_decide_ext (Some l' <> Some l) (l' <> l)), (bool_decide_ext (Some w' <> Some w) (w' <> w))
      by naive_solver. done.
Qed.

Lemma submit_outcome_held id proof w l now row q n k j :
  represents keccak256 to_vec cfg id row (JS q n k j) -> submit_outcome id proof w l now q j = Ok tt ->
  holds_lock w l now row = true.
Proof.
  intros (_&_&_&_&_&_&_&_&Hj) Hout. unfold submit_outcome in Hout. case_bool_decide; [done|].
  destruct j as [|w' l' e|w' l' e p|why|why]; try done.
  - destruct (_ || _) eqn:Hlw; [done|]. destruct (Z.leb_spec e now); [done|].
    apply orb_false_iff in Hlw as [Hl Hw]. apply bool_decide_eq_false, dec_stable in Hl, Hw. subst.
    destruct Hj as (_&Hs&Hw&Hl&He). unfold holds_lock, sql_eq. rewrite Hs, Hw, Hl, He.
    rewrite !bool_decide_eq_true_2 by done. by apply Z.ltb_lt.
  - destruct (_ || _); [done|]. by destruct (e <=? now).
Qed.

(** The answer of [heartbeat]. *)
Definition heartbeat_outcome (id : B256) (w : string) (l now : Z) (j : Job) : result unit ProofJobQueueError :=
  match j with
  | Locked w' l' e =>
      if bool_decide (l' <> l) || bool_decide (w' <> w) then Err (StaleLock id)
      else if e <=? now then Err (LockExpired id) else Ok tt
  | Queued => Err (ProofJobStatusNotClaimed id JClaimed JPending)
  | Done _ _ _ _ | JobFailed _ | JobCancelled _ => Err (AlreadyTerminal id)
  end.

Lemma heartbeat_held id w l now row q n k j :
  represents keccak256 to_vec cfg id row (JS q n k j) ->
  holds_lock w l now row = is_ok (heartbeat_outcome id w l now j).
Proof.
  intros (_&_&_&_&_&_&_&_&Hj).
  destruct (holds_lock w l now row) eqn:Hh.
  - destruct (holds_lock_spec _ _ _ _ _ _ _ Hj Hh) as (e&->&He). simpl.
    rewrite !bool_decide_eq_false_2 by naive_solver. simpl. by destruct (Z.leb_spec e now); [lia|].
  - destruct j as [|w' l' e|w' l' e p|why|why]; try done. simpl.
    destruct (_ || _) eqn:Hlw; [done|]. destruct (Z.leb_spec e now) as [|He]; [done|].
    apply orb_false_iff in Hlw as [Hl Hw]. apply bool_decide_eq_false, dec_stable in Hl, Hw. subst.
    destruct Hj as (_&Hs&Hw&Hl&He'). unfold holds_lock, sql_eq in Hh. rewrite Hs, Hw, Hl, He' in Hh.
    rewrite !bool_decide_eq_true_2 in Hh by done. simpl in Hh. by apply Z.ltb_ge in Hh; lia.
Qed.

Lemma heartbeat_diagnosis_spec id w l now row q n k j e :
  represents keccak256 to_vec cfg id row (JS q n k j) -> heartbeat_outcome id w l now j = Err e ->
  heartbeat_diagnosis {| hb_proof_id := id; hb_worker_id := w; hb_lock_id := l |} now row = Err e.
Proof.
  intros (_&_&_&_&_&_&_&_&Hj) He. unfold heartbeat_diagnosis.
  cbn [hb_proof_id hb_worker_id hb_lock_id].
  rewrite (job_status_of _ _ _ Hj). cbn [rbind map_err]. destruct j as [|w' l' x|w' l' x p|why|why]; try done.
  destruct Hj as (_&_&Hw'&Hl'&He'). rewrite Hw', Hl', He'. cbn [from_option]. simpl in He.
  rewrite (bool_decide_ext (Some l' <> Some l) (l' <> l)), (bool_decide_ext (Some w' <> Some w) (w' <> w))
    by naive_solver.
  destruct (_ || _); [done|]. by destruct (x <=? now).
Qed.

(** ** Theorems *)

(** C6: The store implements the life cycle of jobs.  In every state that the
    service can reach, whatever the interleaving of its operations, dropped
    calls, lost answers and rows skipped by claims, each row stands for a job
    (its status columns agree with each other and with its lock, its counters
    are in bounds, its key is the identifier of the request it states), and the
    next statement of any operation takes each row to itself or along a step of
    the life cycle, adds only queued jobs, and removes none. *)
Theorem store_refines_lifecycle h db ts1 c k ts2 r db' :
  service_runs h db (ts1 ++ Call c k :: ts2) -> db_step cfg db (ev c r) db' ->
  table_ok keccak256 to_vec cfg (requests db) /\
  table_moves keccak256 to_vec cfg c (requests db) (requests db').
Proof.
  intros Hrun Hs. pose proof (service_inv _ _ _ Hrun) as Hinv. split; [apply Hinv|].
  apply (db_step_moves _ _ _ _ _ _ _ Hinv (service_next _ _ _ _ _ _ _ Hrun) Hs).
Qed.

(** A proof that was stored for a request is final: from then on the request
    is succeeded and holds that proof, by the worker and under the lock that
    submitted it, and reading it returns that proof. *)
Theorem stored_proof_is_final h db ts id w l data now clock :
  (forall p b, to_vec p = Ok b -> from_slice b = Ok p) ->
  service_runs h db ts -> saw (S := StoreSig) (StoreProof id w l data now) (Ok true) h ->
  exists row q n k e proof, requests db !! id = Some row /\
    represents keccak256 to_vec cfg id row (JS q n k (Done w l e proof)) /\ to_vec proof = Ok data /\
    value_of (serve cfg) (get_proof from_slice id) (db, clock) = Ok (ResponseSucceeded id proof).
Proof.
  intros Hjson Hrun Hsaw.
  destruct (service_stored _ _ _ Hrun _ _ _ _ _ Hsaw) as (row&q&n&k&e&proof&Hr&Hrep&Hd&Hp).
  exists row, q, n, k, e, proof. split_and!; [done..|]. unfold value_of, get_proof. simpl. rewrite Hr.
  destruct Hrep as (_&_&_&_&_&_&_&_&Hs&_). unfold parse_status.
  cbn [rbind ok_or map_err]. rewrite Hs, from_as_str. cbn [rbind map_err]. rewrite Hp. cbn [rbind ok_or].
  by rewrite (Hjson _ _ Hd).
Qed.

(** A claim hands out the first claimable row in the order of block number,
    age and identifier among the rows that no other transaction holds, locks it
    for the worker and counts the attempt; it hands out nothing only if no such
    row is claimable. *)
Theorem claim_takes_first r lock expires now skip db out db' :
  claim_next cfg r lock expires now skip db = (out, db') ->
  match out with
  | None => db' = db /\ forall id row, requests db !! id = Some row -> (id ∉ skip) ->
      claimable cfg r now row = false
  | Some c => exists id row, c = cols row /\ requests db !! id = Some row /\ (id ∉ skip) /\
      claimable cfg r now row = true /\
      db' = set_requests (<[id := claimed r lock expires now row]> (requests db)) db /\
      forall id' row', requests db !! id' = Some row' -> (id' ∉ skip) ->
        claimable cfg r now row' = true -> before (id, row) (id', row') = true
  end.
Proof.
  unfold claim_next. destruct (first_by _ _) as [[id row]|] eqn:E; intros [= <- <-].
  - pose proof (first_by_elem _ _ _ E) as (Hr&Hsk&Hcl)%claim_candidates.
    exists id, row. split_and!; [done..|]. intros id' row' Hr' Hsk' Hcl'.
    apply (first_claimable _ _ E). by apply claim_candidates.
  - split; [done|]. intros id row Hr Hsk. apply first_by_None in E.
    destruct (claimable cfg r now row) eqn:Hcl; [|done].
    assert ((id, row) ∈ @nil (B256 * Row)) as Hin; [|by apply elem_of_nil in Hin].
    rewrite <-E. by apply claim_candidates.
Qed.

(** No job is stuck: in every reachable state, an unfinished job whose lock
    (if any) has run out either is claimable, so that a worker for its verifier
    gets a job, or has used up its attempts, and then the poller's statement
    ends it as failed. *)
Theorem no_stuck_job h db ts id row now name lock expires :
  service_runs h db ts -> requests db !! id = Some row -> active_row row = true ->
  from_option (fun e => e < now) True (lock_expires_at row) ->
  exists q n k j, represents keccak256 to_vec cfg id row (JS q n k j) /\
    if k <? as_i32 (max_attempts cfg)
    then claimable cfg (worker_for q name) now row = true /\
         is_Some (claim_next cfg (worker_for q name) lock expires now ∅ db).1
    else exists row', requests (fail_exhausted cfg now db).2 !! id = Some row' /\
         represents keccak256 to_vec cfg id row' (JS q n k (JobFailed (exhausted_reason cfg))).
Proof.
  intros Hrun Hr Hact He. destruct (proj1 (service_inv _ _ _ Hrun) _ _ Hr) as [[q n k j] Hrep].
  exists q, n, k, j. split; [done|]. pose proof Hrep as (Hid&Hok&Hl&Hc&Hn&Hnb&Hk&Hkb&Hj).
  pose proof (open_job_columns _ _ _ _ Hj Hact He) as Hun. destruct (Z.ltb_spec k (as_i32 (max_attempts cfg))).
  - assert (claimable cfg (worker_for q name) now row = true) as Hcl.
    { unfold claimable. rewrite Hc, Hun, Hk. cbn [bind_columns c_backend c_verifier_id
        c_range_vkey_commitment worker_for gn_backend gn_verifier_id gn_range_vkey_commitment].
      rewrite !bool_decide_eq_true_2 by done. rewrite andb_true_r. by apply Z.ltb_lt. }
    split; [done|]. unfold claim_next. destruct (first_by _ _) as [[id' row']|] eqn:E; [by eexists|].
    exfalso. apply first_by_None in E. assert ((id, row) ∈ @nil (B256 * Row)) as Hin; [|by apply elem_of_nil in Hin].
    rewrite <-E. apply claim_candidates. split_and!; [done|set_solver|done].
  - assert (exhausted cfg now row = true) as Hex.
    { unfold exhausted. rewrite Hun, Hact, Hk, !andb_true_r. by apply Z.leb_le. }
    exists (ended Failed (exhausted_reason cfg) now row). split.
    + cbn [fail_exhausted snd requests]. unfold update_where. rewrite lookup_fmap, Hr. simpl. by rewrite Hex.
    + split_and!; first [done|lia].
Qed.

(** Submitting a proof, when nothing interferes: the proof is stored exactly
    when the request asks for this backend and the job is locked by this worker
    under this lock until after now; otherwise the row is unchanged and the
    answer tells which condition fails first (also for a proof that this worker
    has already submitted). *)
Theorem submit_proof_outcome db now id row q n k j proof data w l :
  requests db !! id = Some row -> represents keccak256 to_vec cfg id row (JS q n k j) ->
  to_vec proof = Ok data ->
  let p := submit_proof to_vec from_slice
    {| sb_proof := {| sp_id := id; sp_proof := proof |}; sb_worker_id := w; sb_lock_id := l |} in
  value_of (serve cfg) p (db, now) = submit_outcome id proof w l now q j /\
  (world_of (serve cfg) p (db, now)).1 =
    if is_ok (submit_outcome id proof w l now q j)
    then set_requests (<[id := succeeded data now row]> (requests db)) db else db.
Proof.
  intros Hr Hrep Hd p. subst p. unfold value_of, world_of, submit_proof.
  cbn [interp bind serve fst snd sb_proof sp_id sp_proof sb_worker_id sb_lock_id]. rewrite Hr.
  rewrite (submit_checks_spec _ _ _ _ _ _ _ _ _ _ Hrep).
  destruct (submit_outcome id proof w l now q j) as [[]|e] eqn:Hout; [|done].
  rewrite Hd. cbn [interp bind serve fst snd]. unfold update_held.
  by rewrite Hr, (submit_outcome_held _ _ _ _ _ _ _ _ _ _ Hrep Hout).
Qed.

(** A heartbeat, when nothing interferes, moves the end of the lock to one
    lock timeout from now exactly when the job is locked by this worker under
    this lock until after now; otherwise the row is unchanged and the answer
    tells why. *)
Theorem heartbeat_outcome_holds db now id row q n k j w l :
  requests db !! id = Some row -> represents keccak256 to_vec cfg id row (JS q n k j) ->
  let p := heartbeat cfg {| hb_proof_id := id; hb_worker_id := w; hb_lock_id := l |} in
  value_of (serve cfg) p (db, now) = heartbeat_outcome id w l now j /\
  (world_of (serve cfg) p (db, now)).1 =
    if is_ok (heartbeat_outcome id w l now j)
    then set_requests (<[id := extended (now + lock_timeout cfg) now row]> (requests db)) db else db.
Proof.
  intros Hr Hrep p. subst p. unfold value_of, world_of, heartbeat.
  cbn [interp bind serve fst snd hb_proof_id hb_worker_id hb_lock_id]. unfold update_held.
  rewrite Hr, (heartbeat_held _ _ _ _ _ _ _ _ _ Hrep).
  destruct (heartbeat_outcome id w l now j) as [[]|e] eqn:Hout; [done|].
  cbn [is_ok interp bind serve fst snd]. rewrite Hr. cbn [rbind ok_or map_err].
  by rewrite (heartbeat_diagnosis_spec _ _ _ _ _ _ _ _ _ _ Hrep Hout).
Qed.

(** Requesting a proof, when nothing interferes: a new request is queued; a
    request that is queued, claimed or proven is left alone, so that asking
    again is harmless; a failed one is queued again as long as its retries do
    not exceed the configured maximum, a cancelled one always; and a request
    with the same identifier but other contents is refused. *)
Theorem request_proof_outcome db now q :
  request_ok q -> rq_l2_block_number q <= I64_MAX ->
  let id := request_id keccak256 q in
  let p := request_proof keccak256 q in
  let db' := (world_of (serve cfg) p (db, now)).1 in
  let accepted := Ok {| rp_proof_id := id; rp_l1_head := rq_l1_head q |} in
  match requests db !! id with
  | None => value_of (serve cfg) p (db, now) = accepted /\
      exists row, db' = set_requests (<[id := row]> (requests db)) db /\
        represents keccak256 to_vec cfg id row (JS q 0 0 Queued)
  | Some row => forall q0 n k j, represents keccak256 to_vec cfg id row (JS q0 n k j) ->
      if bool_decide (q0 = q) then
        match j with
        | Queued | Locked _ _ _ | Done _ _ _ _ =>
            value_of (serve cfg) p (db, now) = accepted /\ db' = db
        | JobCancelled _ =>
            value_of (serve cfg) p (db, now) = accepted /\
            exists row', db' = set_requests (<[id := row']> (requests db)) db /\
              represents keccak256 to_vec cfg id row' (JS q n 0 Queued)
        | JobFailed _ =>
            if as_i32 (max_retries cfg) <? n
            then value_of (serve cfg) p (db, now) = Err (TooManyRetries id (max_retries cfg)) /\ db' = db
            else n < I32_MAX -> value_of (serve cfg) p (db, now) = accepted /\
              exists row', db' = set_requests (<[id := row']> (requests db)) db /\
                represents keccak256 to_vec cfg id row' (JS q (n + 1) 0 Queued)
        end
      else value_of (serve cfg) p (db, now) = Err (RequestMismatch id) /\ db' = db
  end.
Proof.
  intros Hq Hl. cbv zeta. unfold value_of, world_of, request_proof.
  cbn [interp bind serve fst snd map_err]. unfold l2_to_i64.
  destruct (Z.leb_spec (rq_l2_block_number q) I64_MAX) as [_|]; [|lia].
  cbn [interp bind serve fst snd]. unfold insert_request.
  destruct (requests db !! request_id keccak256 q) as [row|] eqn:Hr.
  - intros q0 n k j Hrep. cbn [interp bind serve fst snd]. unfold request_tx. rewrite Hr.
    rewrite (request_conflict_spec _ _ _ _ _ _ _ _ _ _ Hq Hl Hrep).
    case_bool_decide; [subst q0|done].
    destruct j as [| | |why|why]; try done.
    + destruct (Z.ltb_spec (as_i32 (max_retries cfg)) n); [done|]. intros Hn.
      destruct (Z.ltb_spec I32_MAX (n + 1)); [lia|]. split; [done|]. eexists. split; [done|].
      pose proof Hrep as (_&_&_&_&_&Hnb&_). eapply requeued_represents; [exact Hrep|lia].
    + split; [done|]. eexists. split; [done|]. pose proof Hrep as (_&_&_&_&_&Hnb&_).
      replace (JS q n 0 Queued) with (JS q (n + 0) 0 Queued) by (f_equal; lia).
      eapply requeued_represents; [exact Hrep|lia].
  - split; [done|]. eexists. split; [done|]. split_and!; first [done|cbn; lia].
Qed.

(** Sessions: in every reachable state the identifiers of sessions are
    distinct and a request has at most one active session of a type; the next
    statement of any operation keeps this and leaves every ended session as it
    is, and a worker changes sessions only while it holds the lock of the
    request. *)
Theorem sessions_are_safe h db ts1 c kont ts2 r db' :
  service_runs h db (ts1 ++ Call c kont :: ts2) -> db_step cfg db (ev c r) db' ->
  sessions_ok db /\ sessions_ok db' /\ terminal_kept db db' /\
  forall q now, c = RecordTx q now -> sessions db' <> sessions db ->
    exists row rq n k e, requests db !! rs_proof_id q = Some row /\ now < e /\
      represents keccak256 to_vec cfg (rs_proof_id q) row
        (JS rq n k (Locked (rs_worker_id q) (rs_lock_id q) e)).
Proof.
  intros Hrun Hs. pose proof (service_sessions _ _ _ Hrun) as Hok.
  destruct (db_step_sessions _ _ _ Hs Hok) as [? ?]. split_and!; [done..|].
  intros q now -> Hne. destruct Hs as [Ha|[_ [->|[r' Ha]]]]; [|done|];
    exact (record_tx_authorized _ _ _ _ _ _ _ Hrun Ha Hne).
Qed.

(** The service cancels proofs of a game only after reading, in one snapshot
    of the chain, that the game's outcome is known, that it has enough proofs,
    or that it is resolved. *)
Theorem cancellations_are_justified h db ts :
  service_runs h db ts ->
  guarded (fun (h : list (event StoreSig)) (e : event StoreSig) => forall g now, projT1 e = CancelGame g now ->
    exists game o s outcome status, g = be_bytes 20 game /\
      saw (S := StoreSig) (GameSnapshot game) (Ok (o, s)) h /\
      GameStatus_try_from o = Ok outcome /\ ProposalStatus_try_from s = Ok status /\
      (outcome <> InProgress \/ has_sufficient_proof_support status = true \/ status = Resolved)) h.
Proof.
  intros Hrun. eapply guarded_impl; [|exact (service_guarded _ _ _ Hrun)].
  intros h' [c r] _ Hal g now Hc. simpl in Hc. subst c.
  destruct Hal as (game&o&s&oc&st&?&?&?&?&Hob). exists game, o, s, oc, st. split_and!; [done..|].
  apply orb_true_iff in Hob as [[Ho|Hs]%orb_true_iff|Hs]; [left|right; left|right; right]; [|done|];
    by apply bool_decide_eq_true in Ho || apply bool_decide_eq_true in Hs.
Qed.

(** ** Runs of one operation after the other *)

Lemma thread_runs h db ts p clock :
  service_runs h db (p :: ts) ->
  service_runs (h ++ trace_of (serve cfg) p (db, clock)) (world_of (serve cfg) p (db, clock)).1 ts.
Proof.
  revert h db clock. induction p as [a|c k IH]; intros h db clock Hrun.
  - unfold trace_of, world_of. simpl. rewrite app_nil_r. exact (reach_drop _ _ _ _ _ [] _ _ Hrun).
  - pose proof (reach_call _ _ _ _ _ [] c k ts _ _ Hrun (serve_step cfg db clock c)) as Hnext.
    destruct (serve cfg c (db, clock)) as [r [db1 clock1]] eqn:Hs. simpl in Hnext.
    apply (IH r _ _ clock1) in Hnext. unfold trace_of, world_of in *. cbn [interp]. rewrite Hs.
    destruct (interp (serve cfg) (k r) (db1, clock1)) as [[tr a] w2]. simpl in *.
    by rewrite <-app_assoc in Hnext.
Qed.

Lemma service_extends h db ts p clock :
  service_runs h db ts -> api p ->
  service_runs (h ++ trace_of (serve cfg) p (db, clock)) (world_of (serve cfg) p (db, clock)).1 ts.
Proof. intros Hrun Hp. apply thread_runs. by apply reach_spawn. Qed.
End service.

(** ** A concrete service *)

(** A hash that adds the bytes up, and proofs encoded by their kind. *)
Definition toy_hash (l : bytes) : B256 := foldr Z.add 0 l.
Definition toy_to_vec (p : ProofData) : result bytes string :=
  match p with
  | Sp1Data a b => Ok (0 :: Z.of_nat (length a) :: a ++ b)
  | NitroData a b c => Ok (1 :: Z.of_nat (length a) :: Z.of_nat (length b) :: a ++ b ++ c)
  end.
Definition toy_from_slice (l : bytes) : result ProofData string :=
  match l with
  | 0 :: n :: rest => Ok (Sp1Data (take (Z.to_nat n) rest) (drop (Z.to_nat n) rest))
  | 1 :: n :: m :: rest =>
      let rest' := drop (Z.to_nat n) rest in
      Ok (NitroData (take (Z.to_nat n) rest) (take (Z.to_nat m) rest') (drop (Z.to_nat m) rest'))
  | _ => Err "invalid"%string
  end.

Lemma toy_json p b : toy_to_vec p = Ok b -> toy_from_slice b = Ok p.
Proof.
  destruct p as [x y|x y z]; intros [= <-]; simpl; rewrite !Nat2Z.id.
  - by rewrite take_app_length, drop_app_length.
  - by rewrite take_app_length, drop_app_length, take_app_length, drop_app_length.
Qed.

Definition toy_cfg : ProverServiceConfig :=
  {| lock_timeout := 100; max_attempts := 1; max_retries := 1; backend_poll_interval := 1;
     status_poller_interval := 1 |}.

Definition toy_request : ProofRequest := request_demo 3.
Definition toy_id : B256 := request_id toy_hash toy_request.
Definition toy_worker : GetNextProofRequest := worker_for toy_request "w".
Definition toy_proof : ProofData := NitroData [5] [6; 7] [8].

(** The request, the claim at clock 1 under lock 1, a session, and the proof. *)
Definition toy_run (ps : list (prog StoreSig unit)) : list (event StoreSig) * (DB * Z) :=
  foldl (fun hw p => (hw.1 ++ trace_of (serve toy_cfg) p hw.2, world_of (serve toy_cfg) p hw.2))
    ([], (empty_db, 0)) ps.

Abbreviation toy_runs := (service_runs toy_hash toy_to_vec toy_from_slice toy_cfg).
Abbreviation toy_api := (api toy_hash toy_to_vec toy_from_slice toy_cfg).

Lemma toy_run_runs ps : Forall toy_api ps -> toy_runs (toy_run ps).1 (toy_run ps).2.1 [].
Proof.
  intros Hps. unfold toy_run.
  assert (forall h w, toy_runs h w.1 [] -> let hw := foldl (fun hw p =>
    (hw.1 ++ trace_of (serve toy_cfg) p hw.2, world_of (serve toy_cfg) p hw.2)) (h, w) ps in
    toy_runs hw.1 hw.2.1 []) as Hgen.
  { induction Hps as [|p ps Hp _ IH]; intros h w Hrun; [done|]. simpl. apply IH.
    destruct w as [db clock]. by apply service_extends. }
  apply Hgen. apply reach_start.
Qed.

Definition toy_ops : list (prog StoreSig unit) :=
  [discard (request_proof toy_hash toy_request); discard (get_next_proof toy_cfg toy_worker);
   discard (submit_proof toy_to_vec toy_from_slice
     {| sb_proof := {| sp_id := toy_id; sp_proof := toy_proof |}; sb_worker_id := "w"; sb_lock_id := 1 |})].

Lemma toy_request_ok : request_ok toy_request.
Proof. unfold request_ok, request_fields, u64, u256, U64_MAX, U256_MAX. simpl. lia. Qed.

Lemma toy_worker_ok : worker_ok toy_worker.
Proof. unfold worker_ok, u256, U256_MAX. simpl. lia. Qed.

Lemma toy_ops_api : Forall toy_api toy_ops.
Proof.
  constructor; [apply api_request_proof, toy_request_ok|].
  constructor; [apply api_get_next_proof, toy_worker_ok|].
  constructor; [apply api_submit_proof|constructor].
Qed.

Definition queued_row : Row :=
  {| cols := bind_columns toy_request 9; proof_status := "CREATED"; proof_data := None;
     failure_reason := None; retry_count := 0; worker_id := None; lock_id := None;
     job_status := "PENDING"; attempt := 0; lock_expires_at := None; created_at := 0;
     updated_at := 0; finished_at := None |}.
Definition locked_row : Row := claimed toy_worker 1 102 2 queued_row.
Definition toy_db (row : Row) : DB := set_requests {[toy_id := row]} empty_db.

Lemma queued_runs : toy_runs (toy_run (take 1 toy_ops)).1 (toy_db queued_row) [].
Proof. apply (toy_run_runs (take 1 toy_ops)), Forall_take, toy_ops_api. Qed.

Lemma locked_runs : toy_runs (toy_run (take 2 toy_ops)).1 (toy_db locked_row) [].
Proof. apply (toy_run_runs (take 2 toy_ops)), Forall_take, toy_ops_api. Qed.

Lemma finished_runs :
  toy_runs (toy_run toy_ops).1 (toy_db (succeeded [1; 1; 2; 5; 6; 7; 8] 3 locked_row)) [].
Proof. apply (toy_run_runs toy_ops), toy_ops_api. Qed.

Lemma locked_represents :
  represents toy_hash toy_to_vec toy_cfg toy_id locked_row (JS toy_request 0 1 (Locked "w" 1 102)).
Proof. split_and!; first [apply toy_request_ok|done]. Qed.

(** The worker is about to claim the queued job. *)
Lemma store_refines_lifecycle_witness :
  table_ok toy_hash toy_to_vec toy_cfg (requests (toy_db queued_row)) /\
  table_moves toy_hash toy_to_vec toy_cfg (ClaimNext toy_worker 1 102 2)
    (requests (toy_db queued_row)) (requests (toy_db locked_row)).
Proof.
  pose proof (reach_spawn _ _ _ _ _ _ _ queued_runs (Forall_inv (Forall_inv_tail toy_ops_api))) as H.
  eapply (reach_call (S := StoreSig) _ _ _ _ _ [] (NewLockId : call StoreSig) _ [] 1) in H; [|by left].
  eapply (reach_call (S := StoreSig) _ _ _ _ _ [] (UtcNow : call StoreSig) _ [] 2) in H; [|by left].
  eapply (store_refines_lifecycle toy_hash toy_to_vec toy_from_slice toy_cfg _ _ []
    (ClaimNext toy_worker 1 102 2) _ [] (Ok (Some (bind_columns toy_request 9)))).
  - exact H.
  - left. exists (Some (bind_columns toy_request 9)), ∅. split; [done|]. vm_compute. reflexivity.
Defined.

Lemma stored_proof_is_final_witness :
  exists row q n k e proof, requests (toy_db (succeeded [1; 1; 2; 5; 6; 7; 8] 3 locked_row)) !! toy_id = Some row /\
    represents toy_hash toy_to_vec toy_cfg toy_id row (JS q n k (Done "w" 1 e proof)) /\
    toy_to_vec proof = Ok [1; 1; 2; 5; 6; 7; 8] /\
    value_of (serve toy_cfg) (get_proof toy_from_slice toy_id)
      (toy_db (succeeded [1; 1; 2; 5; 6; 7; 8] 3 locked_row), 9) = Ok (ResponseSucceeded toy_id proof).
Proof.
  apply (stored_proof_is_final toy_hash toy_to_vec toy_from_slice toy_cfg _ _ _ _ _ _ _ 3 9
    toy_json finished_runs). eexists. split; [|reflexivity]. vm_compute. find_event.
Defined.

Lemma claim_takes_first_witness :
  exists id row, bind_columns toy_request 9 = cols row /\ requests (toy_db queued_row) !! id = Some row /\
    (id ∉ (∅ : gset B256)) /\ claimable toy_cfg toy_worker 2 row = true /\
    toy_db locked_row = set_requests (<[id := claimed toy_worker 1 102 2 row]>
      (requests (toy_db queued_row))) (toy_db queued_row) /\
    forall id' row', requests (toy_db queued_row) !! id' = Some row' -> (id' ∉ (∅ : gset B256)) ->
      claimable toy_cfg toy_worker 2 row' = true -> before (id, row) (id', row') = true.
Proof.
  apply (claim_takes_first toy_cfg toy_worker 1 102 2 ∅ (toy_db queued_row)
    (Some (bind_columns toy_request 9)) (toy_db locked_row)). vm_compute. reflexivity.
Defined.

(** The only attempt has been used and its lock has run out. *)
Lemma no_stuck_job_witness :
  exists q n k j, represents toy_hash toy_to_vec toy_cfg toy_id locked_row (JS q n k j) /\
    if k <? as_i32 (max_attempts toy_cfg)
    then claimable toy_cfg (worker_for q "v") 500 locked_row = true /\
         is_Some (claim_next toy_cfg (worker_for q "v") 9 600 500 ∅ (toy_db locked_row)).1
    else exists row', requests (fail_exhausted toy_cfg 500 (toy_db locked_row)).2 !! toy_id = Some row' /\
         represents toy_hash toy_to_vec toy_cfg toy_id row' (JS q n k (JobFailed (exhausted_reason toy_cfg))).
Proof.
  apply (no_stuck_job toy_hash toy_to_vec toy_from_slice toy_cfg _ _ _ _ _ 500 "v" 9 600 locked_runs).
  - reflexivity.
  - reflexivity.
  - cbn. lia.
Defined.

Lemma submit_proof_outcome_witness :
  let p := submit_proof toy_to_vec toy_from_slice
    {| sb_proof := {| sp_id := toy_id; sp_proof := toy_proof |}; sb_worker_id := "w"; sb_lock_id := 1 |} in
  value_of (serve toy_cfg) p (toy_db locked_row, 50) = Ok tt /\
  (world_of (serve toy_cfg) p (toy_db locked_row, 50)).1 =
    set_requests (<[toy_id := succeeded [1; 1; 2; 5; 6; 7; 8] 50 locked_row]>
      (requests (toy_db locked_row))) (toy_db locked_row).
Proof.
  exact (submit_proof_outcome toy_hash toy_to_vec toy_from_slice toy_cfg (toy_db locked_row) 50 toy_id
    locked_row toy_request 0 1 (Locked "w" 1 102) toy_proof [1; 1; 2; 5; 6; 7; 8] "w" 1
    eq_refl locked_represents eq_refl).
Defined.

Lemma heartbeat_outcome_holds_witness :
  let p := heartbeat toy_cfg {| hb_proof_id := toy_id; hb_worker_id := "w"; hb_lock_id := 1 |} in
  value_of (serve toy_cfg) p (toy_db locked_row, 50) = Ok tt /\
  (world_of (serve toy_cfg) p (toy_db locked_row, 50)).1 =
    set_requests (<[toy_id := extended 150 50 locked_row]> (requests (toy_db locked_row)))
      (toy_db locked_row).
Proof.
  exact (heartbeat_outcome_holds toy_hash toy_to_vec toy_cfg (toy_db locked_row) 50 toy_id
    locked_row toy_request 0 1 (Locked "w" 1 102) "w" 1 eq_refl locked_represents).
Defined.

Lemma request_proof_outcome_witness :
  value_of (serve toy_cfg) (request_proof toy_hash toy_request) (empty_db, 0) =
    Ok {| rp_proof_id := toy_id; rp_l1_head := 3 |} /\
  exists row, (world_of (serve toy_cfg) (request_proof toy_hash toy_request) (empty_db, 0)).1 =
      set_requests (<[toy_id := row]> ∅) empty_db /\
    represents toy_hash toy_to_vec toy_cfg toy_id row (JS toy_request 0 0 Queued).
Proof.
  exact (request_proof_outcome toy_hash toy_to_vec toy_cfg empty_db 0 toy_request toy_request_ok
    ltac:(unfold I64_MAX; simpl; lia)).
Defined.

Definition toy_session : RecordProofSessionRequest :=
  {| rs_proof_id := toy_id; rs_session_type := Snark; rs_worker_id := "w"; rs_lock_id := 1;
     rs_backend_session_id := "s"; rs_status := SRunning; rs_failure_reason := None |}.

Lemma sessions_are_safe_witness :
  let db' := (record_tx toy_session 50 (toy_db locked_row)).2 in
  sessions_ok (toy_db locked_row) /\ sessions_ok db' /\ terminal_kept (toy_db locked_row) db' /\
  forall q now, RecordTx toy_session 50 = RecordTx q now -> sessions db' <> sessions (toy_db locked_row) ->
    exists row rq n k e, requests (toy_db locked_row) !! rs_proof_id q = Some row /\ now < e /\
      represents toy_hash toy_to_vec toy_cfg (rs_proof_id q) row
        (JS rq n k (Locked (rs_worker_id q) (rs_lock_id q) e)).
Proof.
  pose proof (reach_spawn _ _ _ _ _ _ _ locked_runs
    (api_record_proof_session toy_hash toy_to_vec toy_from_slice toy_cfg toy_session)) as H.
  eapply (reach_call (S := StoreSig) _ _ _ _ _ [] (UtcNow : call StoreSig) _ [] 50) in H; [|by left].
  eapply (reach_call (S := StoreSig) _ _ _ _ _ [] (BeginTx : call StoreSig) _ [] (Ok tt)) in H; [|by left].
  eapply (sessions_are_safe toy_hash toy_to_vec toy_from_slice toy_cfg _ _ []
    (RecordTx toy_session 50) _ [] (Ok tt)).
  - exact H.
  - left. vm_compute. reflexivity.
Defined.

(** The game of this request is resolved. *)
Definition resolved_request : ProofRequest :=
  {| rq_backend := Nitro; rq_game := 0; rq_root_claim := 8; rq_l2_block_number := 9;
     rq_l1_head := 3; rq_verifier_id := 1; rq_range_vkey_commitment := None |}.

Definition cancel_ops : list (prog StoreSig unit) :=
  [discard (request_proof toy_hash resolved_request); discard (request_proof toy_hash toy_request); poll].

Lemma cancel_ops_api : Forall toy_api cancel_ops.
Proof.
  constructor; [apply api_request_proof|constructor; [apply api_request_proof, toy_request_ok|]].
  - unfold request_ok, request_fields, u64, u256, U64_MAX, U256_MAX. simpl. lia.
  - constructor; [apply api_poll|constructor].
Qed.

Definition cancelled_games (h : list (event StoreSig)) : list bytes :=
  omap (fun e => match projT1 e with CancelGame g _ => Some g | _ => None end) h.

Lemma cancellations_are_justified_witness :
  cancelled_games (toy_run cancel_ops).1 = [be_bytes 20 0] /\
  guarded (fun (h : list (event StoreSig)) (e : event StoreSig) => forall g now, projT1 e = CancelGame g now ->
    exists game o s outcome status, g = be_bytes 20 game /\
      saw (S := StoreSig) (GameSnapshot game) (Ok (o, s)) h /\
      GameStatus_try_from o = Ok outcome /\ ProposalStatus_try_from s = Ok status /\
      (outcome <> InProgress \/ has_sufficient_proof_support status = true \/ status = Resolved))
    (toy_run cancel_ops).1.
Proof.
  split; [vm_compute; reflexivity|].
  exact (cancellations_are_justified toy_hash toy_to_vec toy_from_slice toy_cfg _ _ _
    (toy_run_runs cancel_ops cancel_ops_api)).
Defined.

(** *** Retries *)

Definition fail_once (w : DB * Z) : DB * Z :=
  let w := world_of (serve toy_cfg) (request_proof toy_hash toy_request) w in
  let '(db, clock) := world_of (serve toy_cfg) (get_next_proof toy_cfg toy_worker) w in
  world_of (serve toy_cfg) mark_exhausted_proof_requests_failed (db, clock + 1000).

(** The configured maximum of retries is exceeded by one: with a maximum of 1,
    a request that failed three times has been retried twice, and only then
    is refused. *)
Theorem retries_exceed_maximum :
  let after n := Nat.iter n fail_once (empty_db, 0) in
  service_validate toy_cfg = Ok tt /\ max_retries toy_cfg = 1 /\
  value_of (serve toy_cfg) (request_proof toy_hash toy_request) (after 2%nat) =
    Ok {| rp_proof_id := toy_id; rp_l1_head := 3 |} /\
  (retry_count <$> requests (after 3%nat).1 !! toy_id) = Some 2 /\
  value_of (serve toy_cfg) (request_proof toy_hash toy_request) (after 3%nat) =
    Err (TooManyRetries toy_id 1).
Proof. vm_compute. by split_and!. Qed.
