(* ===== verification/Planner.v ===== *)
(** * Range plans of the SP1 worker ([src/proofs/workers/sp1/src/planner.rs])

    A proof interval of L2 blocks is cut into ranges by cumulative gas; a range
    that cannot be executed is bisected.  The plan is kept as text in the
    session slot of the job. *)

From S2P Require Import Prelude.

Definition DEFAULT_RANGE_CYCLE_LIMIT : Z := 1500000000000.
Definition DEFAULT_CYCLES_PER_GAS : Z := 25.
Definition DEFAULT_MAX_BLOCKS_PER_RANGE : Z := 1000.
Definition DEFAULT_MAX_RANGE_SPLITS : Z := 2.
Definition RANGE_GAS_HEADROOM : Z := 2.

(** The parameter of the source has the name of the result's field. *)
Definition gas_target (range_cycle_limit cycles_per_gas : Z) : Z :=
  let cycles_per_gas := if cycles_per_gas =? 0 then 1 else cycles_per_gas in
  let target := range_cycle_limit / cycles_per_gas / RANGE_GAS_HEADROOM in
  if target =? 0 then 1 else target.

Record RangePlanConfig := {
  target_gas_per_range : Z;
  max_blocks_per_range : Z;
  max_range_splits : Z
}.

Definition plan_default : RangePlanConfig :=
  {| target_gas_per_range := gas_target DEFAULT_RANGE_CYCLE_LIMIT DEFAULT_CYCLES_PER_GAS;
     max_blocks_per_range := DEFAULT_MAX_BLOCKS_PER_RANGE;
     max_range_splits := DEFAULT_MAX_RANGE_SPLITS |}.

(** The blocks [(start_block, end_block]]. *)
Record PlannedRange := {
  start_block : Z;
  end_block : Z;
  session_id : option string;
  splits : Z
}.

#[export] Instance PlannedRange_eq_dec : EqDecision PlannedRange.
Proof. solve_decision. Defined.

Definition new_range (start_block end_block : Z) : PlannedRange :=
  {| start_block := start_block; end_block := end_block; session_id := None; splits := 0 |}.

Definition block_count (r : PlannedRange) : Z := end_block r - start_block r.

Definition bisect (r : PlannedRange) : option (PlannedRange * PlannedRange) :=
  if block_count r <? 2 then None
  else
    let mid := start_block r + block_count r / 2 in
    let half a b :=
      {| start_block := a; end_block := b; session_id := None; splits := splits r + 1 |} in
    Some (half (start_block r) mid, half mid (end_block r)).

Record RangePlan := { v : Z; ranges : list PlannedRange }.
#[export] Instance RangePlan_eq_dec : EqDecision RangePlan.
Proof. solve_decision. Defined.

(** The loop of [by_gas]: the ranges it pushes and the start of the last one. *)
Fixpoint pack (target_gas max_blocks : Z) (gas_by_block : list Z) (block range_start range_gas : Z)
    : list PlannedRange * Z :=
  match gas_by_block with
  | [] => ([], range_start)
  | gas :: rest =>
      let would_exceed_gas := target_gas <? saturating_add U64_MAX range_gas gas in
      let range_is_empty := block =? range_start + 1 in
      if (would_exceed_gas && negb range_is_empty) || (max_blocks <? block - range_start) then
        let '(out, last) := pack target_gas max_blocks rest (block + 1) (block - 1)
                              (saturating_add U64_MAX 0 gas) in
        (new_range range_start (block - 1) :: out, last)
      else pack target_gas max_blocks rest (block + 1) range_start (saturating_add U64_MAX range_gas gas)
  end.

(** The two errors name their cause; the code formats a message. *)
Inductive PlanError :=
| EmptyInterval (start_block end_block : Z)
| GasDataMismatch (covered block_count : Z).

Definition by_gas (start_block end_block : Z) (gas_by_block : list Z) (config : RangePlanConfig)
    : result RangePlan PlanError :=
  if end_block <=? start_block then Err (EmptyInterval start_block end_block)
  else
    let block_count := end_block - start_block in
    if negb (Z.of_nat (length gas_by_block) =? block_count)
    then Err (GasDataMismatch (Z.of_nat (length gas_by_block)) block_count)
    else
      let target_gas := Z.max (target_gas_per_range config) 1 in
      let max_blocks := Z.max (max_blocks_per_range config) 1 in
      let '(out, range_start) :=
        pack target_gas max_blocks gas_by_block (start_block + 1) start_block 0 in
      Ok {| v := 1; ranges := out ++ [new_range range_start end_block] |}.

Definition single (start_block end_block : Z) (session_id : option string) : RangePlan :=
  {| v := 1; ranges := [{| start_block := start_block; end_block := end_block;
                           session_id := session_id; splits := 0 |}] |}.

(** [to_string] and [from_str] are the JSON encoding of a plan and its decoding. *)
Section text.
Context (to_string : RangePlan -> result string string) (from_str : string -> result RangePlan string).

Definition encode (p : RangePlan) : result string string :=
  match ranges p with
  | [range] =>
      match session_id range with
      | Some id => if splits range =? 0 then Ok id else to_string p
      | None => to_string p
      end
  | _ => to_string p
  end.

Definition decode (value : string) (start_block end_block : Z) : RangePlan :=
  match from_str value with
  | Ok plan => if bool_decide (ranges plan = []) then single start_block end_block (Some value) else plan
  | Err _ => single start_block end_block (Some value)
  end.
End text.

Fixpoint covers_from (cursor : Z) (l : list PlannedRange) : option Z :=
  match l with
  | [] => Some cursor
  | range :: rest =>
      if negb (start_block range =? cursor) || (end_block range <=? start_block range) then None
      else covers_from (end_block range) rest
  end.

Definition covers (p : RangePlan) (start_block end_block : Z) : bool :=
  match covers_from start_block (ranges p) with
  | Some cursor => cursor =? end_block
  | None => false
  end.

(** ** Tilings *)

(** The ranges tile [(a, b]] in order. *)
Inductive tiles : list PlannedRange -> Z -> Z -> Prop :=
| tiles_nil a : tiles [] a a
| tiles_cons r l b : start_block r < end_block r -> tiles l (end_block r) b -> tiles (r :: l) (start_block r) b.
#[export] Hint Constructors tiles : wc.

Lemma covers_spec p a b : covers p a b = true <-> tiles (ranges p) a b.
Proof.
  unfold covers. generalize (ranges p) as l. intros l. revert a.
  induction l as [|r l IH]; intros a; simpl.
  - split; [intros ->%Z.eqb_eq; constructor|]. inversion 1; subst. apply Z.eqb_refl.
  - destruct (Z.eqb_spec (start_block r) a) as [<-|Hne]; simpl;
      [|split; [done|by inversion 1]].
    destruct (Z.leb_spec (end_block r) (start_block r)) as [|Hlt]; [split; [done|inversion 1; lia]|].
    rewrite IH. split; [by constructor|by inversion 1].
Qed.

Lemma tiles_app l k a b c : tiles l a b -> tiles k b c -> tiles (l ++ k) a c.
Proof. induction 1 as [|r l b Hlt _ IH]; intros Hk; simpl; [done|]. constructor; auto. Qed.

Lemma tiles_app_inv l k a c : tiles (l ++ k) a c -> exists b, tiles l a b /\ tiles k b c.
Proof.
  revert a. induction l as [|r l IH]; intros a; simpl; [eauto with wc|].
  inversion 1 as [|? ? ? Hlt Ht]; subst. destruct (IH _ Ht) as (b&?&?). eauto with wc.
Qed.

Lemma tiles_le l a b : tiles l a b -> a <= b.
Proof. induction 1; lia. Qed.

(** Every range of a tiling lies inside it. *)
Lemma tiles_inside l a b r : tiles l a b -> r ∈ l -> a <= start_block r < end_block r /\ end_block r <= b.
Proof.
  induction 1 as [|r' l b Hlt Ht IH]; intros Hin; [by apply elem_of_nil in Hin|].
  apply elem_of_cons in Hin as [->|Hin].
  - apply tiles_le in Ht. lia.
  - apply IH in Hin. lia.
Qed.

(** ** Bisection *)

Lemma bisect_spec r low high :
  bisect r = Some (low, high) ->
  tiles [low; high] (start_block r) (end_block r) /\ splits low = splits r + 1 /\
  splits high = splits r + 1 /\ session_id low = None /\ session_id high = None /\
  0 <= block_count high - block_count low <= 1.
Proof.
  unfold bisect, block_count. destruct (Z.ltb_spec (end_block r - start_block r) 2) as [|Hge]; [done|].
  intros [= <- <-]. simpl. pose proof (Z.div_mod (end_block r - start_block r) 2 ltac:(lia)).
  pose proof (Z.mod_pos_bound (end_block r - start_block r) 2 ltac:(lia)).
  split_and!; try done; try lia.
  eapply (tiles_cons {| start_block := start_block r |}); simpl; [lia|].
  eapply (tiles_cons {| start_block := start_block r + _ |}); simpl; [lia|constructor].
Qed.

Lemma tiles_split l r k low high a b :
  tiles (l ++ r :: k) a b -> bisect r = Some (low, high) -> tiles (l ++ low :: high :: k) a b.
Proof.
  intros (m&Hl&Hk)%tiles_app_inv [Hb _]%bisect_spec. eapply tiles_app; [exact Hl|].
  inversion Hk as [|? ? ? Hlt Ht]; subst. change (low :: high :: k) with ([low; high] ++ k).
  by eapply tiles_app.
Qed.

(** ** Packing *)

(** Whatever the gas, the cut ranges are fresh, not empty and tile the blocks. *)
Lemma pack_tiles target max_blocks rest : 1 <= max_blocks -> forall block range_start range_gas,
  range_start < block ->
  let '(out, last) := pack target max_blocks rest block range_start range_gas in
  tiles out range_start last /\ last < block + Z.of_nat (length rest) /\
  Forall (fun r => splits r = 0 /\ session_id r = None) out /\
  (rest <> [] \/ range_start < block - 1 -> last < block - 1 + Z.of_nat (length rest)).
Proof.
  intros Hm. induction rest as [|gas rest IH]; intros block range_start range_gas Hlt; cbn [pack].
  { split_and!; [constructor|simpl; lia|constructor|]. intros [|]; [done|]. simpl. lia. }
  destruct (_ || _) eqn:Hcut.
  - specialize (IH (block + 1) (block - 1) (saturating_add U64_MAX 0 gas) ltac:(lia)).
    destruct (pack _ _ rest _ _ _) as [out last]. destruct IH as (Ht&Hl&Hs&Hlast). cbn [length].
    assert (range_start < block - 1) as Hne.
    { apply orb_true_iff in Hcut as [[_ Hc%negb_true_iff%Z.eqb_neq]%andb_true_iff|Hc%Z.ltb_lt]; lia. }
    split_and!; [|lia|by constructor|intros _; lia].
    by apply (tiles_cons (new_range range_start (block - 1))).
  - specialize (IH (block + 1) range_start (saturating_add U64_MAX range_gas gas) ltac:(lia)).
    destruct (pack _ _ rest _ _ _) as [out last]. destruct IH as (Ht&Hl&Hs&Hlast). cbn [length].
    split_and!; [done|lia|done|lia].
Qed.

Lemma by_gas_tiles a b gas cfg plan :
  by_gas a b gas cfg = Ok plan ->
  tiles (ranges plan) a b /\ Forall (fun r => splits r = 0 /\ session_id r = None) (ranges plan).
Proof.
  unfold by_gas. destruct (Z.leb_spec b a) as [|Hab]; [done|].
  destruct (Z.eqb_spec (Z.of_nat (length gas)) (b - a)) as [Hlen|]; [|done]. cbn [negb].
  pose proof (pack_tiles (Z.max (target_gas_per_range cfg) 1) (Z.max (max_blocks_per_range cfg) 1) gas
    ltac:(lia) (a + 1) a 0 ltac:(lia)) as Hp.
  destruct (pack _ _ gas (a + 1) a 0) as [out last]. intros [= <-]. destruct Hp as (Ht&_&Hs&Hl). simpl.
  assert (last < b). { destruct gas; [simpl in Hlen; lia|]. specialize (Hl ltac:(by left)). lia. }
  split; [|by apply Forall_app_2; repeat constructor]. eapply tiles_app; [exact Ht|].
  by apply (tiles_cons (new_range last b)); [|constructor].
Qed.

(** ** Packing by gas *)

Definition total (l : list Z) : Z := foldr Z.add 0 l.

(** The gas of the blocks [(a, b]], where [gas] starts after block [s]; as the
    code's counter it stays at the largest [u64]. *)
Definition gas_between (s : Z) (gas : list Z) (a b : Z) : Z :=
  Z.min U64_MAX (total (take (Z.to_nat (b - a)) (drop (Z.to_nat (a - s)) gas))).

(** The range keeps the limits, unless a single block exceeds the target. *)
Definition fits (target max_blocks s : Z) (gas : list Z) (r : PlannedRange) : Prop :=
  0 < block_count r <= max_blocks /\
  (gas_between s gas (start_block r) (end_block r) <= target \/ block_count r = 1).

(** The range could not take one more block. *)
Definition full (target max_blocks s : Z) (gas : list Z) (r : PlannedRange) : Prop :=
  block_count r = max_blocks \/ target < gas_between s gas (start_block r) (end_block r + 1).

Lemma total_app l k : total (l ++ k) = total l + total k.
Proof. induction l as [|x l IH]; simpl; [done|]. rewrite IH. lia. Qed.

Section packing.
Context (s target max_blocks : Z) (gas : list Z).
Context (Ht : 1 <= target) (Hm : 1 <= max_blocks) (Hgas : Forall u64 gas).

Definition prefix (b : Z) : Z := total (take (Z.to_nat (b - s)) gas).

Lemma gas_between_prefix a b : s <= a <= b -> gas_between s gas a b = Z.min U64_MAX (prefix b - prefix a).
Proof.
  intros Hab. unfold gas_between, prefix. f_equal.
  replace (Z.to_nat (b - s)) with (Z.to_nat (a - s) + Z.to_nat (b - a))%nat by lia.
  rewrite <-take_take_drop, total_app. lia.
Qed.

Lemma prefix_next done x rest :
  gas = done ++ x :: rest ->
  prefix (s + 1 + Z.of_nat (length done)) = prefix (s + Z.of_nat (length done)) + x.
Proof.
  intros Heq. unfold prefix.
  replace (Z.to_nat (s + 1 + Z.of_nat (length done) - s)) with (S (length done)) by lia.
  replace (Z.to_nat (s + Z.of_nat (length done) - s)) with (length done) by lia.
  rewrite (take_S_r _ _ x), total_app by (by rewrite Heq, list_lookup_middle). simpl. lia.
Qed.

(** The state of the loop before block [s + 1 + length done]. *)
Definition packing (done : list Z) (range_start range_gas : Z) : Prop :=
  let last := s + Z.of_nat (length done) in
  s <= range_start <= last /\ last - range_start <= max_blocks /\
  range_gas = Z.min U64_MAX (prefix last - prefix range_start) /\
  (range_gas <= target \/ last - range_start <= 1).

Lemma pack_spec rest : forall done range_start range_gas,
  gas = done ++ rest -> packing done range_start range_gas ->
  rest <> [] \/ range_start < s + Z.of_nat (length done) ->
  let '(out, last) := pack target max_blocks rest (s + 1 + Z.of_nat (length done)) range_start range_gas in
  tiles out range_start last /\ Forall (fits target max_blocks s gas) out /\
  Forall (full target max_blocks s gas) out /\
  fits target max_blocks s gas (new_range last (s + Z.of_nat (length gas))).
Proof.
  induction rest as [|x rest IH]; intros done range_start range_gas Heq Hp Hne; cbn [pack].
  { rewrite app_nil_r in Heq. subst done. destruct Hp as (?&?&Hg&?), Hne as [?|?]; [done|].
    split_and!; [constructor|constructor|constructor|]. split; [unfold block_count; simpl; lia|].
    simpl. rewrite gas_between_prefix by lia. unfold block_count. simpl. lia. }
  destruct Hp as (Hs&Hl&Hg&Hfit). pose proof (prefix_next _ _ _ Heq) as Hnext.
  assert (u64 x) as Hx. { rewrite Heq in Hgas. apply Forall_app in Hgas as [_ Hx]. by inversion Hx. }
  assert (gas = (done ++ [x]) ++ rest) as Heq' by by rewrite <-app_assoc.
  assert (s + 1 + Z.of_nat (length done) + 1 = s + 1 + Z.of_nat (length (done ++ [x]))) as Hlen
    by (rewrite length_app; simpl; lia).
  unfold u64, saturating_add in *. rewrite Hlen.
  destruct (_ || _) eqn:Hcut.
  - specialize (IH (done ++ [x]) (s + 1 + Z.of_nat (length done) - 1) (Z.min (0 + x) U64_MAX) Heq').
    destruct (pack _ _ rest _ _ _) as [out last]. destruct IH as (Htl&Hf&Hfu&Hlast).
    { split_and!; rewrite ?length_app; cbn [length]; try lia.
      replace (s + Z.of_nat (length done + 1)) with (s + 1 + Z.of_nat (length done)) by lia.
      replace (s + 1 + Z.of_nat (length done) - 1) with (s + Z.of_nat (length done)) by lia. lia. }
    { right. rewrite length_app. simpl. lia. }
    apply orb_true_iff in Hcut.
    assert (range_start < s + Z.of_nat (length done)) as Hlt.
    { destruct Hcut as [[_ Hc%negb_true_iff%Z.eqb_neq]%andb_true_iff|Hc%Z.ltb_lt]; lia. }
    split_and!; [| | |done].
    + replace range_start with (start_block (new_range range_start (s + 1 + Z.of_nat (length done) - 1))) at 2
        by done. constructor; simpl; [lia|done].
    + constructor; [|done]. split; [unfold block_count; simpl; lia|]. simpl.
      rewrite gas_between_prefix by lia. unfold block_count. simpl.
      replace (s + 1 + Z.of_nat (length done) - 1) with (s + Z.of_nat (length done)) by lia. lia.
    + constructor; [|done]. destruct Hcut as [[Hc%Z.ltb_lt _]%andb_true_iff|Hc%Z.ltb_lt].
      * right. simpl. rewrite gas_between_prefix by lia.
        replace (s + 1 + Z.of_nat (length done) - 1 + 1) with (s + 1 + Z.of_nat (length done)) by lia. lia.
      * left. unfold block_count. simpl. lia.
  - apply orb_false_iff in Hcut as [Hc1 Hc2%Z.ltb_ge]. apply IH; [done| |].
    + apply andb_false_iff in Hc1. rewrite Z.ltb_ge, negb_false_iff, Z.eqb_eq in Hc1. unfold packing.
      rewrite length_app. cbn [length].
      replace (s + Z.of_nat (length done + 1)) with (s + 1 + Z.of_nat (length done)) by lia. lia.
    + right. rewrite length_app. simpl. lia.
Qed.
End packing.

(** Plans fail on an empty interval or on gas data of another length, and only
    then.  Otherwise the planned ranges tile the interval in order, each within
    the block limit and within the gas target unless it is a single block, and no
    range but the last could have taken one more block. *)
Theorem by_gas_correct a b gas cfg :
  Forall u64 gas ->
  match by_gas a b gas cfg with
  | Err (EmptyInterval a' b') => b <= a /\ a' = a /\ b' = b
  | Err (GasDataMismatch n m) => a < b /\ n = Z.of_nat (length gas) /\ m = b - a /\ n <> m
  | Ok plan =>
      a < b /\ Z.of_nat (length gas) = b - a /\ v plan = 1 /\ covers plan a b = true /\
      exists init last, ranges plan = init ++ [last] /\
        let target := Z.max (target_gas_per_range cfg) 1 in
        let max_blocks := Z.max (max_blocks_per_range cfg) 1 in
        Forall (fits target max_blocks a gas) (ranges plan) /\ Forall (full target max_blocks a gas) init
  end.
Proof.
  intros Hgas. unfold by_gas. destruct (Z.leb_spec b a) as [|Hab]; [done|].
  destruct (Z.eqb_spec (Z.of_nat (length gas)) (b - a)) as [Hlen|]; simpl; [|done].
  pose proof (pack_spec a (Z.max (target_gas_per_range cfg) 1) (Z.max (max_blocks_per_range cfg) 1) gas
    ltac:(lia) ltac:(lia) Hgas gas [] a 0 eq_refl) as Hp. simpl in Hp.
  change (Z.of_nat 0) with 0 in Hp. rewrite !Z.add_0_r in Hp.
  destruct (pack _ _ gas (a + 1) a 0) as [out last]. destruct Hp as (Ht&Hf&Hfu&Hl).
  - unfold packing. simpl. change (Z.of_nat 0) with 0. rewrite Z.add_0_r, Z.sub_diag. unfold U64_MAX. lia.
  - left. intros ->. simpl in Hlen. lia.
  - replace (a + Z.of_nat (length gas)) with b in Hl by lia. split_and!; try done; simpl.
    + apply covers_spec. simpl. eapply tiles_app; [exact Ht|]. destruct Hl as [Hl _].
      unfold block_count in Hl. simpl in Hl. apply (tiles_cons (new_range last b)); simpl; [lia|constructor].
    + exists out, (new_range last b). split_and!; try done. apply Forall_app_2; [done|by constructor].
Qed.

Lemma by_gas_correct_witness :
  by_gas 10 15 [40; 70; 5; 5; 90]
    {| target_gas_per_range := 60; max_blocks_per_range := 2; max_range_splits := 2 |} =
  Ok {| v := 1; ranges := [new_range 10 11; new_range 11 12; new_range 12 14; new_range 14 15] |} /\
  covers {| v := 1; ranges := [new_range 10 11; new_range 11 12; new_range 12 14; new_range 14 15] |}
    10 15 = true.
Proof.
  split; [reflexivity|].
  pose proof (by_gas_correct 10 15 [40; 70; 5; 5; 90]
    {| target_gas_per_range := 60; max_blocks_per_range := 2; max_range_splits := 2 |}
    ltac:(repeat constructor; unfold U64_MAX; lia)) as H.
  cbn in H. apply H.
Defined.

(** ** The session slot *)

(** A plan that covers its interval is recovered from the text stored for it,
    whether as a document or as the bare session id of its only range, provided
    that documents are decoded to what was encoded and session ids are not
    documents. *)
Theorem decode_encode to_string from_str p a b text :
  (forall q s, to_string q = Ok s -> from_str s = Ok q) ->
  (forall r id q, r ∈ ranges p -> session_id r = Some id -> from_str id <> Ok q) ->
  v p = 1 -> a < b -> covers p a b = true -> encode to_string p = Ok text ->
  decode from_str text a b = p.
Proof.
  intros Hjson Hid Hv Hab Hc%covers_spec. unfold encode, decode.
  assert (ranges p <> []) as Hne. { intros Hnil. rewrite Hnil in Hc. inversion Hc. lia. }
  assert (to_string p = Ok text ->
    match from_str text with
    | Ok plan => if bool_decide (ranges plan = []) then single a b (Some text) else plan
    | Err _ => single a b (Some text)
    end = p) as Hdoc.
  { intros ->%Hjson. by rewrite bool_decide_eq_false_2. }
  destruct p as [pv [|r [|]]]; simpl in *; try done. subst pv. destruct r as [rs re id sp]; simpl in *.
  destruct id as [id|]; [|done]. destruct (Z.eqb_spec sp 0) as [->|]; [|done].
  intros [= <-]. destruct (from_str id) as [q|] eqn:Hq.
  - by destruct (Hid _ id q (list_elem_of_here _ _) eq_refl).
  - inversion Hc as [|? ? ? ? Hn]; simpl in *; subst. by inversion Hn; subst.
Qed.

(** A document format with the two plans of the examples below. *)
Definition toy_plan : RangePlan := {| v := 1; ranges := [new_range 10 12; new_range 12 15] |}.
Definition toy_to_string (p : RangePlan) : result string string :=
  if bool_decide (p = toy_plan) then Ok "{plan}" else Err "unsupported".
Definition toy_from_str (s : string) : result RangePlan string :=
  if bool_decide (s = "{plan}") then Ok toy_plan else Err "expected value".

Lemma decode_encode_witness :
  decode toy_from_str "{plan}" 10 15 = toy_plan /\
  decode toy_from_str "0xab" 10 15 = single 10 15 (Some "0xab").
Proof.
  assert (forall q s, toy_to_string q = Ok s -> toy_from_str s = Ok q) as Hjson.
  { intros q s. unfold toy_to_string. case_bool_decide; [|done]. by intros [= <-]; subst. }
  split.
  - eapply (decode_encode toy_to_string toy_from_str toy_plan 10 15); try done.
    intros r id q Hr. cbn [ranges toy_plan] in Hr. rewrite !elem_of_cons in Hr. destruct Hr as [->|[->|Hr]]; [done|done|].
    by apply elem_of_nil in Hr.
  - apply (decode_encode toy_to_string toy_from_str (single 10 15 (Some "0xab")) 10 15); try done.
    intros r id q Hr. apply list_elem_of_singleton in Hr as ->. intros [= <-]. by vm_compute.
Defined.
