(* ===== verification/GasFetch.v ===== *)
(** * Gas of the blocks of an interval
    ([src/proofs/workers/sp1/src/planner.rs], [fetch_range_gas])

    The range planner needs the gas of every block.  It asks the L2 node for batches of
    blocks, several at a time, and puts the answers of a batch back into block order
    by their request ids.  The batches are read-only and independent, so the node is
    a function from a batch to its answer; [FuturesOrdered] yields them in the
    order in which they were created. *)

From Stdlib Require Import Ascii.
From stdpp Require Import gmap strings.
From S2P Require Import Prelude.

Definition GAS_FETCH_BATCH_SIZE : Z := 256.

(** The fields that the code reads of one JSON-RPC response: [id] as a [u64] and
    [result.gasUsed] as a string. *)
Record GasResponse := { resp_id : option Z; resp_gas_used : option string }.

Inductive GasError :=
| GasEmptyInterval (start_block end_block : Z)
| GasHttp (message : string)
| GasResponseCount (responses requests : Z)
| GasMissingId
| GasMissingGasUsed (block : Z)
| GasInvalidGasUsed (block : Z)
| GasMissingBlock (block : Z).

(** ** [u64::from_str_radix(s.trim_start_matches(0x), 16)] *)

Fixpoint trim_0x (s : string) : string :=
  match s with
  | String "0"%char (String "x"%char rest) => trim_0x rest
  | _ => s
  end.

Definition hex_digit (c : Ascii.ascii) : option Z :=
  let n := Z.of_nat (Ascii.nat_of_ascii c) in
  if (48 <=? n) && (n <=? 57) then Some (n - 48)
  else if (97 <=? n) && (n <=? 102) then Some (n - 87)
  else if (65 <=? n) && (n <=? 70) then Some (n - 55)
  else None.

Fixpoint hex_digits (s : string) (acc : Z) : option Z :=
  match s with
  | EmptyString => Some acc
  | String c rest =>
      d ← hex_digit c;
      if acc * 16 + d <=? U64_MAX then hex_digits rest (acc * 16 + d) else None
  end.

Definition from_str_radix_16 (s : string) : option Z :=
  match s with
  | EmptyString => None
  | String "+"%char EmptyString => None
  | String "+"%char rest => hex_digits rest 0
  | _ => hex_digits s 0
  end.

(** ** One batch *)

Fixpoint read_responses (responses : list GasResponse) (by_block : gmap Z Z) : result (gmap Z Z) GasError :=
  match responses with
  | [] => Ok by_block
  | response :: rest =>
      let? block := ok_or (resp_id response) GasMissingId in
      let? gas_used := ok_or (resp_gas_used response) (GasMissingGasUsed block) in
      let? gas_used := ok_or (from_str_radix_16 (trim_0x gas_used)) (GasInvalidGasUsed block) in
      read_responses rest (<[block := gas_used]> by_block)
  end.

Fixpoint collect_blocks (by_block : gmap Z Z) (blocks : list Z) : result (list Z) GasError :=
  match blocks with
  | [] => Ok []
  | block :: rest =>
      let? gas := ok_or (by_block !! block) (GasMissingBlock block) in
      let? l := collect_blocks (delete block by_block) rest in Ok (gas :: l)
  end.

Section fetch.
(** The answer to one HTTP request for the blocks [batch_start..=batch_end]. *)
Context (post : Z -> Z -> result (list GasResponse) string).

Definition fetch_gas_batch (batch_start batch_end : Z) : result (list Z) GasError :=
  let blocks := seqZ batch_start (batch_end + 1 - batch_start) in
  let? responses := map_err GasHttp (post batch_start batch_end) in
  if negb (Z.of_nat (length responses) =? Z.of_nat (length blocks))
  then Err (GasResponseCount (Z.of_nat (length responses)) (Z.of_nat (length blocks)))
  else
    let? by_block := read_responses responses ∅ in
    collect_blocks by_block blocks.

(** The batches from [batch_start] on; each has at least one block, so there are at
    most as many as there are blocks left. *)
Fixpoint batches (fuel : nat) (batch_start end_block : Z) : list (Z * Z) :=
  match fuel with
  | O => []
  | S fuel =>
      if batch_start <=? end_block then
        let batch_end := Z.min (saturating_add U64_MAX batch_start (GAS_FETCH_BATCH_SIZE - 1)) end_block in
        (batch_start, batch_end) :: batches fuel (batch_end + 1) end_block
      else []
  end.

Fixpoint extend_all (l : list (Z * Z)) : result (list Z) GasError :=
  match l with
  | [] => Ok []
  | (batch_start, batch_end) :: rest =>
      let? gas := fetch_gas_batch batch_start batch_end in
      let? l := extend_all rest in Ok (gas ++ l)
  end.

Definition fetch_range_gas (start_block end_block : Z) : result (list Z) GasError :=
  if end_block <=? start_block then Err (GasEmptyInterval start_block end_block)
  else extend_all (batches (Z.to_nat (end_block - start_block)) (start_block + 1) end_block).
End fetch.

(** ** Correctness *)

(** The response says that block [n] used [g] gas. *)
Definition says (n g : Z) (r : GasResponse) : Prop :=
  resp_id r = Some n /\ exists s, resp_gas_used r = Some s /\ from_str_radix_16 (trim_0x s) = Some g.

Lemma read_responses_spec l : forall m m',
  read_responses l m = Ok m' ->
  forall n g, m' !! n = Some g -> m !! n = Some g \/ exists r, r ∈ l /\ says n g r.
Proof.
  induction l as [|r l IH]; intros m m'; simpl; [by intros [= <-] n g ?; left|].
  destruct (resp_id r) as [n0|] eqn:Hn; [|done]. simpl. destruct (resp_gas_used r) as [s|] eqn:Hs; [|done]. simpl.
  destruct (from_str_radix_16 (trim_0x s)) as [g0|] eqn:Hg; [|done]. simpl. intros Hr n g Hm'.
  destruct (IH _ _ Hr n g Hm') as [Hm|(r'&?&?)]; [|right; exists r'; split; [by right|done]].
  destruct (decide (n = n0)) as [->|Hne].
  - rewrite lookup_insert_eq in Hm. injection Hm as ->. right. exists r. split; [by left|].
    split; [done|]. by exists s.
  - rewrite lookup_insert_ne in Hm by done. by left.
Qed.

(** In any order, responses for distinct blocks are all kept. *)
Lemma read_responses_all l : forall m,
  (forall r, r ∈ l -> exists n g, says n g r) ->
  NoDup (map resp_id l) -> exists m', read_responses l m = Ok m' /\
    (forall n, Some n ∉ map resp_id l -> m' !! n = m !! n) /\
    forall r n g, r ∈ l -> says n g r -> m' !! n = Some g.
Proof.
  induction l as [|r l IH]; intros m Hall Hnd; simpl.
  { exists m. split_and!; [done|done|]. by intros r n g ?%elem_of_nil. }
  destruct (Hall r) as (n0&g0&Hid&s&Hs&Hg); [by left|]. rewrite Hid, Hs. simpl. rewrite Hg. simpl.
  simpl in Hnd. apply NoDup_cons in Hnd as [Hnin Hnd]. rewrite Hid in Hnin.
  destruct (IH (<[n0:=g0]> m)) as (m'&Hm'&Hother&Hin); [intros r' ?; apply Hall; by right|done|].
  exists m'. split_and!; [done| |].
  - intros n Hn. rewrite Hother by set_solver. apply lookup_insert_ne. set_solver.
  - intros r' n g [->|Hr']%elem_of_cons Hsays; [|by eapply Hin].
    destruct Hsays as (Hid'&s'&Hs'&Hg'). rewrite Hid in Hid'. injection Hid' as <-.
    rewrite Hother by done. rewrite lookup_insert_eq. congruence.
Qed.

Lemma collect_blocks_spec m blocks : forall l,
  collect_blocks m blocks = Ok l -> Forall2 (fun n g => m !! n = Some g) blocks l.
Proof.
  revert m. induction blocks as [|n blocks IH]; intros m l; simpl; [intros [= <-]; constructor|].
  destruct (m !! n) as [g|] eqn:Hg; [|done]. simpl.
  destruct (collect_blocks _ blocks) as [k|] eqn:Hk; [|done]. simpl. intros [= <-]. constructor; [done|].
  eapply Forall2_impl; [by eapply IH|]. simpl. by intros n' g' [_ ?]%lookup_delete_Some.
Qed.

Section correctness.
Context (post : Z -> Z -> result (list GasResponse) string).

(** A response of the node to the batch that holds block [n] says [g]. *)
Definition from_node (n g : Z) : Prop :=
  exists s e responses r, s <= n <= e /\ e - s < GAS_FETCH_BATCH_SIZE /\
    post s e = Ok responses /\ r ∈ responses /\ says n g r.

Lemma fetch_gas_batch_spec s e l :
  e - s < GAS_FETCH_BATCH_SIZE -> fetch_gas_batch post s e = Ok l ->
  Forall2 from_node (seqZ s (e + 1 - s)) l.
Proof.
  unfold fetch_gas_batch. intros Hsize. destruct (post s e) as [responses|] eqn:Hp; [|done]. simpl.
  destruct (negb _); [done|]. destruct (read_responses responses ∅) as [m|] eqn:Hm; [|done]. simpl.
  intros Hl%collect_blocks_spec.
  apply Forall2_same_length_lookup in Hl as [Hlen Hl]. apply Forall2_same_length_lookup. split; [done|].
  intros i n g Hn Hg. specialize (Hl i n g Hn Hg).
  destruct (read_responses_spec _ _ _ Hm n g Hl) as [Hempty|(r&Hr&Hs)]; [by rewrite lookup_empty in Hempty|].
  apply lookup_seqZ in Hn. exists s, e, responses, r. split_and!; try done; lia.
Qed.

Lemma extend_all_batches fuel : forall s e l,
  (Z.to_nat (e + 1 - s) <= fuel)%nat -> s <= e + 1 -> e < U64_MAX ->
  extend_all post (batches fuel s e) = Ok l -> Forall2 from_node (seqZ s (e + 1 - s)) l.
Proof.
  induction fuel as [|fuel IH]; intros s e l Hf Hle Hmax; simpl.
  { intros [= <-]. replace (e + 1 - s) with 0 by lia. constructor. }
  destruct (Z.leb_spec s e) as [Hse|]; [|intros [= <-]; replace (e + 1 - s) with 0 by lia; constructor]. simpl.
  set (b := Z.min (saturating_add U64_MAX s (GAS_FETCH_BATCH_SIZE - 1)) e).
  assert (s <= b <= e /\ b - s < GAS_FETCH_BATCH_SIZE) as [Hb Hsize].
  { unfold b, saturating_add, GAS_FETCH_BATCH_SIZE. lia. }
  destruct (fetch_gas_batch post s b) as [gas|] eqn:Hg; [|done]. simpl.
  destruct (extend_all post _) as [rest|] eqn:Hr; [|done]. simpl. intros [= <-].
  apply IH in Hr; [|lia|lia|done]. apply fetch_gas_batch_spec in Hg; [|done].
  replace (seqZ s (e + 1 - s)) with (seqZ s (b + 1 - s) ++ seqZ (b + 1) (e + 1 - (b + 1))).
  - by apply Forall2_app.
  - replace (e + 1 - s) with ((b + 1 - s) + (e + 1 - (b + 1))) by lia.
    rewrite seqZ_app by lia. f_equal. f_equal; lia.
Qed.

(** An honest node answers every request of a batch, in an order of its own. *)
Definition honest (gas : Z -> Z) : Prop :=
  forall s e, s <= e -> exists responses,
    post s e = Ok responses /\ map resp_id responses ≡ₚ map Some (seqZ s (e + 1 - s)) /\
    forall r n, r ∈ responses -> resp_id r = Some n -> says n (gas n) r.

Lemma collect_blocks_total gas blocks : forall m,
  NoDup blocks -> (forall n, n ∈ blocks -> m !! n = Some (gas n)) ->
  collect_blocks m blocks = Ok (map gas blocks).
Proof.
  induction blocks as [|n blocks IH]; intros m Hnd Hm; simpl; [done|]. apply NoDup_cons in Hnd as [Hnin Hnd].
  rewrite Hm by by left. simpl. rewrite IH; [done|done|]. intros n' Hn'.
  rewrite lookup_delete_ne by (intros ->; done). apply Hm. by right.
Qed.

Lemma fetch_gas_batch_honest gas s e :
  honest gas -> s <= e -> fetch_gas_batch post s e = Ok (map gas (seqZ s (e + 1 - s))).
Proof.
  intros Hh Hle. destruct (Hh s e Hle) as (responses&Hp&Hids&Hsays). unfold fetch_gas_batch. rewrite Hp. simpl.
  assert (length responses = length (seqZ s (e + 1 - s))) as ->.
  { apply Permutation_length in Hids. by rewrite !length_map in Hids. }
  rewrite Z.eqb_refl. simpl.
  assert (forall r, r ∈ responses -> exists n, n ∈ seqZ s (e + 1 - s) /\ resp_id r = Some n) as Hid.
  { intros r Hr. apply (list_elem_of_fmap_2 resp_id) in Hr. unfold fmap, list_fmap in Hr.
    rewrite Hids in Hr. apply list_elem_of_fmap in Hr as (n&->&?). by exists n. }
  destruct (read_responses_all responses ∅) as (m&->&_&Hm).
  - intros r Hr. destruct (Hid r Hr) as (n&_&Hn). exists n, (gas n). by apply Hsays.
  - rewrite Hids. apply NoDup_fmap_2; [apply _|apply NoDup_seqZ].
  - simpl. apply collect_blocks_total; [apply NoDup_seqZ|]. intros n Hn.
    apply (list_elem_of_fmap_2 Some) in Hn. unfold fmap, list_fmap in Hn. rewrite <-Hids in Hn.
    apply list_elem_of_fmap in Hn as (r&Hr&Hin). by apply (Hm r); [|apply Hsays].
Qed.

Lemma extend_all_honest gas fuel : forall s e,
  honest gas -> (Z.to_nat (e + 1 - s) <= fuel)%nat -> s <= e + 1 -> e < U64_MAX ->
  extend_all post (batches fuel s e) = Ok (map gas (seqZ s (e + 1 - s))).
Proof.
  induction fuel as [|fuel IH]; intros s e Hh Hf Hle Hmax; simpl.
  { by replace (e + 1 - s) with 0 by lia. }
  destruct (Z.leb_spec s e) as [Hse|]; [|by replace (e + 1 - s) with 0 by lia]. simpl.
  set (b := Z.min (saturating_add U64_MAX s (GAS_FETCH_BATCH_SIZE - 1)) e).
  assert (s <= b <= e) as Hb by (unfold b, saturating_add, GAS_FETCH_BATCH_SIZE; lia).
  rewrite (fetch_gas_batch_honest gas) by (done || lia). simpl. rewrite IH by (done || lia). simpl. f_equal.
  replace (e + 1 - s) with ((b + 1 - s) + (e + 1 - (b + 1))) by lia.
  rewrite seqZ_app, map_app by lia. do 3 f_equal. lia.
Qed.

(** Whatever the node answers, a successful fetch gives one value per block in
    block order, each from a response with that block's id; and it succeeds with the
    gas of every block when the node answers every request of each batch, in any
    order. *)
Theorem fetch_range_gas_correct a b gas :
  b < U64_MAX ->
  (forall l, fetch_range_gas post a b = Ok l -> a < b /\ Forall2 from_node (seqZ (a + 1) (b - a)) l) /\
  (honest gas -> a < b -> fetch_range_gas post a b = Ok (map gas (seqZ (a + 1) (b - a)))).
Proof.
  intros Hmax. unfold fetch_range_gas. replace (b - a) with (b + 1 - (a + 1)) by lia. split.
  - intros l. destruct (Z.leb_spec b a); [done|]. intros Hl%extend_all_batches; [done|lia|lia|done].
  - intros Hh Hab. destruct (Z.leb_spec b a); [lia|]. by apply extend_all_honest; [|lia|lia|].
Qed.
End correctness.

(** A node that answers a batch from the last block to the first. *)
Definition toy_post (s e : Z) : result (list GasResponse) string :=
  Ok (rev (map (fun n => {| resp_id := Some n; resp_gas_used := Some "0x1f"%string |}) (seqZ s (e + 1 - s)))).

Lemma fetch_range_gas_correct_witness : fetch_range_gas toy_post 10 300 = Ok (replicate 290 31).
Proof.
  rewrite (proj2 (fetch_range_gas_correct toy_post 10 300 (fun _ => 31) ltac:(done))); [reflexivity| |lia].
  intros s e Hle. eexists. split; [reflexivity|]. split.
  - rewrite map_rev, map_map, Permutation_rev, rev_involutive. done.
  - intros r n Hr Hn. rewrite list_elem_of_In, <-in_rev, <-list_elem_of_In in Hr.
    apply list_elem_of_fmap in Hr as (n'&->&_). injection Hn as ->. split; [done|].
    exists "0x1f"%string. split; reflexivity.
Defined.
