(* ===== verification/Aggregation.v ===== *)
(** * The aggregation guest
    ([src/proofs/measured/sp1-programs/aggregation/src/main.rs],
    [src/proofs/measured/core/src])

    The public values of range proofs and of their aggregation, and the program
    that runs inside the zero-knowledge virtual machine to combine range proofs.
    An assertion that fails ends the guest without a proof; it is [None] here.

    The verification of a range proof inside the machine, the hash of an L1
    header and the decoding of headers are parameters: they are functions of the
    machine and of third-party crates.  [guest_commits_iff] says exactly when the guest
    commits and to what. *)

From stdpp Require Import gmap.
From S2P Require Import Prelude Encoding ProofTypes.

Record TransitionPublicValues := {
  l1Head : B256;
  l2PreRoot : B256;
  l2PreBlockNumber : Z;
  l2PostRoot : B256;
  l2PostBlockNumber : Z;
  rollupConfigHash : B256
}.
#[export] Instance TransitionPublicValues_eq_dec : EqDecision TransitionPublicValues.
Proof. solve_decision. Defined.

Record AggregationInputs := {
  ai_transition_public_values : list TransitionPublicValues;
  ai_latest_l1_checkpoint_head : B256;
  multi_block_vkey : list Z
}.

Record AggregationPublicValues := {
  transitionPublicValues : TransitionPublicValues;
  multiBlockVKey : B256
}.
#[export] Instance AggregationPublicValues_eq_dec : EqDecision AggregationPublicValues.
Proof. solve_decision. Defined.

Record RangeProofArtifact := {
  ra_transition_public_values : TransitionPublicValues;
  ra_proof : bytes
}.

Record AggregationProofArtifact := {
  ap_public_values : AggregationPublicValues;
  ap_proof : bytes
}.

(** Solidity's encoding of the two structs, whose fields are all static. *)
Definition transition_abi_encode (t : TransitionPublicValues) : bytes :=
  abi_word (l1Head t) ++ abi_word (l2PreRoot t) ++ abi_word (l2PreBlockNumber t)
    ++ abi_word (l2PostRoot t) ++ abi_word (l2PostBlockNumber t) ++ abi_word (rollupConfigHash t).
Definition aggregation_abi_encode (a : AggregationPublicValues) : bytes :=
  transition_abi_encode (transitionPublicValues a) ++ abi_word (multiBlockVKey a).

(** The fields are 32-byte words and [uint64]s; then the encoding is injective. *)
Definition transition_typed (t : TransitionPublicValues) : Prop :=
  u256 (l1Head t) /\ u256 (l2PreRoot t) /\ u64 (l2PreBlockNumber t) /\ u256 (l2PostRoot t) /\
  u64 (l2PostBlockNumber t) /\ u256 (rollupConfigHash t).

Lemma transition_abi_inj t u :
  transition_typed t -> transition_typed u -> transition_abi_encode t = transition_abi_encode u -> t = u.
Proof.
  destruct t as [a b c d e f], u as [a' b' c' d' e' f']. unfold transition_abi_encode. simpl.
  intros (?&?&?%u64_u256&?&?%u64_u256&?) (?&?&?%u64_u256&?&?%u64_u256&?). simpl in *.
  intros (->&(->&(->&(->&(->&->%abi_word_inj)%app_word_inj)%app_word_inj)%app_word_inj)%app_word_inj)%app_word_inj; done.
Qed.

(** ** The guest *)

(** The pairs of neighbours, [windows(2)]. *)
Fixpoint windows {A} (l : list A) : list (A * A) :=
  match l with
  | x :: (y :: _) as rest => (x, y) :: windows rest
  | _ => []
  end.

Definition follows (pair : TransitionPublicValues * TransitionPublicValues) : bool :=
  let '(previous, current) := pair in
  (l2PostRoot previous =? l2PreRoot current) &&
  (l2PostBlockNumber previous =? l2PreBlockNumber current) &&
  (rollupConfigHash previous =? rollupConfigHash current).

Definition vkey_b256 (vkey : list Z) : B256 := be_val (concat (map (be_bytes 4) vkey)).

Section guest.
Context {Header : Type} (hash_slow parent_hash : Header -> B256) (from_cbor : bytes -> option (list Header)).
Context (bincode : TransitionPublicValues -> bytes) (sha256 : bytes -> bytes).
Context (verify_sp1_proof : list Z -> bytes -> bool).

Definition verified (vkey : list Z) (t : TransitionPublicValues) : bool :=
  verify_sp1_proof vkey (sha256 (bincode t)).

(** The walk over the headers from the newest, with the L1 heads found so far. *)
Fixpoint walk (headers : list Header) (current_hash : B256) (l1_heads_map : gmap B256 bool)
    : option (gmap B256 bool) :=
  match headers with
  | [] => Some l1_heads_map
  | header :: rest =>
      if current_hash =? hash_slow header then
        walk rest (parent_hash header)
          match l1_heads_map !! current_hash with
          | Some _ => <[current_hash := true]> l1_heads_map
          | None => l1_heads_map
          end
      else None
  end.

Definition l1_heads (l : list TransitionPublicValues) : gmap B256 bool :=
  foldl (fun m t => <[l1Head t := false]> m) ∅ l.

Definition aggregate (agg_inputs : AggregationInputs) (headers_bytes : bytes)
    : option AggregationPublicValues :=
  let l := ai_transition_public_values agg_inputs in
  headers ← from_cbor headers_bytes;
  match head l, last l with
  | Some first, Some last =>
      if negb (forallb follows (windows l)) then None
      else if negb (forallb (verified (multi_block_vkey agg_inputs)) l) then None
      else
        found ← walk (rev headers) (ai_latest_l1_checkpoint_head agg_inputs) (l1_heads l);
        if negb (forallb snd (map_to_list found)) then None
        else
          Some {| transitionPublicValues :=
                    {| l1Head := ai_latest_l1_checkpoint_head agg_inputs;
                       l2PreRoot := l2PreRoot first;
                       l2PreBlockNumber := l2PreBlockNumber first;
                       l2PostRoot := l2PostRoot last;
                       l2PostBlockNumber := l2PostBlockNumber last;
                       rollupConfigHash := rollupConfigHash last |};
                  multiBlockVKey := vkey_b256 (multi_block_vkey agg_inputs) |}
  | _, _ => None
  end.

(** What the guest commits. *)
Definition guest_main (agg_inputs : AggregationInputs) (headers_bytes : bytes) : option bytes :=
  option_map aggregation_abi_encode (aggregate agg_inputs headers_bytes).

(** ** What it commits to *)

(** The headers, newest first, are the block [hash] and its ancestors. *)
Fixpoint linked (headers : list Header) (hash : B256) : Prop :=
  match headers with
  | [] => True
  | header :: rest => hash_slow header = hash /\ linked rest (parent_hash header)
  end.
End guest.

Definition pre (t : TransitionPublicValues) : B256 * Z := (l2PreRoot t, l2PreBlockNumber t).
Definition post (t : TransitionPublicValues) : B256 * Z := (l2PostRoot t, l2PostBlockNumber t).

(** The transitions lead from one output root to another under one rollup
    configuration. *)
Inductive path (config : B256) : list TransitionPublicValues -> B256 * Z -> B256 * Z -> Prop :=
| path_one t : rollupConfigHash t = config -> path config [t] (pre t) (post t)
| path_cons t l c : rollupConfigHash t = config -> path config l (post t) c -> path config (t :: l) (pre t) c.
#[export] Hint Constructors path : wc.

Lemma follows_spec t u :
  follows (t, u) = true <-> post t = pre u /\ rollupConfigHash t = rollupConfigHash u.
Proof. unfold follows, post, pre. rewrite !andb_true_iff, !Z.eqb_eq, pair_equal_spec. done. Qed.

Lemma path_windows l config a b :
  path config l a b <->
  forallb follows (windows l) = true /\
  exists first final, head l = Some first /\ last l = Some final /\ pre first = a /\ post final = b /\
    rollupConfigHash final = config.
Proof.
  split.
  - induction 1 as [t|t l c Ht Hp IH]; [by eauto 10|].
    destruct IH as (Hw&first&final&Hh&Hl&Hpre&Hpost&Hf). destruct l as [|u l]; [done|].
    injection Hh as <-. split; [|by exists t, final].
    change (follows (t, u) && forallb follows (windows (u :: l)) = true). rewrite Hw, andb_true_r.
    apply follows_spec. split; [done|]. by inversion Hp; subst.
  - revert a. induction l as [|t l IH]; intros a (Hw&first&final&Hh&Hl&<-&<-&Hf); [done|].
    injection Hh as <-. destruct l as [|u l]; [injection Hl as <-; by constructor|].
    change (follows (t, u) && forallb follows (windows (u :: l)) = true) in Hw.
    apply andb_true_iff in Hw as [[Hpost Hcfg]%follows_spec Hw].
    assert (path config (u :: l) (post t) (post final)) as Hp by (apply IH; naive_solver).
    constructor; [|done]. rewrite Hcfg. by inversion Hp.
Qed.

Lemma path_config config l a b : path config l a b -> Forall (fun t => rollupConfigHash t = config) l.
Proof. induction 1; by repeat constructor. Qed.

Section correctness.
Context {Header : Type} (hash_slow parent_hash : Header -> B256) (from_cbor : bytes -> option (list Header)).
Context (bincode : TransitionPublicValues -> bytes) (sha256 : bytes -> bytes).
Context (verify_sp1_proof : list Z -> bytes -> bool).

Lemma walk_spec headers : forall hash m found,
  walk hash_slow parent_hash headers hash m = Some found ->
  linked hash_slow parent_hash headers hash /\
  forall k, found !! k = (fun b => b || bool_decide (k ∈ map hash_slow headers)) <$> (m !! k).
Proof.
  induction headers as [|x rest IH]; intros hash m found; simpl.
  { intros [= <-]. split; [done|]. intros k. destruct (m !! k); simpl; [|done].
    by rewrite orb_false_r. }
  destruct (Z.eqb_spec hash (hash_slow x)) as [->|]; [|done].
  intros [Hl Hk]%IH. split; [done|]. intros k. rewrite Hk. clear Hk IH.
  destruct (m !! hash_slow x) eqn:Hx.
  - destruct (decide (k = hash_slow x)) as [->|Hne].
    + rewrite lookup_insert_eq, Hx. simpl. rewrite bool_decide_eq_true_2, orb_true_r; [done|by left].
    + rewrite lookup_insert_ne by done. destruct (m !! k); simpl; [|done].
      do 2 f_equal. apply bool_decide_ext. rewrite elem_of_cons. naive_solver.
  - destruct (decide (k = hash_slow x)) as [->|Hne]; [by rewrite Hx|].
    destruct (m !! k); simpl; [|done]. do 2 f_equal. apply bool_decide_ext. rewrite elem_of_cons. naive_solver.
Qed.

Lemma walk_linked headers : forall hash m,
  linked hash_slow parent_hash headers hash -> is_Some (walk hash_slow parent_hash headers hash m).
Proof.
  induction headers as [|x rest IH]; intros hash m; simpl; [done|]. intros [-> Hl].
  rewrite Z.eqb_refl. by apply IH.
Qed.

Lemma l1_heads_spec l k : l1_heads l !! k = if bool_decide (k ∈ map l1Head l) then Some false else None.
Proof.
  unfold l1_heads. induction l as [|t l IH] using rev_ind; simpl.
  - apply lookup_empty.
  - rewrite foldl_app, map_app. simpl. destruct (decide (k = l1Head t)) as [->|Hne].
    + rewrite lookup_insert_eq, bool_decide_eq_true_2; [done|]. apply elem_of_app. right. by left.
    + rewrite lookup_insert_ne, IH by done. erewrite bool_decide_ext; [done|].
      rewrite elem_of_app, list_elem_of_singleton. naive_solver.
Qed.

(** After a walk, all heads are found exactly if each is the hash of a header. *)
Lemma all_found headers hash l found :
  walk hash_slow parent_hash headers hash (l1_heads l) = Some found ->
  forallb snd (map_to_list found) = true <-> forall t, t ∈ l -> l1Head t ∈ map hash_slow headers.
Proof.
  intros [_ Hf]%walk_spec. rewrite forallb_forall. split.
  - intros H t Ht. specialize (Hf (l1Head t)). rewrite l1_heads_spec in Hf.
    rewrite (bool_decide_eq_true_2 (_ ∈ map l1Head l)) in Hf by by apply list_elem_of_fmap_2. simpl in Hf.
    apply elem_of_map_to_list, list_elem_of_In, H in Hf. simpl in Hf. by apply bool_decide_eq_true in Hf.
  - intros H [k b] Hin%list_elem_of_In%elem_of_map_to_list. rewrite Hf, l1_heads_spec in Hin. simpl.
    destruct (bool_decide (k ∈ map l1Head l)) eqn:Hk; [|done]. apply bool_decide_eq_true in Hk. simpl in Hin. injection Hin as <-. apply bool_decide_eq_true.
    apply list_elem_of_fmap in Hk as (t&->&Ht). by apply H.
Qed.

(** The public values the guest may commit to for its inputs: the headers it read
    are the checkpoint block and ancestors of it, the range proofs are verified and
    lead from the committed pre root to the committed post root under the committed
    configuration, and each was derived from one of those L1 blocks. *)
Definition attests (inputs : AggregationInputs) (headers_bytes : bytes) (out : AggregationPublicValues) : Prop :=
  exists headers,
    let l := ai_transition_public_values inputs in
    let t := transitionPublicValues out in
    from_cbor headers_bytes = Some headers /\
    linked hash_slow parent_hash (rev headers) (ai_latest_l1_checkpoint_head inputs) /\
    path (rollupConfigHash t) l (pre t) (post t) /\
    (forall u, u ∈ l -> verified bincode sha256 verify_sp1_proof (multi_block_vkey inputs) u = true /\
       exists header, header ∈ headers /\ hash_slow header = l1Head u) /\
    l1Head t = ai_latest_l1_checkpoint_head inputs /\
    multiBlockVKey out = vkey_b256 (multi_block_vkey inputs).

Lemma aggregate_spec inputs headers_bytes out :
  aggregate hash_slow parent_hash from_cbor bincode sha256 verify_sp1_proof inputs headers_bytes = Some out <->
  attests inputs headers_bytes out.
Proof.
  unfold aggregate, attests. destruct (from_cbor headers_bytes) as [headers|]; simpl; [|naive_solver].
  assert (forall l : list TransitionPublicValues, (forall t, t ∈ l -> l1Head t ∈ map hash_slow (rev headers)) <->
    forall u, u ∈ l -> exists header, header ∈ headers /\ hash_slow header = l1Head u) as Hheads.
  { intros l. split; intros H u Hu.
    - apply H, list_elem_of_fmap in Hu as (h&->&Hh). exists h. by rewrite list_elem_of_In, <-in_rev, <-list_elem_of_In in Hh.
    - apply H in Hu as (h&Hh&<-). apply list_elem_of_fmap_2. by rewrite list_elem_of_In, <-in_rev, <-list_elem_of_In. }
  set (l := ai_transition_public_values inputs). split.
  - destruct (head l) as [first|] eqn:Hh; [|done]. destruct (last l) as [final|] eqn:Hl; [|done].
    destruct (forallb follows _) eqn:Hw; [|done]. destruct (forallb (verified _ _ _ _) _) eqn:Hv; [|done].
    destruct (walk _ _ _ _ _) as [found|] eqn:Hwalk; simpl; [|done].
    destruct (forallb snd _) eqn:Hs; simpl; [|done]. intros [= <-]. exists headers.
    apply walk_spec in Hwalk as Hlk. pose proof (proj1 (all_found _ _ _ _ Hwalk) Hs) as Hfound. simpl.
    split_and!; try done; [apply Hlk|apply path_windows; by eauto 10|].
    intros u Hu. split; [|by apply (proj1 (Hheads l) Hfound)].
    rewrite forallb_forall in Hv. by apply Hv, list_elem_of_In.
  - intros (hs&[= <-]&Hlk&(Hw&first&final&->&->&Hpre&Hpost&Hcfg)%path_windows&Hu&Hhead&Hvk). rewrite Hw.
    replace (forallb (verified _ _ _ _) l) with true;
      [|by symmetry; apply forallb_forall; intros u Hin%list_elem_of_In; apply Hu]. simpl.
    destruct (walk_linked _ _ (l1_heads l) Hlk) as [found Hwalk]. rewrite Hwalk. simpl.
    rewrite (proj2 (all_found _ _ _ _ Hwalk)); [|by apply Hheads; intros u Hin; apply Hu].
    simpl. destruct out as [[] ]; unfold pre, post in *; simpl in *. by simplify_eq.
Qed.

(** C33: The guest commits bytes exactly when they are the encoding of public values
    that it may attest to. *)
Theorem guest_commits_iff inputs headers_bytes committed :
  guest_main hash_slow parent_hash from_cbor bincode sha256 verify_sp1_proof inputs headers_bytes = Some committed <->
  exists out, committed = aggregation_abi_encode out /\ attests inputs headers_bytes out.
Proof.
  unfold guest_main. setoid_rewrite <-aggregate_spec.
  destruct (aggregate _ _ _ _ _ _ _ _) as [out|]; simpl; naive_solver.
Qed.
End correctness.

(** Headers are numbered; each has the previous number as its parent. *)
Definition toy_transition (root n root' n' : Z) : TransitionPublicValues :=
  {| l1Head := 7; l2PreRoot := root; l2PreBlockNumber := n; l2PostRoot := root'; l2PostBlockNumber := n';
     rollupConfigHash := 42 |}.
Definition toy_inputs : AggregationInputs :=
  {| ai_transition_public_values := [toy_transition 100 10 101 12; toy_transition 101 12 102 15];
     ai_latest_l1_checkpoint_head := 8; multi_block_vkey := [0; 0; 0; 0; 0; 0; 1; 2] |}.
Definition toy_aggregate : AggregationInputs -> bytes -> option AggregationPublicValues :=
  aggregate (fun h => h) (fun h => h - 1) Some (fun t => [l2PreRoot t]) (fun b => b)
    (fun _ digest => bool_decide (digest ∈ [[100]; [101]])).

(** The guest accepts two chained ranges whose L1 head is the parent of the
    checkpoint, and refuses them when the headers do not reach that block. *)
Example toy_aggregation :
  toy_aggregate toy_inputs [7; 8] =
    Some {| transitionPublicValues :=
              {| l1Head := 8; l2PreRoot := 100; l2PreBlockNumber := 10; l2PostRoot := 102;
                 l2PostBlockNumber := 15; rollupConfigHash := 42 |};
            multiBlockVKey := 2 ^ 32 + 2 |} /\
  toy_aggregate toy_inputs [8] = None.
Proof. split; vm_compute; reflexivity. Qed.
