(* ===== verification/Sp1Worker.v ===== *)
(** * The SP1 worker
    ([src/proofs/workers/sp1/src/backend.rs], [src/proofs/backends/sp1/host/src/lib.rs])

    The handler of a claimed SP1 job: it validates the request against its game,
    resumes or plans the range proofs, drives the prover through timeouts and
    bisections, checks that the proved ranges chain to the claimed root, and
    aggregates them.  The prover, the chain, the witness builder and the session
    store are the outside world; logs and metrics are left out. *)

From stdpp Require Import gmap strings pretty.
From S2P Require Import Prelude Program Encoding ProofTypes ProverTypes ProverStore Planner Aggregation.

(** ** The prover's interface *)

Inductive SuccinctProverError :=
| NotCompressed
| RequestAuctionTimedOut (session_id : string)
| RequestTimedOut (session_id : string)
| RequestUnexecutable (session_id : string)
| RequestUnfulfillable (session_id : string).

Definition prover_error_text (e : SuccinctProverError) : string :=
  match e with
  | NotCompressed => "range proof was not in compressed mode"
  | RequestAuctionTimedOut id => "SP1 Network request " +:+ id +:+ " timed out during the auction"
  | RequestTimedOut id => "SP1 Network request " +:+ id +:+ " timed out"
  | RequestUnexecutable id => "SP1 Network request " +:+ id +:+ " is unexecutable"
  | RequestUnfulfillable id => "SP1 Network request " +:+ id +:+ " is unfulfillable"
  end.

Definition should_resubmit (e : SuccinctProverError) : bool :=
  match e with RequestAuctionTimedOut _ | RequestTimedOut _ => true | _ => false end.

Definition is_terminal_session (e : SuccinctProverError) : bool :=
  match e with
  | RequestAuctionTimedOut _ | RequestTimedOut _ | RequestUnexecutable _ | RequestUnfulfillable _ => true
  | NotCompressed => false
  end.

(** An [anyhow::Error] of the prover: the structured error it can be downcast to,
    or any other. *)
Inductive ProverError :=
| Structured (e : SuccinctProverError)
| Unstructured (message : string).

(** The proof of the SP1 SDK: its mode and the values it commits to. *)
Inductive SP1Proof := Core | Compressed | Plonk | Groth16.
Record SP1ProofWithPublicValues := { sdk_proof : SP1Proof; sdk_public_values : bytes; sdk_payload : bytes }.

Record AggregationSessionRequest := {
  as_transition_public_values : list TransitionPublicValues;
  as_latest_l1_checkpoint_head : B256;
  as_l1_headers_cbor : bytes;
  as_range_proofs : list bytes
}.

Inductive Sp1ProofRequest :=
| RangeRequest (witness_rkyv : bytes)
| AggregationRequest (request : AggregationSessionRequest).

Record Sp1BackendConfig := {
  allow_unfinalized : bool;
  aggregation_vkey : B256;
  range_vkey_commitment : B256;
  range_plan : RangePlanConfig
}.

(** ** Errors *)

Inductive ArtifactMismatch :=
| MismatchPostRoot (expected actual : B256)
| MismatchBlockNumber (expected actual : Z)
| MismatchL1Head (expected actual : B256).

Inductive RangeMismatch :=
| NoRangeProofs
| PreBlockMismatch (expected actual : Z)
| DoNotChain (block next_block : Z)
| RangeL1HeadMismatch (expected actual : B256)
| RangeConfigMismatch (expected actual : B256)
| PostRootMismatch (expected actual : B256)
| PostBlockMismatch (expected actual : Z).

(** The errors of a job by their origin; [OutOfFuel] is the model's own. *)
Inductive JobError :=
| GameContext (e : ProofGameContextError)
| Queue (e : ProofJobQueueError)
| GasFetch (message : string)
| Plan (e : PlanError)
| PlanEncoding (message : string)
| Witness (message : string)
| L1Header (message : string)
| ProverFailed (e : ProverError)
| ProofDecoding (message : string)
| ResubmissionsExhausted (start_block end_block : Z) (e : SuccinctProverError)
| CannotSplit (start_block end_block : Z) (e : SuccinctProverError)
| FailedTerminally (start_block end_block : Z) (e : SuccinctProverError)
| LostSession
| MissingArtifact
| Mismatch (e : RangeMismatch)
| AggregationMismatch (e : ArtifactMismatch)
| AggregationExhausted
| OutOfFuel.

(** ** The outside world *)

Inductive job_call (RangeInput L1HeaderT : Type) :=
| ReadGameContext (game : Address)
| SessionsGet (session_type : SessionType)
| SessionsRecord (session_type : SessionType) (backend_session_id : string)
    (status : BackendSessionStatus) (failure_reason : option string)
| FetchRangeGas (start_block end_block : Z)
| BuildRangeInput (start_block end_block : Z) (l1_head : B256) (allow_unfinalized : bool)
| FetchL1Header (hash : B256)
| Submit (request : Sp1ProofRequest)
| Wait (session_id : string)
| Sleep (seconds : Z).
Arguments ReadGameContext {_ _} _.
Arguments SessionsGet {_ _} _.
Arguments SessionsRecord {_ _} _ _ _ _.
Arguments FetchRangeGas {_ _} _ _.
Arguments BuildRangeInput {_ _} _ _ _ _.
Arguments FetchL1Header {_ _} _.
Arguments Submit {_ _} _.
Arguments Wait {_ _} _.
Arguments Sleep {_ _} _.

Definition JobSig (RangeInput L1HeaderT : Type) : Sig :=
  MkSig (job_call RangeInput L1HeaderT) (fun c =>
    match c with
    | ReadGameContext _ => result ProofGameContext ProofGameContextError
    | SessionsGet _ => result (option BackendSession) ProofJobQueueError
    | SessionsRecord _ _ _ _ => result unit ProofJobQueueError
    | FetchRangeGas _ _ => result (list Z) string
    | BuildRangeInput _ _ _ _ => result RangeInput string
    | FetchL1Header _ => result L1HeaderT string
    | Submit _ => result string ProverError
    | Wait _ => result SP1ProofWithPublicValues ProverError
    | Sleep _ => unit
    end).

Definition NETWORK_REQUEST_RETRY_BACKOFFS : list Z := [60; 120; 300].

(** ** Checks on artifacts *)

Definition check_artifact (request : ProofRequest) (artifact : AggregationProofArtifact)
    : result unit ArtifactMismatch :=
  let transition := transitionPublicValues (ap_public_values artifact) in
  if negb (l2PostRoot transition =? rq_root_claim request)
  then Err (MismatchPostRoot (rq_root_claim request) (l2PostRoot transition))
  else if negb (l2PostBlockNumber transition =? rq_l2_block_number request)
  then Err (MismatchBlockNumber (rq_l2_block_number request) (l2PostBlockNumber transition))
  else if negb (l1Head transition =? rq_l1_head request)
  then Err (MismatchL1Head (rq_l1_head request) (l1Head transition))
  else Ok tt.

Definition proof_data_from_aggregation (artifact : AggregationProofArtifact) : ProofData :=
  Sp1Data (ap_proof artifact) (aggregation_abi_encode (ap_public_values artifact)).

Fixpoint check_pairs (pairs : list (TransitionPublicValues * TransitionPublicValues))
    : result unit RangeMismatch :=
  match pairs with
  | [] => Ok tt
  | (previous, current) :: rest =>
      if negb (l2PostRoot previous =? l2PreRoot current)
         || negb (l2PostBlockNumber previous =? l2PreBlockNumber current)
      then Err (DoNotChain (l2PostBlockNumber previous) (l2PreBlockNumber current))
      else check_pairs rest
  end.

Fixpoint check_pinned (l1_head rollup_config_hash : B256) (l : list TransitionPublicValues)
    : result unit RangeMismatch :=
  match l with
  | [] => Ok tt
  | t :: rest =>
      if negb (l1Head t =? l1_head) then Err (RangeL1HeadMismatch l1_head (l1Head t))
      else if negb (rollupConfigHash t =? rollup_config_hash)
      then Err (RangeConfigMismatch rollup_config_hash (rollupConfigHash t))
      else check_pinned l1_head rollup_config_hash rest
  end.

Definition validate_range_artifacts (rollup_config_hash : B256) (start_block : Z) (request : ProofRequest)
    (ranges : list RangeProofArtifact) : result unit RangeMismatch :=
  let l := map ra_transition_public_values ranges in
  match head l, last l with
  | Some first, Some final =>
      if negb (l2PreBlockNumber first =? start_block)
      then Err (PreBlockMismatch start_block (l2PreBlockNumber first))
      else
        let? _u := check_pairs (windows l) in
        let? _u := check_pinned (rq_l1_head request) rollup_config_hash l in
        if negb (l2PostRoot final =? rq_root_claim request)
        then Err (PostRootMismatch (rq_root_claim request) (l2PostRoot final))
        else if negb (l2PostBlockNumber final =? rq_l2_block_number request)
        then Err (PostBlockMismatch (rq_l2_block_number request) (l2PostBlockNumber final))
        else Ok tt
  | _, _ => Err NoRangeProofs
  end.

(** The attempts of an aggregation with the delay before each; a resumed one has
    already used the attempt without delay. *)
Definition network_request_attempts (retrying_existing : bool) : list (nat * option Z) :=
  let first_resubmission := if retrying_existing then 1%nat else 0%nat in
  let delays := drop first_resubmission (None :: map Some NETWORK_REQUEST_RETRY_BACKOFFS) in
  imap (fun offset delay => ((first_resubmission + offset)%nat, delay)) delays.

(** ** The handler *)

Section backend.
Context {RangeInput L1HeaderT : Type}.
Abbreviation JobS := (JobSig RangeInput L1HeaderT).
Abbreviation job A := (prog JobS (result A JobError)).
Abbreviation ask c := (Call (c : call JobS) (fun r => Ret r)).

(** Serialisation by third-party crates: the witness ([rkyv]), the headers
    ([serde_cbor]), proofs and range public values ([bincode]), the on-chain form of a proof
    ([bytes]), aggregation public values ([abi_decode]) and plans ([serde_json]). *)
Context (rkyv : RangeInput -> result bytes string) (to_cbor : list L1HeaderT -> result bytes string).
Context (deserialize_transition : bytes -> result TransitionPublicValues string).
Context (serialize_proof : SP1ProofWithPublicValues -> result bytes string).
Context (onchain_bytes : SP1ProofWithPublicValues -> bytes).
Context (abi_decode : bytes -> result AggregationPublicValues string).
Context (to_string : RangePlan -> result string string) (from_str : string -> result RangePlan string).

(** The backend's own settings. *)
Context (supports_persistent_sessions : bool) (host_rollup_config_hash : B256) (config : Sp1BackendConfig).

Definition range_artifact_from_sp1_proof (proof : SP1ProofWithPublicValues)
    : result RangeProofArtifact JobError :=
  let? transition := map_err ProofDecoding (deserialize_transition (sdk_public_values proof)) in
  match sdk_proof proof with
  | Compressed =>
      let? proof_bytes := map_err ProofDecoding (serialize_proof proof) in
      Ok {| ra_transition_public_values := transition; ra_proof := proof_bytes |}
  | _ => Err (ProverFailed (Structured NotCompressed))
  end.

Definition aggregation_artifact_from_sp1_proof (proof : SP1ProofWithPublicValues)
    : result AggregationProofArtifact JobError :=
  let? public_values := map_err ProofDecoding (abi_decode (sdk_public_values proof)) in
  let? proof_bytes :=
    match sdk_proof proof with
    | Groth16 | Plonk => Ok (onchain_bytes proof)
    | _ => map_err ProofDecoding (serialize_proof proof)
    end in
  Ok {| ap_public_values := public_values; ap_proof := proof_bytes |}.

Definition read_start_block (request : ProofRequest) : job Z :=
  do ctx <- ask (ReadGameContext (rq_game request));
  Ret (let? context := map_err GameContext ctx in
       map_err GameContext (validated_start_block context (rq_game request) (rq_root_claim request)
         (rq_l2_block_number request) (rq_l1_head request) host_rollup_config_hash)).

Definition get_session (ty : SessionType) : job (option BackendSession) :=
  if supports_persistent_sessions
  then do r <- ask (SessionsGet ty); Ret (map_err Queue r)
  else Ret (Ok None).

Definition record_session (ty : SessionType) (id : string) (status : BackendSessionStatus)
    (reason : option string) : job unit :=
  if supports_persistent_sessions
  then do r <- ask (SessionsRecord ty id status reason); Ret (map_err Queue r)
  else Ret (Ok tt).

Definition submit_session (ty : SessionType) (request : Sp1ProofRequest) : job string :=
  do r <- ask (Submit request);
  match r with
  | Err e => Ret (Err (ProverFailed e))
  | Ok session_id => do? _u <- record_session ty session_id SRunning None; Ret (Ok session_id)
  end.

Definition plan_by_gas (start_block end_block : Z) : job RangePlan :=
  if saturating_sub end_block start_block <=? 1 then Ret (Ok (single start_block end_block None))
  else
    do gas <- ask (FetchRangeGas start_block end_block);
    Ret (let? gas := map_err GasFetch gas in
         map_err Plan (by_gas start_block end_block gas (range_plan config))).

Definition load_range_plan (start_block : Z) (request : ProofRequest) : job RangePlan :=
  let end_block := rq_l2_block_number request in
  do? stark_session <- get_session Stark;
  match stark_session with
  | Some s =>
      let plan := decode from_str (bs_backend_session_id s) start_block end_block in
      if covers plan start_block end_block then Ret (Ok plan) else plan_by_gas start_block end_block
  | None => plan_by_gas start_block end_block
  end.

Definition persist_plan (plan : RangePlan) (status : BackendSessionStatus) (reason : option string)
    : job unit :=
  match encode to_string plan with
  | Err m => Ret (Err (PlanEncoding m))
  | Ok encoded => record_session Stark encoded status reason
  end.

Definition build_range_request (start_block end_block : Z) (request : ProofRequest) : job bytes :=
  do input <- ask (BuildRangeInput start_block end_block (rq_l1_head request) (allow_unfinalized config));
  Ret (let? input := map_err Witness input in map_err Witness (rkyv input)).

Definition with_session (id : option string) (r : PlannedRange) : PlannedRange :=
  {| start_block := start_block r; end_block := end_block r; session_id := id; splits := splits r |}.

Definition set_ranges (l : list PlannedRange) (p : RangePlan) : RangePlan := {| v := v p; ranges := l |}.

(** The first loop of a round: every range without a session is submitted. *)
Fixpoint submit_pending (plan : RangePlan) (request : ProofRequest) (submitted pending : list PlannedRange)
    : job (list PlannedRange) :=
  match pending with
  | [] => Ret (Ok submitted)
  | range :: rest =>
      match session_id range with
      | Some _ => submit_pending plan request (submitted ++ [range]) rest
      | None =>
          do? range_request <- build_range_request (start_block range) (end_block range) request;
          do sent <- ask (Submit (RangeRequest range_request));
          match sent with
          | Err e => Ret (Err (ProverFailed e))
          | Ok id =>
              let range' := with_session (Some id) range in
              do? _u <- persist_plan (set_ranges (submitted ++ range' :: rest) plan) SRunning None;
              submit_pending plan request (submitted ++ [range']) rest
          end
      end
  end.

Definition key (r : PlannedRange) : Z * Z := (start_block r, end_block r).

Abbreviation Artifacts := (gmap (Z * Z) RangeProofArtifact).
Abbreviation Resubmissions := (gmap (Z * Z) nat).

(** The first range without an artifact, between the ranges before and after. *)
Fixpoint first_unproved (artifacts : Artifacts) (before l : list PlannedRange)
    : option (list PlannedRange * PlannedRange * list PlannedRange) :=
  match l with
  | [] => None
  | range :: rest =>
      match artifacts !! key range with
      | Some _ => first_unproved artifacts (before ++ [range]) rest
      | None => Some (before, range, rest)
      end
  end.

Fixpoint collect_artifacts (artifacts : Artifacts) (l : list PlannedRange)
    : result (list RangeProofArtifact) JobError :=
  match l with
  | [] => Ok []
  | range :: rest =>
      match artifacts !! key range with
      | None => Err MissingArtifact
      | Some artifact =>
          let? l' := collect_artifacts (delete (key range) artifacts) rest in Ok (artifact :: l')
      end
  end.

(** What a failed wait for [range] leads to: the job fails with an error, after
    the plan is recorded as failed when a reason is given, or goes on with another
    plan after a delay. *)
Inductive WaitOutcome :=
| Abort (reason : option string) (e : JobError)
| Resubmit (delay : Z)
| Split (low high : PlannedRange).

Definition wait_outcome (attempts : nat) (range : PlannedRange) (error : ProverError) : WaitOutcome :=
  match error with
  | Structured e =>
      if should_resubmit e then
        match NETWORK_REQUEST_RETRY_BACKOFFS !! attempts with
        | None => Abort (Some (prover_error_text e))
                    (ResubmissionsExhausted (start_block range) (end_block range) e)
        | Some delay => Resubmit delay
        end
      else
        match e with
        | RequestUnexecutable _ =>
            match if splits range <? max_range_splits (range_plan config) then bisect range else None with
            | None => Abort (Some (prover_error_text e)) (CannotSplit (start_block range) (end_block range) e)
            | Some (low, high) => Split low high
            end
        | _ =>
            if is_terminal_session e
            then Abort (Some (prover_error_text e))
                   (FailedTerminally (start_block range) (end_block range) e)
            else Abort None (ProverFailed error)
        end
  | Unstructured _ => Abort None (ProverFailed error)
  end.

(** One round per unit of fuel. *)
Fixpoint prove_loop (fuel : nat) (plan : RangePlan) (request : ProofRequest) (artifacts : Artifacts)
    (resubmissions : Resubmissions) : job (list RangeProofArtifact) :=
  match fuel with
  | O => Ret (Err OutOfFuel)
  | S fuel =>
      do? l <- submit_pending plan request [] (ranges plan);
      let plan := set_ranges l plan in
      match first_unproved artifacts [] l with
      | None =>
          do? _u <- persist_plan plan SCompleted None;
          Ret (collect_artifacts artifacts l)
      | Some (before, range, after) =>
          match session_id range with
          | None => Ret (Err LostSession)
          | Some id =>
              do waited <- ask (Wait id);
              match waited with
              | Ok proof =>
                  match range_artifact_from_sp1_proof proof with
                  | Err e => Ret (Err e)
                  | Ok artifact =>
                      prove_loop fuel plan request (<[key range := artifact]> artifacts) resubmissions
                  end
              | Err error =>
                  let attempts := default 0%nat (resubmissions !! key range) in
                  match wait_outcome attempts range error with
                  | Abort None e => Ret (Err e)
                  | Abort (Some reason) e =>
                      do? _u <- persist_plan plan SFailed (Some reason); Ret (Err e)
                  | Resubmit delay =>
                      do _u <- ask (Sleep delay);
                      let plan := set_ranges (before ++ with_session None range :: after) plan in
                      do? _u <- persist_plan plan SRunning None;
                      prove_loop fuel plan request artifacts (<[key range := S attempts]> resubmissions)
                  | Split low high =>
                      let plan := set_ranges (before ++ low :: high :: after) plan in
                      do? _u <- persist_plan plan SRunning None;
                      prove_loop fuel plan request artifacts resubmissions
                  end
              end
          end
      end
  end.

(** Rounds that a range can cause: one that proves it, one per resubmission, and
    those of its halves. *)
Fixpoint rounds (depth : nat) : nat :=
  match depth with
  | O => 4
  | S d => 4 + 2 * rounds d
  end.

Definition depth (r : PlannedRange) : nat := Z.to_nat (max_range_splits (range_plan config) - splits r).

Definition fuel_for (l : list PlannedRange) : nat := S (sum_list_with (fun r => rounds (depth r)) l).

Definition prove_ranges (plan : RangePlan) (request : ProofRequest) : job (list RangeProofArtifact) :=
  prove_loop (fuel_for (ranges plan)) plan request ∅ ∅.

(** [Ok None]: the request timed out and is to be replaced. *)
Definition handle_wait_error (ty : SessionType) (id : string) (error : ProverError) : job unit :=
  match error with
  | Unstructured _ => Ret (Err (ProverFailed error))
  | Structured e =>
      if negb (is_terminal_session e) then Ret (Err (ProverFailed error))
      else
        do? _u <- record_session ty id SFailed (Some (prover_error_text e));
        if negb (should_resubmit e) then Ret (Err (ProverFailed error)) else Ret (Ok tt)
  end.

Definition wait_for_aggregation (id : string) : job (option AggregationProofArtifact) :=
  do waited <- ask (Wait id);
  match waited with
  | Ok proof =>
      match aggregation_artifact_from_sp1_proof proof with
      | Err e => Ret (Err e)
      | Ok artifact => do? _u <- record_session Snark id SCompleted None; Ret (Ok (Some artifact))
      end
  | Err error => do? _u <- handle_wait_error Snark id error; Ret (Ok None)
  end.

Fixpoint aggregation_attempts (attempts : list (nat * option Z)) (request : AggregationSessionRequest)
    : job AggregationProofArtifact :=
  match attempts with
  | [] => Ret (Err AggregationExhausted)
  | (_, delay) :: rest =>
      do _u <- match delay with Some d => ask (Sleep d) | None => Ret tt end;
      do? id <- submit_session Snark (AggregationRequest request);
      do? artifact <- wait_for_aggregation id;
      match artifact with
      | Some artifact => Ret (Ok artifact)
      | None => aggregation_attempts rest request
      end
  end.

Definition submit_aggregation_with_retries (request : AggregationSessionRequest) (retrying_existing : bool)
    : job AggregationProofArtifact :=
  aggregation_attempts (network_request_attempts retrying_existing) request.

Definition build_aggregation_request (request : ProofRequest) (l : list RangeProofArtifact)
    : job AggregationSessionRequest :=
  do header <- ask (FetchL1Header (rq_l1_head request));
  Ret (let? header := map_err L1Header header in
       let? cbor := map_err L1Header (to_cbor [header]) in
       Ok {| as_transition_public_values := map ra_transition_public_values l;
             as_latest_l1_checkpoint_head := rq_l1_head request;
             as_l1_headers_cbor := cbor;
             as_range_proofs := map ra_proof l |}).

Definition finish_job (request : ProofRequest) (artifact : AggregationProofArtifact)
    : result ProofData JobError :=
  let? _u := map_err AggregationMismatch (check_artifact request artifact) in
  Ok (proof_data_from_aggregation artifact).

Definition prove_and_aggregate (start_block : Z) (request : ProofRequest) (retrying_aggregation : bool)
    : job ProofData :=
  do? plan <- load_range_plan start_block request;
  do? l <- prove_ranges plan request;
  match validate_range_artifacts host_rollup_config_hash start_block request l with
  | Err e => Ret (Err (Mismatch e))
  | Ok _ =>
      do? aggregation_request <- build_aggregation_request request l;
      do? artifact <- submit_aggregation_with_retries aggregation_request retrying_aggregation;
      Ret (finish_job request artifact)
  end.

Definition handle_claimed_job (request : ProofRequest) : job ProofData :=
  do? start_block <- read_start_block request;
  do? snark_session <- get_session Snark;
  match snark_session with
  | Some s =>
      do? resumed <- wait_for_aggregation (bs_backend_session_id s);
      match resumed with
      | Some artifact => Ret (finish_job request artifact)
      | None => prove_and_aggregate start_block request true
      end
  | None => prove_and_aggregate start_block request false
  end.
End backend.

(** ** Vocabulary of the theorems *)

(** Errors that report a broken assumption of the code itself. *)
Definition internal (e : JobError) : bool :=
  match e with OutOfFuel | LostSession | MissingArtifact => true | _ => false end.

Definition is_range_submission {I H} (c : call (JobSig I H)) : bool :=
  match c with Submit (RangeRequest _) => true | _ => false end.
Definition is_aggregation_submission {I H} (c : call (JobSig I H)) : bool :=
  match c with Submit (AggregationRequest _) => true | _ => false end.

(** ** Checks *)

Lemma check_artifact_spec request x :
  check_artifact request x = Ok tt <->
  post (transitionPublicValues (ap_public_values x)) = (rq_root_claim request, rq_l2_block_number request) /\
  l1Head (transitionPublicValues (ap_public_values x)) = rq_l1_head request.
Proof.
  unfold check_artifact, post. destruct (transitionPublicValues (ap_public_values x)) as [h ? ? q n ?]; simpl.
  rewrite pair_equal_spec.
  destruct (Z.eqb_spec q (rq_root_claim request)), (Z.eqb_spec n (rq_l2_block_number request)),
    (Z.eqb_spec h (rq_l1_head request)); simpl; naive_solver.
Qed.

Lemma check_pinned_spec l1_head config l :
  check_pinned l1_head config l = Ok tt <->
  Forall (fun t => l1Head t = l1_head /\ rollupConfigHash t = config) l.
Proof.
  induction l as [|t l IH]; simpl; [done|]. rewrite Forall_cons.
  destruct (Z.eqb_spec (l1Head t) l1_head), (Z.eqb_spec (rollupConfigHash t) config); simpl; naive_solver.
Qed.

Lemma check_pairs_spec l config :
  Forall (fun t => rollupConfigHash t = config) l ->
  check_pairs (windows l) = Ok tt <-> forallb follows (windows l) = true.
Proof.
  induction l as [|t [|u l] IH]; [done|done|]. intros [Ht Hl]%Forall_cons. specialize (IH Hl).
  apply Forall_cons in Hl as [Hu _].
  change (windows (t :: u :: l)) with ((t, u) :: windows (u :: l)). cbn [check_pairs forallb].
  rewrite andb_true_iff, <-IH, follows_spec. unfold post, pre. rewrite Ht, Hu, pair_equal_spec.
  destruct (Z.eqb_spec (l2PostRoot t) (l2PreRoot u)),
    (Z.eqb_spec (l2PostBlockNumber t) (l2PreBlockNumber u)); simpl; naive_solver.
Qed.

(** Range proofs pass the worker's validation exactly if they lead from the start
    block to the claimed root, all under the same configuration and L1 head. *)
Lemma validate_range_artifacts_spec config a request l :
  validate_range_artifacts config a request l = Ok tt <->
  Forall (fun t => l1Head t = rq_l1_head request) (map ra_transition_public_values l) /\
  exists root, path config (map ra_transition_public_values l) (root, a)
                 (rq_root_claim request, rq_l2_block_number request).
Proof.
  unfold validate_range_artifacts. generalize (map ra_transition_public_values l) as k. clear l. intros k.
  split.
  - setoid_rewrite path_windows. destruct (head k) as [first|]; [|done]. destruct (last k) as [final|] eqn:Hlast; [|done].
    destruct (Z.eqb_spec (l2PreBlockNumber first) a) as [Ha|]; [|done]. simpl.
    destruct (check_pairs _) as [[]|] eqn:Hp; [|done]. destruct (check_pinned _ _ _) as [[]|] eqn:Hc; [|done]. simpl.
    destruct (Z.eqb_spec (l2PostRoot final) (rq_root_claim request)) as [Hr|]; [|done].
    destruct (Z.eqb_spec (l2PostBlockNumber final) (rq_l2_block_number request)) as [Hb|]; [|done]. intros _.
    apply check_pinned_spec, Forall_and in Hc as [Hh Hc].
    split; [done|]. exists (l2PreRoot first). split; [by apply (check_pairs_spec _ config)|].
    exists first, final. unfold pre, post. rewrite Ha, Hr, Hb. split_and!; try done.
    rewrite Forall_forall in Hc. by apply Hc, last_Some_elem_of.
  - intros (Hh&root&Hpath). apply path_config in Hpath as Hc.
    apply path_windows in Hpath as (Hw&first&final&->&->&[= _ ->]&[= -> ->]&_).
    rewrite (proj2 (check_pairs_spec k config Hc) Hw). simpl.
    rewrite (proj2 (check_pinned_spec (rq_l1_head request) config k)) by by apply Forall_and.
    by rewrite !Z.eqb_refl.
Qed.

(** ** Lists of ranges *)

Lemma tiles_keys l a b : tiles l a b -> Forall (fun r => a <= start_block r) l /\ NoDup (map key l).
Proof.
  induction 1 as [|r l b Hlt Ht [Hle Hnd]]; [split; constructor|]. split.
  - constructor; [lia|]. eapply Forall_impl; [exact Hle|]. simpl. lia.
  - simpl. constructor; [|done]. intros (r'&Hk&Hr')%list_elem_of_fmap. injection Hk as Hs _.
    rewrite Forall_forall in Hle. apply Hle in Hr'. lia.
Qed.

Lemma tiles_same l l' a b : Forall2 (fun r r' => key r = key r') l l' -> tiles l a b -> tiles l' a b.
Proof.
  intros H. revert a. induction H as [|r r' l l' Hk _ IH]; intros a; [done|].
  injection Hk as Hs He. intros Ht. inversion Ht as [|? ? ? Hlt Hrest]; subst. rewrite Hs.
  constructor; [lia|]. rewrite <-He. auto.
Qed.

Lemma first_unproved_None m l : forall before,
  first_unproved m before l = None -> Forall (fun r => is_Some (m !! key r)) l.
Proof.
  induction l as [|r l IH]; intros before; simpl; [constructor|].
  destruct (m !! key r) eqn:Hr; [|done]. intros ?%IH. by constructor.
Qed.

Lemma first_unproved_Some m l : forall before0 before r after,
  first_unproved m before0 l = Some (before, r, after) ->
  m !! key r = None /\ before0 ++ l = before ++ r :: after.
Proof.
  induction l as [|r' l IH]; intros before0 before r after; simpl; [done|].
  destruct (m !! key r') eqn:Hr; [|by intros [= <- <- <-]]. intros [? Heq]%IH. split; [done|].
  by rewrite <-app_assoc in Heq.
Qed.

Lemma collect_artifacts_spec m l :
  Forall (fun r => is_Some (m !! key r)) l -> NoDup (map key l) ->
  exists out, collect_artifacts m l = Ok out /\ Forall2 (fun r x => m !! key r = Some x) l out.
Proof.
  revert m. induction l as [|r l IH]; intros m Hall Hnd; simpl; [by eexists|].
  apply Forall_cons in Hall as [[x Hx] Hall]. apply NoDup_cons in Hnd as [Hnin Hnd].
  assert (forall r', r' ∈ l -> key r' <> key r) as Hne.
  { intros r' Hr' Heq. apply Hnin. rewrite <-Heq. by apply list_elem_of_fmap_2. }
  destruct (IH (delete (key r) m)) as (out&Hout&H2); [|done|].
  { apply Forall_forall. intros r' Hr'. rewrite lookup_delete_ne by (by apply not_eq_sym, Hne).
    by apply (proj1 (Forall_forall _ _) Hall). }
  rewrite Hx, Hout. simpl. eexists; split; [done|]. constructor; [done|].
  eapply Forall2_impl; [exact H2|]. simpl. by intros r' y [_ ?]%lookup_delete_Some.
Qed.

(** ** Every run of the handler *)

Section runs.
Context {RangeInput L1HeaderT : Type}.
Abbreviation JobS := (JobSig RangeInput L1HeaderT).
Context (rkyv : RangeInput -> result bytes string) (to_cbor : list L1HeaderT -> result bytes string).
Context (deserialize_transition : bytes -> result TransitionPublicValues string).
Context (serialize_proof : SP1ProofWithPublicValues -> result bytes string).
Context (onchain_bytes : SP1ProofWithPublicValues -> bytes).
Context (abi_decode : bytes -> result AggregationPublicValues string).
Context (to_string : RangePlan -> result string string) (from_str : string -> result RangePlan string).
Context (persistent : bool) (config_hash : B256) (config : Sp1BackendConfig).
Context (request : ProofRequest).
Implicit Types h t : list (event JobS).
Implicit Types m : gmap (Z * Z) RangeProofArtifact.

Abbreviation range_artifact := (range_artifact_from_sp1_proof deserialize_transition serialize_proof).
Abbreviation persist := (persist_plan to_string persistent).
Abbreviation submit := (submit_pending (L1HeaderT := L1HeaderT) rkyv to_string persistent config).
Abbreviation loop := (prove_loop (L1HeaderT := L1HeaderT) rkyv deserialize_transition serialize_proof to_string persistent config).

(** The game confirmed that the request's interval starts at [a]. *)
Definition started h (a : Z) : Prop :=
  exists ctx, saw (ReadGameContext (rq_game request) : call JobS) (Ok ctx) h /\
    validated_start_block ctx (rq_game request) (rq_root_claim request) (rq_l2_block_number request)
      (rq_l1_head request) config_hash = Ok a.

(** The prover returned this range proof. *)
Definition proved h (x : RangeProofArtifact) : Prop :=
  exists id proof, saw (Wait id : call JobS) (Ok proof) h /\ range_artifact proof = Ok x.

(** What the handler may ask of the prover and of the session store, given what it
    has seen, when the interval starts at [a]. *)
Definition justified (a : Z) h (c : job_call RangeInput L1HeaderT) : Prop :=
  match c with
  | ReadGameContext _ => False
  | SessionsRecord Stark id _ _ =>
      exists plan, encode to_string plan = Ok id /\ covers plan a (rq_l2_block_number request) = true
  | SessionsRecord Snark id SRunning _ =>
      exists q, saw (Submit (AggregationRequest q) : call JobS) (Ok id) h
  | SessionsRecord Snark id SCompleted _ => exists proof, saw (Wait id : call JobS) (Ok proof) h
  | SessionsRecord Snark id SFailed _ =>
      exists e, saw (Wait id : call JobS) (Err (Structured e)) h /\ is_terminal_session e = true
  | SessionsRecord Snark _ SSubmitting _ => False
  | Submit (RangeRequest w) =>
      exists s e input, a <= s < e /\ e <= rq_l2_block_number request /\
        saw (BuildRangeInput s e (rq_l1_head request) (allow_unfinalized config) : call JobS) (Ok input) h /\
        rkyv input = Ok w
  | Submit (AggregationRequest q) =>
      exists l header cbor,
        validate_range_artifacts config_hash a request l = Ok tt /\ Forall (proved h) l /\
        saw (FetchL1Header (rq_l1_head request) : call JobS) (Ok header) h /\ to_cbor [header] = Ok cbor /\
        q = {| as_transition_public_values := map ra_transition_public_values l;
               as_latest_l1_checkpoint_head := rq_l1_head request;
               as_l1_headers_cbor := cbor;
               as_range_proofs := map ra_proof l |}
  | _ => True
  end.

Lemma proved_mono h t x : h ⊆ t -> proved h x -> proved t x.
Proof. intros Hs (id&proof&?&?). exists id, proof. split; [by eapply saw_mono|done]. Qed.

(** The guard of the phase that proves ranges, which begins after [t0]. *)
Definition allowed_from (a : Z) (t0 : list (event JobS)) h (e : event JobS) : Prop :=
  justified a (t0 ++ h) (projT1 e) /\ is_aggregation_submission (projT1 e) = false.

(** Moves what was seen before into the starting trace. *)
Ltac rebase := intros ? ?; unfold allowed_from; rewrite <-!app_assoc; simpl; intros ?; eassumption.

(** *** Submitting *)

Definition pending (r : PlannedRange) : nat := match session_id r with None => 1 | Some _ => 0 end.
Definition count_pending (l : list PlannedRange) : nat := sum_list_with pending l.
Abbreviation submissions t := (count_calls is_range_submission t).

(** The same range, possibly with another session. *)
Definition same_range (r r' : PlannedRange) : Prop := key r = key r' /\ splits r = splits r'.

#[local] Instance same_range_trans : Transitive same_range.
Proof. intros ? ? ? [] []. split; congruence. Qed.

Lemma same_range_refl l : Forall2 same_range l l.
Proof. induction l; by constructor. Qed.

Lemma same_range_tiles l l' a b : Forall2 same_range l l' -> tiles l a b -> tiles l' a b.
Proof. intros H. apply tiles_same. eapply Forall2_impl; [exact H|]. by intros ? ? []. Qed.

(** An operation that only records a plan which covers the interval. *)
Lemma persist_safe a t0 plan status reason :
  tiles (ranges plan) a (rq_l2_block_number request) ->
  safe (allowed_from a t0) (persist plan status reason) (fun t r =>
    submissions t = 0%nat /\ match r with Ok _ => True | Err e => internal e = false end).
Proof.
  intros Ht. unfold persist_plan, record_session. destruct (encode _ _) as [id|m] eqn:He; [|by apply safe_ret].
  destruct persistent; [|by apply safe_ret]. sym_call [?|?]; try by apply safe_ret.
  split; [|done]. exists plan. split; [done|]. by apply covers_spec.
Qed.

Lemma submit_safe a plan todo : forall sent t0,
  tiles (sent ++ todo) a (rq_l2_block_number request) -> Forall (fun r => pending r = 0%nat) sent ->
  safe (allowed_from a t0) (submit plan request sent todo) (fun t r =>
    (submissions t <= count_pending todo)%nat /\
    match r with
    | Ok l => Forall2 same_range (sent ++ todo) l /\ Forall (fun r => pending r = 0%nat) l
    | Err e => internal e = false
    end).
Proof.
  induction todo as [|r todo IH]; intros sent t0 Ht Hs; cbn [submit_pending].
  { apply safe_ret. rewrite app_nil_r. split; [done|]. split; [apply same_range_refl|done]. }
  unfold count_pending. cbn [sum_list_with]. fold (count_pending todo).
  destruct (session_id r) as [id|] eqn:Hid.
  - assert (pending r = 0%nat) as Hp by (unfold pending; by rewrite Hid).
    rewrite Hp. eapply safe_conseq; [apply (IH (sent ++ [r]) t0)|done|].
    + by rewrite <-app_assoc.
    + by apply Forall_app_2; repeat constructor.
    + intros t x. by rewrite <-app_assoc.
  - assert (pending r = 1%nat) as Hp by (unfold pending; by rewrite Hid). rewrite Hp.
    assert (r ∈ sent ++ r :: todo) as Hin by (apply elem_of_app; right; left).
    apply (tiles_inside _ _ _ _ Ht) in Hin. unfold build_range_request.
    sym_call [input|m]; [done| |by apply safe_ret; simpl; lia].
    cbn [rbind]. destruct (rkyv input) as [w|m] eqn:Hw; sym_simpl; [|by apply safe_ret; simpl; lia].
    sym_call [id|e]; [|set (r' := with_session (Some id) r)|by apply safe_ret; simpl; lia].
    { split; [|done]. exists (start_block r), (end_block r), input. split_and!; try done; try lia. seen. }
    assert (Forall2 same_range (sent ++ r :: todo) (sent ++ r' :: todo)) as Hsame.
    { apply Forall2_app; [apply same_range_refl|]. constructor; [done|apply same_range_refl]. }
    pose proof (same_range_tiles _ _ _ _ Hsame Ht) as Ht'. eapply safe_bind_try.
    + eapply safe_conseq; [by eapply (persist_safe a (t0 ++ [_; _]))|rebase|done].
    + intros e t [Hz He]. split; [simpl; lia|done].
    + intros u t1 [Hz _]. eapply safe_conseq; [eapply (IH (sent ++ [r']) (t0 ++ [_; _] ++ t1))|rebase|].
      * by rewrite <-app_assoc.
      * by apply Forall_app_2; repeat constructor.
      * intros t [l|e] [Hc Hr]; cbn [count_calls]; rewrite count_calls_app; simpl; (split; [lia|]); [|done].
        destruct Hr as [H2 Hl]. split; [|done]. rewrite <-app_assoc in H2. simpl in H2.
        by etrans.
Qed.

(** *** The potential of a plan *)

(** Rounds that the range may still cause. *)
Definition budget (m : gmap (Z * Z) RangeProofArtifact) (n : gmap (Z * Z) nat) (r : PlannedRange) : nat :=
  match m !! key r with
  | Some _ => 0
  | None => rounds (depth config r) - Nat.min 3 (default 0%nat (n !! key r))
  end.

(** Requests for range proofs that it may still cause. *)
Definition may_submit m n (r : PlannedRange) : nat := pending r + pred (budget m n r).

Abbreviation weight m n l := (sum_list_with (budget m n) l).
Abbreviation submits_left m n l := (sum_list_with (may_submit m n) l).

Lemma rounds_pos d : (4 <= rounds d)%nat.
Proof. destruct d; simpl; lia. Qed.

Lemma sum_list_with_le {A} (f g : A -> nat) l :
  (forall x, f x <= g x)%nat -> (sum_list_with f l <= sum_list_with g l)%nat.
Proof. intros H. induction l as [|x l IH]; simpl; [done|]. specialize (H x). lia. Qed.

Lemma budget_same m n r r' : same_range r r' -> budget m n r = budget m n r'.
Proof. intros [Hk Hs]. unfold budget, depth. by rewrite Hk, Hs. Qed.

Lemma weight_same m n l l' : Forall2 same_range l l' -> weight m n l = weight m n l'.
Proof. induction 1 as [|r r' l l' H _ IH]; simpl; [done|]. by rewrite IH, (budget_same _ _ _ _ H). Qed.

(** A submitted plan has used up its pending submissions. *)
Lemma submits_left_sent m n l l' :
  Forall2 same_range l l' -> Forall (fun r => pending r = 0%nat) l' ->
  submits_left m n l = (count_pending l + submits_left m n l')%nat.
Proof.
  unfold count_pending. induction 1 as [|r r' l l' H _ IH]; simpl; [done|]. intros [Hr Hl]%Forall_cons.
  rewrite (IH Hl). unfold may_submit. rewrite Hr, (budget_same _ _ _ _ H). lia.
Qed.

(** A plan one of whose ranges [r] gives way to [new], when nobody's budget grows. *)
Lemma potential_step m n m' n' before r new after :
  (forall x, budget m' n' x <= budget m n x)%nat ->
  pending r = 0%nat -> (0 < budget m n r)%nat ->
  (weight m' n' new < budget m n r)%nat -> (submits_left m' n' new <= pred (budget m n r))%nat ->
  (weight m' n' (before ++ new ++ after) < weight m n (before ++ r :: after))%nat /\
  (submits_left m' n' (before ++ new ++ after) <= submits_left m n (before ++ r :: after))%nat.
Proof.
  intros Hle Hp Hr Hw Hs.
  assert (forall x, may_submit m' n' x <= may_submit m n x)%nat as Hle'.
  { intros x. unfold may_submit. specialize (Hle x). lia. }
  pose proof (sum_list_with_le _ _ before Hle). pose proof (sum_list_with_le _ _ after Hle).
  pose proof (sum_list_with_le _ _ before Hle'). pose proof (sum_list_with_le _ _ after Hle').
  assert (may_submit m n r = pred (budget m n r)) as Hm by (unfold may_submit; lia).
  rewrite !sum_list_with_app. cbn [sum_list_with]. lia.
Qed.

Lemma wait_outcome_cases attempts r error :
  match wait_outcome config attempts r error with
  | Abort _ e => internal e = false
  | Resubmit _ => (attempts < 3)%nat
  | Split low high => splits r < max_range_splits (range_plan config) /\ bisect r = Some (low, high)
  end.
Proof.
  destruct error as [e|m]; [|done]. unfold wait_outcome. destruct (should_resubmit e) eqn:Hr.
  - destruct (_ !! attempts) eqn:Hl; [|done]. by apply lookup_lt_Some in Hl.
  - destruct e; try done. destruct (Z.ltb_spec (splits r) (max_range_splits (range_plan config))); [|done].
    destruct (bisect r) as [[low high]|]; [|done]. split; [lia|done].
Qed.

Lemma resubmit_step m n before r after :
  m !! key r = None -> pending r = 0%nat -> (default 0%nat (n !! key r) < 3)%nat ->
  let n' := <[key r := S (default 0%nat (n !! key r))]> n in
  let l' := before ++ with_session None r :: after in
  (weight m n' l' < weight m n (before ++ r :: after))%nat /\
  (submits_left m n' l' <= submits_left m n (before ++ r :: after))%nat.
Proof.
  intros Hm Hp Ha n' l'. pose proof (rounds_pos (depth config r)).
  assert (budget m n r = (rounds (depth config r) - default 0%nat (n !! key r))%nat) as Hb.
  { unfold budget. rewrite Hm. lia. }
  assert (budget m n' (with_session None r) = pred (budget m n r)) as Hb'.
  { rewrite Hb. unfold budget, n'. change (key (with_session None r)) with (key r).
    change (depth config (with_session None r)) with (depth config r).
    rewrite Hm, lookup_insert_eq. cbn [from_option id]. lia. }
  apply (potential_step m n m n' before r [with_session None r] after); [|done|lia|simpl; lia|].
  - intros x. unfold budget, n'. destruct (m !! key x); [done|].
    destruct (decide (key x = key r)) as [->|]; [rewrite lookup_insert_eq|rewrite lookup_insert_ne by done];
      cbn [from_option id]; lia.
  - cbn [sum_list_with]. unfold may_submit. rewrite Hb'. change (pending (with_session None r)) with 1%nat. lia.
Qed.

Lemma split_step m n before r low high after :
  m !! key r = None -> pending r = 0%nat ->
  splits r < max_range_splits (range_plan config) -> bisect r = Some (low, high) ->
  let l' := before ++ low :: high :: after in
  (weight m n l' < weight m n (before ++ r :: after))%nat /\
  (submits_left m n l' <= submits_left m n (before ++ r :: after))%nat.
Proof.
  intros Hm Hp Hsp (_&Hl&Hh&Hil&Hih&_)%bisect_spec l'.
  assert (depth config r = S (depth config low) /\ depth config high = depth config low) as [Hd Hd'].
  { unfold depth. rewrite Hl, Hh. split; [lia|done]. }
  assert (forall x, budget m n x <= rounds (depth config x))%nat as Hle.
  { intros x. unfold budget. destruct (m !! key x); lia. }
  pose proof (Hle low) as Hlow. pose proof (Hle high) as Hhigh. rewrite Hd' in Hhigh.
  assert (1 + 2 * rounds (depth config low) <= budget m n r)%nat as Hb.
  { unfold budget. rewrite Hm, Hd. cbn [rounds]. lia. }
  assert (pending low = 1%nat /\ pending high = 1%nat) as [Hpl Hph] by (unfold pending; by rewrite Hil, Hih).
  pose proof (rounds_pos (depth config low)).
  apply (potential_step m n m n before r [low; high] after); [done|done|lia|cbn [sum_list_with]; lia|].
  cbn [sum_list_with]. unfold may_submit. rewrite Hpl, Hph. lia.
Qed.

Lemma proved_step m n before r after x :
  m !! key r = None -> pending r = 0%nat ->
  let m' := <[key r := x]> m in
  (weight m' n (before ++ r :: after) < weight m n (before ++ r :: after))%nat /\
  (submits_left m' n (before ++ r :: after) <= submits_left m n (before ++ r :: after))%nat.
Proof.
  intros Hm Hp m'. pose proof (rounds_pos (depth config r)).
  assert (budget m' n r = 0%nat) as Hz by (unfold budget, m'; by rewrite lookup_insert_eq).
  assert (0 < budget m n r)%nat by (unfold budget; rewrite Hm; lia).
  apply (potential_step m n m' n before r [r] after); [|done|done|simpl; lia|].
  - intros y. unfold budget, m'. destruct (decide (key y = key r)) as [->|].
    + rewrite lookup_insert_eq. lia.
    + rewrite lookup_insert_ne by done. lia.
  - simpl. unfold may_submit. lia.
Qed.

(** *** The loop *)

Definition loop_post (N : nat) (t0 t : list (event JobS)) (r : result (list RangeProofArtifact) JobError) : Prop :=
  (submissions t <= N)%nat /\
  match r with Ok l => Forall (proved (t0 ++ t)) l | Err e => internal e = false end.

(** Continues the loop after the events [t1], of which [k] are submissions. *)
Lemma loop_post_weaken N k t0 t1 t r :
  loop_post N (t0 ++ t1) t r -> (submissions t1 <= k)%nat -> loop_post (k + N) t0 (t1 ++ t) r.
Proof.
  intros [Hc Hr] Hk. split; [rewrite count_calls_app; lia|]. destruct r; [|done].
  by rewrite app_assoc.
Qed.

Lemma persist_then a t0 plan status reason (k : prog JobS (result (list RangeProofArtifact) JobError)) N :
  tiles (ranges plan) a (rq_l2_block_number request) ->
  (forall t1, safe (allowed_from a (t0 ++ t1)) k (loop_post N (t0 ++ t1))) ->
  safe (allowed_from a t0) (do? _u <- persist plan status reason; k) (loop_post N t0).
Proof.
  intros Ht Hk. eapply safe_bind_try; [by apply persist_safe| |].
  - intros e t [Hc He]. split; [lia|done].
  - intros u t1 [Hc _]. eapply safe_conseq; [apply (Hk t1)|rebase|].
    intros t r Hr. apply (loop_post_weaken N 0); [done|lia].
Qed.

Lemma collect_safe a t0 m l N :
  Forall (fun r => is_Some (m !! key r)) l -> NoDup (map key l) -> map_Forall (fun _ => proved t0) m ->
  safe (allowed_from a t0) (Ret (collect_artifacts m l)) (loop_post N t0).
Proof.
  intros Hall Hnd Hm. apply safe_ret. split; [simpl; lia|]. rewrite app_nil_r.
  destruct (collect_artifacts_spec m l Hall Hnd) as (out&->&H2).
  clear -H2 Hm. induction H2 as [|r x l out Hx _ IH]; constructor; [|done]. by eapply Hm.
Qed.


Lemma loop_post_le N N' t0 t r : loop_post N t0 t r -> (N <= N')%nat -> loop_post N' t0 t r.
Proof. intros [? ?] ?. split; [lia|done]. Qed.

Lemma proved_map_mono t0 t1 m : map_Forall (fun _ => proved t0) m -> map_Forall (fun _ => proved (t0 ++ t1)) m.
Proof. intros H k x Hx. eapply proved_mono; [|by eapply H]. apply subseteq_app_l. Qed.

Lemma count_pending_le m n l : (count_pending l <= submits_left m n l)%nat.
Proof. apply sum_list_with_le. intros x. unfold may_submit. lia. Qed.

(** A call that is not a submission, and what follows it. *)
Lemma loop_call a t0 e (p : prog JobS (result (list RangeProofArtifact) JobError)) N N' :
  is_range_submission (projT1 e) = false -> (N <= N')%nat ->
  safe (allowed_from a (t0 ++ [e])) p (loop_post N (t0 ++ [e])) ->
  safe (fun h => allowed_from a t0 (e :: h)) p (fun t r => loop_post N' t0 (e :: t) r).
Proof.
  intros He Hn Hp. eapply safe_conseq; [exact Hp|rebase|]. intros t r Hr.
  eapply loop_post_le; [apply (loop_post_weaken _ 0 t0 [e] t r Hr)|done]. cbn [count_calls]. rewrite He. lia.
Qed.

Lemma range_artifact_external proof e : range_artifact proof = Err e -> internal e = false.
Proof.
  unfold range_artifact_from_sp1_proof. destruct (deserialize_transition _); simpl; [|by intros [= <-]].
  destruct (sdk_proof proof); try by intros [= <-]. destruct (serialize_proof _); simpl; [done|by intros [= <-]].
Qed.

Lemma loop_safe a fuel : forall plan m n t0,
  tiles (ranges plan) a (rq_l2_block_number request) ->
  (weight m n (ranges plan) < fuel)%nat -> map_Forall (fun _ => proved t0) m ->
  safe (allowed_from a t0) (loop fuel plan request m n) (loop_post (submits_left m n (ranges plan)) t0).
Proof.
  induction fuel as [|fuel IH]; intros plan m n t0 Ht Hw Hm; [lia|]. cbn [prove_loop].
  eapply safe_bind_try; [by apply (submit_safe a plan (ranges plan) [])| |].
  { intros e t [Hc He]. split; [|done]. pose proof (count_pending_le m n (ranges plan)). lia. }
  intros l t1 (Hc&Hsame&Hsent). simpl in Hsame. rewrite (submits_left_sent m n _ _ Hsame Hsent).
  rewrite (weight_same m n _ _ Hsame) in Hw. apply (same_range_tiles _ _ _ _ Hsame) in Ht.
  apply (proved_map_mono t0 t1) in Hm. clear Hsame.
  eapply (safe_conseq (allowed_from a (t0 ++ t1)) _ _ (loop_post (submits_left m n l) (t0 ++ t1)));
    [|rebase|by intros t r Hr; apply loop_post_weaken].
  generalize dependent (t0 ++ t1). clear t0 t1 Hc. intros t0 Hm.
  destruct (first_unproved m [] l) as [[[before r] after]|] eqn:Hf.
  2:{ apply persist_then; [done|]. intros t1. apply collect_safe; [by eapply first_unproved_None| |].
      - by eapply tiles_keys.
      - by apply proved_map_mono. }
  apply first_unproved_Some in Hf as [Hr Hl]. simpl in Hl. subst l.
  assert (pending r = 0%nat) as Hp by (apply Forall_app in Hsent as [_ Hs]; by inversion Hs).
  destruct (session_id r) as [id|] eqn:Hid; [|unfold pending in Hp; by rewrite Hid in Hp].
  sym_call [proof|error]; [done| |]; apply (loop_call _ _ _ _ (submits_left m n (before ++ r :: after)));
    try done.
  - destruct (range_artifact proof) as [x|e] eqn:Hx.
    2:{ apply safe_ret. split; [simpl; lia|by eapply range_artifact_external]. }
    destruct (proved_step m n before r after x Hr Hp) as [Hw' Hs'].
    eapply safe_conseq; [eapply (IH (set_ranges _ plan) _ n)|done|].
    + exact Ht.
    + simpl. lia.
    + apply map_Forall_insert_2; [exists id, proof; split; [seen|done]|]. by apply proved_map_mono.
    + intros t r' Hr'. by eapply loop_post_le.
  - apply (proved_map_mono t0 [ev (Wait id : call JobS) (Err error)]) in Hm.
    pose proof (wait_outcome_cases (default 0%nat (n !! key r)) r error) as Hcases.
    destruct (wait_outcome _ _ _ _) as [[reason|] e|delay|low high].
    + apply persist_then; [done|]. intros t1. apply safe_ret. split; [simpl; lia|done].
    + apply safe_ret. split; [simpl; lia|done].
    + destruct (resubmit_step m n before r after Hr Hp Hcases) as [Hw' Hs'].
      assert (tiles (before ++ with_session None r :: after) a (rq_l2_block_number request)) as Ht'.
      { eapply same_range_tiles; [|exact Ht]. apply Forall2_app; [apply same_range_refl|].
        constructor; [done|apply same_range_refl]. }
      sym_call []; [done|]. eapply loop_call; [done|exact Hs'|]. apply persist_then; [done|].
      intros t1. apply IH; [done|simpl; lia|]. by apply proved_map_mono, proved_map_mono.
    + destruct Hcases as [Hsp Hb]. destruct (split_step m n before r low high after Hr Hp Hsp Hb) as [Hw' Hs'].
      pose proof (tiles_split _ _ _ _ _ _ _ Ht Hb) as Ht'.
      eapply safe_conseq; [apply persist_then with (N := submits_left m n (before ++ low :: high :: after))|done|].
      * done.
      * intros t1. apply IH; [done|simpl; lia|]. by apply proved_map_mono.
      * intros t r' Hr'. by eapply loop_post_le.
Qed.

(** *** Planning *)

(** Encoded plans have [u32] split counts. *)
Context (Hsplits : forall s plan, from_str s = Ok plan -> Forall (fun r => 0 <= splits r) (ranges plan)).

Definition plan_post (a : Z) t (r : result RangePlan JobError) : Prop :=
  submissions t = 0%nat /\
  match r with
  | Ok plan => tiles (ranges plan) a (rq_l2_block_number request) /\ Forall (fun r => 0 <= splits r) (ranges plan)
  | Err e => internal e = false
  end.

Lemma plan_by_gas_safe a t0 :
  a < rq_l2_block_number request ->
  safe (allowed_from a t0) (plan_by_gas (L1HeaderT := L1HeaderT) (RangeInput := RangeInput) config a
         (rq_l2_block_number request)) (plan_post a).
Proof.
  intros Hab. unfold plan_by_gas. destruct (_ <=? 1).
  { apply safe_ret. split_and!; [done| |by repeat constructor].
    by apply (tiles_cons {| start_block := a |}); [|constructor]. }
  sym_call [gas|m]; [done| |by apply safe_ret]. cbn [rbind].
  destruct (by_gas _ _ _ _) as [plan|e] eqn:Hg; [|by apply safe_ret].
  apply by_gas_tiles in Hg as [Ht Hs]. apply safe_ret. split; [done|]. split; [done|].
  eapply Forall_impl; [exact Hs|]. simpl. lia.
Qed.

Lemma decode_splits value a b : Forall (fun r => 0 <= splits r) (ranges (decode from_str value a b)).
Proof.
  unfold decode. destruct (from_str value) as [plan|] eqn:Hf; [|by repeat constructor].
  destruct (bool_decide _); [by repeat constructor|by eapply Hsplits].
Qed.

Lemma load_range_plan_safe a t0 :
  a < rq_l2_block_number request ->
  safe (allowed_from a t0) (load_range_plan (L1HeaderT := L1HeaderT) (RangeInput := RangeInput)
         from_str persistent config a request) (plan_post a).
Proof.
  intros Hab. unfold load_range_plan, get_session.
  destruct persistent; [|by apply plan_by_gas_safe]. sym_call [[s|]|e]; try done; [| |by apply safe_ret].
  - destruct (covers _ _ _) eqn:Hc.
    + apply safe_ret. split_and!; [done|by apply covers_spec|apply decode_splits].
    + eapply safe_conseq; [by eapply (plan_by_gas_safe a (t0 ++ [_]))|rebase|done].
  - eapply safe_conseq; [by eapply (plan_by_gas_safe a (t0 ++ [_]))|rebase|done].
Qed.

(** *** Aggregating *)

Abbreviation agg_artifact := (aggregation_artifact_from_sp1_proof serialize_proof onchain_bytes abi_decode).
Abbreviation agg_submissions t := (count_calls is_aggregation_submission t).

(** The guard of the phase that aggregates. *)
Definition aggregates_from (a : Z) (t0 : list (event JobS)) h (e : event JobS) : Prop :=
  justified a (t0 ++ h) (projT1 e) /\ is_range_submission (projT1 e) = false.

Ltac rebase_agg := intros ? ?; unfold aggregates_from; rewrite <-!app_assoc; simpl; intros ?; eassumption.

Lemma justified_submission_mono a t0 t q :
  justified a t0 (Submit (AggregationRequest q)) -> justified a (t0 ++ t) (Submit (AggregationRequest q)).
Proof.
  intros (l&header&cbor&Hv&Hl&Hh&Hc&Hq). exists l, header, cbor. split_and!; try done; [|by apply saw_app_l].
  eapply Forall_impl; [exact Hl|]. intros x. apply proved_mono, subseteq_app_l.
Qed.

Lemma agg_artifact_external proof e : agg_artifact proof = Err e -> internal e = false.
Proof.
  unfold aggregation_artifact_from_sp1_proof. destruct (abi_decode _); simpl; [|by intros [= <-]].
  destruct (sdk_proof proof); simpl; try done; by destruct (serialize_proof _); simpl; [|intros [= <-]].
Qed.

Lemma wait_for_aggregation_safe a t0 id :
  safe (aggregates_from a t0) (wait_for_aggregation (L1HeaderT := L1HeaderT) (RangeInput := RangeInput)
         serialize_proof onchain_bytes abi_decode persistent id) (fun t r =>
    agg_submissions t = 0%nat /\
    match r with
    | Ok (Some x) => exists proof, saw (Wait id : call JobS) (Ok proof) t /\ agg_artifact proof = Ok x
    | Ok None => True
    | Err e => internal e = false
    end).
Proof.
  unfold wait_for_aggregation, handle_wait_error, record_session. sym_call [proof|[e|m]]; try done.
  - destruct (agg_artifact proof) as [x|e] eqn:Hx; [|by apply safe_ret; split; [|eapply agg_artifact_external]].
    destruct persistent.
    + sym_call [u|e]; try by apply safe_ret.
      * split; [|done]. exists proof. seen.
      * apply safe_ret. split; [done|]. exists proof. split; [seen|done].
    + apply safe_ret. split; [done|]. exists proof. split; [seen|done].
  - destruct (is_terminal_session e) eqn:He; [|by apply safe_ret].
    destruct persistent; [sym_call [u|e']|]; try (by apply safe_ret); cbn [negb bind].
    + split; [|done]. exists e. split; [seen|done].
    + by destruct (should_resubmit e); apply safe_ret.
    + by destruct (should_resubmit e); apply safe_ret.
  - by apply safe_ret.
Qed.

(** The prover returned this aggregation of the job, requested now or in an
    earlier attempt. *)
Definition aggregated h (x : AggregationProofArtifact) : Prop :=
  exists id proof, saw (Wait id : call JobS) (Ok proof) h /\ agg_artifact proof = Ok x /\
    ((exists q, saw (Submit (AggregationRequest q) : call JobS) (Ok id) h) \/
     exists s, saw (SessionsGet Snark : call JobS) (Ok (Some s)) h /\ bs_backend_session_id s = id).

Definition agg_post (N : nat) t (r : result AggregationProofArtifact JobError) : Prop :=
  (agg_submissions t <= N)%nat /\
  match r with Ok x => aggregated t x | Err e => internal e = false end.

Lemma agg_post_app N k t1 t r :
  agg_post N t r -> (agg_submissions t1 <= k)%nat -> agg_post (k + N) (t1 ++ t) r.
Proof.
  intros [Hc Hr] Hk. split; [rewrite count_calls_app; lia|]. destruct r as [x|]; [|done].
  destruct Hr as (id&proof&?&?&Hr). exists id, proof. split_and!; [by apply saw_app_r|done|].
  destruct Hr as [[q ?]|(s&?&?)]; [left; exists q|right; exists s; split; [|done]]; by apply saw_app_r.
Qed.

(** One attempt: the request, its record, and the wait. *)
Lemma attempt_safe a t0 q rest N :
  justified a t0 (Submit (AggregationRequest q)) ->
  (forall t1, safe (aggregates_from a (t0 ++ t1)) rest (agg_post N)) ->
  safe (aggregates_from a t0)
    (do? id <- submit_session persistent Snark (AggregationRequest q);
     do? artifact <- wait_for_aggregation (L1HeaderT := L1HeaderT) (RangeInput := RangeInput)
                       serialize_proof onchain_bytes abi_decode persistent id;
     match artifact with Some artifact => Ret (Ok artifact) | None => rest end) (agg_post (S N)).
Proof.
  intros Hq Hrest.
  assert (forall t1 id, saw (Submit (AggregationRequest q) : call JobS) (Ok id) t1 ->
    (agg_submissions t1 <= 1)%nat ->
    safe (aggregates_from a (t0 ++ t1))
      (do? artifact <- wait_for_aggregation (L1HeaderT := L1HeaderT) (RangeInput := RangeInput)
                         serialize_proof onchain_bytes abi_decode persistent id;
       match artifact with Some artifact => Ret (Ok artifact) | None => rest end)
      (fun t r => agg_post (S N) (t1 ++ t) r)) as Hwait.
  { intros t1 id Hid Hc. eapply safe_bind_try; [apply wait_for_aggregation_safe| |].
    - intros e t [Hz He]. split; [rewrite count_calls_app; lia|done].
    - intros [x|] t2 [Hz Hx].
      + apply safe_ret. rewrite app_nil_r. split; [rewrite count_calls_app; lia|].
        destruct Hx as (proof&Hw&Hx). exists id, proof.
        split_and!; [by apply saw_app_r|done|left; exists q; by apply saw_app_l].
      + eapply safe_conseq; [apply (Hrest (t1 ++ t2))|rebase_agg|]. intros t r Hr.
        rewrite app_assoc. apply (agg_post_app N 1); [done|]. rewrite count_calls_app. lia. }
  unfold submit_session, record_session. sym_call [id|e]; [| |by apply safe_ret; split; [simpl; lia|]].
  { split; [by rewrite app_nil_r|done]. }
  destruct persistent; sym_simpl.
  - sym_call [u|e]; [split; [exists q; seen|done]| |by apply safe_ret; split; [simpl; lia|]].
    eapply safe_conseq; [apply (Hwait [ev (Submit (AggregationRequest q) : call JobS) (Ok id);
      ev (SessionsRecord Snark id SRunning None : call JobS) (Ok u)] id); [seen|simpl; lia]|rebase_agg|by intros].
  - eapply safe_conseq; [apply (Hwait [ev (Submit (AggregationRequest q) : call JobS) (Ok id)] id);
      [seen|simpl; lia]|rebase_agg|by intros].
Qed.

Lemma attempts_safe a q attempts : forall t0,
  justified a t0 (Submit (AggregationRequest q)) ->
  safe (aggregates_from a t0) (aggregation_attempts (L1HeaderT := L1HeaderT) (RangeInput := RangeInput)
    serialize_proof onchain_bytes abi_decode persistent attempts q) (agg_post (length attempts)).
Proof.
  induction attempts as [|[i delay] attempts IH]; intros t0 Hq; cbn [aggregation_attempts].
  { apply safe_ret. by split. }
  eapply (safe_bind _ _ _ (fun t _ => agg_submissions t = 0%nat)).
  - destruct delay; [|by apply safe_ret]. sym_call []; [done|]. by apply safe_ret.
  - intros [] t1 Hz. eapply safe_conseq; [eapply (attempt_safe a (t0 ++ t1))|rebase_agg|].
    + by apply justified_submission_mono.
    + intros t2. apply IH. by repeat apply justified_submission_mono.
    + intros t r Hr. apply (agg_post_app _ 0); [done|lia].
Qed.

(** *** The whole job *)

(** Requests for range proofs that an interval may cause. *)
Definition range_limit (a : Z) : nat :=
  Z.to_nat (rq_l2_block_number request - a) * rounds (Z.to_nat (max_range_splits (range_plan config))).

Lemma tiles_length l a b : tiles l a b -> Z.of_nat (length l) <= b - a.
Proof. induction 1; cbn [length]; lia. Qed.

Lemma rounds_mono d d' : (d <= d')%nat -> (rounds d <= rounds d')%nat.
Proof.
  induction 1 as [|d' _ IH]; [done|]. cbn [rounds]. lia.
Qed.

Lemma submits_left_limit l a :
  tiles l a (rq_l2_block_number request) -> Forall (fun r => 0 <= splits r) l ->
  (submits_left ∅ ∅ l <= range_limit a)%nat.
Proof.
  intros Ht%tiles_length Hs. unfold range_limit.
  transitivity (length l * rounds (Z.to_nat (max_range_splits (range_plan config))))%nat;
    [|apply Nat.mul_le_mono_r; lia].
  clear Ht. induction Hs as [|r l Hr _ IH]; simpl; [done|].
  pose proof (rounds_mono (depth config r) (Z.to_nat (max_range_splits (range_plan config)))
    ltac:(unfold depth; lia)). pose proof (rounds_pos (depth config r)).
  unfold may_submit at 1, budget, pending. rewrite lookup_empty. destruct (session_id r); lia.
Qed.

Definition job_from (a : Z) (t0 : list (event JobS)) h (e : event JobS) : Prop :=
  justified a (t0 ++ h) (projT1 e).

(** The result of a job and the aggregations it asked for. *)
Definition result_post t (r : result ProofData JobError) : Prop :=
  (agg_submissions t <= 4)%nat /\
  match r with
  | Ok data => exists x, aggregated t x /\ check_artifact request x = Ok tt /\ data = proof_data_from_aggregation x
  | Err e => internal e = false
  end.

Lemma finish_job_post t x :
  (agg_submissions t <= 4)%nat -> aggregated t x -> result_post t (finish_job request x).
Proof.
  intros Hc Hx. split; [done|]. unfold finish_job.
  destruct (check_artifact request x) as [[]|e] eqn:He; simpl; [by exists x|done].
Qed.

Lemma result_post_app t1 t r : agg_submissions t1 = 0%nat -> result_post t r -> result_post (t1 ++ t) r.
Proof.
  intros Hz [Hc Hr]. split; [rewrite count_calls_app; lia|]. destruct r as [data|e]; [|done].
  destruct Hr as (x&Hx&Hr). exists x. split; [|done].
  by apply (agg_post_app (agg_submissions t) 0 t1 t (Ok x)); [|lia].
Qed.

Lemma attempts_length retrying : (length (network_request_attempts retrying) <= 4)%nat.
Proof. destruct retrying; simpl; lia. Qed.

(** The second half of the job, when the ranges are proved. *)
Lemma aggregate_job_safe a t0 l retrying :
  validate_range_artifacts config_hash a request l = Ok tt -> Forall (proved t0) l ->
  safe (aggregates_from a t0)
    (do? q <- build_aggregation_request (RangeInput := RangeInput) to_cbor request l;
     do? x <- submit_aggregation_with_retries serialize_proof onchain_bytes abi_decode persistent q retrying;
     Ret (finish_job request x)) result_post.
Proof.
  intros Hv Hl. unfold build_aggregation_request. sym_call [header|m]; [done| |by apply safe_ret; split; [simpl; lia|]].
  cbn [rbind]. destruct (to_cbor [header]) as [cbor|m] eqn:Hc; cbn [rbind bind_try bind map_err];
    [|by apply safe_ret; split; [simpl; lia|]]. fold (@bind_try JobS).
  eapply safe_conseq; [|intros h e He; exact He|intros t r; apply (result_post_app [_]); reflexivity].
  pose proof (attempts_length retrying).
  eapply safe_bind_try; [eapply safe_conseq; [eapply (attempts_safe a _ _ (t0 ++ [_]))|rebase_agg|intros ? ? Hp; exact Hp]| |].
  - exists l, header, cbor. split_and!; try done; [|seen].
    eapply Forall_impl; [exact Hl|]. intros x. apply proved_mono, subseteq_app_l.
  - intros e t [Hn He]. split; [lia|done].
  - intros x t1 [Hn Hx]. apply safe_ret. rewrite app_nil_r. apply finish_job_post; [lia|done].
Qed.

Lemma proving_phase {A} a t0 (p : prog JobS A) Q :
  safe (allowed_from a t0) p Q -> safe (job_from a t0) p (fun t r => Q t r /\ agg_submissions t = 0%nat).
Proof.
  intros Hp t r [Hg Hq]%Hp. split; [|split; [done|]].
  - eapply guarded_impl; [|exact Hg]. by intros ? ? ? [].
  - eapply guarded_count; [exact Hg|]. by intros ? ? [].
Qed.

Lemma aggregation_phase {A} a t0 (p : prog JobS A) Q :
  safe (aggregates_from a t0) p Q -> safe (job_from a t0) p (fun t r => Q t r /\ submissions t = 0%nat).
Proof.
  intros Hp t r [Hg Hq]%Hp. split; [|split; [done|]].
  - eapply guarded_impl; [|exact Hg]. by intros ? ? ? [].
  - eapply guarded_count; [exact Hg|]. by intros ? ? [].
Qed.

Lemma prove_ranges_safe a t0 plan :
  tiles (ranges plan) a (rq_l2_block_number request) -> Forall (fun r => 0 <= splits r) (ranges plan) ->
  safe (allowed_from a t0) (prove_ranges (L1HeaderT := L1HeaderT) rkyv deserialize_transition serialize_proof
    to_string persistent config plan request) (loop_post (range_limit a) t0).
Proof.
  intros Ht Hs. eapply safe_conseq; [apply (loop_safe a _ plan ∅ ∅ t0 Ht)|done|].
  - unfold fuel_for. apply Nat.lt_succ_r, sum_list_with_le. intros x. unfold budget. rewrite lookup_empty. lia.
  - apply map_Forall_empty.
  - intros t r Hr. eapply loop_post_le; [exact Hr|]. by apply submits_left_limit.
Qed.

Ltac rebase_job := intros ? ?; unfold job_from; rewrite <-!app_assoc; simpl; intros ?; eassumption.

Definition job_post (N : nat) t (r : result ProofData JobError) : Prop :=
  (submissions t <= N)%nat /\ result_post t r.

Lemma prove_and_aggregate_safe a t0 retrying :
  a < rq_l2_block_number request ->
  safe (job_from a t0) (prove_and_aggregate rkyv to_cbor deserialize_transition serialize_proof onchain_bytes
    abi_decode to_string from_str persistent config_hash config a request retrying) (job_post (range_limit a)).
Proof.
  intros Hab. unfold prove_and_aggregate.
  eapply safe_bind_try; [by apply proving_phase, load_range_plan_safe| |].
  { intros e t [[Hc He] Hz]. split; [lia|]. split; [lia|done]. }
  intros plan t1 [(Hc1&Ht&Hs) Hz1].
  eapply safe_bind_try; [eapply safe_conseq; [by eapply proving_phase, (prove_ranges_safe a (t0 ++ t1))|rebase_job|]| |].
  { intros t r Hr. exact Hr. }
  { intros e t [[Hc He] Hz]. split; [|split; [|done]]; rewrite count_calls_app; lia. }
  intros l t2 [[Hc2 Hl] Hz2].
  destruct (validate_range_artifacts _ _ _ _) as [[]|e] eqn:Hv.
  2:{ apply safe_ret. split; [|split; [|done]]; rewrite !count_calls_app; simpl; lia. }
  eapply safe_conseq; [eapply aggregation_phase, (aggregate_job_safe a ((t0 ++ t1) ++ t2) l retrying Hv Hl)|rebase_job|].
  intros t r [Hr Hz]. split; [rewrite !count_calls_app; lia|]. by repeat apply result_post_app.
Qed.

(** What the handler may do at any point of a job: read the request's game, and,
    once the game confirmed the request, what is justified. *)
Definition job_allowed h (e : event JobS) : Prop :=
  projT1 e = ReadGameContext (rq_game request) \/ exists a, started h a /\ justified a h (projT1 e).

(** The block interval of a game is a [u64]. *)
Definition typed h : Prop :=
  forall game ctx, saw (ReadGameContext game : call JobS) (Ok ctx) h -> 0 <= ctx_block_interval ctx.

Lemma validated_lt ctx game root l2_block l1_head hash a :
  0 <= ctx_block_interval ctx ->
  validated_start_block ctx game root l2_block l1_head hash = Ok a -> a < l2_block.
Proof.
  intros Hi. unfold validated_start_block. do 4 (destruct (negb _); [done|]).
  destruct (Z.eqb_spec (ctx_block_interval ctx) 0); [done|].
  intros [-> Hle]%ok_or_Ok%checked_sub_Some. lia.
Qed.

Lemma typed_bad game ctx h : ~ 0 <= ctx_block_interval ctx -> ~ typed (ev (ReadGameContext game : call JobS) (Ok ctx) :: h).
Proof. intros Hn Ht. apply Hn, (Ht game). seen. Qed.

Lemma get_session_safe a t0 :
  safe (job_from a t0) (get_session (L1HeaderT := L1HeaderT) (RangeInput := RangeInput) persistent Snark) (fun t r =>
    submissions t = 0%nat /\ agg_submissions t = 0%nat /\
    match r with
    | Ok (Some s) => saw (SessionsGet Snark : call JobS) (Ok (Some s)) t
    | Ok None => True
    | Err e => internal e = false
    end).
Proof.
  unfold get_session. destruct persistent; [|by apply safe_ret]. sym_call [[s|]|e]; try done; apply safe_ret; try done.
  split_and!; [done|done|seen].
Qed.

(** The rest of the job, once the game confirmed that the interval starts at [a]. *)
Lemma validated_job_safe a t0 :
  a < rq_l2_block_number request ->
  safe (job_from a t0)
    (do? snark_session <- get_session persistent Snark;
     match snark_session with
     | Some s =>
         do? resumed <- wait_for_aggregation serialize_proof onchain_bytes abi_decode persistent
                          (bs_backend_session_id s);
         match resumed with
         | Some artifact => Ret (finish_job request artifact)
         | None => prove_and_aggregate rkyv to_cbor deserialize_transition serialize_proof onchain_bytes
                     abi_decode to_string from_str persistent config_hash config a request true
         end
     | None => prove_and_aggregate rkyv to_cbor deserialize_transition serialize_proof onchain_bytes
                 abi_decode to_string from_str persistent config_hash config a request false
     end) (job_post (range_limit a)).
Proof.
  intros Hab. eapply safe_bind_try; [apply get_session_safe| |].
  { intros e t (Hz&Hz'&He). split; [|split; [|done]]; lia. }
  intros [s|] t1 (Hc1&Hz1&Hs).
  - eapply safe_bind_try; [eapply safe_conseq; [eapply aggregation_phase,
      (wait_for_aggregation_safe a (t0 ++ t1))|rebase_job|intros ? ? Hp; exact Hp]| |].
    + intros e t [[Hz He] Hz']. split; [|split; [|done]]; rewrite count_calls_app; lia.
    + intros [x|] t2 [[Hz Hx] Hz'].
      * apply safe_ret. rewrite app_nil_r. split; [rewrite count_calls_app; lia|].
        apply finish_job_post; [rewrite count_calls_app; lia|].
        destruct Hx as (proof&Hw&Hx). exists (bs_backend_session_id s), proof.
        split_and!; [by apply saw_app_r|done|]. right. exists s. split; [by apply saw_app_l|done].
      * eapply safe_conseq; [eapply (prove_and_aggregate_safe a (t0 ++ t1 ++ t2) true Hab)|rebase_job|].
        intros t r [Hc Hr]. split; [rewrite !count_calls_app; lia|]. by repeat apply result_post_app.
  - eapply safe_conseq; [eapply (prove_and_aggregate_safe a (t0 ++ t1) false Hab)|rebase_job|].
    intros t r [Hc Hr]. split; [rewrite count_calls_app; lia|]. by apply result_post_app.
Qed.

Abbreviation handle := (handle_claimed_job rkyv to_cbor deserialize_transition serialize_proof onchain_bytes
  abi_decode to_string from_str persistent config_hash config request).

Definition job_outcome t (r : result ProofData JobError) : Prop :=
  result_post t r /\
  (submissions t = 0%nat \/ exists a, started t a /\ (submissions t <= range_limit a)%nat) /\
  forall data, r = Ok data -> exists a, started t a.

Lemma handle_safe : safe (fun h e => typed h -> job_allowed h e) handle (fun t r => typed t -> job_outcome t r).
Proof.
  unfold handle_claimed_job, read_start_block. sym_call [ctx|e]; [by left| |].
  2:{ apply safe_ret. intros _. split; [split; [simpl; lia|done]|]. split; [by left|done]. }
  cbn [rbind]. destruct (validated_start_block _ _ _ _ _ _) as [a|e] eqn:Hv; cbn [map_err bind bind_try].
  2:{ apply safe_ret. intros _. split; [split; [simpl; lia|done]|]. split; [by left|done]. }
  destruct (decide (0 <= ctx_block_interval ctx)) as [Hi|Hi].
  2:{ intros t r _. split; [|by intros ?%typed_bad].
      intros t1 e t2 ->. by intros ?%typed_bad. }
  set (e0 := ev (ReadGameContext (rq_game request) : call JobS) (Ok ctx)).
  assert (forall h, started (e0 :: h) a) as Hstart by (intros h; exists ctx; split; [seen|done]).
  eapply safe_conseq; [apply (validated_job_safe a [e0]); by eapply validated_lt| |].
  - intros h e He _. right. by exists a.
  - intros t r [Hc Hr] _. split_and!.
    + by apply (result_post_app [e0]).
    + right. by exists a.
    + by exists a.
Qed.

(** In every run of the SP1 handler, nothing but the request's game is read before the
    game confirmed the request; every plan it stores covers the interval of the
    game; every range proof it asks for is for a part of that interval and built from a
    witness at the request's L1 head; every aggregation it asks for is of range
    proofs that it received and that chain from the start block to the claimed
    root under the configured rollup; and it records an aggregation session as running,
    completed or failed only after the prover said so. *)
Theorem sp1_job_justified tr r : typed tr -> runs handle tr r -> guarded job_allowed tr.
Proof.
  intros Ht [Hg _]%handle_safe. eapply guarded_impl; [|exact Hg]. intros h e Hh He. apply He.
  intros game ctx Hs. eapply Ht, saw_mono; [exact Hh|exact Hs].
Qed.

(** Whatever the prover, the queue and the chain answer, the job ends with a
    result that is not one of the handler's internal errors, after at most four
    aggregation requests and a number of range requests that is bounded by the length
    of the interval and the allowed bisections. *)
Theorem sp1_job_bounded tr r :
  typed tr -> runs handle tr r ->
  (forall e, r = Err e -> e <> OutOfFuel /\ e <> LostSession /\ e <> MissingArtifact) /\
  (count_calls is_aggregation_submission tr <= 4)%nat /\
  (count_calls is_range_submission tr = 0%nat \/
   exists a, started tr a /\ (count_calls is_range_submission tr <= range_limit a)%nat).
Proof.
  intros Ht [_ Hq]%handle_safe. destruct (Hq Ht) as ([Hc Hr]&Hs&_). split_and!; [|done|done].
  intros e ->. simpl in Hr. by split_and!; intros ->.
Qed.

(** A job that returns a proof returns one that the prover produced for an
    aggregation of this job, whose public values commit to the claimed root, to
    its block and to the L1 head of the request. *)
Theorem sp1_job_result tr data :
  typed tr -> runs handle tr (Ok data) ->
  exists a x, started tr a /\ aggregated tr x /\
    data = Sp1Data (ap_proof x) (aggregation_abi_encode (ap_public_values x)) /\
    post (transitionPublicValues (ap_public_values x)) = (rq_root_claim request, rq_l2_block_number request) /\
    l1Head (transitionPublicValues (ap_public_values x)) = rq_l1_head request.
Proof.
  intros Ht [_ Hq]%handle_safe. destruct (Hq Ht) as ([_ (x&Hx&Hc&->)]&_&Hstart).
  destruct (Hstart _ eq_refl) as [a Ha]. apply check_artifact_spec in Hc as [Hpost Hhead]. by exists a, x.
Qed.

(** *** With the aggregation guest *)

Section guest.
Context (hash_slow parent_hash : L1HeaderT -> B256) (from_cbor : bytes -> option (list L1HeaderT)).
Context (bincode : TransitionPublicValues -> bytes) (sha256 : bytes -> bytes).
Context (verify_sp1_proof : list Z -> bytes -> bool) (vkey : list Z).

(** The provers add the verifying key of the range program to the request. *)
Definition aggregation_inputs (q : AggregationSessionRequest) : AggregationInputs :=
  {| ai_transition_public_values := as_transition_public_values q;
     ai_latest_l1_checkpoint_head := as_latest_l1_checkpoint_head q;
     multi_block_vkey := vkey |}.

(** C29: The guest accepts every aggregation that the worker asks for, and the public
    values it commits to are those of the claimed transition, so that the worker
    accepts the resulting proof.  This needs that the L1 node returns the header of the
    hash it is asked for, that headers are decoded to what was encoded, and that the
    range proofs of the prover verify. *)
Theorem guest_accepts_worker tr r q answer :
  typed tr -> runs handle tr r -> ev (Submit (AggregationRequest q) : call JobS) answer ∈ tr ->
  (forall hash header, saw (FetchL1Header hash : call JobS) (Ok header) tr -> hash_slow header = hash) ->
  (forall headers b, to_cbor headers = Ok b -> from_cbor b = Some headers) ->
  (forall x, proved tr x -> verified bincode sha256 verify_sp1_proof vkey (ra_transition_public_values x) = true) ->
  exists a out, started tr a /\
    aggregate hash_slow parent_hash from_cbor bincode sha256 verify_sp1_proof (aggregation_inputs q)
      (as_l1_headers_cbor q) = Some out /\
    l2PreBlockNumber (transitionPublicValues out) = a /\
    rollupConfigHash (transitionPublicValues out) = config_hash /\
    forall proof, check_artifact request {| ap_public_values := out; ap_proof := proof |} = Ok tt.
Proof.
  intros Ht [Hg _]%handle_safe Hin Hhash Hcbor Hproofs.
  apply list_elem_of_split in Hin as (t1&t2&->). pose proof (subseteq_app_l t1 (ev (Submit (AggregationRequest q) : call JobS) answer :: t2)) as Hsub.
  destruct (Hg t1 _ t2 eq_refl) as [Hbad|(a&Ha&l&header&cbor&Hv&Hl&Hh&Hc&->)]; [|done|].
  { intros game ctx Hs. eapply Ht, saw_mono; [exact Hsub|exact Hs]. }
  apply validate_range_artifacts_spec in Hv as [Hheads [root Hpath]].
  exists a, {| transitionPublicValues := {| l1Head := rq_l1_head request; l2PreRoot := root; l2PreBlockNumber := a;
                 l2PostRoot := rq_root_claim request; l2PostBlockNumber := rq_l2_block_number request;
                 rollupConfigHash := config_hash |}; multiBlockVKey := vkey_b256 vkey |}.
  assert (hash_slow header = rq_l1_head request) as Hhd by (eapply Hhash, saw_mono; [exact Hsub|exact Hh]).
  split_and!; try done; [| |by intros proof; apply check_artifact_spec].
  { destruct Ha as (ctx&Hs&Hval). exists ctx. split; [by eapply saw_mono|done]. }
  apply aggregate_spec. exists [header]. split_and!; try done; [by apply Hcbor|].
  intros u (x&->&Hx)%list_elem_of_fmap. split.
  - apply Hproofs. eapply proved_mono; [exact Hsub|]. by apply (proj1 (Forall_forall _ _) Hl).
  - exists header. split; [by left|]. rewrite Hhd. symmetry.
    by apply (proj1 (Forall_forall _ _) (proj1 (Forall_map _ _ _) Hheads)).
Qed.
End guest.
End runs.

(** ** A run

    A network whose machine executes at most two blocks, in a world where the
    output root of block [n] is [1000 + n]: the interval of five blocks is bisected
    twice before the ranges are proved and aggregated. *)

Record Network := { net_requests : gmap string Sp1ProofRequest; net_next : N }.

Definition toy_values (t : TransitionPublicValues) : bytes :=
  [l1Head t; l2PreRoot t; l2PreBlockNumber t; l2PostRoot t; l2PostBlockNumber t; rollupConfigHash t].
Definition toy_read (b : bytes) : result TransitionPublicValues string :=
  match b with
  | [h; p; n; q; m; c] =>
      Ok {| l1Head := h; l2PreRoot := p; l2PreBlockNumber := n; l2PostRoot := q; l2PostBlockNumber := m;
            rollupConfigHash := c |}
  | _ => Err "malformed"
  end.

Definition toy_job : ProofRequest :=
  {| rq_backend := Sp1; rq_game := 7; rq_root_claim := 1015; rq_l2_block_number := 15; rq_l1_head := 3;
     rq_verifier_id := 1; rq_range_vkey_commitment := Some 2 |}.

(** A range proof verifies if its roots are those of its blocks. *)
Definition toy_verify (vkey : list Z) (digest : bytes) : bool :=
  match digest with [_; p; n; q; m; _] => (p =? 1000 + n) && (q =? 1000 + m) | _ => false end.
Definition toy_guest : AggregationInputs -> bytes -> option AggregationPublicValues :=
  aggregate (fun h => h) (fun h => h - 1) Some toy_values (fun b => b) toy_verify.

Definition toy_prove (id : string) (r : Sp1ProofRequest) : result SP1ProofWithPublicValues ProverError :=
  match r with
  | RangeRequest [s; e] =>
      if 2 <? e - s then Err (Structured (RequestUnexecutable id))
      else Ok {| sdk_proof := Compressed; sdk_payload := [s; e];
                 sdk_public_values := [3; 1000 + s; s; 1000 + e; e; 42] |}
  | AggregationRequest q =>
      match toy_guest (aggregation_inputs [9] q) (as_l1_headers_cbor q) with
      | Some out => Ok {| sdk_proof := Groth16; sdk_payload := [1];
                          sdk_public_values := toy_values (transitionPublicValues out) |}
      | None => Err (Structured (RequestUnfulfillable id))
      end
  | _ => Err (Unstructured "malformed")
  end.

Definition toy_net : handler (JobSig (Z * Z) Z) Network := fun c w =>
  match c with
  | ReadGameContext _ =>
      (Ok {| ctx_block_interval := 5; ctx_rollup_config_hash := 42; ctx_root_claim := 1015;
             ctx_l2_block_number := 15; ctx_l1_head := 3 |}, w)
  | SessionsGet _ => (Ok None, w)
  | SessionsRecord _ _ _ _ => (Ok tt, w)
  | FetchRangeGas _ _ => (Ok [1; 1; 1; 1; 1], w)
  | BuildRangeInput s e _ _ => (Ok (s, e), w)
  | FetchL1Header hash => (Ok hash, w)
  | Submit r =>
      let id := pretty (net_next w) in
      (Ok id, {| net_requests := <[id := r]> (net_requests w); net_next := N.succ (net_next w) |})
  | Wait id => (match net_requests w !! id with Some r => toy_prove id r | None => Err (Unstructured "unknown") end, w)
  | Sleep _ => (tt, w)
  end.

Definition toy_config : Sp1BackendConfig :=
  {| allow_unfinalized := false; aggregation_vkey := 1; range_vkey_commitment := 2; range_plan := plan_default |}.

Definition toy_handle : prog (JobSig (Z * Z) Z) (result ProofData JobError) :=
  handle_claimed_job (fun w => Ok [w.1; w.2]) Ok toy_read (fun p => Ok (sdk_payload p)) sdk_payload
    (fun b => let? t := toy_read b in Ok {| transitionPublicValues := t; multiBlockVKey := 9 |})
    (fun _ => Ok "plan") (fun _ => Err "not a plan") true 42 toy_config toy_job.

Definition toy_network : Network := {| net_requests := ∅; net_next := 0 |}.
Definition toy_trace : list (event (JobSig (Z * Z) Z)) := trace_of toy_net toy_handle toy_network.

Lemma toy_handle_runs : runs toy_handle toy_trace (value_of toy_net toy_handle toy_network).
Proof. apply interp_runs. Qed.

Definition toy_result : ProofData :=
  Sp1Data [1] (aggregation_abi_encode
    {| transitionPublicValues :=
         {| l1Head := 3; l2PreRoot := 1010; l2PreBlockNumber := 10; l2PostRoot := 1015; l2PostBlockNumber := 15;
            rollupConfigHash := 42 |};
       multiBlockVKey := 9 |}).

Example toy_value : value_of toy_net toy_handle toy_network = Ok toy_result /\
  count_calls is_range_submission toy_trace = 5%nat.
Proof. split; vm_compute; reflexivity. Qed.

(** What every answer of this world satisfies. *)
Definition toy_answers (c : call (JobSig (Z * Z) Z)) : reply (JobSig (Z * Z) Z) c -> Prop :=
  match c with
  | ReadGameContext _ => fun r => forall ctx, r = Ok ctx -> 0 <= ctx_block_interval ctx
  | FetchL1Header hash => fun r => r = Ok hash
  | Wait _ => fun r => forall proof t, r = Ok proof -> sdk_proof proof = Compressed ->
                toy_read (sdk_public_values proof) = Ok t -> toy_verify [9] (toy_values t) = true
  | _ => fun _ => True
  end.

Lemma toy_net_answers c w : toy_answers c (toy_net c w).1.
Proof.
  destruct c as [game|ty|ty id st reason|s e|s e l1 au|hash|r|id|n]; cbn; try done; [by intros ctx [= <-]|].
  intros proof t. destruct (net_requests w !! id) as [[b|q]|]; [| |done]; cbn [toy_prove].
  - destruct b as [|s [|e []]]; try done. destruct (2 <? e - s); [done|]. intros [= <-] _ [= <-].
    unfold toy_verify, toy_values. simpl. by rewrite !Z.eqb_refl.
  - destruct (toy_guest _ _); [|done]. by intros [= <-].
Qed.

Lemma toy_trace_answers c r : ev c r ∈ toy_trace -> toy_answers c r.
Proof.
  intros Hr. pose proof (trace_Forall toy_net toy_answers toy_handle toy_network toy_net_answers) as Hall.
  rewrite Forall_forall in Hall. exact (Hall _ Hr).
Qed.

Lemma toy_typed : typed toy_trace.
Proof. intros game ctx (r&Hr%toy_trace_answers&Heq). by apply Hr. Qed.

Lemma sp1_job_justified_witness :
  guarded (job_allowed (fun w => Ok [w.1; w.2]) Ok toy_read (fun p => Ok (sdk_payload p)) (fun _ => Ok "plan") 42
    toy_config toy_job) toy_trace.
Proof. by eapply sp1_job_justified; [|exact toy_typed|exact toy_handle_runs]. Defined.

Lemma sp1_job_bounded_witness :
  count_calls is_range_submission toy_trace = 5%nat /\ (count_calls is_aggregation_submission toy_trace <= 4)%nat.
Proof.
  split; [vm_compute; reflexivity|].
  eapply sp1_job_bounded; [|exact toy_typed|exact toy_handle_runs]. done.
Defined.

Lemma sp1_job_result_witness :
  value_of toy_net toy_handle toy_network = Ok toy_result /\
  exists a x, started 42 toy_job toy_trace a /\ toy_result = proof_data_from_aggregation x.
Proof.
  destruct toy_value as [Hv _]. split; [exact Hv|]. pose proof toy_handle_runs as Hr. rewrite Hv in Hr.
  edestruct (sp1_job_result (RangeInput := Z * Z) (L1HeaderT := Z)) as (a&x&Ha&_&Hx&_);
    [|exact toy_typed|exact Hr|]; [done|].
  exists a, x. split; [exact Ha|exact Hx].
Defined.

Lemma guest_accepts_worker_witness :
  exists q answer a out,
    ev (Submit (AggregationRequest q) : call (JobSig (Z * Z) Z)) answer ∈ toy_trace /\
    started 42 toy_job toy_trace a /\ toy_guest (aggregation_inputs [9] q) (as_l1_headers_cbor q) = Some out /\
    l2PreBlockNumber (transitionPublicValues out) = a.
Proof.
  assert (exists q answer, ev (Submit (AggregationRequest q) : call (JobSig (Z * Z) Z)) answer ∈ toy_trace)
    as (q&answer&Hq).
  { exists {| as_transition_public_values :=
        [{| l1Head := 3; l2PreRoot := 1010; l2PreBlockNumber := 10; l2PostRoot := 1012; l2PostBlockNumber := 12;
            rollupConfigHash := 42 |};
         {| l1Head := 3; l2PreRoot := 1012; l2PreBlockNumber := 12; l2PostRoot := 1013; l2PostBlockNumber := 13;
            rollupConfigHash := 42 |};
         {| l1Head := 3; l2PreRoot := 1013; l2PreBlockNumber := 13; l2PostRoot := 1015; l2PostBlockNumber := 15;
            rollupConfigHash := 42 |}];
      as_latest_l1_checkpoint_head := 3; as_l1_headers_cbor := [3];
      as_range_proofs := [[10; 12]; [12; 13]; [13; 15]] |}, (Ok "5").
    apply list_elem_of_In. vm_compute. by repeat (first [left; reflexivity|right]). }
  edestruct (guest_accepts_worker (RangeInput := Z * Z) (L1HeaderT := Z)) with (hash_slow := fun h : Z => h) (parent_hash := fun h : Z => h - 1)
    (from_cbor := @Some (list Z)) (bincode := toy_values) (sha256 := fun b : bytes => b)
    (verify_sp1_proof := toy_verify) (vkey := [9]) as (a&out&Ha&Hout&Hpre&_);
    [|exact toy_typed|exact toy_handle_runs|exact Hq| | | |].
  - done.
  - intros hash header (r&Hr%toy_trace_answers&Heq). simpl in *. congruence.
  - by intros headers b [= <-].
  - intros x (id&proof&(r&Hr%toy_trace_answers&Heq)&Hx). unfold range_artifact_from_sp1_proof in Hx.
    destruct (toy_read _) as [t|] eqn:Ht; [|done]. simpl in Hx.
    destruct (sdk_proof proof) eqn:Hp; try done. injection Hx as <-. by eapply Hr.
  - exists q, answer, a, out. exact (conj Hq (conj Ha (conj Hout Hpre))).
Defined.
