(* ===== verification/Rpc.v ===== *)
(** * The JSON-RPC layer of the prover service
    ([src/proofs/services/prover-service/src/rpc.rs], [error.rs])

    The server turns an error of the service into a code with typed data, and
    the client turns it back.  The transport, and the serialisation of the
    data, belong to third-party crates: a serialised value is an abstract [Raw],
    with a class for the types that are read back as written. *)

From S2P Require Import Prelude ProofTypes ProverTypes ProverStore.

(** ** Codes *)

Module error_code.
Definition NOT_FOUND : Z := -32002.
Definition TOO_MANY_RETRIES : Z := -32005.
Definition RETRYABLE_CONFLICT : Z := -32006.
Definition PROOF_ID_NOT_FOUND : Z := -32011.
Definition PROOF_JOB_STATUS_NOT_CLAIMED : Z := -32012.
Definition STALE_LOCK : Z := -32014.
Definition LOCK_EXPIRED : Z := -32015.
Definition BACKEND_MISMATCH : Z := -32016.
Definition ALREADY_TERMINAL : Z := -32017.
Definition PROOF_MISMATCH : Z := -32018.
Definition SQLX : Z := -32019.
Definition BACKEND_SESSION_ALREADY_TERMINAL : Z := -32020.
End error_code.

(** [jsonrpsee]'s code for an internal error. *)
Definition INTERNAL_ERROR_CODE : Z := -32603.

(** ** Data of the errors *)

Record TooManyRetriesErrorData := { tm_proof_id : B256; tm_max_retries : Z }.
Record ProofJobStatusErrorData := { js_proof_id : B256; js_expected : ProofJobStatus; js_actual : ProofJobStatus }.
Record BackendMismatchErrorData := { bm_proof_id : B256; bm_expected : ProofBackend; bm_actual : ProofBackend }.
Record BackendSessionAlreadyTerminalErrorData := {
  bt_proof_id : B256;
  bt_session_type : SessionType;
  bt_backend_session_id : string;
  bt_stored : BackendSessionStatus;
  bt_attempted : BackendSessionStatus
}.
Record ProofMismatchErrorData := { pm_proof_id : B256; pm_expected : ProofData; pm_actual : ProofData }.

Class Serde (Raw T : Type) := {
  to_raw : T -> Raw;
  from_raw : Raw -> option T;
  from_to_raw : forall x, from_raw (to_raw x) = Some x
}.

Section codec.
Context {Raw : Type} `{!Serde Raw B256, !Serde Raw TooManyRetriesErrorData, !Serde Raw ProofJobStatusErrorData,
  !Serde Raw BackendMismatchErrorData, !Serde Raw BackendSessionAlreadyTerminalErrorData,
  !Serde Raw ProofMismatchErrorData}.
(** [to_string] of the two error types. *)
Context (request_text : ProofRequestError -> string) (queue_text : ProofJobQueueError -> string).

Record ErrorObject := { eo_code : Z; eo_message : string; eo_data : option Raw }.

(** [jsonrpsee]'s client errors: those the code names, and any other. *)
Inductive ClientError :=
| RequestTimeout
| Transport (message : string)
| RestartNeeded (message : string)
| ServiceDisconnect
| CallError (err : ErrorObject)
| OtherClientError (message : string).

Definition owned (code : Z) (message : string) (data : option Raw) : ErrorObject :=
  {| eo_code := code; eo_message := message; eo_data := data |}.

Definition error_data {T} `{!Serde Raw T} (err : ErrorObject) : option T := eo_data err ≫= from_raw.

(** ** Requests for proofs *)

Definition request_error_object (err : ProofRequestError) : ErrorObject :=
  let message := request_text err in
  match err with
  | RProofIdNotFound id => owned error_code.NOT_FOUND message (Some (to_raw id))
  | RowMissingAfterConflict id => owned error_code.RETRYABLE_CONFLICT message (Some (to_raw id))
  | TooManyRetries id n =>
      owned error_code.TOO_MANY_RETRIES message (Some (to_raw {| tm_proof_id := id; tm_max_retries := n |}))
  | RSqlx _ => owned error_code.SQLX message None
  | _ => owned INTERNAL_ERROR_CODE message None
  end.

Definition map_request_call_error (err : ErrorObject) (fallback_id : B256) : ProofRequestError :=
  let code := eo_code err in
  if code =? error_code.NOT_FOUND then RProofIdNotFound (default fallback_id (error_data err))
  else if code =? error_code.TOO_MANY_RETRIES then
    match error_data err with
    | Some d => TooManyRetries (tm_proof_id d) (tm_max_retries d)
    | None => RemoteInternal
    end
  else if code =? error_code.RETRYABLE_CONFLICT
  then RowMissingAfterConflict (default fallback_id (error_data err))
  else if code =? error_code.SQLX then RemoteSqlx
  else if code =? INTERNAL_ERROR_CODE then RemoteInternal
  else RpcClient (eo_message err).

Definition map_request_error (err : ClientError) (id : B256) : ProofRequestError :=
  match err with
  | RequestTimeout => RpcRequestTimeout
  | Transport m => RpcTransport m
  | RestartNeeded m => RpcRestartNeeded m
  | ServiceDisconnect => RpcServiceDisconnected
  | CallError err => map_request_call_error err id
  | OtherClientError m => RpcClient m
  end.

(** ** The job queue *)

Definition job_error_object (err : ProofJobQueueError) : ErrorObject :=
  let message := queue_text err in
  match err with
  | QProofIdNotFound id => owned error_code.PROOF_ID_NOT_FOUND message (Some (to_raw id))
  | ProofJobStatusNotClaimed id expected actual =>
      owned error_code.PROOF_JOB_STATUS_NOT_CLAIMED message
        (Some (to_raw {| js_proof_id := id; js_expected := expected; js_actual := actual |}))
  | StaleLock id => owned error_code.STALE_LOCK message (Some (to_raw id))
  | LockExpired id => owned error_code.LOCK_EXPIRED message (Some (to_raw id))
  | BackendMismatch id expected actual =>
      owned error_code.BACKEND_MISMATCH message
        (Some (to_raw {| bm_proof_id := id; bm_expected := expected; bm_actual := actual |}))
  | AlreadyTerminal id => owned error_code.ALREADY_TERMINAL message (Some (to_raw id))
  | BackendSessionAlreadyTerminal id ty sid stored attempted =>
      owned error_code.BACKEND_SESSION_ALREADY_TERMINAL message
        (Some (to_raw {| bt_proof_id := id; bt_session_type := ty; bt_backend_session_id := sid;
                         bt_stored := stored; bt_attempted := attempted |}))
  | ProofMismatch id expected actual =>
      owned error_code.PROOF_MISMATCH message
        (Some (to_raw {| pm_proof_id := id; pm_expected := expected; pm_actual := actual |}))
  | QSqlx _ => owned error_code.SQLX message None
  | _ => owned INTERNAL_ERROR_CODE message None
  end.

Definition map_job_call_error (err : ErrorObject) (fallback_id : B256) : ProofJobQueueError :=
  let code := eo_code err in
  if code =? error_code.PROOF_ID_NOT_FOUND then QProofIdNotFound (default fallback_id (error_data err))
  else if code =? error_code.PROOF_JOB_STATUS_NOT_CLAIMED then
    match error_data err with
    | Some d => ProofJobStatusNotClaimed (js_proof_id d) (js_expected d) (js_actual d)
    | None => QRemoteInternal
    end
  else if code =? error_code.STALE_LOCK then StaleLock (default fallback_id (error_data err))
  else if code =? error_code.LOCK_EXPIRED then LockExpired (default fallback_id (error_data err))
  else if code =? error_code.BACKEND_MISMATCH then
    match error_data err with
    | Some d => BackendMismatch (bm_proof_id d) (bm_expected d) (bm_actual d)
    | None => QRemoteInternal
    end
  else if code =? error_code.ALREADY_TERMINAL then AlreadyTerminal (default fallback_id (error_data err))
  else if code =? error_code.BACKEND_SESSION_ALREADY_TERMINAL then
    match error_data err with
    | Some d => BackendSessionAlreadyTerminal (bt_proof_id d) (bt_session_type d) (bt_backend_session_id d)
                  (bt_stored d) (bt_attempted d)
    | None => QRemoteInternal
    end
  else if code =? error_code.PROOF_MISMATCH then
    match error_data err with
    | Some d => ProofMismatch (pm_proof_id d) (pm_expected d) (pm_actual d)
    | None => QRemoteInternal
    end
  else if code =? error_code.SQLX then QRemoteSqlx
  else if code =? INTERNAL_ERROR_CODE then QRemoteInternal
  else QRpcClient (eo_message err).

Definition map_job_error (err : ClientError) (id : B256) : ProofJobQueueError :=
  match err with
  | RequestTimeout => QRpcRequestTimeout
  | Transport m => QRpcTransport m
  | RestartNeeded m => QRpcRestartNeeded m
  | ServiceDisconnect => QRpcServiceDisconnected
  | CallError err => map_job_call_error err id
  | OtherClientError m => QRpcClient m
  end.
End codec.

Definition is_retryable (e : ProofJobQueueError) : bool :=
  match e with
  | QSqlx _ | QRemoteSqlx | QRpcRequestTimeout | QRpcTransport _ | QRpcRestartNeeded _
  | QRpcServiceDisconnected => true
  | _ => false
  end.

(** ** What crosses the wire *)

(** Errors of the queue that carry their data. *)
Definition carries_data (e : ProofJobQueueError) : bool :=
  match e with
  | QProofIdNotFound _ | ProofJobStatusNotClaimed _ _ _ | StaleLock _ | LockExpired _ | BackendMismatch _ _ _
  | AlreadyTerminal _ | BackendSessionAlreadyTerminal _ _ _ _ _ | ProofMismatch _ _ _ => true
  | _ => false
  end.

(** Errors that only the client makes up. *)
Definition made_by_client (e : ProofJobQueueError) : bool :=
  match e with
  | QRemoteInternal | QRemoteSqlx | QRpcRequestTimeout | QRpcTransport _ | QRpcRestartNeeded _
  | QRpcServiceDisconnected | QRpcClient _ => true
  | _ => false
  end.

Section transport.
Context {Raw : Type} `{!Serde Raw B256, !Serde Raw TooManyRetriesErrorData, !Serde Raw ProofJobStatusErrorData,
  !Serde Raw BackendMismatchErrorData, !Serde Raw BackendSessionAlreadyTerminalErrorData,
  !Serde Raw ProofMismatchErrorData}.
Context (request_text : ProofRequestError -> string) (queue_text : ProofJobQueueError -> string).

Definition received (e : ProofJobQueueError) : ProofJobQueueError :=
  if carries_data e then e else match e with QSqlx _ => QRemoteSqlx | _ => QRemoteInternal end.

Lemma map_job_error_received e id : map_job_error (CallError (job_error_object queue_text e)) id = received e.
Proof.
  unfold map_job_error, map_job_call_error, error_data.
  destruct e; cbn -[to_raw from_raw]; try done; rewrite from_to_raw; done.
Qed.

(** An error of the queue reaches the worker: with all its data if it has data,
    otherwise as a storage or an internal error of the remote service.  Either way
    the worker decides as the service would whether to retry, and sees a finished job
    exactly if the service reported one. *)
Theorem job_errors_cross_rpc e id :
  let e' := map_job_error (CallError (job_error_object queue_text e)) id in
  (carries_data e = true -> e' = e) /\
  (made_by_client e = false -> is_retryable e' = is_retryable e) /\
  (forall id', e' = AlreadyTerminal id' <-> e = AlreadyTerminal id').
Proof.
  cbv zeta. rewrite map_job_error_received. unfold received. by destruct e; split_and!; simpl.
Qed.

(** A request for a proof that the service refuses with an identifier or a retry
    limit is refused with the same at the client; other errors become a storage or
    an internal error of the remote service. *)
Theorem request_errors_cross_rpc e id :
  map_request_error (CallError (request_error_object request_text e)) id =
  match e with
  | RProofIdNotFound _ | RowMissingAfterConflict _ | TooManyRetries _ _ => e
  | RSqlx _ => RemoteSqlx
  | _ => RemoteInternal
  end.
Proof.
  unfold map_request_error, map_request_call_error, error_data.
  destruct e; cbn -[to_raw from_raw]; try done; rewrite from_to_raw; done.
Qed.
End transport.

(** Serialised values as their own syntax. *)
Inductive ToyRaw :=
| RawId (id : B256)
| RawRetries (d : TooManyRetriesErrorData)
| RawStatus (d : ProofJobStatusErrorData)
| RawBackend (d : BackendMismatchErrorData)
| RawSession (d : BackendSessionAlreadyTerminalErrorData)
| RawProofs (d : ProofMismatchErrorData).

#[local] Instance serde_id : Serde ToyRaw B256.
Proof. by refine {| to_raw := RawId; from_raw r := match r with RawId d => Some d | _ => None end |}. Defined.
#[local] Instance serde_retries : Serde ToyRaw TooManyRetriesErrorData.
Proof. by refine {| to_raw := RawRetries; from_raw r := match r with RawRetries d => Some d | _ => None end |}. Defined.
#[local] Instance serde_status : Serde ToyRaw ProofJobStatusErrorData.
Proof. by refine {| to_raw := RawStatus; from_raw r := match r with RawStatus d => Some d | _ => None end |}. Defined.
#[local] Instance serde_backend : Serde ToyRaw BackendMismatchErrorData.
Proof. by refine {| to_raw := RawBackend; from_raw r := match r with RawBackend d => Some d | _ => None end |}. Defined.
#[local] Instance serde_sessions : Serde ToyRaw BackendSessionAlreadyTerminalErrorData.
Proof. by refine {| to_raw := RawSession; from_raw r := match r with RawSession d => Some d | _ => None end |}. Defined.
#[local] Instance serde_proofs : Serde ToyRaw ProofMismatchErrorData.
Proof. by refine {| to_raw := RawProofs; from_raw r := match r with RawProofs d => Some d | _ => None end |}. Defined.

Lemma job_errors_cross_rpc_witness :
  map_job_error (CallError (job_error_object (Raw := ToyRaw) (fun _ => "") (AlreadyTerminal 5))) 0 = AlreadyTerminal 5.
Proof. apply (job_errors_cross_rpc (Raw := ToyRaw) (fun _ => "") (AlreadyTerminal 5) 0). reflexivity. Defined.

Lemma request_errors_cross_rpc_witness :
  map_request_error (CallError (request_error_object (Raw := ToyRaw) (fun _ => "") (TooManyRetries 5 3))) 0 =
  TooManyRetries 5 3.
Proof. apply (request_errors_cross_rpc (Raw := ToyRaw) (fun _ => "") (TooManyRetries 5 3) 0). Defined.
