(* ===== verification/Race.v ===== *)
(** * Races between programs

    [tokio::select!] on two futures, with [biased]: both make calls until one
    of them returns; the first is asked first.  A future that loses is dropped.  It
    may then have a call in flight, which happens but whose reply nobody sees
    ([race_lost], [dropped]). *)

From S2P Require Import Prelude Program.

(** [steps p tr p']: after the calls and replies [tr], [p] has become [p']. *)
Inductive steps {S A} : prog S A -> list (event S) -> prog S A -> Prop :=
| steps_here p : steps p [] p
| steps_call c k r tr p' : steps (k r) tr p' -> steps (Call c k) (ev c r :: tr) p'.

(** What a future that is dropped at [p] may still do. *)
Definition dropped {S A} (p : prog S A) (tr : list (event S)) : Prop :=
  tr = [] \/ exists c k r, p = Call c k /\ tr = [ev c r].

Inductive race {S A B} : prog S A -> prog S B -> list (event S) -> (A * prog S B) + B -> Prop :=
| race_left a q : race (Ret a) q [] (inl (a, q))
| race_right c k b : race (Call c k) (Ret b) [] (inr b)
| race_lost c k q r tr b : runs q tr b -> race (Call c k) q (ev c r :: tr) (inr b)
| race_call_left c k q r tr out : race (k r) q tr out -> race (Call c k) q (ev c r :: tr) out
| race_call_right c k c' k' r tr out :
    race (Call c k) (k' r) tr out -> race (Call c k) (Call c' k') (ev c' r :: tr) out.

(** [merge l k m]: [m] is an interleaving of [l] and [k]. *)
Inductive merge {A} : list A -> list A -> list A -> Prop :=
| merge_nil : merge [] [] []
| merge_left x l k m : merge l k m -> merge (x :: l) k (x :: m)
| merge_right x l k m : merge l k m -> merge l (x :: k) (x :: m).
#[export] Hint Constructors merge steps : wc.

Lemma merge_nil_l {A} (l : list A) : merge [] l l.
Proof. induction l; auto with wc. Qed.

Lemma merge_perm {A} (l k m : list A) : merge l k m -> m ≡ₚ l ++ k.
Proof.
  induction 1 as [|x l k m _ IH|x l k m _ IH]; simpl; [done|by rewrite IH|].
  rewrite IH. apply Permutation_middle.
Qed.

Lemma merge_omap {A B} (f : A -> option B) (l k m : list A) :
  merge l k m -> merge (omap f l) (omap f k) (omap f m).
Proof. induction 1 as [|x l k m _ IH|x l k m _ IH]; simpl; [constructor|destruct (f x)..]; auto with wc. Qed.

Lemma merge_nil_inv {A} (l m : list A) : merge l [] m -> m = l.
Proof.
  remember [] as k eqn:Hk. induction 1 as [|x l k m _ IH|]; [done| |done]. by rewrite IH.
Qed.

Lemma runs_steps {S A} (p : prog S A) tr a : runs p tr a <-> steps p tr (Ret a).
Proof.
  split.
  - revert tr. induction p as [a'|c k IH]; intros tr; simpl; [by intros [-> ->]; constructor|].
    intros (r&tr'&->&Hk). constructor. auto.
  - remember (Ret a) as q eqn:Hq. induction 1 as [p|c k r tr p' _ IH]; subst; [done|].
    exists r, tr. auto.
Qed.

Lemma dropped_steps {S A} (p : prog S A) tr : dropped p tr -> exists p', steps p tr p'.
Proof. intros [->|(c&k&r&->&->)]; eauto with wc. Qed.

(** In a race both programs run, interleaved; the winner to its end. *)
Lemma race_steps {S A B} (p : prog S A) (q : prog S B) tr out :
  race p q tr out ->
  match out with
  | inl (a, q') => exists t1 t2, merge t1 t2 tr /\ steps p t1 (Ret a) /\ steps q t2 q'
  | inr b => exists t1 t2 p', merge t1 t2 tr /\ steps p t1 p' /\ steps q t2 (Ret b)
  end.
Proof.
  induction 1 as [a q|c k b|c k q r tr b Hq|c k q r tr out _ IH|c k c' k' r tr out _ IH].
  - exists [], []. auto with wc.
  - exists [], [], (Call c k). auto with wc.
  - exists [ev c r], tr, (k r). apply runs_steps in Hq. auto using merge_nil_l with wc.
  - destruct out as [[a q']|b].
    + destruct IH as (t1&t2&?&?&?). exists (ev c r :: t1), t2. auto with wc.
    + destruct IH as (t1&t2&p'&?&?&?). exists (ev c r :: t1), t2, p'. auto with wc.
  - destruct out as [[a q']|b].
    + destruct IH as (t1&t2&?&?&?). exists t1, (ev c' r :: t2). auto with wc.
    + destruct IH as (t1&t2&p'&?&?&?). exists t1, (ev c' r :: t2), p'. auto with wc.
Qed.

(** ** Calls that a program can make *)

Fixpoint only {S A} (P : call S -> Prop) (p : prog S A) : Prop :=
  match p with
  | Ret _ => True
  | Call c k => P c /\ forall r, only P (k r)
  end.

(** Every run has at most [n] calls that satisfy [f]. *)
Fixpoint at_most {S A} (f : call S -> bool) (n : nat) (p : prog S A) : Prop :=
  match p with
  | Ret _ => True
  | Call c k =>
      if f c then match n with O => False | Datatypes.S n => forall r, at_most f n (k r) end
      else forall r, at_most f n (k r)
  end.

Lemma only_bind {S A B} P (p : prog S A) (g : A -> prog S B) :
  only P p -> (forall a, only P (g a)) -> only P (bind p g).
Proof. intros Hp Hg. induction p as [a|c k IH]; simpl in *; [done|]. destruct Hp as [Hc Hk]. auto. Qed.

Lemma only_lift {S T A} `{!Sub S T} P (p : prog S A) : only (fun c => P (inj c)) p -> only P (lift p).
Proof. induction p as [a|c k IH]; simpl; [done|]. intros [Hc Hk]. auto. Qed.

Lemma at_most_lift {S T A} `{!Sub S T} f n (p : prog S A) :
  at_most (fun c => f (inj c)) n p -> at_most f n (lift p).
Proof.
  revert n. induction p as [a|c k IH]; intros n; simpl; [done|].
  destruct (f (inj c)); [destruct n; [done|]|]; auto.
Qed.

Lemma only_steps {S A} P (p : prog S A) tr p' :
  steps p tr p' -> only P p -> Forall (fun e => P (projT1 e)) tr /\ only P p'.
Proof.
  induction 1 as [p|c k r tr p' _ IH]; simpl; [by split; [constructor|]|].
  intros [Hc Hk]. destruct (IH (Hk r)). split; [by constructor|done].
Qed.

Lemma at_most_steps {S A} f n (p : prog S A) tr p' :
  steps p tr p' -> at_most f n p -> (count_calls f tr <= n)%nat.
Proof.
  intros Hs. revert n. induction Hs as [p|c k r tr p' _ IH]; intros n; simpl; [lia|].
  destruct (f c); [destruct n as [|n]; [done|]|]; intros Hk; specialize (IH n (Hk r)); lia.
Qed.

(** The calls of a race are those of its two programs. *)
Lemma race_only {S A B} P Q (p : prog S A) (q : prog S B) tr out :
  race p q tr out -> only P p -> only Q q ->
  Forall (fun e => P (projT1 e) \/ Q (projT1 e)) tr /\
  match out with inl (_, q') => only Q q' | inr _ => True end.
Proof.
  intros Hr%race_steps Hp Hq.
  assert (forall t1 t2 p' q', merge t1 t2 tr -> steps p t1 p' -> steps q t2 q' ->
    Forall (fun e => P (projT1 e) \/ Q (projT1 e)) tr /\ only Q q') as Hall.
  { intros t1 t2 p' q' Hm H1 H2. destruct (only_steps _ _ _ _ H1 Hp) as [F1 _].
    destruct (only_steps _ _ _ _ H2 Hq) as [F2 Hq']. split; [|done]. rewrite (merge_perm _ _ _ Hm).
    apply Forall_app_2; eapply Forall_impl; try done; simpl; auto. }
  destruct out as [[a q']|b].
  - destruct Hr as (t1&t2&?&?&?). by eapply Hall.
  - destruct Hr as (t1&t2&p'&?&?&?). split; [by eapply Hall|done].
Qed.

Lemma only_impl {S A} (P Q : call S -> Prop) (p : prog S A) : (forall c, P c -> Q c) -> only P p -> only Q p.
Proof. intros HPQ. induction p as [a|c k IH]; simpl; [done|]. intros [? ?]. auto. Qed.

Lemma only_dropped {S A} P (p : prog S A) tr : only P p -> dropped p tr -> Forall (fun e => P (projT1 e)) tr.
Proof. intros Hp (p'&Hs)%dropped_steps. by eapply only_steps. Qed.

(** The first program's count bounds a race with a program that makes no such call. *)
Lemma race_count {S A B} f n (p : prog S A) (q : prog S B) tr out :
  race p q tr out -> at_most f n p -> only (fun c => f c = false) q -> (count_calls f tr <= n)%nat.
Proof.
  intros Hr%race_steps Hp Hq.
  assert (forall t1 t2 p' q', merge t1 t2 tr -> steps p t1 p' -> steps q t2 q' ->
    (count_calls f tr <= n)%nat) as Hall.
  { intros t1 t2 p' q' Hm H1 H2. rewrite (merge_perm _ _ _ Hm), count_calls_app.
    pose proof (at_most_steps _ _ _ _ _ H1 Hp).
    destruct (only_steps _ _ _ _ H2 Hq) as [F2 _].
    assert (count_calls f t2 = 0%nat); [|lia].
    clear -F2. induction F2 as [|e t2 He _ IH]; simpl; [done|]. by rewrite He, IH. }
  destruct out as [[a q']|b].
  - destruct Hr as (t1&t2&?&?&?). by eapply Hall.
  - destruct Hr as (t1&t2&p'&?&?&?). by eapply Hall.
Qed.

(** A program that makes no such call. *)
Lemma only_count {S A} f (p : prog S A) tr p' :
  steps p tr p' -> only (fun c => f c = false) p -> count_calls f tr = 0%nat.
Proof.
  intros Hs Hp. destruct (only_steps _ _ _ _ Hs Hp) as [Hall _].
  clear Hs Hp. induction Hall as [|e tr He _ IH]; simpl; [done|]. by rewrite He, IH.
Qed.

(** ** Parts of a trace *)

Section parts.
Context {S T : Sig}.
Implicit Types tr : list (event (S ⊕ T)).

Definition left_event (e : event (S ⊕ T)) : option (event S) :=
  match e with existT (inl c) r => Some (existT c r) | existT (inr _) _ => None end.
Definition left_events tr : list (event S) := omap left_event tr.

Lemma left_events_app t1 t2 : left_events (t1 ++ t2) = left_events t1 ++ left_events t2.
Proof. apply omap_app. Qed.

(** What one interface's part of the calls of a lifted program is. *)
Lemma left_events_embeds (tr0 : list (event S)) tr : Forall2 embeds tr0 tr -> left_events tr = tr0.
Proof.
  induction 1 as [|[c r0] e tr0 tr (r&->&Hr) _ IH]; [done|]. simpl in *. unfold left_events in *. simpl.
  rewrite IH. by rewrite <-Hr.
Qed.

Lemma left_events_right tr : Forall (fun e => exists c, projT1 e = inr c) tr -> left_events tr = [].
Proof. induction 1 as [|[c r] tr [c' Hc] _ IH]; [done|]. simpl in *. by subst c. Qed.

Lemma left_steps {A} (p : prog S A) tr a : steps (lift p : prog (S ⊕ T) A) tr (Ret a) -> runs p (left_events tr) a.
Proof. intros (tr0&He&Hr)%runs_steps%runs_lift. by rewrite (left_events_embeds _ _ He). Qed.

(** Programs that only call the second interface. *)
Definition right_only {A} (p : prog (S ⊕ T) A) : Prop :=
  only (fun c : call (S ⊕ T) => exists c', c = inr c') p.

Lemma right_only_lift {A} (p : prog T A) : right_only (lift p).
Proof. apply only_lift. induction p as [a|c k IH]; simpl; eauto. Qed.

Lemma right_only_steps {A} (p : prog (S ⊕ T) A) tr p' :
  steps p tr p' -> right_only p -> left_events tr = [] /\ right_only p'.
Proof. intros Hs Hp. destruct (only_steps _ _ _ _ Hs Hp). split; [by apply left_events_right|done]. Qed.

Lemma left_events_merge t1 t2 tr : merge t1 t2 tr -> left_events t2 = [] -> left_events tr = left_events t1.
Proof. intros Hm%(merge_omap left_event) H2. unfold left_events in *. rewrite H2 in Hm. by apply merge_nil_inv. Qed.
End parts.
