(* ===== verification/Worker.v ===== *)
(** * The proof worker
    ([src/proofs/workers/core/src]: [worker.rs], [heartbeat.rs], [retry.rs])

    A worker claims jobs of its lane, runs the backend's handler for each, keeps
    the lease of the job alive with heartbeats while the handler runs, and submits
    the finished proof.  The handler is a program over an interface of its own; the
    queue is the prover service behind its RPC client.  [job_task] is the task of one
    job, a race between the handler (then the submission) and the heartbeat;
    [worker_step] is the loop that claims jobs. *)

From S2P Require Import Prelude Program Race Encoding ProofTypes ProverTypes ProverStore Rpc.

(** ** Retries ([retry.rs]); durations are in milliseconds *)

Definition MIN_RETRY_DELAY : Z := 1.

Record RetryConfig := { retry_max_attempts : nat; retry_initial_delay : Z; retry_max_delay : Z }.

Definition retry_default : RetryConfig :=
  {| retry_max_attempts := 10; retry_initial_delay := 100; retry_max_delay := 10000 |}.

Definition normalized_max_delay (c : RetryConfig) : Z := Z.max (retry_max_delay c) MIN_RETRY_DELAY.

Definition normalized_initial_delay (c : RetryConfig) : Z :=
  Z.min (Z.max (retry_initial_delay c) MIN_RETRY_DELAY) (normalized_max_delay c).

(** ** Heartbeats ([heartbeat.rs]) *)

Definition MIN_WORKER_HEARTBEAT_INTERVAL : Z := 1.

Record WorkerHeartbeatConfig := { hb_interval : Z; max_consecutive_failures : Z }.

Definition heartbeat_default : WorkerHeartbeatConfig :=
  {| hb_interval := 30 * 1000; max_consecutive_failures := 5 |}.

Definition normalized_interval (c : WorkerHeartbeatConfig) : Z :=
  Z.max (hb_interval c) MIN_WORKER_HEARTBEAT_INTERVAL.

Definition normalized_max_consecutive_failures (c : WorkerHeartbeatConfig) : Z :=
  if max_consecutive_failures c =? 0 then 1 else max_consecutive_failures c.

(** ** The queue as the worker sees it *)

(** [Backoff n]: the delay before the retry number [n], which [backon] chooses. *)
Inductive queue_call :=
| QSubmit (r : SubmitProofRequest)
| QHeartbeat (r : HeartbeatRequest)
| QSleep (ms : Z)
| Backoff (n : nat).

Definition QueueSig : Sig := MkSig queue_call (fun c =>
  match c with
  | QSubmit _ | QHeartbeat _ => result unit ProofJobQueueError
  | QSleep _ | Backoff _ => unit
  end).

Abbreviation queue c := (Call (c : call QueueSig) (fun r => Ret r)).

(** One heartbeat per unit of fuel; [None] if it has not failed by then. *)
Fixpoint run_until_failure (c : WorkerHeartbeatConfig) (r : HeartbeatRequest) (fuel : nat)
    (consecutive_failures : Z) : prog QueueSig (option ProofJobQueueError) :=
  match fuel with
  | O => Ret None
  | S fuel =>
      do _u <- queue (QSleep (normalized_interval c));
      do sent <- queue (QHeartbeat r);
      match sent with
      | Ok _ => run_until_failure c r fuel 0
      | Err error =>
          if is_retryable error then
            let consecutive_failures := consecutive_failures + 1 in
            if normalized_max_consecutive_failures c <=? consecutive_failures then Ret (Some error)
            else run_until_failure c r fuel consecutive_failures
          else Ret (Some error)
      end
  end.

(** [submit_proof] with [n] of [m] retries left. *)
Fixpoint submit_with_retries (r : SubmitProofRequest) (n : nat) : prog QueueSig (result unit ProofJobQueueError) :=
  do sent <- queue (QSubmit r);
  match sent with
  | Ok u => Ret (Ok u)
  | Err error =>
      if is_retryable error then
        match n with
        | O => Ret (Err error)
        | S n => do _u <- queue (Backoff n); submit_with_retries r n
        end
      else Ret (Err error)
  end.

(** ** The task of a job *)

Inductive Outcome (E : Type) :=
| Success
| LeaseLost (e : ProofJobQueueError)
| ProvingError (e : E)
| SubmissionError (e : ProofJobQueueError).
Arguments Success {E}.
Arguments LeaseLost {E} e.
Arguments ProvingError {E} e.
Arguments SubmissionError {E} e.

Section task.
Context {H : Sig} {E : Type} (handler : prog H (result ProofData E)).
Context (keccak256 : bytes -> B256).
Context (worker_id : string) (locked : LockedProofRequest).
Context (retry_config : RetryConfig) (heartbeat_config : WorkerHeartbeatConfig).

Definition proof_id : B256 := request_id keccak256 (lk_request locked).

Definition heartbeat_request : HeartbeatRequest :=
  {| hb_proof_id := proof_id; hb_worker_id := worker_id; hb_lock_id := lk_lock_id locked |}.

Definition submit_request (proof : ProofData) : SubmitProofRequest :=
  {| sb_proof := {| sp_id := proof_id; sp_proof := proof |}; sb_worker_id := worker_id;
     sb_lock_id := lk_lock_id locked |}.

Definition beat (fuel : nat) : prog (H ⊕ QueueSig) (option ProofJobQueueError) :=
  lift (run_until_failure heartbeat_config heartbeat_request fuel 0).

Definition submission (proof : ProofData) : prog (H ⊕ QueueSig) (result unit ProofJobQueueError) :=
  lift (submit_with_retries (submit_request proof) (retry_max_attempts retry_config)).

Definition task_outcome (r : result unit ProofJobQueueError) : Outcome E :=
  match r with Ok _ => Success | Err e => SubmissionError e end.

Definition already_terminal (e : ProofJobQueueError) : bool :=
  match e with AlreadyTerminal _ => true | _ => false end.

(** The runs of the task.  The heartbeat is given as many rounds as the run
    takes. *)
Inductive job_task : list (event (H ⊕ QueueSig)) -> Outcome E -> Prop :=
| task_lease_lost fuel t1 e :
    race (lift handler) (beat fuel) t1 (inr (Some e)) ->
    job_task t1 (LeaseLost e)
| task_proving_error fuel t1 e hb d :
    race (lift handler) (beat fuel) t1 (inl (Err e, hb)) -> dropped hb d ->
    job_task (t1 ++ d) (ProvingError e)
| task_submitted fuel t1 proof hb t2 r hb' d :
    race (lift handler) (beat fuel) t1 (inl (Ok proof, hb)) ->
    race (submission proof) hb t2 (inl (r, hb')) -> dropped hb' d ->
    job_task (t1 ++ t2 ++ d) (task_outcome r)
| task_resubmitted fuel t1 proof hb t2 e t3 r :
    race (lift handler) (beat fuel) t1 (inl (Ok proof, hb)) ->
    race (submission proof) hb t2 (inr (Some e)) -> already_terminal e = true ->
    runs (submission proof) t3 r ->
    job_task (t1 ++ t2 ++ t3) (task_outcome r)
| task_lease_lost_late fuel t1 proof hb t2 e :
    race (lift handler) (beat fuel) t1 (inl (Ok proof, hb)) ->
    race (submission proof) hb t2 (inr (Some e)) -> already_terminal e = false ->
    job_task (t1 ++ t2) (LeaseLost e).
End task.

(** ** When the heartbeat gives up *)

Definition answer : Type := result unit ProofJobQueueError.

(** The calls of the heartbeat that were answered with [rs]. *)
Definition beats (c : WorkerHeartbeatConfig) (r : HeartbeatRequest) (rs : list answer) : list (event QueueSig) :=
  mjoin ((fun x : answer => [ev (QSleep (normalized_interval c) : call QueueSig) tt;
                             ev (QHeartbeat r : call QueueSig) x]) <$> rs).

Definition failed_beat (x : answer) : Prop := exists e, x = Err e /\ is_retryable e = true.

(** The last answer is final, or the last [n] are failures that may be retried. *)
Definition hopeless (n : nat) (rs : list answer) : Prop :=
  (exists a e, rs = a ++ [Err e] /\ is_retryable e = false) \/
  (exists a b, rs = a ++ b /\ length b = n /\ Forall failed_beat b).

Section heartbeat.
Context (c : WorkerHeartbeatConfig) (r : HeartbeatRequest).
Context (Hmax : 0 <= max_consecutive_failures c).

Definition limit : nat := Z.to_nat (normalized_max_consecutive_failures c).

Lemma limit_pos : (0 < limit)%nat.
Proof.
  unfold limit, normalized_max_consecutive_failures. destruct (Z.eqb_spec (max_consecutive_failures c) 0); lia.
Qed.

Lemma hopeless_app n a rs : hopeless n rs -> hopeless n (a ++ rs).
Proof.
  intros [(x&e&->&?)|(x&b&->&?&?)]; [left; exists (a ++ x), e|right; exists (a ++ x), b];
    by rewrite <-app_assoc.
Qed.

(** A suffix of failures cannot reach back over an answer that is none. *)
Lemma suffix_after {A} (P : A -> Prop) (h rs a b : list A) x :
  h ++ x :: rs = a ++ b -> ~ P x -> Forall P b -> exists a', rs = a' ++ b.
Proof.
  intros Heq Hx Hb. apply app_eq_inv in Heq as [(k&->&->)|(k&->&Heq)].
  - apply Forall_app in Hb as [_ Hb]. by apply Forall_cons in Hb as [? _].
  - destruct k as [|y k]; simpl in *; [subst b; by apply Forall_cons in Hb as [? _]|].
    injection Heq as -> ->. by exists k.
Qed.

(** What is known of the answers so far, [h], when the loop continues: the last
    ones are as many failures as it has counted, fewer than the limit. *)
Definition counting (h : list answer) (n : Z) : Prop :=
  exists a b, h = a ++ b /\ Forall failed_beat b /\ Z.of_nat (length b) = n /\ (length b < limit)%nat /\
    (forall x, last a = Some x -> ~ failed_beat x) /\ ~ hopeless limit h.

Lemma not_failed_ok u : ~ failed_beat (Ok u).
Proof. by intros (e&?&?). Qed.
Lemma not_failed_final e : is_retryable e = false -> ~ failed_beat (Err e).
Proof. intros He (e'&[= <-]&?). congruence. Qed.
Lemma failed_retryable e : is_retryable e = true -> failed_beat (Err e).
Proof. by exists e. Qed.

Lemma hopeless_ok h u : ~ hopeless limit (h ++ [Ok u]).
Proof.
  intros [(a&e&Heq&_)|(a&b&Heq&Hlen&Hb)]; [by apply app_inj_tail in Heq as [_ ?]|].
  apply (suffix_after failed_beat) in Heq as (a'&Ha'); [|apply not_failed_ok|done].
  symmetry in Ha'. apply app_nil in Ha' as [_ ->]. pose proof limit_pos. simpl in Hlen. lia.
Qed.

(** One more failure after [n] of them is hopeless exactly at the limit. *)
Lemma hopeless_failed h n e :
  counting h n -> is_retryable e = true ->
  hopeless limit (h ++ [Err e]) <-> Z.of_nat limit <= n + 1.
Proof.
  intros (a&b&->&Hb&Hn&Hlt&Ha&_) He. split.
  - intros [(x&e'&Heq&He')|(x&b'&Heq&Hlen&Hb')].
    { apply app_inj_tail in Heq as [_ [= <-]]. congruence. }
    rewrite <-app_assoc in Heq.
    apply app_eq_inv in Heq as [(k&->&->)|(k&->&Heq)].
    + destruct k as [|y k' _] using rev_ind; [simpl in Hlen; rewrite length_app in Hlen; simpl in Hlen; lia|].
      exfalso. apply (Ha y); [by rewrite app_assoc, last_snoc|].
      apply Forall_app in Hb' as [Hb' _]. apply Forall_app in Hb' as [_ Hy]. by inversion Hy.
    + apply (f_equal length) in Heq. rewrite !length_app in Heq. simpl in Heq. lia.
  - intros Hle. right. exists a, (b ++ [Err e]). rewrite app_assoc, length_app. simpl.
    split_and!; [done|lia|]. apply Forall_app_2; [done|]. by repeat constructor; apply failed_retryable.
Qed.

(** The next answer: the loop continues with a new count, or it is hopeless. *)
Lemma counting_next h n x :
  counting h n ->
  match x with
  | Ok _ => counting (h ++ [x]) 0
  | Err e =>
      if is_retryable e then
        if normalized_max_consecutive_failures c <=? n + 1 then hopeless limit (h ++ [x])
        else counting (h ++ [x]) (n + 1)
      else hopeless limit (h ++ [x])
  end.
Proof.
  intros Hc. pose proof limit_pos as Hpos. destruct x as [u|e].
  { exists (h ++ [Ok u]), []. rewrite app_nil_r. split_and!; try done; [|apply hopeless_ok].
    intros x. rewrite last_snoc. intros [= <-]. apply not_failed_ok. }
  destruct (is_retryable e) eqn:He; [|by left; exists h, e].
  pose proof (hopeless_failed h n e Hc He) as Hh.
  assert (Z.of_nat limit = normalized_max_consecutive_failures c) as Hl by (unfold limit in *; lia).
  destruct (Z.leb_spec (normalized_max_consecutive_failures c) (n + 1)); [apply Hh; lia|].
  destruct Hc as (a&b&->&Hb&Hn&Hlt&Ha&_). exists a, (b ++ [Err e]). rewrite app_assoc, length_app. simpl.
  split_and!; try done; try lia; [|intros ?%Hh; lia].
  apply Forall_app_2; [done|]. by repeat constructor; apply failed_retryable.
Qed.

(** [tr] are heartbeats after the answers [h], none of them after a hopeless one. *)
Definition explained (h : list answer) (fuel : nat) (tr : list (event QueueSig))
    (out : option ProofJobQueueError) : Prop :=
  exists rs, tr = beats c r rs /\
    (forall p, p `prefix_of` rs -> p <> rs -> ~ hopeless limit (h ++ p)) /\
    match out with
    | Some e => (length rs <= fuel)%nat /\ last rs = Some (Err e) /\ hopeless limit (h ++ rs)
    | None => length rs = fuel /\ ~ hopeless limit (h ++ rs)
    end.

Lemma explained_cons h fuel tr out x :
  ~ hopeless limit (h ++ [x]) -> explained (h ++ [x]) fuel tr out -> ~ hopeless limit h ->
  explained h (S fuel) (beats c r [x] ++ tr) out.
Proof.
  intros Hx (rs&->&Hp&Hout) Hh. exists (x :: rs). split_and!; [done| |].
  - intros [|y p] Hpre Hne; [by rewrite app_nil_r|]. apply prefix_cons_inv_1 in Hpre as Hy. subst y.
    apply prefix_cons_inv_2 in Hpre. rewrite cons_middle, app_assoc. apply Hp; [done|congruence].
  - rewrite cons_middle, app_assoc. destruct out as [e|]; simpl.
    + destruct Hout as (Hlen&Hlast&Hhp). split_and!; [lia| |done]. by destruct rs.
    + destruct Hout as [Hlen Hhp]. split; [lia|done].
Qed.

Lemma explained_inv h fuel tr out :
  ~ hopeless limit h -> explained h (S fuel) tr out ->
  exists x tr2, tr = beats c r [x] ++ tr2 /\
    ((hopeless limit (h ++ [x]) /\ tr2 = [] /\ exists e, x = Err e /\ out = Some e) \/
     (~ hopeless limit (h ++ [x]) /\ explained (h ++ [x]) fuel tr2 out)).
Proof.
  intros Hh (rs&->&Hp&Hout). destruct rs as [|x rs].
  { exfalso. destruct out as [e|]; [by destruct Hout as (_&?&_)|by destruct Hout as [? _]]. }
  exists x, (beats c r rs). split; [done|].
  assert (forall p, p `prefix_of` rs -> p <> rs -> ~ hopeless limit ((h ++ [x]) ++ p)) as Hp'.
  { intros p Hpre Hne. rewrite <-app_assoc. apply Hp; [by apply prefix_cons|]. by intros [= ->]. }
  assert (rs <> [] -> ~ hopeless limit (h ++ [x])) as Hne.
  { intros Hne. specialize (Hp' [] (prefix_nil _)). rewrite app_nil_r in Hp'. apply Hp'. congruence. }
  rewrite cons_middle, app_assoc in Hout.
  destruct out as [e|]; simpl in Hout.
  - destruct Hout as (Hlen&Hlast&Hhp). destruct rs as [|y rs].
    + left. rewrite app_nil_r in Hhp. simpl in Hlast. injection Hlast as ->. split_and!; [done|done|by exists e].
    + right. split; [by apply Hne|]. exists (y :: rs). split_and!; try done. simpl in *. lia.
  - destruct Hout as [Hlen Hhp]. right. split.
    + destruct rs; [by rewrite app_nil_r in Hhp|by apply Hne].
    + exists rs. split_and!; try done. lia.
Qed.

Lemma run_until_failure_spec fuel : forall h n tr out, counting h n ->
  runs (run_until_failure c r fuel n) tr out <-> explained h fuel tr out.
Proof.
  induction fuel as [|fuel IH]; intros h n tr out Hc;
    (assert (~ hopeless limit h) as Hh by by destruct Hc as (?&?&?&?&?&?&?&?)); cbn [run_until_failure].
  { split.
    - intros [-> ->]. exists []. rewrite app_nil_r. split_and!; try done. by intros p ->%prefix_nil_inv.
    - intros (rs&->&_&Hout). destruct out as [e|]; [|by destruct Hout as [->%nil_length_inv _]].
      destruct Hout as (Hlen&Hlast&_). destruct rs; [done|]. simpl in Hlen. lia. }
  assert (forall x tr2,
    runs match x with
         | Ok _ => run_until_failure c r fuel 0
         | Err error =>
             if is_retryable error then
               if normalized_max_consecutive_failures c <=? n + 1 then Ret (Some error)
               else run_until_failure c r fuel (n + 1)
             else Ret (Some error)
         end tr2 out <->
    ((hopeless limit (h ++ [x]) /\ tr2 = [] /\ exists e, x = Err e /\ out = Some e) \/
     (~ hopeless limit (h ++ [x]) /\ explained (h ++ [x]) fuel tr2 out))) as Hx.
  { intros x tr2. pose proof (counting_next h n x Hc) as Hx.
    assert (forall m, counting (h ++ [x]) m -> runs (run_until_failure c r fuel m) tr2 out <->
      ((hopeless limit (h ++ [x]) /\ tr2 = [] /\ exists e, x = Err e /\ out = Some e) \/
       (~ hopeless limit (h ++ [x]) /\ explained (h ++ [x]) fuel tr2 out))) as Hgo.
    { intros m Hm. rewrite (IH _ _ _ _ Hm). destruct Hm as (?&?&?&?&?&?&?&Hn). naive_solver. }
    destruct x as [u|e]; [by apply Hgo|]. destruct (is_retryable e); [destruct (_ <=? _); [|by apply Hgo]|];
      simpl; naive_solver. }
  cbn [bind runs]. split.
  - intros ([]&tr1&->&x&tr2&->&Hrun). apply Hx in Hrun as [(Hhp&->&e&->&->)|[Hnh He]].
    + exists [Err e]. split_and!; try done; [|simpl; lia]. intros [|y p] Hpre Hne; [by rewrite app_nil_r|].
      exfalso. apply Hne. apply prefix_cons_inv_1 in Hpre as Hy. apply prefix_cons_inv_2, prefix_nil_inv in Hpre.
      by subst.
    + by apply (explained_cons h fuel tr2 out x).
  - intros (x&tr2&->&Hcase)%explained_inv; [|done]. exists tt, (ev (QHeartbeat r : call QueueSig) x :: tr2).
    split; [done|]. exists x, tr2. split; [done|]. by apply Hx.
Qed.

(** The heartbeat ends with an error exactly at the first answer that either
    cannot be retried or completes a streak of failures as long as the configured
    limit (at least one): a shorter streak, or one broken by a success, never ends the
    job.  While there is no such answer it goes on. *)
Theorem heartbeat_gives_up fuel tr out :
  runs (run_until_failure c r fuel 0) tr out <->
  exists rs, tr = beats c r rs /\
    (forall p, p `prefix_of` rs -> p <> rs -> ~ hopeless limit p) /\
    match out with
    | Some e => (length rs <= fuel)%nat /\ last rs = Some (Err e) /\ hopeless limit rs
    | None => length rs = fuel /\ ~ hopeless limit rs
    end.
Proof.
  apply (run_until_failure_spec fuel []). exists [], []. pose proof limit_pos.
  split_and!; try done; try (simpl; lia). intros [(a&e&Heq&_)|(a&b&Heq&Hlen&_)].
  - by destruct a.
  - symmetry in Heq. apply app_nil in Heq as [_ ->]. simpl in Hlen. lia.
Qed.
End heartbeat.

Lemma heartbeat_gives_up_witness :
  let c := {| hb_interval := 5; max_consecutive_failures := 2 |} in
  let r := {| hb_proof_id := 1; hb_worker_id := "w"; hb_lock_id := 3 |} in
  exists rs, beats c r [Err QRemoteSqlx; Ok tt; Err QRemoteSqlx; Err QRpcRequestTimeout] = beats c r rs /\
    hopeless 2 rs.
Proof.
  intros c r.
  destruct (proj1 (heartbeat_gives_up c r ltac:(simpl; lia) 9
    (beats c r [Err QRemoteSqlx; Ok tt; Err QRemoteSqlx; Err QRpcRequestTimeout]) (Some QRpcRequestTimeout)))
    as (rs&Heq&_&_&_&Hh); [|by exists rs].
  do 8 (eexists; eexists; split; [reflexivity|]; cbn). done.
Defined.

(** ** The task *)

Section task_theorems.
Context {H : Sig} {E : Type} (handler : prog H (result ProofData E)).
Context (keccak256 : bytes -> B256).
Context (worker_id : string) (locked : LockedProofRequest).
Context (retry_config : RetryConfig) (heartbeat_config : WorkerHeartbeatConfig).
Implicit Types tr : list (event (H ⊕ QueueSig)).

Abbreviation task := (job_task handler keccak256 worker_id locked retry_config heartbeat_config).
Abbreviation submission' := (submission (H := H) keccak256 worker_id locked retry_config).
Abbreviation request_of proof := (submit_request keccak256 worker_id locked proof).

Definition is_submit (c : call (H ⊕ QueueSig)) : bool :=
  match c with inr (QSubmit _) => true | _ => false end.

(** The proof that the calls submit, if any. *)
Definition submits_only (proof : ProofData) tr : Prop :=
  forall r x, ev (inr (QSubmit r) : call (H ⊕ QueueSig)) x ∈ tr -> r = request_of proof.

Lemma submit_calls r n :
  only (fun c : call QueueSig => match c with QSubmit r' => r' = r | Backoff _ => True | _ => False end)
    (submit_with_retries r n).
Proof.
  induction n as [|n IH]; cbn [submit_with_retries bind only]; (split; [done|]); intros [u|e]; try done;
    by destruct (is_retryable e).
Qed.

Lemma submit_count r n :
  at_most (fun c : call QueueSig => match c with QSubmit _ => true | _ => false end) (S n) (submit_with_retries r n).
Proof.
  induction n as [|n IH]; cbn [submit_with_retries bind at_most]; intros [u|e]; try done;
    destruct (is_retryable e); try done. cbn [bind at_most]. by intros [].
Qed.

Lemma beat_calls c r fuel : forall n,
  only (fun c : call QueueSig => match c with QHeartbeat r' => r' = r | QSubmit _ | Backoff _ => False | _ => True end)
    (run_until_failure c r fuel n).
Proof.
  induction fuel as [|fuel IH]; intros n; cbn [run_until_failure bind only]; [done|]. split; [done|]. intros [].
  split; [done|]. intros [u|e]; [done|]. destruct (is_retryable e); [destruct (_ <=? _)|]; done.
Qed.

(** A submission ends with the last answer of the queue. *)
Lemma submit_answer r n (t : list (event QueueSig)) x :
  runs (submit_with_retries r n) t x -> ev (QSubmit r : call QueueSig) x ∈ t.
Proof.
  revert t. induction n as [|n IH]; intros t; cbn [submit_with_retries bind runs]; intros (y&t1&->&Hr);
    destruct y as [u|e]; try (destruct Hr as [-> ->]; by left);
    destruct (is_retryable e); try (destruct Hr as [-> ->]; by left).
  destruct Hr as ([]&t2&->&Hr%IH). by do 2 right.
Qed.

(** *** The calls of the parts of a task *)

Definition handler_call (c : call (H ⊕ QueueSig)) : Prop := exists c', c = inl c'.
Definition beat_call (c : call (H ⊕ QueueSig)) : Prop :=
  match c with
  | inr (QHeartbeat r) => r = heartbeat_request keccak256 worker_id locked
  | inr (QSleep _) => True
  | _ => False
  end.
Definition submit_call (proof : ProofData) (c : call (H ⊕ QueueSig)) : Prop :=
  match c with inr (QSubmit r) => r = request_of proof | inr (Backoff _) => True | _ => False end.

Lemma handler_only : only handler_call (lift handler : prog (H ⊕ QueueSig) _).
Proof.
  apply only_lift. generalize handler as p. induction p as [a|c k IH]; simpl; [done|].
  split; [exists c; reflexivity|exact IH].
Qed.

Lemma beat_only fuel : only beat_call (beat (H := H) keccak256 worker_id locked heartbeat_config fuel).
Proof.
  apply only_lift. eapply only_impl; [|apply beat_calls]. intros []; simpl; done.
Qed.

Lemma submission_only proof : only (submit_call proof) (submission' proof).
Proof. apply only_lift. eapply only_impl; [|apply submit_calls]. intros []; simpl; done. Qed.

Lemma submission_count proof : at_most is_submit (S (retry_max_attempts retry_config)) (submission' proof).
Proof. apply at_most_lift, submit_count. Qed.

Lemma no_submit_count tr : Forall (fun e => handler_call (projT1 e) \/ beat_call (projT1 e)) tr ->
  count_calls is_submit tr = 0%nat.
Proof.
  induction 1 as [|[c x] tr He _ IH]; simpl in *; [done|]. rewrite IH.
  destruct He as [[c' ->]|Hb]; [done|]. by destruct c as [|[]].
Qed.

Lemma beat_no_submit c : beat_call c -> is_submit c = false.
Proof. by destruct c as [|[]]. Qed.
Lemma beat_right c : beat_call c -> exists c', c = inr c'.
Proof. destruct c as [|c]; [done|]. by exists c. Qed.
Lemma submit_right proof c : submit_call proof c -> exists c', c = inr c'.
Proof. destruct c as [|c]; [done|]. by exists c. Qed.

(** *** The phases *)

(** While the handler runs: nothing is submitted, and a handler that returns has made
    the handler's part of the calls. *)
Lemma proving_race fuel t1 out :
  race (lift handler) (beat keccak256 worker_id locked heartbeat_config fuel) t1 out ->
  count_calls is_submit t1 = 0%nat /\
  match out with
  | inl (a, hb) => runs handler (left_events t1) a /\ only beat_call hb
  | inr _ => True
  end.
Proof.
  intros Hr. destruct (race_only _ _ _ _ _ _ Hr handler_only (beat_only fuel)) as [Hcalls Hhb].
  split; [by apply no_submit_count|]. apply race_steps in Hr. destruct out as [[a hb]|]; [|done].
  destruct Hr as (u1&u2&Hm&H1&H2). split; [|done].
  rewrite (left_events_merge u1 u2); [by apply left_steps|done|].
  apply left_events_right. destruct (only_steps _ _ _ _ H2 (beat_only fuel)) as [F _].
  eapply Forall_impl; [exact F|]. intros e. apply beat_right.
Qed.

Lemma submission_answer proof t x :
  steps (submission' proof) t (Ret x) -> ev (inr (QSubmit (request_of proof)) : call (H ⊕ QueueSig)) x ∈ t.
Proof.
  intros (tr0&He&Hr)%runs_steps%runs_lift. apply submit_answer in Hr.
  destruct (saw_embeds (T := H ⊕ QueueSig) _ _ _ _ He Hr) as (y&Hy&<-). exact Hy.
Qed.

Lemma own_submits proof t :
  Forall (fun e => submit_call proof (projT1 e) \/ beat_call (projT1 e)) t ->
  submits_only proof t /\ left_events t = [].
Proof.
  intros F. split.
  - intros r x Hin. rewrite Forall_forall in F. by destruct (F _ Hin).
  - apply left_events_right. eapply Forall_impl; [exact F|]. intros e [Hs|Hb]; [by eapply submit_right|by apply beat_right].
Qed.

(** While the proof is submitted: only this proof is, a bounded number of times. *)
Lemma submission_race proof (hb : prog (H ⊕ QueueSig) (option ProofJobQueueError)) t2 out :
  race (submission' proof) hb t2 out -> only beat_call hb ->
  submits_only proof t2 /\ left_events t2 = [] /\
  (count_calls is_submit t2 <= S (retry_max_attempts retry_config))%nat /\
  match out with
  | inl (x, hb') => only beat_call hb' /\ ev (inr (QSubmit (request_of proof)) : call (H ⊕ QueueSig)) x ∈ t2
  | inr _ => True
  end.
Proof.
  intros Hr Hhb. destruct (race_only _ _ _ _ _ _ Hr (submission_only proof) Hhb) as [Hcalls Hout].
  destruct (own_submits _ _ Hcalls) as [Hs Hl]. split_and!; try done.
  - eapply race_count; [exact Hr|apply submission_count|]. eapply only_impl; [|exact Hhb]. apply beat_no_submit.
  - apply race_steps in Hr. destruct out as [[x hb']|]; [|done]. split; [done|].
    destruct Hr as (u1&u2&Hm&H1&_). apply merge_perm in Hm. rewrite Hm. apply elem_of_app. left.
    by apply submission_answer.
Qed.

(** An abandoned heartbeat. *)
Lemma beat_dropped (hb : prog (H ⊕ QueueSig) (option ProofJobQueueError)) d : only beat_call hb -> dropped hb d -> count_calls is_submit d = 0%nat /\ left_events d = [].
Proof.
  intros Hhb Hd. pose proof (only_dropped _ _ _ Hhb Hd) as F. split.
  - apply no_submit_count. eapply Forall_impl; [exact F|]. simpl. auto.
  - apply left_events_right. eapply Forall_impl; [exact F|]. intros e. apply beat_right.
Qed.

Lemma no_submits tr proof : count_calls is_submit tr = 0%nat -> submits_only proof tr.
Proof.
  intros Hz r x Hin. exfalso. apply list_elem_of_split in Hin as (l&k&->).
  rewrite count_calls_app in Hz. simpl in Hz. lia.
Qed.

Lemma submits_only_app proof t1 t2 : submits_only proof t1 -> submits_only proof t2 -> submits_only proof (t1 ++ t2).
Proof. intros H1 H2 r x [?|?]%elem_of_app; eauto. Qed.

Definition submitted (proof : ProofData) (x : answer) tr : Prop :=
  runs handler (left_events tr) (Ok proof) /\ submits_only proof tr /\
  ev (inr (QSubmit (request_of proof)) : call (H ⊕ QueueSig)) x ∈ tr.

Definition submit_limit : nat := 2 * S (retry_max_attempts retry_config).

Lemma submitted_once fuel t1 proof hb t2 r hb' d :
  race (lift handler) (beat keccak256 worker_id locked heartbeat_config fuel) t1 (inl (Ok proof, hb)) ->
  race (submission' proof) hb t2 (inl (r, hb')) -> dropped hb' d ->
  submitted proof r (t1 ++ t2 ++ d) /\ (count_calls is_submit (t1 ++ t2 ++ d) <= submit_limit)%nat.
Proof.
  unfold submit_limit. intros [Hz [Hrun Hhb]]%proving_race H2 Hd.
  destruct (submission_race _ _ _ _ H2 Hhb) as (Hs&Hl&Hc&Hhb'&Hin).
  destruct (beat_dropped _ _ Hhb' Hd) as [Hz' Hl']. split; [split_and!|].
  - by rewrite !left_events_app, Hl, Hl', !app_nil_r.
  - by apply submits_only_app, submits_only_app; [apply no_submits|done|apply no_submits].
  - rewrite !elem_of_app. auto.
  - rewrite !count_calls_app. lia.
Qed.

Lemma submitted_twice fuel t1 proof hb t2 e t3 r :
  race (lift handler) (beat keccak256 worker_id locked heartbeat_config fuel) t1 (inl (Ok proof, hb)) ->
  race (submission' proof) hb t2 (inr (Some e)) -> runs (submission' proof) t3 r ->
  submitted proof r (t1 ++ t2 ++ t3) /\ (count_calls is_submit (t1 ++ t2 ++ t3) <= submit_limit)%nat.
Proof.
  unfold submit_limit. intros [Hz [Hrun Hhb]]%proving_race H2 H3%runs_steps.
  destruct (submission_race _ _ _ _ H2 Hhb) as (Hs&Hl&Hc&_).
  pose proof (submission_answer _ _ _ H3) as Hin.
  pose proof (at_most_steps _ _ _ _ _ H3 (submission_count proof)) as Hc3.
  destruct (only_steps _ _ _ _ H3 (submission_only proof)) as [F3 _].
  destruct (own_submits proof t3) as [Hs3 Hl3]; [eapply Forall_impl; [exact F3|simpl; auto]|].
  split; [split_and!|].
  - by rewrite !left_events_app, Hl, Hl3, !app_nil_r.
  - by apply submits_only_app, submits_only_app; [apply no_submits| |].
  - rewrite !elem_of_app. auto.
  - rewrite !count_calls_app. lia.
Qed.

(** A task that comes to the end of its submission. *)
Lemma task_submission tr out :
  task tr out ->
  match out with
  | Success => exists proof, submitted proof (Ok tt) tr
  | SubmissionError e => exists proof, submitted proof (Err e) tr
  | _ => True
  end.
Proof.
  intros [| |fuel t1 proof hb t2 r hb' d H1 H2 Hd|fuel t1 proof hb t2 e t3 r H1 H2 He H3|]; try done.
  - destruct (submitted_once _ _ _ _ _ _ _ _ H1 H2 Hd). destruct r as [[]|]; by exists proof.
  - destruct (submitted_twice _ _ _ _ _ _ _ _ H1 H2 H3). destruct r as [[]|]; by exists proof.
Qed.

(** The task of a claimed job submits nothing but the proof that the handler
    returned, under the id of the claimed request and with the worker's own lock, and
    a bounded number of times.  It reports success only if the queue accepted the
    proof, a failed submission only with the queue's last answer, and a failed
    proof only with the handler's error and without submitting anything. *)
Theorem job_task_sound tr out :
  task tr out ->
  (count_calls is_submit tr <= submit_limit)%nat /\
  match out with
  | Success => exists proof, submitted proof (Ok tt) tr
  | SubmissionError e => exists proof, submitted proof (Err e) tr
  | ProvingError e => runs handler (left_events tr) (Err e) /\ count_calls is_submit tr = 0%nat
  | LeaseLost e =>
      count_calls is_submit tr = 0%nat \/
      exists proof, runs handler (left_events tr) (Ok proof) /\ submits_only proof tr
  end.
Proof.
  intros Htask. pose proof (task_submission _ _ Htask) as Hsub.
  destruct Htask as [fuel t1 e H1|fuel t1 e hb d H1 Hd|fuel t1 proof hb t2 r hb' d H1 H2 Hd
    |fuel t1 proof hb t2 e t3 r H1 H2 He H3|fuel t1 proof hb t2 e H1 H2 He].
  - apply proving_race in H1 as [Hz _]. split; [lia|by left].
  - apply proving_race in H1 as [Hz [Hrun Hhb]]. destruct (beat_dropped _ _ Hhb Hd) as [Hz' Hl'].
    rewrite left_events_app, Hl', app_nil_r, count_calls_app. split; [lia|]. split; [done|lia].
  - split; [by eapply submitted_once|by destruct r as [[]|]].
  - split; [by eapply submitted_twice|by destruct r as [[]|]].
  - apply proving_race in H1 as [Hz [Hrun Hhb]]. destruct (submission_race _ _ _ _ H2 Hhb) as (Hs&Hl&Hc&_).
    split; [rewrite count_calls_app; unfold submit_limit; lia|]. right. exists proof.
    rewrite left_events_app, Hl, app_nil_r. split; [done|]. by apply submits_only_app; [apply no_submits|].
Qed.
End task_theorems.

(** ** With the prover service *)

(** The service answers [y]; the worker receives that over RPC, or only that the
    connection failed. *)
Definition over_rpc (y x : answer) : Prop :=
  x = map_err received y \/ exists e, made_by_client e = true /\ x = Err e.

Section with_store.
Context (to_vec : ProofData -> result bytes string) (from_slice : bytes -> result ProofData string).

(** A submission that the service accepts has stored the proof, or found the same
    proof stored under the same lock. *)
Lemma submit_proof_stores r t :
  runs (submit_proof to_vec from_slice r) t (Ok tt) ->
  (exists data now, to_vec (sp_proof (sb_proof r)) = Ok data /\
     ev (StoreProof (sp_id (sb_proof r)) (sb_worker_id r) (sb_lock_id r) data now : call StoreSig) (Ok true) ∈ t) \/
  (exists row data, ev (SelectRow (sp_id (sb_proof r)) : call StoreSig) (Ok (Some row)) ∈ t /\
     from_str (job_status row) = Ok JSucceeded /\ lock_id row = Some (sb_lock_id r) /\
     proof_data row = Some data /\ from_slice data = Ok (sp_proof (sb_proof r))).
Proof.
  unfold submit_proof. cbn [bind runs]. intros (now&t1&->&row&t2&->&Hr).
  destruct row as [[row|]|m]; [|by destruct Hr..]. destruct (submit_checks r now row) as [u|e]; [|by destruct Hr].
  destruct (to_vec _) as [data|m] eqn:Hd; [|by destruct Hr]. cbn [bind runs] in Hr.
  destruct Hr as (stored&t3&->&Hr). destruct stored as [[|]|m]; [| |by destruct Hr].
  - left. exists data, now. split; [done|]. do 2 right. by left.
  - cbn [bind runs] in Hr. destruct Hr as (row'&t4&->&Hr). destruct row' as [[row'|]|m]; [|by destruct Hr..].
    cbn [bind runs] in Hr. destruct Hr as (later&t5&->&->&Hdiag). right. exists row'.
    unfold submit_diagnosis in Hdiag. destruct (from_str (job_status row')) as [st|] eqn:Hst; [|done].
    cbn [map_err rbind] in Hdiag. destruct (_ && _) eqn:Hc.
    + apply andb_true_iff in Hc as [[Hs Hw]%andb_true_iff Hl]. apply bool_decide_eq_true in Hs, Hl. subst st.
      destruct (proof_data row') as [data'|]; [|done]. cbn [ok_or rbind] in Hdiag.
      destruct (from_slice data') as [p|] eqn:Hp; [|done]. cbn [map_err rbind] in Hdiag.
      case_bool_decide; [|done]. subst p. exists data'. split_and!; try done. do 3 right. by left.
    + destruct st; try done. by repeat (case_match; try done).
Qed.

Context {H : Sig} {E : Type} (handler : prog H (result ProofData E)).
Context (keccak256 : bytes -> B256) (worker_id : string) (locked : LockedProofRequest).
Context (retry_config : RetryConfig) (heartbeat_config : WorkerHeartbeatConfig).

(** Every submission in the trace is answered by a run of the service. *)
Definition served (tr : list (event (H ⊕ QueueSig))) : Prop :=
  forall r x, ev (inr (QSubmit r) : call (H ⊕ QueueSig)) x ∈ tr ->
    exists t y, runs (submit_proof to_vec from_slice r) t y /\ over_rpc y x.

End with_store.

(** *** The service, as the queue of a worker *)

(** A queue that asks the service, without losing an answer, on a database that
    answers every call. *)
Definition ask_service (to_vec : ProofData -> result bytes string)
    (from_slice : bytes -> result ProofData string) (cfg : ProverServiceConfig) :
    handler QueueSig (DB * Z) := fun c w =>
  match c return reply QueueSig c * (DB * Z) with
  | QSubmit r =>
      let p := submit_proof to_vec from_slice r in
      (map_err received (value_of (serve cfg) p w), world_of (serve cfg) p w)
  | QHeartbeat r =>
      let p := heartbeat cfg r in
      (map_err received (value_of (serve cfg) p w), world_of (serve cfg) p w)
  | QSleep ms => (tt, (w.1, w.2 + ms))
  | Backoff n => (tt, (w.1, w.2 + 1))
  end.

(** The calls to the queue in [tr] are answered in turn, from the world [w] on. *)
Fixpoint answered {H : Sig} {W} (h : handler QueueSig W) (w : W) (tr : list (event (H ⊕ QueueSig))) (w' : W) : Prop :=
  match tr with
  | [] => w = w'
  | existT c x :: tr =>
      match c return reply (H ⊕ QueueSig) c -> Prop with
      | inl _ => fun _ => answered h w tr w'
      | inr c => fun x => x = (h c w).1 /\ answered h (h c w).2 tr w'
      end x
  end.

Definition TickSig : Sig := MkSig unit (fun _ => unit).
Definition toy_handler : prog TickSig (result ProofData string) :=
  Call (tt : call TickSig) (fun _ => Ret (Ok toy_proof)).
Definition toy_locked : LockedProofRequest := {| lk_request := toy_request; lk_lock_id := 1 |}.
Definition toy_heartbeat : WorkerHeartbeatConfig := {| hb_interval := 3; max_consecutive_failures := 2 |}.
Abbreviation toy_task := (job_task toy_handler toy_hash "w" toy_locked retry_default toy_heartbeat).
Abbreviation toy_submit x :=
  (ev (inr (QSubmit (submit_request toy_hash "w" toy_locked toy_proof)) : call (TickSig ⊕ QueueSig)) x).
Abbreviation toy_tick := (ev (inl tt : call (TickSig ⊕ QueueSig)) tt).

Definition toy_success : list (event (TickSig ⊕ QueueSig)) := [toy_tick; toy_submit (Ok tt)].

Lemma toy_success_task : toy_task toy_success Success.
Proof.
  apply (task_submitted toy_handler toy_hash "w" toy_locked retry_default toy_heartbeat 0
    [toy_tick] toy_proof (Ret None) [toy_submit (Ok tt)] (Ok tt) (Ret None) []).
  - apply race_call_left, race_left.
  - apply race_call_left, race_left.
  - by left.
Qed.

Lemma toy_success_served : served toy_to_vec toy_from_slice toy_success.
Proof.
  intros r x Hin. unfold toy_success in Hin. rewrite !elem_of_cons, elem_of_nil in Hin.
  destruct Hin as [Heq|[Heq|[]]]; [by injection Heq|].
  apply (f_equal (fun e : event (TickSig ⊕ QueueSig) =>
    match e with existT (inr (QSubmit r)) x => Some (r, x : answer) | _ => None end)) in Heq.
  injection Heq as -> ->.
  exists (trace_of (serve toy_cfg) (submit_proof toy_to_vec toy_from_slice
    (submit_request toy_hash "w" toy_locked toy_proof)) (toy_db locked_row, 50)), (Ok tt).
  split; [|by left].
  pose proof (interp_runs (serve toy_cfg) (submit_proof toy_to_vec toy_from_slice
    (submit_request toy_hash "w" toy_locked toy_proof)) (toy_db locked_row, 50)) as Hr.
  exact Hr.
Qed.

Lemma job_task_sound_witness :
  (count_calls is_submit toy_success <= submit_limit retry_default)%nat /\
  exists proof, submitted toy_handler toy_hash "w" toy_locked proof (Ok tt) toy_success.
Proof.
  exact (job_task_sound toy_handler toy_hash "w" toy_locked retry_default toy_heartbeat
    toy_success Success toy_success_task).
Defined.


(** *** A submission whose answer is lost *)

Definition toy_lost : list (event (TickSig ⊕ QueueSig)) :=
  [toy_tick; toy_submit (Ok tt);
   ev (inr (QSleep 3) : call (TickSig ⊕ QueueSig)) tt;
   ev (inr (QHeartbeat (heartbeat_request toy_hash "w" toy_locked)) : call (TickSig ⊕ QueueSig))
     (Err (AlreadyTerminal toy_id));
   toy_submit (Err (AlreadyTerminal toy_id))].

(** The proof is stored, the heartbeat sees the finished job before the answer
    to the submission arrives, and the task submits once more, expecting the operation
    to be idempotent.  The service rejects the second submission: the task
    reports a failed submission of a proof that is stored. *)
Theorem resubmission_is_rejected :
  toy_task toy_lost (SubmissionError (AlreadyTerminal toy_id)) /\
  exists clock, answered (ask_service toy_to_vec toy_from_slice toy_cfg) (toy_db locked_row, 50) toy_lost
    (toy_db (succeeded [1; 1; 2; 5; 6; 7; 8] 50 locked_row), clock) /\
  value_of (serve toy_cfg) (get_proof toy_from_slice toy_id)
    (toy_db (succeeded [1; 1; 2; 5; 6; 7; 8] 50 locked_row), clock) = Ok (ResponseSucceeded toy_id toy_proof).
Proof.
  split.
  - apply (task_resubmitted toy_handler toy_hash "w" toy_locked retry_default toy_heartbeat 1
      [toy_tick] toy_proof (beat toy_hash "w" toy_locked toy_heartbeat 1) (take 3 (drop 1 toy_lost))
      (AlreadyTerminal toy_id) [toy_submit (Err (AlreadyTerminal toy_id))] (Err (AlreadyTerminal toy_id))).
    + apply race_call_left, race_left.
    + apply race_lost. do 2 (eexists; eexists; split; [reflexivity|]). done.
    + done.
    + eexists; eexists; split; [reflexivity|]. done.
  - eexists. split; [|reflexivity].
    cbn [toy_lost answered]. repeat (split; [vm_compute; reflexivity|]). vm_compute. reflexivity.
Qed.

(** ** The loop of a worker *)

(** Where the loop is: at its head, waiting for [ready_to_claim], for a permit, for
    the answer to a claim (holding a permit), in [sleep_or_cancel], or past the loop. *)
Inductive Place := AtHead | Readiness | Acquiring | Claiming | Sleeping | Stopped.
#[export] Instance place_eq_dec : EqDecision Place.
Proof. solve_decision. Defined.

(** [permits] are the free permits of the semaphore, [running] the tasks of the
    join set that have not finished, [joinable] the finished ones that it still holds. *)
Record Loop := {
  place : Place; permits : nat; running : list LockedProofRequest; joinable : nat; cancelled : bool
}.

Definition set_place (p : Place) (s : Loop) : Loop :=
  {| place := p; permits := permits s; running := running s; joinable := joinable s; cancelled := cancelled s |}.
Definition set_permits (n : nat) (s : Loop) : Loop :=
  {| place := place s; permits := n; running := running s; joinable := joinable s; cancelled := cancelled s |}.
Definition reap (s : Loop) : Loop :=
  {| place := place s; permits := permits s; running := running s; joinable := 0; cancelled := cancelled s |}.
Definition release (s : Loop) : Loop := set_permits (S (permits s)) s.

(** The code after the loop: the tasks are aborted, which frees their permits. *)
Definition stop (s : Loop) : Loop :=
  {| place := Stopped; permits := permits s + length (running s); running := []; joinable := 0;
     cancelled := cancelled s |}.

(** [spawn_job]: the task takes the permit that the loop held. *)
Definition spawn_job (l : LockedProofRequest) (s : Loop) : Loop :=
  {| place := AtHead; permits := permits s; running := l :: running s; joinable := joinable s;
     cancelled := cancelled s |}.

Definition claim_answer : Type := result (option LockedProofRequest) ProofJobQueueError.

Inductive loop_event :=
| ECancel | EHead | EReady (b : bool) | EPermit | EClaim (r : GetNextProofRequest) (x : claim_answer)
| ESleep | EBreak | EEnd (l : LockedProofRequest).

Section loop.
Context (lane : ProofBackend) (name : string) (verifier : B256) (vkey_commitment : option B256).
Context (max_concurrent_jobs : nat).

Definition claim_request : GetNextProofRequest :=
  {| gn_backend := lane; gn_worker_id := name; gn_verifier_id := verifier;
     gn_range_vkey_commitment := vkey_commitment |}.

Definition worker_init : Loop :=
  {| place := AtHead; permits := Nat.max max_concurrent_jobs 1; running := []; joinable := 0;
     cancelled := false |}.

Inductive worker_step (s : Loop) : loop_event -> Loop -> Prop :=
| step_cancel : worker_step s ECancel
    {| place := place s; permits := permits s; running := running s; joinable := joinable s; cancelled := true |}
| step_head : place s = AtHead -> cancelled s = false -> worker_step s EHead (set_place Readiness (reap s))
| step_head_break : place s = AtHead -> cancelled s = true -> worker_step s EBreak (stop s)
| step_ready b : place s = Readiness ->
    worker_step s (EReady b) (set_place (if b then Acquiring else Sleeping) s)
| step_permit n : place s = Acquiring -> cancelled s = false -> permits s = S n ->
    worker_step s EPermit (set_place Claiming (set_permits n s))
| step_permit_break : place s = Acquiring -> cancelled s = true -> worker_step s EBreak (stop s)
| step_claimed l : place s = Claiming -> cancelled s = false ->
    worker_step s (EClaim claim_request (Ok (Some l))) (spawn_job l s)
| step_no_work : place s = Claiming -> cancelled s = false ->
    worker_step s (EClaim claim_request (Ok None)) (set_place Sleeping (release s))
| step_claim_failed e : place s = Claiming -> cancelled s = false ->
    worker_step s (EClaim claim_request (Err e)) (set_place Sleeping (release s))
| step_claim_break : place s = Claiming -> cancelled s = true -> worker_step s EBreak (stop (release s))
| step_sleep : place s = Sleeping -> cancelled s = false -> worker_step s ESleep (set_place AtHead s)
| step_sleep_break : place s = Sleeping -> cancelled s = true -> worker_step s EBreak (stop s)
| step_end a l b : running s = a ++ l :: b ->
    worker_step s (EEnd l) {| place := place s; permits := S (permits s); running := a ++ b;
      joinable := S (joinable s); cancelled := cancelled s |}.

Inductive worker_steps (s : Loop) : list loop_event -> Loop -> Prop :=
| worker_here : worker_steps s [] s
| worker_snoc tr s1 e s2 : worker_steps s tr s1 -> worker_step s1 e s2 -> worker_steps s (tr ++ [e]) s2.

(** The jobs that the service handed out, and the jobs that ended, in a trace. *)
Definition handed_out (tr : list loop_event) : list LockedProofRequest :=
  omap (fun e => match e with EClaim _ (Ok (Some l)) => Some l | _ => None end) tr.
Definition ended_jobs (tr : list loop_event) : list LockedProofRequest :=
  omap (fun e => match e with EEnd l => Some l | _ => None end) tr.
Definition claims (tr : list loop_event) : list GetNextProofRequest :=
  omap (fun e => match e with EClaim r _ => Some r | _ => None end) tr.

(** The permit that the loop itself holds. *)
Definition held (s : Loop) : nat := match place s with Claiming => 1 | _ => 0 end.

Definition conserved (s : Loop) : Prop :=
  (permits s + held s + length (running s))%nat = Nat.max max_concurrent_jobs 1 /\
  (place s = Stopped -> running s = [] /\ cancelled s = true).

Lemma conserved_step s e s' : worker_step s e s' -> conserved s -> conserved s'.
Proof.
  intros Hstep [Hsum Hst]. unfold conserved, held in *.
  destruct Hstep as [|Hp|Hp|b Hp|n Hp Hc Hn|Hp|l Hp|Hp|e Hp|Hp|Hp|Hp|a l b Hr]; try rewrite Hp in Hsum; simpl;
    try (split; [try rewrite Hp; simpl; lia|intros ?; first [congruence|by split]]).
  - split; [lia|]. intros ?%Hst. naive_solver.
  - destruct b; (split; [simpl; lia|done]).
  - rewrite Hr, length_app in Hsum. simpl in Hsum. rewrite length_app. split; [lia|].
    intros [Hnil _]%Hst. rewrite Hr in Hnil. by apply app_nil in Hnil as [_ ?].
Qed.

Lemma conserved_init : conserved worker_init.
Proof. split; [cbn [worker_init held permits place running length]; lia|done]. Qed.

Lemma conserved_steps s tr s' : worker_steps s tr s' -> conserved s -> conserved s'.
Proof. induction 1; eauto using conserved_step. Qed.

Lemma handed_out_step s e s' :
  worker_step s e s' ->
  running s ++ handed_out [e] ≡ₚ running s' ++ ended_jobs [e] \/ (place s' = Stopped /\ handed_out [e] = []).
Proof.
  destruct 1 as [| | | | | | | | | | | |a l b Hr]; cbn; rewrite ?app_nil_r; try (by left); try (by right).
  - left. by rewrite Permutation_app_comm.
  - left. rewrite Hr, <-app_assoc. by rewrite (Permutation_app_comm b).
Qed.

Lemma stopped_step s e s' : worker_step s e s' -> place s = Stopped ->
  place s' = Stopped /\ handed_out [e] = [] /\ claims [e] = [].
Proof. destruct 1; simpl in *; try congruence; done. Qed.

(** C37: At any time the worker runs at most as many jobs as configured (one if that
    is zero), and one fewer while a claim is under way, so that a claimed job can
    always start.  Every claim asks for the worker's lane with the backend's
    verifier.  Until the worker stops, the jobs that the service handed out are exactly
    those that ended and those that run. *)
Theorem worker_loop_accounts tr s :
  worker_steps worker_init tr s ->
  (length (running s) <= Nat.max max_concurrent_jobs 1)%nat /\
  (place s = Claiming -> (length (running s) < Nat.max max_concurrent_jobs 1)%nat) /\
  Forall (fun r => r = claim_request) (claims tr) /\
  if decide (place s = Stopped) then running s = [] /\ cancelled s = true
  else handed_out tr ≡ₚ running s ++ ended_jobs tr.
Proof.
  intros Hrun. destruct (conserved_steps _ _ _ Hrun conserved_init) as [Hsum Hst]. unfold held in Hsum.
  split; [lia|]. split; [intros Hp; rewrite Hp in Hsum; lia|]. split.
  - clear Hsum Hst. induction Hrun as [|tr s1 e s2 _ IH Hstep]; [constructor|].
    unfold claims. rewrite omap_app. apply Forall_app_2; [exact IH|].
    destruct Hstep; repeat constructor.
  - destruct (decide _) as [Hp|Hp]; [auto|]. clear Hsum Hst.
    induction Hrun as [|tr s1 e s2 _ IH Hstep]; [done|].
    unfold handed_out, ended_jobs. rewrite !omap_app. fold (handed_out tr) (ended_jobs tr).
    destruct (decide (place s1 = Stopped)) as [H1|H1]; [by destruct (stopped_step _ _ _ Hstep H1)|].
    destruct (handed_out_step _ _ _ Hstep) as [Hperm|[? _]]; [|done]. unfold handed_out, ended_jobs in Hperm.
    rewrite (IH H1), <-app_assoc, (Permutation_app_comm (ended_jobs tr)), app_assoc, Hperm, <-app_assoc.
    by rewrite (Permutation_app_comm (omap _ [e])).
Qed.

(** Steps of the loop itself, as opposed to the cancellation and the ends of tasks. *)
Definition own (e : loop_event) : bool := match e with ECancel | EEnd _ => false | _ => true end.

(** The steps of the loop from each place to its end, once it is cancelled. *)
Definition to_stop (p : Place) : nat := match p with Stopped => 0 | Readiness => 2 | _ => 1 end.

Lemma cancelled_step s e s' : worker_step s e s' -> cancelled s = true ->
  cancelled s' = true /\ claims [e] = [] /\
  (to_stop (place s') + (if own e then 1 else 0) <= to_stop (place s))%nat.
Proof.
  destruct 1 as [|Hp|Hp|b Hp|n Hp Hc Hn|Hp|l Hp|Hp|e Hp|Hp|Hp|Hp|a l b Hr]; simpl; try congruence; intros Hcan;
    try rewrite Hp; simpl; split_and!; try done; try lia.
  destruct b; simpl; lia.
Qed.

(** Once it is cancelled the worker claims nothing more.  Its loop is over after at
    most two more of its own steps, of which one is always possible until it is over,
    and when it is over no task runs. *)
Theorem cancelled_worker_stops tr s tr' s' :
  worker_steps worker_init tr s -> cancelled s = true -> worker_steps s tr' s' ->
  claims tr' = [] /\ (length (filter (fun e => own e = true) tr') <= 2)%nat /\
  (length (filter (fun e => own e = true) tr') = 2%nat -> place s' = Stopped) /\
  if decide (place s' = Stopped) then running s' = []
  else exists e s2, worker_step s' e s2 /\ own e = true.
Proof.
  intros Hrun Hcan Hrun'.
  assert (cancelled s' = true /\ claims tr' = [] /\
    (to_stop (place s') + length (filter (fun e => own e = true) tr') <= to_stop (place s))%nat) as (Hc&Hcl&Hle).
  { clear Hrun. induction Hrun' as [|tr' s1 e s2 _ IH Hstep]; [split_and!; [done|done|simpl; lia]|].
    destruct IH as (Hc1&Hcl&Hle). destruct (cancelled_step _ _ _ Hstep Hc1) as (Hc2&Hcl2&Hle2).
    split_and!; [done|unfold claims in *; by rewrite omap_app, Hcl|].
    rewrite filter_app, length_app. rewrite filter_cons. destruct (own e); simpl in *; lia. }
  assert (to_stop (place s) <= 2)%nat as H2 by (destruct (place s); simpl; lia).
  split_and!; [done|lia|intros Hl; destruct (place s'); simpl in Hle; (done || lia)|].
  destruct (decide _) as [Hp|Hp].
  - pose proof (conserved_steps _ _ _ Hrun conserved_init) as Hi.
    by destruct (conserved_steps _ _ _ Hrun' Hi) as [_ [? _]].
  - destruct (place s') eqn:Hp'; [| | | | |done].
    + eexists EBreak, _. split; [by apply step_head_break|done].
    + eexists (EReady true), _. split; [by apply step_ready|done].
    + eexists EBreak, _. split; [by apply step_permit_break|done].
    + eexists EBreak, _. split; [by apply step_claim_break|done].
    + eexists EBreak, _. split; [by apply step_sleep_break|done].
Qed.

(** A worker that is not cancelled is never stuck: its loop can go on, except while
    it waits for a permit, and then a task runs whose end frees one. *)
Theorem worker_never_stuck tr s :
  worker_steps worker_init tr s -> cancelled s = false ->
  (exists e s', worker_step s e s' /\ own e = true) \/
  (place s = Acquiring /\ exists l s1 s2, worker_step s (EEnd l) s1 /\ worker_step s1 EPermit s2).
Proof.
  intros Hrun Hc. destruct (conserved_steps _ _ _ Hrun conserved_init) as [Hsum Hst]. unfold held in Hsum.
  destruct (place s) eqn:Hp.
  - left. eexists EHead, _. split; [by apply step_head|done].
  - left. eexists (EReady true), _. split; [by apply step_ready|done].
  - destruct (permits s) as [|n] eqn:Hn; [right|left; eexists EPermit, _; split; [by eapply step_permit|done]].
    split; [done|]. destruct (running s) as [|l rest] eqn:Hr; [simpl in Hsum; lia|].
    exists l. eexists _, _. split; [by apply (step_end _ [] l rest)|]. eapply step_permit; simpl; done.
  - left. eexists (EClaim claim_request (Ok None)), _. split; [by apply step_no_work|done].
  - left. eexists ESleep, _. split; [by apply step_sleep|done].
  - destruct Hst as [_ ?]; [done|congruence].
Qed.
End loop.

Lemma worker_steps_cons lane name v k s e s1 tr s2 :
  worker_step lane name v k s e s1 -> worker_steps lane name v k s1 tr s2 ->
  worker_steps lane name v k s (e :: tr) s2.
Proof.
  intros Hstep. induction 1 as [|tr s2 e' s3 _ IH Hstep'].
  - apply (worker_snoc _ _ _ _ s [] s); [constructor|exact Hstep].
  - apply (worker_snoc _ _ _ _ s (e :: tr) s2); [exact IH|exact Hstep'].
Qed.

Abbreviation toy_steps := (worker_steps Nitro "w" 7 None).

Definition busy_trace : list loop_event :=
  [EHead; EReady true; EPermit; EClaim (claim_request Nitro "w" 7 None) (Ok (Some toy_locked)); EHead; EReady true].
Definition busy_loop (c : bool) : Loop :=
  {| place := Acquiring; permits := 0; running := [toy_locked]; joinable := 0; cancelled := c |}.

Lemma busy_runs : toy_steps (worker_init 0) busy_trace (busy_loop false).
Proof.
  eapply worker_steps_cons; [by apply step_head|]. eapply worker_steps_cons; [by apply step_ready|].
  eapply worker_steps_cons; [by apply (step_permit _ _ _ _ _ 0)|].
  eapply worker_steps_cons; [by apply step_claimed|]. eapply worker_steps_cons; [by apply step_head|].
  eapply worker_steps_cons; [by apply step_ready|]. constructor.
Qed.

Lemma busy_cancelled : toy_steps (worker_init 0) (busy_trace ++ [ECancel]) (busy_loop true).
Proof. eapply worker_snoc; [apply busy_runs|]. apply step_cancel. Qed.

Lemma worker_loop_accounts_witness :
  (length (running (busy_loop false)) <= 1)%nat /\ handed_out busy_trace ≡ₚ [toy_locked].
Proof.
  destruct (worker_loop_accounts Nitro "w" 7 None 0 busy_trace (busy_loop false) busy_runs) as (Hle&_&_&Hperm).
  split; [exact Hle|exact Hperm].
Defined.

Lemma cancelled_worker_stops_witness : claims [EBreak] = [] /\ running (stop (busy_loop true)) = [].
Proof.
  destruct (cancelled_worker_stops Nitro "w" 7 None 0 (busy_trace ++ [ECancel]) (busy_loop true)
    [EBreak] (stop (busy_loop true)) busy_cancelled eq_refl) as (Hc&_&_&Hr).
  - eapply worker_steps_cons; [by apply step_permit_break|constructor].
  - split; [exact Hc|exact Hr].
Defined.

Lemma worker_never_stuck_witness :
  (exists e s', worker_step Nitro "w" 7 None (busy_loop false) e s' /\ own e = true) \/
  (place (busy_loop false) = Acquiring /\
   exists l s1 s2, worker_step Nitro "w" 7 None (busy_loop false) (EEnd l) s1 /\
     worker_step Nitro "w" 7 None s1 EPermit s2).
Proof.
  exact (worker_never_stuck Nitro "w" 7 None 0 busy_trace (busy_loop false) busy_runs eq_refl).
Defined.
