(* ===== verification/NitroWire.v ===== *)
(** * Frames between host and enclave
    ([src/proofs/measured/nitro-enclave/src/protocol.rs])

    A message on the vsock is its length, eight bytes in big-endian order, and its
    CBOR encoding, written in pieces of at most 28 KiB.  The codec is CBOR's
    ([ciborium]); the transport answers the reads and writes. *)

From S2P Require Import Prelude Program Race Encoding Aggregation.

Definition PROTOCOL_VERSION : Z := 1.
Definition DEFAULT_VSOCK_PORT : Z := 5005.
Definition MAX_FRAME_BYTES : Z := 2 * 1024 * 1024 * 1024.
Definition MAX_WRITE_BYTES : Z := 28 * 1024.

Inductive EnclaveRequest :=
| RangeRequest (version : Z) (witness_rkyv : bytes)
    (expected_transition_public_values : option TransitionPublicValues) (nonce : bytes)
| PublicKeyRequest (nonce : bytes)
| GetAttestation.

Inductive EnclaveResponse :=
| RangeResponse (transition_public_values : TransitionPublicValues) (attestation_doc signature : bytes)
| AttestationResponse (attestation_doc public_key : bytes)
| BareAttestation (attestation_doc : bytes)
| ErrorResponse (message : string).

Inductive FrameError :=
| FrameIo (m : string)
| FrameEncode (m : string)
| FrameDecode (m : string)
| FrameTooLarge (len limit : Z)
| LengthOverflow (len : Z)
| UnsupportedLength (len : Z)
| Allocation (len : Z) (m : string).

(** [serde] and [ciborium]: an encoder, a decoder, and that the decoder inverts it. *)
Class Cbor (T : Type) := {
  cbor_encode : T -> result bytes string;
  cbor_decode : bytes -> result T string;
  cbor_decode_encode v b : cbor_encode v = Ok b -> cbor_decode b = Ok v
}.

(** ** The transport *)

Inductive io_call := WriteAll (b : bytes) | Flush | ReadExact (n : Z) | TryReserve (n : Z).

Definition IoSig : Sig := MkSig io_call (fun c =>
  match c with
  | ReadExact _ => result bytes string
  | _ => result unit string
  end).

Abbreviation io c := (Call (c : call IoSig) (fun r => Ret (map_err FrameIo r))).

(** [slice::chunks] *)
Fixpoint chunks_from (fuel n : nat) (l : bytes) : list bytes :=
  match fuel, l with
  | S fuel, _ :: _ => take n l :: chunks_from fuel n (drop n l)
  | _, _ => []
  end.
Definition chunks (n : nat) (l : bytes) : list bytes := chunks_from (length l) n l.

Fixpoint write_chunks (l : list bytes) : prog IoSig (result unit FrameError) :=
  match l with
  | [] => Ret (Ok tt)
  | c :: l => do? _u <- io (WriteAll c); write_chunks l
  end.

Definition usize (n : Z) : bool := n <? 2 ^ 64.

Definition write_frame {T} `{!Cbor T} (value : T) : prog IoSig (result unit FrameError) :=
  match cbor_encode value with
  | Err m => Ret (Err (FrameEncode m))
  | Ok buf =>
      let len := Z.of_nat (length buf) in
      if MAX_FRAME_BYTES <? len then Ret (Err (FrameTooLarge len MAX_FRAME_BYTES))
      else if negb (usize len) then Ret (Err (LengthOverflow len))
      else
        do? _u <- io (WriteAll (be_bytes 8 len));
        do? _u <- write_chunks (chunks (Z.to_nat MAX_WRITE_BYTES) buf);
        do? _u <- io Flush;
        Ret (Ok tt)
  end.

Definition read_frame {T} `{!Cbor T} : prog IoSig (result T FrameError) :=
  do? len_bytes <- io (ReadExact 8);
  let wire_len := be_val len_bytes in
  if MAX_FRAME_BYTES <? wire_len then Ret (Err (FrameTooLarge wire_len MAX_FRAME_BYTES))
  else if negb (usize wire_len) then Ret (Err (UnsupportedLength wire_len))
  else
    do? _u <- Call (TryReserve wire_len : call IoSig) (fun r => Ret (map_err (Allocation wire_len) r));
    do? buf <- io (ReadExact wire_len);
    Ret (map_err FrameDecode (cbor_decode buf)).

(** ** A byte stream *)

(** What was written and not yet read; a read past the end fails. *)
Definition stream : handler IoSig bytes := fun c p =>
  match c return reply IoSig c * bytes with
  | WriteAll b => (Ok tt, p ++ b)
  | Flush | TryReserve _ => (Ok tt, p)
  | ReadExact n =>
      if Z.of_nat (length p) <? n then (Err "unexpected end of file", [])
      else (Ok (take (Z.to_nat n) p), drop (Z.to_nat n) p)
  end.

(** The frame of an encoded value. *)
Definition frame (b : bytes) : bytes := be_bytes 8 (Z.of_nat (length b)) ++ b.

Lemma chunks_from_spec fuel n l :
  (0 < n)%nat -> (length l <= fuel)%nat ->
  concat (chunks_from fuel n l) = l /\ Forall (fun c => (0 < length c <= n)%nat) (chunks_from fuel n l).
Proof.
  intros Hn. revert l. induction fuel as [|fuel IH]; intros [|b l] Hl; simpl in Hl; [done|lia|done|].
  cbn [chunks_from concat]. destruct (IH (drop n (b :: l))) as [Hc Hf].
  { rewrite length_drop. simpl. lia. }
  rewrite Hc, take_drop. split; [done|]. constructor; [|done]. rewrite length_take. simpl. lia.
Qed.

Lemma chunks_spec n l : (0 < n)%nat ->
  concat (chunks n l) = l /\ Forall (fun c => (0 < length c <= n)%nat) (chunks n l).
Proof. intros. by apply chunks_from_spec. Qed.

Lemma write_chunks_stream l p : interp stream (write_chunks l) p =
  ((fun c => ev (WriteAll c : call IoSig) (Ok tt)) <$> l, Ok tt, p ++ concat l).
Proof.
  revert p. induction l as [|c l IH]; intros p; simpl; [by rewrite app_nil_r|].
  rewrite IH. cbn. by rewrite app_assoc.
Qed.

Section frames.
Context {T : Type} `{!Cbor T}.

Lemma frame_length_read b rest :
  Z.of_nat (length b) <= MAX_FRAME_BYTES -> be_val (take 8 (frame b ++ rest)) = Z.of_nat (length b).
Proof.
  intros Hb. unfold frame. rewrite <-app_assoc, take_app_length' by (by rewrite be_bytes_length).
  rewrite be_val_bytes. apply Z.mod_small. unfold MAX_FRAME_BYTES in Hb. simpl. lia.
Qed.

Lemma read_frame_stream b rest :
  Z.of_nat (length b) <= MAX_FRAME_BYTES ->
  (value_of stream (read_frame (T := T)) (frame b ++ rest), world_of stream (read_frame (T := T)) (frame b ++ rest)) =
  (map_err FrameDecode (cbor_decode b), rest).
Proof.
  intros Hb. pose proof (frame_length_read b rest Hb) as Hlen.
  assert (drop 8 (frame b ++ rest) = b ++ rest) as Hdrop.
  { unfold frame. rewrite <-app_assoc. apply drop_app_length'. by rewrite be_bytes_length. }
  unfold value_of, world_of, read_frame. cbn [bind_try bind interp stream].
  replace (Z.of_nat (length (frame b ++ rest)) <? 8) with false by
    (symmetry; apply Z.ltb_ge; unfold frame; rewrite !length_app, be_bytes_length; lia).
  change (Z.to_nat 8) with 8%nat. cbn [map_err bind]. rewrite Hlen, Hdrop.
  replace (MAX_FRAME_BYTES <? _) with false by (symmetry; apply Z.ltb_ge; lia).
  replace (usize _) with true by (symmetry; apply Z.ltb_lt; unfold MAX_FRAME_BYTES in Hb; lia).
  cbn [negb interp bind stream map_err].
  replace (Z.of_nat (length (b ++ rest)) <? _) with false by (symmetry; apply Z.ltb_ge; rewrite length_app; lia).
  cbn [bind map_err interp fst snd]. by rewrite Nat2Z.id, take_app_length, drop_app_length.
Qed.

Lemma write_frame_stream (v : T) b p :
  cbor_encode v = Ok b -> Z.of_nat (length b) <= MAX_FRAME_BYTES ->
  value_of stream (write_frame v) p = Ok tt /\ world_of stream (write_frame v) p = p ++ frame b /\
  Forall (fun e => match projT1 e with WriteAll w => Z.of_nat (length w) <= MAX_WRITE_BYTES | _ => True end)
    (trace_of stream (write_frame v) p).
Proof.
  intros Hv Hb. unfold write_frame. rewrite Hv.
  replace (MAX_FRAME_BYTES <? _) with false by (symmetry; apply Z.ltb_ge; lia).
  replace (usize _) with true by (symmetry; apply Z.ltb_lt; unfold MAX_FRAME_BYTES in Hb; lia).
  destruct (chunks_spec (Z.to_nat MAX_WRITE_BYTES) b) as [Hc Hf]; [unfold MAX_WRITE_BYTES; lia|].
  unfold value_of, world_of, trace_of. cbn [negb bind_try bind interp stream map_err].
  unfold bind_try. rewrite interp_bind, write_chunks_stream, Hc. cbn [bind interp stream map_err fst snd].
  split_and!; [done|unfold frame; by rewrite app_assoc|].
  constructor; [by cbn [ev projT1]; rewrite be_bytes_length|].
  apply Forall_app_2; [|by repeat constructor]. apply Forall_fmap. eapply Forall_impl; [exact Hf|].
  intros c [_ Hle]. cbn. assert (0 <= MAX_WRITE_BYTES) by done. lia.
Qed.

(** A value that fits is written as one frame, behind what is in the stream, in
    pieces of at most 28 KiB, and reading the frame gives the value back and leaves
    what follows it.  Of a value that cannot be encoded or is too large, nothing is
    written. *)
Theorem frame_roundtrip (v : T) p :
  match cbor_encode v with
  | Err m => interp stream (write_frame v) p = ([], Err (FrameEncode m), p)
  | Ok b =>
      let len := Z.of_nat (length b) in
      if MAX_FRAME_BYTES <? len
      then interp stream (write_frame v) p = ([], Err (FrameTooLarge len MAX_FRAME_BYTES), p)
      else
        value_of stream (write_frame v) p = Ok tt /\
        world_of stream (write_frame v) p = p ++ frame b /\
        Forall (fun e => match projT1 e with WriteAll w => Z.of_nat (length w) <= MAX_WRITE_BYTES | _ => True end)
          (trace_of stream (write_frame v) p) /\
        forall rest, (value_of stream read_frame (frame b ++ rest), world_of stream (read_frame (T := T)) (frame b ++ rest)) =
          (Ok v, rest)
  end.
Proof.
  destruct (cbor_encode v) as [b|m] eqn:Hv; [|unfold write_frame; by rewrite Hv]. cbv zeta.
  destruct (Z.ltb_spec MAX_FRAME_BYTES (Z.of_nat (length b))) as [Hlt|Hb].
  { unfold write_frame. rewrite Hv. cbv zeta. apply Z.ltb_lt in Hlt. by rewrite Hlt. }
  destruct (write_frame_stream v b p Hv Hb) as (Hval&Hw&Hf). split_and!; try done.
  intros rest. rewrite (read_frame_stream b rest Hb). by rewrite (cbor_decode_encode v b Hv).
Qed.

Lemma write_frame_only (v : T) :
  only (fun c : call IoSig => match c with WriteAll _ | Flush => True | _ => False end) (write_frame v).
Proof.
  unfold write_frame. destruct (cbor_encode v) as [b|m]; [|done]. cbv zeta.
  destruct (_ <? _); [done|]. destruct (usize _); [|done]. cbn [negb bind_try bind only]. split; [done|].
  intros [u|m]; [|done]. cbn [map_err bind]. unfold bind_try. apply only_bind.
  - induction (chunks _ b) as [|c l IH]; [done|]. cbn [write_chunks bind_try bind only]. split; [done|].
    intros [u'|m]; [exact IH|done].
  - intros [u'|m]; [|done]. split; [done|]. by intros [|].
Qed.

Lemma read_frame_only :
  only (fun c : call IoSig => match c with ReadExact _ | TryReserve _ => True | _ => False end) (read_frame (T := T)).
Proof.
  unfold read_frame. cbn [bind_try bind only]. split; [done|]. intros [len|m]; [|done]. cbn [map_err bind]. cbv zeta.
  destruct (_ <? _); [done|]. destruct (usize _); [|done]. cbn [negb bind only]. split; [done|].
  intros [u|m]; [|done]. split; [done|]. by intros [|].
Qed.

(** Whatever the peer sends, a reader asks for at most 2 GiB at once, and returns a
    value only if it is the decoding of as many bytes as the prefix announced. *)
Theorem read_frame_bounded tr (out : result T FrameError) :
  runs read_frame tr out ->
  Forall (fun e => match projT1 e with
                   | ReadExact n | TryReserve n => n <= MAX_FRAME_BYTES
                   | _ => False
                   end) tr /\
  match out with
  | Ok v => exists prefix b, tr = [ev (ReadExact 8 : call IoSig) (Ok prefix);
      ev (TryReserve (be_val prefix) : call IoSig) (Ok tt); ev (ReadExact (be_val prefix) : call IoSig) (Ok b)] /\
      cbor_decode b = Ok v
  | Err (FrameTooLarge len limit) => exists prefix, be_val prefix = len /\ MAX_FRAME_BYTES < len /\
      limit = MAX_FRAME_BYTES /\ tr = [ev (ReadExact 8 : call IoSig) (Ok prefix)]
  | Err (FrameIo _ | FrameDecode _ | Allocation _ _ | UnsupportedLength _) => True
  | Err _ => False
  end.
Proof.
  assert (8 <= MAX_FRAME_BYTES) as H8 by done.
  unfold read_frame. cbn [bind_try bind runs]. intros (len&t1&->&Hr).
  destruct len as [prefix|m]; cbn [map_err bind runs] in Hr; [|destruct Hr as [-> ->]; by repeat constructor].
  destruct (Z.ltb_spec MAX_FRAME_BYTES (be_val prefix)) as [Hlt|Hle].
  { destruct Hr as [-> ->]. split; [by repeat constructor|]. by exists prefix. }
  destruct (usize _); cbn [negb bind runs] in Hr; [|destruct Hr as [-> ->]; by repeat constructor].
  destruct Hr as (u&t2&->&Hr). destruct u as [[]|m]; cbn [map_err bind runs] in Hr;
    [|destruct Hr as [-> ->]; by repeat constructor].
  destruct Hr as (b&t3&->&Hr). destruct b as [b|m]; cbn [map_err bind runs] in Hr; destruct Hr as [-> ->];
    (split; [by repeat constructor|]); [|done].
  destruct (cbor_decode b) as [v|m] eqn:Hd; [|done]. by exists prefix, b.
Qed.
End frames.

(** A codec for byte strings, and a frame of two bytes. *)
#[local] Instance cbor_bytes : Cbor bytes.
Proof. refine {| cbor_encode b := Ok b; cbor_decode b := Ok b |}. by intros v b [= ->]. Defined.

Lemma read_frame_bounded_witness :
  let tr := trace_of stream (read_frame (T := bytes)) [0; 0; 0; 0; 0; 0; 0; 2; 7; 8; 9] in
  exists prefix b, tr = [ev (ReadExact 8 : call IoSig) (Ok prefix);
      ev (TryReserve (be_val prefix) : call IoSig) (Ok tt); ev (ReadExact (be_val prefix) : call IoSig) (Ok b)] /\
    cbor_decode b = Ok [7; 8].
Proof.
  intros tr. destruct (read_frame_bounded (T := bytes) tr (Ok [7; 8])) as [_ H].
  - exact (interp_runs stream (read_frame (T := bytes)) [0; 0; 0; 0; 0; 0; 0; 2; 7; 8; 9]).
  - exact H.
Defined.
