(* ===== verification/Attestation.v ===== *)
(** * Attestation documents of Nitro enclaves
    ([src/proofs/measured/nitro-enclave/src]: [cose.rs], [attestation.rs], [lib.rs])

    An attestation document is a COSE_Sign1 envelope around a CBOR payload: the
    enclave's measurements (PCRs), user data, a nonce, a public key, the leaf
    certificate and the chain to the AWS root.  The decoders of COSE, CBOR and X.509,
    the path validation of [webpki] and the P-384 arithmetic are the record [Crypto];
    the checks that the crate makes with them are the definitions.  [genuine] says
    what they establish. *)

From stdpp Require Import pretty.
From S2P Require Import Prelude Encoding.

(** ** Measurements ([lib.rs]) *)

Definition PCR_LEN : nat := 48.

Record ExpectedPcrs := { pcr0 : bytes; pcr1 : bytes; pcr2 : bytes }.

Definition all_zero (l : bytes) : bool := forallb (fun b => b =? 0) l.

Definition PLACEHOLDER : ExpectedPcrs :=
  {| pcr0 := replicate PCR_LEN 0; pcr1 := replicate PCR_LEN 0; pcr2 := replicate PCR_LEN 0 |}.

Definition is_placeholder (p : ExpectedPcrs) : bool :=
  all_zero (pcr0 p) && all_zero (pcr1 p) && all_zero (pcr2 p).

(** A [PcrDigest] is an array of 48 bytes. *)
Definition pcrs_ok (p : ExpectedPcrs) : Prop :=
  length (pcr0 p) = PCR_LEN /\ length (pcr1 p) = PCR_LEN /\ length (pcr2 p) = PCR_LEN.

(** ** The envelope ([cose.rs]) *)

Record CoseSign1 := { protected : bytes; payload : option bytes; cose_signature : bytes }.

Definition P384_SIGNATURE_LEN : nat := 96.

Inductive CoseDecodeError := MalformedCose (m : string) | MissingPayload.

(** The fields of AWS's [AttestationDoc] that the crate uses. *)
Record AttestationDoc := {
  pcrs : gmap Z bytes; certificate : bytes; cabundle : list bytes;
  public_key : option bytes; user_data : option bytes; nonce : option bytes
}.

(** What the crate reads of an X.509 certificate. *)
Record KeyUsage := { key_cert_sign : bool; digital_signature : bool }.
Record BasicConstraints := { path_len_constraint : option Z }.
Record X509Certificate := {
  tbs_certificate : bytes;
  signature_value : bytes;
  subject_public_key : bytes;
  key_usage : result (option KeyUsage) string;
  basic_constraints : result (option BasicConstraints) string;
  is_valid_at : Z -> bool
}.

Inductive WebpkiError := WpCertExpired (m : string) | WpCertNotValidYet (m : string) | WpOther (m : string).

(** The libraries. *)
Record Crypto := {
  from_tagged_slice : bytes -> result CoseSign1 string;
  cose_from_slice : bytes -> result CoseSign1 string;
  tbs_data : CoseSign1 -> bytes;
  decode_payload : bytes -> result AttestationDoc string;
  from_der : bytes -> result X509Certificate string;
  asn1_timestamp : Z -> result Z string;
  VerifyingKey : Type;
  from_sec1_bytes : bytes -> result VerifyingKey string;
  to_encoded_point : VerifyingKey -> bytes;
  P384Signature : Type;
  p384_from_slice : bytes -> result P384Signature string;
  p384_from_der : bytes -> result P384Signature string;
  p384_to_bytes : P384Signature -> bytes;
  p384_verify : VerifyingKey -> bytes -> P384Signature -> result unit string;
  TrustAnchor : Type;
  anchor_from_trusted_cert : bytes -> result TrustAnchor string;
  EndEntityCert : Type;
  end_entity : bytes -> result EndEntityCert string;
  verify_for_usage : EndEntityCert -> list TrustAnchor -> list bytes -> Z -> result unit WebpkiError;
  aws_root_ca_der : result bytes string
}.

Inductive AttestationError :=
| Malformed (m : string)
| MissingField (field : string)
| PcrMismatch (index : Z) (expected actual : string)
| UserDataMismatch (expected actual : string)
| EmptyExpectedPcr (index : Z)
| CoseSignature (m : string)
| CertChain (m : string)
| CertExpired (m : string)
| NonceMismatch (expected actual : string)
| PublicKeyMismatch (nsm wire : string)
| InvalidPcrLength (index : Z) (expected actual : nat)
| EmptyAttestedPcr (index : Z).

(** [if !b { return Err(e) }] *)
Definition ensure {E} (b : bool) (e : E) : result unit E := if b then Ok tt else Err e.

Lemma ensure_Ok {E} b (e : E) u : ensure b e = Ok u <-> b = true.
Proof. destruct b, u; naive_solver. Qed.

(** [hex::encode] *)
Definition hex_char (n : Z) : string :=
  String (Ascii.ascii_of_N (Z.to_N (if n <? 10 then 48 + n else 87 + n))) "".
Definition hex_encode (l : bytes) : string :=
  foldr (fun b s => (hex_char (b / 16) +:+ hex_char (b mod 16) +:+ s)%string) "" l.

Section attestation.
Context (lib : Crypto).

Definition parse_cose_sign1 (raw : bytes) : result CoseSign1 CoseDecodeError :=
  let? sign1 :=
    match from_tagged_slice lib raw with
    | Ok s => Ok s
    | Err _ => map_err MalformedCose (cose_from_slice lib raw)
    end in
  match payload sign1 with
  | None => Err MissingPayload
  | Some _ => Ok sign1
  end.

Definition cose_error_text (e : CoseDecodeError) : string :=
  match e with
  | MalformedCose m => "COSE_Sign1 decode failed: " +:+ m
  | MissingPayload => "COSE_Sign1 payload is absent"
  end.

Inductive TbsError := TbsCose (e : CoseDecodeError) | TbsSignatureLength (n : nat).

Definition decode_attestation_tbs (raw : bytes) : result (bytes * bytes) TbsError :=
  let? sign1 := map_err TbsCose (parse_cose_sign1 raw) in
  let n := length (cose_signature sign1) in
  let? _u := ensure (bool_decide (n = P384_SIGNATURE_LEN)) (TbsSignatureLength n) in
  Ok (tbs_data lib sign1, cose_signature sign1).

Definition parse_attestation_doc (doc : bytes) : result AttestationDoc AttestationError :=
  let? sign1 := map_err (fun e => Malformed (cose_error_text e)) (parse_cose_sign1 doc) in
  let? payload_bytes := ok_or (payload sign1) (Malformed "COSE_Sign1 payload is absent") in
  map_err (fun e => Malformed ("payload decode: " +:+ e)) (decode_payload lib payload_bytes).

(** ** The certificate chain *)

Definition extract_p384_key (cert_der : bytes) : result (VerifyingKey lib) AttestationError :=
  let? cert := map_err (fun e => CertChain ("leaf cert parse: " +:+ e)) (from_der lib cert_der) in
  map_err (fun e => CertChain ("P-384 key decode: " +:+ e)) (from_sec1_bytes lib (subject_public_key cert)).

Definition cert_pubkey_xy (cert_der : bytes) : result bytes AttestationError :=
  let? verifying_key := extract_p384_key cert_der in
  let bs := to_encoded_point lib verifying_key in
  let? _u := ensure (bool_decide (length bs = 97%nat) && bool_decide (bs !! 0%nat = Some 4))
    (CertChain ("unexpected public key encoding (" +:+ pretty (length bs) +:+ " bytes, prefix 0x"
       +:+ hex_encode [from_option id 0 (head bs)] +:+ ")")) in
  Ok (drop 1 bs).

Definition leaf_cert_pubkey_xy (doc : bytes) : result bytes AttestationError :=
  let? parsed := parse_attestation_doc doc in
  cert_pubkey_xy (certificate parsed).

Definition verify_root_ca_against (cabundle : list bytes) (expected_root : bytes) : result unit AttestationError :=
  let? root := ok_or (head cabundle) (CertChain "cabundle is empty, cannot verify root CA") in
  ensure (bool_decide (root = expected_root))
    (CertChain "root CA certificate does not match the expected AWS Nitro Attestation PKI root").

Definition check_root_validity (root_der : bytes) (now_secs : Z) : result unit AttestationError :=
  let? root := map_err (fun e => CertChain ("pinned root CA parse: " +:+ e)) (from_der lib root_der) in
  let? now := map_err (fun e => CertExpired ("current time is unrepresentable: " +:+ e)) (asn1_timestamp lib now_secs) in
  ensure (is_valid_at root now) (CertExpired "pinned root CA outside its validity window").

Definition map_path_error (err : WebpkiError) : AttestationError :=
  match err with
  | WpCertExpired m | WpCertNotValidYet m => CertExpired m
  | WpOther m => CertChain ("path validation failed: " +:+ m)
  end.

(** The extension must be there, parse, and have the bit. *)
Definition require_key_usage (cert : X509Certificate) (label : string) (bit : KeyUsage -> bool) (what : string)
    : result unit AttestationError :=
  let? ku := map_err (fun e => CertChain (label +:+ ": keyUsage parse: " +:+ e)) (key_usage cert) in
  let? ku := ok_or ku (CertChain (label +:+ ": missing keyUsage")) in
  ensure (bit ku) (CertChain (label +:+ ": keyUsage does not " +:+ what)).

Definition check_ca_key_usage (cert : X509Certificate) (label : string) : result unit AttestationError :=
  require_key_usage cert label key_cert_sign "permit keyCertSign".

Definition check_end_entity_policy (cert : X509Certificate) (label : string) : result unit AttestationError :=
  let? _u := ensure
    match basic_constraints cert with
    | Ok (Some bc) => bool_decide (path_len_constraint bc = None)
    | _ => true
    end (CertChain (label +:+ ": end-entity cert carries a pathLenConstraint")) in
  require_key_usage cert label digital_signature "assert digitalSignature".

Fixpoint check_cas (i : nat) (cabundle : list bytes) : result unit AttestationError :=
  match cabundle with
  | [] => Ok tt
  | der :: rest =>
      let label := "cabundle[" +:+ pretty i +:+ "]" in
      let? cert := map_err (fun e => CertChain (label +:+ " parse: " +:+ e)) (from_der lib der) in
      let? _u := check_ca_key_usage cert label in
      check_cas (S i) rest
  end.

Definition check_key_usage_policy (leaf_der : bytes) (cabundle : list bytes) : result unit AttestationError :=
  let? _u := check_cas 0 cabundle in
  let? leaf := map_err (fun e => CertChain ("leaf cert parse: " +:+ e)) (from_der lib leaf_der) in
  check_end_entity_policy leaf "leaf".

Definition verify_cert_chain_against (leaf_der : bytes) (cabundle : list bytes) (expected_root : bytes) (now_secs : Z)
    : result unit AttestationError :=
  let? _u := verify_root_ca_against cabundle expected_root in
  let? _u := check_root_validity expected_root now_secs in
  let? anchor := map_err (fun e => CertChain ("pinned root CA parse: " +:+ e)) (anchor_from_trusted_cert lib expected_root) in
  let intermediates := drop 1 cabundle in
  let? leaf := map_err (fun e => CertChain ("leaf cert parse: " +:+ e)) (end_entity lib leaf_der) in
  let? _u := ensure (0 <=? now_secs) (CertExpired "current time is before the Unix epoch") in
  let? _u := map_err map_path_error (verify_for_usage lib leaf [anchor] intermediates now_secs) in
  check_key_usage_policy leaf_der cabundle.

Definition verify_cert_chain_at (leaf_der : bytes) (cabundle : list bytes) (now_secs : Z) : result unit AttestationError :=
  let? expected_root := map_err CertChain (aws_root_ca_der lib) in
  verify_cert_chain_against leaf_der cabundle expected_root now_secs.

(** ** The signature.  [now_secs] is the system clock, read for the chain. *)

Definition verify_cose_sign1_signature (now_secs : Z) (doc : bytes) : result unit AttestationError :=
  let? sign1 := map_err (fun e => Malformed ("COSE parse: " +:+ cose_error_text e)) (parse_cose_sign1 doc) in
  let? payload_bstr := ok_or (payload sign1) (Malformed "COSE_Sign1 payload is absent") in
  let? parsed := map_err (fun e => Malformed ("payload decode: " +:+ e)) (decode_payload lib payload_bstr) in
  let? _u := verify_cert_chain_at (certificate parsed) (cabundle parsed) now_secs in
  let? verifying_key := extract_p384_key (certificate parsed) in
  let? sig := map_err (fun e => CoseSignature ("signature decode: " +:+ e)) (p384_from_slice lib (cose_signature sign1)) in
  map_err (fun e => CoseSignature ("ES384 verify: " +:+ e)) (p384_verify lib verifying_key (tbs_data lib sign1) sig).

(** ** The payload *)

Definition extract_nsm_public_key (doc : bytes) : result bytes AttestationError :=
  let? parsed := parse_attestation_doc doc in
  ok_or (public_key parsed) (MissingField "public_key").

Definition verify_nsm_public_key (doc wire_key : bytes) : result unit AttestationError :=
  let? nsm_key := extract_nsm_public_key doc in
  ensure (bool_decide (nsm_key = wire_key)) (PublicKeyMismatch (hex_encode nsm_key) (hex_encode wire_key)).

Definition pcr_field (index : Z) : string :=
  if index =? 0 then "pcr0" else if index =? 1 then "pcr1" else if index =? 2 then "pcr2" else "pcrN".

Definition check_pcr (parsed : AttestationDoc) (index : Z) (expected : bytes) : result unit AttestationError :=
  let? _u := ensure (negb (all_zero expected)) (EmptyExpectedPcr index) in
  let? actual := ok_or (pcrs parsed !! index) (MissingField (pcr_field index)) in
  ensure (bool_decide (length actual = PCR_LEN) && bool_decide (actual = expected))
    (PcrMismatch index (hex_encode expected) (hex_encode actual)).

Definition extract_pcr (parsed : AttestationDoc) (index : Z) : result bytes AttestationError :=
  let? value := ok_or (pcrs parsed !! index) (MissingField (pcr_field index)) in
  let? _u := ensure (bool_decide (length value = PCR_LEN)) (InvalidPcrLength index PCR_LEN (length value)) in
  let? _u := ensure (negb (all_zero value)) (EmptyAttestedPcr index) in
  Ok value.

Definition extract_pcrs (doc : bytes) : result ExpectedPcrs AttestationError :=
  let? parsed := parse_attestation_doc doc in
  let? p0 := extract_pcr parsed 0 in
  let? p1 := extract_pcr parsed 1 in
  let? p2 := extract_pcr parsed 2 in
  Ok {| pcr0 := p0; pcr1 := p1; pcr2 := p2 |}.

Definition verify_pcrs_only (doc : bytes) (expected_pcrs : ExpectedPcrs) : result AttestationDoc AttestationError :=
  let? parsed := parse_attestation_doc doc in
  let? _u := check_pcr parsed 0 (pcr0 expected_pcrs) in
  let? _u := check_pcr parsed 1 (pcr1 expected_pcrs) in
  let? _u := check_pcr parsed 2 (pcr2 expected_pcrs) in
  Ok parsed.

Definition parse_and_check_pcrs (doc : bytes) (expected_pcrs : ExpectedPcrs) (expected_user_data : bytes)
    : result AttestationDoc AttestationError :=
  let? parsed := parse_attestation_doc doc in
  let? _u := check_pcr parsed 0 (pcr0 expected_pcrs) in
  let? _u := check_pcr parsed 1 (pcr1 expected_pcrs) in
  let? _u := check_pcr parsed 2 (pcr2 expected_pcrs) in
  let? actual_user_data := ok_or (user_data parsed) (MissingField "user_data") in
  let? _u := ensure (bool_decide (actual_user_data = expected_user_data))
    (UserDataMismatch (hex_encode expected_user_data) (hex_encode actual_user_data)) in
  Ok parsed.

Definition parse_check_and_verify (now_secs : Z) (doc : bytes) (expected_pcrs : ExpectedPcrs) (expected_user_data : bytes)
    : result AttestationDoc AttestationError :=
  let? parsed := parse_and_check_pcrs doc expected_pcrs expected_user_data in
  let? _u := verify_cose_sign1_signature now_secs doc in
  Ok parsed.

Definition verify_nonce (doc expected : bytes) : result unit AttestationError :=
  let? parsed := parse_attestation_doc doc in
  let? actual := ok_or (nonce parsed) (MissingField "nonce") in
  ensure (bool_decide (actual = expected)) (NonceMismatch (hex_encode expected) (hex_encode actual)).

(** ** What an accepted document is *)

(** The document is an envelope around this payload. *)
Definition carries (doc : bytes) (sign1 : CoseSign1) (d : AttestationDoc) : Prop :=
  (from_tagged_slice lib doc = Ok sign1 \/
   (exists m, from_tagged_slice lib doc = Err m) /\ cose_from_slice lib doc = Ok sign1) /\
  exists p, payload sign1 = Some p /\ decode_payload lib p = Ok d.

Definition may_sign_certificates (der : bytes) : Prop :=
  exists cert ku, from_der lib der = Ok cert /\ key_usage cert = Ok (Some ku) /\ key_cert_sign ku = true.

Definition may_sign_documents (der : bytes) : Prop :=
  exists cert ku, from_der lib der = Ok cert /\ key_usage cert = Ok (Some ku) /\ digital_signature ku = true /\
    forall bc, basic_constraints cert = Ok (Some bc) -> path_len_constraint bc = None.

(** The chain of a leaf: it starts with the pinned root, which is valid at the
    time; [webpki] finds a path to that root alone through the other certificates; and
    every certificate may do what it is used for. *)
Definition trusted_chain (now_secs : Z) (leaf : bytes) (bundle : list bytes) : Prop :=
  exists root rest cert time anchor ee,
    aws_root_ca_der lib = Ok root /\ bundle = root :: rest /\
    from_der lib root = Ok cert /\ asn1_timestamp lib now_secs = Ok time /\ is_valid_at cert time = true /\
    anchor_from_trusted_cert lib root = Ok anchor /\ end_entity lib leaf = Ok ee /\ 0 <= now_secs /\
    verify_for_usage lib ee [anchor] rest now_secs = Ok tt /\
    Forall may_sign_certificates bundle /\ may_sign_documents leaf.

(** The document carries [d], signed with the key of a leaf that AWS's root certifies. *)
Definition genuine (now_secs : Z) (doc : bytes) (d : AttestationDoc) : Prop :=
  exists sign1 cert key sig,
    carries doc sign1 d /\ trusted_chain now_secs (certificate d) (cabundle d) /\
    from_der lib (certificate d) = Ok cert /\ from_sec1_bytes lib (subject_public_key cert) = Ok key /\
    p384_from_slice lib (cose_signature sign1) = Ok sig /\ p384_verify lib key (tbs_data lib sign1) sig = Ok tt.

(** The enclave image is the expected one, and no debug image. *)
Definition measured (p : ExpectedPcrs) (d : AttestationDoc) : Prop :=
  pcrs_ok p /\ all_zero (pcr0 p) = false /\ all_zero (pcr1 p) = false /\ all_zero (pcr2 p) = false /\
  pcrs d !! 0 = Some (pcr0 p) /\ pcrs d !! 1 = Some (pcr1 p) /\ pcrs d !! 2 = Some (pcr2 p).

Lemma parse_cose_spec doc sign1 :
  parse_cose_sign1 doc = Ok sign1 <->
  (from_tagged_slice lib doc = Ok sign1 \/
   (exists m, from_tagged_slice lib doc = Err m) /\ cose_from_slice lib doc = Ok sign1) /\ is_Some (payload sign1).
Proof.
  unfold parse_cose_sign1. rewrite rbind_Ok. split.
  - intros (s&Hs&Hp). destruct (payload s) eqn:Hps; [|done]. injection Hp as <-. split; [|by rewrite Hps].
    destruct (from_tagged_slice lib doc) as [s'|m]; [left; congruence|right].
    split; [by exists m|by apply map_err_Ok in Hs].
  - intros [Hs [p Hp]]. exists sign1. rewrite Hp. split; [|done].
    destruct Hs as [->|[[m ->] ->]]; done.
Qed.

Lemma parse_doc_spec doc d : parse_attestation_doc doc = Ok d <-> exists sign1, carries doc sign1 d.
Proof.
  unfold parse_attestation_doc, carries. setoid_rewrite rbind_Ok. setoid_rewrite map_err_Ok.
  setoid_rewrite parse_cose_spec. setoid_rewrite rbind_Ok. setoid_rewrite ok_or_Ok. setoid_rewrite map_err_Ok.
  split; [naive_solver|]. intros (s&Hs&p&Hp&Hd). exists s. rewrite Hp. naive_solver.
Qed.

(** Decoding is a function. *)
Lemma carries_inj doc s d s' d' : carries doc s d -> carries doc s' d' -> s = s' /\ d = d'.
Proof.
  intros [Hs (p&Hp&Hd)] [Hs' (p'&Hp'&Hd')]. assert (s = s') as <-; [naive_solver congruence|].
  split; [done|congruence].
Qed.

Lemma require_key_usage_spec cert label bit what u :
  require_key_usage cert label bit what = Ok u <-> exists ku, key_usage cert = Ok (Some ku) /\ bit ku = true.
Proof.
  unfold require_key_usage. rewrite rbind_Ok. setoid_rewrite map_err_Ok. setoid_rewrite rbind_Ok.
  setoid_rewrite ok_or_Ok. setoid_rewrite ensure_Ok. naive_solver.
Qed.

Lemma check_cas_spec bundle i u : check_cas i bundle = Ok u <-> Forall may_sign_certificates bundle.
Proof.
  destruct u. revert i. induction bundle as [|der bundle IH]; intros i; cbn [check_cas]; [by rewrite Forall_nil|].
  rewrite Forall_cons, rbind_Ok. unfold may_sign_certificates at 1, check_ca_key_usage.
  setoid_rewrite map_err_Ok. setoid_rewrite rbind_Ok. setoid_rewrite require_key_usage_spec.
  setoid_rewrite IH. naive_solver.
Qed.

Lemma end_entity_policy_spec cert label u :
  check_end_entity_policy cert label = Ok u <->
  (exists ku, key_usage cert = Ok (Some ku) /\ digital_signature ku = true) /\
  forall bc, basic_constraints cert = Ok (Some bc) -> path_len_constraint bc = None.
Proof.
  unfold check_end_entity_policy. rewrite rbind_Ok. setoid_rewrite ensure_Ok. setoid_rewrite require_key_usage_spec.
  destruct (basic_constraints cert) as [[bc|]|m]; [|naive_solver..].
  setoid_rewrite bool_decide_eq_true. naive_solver.
Qed.

Lemma key_usage_policy_spec leaf bundle u :
  check_key_usage_policy leaf bundle = Ok u <-> Forall may_sign_certificates bundle /\ may_sign_documents leaf.
Proof.
  unfold check_key_usage_policy, may_sign_documents. rewrite rbind_Ok. setoid_rewrite rbind_Ok.
  setoid_rewrite check_cas_spec. setoid_rewrite map_err_Ok. setoid_rewrite end_entity_policy_spec.
  split; [naive_solver|]. intros [? ?]. exists tt. naive_solver.
Qed.

#[local] Opaque check_key_usage_policy.
Lemma cert_chain_spec leaf bundle now u :
  verify_cert_chain_at leaf bundle now = Ok u <-> trusted_chain now leaf bundle.
Proof.
  unfold verify_cert_chain_at, verify_cert_chain_against, verify_root_ca_against, check_root_validity, trusted_chain.
  rewrite !rbind_Ok. repeat setoid_rewrite rbind_Ok. repeat setoid_rewrite map_err_Ok. setoid_rewrite ok_or_Ok.
  setoid_rewrite ensure_Ok. setoid_rewrite bool_decide_eq_true. setoid_rewrite Z.leb_le.
  setoid_rewrite key_usage_policy_spec. split.
  - intros (root&Hroot&[]&(r&Hr&->)&[]&(cert&Hcert&time&Htime&Hval)&anchor&Ha&ee&Hee&[]&Hnow&[]&Hpath&Hpol).
    destruct bundle as [|? rest]; [done|]. injection Hr as ->. exists root, rest, cert, time, anchor, ee. naive_solver.
  - intros (root&rest&cert&time&anchor&ee&Hroot&->&Hcert&Htime&Hval&Ha&Hee&Hnow&Hpath&Hpol).
    exists root. split; [done|]. exists tt. split; [by exists root|]. exists tt. split; [naive_solver|].
    exists anchor. split; [done|]. exists ee. split; [done|]. exists tt. split; [done|]. by exists tt.
Qed.

#[local] Opaque verify_cert_chain_at parse_cose_sign1.
Lemma signature_spec now doc u : verify_cose_sign1_signature now doc = Ok u <-> exists d, genuine now doc d.
Proof.
  destruct u. unfold verify_cose_sign1_signature, extract_p384_key, genuine, carries. rewrite rbind_Ok.
  repeat setoid_rewrite rbind_Ok. repeat setoid_rewrite map_err_Ok. setoid_rewrite parse_cose_spec.
  setoid_rewrite ok_or_Ok. setoid_rewrite cert_chain_spec. split.
  - intros (s&[Hs _]&p&Hp&d&Hd&[]&Hc&key&(cert&Hcert&Hkey)&sig&Hsig&Hv). exists d, s, cert, key, sig. naive_solver.
  - intros (d&s&cert&key&sig&[Hs (p&Hp&Hd)]&Hc&Hcert&Hkey&Hsig&Hv). exists s. rewrite Hp. split; [by split|].
    exists p. split; [done|]. exists d. split; [done|]. exists tt. naive_solver.
Qed.

Lemma check_pcr_spec d i e u :
  check_pcr d i e = Ok u <-> all_zero e = false /\ pcrs d !! i = Some e /\ length e = PCR_LEN.
Proof.
  unfold check_pcr. rewrite rbind_Ok. setoid_rewrite rbind_Ok. setoid_rewrite ensure_Ok. setoid_rewrite ok_or_Ok.
  setoid_rewrite negb_true_iff. setoid_rewrite andb_true_iff. setoid_rewrite bool_decide_eq_true.
  split; [naive_solver|]. intros (?&?&?). exists tt. naive_solver.
Qed.

#[local] Opaque check_pcr parse_attestation_doc.
Lemma pcrs_only_spec doc p d : verify_pcrs_only doc p = Ok d <-> (exists s, carries doc s d) /\ measured p d.
Proof.
  unfold verify_pcrs_only, measured, pcrs_ok. rewrite rbind_Ok. setoid_rewrite parse_doc_spec.
  repeat setoid_rewrite rbind_Ok. setoid_rewrite check_pcr_spec. split.
  - naive_solver.
  - intros [Hd Hm]. exists d. split; [done|]. exists tt. split; [naive_solver|]. exists tt.
    split; [naive_solver|]. exists tt. naive_solver.
Qed.

Lemma measured_inj p q d : measured p d -> measured q d -> p = q.
Proof. destruct p, q. intros (_&_&_&_&H0&H1&H2) (_&_&_&_&K0&K1&K2). simpl in *. congruence. Qed.

Lemma extract_pcr_spec d i p :
  extract_pcr d i = Ok p <-> all_zero p = false /\ pcrs d !! i = Some p /\ length p = PCR_LEN.
Proof.
  unfold extract_pcr. rewrite rbind_Ok. repeat setoid_rewrite rbind_Ok. setoid_rewrite ok_or_Ok.
  setoid_rewrite ensure_Ok. setoid_rewrite bool_decide_eq_true. setoid_rewrite negb_true_iff. split.
  - intros (v&Hv&[]&Hl&[]&Hz&[= <-]). done.
  - intros (Hz&Hv&Hl). exists p. split; [done|]. exists tt. split; [done|]. by exists tt.
Qed.

#[local] Opaque extract_pcr.
Lemma extract_pcrs_spec doc p : extract_pcrs doc = Ok p <-> exists s d, carries doc s d /\ measured p d.
Proof.
  unfold extract_pcrs, measured, pcrs_ok. rewrite rbind_Ok. setoid_rewrite parse_doc_spec.
  repeat setoid_rewrite rbind_Ok. setoid_rewrite extract_pcr_spec. split.
  - intros (d&[s Hs]&p0&H0&p1&H1&p2&H2&[= <-]). exists s, d. naive_solver.
  - intros (s&d&Hs&Hm). exists d. split; [by exists s|]. exists (pcr0 p). split; [naive_solver|]. exists (pcr1 p).
    split; [naive_solver|]. exists (pcr2 p). split; [naive_solver|]. by destruct p.
Qed.

Lemma check_user_data_spec doc p ud d :
  parse_and_check_pcrs doc p ud = Ok d <-> (exists s, carries doc s d) /\ measured p d /\ user_data d = Some ud.
Proof.
  unfold parse_and_check_pcrs, measured, pcrs_ok. rewrite rbind_Ok. setoid_rewrite parse_doc_spec.
  repeat setoid_rewrite rbind_Ok. setoid_rewrite check_pcr_spec. setoid_rewrite ok_or_Ok. setoid_rewrite ensure_Ok.
  setoid_rewrite bool_decide_eq_true. split.
  - naive_solver.
  - intros [Hd [Hm Hu]]. exists d. split; [done|]. exists tt. split; [naive_solver|]. exists tt.
    split; [naive_solver|]. exists tt. split; [naive_solver|]. exists ud. split; [done|]. exists tt. done.
Qed.

Lemma nonce_spec doc n u : verify_nonce doc n = Ok u <-> exists s d, carries doc s d /\ nonce d = Some n.
Proof.
  destruct u. unfold verify_nonce. rewrite rbind_Ok. setoid_rewrite parse_doc_spec. setoid_rewrite rbind_Ok.
  setoid_rewrite ok_or_Ok. setoid_rewrite ensure_Ok. setoid_rewrite bool_decide_eq_true. naive_solver.
Qed.

Lemma public_key_spec doc k : extract_nsm_public_key doc = Ok k <-> exists s d, carries doc s d /\ public_key d = Some k.
Proof.
  unfold extract_nsm_public_key. rewrite rbind_Ok. setoid_rewrite parse_doc_spec. setoid_rewrite ok_or_Ok.
  naive_solver.
Qed.

#[local] Opaque extract_nsm_public_key.
Lemma verify_public_key_spec doc k u :
  verify_nsm_public_key doc k = Ok u <-> exists s d, carries doc s d /\ public_key d = Some k.
Proof.
  destruct u. unfold verify_nsm_public_key. rewrite rbind_Ok. setoid_rewrite public_key_spec.
  setoid_rewrite ensure_Ok. setoid_rewrite bool_decide_eq_true. naive_solver.
Qed.

#[local] Opaque parse_and_check_pcrs verify_cose_sign1_signature.

Lemma accepted_spec now doc p ud d :
  parse_check_and_verify now doc p ud = Ok d <-> genuine now doc d /\ measured p d /\ user_data d = Some ud.
Proof.
  unfold parse_check_and_verify. rewrite rbind_Ok. setoid_rewrite check_user_data_spec.
  setoid_rewrite rbind_Ok. setoid_rewrite signature_spec. split.
  - intros (d'&((s&Hs)&Hm&Hu)&[]&(d''&s''&Hg)&[= ->]). destruct Hg as (cert&key&sig&Hc&Hg).
    destruct (carries_inj _ _ _ _ _ Hs Hc) as [-> ->]. split_and!; try done. by exists s'', cert, key, sig.
  - intros (Hg&Hm&Hu). exists d. destruct Hg as (s&Hg). split; [destruct Hg as (?&?&?&?&_); naive_solver|].
    exists tt. split; [by exists d, s|done].
Qed.
(** The full check accepts a document exactly if it is genuine at that time, was
    measured on the expected image (never a placeholder or a debug image), and commits
    to the expected user data. *)
Theorem attestation_accepted_iff now doc p ud :
  match parse_check_and_verify now doc p ud with
  | Ok d => genuine now doc d /\ measured p d /\ user_data d = Some ud
  | Err _ => ~ exists d, genuine now doc d /\ measured p d /\ user_data d = Some ud
  end.
Proof.
  destruct (parse_check_and_verify now doc p ud) as [d|e] eqn:Hd; [by apply accepted_spec|].
  intros [d Hg%accepted_spec]. congruence.
Qed.
End attestation.
