(* ===== verification/NitroEnclave.v ===== *)
(** * The program inside the Nitro enclave
    ([src/proofs/measured/nitro-enclave/src/enclave.rs])

    The enclave draws its signing key from the randomness of the NSM device, then
    answers requests: it derives a range transition from a witness, signs it with the
    key, and has the NSM attest the transition's commitment, the host's nonce and the
    key.  The derivation (Kona's pipeline) and the device are calls; secp256k1 is
    the record [Secp].  Errors are the texts that [anyhow] renders. *)

From S2P Require Import Prelude Program Encoding ProofTypes Aggregation NitroWire.

(** [protocol::transition_commitment] *)
Definition transition_commitment (keccak256 : bytes -> B256) (t : TransitionPublicValues) : bytes :=
  be_bytes 32 (keccak256 (transition_abi_encode t)).

(** ** secp256k1 ([k256]) *)

Record Secp := {
  SigningKey : Type;
  key_from_bytes : bytes -> result SigningKey string;
  encoded_public_key : SigningKey -> bytes;
  EcSignature : Type;
  sign_prehash_recoverable : SigningKey -> bytes -> result (EcSignature * Z) string;
  normalize_s : EcSignature -> option EcSignature;
  ec_to_bytes : EcSignature -> bytes;
  ec_from_slice : bytes -> result EcSignature string;
  recover_from_prehash : bytes -> EcSignature -> Z -> result bytes string
}.

(** A recovery id is two bits. *)
Definition recovery_id (b : Z) : option Z := if (0 <=? b) && (b <? 4) then Some b else None.

(** What the signatures of the library satisfy: the key can be recovered from a
    signature, also from the one with the other [s], for which the parity changes; the
    encoding has 64 bytes and can be read back. *)
Record SecpLaws (ec : Secp) : Prop := {
  recover_signed k m s id :
    sign_prehash_recoverable ec k m = Ok (s, id) ->
    0 <= id < 4 /\ recover_from_prehash ec m s id = Ok (encoded_public_key ec k);
  recover_normalized m s s' id k : 0 <= id < 4 ->
    normalize_s ec s = Some s' -> recover_from_prehash ec m s id = Ok k ->
    recover_from_prehash ec m s' (Z.lxor id 1) = Ok k;
  read_signature s : ec_from_slice ec (ec_to_bytes ec s) = Ok s /\ length (ec_to_bytes ec s) = 64%nat
}.

(** ** The device and the derivation *)

Inductive NsmResponse :=
| NsmRandom (random : bytes)
| NsmDocument (document : bytes)
| NsmError (m : string)
| NsmUnexpected (m : string).

Inductive enclave_call :=
| NsmInit
| NsmGetRandom (fd : Z)
| NsmAttestation (fd : Z) (user_data nonce public_key : option bytes)
| DeriveRange (witness_rkyv : bytes).

Definition EnclaveSig : Sig := MkSig enclave_call (fun c =>
  match c with
  | NsmInit => Z
  | NsmGetRandom _ | NsmAttestation _ _ _ _ => NsmResponse
  | DeriveRange _ => result TransitionPublicValues string
  end).

Abbreviation nsm c := (Call (c : call EnclaveSig) (fun r => Ret r)).

(** [.context(c)] *)
Definition context {A} (c : string) (r : result A string) : result A string :=
  map_err (fun e => c +:+ ": " +:+ e) r.

Section enclave.
Context (keccak256 : bytes -> B256) (ec : Secp).

(** What [init_nsm] and [init_signing_key] leave in the two [OnceLock]s. *)
Record Enclave := { nsm_fd : Z; signing_key : SigningKey ec }.

Definition init_nsm : prog EnclaveSig (result Z string) :=
  do fd <- nsm NsmInit;
  Ret (if fd <? 0 then Err "nsm_init returned negative fd" else Ok fd).

Definition MAX_EMPTY_RETRIES : Z := 32.

(** The seed so far, and the empty answers since the last byte; [None] if the fuel
    runs out. *)
Fixpoint random_loop (fd : Z) (fuel : nat) (seed : bytes) (empty_streak : Z)
    : prog EnclaveSig (option (result bytes string)) :=
  if (length seed <? 32)%nat then
    match fuel with
    | O => Ret None
    | S fuel =>
        do response <- nsm (NsmGetRandom fd);
        match response with
        | NsmRandom random =>
            if bool_decide (random = []) then
              let empty_streak := empty_streak + 1 in
              if MAX_EMPTY_RETRIES <? empty_streak
              then Ret (Some (Err "NSM GetRandom returned empty data 32 consecutive times"))
              else random_loop fd fuel seed empty_streak
            else
              let needed := (32 - length seed)%nat in
              random_loop fd fuel (seed ++ take (length random `min` needed) random) 0
        | NsmError m => Ret (Some (Err ("NSM GetRandom error: " +:+ m)))
        | _ => Ret (Some (Err "unexpected NSM response to GetRandom"))
        end
    end
  else Ret (Some (Ok seed)).

(** Every byte takes at most 33 calls. *)
Definition random_fuel : nat := 32 * 33.

Definition nsm_get_random_32 (fd : Z) : prog EnclaveSig (result bytes string) :=
  do r <- random_loop fd random_fuel [] 0;
  Ret (from_option id (Err "out of fuel") r).

Definition init_signing_key (fd : Z) : prog EnclaveSig (result (SigningKey ec) string) :=
  do? seed <- nsm_get_random_32 fd;
  Ret (context "failed to create secp256k1 signing key from NSM entropy" (key_from_bytes ec seed)).

(** [serve_forever], up to the loop that accepts connections. *)
Definition start : prog EnclaveSig (result Enclave string) :=
  do? fd <- init_nsm;
  do? key <- (do r <- init_signing_key fd; Ret (context "failed to initialise enclave signing key" r));
  Ret (Ok {| nsm_fd := fd; signing_key := key |}).

Definition sign_transition_public_values (key : SigningKey ec) (t : TransitionPublicValues) : result bytes string :=
  let commitment := transition_commitment keccak256 t in
  let? signed := context "secp256k1 signing failed" (sign_prehash_recoverable ec key commitment) in
  let '(sig, rec_id) := signed in
  let '(sig, rec_id) :=
    match normalize_s ec sig with
    | Some normalized => (normalized, Z.lxor rec_id 1)
    | None => (sig, rec_id)
    end in
  Ok (ec_to_bytes ec sig ++ [rec_id + 27]).

Definition check_version (version : Z) : result unit string :=
  if version =? PROTOCOL_VERSION then Ok tt else Err "unsupported protocol version".

(** The fields that have to agree, in the order in which they are compared. *)
Definition ensure_transition_public_values_match (expected actual : TransitionPublicValues) : result unit string :=
  let mismatches :=
    [("l1Head", l1Head expected =? l1Head actual);
     ("l2PreRoot", l2PreRoot expected =? l2PreRoot actual);
     ("l2PreBlockNumber", l2PreBlockNumber expected =? l2PreBlockNumber actual);
     ("l2PostRoot", l2PostRoot expected =? l2PostRoot actual);
     ("l2PostBlockNumber", l2PostBlockNumber expected =? l2PostBlockNumber actual);
     ("rollupConfigHash", rollupConfigHash expected =? rollupConfigHash actual)] in
  match List.find (fun m => negb m.2) mismatches with
  | Some (field, _) =>
      Err ("enclave-derived transition public values disagree with host expectation on " +:+ field)
  | None => Ok tt
  end.

Definition document (r : NsmResponse) : result bytes string :=
  match r with
  | NsmDocument d => Ok d
  | NsmError m => Err ("nsm returned error: " +:+ m)
  | _ => Err "unexpected nsm response"
  end.

Definition request_attestation_doc (enc : Enclave) (user_data : option bytes) (nonce : bytes)
    : prog EnclaveSig (result bytes string) :=
  do r <- nsm (NsmAttestation (nsm_fd enc) user_data (Some nonce)
                 (Some (encoded_public_key ec (signing_key enc))));
  Ret (document r).

Definition handle_range (enc : Enclave) (witness_rkyv : bytes) (expected : option TransitionPublicValues)
    (nonce : bytes) : prog EnclaveSig (result EnclaveResponse string) :=
  do? t <- nsm (DeriveRange witness_rkyv);
  do? _u <- Ret (from_option (fun e => ensure_transition_public_values_match e t) (Ok tt) expected);
  do? signature <- Ret (sign_transition_public_values (signing_key enc) t);
  do? doc <- request_attestation_doc enc (Some (transition_commitment keccak256 t)) nonce;
  Ret (Ok (RangeResponse t doc signature)).

Definition handle_public_key (enc : Enclave) (nonce : bytes) : prog EnclaveSig (result EnclaveResponse string) :=
  do? doc <- request_attestation_doc enc None nonce;
  Ret (Ok (AttestationResponse doc (encoded_public_key ec (signing_key enc)))).

Definition handle_get_attestation (enc : Enclave) : prog EnclaveSig (result EnclaveResponse string) :=
  do r <- nsm (NsmAttestation (nsm_fd enc) None None None);
  Ret (let? doc := document r in Ok (BareAttestation doc)).

Definition dispatch (enc : Enclave) (request : EnclaveRequest) : prog EnclaveSig (result EnclaveResponse string) :=
  match request with
  | RangeRequest version witness_rkyv expected nonce =>
      do? _u <- Ret (check_version version);
      handle_range enc witness_rkyv expected nonce
  | PublicKeyRequest nonce => handle_public_key enc nonce
  | GetAttestation => handle_get_attestation enc
  end.

Definition handle_connection `{!Cbor EnclaveRequest, !Cbor EnclaveResponse} (enc : Enclave)
    : prog (EnclaveSig ⊕ IoSig) (result unit FrameError) :=
  do? request <- lift read_frame;
  do r <- lift (dispatch enc request);
  let response := match r with Ok response => response | Err m => ErrorResponse m end in
  lift (write_frame response).

(** ** The seed of the signing key *)

Definition random_of (e : event EnclaveSig) : option bytes :=
  match e with existT (NsmGetRandom _) (NsmRandom l) => Some l | _ => None end.

(** Why no seed could be drawn: the device failed, or was empty 33 times in a row. *)
Definition no_randomness (tr : list (event EnclaveSig)) : Prop :=
  (exists e, last tr = Some e /\ random_of e = None) \/
  (exists h, omap random_of tr = h ++ replicate 33 []).

Lemma random_loop_spec fd fuel : forall h seed streak tr out,
  (length seed <= 32)%nat -> 0 <= streak <= 32 ->
  (33 * (32 - length seed) <= fuel + Z.to_nat streak)%nat ->
  seed = take 32 (concat (omap random_of h)) ->
  (exists h', omap random_of h = h' ++ replicate (Z.to_nat streak) []) ->
  runs (random_loop fd fuel seed streak) tr out ->
  (length tr <= fuel)%nat /\
  match out with
  | Some (Ok s) => length s = 32%nat /\ s = take 32 (concat (omap random_of (h ++ tr)))
  | Some (Err _) => no_randomness (h ++ tr)
  | None => False
  end.
Proof.
  induction fuel as [|fuel IH]; intros h seed streak tr out Hl Hs Hf Hseed Hh; unfold random_loop; fold random_loop.
  { destruct (Nat.ltb_spec (length seed) 32); [lia|]. intros [-> ->]. rewrite app_nil_r. split; [simpl; lia|].
    split; [lia|done]. }
  destruct (Nat.ltb_spec (length seed) 32) as [Hlt|]; [|intros [-> ->]; rewrite app_nil_r; split; [simpl; lia|];
    split; [lia|done]].
  cbn [bind runs]. intros (r&tr'&->&Hr). rewrite cons_middle, app_assoc. cbn [length].
  set (e := ev (NsmGetRandom fd : call EnclaveSig) r) in *.
  destruct r as [random|d|m|m]; cycle 1.
  1-3: destruct Hr as [-> ->]; split; [simpl; lia|]; rewrite app_nil_r; left; exists e; by rewrite last_snoc.
  assert (omap random_of (h ++ [e]) = omap random_of h ++ [random]) as Hom by by rewrite omap_app.
  case_bool_decide as Hrand.
  - subst random. destruct Hh as [h' Hh]. rewrite Hh in Hom.
    replace [[]] with (replicate 1 ([] : bytes)) in Hom by done. rewrite <-app_assoc, <-replicate_add in Hom.
    destruct (Z.ltb_spec MAX_EMPTY_RETRIES (streak + 1)) as [Hmax|Hmax]; unfold MAX_EMPTY_RETRIES in Hmax.
    + destruct Hr as [-> ->]. split; [simpl; lia|]. rewrite app_nil_r. right. exists h'. rewrite Hom.
      by replace (Z.to_nat streak + 1)%nat with 33%nat by lia.
    + apply (IH (h ++ [e])) in Hr; [destruct Hr; split; [lia|done]|lia|lia|lia| |].
      * rewrite omap_app. cbn [omap list_omap]. simpl. by rewrite concat_app, app_nil_r.
      * exists h'. by replace (Z.to_nat (streak + 1)) with (Z.to_nat streak + 1)%nat by lia.
  - assert (0 < length random)%nat by (destruct random; [done|simpl; lia]).
    apply (IH (h ++ [e])) in Hr; [destruct Hr; split; [lia|done]|..].
    + rewrite length_app, length_take. lia.
    + lia.
    + rewrite length_app, length_take. lia.
    + rewrite Hom, concat_app, Hseed. cbn [concat]. rewrite app_nil_r.
      assert (length (concat (omap random_of h)) < 32)%nat as Hc by
        (rewrite Hseed, length_take in Hlt; lia).
      rewrite (take_ge (concat (omap random_of h))) by lia. rewrite take_app, (take_ge (concat _)) by lia. f_equal.
      destruct (Nat.min_spec (length random) (32 - length (concat (omap random_of h)))) as [[? ->]|[? ->]]; [|done].
      rewrite !take_ge by lia. done.
    + exists (omap random_of (h ++ [e])). by rewrite app_nil_r.
Qed.

(** Drawing the seed always ends, after at most 1056 calls of the device: with the
    first 32 bytes that the device returned, however it cut them, or because the device
    failed or returned nothing 33 times in a row. *)
Theorem seed_is_device_randomness fd tr r :
  runs (nsm_get_random_32 fd) tr r ->
  (length tr <= random_fuel)%nat /\
  match r with
  | Ok seed => length seed = 32%nat /\ seed = take 32 (concat (omap random_of tr))
  | Err _ => no_randomness tr
  end.
Proof.
  unfold nsm_get_random_32. rewrite runs_bind. intros (t1&t2&out&->&Hrun&->&->). rewrite app_nil_r.
  destruct (random_loop_spec fd random_fuel [] [] 0 t1 out) as [Hl Hout]; try done.
  - cbn [length]. unfold random_fuel. lia.
  - by exists [].
  - split; [done|]. by destruct out as [[s|m]|].
Qed.

(** ** Signatures *)

Lemma lxor_parity id : 0 <= id < 4 -> 0 <= Z.lxor id 1 < 4.
Proof. intros. assert (id = 0 \/ id = 1 \/ id = 2 \/ id = 3) as [->|[->|[->| ->]]] by lia; split; vm_compute; congruence. Qed.

(** A signature is 64 bytes and a recovery byte, from which the key is recovered. *)
Lemma sign_recovers (laws : SecpLaws ec) key t b :
  sign_transition_public_values key t = Ok b ->
  exists sig id, b = ec_to_bytes ec sig ++ [id + 27] /\ 0 <= id < 4 /\
    recover_from_prehash ec (transition_commitment keccak256 t) sig id = Ok (encoded_public_key ec key).
Proof.
  unfold sign_transition_public_values, context. rewrite rbind_Ok. intros ([sig id]&Hs%map_err_Ok&Hb).
  apply (recover_signed ec laws) in Hs as [Hid Hrec].
  destruct (normalize_s ec sig) as [sig'|] eqn:Hn; injection Hb as <-.
  - exists sig', (Z.lxor id 1). split_and!; [done|by apply lxor_parity..|].
    by eapply (recover_normalized ec laws).
  - by exists sig, id.
Qed.

Lemma values_match expected actual u :
  ensure_transition_public_values_match expected actual = Ok u <-> expected = actual.
Proof.
  unfold ensure_transition_public_values_match. destruct u, expected as [a b c d e f], actual as [a' b' c' d' e' f'].
  cbn [l1Head l2PreRoot l2PreBlockNumber l2PostRoot l2PostBlockNumber rollupConfigHash].
  split.
  - repeat match goal with |- context [?x =? ?y] => destruct (Z.eqb_spec x y) end; cbn; intros; congruence.
  - intros [= -> -> -> -> -> ->]. by rewrite !Z.eqb_refl.
Qed.

(** ** Answers *)

(** The enclave answers a range request with a transition exactly if it speaks the
    host's version, derived that transition from the witness, found no difference to
    the one that the host expects, and obtained an attestation of the transition's
    commitment, of the host's nonce and of the key that signs it.  It calls nothing
    else. *)
Theorem range_answer_iff enc version witness expected nonce tr resp :
  runs (dispatch enc (RangeRequest version witness expected nonce)) tr (Ok resp) <->
  version = PROTOCOL_VERSION /\
  exists t doc signature,
    tr = [ev (DeriveRange witness : call EnclaveSig) (Ok t);
          ev (NsmAttestation (nsm_fd enc) (Some (transition_commitment keccak256 t)) (Some nonce)
                (Some (encoded_public_key ec (signing_key enc))) : call EnclaveSig) (NsmDocument doc)] /\
    (forall e, expected = Some e -> e = t) /\
    sign_transition_public_values (signing_key enc) t = Ok signature /\
    resp = RangeResponse t doc signature.
Proof.
  unfold dispatch, check_version, handle_range, request_attestation_doc.
  destruct (Z.eqb_spec version PROTOCOL_VERSION) as [->|Hv]; [|cbn; split; [by intros [_ ?]|by intros [? _]]].
  cbn [bind_try bind runs]. split.
  - intros (r&t1&->&Hr). split; [done|]. destruct r as [t|m]; [|by destruct Hr].
    cbn [bind runs] in Hr.
    assert (forall e, expected = Some e -> e = t) as Hexp.
    { intros e ->. cbn [from_option] in Hr.
      destruct (ensure_transition_public_values_match e t) eqn:Hm; [by eapply values_match|by destruct Hr]. }
    destruct (from_option _ _ expected) as [[]|m]; [|by destruct Hr].
    destruct (sign_transition_public_values (signing_key enc) t) as [signature|m] eqn:Hs; [|by destruct Hr].
    cbn [bind runs] in Hr. destruct Hr as (d&t2&->&Hr).
    destruct d as [l|doc|m|m]; cbn [document bind runs] in Hr; [by destruct Hr| |by destruct Hr..].
    destruct Hr as [-> [= ->]]. exists t, doc, signature. done.
  - intros (_&t&doc&signature&->&Hexp&Hs&->). exists (Ok t). eexists. split; [done|]. cbn [bind runs].
    replace (from_option _ _ expected) with (Ok tt : result unit string); cycle 1.
    { destruct expected as [e|]; [|done]. cbn [from_option]. symmetry. apply values_match. by apply Hexp. }
    rewrite Hs. cbn [bind runs]. exists (NsmDocument doc), []. done.
Qed.
End enclave.

(** A device that returns ten bytes at a time. *)
Definition ten_bytes : handler EnclaveSig unit := fun c w =>
  match c return reply EnclaveSig c * unit with
  | NsmInit => (3, w)
  | NsmGetRandom _ => (NsmRandom [1; 2; 3; 4; 5; 6; 7; 8; 9; 10], w)
  | NsmAttestation _ _ _ _ => (NsmDocument [], w)
  | DeriveRange _ => (Err "no witness", w)
  end.

Lemma seed_is_device_randomness_witness :
  let tr := trace_of ten_bytes (nsm_get_random_32 3) () in
  let seed := [1; 2; 3; 4; 5; 6; 7; 8; 9; 10; 1; 2; 3; 4; 5; 6; 7; 8; 9; 10; 1; 2; 3; 4; 5; 6; 7; 8; 9; 10; 1; 2] in
  value_of ten_bytes (nsm_get_random_32 3) () = Ok seed /\
  (length tr <= random_fuel)%nat /\ seed = take 32 (concat (omap random_of tr)).
Proof.
  intros tr seed. assert (value_of ten_bytes (nsm_get_random_32 3) () = Ok seed) as Hv by (vm_compute; reflexivity).
  split; [exact Hv|]. destruct (seed_is_device_randomness 3 tr (Ok seed)) as [Hl [_ Hs]].
  - rewrite <-Hv. apply interp_runs.
  - split; [exact Hl|exact Hs].
Defined.
