(* ===== verification/NitroHost.v ===== *)
(** * The host of the enclave, and the Nitro worker
    ([src/proofs/measured/nitro-enclave/src/host.rs], [src/proofs/workers/nitro/src/lib.rs])

    The host sends requests to the enclave over the vsock and accepts an answer only
    with a genuine attestation of the expected image that commits to the transition
    and to the request's nonce, and with a signature of the attested key.  The worker
    builds the witness of a claimed job, has the enclave prove it, and compares the
    transition with the request. *)

From stdpp Require Import pretty.
From S2P Require Import Prelude Program Encoding ProofTypes ProverTypes Race Aggregation NitroWire.
From S2P Require Import Attestation NitroEnclave.

(** ** The host *)

Inductive NitroProverError :=
| NpConnect (m : string)
| NpFrame (e : FrameError)
| NpEnclave (message : string)
| NpAttestation (e : AttestationError)
| UnexpectedResponse (variant : string)
| InvalidSignature (m : string)
| SignatureMismatch (recovered expected : string).

(** Randomness for the nonce, the connection, and the system clock in seconds. *)
Inductive host_call := ReadNonce | VsockConnect | SystemNow.

Definition HostSig : Sig := MkSig host_call (fun c =>
  match c with
  | ReadNonce => result bytes string
  | VsockConnect => result unit string
  | SystemNow => Z
  end).

Record NitroRangeProofRequest := {
  np_witness_rkyv : bytes; np_expected : option TransitionPublicValues
}.

Record NitroRangeProofArtifact := {
  na_transition_public_values : TransitionPublicValues; na_attestation_doc : bytes; na_signature : bytes
}.

Section host.
Context (keccak256 : bytes -> B256) (ec : Secp) (lib : Crypto) `{!Cbor EnclaveRequest, !Cbor EnclaveResponse}.
Context {H : Sig} `{!Sub HostSig H, !Sub IoSig H}.
Context (expected_pcrs : ExpectedPcrs).

Definition generate_nonce : prog H (result bytes NitroProverError) :=
  do r <- trigger (ReadNonce : call HostSig);
  Ret (map_err (fun e => NpEnclave ("nonce generation failed: " +:+ e)) r).

Definition round_trip (request : EnclaveRequest) : prog H (result EnclaveResponse NitroProverError) :=
  do? _u <- (do r <- trigger (VsockConnect : call HostSig); Ret (map_err NpConnect r));
  do? _u <- (do r <- lift (write_frame request); Ret (map_err NpFrame r));
  do r <- lift (read_frame (T := EnclaveResponse)); Ret (map_err NpFrame r).

Definition verify_proof_signature (signature : bytes) (t : TransitionPublicValues) (expected_pub_key : bytes)
    : result unit NitroProverError :=
  let? _u := ensure (bool_decide (length signature = 65%nat))
    (InvalidSignature ("expected 65 bytes, got " +:+ pretty (length signature))) in
  let commitment := transition_commitment keccak256 t in
  let? sig := map_err InvalidSignature (ec_from_slice ec (take 64 signature)) in
  let v := nth 64 signature 0 in
  let? rec_id := ok_or (recovery_id ((v - 27) mod 256))
    (InvalidSignature ("invalid secp256k1 recovery id byte: " +:+ pretty v)) in
  let? recovered := map_err InvalidSignature (recover_from_prehash ec commitment sig rec_id) in
  ensure (bool_decide (recovered = expected_pub_key))
    (SignatureMismatch (hex_encode recovered) (hex_encode expected_pub_key)).

Definition get_public_key_async : prog H (result (bytes * bytes * ExpectedPcrs) NitroProverError) :=
  do? nonce <- generate_nonce;
  do? response <- round_trip (PublicKeyRequest nonce);
  match response with
  | AttestationResponse doc key =>
      do now <- trigger (SystemNow : call HostSig);
      Ret (map_err NpAttestation
        (let? _u := verify_cose_sign1_signature lib now doc in
         let? _u := verify_nonce lib doc nonce in
         let? _u := verify_nsm_public_key lib doc key in
         let? attested_pcrs := extract_pcrs lib doc in
         let? _u := if negb (is_placeholder expected_pcrs)
                    then (let? _d := verify_pcrs_only lib doc expected_pcrs in Ok tt) else Ok tt in
         Ok (doc, key, attested_pcrs)))
  | ErrorResponse m => Ret (Err (NpEnclave m))
  | RangeResponse _ _ _ => Ret (Err (UnexpectedResponse "range"))
  | BareAttestation _ => Ret (Err (UnexpectedResponse "bare_attestation"))
  end.

Definition get_attestation : prog H (result bytes NitroProverError) :=
  do? response <- round_trip GetAttestation;
  Ret match response with
      | BareAttestation doc => Ok doc
      | ErrorResponse m => Err (NpEnclave m)
      | AttestationResponse _ _ => Err (UnexpectedResponse "attestation")
      | RangeResponse _ _ _ => Err (UnexpectedResponse "range")
      end.

Definition prove_range (request : NitroRangeProofRequest) : prog H (result NitroRangeProofArtifact NitroProverError) :=
  do? nonce <- generate_nonce;
  do? response <- round_trip (RangeRequest PROTOCOL_VERSION (np_witness_rkyv request) (np_expected request) nonce);
  match response with
  | RangeResponse t doc signature =>
      let artifact := {| na_transition_public_values := t; na_attestation_doc := doc; na_signature := signature |} in
      if negb (is_placeholder expected_pcrs) then
        let expected_user_data := transition_commitment keccak256 t in
        do now <- trigger (SystemNow : call HostSig);
        Ret (let? _d := map_err NpAttestation (parse_check_and_verify lib now doc expected_pcrs expected_user_data) in
             let? _u := map_err NpAttestation (verify_nonce lib doc nonce) in
             let? certified_pub_key := map_err NpAttestation (extract_nsm_public_key lib doc) in
             let? _u := verify_proof_signature signature t certified_pub_key in
             Ok artifact)
      else Ret (Ok artifact)
  | ErrorResponse m => Ret (Err (NpEnclave m))
  | AttestationResponse _ _ => Ret (Err (UnexpectedResponse "attestation"))
  | BareAttestation _ => Ret (Err (UnexpectedResponse "bare_attestation"))
  end.

(** ** What an accepted artifact is *)

(** The signature is one of this transition under this key. *)
Definition signed_by (key : bytes) (t : TransitionPublicValues) (signature : bytes) : Prop :=
  length signature = 65%nat /\
  exists sig id, ec_from_slice ec (take 64 signature) = Ok sig /\ (nth 64 signature 0 - 27) mod 256 = id /\
    0 <= id < 4 /\ recover_from_prehash ec (transition_commitment keccak256 t) sig id = Ok key.

Lemma proof_signature_spec signature t key u :
  verify_proof_signature signature t key = Ok u <-> signed_by key t signature.
Proof.
  destruct u. unfold verify_proof_signature, signed_by, recovery_id. rewrite rbind_Ok. repeat setoid_rewrite rbind_Ok.
  repeat setoid_rewrite map_err_Ok. setoid_rewrite ok_or_Ok. setoid_rewrite ensure_Ok.
  setoid_rewrite bool_decide_eq_true. split.
  - intros ([]&Hlen&sig&Hsig&id&Hid&k&Hrec&->). split; [done|]. exists sig, id.
    destruct ((0 <=? _) && _) eqn:Hb; [|done]. injection Hid as Hid.
    apply andb_true_iff in Hb as [?%Z.leb_le ?%Z.ltb_lt]. subst id. by repeat split.
  - intros (Hlen&sig&id&Hsig&Hid&Hb&Hrec). exists tt. split; [done|]. exists sig. split; [done|]. exists id.
    rewrite Hid. replace ((0 <=? id) && (id <? 4)) with true by
      (symmetry; apply andb_true_iff; split; [apply Z.leb_le|apply Z.ltb_lt]; lia).
    split; [done|]. by exists key.
Qed.

(** A genuine document of the expected image that commits to the transition and to
    the nonce, and certifies the key that signed the transition. *)
Definition attested (now : Z) (nonce_sent : bytes) (a : NitroRangeProofArtifact) : Prop :=
  exists d key,
    genuine lib now (na_attestation_doc a) d /\ measured expected_pcrs d /\
    user_data d = Some (transition_commitment keccak256 (na_transition_public_values a)) /\
    nonce d = Some nonce_sent /\ public_key d = Some key /\
    signed_by key (na_transition_public_values a) (na_signature a).

#[local] Opaque parse_check_and_verify verify_nonce extract_nsm_public_key verify_proof_signature.
Lemma accept_spec now nonce_sent a :
  (let? _d := map_err NpAttestation (parse_check_and_verify lib now (na_attestation_doc a) expected_pcrs
      (transition_commitment keccak256 (na_transition_public_values a))) in
   let? _u := map_err NpAttestation (verify_nonce lib (na_attestation_doc a) nonce_sent) in
   let? certified_pub_key := map_err NpAttestation (extract_nsm_public_key lib (na_attestation_doc a)) in
   let? _u := verify_proof_signature (na_signature a) (na_transition_public_values a) certified_pub_key in
   Ok a) = Ok a <-> attested now nonce_sent a.
Proof.
  rewrite rbind_Ok. repeat setoid_rewrite rbind_Ok. repeat setoid_rewrite map_err_Ok.
  setoid_rewrite accepted_spec. setoid_rewrite nonce_spec. setoid_rewrite public_key_spec.
  setoid_rewrite proof_signature_spec. unfold attested. split.
  - intros (d&(Hg&Hm&Hu)&[]&(s1&d1&Hc1&Hn)&key&(s2&d2&Hc2&Hk)&[]&Hs&_). pose proof Hg as (s&?&?&?&Hc&_).
    destruct (carries_inj _ _ _ _ _ _ Hc Hc1) as [_ <-], (carries_inj _ _ _ _ _ _ Hc Hc2) as [_ <-].
    exists d, key. naive_solver.
  - intros (d&key&Hg&Hm&Hu&Hn&Hk&Hs). pose proof Hg as (s&?&?&?&Hc&_). exists d. split; [done|]. exists tt.
    split; [by exists s, d|]. exists key. split; [by exists s, d|]. exists tt. done.
Qed.

Lemma ask_host (c : call HostSig) {A} (f : reply HostSig c -> prog H A) tr a :
  runs (do x <- trigger c; f x) tr a -> exists x tr', saw c x tr /\ runs (f x) tr' a /\
    forall c' y, saw (S := HostSig) c' y tr' -> saw c' y tr.
Proof.
  intros (x&tr'&->&Hf). exists (prj c x), tr'. split; [apply saw_here|]. split; [done|]. intros. by apply saw_cons.
Qed.

(** An artifact that the host accepts: checked, or taken unchecked with placeholder PCRs. *)
Definition accepted (tr : list (event H)) (a : NitroRangeProofArtifact) : Prop :=
  is_placeholder expected_pcrs = true \/
  exists nonce_sent now, saw (ReadNonce : call HostSig) (Ok nonce_sent) tr /\
    saw (SystemNow : call HostSig) now tr /\ attested now nonce_sent a.

Lemma prove_range_accepted request tr a : runs (prove_range request) tr (Ok a) -> accepted tr a.
Proof.
  unfold prove_range, accepted. intros [(t1&t2&nonce_sent&->&Hn&Hr)|(e&_&?)]%runs_bind_try; [|done].
  apply ask_host in Hn as (r&t1'&Hn&[-> Heq]&_). symmetry in Heq. apply map_err_Ok in Heq as ->.
  apply runs_bind_try in Hr as [(t3&t4&resp&->&_&Hr)|(e&_&?)]; [|done].
  destruct resp as [t doc signature|? ?|?|?]; try by destruct Hr.
  destruct (is_placeholder expected_pcrs); [by left|right]. cbn [negb] in Hr.
  apply ask_host in Hr as (now&t4'&Hnow&[-> Heq]&_). exists nonce_sent, now.
  split_and!; [by apply saw_app_l|by apply saw_app_r, saw_app_r|].
  assert (a = {| na_transition_public_values := t; na_attestation_doc := doc; na_signature := signature |}) as ->.
  { symmetry in Heq. repeat apply rbind_Ok in Heq as (?&_&Heq). by injection Heq as <-. }
  by apply accept_spec.
Qed.

(** With pinned measurements the host returns an artifact only after it has seen a
    document that is genuine at the current time, measured on the pinned image, and
    made for this request: it commits to the transition and to the nonce that was
    drawn for the request, and it certifies the key that signed the transition. *)
Theorem artifact_is_attested request tr a :
  is_placeholder expected_pcrs = false -> runs (prove_range request) tr (Ok a) ->
  exists nonce_sent now, saw (ReadNonce : call HostSig) (Ok nonce_sent) tr /\
    saw (SystemNow : call HostSig) now tr /\ attested now nonce_sent a.
Proof. intros Hp [?|?]%prove_range_accepted; [congruence|done]. Qed.

(** One document attests one transition: two transitions with the same document are
    equal, unless their encodings collide under Keccak. *)
Theorem document_binds_transition now n a b :
  attested now n a -> attested now n b -> na_attestation_doc a = na_attestation_doc b ->
  let ta := na_transition_public_values a in
  let tb := na_transition_public_values b in
  transition_typed ta -> transition_typed tb ->
  u256 (keccak256 (transition_abi_encode ta)) -> u256 (keccak256 (transition_abi_encode tb)) ->
  (keccak256 (transition_abi_encode ta) = keccak256 (transition_abi_encode tb) ->
   transition_abi_encode ta = transition_abi_encode tb) ->
  ta = tb.
Proof.
  intros (da&ka&Hga&_&Hua&_) (db&kb&Hgb&_&Hub&_) Hdoc ta tb Hta Htb Hka Hkb Hcol.
  destruct Hga as (sa&?&?&?&Hca&_), Hgb as (sb&?&?&?&Hcb&_). rewrite Hdoc in Hca.
  destruct (carries_inj _ _ _ _ _ _ Hca Hcb) as [_ ->]. rewrite Hua in Hub. apply (base.inj Some) in Hub.
  apply transition_abi_inj; [done|done|]. apply Hcol. apply abi_word_inj; [exact Hka|exact Hkb|exact Hub].
Qed.

#[local] Opaque verify_cose_sign1_signature verify_nsm_public_key extract_pcrs verify_pcrs_only.

(** A document that is genuine at the current time carries the key, together with
    the nonce of the request and these measurements, which are those of no debug image
    and, if measurements are pinned, the pinned ones. *)
Definition certified (tr : list (event H)) (doc key : bytes) (attested_pcrs : ExpectedPcrs) : Prop :=
  exists nonce_sent now d,
    saw (ReadNonce : call HostSig) (Ok nonce_sent) tr /\ saw (SystemNow : call HostSig) now tr /\
    genuine lib now doc d /\ nonce d = Some nonce_sent /\ public_key d = Some key /\ measured attested_pcrs d /\
    (is_placeholder expected_pcrs = false -> attested_pcrs = expected_pcrs).

Lemma certified_mono t1 t2 doc key p : t1 ⊆ t2 -> certified t1 doc key p -> certified t2 doc key p.
Proof.
  intros Hs (n&now&d&Hn&Hnow&?). exists n, now, d. split; [by eapply saw_mono|]. split; [by eapply saw_mono|done].
Qed.

(** The key that is handed on for registration is certified. *)
Lemma public_key_certified tr doc key attested_pcrs :
  runs get_public_key_async tr (Ok (doc, key, attested_pcrs)) -> certified tr doc key attested_pcrs.
Proof.
  unfold get_public_key_async. intros [(t1&t2&nonce_sent&->&Hn&Hr)|(e&_&?)]%runs_bind_try; [|done].
  apply ask_host in Hn as (r&t1'&Hn&[-> Heq]&_). symmetry in Heq. apply map_err_Ok in Heq as ->.
  apply runs_bind_try in Hr as [(t3&t4&resp&->&_&Hr)|(e&_&?)]; [|done].
  destruct resp as [? ? ?|doc' key'|?|?]; try by destruct Hr.
  apply ask_host in Hr as (now&t4'&Hnow&[-> Heq]&_). symmetry in Heq. apply map_err_Ok in Heq.
  apply rbind_Ok in Heq as ([]&[d Hg]%signature_spec&Heq).
  apply rbind_Ok in Heq as ([]&(s1&d1&Hc1&Hn1)%nonce_spec&Heq).
  apply rbind_Ok in Heq as ([]&(s2&d2&Hc2&Hk2)%verify_public_key_spec&Heq).
  apply rbind_Ok in Heq as (p&(s3&d3&Hc3&Hm3)%extract_pcrs_spec&Heq).
  apply rbind_Ok in Heq as (u&Hpin&[= <- <- <-]). pose proof Hg as (s&?&?&?&Hc&_).
  destruct (carries_inj _ _ _ _ _ _ Hc Hc1) as [_ <-], (carries_inj _ _ _ _ _ _ Hc Hc2) as [_ <-],
    (carries_inj _ _ _ _ _ _ Hc Hc3) as [_ <-].
  exists nonce_sent, now, d. split_and!; try done; [by apply saw_app_l|by apply saw_app_r, saw_app_r|].
  intros Hp. rewrite Hp in Hpin. apply rbind_Ok in Hpin as (d4&[[s4 Hc4] Hm4]%pcrs_only_spec&_).
  destruct (carries_inj _ _ _ _ _ _ Hc Hc4) as [_ <-]. by apply (measured_inj _ _ d).
Qed.
End host.

(** ** Host and enclave on one connection *)

Section exchange.
Context (keccak256 : bytes -> B256) (ec : Secp) (lib : Crypto) `{!Cbor EnclaveRequest, !Cbor EnclaveResponse}.
Context (expected_pcrs : ExpectedPcrs) (enc : Enclave ec).
Context {W : Type} (device : handler EnclaveSig W).
Context (fresh_nonce : bytes) (now : Z).

(** What the host has written, what the enclave has answered, and the enclave's device. *)
Record Vsock := { up : bytes; down : option bytes; dev : W }.

(** The enclave's side: one connection, on what the host has written. *)
Definition enclave_answers (v : Vsock) : bytes * W :=
  match down v with
  | Some d => (d, dev v)
  | None => let '(dv, s) := world_of (beside device stream) (handle_connection keccak256 ec enc) (dev v, up v) in (s, dv)
  end.

Definition vsock : handler (HostSig ⊕ IoSig) Vsock := fun c v =>
  match c return reply (HostSig ⊕ IoSig) c * Vsock with
  | inl ReadNonce => (Ok fresh_nonce, v)
  | inl VsockConnect => (Ok tt, {| up := []; down := None; dev := dev v |})
  | inl SystemNow => (now, v)
  | inr (WriteAll b) => (Ok tt, {| up := up v ++ b; down := down v; dev := dev v |})
  | inr Flush | inr (TryReserve _) => (Ok tt, v)
  | inr (ReadExact n) =>
      let '(d, dv) := enclave_answers v in
      let '(r, d') := stream (ReadExact n) d in
      (r, {| up := up v; down := Some d'; dev := dv |})
  end.

(** *** The host's writes and reads *)

Lemma vsock_writes {A} (p : prog IoSig A) v :
  only (fun c : call IoSig => match c with WriteAll _ | Flush => True | _ => False end) p ->
  value_of vsock (lift p) v = value_of stream p (up v) /\
  world_of vsock (lift p) v = {| up := world_of stream p (up v); down := down v; dev := dev v |}.
Proof.
  unfold value_of, world_of. revert v. induction p as [a|c k IH]; intros v; [by destruct v|]. intros [Hc Hk].
  destruct c as [b| |n|n]; try done; cbn [lift interp inj prj sub_inr sub_refl vsock stream].
  - destruct (IH (Ok tt) {| up := up v ++ b; down := down v; dev := dev v |} (Hk _)) as [H1 H2].
    destruct (interp vsock _ _) as [[? ?] ?], (interp stream _ _) as [[? ?] ?]. done.
  - destruct (IH (Ok tt) v (Hk _)) as [H1 H2].
    destruct (interp vsock _ _) as [[? ?] ?], (interp stream _ _) as [[? ?] ?]. done.
Qed.

Lemma vsock_reads {A} (p : prog IoSig A) v :
  only (fun c : call IoSig => match c with ReadExact _ | TryReserve _ => True | _ => False end) p ->
  value_of vsock (lift p) v = value_of stream p (enclave_answers v).1.
Proof.
  unfold value_of. revert v. induction p as [a|c k IH]; intros v; [done|]. intros [Hc Hk].
  destruct c as [b| |n|n]; try done; cbn [lift interp inj prj sub_inr sub_refl vsock].
  - destruct (enclave_answers v) as [d dv] eqn:Hd. destruct (stream (ReadExact n) d) as [r d'] eqn:Hs. cbn [fst].
    rewrite Hs. specialize (IH r {| up := up v; down := Some d'; dev := dv |} (Hk r)). cbn [enclave_answers down fst] in IH.
    destruct (interp vsock _ _) as [[? ?] ?], (interp stream _ _) as [[? ?] ?]. done.
  - cbn [stream]. specialize (IH (Ok tt) v (Hk _)).
    destruct (interp vsock _ _) as [[? ?] ?], (interp stream _ _) as [[? ?] ?]. done.
Qed.

(** *** The enclave's connection *)

Lemma enclave_connection request bq dv resp bs :
  cbor_encode request = Ok bq -> Z.of_nat (length bq) <= MAX_FRAME_BYTES ->
  value_of device (dispatch keccak256 ec enc request) dv = Ok resp ->
  cbor_encode resp = Ok bs -> Z.of_nat (length bs) <= MAX_FRAME_BYTES ->
  (world_of (beside device stream) (handle_connection keccak256 ec enc) (dv, frame bq)).2 = frame bs.
Proof.
  intros Hq Hlq Hd Hs Hls. unfold handle_connection, bind_try. rewrite world_of_bind.
  destruct (beside_right device stream (read_frame (T := EnclaveRequest)) dv (frame bq)) as [-> ->].
  pose proof (read_frame_stream (T := EnclaveRequest) bq [] Hlq) as Hr. rewrite app_nil_r in Hr.
  injection Hr as -> ->. rewrite (cbor_decode_encode _ _ Hq). cbn [map_err]. rewrite world_of_bind.
  destruct (beside_left device stream (dispatch keccak256 ec enc request) dv []) as [-> ->]. rewrite Hd.
  destruct (beside_right device stream (write_frame resp) (world_of device (dispatch keccak256 ec enc request) dv) [])
    as [_ ->]. cbn [snd]. by destruct (write_frame_stream resp bs [] Hs Hls) as (_&->&_).
Qed.

(** The host's round trip over the vsock gives the enclave's answer. *)
Lemma vsock_round_trip request bq resp bs v :
  cbor_encode request = Ok bq -> Z.of_nat (length bq) <= MAX_FRAME_BYTES ->
  value_of device (dispatch keccak256 ec enc request) (dev v) = Ok resp ->
  cbor_encode resp = Ok bs -> Z.of_nat (length bs) <= MAX_FRAME_BYTES ->
  value_of vsock (round_trip request) v = Ok resp.
Proof.
  intros Hq Hlq Hd Hs Hls. unfold round_trip, bind_try. rewrite value_of_bind.
  set (v0 := {| up := []; down := None; dev := dev v |}).
  change (value_of vsock _ v) with (Ok tt : result unit NitroProverError).
  change (world_of vsock _ v) with v0. cbv beta iota. rewrite value_of_bind.
  assert (value_of vsock (do r <- lift (write_frame request); Ret (map_err NpFrame r)) v0 = Ok tt /\
    world_of vsock (do r <- lift (write_frame request); Ret (map_err NpFrame r)) v0 =
      {| up := frame bq; down := None; dev := dev v |}) as [-> ->].
  { rewrite value_of_bind, world_of_bind. destruct (vsock_writes (write_frame request) v0 (write_frame_only request))
      as [-> ->]. destruct (write_frame_stream request bq (up v0) Hq Hlq) as (->&->&_). done. }
  rewrite value_of_bind, (vsock_reads read_frame) by apply read_frame_only.
  cbn [enclave_answers down up dev].
  pose proof (enclave_connection request bq (dev v) resp bs Hq Hlq Hd Hs Hls) as Hw.
  destruct (world_of (beside device stream) _ _) as [dv s]. cbn [snd fst] in *. subst s.
  pose proof (read_frame_stream (T := EnclaveResponse) bs [] Hls) as Hr. rewrite app_nil_r in Hr.
  injection Hr as -> _. by rewrite (cbor_decode_encode _ _ Hs).
Qed.

(** *** The whole exchange *)

Definition own_key : bytes := encoded_public_key ec (signing_key ec enc).

Lemma sign_signed (laws : SecpLaws ec) t signature :
  sign_transition_public_values keccak256 ec (signing_key ec enc) t = Ok signature ->
  signed_by keccak256 ec own_key t signature.
Proof.
  intros (sig&id&->&Hid&Hrec)%(sign_recovers keccak256 ec laws).
  destruct (read_signature ec laws sig) as [Hread Hlen]. split; [rewrite length_app, Hlen; done|].
  exists sig, id. rewrite take_app_length' by done. split; [done|].
  rewrite app_nth2 by lia. rewrite Hlen. cbn [nth Nat.sub]. rewrite Z.add_simpl_r, Z.mod_small by lia. done.
Qed.

(** The answer of the device to an attestation request of the enclave: a genuine
    document of the enclave's image with the values that were passed. *)
Definition device_attests (commitment : bytes) (dv : W) (doc : bytes) : Prop :=
  (device (NsmAttestation (nsm_fd ec enc) (Some commitment) (Some fresh_nonce) (Some own_key)) dv).1 = NsmDocument doc /\
  exists d, genuine lib now doc d /\ measured expected_pcrs d /\ user_data d = Some commitment /\
    nonce d = Some fresh_nonce /\ public_key d = Some own_key.

(** C11: An enclave that runs the expected image, asked over the vsock, is believed:
    whenever it derives a transition (the expected one, if the host expects one), signs
    it, and its device attests it, the host returns exactly this transition with the
    document and the signature. *)
Theorem honest_enclave_accepted (laws : SecpLaws ec) request t dv1 doc signature bq bs v :
  device (DeriveRange (np_witness_rkyv request)) (dev v) = (Ok t, dv1) ->
  (forall e, np_expected request = Some e -> e = t) ->
  sign_transition_public_values keccak256 ec (signing_key ec enc) t = Ok signature ->
  device_attests (transition_commitment keccak256 t) dv1 doc ->
  cbor_encode (RangeRequest PROTOCOL_VERSION (np_witness_rkyv request) (np_expected request) fresh_nonce) = Ok bq ->
  Z.of_nat (length bq) <= MAX_FRAME_BYTES ->
  cbor_encode (RangeResponse t doc signature) = Ok bs -> Z.of_nat (length bs) <= MAX_FRAME_BYTES ->
  value_of vsock (prove_range keccak256 ec lib expected_pcrs request) v =
  Ok {| na_transition_public_values := t; na_attestation_doc := doc; na_signature := signature |}.
Proof.
  intros Hderive Hexp Hsign [Hdoc (d&Hg&Hm&Hu&Hn&Hk)] Hq Hlq Hs Hls.
  set (a := {| na_transition_public_values := t; na_attestation_doc := doc; na_signature := signature |}).
  assert (value_of device (dispatch keccak256 ec enc (RangeRequest PROTOCOL_VERSION (np_witness_rkyv request)
    (np_expected request) fresh_nonce)) (dev v) = Ok (RangeResponse t doc signature)) as Hd.
  { unfold dispatch, check_version, handle_range, request_attestation_doc. rewrite Z.eqb_refl.
    unfold value_of. cbn [bind_try bind interp]. rewrite Hderive. cbn [bind interp].
    replace (from_option _ _ (np_expected request)) with (Ok tt : result unit string); cycle 1.
    { destruct (np_expected request) as [e|]; [|done]. cbn [from_option]. symmetry. by apply values_match, Hexp. }
    rewrite Hsign. cbn [bind interp]. unfold own_key in Hdoc.
    destruct (device _ dv1) as [r dv2]. cbn [fst] in Hdoc. by subst r. }
  unfold prove_range, bind_try. rewrite value_of_bind.
  change (value_of vsock generate_nonce v) with (Ok fresh_nonce : result bytes NitroProverError).
  change (world_of vsock generate_nonce v) with v. cbv beta iota.
  rewrite value_of_bind, (vsock_round_trip _ _ _ _ _ Hq Hlq Hd Hs Hls).
  destruct (is_placeholder expected_pcrs); [done|]. cbn [negb].
  apply (accept_spec keccak256 ec lib expected_pcrs now fresh_nonce a).
  exists d, own_key. split_and!; try done. by apply sign_signed.
Qed.
End exchange.

(** ** The worker *)

Lemma asked {S T B} `{!Sub S T} (c : call S) (f : reply S c -> B) (tr : list (event T)) y :
  runs (do r <- trigger c; Ret (f r)) tr y -> exists x, saw c x tr /\ y = f x.
Proof. intros (x&tr'&->&->&->). exists (prj c x). split; [apply saw_here|done]. Qed.

Inductive nitro_job_call (Witness : Type) :=
| NitroGameContext (game : Address)
| NitroBuildRangeInput (start_block end_block : Z) (l1_head : option B256) (allow_unfinalized : bool).
Arguments NitroGameContext {Witness} game.
Arguments NitroBuildRangeInput {Witness} start_block end_block l1_head allow_unfinalized.

Definition NitroJobSig (Witness : Type) : Sig := MkSig (nitro_job_call Witness) (fun c =>
  match c with
  | NitroGameContext _ => result ProofGameContext ProofGameContextError
  | NitroBuildRangeInput _ _ _ _ => result Witness string
  end).

Inductive NitroJobError :=
| NjContext (e : ProofGameContextError)
| NjGame (e : ProofGameContextError)
| NjWitness (m : string)
| NjSerialize (m : string)
| NjEnclave (e : NitroProverError)
| NjPostRoot (actual claimed : B256)
| NjBlock (actual claimed : Z)
| NjL1Head (actual claimed : B256)
| NjConfig (actual expected : B256).

Section worker.
Context (keccak256 : bytes -> B256) (ec : Secp) (lib : Crypto) `{!Cbor EnclaveRequest, !Cbor EnclaveResponse}.
Context {Witness : Type} (rkyv_to_bytes : Witness -> result bytes string).
Context (rollup_config_hash : B256) (expected_pcrs : ExpectedPcrs).

Abbreviation JobS := (NitroJobSig Witness ⊕ (HostSig ⊕ IoSig)).

Definition nitro_verifier_id : B256 := keccak256 (pcr0 expected_pcrs).

Definition from_witness_data (w : Witness) (expected : option TransitionPublicValues)
    : result NitroRangeProofRequest string :=
  let? b := rkyv_to_bytes w in
  Ok {| np_witness_rkyv := b; np_expected := expected |}.

Definition check_transition (request : ProofRequest) (t : TransitionPublicValues) : result unit NitroJobError :=
  let? _u := ensure (l2PostRoot t =? rq_root_claim request) (NjPostRoot (l2PostRoot t) (rq_root_claim request)) in
  let? _u := ensure (l2PostBlockNumber t =? rq_l2_block_number request)
    (NjBlock (l2PostBlockNumber t) (rq_l2_block_number request)) in
  let? _u := ensure (l1Head t =? rq_l1_head request) (NjL1Head (l1Head t) (rq_l1_head request)) in
  ensure (rollupConfigHash t =? rollup_config_hash) (NjConfig (rollupConfigHash t) rollup_config_hash).

Definition nitro_handle_claimed_job (request : ProofRequest) : prog JobS (result ProofData NitroJobError) :=
  do? ctx <- (do r <- trigger (NitroGameContext (rq_game request) : call (NitroJobSig Witness)); Ret (map_err NjContext r));
  do? start_block <- Ret (map_err NjGame (validated_start_block ctx (rq_game request) (rq_root_claim request)
    (rq_l2_block_number request) (rq_l1_head request) rollup_config_hash));
  do? input <- (do r <- trigger (NitroBuildRangeInput start_block (rq_l2_block_number request)
      (Some (rq_l1_head request)) false : call (NitroJobSig Witness)); Ret (map_err NjWitness r));
  do? nitro_request <- Ret (map_err NjSerialize (from_witness_data input None));
  do? artifact <- (do r <- prove_range keccak256 ec lib expected_pcrs nitro_request; Ret (map_err NjEnclave r));
  Ret (let? _u := check_transition request (na_transition_public_values artifact) in
       Ok (NitroData (na_attestation_doc artifact) (transition_abi_encode (na_transition_public_values artifact))
             (na_signature artifact))).

Lemma check_transition_spec request t u :
  check_transition request t = Ok u <->
  l2PostRoot t = rq_root_claim request /\ l2PostBlockNumber t = rq_l2_block_number request /\
  l1Head t = rq_l1_head request /\ rollupConfigHash t = rollup_config_hash.
Proof.
  destruct u. unfold check_transition. rewrite rbind_Ok. repeat setoid_rewrite rbind_Ok. setoid_rewrite ensure_Ok.
  setoid_rewrite Z.eqb_eq. split; [naive_solver|]. intros (?&?&?&?). do 3 (exists tt; split; [done|]). done.
Qed.

(** A proof that the worker returns is for the claimed job: the request matches its
    game, the witness was built for the range from the game's start block to the
    requested block under the requested L1 head, and the proof carries the encoding of
    a transition to the requested root at that block, under that L1 head and the
    configured rollup, which the host accepted. *)
Theorem nitro_job_sound request tr data :
  runs (nitro_handle_claimed_job request) tr (Ok data) ->
  exists ctx start_block input a,
    saw (NitroGameContext (rq_game request) : call (NitroJobSig Witness)) (Ok ctx) tr /\
    validated_start_block ctx (rq_game request) (rq_root_claim request) (rq_l2_block_number request)
      (rq_l1_head request) rollup_config_hash = Ok start_block /\
    saw (NitroBuildRangeInput start_block (rq_l2_block_number request) (Some (rq_l1_head request)) false
      : call (NitroJobSig Witness)) (Ok input) tr /\
    accepted keccak256 ec lib expected_pcrs tr a /\
    (exists b t1 t2, rkyv_to_bytes input = Ok b /\ tr = t1 ++ t2 /\
       runs (prove_range keccak256 ec lib expected_pcrs {| np_witness_rkyv := b; np_expected := None |}) t2 (Ok a)) /\
    data = NitroData (na_attestation_doc a) (transition_abi_encode (na_transition_public_values a)) (na_signature a) /\
    l2PostRoot (na_transition_public_values a) = rq_root_claim request /\
    l2PostBlockNumber (na_transition_public_values a) = rq_l2_block_number request /\
    l1Head (na_transition_public_values a) = rq_l1_head request /\
    rollupConfigHash (na_transition_public_values a) = rollup_config_hash.
Proof.
  intros [(t1&t2&ctx&->&Hctx&Hr)|(e&_&?)]%runs_bind_try; [|done].
  apply asked in Hctx as (x&Hctx&Hx). symmetry in Hx. apply map_err_Ok in Hx as ->.
  apply runs_bind_try in Hr as [(t3&t4&start_block&->&[-> Hstart]&Hr)|(e&_&?)]; [|done].
  symmetry in Hstart. apply map_err_Ok in Hstart.
  apply runs_bind_try in Hr as [(t5&t6&input&->&Hin&Hr)|(e&_&?)]; [|done].
  apply asked in Hin as (x&Hin&Hx). symmetry in Hx. apply map_err_Ok in Hx as ->.
  apply runs_bind_try in Hr as [(t7&t8&req&->&[-> Hreq]&Hr)|(e&_&?)]; [|done].
  symmetry in Hreq. apply map_err_Ok, rbind_Ok in Hreq as (b&Hb&[= <-]).
  apply runs_bind_try in Hr as [(t9&t10&a&->&Ha&->&Hdata)|(e&_&?)]; [|done].
  apply runs_bind in Ha as (t11&t12&r&->&Ha&->&Hx). symmetry in Hx. apply map_err_Ok in Hx as ->.
  symmetry in Hdata. apply rbind_Ok in Hdata as ([]&Hcheck%check_transition_spec&[= <-]).
  cbn [app]. rewrite !app_nil_r. exists ctx, start_block, input, a. rewrite app_assoc.
  split; [by do 2 apply saw_app_l|]. split; [done|]. split; [by apply saw_app_l, saw_app_r|]. split; [|split; [|done]].
  - apply prove_range_accepted in Ha as [?|(n&now&Hn&Hnow&Hatt)]; [by left|right]. exists n, now.
    split_and!; [by apply saw_app_r..|done].
  - exists b, (t1 ++ t5), t11. done.
Qed.
End worker.

(** ** A small instance

    One transition, a codec that knows the messages about it, libraries that accept
    one document, and a device that returns it. *)

Definition table_cbor {T} `{EqDecision T} (l : list T) : Cbor T.
Proof.
  refine {| cbor_encode v := match list_find (fun x => x = v) l with
                             | Some (i, _) => Ok [Z.of_nat i]
                             | None => Err "unknown"
                             end;
            cbor_decode b := match b with
                             | [i] => ok_or (l !! Z.to_nat i) "unknown"
                             | _ => Err "unknown"
                             end |}.
  intros v b. destruct (list_find _ l) as [[i x]|] eqn:Hf; [|done]. intros [= <-].
  apply list_find_Some in Hf as (Hi&->&_). by rewrite Nat2Z.id, Hi.
Defined.

#[export] Instance request_eq_dec : EqDecision EnclaveRequest.
Proof. solve_decision. Defined.
#[export] Instance response_eq_dec : EqDecision EnclaveResponse.
Proof. solve_decision. Defined.

Definition sum_hash (l : bytes) : B256 := foldr Z.add 0 l.
Definition toy_values : TransitionPublicValues :=
  {| l1Head := 51; l2PreRoot := 2; l2PreBlockNumber := 550; l2PostRoot := 34; l2PostBlockNumber := 1000;
     rollupConfigHash := 68 |}.
Definition toy_nonce : bytes := [5].
Definition toy_pk : bytes := [4; 9].
Definition toy_sig : bytes := replicate 64 0 ++ [27].

Definition toy_ec : Secp :=
  {| SigningKey := unit; key_from_bytes _ := Ok tt; encoded_public_key _ := toy_pk; EcSignature := unit;
     sign_prehash_recoverable _ _ := Ok (tt, 1); normalize_s _ := Some tt; ec_to_bytes _ := replicate 64 0;
     ec_from_slice _ := Ok tt; recover_from_prehash _ _ _ := Ok toy_pk |}.

Lemma toy_ec_laws : SecpLaws toy_ec.
Proof.
  split; simpl; [|done|].
  - intros k m s id [= <- <-]. split; [lia|done].
  - by intros [].
Qed.

Definition toy_pcrs : ExpectedPcrs :=
  {| pcr0 := replicate 48 3; pcr1 := replicate 48 3; pcr2 := replicate 48 3 |}.
Definition toy_payload : AttestationDoc :=
  {| pcrs := {[0 := replicate 48 3; 1 := replicate 48 3; 2 := replicate 48 3]}; certificate := [7];
     cabundle := [[8]]; public_key := Some toy_pk; user_data := Some (transition_commitment sum_hash toy_values);
     nonce := Some toy_nonce |}.
Definition toy_cert : X509Certificate :=
  {| tbs_certificate := []; signature_value := []; subject_public_key := []; key_usage := Ok (Some {| key_cert_sign := true; digital_signature := true |});
     basic_constraints := Ok None; is_valid_at _ := true |}.
Definition toy_lib : Crypto :=
  {| from_tagged_slice _ := Err "untagged";
     cose_from_slice b := Ok {| protected := []; payload := Some b; cose_signature := [] |};
     tbs_data _ := []; decode_payload _ := Ok toy_payload; from_der _ := Ok toy_cert; asn1_timestamp n := Ok n;
     VerifyingKey := unit; from_sec1_bytes _ := Ok tt; to_encoded_point _ := []; P384Signature := unit;
     p384_from_slice _ := Ok tt; p384_from_der _ := Ok tt; p384_to_bytes _ := []; p384_verify _ _ _ := Ok tt; TrustAnchor := unit;
     anchor_from_trusted_cert _ := Ok tt; EndEntityCert := unit; end_entity _ := Ok tt;
     verify_for_usage _ _ _ _ := Ok tt; aws_root_ca_der := Ok [8] |}.

Definition toy_enclave : Enclave toy_ec := {| nsm_fd := 3; signing_key := tt : SigningKey toy_ec |}.
Definition toy_device : handler EnclaveSig unit := fun c w =>
  match c return reply EnclaveSig c * unit with
  | NsmInit => (3, w)
  | NsmGetRandom _ => (NsmRandom [1], w)
  | NsmAttestation _ _ _ _ => (NsmDocument [1], w)
  | DeriveRange _ => (Ok toy_values, w)
  end.

#[local] Instance toy_requests : Cbor EnclaveRequest :=
  table_cbor [RangeRequest PROTOCOL_VERSION [6] None toy_nonce; PublicKeyRequest toy_nonce].
#[local] Instance toy_responses : Cbor EnclaveResponse :=
  table_cbor [RangeResponse toy_values [1] toy_sig; AttestationResponse [1] toy_pk].

Definition toy_vsock : handler (HostSig ⊕ IoSig) (Vsock (W := unit)) :=
  vsock sum_hash toy_ec toy_enclave toy_device toy_nonce 1000.
Definition toy_start : Vsock (W := unit) := {| up := []; down := None; dev := tt |}.
Definition toy_range_request : NitroRangeProofRequest := {| np_witness_rkyv := [6]; np_expected := None |}.
Definition toy_artifact : NitroRangeProofArtifact :=
  {| na_transition_public_values := toy_values; na_attestation_doc := [1]; na_signature := toy_sig |}.
Abbreviation toy_prove := (prove_range (H := HostSig ⊕ IoSig) sum_hash toy_ec toy_lib toy_pcrs toy_range_request).

Lemma toy_proved : value_of toy_vsock toy_prove toy_start = Ok toy_artifact.
Proof. vm_compute. reflexivity. Qed.

Lemma toy_genuine : genuine toy_lib 1000 [1] toy_payload.
Proof.
  exists {| protected := []; payload := Some [1]; cose_signature := [] |}, toy_cert, tt, tt.
  split; [split; [right; split; [by eexists|done]|by exists [1]]|]. split; [|done].
  exists [8], [], toy_cert, 1000, tt, tt. split_and!; try done.
  - constructor; [|constructor]. by eexists _, _.
  - by eexists _, _.
Qed.

Lemma toy_measured : measured toy_pcrs toy_payload.
Proof. split_and!; try done. Qed.

Lemma toy_attested : attested sum_hash toy_ec toy_lib toy_pcrs 1000 toy_nonce toy_artifact.
Proof.
  exists toy_payload, toy_pk. split; [apply toy_genuine|]. split; [apply toy_measured|].
  do 3 (split; [reflexivity|]). split; [reflexivity|]. exists (tt : EcSignature toy_ec), 0. by split_and!.
Qed.

Lemma honest_enclave_accepted_witness : value_of toy_vsock toy_prove toy_start = Ok toy_artifact.
Proof.
  apply (honest_enclave_accepted sum_hash toy_ec toy_lib toy_pcrs toy_enclave toy_device toy_nonce 1000 toy_ec_laws
    toy_range_request toy_values tt [1] toy_sig [0] [0] toy_start).
  - reflexivity.
  - intros e He. discriminate He.
  - reflexivity.
  - split; [reflexivity|]. exists toy_payload. split; [apply toy_genuine|]. split; [apply toy_measured|].
    split; [reflexivity|]. split; reflexivity.
  - reflexivity.
  - vm_compute. congruence.
  - vm_compute. reflexivity.
  - vm_compute. congruence.
Defined.

Lemma artifact_is_attested_witness :
  exists nonce_sent now,
    saw (ReadNonce : call HostSig) (Ok nonce_sent) (trace_of toy_vsock toy_prove toy_start) /\
    saw (SystemNow : call HostSig) now (trace_of toy_vsock toy_prove toy_start) /\
    attested sum_hash toy_ec toy_lib toy_pcrs now nonce_sent toy_artifact.
Proof.
  apply (artifact_is_attested sum_hash toy_ec toy_lib toy_pcrs toy_range_request
    (trace_of toy_vsock toy_prove toy_start) toy_artifact); [vm_compute; reflexivity|].
  rewrite <-toy_proved. apply interp_runs.
Defined.

Lemma document_binds_transition_witness : na_transition_public_values toy_artifact = toy_values.
Proof.
  apply (document_binds_transition sum_hash toy_ec toy_lib toy_pcrs 1000 toy_nonce toy_artifact toy_artifact
    toy_attested toy_attested eq_refl).
  1-2: repeat split; vm_compute; congruence.
  1-2: split; vm_compute; congruence.
  intros _. reflexivity.
Defined.

Definition toy_jobs : handler (NitroJobSig bytes) unit := fun c w =>
  match c return reply (NitroJobSig bytes) c * unit with
  | NitroGameContext _ =>
      (Ok {| ctx_root_claim := 34; ctx_l2_block_number := 1000; ctx_l1_head := 51; ctx_rollup_config_hash := 68;
             ctx_block_interval := 450 |}, w)
  | NitroBuildRangeInput _ _ _ _ => (Ok [6], w)
  end.
Definition toy_job : ProofRequest :=
  {| rq_backend := Nitro; rq_game := 17; rq_root_claim := 34; rq_l2_block_number := 1000; rq_l1_head := 51;
     rq_verifier_id := 0; rq_range_vkey_commitment := None |}.
Abbreviation toy_run := (nitro_handle_claimed_job sum_hash toy_ec toy_lib (fun w : bytes => Ok w) 68 toy_pcrs toy_job).
Definition toy_world : handler (NitroJobSig bytes ⊕ (HostSig ⊕ IoSig)) (unit * Vsock) := beside toy_jobs toy_vsock.

Lemma nitro_job_sound_witness :
  exists a, accepted sum_hash toy_ec toy_lib toy_pcrs (trace_of toy_world toy_run (tt, toy_start)) a /\
    na_attestation_doc a = [1] /\ l2PostRoot (na_transition_public_values a) = 34.
Proof.
  destruct (nitro_job_sound sum_hash toy_ec toy_lib (fun w : bytes => Ok w) 68 toy_pcrs toy_job
    (trace_of toy_world toy_run (tt, toy_start)) (NitroData [1] (transition_abi_encode toy_values) toy_sig))
    as (ctx&start_block&input&a&_&_&_&Hacc&_&Hdata&Hroot&_).
  - replace (Ok (NitroData [1] (transition_abi_encode toy_values) toy_sig))
      with (value_of toy_world toy_run (tt, toy_start)) by (vm_compute; reflexivity).
    apply interp_runs.
  - exists a. split; [exact Hacc|]. split; [injection Hdata as H1 H2 H3; symmetry; exact H1|exact Hroot].
Defined.
