(* ===== verification/P384Hints.v ===== *)
(** * Hints for the on-chain P-384 verification
    ([src/proofs/measured/nitro-enclave/src/p384_hints.rs])

    The contract that verifies attestation signatures takes modular inverses as hints
    and checks each of them instead of computing it.  The generator runs the contract's
    verification, a double-scalar multiplication with a precomputed table, and records
    the inverses in the order of their use.

    The functions here are those of the generator with two things as parameters: the
    curve, which the source fixes to [P384], and the way an inverse is obtained,
    [invert], which is [record_inverse] in the source.  Reading the inverses from a
    stream of hints instead ([use_hint]) gives the consumer, and the theorem
    [hints_suffice] relates the two. *)

From S2P Require Import Prelude Encoding.

Record Curve := { cp : Z; cn : Z; ca : Z; cb : Z; cgx : Z; cgy : Z }.

Definition P384 : Curve :=
  {| cp := 0xFFFFFFFFFFFFFFFFFFFFFFFFFFFFFFFFFFFFFFFFFFFFFFFFFFFFFFFFFFFFFFFEFFFFFFFF0000000000000000FFFFFFFF;
     cn := 0xFFFFFFFFFFFFFFFFFFFFFFFFFFFFFFFFFFFFFFFFFFFFFFFFC7634D81F4372DDF581A0DB248B0A77AECEC196ACCC52973;
     ca := 0xFFFFFFFFFFFFFFFFFFFFFFFFFFFFFFFFFFFFFFFFFFFFFFFFFFFFFFFFFFFFFFFEFFFFFFFF0000000000000000FFFFFFFC;
     cb := 0xB3312FA7E23EE7E4988E056BE3F82D19181D9C6EFE8141120314088F5013875AC656398D8A2ED19D2A85C8EDD3EC2AEF;
     cgx := 0xAA87CA22BE8B05378EB1C71EF320AD746E1D3B628BA79B9859F741E082542A385502F25DBF55296C3A545E3872760AB7;
     cgy := 0x3617DE4A96262C6F5D9E98BF9292DC29F8F41DBD289A147CE9DA3113B5F0B8C00A60B1CE1D7E819D7A431D7C90EA0E5F |}.

(** ** Modular arithmetic *)

Definition mod_add (a b m : Z) : Z := (a + b) mod m.
Definition mod_sub (a b m : Z) : Z := if b <=? a then a - b else m - b + a.
Definition mod_mul (a b m : Z) : Z := (a * b) mod m.
Definition mod_pow (base exp m : Z) : Z := base ^ exp mod m.

(** The extended Euclidean algorithm; [None] if the fuel runs out. *)
Fixpoint euclid (fuel : nat) (low high lm hm : Z) : option (Z * Z) :=
  if 1 <? low then
    match fuel with
    | O => None
    | S fuel =>
        let ratio := Z.quot high low in
        let nm := hm - lm * ratio in
        let nw := high - low * ratio in
        euclid fuel nw low nm lm
    end
  else Some (low, lm).

(** Two rounds per bit of the modulus. *)
Definition euclid_fuel (m : Z) : nat := (2 * Z.to_nat (Z.log2 m + 1))%nat.

Definition mod_inv (value modulus : Z) : option Z :=
  if value =? 0 then None else
  '(low, lm) ← euclid (euclid_fuel modulus) (Z.rem value modulus) modulus 1 0;
  if negb (low =? 1) then None
  else
    let result := Z.rem lm modulus in
    Some (if result <? 0 then result + modulus else result).

(** ** Points *)

Record Point := { px : Z; py : Z; infinity : bool }.
Definition point_infinity : Point := {| px := 0; py := 0; infinity := true |}.
Definition new_point (x y : Z) : Point := {| px := x; py := y; infinity := false |}.
#[export] Instance Point_eq_dec : EqDecision Point.
Proof. solve_decision. Defined.
#[export] Instance Point_inhabited : Inhabited Point := populate point_infinity.

(** [hints.push] of the inverse of a reduced value. *)
Definition record_inverse (hints : list Z) (b m : Z) : result (Z * list Z) string :=
  let b_norm := b mod m in
  if b_norm =? 0 then Err "cannot invert zero" else
  let? inv := ok_or (mod_inv b_norm m) "value not invertible mod m" in
  Ok (inv, hints ++ [inv]).

(** The consumer: the next hint, which has to be the inverse. *)
Definition use_hint (hints : list Z) (b m : Z) : result (Z * list Z) string :=
  match hints with
  | [] => Err "inverse hint underflow"
  | inv :: rest =>
      if (0 <=? inv) && (inv <? m) && ((b * inv) mod m =? 1) then Ok (inv, rest) else Err "invalid inverse hint"
  end.

Section with_inverses.
Context {St : Type} (invert : St -> Z -> Z -> result (Z * St) string).

Definition mod_div (hints : St) (a b m : Z) : result (Z * St) string :=
  let? r := invert hints b m in
  let '(inv, hints) := r in
  Ok (mod_mul a inv m, hints).

Section field.
Context (p_field a : Z).

Definition twice_affine (hints : St) (pt : Point) : result (Point * St) string :=
  if infinity pt || (py pt =? 0) then Ok (point_infinity, hints) else
  let x2 := mod_mul (px pt) (px pt) p_field in
  let num := mod_add (mod_mul 3 x2 p_field) a p_field in
  let den := mod_mul 2 (py pt) p_field in
  let? r := mod_div hints num den p_field in
  let '(slope, hints) := r in
  let x3 := mod_sub (mod_sub (mod_mul slope slope p_field) (px pt) p_field) (px pt) p_field in
  let y3 := mod_sub (mod_mul (mod_sub (px pt) x3 p_field) slope p_field) (py pt) p_field in
  Ok (new_point x3 y3, hints).

Definition add_affine (hints : St) (p1 p2 : Point) : result (Point * St) string :=
  if infinity p1 then Ok (p2, hints)
  else if infinity p2 then Ok (p1, hints)
  else if px p1 =? px p2 then
    if py p1 =? py p2 then twice_affine hints p1 else Ok (point_infinity, hints)
  else
    let dy := mod_sub (py p1) (py p2) p_field in
    let dx := mod_sub (px p1) (px p2) p_field in
    let? r := mod_div hints dy dx p_field in
    let '(slope, hints) := r in
    let x3 := mod_sub (mod_sub (mod_mul slope slope p_field) (px p1) p_field) (px p2) p_field in
    let y3 := mod_sub (mod_mul (mod_sub (px p1) x3 p_field) slope p_field) (py p1) p_field in
    Ok (new_point x3 y3, hints).

(** One round of the nested loops that fill the table. *)
Definition table_step (g h : Point) (acc : result (list Point * St) string) (ij : nat * nat)
    : result (list Point * St) string :=
  let? s := acc in
  let '(points, hints) := s in
  let '(i, j) := ij in
  if (i + j <? 2)%nat then Ok (points, hints)
  else
    let idx := (8 * i + j)%nat in
    if negb (i =? 0)%nat then
      let? r := add_affine hints (points !!! (8 * (i - 1) + j)%nat) g in
      let '(pt, hints) := r in
      Ok (<[idx := pt]> points, hints)
    else
      let? r := add_affine hints (points !!! (8 * i + (j - 1))%nat) h in
      let '(pt, hints) := r in
      Ok (<[idx := pt]> points, hints).

Definition precompute_table (g : Point) (hints : St) (hx hy : Z) : result (list Point * St) string :=
  let h := new_point hx hy in
  let points := <[8%nat := g]> (<[1%nat := h]> (replicate 64 point_infinity)) in
  foldl (table_step g h) (Ok (points, hints)) (list_prod (seq 0 8) (seq 0 8)).

Definition twice3_affine (hints : St) (pt : Point) : result (Point * St) string :=
  let? r := twice_affine hints pt in
  let '(p2, hints) := r in
  if infinity p2 || (py p2 =? 0) then Ok (point_infinity, hints) else
  let? r := twice_affine hints p2 in
  let '(p3, hints) := r in
  if infinity p3 || (py p3 =? 0) then Ok (point_infinity, hints) else
  twice_affine hints p3.

(** The lowest three bits of the lowest byte of [n >> shift]. *)
Definition bits3 (n shift : Z) : Z := Z.land (Z.shiftr n shift mod 256) 7.

Definition window_mask (s1 s2 shift : Z) : Z := Z.lor (Z.shiftl (bits3 s1 shift) 3) (bits3 s2 shift).

(** Adds the table's entry for the current window, if that is not zero. *)
Definition add_window (points : list Point) (s1 s2 shift : Z) (hints : St) (res : Point) : result (Point * St) string :=
  let mask := window_mask s1 s2 shift in
  if negb (mask =? 0) then add_affine hints (points !!! Z.to_nat mask) res else Ok (res, hints).

Definition window_step (points : list Point) (s1 s2 : Z) (acc : result (Point * St) string) (shift : Z)
    : result (Point * St) string :=
  let? r := acc in
  let '(res, hints) := r in
  let? r := twice3_affine hints res in
  let '(res, hints) := r in
  add_window points s1 s2 shift hints res.

(** [(4..=bits).step_by(3)], as the shifts [bits - word]. *)
Definition shifts (bits : Z) : list Z := map (fun k => bits - (4 + 3 * Z.of_nat k)) (seq 0 (Z.to_nat ((bits - 4) / 3 + 1))).

(** One word of the scalars: a doubling, the top window, and the other windows. *)
Definition word_mul (points : list Point) (bits s1 s2 : Z) (hints : St) (res : Point) : result (Point * St) string :=
  let? r := twice_affine hints res in
  let '(res, hints) := r in
  let? r := add_window points s1 s2 (bits - 1) hints res in
  foldl (window_step points s1 s2) (Ok r) (shifts bits).

Definition double_scalar_mul (hints : St) (points : list Point) (scalar1 scalar2 : Z) : result (Point * St) string :=
  let mask256 := Z.shiftl 1 256 - 1 in
  let s1h := Z.shiftr scalar1 256 in
  let s2h := Z.shiftr scalar2 256 in
  let s1l := Z.land scalar1 mask256 in
  let s2l := Z.land scalar2 mask256 in
  let? r := word_mul points 184 s1h s2h hints point_infinity in
  let '(res, hints) := r in
  word_mul points 256 s1l s2l hints res.
End field.
End with_inverses.

(** ** The verification, and the hints of a successful one *)

Section verification.
Context (cv : Curve).

Definition on_curve (x y : Z) : bool :=
  mod_pow y 2 (cp cv) =?
  mod_add (mod_add (mod_pow x 3 (cp cv)) (mod_mul (ca cv) x (cp cv)) (cp cv)) (cb cv) (cp cv).

(** Steps 1 to 4: the point [h/s G + r/s Q]. *)
Definition signature_point {St} (invert : St -> Z -> Z -> result (Z * St) string) (hints : St)
    (h r s pub_x pub_y : Z) : result (Point * St) string :=
  let? r1 := mod_div invert hints h s (cn cv) in
  let '(scalar1, hints) := r1 in
  let? r2 := mod_div invert hints r s (cn cv) in
  let '(scalar2, hints) := r2 in
  let? t := precompute_table invert (cp cv) (ca cv) (new_point (cgx cv) (cgy cv)) hints pub_x pub_y in
  let '(table, hints) := t in
  double_scalar_mul invert (cp cv) (ca cv) hints table scalar1 scalar2.

Definition verify_with {St} (invert : St -> Z -> Z -> result (Z * St) string) (hints : St)
    (hash signature pubkey : bytes) : result (Point * St) string :=
  if negb (length signature =? 96)%nat then Err "signature must be 96 bytes"
  else if negb (length pubkey =? 96)%nat then Err "pubkey must be 96 bytes"
  else if (48 <? length hash)%nat then Err "hash must be at most 48 bytes"
  else
    let r := be_val (take 48 signature) in
    let s := be_val (drop 48 signature) in
    let pub_x := be_val (take 48 pubkey) in
    let pub_y := be_val (drop 48 pubkey) in
    if (r =? 0) || (cn cv <=? r) then Err "r out of range"
    else if (s =? 0) || (cn cv <=? s) then Err "s out of range"
    else if (pub_x =? 0) || (cp cv <=? pub_x) || (pub_y =? 0) || (cp cv <=? pub_y)
    then Err "pubkey coordinates out of field range"
    else if negb (on_curve pub_x pub_y) then Err "pubkey is not on P-384"
    else
      let h := be_val (replicate (48 - length hash) 0 ++ hash) in
      let? d := signature_point invert hints h r s pub_x pub_y in
      let '(res, hints) := d in
      if infinity res then Err "scalar multiplication result is the point at infinity"
      else if negb (px res mod cn cv =? r) then Err "P-384 signature verification failed (hints generated but sig invalid)"
      else Ok (res, hints).

Fixpoint encode_hints (hints : list Z) : result bytes string :=
  match hints with
  | [] => Ok []
  | h :: hints =>
      if 2 ^ 384 <=? h then Err "hint value exceeds 384 bits"
      else let? out := encode_hints hints in Ok (be_bytes 48 h ++ out)
  end.

Definition collect_hints_on (hash signature pubkey : bytes) : result bytes string :=
  let? v := verify_with record_inverse [] hash signature pubkey in
  encode_hints v.2.
End verification.

Definition collect_hints : bytes -> bytes -> bytes -> result bytes string := collect_hints_on P384.

(** ** Inverses *)

Lemma mod_quot_rem high low : 0 < low -> 0 <= high -> high - low * Z.quot high low = high mod low.
Proof. intros. rewrite Z.quot_div_nonneg by lia. rewrite Z.mod_eq by lia. lia. Qed.

Lemma mod_half high low : 0 < low < high -> 2 * (high mod low) < high.
Proof.
  intros H. pose proof (Z.mod_pos_bound high low). pose proof (Z.div_mod high low).
  assert (1 <= high / low) by (apply Z.div_le_lower_bound; lia). nia.
Qed.

(** Two rounds of the loop halve the larger number. *)
Lemma euclid_enough k : forall fuel low high lm hm,
  0 <= low < high -> high < 2 ^ Z.of_nat k -> (2 * k <= fuel)%nat -> is_Some (euclid fuel low high lm hm).
Proof.
  induction k as [|k IH]; intros fuel low high lm hm Hlow Hhigh Hf; [simpl in Hhigh; lia|].
  destruct fuel as [|[|fuel]]; [lia|lia|]. cbn [euclid]. destruct (Z.ltb_spec 1 low); [|by eexists].
  rewrite mod_quot_rem by lia. pose proof (mod_half high low). pose proof (Z.mod_pos_bound high low).
  destruct (Z.ltb_spec 1 (high mod low)); [|by eexists].
  rewrite mod_quot_rem by lia. pose proof (Z.mod_pos_bound low (high mod low)). apply IH; [lia| |lia].
  rewrite Nat2Z.inj_succ, Z.pow_succ_r in Hhigh by lia. lia.
Qed.

(** The loop keeps two congruences and the greatest common divisor. *)
Lemma euclid_inv v m : forall fuel low high lm hm low' lm',
  0 <= low < high -> (m | low - lm * v) -> (m | high - hm * v) -> Z.gcd low high = Z.gcd v m ->
  euclid fuel low high lm hm = Some (low', lm') ->
  0 <= low' <= 1 /\ (m | low' - lm' * v) /\ (low' = 0 -> 1 < high -> Z.gcd v m <> 1).
Proof.
  induction fuel as [|fuel IH]; intros low high lm hm low' lm' Hlow Hl Hh Hg; cbn [euclid];
    destruct (Z.ltb_spec 1 low) as [Hlt|Hle]; try done.
  1,3: intros [= <- <-]; split; [lia|]; split; [done|]; intros -> Hhigh; rewrite Z.gcd_0_l in Hg; lia.
  rewrite mod_quot_rem by lia. intros He. apply IH in He; [| | |done|].
  - destruct He as (H1&H2&H3). split; [done|]. split; [done|]. intros Hz _. apply H3; [done|lia].
  - pose proof (Z.mod_pos_bound high low). lia.
  - rewrite <-mod_quot_rem by lia. destruct Hl as [x Hx], Hh as [y Hy]. exists (y - Z.quot high low * x). nia.
  - rewrite Z.gcd_mod by lia. exact Hg.
Qed.

(** The inverse, on every input: for a positive value and a modulus above one it
    is the reduced inverse if there is one, and nothing otherwise; the loop ends within
    two rounds per bit of the modulus. *)
Lemma mod_inv_spec v m : 0 < v -> 1 < m ->
  match mod_inv v m with
  | Some i => 0 <= i < m /\ (v * i) mod m = 1
  | None => Z.gcd v m <> 1
  end.
Proof.
  intros Hv Hm. unfold mod_inv. destruct (Z.eqb_spec v 0); [lia|].
  rewrite Z.rem_mod_nonneg by lia. pose proof (Z.mod_pos_bound v m) as Hb.
  destruct (euclid_enough (Z.to_nat (Z.log2 m + 1)) (euclid_fuel m) (v mod m) m 1 0) as [[low lm] He]; [lia| |done|].
  { rewrite Z2Nat.id by (pose proof (Z.log2_nonneg m); lia). pose proof (Z.log2_spec m). unfold Z.succ in *. lia. }
  rewrite He. cbn [mbind option_bind]. apply (euclid_inv v m) in He as (Hlow&[x Hx]&Hg); [|lia| | |].
  2: { rewrite Z.mod_eq by lia. exists (- (v / m)). lia. }
  2: { exists 1. lia. }
  2: { rewrite Z.gcd_mod by lia. apply Z.gcd_comm. }
  destruct (Z.eqb_spec low 1) as [->|]; cbn [negb]; [|apply Hg; lia].
  assert (exists r, (if Z.rem lm m <? 0 then Z.rem lm m + m else Z.rem lm m) = lm + m * r /\
    0 <= lm + m * r < m) as (r&->&Hr).
  { pose proof (Z.quot_rem' lm m). pose proof (Z.rem_bound_abs lm m).
    destruct (Z.ltb_spec (Z.rem lm m) 0); [exists (1 - Z.quot lm m)|exists (- Z.quot lm m)]; lia. }
  split; [done|]. replace (v * (lm + m * r)) with (1 + (v * r - x) * m) by nia.
  rewrite Z.mod_add by lia. apply Z.mod_small. lia.
Qed.

(** ** Generator and consumer *)

Definition modulus_ok (m : Z) : Prop := 1 < m <= 2 ^ 384.

(** The computation that records inverses and the one that reads them do the same:
    what the first records is what the second needs. *)
Definition agree {A} (rec use : list Z -> result (A * list Z) string) : Prop :=
  (forall h x h', rec h = Ok (x, h') -> exists new, h' = h ++ new /\ Forall (fun i => 0 <= i < 2 ^ 384) new /\
     forall rest, use (new ++ rest) = Ok (x, rest)) /\
  (forall k x rest, use k = Ok (x, rest) -> exists new, k = new ++ rest /\ forall h, rec h = Ok (x, h ++ new)).

Lemma inverse_unique b m i j :
  1 < m -> 0 <= i < m -> 0 <= j < m -> (b * i) mod m = 1 -> (b * j) mod m = 1 -> i = j.
Proof.
  intros Hm Hi Hj Hbi Hbj. rewrite <-(Z.mod_small i m), <-(Z.mod_small j m) by lia.
  replace (i mod m) with ((b * j) mod m * i mod m) by (by rewrite Hbj, Z.mul_1_l).
  replace (j mod m) with ((b * i) mod m * j mod m) by (by rewrite Hbi, Z.mul_1_l).
  rewrite !Z.mul_mod_idemp_l by lia. f_equal. lia.
Qed.

Lemma agree_invert b m : modulus_ok m -> agree (fun h => record_inverse h b m) (fun h => use_hint h b m).
Proof.
  intros [Hm Hmax]. pose proof (Z.mod_pos_bound b m) as Hb. split.
  - intros h x h'. unfold record_inverse. cbv zeta. destruct (Z.eqb_spec (b mod m) 0); [done|].
    pose proof (mod_inv_spec (b mod m) m) as Hs. destruct (mod_inv (b mod m) m) as [i|]; [|done].
    intros [= <- <-]. destruct Hs as [Hi Hbi]; [lia|lia|]. rewrite Z.mul_mod_idemp_l in Hbi by lia.
    exists [i]. split; [done|]. split; [constructor; [lia|done]|]. intros rest. cbn [app use_hint]. rewrite Hbi.
    replace ((0 <=? i) && (i <? m)) with true by (symmetry; apply andb_true_iff; split; [apply Z.leb_le|apply Z.ltb_lt]; lia).
    done.
  - intros k x rest. unfold use_hint. destruct k as [|i k]; [done|].
    destruct ((0 <=? i) && (i <? m) && _) eqn:Hc; [|done]. intros [= <- <-].
    apply andb_true_iff in Hc as [[?%Z.leb_le ?%Z.ltb_lt]%andb_true_iff Hbi%Z.eqb_eq].
    exists [i]. split; [done|]. intros h. unfold record_inverse. cbv zeta.
    assert (b mod m <> 0) as Hnz.
    { intros Hz. rewrite <-Z.mul_mod_idemp_l, Hz, Z.mul_0_l, Z.mod_0_l in Hbi; lia. }
    destruct (Z.eqb_spec (b mod m) 0); [done|].
    pose proof (mod_inv_spec (b mod m) m) as Hs. destruct (mod_inv (b mod m) m) as [j|].
    + destruct Hs as [Hj Hbj]; [lia|lia|]. rewrite Z.mul_mod_idemp_l in Hbj by lia.
      rewrite (inverse_unique b m i j) by done. done.
    + exfalso. apply Hs; [lia|lia|]. rewrite Z.gcd_mod by lia.
      apply Z.bezout_1_gcd. exists (- (b * i / m)), i. rewrite Z.mod_eq in Hbi by lia. lia.
Qed.

Lemma agree_ret {A} (x : A) : agree (fun h => Ok (x, h)) (fun h => Ok (x, h)).
Proof.
  split; [|intros k y rest [= <- <-]; by exists []; split; [done|]; intros h; rewrite app_nil_r].
  intros h y h' [= <- <-]. exists []. by rewrite app_nil_r.
Qed.

Lemma agree_err {A} (e : string) : agree (A := A) (fun h => Err e) (fun h => Err e).
Proof. by split. Qed.

Lemma agree_bind {A B} (rec use : list Z -> result (A * list Z) string) (f g : A -> list Z -> result (B * list Z) string) :
  agree rec use -> (forall a, agree (f a) (g a)) ->
  agree (fun h => let? r := rec h in let '(a, h) := r in f a h) (fun h => let? r := use h in let '(a, h) := r in g a h).
Proof.
  intros [H1 H2] Hf. split.
  - intros h x h'. destruct (rec h) as [[a h1]|e] eqn:Hr; [|done]. cbn [rbind]. intros Hx.
    apply H1 in Hr as (n1&->&F1&Hu). apply (Hf a) in Hx as (n2&->&F2&Hg). exists (n1 ++ n2).
    split; [by rewrite app_assoc|]. split; [by apply Forall_app_2|]. intros rest.
    rewrite <-app_assoc, Hu. cbn [rbind]. apply Hg.
  - intros k x rest. destruct (use k) as [[a k1]|e] eqn:Hr; [|done]. cbn [rbind]. intros Hx.
    apply H2 in Hr as (n1&->&Hu). apply (Hf a) in Hx as (n2&->&Hg). exists (n1 ++ n2).
    split; [by rewrite app_assoc|]. intros h. rewrite Hu. cbn [rbind]. by rewrite Hg, app_assoc.
Qed.

Lemma foldl_err {A B} (step : result (A * list Z) string -> B -> result (A * list Z) string) l e :
  (forall e i, step (Err e) i = Err e) -> foldl step (Err e) l = Err e.
Proof. intros He. induction l as [|i l IH]; [done|]. cbn [foldl]. by rewrite He. Qed.

Lemma foldl_split {A B} (step : result (A * list Z) string -> B -> result (A * list Z) string) l r :
  (forall e i, step (Err e) i = Err e) ->
  (let? s := r in let '(a, h) := s in foldl step (Ok (a, h)) l) = foldl step r l.
Proof. intros He. destruct r as [[a h]|e]; [done|]. symmetry. by apply foldl_err. Qed.

Lemma agree_ext {A} (rec use rec' use' : list Z -> result (A * list Z) string) :
  (forall h, rec h = rec' h) -> (forall h, use h = use' h) -> agree rec use -> agree rec' use'.
Proof. intros Hr Hu. unfold agree. setoid_rewrite Hr. setoid_rewrite Hu. done. Qed.

Lemma agree_foldl {A B} (f g : result (A * list Z) string -> B -> result (A * list Z) string) (l : list B) (x : A) :
  (forall e i, f (Err e) i = Err e) -> (forall e i, g (Err e) i = Err e) ->
  (forall x i, agree (fun h => f (Ok (x, h)) i) (fun h => g (Ok (x, h)) i)) ->
  agree (fun h => foldl f (Ok (x, h)) l) (fun h => foldl g (Ok (x, h)) l).
Proof.
  intros Hf Hg Hstep. revert x. induction l as [|i l IH]; intros x; [apply agree_ret|]. cbn [foldl].
  eapply agree_ext; [| |apply (agree_bind _ _ _ _ (Hstep x i) IH)]; intros h; apply foldl_split; done.
Qed.

Section agreement.
Context (p_field a : Z) (Hp : modulus_ok p_field).

Lemma agree_div x y m : modulus_ok m ->
  agree (fun h => mod_div record_inverse h x y m) (fun h => mod_div use_hint h x y m).
Proof. intros Hm. unfold mod_div. apply (agree_bind _ _ (fun inv h => _)); [by apply agree_invert|]. intros. apply agree_ret. Qed.

Lemma agree_twice pt :
  agree (fun h => twice_affine record_inverse p_field a h pt) (fun h => twice_affine use_hint p_field a h pt).
Proof.
  unfold twice_affine. destruct (infinity pt || _); [apply agree_ret|]. cbv zeta.
  apply (agree_bind _ _ (fun slope h => _)); [by apply agree_div|]. intros. apply agree_ret.
Qed.

Lemma agree_add p1 p2 :
  agree (fun h => add_affine record_inverse p_field a h p1 p2) (fun h => add_affine use_hint p_field a h p1 p2).
Proof.
  unfold add_affine. destruct (infinity p1); [apply agree_ret|]. destruct (infinity p2); [apply agree_ret|].
  destruct (px p1 =? px p2); [destruct (py p1 =? py p2); [apply agree_twice|apply agree_ret]|]. cbv zeta.
  apply (agree_bind _ _ (fun slope h => _)); [by apply agree_div|]. intros. apply agree_ret.
Qed.

Lemma agree_table g hx hy :
  agree (fun h => precompute_table record_inverse p_field a g h hx hy)
    (fun h => precompute_table use_hint p_field a g h hx hy).
Proof.
  unfold precompute_table. cbv zeta. apply agree_foldl; [done|done|]. intros points [i j].
  unfold table_step. cbn [rbind]. destruct (_ <? _)%nat; [apply agree_ret|]. cbv zeta.
  destruct (negb _); apply (agree_bind _ _ (fun pt h => _)); try apply agree_add; intros; apply agree_ret.
Qed.

Lemma agree_twice3 pt :
  agree (fun h => twice3_affine record_inverse p_field a h pt) (fun h => twice3_affine use_hint p_field a h pt).
Proof.
  unfold twice3_affine. apply (agree_bind _ _ (fun p2 h => _)); [apply agree_twice|]. intros p2.
  destruct (infinity p2 || _); [apply agree_ret|]. apply (agree_bind _ _ (fun p3 h => _)); [apply agree_twice|].
  intros p3. destruct (infinity p3 || _); [apply agree_ret|apply agree_twice].
Qed.

Lemma agree_window points s1 s2 shift res :
  agree (fun h => add_window record_inverse p_field a points s1 s2 shift h res)
    (fun h => add_window use_hint p_field a points s1 s2 shift h res).
Proof. unfold add_window. cbv zeta. destruct (negb _); [apply agree_add|apply agree_ret]. Qed.

Lemma agree_word points bits s1 s2 res :
  agree (fun h => word_mul record_inverse p_field a points bits s1 s2 h res)
    (fun h => word_mul use_hint p_field a points bits s1 s2 h res).
Proof.
  unfold word_mul. apply (agree_bind _ _ (fun res h => _)); [apply agree_twice|]. intros res1.
  assert (agree
    (fun h => let? r := add_window record_inverse p_field a points s1 s2 (bits - 1) h res1 in
       let '(r, h) := r in foldl (window_step record_inverse p_field a points s1 s2) (Ok (r, h)) (shifts bits))
    (fun h => let? r := add_window use_hint p_field a points s1 s2 (bits - 1) h res1 in
       let '(r, h) := r in foldl (window_step use_hint p_field a points s1 s2) (Ok (r, h)) (shifts bits))) as Hb.
  { apply (agree_bind _ _ (fun r h => _)); [apply agree_window|]. intros res2. apply agree_foldl; [done|done|].
    intros res3 shift. unfold window_step. cbn [rbind]. apply (agree_bind _ _ (fun res h => _)); [apply agree_twice3|].
    intros. apply agree_window. }
  eapply agree_ext; [| |exact Hb]; intros h; cbv beta; by destruct (add_window _ _ _ _ _ _ _ _ _) as [[]|].
Qed.

Lemma agree_double points s1 s2 :
  agree (fun h => double_scalar_mul record_inverse p_field a h points s1 s2)
    (fun h => double_scalar_mul use_hint p_field a h points s1 s2).
Proof.
  unfold double_scalar_mul. cbv zeta. apply (agree_bind _ _ (fun res h => _)); [apply agree_word|].
  intros. apply agree_word.
Qed.
End agreement.


Lemma agree_verify cv hash signature pubkey :
  modulus_ok (cp cv) -> modulus_ok (cn cv) ->
  agree (fun h => verify_with cv record_inverse h hash signature pubkey)
    (fun h => verify_with cv use_hint h hash signature pubkey).
Proof.
  intros Hp Hn. unfold verify_with. cbv zeta.
  repeat match goal with |- context [if ?c then _ else _] =>
    match c with context [infinity _] => fail 1 | _ => destruct c; [apply agree_err|] end end.
  apply (agree_bind _ _ (fun d hints => _)); [unfold signature_point|].
  - apply (agree_bind _ _ (fun s1 hints => _)); [by apply agree_div|]. intros s1.
    apply (agree_bind _ _ (fun s2 hints => _)); [by apply agree_div|]. intros s2.
    apply (agree_bind _ _ (fun t hints => _)); [by apply agree_table|]. intros t. by apply agree_double.
  - intros d. destruct (infinity d); [apply agree_err|]. destruct (negb _); [apply agree_err|apply agree_ret].
Qed.

(** The consumer's reading of the stream, 48 bytes at a time. *)
Fixpoint decode_from (fuel : nat) (l : bytes) : list Z :=
  match fuel, l with
  | S fuel, _ :: _ => be_val (take 48 l) :: decode_from fuel (drop 48 l)
  | _, _ => []
  end.
Definition decode_hints (l : bytes) : list Z := decode_from (length l) l.

Lemma decode_encode_hints hints out :
  Forall (fun i => 0 <= i < 2 ^ 384) hints -> encode_hints hints = Ok out -> decode_hints out = hints.
Proof.
  unfold decode_hints. intros HF He.
  assert (forall fuel, (length out <= fuel)%nat -> decode_from fuel out = hints) as Hd; [|by apply Hd].
  revert out He. induction HF as [|i hints Hi _ IH]; intros out; cbn [encode_hints].
  { intros [= <-] [|fuel]; done. }
  destruct (_ <=? i); [done|]. destruct (encode_hints hints) as [rest|] eqn:Hr; [|done].
  cbn [rbind]. intros Ho fuel Hf. assert (out = be_bytes 48 i ++ rest) as -> by congruence.
  pose proof (be_bytes_length 48 i) as Hl. rewrite length_app, Hl in Hf.
  destruct (be_bytes 48 i) as [|b l] eqn:Hb; [done|]. destruct fuel as [|fuel]; [lia|].
  cbn [decode_from app]. change (b :: l ++ rest) with ((b :: l) ++ rest).
  rewrite take_app_length', drop_app_length' by done. f_equal; [|apply IH; [done|lia]].
  rewrite <-Hb, be_val_bytes. apply Z.mod_small. exact Hi.
Qed.

Lemma encode_bounded hints : Forall (fun i => 0 <= i < 2 ^ 384) hints -> exists out, encode_hints hints = Ok out.
Proof.
  induction 1 as [|i hints Hi _ [out IH]]; [by exists []|]. cbn [encode_hints].
  destruct (Z.leb_spec (2 ^ 384) i); [lia|]. rewrite IH. by eexists.
Qed.

(** The hints are what the on-chain verification needs: reading them, it succeeds
    and reads all of them, and no other stream of hints is accepted without a rest.  If
    no hints are produced, the verification fails with every stream. *)
Theorem hints_suffice hash signature pubkey :
  let consume hints := verify_with P384 use_hint hints hash signature pubkey in
  match collect_hints hash signature pubkey with
  | Ok out => (exists pt, consume (decode_hints out) = Ok (pt, [])) /\
      forall hints pt, consume hints = Ok (pt, []) -> hints = decode_hints out
  | Err _ => forall hints pt rest, consume hints <> Ok (pt, rest)
  end.
Proof.
  intros consume. unfold collect_hints, collect_hints_on.
  destruct (agree_verify P384 hash signature pubkey) as [H1 H2]; [by split|by split|].
  destruct (verify_with P384 record_inverse [] hash signature pubkey) as [[pt h]|e] eqn:Hv; cbn [rbind].
  - apply H1 in Hv as Hu. destruct Hu as (new&->&HF&Hu). cbn [app snd].
    destruct (encode_bounded new HF) as [out Ho]. rewrite Ho. rewrite (decode_encode_hints new out HF Ho). split.
    + exists pt. specialize (Hu []). by rewrite app_nil_r in Hu.
    + intros hints pt' Hc. apply H2 in Hc as (new'&->&Hc). rewrite Hc in Hv. injection Hv as _ <-. by rewrite app_nil_r.
  - intros hints pt rest Hc. apply H2 in Hc as (new&_&Hc). rewrite Hc in Hv. done.
Qed.
