(* ===== verification/P384Ecdsa.v ===== *)
(** * What the double-scalar multiplication computes
    ([src/proofs/measured/nitro-enclave/src/p384_hints.rs])

    The affine formulas of a curve are the operation of an abelian group; that is
    the interface [CurveModel], with the group and the meaning of points in it as
    parameters.  On it, the precomputed table holds the sums [iG + jQ], the windowed
    multiplication computes [uG + vQ], and hints are produced for exactly the valid
    ECDSA signatures. *)

From S2P Require Import Prelude Encoding P384Hints.

(** A commutative monoid up to an equivalence. *)
Class CommMonoid (G : Type) `{Equiv G} (op : G -> G -> G) (zero : G) := {
  monoid_equiv :: Equivalence (≡@{G});
  monoid_proper :: Proper ((≡) ==> (≡) ==> (≡)) op;
  monoid_assoc :: Assoc (≡) op;
  monoid_comm :: Comm (≡) op;
  monoid_id :: LeftId (≡) zero op
}.

Section multiples.
Context {G : Type} `{CommMonoid G op zero}.

Definition smul (k : Z) (x : G) : G := Nat.iter (Z.to_nat k) (op x) zero.

Lemma smul_0 x : smul 0 x = zero.
Proof. done. Qed.

Lemma op_zero x : op x zero ≡ x.
Proof. by rewrite (comm op), (left_id zero op). Qed.

Lemma smul_add k l x : 0 <= k -> 0 <= l -> smul (k + l) x ≡ op (smul k x) (smul l x).
Proof.
  intros Hk Hl. unfold smul. rewrite Z2Nat.inj_add by done. induction (Z.to_nat k) as [|n IH]; simpl.
  - by rewrite (left_id zero op).
  - by rewrite IH, (assoc op).
Qed.

Lemma smul_1 x : smul 1 x ≡ x.
Proof. apply op_zero. Qed.

Lemma swap4 w x y z : op (op w x) (op y z) ≡ op (op w y) (op x z).
Proof. rewrite <-!(assoc op). f_equiv. rewrite !(assoc op). f_equiv. apply (comm op). Qed.

(** [kx + ly] *)
Definition comb (k l : Z) (x y : G) : G := op (smul k x) (smul l y).

Lemma comb_add k l k' l' x y :
  0 <= k -> 0 <= l -> 0 <= k' -> 0 <= l' ->
  comb (k + k') (l + l') x y ≡ op (comb k l x y) (comb k' l' x y).
Proof. intros. unfold comb. by rewrite !smul_add, swap4. Qed.

Lemma comb_00 x y : comb 0 0 x y ≡ zero.
Proof. unfold comb. rewrite !smul_0. apply op_zero. Qed.
Lemma comb_10 x y : comb 1 0 x y ≡ x.
Proof. unfold comb. rewrite smul_1, smul_0. apply op_zero. Qed.
Lemma comb_01 x y : comb 0 1 x y ≡ y.
Proof. unfold comb. rewrite smul_1, smul_0. apply (left_id zero op). Qed.
End multiples.

(** ** Windows of bits *)

Lemma bits3_spec n sh : 0 <= sh -> bits3 n sh = (n / 2 ^ sh) mod 8.
Proof.
  intros Hs. unfold bits3. rewrite Z.shiftr_div_pow2 by done. change 7 with (Z.ones 3). rewrite Z.land_ones by lia.
  change (2 ^ 3) with 8. apply Z.mod_mod_divide. by exists 32.
Qed.

Lemma window_mask_spec s1 s2 sh : 0 <= s1 -> 0 <= s2 -> 0 <= sh ->
  window_mask s1 s2 sh = 8 * ((s1 / 2 ^ sh) mod 8) + (s2 / 2 ^ sh) mod 8.
Proof.
  intros H1 H2 Hs. unfold window_mask. rewrite !bits3_spec by done.
  pose proof (Z.mod_pos_bound (s1 / 2 ^ sh) 8 ltac:(lia)). pose proof (Z.mod_pos_bound (s2 / 2 ^ sh) 8 ltac:(lia)).
  set (b1 := (s1 / 2 ^ sh) mod 8) in *. set (b2 := (s2 / 2 ^ sh) mod 8) in *.
  rewrite Z.shiftl_mul_pow2 by lia. change (2 ^ 3) with 8. rewrite (Z.mul_comm 8).
  symmetry. apply Z.add_nocarry_lor. apply Z.bits_inj'. intros i Hi. rewrite Z.land_spec, Z.bits_0.
  destruct (Z.ltb_spec i 3).
  - replace 8 with (2 ^ 3) by done. rewrite Z.mul_pow2_bits_low by lia. done.
  - assert (Z.testbit b2 i = false) as ->; [|apply andb_false_r].
    destruct (decide (b2 = 0)) as [->|]; [apply Z.bits_0|]. apply Z.bits_above_log2; [lia|].
    apply Z.log2_lt_pow2; [lia|]. pose proof (Z.pow_le_mono_r 2 3 i). lia.
Qed.

Lemma window_index b1 b2 : 0 <= b1 -> 0 <= b2 < 8 ->
  Z.of_nat (Z.to_nat (8 * b1 + b2) / 8) = b1 /\ Z.of_nat (Z.to_nat (8 * b1 + b2) mod 8) = b2.
Proof.
  intros. rewrite Nat2Z.inj_div, Nat2Z.inj_mod, !Z2Nat.id by lia. change (Z.of_nat 8) with 8.
  rewrite (Z.mul_comm 8), (Z.add_comm _ b2), Z.div_add, Z.mod_add, Z.div_small, Z.mod_small by lia. done.
Qed.

(** The points [on] the curve stand for the elements of a group: the affine sum
    of two of them exists and stands for their sum, and different points stand for
    different elements. *)
Record CurveModel (p a : Z) {G : Type} `{Equiv G} (op : G -> G -> G) (zero : G) (on : Point -> Prop)
    (elt : Point -> G) : Prop := {
  model_zero : on point_infinity /\ elt point_infinity ≡ zero;
  model_infinity P : on P -> infinity P = true -> P = point_infinity;
  model_add P Q hints : on P -> on Q -> exists R hints',
    add_affine record_inverse p a hints P Q = Ok (R, hints') /\ on R /\ elt R ≡ op (elt P) (elt Q);
  model_inj P Q : on P -> on Q -> elt P ≡ elt Q -> P = Q
}.

Section curve.
Context {G : Type} `{CommMonoid G op zero} (p a : Z) (on : Point -> Prop) (elt : Point -> G).
Context (model : CurveModel p a op zero on elt).
Context (X Y : G).
Abbreviation lin k l := (comb (op := op) (zero := zero) k l X Y).

(** A computation that ends in a point of the curve with this meaning. *)
Definition computes (c : list Z -> result (Point * list Z) string) (x : G) : Prop :=
  forall hints, exists R hints', c hints = Ok (R, hints') /\ on R /\ elt R ≡ x.

Lemma computes_add P Q x y : on P -> on Q -> elt P ≡ x -> elt Q ≡ y ->
  computes (fun h => add_affine record_inverse p a h P Q) (op x y).
Proof.
  intros HP HQ Hx Hy hints. destruct (model_add _ _ _ _ _ _ model P Q hints HP HQ) as (R&h'&Hr&HR&Hv).
  exists R, h'. by rewrite Hv, Hx, Hy.
Qed.

Lemma computes_ret P x : on P -> elt P ≡ x -> computes (fun h => Ok (P, h)) x.
Proof. intros HP Hx hints. by exists P, hints. Qed.

Lemma computes_bind c (f : Point -> list Z -> result (Point * list Z) string) x y :
  computes c x -> (forall P, on P -> elt P ≡ x -> computes (f P) y) ->
  computes (fun h => let? r := c h in let '(P, h) := r in f P h) y.
Proof.
  intros Hc Hf hints. destruct (Hc hints) as (P&h&->&HP&Hx). cbn [rbind]. apply (Hf P HP Hx).
Qed.

Lemma computes_twice P x : on P -> elt P ≡ x ->
  computes (fun h => twice_affine record_inverse p a h P) (op x x).
Proof.
  intros HP Hx. destruct (infinity P) eqn:Hinf.
  - rewrite (model_infinity _ _ _ _ _ _ model P HP Hinf) in Hx. unfold twice_affine. rewrite Hinf. cbn [orb].
    apply computes_ret; [apply model|]. rewrite (proj2 (model_zero _ _ _ _ _ _ model)) in Hx |- *.
    by rewrite <-Hx, (left_id zero op).
  - intros hints. destruct (computes_add P P x x HP HP Hx Hx hints) as (R&h'&Hr&HR).
    exists R, h'. split; [|done]. unfold add_affine in Hr. rewrite Hinf, !Z.eqb_refl in Hr. exact Hr.
Qed.

Lemma flat_twice P x : on P -> elt P ≡ x -> infinity P || (py P =? 0) = true -> op x x ≡ zero.
Proof.
  intros HP Hx Hflat. destruct (computes_twice P x HP Hx []) as (R&h'&Hr&HR&<-).
  unfold twice_affine in Hr. rewrite Hflat in Hr. injection Hr as <- _. apply model.
Qed.

Lemma computes_equiv c x y : computes c x -> x ≡ y -> computes c y.
Proof. intros Hc Hxy hints. destruct (Hc hints) as (R&h&?&?&Hx). exists R, h. by rewrite Hx. Qed.

Lemma lin_twice k l : 0 <= k -> 0 <= l -> op (lin k l) (lin k l) ≡ lin (2 * k) (2 * l).
Proof.
  intros. replace (2 * k) with (k + k) by lia. replace (2 * l) with (l + l) by lia. symmetry. by apply comb_add.
Qed.

Lemma lin_X k l : 0 <= k -> 0 <= l -> op (lin k l) X ≡ lin (k + 1) l.
Proof.
  intros. rewrite <-(Z.add_0_r l) at 2. rewrite comb_add by lia. f_equiv. symmetry. apply comb_10.
Qed.
Lemma lin_Y k l : 0 <= k -> 0 <= l -> op (lin k l) Y ≡ lin k (l + 1).
Proof.
  intros. rewrite <-(Z.add_0_r k) at 2. rewrite comb_add by lia. f_equiv. symmetry. apply comb_01.
Qed.

Lemma computes_twice3 P k l : 0 <= k -> 0 <= l -> on P -> elt P ≡ lin k l ->
  computes (fun h => twice3_affine record_inverse p a h P) (lin (8 * k) (8 * l)).
Proof.
  intros Hk Hl HP Hx. replace (8 * k) with (2 * (2 * (2 * k))) by lia. replace (8 * l) with (2 * (2 * (2 * l))) by lia.
  assert (forall P k l, 0 <= k -> 0 <= l -> on P -> elt P ≡ lin k l ->
    computes (fun h => twice_affine record_inverse p a h P) (lin (2 * k) (2 * l))) as Htwice.
  { intros. eapply computes_equiv; [by apply computes_twice|]. by apply lin_twice. }
  assert (forall P k l, 0 <= k -> 0 <= l -> on P -> elt P ≡ lin k l -> infinity P || (py P =? 0) = true ->
    lin (2 * k) (2 * l) ≡ zero) as Hflat.
  { intros. rewrite <-lin_twice by done. by eapply flat_twice. }
  assert (forall k l, 0 <= k -> 0 <= l -> lin k l ≡ zero -> lin (2 * k) (2 * l) ≡ zero) as Hzero.
  { intros k' l' ? ? Hz. rewrite <-lin_twice by done. by rewrite Hz, (left_id zero op). }
  assert (forall x, x ≡ zero -> computes (fun h => Ok (point_infinity, h)) x) as Hinf.
  { intros x Hz. apply computes_ret; [apply model|]. rewrite Hz. apply model. }
  unfold twice3_affine. apply (computes_bind _ (fun P h => _) (lin (2 * k) (2 * l))); [by apply Htwice|].
  intros P2 HP2 Hx2. destruct (infinity P2 || _) eqn:E2.
  { apply Hinf, Hzero; [lia|lia|]. eapply Hflat; [| |exact HP2|exact Hx2|exact E2]; lia. }
  apply (computes_bind _ (fun P h => _) (lin (2 * (2 * k)) (2 * (2 * l)))); [apply Htwice; (done || lia)|].
  intros P3 HP3 Hx3. destruct (infinity P3 || _) eqn:E3.
  { apply Hinf. eapply Hflat; [| |exact HP3|exact Hx3|exact E3]; lia. }
  apply Htwice; (done || lia).
Qed.

(** ** The table *)

Context (g h : Point) (Hg : on g) (Hh : on h) (HgX : elt g ≡ X) (HhY : elt h ≡ Y).

(** The entries of the table that are right after [n] rounds of its loop. *)
Definition entry_ok (points : list Point) (k : nat) : Prop :=
  on (points !!! k) /\ elt (points !!! k) ≡ lin (Z.of_nat (k / 8)) (Z.of_nat (k mod 8)).
Definition table_upto (n : nat) (points : list Point) : Prop :=
  length points = 64%nat /\
  forall k, (k < 64)%nat -> (k < n)%nat \/ k = 0%nat \/ k = 1%nat \/ k = 8%nat -> entry_ok points k.

Lemma table_extend n points R :
  (n < 64)%nat -> table_upto n points -> on R -> elt R ≡ lin (Z.of_nat (n / 8)) (Z.of_nat (n mod 8)) ->
  table_upto (S n) (<[n := R]> points).
Proof.
  intros Hn [Hl Hk] HR Hx. split; [by rewrite length_insert|]. intros k Hk64 Hcase. unfold entry_ok.
  destruct (decide (k = n)) as [->|Hne].
  - rewrite list_lookup_total_insert_eq by lia. done.
  - rewrite list_lookup_total_insert_ne by done. apply Hk; [done|lia].
Qed.

Lemma div_mod_less n : (8 <= n)%nat -> ((n - 8) / 8 = n / 8 - 1 /\ (n - 8) mod 8 = n mod 8)%nat.
Proof.
  intros Hn. pose proof (Nat.div_add (n - 8) 1 8 ltac:(lia)) as Hd. pose proof (Nat.Div0.mod_add (n - 8) 1 8) as Hm.
  replace (n - 8 + 1 * 8)%nat with n in Hd, Hm by lia. split; lia.
Qed.

Lemma table_round n points hints : (n < 64)%nat -> table_upto n points ->
  exists points' hints', table_step record_inverse p a g h (Ok (points, hints)) (n / 8, n mod 8)%nat =
    Ok (points', hints') /\ table_upto (S n) points'.
Proof.
  intros Hn Ht. pose proof Ht as [Hl Hk]. pose proof (Nat.div_mod_eq n 8) as Hdm.
  pose proof (Nat.mod_upper_bound n 8 ltac:(lia)) as Hm. unfold table_step. cbn [rbind].
  destruct (Nat.ltb_spec (n / 8 + n mod 8) 2) as [Hlt|Hge].
  { exists points, hints. split; [done|]. split; [done|]. intros k Hk64 Hcase. apply Hk; [done|].
    destruct (decide (k < n)%nat); [by left|right]. lia. }
  replace (8 * (n / 8) + n mod 8)%nat with n by lia.
  destruct (Nat.eqb_spec (n / 8) 0) as [Hz|Hnz]; cbn [negb].
  - replace (8 * (n / 8) + (n mod 8 - 1))%nat with (n - 1)%nat by lia.
    destruct (Hk (n - 1)%nat) as [Hon Hx]; [lia|lia|].
    destruct (computes_add (points !!! (n - 1)%nat) h _ _ Hon Hh Hx HhY hints) as (R&h'&->&HR&HRx).
    exists (<[n := R]> points), h'. split; [done|]. apply table_extend; [done|done|done|].
    rewrite HRx, lin_Y by lia.
    rewrite (Nat.div_small (n - 1)), (Nat.mod_small (n - 1)), Hz by lia.
    replace (Z.of_nat (n - 1)) with (Z.of_nat (n mod 8 - 1)) by lia. by replace (Z.of_nat (n mod 8 - 1) + 1) with (Z.of_nat (n mod 8)) by lia.
  - replace (8 * (n / 8 - 1) + n mod 8)%nat with (n - 8)%nat by lia.
    destruct (Hk (n - 8)%nat) as [Hon Hx]; [lia|lia|].
    destruct (computes_add (points !!! (n - 8)%nat) g _ _ Hon Hg Hx HgX hints) as (R&h'&->&HR&HRx).
    exists (<[n := R]> points), h'. split; [done|]. apply table_extend; [done|done|done|].
    rewrite HRx, lin_X by lia.
    destruct (div_mod_less n) as [-> ->]; [lia|].
    by replace (Z.of_nat (n / 8 - 1) + 1) with (Z.of_nat (n / 8)) by lia.
Qed.

Lemma table_rounds m : forall n points hints, (n + m = 64)%nat -> table_upto n points ->
  exists points' hints', foldl (table_step record_inverse p a g h) (Ok (points, hints))
    (map (fun k => (k / 8, k mod 8)%nat) (seq n m)) = Ok (points', hints') /\ table_upto 64 points'.
Proof.
  induction m as [|m IH]; intros n points hints Hnm Ht; cbn [seq map foldl].
  - exists points, hints. split; [done|]. by replace 64%nat with n by lia.
  - destruct (table_round n points hints) as (points1&h1&->&Ht1); [lia|done|]. apply IH; [lia|done].
Qed.

Definition table_ok (points : list Point) : Prop := forall k, (k < 64)%nat -> entry_ok points k.

(** The table holds [iG + jQ] at [8 i + j]. *)
Lemma table_spec hints : infinity g = false -> h = new_point (px h) (py h) ->
  exists points hints', precompute_table record_inverse p a g hints (px h) (py h) = Ok (points, hints') /\
    table_ok points.
Proof.
  intros Hgi Hhe. unfold precompute_table. cbv zeta. rewrite <-Hhe.
  change (list_prod (seq 0 8) (seq 0 8)) with (map (fun k => (k / 8, k mod 8)%nat) (seq 0 64)).
  destruct (table_rounds 64 0 (<[8%nat := g]> (<[1%nat := h]> (replicate 64 point_infinity))) hints)
    as (points&h'&Hp&[Hl Hk]); [done| |].
  - split; [done|]. intros k Hk [?|[->|[->| ->]]]; [lia|..]; unfold entry_ok; cbn -[comb].
    + split; [apply model|]. rewrite comb_00. apply model.
    + rewrite comb_01. done.
    + rewrite comb_10. done.
  - exists points, h'. split; [exact Hp|]. intros k Hk64. apply Hk; [done|by left].
Qed.

(** ** Windows *)

Lemma add_window_spec points s1 s2 sh res k l :
  table_ok points -> 0 <= s1 -> 0 <= s2 -> 0 <= sh -> 0 <= k -> 0 <= l -> on res -> elt res ≡ lin k l ->
  computes (fun hints => add_window record_inverse p a points s1 s2 sh hints res)
    (lin (k + (s1 / 2 ^ sh) mod 8) (l + (s2 / 2 ^ sh) mod 8)).
Proof.
  intros Ht H1 H2 Hsh Hk Hl Hres Hx. pose proof (Z.mod_pos_bound (s1 / 2 ^ sh) 8 ltac:(lia)) as B1.
  pose proof (Z.mod_pos_bound (s2 / 2 ^ sh) 8 ltac:(lia)) as B2.
  unfold add_window. rewrite window_mask_spec by done. cbv zeta.
  set (b1 := (s1 / 2 ^ sh) mod 8) in *. set (b2 := (s2 / 2 ^ sh) mod 8) in *.
  destruct (Z.eqb_spec (8 * b1 + b2) 0) as [Hz|Hnz]; cbn [negb].
  { apply computes_ret; [done|]. rewrite Hx. replace b1 with 0 by lia. replace b2 with 0 by lia. by rewrite !Z.add_0_r. }
  destruct (Ht (Z.to_nat (8 * b1 + b2))) as [Hon He]; [lia|].
  destruct (window_index b1 b2) as [Hd Hm]; [lia|lia|]. rewrite Hd, Hm in He.
  eapply computes_equiv; [by apply computes_add|]. rewrite <-comb_add by lia. by rewrite (Z.add_comm b1), (Z.add_comm b2).
Qed.

(** A window moves the scalars on by three bits. *)
Lemma window_digits A s sh bits : 0 <= sh -> sh + 3 <= bits ->
  8 * (2 ^ (bits - (sh + 3)) * A + s / 2 ^ (sh + 3)) + (s / 2 ^ sh) mod 8 = 2 ^ (bits - sh) * A + s / 2 ^ sh.
Proof.
  intros Hsh Hb. replace (bits - sh) with (bits - (sh + 3) + 3) by lia. rewrite !Z.pow_add_r by lia.
  change (2 ^ 3) with 8. rewrite <-Z.div_div by lia.
  pose proof (Z.div_mod (s / 2 ^ sh) 8). lia.
Qed.

Lemma windows_spec points s1 s2 A B bits n : forall k res hints,
  table_ok points -> 0 <= s1 -> 0 <= s2 -> 0 <= A -> 0 <= B -> bits = 1 + 3 * Z.of_nat (k + n) ->
  let sh := bits - 1 - 3 * Z.of_nat k in
  on res -> elt res ≡ lin (2 ^ (bits - sh) * A + s1 / 2 ^ sh) (2 ^ (bits - sh) * B + s2 / 2 ^ sh) ->
  exists R hints', foldl (window_step record_inverse p a points s1 s2) (Ok (res, hints))
      (map (fun k => bits - (4 + 3 * Z.of_nat k)) (seq k n)) = Ok (R, hints') /\
    on R /\ elt R ≡ lin (2 ^ bits * A + s1) (2 ^ bits * B + s2).
Proof.
  induction n as [|n IH]; intros k res hints Ht H1 H2 HA HB Hbits sh Hres Hx; cbn [seq map foldl].
  { exists res, hints. split; [done|]. split; [done|]. rewrite Hx. replace sh with 0 by lia.
    by rewrite Z.sub_0_r, !Z.div_1_r. }
  set (sh' := bits - (4 + 3 * Z.of_nat k)). unfold window_step at 2. cbn [rbind].
  assert (0 < 2 ^ sh) by (apply Z.pow_pos_nonneg; lia).
  assert (forall C s, 0 <= C -> 0 <= s -> 0 <= 2 ^ (bits - sh) * C + s / 2 ^ sh) as Hpos.
  { intros C s HC Hs. apply Z.add_nonneg_nonneg; [apply Z.mul_nonneg_nonneg; [apply Z.pow_nonneg; lia|done]|].
    apply Z.div_pos; lia. }
  pose proof (Hpos A s1 HA H1) as PA. pose proof (Hpos B s2 HB H2) as PB.
  destruct (computes_twice3 res _ _ PA PB Hres Hx hints) as (R1&h1&->&HR1&Hx1). cbn [rbind].
  destruct (add_window_spec points s1 s2 sh' R1 _ _ Ht H1 H2 ltac:(lia) (Z.mul_nonneg_nonneg 8 _ ltac:(lia) PA)
    (Z.mul_nonneg_nonneg 8 _ ltac:(lia) PB) HR1 Hx1 h1) as (R2&h2&->&HR2&Hx2).
  apply IH; try done; [lia|]. rewrite Hx2. replace sh with (sh' + 3) by lia.
  rewrite !window_digits by lia. by replace (bits - 1 - 3 * Z.of_nat (S k)) with sh' by lia.
Qed.

Lemma word_mul_spec points s1 s2 A B bits n res :
  table_ok points -> 0 <= s1 < 2 ^ (bits + 2) -> 0 <= s2 < 2 ^ (bits + 2) -> 0 <= A -> 0 <= B ->
  bits = 1 + 3 * Z.of_nat n -> (0 < n)%nat -> on res -> elt res ≡ lin A B ->
  computes (fun hints => word_mul record_inverse p a points bits s1 s2 hints res) (lin (2 ^ bits * A + s1) (2 ^ bits * B + s2)).
Proof.
  intros Ht [H1 H1'] [H2 H2'] HA HB Hbits Hn Hres Hx hints. unfold word_mul.
  destruct (computes_twice res _ Hres Hx hints) as (R1&h1&->&HR1&Hx1). cbn [rbind].
  rewrite lin_twice in Hx1 by done.
  destruct (add_window_spec points s1 s2 (bits - 1) R1 (2 * A) (2 * B) Ht H1 H2 ltac:(lia) ltac:(lia) ltac:(lia) HR1 Hx1 h1)
    as (R2&h2&->&HR2&Hx2). cbn [rbind]. unfold shifts.
  replace (bits - 4) with ((Z.of_nat n - 1) * 3) by lia. rewrite Z.div_mul by lia.
  replace (Z.to_nat (Z.of_nat n - 1 + 1)) with n by lia.
  apply windows_spec; try done. cbv zeta. rewrite Hx2.
  change (bits - 1 - 3 * Z.of_nat 0) with (bits - 1 - 0). rewrite Z.sub_0_r.
  replace (bits - (bits - 1)) with 1 by lia. change (2 ^ 1) with 2.
  assert (forall s, 0 <= s < 2 ^ (bits + 2) -> (s / 2 ^ (bits - 1)) mod 8 = s / 2 ^ (bits - 1)) as Hs; [|by rewrite !Hs].
  intros s Hs. apply Z.mod_small. split; [apply Z.div_pos; lia|]. apply Z.div_lt_upper_bound; [lia|].
  replace 8 with (2 ^ 3) by done. rewrite <-Z.pow_add_r by lia. replace (bits - 1 + 3) with (bits + 2) by lia. apply Hs.
Qed.

(** The multiplication by two 384-bit scalars. *)
Lemma double_scalar_mul_spec points u v :
  table_ok points -> 0 <= u < 2 ^ 384 -> 0 <= v < 2 ^ 384 ->
  computes (fun hints => double_scalar_mul record_inverse p a hints points u v) (lin u v).
Proof.
  intros Ht Hu Hv. unfold double_scalar_mul. cbv zeta.
  assert (forall s, 0 <= s < 2 ^ 384 -> 0 <= Z.shiftr s 256 < 2 ^ 128 /\ Z.land s (Z.shiftl 1 256 - 1) = s mod 2 ^ 256 /\
    2 ^ 256 * Z.shiftr s 256 + s mod 2 ^ 256 = s) as Hs.
  { intros s Hs. rewrite Z.shiftr_div_pow2 by lia. split; [|split].
    - split; [apply Z.div_pos; lia|]. apply Z.div_lt_upper_bound; lia.
    - change (Z.shiftl 1 256 - 1) with (Z.ones 256). by rewrite Z.land_ones.
    - symmetry. by apply Z.div_mod. }
  destruct (Hs u Hu) as (Hu1&->&Hu2), (Hs v Hv) as (Hv1&->&Hv2).
  pose proof (Z.mod_pos_bound u (2 ^ 256)). pose proof (Z.mod_pos_bound v (2 ^ 256)).
  apply (computes_bind _ (fun res hints => _) (lin (Z.shiftr u 256) (Z.shiftr v 256))).
  - eapply computes_equiv; [apply (word_mul_spec points _ _ 0 0 184 61); try done|].
    + assert (2 ^ 128 < 2 ^ (184 + 2)) by done. lia.
    + assert (2 ^ 128 < 2 ^ (184 + 2)) by done. lia.
    + lia.
    + apply model.
    + rewrite comb_00. apply model.
    + by rewrite !Z.mul_0_r, !Z.add_0_l.
  - intros R HR Hx. assert (2 ^ 256 < 2 ^ (256 + 2)) by done.
    eapply computes_equiv; [apply (word_mul_spec points _ _ (Z.shiftr u 256) (Z.shiftr v 256) 256 85); try done; lia|].
    by rewrite Hu2, Hv2.
Qed.
End curve.

(** ** ECDSA *)

Lemma be_val_zeros k l : be_val (replicate k 0 ++ l) = be_val l.
Proof.
  rewrite be_val_app. replace (be_val (replicate k 0)) with 0; [lia|].
  unfold be_val. induction k as [|k IH]; [done|]. exact IH.
Qed.

(** Division by an invertible value. *)
Lemma mod_div_spec hints x s m : modulus_ok m -> 0 < s < m -> Z.gcd s m = 1 ->
  exists u hints', mod_div record_inverse hints x s m = Ok (u, hints') /\ 0 <= u < m /\ (u * s) mod m = x mod m /\
    forall u', 0 <= u' < m -> (u' * s) mod m = x mod m -> u' = u.
Proof.
  intros [Hm _] Hs Hg. unfold mod_div, record_inverse. cbv zeta. rewrite (Z.mod_small s m) by lia.
  destruct (Z.eqb_spec s 0); [lia|]. pose proof (mod_inv_spec s m ltac:(lia) Hm) as Hi.
  destruct (mod_inv s m) as [i|]; [|done]. destruct Hi as [Hi Hsi]. cbn [ok_or rbind].
  exists (mod_mul x i m), (hints ++ [i]). unfold mod_mul. split; [done|].
  split; [apply Z.mod_pos_bound; lia|].
  assert (forall y, (y * i * s) mod m = y mod m) as Hcancel.
  { intros y. rewrite <-Z.mul_assoc, (Z.mul_comm i), <-Z.mul_mod_idemp_r, Hsi by lia. by rewrite Z.mul_1_r. }
  split; [by rewrite Z.mul_mod_idemp_l by lia|]. intros u' Hu' He.
  rewrite <-(Z.mod_small u' m), <-(Hcancel u') by lia.
  replace (u' * i * s) with (u' * s * i) by lia. rewrite <-Z.mul_mod_idemp_l, He, Z.mul_mod_idemp_l by lia. done.
Qed.

Section ecdsa.
Context {G : Type} `{CommMonoid G op zero} (cv : Curve) (on : Point -> Prop) (elt : Point -> G).
Context (model : CurveModel (cp cv) (ca cv) op zero on elt).
Context (Hp : modulus_ok (cp cv)) (Hn : modulus_ok (cn cv)).
Context (order_prime : forall s, 0 < s < cn cv -> Z.gcd s (cn cv) = 1).
Context (generator_on : on (new_point (cgx cv) (cgy cv))).
Context (curve_on : forall x y, 0 < x < cp cv -> 0 < y < cp cv -> on_curve cv x y = true -> on (new_point x y)).

(** The textbook definition: [R = (h/s) G + (r/s) Q] exists, and its abscissa is [r]. *)
Definition valid_signature (hash signature pubkey : bytes) : Prop :=
  length signature = 96%nat /\ length pubkey = 96%nat /\ (length hash <= 48)%nat /\
  let r := be_val (take 48 signature) in
  let s := be_val (drop 48 signature) in
  let x := be_val (take 48 pubkey) in
  let y := be_val (drop 48 pubkey) in
  0 < r < cn cv /\ 0 < s < cn cv /\ 0 < x < cp cv /\ 0 < y < cp cv /\ on_curve cv x y = true /\
  exists u v R, 0 <= u < cn cv /\ 0 <= v < cn cv /\
    (u * s) mod cn cv = be_val hash mod cn cv /\ (v * s) mod cn cv = r mod cn cv /\
    on R /\ elt R ≡ comb (op := op) (zero := zero) u v (elt (new_point (cgx cv) (cgy cv))) (elt (new_point x y)) /\
    infinity R = false /\ px R mod cn cv = r.

Lemma signature_point_spec h r s x y :
  0 < s < cn cv -> 0 < x < cp cv -> 0 < y < cp cv -> on_curve cv x y = true ->
  exists u v R hints, signature_point cv record_inverse [] h r s x y = Ok (R, hints) /\
    0 <= u < cn cv /\ 0 <= v < cn cv /\ (u * s) mod cn cv = h mod cn cv /\ (v * s) mod cn cv = r mod cn cv /\
    (forall u', 0 <= u' < cn cv -> (u' * s) mod cn cv = h mod cn cv -> u' = u) /\
    (forall v', 0 <= v' < cn cv -> (v' * s) mod cn cv = r mod cn cv -> v' = v) /\ on R /\
    elt R ≡ comb (op := op) (zero := zero) u v (elt (new_point (cgx cv) (cgy cv))) (elt (new_point x y)).
Proof.
  intros Hs Hx Hy Hc. pose proof (curve_on x y Hx Hy Hc) as HQ. unfold signature_point.
  destruct (mod_div_spec [] h s (cn cv) Hn Hs (order_prime s Hs)) as (u&h1&->&Hu&Hus&Huu). cbn [rbind].
  destruct (mod_div_spec h1 r s (cn cv) Hn Hs (order_prime s Hs)) as (v&h2&->&Hv&Hvs&Hvu). cbn [rbind].
  destruct (table_spec (cp cv) (ca cv) on elt model _ _ (new_point (cgx cv) (cgy cv)) (new_point x y) generator_on HQ
    (reflexivity _) (reflexivity _) h2) as (table&h3&Ht&Htab); [done|done|]. cbn [px py new_point] in Ht.
  rewrite Ht. cbn [rbind].
  destruct (double_scalar_mul_spec (cp cv) (ca cv) on elt model _ _ table u v Htab) with (hints := h3)
    as (R&h4&->&HR&HRe); [unfold modulus_ok in *; lia..|].
  exists u, v, R, h4. done.
Qed.

(** The checks before the multiplication. *)
Definition in_range (hash signature pubkey : bytes) : Prop :=
  length signature = 96%nat /\ length pubkey = 96%nat /\ (length hash <= 48)%nat /\
  0 < be_val (take 48 signature) < cn cv /\ 0 < be_val (drop 48 signature) < cn cv /\
  0 < be_val (take 48 pubkey) < cp cv /\ 0 < be_val (drop 48 pubkey) < cp cv /\
  on_curve cv (be_val (take 48 pubkey)) (be_val (drop 48 pubkey)) = true.

Lemma be_val_nonneg l : is_bytes l -> 0 <= be_val l.
Proof. intros Hl. apply (be_val_bound l Hl). Qed.

Lemma verify_with_spec hash signature pubkey res hints :
  is_bytes signature -> is_bytes pubkey ->
  verify_with cv record_inverse [] hash signature pubkey = Ok (res, hints) <->
  in_range hash signature pubkey /\
  signature_point cv record_inverse [] (be_val hash) (be_val (take 48 signature)) (be_val (drop 48 signature))
    (be_val (take 48 pubkey)) (be_val (drop 48 pubkey)) = Ok (res, hints) /\
  infinity res = false /\ px res mod cn cv = be_val (take 48 signature).
Proof.
  intros Hsig Hkey. unfold verify_with, in_range. cbv zeta. rewrite be_val_zeros.
  pose proof (be_val_nonneg _ (Forall_take _ 48 _ Hsig)) as Hr. pose proof (be_val_nonneg _ (Forall_drop _ 48 _ Hsig)) as Hs.
  pose proof (be_val_nonneg _ (Forall_take _ 48 _ Hkey)) as Hx. pose proof (be_val_nonneg _ (Forall_drop _ 48 _ Hkey)) as Hy.
  set (r := be_val (take 48 signature)) in *. set (s := be_val (drop 48 signature)) in *.
  set (x := be_val (take 48 pubkey)) in *. set (y := be_val (drop 48 pubkey)) in *.
  destruct (Nat.eqb_spec (length signature) 96); cbn [negb]; [|split; [done|naive_solver]].
  destruct (Nat.eqb_spec (length pubkey) 96); cbn [negb]; [|split; [done|naive_solver]].
  destruct (Nat.ltb_spec 48 (length hash)); [split; [done|naive_solver lia]|].
  destruct (Z.eqb_spec r 0), (Z.leb_spec (cn cv) r); cbn [orb]; try (split; [done|naive_solver lia]).
  destruct (Z.eqb_spec s 0), (Z.leb_spec (cn cv) s); cbn [orb]; try (split; [done|naive_solver lia]).
  destruct (Z.eqb_spec x 0), (Z.leb_spec (cp cv) x); cbn [orb]; try (split; [done|naive_solver lia]).
  destruct (Z.eqb_spec y 0), (Z.leb_spec (cp cv) y); cbn [orb]; try (split; [done|naive_solver lia]).
  destruct (on_curve cv x y); cbn [negb]; [|split; [done|naive_solver]].
  destruct (signature_point _ _ _ _ _ _ _ _) as [[pt k]|err]; cbn [rbind]; [|split; [done|naive_solver]].
  destruct (infinity pt) eqn:Hi; [split; [done|naive_solver congruence]|].
  destruct (Z.eqb_spec (px pt mod cn cv) r) as [Hpx|Hpx]; cbn [negb]; [|split; [done|naive_solver congruence]].
  split; [intros [= <- <-]; repeat split; (done || lia)|naive_solver].
Qed.

End ecdsa.

(** ** A small curve

    [y^2 = x^3 - 3x + 6] over the integers modulo 7 has eleven points; [small_points]
    lists them as the multiples of the first. *)

Definition small : Curve := {| cp := 7; cn := 11; ca := 4; cb := 6; cgx := 1; cgy := 2 |}.
Definition small_points : list Point :=
  [point_infinity; new_point 1 2; new_point 5 5; new_point 2 6; new_point 6 6; new_point 4 4; new_point 4 3;
   new_point 6 1; new_point 2 1; new_point 5 2; new_point 1 5].
Definition small_log (P : Point) : Z :=
  match list_find (fun Q => Q = P) small_points with Some (i, _) => Z.of_nat i | None => 0 end.

(** The integers modulo 11. *)
#[local] Instance mod11 : Equiv Z := fun x y => x mod 11 = y mod 11.
#[local] Instance mod11_monoid : CommMonoid Z Z.add 0.
Proof.
  split.
  - split; red; unfold equiv, mod11; congruence.
  - intros x y Hxy z w Hzw. unfold equiv, mod11 in *. by rewrite Z.add_mod, Hxy, Hzw, <-Z.add_mod.
  - intros x y z. unfold equiv, mod11. f_equal. lia.
  - intros x y. unfold equiv, mod11. f_equal. lia.
  - intros x. unfold equiv, mod11. f_equal.
Qed.

(** The sum of two points, whatever was recorded before. *)
Lemma add_affine_any p a P Q R h0 hints : modulus_ok p ->
  add_affine record_inverse p a [] P Q = Ok (R, h0) -> exists h', add_affine record_inverse p a hints P Q = Ok (R, h').
Proof.
  intros Hp Hadd. destruct (agree_add p a Hp P Q) as [H1 H2].
  apply H1 in Hadd as (new&_&_&Hu). specialize (Hu []). apply H2 in Hu as (new'&_&Hr). by eexists.
Qed.

Definition small_add_ok (P Q : Point) : bool :=
  match add_affine record_inverse 7 4 [] P Q with
  | Ok (R, _) => bool_decide (R ∈ small_points) && (small_log R mod 11 =? (small_log P + small_log Q) mod 11)
  | Err _ => false
  end.

Lemma small_closed : forallb (fun P => forallb (small_add_ok P) small_points) small_points = true.
Proof. vm_compute. reflexivity. Qed.

Lemma small_model : CurveModel 7 4 Z.add 0 (fun P => P ∈ small_points) small_log.
Proof.
  split.
  - split; [by left|done].
  - intros P HP Hi. unfold small_points in HP. rewrite !elem_of_cons, elem_of_nil in HP.
    destruct HP as [->|HP]; [done|]. by destruct_or! HP; subst.
  - intros P Q hints HP HQ. pose proof small_closed as Hc. rewrite forallb_forall in Hc.
    specialize (Hc P (proj1 (list_elem_of_In _ _) HP)). rewrite forallb_forall in Hc.
    specialize (Hc Q (proj1 (list_elem_of_In _ _) HQ)). unfold small_add_ok in Hc.
    destruct (add_affine record_inverse 7 4 [] P Q) as [[R h0]|e] eqn:Hadd; [|done].
    apply andb_true_iff in Hc as [HR%bool_decide_eq_true Hl%Z.eqb_eq].
    destruct (add_affine_any 7 4 P Q R h0 hints) as [h' Hh]; [by split|done|]. by exists R, h'.
  - intros P Q HP HQ He. unfold small_points in HP, HQ. rewrite !elem_of_cons, elem_of_nil in HP, HQ.
    destruct_or! HP; try done; subst P; destruct_or! HQ; try done; subst Q; (done || (exfalso; revert He; vm_compute; congruence)).
Qed.

Lemma small_curve_on x y : 0 < x < 7 -> 0 < y < 7 -> on_curve small x y = true -> new_point x y ∈ small_points.
Proof.
  intros Hx Hy Hc. apply (bool_decide_unpack _).
  assert (x = 1 \/ x = 2 \/ x = 3 \/ x = 4 \/ x = 5 \/ x = 6) as Hx' by lia.
  assert (y = 1 \/ y = 2 \/ y = 3 \/ y = 4 \/ y = 5 \/ y = 6) as Hy' by lia.
  destruct_or! Hx'; subst x; destruct_or! Hy'; subst y; first [discriminate Hc|reflexivity].
Qed.

Lemma small_prime s : 0 < s < 11 -> Z.gcd s 11 = 1.
Proof.
  intros Hs. assert (s = 1 \/ s = 2 \/ s = 3 \/ s = 4 \/ s = 5 \/ s = 6 \/ s = 7 \/ s = 8 \/ s = 9 \/ s = 10) as Hs' by lia.
  by destruct_or! Hs'; subst s.
Qed.

(** The signature [(2, 9)] of the hash 1 under the key [(5, 5)]. *)
Definition small_signature : bytes := be_bytes 48 2 ++ be_bytes 48 9.
Definition small_key : bytes := be_bytes 48 5 ++ be_bytes 48 5.

