(* ===== verification/Prewarm.v ===== *)
(** * The certificates to cache before a key can be registered
    ([src/proofs/measured/nitro-enclave/src/prewarm.rs])

    The contract that registers keys walks the certificates of an attestation and
    accepts only those that are in its cache.  The plan lists the certificates to put
    there, each with its parent's cache key and with the hints for its signature. *)

From S2P Require Import Prelude Encoding ProofTypes Attestation P384Hints.

Definition ROOT_CA_CERT_HASH : B256 := 0x311d96fcd5c5e0ccf72ef548e2ea7d4c0cd53ad7c4cc49e67471aed41d61f185.

Record ColdCert := {
  cc_cert : bytes; parent_hash : B256; cache_key : B256; cc_hints : bytes; is_ca : bool
}.

(** [None] in the place of the index stands for the leaf. *)
Inductive PlanError :=
| PlanDocument (e : AttestationError)
| EmptyCabundle
| PlanCacheKey (i : option nat) (m : string)
| PlanPublicKey (i : nat) (e : AttestationError)
| NoVerifiedParent (i : option nat)
| PlanSignature (i : option nat) (m : string)
| PlanHints (i : option nat) (m : string).

Section prewarm.
(** The curve of the certificates, which is [P384] in the program. *)
Context (cv : Curve) (lib : Crypto) (keccak256 : bytes -> B256) (sha384 : bytes -> bytes).

Definition cert_cache_key (der : bytes) : result B256 string :=
  if keccak256 der =? ROOT_CA_CERT_HASH then Ok ROOT_CA_CERT_HASH
  else
    let? cert := map_err (fun e => "X.509 parse error: " +:+ e) (from_der lib der) in
    Ok (keccak256 (tbs_certificate cert)).

Definition parse_cert_signature (der : bytes) : result (bytes * bytes) string :=
  let? cert := map_err (fun e => "X.509 parse error: " +:+ e) (from_der lib der) in
  let hash := sha384 (tbs_certificate cert) in
  let? sig := map_err (fun e => "decoding certificate ECDSA signature: " +:+ e)
    (p384_from_der lib (signature_value cert)) in
  Ok (hash, p384_to_bytes lib sig).

(** The entry of a certificate below a parent with this cache key and public key. *)
Definition cold_cert (i : option nat) (cert : bytes) (parent : B256) (pubkey : bytes) (key : B256) (ca : bool)
    : result ColdCert PlanError :=
  let? sig := map_err (PlanSignature i) (parse_cert_signature cert) in
  let? hints := map_err (PlanHints i) (collect_hints_on cv sig.1 sig.2 pubkey) in
  Ok {| cc_cert := cert; parent_hash := parent; cache_key := key; cc_hints := hints; is_ca := ca |}.

(** The loop over the bundle: the entries, and the last certificate's cache key and
    public key. *)
Fixpoint plan_cas (i : nat) (parent : B256) (parent_pubkey : option bytes) (bundle : list bytes)
    : result (list ColdCert * B256 * option bytes) PlanError :=
  match bundle with
  | [] => Ok ([], parent, parent_pubkey)
  | cert :: rest =>
      let? key := map_err (PlanCacheKey (Some i)) (cert_cache_key cert) in
      if key =? ROOT_CA_CERT_HASH then
        let? pubkey := map_err (PlanPublicKey i) (cert_pubkey_xy lib cert) in
        plan_cas (S i) key (Some pubkey) rest
      else
        let? pubkey := ok_or parent_pubkey (NoVerifiedParent (Some i)) in
        let? entry := cold_cert (Some i) cert parent pubkey key true in
        let? own := map_err (PlanPublicKey i) (cert_pubkey_xy lib cert) in
        let? r := plan_cas (S i) key (Some own) rest in
        let '(plan, last_key, last_pubkey) := r in
        Ok (entry :: plan, last_key, last_pubkey)
  end.

Definition build_prewarm_plan (attestation_doc : bytes) : result (list ColdCert) PlanError :=
  let? parsed := map_err PlanDocument (parse_attestation_doc lib attestation_doc) in
  let leaf := certificate parsed in
  if bool_decide (cabundle parsed = []) then Err EmptyCabundle
  else
    let? r := plan_cas 0 0 None (cabundle parsed) in
    let '(plan, parent, parent_pubkey) := r in
    let? pubkey := ok_or parent_pubkey (NoVerifiedParent None) in
    let? sig := map_err (PlanSignature None) (parse_cert_signature leaf) in
    let? hints := map_err (PlanHints None) (collect_hints_on cv sig.1 sig.2 pubkey) in
    let? key := map_err (PlanCacheKey None) (cert_cache_key leaf) in
    Ok (plan ++ [{| cc_cert := leaf; parent_hash := parent; cache_key := key; cc_hints := hints; is_ca := false |}]).

(** [packed.get(1..9)], as a big-endian integer *)
Definition packed_cert_not_after (packed : bytes) : option Z :=
  if (length packed <? 9)%nat then None else Some (be_val (take 8 (drop 1 packed))).

(** ** What a plan is *)

(** The hints of an entry are those of its signature under the parent's key. *)
Definition signed_below (parent : bytes) (e : ColdCert) : Prop :=
  exists hash sig pubkey, cert_pubkey_xy lib parent = Ok pubkey /\ parse_cert_signature (cc_cert e) = Ok (hash, sig) /\
    collect_hints_on cv hash sig pubkey = Ok (cc_hints e).

(** An entry for the certificate below the parent. *)
Definition below (parent : bytes) (e : ColdCert) : Prop :=
  cert_cache_key parent = Ok (parent_hash e) /\ cert_cache_key (cc_cert e) = Ok (cache_key e) /\ signed_below parent e.

Definition has_key (cert : bytes) : Prop := exists pubkey, cert_pubkey_xy lib cert = Ok pubkey.

(** [planned p bundle plan l]: below [p], the bundle is a chain that ends in [l],
    and the plan has its certificates except for copies of the root. *)
Inductive planned : bytes -> list bytes -> list ColdCert -> bytes -> Prop :=
| planned_nil p : planned p [] [] p
| planned_root p c rest plan l :
    cert_cache_key c = Ok ROOT_CA_CERT_HASH -> has_key c -> planned c rest plan l -> planned p (c :: rest) plan l
| planned_ca p e rest plan l :
    below p e -> cache_key e <> ROOT_CA_CERT_HASH -> is_ca e = true -> has_key (cc_cert e) ->
    planned (cc_cert e) rest plan l -> planned p (cc_cert e :: rest) (e :: plan) l.

(** The plan of a document: the chain from below the pinned root, then the leaf. *)
Definition chain_plan (doc : bytes) (plan : list ColdCert) : Prop :=
  exists s d root rest cas l leaf,
    carries lib doc s d /\ cabundle d = root :: rest /\ cert_cache_key root = Ok ROOT_CA_CERT_HASH /\ has_key root /\
    planned root rest cas l /\ plan = cas ++ [leaf] /\ cc_cert leaf = certificate d /\ is_ca leaf = false /\ below l leaf.

(** Every entry's parent is the pinned root or an earlier entry. *)
Definition parents_earlier (plan : list ColdCert) : Prop :=
  forall k e, plan !! k = Some e -> parent_hash e = ROOT_CA_CERT_HASH \/
    exists j e', (j < k)%nat /\ plan !! j = Some e' /\ cache_key e' = parent_hash e.

Lemma cold_cert_below i parent cert hash pubkey key ca e :
  cert_cache_key parent = Ok hash -> cert_pubkey_xy lib parent = Ok pubkey -> cert_cache_key cert = Ok key ->
  cold_cert i cert hash pubkey key ca = Ok e <-> cc_cert e = cert /\ cache_key e = key /\ is_ca e = ca /\ below parent e.
Proof.
  intros Hp Hk Hc. unfold cold_cert. split.
  - intros ([h s]&Hs%map_err_Ok&(hints&Hh%map_err_Ok&[= <-])%rbind_Ok)%rbind_Ok.
    do 3 (split; [done|]). split; [done|]. split; [done|]. by exists h, s, pubkey.
  - destruct e as [c ph k hs b]. intros (Hcc&Hck&Hca&Hph&_&h&s&pk&Hpk&Hs&Hh).
    cbn [cc_cert parent_hash cache_key cc_hints is_ca] in *. subst c k b.
    assert (pk = pubkey) as -> by congruence. assert (ph = hash) as -> by congruence. rewrite Hs. cbn [map_err rbind fst snd].
    by rewrite Hh.
Qed.

Lemma plan_cas_spec bundle : forall i parent hash pubkey plan last_key last_pubkey,
  cert_cache_key parent = Ok hash -> cert_pubkey_xy lib parent = Ok pubkey ->
  plan_cas i hash (Some pubkey) bundle = Ok (plan, last_key, last_pubkey) ->
  exists l last, planned parent bundle plan l /\ cert_cache_key l = Ok last_key /\ last_pubkey = Some last /\
    cert_pubkey_xy lib l = Ok last.
Proof.
  induction bundle as [|c bundle IH]; intros i parent hash pubkey plan lk lp Hp Hk; cbn [plan_cas].
  { intros [= <- <- <-]. exists parent, pubkey. split_and!; try done. constructor. }
  rewrite rbind_Ok. setoid_rewrite map_err_Ok. intros (key&Hkey&Hr). destruct (Z.eqb_spec key ROOT_CA_CERT_HASH) as [->|Hne].
  - apply rbind_Ok in Hr as (pk&Hpk%map_err_Ok&Hr). destruct (IH _ _ _ _ _ _ _ Hkey Hpk Hr) as (l&last&Hl&Hrest).
    exists l, last. split; [apply planned_root; [done|by exists pk|done]|done].
  - cbn [ok_or rbind] in Hr. apply rbind_Ok in Hr as (e&He&Hr).
    apply (cold_cert_below _ parent) in He as (<-&<-&Hca&Hb); [|done..].
    apply rbind_Ok in Hr as (own&Hown%map_err_Ok&Hr). apply rbind_Ok in Hr as ([[plan' lk'] lp']&Hr&[= <- <- <-]).
    destruct (IH _ _ _ _ _ _ _ Hkey Hown Hr) as (l&last&Hl&Hrest). exists l, last.
    split; [apply planned_ca; [done|done|done|by exists own|done]|done].
Qed.

Lemma planned_plan_cas parent bundle plan l : planned parent bundle plan l -> forall i hash pubkey,
  cert_cache_key parent = Ok hash -> cert_pubkey_xy lib parent = Ok pubkey ->
  exists last_key last, cert_cache_key l = Ok last_key /\ cert_pubkey_xy lib l = Ok last /\
    plan_cas i hash (Some pubkey) bundle = Ok (plan, last_key, Some last).
Proof.
  induction 1 as [p|p c rest plan l Hc [k Hk] _ IH|p e rest plan l Hb Hne Hca [k Hk] _ IH]; intros i hash pubkey Hp Hpk.
  - by exists hash, pubkey.
  - destruct (IH (S i) _ _ Hc Hk) as (lk&last&?&?&Hr). exists lk, last. do 2 (split; [done|]).
    cbn [plan_cas]. rewrite Hc. cbn [map_err rbind]. rewrite Z.eqb_refl, Hk. exact Hr.
  - pose proof Hb as (_&Hkey&_). destruct (IH (S i) _ _ Hkey Hk) as (lk&last&?&?&Hr). exists lk, last.
    do 2 (split; [done|]). cbn [plan_cas]. rewrite Hkey. cbn [map_err rbind].
    rewrite (proj2 (Z.eqb_neq _ _) Hne). cbn [ok_or rbind].
    rewrite (proj2 (cold_cert_below (Some i) p (cc_cert e) hash pubkey (cache_key e) true e Hp Hpk Hkey)) by done.
    cbn [rbind]. rewrite Hk. cbn [map_err rbind]. by rewrite Hr.
Qed.

(** In a chain below [p] every parent is [p], the root or an earlier entry, and so
    is the last certificate. *)
Definition known (p : bytes) (plan : list ColdCert) (key : B256) : Prop :=
  key = ROOT_CA_CERT_HASH \/ cert_cache_key p = Ok key \/ exists e, e ∈ plan /\ cache_key e = key.

Lemma planned_known p bundle plan l : planned p bundle plan l ->
  (forall key, cert_cache_key l = Ok key -> known p plan key) /\
  (forall k e, plan !! k = Some e -> known p (take k plan) (parent_hash e)).
Proof.
  assert (forall p c key, cert_cache_key c = Ok ROOT_CA_CERT_HASH -> forall plan, known c plan key -> known p plan key) as Hroot.
  { intros q c key Hc pl [?|[Hk|?]]; [by left|left; congruence|by right; right]. }
  induction 1 as [p|p c rest plan l Hc _ _ [IH1 IH2]|p e rest plan l (Hp&Hkey&_) _ _ _ _ [IH1 IH2]].
  - split; [|by intros []]. intros key Hk. right. by left.
  - split; [intros key Hk; eapply Hroot; eauto|]. intros k e He. eapply Hroot; eauto.
  - assert (forall pl key, known (cc_cert e) pl key -> known p (e :: pl) key) as Hcons.
    { intros pl key [?|[Hk|(e'&?&?)]]; [by left| |right; right; exists e'; split; [by right|done]].
      right. right. exists e. split; [by left|]. rewrite Hkey in Hk. by injection Hk. }
    split; [intros key Hk; by apply Hcons, IH1|]. intros [|k] e' He; cbn in He; [|by apply Hcons, IH2].
    injection He as <-. right. by left.
Qed.

Lemma known_root root plan key : cert_cache_key root = Ok ROOT_CA_CERT_HASH -> known root plan key ->
  key = ROOT_CA_CERT_HASH \/ exists j e, (j < length plan)%nat /\ plan !! j = Some e /\ cache_key e = key.
Proof.
  intros Hr [?|[Hk|(e&He&?)]]; [by left|left; congruence|right]. apply list_elem_of_lookup in He as [j Hj].
  exists j, e. split; [by eapply lookup_lt_Some|done].
Qed.

Lemma chain_plan_order doc plan : chain_plan doc plan -> parents_earlier plan.
Proof.
  intros (s&d&root&rest&cas&l&leaf&_&_&Hkey&_&Hl&->&_&_&Hlk&_).
  destruct (planned_known _ _ _ _ Hl) as [Hlast Hearlier].
  intros k e [He|[Hk He]]%lookup_app_Some.
  - destruct (known_root root (take k cas) (parent_hash e) Hkey (Hearlier k e He)) as [?|(j&e'&Hj&He'&?)]; [by left|right].
    rewrite length_take in Hj. rewrite lookup_take_lt in He' by lia. exists j, e'. split; [lia|].
    split; [by apply lookup_app_l_Some|done].
  - apply list_lookup_singleton_Some in He as [Hk0 <-].
    destruct (known_root root cas _ Hkey (Hlast _ Hlk)) as [?|(j&e'&Hj&He'&?)]; [by left|right].
    exists j, e'. split; [lia|]. split; [by apply lookup_app_l_Some|done].
Qed.

Lemma build_prewarm_plan_spec doc plan : build_prewarm_plan doc = Ok plan <-> chain_plan doc plan.
Proof.
  unfold build_prewarm_plan. split.
  - rewrite rbind_Ok. intros (d&[s Hd]%map_err_Ok%parse_doc_spec&Hr).
    destruct (cabundle d) as [|root rest] eqn:Hb; [done|]. rewrite bool_decide_false in Hr by done.
    apply rbind_Ok in Hr as ([[cas parent] pk]&Hcas&Hr). cbn [plan_cas] in Hcas.
    apply rbind_Ok in Hcas as (key&Hkey%map_err_Ok&Hcas).
    destruct (Z.eqb_spec key ROOT_CA_CERT_HASH) as [->|]; [|done].
    apply rbind_Ok in Hcas as (rk&Hrk%map_err_Ok&Hcas).
    destruct (plan_cas_spec _ _ _ _ _ _ _ _ Hkey Hrk Hcas) as (l&last&Hl&Hlk&->&Hlp).
    cbn [ok_or rbind] in Hr. apply rbind_Ok in Hr as ([h sg]&Hsig%map_err_Ok&Hr).
    apply rbind_Ok in Hr as (hints&Hh%map_err_Ok&Hr). apply rbind_Ok in Hr as (lkey&Hleaf%map_err_Ok&[= <-]).
    exists s, d, root, rest, cas, l. eexists. do 3 (split; [done|]). split; [by exists rk|]. do 4 (split; [done|]).
    split; [done|]. split; [done|]. by exists h, sg, last.
  - intros (s&d&root&rest&cas&l&[c ph k hs b]&Hd&Hb&Hkey&[rk Hrk]&Hl&->&Hc&Hca&Hlk&Hleaf&h&sg&pk&Hpk&Hsig&Hh).
    cbn [cc_cert parent_hash cache_key cc_hints is_ca] in *. subst c b.
    rewrite (proj2 (parse_doc_spec lib doc d)) by (by exists s). cbn [map_err rbind]. rewrite Hb, bool_decide_false by done.
    destruct (planned_plan_cas _ _ _ _ Hl 1%nat _ _ Hkey Hrk) as (lk&last&Hlk'&Hlast&Hr).
    cbn [plan_cas]. rewrite Hkey. cbn [map_err rbind]. rewrite Z.eqb_refl, Hrk. cbn [map_err rbind]. rewrite Hr.
    assert (lk = ph) as -> by congruence. assert (last = pk) as -> by congruence.
    cbn [ok_or rbind]. rewrite Hsig. cbn [map_err rbind fst snd]. rewrite Hh. cbn [map_err rbind]. by rewrite Hleaf.
Qed.

(** A plan is built exactly when the document has a certificate chain below the pinned
    root, and then it is that chain down to the leaf, which is last and the only one
    that is not a CA; each entry has its parent's cache key and the hints for its
    signature under the parent's key.  Every parent is the root or comes earlier, so
    that the entries can be submitted in order. *)
Theorem plan_is_the_chain doc plan :
  build_prewarm_plan doc = Ok plan <-> chain_plan doc plan /\ parents_earlier plan.
Proof.
  rewrite build_prewarm_plan_spec. split; [|by intros [? _]]. intros H. split; [done|by eapply chain_plan_order].
Qed.
End prewarm.
