(* ===== verification/NitroRegister.v ===== *)
(** * Registration of an enclave's key
    ([src/proofs/backends/nitro/register/src/lib.rs], [src/proofs/services/tx-signer/src/lib.rs])

    The key is fetched from the enclave with its attestation; the certificates of the
    attestation are put into the cache of the contract that checks certificates, and
    then the attestation is submitted to the registry, with up to five attempts. *)

From S2P Require Import Prelude Program Race Encoding ProofTypes NitroWire Attestation NitroEnclave NitroHost.
From S2P Require Import P384Hints P384Ecdsa Prewarm.

Abbreviation TxHash := Z (only parsing).

(** ** Strings *)

(** The characters with Unicode's White_Space property, in UTF-8. *)
Definition white_space : list (list nat) :=
  [[9]; [10]; [11]; [12]; [13]; [32]; [194; 133]; [194; 160]; [225; 154; 128];
   [226; 128; 128]; [226; 128; 129]; [226; 128; 130]; [226; 128; 131]; [226; 128; 132]; [226; 128; 133];
   [226; 128; 134]; [226; 128; 135]; [226; 128; 136]; [226; 128; 137]; [226; 128; 138];
   [226; 128; 168]; [226; 128; 169]; [226; 128; 175]; [226; 129; 159]; [227; 128; 128]]%nat.

(** Drops characters of [set] from the front, at most [fuel] of them. *)
Fixpoint trim_front (set : list (list nat)) (fuel : nat) (s : list nat) : list nat :=
  match fuel with
  | O => s
  | S fuel =>
      match find (fun w => bool_decide (take (length w) s = w)) set with
      | Some w => trim_front set fuel (drop (length w) s)
      | None => s
      end
  end.

(** [str::trim]: a character has at least one byte, so the length is enough fuel. *)
Definition trim (value : string) : string :=
  let s := map Ascii.nat_of_ascii (String.list_ascii_of_string value) in
  let front := trim_front white_space (length s) s in
  let both := reverse (trim_front (map reverse white_space) (length front) (reverse front)) in
  String.string_of_list_ascii (map Ascii.ascii_of_nat both).

(** ** Transaction signers ([tx-signer]) *)

Record Wallets := {
  PrivateKeySigner : Type;
  parse_private_key : string -> result PrivateKeySigner string;
  local_address : PrivateKeySigner -> Address;
  AwsSigner : Type;
  aws_address : AwsSigner -> Address;
  Url : Type;
  parse_url : string -> result Url string;
  parse_address : string -> result Address string
}.

Section signer.
Context (w : Wallets).

Inductive TransactionSigner := SignLocal (s : PrivateKeySigner w) | SignAws (s : AwsSigner w).
Inductive TransactionSignerSource := SourceLocal (s : PrivateKeySigner w) | SourceAwsKms (key_id : string).
Inductive TransactionSignerError := InvalidConfiguration | SignerChainId (m : string) | SignerAwsKms (m : string).

Definition select_signer_source (private_key : option (PrivateKeySigner w)) (aws_kms_key_id : option string)
    : result TransactionSignerSource TransactionSignerError :=
  match private_key, aws_kms_key_id with
  | Some signer, None => Ok (SourceLocal signer)
  | None, Some key_id => if negb (bool_decide (trim key_id = "")) then Ok (SourceAwsKms key_id) else Err InvalidConfiguration
  | _, _ => Err InvalidConfiguration
  end.

(** ** Calls *)

Record RegistrationCalldata := { rc_attestation_tbs : bytes; rc_signature : bytes; rc_attestation_sig_hints : bytes }.

(** A failed [send]: with revert data it was a revert at estimation. *)
Inductive SendError := SendReverted (m : string) | SendTransport (m : string).

Inductive cert_method := VerifyCACertWithHints | VerifyClientCertWithHints.

Inductive reg_call :=
| GetChainId (url : Url w)
| NewAwsSigner (key_id : string) (chain_id : Z)
| ReadVerifier (registry : Address)
| ReadCertManager (verifier : Address)
| Verified (cert_manager : Address) (key : B256)
| SendCert (from cert_manager : Address) (method : cert_method) (cert : bytes) (parent : B256) (hints : bytes)
| GetReceipt (tx_hash : TxHash)
| IsSignerRegistered (registry signer : Address)
| RegisterKey (from registry : Address) (calldata : RegistrationCalldata)
| SleepSecs (secs : Z).

(** A receipt is its status. *)
Definition RegSig : Sig := MkSig reg_call (fun c =>
  match c with
  | GetChainId _ => result Z string
  | NewAwsSigner _ _ => result (AwsSigner w) string
  | ReadVerifier _ | ReadCertManager _ => result Address string
  | Verified _ _ => result bytes string
  | SendCert _ _ _ _ _ _ => result TxHash string
  | GetReceipt _ => result bool string
  | IsSignerRegistered _ _ => result bool string
  | RegisterKey _ _ _ => result TxHash SendError
  | SleepSecs _ => unit
  end).

Definition ask (c : call RegSig) : prog RegSig (reply RegSig c) := Call c Ret.

Definition build_transaction_signer (private_key : option (PrivateKeySigner w)) (aws_kms_key_id : option string)
    (rpc_url : Url w) : prog RegSig (result TransactionSigner TransactionSignerError) :=
  do? source <- Ret (select_signer_source private_key aws_kms_key_id);
  match source with
  | SourceLocal signer => Ret (Ok (SignLocal signer))
  | SourceAwsKms key_id =>
      do? chain_id <- (do r <- ask (GetChainId rpc_url); Ret (map_err SignerChainId r));
      do? signer <- (do r <- ask (NewAwsSigner key_id chain_id); Ret (map_err SignerAwsKms r));
      Ret (Ok (SignAws signer))
  end.

Definition signer_address (s : TransactionSigner) : Address :=
  match s with SignLocal s => local_address w s | SignAws s => aws_address w s end.

(** ** The registration *)

Inductive RegisterError :=
| EmptyField (field : string)
| FetchPublicKey (e : NitroProverError)
| KeyEncoding (len : nat) (prefix : Z)
| InvalidUrl (m : string)
| InvalidRegistry (m : string)
| InvalidPrivateKey (m : string)
| SignerInit (e : TransactionSignerError)
| VerifierRead (m : string)
| CertManagerRead (m : string)
| PlanFailed (e : PlanError)
| CacheCheck (i : nat) (m : string)
| CachedExpired (i : nat) (key : B256) (not_after now_secs : Z)
| CertReverted (i : nat) (tx_hash : TxHash)
| CertReceipt (i : nat) (tx_hash : TxHash) (m : string)
| CertSubmit (i : nat) (m : string)
| CalldataTbs (e : TbsError)
| CalldataKey (e : AttestationError)
| CalldataHints (m : string)
| EstimationReverted (m : string)
| RegisterSend (m : string)
| RegisterReceipt (tx_hash : TxHash) (m : string)
| RegisterCheck (tx_hash : TxHash) (m : string)
| ConfirmedNotRegistered (tx_hash : TxHash)
| RevertedNotRegistered (tx_hash : TxHash)
| DidNotSucceed
| AttemptsExhausted (last : RegisterError).

Inductive AttemptError := Permanent (e : RegisterError) | Transient (e : RegisterError).
Inductive SignerType := SignerLocal | SignerAwsKmsKey.
Inductive RegistrationOutcome := AlreadyRegistered | Registered (tx_hash : TxHash).

Record RegisterParams := {
  rp_expected_pcrs : ExpectedPcrs; rp_l1_rpc_url : string; rp_registry : string; rp_signer_secret : string;
  rp_signer_type : SignerType
}.

Definition REGISTER_MAX_ATTEMPTS : nat := 5.
Definition REGISTER_RETRY_BASE_DELAY : Z := 2.

Definition non_empty (value field : string) : result string RegisterError :=
  let trimmed := trim value in
  if bool_decide (trimmed = "") then Err (EmptyField field) else Ok trimmed.

(** The last 20 bytes of the hash of [X || Y]. *)
Definition enclave_signer_address (keccak256 : bytes -> B256) (public_key : bytes) : result Address RegisterError :=
  if negb (length public_key =? 65)%nat || negb (nth 0 public_key 0 =? 4) then
    Err (KeyEncoding (length public_key) (from_option id 0 (head public_key)))
  else Ok (keccak256 (take 64 (drop 1 public_key)) mod 2 ^ 160).

(** The curve is [P384] in the program. *)
Definition build_registration_calldata (cv : Curve) (lib : Crypto) (sha384 : bytes -> bytes) (attestation_doc : bytes)
    : result RegistrationCalldata RegisterError :=
  let? r := map_err CalldataTbs (decode_attestation_tbs lib attestation_doc) in
  let '(tbs, signature) := r in
  let? leaf_pubkey := map_err CalldataKey (leaf_cert_pubkey_xy lib attestation_doc) in
  let? hints := map_err CalldataHints (collect_hints_on cv (sha384 tbs) signature leaf_pubkey) in
  Ok {| rc_attestation_tbs := tbs; rc_signature := signature; rc_attestation_sig_hints := hints |}.

(** *** The certificates *)

(** [verified(key).await.map(|v| !v.is_empty()).unwrap_or(false)] *)
Definition now_cached (cert_manager : Address) (key : B256) : prog RegSig bool :=
  do r <- ask (Verified cert_manager key);
  Ret match r with Ok v => negb (bool_decide (v = [])) | Err _ => false end.

Definition method_of (e : ColdCert) : cert_method :=
  if is_ca e then VerifyCACertWithHints else VerifyClientCertWithHints.

(** The transaction and its receipt's status. *)
Definition submit_cert (from cert_manager : Address) (i : nat) (e : ColdCert)
    : prog RegSig (result (TxHash * bool) RegisterError) :=
  do sent <- ask (SendCert from cert_manager (method_of e) (cc_cert e) (parent_hash e) (cc_hints e));
  match sent with
  | Ok tx_hash =>
      do r <- ask (GetReceipt tx_hash);
      Ret match r with Ok status => Ok (tx_hash, status) | Err m => Err (CertReceipt i tx_hash m) end
  | Err m => Ret (Err (CertSubmit i m))
  end.

(** One round of the loop: whether a transaction was submitted with success. *)
Definition prewarm_entry (from cert_manager : Address) (now_secs : Z) (i : nat) (e : ColdCert)
    : prog RegSig (result bool RegisterError) :=
  do? cached <- (do r <- ask (Verified cert_manager (cache_key e)); Ret (map_err (CacheCheck i) r));
  if negb (bool_decide (cached = [])) then
    Ret match packed_cert_not_after cached with
        | Some not_after => if not_after <=? now_secs then Err (CachedExpired i (cache_key e) not_after now_secs) else Ok false
        | None => Ok false
        end
  else
    do outcome <- submit_cert from cert_manager i e;
    match outcome with
    | Ok (_, true) => Ret (Ok true)
    | Ok (tx_hash, false) =>
        do c <- now_cached cert_manager (cache_key e);
        Ret (if c then Ok false else Err (CertReverted i tx_hash))
    | Err err =>
        do c <- now_cached cert_manager (cache_key e);
        Ret (if c then Ok false else Err err)
    end.

Fixpoint prewarm_loop (from cert_manager : Address) (now_secs : Z) (i : nat) (plan : list ColdCert) (submitted : nat)
    : prog RegSig (result nat RegisterError) :=
  match plan with
  | [] => Ret (Ok submitted)
  | e :: plan =>
      do? s <- prewarm_entry from cert_manager now_secs i e;
      prewarm_loop from cert_manager now_secs (S i) plan (if s then S submitted else submitted)
  end.

Definition prewarm_cert_bundle (from cert_manager : Address) (plan : list ColdCert) (now_secs : Z)
    : prog RegSig (result nat RegisterError) :=
  prewarm_loop from cert_manager now_secs 0 plan 0.

(** *** The attempts *)

Section attempts.
Context (from registry enclave_signer : Address) (calldata : RegistrationCalldata).

Definition submit_key : prog RegSig (result (TxHash * bool) AttemptError) :=
  do? tx_hash <- (do r <- ask (RegisterKey from registry calldata);
                  Ret (map_err (fun e => match e with
                                         | SendReverted m => Permanent (EstimationReverted m)
                                         | SendTransport m => Transient (RegisterSend m)
                                         end) r));
  do r <- ask (GetReceipt tx_hash);
  Ret match r with
      | Ok status => Ok (tx_hash, status)
      | Err m => Err (Transient (RegisterReceipt tx_hash m))
      end.

(** [matches!(isSignerRegistered(..).await, Ok(true))] *)
Definition registered_now : prog RegSig bool :=
  do r <- ask (IsSignerRegistered registry enclave_signer);
  Ret match r with Ok true => true | _ => false end.

(** An attempt: the value to return, or the error to remember. *)
Definition attempt_once : prog RegSig (result RegistrationOutcome RegisterError + RegisterError) :=
  do registered <- registered_now;
  if registered then Ret (inl (Ok AlreadyRegistered))
  else
    do attempt_result <- submit_key;
    match attempt_result with
    | Ok (tx_hash, mined_ok) =>
        do r <- ask (IsSignerRegistered registry enclave_signer);
        Ret match r with
            | Ok true => inl (Ok (if mined_ok then Registered tx_hash else AlreadyRegistered))
            | Ok false => inl (Err (if mined_ok then ConfirmedNotRegistered tx_hash else RevertedNotRegistered tx_hash))
            | Err check_err => inr (RegisterCheck tx_hash check_err)
            end
    | Err (Permanent err) =>
        do registered <- registered_now;
        Ret (inl (if registered then Ok AlreadyRegistered else Err err))
    | Err (Transient err) =>
        do registered <- registered_now;
        Ret (if registered then inl (Ok AlreadyRegistered) else inr err)
    end.

(** The loop from attempt [attempt] on, with [todo] attempts left. *)
Fixpoint attempt_loop (todo attempt : nat) (last_err : option RegisterError)
    : prog RegSig (result RegistrationOutcome RegisterError) :=
  match todo with
  | O => Ret (Err (AttemptsExhausted (from_option id DidNotSucceed last_err)))
  | S todo =>
      do r <- attempt_once;
      match r with
      | inl out => Ret out
      | inr err =>
          if (attempt <? REGISTER_MAX_ATTEMPTS)%nat then
            do _u <- ask (SleepSecs (REGISTER_RETRY_BASE_DELAY * Z.of_nat attempt));
            attempt_loop todo (S attempt) (Some err)
          else attempt_loop todo (S attempt) (Some err)
      end
  end.

Definition attempts : prog RegSig (result RegistrationOutcome RegisterError) :=
  attempt_loop REGISTER_MAX_ATTEMPTS 1 None.
End attempts.

(** ** What the calls establish *)

Section established.
Context {T : Sig} `{!Sub RegSig T}.

(** The certificate is in the cache: it was read there, or a transaction that verifies
    it has succeeded. *)
Definition confirmed (from cert_manager : Address) (e : ColdCert) (tr : list (event T)) : Prop :=
  (exists v, v <> [] /\ saw (Verified cert_manager (cache_key e) : call RegSig) (Ok v) tr) \/
  (exists tx, saw (SendCert from cert_manager (method_of e) (cc_cert e) (parent_hash e) (cc_hints e) : call RegSig) (Ok tx) tr /\
     saw (GetReceipt tx : call RegSig) (Ok true) tr).

(** A certificate is submitted once its parent is known to be cached, with a plan
    whose entry it is. *)
Definition cert_in_order (from cert_manager : Address) (plan : list ColdCert) (tr : list (event T)) (c : call RegSig) : Prop :=
  match c with
  | SendCert from' cert_manager' method cert parent hints =>
      from' = from /\ cert_manager' = cert_manager /\
      (exists e, e ∈ plan /\ method = method_of e /\ cert = cc_cert e /\ parent = parent_hash e /\ hints = cc_hints e) /\
      (parent = ROOT_CA_CERT_HASH \/ exists e', e' ∈ plan /\ cache_key e' = parent /\ confirmed from cert_manager e' tr)
  | RegisterKey _ _ _ | IsSignerRegistered _ _ => False
  | _ => True
  end.

Lemma confirmed_mono from cert_manager e t1 t2 : t1 ⊆ t2 -> confirmed from cert_manager e t1 -> confirmed from cert_manager e t2.
Proof.
  intros Hs [(v&?&Hv)|(tx&H1&H2)]; [left; exists v|right; exists tx];
    split; try done; by eapply saw_mono.
Qed.

Lemma cert_in_order_mono from cert_manager plan c t1 t2 :
  t1 ⊆ t2 -> cert_in_order from cert_manager plan t1 c -> cert_in_order from cert_manager plan t2 c.
Proof.
  intros Hs. destruct c; try done. intros (?&?&?&[?|(e'&?&?&?)]); do 3 (split; [done|]); [by left|right]. exists e'.
  do 2 (split; [done|]). by eapply confirmed_mono.
Qed.
End established.

Lemma prewarm_entry_safe from cert_manager plan now_secs i e t0 :
  e ∈ plan -> (parent_hash e = ROOT_CA_CERT_HASH \/
    exists e', e' ∈ plan /\ cache_key e' = parent_hash e /\ confirmed from cert_manager e' t0) ->
  safe (fun h ev => cert_in_order from cert_manager plan (t0 ++ h) (projT1 ev)) (prewarm_entry from cert_manager now_secs i e)
    (fun t r => match r with Ok _ => confirmed from cert_manager e t | Err _ => True end).
Proof.
  intros He Hp. unfold prewarm_entry, submit_cert, now_cached, ask. sym_call [cached|m]; [done| |by apply safe_ret].
  destruct (bool_decide_reflect (cached = [])) as [->|Hne]; cbn [negb].
  - sym_call [tx|m].
    { cbn [projT1 cert_in_order]. do 2 (split; [done|]). split; [by exists e|].
      destruct Hp as [?|(e'&?&?&?)]; [by left|right; exists e']. do 2 (split; [done|]).
      eapply confirmed_mono; [apply subseteq_app_l|done]. }
    + sym_call [[]|m]; [done|apply safe_ret; right; exists tx; split; seen| |].
      all: sym_call [v|m']; [done| |by apply safe_ret]; apply safe_ret;
        destruct (bool_decide_reflect (v = [])); [done|]; left; exists v; split; [done|exists (Ok v); split; [find_event|done]].
    + sym_call [v|m']; [done| |by apply safe_ret]; apply safe_ret;
        destruct (bool_decide_reflect (v = [])); [done|]; left; exists v; split; [done|exists (Ok v); split; [find_event|done]].
  - apply safe_ret. assert (confirmed from cert_manager e [ev (Verified cert_manager (cache_key e) : call RegSig) (Ok cached)])
      by (left; exists cached; split; [done|seen]).
    destruct (packed_cert_not_after cached) as [na|]; [|done]. by destruct (na <=? now_secs).
Qed.

(** [done] are the entries that the loop has passed. *)
Lemma prewarm_loop_safe from cert_manager now_secs plan : forall rest passed i n t0,
  plan = passed ++ rest -> parents_earlier plan -> (forall e, e ∈ passed -> confirmed from cert_manager e t0) ->
  (n <= length passed)%nat ->
  safe (fun h ev => cert_in_order from cert_manager plan (t0 ++ h) (projT1 ev)) (prewarm_loop from cert_manager now_secs i rest n)
    (fun t r => match r with
                | Ok n => (forall e, e ∈ plan -> confirmed from cert_manager e (t0 ++ t)) /\ (n <= length plan)%nat
                | Err _ => True
                end).
Proof.
  induction rest as [|e rest IH]; intros passed i n t0 Hplan Hpar Hpassed Hn; cbn [prewarm_loop].
  { apply safe_ret. rewrite app_nil_r in *. by subst plan. }
  assert (plan !! length passed = Some e) as Hat by (subst plan; by apply list_lookup_middle).
  eapply safe_bind_try; [apply (prewarm_entry_safe from cert_manager plan now_secs i e t0)| |].
  - by eapply list_elem_of_lookup_2.
  - destruct (Hpar _ _ Hat) as [?|(j&e'&Hj&He'&?)]; [by left|right]. exists e'. split; [by eapply list_elem_of_lookup_2|].
    split; [done|]. apply Hpassed. subst plan. rewrite lookup_app_l in He' by done. by eapply list_elem_of_lookup_2.
  - done.
  - intros s t1 Hc. eapply safe_conseq; [apply (IH (passed ++ [e]) (S i) _ (t0 ++ t1))| |]; [|done| | |shift_trace|].
    + by rewrite <-app_assoc.
    + intros x [Hx|Hx]%elem_of_app; [eapply confirmed_mono; [apply subseteq_app_l|]; by apply Hpassed|].
      apply list_elem_of_singleton in Hx as ->. eapply confirmed_mono; [apply subseteq_app_r|done].
    + rewrite length_app. simpl. destruct s; lia.
    + intros t [n'|]; [|done]. by rewrite <-app_assoc.
Qed.

(** *** The attempts *)

(** The answers after which the fate of the key is known: it is registered, or its
    registration reverts. *)
Definition fate_known (e : event RegSig) : bool :=
  match e with
  | existT c r =>
      match c return reply RegSig c -> bool with
      | IsSignerRegistered _ _ => fun r => match r with Ok true => true | _ => false end
      | RegisterKey _ _ _ => fun r => match r with Err (SendReverted _) => true | _ => false end
      | _ => fun _ => false
      end r
  end.
Definition open_fate (tr : list (event RegSig)) : Prop := Forall (fun e => fate_known e = false) tr.

Definition sends_key (c : call RegSig) : bool := match c with RegisterKey _ _ _ => true | _ => false end.

Section attempts_safe.
Context (from registry signer : Address) (calldata : RegistrationCalldata).

(** The key is sent as configured, and only while its fate is not known. *)
Definition key_in_order (tr : list (event RegSig)) (c : call RegSig) : Prop :=
  match c with
  | RegisterKey from' registry' calldata' =>
      from' = from /\ registry' = registry /\ calldata' = calldata /\ open_fate tr
  | IsSignerRegistered registry' signer' => registry' = registry /\ signer' = signer
  | SendCert _ _ _ _ _ _ => False
  | _ => True
  end.

Definition outcome_seen {T} `{!Sub RegSig T} (out : RegistrationOutcome) (tr : list (event T)) : Prop :=
  saw (IsSignerRegistered registry signer : call RegSig) (Ok true) tr /\
  match out with
  | AlreadyRegistered => True
  | Registered tx => saw (RegisterKey from registry calldata : call RegSig) (Ok tx) tr /\ saw (GetReceipt tx : call RegSig) (Ok true) tr
  end.

Ltac saw_ok x := exists (Ok x); split; [find_event|done].
Ltac attempt_done :=
  apply safe_ret; split; [simpl; lia|];
  first [done|by repeat constructor|split; [saw_ok true|first [done|split; [eexists (Ok _); split; [find_event|done]|saw_ok true]]]].

Lemma attempt_once_safe t0 : open_fate t0 ->
  safe (fun h e => key_in_order (t0 ++ h) (projT1 e)) (attempt_once from registry signer calldata)
    (fun t r => (count_calls sends_key t <= 1)%nat /\
       match r with
       | inl (Ok out) => outcome_seen out t
       | inl (Err _) => True
       | inr _ => open_fate t
       end).
Proof.
  intros H0. assert (forall h, open_fate h -> open_fate (t0 ++ h)) as Happ by (intros; by apply Forall_app_2).
  unfold attempt_once, registered_now, submit_key, ask.
  sym_call [[]|m]; [done|attempt_done| |].
  all: sym_call [tx|[m'|m']]; [split_and!; try done; apply Happ; by repeat constructor| | |].
  1,4: sym_call [[]|m'']; [done|..].
  all: sym_call [[]|m3]; [done|attempt_done| |].
  all: attempt_done.
Qed.

Lemma outcome_seen_mono {T} `{!Sub RegSig T} out (t1 t2 : list (event T)) :
  t1 ⊆ t2 -> outcome_seen out t1 -> outcome_seen out t2.
Proof.
  intros Hs [? Ho]. split; [by eapply saw_mono|]. destruct out; [done|]. destruct Ho. split; by eapply saw_mono.
Qed.

Lemma attempt_loop_safe todo : forall attempt last_err t0, open_fate t0 ->
  safe (fun h e => key_in_order (t0 ++ h) (projT1 e)) (attempt_loop from registry signer calldata todo attempt last_err)
    (fun t r => (count_calls sends_key t <= todo)%nat /\ match r with Ok out => outcome_seen out t | Err _ => True end).
Proof.
  induction todo as [|todo IH]; intros attempt last_err t0 H0; cbn [attempt_loop]; [apply safe_ret; by split|].
  eapply safe_bind; [by apply attempt_once_safe|]. intros [[out|e]|e] t1 [Hn Ht].
  1,2: apply safe_ret; rewrite app_nil_r; split; [lia|done].
  assert (forall t2 l, open_fate t2 -> count_calls sends_key t2 = 0%nat ->
    safe (fun h e => key_in_order (t0 ++ t1 ++ t2 ++ h) (projT1 e)) (attempt_loop from registry signer calldata todo (S attempt) l)
      (fun t r => (count_calls sends_key (t1 ++ t2 ++ t) <= S todo)%nat /\
         match r with Ok out => outcome_seen out (t1 ++ t2 ++ t) | Err _ => True end)) as Hrest.
  { intros t2 l Ht2 Hc. eapply safe_conseq; [apply (IH (S attempt) l (t0 ++ t1 ++ t2)); by repeat apply Forall_app_2| |].
    - intros ? ?. cbv beta. by rewrite <-!app_assoc.
    - intros t r [Hct Hr]. rewrite !count_calls_app. split; [lia|]. destruct r; [|done].
      eapply outcome_seen_mono; [|done]. intros x Hx. rewrite !elem_of_app. auto. }
  destruct (attempt <? REGISTER_MAX_ATTEMPTS)%nat; [|apply (Hrest []); [constructor|done]].
  sym_call []; [done|]. apply (Hrest [ev (SleepSecs _ : call RegSig) tt]); [by repeat constructor|done].
Qed.
End attempts_safe.

(** ** The whole registration ([register_enclave_key]) *)

Section register.
Context (keccak256 : bytes -> B256) (sha384 : bytes -> bytes) (cv : Curve) (lib : Crypto)
  `{!Cbor EnclaveRequest, !Cbor EnclaveResponse}.

(** The connection to the enclave, then the chain. *)
Definition RegisterSig : Sig := (HostSig ⊕ IoSig) ⊕ RegSig.

Definition registration_signer (kind : SignerType) (secret : string) (url : Url w)
    : prog RegSig (result TransactionSigner RegisterError) :=
  match kind with
  | SignerLocal =>
      do? private_key <- Ret (map_err InvalidPrivateKey (parse_private_key w secret));
      do r <- build_transaction_signer (Some private_key) None url; Ret (map_err SignerInit r)
  | SignerAwsKmsKey => do r <- build_transaction_signer None (Some secret) url; Ret (map_err SignerInit r)
  end.

(** Step 0 *)
Definition registration_inputs (params : RegisterParams) : result (string * string * string) RegisterError :=
  let? l1_rpc_url := non_empty (rp_l1_rpc_url params) "L1 RPC URL" in
  let? registry := non_empty (rp_registry params) "NitroEnclaveKeyRegistry address" in
  let signer_field := match rp_signer_type params with
                      | SignerLocal => "registration private key"
                      | SignerAwsKmsKey => "registration AWS KMS key ID"
                      end in
  let? signer_secret := non_empty (rp_signer_secret params) signer_field in
  Ok (l1_rpc_url, registry, signer_secret).

(** Steps 3 to 6 *)
Definition register_on_chain (from registry enclave_signer : Address) (attestation_doc : bytes)
    : prog RegisterSig (result RegistrationOutcome RegisterError) :=
  do? verifier <- (do r <- trigger (ReadVerifier registry : call RegSig); Ret (map_err VerifierRead r));
  do? cert_manager <- (do r <- trigger (ReadCertManager verifier : call RegSig); Ret (map_err CertManagerRead r));
  do? plan <- Ret (map_err PlanFailed (build_prewarm_plan cv lib keccak256 sha384 attestation_doc));
  do now_secs <- trigger (SystemNow : call HostSig);
  do? _submitted <- lift (prewarm_cert_bundle from cert_manager plan now_secs);
  do? calldata <- Ret (build_registration_calldata cv lib sha384 attestation_doc);
  lift (attempts from registry enclave_signer calldata).

Definition register_enclave_key (params : RegisterParams)
    : prog RegisterSig (result RegistrationOutcome RegisterError) :=
  do? inputs <- Ret (registration_inputs params);
  let '(l1_rpc_url, registry, signer_secret) := inputs in
  do? fetched <- (do r <- lift (get_public_key_async (H := HostSig ⊕ IoSig) lib (rp_expected_pcrs params));
                  Ret (map_err FetchPublicKey r));
  let '(attestation_doc, public_key, _) := fetched in
  do? enclave_signer <- Ret (enclave_signer_address keccak256 public_key);
  do? url <- Ret (map_err InvalidUrl (parse_url w l1_rpc_url));
  do? registry_address <- Ret (map_err InvalidRegistry (parse_address w registry));
  do? signer <- lift (registration_signer (rp_signer_type params) signer_secret url);
  register_on_chain (signer_address signer) registry_address enclave_signer attestation_doc.

(** *** What a run does *)

Definition fetched (params : RegisterParams) (tr : list (event RegisterSig)) (doc key : bytes) : Prop :=
  exists pcrs, certified lib (rp_expected_pcrs params) tr doc key pcrs.

(** Nothing seen so far settles the fate of the key. *)
Definition still_open (tr : list (event RegisterSig)) : Prop :=
  Forall (fun e => match e with
                   | existT c r =>
                       match c return reply RegisterSig c -> Prop with
                       | inl _ => fun _ => True
                       | inr c => fun r => fate_known (existT c r) = false
                       end r
                   end) tr.

(** Certificates and the key are sent after what they depend on. *)
Definition registration_order (params : RegisterParams) (tr : list (event RegisterSig)) (e : event RegisterSig) : Prop :=
  match projT1 e with
  | inr (SendCert from cert_manager _ _ _ _ as c) =>
      exists doc key plan, fetched params tr doc key /\ build_prewarm_plan cv lib keccak256 sha384 doc = Ok plan /\
        cert_in_order from cert_manager plan tr c
  | inr (RegisterKey from registry calldata) =>
      exists doc key signer cert_manager plan,
        fetched params tr doc key /\ enclave_signer_address keccak256 key = Ok signer /\
        parse_address w (trim (rp_registry params)) = Ok registry /\
        build_prewarm_plan cv lib keccak256 sha384 doc = Ok plan /\
        (forall e, e ∈ plan -> confirmed from cert_manager e tr) /\
        build_registration_calldata cv lib sha384 doc = Ok calldata /\ still_open tr
  | _ => True
  end.

Definition sends_key_now (c : call RegisterSig) : bool := match c with inl _ => false | inr c => sends_key c end.

Lemma embeds_open t0 (t : list (event RegisterSig)) : Forall2 (embeds (S := RegSig)) t0 t -> open_fate t0 -> still_open t.
Proof.
  induction 1 as [|[c r0] e t0 t (r&->&Hr) _ IH]; intros Ho; [constructor|]. inversion_clear Ho.
  constructor; [|by apply IH]. simpl in *. by subst r.
Qed.

Lemma embeds_host_open t0 (t : list (event RegisterSig)) : Forall2 (embeds (S := HostSig ⊕ IoSig)) t0 t -> still_open t.
Proof. induction 1 as [|[c r0] e t0 t (r&->&Hr) _ IH]; constructor; done. Qed.

Lemma embeds_count t0 (t : list (event RegisterSig)) :
  Forall2 (embeds (S := RegSig)) t0 t -> count_calls sends_key_now t = count_calls sends_key t0.
Proof. induction 1 as [|[c r0] e t0 t (r&->&Hr) _ IH]; simpl; [done|]. by rewrite IH. Qed.

Lemma embeds_confirmed from cert_manager e t0 (t : list (event RegisterSig)) :
  Forall2 (embeds (S := RegSig)) t0 t -> confirmed (T := RegSig) from cert_manager e t0 -> confirmed from cert_manager e t.
Proof.
  intros He [(v&?&Hv)|(tx&H1&H2)]; [left; exists v|right; exists tx]; split; try done; by eapply saw_lifted.
Qed.

Lemma cert_order_open from cert_manager plan tr :
  guarded (fun h e => cert_in_order (T := RegSig) from cert_manager plan h (projT1 e)) tr -> open_fate tr.
Proof.
  intros Hg. apply Forall_forall. intros e (t1&t2&->)%list_elem_of_split. specialize (Hg t1 e t2 eq_refl).
  destruct e as [[] r]; done.
Qed.

Lemma embeds_cert_order from cert_manager plan c t0 (t : list (event RegisterSig)) :
  Forall2 (embeds (S := RegSig)) t0 t -> cert_in_order (T := RegSig) from cert_manager plan t0 c ->
  cert_in_order from cert_manager plan t c.
Proof.
  intros He. destruct c; try done. intros (?&?&?&[?|(e'&?&?&?)]); do 3 (split; [done|]); [by left|right]. exists e'.
  do 2 (split; [done|]). by eapply embeds_confirmed.
Qed.

Lemma fetched_mono params t1 t2 doc key : t1 ⊆ t2 -> fetched params t1 doc key -> fetched params t2 doc key.
Proof. intros Hs [p Hp]. exists p. by eapply certified_mono. Qed.

Section on_chain.
Context (params : RegisterParams) (from registry signer : Address) (doc key : bytes) (t0 : list (event RegisterSig)).
Context (Hfetched : fetched params t0 doc key) (Hsigner : enclave_signer_address keccak256 key = Ok signer).

Lemma prewarm_lifted cert_manager plan now_secs :
  build_prewarm_plan cv lib keccak256 sha384 doc = Ok plan ->
  safe (fun h e => registration_order params (t0 ++ h) e) (lift (prewarm_cert_bundle from cert_manager plan now_secs))
    (fun t r => still_open t /\ count_calls sends_key_now t = 0%nat /\
       match r with Ok _ => forall e, e ∈ plan -> confirmed from cert_manager e t | Err _ => True end).
Proof.
  intros Hplan. assert (parents_earlier plan) as Hpar.
  { by eapply chain_plan_order, build_prewarm_plan_spec. }
  intros tr r (tr0&He&Hr)%runs_lift.
  pose proof (prewarm_loop_safe from cert_manager now_secs plan plan [] 0 0 [] eq_refl Hpar
    (fun e He => False_ind _ (not_elem_of_nil e He)) ltac:(simpl; lia) tr0 r Hr) as [Hg Hok]. cbn [app] in *.
  assert (guarded (fun h e => registration_order params (t0 ++ h) e) tr) as Hord.
  { intros t1 e t2 ->. apply Forall2_app_inv_r in He as (u1&u2&He1&He2&->).
    inversion He2 as [|e0 ? u2' ? (r'&->&_) _]; subst. specialize (Hg u1 e0 u2' eq_refl).
    destruct e0 as [c r0]. cbn [projT1] in *. destruct c; try done. exists doc, key, plan.
    split; [eapply fetched_mono; [apply subseteq_app_l|done]|]. split; [done|].
    pose proof Hg as (->&->&_). eapply cert_in_order_mono; [apply subseteq_app_r|]. eapply embeds_cert_order; [exact He1|exact Hg]. }
  split; [done|]. split; [eapply embeds_open; [done|exact (cert_order_open _ _ _ _ Hg)]|]. split.
  - rewrite (embeds_count tr0) by done. eapply guarded_count; [exact Hg|]. intros h [[] ?]; done.
  - destruct r as [n|]; [|done]. intros e Hin. destruct Hok as [Hc _]. by eapply embeds_confirmed, Hc.
Qed.

Lemma attempts_lifted cert_manager plan calldata :
  parse_address w (trim (rp_registry params)) = Ok registry -> build_prewarm_plan cv lib keccak256 sha384 doc = Ok plan ->
  build_registration_calldata cv lib sha384 doc = Ok calldata ->
  still_open t0 -> (forall e, e ∈ plan -> confirmed from cert_manager e t0) ->
  safe (fun h e => registration_order params (t0 ++ h) e) (lift (attempts from registry signer calldata))
    (fun t r => (count_calls sends_key_now t <= REGISTER_MAX_ATTEMPTS)%nat /\
       match r with Ok out => outcome_seen from registry signer calldata out t | Err _ => True end).
Proof.
  intros Hreg Hplan Hcd Hopen Hconf. eapply safe_conseq; [eapply (safe_lift_guarded (S := RegSig))| |].
  - apply (attempt_loop_safe from registry signer calldata REGISTER_MAX_ATTEMPTS 1 None []). constructor.
  - instantiate (1 := fun h e => registration_order params (t0 ++ h) e). intros h0 h [c r0] e He (r&->&_) Hk.
    cbn [projT1 app] in *. destruct c; try done. destruct Hk as (->&->&->&Ho).
    exists doc, key, signer, cert_manager, plan. split; [eapply fetched_mono; [apply subseteq_app_l|done]|].
    do 3 (split; [done|]). split; [intros; eapply confirmed_mono; [apply subseteq_app_l|by apply Hconf]|].
    split; [done|]. apply Forall_app_2; [done|by eapply embeds_open].
  - done.
  - intros t r (u&He&Hn&Hr). rewrite (embeds_count u) by done. split; [done|]. destruct r as [out|]; [|done].
    destruct Hr as [Hs Ho]. split; [by eapply saw_lifted|]. destruct out; [done|]. destruct Ho. split; by eapply saw_lifted.
Qed.
End on_chain.

(** The registration has succeeded, with this document and these addresses. *)
Definition registered_with (doc : bytes) (from registry signer : Address) (out : RegistrationOutcome)
    (tr : list (event RegisterSig)) : Prop :=
  exists cert_manager plan calldata,
    build_prewarm_plan cv lib keccak256 sha384 doc = Ok plan /\ build_registration_calldata cv lib sha384 doc = Ok calldata /\
    (forall e, e ∈ plan -> confirmed from cert_manager e tr) /\ outcome_seen from registry signer calldata out tr.

Ltac no_send := apply safe_ret; split; [simpl; unfold REGISTER_MAX_ATTEMPTS; lia|done].

Lemma on_chain_safe params from registry signer doc key t0 :
  fetched params t0 doc key -> enclave_signer_address keccak256 key = Ok signer ->
  parse_address w (trim (rp_registry params)) = Ok registry -> still_open t0 ->
  safe (fun h e => registration_order params (t0 ++ h) e) (register_on_chain from registry signer doc)
    (fun t r => (count_calls sends_key_now t <= REGISTER_MAX_ATTEMPTS)%nat /\
       match r with Ok out => registered_with doc from registry signer out t | Err _ => True end).
Proof.
  intros Hf Hs Hr Ho.
  unfold register_on_chain, trigger. sym_call [verifier|m]; [done| |no_send].
  sym_call [cert_manager|m]; [done| |no_send].
  destruct (build_prewarm_plan cv lib keccak256 sha384 doc) as [plan|e] eqn:Hplan; [|no_send].
  sym_simpl. apply safe_call. intros now_secs. split; [done|]. sym_simpl. 
  pose (t1 := [ev (inr (ReadVerifier registry) : call RegisterSig) (Ok verifier);
    ev (inr (ReadCertManager verifier) : call RegisterSig) (Ok cert_manager);
    ev (inl (inl SystemNow) : call RegisterSig) now_secs]).
  assert (still_open t1) by (subst t1; repeat constructor).
  eapply safe_bind_try.
  - eapply safe_conseq; [apply (prewarm_lifted params from doc key (t0 ++ t1)); [|exact Hplan]| |intros ? ? Hq; exact Hq];
      [eapply fetched_mono; [apply subseteq_app_l|done]|shift_trace].
  - intros e t (_&Hc&_). cbn [count_calls projT1 ev sends_key_now sends_key] in *. split; [lia|done].
  - intros n t2 (Ho2&Hc2&Hconf). destruct (build_registration_calldata cv lib sha384 doc) as [calldata|e] eqn:Hcd.
    2: { apply safe_ret. rewrite app_nil_r. cbn [count_calls projT1 ev sends_key_now sends_key]. split; [lia|done]. }
    eapply safe_conseq; [eapply (attempts_lifted params from registry signer doc key (t0 ++ t1 ++ t2)
      (fetched_mono _ _ _ _ _ (subseteq_app_l _ _) Hf) Hs cert_manager plan calldata Hr Hplan Hcd)| |].
    + by repeat apply Forall_app_2.
    + intros e He. eapply confirmed_mono; [|by apply Hconf]. intros x Hx. rewrite !elem_of_app. auto.
    + shift_trace.
    + intros t r [Hn Hout]. cbn [count_calls projT1 ev sends_key_now sends_key]. rewrite count_calls_app. split; [lia|].
      destruct r as [out|]; [|done]. exists cert_manager, plan, calldata. do 2 (split; [done|]). split.
      * intros e He. eapply confirmed_mono; [|by apply Hconf]. intros x Hx. repeat right. apply elem_of_app. auto.
      * eapply outcome_seen_mono; [|done]. intros x Hx. repeat right. apply elem_of_app. auto.
Qed.

Lemma signer_safe kind secret url :
  safe (fun _ (e : event RegSig) => match (projT1 e : reg_call) with GetChainId _ | NewAwsSigner _ _ => True | _ => False end)
    (registration_signer kind secret url) (fun t _ => open_fate t /\ count_calls sends_key t = 0%nat).
Proof.
  unfold registration_signer, build_transaction_signer, select_signer_source, ask. destruct kind.
  - destruct (parse_private_key w secret); apply safe_ret; by repeat constructor.
  - destruct (negb _); [|apply safe_ret; by repeat constructor].
    sym_call [chain_id|m]; [done| |apply safe_ret; by repeat constructor].
    sym_call [s|m]; [done|apply safe_ret; by repeat constructor..].
Qed.

Lemma signer_lifted params t0 kind secret url :
  safe (fun h e => registration_order params (t0 ++ h) e) (lift (registration_signer kind secret url))
    (fun t _ => still_open t /\ count_calls sends_key_now t = 0%nat).
Proof.
  eapply safe_conseq; [eapply (safe_lift_guarded (S := RegSig)); [apply signer_safe|]| |].
  - instantiate (1 := fun h e => registration_order params (t0 ++ h) e). intros h0 h [c r0] e _ (r&->&_). by destruct c.
  - done.
  - intros t r (u&He&Ho&Hc). split; [by eapply embeds_open|]. by rewrite (embeds_count u).
Qed.

(** What a successful run has shown. *)
Definition registration_shown (params : RegisterParams) (out : RegistrationOutcome) (tr : list (event RegisterSig)) : Prop :=
  exists doc key from registry signer,
    fetched params tr doc key /\ enclave_signer_address keccak256 key = Ok signer /\
    parse_address w (trim (rp_registry params)) = Ok registry /\ registered_with doc from registry signer out tr.

Lemma registered_with_mono doc from registry signer out t1 t2 :
  t1 ⊆ t2 -> registered_with doc from registry signer out t1 -> registered_with doc from registry signer out t2.
Proof.
  intros Hs (cm&plan&cd&?&?&Hc&Ho). exists cm, plan, cd. do 2 (split; [done|]).
  split; [intros e He; by eapply confirmed_mono, Hc|by eapply outcome_seen_mono].
Qed.

Lemma inputs_registry params u reg s : registration_inputs params = Ok (u, reg, s) -> reg = trim (rp_registry params).
Proof.
  unfold registration_inputs, non_empty. destruct (bool_decide (trim (rp_l1_rpc_url params) = "")); [done|].
  cbn [rbind]. destruct (bool_decide (trim (rp_registry params) = "")); [done|]. cbn [rbind].
  destruct (bool_decide _); [done|]. by intros [= <- <- <-].
Qed.

Lemma fetch_lifted params :
  safe (registration_order params)
    (do r <- lift (get_public_key_async (H := HostSig ⊕ IoSig) lib (rp_expected_pcrs params)); Ret (map_err FetchPublicKey r))
    (fun t r => still_open t /\ count_calls sends_key_now t = 0%nat /\
       match r with Ok (doc, key, _) => fetched params t doc key | Err _ => True end).
Proof.
  eapply safe_bind; [by apply safe_lift|]. intros r t1 (tr0&He&Hr). apply safe_ret. rewrite app_nil_r.
  split; [by eapply embeds_host_open|]. split.
  - clear -He. induction He as [|[c r0] e t0 t (r&->&Hr) _ IH]; [done|]. exact IH.
  - destruct r as [[[doc key] pcrs]|e]; [|done]. apply public_key_certified in Hr as (n&now&d&Hn&Hnow&?).
    exists pcrs, n, now, d. split; [by eapply saw_inl|]. split; [by eapply saw_inl|done].
Qed.

Lemma register_safe params :
  safe (registration_order params) (register_enclave_key params)
    (fun t r => (count_calls sends_key_now t <= REGISTER_MAX_ATTEMPTS)%nat /\
       match r with Ok out => registration_shown params out t | Err _ => True end).
Proof.
  unfold register_enclave_key. destruct (registration_inputs params) as [[[u reg] s]|e] eqn:Hin; [|no_send].
  apply inputs_registry in Hin as ->. cbn [bind_try bind]. eapply safe_bind_try; [apply fetch_lifted|intros e t (_&Hc&_); split; [lia|done]|].
  intros [[doc key] pcrs] t1 (Ho1&Hc1&Hf).
  assert ((count_calls sends_key_now (t1 ++ []) <= REGISTER_MAX_ATTEMPTS)%nat /\ True) as Hstop
    by (rewrite app_nil_r; split; [lia|done]). sym_simpl.
  destruct (enclave_signer_address keccak256 key) as [signer|e] eqn:Hsig; [|apply safe_ret; by apply Hstop]. sym_simpl.
  destruct (parse_url w u) as [url|e]; [|apply safe_ret; by apply Hstop]. sym_simpl.
  destruct (parse_address w (trim (rp_registry params))) as [registry|e] eqn:Hreg; [|apply safe_ret; by apply Hstop]. sym_simpl.
  eapply safe_bind_try; [apply signer_lifted| |].
  { intros e t [_ Hc]. rewrite count_calls_app. split; [lia|done]. }
  intros tx_signer t2 [Ho2 Hc2]. eapply safe_conseq.
  - apply (on_chain_safe params (signer_address tx_signer) registry signer doc key (t1 ++ t2)); [|done..|by apply Forall_app_2].
    eapply fetched_mono; [apply subseteq_app_l|done].
  - shift_trace.
  - intros t r [Hn Hout]. rewrite !count_calls_app. split; [lia|]. destruct r as [out|]; [|done].
    exists doc, key, (signer_address tx_signer), registry, signer. split; [eapply fetched_mono; [apply subseteq_app_l|done]|].
    do 2 (split; [done|]). eapply registered_with_mono; [|done]. intros x Hx. rewrite !elem_of_app. auto.
Qed.

(** In every run, whatever the chain and the enclave answer, a certificate is submitted
    only with the hints of the plan for the fetched document and once its parent is
    known to be cached; the key is submitted only with the calldata of that document,
    to the configured registry, when the document certifies it, when all of the
    document's certificates are known to be cached, and as long as no answer has shown
    that it is registered or that the registration reverts.  It is submitted at most
    five times. *)
Theorem registration_in_order params tr r :
  runs (register_enclave_key params) tr r ->
  guarded (registration_order params) tr /\ (count_calls sends_key_now tr <= 5)%nat.
Proof. intros [Hg [Hn _]]%register_safe. by split. Qed.

(** A registration that reports success has seen the registry confirm the address of
    the key that the enclave's genuine document certifies, with all certificates of the
    document cached; a reported transaction is one that carried the document and
    succeeded. *)
Theorem registration_succeeds params tr out :
  runs (register_enclave_key params) tr (Ok out) -> registration_shown params out tr.
Proof. by intros [_ [_ ?]]%register_safe. Qed.
End register.
End signer.

Arguments GetChainId {w}. Arguments NewAwsSigner {w}. Arguments ReadVerifier {w}. Arguments ReadCertManager {w}.
Arguments Verified {w}. Arguments SendCert {w}. Arguments GetReceipt {w}. Arguments IsSignerRegistered {w}.
Arguments RegisterKey {w}. Arguments SleepSecs {w}.

(** ** A registration that runs *)

Definition reg_pk : bytes := 4 :: replicate 64 1.
Definition reg_keccak (b : bytes) : B256 := if bool_decide (b = [8]) then ROOT_CA_CERT_HASH else sum_hash b.
Definition reg_ec : Secp :=
  {| SigningKey := unit; key_from_bytes _ := Ok tt; encoded_public_key _ := reg_pk; EcSignature := unit;
     sign_prehash_recoverable _ _ := Ok (tt, 1); normalize_s _ := Some tt; ec_to_bytes _ := replicate 64 0;
     ec_from_slice _ := Ok tt; recover_from_prehash _ _ _ := Ok reg_pk |}.
Definition reg_payload : AttestationDoc :=
  {| pcrs := pcrs toy_payload; certificate := [7]; cabundle := [[8]; [9]]; public_key := Some reg_pk; user_data := None;
     nonce := Some toy_nonce |}.
Definition reg_cert (b : bytes) : X509Certificate :=
  {| tbs_certificate := b; signature_value := []; subject_public_key := []; key_usage := key_usage toy_cert;
     basic_constraints := Ok None; is_valid_at _ := true |}.
Definition reg_lib : Crypto :=
  {| from_tagged_slice _ := Err "untagged";
     cose_from_slice b := Ok {| protected := []; payload := Some b; cose_signature := small_signature |};
     tbs_data _ := []; decode_payload _ := Ok reg_payload; from_der b := Ok (reg_cert b); asn1_timestamp n := Ok n;
     VerifyingKey := unit; from_sec1_bytes _ := Ok tt; to_encoded_point _ := 4 :: small_key; P384Signature := unit;
     p384_from_slice _ := Ok tt; p384_from_der _ := Ok tt; p384_to_bytes _ := small_signature; p384_verify _ _ _ := Ok tt;
     TrustAnchor := unit; anchor_from_trusted_cert _ := Ok tt; EndEntityCert := unit; end_entity _ := Ok tt;
     verify_for_usage _ _ _ _ := Ok tt; aws_root_ca_der := Ok [8] |}.
Definition reg_wallets : Wallets :=
  {| PrivateKeySigner := unit; parse_private_key _ := Ok tt; local_address _ := 77; AwsSigner := unit; aws_address _ := 78;
     Url := string; parse_url u := Ok u; parse_address _ := Ok 99 |}.

#[local] Instance reg_requests : Cbor EnclaveRequest := table_cbor [PublicKeyRequest toy_nonce].
#[local] Instance reg_responses : Cbor EnclaveResponse := table_cbor [AttestationResponse [1] reg_pk].

(** The cached certificates, the submissions so far and whether the key is registered;
    the first submission is lost. *)
Record Chain := { cached_certs : list B256; tries : nat; key_registered : bool }.

Definition reg_chain : handler (RegSig reg_wallets) Chain := fun c s =>
  match c return reply (RegSig reg_wallets) c * Chain with
  | GetChainId _ => (Ok 1, s)
  | NewAwsSigner _ _ => (Ok tt, s)
  | ReadVerifier _ => (Ok 50, s)
  | ReadCertManager _ => (Ok 51, s)
  | Verified _ key => (Ok (if bool_decide (key ∈ cached_certs s) then [1] else []), s)
  | SendCert _ _ _ cert _ _ =>
      (Ok 5, {| cached_certs := sum_hash cert :: cached_certs s; tries := tries s; key_registered := key_registered s |})
  | GetReceipt _ => (Ok true, s)
  | IsSignerRegistered _ _ => (Ok (key_registered s), s)
  | RegisterKey _ _ _ =>
      if (tries s =? 0)%nat then
        (Err (SendTransport "nonce"), {| cached_certs := cached_certs s; tries := 1; key_registered := false |})
      else (Ok 6, {| cached_certs := cached_certs s; tries := tries s; key_registered := true |})
  | SleepSecs _ => (tt, s)
  end.

Definition reg_params : RegisterParams :=
  {| rp_expected_pcrs := toy_pcrs; rp_l1_rpc_url := " http://l1 "; rp_registry := "0x63"; rp_signer_secret := "0x01";
     rp_signer_type := SignerLocal |}.
Definition reg_world : handler (RegisterSig reg_wallets) (Vsock (W := unit) * Chain) :=
  beside (vsock reg_keccak reg_ec {| nsm_fd := 3; signing_key := tt : SigningKey reg_ec |} toy_device toy_nonce 1000) reg_chain.
Definition reg_start : Vsock (W := unit) * Chain :=
  (toy_start, {| cached_certs := []; tries := 0; key_registered := false |}).
Abbreviation reg_run := (register_enclave_key reg_wallets reg_keccak (fun _ => [1]) small reg_lib reg_params).

Lemma reg_runs : runs reg_run (trace_of reg_world reg_run reg_start) (Ok (Registered 6)).
Proof.
  replace (Ok (Registered 6)) with (value_of reg_world reg_run reg_start) by (vm_compute; reflexivity). apply interp_runs.
Qed.

Lemma registration_in_order_witness :
  guarded (registration_order reg_wallets reg_keccak (fun _ => [1]) small reg_lib reg_params) (trace_of reg_world reg_run reg_start) /\
  count_calls (sends_key_now reg_wallets) (trace_of reg_world reg_run reg_start) = 2%nat.
Proof.
  split; [|vm_compute; reflexivity].
  apply (registration_in_order reg_wallets reg_keccak (fun _ => [1]) small reg_lib reg_params _ _ reg_runs).
Defined.

Lemma registration_succeeds_witness :
  registration_shown reg_wallets reg_keccak (fun _ => [1]) small reg_lib reg_params (Registered 6)
    (trace_of reg_world reg_run reg_start).
Proof. exact (registration_succeeds reg_wallets reg_keccak (fun _ => [1]) small reg_lib reg_params _ _ reg_runs). Defined.
