(* ===== verification/Pbh.v ===== *)
(** * Priority blockspace for humans: nullifiers and payloads
    ([src/crates/pbh/src]: [date_marker.rs], [external_nullifier.rs], [payload.rs])

    A user proves with a Semaphore proof that they are in the set of verified humans.
    The proof is for an external nullifier, which names a month and a number below a
    limit; the nullifier hash is spent once, so a user has that many priority
    transactions a month.  Semaphore is the record [Semaphore]. *)

From S2P Require Import Prelude Encoding.

(** ** Date markers *)

Record DateMarker := { year : Z; month : Z }.

#[export] Instance DateMarker_eq_dec : EqDecision DateMarker.
Proof. solve_decision. Defined.

(** The kind of a [ParseIntError] is left out. *)
Inductive DateMarkerParsingError :=
| InvaldLength (actual : Z)
| InvalidMonth
| MonthOutOfRange (month : Z)
| InvalidYear.

Fixpoint digits_val (acc : Z) (l : bytes) : option Z :=
  match l with
  | [] => Some acc
  | b :: l => if (48 <=? b) && (b <=? 57) then digits_val (acc * 10 + (b - 48)) l else None
  end.

(** [str::parse] into an integer between [lo] and [hi]: a sign, then digits; the minus
    sign only for a signed type. *)
Definition parse_int (lo hi : Z) (s : bytes) : option Z :=
  let in_range v := if (lo <=? v) && (v <=? hi) then Some v else None in
  match s with
  | [] => None
  | b :: r =>
      if (b =? 43) && negb (bool_decide (r = [])) then digits_val 0 r ≫= in_range
      else if (b =? 45) && negb (bool_decide (r = [])) && (lo <? 0) then digits_val 0 r ≫= (fun v => in_range (- v))
      else digits_val 0 s ≫= in_range
  end.

Definition parse_u32 : bytes -> option Z := parse_int 0 U32_MAX.
Definition parse_i32 : bytes -> option Z := parse_int (- 2 ^ 31) (2 ^ 31 - 1).

(** [str::is_char_boundary] inside a string: not a continuation byte. *)
Definition is_char_boundary (s : bytes) (i : nat) : bool :=
  match s !! i with Some b => negb ((128 <=? b) && (b <=? 191)) | None => true end.

(** [None] is a panic: a slice off a character boundary. *)
Definition date_from_str (s : bytes) : option (result DateMarker DateMarkerParsingError) :=
  if negb (length s =? 6)%nat then Some (Err (InvaldLength (Z.of_nat (length s))))
  else if negb (is_char_boundary s 2) then None
  else Some
    (let? m := ok_or (parse_u32 (take 2 s)) InvalidMonth in
     let? y := ok_or (parse_i32 (drop 2 s)) InvalidYear in
     if negb ((1 <=? m) && (m <=? 12)) then Err (MonthOutOfRange m) else Ok {| year := y; month := m |}).

(** Decimal digits; a number below [10 ^ fuel] has no more. *)
Fixpoint dec (fuel : nat) (n : Z) : bytes :=
  match fuel with
  | O => []
  | S fuel => if n <? 10 then [48 + n] else dec fuel (n / 10) ++ [48 + n mod 10]
  end.

(** [{:0w}] of an integer of at most 10 digits *)
Definition fmt_padded (w : nat) (n : Z) : bytes :=
  let digits := dec 10 (Z.abs n) in
  if n <? 0 then 45 :: replicate (w - 1 - length digits) 48 ++ digits
  else replicate (w - length digits) 48 ++ digits.

Definition date_to_string (d : DateMarker) : bytes := fmt_padded 2 (month d) ++ fmt_padded 4 (year d).

(** ** External nullifiers *)

Inductive Prefix := V1.
#[export] Instance Prefix_eq_dec : EqDecision Prefix.
Proof. solve_decision. Defined.
Definition prefix_u8 (p : Prefix) : Z := match p with V1 => 1 end.

Record ExternalNullifier := { en_version : Prefix; en_year : Z; en_month : Z; en_nonce : Z }.

#[export] Instance ExternalNullifier_eq_dec : EqDecision ExternalNullifier.
Proof. solve_decision. Defined.

(** The fields are a [u16], a [u8] and a [u16]. *)
Definition nullifier_ok (e : ExternalNullifier) : Prop := u16 (en_year e) /\ u8 (en_month e) /\ u16 (en_nonce e).

Definition v1 (month year nonce : Z) : ExternalNullifier :=
  {| en_version := V1; en_year := year; en_month := month; en_nonce := nonce |}.

(** [month as u8], [year as u16] *)
Definition with_date_marker (marker : DateMarker) (nonce : Z) : ExternalNullifier :=
  v1 (month marker mod 2 ^ 8) (year marker mod 2 ^ 16) nonce.

Definition date_marker (e : ExternalNullifier) : DateMarker := {| year := en_year e; month := en_month e |}.

Definition encode_nullifier (e : ExternalNullifier) : Z :=
  Z.lor (Z.lor (Z.lor (Z.shiftl (en_year e) 32) (Z.shiftl (en_month e) 24)) (Z.shiftl (en_nonce e) 8))
    (prefix_u8 (en_version e)).

(** On a value up to [2 ^ 48], [value.0.to()] does not panic. *)
Definition decode_nullifier (value : Z) : result ExternalNullifier string :=
  if Z.shiftl 1 48 <? value then Err "invalid external nullifier"
  else
    let word := value in
    let year := Z.shiftr word 32 mod 2 ^ 16 in
    let month := Z.land (Z.shiftr word 24) 0xFF in
    let nonce := Z.land (Z.shiftr word 8) 0xFFFF in
    let version := Z.land word 0xFF in
    if negb (version =? prefix_u8 V1) then Err "invalid external nullifier version"
    else Ok {| en_version := V1; en_year := year; en_month := month; en_nonce := nonce |}.

(** ** Payloads *)

Abbreviation Field := Z (only parsing).
Definition TREE_DEPTH : nat := 30.

(** The Semaphore libraries.  A proof is eight words. *)
Record Semaphore := {
  ProofError : Type;
  decompress_proof : list Z -> option (list Z);
  verify_proof : Field -> Field -> Field -> Z -> list Z -> nat -> result bool ProofError;
  hash_to_field : bytes -> Field
}.

Section payload.
Context (sem : Semaphore).

Inductive PBHValidationError :=
| InvalidRoot
| InvalidExternalNullifierPeriod
| InvalidExternalNullifierNonce
| InvalidProof
| SemaphoreError (e : ProofError sem)
| InvalidCalldata
| MissingPbhPayload
| InvalidSignatureAggregator
| PBHCallTracerError
| PbhGasLimitExceeded
| DuplicateNullifierHash.

Record PBHPayload := {
  external_nullifier : ExternalNullifier; nullifier_hash : Field; pbh_root : Field; pbh_proof : list Z
}.

Definition validate_root (p : PBHPayload) (valid_roots : list Field) : result unit PBHValidationError :=
  if bool_decide (pbh_root p ∈ valid_roots) then Ok tt else Err InvalidRoot.

Definition validate_external_nullifier (p : PBHPayload) (date : DateMarker) (pbh_nonce_limit : Z)
    : result unit PBHValidationError :=
  if negb (bool_decide (date_marker (external_nullifier p) = date)) then Err InvalidExternalNullifierPeriod
  else if pbh_nonce_limit <=? en_nonce (external_nullifier p) then Err InvalidExternalNullifierNonce
  else Ok tt.

(** A proof whose last four words are zero is compressed. *)
Definition unpacked_proof (p : PBHPayload) : result (list Z) PBHValidationError :=
  let flat := pbh_proof p in
  let word i := nth i flat 0 in
  if Z.lor (Z.lor (Z.lor (word 4%nat) (word 5%nat)) (word 6%nat)) (word 7%nat) =? 0 then
    ok_or (decompress_proof sem (take 4 flat)) InvalidProof
  else Ok flat.

(** [date] is the current date. *)
Definition validate (p : PBHPayload) (date : DateMarker) (signal : Field) (valid_roots : list Field) (pbh_nonce_limit : Z)
    : result unit PBHValidationError :=
  let? _u := validate_root p valid_roots in
  let? _u := validate_external_nullifier p date pbh_nonce_limit in
  let? proof := unpacked_proof p in
  let? b := map_err SemaphoreError
    (verify_proof sem (pbh_root p) (nullifier_hash p) signal (encode_nullifier (external_nullifier p)) proof TREE_DEPTH) in
  if (b : bool) then Ok tt else Err InvalidProof.
End payload.

(** ** Strings of dates *)

Lemma digits_val_app l k acc : digits_val acc (l ++ k) = digits_val acc l ≫= (fun v => digits_val v k).
Proof. revert acc. induction l as [|b l IH]; intros acc; cbn [app digits_val]; [done|]. by destruct (_ && _). Qed.

Lemma digits_val_digit acc n : 0 <= n < 10 -> digits_val acc [48 + n] = Some (acc * 10 + n).
Proof.
  intros Hn. cbn [digits_val]. replace ((48 <=? 48 + n) && (48 + n <=? 57)) with true by
    (symmetry; apply andb_true_iff; split; apply Z.leb_le; lia). f_equal. lia.
Qed.

Lemma digits_val_zeros k l : digits_val 0 (replicate k 48 ++ l) = digits_val 0 l.
Proof. induction k as [|k IH]; [done|]. exact IH. Qed.

Lemma dec_spec fuel : forall n, 0 <= n < 10 ^ Z.of_nat fuel ->
  digits_val 0 (dec fuel n) = Some n /\ Forall (fun b => 48 <= b <= 57) (dec fuel n).
Proof.
  induction fuel as [|fuel IH]; intros n Hn; [simpl in Hn; assert (n = 0) as -> by lia; by split|].
  rewrite Nat2Z.inj_succ, Z.pow_succ_r in Hn by lia. cbn [dec]. destruct (Z.ltb_spec n 10).
  - rewrite digits_val_digit by lia. split; [f_equal; lia|]. constructor; [lia|constructor].
  - destruct (IH (n / 10)) as [Hv Hd]; [split; [apply Z.div_pos; lia|apply Z.div_lt_upper_bound; lia]|].
    pose proof (Z.mod_pos_bound n 10). rewrite digits_val_app, Hv. cbn [mbind option_bind].
    rewrite digits_val_digit by lia. split; [f_equal; pose proof (Z.div_mod n 10); lia|].
    apply Forall_app_2; [done|]. constructor; [lia|constructor].
Qed.

Lemma dec_length fuel : forall w n, 0 <= n < 10 ^ Z.of_nat w -> (1 <= w)%nat -> (length (dec fuel n) <= w)%nat.
Proof.
  induction fuel as [|fuel IH]; intros w n Hn Hw; [simpl; lia|]. cbn [dec]. destruct (Z.ltb_spec n 10); [simpl; lia|].
  destruct w as [|[|w]]; [lia|simpl in Hn; lia|]. rewrite length_app. simpl.
  rewrite Nat2Z.inj_succ, Z.pow_succ_r in Hn by lia.
  assert (length (dec fuel (n / 10)) <= S w)%nat; [|lia].
  apply IH; [|lia]. split; [apply Z.div_pos; lia|apply Z.div_lt_upper_bound; lia].
Qed.

Lemma parse_int_digits lo hi s v : s <> [] -> Forall (fun b => 48 <= b <= 57) s -> digits_val 0 s = Some v ->
  lo <= v <= hi -> parse_int lo hi s = Some v.
Proof.
  intros Hne Hd Hv Hr. destruct s as [|b s]; [done|]. inversion_clear Hd.
  assert (parse_int lo hi (b :: s) = digits_val 0 (b :: s) ≫= fun v => if (lo <=? v) && (v <=? hi) then Some v else None) as ->.
  { unfold parse_int. by rewrite (proj2 (Z.eqb_neq b 43)), (proj2 (Z.eqb_neq b 45)) by lia. }
  rewrite Hv. cbn [mbind option_bind]. by replace ((lo <=? v) && (v <=? hi)) with true by
    (symmetry; apply andb_true_iff; split; apply Z.leb_le; lia).
Qed.

Lemma fmt_padded_spec w n : (1 <= w <= 10)%nat -> 0 <= n < 10 ^ Z.of_nat w ->
  length (fmt_padded w n) = w /\ Forall (fun b => 48 <= b <= 57) (fmt_padded w n) /\ digits_val 0 (fmt_padded w n) = Some n.
Proof.
  intros Hw Hn. unfold fmt_padded. destruct (Z.ltb_spec n 0); [lia|]. rewrite Z.abs_eq by lia.
  assert (10 ^ Z.of_nat w <= 10 ^ Z.of_nat 10) by (apply Z.pow_le_mono_r; lia).
  destruct (dec_spec 10 n) as [Hv Hd]; [lia|]. pose proof (dec_length 10 w n Hn ltac:(lia)).
  split; [rewrite length_app, length_replicate; lia|]. split; [|by rewrite digits_val_zeros].
  apply Forall_app_2; [|done]. apply Forall_replicate. lia.
Qed.

Lemma fmt_negative_spec n : -999 <= n < 0 ->
  exists l, fmt_padded 4 n = 45 :: l /\ length l = 3%nat /\ digits_val 0 l = Some (- n).
Proof.
  intros Hn. exists (fmt_padded 3 (- n)). destruct (fmt_padded_spec 3 (- n)) as (Hl&_&Hv); [lia|lia|].
  split; [|done]. unfold fmt_padded. rewrite (proj2 (Z.ltb_lt n 0)), (proj2 (Z.ltb_ge (- n) 0)) by lia.
  by rewrite Z.abs_opp.
Qed.

Lemma parse_year y : -999 <= y <= 9999 -> length (fmt_padded 4 y) = 4%nat /\ parse_i32 (fmt_padded 4 y) = Some y.
Proof.
  intros Hy. destruct (Z.ltb_spec y 0).
  - destruct (fmt_negative_spec y) as (l&->&Hl&Hv); [lia|]. split; [simpl; lia|]. unfold parse_i32, parse_int.
    rewrite (bool_decide_false (l = [])) by (by intros ->). cbn [Z.eqb Pos.eqb andb negb]. rewrite Hv. cbn [mbind option_bind].
    by replace ((- 2 ^ 31 <=? - - y) && (- - y <=? 2 ^ 31 - 1)) with true by
      (symmetry; apply andb_true_iff; split; apply Z.leb_le; lia); rewrite Z.opp_involutive.
  - destruct (fmt_padded_spec 4 y) as (Hl&Hd&Hv); [lia|simpl; lia|]. split; [done|].
    apply parse_int_digits; [by intros Hn; rewrite Hn in Hl|done|done|lia].
Qed.

(** A date of the calendar survives printing and parsing. *)
Theorem date_roundtrip d :
  1 <= month d <= 12 -> -999 <= year d <= 9999 -> date_from_str (date_to_string d) = Some (Ok d).
Proof.
  intros Hm Hy. destruct (fmt_padded_spec 2 (month d)) as (Hlm&Hdm&Hvm); [lia|simpl; lia|].
  destruct (parse_year (year d) Hy) as [Hly Hpy]. unfold date_from_str, date_to_string.
  rewrite length_app, Hlm, Hly. cbn [Nat.add Nat.eqb negb].
  replace (is_char_boundary _ 2) with true.
  2: { unfold is_char_boundary. rewrite lookup_app_r, Hlm by lia. destruct (fmt_padded 4 (year d)) as [|b l] eqn:He; [done|].
    cbn [lookup list_lookup Nat.sub]. destruct (Z.ltb_spec (year d) 0).
    - destruct (fmt_negative_spec (year d)) as (l'&He'&_); [lia|]. rewrite He in He'. by injection He' as -> ->.
    - destruct (fmt_padded_spec 4 (year d)) as (_&Hd&_); [lia|simpl; lia|]. rewrite He in Hd. inversion_clear Hd.
      symmetry. apply negb_true_iff, andb_false_iff. left. apply Z.leb_gt. lia. }
  cbn [negb]. rewrite take_app_length', drop_app_length' by done. rewrite Hpy.
  rewrite (parse_int_digits 0 U32_MAX _ (month d)); [|by intros Hn; rewrite Hn in Hlm|done|done|unfold U32_MAX; lia].
  cbn [ok_or rbind]. replace ((1 <=? month d) && (month d <=? 12)) with true by
    (symmetry; apply andb_true_iff; split; apply Z.leb_le; lia). by destruct d.
Qed.

(** A string of six bytes with a character across the slice makes the parser panic
    instead of returning an error: an [a], the three bytes of a euro sign, and two
    digits. *)
Theorem date_parser_panics : date_from_str [97; 226; 130; 172; 49; 50] = None.
Proof. reflexivity. Qed.

(** ** Words of nullifiers *)

Lemma lor_add q k b : 0 <= k -> 0 <= b < 2 ^ k -> Z.lor (q * 2 ^ k) b = q * 2 ^ k + b.
Proof.
  intros Hk Hb. rewrite <-Z.add_lor_land. replace (Z.land (q * 2 ^ k) b) with 0; [lia|].
  apply Z.bits_inj'. intros n Hn. rewrite Z.bits_0, Z.land_spec, <-Z.shiftl_mul_pow2 by lia.
  destruct (Z.ltb_spec n k).
  - by rewrite Z.shiftl_spec_low.
  - destruct (Z.eq_dec b 0) as [->|]; [by rewrite Z.bits_0, andb_false_r|].
    rewrite (Z.bits_above_log2 b n), andb_false_r; [done|lia|]. pose proof (proj1 (Z.log2_lt_pow2 b k ltac:(lia))). lia.
Qed.

Lemma encode_nullifier_sum e : nullifier_ok e ->
  encode_nullifier e = en_year e * 2 ^ 32 + en_month e * 2 ^ 24 + en_nonce e * 2 ^ 8 + 1.
Proof.
  unfold nullifier_ok, u16, u8, U16_MAX, U8_MAX. intros (Hy&Hm&Hn). unfold encode_nullifier. destruct (en_version e).
  rewrite !Z.shiftl_mul_pow2 by lia. rewrite lor_add by lia.
  replace (en_year e * 2 ^ 32 + en_month e * 2 ^ 24) with ((en_year e * 2 ^ 8 + en_month e) * 2 ^ 24) by lia.
  rewrite lor_add by lia.
  replace ((en_year e * 2 ^ 8 + en_month e) * 2 ^ 24 + en_nonce e * 2 ^ 8) with
    (((en_year e * 2 ^ 8 + en_month e) * 2 ^ 16 + en_nonce e) * 2 ^ 8) by lia.
  rewrite lor_add by (simpl; lia). simpl prefix_u8. lia.
Qed.

Lemma word_fields value :
  Z.shiftr value 32 = value / 2 ^ 32 /\ Z.land (Z.shiftr value 24) 0xFF = value / 2 ^ 24 mod 2 ^ 8 /\
  Z.land (Z.shiftr value 8) 0xFFFF = value / 2 ^ 8 mod 2 ^ 16 /\ Z.land value 0xFF = value mod 2 ^ 8.
Proof.
  rewrite !Z.shiftr_div_pow2 by lia. change 0xFF with (Z.ones 8). change 0xFFFF with (Z.ones 16).
  by rewrite !Z.land_ones by lia.
Qed.

Lemma word_split value : 0 <= value < 2 ^ 48 ->
  value = value / 2 ^ 32 * 2 ^ 32 + (value / 2 ^ 24 mod 2 ^ 8) * 2 ^ 24 + (value / 2 ^ 8 mod 2 ^ 16) * 2 ^ 8 + value mod 2 ^ 8.
Proof.
  intros Hv. pose proof (Z.div_mod value (2 ^ 8)). pose proof (Z.div_mod (value / 2 ^ 8) (2 ^ 16)).
  pose proof (Z.div_mod (value / 2 ^ 24) (2 ^ 8)).
  replace (value / 2 ^ 8 / 2 ^ 16) with (value / 2 ^ 24) in * by (rewrite Z.div_div by lia; done).
  replace (value / 2 ^ 24 / 2 ^ 8) with (value / 2 ^ 32) in * by (rewrite Z.div_div by lia; done). lia.
Qed.

(** A word decodes to a nullifier exactly when it encodes it: the decoder accepts every
    encoding and nothing else, and two nullifiers never share a word.  The range check
    lets [2 ^ 48] through, but the version check then refuses it. *)
Theorem nullifier_codec value e :
  0 <= value -> decode_nullifier value = Ok e <-> nullifier_ok e /\ encode_nullifier e = value.
Proof.
  intros H0. unfold decode_nullifier. destruct (word_fields value) as (->&->&->&->).
  change (Z.shiftl 1 48) with (2 ^ 48). split.
  - destruct (Z.ltb_spec (2 ^ 48) value); [done|].
    cbn [prefix_u8]. destruct (Z.eqb_spec (value mod 2 ^ 8) 1) as [H1|]; cbn [negb]; [|done]. intros [= <-].
    assert (value < 2 ^ 48) as Hlt.
    { destruct (Z.eq_dec value (2 ^ 48)) as [->|]; [vm_compute in H1; lia|lia]. }
    rewrite (Z.mod_small (value / 2 ^ 32)) by (split; [apply Z.div_pos; lia|apply Z.div_lt_upper_bound; lia]).
    match goal with |- ?P /\ _ => assert P as Hok end; [|split; [done|]].
    + unfold nullifier_ok, u16, u8, U16_MAX, U8_MAX. simpl en_year. simpl en_month. simpl en_nonce.
      assert (0 <= value / 2 ^ 32 < 2 ^ 16) by (split; [apply Z.div_pos; lia|apply Z.div_lt_upper_bound; lia]).
      pose proof (Z.mod_pos_bound (value / 2 ^ 24) (2 ^ 8)). pose proof (Z.mod_pos_bound (value / 2 ^ 8) (2 ^ 16)). lia.
    + rewrite encode_nullifier_sum by done. simpl en_year. simpl en_month. simpl en_nonce.
      rewrite (word_split value) at 4 by lia. lia.
  - intros [Hok <-]. rewrite encode_nullifier_sum by done. destruct e as [[] y m n].
    unfold nullifier_ok, u16, u8, U16_MAX, U8_MAX in Hok. cbn [en_year en_month en_nonce prefix_u8] in *.
    set (v := y * 2 ^ 32 + m * 2 ^ 24 + n * 2 ^ 8 + 1).
    assert (v / 2 ^ 32 = y) as -> by (symmetry; apply (Z.div_unique v _ y (m * 2 ^ 24 + n * 2 ^ 8 + 1)); lia).
    assert (v / 2 ^ 24 = y * 2 ^ 8 + m) as -> by (symmetry; apply (Z.div_unique v _ _ (n * 2 ^ 8 + 1)); lia).
    assert (v / 2 ^ 8 = (y * 2 ^ 8 + m) * 2 ^ 16 + n) as -> by (symmetry; apply (Z.div_unique v _ _ 1); lia).
    assert (v mod 2 ^ 8 = 1) as -> by (symmetry; apply (Z.mod_unique v _ ((y * 2 ^ 8 + m) * 2 ^ 16 + n)); lia).
    rewrite (proj2 (Z.ltb_ge (2 ^ 48) v)), (Z.mod_small y) by lia. cbn [negb Z.eqb Pos.eqb].
    assert ((y * 2 ^ 8 + m) mod 2 ^ 8 = m) as -> by (symmetry; apply (Z.mod_unique _ _ y); lia).
    by assert (((y * 2 ^ 8 + m) * 2 ^ 16 + n) mod 2 ^ 16 = n) as -> by (symmetry; apply (Z.mod_unique _ _ (y * 2 ^ 8 + m)); lia).
Qed.

Lemma nullifier_codec_witness :
  decode_nullifier 8697325554433 = Ok (v1 1 2025 11) <-> nullifier_ok (v1 1 2025 11) /\ encode_nullifier (v1 1 2025 11) = 8697325554433.
Proof. apply (nullifier_codec 8697325554433). lia. Defined.

(** ** What a validated payload is *)

Section validated.
Context (sem : Semaphore).
Implicit Types p : PBHPayload.

Definition proven p (signal : Field) : Prop :=
  exists proof, unpacked_proof sem p = Ok proof /\
    verify_proof sem (pbh_root p) (nullifier_hash p) signal (encode_nullifier (external_nullifier p)) proof TREE_DEPTH = Ok true.

Lemma validate_spec p date signal valid_roots pbh_nonce_limit u :
  validate sem p date signal valid_roots pbh_nonce_limit = Ok u <->
  pbh_root p ∈ valid_roots /\ date_marker (external_nullifier p) = date /\ en_nonce (external_nullifier p) < pbh_nonce_limit /\
  proven p signal.
Proof.
  destruct u. unfold validate, validate_root, validate_external_nullifier, proven.
  destruct (bool_decide_reflect (pbh_root p ∈ valid_roots)); cbn [rbind]; [|naive_solver].
  destruct (bool_decide_reflect (date_marker (external_nullifier p) = date)); cbn [negb rbind]; [|naive_solver].
  destruct (Z.leb_spec pbh_nonce_limit (en_nonce (external_nullifier p))); cbn [rbind]; [naive_solver lia|].
  rewrite rbind_Ok. setoid_rewrite rbind_Ok. setoid_rewrite map_err_Ok. split.
  - intros (proof&?&[]&?&?); [|done]. split_and!; try done. by exists proof.
  - intros (_&_&_&proof&?&?). exists proof. split; [done|]. by exists true.
Qed.

(** The nullifier hashes of one identity are a function of the external nullifier. *)
Context (nullifier_of : Z -> Field).

Lemma same_nonce_same_hash p q date :
  nullifier_ok (external_nullifier p) -> nullifier_ok (external_nullifier q) ->
  date_marker (external_nullifier p) = date -> date_marker (external_nullifier q) = date ->
  nullifier_hash p = nullifier_of (encode_nullifier (external_nullifier p)) ->
  nullifier_hash q = nullifier_of (encode_nullifier (external_nullifier q)) ->
  en_nonce (external_nullifier p) = en_nonce (external_nullifier q) -> nullifier_hash p = nullifier_hash q.
Proof.
  intros _ _ <- Hd -> -> Hn. destruct (external_nullifier p) as [[] ? ? ?], (external_nullifier q) as [[] ? ? ?].
  unfold date_marker in Hd. simpl in *. by simplify_eq.
Qed.

Lemma nodup_bounded (l : list Z) limit : NoDup l -> Forall (fun n => 0 <= n < limit) l -> 0 <= limit -> Z.of_nat (length l) <= limit.
Proof.
  intros Hd Hb H0. assert (length l <= length (seqZ 0 limit))%nat as Hl; [|rewrite length_seqZ in Hl; lia].
  apply submseteq_length, NoDup_submseteq; [done|]. intros x Hx. apply elem_of_seqZ.
  rewrite Forall_forall in Hb. specialize (Hb x Hx). lia.
Qed.

(** Payloads of one identity that were validated in one month and whose nullifier
    hashes differ, as the pool and the builder require, are at most as many as the
    nonce limit. *)
Theorem monthly_quota (ps : list PBHPayload) date pbh_nonce_limit :
  0 <= pbh_nonce_limit -> NoDup (map nullifier_hash ps) ->
  Forall (fun p => nullifier_ok (external_nullifier p) /\
    nullifier_hash p = nullifier_of (encode_nullifier (external_nullifier p)) /\
    exists signal valid_roots, validate sem p date signal valid_roots pbh_nonce_limit = Ok tt) ps ->
  Z.of_nat (length ps) <= pbh_nonce_limit.
Proof.
  intros H0 Hd Hps. rewrite <-(length_map (fun p => en_nonce (external_nullifier p))). apply nodup_bounded; [|..|done].
  - induction ps as [|p ps IH]; [constructor|]. cbn [map] in *. apply NoDup_cons in Hd as [Hp Hd].
    inversion_clear Hps as [|? ? Hvp Hvs]. apply NoDup_cons. split; [|by apply IH].
    intros (q&Hn&Hq)%list_elem_of_In%in_map_iff. apply Hp. apply list_elem_of_In, in_map_iff. exists q. split; [|done].
    rewrite Forall_forall in Hvs. destruct Hvp as (?&?&s&r&(_&Hdp&_)%validate_spec).
    destruct (Hvs q ltac:(by apply list_elem_of_In)) as (?&?&s'&r'&(_&Hdq&_)%validate_spec).
    by apply (same_nonce_same_hash q p date).
  - apply Forall_map. eapply Forall_impl; [exact Hps|]. intros p ((_&_&Hn)&_&s&r&(_&_&Hlt&_)%validate_spec). simpl.
    unfold u16 in Hn. lia.
Qed.
End validated.

Definition toy_semaphore : Semaphore :=
  {| ProofError := unit; decompress_proof _ := None; verify_proof root nh _ ext _ _ := Ok (nh =? ext + 7);
     hash_to_field _ := 0 |}.
Definition toy_payload_of (nonce : Z) : PBHPayload :=
  {| external_nullifier := v1 3 2026 nonce; nullifier_hash := encode_nullifier (v1 3 2026 nonce) + 7; pbh_root := 1;
     pbh_proof := [1; 2; 3; 4; 5; 6; 7; 8] |}.

Lemma monthly_quota_witness : Z.of_nat (length (map toy_payload_of [0; 1; 2])) <= 3.
Proof.
  apply (monthly_quota toy_semaphore (fun ext => ext + 7) _ {| year := 2026; month := 3 |} 3); [lia| |].
  - apply (bool_decide_unpack _). vm_compute. exact I.
  - apply Forall_map, Forall_forall. intros n Hn.
    assert (n = 0 \/ n = 1 \/ n = 2) as Hcases by set_solver.
    destruct Hcases as [->|[->| ->]]; (split; [by repeat split; vm_compute|split; [reflexivity|by exists 0, [1]]]).
Defined.
