(* ===== verification/PbhPool.v ===== *)
(** * The transaction pool's priority transactions
    ([src/crates/pool/src]: [root.rs], [validator.rs], [eip4337.rs], [bindings.rs], [ordering.rs], [tx.rs])

    The pool validates a transaction to the PBH entry point by checking a Semaphore
    proof for every user operation in it, against the World ID roots of the last week;
    a transaction that passes carries its payloads, and is ordered before every
    transaction without. *)

From S2P Require Import Prelude Encoding ProofTypes Pbh.

(** ** The state of the chain, as the node reads it *)

Definition StateProvider : Type := Address -> Z -> result (option Z) string.

Record Header := { hd_hash : B256; hd_timestamp : Z }.

Record Client := {
  last_block_number : result Z string;
  client_block : Z -> result (option Header) string;
  state_by_block_hash : B256 -> result StateProvider string;
  latest_state : result StateProvider string
}.

(** ** Roots ([root.rs]) *)

Definition LATEST_ROOT_SLOT : Z := 1.
Definition ROOT_EXPIRATION_WINDOW : Z := 60 * 60 * 24 * 7.

(** [valid_roots] maps a root to the time it was last observed. *)
Record RootProvider := { valid_roots : gmap Field Z; latest_valid_timestamp : Z }.

Definition root_provider_new (client : Client) (world_id : Address) : result RootProvider string :=
  let empty := {| valid_roots := ∅; latest_valid_timestamp := 0 |} in
  match last_block_number client with
  | Err _ => Ok empty
  | Ok latest =>
      let? block := client_block client latest in
      match block with
      | None => Ok empty
      | Some header =>
          match state_by_block_hash client (hd_hash header) with
          | Err _ => Ok empty
          | Ok state =>
              match state world_id LATEST_ROOT_SLOT with
              | Ok (Some latest_root) =>
                  let timestamp := hd_timestamp header in
                  Ok {| valid_roots := {[latest_root := timestamp]}; latest_valid_timestamp := timestamp |}
              | _ => Ok empty
              end
          end
      end
  end.

Definition prune_invalid (rp : RootProvider) : RootProvider :=
  if ROOT_EXPIRATION_WINDOW <? latest_valid_timestamp rp then
    let oldest_valid_timestamp := latest_valid_timestamp rp - ROOT_EXPIRATION_WINDOW in
    {| valid_roots := filter (fun rt => oldest_valid_timestamp <= rt.2) (valid_roots rp);
       latest_valid_timestamp := latest_valid_timestamp rp |}
  else rp.

Definition root_on_new_block (client : Client) (world_id : Address) (block : Header) (rp : RootProvider)
    : result RootProvider string :=
  let? state := state_by_block_hash client (hd_hash block) in
  let? root := state world_id LATEST_ROOT_SLOT in
  Ok (prune_invalid
    {| valid_roots := match root with
                      | Some root => <[root := hd_timestamp block]> (valid_roots rp)
                      | None => valid_roots rp
                      end;
       latest_valid_timestamp := hd_timestamp block |}).

Definition root_list (rp : RootProvider) : list Field := (map_to_list (valid_roots rp)).*1.
Definition root_contains (rp : RootProvider) (root : Field) : bool := bool_decide (is_Some (valid_roots rp !! root)).

(** [WorldChainRootValidator::on_new_block]: an error is logged. *)
Definition commit_block (client : Client) (world_id : Address) (block : Header) (rp : RootProvider) : RootProvider :=
  match root_on_new_block client world_id block rp with Ok rp => rp | Err _ => rp end.

(** ** Transactions ([tx.rs], [bindings.rs], [eip4337.rs]) *)

Record PackedUserOperation := { op_sender : Address; op_nonce : Z; op_callData : bytes; op_rest : list bytes }.
Record UserOpsPerAggregator := { userOps : list PackedUserOperation; aggregator : Address; agg_signature : bytes }.
Record IPBHPayload := { i_root : Z; i_pbhExternalNullifier : Z; i_nullifierHash : Z; i_proof : list Z }.

Definition payload_try_from (val : IPBHPayload) : result PBHPayload string :=
  let? en := decode_nullifier (i_pbhExternalNullifier val) in
  Ok {| external_nullifier := en; nullifier_hash := i_nullifierHash val; pbh_root := i_root val; pbh_proof := i_proof val |}.

(** [abi_encode_packed] of an address, an integer and a byte string *)
Definition hash_user_op (sem : Semaphore) (op : PackedUserOperation) : Field :=
  hash_to_field sem (be_bytes 20 (op_sender op) ++ be_bytes 32 (op_nonce op) ++ op_callData op).

(** The parts of a pooled transaction that the validator reads. *)
Record PooledTx := {
  tx_hash : B256; tx_to : option Address; tx_input : bytes; tx_gas_limit : Z; tx_sender : Address; tx_nonce : Z;
  tx_tip : Z -> option Z; tx_payload : option (list PBHPayload)
}.

Definition set_pbh_payloads (tx : PooledTx) (ps : list PBHPayload) : PooledTx :=
  {| tx_hash := tx_hash tx; tx_to := tx_to tx; tx_input := tx_input tx; tx_gas_limit := tx_gas_limit tx;
     tx_sender := tx_sender tx; tx_nonce := tx_nonce tx; tx_tip := tx_tip tx; tx_payload := Some ps |}.

(** ** Ordering ([ordering.rs]) *)

Record WorldChainPriority := { is_pbh : bool; effective_tip_per_gas : option Z }.

Definition priority (tx : PooledTx) (base_fee : Z) : WorldChainPriority :=
  {| is_pbh := bool_decide (is_Some (tx_payload tx)); effective_tip_per_gas := tx_tip tx base_fee |}.

(** The derived order: field by field, [false] before [true] and [None] before [Some]. *)
Definition option_lt (a b : option Z) : bool :=
  match a, b with
  | None, Some _ => true
  | Some a, Some b => a <? b
  | _, None => false
  end.

Definition priority_lt (a b : WorldChainPriority) : bool :=
  match is_pbh a, is_pbh b with
  | false, true => true
  | true, false => false
  | _, _ => option_lt (effective_tip_per_gas a) (effective_tip_per_gas b)
  end.

(** ** The validator ([validator.rs]) *)

Definition PBH_GAS_LIMIT_SLOT : Z := 53.
Definition PBH_NONCE_LIMIT_SLOT : Z := 50.
Definition PBH_NONCE_LIMIT_OFFSET : Z := 160.
Definition MAX_U16 : Z := 0xFFFF.

Record Validator := {
  max_pbh_nonce : Z; max_pbh_gas_limit : Z; root_cache : RootProvider;
  pbh_entrypoint : Address; pbh_signature_aggregator : Address
}.

Definition nonce_limit_of (word : Z) : Z := Z.land (Z.shiftr word PBH_NONCE_LIMIT_OFFSET) MAX_U16.

(** [None] is a panic: [to] on a word that does not fit into a [u64]. *)
Definition validator_new (client : Client) (roots : RootProvider) (entrypoint aggregator : Address)
    : option (result Validator string) :=
  match latest_state client with
  | Err e => Some (Err e)
  | Ok state =>
      match state entrypoint PBH_NONCE_LIMIT_SLOT with
      | Err e => Some (Err e)
      | Ok nonce_word =>
          match state entrypoint PBH_GAS_LIMIT_SLOT with
          | Err e => Some (Err e)
          | Ok gas_word =>
              gas ← to_u64 (from_option id 0 gas_word);
              Some (Ok {| max_pbh_nonce := nonce_limit_of (from_option id 0 nonce_word); max_pbh_gas_limit := gas;
                          root_cache := roots; pbh_entrypoint := entrypoint; pbh_signature_aggregator := aggregator |})
          end
      end
  end.

Definition on_new_head_block (client : Client) (world_id : Address) (block : Header) (v : Validator) : option Validator :=
  limits ← match latest_state client with
           | Ok state =>
               let nonce := match state (pbh_entrypoint v) PBH_NONCE_LIMIT_SLOT with
                            | Ok (Some word) => nonce_limit_of word
                            | _ => max_pbh_nonce v
                            end in
               gas ← match state (pbh_entrypoint v) PBH_GAS_LIMIT_SLOT with
                     | Ok (Some word) => to_u64 word
                     | _ => Some (max_pbh_gas_limit v)
                     end;
               Some (nonce, gas)
           | Err _ => Some (max_pbh_nonce v, max_pbh_gas_limit v)
           end;
  Some {| max_pbh_nonce := limits.1; max_pbh_gas_limit := limits.2; root_cache := commit_block client world_id block (root_cache v);
          pbh_entrypoint := pbh_entrypoint v; pbh_signature_aggregator := pbh_signature_aggregator v |}.

Section validation.
Context (sem : Semaphore) {Details : Type}.

(** The ABI decoders and the selector that the bindings generate. *)
Context (decode_ops : bytes -> option (list UserOpsPerAggregator)) (decode_payloads : bytes -> option (list IPBHPayload))
  (handleAggregatedOps_SELECTOR : bytes).

Inductive ValidTransaction := VtValid (tx : PooledTx) | VtValidWithSidecar (tx : PooledTx).
Inductive InvalidTx := InnerInvalid (m : string) | PbhInvalid (e : PBHValidationError sem).
Inductive Outcome :=
| OutValid (details : Details) (transaction : ValidTransaction)
| OutInvalid (tx : PooledTx) (e : InvalidTx)
| OutError (hash : B256) (m : string).

(** The validator of the OP stack. *)
Context (validate_one : PooledTx -> Outcome).

(** The nonce limit and the date when the [i]-th proof is checked, and the error that
    the parallel checks report if there are several. *)
Context (now : nat -> Z * DateMarker) (pick : list (PBHValidationError sem) -> nat).

Definition is_valid (o : Outcome) : bool := match o with OutValid _ _ => true | _ => false end.

Fixpoint decode_all (l : list (IPBHPayload * PackedUserOperation))
    : result (list (PBHPayload * PackedUserOperation)) (PBHValidationError sem) :=
  match l with
  | [] => Ok []
  | (payload, op) :: l =>
      let? pbh_payload := map_err (fun _ => InvalidCalldata sem) (payload_try_from payload) in
      let? rest := decode_all l in
      Ok ((pbh_payload, op) :: rest)
  end.

(** [if !seen.insert(hash) { return DuplicateNullifierHash }], for every payload *)
Fixpoint insert_fresh (seen : gset Field) (ps : list PBHPayload) : result (gset Field) (PBHValidationError sem) :=
  match ps with
  | [] => Ok seen
  | p :: ps => if bool_decide (nullifier_hash p ∈ seen) then Err (DuplicateNullifierHash sem) else insert_fresh ({[nullifier_hash p]} ∪ seen) ps
  end.

Definition error_of {A} (r : result A (PBHValidationError sem)) : option (PBHValidationError sem) :=
  match r with Ok _ => None | Err e => Some e end.

Definition collect_par (results : list (result unit (PBHValidationError sem))) : result unit (PBHValidationError sem) :=
  let errors := omap error_of results in
  match errors with
  | [] => Ok tt
  | e :: _ => Err (default e (errors !! pick errors))
  end.

(** One round of the loop over the groups, with [i] proofs checked before. *)
Definition validate_group (roots : list Field) (i : nat) (seen : gset Field) (g : UserOpsPerAggregator)
    : result (list PBHPayload * gset Field) (PBHValidationError sem) :=
  let? pbh_payloads := ok_or (decode_payloads (agg_signature g)) (InvalidCalldata sem) in
  if negb (length pbh_payloads =? length (userOps g))%nat then Err (MissingPbhPayload sem)
  else
    let? payload_ops := decode_all (zip pbh_payloads (userOps g)) in
    let? seen := insert_fresh seen (payload_ops.*1) in
    let? _u := collect_par (imap (fun k '(payload, op) =>
        let '(limit, date) := now (i + k) in validate sem payload date (hash_user_op sem op) roots limit) payload_ops) in
    Ok (payload_ops.*1, seen).

Fixpoint validate_groups (roots : list Field) (aggregated : list PBHPayload) (seen : gset Field) (gs : list UserOpsPerAggregator)
    : result (list PBHPayload) (PBHValidationError sem) :=
  match gs with
  | [] => Ok aggregated
  | g :: gs =>
      let? r := validate_group roots (length aggregated) seen g in
      let '(payloads, seen) := r in
      validate_groups roots (aggregated ++ payloads) seen gs
  end.

Definition validate_pbh_bundle (v : Validator) (tx : PooledTx) : Outcome :=
  let tx_outcome := validate_one tx in
  if negb (is_valid tx_outcome) then tx_outcome
  else
    match decode_ops (tx_input tx) with
    | None => OutInvalid tx (PbhInvalid (InvalidCalldata sem))
    | Some groups =>
        if bool_decide (groups = []) || existsb (fun g => bool_decide (length (userOps g) = 0%nat)) groups then
          OutInvalid tx (PbhInvalid (MissingPbhPayload sem))
        else if negb (forallb (fun g => aggregator g =? pbh_signature_aggregator v) groups) then
          OutInvalid tx (PbhInvalid (InvalidSignatureAggregator sem))
        else
          match validate_groups (root_list (root_cache v)) [] ∅ groups with
          | Err e => OutInvalid tx (PbhInvalid e)
          | Ok aggregated_payloads =>
              match tx_outcome with
              | OutValid details (VtValid tx) =>
                  if negb (bool_decide (length aggregated_payloads = 0%nat)) then
                    OutValid details (VtValid (set_pbh_payloads tx aggregated_payloads))
                  else OutInvalid tx (PbhInvalid (MissingPbhPayload sem))
              | _ => tx_outcome
              end
          end
    end.

Definition function_signature (input : bytes) : bytes := if (4 <=? length input)%nat then take 4 input else replicate 4 0.

Definition validate_pbh (v : Validator) (tx : PooledTx) : Outcome :=
  if max_pbh_gas_limit v <? tx_gas_limit tx then OutInvalid tx (PbhInvalid (PbhGasLimitExceeded sem))
  else if bool_decide (function_signature (tx_input tx) = handleAggregatedOps_SELECTOR) then validate_pbh_bundle v tx
  else validate_one tx.

Definition validate_transaction (v : Validator) (tx : PooledTx) : Outcome :=
  if negb (default ZERO (tx_to tx) =? pbh_entrypoint v) then validate_one tx else validate_pbh v tx.

(** ** What priority takes *)

(** The payload is a proof for the operation, with a root of the list, in the month and
    below the limit that were in force when it was checked. *)
Definition checked (roots : list Field) (p : PBHPayload) (op : PackedUserOperation) : Prop :=
  pbh_root p ∈ roots /\ proven sem p (hash_user_op sem op) /\
  exists i, date_marker (external_nullifier p) = (now i).2 /\ en_nonce (external_nullifier p) < (now i).1.

Lemma decode_all_ops l r : decode_all l = Ok r -> r.*2 = l.*2.
Proof.
  revert r. induction l as [|[p op] l IH]; intros r; cbn [decode_all]; [by intros [= <-]|].
  intros (q&_&(rest&Hr&[= <-])%rbind_Ok)%rbind_Ok. cbn [fmap list_fmap snd]. f_equal. by apply IH.
Qed.

Lemma insert_fresh_spec ps : forall seen seen', insert_fresh seen ps = Ok seen' ->
  NoDup (map nullifier_hash ps) /\ (forall p, p ∈ ps -> nullifier_hash p ∉ seen) /\
  seen' = list_to_set (map nullifier_hash ps) ∪ seen.
Proof.
  induction ps as [|p ps IH]; intros seen seen'; cbn [insert_fresh].
  { intros [= <-]. split; [constructor|]. split; [by intros ? ?%elem_of_nil|set_solver]. }
  destruct (bool_decide_reflect (nullifier_hash p ∈ seen)) as [|Hn]; [done|]. intros (Hd&Hout&->)%IH.
  split_and!.
  - cbn [map]. apply NoDup_cons. split; [|done]. intros (q&Hq&Hin)%list_elem_of_In%in_map_iff.
    apply (Hout q); [by apply list_elem_of_In|]. set_solver.
  - intros q [->|Hq]%elem_of_cons; [done|]. specialize (Hout q Hq). set_solver.
  - cbn [map]. set_solver.
Qed.

Lemma collect_par_ok results u : collect_par results = Ok u -> Forall (fun r => r = Ok tt) results.
Proof.
  unfold collect_par. destruct (omap error_of results) as [|e es] eqn:He; [|done]. intros _.
  apply Forall_forall. intros [[]|e] Hr; [done|]. exfalso. apply (not_elem_of_nil e). rewrite <-He.
  apply list_elem_of_omap. by exists (Err e).
Qed.

Lemma group_spec roots i seen g ps seen' : validate_group roots i seen g = Ok (ps, seen') ->
  Forall2 (checked roots) ps (userOps g) /\ NoDup (map nullifier_hash ps) /\
  (forall p, p ∈ ps -> nullifier_hash p ∉ seen) /\ seen' = list_to_set (map nullifier_hash ps) ∪ seen.
Proof.
  unfold validate_group. intros (raw&_&Hr)%rbind_Ok. destruct (Nat.eqb_spec (length raw) (length (userOps g))) as [Hlen|]; [|done].
  cbn [negb] in Hr. apply rbind_Ok in Hr as (pops&Hp&(seen1&Hs&(u&Hc&[= <- <-])%rbind_Ok)%rbind_Ok).
  apply insert_fresh_spec in Hs as (?&?&->). apply collect_par_ok in Hc. split; [|done].
  assert (userOps g = pops.*2) as -> by (rewrite (decode_all_ops _ _ Hp), snd_zip; [done|lia]).
  apply Forall2_fmap, Forall2_same_length_lookup_2; [done|]. intros k [p op] y Hk Hk'. simplify_eq.
  rewrite Forall_forall in Hc. specialize (Hc (let '(limit, date) := now (i + k) in validate sem p date (hash_user_op sem op) roots limit)).
  cbn [fst snd]. destruct (now (i + k)) as [limit date] eqn:Hnow.
  destruct (proj1 (validate_spec sem p date (hash_user_op sem op) roots limit tt)) as (?&?&?&?).
  { apply Hc. apply list_elem_of_lookup. exists k. rewrite list_lookup_imap, Hk. simpl. by rewrite Hnow. }
  split; [done|]. split; [done|]. exists (i + k)%nat. by rewrite Hnow.
Qed.

Lemma groups_spec roots gs : forall acc seen ps,
  validate_groups roots acc seen gs = Ok ps -> NoDup (map nullifier_hash acc) -> seen = list_to_set (map nullifier_hash acc) ->
  exists new, ps = acc ++ new /\ Forall2 (checked roots) new (concat (map userOps gs)) /\ NoDup (map nullifier_hash ps).
Proof.
  induction gs as [|g gs IH]; intros acc seen ps; cbn [validate_groups].
  { intros [= <-] Hd _. exists []. rewrite app_nil_r. split; [done|]. by split. }
  intros ([new seen1]&(Hf&Hn&Hout&->)%group_spec&Hr)%rbind_Ok Hd ->.
  apply IH in Hr as (new'&->&Hf'&Hd').
  - exists (new ++ new'). rewrite app_assoc. split; [done|]. split; [|done]. cbn [map concat]. by apply Forall2_app.
  - rewrite map_app. apply NoDup_app. split; [done|]. split; [|done].
    intros h Hh (p&<-&Hp)%list_elem_of_In%in_map_iff. apply (Hout p); [by apply list_elem_of_In|]. by apply elem_of_list_to_set.
  - rewrite map_app, list_to_set_app_L. set_solver.
Qed.

(** Each operation of a transaction to the entry point, with the payload that proves it. *)
Definition entitled (v : Validator) (tx : PooledTx) (ps : list PBHPayload) : Prop :=
  default ZERO (tx_to tx) = pbh_entrypoint v /\ tx_gas_limit tx <= max_pbh_gas_limit v /\
  function_signature (tx_input tx) = handleAggregatedOps_SELECTOR /\
  exists groups, decode_ops (tx_input tx) = Some groups /\
    Forall (fun g => aggregator g = pbh_signature_aggregator v /\ userOps g <> []) groups /\
    Forall2 (checked (root_list (root_cache v))) ps (concat (map userOps groups)) /\
    ps <> [] /\ NoDup (map nullifier_hash ps).

Lemma bundle_spec v tx details t ps :
  (forall d t', validate_one tx = OutValid d (VtValid t') -> tx_payload t' = None) ->
  validate_pbh_bundle v tx = OutValid details (VtValid t) -> tx_payload t = Some ps ->
  exists groups, decode_ops (tx_input tx) = Some groups /\
    Forall (fun g => aggregator g = pbh_signature_aggregator v /\ userOps g <> []) groups /\
    Forall2 (checked (root_list (root_cache v))) ps (concat (map userOps groups)) /\
    ps <> [] /\ NoDup (map nullifier_hash ps).
Proof.
  intros Hinner. unfold validate_pbh_bundle. destruct (validate_one tx) as [d t0|? ?|? ?] eqn:Hone; cbn [is_valid negb]; try done.
  destruct (decode_ops (tx_input tx)) as [groups|]; [|done].
  destruct (bool_decide_reflect (groups = [])) as [|Hne]; [done|]. cbn [orb].
  destruct (existsb _ groups) eqn:Hempty; [done|]. destruct (forallb _ groups) eqn:Hagg; cbn [negb]; [|done].
  destruct (validate_groups _ [] ∅ groups) as [aggs|e] eqn:Hg; [|done].
  destruct t0 as [t0|t0]; [|done]. destruct (bool_decide_reflect (length aggs = 0%nat)) as [|Hn]; [done|]. cbn [negb].
  intros [= -> <-]. cbn [set_pbh_payloads tx_payload]. intros [= <-]. exists groups. split; [done|].
  apply groups_spec in Hg as (new&->&Hf&Hd); [|constructor|done]. split; [|split; [done|]].
  - apply Forall_forall. intros g Hin. apply list_elem_of_In in Hin. split.
    + apply Z.eqb_eq. rewrite forallb_forall in Hagg. by apply Hagg.
    + intros He. apply not_true_iff_false in Hempty. apply Hempty, existsb_exists. exists g. by rewrite He.
  - split; [by intros He; rewrite He in Hn|done].
Qed.

(** C26: A transaction that comes out of validation with priority is one to the entry point
    within the gas limit, all of whose user operations name the signature aggregator and
    are proven, one payload each, with roots of the cache and in the current period, and
    no two of the payloads have the same nullifier. *)
Theorem priority_is_proven v tx details t ps :
  (forall d t', validate_one tx = OutValid d (VtValid t') -> tx_payload t' = None) ->
  validate_transaction v tx = OutValid details (VtValid t) -> tx_payload t = Some ps -> entitled v tx ps.
Proof.
  intros Hinner. unfold validate_transaction, validate_pbh.
  destruct (Z.eqb_spec (default ZERO (tx_to tx)) (pbh_entrypoint v)); cbn [negb].
  2: { intros Hv Hp. by rewrite (Hinner _ _ Hv) in Hp. }
  destruct (Z.ltb_spec (max_pbh_gas_limit v) (tx_gas_limit tx)); [done|].
  destruct (bool_decide_reflect (function_signature (tx_input tx) = handleAggregatedOps_SELECTOR)).
  2: { intros Hv Hp. by rewrite (Hinner _ _ Hv) in Hp. }
  intros Hv Hp. split; [done|]. split; [done|]. split; [done|]. by eapply bundle_spec.
Qed.
End validation.

(** ** Which roots are valid *)

Section roots.
Context (world_id : Address).

(** The root in the state of a block, if the state could be read. *)
Definition read_root (cb : Client * Header) : option (option Field) :=
  match state_by_block_hash cb.1 (hd_hash cb.2) with
  | Ok state => match state world_id LATEST_ROOT_SLOT with Ok root => Some root | Err _ => None end
  | Err _ => None
  end.

Definition commit_all (bs : list (Client * Header)) (rp : RootProvider) : RootProvider :=
  foldl (fun rp cb => commit_block cb.1 world_id cb.2 rp) rp bs.

Definition no_roots : RootProvider := {| valid_roots := ∅; latest_valid_timestamp := 0 |}.

(** The times of the blocks that were read, and of those with the given root. *)
Definition read_times (bs : list (Client * Header)) : list Z :=
  omap (fun cb => match read_root cb with Some _ => Some (hd_timestamp cb.2) | None => None end) bs.
Definition seen_times (root : Field) (bs : list (Client * Header)) : list Z :=
  omap (fun cb => if bool_decide (read_root cb = Some (Some root)) then Some (hd_timestamp cb.2) else None) bs.

Lemma commit_block_read cb rp : commit_block cb.1 world_id cb.2 rp =
  match read_root cb with
  | Some root => prune_invalid
      {| valid_roots := match root with Some root => <[root := hd_timestamp cb.2]> (valid_roots rp) | None => valid_roots rp end;
         latest_valid_timestamp := hd_timestamp cb.2 |}
  | None => rp
  end.
Proof.
  unfold commit_block, root_on_new_block, read_root. destruct (state_by_block_hash cb.1 (hd_hash cb.2)) as [st|]; [|done].
  cbn [rbind]. by destruct (st world_id LATEST_ROOT_SLOT).
Qed.

Lemma prune_lookup m ts root t : (forall r t, m !! r = Some t -> 0 <= t) ->
  valid_roots (prune_invalid {| valid_roots := m; latest_valid_timestamp := ts |}) !! root = Some t <->
  m !! root = Some t /\ ts - ROOT_EXPIRATION_WINDOW <= t.
Proof.
  intros Hm. unfold prune_invalid. cbn [latest_valid_timestamp valid_roots].
  destruct (Z.ltb_spec ROOT_EXPIRATION_WINDOW ts); cbn [valid_roots]; [apply map_lookup_filter_Some|].
  split; [|by intros [? _]]. intros Ht. specialize (Hm _ _ Ht). split; [done|lia].
Qed.

(** The times of the blocks grow. *)
Definition chronological (bs : list (Client * Header)) : Prop :=
  Forall (fun t => 0 <= t) (read_times bs) /\ StronglySorted Z.le (read_times bs).

Lemma chronological_snoc bs cb : chronological (bs ++ [cb]) ->
  chronological bs /\ (read_root cb <> None -> 0 <= hd_timestamp cb.2 /\ Forall (fun t => t <= hd_timestamp cb.2) (read_times bs)).
Proof.
  unfold chronological, read_times. rewrite omap_app. intros [Hp Hs]. apply Forall_app in Hp as [Hp1 Hp2].
  split; [split; [done|]|].
  - clear -Hs. induction (omap _ bs) as [|t l IH]; [constructor|]. inversion_clear Hs as [|? ? Hs' Ht].
    constructor; [by apply IH|]. by apply Forall_app in Ht as [? _].
  - intros Hr. cbn [omap list_omap] in *. destruct (read_root cb); [|done]. inversion_clear Hp2. split; [done|].
    clear -Hs. induction (omap _ bs) as [|t l IH]; [constructor|]. inversion_clear Hs as [|? ? Hs' Ht].
    constructor; [|by apply IH]. apply Forall_app in Ht as [_ Ht]. by inversion_clear Ht.
Qed.

Lemma last_snoc_opt {A} (l : list A) o : last (l ++ option_list o) = match o with Some x => Some x | None => last l end.
Proof. destruct o; cbn [option_list]; [apply last_snoc|by rewrite app_nil_r]. Qed.

Lemma times_snoc bs cb root :
  read_times (bs ++ [cb]) = read_times bs ++ option_list (match read_root cb with Some _ => Some (hd_timestamp cb.2) | None => None end) /\
  seen_times root (bs ++ [cb]) =
    seen_times root bs ++ option_list (if bool_decide (read_root cb = Some (Some root)) then Some (hd_timestamp cb.2) else None).
Proof.
  unfold read_times, seen_times. rewrite !omap_app. cbn [omap list_omap].
  split; [by destruct (read_root cb)|by destruct (bool_decide _)].
Qed.

(** On a chain whose time does not run backwards, a root is valid exactly when it was
    the root of a block that was read, no longer ago than a week before the latest one
    that was read; it is kept with the time at which it was last the root. *)
Theorem roots_are_recent bs root t :
  chronological bs ->
  valid_roots (commit_all bs no_roots) !! root = Some t <->
  last (seen_times root bs) = Some t /\ default 0 (last (read_times bs)) - ROOT_EXPIRATION_WINDOW <= t.
Proof.
  revert root t. induction bs as [|cb bs IH] using rev_ind; intros root t Hc.
  { cbn. rewrite lookup_empty. naive_solver. }
  apply chronological_snoc in Hc as [Hc Hcb]. unfold commit_all. rewrite foldl_app. cbn [foldl].
  change (foldl _ no_roots bs) with (commit_all bs no_roots). rewrite commit_block_read.
  destruct (times_snoc bs cb root) as [-> ->]. rewrite !last_snoc_opt.
  destruct (read_root cb) as [r|]; [|rewrite bool_decide_false by done; by apply IH].
  destruct (Hcb ltac:(done)) as [Hts Hle]. set (ts := hd_timestamp cb.2) in *.
  assert (forall root t, valid_roots (commit_all bs no_roots) !! root = Some t -> 0 <= t) as Hpos.
  { intros root' t' [Hl _]%IH; [|done]. destruct Hc as [Hp _]. apply last_Some_elem_of in Hl.
    unfold seen_times in Hl. apply list_elem_of_omap in Hl as (x&Hx&Hd). destruct (bool_decide_reflect (read_root x = Some (Some root'))) as [Hrx|]; [|done].
    injection Hd as <-. rewrite Forall_forall in Hp. apply Hp. apply list_elem_of_omap. exists x. split; [done|]. by rewrite Hrx. }
  rewrite prune_lookup.
  2: { intros r' t'. destruct r as [r|]; [|apply Hpos]. intros [[<- <-]|[_ ?]]%lookup_insert_Some; [done|by eapply Hpos]. }
  assert (default 0 (last (read_times bs)) <= ts) as Hlast.
  { destruct (last (read_times bs)) as [l|] eqn:Hl; [|done]. apply last_Some_elem_of in Hl. rewrite Forall_forall in Hle. by apply Hle. }
  cbn [from_option]. assert (valid_roots (commit_all bs no_roots) !! root = Some t /\ ts - ROOT_EXPIRATION_WINDOW <= t <->
    last (seen_times root bs) = Some t /\ ts - ROOT_EXPIRATION_WINDOW <= t) as Hold.
  { rewrite IH by done. cbn [from_option] in *. naive_solver lia. }
  destruct r as [r|]; [|by rewrite bool_decide_false].
  destruct (decide (r = root)) as [->|Hne].
  - rewrite bool_decide_true by done. by rewrite lookup_insert_eq.
  - rewrite bool_decide_false by congruence. by rewrite lookup_insert_ne.
Qed.
End roots.

(** ** Examples *)

Definition ex_date : DateMarker := {| year := 2026; month := 3 |}.
Definition ex_state (root : Field) : StateProvider := fun _ slot => if slot =? LATEST_ROOT_SLOT then Ok (Some root) else Err "slot".
Definition ex_client (root : Field) : Client :=
  {| last_block_number := Ok 1; client_block _ := Ok None; state_by_block_hash _ := Ok (ex_state root);
     latest_state := Ok (ex_state root) |}.
Definition ex_blocks : list (Client * Header) :=
  [(ex_client 1, {| hd_hash := 1; hd_timestamp := 1000000 |}); (ex_client 2, {| hd_hash := 2; hd_timestamp := 1600000 |});
   (ex_client 3, {| hd_hash := 3; hd_timestamp := 1700000 |})].

Lemma roots_are_recent_witness :
  valid_roots (commit_all 9 ex_blocks no_roots) !! 1 = None /\ valid_roots (commit_all 9 ex_blocks no_roots) !! 2 = Some 1600000.
Proof.
  assert (chronological 9 ex_blocks) as Hc by (split; repeat constructor; vm_compute; congruence).
  split; [|apply (roots_are_recent 9 ex_blocks 2 1600000 Hc); split; [reflexivity|vm_compute; congruence]].
  apply eq_None_not_Some. intros [t [Hl Ht]%(roots_are_recent 9 ex_blocks 1 t Hc)].
  vm_compute in Hl. injection Hl as <-. by vm_compute in Ht.
Defined.

Definition ex_op : PackedUserOperation := {| op_sender := 5; op_nonce := 0; op_callData := [1]; op_rest := [] |}.
Definition ex_ipayload : IPBHPayload :=
  {| i_root := 2; i_pbhExternalNullifier := encode_nullifier (v1 3 2026 0); i_nullifierHash := encode_nullifier (v1 3 2026 0) + 7;
     i_proof := [1; 2; 3; 4; 5; 6; 7; 8] |}.
Definition ex_tx : PooledTx :=
  {| tx_hash := 100; tx_to := Some 60; tx_input := [1; 2; 3; 4; 5]; tx_gas_limit := 900; tx_sender := 8; tx_nonce := 0;
     tx_tip _ := Some 1; tx_payload := None |}.
Definition ex_validator : Validator :=
  {| max_pbh_nonce := 3; max_pbh_gas_limit := 1000; root_cache := commit_all 9 ex_blocks no_roots; pbh_entrypoint := 60;
     pbh_signature_aggregator := 61 |}.
Definition ex_ops (_ : bytes) : option (list UserOpsPerAggregator) := Some [{| userOps := [ex_op]; aggregator := 61; agg_signature := [] |}].
Definition ex_payloads (_ : bytes) : option (list IPBHPayload) := Some [ex_ipayload].
Definition ex_pbh : PBHPayload :=
  {| external_nullifier := v1 3 2026 0; nullifier_hash := encode_nullifier (v1 3 2026 0) + 7; pbh_root := 2;
     pbh_proof := [1; 2; 3; 4; 5; 6; 7; 8] |}.

Lemma priority_is_proven_witness :
  entitled toy_semaphore ex_ops [1; 2; 3; 4] (fun _ => (3, ex_date)) ex_validator ex_tx [ex_pbh].
Proof.
  apply (priority_is_proven toy_semaphore (Details := unit) ex_ops ex_payloads [1; 2; 3; 4] (fun tx => OutValid _ tt (VtValid tx))
    (fun _ => (3, ex_date)) (fun _ => 0%nat) ex_validator ex_tx tt (set_pbh_payloads ex_tx [ex_pbh])).
  - by intros d t' [= _ <-].
  - vm_compute. reflexivity.
  - reflexivity.
Defined.
