(* ===== verification/Builder.v ===== *)
(** * The payload builder
    ([src/crates/builder/src]: [execution_context.rs], [payload_txns.rs], [payload_builder.rs])

    The builder executes the pool's best transactions into a block.  Transactions with
    priority may use a configured share of the block's gas; the nullifiers that they
    spend must differ, and a transaction at the end of the block records them in the
    entry point.  What is executed comes from calls: the iterator over the pool, the
    EVM, the signer; theorems hold for all their answers. *)

From S2P Require Import Prelude Program Race Encoding ProofTypes Pbh PbhPool.

(** [u64] arithmetic of a release build *)
Definition wrap64 (x : Z) : Z := x mod 2 ^ 64.

Record BestTx := {
  bt_tx : PooledTx; bt_da_size : Z; bt_encoded_len : Z; bt_is_eip4844 : bool; bt_is_deposit : bool
}.

Record ExecutionInfo := {
  cumulative_gas_used : Z; cumulative_evm_gas_used : Z; cumulative_da_bytes_used : Z; info_uncompressed_bytes : Z;
  total_fees : Z
}.

Record BuilderCtx := {
  verified_blockspace_capacity : Z; pbh_entry_point : Address; builder_address : Address;
  block_uncompressed_size_limit : option Z; max_da_block_size : option Z; max_da_tx_size : option Z;
  base_fee : Z; ctx_chain_id : Z; jovian_active : bool
}.

Record SpendRequest := {
  sp_nonce : Z; sp_gas_limit : Z; sp_max_fee : Z; sp_chain_id : Z; sp_hashes : list Field; sp_to : Address
}.

Inductive BlockTx := FromPool (t : BestTx) | Spend (s : SpendRequest) (signature : bytes).
Inductive ExecError := NonceTooLow | InvalidTransaction | FatalExecution (m : string).

(** ** Calls *)

Inductive build_call :=
| NextTx
| MarkInvalid (sender : Address) (nonce : Z)
| IsCancelled
| DaFootprintScalar
| Execute (tx : BlockTx)
| BuilderNonce (address : Address)
| SignSpend (s : SpendRequest)
| RemoveTransactions (hashes : list B256).

(** An executed transaction is answered with the gas it used, after and before refunds. *)
Definition BuildSig : Sig := MkSig build_call (fun c =>
  match c with
  | NextTx => option BestTx
  | MarkInvalid _ _ => unit
  | IsCancelled => bool
  | DaFootprintScalar => result Z string
  | Execute _ => result (Z * Z) ExecError
  | BuilderNonce _ => result (option Z) string
  | SignSpend _ => result bytes string
  | RemoveTransactions _ => unit
  end).

Definition run_call (c : call BuildSig) : prog BuildSig (reply BuildSig c) := Call c Ret.

Inductive BuilderError := ScalarRead (m : string) | EvmExecutionError (m : string) | SpendBuild (m : string) | BuilderPanic.

Definition COLD_SSTORE_GAS : Z := 20000.
Definition FIXED_GAS : Z := 100000.
Definition dyn_gas_limit (len : Z) : Z := wrap64 (FIXED_GAS + len * COLD_SSTORE_GAS).

Section builder.
Context (ctx : BuilderCtx).

(** [ExecutionInfo::is_tx_over_limits], and the size estimate of a signed transaction. *)
Context (is_tx_over_limits : ExecutionInfo -> Z -> Z -> option Z -> option Z -> Z -> option Z -> Z -> option Z -> bool)
  (estimated_da_size : SpendRequest -> bytes -> Z).

(** The fee above the base fee; an [expect] panics if there is none. *)
Definition commit_changes (info : ExecutionInfo) (gas_used evm_gas_used tx_da_size : Z) (tip : option Z) : option ExecutionInfo :=
  miner_fee ← tip;
  Some {| cumulative_gas_used := wrap64 (cumulative_gas_used info + gas_used);
          cumulative_evm_gas_used := wrap64 (cumulative_evm_gas_used info + evm_gas_used);
          cumulative_da_bytes_used := wrap64 (cumulative_da_bytes_used info + tx_da_size);
          info_uncompressed_bytes := info_uncompressed_bytes info;
          total_fees := (total_fees info + miner_fee * gas_used) mod 2 ^ 256 |}.

Record LoopState := {
  ls_info : ExecutionInfo; ls_limit : Z; ls_bytes : Z; ls_spent : gset Field; ls_invalid : list B256; ls_observed : list B256
}.

(** [payloads.iter().any(|p| !spent.insert(p.nullifier_hash))]: the hashes before the
    first that was there stay in the set. *)
Fixpoint insert_until_duplicate (spent : gset Field) (payloads : list PBHPayload) : bool * gset Field :=
  match payloads with
  | [] => (false, spent)
  | p :: payloads =>
      if bool_decide (nullifier_hash p ∈ spent) then (true, spent)
      else insert_until_duplicate ({[nullifier_hash p]} ∪ spent) payloads
  end.

Inductive Stop := StopCancelled | StopError (e : BuilderError).

Definition mark_invalid (t : BestTx) : prog BuildSig unit := run_call (MarkInvalid (tx_sender (bt_tx t)) (tx_nonce (bt_tx t))).

Definition with_spent (st : LoopState) (spent : gset Field) : LoopState :=
  {| ls_info := ls_info st; ls_limit := ls_limit st; ls_bytes := ls_bytes st; ls_spent := spent;
     ls_invalid := ls_invalid st; ls_observed := ls_observed st |}.
Definition with_invalid (st : LoopState) (hash : B256) : LoopState :=
  {| ls_info := ls_info st; ls_limit := ls_limit st; ls_bytes := ls_bytes st; ls_spent := ls_spent st;
     ls_invalid := ls_invalid st ++ [hash]; ls_observed := ls_observed st |}.
Definition with_observed (st : LoopState) (hash : B256) : LoopState :=
  {| ls_info := ls_info st; ls_limit := ls_limit st; ls_bytes := ls_bytes st; ls_spent := ls_spent st;
     ls_invalid := ls_invalid st; ls_observed := ls_observed st ++ [hash] |}.

(** The gas that is kept back for the transaction at the end of the block. *)
Definition reserve (st : LoopState) (payloads : list PBHPayload) : Z :=
  let limit := if (size (ls_spent st) =? length payloads)%nat then wrap64 (ls_limit st - FIXED_GAS) else ls_limit st in
  wrap64 (limit - COLD_SSTORE_GAS * Z.of_nat (length payloads)).

(** The execution of a transaction that was let through. *)
Definition execute_one (t : BestTx) (st : LoopState) : prog BuildSig (LoopState + Stop) :=
  do r <- run_call (Execute (FromPool t));
  match r with
  | Ok (gas_used, evm_gas_used) =>
      let limit := match tx_payload (bt_tx t) with Some payloads => reserve st payloads | None => ls_limit st end in
      Ret match commit_changes (ls_info st) gas_used evm_gas_used (bt_da_size t) (tx_tip (bt_tx t) (base_fee ctx)) with
          | Some info =>
              inl {| ls_info := info; ls_limit := limit; ls_bytes := wrap64 (ls_bytes st + bt_encoded_len t);
                     ls_spent := ls_spent st; ls_invalid := ls_invalid st; ls_observed := ls_observed st |}
          | None => inr (StopError BuilderPanic)
          end
  | Err NonceTooLow => Ret (inl st)
  | Err InvalidTransaction => do _u <- mark_invalid t; Ret (inl st)
  | Err (FatalExecution m) => Ret (inr (StopError (EvmExecutionError m)))
  end.

(** A transaction that the iterator yields: the checks, then the execution. *)
Definition consider (verified_gas_limit : Z) (scalar : option Z) (t : BestTx) (st : LoopState) : prog BuildSig (LoopState + Stop) :=
  let tx := bt_tx t in
  let is_uncompressed_block_full :=
    match block_uncompressed_size_limit ctx with
    | Some limit => limit <? wrap64 (ls_bytes st + bt_encoded_len t)
    | None => false
    end in
  if is_uncompressed_block_full then do _u <- mark_invalid t; Ret (inl st)
  else if is_tx_over_limits (ls_info st) (bt_da_size t) (ls_limit st) (max_da_tx_size ctx) (max_da_block_size ctx)
            (tx_gas_limit tx) scalar (bt_encoded_len t) (block_uncompressed_size_limit ctx) then
    do _u <- mark_invalid t; Ret (inl st)
  else if bt_is_eip4844 t || bt_is_deposit t then do _u <- mark_invalid t; Ret (inl st)
  else
    do cancelled <- run_call IsCancelled;
    if cancelled then Ret (inr StopCancelled)
    else
      match tx_payload tx with
      | Some payloads =>
          if verified_gas_limit <? wrap64 (cumulative_gas_used (ls_info st) + tx_gas_limit tx) then
            do _u <- mark_invalid t; Ret (inl st)
          else
            let '(duplicate, spent) := insert_until_duplicate (ls_spent st) payloads in
            let st := with_spent st spent in
            if duplicate then do _u <- mark_invalid t; Ret (inl (with_invalid st (tx_hash tx)))
            else execute_one t st
      | None => execute_one t st
      end.

(** The loop over the iterator, which skips the transactions in [prev]
    ([BestPayloadTxnsGuard::next]); [None] when the fuel ran out. *)
Fixpoint best_loop (verified_gas_limit : Z) (scalar : option Z) (prev : gset B256) (fuel : nat) (st : LoopState)
    : prog BuildSig (option (LoopState + Stop)) :=
  match fuel with
  | O => Ret None
  | S fuel =>
      do next <- run_call NextTx;
      match next with
      | None => Ret (Some (inl st))
      | Some t =>
          if bool_decide (tx_hash (bt_tx t) ∈ prev) then best_loop verified_gas_limit scalar prev fuel st
          else
            do r <- consider verified_gas_limit scalar t (with_observed st (tx_hash (bt_tx t)));
            match r with
            | inl st => best_loop verified_gas_limit scalar prev fuel st
            | inr stop => Ret (Some (inr stop))
            end
      end
  end.

(** [nullifier_hashes] is the set's iteration order. *)
Definition spend_nullifiers_tx (nullifier_hashes : list Field) : prog BuildSig (result (SpendRequest * bytes) string) :=
  do? account <- run_call (BuilderNonce (builder_address ctx));
  let tx := {| sp_nonce := default 0 account; sp_gas_limit := dyn_gas_limit (Z.of_nat (length nullifier_hashes));
               sp_max_fee := base_fee ctx; sp_chain_id := ctx_chain_id ctx; sp_hashes := nullifier_hashes;
               sp_to := pbh_entry_point ctx |} in
  do? signature <- run_call (SignSpend tx);
  Ret (Ok (tx, signature)).

(** The transaction at the end of the block; if its execution fails the block is kept
    as it is.  Its fee is the base fee, so that its tip is zero. *)
Definition spend_nullifiers (st : LoopState) : prog BuildSig (result ExecutionInfo BuilderError) :=
  if bool_decide (ls_spent st = ∅) then Ret (Ok (ls_info st))
  else
    do? tx <- (do r <- spend_nullifiers_tx (elements (ls_spent st)); Ret (map_err SpendBuild r));
    do r <- run_call (Execute (Spend tx.1 tx.2));
    Ret match r with
        | Ok (gas_used, evm_gas_used) =>
            ok_or (commit_changes (ls_info st) gas_used evm_gas_used (estimated_da_size tx.1 tx.2) (Some 0)) BuilderPanic
        | Err _ => Ok (ls_info st)
        end.

Definition finish_best (st : LoopState) : prog BuildSig (result (option ExecutionInfo) BuilderError) :=
  do? info <- spend_nullifiers st;
  if bool_decide (ls_invalid st = []) then Ret (Ok (Some info))
  else do _u <- run_call (RemoveTransactions (ls_invalid st)); Ret (Ok (Some info)).

Definition loop_start (info : ExecutionInfo) (effective_gas_limit cumulative_uncompressed_bytes : Z) : LoopState :=
  {| ls_info := info; ls_limit := effective_gas_limit; ls_bytes := cumulative_uncompressed_bytes; ls_spent := ∅;
     ls_invalid := []; ls_observed := [] |}.

Definition verified_limit (effective_gas_limit : Z) : Z :=
  wrap64 (verified_blockspace_capacity ctx * effective_gas_limit) / 100.

(** [Ok None] if the job was cancelled, else the execution info. *)
Definition execute_best_transactions (fuel : nat) (prev : gset B256) (info : ExecutionInfo)
    (effective_gas_limit cumulative_uncompressed_bytes : Z) : prog BuildSig (option (result (option ExecutionInfo) BuilderError)) :=
  do scalar <- (if jovian_active ctx then (do r <- run_call DaFootprintScalar; Ret match r with Ok s => Ok (Some s) | Err m => Err (ScalarRead m) end)
                else Ret (Ok None));
  match scalar with
  | Err e => Ret (Some (Err e))
  | Ok scalar =>
      do r <- best_loop (verified_limit effective_gas_limit) scalar prev fuel
                (loop_start info effective_gas_limit cumulative_uncompressed_bytes);
      match r with
      | None => Ret None
      | Some (inr StopCancelled) => Ret (Some (Ok None))
      | Some (inr (StopError e)) => Ret (Some (Err e))
      | Some (inl st) => do out <- finish_best st; Ret (Some out)
      end
  end.

(** ** One build ([build], [build_inner]) *)

Record CommittedTx := { ct_hash : B256; ct_da_size : Z; ct_encoded_len : Z; ct_is_deposit : bool }.
Record Committed := { cm_fees : Z; cm_gas_used : Z; cm_evm_gas_used : Z; cm_txs : list CommittedTx }.

Record Attributes := { at_no_tx_pool : bool; at_transaction_lens : list Z }.

Inductive frame_call :=
| PreExecutionChanges
| ExecuteSequencerTransactions
| IsBetterPayload (fees : Z)
| FinishBlock
| ReceiveAccessList.

Definition FrameSig : Sig := MkSig frame_call (fun c =>
  match c with
  | PreExecutionChanges => result unit string
  | ExecuteSequencerTransactions => result ExecutionInfo string
  | IsBetterPayload _ => bool
  | FinishBlock => result B256 string
  | ReceiveAccessList => result bytes string
  end).

Inductive BuildFailure := FrameFailed (m : string) | BestFailed (e : BuilderError) | MissingPayload.

(** A payload is the block's hash and its fees. *)
Inductive BuildOutcome :=
| Better (block : B256) (fees : Z)
| Freeze (block : B256) (fees : Z)
| FreezeCommitted (c : Committed)
| Aborted (fees : Z).

Definition sum_of (l : list Z) : Z := wrap64 (foldr Z.add 0 l).

Definition build_limit (gas_limit : Z) (committed : option Committed) : Z :=
  saturating_sub gas_limit (match committed with Some c => cm_evm_gas_used c | None => 0 end).

(** What a continuation starts from. *)
Definition committed_info (c : Committed) : ExecutionInfo :=
  {| total_fees := cm_fees c; cumulative_gas_used := cm_gas_used c; cumulative_evm_gas_used := 0;
     cumulative_da_bytes_used := sum_of (map ct_da_size (List.filter (fun t => negb (ct_is_deposit t)) (cm_txs c)));
     info_uncompressed_bytes := sum_of (map ct_encoded_len (cm_txs c)) |}.

Definition start_build (attributes : Attributes) (committed : option Committed)
    : prog (BuildSig ⊕ FrameSig) (result (ExecutionInfo * Z) BuildFailure) :=
  match committed with
  | None =>
      do? _u <- (do r <- trigger (PreExecutionChanges : call FrameSig); Ret (map_err FrameFailed r));
      do? info <- (do r <- trigger (ExecuteSequencerTransactions : call FrameSig); Ret (map_err FrameFailed r));
      Ret (Ok (info, sum_of (at_transaction_lens attributes)))
  | Some c => Ret (Ok (committed_info c, sum_of (map ct_encoded_len (cm_txs c))))
  end.

(** [bal] stands for the receiver of the access list. *)
Definition finish_build (attributes : Attributes) (bal : bool) (fees : Z)
    : prog (BuildSig ⊕ FrameSig) (result (BuildOutcome * option bytes) BuildFailure) :=
  do? block <- (do r <- trigger (FinishBlock : call FrameSig); Ret (map_err FrameFailed r));
  do? access_list <- (if bal then (do r <- trigger (ReceiveAccessList : call FrameSig); Ret match r with Ok a => Ok (Some a) | Err m => Err (FrameFailed m) end)
                      else Ret (Ok None));
  Ret (Ok (if at_no_tx_pool attributes then Freeze block fees else Better block fees, access_list)).

(** [None] when the fuel of the loop over the pool ran out. *)
Definition build (fuel : nat) (gas_limit : Z) (has_pool bal : bool) (attributes : Attributes) (committed : option Committed)
    : prog (BuildSig ⊕ FrameSig) (option (result (BuildOutcome * option bytes) BuildFailure)) :=
  do started <- start_build attributes committed;
  match started with
  | Err e => Ret (Some (Err e))
  | Ok (info, bytes0) =>
      if has_pool && negb (at_no_tx_pool attributes) then
        let prev := list_to_set (match committed with Some c => map ct_hash (cm_txs c) | None => [] end) in
        do r <- lift (execute_best_transactions fuel prev info (build_limit gas_limit committed) bytes0);
        match r with
        | None => Ret None
        | Some (Err e) => Ret (Some (Err (BestFailed e)))
        | Some (Ok None) =>
            Ret (Some match committed with Some c => Ok (FreezeCommitted c, None) | None => Err MissingPayload end)
        | Some (Ok (Some info)) =>
            do better <- trigger (IsBetterPayload (total_fees info) : call FrameSig);
            if better then do out <- finish_build attributes bal (total_fees info); Ret (Some out)
            else Ret (Some (Ok (Aborted (total_fees info), None)))
        end
      else do out <- finish_build attributes bal (total_fees info); Ret (Some out)
  end.

(** ** What is executed *)

Definition exec_of (e : event BuildSig) : option (BlockTx * result (Z * Z) ExecError) :=
  match e with
  | existT c r =>
      match c return reply BuildSig c -> option (BlockTx * result (Z * Z) ExecError) with
      | Execute tx => fun r => Some (tx, r)
      | _ => fun _ => None
      end r
  end.

(** The gas and the bytes of the block after a trace, from [c] on. *)
Definition gas_after (c : Z) (tr : list (event BuildSig)) : Z :=
  foldl (fun c e => match exec_of e with Some (FromPool _, Ok (g, _)) => wrap64 (c + g) | _ => c end) c tr.
Definition bytes_after (c : Z) (tr : list (event BuildSig)) : Z :=
  foldl (fun c e => match exec_of e with Some (FromPool t, Ok _) => wrap64 (c + bt_encoded_len t) | _ => c end) c tr.

(** A transaction from the pool was handed to the EVM, with this result. *)
Definition executed (t : BestTx) (r : result (Z * Z) ExecError) (tr : list (event BuildSig)) : Prop :=
  ev (Execute (FromPool t) : call BuildSig) r ∈ tr.

Section inclusion.
Context (prev : gset B256) (gas0 bytes0 verified_gas_limit : Z).

(** Whether a transaction may be executed after a trace. *)
Definition may_execute (tr : list (event BuildSig)) (t : BestTx) : Prop :=
  ev (NextTx : call BuildSig) (Some t) ∈ tr /\ ~ (tx_hash (bt_tx t) ∈ prev) /\
  bt_is_eip4844 t = false /\ bt_is_deposit t = false /\
  (forall limit, block_uncompressed_size_limit ctx = Some limit -> wrap64 (bytes_after bytes0 tr + bt_encoded_len t) <= limit) /\
  (forall ps, tx_payload (bt_tx t) = Some ps ->
     wrap64 (gas_after gas0 tr + tx_gas_limit (bt_tx t)) <= verified_gas_limit /\ NoDup (map nullifier_hash ps) /\
     forall t' r ps' p p', executed t' r tr -> tx_payload (bt_tx t') = Some ps' -> p ∈ ps -> p' ∈ ps' ->
       nullifier_hash p <> nullifier_hash p').

Definition spends_all (tr : list (event BuildSig)) (s : SpendRequest) : Prop :=
  sp_to s = pbh_entry_point ctx /\ NoDup (sp_hashes s) /\ sp_gas_limit s = dyn_gas_limit (Z.of_nat (length (sp_hashes s))) /\
  forall t' r ps p, executed t' r tr -> tx_payload (bt_tx t') = Some ps -> p ∈ ps -> nullifier_hash p ∈ sp_hashes s.

Definition inclusion_order (tr : list (event BuildSig)) (e : event BuildSig) : Prop :=
  match projT1 e with
  | Execute (FromPool t) => may_execute tr t
  | Execute (Spend s _) => spends_all tr s
  | _ => True
  end.

(** The state of the loop agrees with the trace. *)
Definition tracks (st : LoopState) (tr : list (event BuildSig)) : Prop :=
  cumulative_gas_used (ls_info st) = gas_after gas0 tr /\ ls_bytes st = bytes_after bytes0 tr /\
  forall t' r ps p, executed t' r tr -> tx_payload (bt_tx t') = Some ps -> p ∈ ps -> nullifier_hash p ∈ ls_spent st.

Definition quiet (tr : list (event BuildSig)) : Prop := Forall (fun e => exec_of e = None) tr.

Lemma quiet_after tr t1 : quiet t1 -> gas_after gas0 (tr ++ t1) = gas_after gas0 tr /\ bytes_after bytes0 (tr ++ t1) = bytes_after bytes0 tr.
Proof.
  intros Hq. unfold gas_after, bytes_after. rewrite !foldl_app. set (a := foldl _ gas0 tr). set (b := foldl _ bytes0 tr).
  clearbody a b. induction Hq as [|e t1 He _ IH]; [done|]. cbn [foldl]. by rewrite He.
Qed.

Lemma quiet_executed tr t1 t r : quiet t1 -> executed t r (tr ++ t1) -> executed t r tr.
Proof.
  intros Hq [?|Hin]%elem_of_app; [done|]. unfold quiet in Hq. rewrite Forall_forall in Hq. by specialize (Hq _ Hin).
Qed.

Lemma tracks_quiet st tr t1 : tracks st tr -> quiet t1 -> tracks st (tr ++ t1).
Proof.
  intros (Hg&Hb&Hs) Hq. destruct (quiet_after tr t1 Hq) as [Hg' Hb']. split; [congruence|]. split; [congruence|].
  intros t' r ps p Ht. apply (Hs t' r). by eapply quiet_executed.
Qed.

Lemma tracks_spent st st' tr : tracks st tr -> ls_info st' = ls_info st -> ls_bytes st' = ls_bytes st -> ls_spent st ⊆ ls_spent st' ->
  tracks st' tr.
Proof.
  intros (Hg&Hb&Hs) Hi Hl Hsub. split; [congruence|]. split; [congruence|]. intros t' r ps p Ht Hp Hin. apply Hsub. by eapply Hs.
Qed.

Lemma insert_until_duplicate_spec ps : forall spent dup spent', insert_until_duplicate spent ps = (dup, spent') ->
  spent ⊆ spent' /\ (dup = false -> NoDup (map nullifier_hash ps) /\
    forall p, p ∈ ps -> ~ (nullifier_hash p ∈ spent) /\ nullifier_hash p ∈ spent').
Proof.
  induction ps as [|p ps IH]; intros spent dup spent'; cbn [insert_until_duplicate].
  { intros [= <- <-]. split; [done|]. intros _. split; [constructor|by intros ? ?%elem_of_nil]. }
  destruct (bool_decide_reflect (nullifier_hash p ∈ spent)) as [|Hn]; [by intros [= <- <-]|].
  intros [Hsub Hd]%IH. split; [set_solver|]. intros ->. destruct (Hd eq_refl) as [Hnd Hps]. split.
  - cbn [map]. apply NoDup_cons. split; [|done]. intros (q&Hq&Hin)%list_elem_of_In%in_map_iff.
    destruct (Hps q) as [Hout _]; [by apply list_elem_of_In|]. set_solver.
  - intros q [->|Hq]%elem_of_cons; [split; [done|set_solver]|]. destruct (Hps q Hq). split; [set_solver|done].
Qed.

Lemma executed_snoc t' r' tr c (r : reply BuildSig (Execute c)) :
  executed t' r' (tr ++ [ev (Execute c : call BuildSig) r]) -> executed t' r' tr \/ c = FromPool t'.
Proof.
  intros [?|Hin]%elem_of_app; [by left|right]. apply list_elem_of_singleton in Hin.
  assert (exec_of (ev (Execute (FromPool t') : call BuildSig) r') = exec_of (ev (Execute c : call BuildSig) r)) as He by (by rewrite Hin).
  cbn in He. by injection He.
Qed.

Lemma execute_one_safe t st t0 :
  tracks st t0 -> may_execute t0 t ->
  (forall ps p, tx_payload (bt_tx t) = Some ps -> p ∈ ps -> nullifier_hash p ∈ ls_spent st) ->
  safe (fun h e => inclusion_order (t0 ++ h) e) (execute_one t st)
    (fun t1 r => match r with inl st' => tracks st' (t0 ++ t1) | inr _ => True end).
Proof.
  intros (Hg&Hb&Hs) Hmay Hps.
  assert (forall r t' r' ps p, executed t' r' (t0 ++ [ev (Execute (FromPool t) : call BuildSig) r]) -> tx_payload (bt_tx t') = Some ps ->
    p ∈ ps -> nullifier_hash p ∈ ls_spent st) as Hs'.
  { intros r t' r' ps p [?|[= <-]]%executed_snoc Hpl Hp; [by eapply Hs|by eapply Hps]. }
  unfold execute_one, mark_invalid, run_call. sym_call [[gas evm_gas]|[| |m]]; [by rewrite app_nil_r| | | |by apply safe_ret].
  - apply safe_ret. unfold commit_changes. destruct (tx_tip (bt_tx t) (base_fee ctx)) as [tip|]; [|done]. cbn [mbind option_bind].
    unfold tracks, gas_after, bytes_after. rewrite !foldl_app. cbn [foldl ls_info cumulative_gas_used ls_bytes ls_spent].
    split; [by rewrite Hg|]. split; [by rewrite Hb|]. apply Hs'.
  - apply safe_ret. unfold tracks, gas_after, bytes_after. rewrite !foldl_app. split; [exact Hg|]. split; [exact Hb|]. apply Hs'.
  - sym_call []; [done|]. apply safe_ret. rewrite (app_assoc t0 [_] [_] : t0 ++ [_; _] = _).
    apply tracks_quiet; [|by repeat constructor].
    unfold tracks, gas_after, bytes_after. rewrite !foldl_app. split; [exact Hg|]. split; [exact Hb|]. apply Hs'.
Qed.

Lemma marked_safe t st t0 : tracks st t0 ->
  safe (fun h e => inclusion_order (t0 ++ h) e) (do _u <- mark_invalid t; Ret (inl st : LoopState + Stop))
    (fun t1 r => match r with inl st' => tracks st' (t0 ++ t1) | inr _ => True end).
Proof.
  intros Ht. unfold mark_invalid, run_call. sym_call []; [done|]. apply safe_ret. apply tracks_quiet; [done|by repeat constructor].
Qed.

Lemma consider_safe scalar t st t0 :
  tracks st t0 -> ev (NextTx : call BuildSig) (Some t) ∈ t0 -> ~ (tx_hash (bt_tx t) ∈ prev) ->
  safe (fun h e => inclusion_order (t0 ++ h) e) (consider verified_gas_limit scalar t st)
    (fun t1 r => match r with inl st' => tracks st' (t0 ++ t1) | inr _ => True end).
Proof.
  intros Ht0 Hnext Hprev. unfold consider.
  destruct (match block_uncompressed_size_limit ctx with Some limit => _ | None => false end) eqn:Hfull; [by apply marked_safe|].
  destruct (is_tx_over_limits _ _ _ _ _ _ _ _ _); [by apply marked_safe|].
  destruct (bt_is_eip4844 t) eqn:Hblob; [by apply marked_safe|]. destruct (bt_is_deposit t) eqn:Hdep; [by apply marked_safe|].
  cbn [orb]. unfold run_call at 1. sym_call []; [done|by apply safe_ret|].
  assert (forall A (p : prog BuildSig A) Q t1, safe (fun h e => inclusion_order ((t0 ++ t1) ++ h) e) p (fun u r => Q ((t0 ++ t1) ++ u) r) ->
    safe (fun h e => inclusion_order (t0 ++ t1 ++ h) e) p (fun u r => Q (t0 ++ t1 ++ u) r)) as Hshift.
  { intros A p Q t1 Hp. eapply safe_conseq; [exact Hp|shift_trace|shift_trace]. }
  apply (Hshift _ _ (fun u r => match r with inl st' => tracks st' u | inr _ => True end) [ev (IsCancelled : call BuildSig) false]).
  assert (tracks st (t0 ++ [ev (IsCancelled : call BuildSig) false])) as Ht by (apply tracks_quiet; [done|by repeat constructor]).
  set (t1 := t0 ++ [_]) in *. pose proof Ht as (Hg&Hb&Hs).
  assert ((forall ps, tx_payload (bt_tx t) = Some ps ->
     wrap64 (gas_after gas0 t1 + tx_gas_limit (bt_tx t)) <= verified_gas_limit /\ NoDup (map nullifier_hash ps) /\
     forall t' r ps' p p', executed t' r t1 -> tx_payload (bt_tx t') = Some ps' -> p ∈ ps -> p' ∈ ps' ->
       nullifier_hash p <> nullifier_hash p') -> may_execute t1 t) as Hmay.
  { intros Hps. split; [apply elem_of_app; by left|]. split; [done|]. split; [done|]. split; [done|]. split; [|done].
    intros limit Hl. rewrite Hl in Hfull. apply Z.ltb_ge in Hfull. by rewrite <-Hb. }
  destruct (tx_payload (bt_tx t)) as [ps|] eqn:Hpl.
  2: { apply execute_one_safe; [done|by apply Hmay|]. intros ps p. by rewrite Hpl. }
  destruct (Z.ltb_spec verified_gas_limit (wrap64 (cumulative_gas_used (ls_info st) + tx_gas_limit (bt_tx t)))) as [|Hgas];
    [by apply marked_safe|].
  destruct (insert_until_duplicate (ls_spent st) ps) as [dup spent] eqn:Hins.
  apply insert_until_duplicate_spec in Hins as [Hsub Hdup].
  assert (tracks (with_spent st spent) t1) as Ht' by (by apply (tracks_spent st)).
  destruct dup; [apply marked_safe; by apply (tracks_spent (with_spent st spent))|].
  destruct (Hdup eq_refl) as [Hnd Hin]. apply execute_one_safe; [done| |].
  - apply Hmay. intros ps' [= <-]. split; [by rewrite <-Hg|]. split; [done|]. intros t' r ps' p p' Hex Hpl' Hp Hp' Heq.
    destruct (Hin p Hp) as [Hout _]. apply Hout. rewrite Heq. by eapply Hs.
  - intros ps' p Heq Hp. rewrite Hpl in Heq. injection Heq as <-. by apply Hin.
Qed.

Lemma best_loop_safe scalar fuel : forall st t0, tracks st t0 ->
  safe (fun h e => inclusion_order (t0 ++ h) e) (best_loop verified_gas_limit scalar prev fuel st)
    (fun t1 r => match r with Some (inl st') => tracks st' (t0 ++ t1) | _ => True end).
Proof.
  induction fuel as [|fuel IH]; intros st t0 Ht; cbn [best_loop]; [by apply safe_ret|]. unfold run_call.
  sym_call [t|]; [done| |by apply safe_ret; apply tracks_quiet; [|repeat constructor]].
  set (e := ev (NextTx : call BuildSig) (Some t)).
  assert (tracks st (t0 ++ [e])) as Ht1 by (apply tracks_quiet; [done|by repeat constructor]).
  case_bool_decide as Hp.
  - eapply safe_conseq; [apply (IH st (t0 ++ [e]) Ht1)|shift_trace|shift_trace].
  - eapply safe_bind.
    + eapply safe_conseq; [apply (consider_safe scalar t (with_observed st (tx_hash (bt_tx t))) (t0 ++ [e]))|shift_trace|intros ? ? Hq; exact Hq];
        [by apply (tracks_spent st)|apply elem_of_app; right; by apply list_elem_of_singleton|done].
    + intros [st'|stop] t1 Hq; cbv beta in Hq; [|by apply safe_ret].
      eapply safe_conseq; [apply (IH st' ((t0 ++ [e]) ++ t1) Hq)|shift_trace|shift_trace].
Qed.

(** Once a transaction with a payload was executed, the nullifiers are spent. *)
Definition all_spent (tr : list (event BuildSig)) : Prop :=
  forall t r ps p, executed t r tr -> tx_payload (bt_tx t) = Some ps -> p ∈ ps ->
    exists s signature r', ev (Execute (Spend s signature) : call BuildSig) r' ∈ tr /\ nullifier_hash p ∈ sp_hashes s.

Lemma executed_spend t r tr s signature (r' : reply BuildSig (Execute (Spend s signature))) :
  executed t r (tr ++ [ev (Execute (Spend s signature) : call BuildSig) r']) -> executed t r tr.
Proof. intros Hx. by apply executed_snoc in Hx as [?|?]. Qed.

Lemma all_spent_quiet tr t1 : all_spent tr -> quiet t1 -> all_spent (tr ++ t1).
Proof.
  intros Ha Hq t r ps p Ht Hp Hin. apply quiet_executed in Ht; [|done]. destruct (Ha t r ps p Ht Hp Hin) as (s&sg&r'&Hr&Hs).
  exists s, sg, r'. split; [|done]. apply elem_of_app. by left.
Qed.

Lemma spend_safe st t0 : tracks st t0 ->
  safe (fun h e => inclusion_order (t0 ++ h) e) (spend_nullifiers st)
    (fun t1 r => match r with Ok _ => all_spent (t0 ++ t1) | Err _ => True end).
Proof.
  intros (Hg&Hb&Hs). unfold spend_nullifiers. case_bool_decide as He.
  { apply safe_ret. rewrite app_nil_r. intros t r ps p Ht Hp Hin. specialize (Hs t r ps p Ht Hp Hin). rewrite He in Hs. set_solver. }
  unfold spend_nullifiers_tx, run_call. sym_call [account|m]; [done| |by apply safe_ret].
  set (s := {| sp_nonce := _ |}). sym_call [signature|m]; [done| |by apply safe_ret].
  set (t2 := [ev (BuilderNonce (builder_address ctx) : call BuildSig) (Ok account); ev (SignSpend s : call BuildSig) (Ok signature)]).
  assert (forall t r, executed t r (t0 ++ t2) -> executed t r t0) as Hq by (intros t r Ht; by apply (quiet_executed t0 t2); [by repeat constructor|]).
  sym_simpl. apply safe_call. intros out. split.
  - split; [done|]. split; [exact (NoDup_elements (ls_spent st))|]. split; [done|].
    intros t r ps p Ht Hp Hin. apply (proj2 (elem_of_elements (ls_spent st) _)). eapply Hs; [by apply Hq|done|done].
  - assert (all_spent ((t0 ++ t2) ++ [ev (Execute (Spend s signature) : call BuildSig) out])) as Ha.
    { intros t r ps p Ht%executed_spend%Hq Hp Hin. exists s, signature, out.
      split; [apply elem_of_app; right; by apply list_elem_of_singleton|].
      apply (proj2 (elem_of_elements (ls_spent st) _)). by eapply Hs. }
    rewrite <-app_assoc in Ha. destruct out as [[gas evm_gas]|e]; sym_simpl; apply safe_ret; exact Ha.
Qed.

Lemma execute_best_safe fuel info effective_gas_limit :
  cumulative_gas_used info = gas0 -> verified_gas_limit = verified_limit effective_gas_limit ->
  safe inclusion_order (execute_best_transactions fuel prev info effective_gas_limit bytes0)
    (fun tr r => match r with Some (Ok (Some _)) => all_spent tr | _ => True end).
Proof.
  intros Hgas Hver. unfold execute_best_transactions. rewrite <-Hver.
  assert (forall t0, quiet t0 -> tracks (loop_start info effective_gas_limit bytes0) t0) as Hstart.
  { intros t0 Hq. apply (tracks_quiet _ [] t0); [|done]. split; [exact Hgas|]. split; [done|]. by intros ? ? ? ? ?%elem_of_nil. }
  assert (forall scalar t0, quiet t0 -> safe (fun h e => inclusion_order (t0 ++ h) e)
    (do r <- best_loop verified_gas_limit scalar prev fuel (loop_start info effective_gas_limit bytes0);
     match r with
     | None => Ret None
     | Some (inr StopCancelled) => Ret (Some (Ok None))
     | Some (inr (StopError e)) => Ret (Some (Err e))
     | Some (inl st) => do out <- finish_best st; Ret (Some out)
     end) (fun tr r => match r with Some (Ok (Some _)) => all_spent (t0 ++ tr) | _ => True end)) as Hbody.
  { intros scalar t0 Hq. eapply safe_bind; [by apply best_loop_safe, Hstart|].
    intros [[st|[|e]]|] t1 Ht; cbv beta in Ht; try by apply safe_ret.
    eapply safe_bind; [|intros out t2 Hout; apply safe_ret; rewrite app_nil_r; exact Hout].
    unfold finish_best. eapply safe_bind_try.
    - eapply safe_conseq; [apply (spend_safe st (t0 ++ t1) Ht)|shift_trace|].
      instantiate (1 := fun t r => match r with Ok _ => all_spent (t0 ++ t1 ++ t) | Err _ => True end).
      intros t [i|e] Hr; [|done]. cbv beta iota in Hr. by rewrite <-app_assoc in Hr.
    - done.
    - intros info' t2 Ha. case_bool_decide; [apply safe_ret; by rewrite app_nil_r|]. unfold run_call. sym_call []; [done|].
      apply safe_ret.
      assert (all_spent ((t0 ++ t1 ++ t2) ++ [ev (RemoveTransactions (ls_invalid st) : call BuildSig) tt])) as Hf
        by (apply all_spent_quiet; [exact Ha|by repeat constructor]). by rewrite <-!app_assoc in Hf. }
  destruct (jovian_active ctx); [|apply (Hbody None []); constructor]. unfold run_call.
  sym_call [scalar|m]; [done| |by apply safe_ret]. apply (Hbody (Some scalar) [_]). by repeat constructor.
Qed.
End inclusion.


(** If the builder goes on to seal the block and has executed a transaction with
    priority, then the transaction that spends its nullifiers was executed too. *)
Theorem nullifiers_are_spent fuel prev info effective_gas_limit bytes0 tr info' :
  runs (execute_best_transactions fuel prev info effective_gas_limit bytes0) tr (Some (Ok (Some info'))) -> all_spent tr.
Proof.
  intros Hr. by apply (execute_best_safe prev (cumulative_gas_used info) bytes0 (verified_limit effective_gas_limit) fuel info) in Hr as [_ ?].
Qed.

(** The transactions that the pool has yielded. *)
Definition yielded (e : event BuildSig) : bool :=
  match e with
  | existT c r => match c return reply BuildSig c -> bool with NextTx => fun r => bool_decide (is_Some r) | _ => fun _ => false end r
  end.

Lemma best_loop_fuel verified scalar prev fuel : forall st tr,
  runs (best_loop verified scalar prev fuel st) tr None -> (fuel <= length (List.filter yielded tr))%nat.
Proof.
  induction fuel as [|fuel IH]; intros st tr; cbn [best_loop]; [lia|]. intros (next&tr'&->&Hr).
  destruct next as [t|]; [|by destruct Hr]. cbn [List.filter]. rewrite (eq_refl : yielded (ev (NextTx : call BuildSig) (Some t)) = true).
  cbn [length bind run_call] in *. destruct (bool_decide _); [apply IH in Hr; lia|].
  apply runs_bind in Hr as (t1&t2&[st'|stop]&->&_&Hr); [|by destruct Hr]. apply IH in Hr.
  rewrite List.filter_app, length_app. lia.
Qed.

(** The loop ends: it runs out of fuel only if the pool yields at least as many
    transactions as there is fuel. *)
Theorem builder_terminates fuel prev info effective_gas_limit bytes0 tr :
  runs (execute_best_transactions fuel prev info effective_gas_limit bytes0) tr None ->
  (fuel <= length (List.filter yielded tr))%nat.
Proof.
  intros (t1&t2&[scalar|e]&->&_&Hr)%runs_bind; [|by destruct Hr]. rewrite List.filter_app, length_app.
  apply runs_bind in Hr as (t3&t4&out&->&Hl&Hr). rewrite List.filter_app, length_app.
  destruct out as [[st|[|e]]|]; try by destruct Hr.
  - apply runs_bind in Hr as (?&?&?&_&_&Hr). by destruct Hr.
  - apply best_loop_fuel in Hl. lia.
Qed.

(** ** The gas that is kept back *)

(** The nullifiers of a list of payloads that are new to the set. *)
Lemma insert_until_duplicate_size ps : forall spent spent', insert_until_duplicate spent ps = (false, spent') ->
  size spent' = (size spent + length ps)%nat.
Proof.
  induction ps as [|p ps IH]; intros spent spent'; cbn [insert_until_duplicate]; [intros [= <-]; simpl; lia|].
  case_bool_decide as Hn; [done|]. intros ->%IH. rewrite size_union by set_solver. rewrite size_singleton. simpl. lia.
Qed.

(** What is kept back covers the transaction at the end of the block, and no more. *)
Definition reserved (limit0 : Z) (st : LoopState) : Prop :=
  ls_limit st = if bool_decide (ls_spent st = ∅) then limit0 else wrap64 (limit0 - dyn_gas_limit (Z.of_nat (size (ls_spent st)))).

(** A transaction with priority whose execution failed. *)
Definition priority_failed (e : event BuildSig) : Prop :=
  match exec_of e with Some (FromPool t, Err _) => is_Some (tx_payload (bt_tx t)) | _ => False end.

Definition payloads_nonempty (e : event BuildSig) : Prop :=
  match exec_of e with Some (FromPool t, _) => tx_payload (bt_tx t) <> Some [] | _ => True end.

Lemma wrap64_minus a b : wrap64 (a - wrap64 b) = wrap64 (a - b).
Proof. unfold wrap64. apply Zminus_mod_idemp_r. Qed.

(** The reservation after a transaction whose nullifiers were all new. *)
Lemma reserve_step limit0 st spent ps : wrap64 limit0 = limit0 -> ps <> [] -> reserved limit0 st ->
  size spent = (size (ls_spent st) + length ps)%nat ->
  reserve (with_spent st spent) ps = wrap64 (limit0 - dyn_gas_limit (Z.of_nat (size spent))).
Proof.
  intros H0 Hne Hr Hsize. unfold reserve, reserved, dyn_gas_limit in *. cbn [with_spent ls_spent ls_limit].
  rewrite wrap64_minus. destruct (Nat.eqb_spec (size spent) (length ps)) as [Heq|Hneq].
  - assert (ls_spent st = ∅) as He by (apply leibniz_equiv, size_empty_inv; lia). rewrite bool_decide_true in Hr by done.
    rewrite Hr, Heq. unfold wrap64. rewrite Zminus_mod_idemp_l. f_equal. lia.
  - assert (ls_spent st <> ∅) as Hn by (intros He; rewrite He, size_empty in Hsize; lia). rewrite bool_decide_false in Hr by done.
    rewrite Hr, Hsize, wrap64_minus. unfold wrap64. rewrite Zminus_mod_idemp_l. f_equal. lia.
Qed.

Lemma execute_one_limit t st tr st' : runs (execute_one t st) tr (inl st') -> Forall (fun e => ~ priority_failed e) tr ->
  Forall payloads_nonempty tr ->
  ls_spent st' = ls_spent st /\ ls_invalid st' = ls_invalid st /\
  match tx_payload (bt_tx t) with
  | Some ps => ps <> [] /\ ls_limit st' = reserve st ps
  | None => ls_limit st' = ls_limit st
  end.
Proof.
  intros (r&tr'&->&Hr) Hf Hne. inversion_clear Hf as [|? ? Hf1 _]. inversion_clear Hne as [|? ? Hn1 _].
  unfold priority_failed, payloads_nonempty in *. cbn [exec_of ev] in *.
  destruct r as [[gas evm_gas]|e]; cbn [bind] in Hr.
  - destruct Hr as [_ Heq]. destruct (commit_changes _ _ _ _ _) as [info|]; [|done]. injection Heq as ->. split; [done|]. split; [done|].
    destruct (tx_payload (bt_tx t)) as [ps|]; [|done]. split; [congruence|done].
  - assert (tx_payload (bt_tx t) = None) as -> by (by apply eq_None_not_Some). cbn [bind] in Hr.
    destruct e as [| |m]; [by destruct Hr as [_ [= ->]]| |by destruct Hr]. by destruct Hr as (?&?&->&_&[= ->]).
Qed.

Lemma marked_same t st tr st' : runs (do _u <- mark_invalid t; Ret (inl st : LoopState + Stop)) tr (inl st') -> st' = st.
Proof. by intros (?&?&->&_&[= ->]). Qed.

Lemma consider_reserved limit0 verified scalar t st tr st' : wrap64 limit0 = limit0 ->
  runs (consider verified scalar t st) tr (inl st') -> Forall (fun e => ~ priority_failed e) tr -> Forall payloads_nonempty tr ->
  ls_invalid st `prefix_of` ls_invalid st' /\ (reserved limit0 st -> ls_invalid st' = ls_invalid st -> reserved limit0 st').
Proof.
  intros H0 Hr Hf Hne. unfold consider in Hr.
  destruct (match block_uncompressed_size_limit ctx with Some limit => _ | None => false end); [by apply marked_same in Hr as ->|].
  destruct (is_tx_over_limits _ _ _ _ _ _ _ _ _); [by apply marked_same in Hr as ->|].
  destruct (bt_is_eip4844 t || bt_is_deposit t); [by apply marked_same in Hr as ->|].
  destruct Hr as (cancelled&tr'&->&Hr). inversion_clear Hf as [|? ? _ Hf']. inversion_clear Hne as [|? ? _ Hne'].
  destruct cancelled; [by destruct Hr|]. cbn [bind run_call] in Hr.
  destruct (tx_payload (bt_tx t)) as [ps|] eqn:Hpl.
  2: { apply execute_one_limit in Hr as (Hs&Hi&Hl); [|done..]. rewrite Hpl in Hl. unfold reserved. by rewrite Hs, Hi, Hl. }
  destruct (verified <? _); [by apply marked_same in Hr as ->|].
  destruct (insert_until_duplicate (ls_spent st) ps) as [dup spent] eqn:Hins. destruct dup.
  { apply marked_same in Hr as ->. cbn [with_invalid ls_invalid]. split; [by eexists|]. intros _ Hi.
    apply (f_equal length) in Hi. rewrite length_app in Hi. simpl in Hi. lia. }
  apply execute_one_limit in Hr as (Hs&Hi&Hl); [|done..]. rewrite Hpl in Hl. destruct Hl as [Hn Hl].
  rewrite Hi. split; [done|]. intros Hres _. unfold reserved. rewrite Hs, Hl. cbn [with_spent ls_spent].
  apply insert_until_duplicate_size in Hins. rewrite (reserve_step limit0) by done.
  rewrite bool_decide_false; [done|]. intros ->. rewrite size_empty in Hins. destruct ps; [done|simpl in Hins; lia].
Qed.

Lemma best_loop_reserved limit0 verified scalar prev fuel : wrap64 limit0 = limit0 -> forall st tr st',
  runs (best_loop verified scalar prev fuel st) tr (Some (inl st')) -> Forall (fun e => ~ priority_failed e) tr ->
  Forall payloads_nonempty tr ->
  ls_invalid st `prefix_of` ls_invalid st' /\ (reserved limit0 st -> ls_invalid st' = ls_invalid st -> reserved limit0 st').
Proof.
  intros H0. induction fuel as [|fuel IH]; intros st tr st'; cbn [best_loop]; [by intros [_ ?]|].
  intros (next&tr'&->&Hr) Hf Hne. inversion_clear Hf as [|? ? _ Hf']. inversion_clear Hne as [|? ? _ Hne'].
  destruct next as [t|]; [|by destruct Hr as [_ [= ->]]]. cbn [bind run_call] in Hr.
  destruct (bool_decide _); [by apply (IH st tr')|].
  apply runs_bind in Hr as (t1&t2&[st1|stop]&->&Hc&Hr); [|by destruct Hr].
  apply Forall_app in Hf' as [Hf1 Hf2]. apply Forall_app in Hne' as [Hn1 Hn2].
  destruct (consider_reserved limit0 _ _ _ _ _ _ H0 Hc Hf1 Hn1) as [Hp1 Hr1].
  destruct (IH st1 t2 st' Hr Hf2 Hn2) as [Hp2 Hr2]. cbn [with_observed ls_invalid] in Hp1.
  split; [by etrans|]. intros Hres Hi. rewrite Hi in Hp2. assert (ls_invalid st1 = ls_invalid st) as Hi1 by (by apply (anti_symm prefix)).
  apply Hr2; [|congruence]. apply Hr1; [exact Hres|done].
Qed.

(** If no transaction with priority failed or repeated a nullifier, then the gas limit
    that is left to the pool's transactions is the block's less exactly the gas limit of
    the transaction that spends the nullifiers. *)
Theorem reservation_exact limit0 scalar prev fuel info bytes0 tr st :
  0 <= limit0 < 2 ^ 64 ->
  runs (best_loop (verified_limit limit0) scalar prev fuel (loop_start info limit0 bytes0)) tr (Some (inl st)) ->
  Forall (fun e => ~ priority_failed e) tr -> Forall payloads_nonempty tr -> ls_invalid st = [] ->
  ls_limit st = if bool_decide (ls_spent st = ∅) then limit0 else wrap64 (limit0 - dyn_gas_limit (Z.of_nat (size (ls_spent st)))).
Proof.
  intros H0 Hr Hf Hn Hi. apply (best_loop_reserved limit0) in Hr as [_ Hr]; [|by apply Z.mod_small|done..].
  apply Hr; [done|exact Hi].
Qed.
End builder.

(** ** Blocks that were built *)

(** The pool yields a list; the EVM answers by the transaction's hash. *)
Definition queue_world (results : B256 -> result (Z * Z) ExecError) : handler BuildSig (list BestTx) := fun c q =>
  match c return reply BuildSig c * list BestTx with
  | NextTx => (head q, tail q)
  | MarkInvalid _ _ => (tt, q)
  | IsCancelled => (false, q)
  | DaFootprintScalar => (Ok 1, q)
  | Execute (FromPool t) => (results (tx_hash (bt_tx t)), q)
  | Execute (Spend _ _) => (Ok (120000, 120000), q)
  | BuilderNonce _ => (Ok (Some 4), q)
  | SignSpend _ => (Ok [1], q)
  | RemoveTransactions _ => (tt, q)
  end.

Definition ex_ctx : BuilderCtx :=
  {| verified_blockspace_capacity := 70; pbh_entry_point := 60; builder_address := 50; block_uncompressed_size_limit := Some 10000;
     max_da_block_size := None; max_da_tx_size := None; base_fee := 1; ctx_chain_id := 480; jovian_active := false |}.
Definition no_limits (_ : ExecutionInfo) (_ _ : Z) (_ _ : option Z) (_ : Z) (_ : option Z) (_ : Z) (_ : option Z) : bool := false.
Definition ex_info : ExecutionInfo :=
  {| cumulative_gas_used := 50000; cumulative_evm_gas_used := 50000; cumulative_da_bytes_used := 0; info_uncompressed_bytes := 0;
     total_fees := 0 |}.
Definition ex_nullifier (hash : Field) : PBHPayload :=
  {| external_nullifier := v1 3 2026 0; nullifier_hash := hash; pbh_root := 2; pbh_proof := [] |}.
Definition ex_best (hash : B256) (gas : Z) (payload : option (list Field)) : BestTx :=
  {| bt_tx := {| tx_hash := hash; tx_to := Some 60; tx_input := []; tx_gas_limit := gas; tx_sender := 8; tx_nonce := hash;
                 tx_tip _ := Some 1; tx_payload := map ex_nullifier <$> payload |};
     bt_da_size := 100; bt_encoded_len := 100; bt_is_eip4844 := false; bt_is_deposit := false |}.

Abbreviation ex_execute := (execute_best_transactions ex_ctx no_limits (fun _ _ => 100) 9 ∅ ex_info 30000000 1000).
Definition all_executed (_ : B256) : result (Z * Z) ExecError := Ok (400000, 400000).
Definition ex_queue : list BestTx := [ex_best 1 500000 (Some [11]); ex_best 2 500000 (Some [12; 11]); ex_best 3 500000 None].

Lemma ex_runs : runs ex_execute (trace_of (queue_world all_executed) ex_execute ex_queue)
  (value_of (queue_world all_executed) ex_execute ex_queue).
Proof. apply interp_runs. Qed.


Lemma nullifiers_are_spent_witness : all_spent (trace_of (queue_world all_executed) ex_execute ex_queue).
Proof.
  apply (nullifiers_are_spent ex_ctx no_limits (fun _ _ => 100) 9 ∅ ex_info 30000000 1000 _
    {| cumulative_gas_used := 970000; cumulative_evm_gas_used := 970000; cumulative_da_bytes_used := 300; info_uncompressed_bytes := 0;
       total_fees := 800000 |}).
  replace (Some (Ok (Some _))) with (value_of (queue_world all_executed) ex_execute ex_queue) by (vm_compute; reflexivity).
  exact ex_runs.
Defined.

(** The nullifiers of executed transactions, and those that are spent. *)
Definition executed_nullifiers (tr : list (event BuildSig)) : list Field :=
  concat (omap (fun e => match exec_of e with
                         | Some (FromPool t, Ok _) => map nullifier_hash <$> tx_payload (bt_tx t)
                         | _ => None
                         end) tr).
Definition spent_nullifiers (tr : list (event BuildSig)) : list Field :=
  concat (omap (fun e => match exec_of e with Some (Spend s _, _) => Some (sp_hashes s) | _ => None end) tr).

(** A transaction that is refused for repeating a nullifier leaves the nullifiers before
    that one in the set, so that they are spent although the transaction is not in the
    block. *)
Theorem refused_nullifier_is_spent :
  let tr := trace_of (queue_world all_executed) ex_execute ex_queue in
  executed_nullifiers tr = [11] /\ 12 ∈ spent_nullifiers tr.
Proof. split; [vm_compute; reflexivity|]. apply (bool_decide_unpack _). vm_compute. exact I. Qed.

(** A transaction with priority whose execution fails leaves its nullifiers in the set;
    the next one is then not seen as the first, and the fixed part of the gas of the
    spending transaction is not kept back. *)
Theorem reservation_missed :
  let results h := if h =? 1 then Err InvalidTransaction else Ok (400000, 400000) in
  let loop := best_loop ex_ctx no_limits 21000000 None ∅ 9 (loop_start ex_info 30000000 1000) in
  match value_of (queue_world results) loop [ex_best 1 500000 (Some [11]); ex_best 2 500000 (Some [12])] with
  | Some (inl st) => 30000000 - ls_limit st = 20000 /\ dyn_gas_limit (Z.of_nat (size (ls_spent st))) = 140000
  | _ => False
  end.
Proof. vm_compute. by split. Qed.

Lemma reservation_exact_witness :
  let loop := best_loop ex_ctx no_limits 21000000 None ∅ 9 (loop_start ex_info 30000000 1000) in
  exists st, value_of (queue_world all_executed) loop [ex_best 1 500000 (Some [11]); ex_best 2 500000 (Some [12])] = Some (inl st) /\
    ls_limit st = wrap64 (30000000 - dyn_gas_limit 2).
Proof.
  set (q := [ex_best 1 500000 (Some [11]); ex_best 2 500000 (Some [12])]). intros loop.
  destruct (value_of (queue_world all_executed) loop q) as [[st|]|] eqn:Hv; [|vm_compute in Hv; discriminate Hv..].
  exists st. split; [reflexivity|].
  rewrite (reservation_exact ex_ctx no_limits 30000000 None ∅ 9 ex_info 1000 (trace_of (queue_world all_executed) loop q) st).
  - vm_compute in Hv. injection Hv as <-. vm_compute. reflexivity.
  - lia.
  - rewrite <-Hv. apply interp_runs.
  - vm_compute. repeat constructor; intros [].
  - vm_compute. repeat constructor; discriminate.
  - vm_compute in Hv. by injection Hv as <-.
Defined.

(** ** Continuations *)

Definition frame_world : handler FrameSig unit := fun c w =>
  match c return reply FrameSig c * unit with
  | PreExecutionChanges => (Ok tt, w)
  | ExecuteSequencerTransactions => (Ok ex_info, w)
  | IsBetterPayload _ => (true, w)
  | FinishBlock => (Ok 1, w)
  | ReceiveAccessList => (Ok [], w)
  end.

Definition ex_committed : Committed :=
  {| cm_fees := 0; cm_gas_used := 15000000; cm_evm_gas_used := 15000000; cm_txs := [] |}.

(** The share of a continuation is one of the gas that is left, but it is compared with
    the gas of the whole block: with half of the block used, a share of 70 percent of
    the block admits no transaction with priority any more, although the block is below
    70 percent. *)
Theorem continuation_refuses_priority :
  let build := build ex_ctx no_limits (fun _ _ => 100) 9 30000000 true false {| at_no_tx_pool := false; at_transaction_lens := [] |}
    (Some ex_committed) in
  let tr := trace_of (beside (queue_world all_executed) frame_world) build ([ex_best 1 500000 (Some [11])], tt) in
  (15000000 + 500000) * 100 <= 70 * 30000000 /\
  Forall (fun e => match projT1 e with inl (Execute _) => False | _ => True end) tr /\
  ev (inl (MarkInvalid 8 1) : call (BuildSig ⊕ FrameSig)) tt ∈ tr.
Proof. split; [lia|]. split; [vm_compute; repeat constructor|]. vm_compute. by repeat constructor. Qed.
