(* ===== verification/AccessList.v ===== *)
(** * Access lists of flashblocks
    ([src/crates/primitives/src/access_list.rs])

    A flashblock may carry the list of the accounts and slots that its transactions
    touch, with the values that they leave behind.  A validator computes the state root
    from that list, without waiting for the execution.  The hash, the rule for empty
    accounts, the state of the parent block and alloy's summary of the storage changes
    are parameters. *)

From S2P Require Import Prelude Encoding ProofTypes.

(** [Option::or] *)
Definition or_else {A} (o o' : option A) : option A := match o with Some a => Some a | None => o' end.

(** ** Data *)

(** One recorded value of alloy's [BalanceChange], [NonceChange], [CodeChange] and
    [StorageChange]: the index in the block after which it holds, and the value. *)
Record Change (V : Type) := { block_access_index : Z; new_value : V }.
Arguments Build_Change {V} _ _.
Arguments block_access_index {V} _.
Arguments new_value {V} _.

#[export] Instance Change_eq_dec `{EqDecision V} : EqDecision (Change V).
Proof. solve_decision. Defined.

Record SlotChanges := { slot : Z; slot_changes : list (Change Z) }.
#[export] Instance SlotChanges_eq_dec : EqDecision SlotChanges.
Proof. solve_decision. Defined.

Record AccountChanges := {
  ca_address : Address;
  storage_changes : list SlotChanges;
  storage_reads : list Z;
  balance_changes : list (Change Z);
  nonce_changes : list (Change Z);
  code_changes : list (Change bytes)
}.
#[export] Instance AccountChanges_eq_dec : EqDecision AccountChanges.
Proof. solve_decision. Defined.

Record FlashblockAccessList := {
  changes : list AccountChanges;
  min_tx_index : Z;
  max_tx_index : Z
}.
#[export] Instance FlashblockAccessList_eq_dec : EqDecision FlashblockAccessList.
Proof. solve_decision. Defined.

Record FlashblockAccessListData := {
  access_list : FlashblockAccessList;
  access_list_hash : B256
}.
#[export] Instance FlashblockAccessListData_eq_dec : EqDecision FlashblockAccessListData.
Proof. solve_decision. Defined.

(** [reth_primitives_traits::Account] *)
Record Account := { acc_nonce : Z; acc_balance : Z; bytecode_hash : option B256 }.
#[export] Instance Account_eq_dec : EqDecision Account.
Proof. solve_decision. Defined.

(** [reth_trie_common::HashedPostState]; an account that is destroyed is [Some None]. *)
Record HashedPostState := {
  accounts : gmap B256 (option Account);
  storages : gmap B256 (gmap B256 Z)
}.

Section access_list.
Context (keccak256 : bytes -> B256) (is_empty : Account -> bool)
  (storage_post_states : AccountChanges -> list (Z * Z))
  (rlp_access_list : FlashblockAccessList -> bytes).

(** [access_list_hash] *)
Definition hash_of (l : FlashblockAccessList) : B256 := keccak256 (rlp_access_list l).

Definition latest {V} (l : list (Change V)) : option V := new_value <$> max_by_key block_access_index l.

Definition has_changes (c : AccountChanges) : bool :=
  negb (bool_decide (storage_changes c = []) && bool_decide (balance_changes c = []) &&
        bool_decide (nonce_changes c = []) && bool_decide (code_changes c = [])).

Definition account_post_state (c : AccountChanges) (pre : option Account) : option Account :=
  if has_changes c then
    let balance := latest (balance_changes c) in
    let nonce := latest (nonce_changes c) in
    let code := keccak256 <$> latest (code_changes c) in
    Some {| acc_balance := from_option id 0 (or_else balance (acc_balance <$> pre));
            acc_nonce := from_option id 0 (or_else nonce (acc_nonce <$> pre));
            bytecode_hash := or_else code (pre ≫= bytecode_hash) |}
  else None.

Definition hashed_address (a : Address) : B256 := keccak256 (be_bytes 20 a).
Definition hashed_slot (s : Z) : B256 := keccak256 (be_bytes 32 s).

(** the slots that a list of changes leaves behind *)
Definition hashed_storage (c : AccountChanges) : gmap B256 Z :=
  foldl (fun m '(s, v) => <[hashed_slot s := v]> m) ∅ (storage_post_states c).

(** [HashedPostState], with the changes of one account *)
Definition extend_account (c : AccountChanges) (pre : option Account) (st : HashedPostState) : HashedPostState :=
  let h := hashed_address (ca_address c) in
  match account_post_state c pre with
  | None => st
  | Some account =>
      let destroyed := is_empty account in
      let accounts' := <[h := if destroyed then None else Some account]> (accounts st) in
      let cleared := if destroyed then alter (fmap (fun _ => 0)) h (storages st) else storages st in
      let storage := hashed_storage c in
      {| accounts := accounts';
         storages :=
           if bool_decide (storage = ∅) then cleared
           else <[h := match cleared !! h with Some committed => storage ∪ committed | None => storage end]> cleared |}
  end.

Context {E : Type} (basic_account : Address -> result (option Account) E).

Definition needs_pre (c : AccountChanges) : bool :=
  bool_decide (balance_changes c = []) || bool_decide (nonce_changes c = []) || bool_decide (code_changes c = []).

Definition pre_account (c : AccountChanges) (st : HashedPostState) : result (option Account) E :=
  if needs_pre c then
    match accounts st !! hashed_address (ca_address c) with
    | Some account => Ok account
    | None => basic_account (ca_address c)
    end
  else Ok None.

(** [FlashblockAccessList::into_hashed_post_state] *)
Fixpoint into_hashed_post_state (l : list AccountChanges) (st : HashedPostState) : result HashedPostState E :=
  match l with
  | [] => Ok st
  | c :: l => let? pre := pre_account c st in into_hashed_post_state l (extend_account c pre st)
  end.

(** ** What the list says

    A field has the value of its latest change, or its old one. *)

Definition latest_of {V} (l : list (Change V)) (v : V) : Prop :=
  exists ch, ch ∈ l /\ new_value ch = v /\ forall ch', ch' ∈ l -> block_access_index ch' <= block_access_index ch.

Record account_updated (c : AccountChanges) (old : option Account) (account : Account) : Prop := {
  balance_updated : latest_of (balance_changes c) (acc_balance account) \/
    balance_changes c = [] /\ acc_balance account = from_option acc_balance 0 old;
  nonce_updated : latest_of (nonce_changes c) (acc_nonce account) \/
    nonce_changes c = [] /\ acc_nonce account = from_option acc_nonce 0 old;
  code_updated : (exists code, latest_of (code_changes c) code /\ bytecode_hash account = Some (keccak256 code)) \/
    code_changes c = [] /\ bytecode_hash account = old ≫= bytecode_hash
}.

(** The account after the changes; an empty account does not exist. *)
Definition account_changed (c : AccountChanges) (old new : option Account) : Prop :=
  if has_changes c then
    exists account, account_updated c old account /\ new = if is_empty account then None else Some account
  else new = old.

(** The account at an address: as the block has left it so far, or as it was before. *)
Definition account_at (parent : Address -> option Account) (st : HashedPostState) (a : Address) : option Account :=
  from_option id (parent a) (accounts st !! hashed_address a).

(** The slots of an account that the block has written so far *)
Definition written (st : HashedPostState) (a : Address) : gmap B256 Z :=
  from_option id ∅ (storages st !! hashed_address a).

(** The last value that a list of slots gives to a slot *)
Definition last_value (l : list (Z * Z)) (s : Z) : option Z := snd <$> last (filter (fun p => p.1 = s) l).

Lemma latest_Some {V} (l : list (Change V)) v : latest l = Some v -> latest_of l v.
Proof.
  unfold latest. intros (ch&[Hin H]%max_by_key_Some&->)%fmap_Some. exists ch. split; [done|]. split; [done|].
  by rewrite Forall_forall in H.
Qed.

Lemma latest_None {V} (l : list (Change V)) : latest l = None <-> l = [].
Proof. unfold latest, max_by_key. by rewrite fmap_None, max_by_None. Qed.

Lemma post_state_updated c pre old account :
  (needs_pre c = true -> pre = old) ->
  account_post_state c pre = Some account -> has_changes c = true /\ account_updated c old account.
Proof.
  intros Hpre. unfold account_post_state. destruct (has_changes c); [|done]. intros [= <-].
  split; [done|]. unfold needs_pre in Hpre.
  split; simpl.
  - destruct (latest (balance_changes c)) eqn:Hl; [left; by apply latest_Some|].
    apply latest_None in Hl. right. split; [done|]. rewrite Hpre by by rewrite Hl. by destruct old.
  - destruct (latest (nonce_changes c)) eqn:Hl; [left; by apply latest_Some|].
    apply latest_None in Hl. right. split; [done|]. rewrite Hpre by (rewrite Hl; by destruct (bool_decide (balance_changes c = []))).
    by destruct old.
  - destruct (latest (code_changes c)) as [code|] eqn:Hl.
    + left. exists code. split; [by apply latest_Some|done].
    + apply latest_None in Hl. right. split; [done|].
      rewrite Hpre by (rewrite Hl; by rewrite orb_comm). simpl. by destruct old.
Qed.

Lemma hashed_storage_lookup c s :
  (forall p, p ∈ storage_post_states c -> hashed_slot p.1 = hashed_slot s -> p.1 = s) ->
  hashed_storage c !! hashed_slot s = last_value (storage_post_states c) s.
Proof.
  unfold hashed_storage, last_value. generalize (storage_post_states c) as l.
  induction l as [|[s' v] l IH] using rev_ind; intros Hinj; [done|].
  rewrite foldl_snoc, filter_app, filter_cons. simpl. rewrite filter_nil. destruct (decide (s' = s)) as [->|Hs].
  - by rewrite lookup_insert_eq, last_snoc.
  - rewrite lookup_insert_ne; [|intros Hh; apply Hs, (Hinj (s', v)); [set_solver|done]].
    rewrite app_nil_r. apply IH. intros p Hp. apply Hinj. set_solver.
Qed.

Lemma extend_account_other c pre st a :
  hashed_address (ca_address c) <> hashed_address a ->
  accounts (extend_account c pre st) !! hashed_address a = accounts st !! hashed_address a /\
  storages (extend_account c pre st) !! hashed_address a = storages st !! hashed_address a.
Proof.
  intros Hne. unfold extend_account. destruct (account_post_state c pre) as [account|]; [|done]. simpl.
  rewrite lookup_insert_ne by done. split; [done|].
  case_bool_decide; rewrite ?lookup_insert_ne by done; destruct (is_empty account); by rewrite ?lookup_alter_ne.
Qed.

(** What the changes of an account do to a slot that the block has written: a new
    value replaces it, and the slots of an account that goes are zero. *)
Definition slots_changed (c : AccountChanges) (gone : bool) (s : Z) (old new : option Z) : Prop :=
  if has_changes c then
    new = match last_value (storage_post_states c) s with
          | Some v => Some v
          | None => if gone then (fun _ => 0) <$> old else old
          end
  else new = old.

Definition slots_distinct (c : AccountChanges) (s : Z) : Prop :=
  forall p, p ∈ storage_post_states c -> hashed_slot p.1 = hashed_slot s -> p.1 = s.

Lemma extend_account_storage c pre st account s :
  account_post_state c pre = Some account -> slots_distinct c s ->
  written (extend_account c pre st) (ca_address c) !! hashed_slot s =
    match last_value (storage_post_states c) s with
    | Some v => Some v
    | None => let old := written st (ca_address c) !! hashed_slot s in
              if is_empty account then (fun _ => 0) <$> old else old
    end.
Proof.
  intros Hp Hs. unfold written, extend_account. rewrite Hp. cbn [storages].
  rewrite <-(hashed_storage_lookup c s Hs). set (h := hashed_address (ca_address c)).
  set (cleared := if is_empty account then _ else _).
  assert (Hc : from_option id ∅ (cleared !! h) !! hashed_slot s =
    let old := from_option id ∅ (storages st !! h) !! hashed_slot s in
    if is_empty account then (fun _ => 0) <$> old else old).
  { unfold cleared. destruct (is_empty account); [|done]. rewrite lookup_alter_eq.
    destruct (storages st !! h); simpl; [by rewrite lookup_fmap|by rewrite lookup_empty]. }
  case_bool_decide as He.
  - by rewrite He, lookup_empty, Hc.
  - rewrite lookup_insert_eq. cbn [from_option id]. destruct (cleared !! h) as [m|]; simpl in Hc |- *.
    + rewrite lookup_union, <-Hc. by destruct (hashed_storage c !! _), (m !! _).
    + rewrite lookup_empty in Hc. rewrite <-Hc. by destruct (hashed_storage c !! _).
Qed.

Lemma extend_account_same parent c pre st :
  (needs_pre c = true -> pre = account_at parent st (ca_address c)) ->
  let new := account_at parent (extend_account c pre st) (ca_address c) in
  account_changed c (account_at parent st (ca_address c)) new /\
  (forall s, slots_distinct c s ->
     slots_changed c (bool_decide (new = None)) s (written st (ca_address c) !! hashed_slot s)
       (written (extend_account c pre st) (ca_address c) !! hashed_slot s)).
Proof.
  intros Hpre new. unfold account_changed, slots_changed. destruct (account_post_state c pre) as [account|] eqn:Hp.
  - destruct (post_state_updated c pre _ account Hpre Hp) as [-> Hu].
    assert (Hnew : new = if is_empty account then None else Some account).
    { unfold new, account_at, extend_account. rewrite Hp. simpl. by rewrite lookup_insert_eq. }
    split; [by exists account|]. intros s Hs. rewrite (extend_account_storage c pre st account s Hp Hs), Hnew.
    by destruct (is_empty account).
  - assert (has_changes c = false) as ->.
    { unfold account_post_state in Hp. by destruct (has_changes c). }
    unfold new, extend_account. by rewrite Hp.
Qed.

Context (parent : Address -> option Account) (parent_read : forall a, basic_account a = Ok (parent a)).

Lemma pre_account_read c st :
  exists pre, pre_account c st = Ok pre /\ (needs_pre c = true -> pre = account_at parent st (ca_address c)).
Proof.
  unfold pre_account, account_at. destruct (needs_pre c); [|by exists None].
  destruct (accounts st !! _) as [acc|]; [by exists acc|]. rewrite parent_read. by exists (parent (ca_address c)).
Qed.

(** C36: The state that the validator takes the root of, without executing anything, is the
    one that the access list describes: every account has, field by field, the value of
    the change with the greatest index, or what it had before; accounts that end empty
    are gone; slots have their last values; all that is not listed is unchanged. *)
Theorem access_list_post_state l : forall st a,
  NoDup (ca_address <$> l) ->
  (forall c, c ∈ l -> hashed_address (ca_address c) = hashed_address a -> ca_address c = a) ->
  exists st', into_hashed_post_state l st = Ok st' /\
  (forall c, c ∈ l -> ca_address c = a ->
     account_changed c (account_at parent st a) (account_at parent st' a) /\
     forall s, slots_distinct c s ->
       slots_changed c (bool_decide (account_at parent st' a = None)) s (written st a !! hashed_slot s)
         (written st' a !! hashed_slot s)) /\
  (a ∉ ca_address <$> l -> account_at parent st' a = account_at parent st a /\ written st' a = written st a).
Proof.
  induction l as [|c l IH]; intros st a Hnd Hinj.
  { exists st. repeat split; set_solver. }
  destruct (pre_account_read c st) as (pre&Hpre&Hold). simpl. rewrite Hpre. simpl.
  apply NoDup_cons in Hnd as [Hc Hnd].
  destruct (IH (extend_account c pre st) a Hnd) as (st'&->&Hin&Hout); [set_solver|].
  exists st'. split; [done|]. destruct (decide (ca_address c = a)) as [<-|Hne].
  - destruct (Hout Hc) as [Ha Hw]. split; [|set_solver]. intros c' [->|Hc']%elem_of_cons Haddr.
    + rewrite Ha, Hw. by apply extend_account_same.
    + destruct Hc. rewrite <-Haddr. by apply list_elem_of_fmap_2.
  - destruct (extend_account_other c pre st a) as [Ha Hs].
    { intros Hh. apply Hne, Hinj; [set_solver|done]. }
    assert (account_at parent (extend_account c pre st) a = account_at parent st a) as Haa by (unfold account_at; by rewrite Ha).
    assert (written (extend_account c pre st) a = written st a) as Hww by (unfold written; by rewrite Hs).
    rewrite Haa, Hww in *. split; [|set_solver].
    intros c' [->|Hc']%elem_of_cons Haddr; [done|by apply Hin].
Qed.
End access_list.

(** ** An example *)

Definition ex_changes : AccountChanges :=
  {| ca_address := 5; storage_changes := []; storage_reads := [1];
     balance_changes := [Build_Change 7 70; Build_Change 3 30]; nonce_changes := []; code_changes := [] |}.

Definition ex_parent (a : Address) : option Account :=
  if a =? 5 then Some {| acc_nonce := 2; acc_balance := 9; bytecode_hash := None |} else None.

Lemma access_list_post_state_witness :
  exists st', into_hashed_post_state be_val (fun _ => false) (fun _ => []) (fun a => Ok (E := unit) (ex_parent a))
    [ex_changes] {| accounts := ∅; storages := ∅ |} = Ok st' /\
  account_changed be_val (fun _ => false) ex_changes (ex_parent 5) (account_at be_val ex_parent st' 5).
Proof.
  destruct (access_list_post_state be_val (fun _ => false) (fun _ => []) (fun a => Ok (E := unit) (ex_parent a)) ex_parent
    (fun _ => eq_refl) [ex_changes] {| accounts := ∅; storages := ∅ |} 5) as (st'&Hr&Hin&_).
  - apply NoDup_singleton.
  - intros c ->%list_elem_of_singleton _. reflexivity.
  - exists st'. split; [exact Hr|]. apply (Hin ex_changes); [by left|reflexivity].
Defined.
