(* ===== verification/Flashblocks.v ===== *)
(** * Flashblocks
    ([src/crates/primitives/src]: [primitives.rs], [flashblocks.rs], [payload_id.rs])

    A block is published in pieces while it is built.  A flashblock carries what the
    block has gained since the last one; the first one also carries the part of the
    header that does not change.  The pieces are collected, checked and put together
    again.  A transaction is any type with an encoding; the trie root, the decoder and
    the recovery of senders are parameters. *)

From S2P Require Import Prelude Encoding ProofTypes AccessList.

(** ** Data *)

(** The eight bytes of a [PayloadId] *)
Abbreviation PayloadId := bytes (only parsing).

(** [alloy_eips::eip4895::Withdrawal] *)
Record Withdrawal := { wd_index : Z; validator_index : Z; wd_address : Address; amount : Z }.
#[export] Instance Withdrawal_eq_dec : EqDecision Withdrawal.
Proof. solve_decision. Defined.

Record ExecutionPayloadFlashblockDeltaV1 := {
  fd_state_root : B256;
  fd_receipts_root : B256;
  fd_logs_bloom : bytes;
  fd_gas_used : Z;
  fd_block_hash : B256;
  fd_transactions : list bytes;
  fd_withdrawals : list Withdrawal;
  fd_withdrawals_root : B256;
  fd_access_list_data : option FlashblockAccessListData
}.
#[export] Instance Delta_eq_dec : EqDecision ExecutionPayloadFlashblockDeltaV1.
Proof. solve_decision. Defined.

Record ExecutionPayloadBaseV1 := {
  pb_parent_beacon_block_root : B256;
  pb_parent_hash : B256;
  pb_fee_recipient : Address;
  pb_prev_randao : B256;
  pb_block_number : Z;
  pb_gas_limit : Z;
  pb_timestamp : Z;
  pb_extra_data : bytes;
  pb_base_fee_per_gas : Z
}.
#[export] Instance Base_eq_dec : EqDecision ExecutionPayloadBaseV1.
Proof. solve_decision. Defined.

Record FlashblockMetadata := { md_fees : Z; md_flashblock_timestamp : option Z }.
#[export] Instance Metadata_eq_dec : EqDecision FlashblockMetadata.
Proof. solve_decision. Defined.

Record FlashblocksPayloadV1 := {
  fb_payload_id : PayloadId;
  fb_index : Z;
  fb_diff : ExecutionPayloadFlashblockDeltaV1;
  fb_metadata : FlashblockMetadata;
  fb_base : option ExecutionPayloadBaseV1
}.
#[export] Instance Payload_eq_dec : EqDecision FlashblocksPayloadV1.
Proof. solve_decision. Defined.

(** [Flashblock] wraps a single payload. *)
Abbreviation Flashblock := FlashblocksPayloadV1 (only parsing).

(** ** Payload identifiers *)

Definition OP_ENGINE_PAYLOAD_ID_V3 : Z := 3.
Definition OP_ENGINE_PAYLOAD_ID_V4 : Z := 4.

Definition payload_id_with_version (id : PayloadId) (version : Z) : PayloadId := <[0%nat := version]> id.

Definition force_op_payload_id_v3 (id : PayloadId) : PayloadId := payload_id_with_version id OP_ENGINE_PAYLOAD_ID_V3.

Definition op_reth_payload_id_v4_lookup (id : PayloadId) : PayloadId :=
  if bool_decide (id !! 0%nat = Some OP_ENGINE_PAYLOAD_ID_V3) then payload_id_with_version id OP_ENGINE_PAYLOAD_ID_V4
  else id.

(** The identifier that the node hands out leads back to the job that reth knows. *)
Lemma payload_id_lookup id :
  id !! 0%nat = Some OP_ENGINE_PAYLOAD_ID_V4 -> op_reth_payload_id_v4_lookup (force_op_payload_id_v3 id) = id.
Proof. destruct id as [|b id]; [done|]. by intros [= ->]. Qed.

(** ** From a built block to a flashblock *)

Section block.
Context {Tx : Type} (encoded_2718 : Tx -> bytes).

(** What the sources read of reth's sealed block *)
Record Block := {
  bl_number : Z;
  bl_gas_limit : Z;
  bl_extra_data : bytes;
  bl_base_fee_per_gas : option Z;
  bl_state_root : B256;
  bl_receipts_root : B256;
  bl_logs_bloom : bytes;
  bl_gas_used : Z;
  bl_hash : B256;
  bl_withdrawals_root : option B256;
  bl_transactions : list Tx;
  bl_withdrawals : option (list Withdrawal)
}.

(** [PayloadConfig<OpPayloadAttrs, Header>] *)
Record PayloadConfig := {
  cf_payload_id : PayloadId;
  cf_parent_hash : B256;
  cf_parent_beacon_block_root : option B256;
  cf_suggested_fee_recipient : Address;
  cf_prev_randao : B256;
  cf_timestamp : Z;
  cf_no_tx_pool : option bool
}.

Context (keccak256 : bytes -> B256) (rlp_access_list : FlashblockAccessList -> bytes).

Definition payload_base (block : Block) (config : PayloadConfig) : ExecutionPayloadBaseV1 :=
  {| pb_parent_beacon_block_root := from_option id 0 (cf_parent_beacon_block_root config);
     pb_parent_hash := cf_parent_hash config;
     pb_fee_recipient := cf_suggested_fee_recipient config;
     pb_prev_randao := cf_prev_randao config;
     pb_block_number := bl_number block;
     pb_gas_limit := bl_gas_limit block;
     pb_timestamp := cf_timestamp config;
     pb_extra_data := bl_extra_data block;
     pb_base_fee_per_gas := from_option id 0 (bl_base_fee_per_gas block) |}.

(** [Flashblock::new]; [now] is the clock in nanoseconds. *)
Definition flashblock_new (now : Z) (block : Block) (fees : Z) (config : PayloadConfig) (index : Z)
    (transactions_offset withdrawal_offset : nat) (al : option FlashblockAccessList) : Flashblock :=
  {| fb_payload_id := cf_payload_id config;
     fb_index := index;
     fb_base := if index =? 0 then Some (payload_base block config) else None;
     fb_diff :=
       {| fd_state_root := bl_state_root block;
          fd_receipts_root := bl_receipts_root block;
          fd_logs_bloom := bl_logs_bloom block;
          fd_gas_used := bl_gas_used block;
          fd_block_hash := bl_hash block;
          fd_transactions := encoded_2718 <$> drop transactions_offset (bl_transactions block);
          fd_withdrawals := drop withdrawal_offset (from_option id [] (bl_withdrawals block));
          fd_withdrawals_root := from_option id 0 (bl_withdrawals_root block);
          fd_access_list_data := (fun l => {| access_list := l; access_list_hash := hash_of keccak256 rlp_access_list l |}) <$> al |};
     fb_metadata := {| md_fees := fees; md_flashblock_timestamp := Some now |} |}.

(** ** Putting flashblocks together *)

Inductive FlashblocksError :=
| FlashblocksEmpty
| MissingBase
| DecodeTransaction (message : string)
| RecoverBlock (message : string)
| FirstWithoutBase
| DifferentPayloadId
| NotContiguous
| NewIndexNotZero
| NewWithoutBase
| NewTimestampNotLater.

Definition reduce_step (acc next : Flashblock) : Flashblock :=
  {| fb_payload_id := fb_payload_id acc;
     fb_index := fb_index next;
     fb_base := match fb_base acc with Some b => Some b | None => fb_base next end;
     fb_metadata := {| md_fees := md_fees (fb_metadata next);
                       md_flashblock_timestamp := md_flashblock_timestamp (fb_metadata next) |};
     fb_diff :=
       {| fd_state_root := fd_state_root (fb_diff next);
          fd_receipts_root := fd_receipts_root (fb_diff next);
          fd_logs_bloom := fd_logs_bloom (fb_diff next);
          fd_gas_used := fd_gas_used (fb_diff next);
          fd_block_hash := fd_block_hash (fb_diff next);
          fd_transactions := fd_transactions (fb_diff acc) ++ fd_transactions (fb_diff next);
          fd_withdrawals := fd_withdrawals (fb_diff acc) ++ fd_withdrawals (fb_diff next);
          fd_withdrawals_root := fd_withdrawals_root (fb_diff next);
          fd_access_list_data := fd_access_list_data (fb_diff acc) |} |}.

(** [Flashblock::reduce] *)
Definition reduce (l : list Flashblock) : result Flashblock FlashblocksError :=
  match l with
  | [] => Err FlashblocksEmpty
  | acc :: l => Ok (foldl reduce_step acc l)
  end.
End block.
Arguments Block Tx : clear implicits.

(** ** From a flashblock back to a block *)

(** The fields of [alloy_consensus::Header] that the source sets *)
Record Header := {
  hd_parent_beacon_block_root : option B256;
  hd_block_access_list_hash : option B256;
  hd_slot_number : option Z;
  hd_state_root : B256;
  hd_receipts_root : B256;
  hd_logs_bloom : bytes;
  hd_withdrawals_root : option B256;
  hd_parent_hash : B256;
  hd_base_fee_per_gas : option Z;
  hd_beneficiary : Address;
  hd_transactions_root : B256;
  hd_ommers_hash : B256;
  hd_blob_gas_used : option Z;
  hd_difficulty : Z;
  hd_number : Z;
  hd_gas_limit : Z;
  hd_gas_used : Z;
  hd_timestamp : Z;
  hd_extra_data : bytes;
  hd_mix_hash : B256;
  hd_nonce : Z;
  hd_requests_hash : option B256;
  hd_excess_blob_gas : option Z
}.

Section recovered.
Context {Tx : Type} (decode_2718_canonical : bytes -> result Tx string) (recover_signer : Tx -> result Address string)
  (ordered_trie_root : list bytes -> B256) (is_isthmus_active is_amsterdam_active : Z -> bool)
  (EMPTY_REQUESTS_HASH EMPTY_BLOCK_ACCESS_LIST_HASH EMPTY_OMMER_ROOT_HASH : B256).

(** [collect] into a [Result]: the first error, or all values *)
Fixpoint collect_results {A B E} (f : A -> result B E) (l : list A) : result (list B) E :=
  match l with
  | [] => Ok []
  | a :: l => let? b := f a in let? bs := collect_results f l in Ok (b :: bs)
  end.

Definition recovered_header (base : ExecutionPayloadBaseV1) (diff : ExecutionPayloadFlashblockDeltaV1) (base_fee : Z) : Header :=
  let amsterdam := is_amsterdam_active (pb_timestamp base) in
  {| hd_parent_beacon_block_root := None;
     hd_block_access_list_hash := if amsterdam then Some EMPTY_BLOCK_ACCESS_LIST_HASH else None;
     hd_slot_number := if amsterdam then Some 0 else None;
     hd_state_root := fd_state_root diff;
     hd_receipts_root := fd_receipts_root diff;
     hd_logs_bloom := fd_logs_bloom diff;
     hd_withdrawals_root := Some (fd_withdrawals_root diff);
     hd_parent_hash := pb_parent_hash base;
     hd_base_fee_per_gas := Some base_fee;
     hd_beneficiary := pb_fee_recipient base;
     hd_transactions_root := ordered_trie_root (fd_transactions diff);
     hd_ommers_hash := EMPTY_OMMER_ROOT_HASH;
     hd_blob_gas_used := Some 0;
     hd_difficulty := 0;
     hd_number := pb_block_number base;
     hd_gas_limit := pb_gas_limit base;
     hd_gas_used := fd_gas_used diff;
     hd_timestamp := pb_timestamp base;
     hd_extra_data := pb_extra_data base;
     hd_mix_hash := pb_prev_randao base;
     hd_nonce := 0;
     hd_requests_hash := if is_isthmus_active (pb_timestamp base) then Some EMPTY_REQUESTS_HASH else None;
     hd_excess_blob_gas := Some 0 |}.

(** [recovered_block_from_flashblocks]; [None] is the panic of [U256::to] on a base fee
    beyond [u64]. *)
Definition recovered_block_from_flashblocks (flashblock : Flashblock)
    : option (result (Header * list (Tx * Address) * list Withdrawal) FlashblocksError) :=
  match fb_base flashblock with
  | None => Some (Err MissingBase)
  | Some base =>
      let diff := fb_diff flashblock in
      match to_u64 (pb_base_fee_per_gas base) with
      | None => None
      | Some base_fee => Some (
          let? txs := map_err DecodeTransaction (collect_results decode_2718_canonical (fd_transactions diff)) in
          let? recovered := map_err RecoverBlock
            (collect_results (fun tx => let? signer := recover_signer tx in Ok (tx, signer)) txs) in
          Ok (recovered_header base diff base_fee, recovered, fd_withdrawals diff))
      end
  end.
End recovered.

(** ** The collection of the current payload *)

(** The accessors unwrap what the invariant promises; [None] is their panic. *)
Definition fbs_payload_id (l : list Flashblock) : option PayloadId := fb_payload_id <$> head l.
Definition fbs_base (l : list Flashblock) : option ExecutionPayloadBaseV1 := head l ≫= fb_base.

Definition indices_from (i : Z) (l : list Flashblock) : bool :=
  forallb (fun '(k, fb) => fb_index fb =? k) (zip (seqZ i (Z.of_nat (length l))) l).

(** [Flashblocks::new] *)
Definition flashblocks_new (l : list Flashblock) : result (list Flashblock) FlashblocksError :=
  match l with
  | [] => Err FlashblocksEmpty
  | first :: rest =>
      if bool_decide (fb_base first = None) then Err FirstWithoutBase
      else if existsb (fun fb => bool_decide (fb_payload_id fb <> fb_payload_id first)) rest then Err DifferentPayloadId
      else if negb (indices_from 0 l) then Err NotContiguous
      else Ok l
  end.

(** [Flashblocks::is_new_payload] *)
Definition is_new_payload (l : list Flashblock) (fb : Flashblock) : option (result bool FlashblocksError) :=
  match fbs_payload_id l with
  | None => None
  | Some id =>
      if bool_decide (fb_payload_id fb <> id) then
        if negb (fb_index fb =? 0) then Some (Err NewIndexNotZero)
        else
          match fb_base fb with
          | None => Some (Err NewWithoutBase)
          | Some base =>
              match fbs_base l with
              | None => None
              | Some current =>
                  Some (if pb_timestamp base <=? pb_timestamp current then Err NewTimestampNotLater else Ok true)
              end
          end
      else Some (if negb (fb_index fb =? Z.of_nat (length l)) then Err NotContiguous else Ok false)
  end.

(** [Flashblocks::push] returns the collection and whether it was reset. *)
Definition push (l : list Flashblock) (fb : Flashblock) : option (result (list Flashblock * bool) FlashblocksError) :=
  match is_new_payload l fb with
  | None => None
  | Some (Err e) => Some (Err e)
  | Some (Ok is_new) => Some (Ok ((if is_new then [] else l) ++ [fb], is_new))
  end.

Definition zero_diff : ExecutionPayloadFlashblockDeltaV1 :=
  {| fd_state_root := 0; fd_receipts_root := 0; fd_logs_bloom := replicate 256 0; fd_gas_used := 0; fd_block_hash := 0;
     fd_transactions := []; fd_withdrawals := []; fd_withdrawals_root := 0; fd_access_list_data := None |}.

(** [Flashblocks::default] *)
Definition flashblocks_default : list Flashblock :=
  [{| fb_payload_id := replicate 8 0; fb_index := 0; fb_diff := zero_diff;
      fb_metadata := {| md_fees := 0; md_flashblock_timestamp := None |};
      fb_base := Some {| pb_parent_beacon_block_root := 0; pb_parent_hash := 0; pb_fee_recipient := 0; pb_prev_randao := 0;
        pb_block_number := 0; pb_gas_limit := 0; pb_timestamp := 0; pb_extra_data := []; pb_base_fee_per_gas := 0 |} |}].

(** ** The invariant of the collection

    It is not empty, has one payload id, starts with a base, and its indices count
    from zero. *)

Record flashblocks_ok (l : list Flashblock) : Prop := {
  ok_base : is_Some (fbs_base l);
  ok_id : forall fb, fb ∈ l -> fbs_payload_id l = Some (fb_payload_id fb);
  ok_index : forall i fb, l !! i = Some fb -> fb_index fb = Z.of_nat i
}.

Lemma indices_from_spec i l :
  indices_from i l = true <-> forall k fb, l !! k = Some fb -> fb_index fb = i + Z.of_nat k.
Proof.
  unfold indices_from. revert i. induction l as [|fb l IH]; intros i; [split; done|].
  rewrite (seqZ_cons i) by (simpl; lia). replace (Z.pred (Z.of_nat (length (fb :: l)))) with (Z.of_nat (length l)) by (simpl; lia).
  simpl. rewrite andb_true_iff, Z.eqb_eq, IH. split.
  - intros [Hi Hl] [|k] fb' H; simpl in H; [injection H as <-; lia|]. rewrite (Hl _ _ H). lia.
  - intros H. split; [rewrite (H 0%nat fb eq_refl); lia|]. intros k fb' Hk. rewrite (H (S k) fb' Hk). lia.
Qed.

Lemma flashblocks_new_iff l l' : flashblocks_new l = Ok l' <-> l' = l /\ flashblocks_ok l.
Proof.
  unfold flashblocks_new. destruct l as [|first rest].
  { split; [done|]. intros [_ [[? Hb] _ _]]. done. }
  case_bool_decide as Hb. { split; [done|]. intros [_ [[? Hb'] _ _]]. unfold fbs_base in Hb'. simpl in *. congruence. }
  destruct (existsb _ rest) eqn:He.
  { split; [done|]. intros [_ [_ Hid _]]. apply existsb_exists in He as (fb&Hin&Hne%bool_decide_eq_true).
    destruct Hne. specialize (Hid fb). unfold fbs_payload_id in Hid. simpl in Hid.
    assert (fb ∈ first :: rest) as Hm by (right; by apply list_elem_of_In). by injection (Hid Hm). }
  assert (Hids : forall fb, fb ∈ rest -> fb_payload_id fb = fb_payload_id first).
  { intros fb Hin%list_elem_of_In. destruct (decide (fb_payload_id fb = fb_payload_id first)) as [|Hne]; [done|].
    assert (existsb (fun fb => bool_decide (fb_payload_id fb <> fb_payload_id first)) rest = true) as Ht; [|congruence].
    apply existsb_exists. exists fb. split; [done|]. by apply bool_decide_eq_true. }
  destruct (indices_from 0 (first :: rest)) eqn:Hi; simpl.
  - pose proof (proj1 (indices_from_spec 0 _) Hi) as Hix. split; [|by intros [-> _]]. intros [= <-]. split; [done|]. split.
    + unfold fbs_base. simpl. destruct (fb_base first); [done|congruence].
    + intros fb [->|Hin]%elem_of_cons; [done|]. unfold fbs_payload_id. simpl. by rewrite (Hids fb Hin).
    + intros i fb Hl. rewrite (Hix i fb Hl). lia.
  - split; [done|]. intros [_ [_ _ Hix]].
    assert (indices_from 0 (first :: rest) = true) as Ht; [|congruence].
    apply indices_from_spec. intros k fb Hk. rewrite (Hix k fb Hk). lia.
Qed.

(** What may be pushed: the next piece of the current payload, or the first piece of
    a later one. *)
Definition extends (l : list Flashblock) (fb : Flashblock) : Prop :=
  fbs_payload_id l = Some (fb_payload_id fb) /\ fb_index fb = Z.of_nat (length l).
Definition succeeds (l : list Flashblock) (fb : Flashblock) : Prop :=
  fbs_payload_id l <> Some (fb_payload_id fb) /\ fb_index fb = 0 /\
  exists base current, fb_base fb = Some base /\ fbs_base l = Some current /\ pb_timestamp current < pb_timestamp base.

Lemma is_new_payload_spec l fb :
  flashblocks_ok l ->
  exists r, is_new_payload l fb = Some r /\
  match r with
  | Ok true => succeeds l fb
  | Ok false => extends l fb
  | Err _ => ~ succeeds l fb /\ ~ extends l fb
  end.
Proof.
  intros [[current Hbase] Hid _]. unfold is_new_payload, succeeds, extends.
  destruct l as [|first rest]; [done|]. change (fbs_payload_id (first :: rest)) with (Some (fb_payload_id first)). cbv beta iota.
  case_bool_decide as Hne.
  - destruct (Z.eqb_spec (fb_index fb) 0) as [Hi|Hi]; simpl; [|eexists; split; [done|]; cbv beta iota; naive_solver].
    destruct (fb_base fb) as [base|] eqn:Hb; [|eexists; split; [done|]; cbv beta iota; naive_solver].
    rewrite Hbase. destruct (Z.leb_spec (pb_timestamp base) (pb_timestamp current)) as [Ht|Ht]; eexists; (split; [done|]); cbv beta iota.
    + split; [|naive_solver]. intros (_&_&b&c&[= <-]&[= <-]&Hlt). lia.
    + split; [naive_solver|]. split; [done|]. exists base, current. split; [done|]. split; [done|lia].
  - rewrite Hne.
    destruct (Z.eqb_spec (fb_index fb) (Z.of_nat (length (first :: rest)))) as [Hi|Hi]; cbn [negb]; eexists; (split; [done|]); cbv beta iota; [done|].
    split; [naive_solver|]. intros [_ H]. lia.
Qed.

Lemma extends_ok l fb : flashblocks_ok l -> extends l fb -> flashblocks_ok (l ++ [fb]).
Proof.
  intros [Hb Hid Hix] [Hsame Hi]. destruct l as [|first rest]; [by destruct Hb|]. split.
  - exact Hb.
  - intros f Hf. apply elem_of_app in Hf as [Hf| ->%list_elem_of_singleton]; [by apply Hid|exact Hsame].
  - intros i f [Hl|[Hlen Hl]]%lookup_app_Some; [by apply Hix|]. apply list_lookup_singleton_Some in Hl as [Hz <-].
    rewrite Hi. f_equal. lia.
Qed.

Lemma push_spec l fb :
  flashblocks_ok l ->
  exists r, push l fb = Some r /\
  match r with
  | Ok (l', reset) =>
      flashblocks_ok l' /\ l' = (if reset then [fb] else l ++ [fb]) /\
      (if reset then succeeds l fb else extends l fb)
  | Err _ => ~ succeeds l fb /\ ~ extends l fb
  end.
Proof.
  intros Hok. unfold push. destruct (is_new_payload_spec l fb Hok) as (r&->&Hr). destruct r as [[|]|e].
  - eexists; split; [done|]. cbv beta iota. split; [|done]. destruct Hr as (_&Hi&base&_&Hb&_&_). split.
    + unfold fbs_base. simpl. by rewrite Hb.
    + by intros f ->%list_elem_of_singleton.
    + intros i f [-> <-]%list_lookup_singleton_Some. exact Hi.
  - eexists; split; [done|]. cbv beta iota. split; [by apply extends_ok|done].
  - eexists; split; [done|exact Hr].
Qed.

(** The collection of flashblocks keeps its invariant.  A flashblock is added exactly
    when it is the next piece of the current payload or the first piece of a later one,
    which takes the place of what was there; nothing ever panics. *)
Theorem push_keeps_collection l fb :
  flashblocks_ok l ->
  exists r, push l fb = Some r /\
  match r with
  | Ok (l', reset) =>
      flashblocks_ok l' /\ l' = (if reset then [fb] else l ++ [fb]) /\
      (if reset then succeeds l fb else extends l fb)
  | Err _ => ~ succeeds l fb /\ ~ extends l fb
  end.
Proof. apply push_spec. Qed.

Lemma flashblocks_default_ok : flashblocks_ok flashblocks_default.
Proof. apply (proj1 (flashblocks_new_iff _ flashblocks_default)). by vm_compute. Qed.

Lemma push_keeps_collection_witness :
  exists l', push flashblocks_default
      {| fb_payload_id := replicate 8 0; fb_index := 1; fb_diff := zero_diff;
         fb_metadata := {| md_fees := 0; md_flashblock_timestamp := None |}; fb_base := None |} = Some (Ok (l', false)) /\
    flashblocks_ok l'.
Proof.
  destruct (push_keeps_collection flashblocks_default
    {| fb_payload_id := replicate 8 0; fb_index := 1; fb_diff := zero_diff;
       fb_metadata := {| md_fees := 0; md_flashblock_timestamp := None |}; fb_base := None |} flashblocks_default_ok)
    as ([[l' reset]|e]&Hp&H).
  - exists l'. vm_compute in Hp. injection Hp as Hl Hr. destruct H as [Hok _]. split; [|exact Hok]. rewrite <-Hl. by vm_compute.
  - discriminate Hp.
Defined.

(** ** The pieces of a growing block *)

Section pieces.
Context {Tx : Type} (encoded_2718 : Tx -> bytes) (keccak256 : bytes -> B256)
  (rlp_access_list : FlashblockAccessList -> bytes) (config : PayloadConfig).

Record Piece := { pc_now : Z; pc_block : Block Tx; pc_fees : Z; pc_access_list : option FlashblockAccessList }.

Definition withdrawals_of (b : Block Tx) : list Withdrawal := from_option id [] (bl_withdrawals b).
Definition tx_offset (prev : option (Block Tx)) : nat := from_option (fun b => length (bl_transactions b)) 0%nat prev.
Definition withdrawals_offset (prev : option (Block Tx)) : nat := from_option (fun b => length (withdrawals_of b)) 0%nat prev.

(** The flashblocks that are published for successive builds of one block *)
Fixpoint published (prev : option (Block Tx)) (i : Z) (l : list Piece) : list Flashblock :=
  match l with
  | [] => []
  | p :: l =>
      flashblock_new encoded_2718 keccak256 rlp_access_list (pc_now p) (pc_block p) (pc_fees p) config i (tx_offset prev)
        (withdrawals_offset prev) (pc_access_list p) :: published (Some (pc_block p)) (i + 1) l
  end.

(** Each build starts with what the one before has committed to. *)
Definition grows (prev : option (Block Tx)) (b : Block Tx) : Prop :=
  match prev with
  | Some a => bl_transactions a `prefix_of` bl_transactions b /\ withdrawals_of a `prefix_of` withdrawals_of b
  | None => True
  end.
Fixpoint growing (prev : option (Block Tx)) (l : list Piece) : Prop :=
  match l with
  | [] => True
  | p :: l => grows prev (pc_block p) /\ growing (Some (pc_block p)) l
  end.

Lemma published_lookup l : forall prev i k fb, published prev i l !! k = Some fb ->
  fb_index fb = i + Z.of_nat k /\ fb_payload_id fb = cf_payload_id config.
Proof.
  induction l as [|p l IH]; intros prev i k fb Hl; [done|]. destruct k as [|k]; simpl in Hl.
  - injection Hl as <-. simpl. split; [lia|done].
  - destruct (IH _ _ _ _ Hl) as [-> ->]. split; [lia|done].
Qed.

Lemma published_ok p l : flashblocks_ok (published None 0 (p :: l)).
Proof.
  split; [by eexists| |].
  - intros fb [k Hk]%list_elem_of_lookup. destruct (published_lookup _ _ _ _ _ Hk) as [_ ->]. done.
  - intros i fb Hi. destruct (published_lookup _ _ _ _ _ Hi) as [-> _]. lia.
Qed.

(** [f] carries the whole of the block [b]. *)
Record carries (f : Flashblock) (p : Piece) : Prop := {
  carries_transactions : fd_transactions (fb_diff f) = encoded_2718 <$> bl_transactions (pc_block p);
  carries_withdrawals : fd_withdrawals (fb_diff f) = withdrawals_of (pc_block p);
  carries_state_root : fd_state_root (fb_diff f) = bl_state_root (pc_block p);
  carries_receipts_root : fd_receipts_root (fb_diff f) = bl_receipts_root (pc_block p);
  carries_logs_bloom : fd_logs_bloom (fb_diff f) = bl_logs_bloom (pc_block p);
  carries_gas_used : fd_gas_used (fb_diff f) = bl_gas_used (pc_block p);
  carries_hash : fd_block_hash (fb_diff f) = bl_hash (pc_block p);
  carries_withdrawals_root : fd_withdrawals_root (fb_diff f) = from_option id 0 (bl_withdrawals_root (pc_block p));
  carries_fees : md_fees (fb_metadata f) = pc_fees p
}.

Lemma prefix_drop {A} (l k : list A) : l `prefix_of` k -> l ++ drop (length l) k = k.
Proof. intros [r ->]. by rewrite drop_app_length. Qed.

Lemma last_or {A} (a p : A) l : from_option id a (last (p :: l)) = from_option id p (last l).
Proof. rewrite last_cons. by destruct (last l). Qed.

Lemma reduce_step_carries acc a p i :
  carries acc a -> grows (Some (pc_block a)) (pc_block p) ->
  carries (reduce_step acc (flashblock_new encoded_2718 keccak256 rlp_access_list (pc_now p) (pc_block p) (pc_fees p) config i
    (tx_offset (Some (pc_block a))) (withdrawals_offset (Some (pc_block a))) (pc_access_list p))) p.
Proof.
  intros [Ht Hw _ _ _ _ _ _ _] [Hpt Hpw]. split; simpl; try done.
  - rewrite Ht, <-fmap_app. by rewrite prefix_drop.
  - rewrite Hw. by apply prefix_drop.
Qed.

Lemma reduce_published l : forall a acc i,
  carries acc a -> growing (Some (pc_block a)) l ->
  let f := foldl reduce_step acc (published (Some (pc_block a)) i l) in
  carries f (from_option id a (last l)) /\ fb_base f = match fb_base acc with Some b => Some b | None => fb_base f end /\
  fb_payload_id f = fb_payload_id acc.
Proof.
  induction l as [|p l IH]; intros a acc i Hc Hg; [simpl; split; [done|]; split; [by destruct (fb_base acc)|done]|].
  destruct Hg as [Hg Hl]. cbn [published foldl]. rewrite last_or.
  pose proof (reduce_step_carries acc a p i Hc Hg) as Hstep.
  destruct (IH p _ (i + 1) Hstep Hl) as (Hf&Hb&Hid). split; [exact Hf|]. split; [|exact Hid]. simpl in Hb.
  destruct (fb_base acc); [exact Hb|done].
Qed.

(** The pieces of a growing block make up the block. *)
Lemma published_reduce p l :
  growing None (p :: l) ->
  exists f, reduce (published None 0 (p :: l)) = Ok f /\ carries f (from_option id p (last l)) /\
    fb_base f = Some (payload_base (pc_block p) config) /\ fb_payload_id f = cf_payload_id config.
Proof.
  intros [_ Hg]. simpl.
  destruct (reduce_published l p (flashblock_new encoded_2718 keccak256 rlp_access_list (pc_now p) (pc_block p) (pc_fees p)
    config 0 0 0 (pc_access_list p)) (0 + 1)) as (Hf&Hb&Hid); [by split|exact Hg|].
  eexists. split; [done|]. split; [exact Hf|]. split; [exact Hb|exact Hid].
Qed.
End pieces.

Lemma collect_results_total {A B E} (f : A -> result B E) (g : A -> B) l :
  Forall (fun a => f a = Ok (g a)) l -> collect_results f l = Ok (g <$> l).
Proof. induction 1 as [|a l Ha _ IH]; [done|]. simpl. by rewrite Ha, IH. Qed.

Section recover.
Context {Tx : Type} (encoded_2718 : Tx -> bytes) (keccak256 : bytes -> B256)
  (rlp_access_list : FlashblockAccessList -> bytes) (config : PayloadConfig)
  (decode_2718_canonical : bytes -> result Tx string) (recover_signer : Tx -> result Address string)
  (ordered_trie_root : list bytes -> B256) (is_isthmus_active is_amsterdam_active : Z -> bool)
  (EMPTY_REQUESTS_HASH EMPTY_BLOCK_ACCESS_LIST_HASH EMPTY_OMMER_ROOT_HASH : B256)
  (decode_encoded : forall tx, decode_2718_canonical (encoded_2718 tx) = Ok tx).

Lemma collect_decode l : collect_results decode_2718_canonical (encoded_2718 <$> l) = Ok l.
Proof. induction l as [|tx l IH]; [done|]. rewrite fmap_cons. cbn [collect_results]. by rewrite decode_encoded, IH. Qed.

(** What a consumer recovers from the flashblocks of a block that grew is the last
    build of the block: its transactions in their order with their signers, its
    withdrawals and its roots, under the number and limits of the first flashblock. *)
Theorem published_block_recovered p l (signer : Tx -> Address) :
  let b := pc_block (from_option id p (last l)) in
  growing None (p :: l) ->
  Forall (fun tx => recover_signer tx = Ok (signer tx)) (bl_transactions b) ->
  from_option id 0 (bl_base_fee_per_gas (pc_block p)) <= U64_MAX ->
  let fbs := published encoded_2718 keccak256 rlp_access_list config None 0 (p :: l) in
  flashblocks_ok fbs /\
  exists f header, reduce fbs = Ok f /\
    recovered_block_from_flashblocks decode_2718_canonical recover_signer ordered_trie_root is_isthmus_active
      is_amsterdam_active EMPTY_REQUESTS_HASH EMPTY_BLOCK_ACCESS_LIST_HASH EMPTY_OMMER_ROOT_HASH f =
      Some (Ok (header, (fun tx => (tx, signer tx)) <$> bl_transactions b, withdrawals_of b)) /\
    fd_block_hash (fb_diff f) = bl_hash b /\
    hd_state_root header = bl_state_root b /\ hd_receipts_root header = bl_receipts_root b /\
    hd_gas_used header = bl_gas_used b /\ hd_logs_bloom header = bl_logs_bloom b /\
    hd_transactions_root header = ordered_trie_root (encoded_2718 <$> bl_transactions b) /\
    hd_number header = bl_number (pc_block p) /\ hd_gas_limit header = bl_gas_limit (pc_block p) /\
    hd_parent_hash header = cf_parent_hash config /\ hd_timestamp header = cf_timestamp config.
Proof.
  intros b Hg Hs Hfee fbs. split; [apply published_ok|].
  destruct (published_reduce encoded_2718 keccak256 rlp_access_list config p l Hg) as (f&Hr&[Ht Hw Hst Hrc Hlb Hgu Hh _ _]&Hb&_).
  fold b in Ht, Hw, Hst, Hrc, Hlb, Hgu, Hh. clearbody b.
  eexists f, _. split; [exact Hr|]. split.
  - unfold recovered_block_from_flashblocks. rewrite Hb, Ht, Hw. cbn [pb_base_fee_per_gas payload_base].
    unfold to_u64. rewrite (proj2 (Z.leb_le _ _) Hfee).
    rewrite collect_decode.
    cbn [map_err rbind]. rewrite (collect_results_total _ (fun tx => (tx, signer tx))); [done|].
    eapply Forall_impl; [exact Hs|]. intros tx Htx. simpl. by rewrite Htx.
  - simpl. rewrite Ht. done.
Qed.
End recover.

(** ** An example *)

Definition ex_block (txs : list bytes) (hash : Z) : Block bytes :=
  {| bl_number := 7; bl_gas_limit := 100; bl_extra_data := []; bl_base_fee_per_gas := Some 3; bl_state_root := hash + 1;
     bl_receipts_root := hash + 2; bl_logs_bloom := []; bl_gas_used := Z.of_nat (length txs); bl_hash := hash;
     bl_withdrawals_root := None; bl_transactions := txs; bl_withdrawals := None |}.
Definition ex_piece (txs : list bytes) (hash : Z) : Piece :=
  {| pc_now := 0; pc_block := ex_block txs hash; pc_fees := 0; pc_access_list := None |}.
Definition ex_config : PayloadConfig :=
  {| cf_payload_id := [3; 0; 0; 0; 0; 0; 0; 1]; cf_parent_hash := 6; cf_parent_beacon_block_root := None;
     cf_suggested_fee_recipient := 1; cf_prev_randao := 2; cf_timestamp := 1000; cf_no_tx_pool := None |}.

Lemma published_block_recovered_witness :
  exists f header, reduce (published id be_val (fun _ => []) ex_config None 0 [ex_piece [[1]] 50; ex_piece [[1]; [2]] 60]) = Ok f /\
    recovered_block_from_flashblocks (fun b => Ok b) (fun tx => Ok (be_val tx)) (fun _ => 0) (fun _ => true) (fun _ => false)
      0 0 0 f = Some (Ok (header, [([1], 1); ([2], 2)], [])).
Proof.
  destruct (published_block_recovered id be_val (fun _ => []) ex_config (fun b => Ok b) (fun tx => Ok (be_val tx)) (fun _ => 0)
    (fun _ => true) (fun _ => false) 0 0 0 (fun tx => eq_refl) (ex_piece [[1]] 50) [ex_piece [[1]; [2]] 60] be_val)
    as (_&f&header&Hr&Hb&_).
  - repeat split; [by exists [[2]]|by exists []].
  - repeat constructor.
  - vm_compute. discriminate.
  - exists f, header. split; [exact Hr|exact Hb].
Defined.
