(* ===== verification/EventStream.v ===== *)
(** * The stream of flashblocks and canonical blocks
    ([src/crates/p2p/src/protocol/event.rs])

    Flashblocks are executable only on their parent block.  This component takes the
    flashblocks of the network and the notifications of the canonical chain, in the
    order in which they come, and holds flashblocks back until their parent is the tip.
    The stream underneath is a list of what its polls return. *)

From S2P Require Import Prelude Encoding ProofTypes AccessList Flashblocks.

(** ** Data *)

Record BlockNumHash := { bn_number : Z; bn_hash : B256 }.
#[export] Instance BlockNumHash_eq_dec : EqDecision BlockNumHash.
Proof. solve_decision. Defined.

Inductive ChainEvent :=
| Canon (tip : BlockNumHash)
| Pending (fb : FlashblocksPayloadV1).

Inductive WorldChainEvent (T : Type) :=
| Chain (e : ChainEvent)
| Event (t : T).
Arguments Chain {T} e.
Arguments Event {T} t.

Definition MAX_FLASHBLOCKS : nat := 12.

Record BlockEpochState := {
  ep_parent : BlockNumHash;
  ep_payload_id : PayloadId;
  ep_cursor : nat;
  ep_buffer : list (option FlashblocksPayloadV1)
}.

Record BufferedFlashblocks := {
  bf_epoch : option BlockEpochState;
  bf_canon_tip : option BlockNumHash;
  bf_output : list ChainEvent
}.

Definition buffered_new : BufferedFlashblocks := {| bf_epoch := None; bf_canon_tip := None; bf_output := [] |}.

(** ** The epoch of one payload *)

(** [BlockEpochState::insert]; the answer of the method is not used. *)
Definition epoch_insert (epoch : BlockEpochState) (fb : FlashblocksPayloadV1) : BlockEpochState :=
  let idx := Z.to_nat (fb_index fb) in
  if bool_decide (fb_payload_id fb <> ep_payload_id epoch) || (MAX_FLASHBLOCKS <=? idx)%nat ||
     bool_decide (is_Some (mjoin (ep_buffer epoch !! idx))) then epoch
  else {| ep_parent := ep_parent epoch; ep_payload_id := ep_payload_id epoch; ep_cursor := ep_cursor epoch;
          ep_buffer := <[idx := Some fb]> (ep_buffer epoch) |}.

Definition epoch_parent (base : ExecutionPayloadBaseV1) : BlockNumHash :=
  {| bn_number := saturating_sub (pb_block_number base) 1; bn_hash := pb_parent_hash base |}.

(** [BlockEpochState::try_new] *)
Definition epoch_try_new (fb : FlashblocksPayloadV1) (canon_tip : option BlockNumHash) : option BlockEpochState :=
  match fb_base fb with
  | None => None
  | Some base =>
      let parent := epoch_parent base in
      if match canon_tip with Some tip => bn_number parent <? bn_number tip | None => false end then None
      else Some (epoch_insert {| ep_parent := parent; ep_payload_id := fb_payload_id fb; ep_cursor := 0;
                                 ep_buffer := replicate MAX_FLASHBLOCKS None |} fb)
  end.

(** ** The reducer *)

(** The loop of [drain]: the flashblocks from the cursor on, as far as they go *)
Fixpoint drain_loop (fuel : nat) (epoch : BlockEpochState) (output : list ChainEvent) : BlockEpochState * list ChainEvent :=
  match fuel with
  | O => (epoch, output)
  | S fuel =>
      match ep_buffer epoch !! ep_cursor epoch with
      | Some (Some fb) =>
          drain_loop fuel
            {| ep_parent := ep_parent epoch; ep_payload_id := ep_payload_id epoch; ep_cursor := S (ep_cursor epoch);
               ep_buffer := <[ep_cursor epoch := None]> (ep_buffer epoch) |}
            (output ++ [Pending fb])
      | _ => (epoch, output)
      end
  end.

Definition drain (st : BufferedFlashblocks) : BufferedFlashblocks :=
  match bf_epoch st with
  | Some epoch =>
      if bool_decide (bf_canon_tip st = Some (ep_parent epoch)) then
        let '(epoch, output) := drain_loop MAX_FLASHBLOCKS epoch (bf_output st) in
        {| bf_epoch := Some epoch; bf_canon_tip := bf_canon_tip st; bf_output := output |}
      else st
  | None => st
  end.

Definition parent_stale (tip parent : BlockNumHash) : bool :=
  (bn_number parent <? bn_number tip) || ((bn_number tip =? bn_number parent) && negb (bn_hash tip =? bn_hash parent)).

(** [BufferedFlashblocks::step] *)
Definition step (st : BufferedFlashblocks) (event : ChainEvent) : BufferedFlashblocks :=
  drain
    match event with
    | Canon tip =>
        {| bf_canon_tip := Some tip; bf_output := bf_output st ++ [Canon tip];
           bf_epoch := match bf_epoch st with
                       | Some epoch => if parent_stale tip (ep_parent epoch) then None else Some epoch
                       | None => None
                       end |}
    | Pending fb =>
        {| bf_canon_tip := bf_canon_tip st; bf_output := bf_output st;
           bf_epoch := match fb_base fb with
                       | Some _ => epoch_try_new fb (bf_canon_tip st)
                       | None => (fun epoch => epoch_insert epoch fb) <$> bf_epoch st
                       end |}
    end.

(** ** The stream *)

(** What a poll of the stream underneath may return; when the list is at its end, the
    stream is pending. *)
Inductive Polled (A : Type) := PReady (a : A) | PEnd | PPending.
Arguments PReady {A} a.
Arguments PEnd {A}.
Arguments PPending {A}.

Definition pop_front (st : BufferedFlashblocks) : option (ChainEvent * BufferedFlashblocks) :=
  match bf_output st with
  | e :: output => Some (e, {| bf_epoch := bf_epoch st; bf_canon_tip := bf_canon_tip st; bf_output := output |})
  | [] => None
  end.

(** the loop of [BufferedStream::poll_next] *)
Fixpoint poll_inner (st : BufferedFlashblocks) (inner : list (Polled ChainEvent))
    : Polled ChainEvent * BufferedFlashblocks * list (Polled ChainEvent) :=
  match inner with
  | [] => (PPending, st, [])
  | PPending :: inner => (PPending, st, inner)
  | PEnd :: inner =>
      match pop_front st with
      | Some (e, st) => (PReady e, st, PEnd :: inner)
      | None => (PEnd, st, PEnd :: inner)
      end
  | PReady event :: inner =>
      let st := step st event in
      match pop_front st with
      | Some (e, st) => (PReady e, st, inner)
      | None => poll_inner st inner
      end
  end.

(** [BufferedStream::poll_next] *)
Definition poll_next (st : BufferedFlashblocks) (inner : list (Polled ChainEvent))
    : Polled ChainEvent * BufferedFlashblocks * list (Polled ChainEvent) :=
  match pop_front st with
  | Some (e, st) => (PReady e, st, inner)
  | None => poll_inner st inner
  end.

(** [world_chain_events_stream] runs a hook on every event and yields what it returns
    after it. *)
Definition with_hook {T} (hook : WorldChainEvent T -> option (WorldChainEvent T)) (e : ChainEvent) : list (WorldChainEvent T) :=
  Chain e :: match hook (Chain e) with Some extra => [extra] | None => [] end.

(** ** What the stream yields

    [run events] has all that the reducer has put out. *)

Definition run (events : list ChainEvent) : BufferedFlashblocks := foldl step buffered_new events.
Definition outputs (events : list ChainEvent) : list ChainEvent := bf_output (run events).

(** the position of a flashblock in its block *)
Definition idx (fb : FlashblocksPayloadV1) : nat := Z.to_nat (fb_index fb).

Definition last_canon (l : list ChainEvent) : option BlockNumHash :=
  last (omap (fun e => match e with Canon tip => Some tip | Pending _ => None end) l).

(** [parent] and [id] are those of a base flashblock that came in. *)
Definition announced (events : list ChainEvent) (parent : BlockNumHash) (id : PayloadId) : Prop :=
  exists fb base, Pending fb ∈ events /\ fb_base fb = Some base /\ fb_payload_id fb = id /\ epoch_parent base = parent.

Definition yielded (l : list ChainEvent) (id : PayloadId) (i : nat) : Prop :=
  exists f, Pending f ∈ l /\ fb_payload_id f = id /\ idx f = i.

(** A flashblock may follow [before]: the last block there is its parent, and the
    flashblocks before it have been yielded. *)
Record anchored (events before : list ChainEvent) (fb : FlashblocksPayloadV1) : Prop := {
  anchored_parent : exists parent, last_canon before = Some parent /\ announced events parent (fb_payload_id fb);
  anchored_order : forall i, (i < idx fb)%nat -> yielded before (fb_payload_id fb) i;
  anchored_input : Pending fb ∈ events;
  anchored_bound : (idx fb < MAX_FLASHBLOCKS)%nat
}.

Definition all_anchored (events out : list ChainEvent) : Prop :=
  forall o1 fb o2, out = o1 ++ Pending fb :: o2 -> anchored events o1 fb.

Record epoch_ok (events out : list ChainEvent) (e : BlockEpochState) : Prop := {
  epoch_length : length (ep_buffer e) = MAX_FLASHBLOCKS;
  epoch_announced : announced events (ep_parent e) (ep_payload_id e);
  epoch_slots : forall i f, ep_buffer e !! i = Some (Some f) -> Pending f ∈ events /\ fb_payload_id f = ep_payload_id e /\ idx f = i;
  epoch_yielded : forall i, (i < ep_cursor e)%nat -> yielded out (ep_payload_id e) i
}.

Record stream_inv (events : list ChainEvent) (st : BufferedFlashblocks) : Prop := {
  inv_tip : bf_canon_tip st = last_canon (bf_output st);
  inv_epoch : forall e, bf_epoch st = Some e -> epoch_ok events (bf_output st) e;
  inv_anchored : all_anchored events (bf_output st)
}.

Lemma last_canon_pending l fb : last_canon (l ++ [Pending fb]) = last_canon l.
Proof. unfold last_canon. rewrite omap_app. simpl. by rewrite app_nil_r. Qed.

Lemma last_canon_canon l tip : last_canon (l ++ [Canon tip]) = Some tip.
Proof. unfold last_canon. rewrite omap_app. simpl. by rewrite last_snoc. Qed.

Lemma all_anchored_snoc events out e :
  all_anchored events out -> (forall fb, e = Pending fb -> anchored events out fb) -> all_anchored events (out ++ [e]).
Proof.
  intros H He o1 fb o2 Heq. destruct o2 as [|x o2 _] using rev_ind.
  - apply app_inj_tail in Heq as [-> ->]. by apply He.
  - rewrite app_comm_cons, app_assoc in Heq. apply app_inj_tail in Heq as [-> _]. by eapply H.
Qed.

Lemma yielded_app l k id i : yielded l id i -> yielded (l ++ k) id i.
Proof. intros (f&Hf&Hi). exists f. split; [set_solver|done]. Qed.

Lemma announced_app events k parent id : announced events parent id -> announced (events ++ k) parent id.
Proof. intros (fb&base&Hf&Hr). exists fb, base. split; [set_solver|done]. Qed.

Lemma anchored_app events k out fb : anchored events out fb -> anchored (events ++ k) out fb.
Proof.
  intros [(p&Hp&Ha) Ho Hi Hb]. split; [|done|set_solver|done]. exists p. split; [done|by apply announced_app].
Qed.

Lemma stream_inv_app events k st : stream_inv events st -> stream_inv (events ++ k) st.
Proof.
  intros [Ht He Ha]. split; [done| |intros o1 fb o2 Ho; apply anchored_app; by eapply Ha].
  intros e Hs. destruct (He e Hs) as [Hl Hann Hsl Hy]. split; [done|by apply announced_app| |done].
  intros i f Hf. destruct (Hsl i f Hf). split; [set_solver|done].
Qed.

Lemma drain_loop_inv events fuel : forall e out,
  epoch_ok events out e -> all_anchored events out -> last_canon out = Some (ep_parent e) ->
  let '(e', out') := drain_loop fuel e out in
  epoch_ok events out' e' /\ all_anchored events out' /\ last_canon out' = Some (ep_parent e').
Proof.
  induction fuel as [|fuel IH]; intros e out He Ha Hc; [done|]. simpl.
  destruct (ep_buffer e !! ep_cursor e) as [[fb|]|] eqn:Hl; [|done|done].
  destruct He as [Hlen Hann Hsl Hy]. destruct (Hsl _ _ Hl) as (Hin&Hid&Hidx).
  apply lookup_lt_Some in Hl as Hlt.
  apply IH.
  - split; cbn [ep_buffer ep_cursor ep_parent ep_payload_id]; [by rewrite length_insert|done| |].
    + intros i f Hf. apply list_lookup_insert_Some in Hf as [(_&?&_)|[_ Hf]]; [done|by apply Hsl].
    + intros i Hi. destruct (decide (i = ep_cursor e)) as [->|Hne].
      * exists fb. split; [set_solver|done].
      * apply yielded_app, Hy. lia.
  - apply all_anchored_snoc; [done|]. intros fb' [= <-]. split.
    + exists (ep_parent e). by rewrite Hid.
    + intros i Hi. rewrite Hid. apply Hy. lia.
    + done.
    + lia.
  - simpl. by rewrite last_canon_pending.
Qed.

Lemma drain_inv events st : stream_inv events st -> stream_inv events (drain st).
Proof.
  intros Hinv. unfold drain. destruct (bf_epoch st) as [e|] eqn:Hs; [|done].
  case_bool_decide as Hc; [|done]. destruct Hinv as [Ht He Ha].
  pose proof (drain_loop_inv events MAX_FLASHBLOCKS e (bf_output st) (He e Hs) Ha) as Hd.
  destruct (drain_loop MAX_FLASHBLOCKS e (bf_output st)) as [e' out'] eqn:Hdl.
  destruct Hd as (He'&Ha'&Hc'); [congruence|].
  assert (ep_parent e' = ep_parent e) as Hp.
  { clear -Hdl. revert e e' out' Hdl. generalize (bf_output st). induction MAX_FLASHBLOCKS as [|n IH]; intros out e e' out' H.
    - by injection H as <- <-.
    - simpl in H. destruct (ep_buffer e !! ep_cursor e) as [[fb|]|]; [|by injection H as <- <-|by injection H as <- <-].
      by apply IH in H. }
  split; [simpl; congruence| |done]. by intros ? [= <-].
Qed.

Lemma epoch_insert_ok events out e fb :
  Pending fb ∈ events -> epoch_ok events out e -> epoch_ok events out (epoch_insert e fb).
Proof.
  intros Hin [Hl Ha Hs Hy]. unfold epoch_insert.
  destruct (bool_decide (fb_payload_id fb <> ep_payload_id e)) eqn:Hid; [by split|].
  destruct ((MAX_FLASHBLOCKS <=? Z.to_nat (fb_index fb))%nat) eqn:Hb; [by split|].
  destruct (bool_decide (is_Some _)); [by split|]. simpl. split; cbn [ep_buffer ep_cursor ep_parent ep_payload_id]; [by rewrite length_insert|done| |done].
  intros i f Hf. apply list_lookup_insert_Some in Hf as [(<-&[= ->]&_)|[_ Hf]]; [|by apply Hs].
  split; [done|]. apply bool_decide_eq_false in Hid. split; [|done]. by destruct (decide (fb_payload_id f = ep_payload_id e)).
Qed.

Lemma epoch_try_new_ok events out fb tip e :
  Pending fb ∈ events -> epoch_try_new fb tip = Some e -> epoch_ok events out e.
Proof.
  intros Hin. unfold epoch_try_new. destruct (fb_base fb) as [base|] eqn:Hb; [|done].
  destruct (match tip with Some t => _ | None => _ end); [done|]. intros [= <-]. apply epoch_insert_ok; [done|].
  split; cbn [ep_buffer ep_cursor ep_parent ep_payload_id]; [done| | |lia].
  - by exists fb, base.
  - intros i f Hf. apply (proj1 (lookup_replicate MAX_FLASHBLOCKS None (Some f) i)) in Hf as [? _]. done.
Qed.

Lemma step_inv events st event : stream_inv events st -> stream_inv (events ++ [event]) (step st event).
Proof.
  intros H. apply (stream_inv_app _ [event]) in H. assert (event ∈ events ++ [event]) as Hin by set_solver.
  destruct H as [Ht He Ha]. unfold step. apply drain_inv. destruct event as [tip|fb]; split; simpl.
  - by rewrite last_canon_canon.
  - intros e. destruct (bf_epoch st) as [e0|]; [|done]. destruct (parent_stale tip (ep_parent e0)); [done|].
    intros [= <-]. destruct (He e0 eq_refl) as [Hl Hann Hs Hy]. split; [done..|]. intros i Hi. by apply yielded_app, Hy.
  - by apply all_anchored_snoc.
  - done.
  - intros e. destruct (fb_base fb) eqn:Hb; [by apply epoch_try_new_ok|].
    destruct (bf_epoch st) as [e0|]; [|done]. intros [= <-]. apply epoch_insert_ok; [done|by apply He].
  - done.
Qed.

Lemma run_inv events : stream_inv events (run events).
Proof.
  unfold run. induction events as [|e events IH] using rev_ind.
  - split; [done..|]. by intros [|] ? ?.
  - rewrite foldl_snoc. by apply step_inv.
Qed.

(** ** Polling

    [poll_many n] polls [n] times and collects what is ready. *)

Fixpoint poll_many (n : nat) (st : BufferedFlashblocks) (inner : list (Polled ChainEvent))
    : list ChainEvent * BufferedFlashblocks * list (Polled ChainEvent) :=
  match n with
  | O => ([], st, inner)
  | S n =>
      let '(r, st, inner) := poll_next st inner in
      let '(ys, st, inner) := poll_many n st inner in
      (match r with PReady e => e :: ys | _ => ys end, st, inner)
  end.

Definition ready (inner : list (Polled ChainEvent)) : list ChainEvent :=
  omap (fun p => match p with PReady e => Some e | _ => None end) inner.

Definition prepend (o : list ChainEvent) (st : BufferedFlashblocks) : BufferedFlashblocks :=
  {| bf_epoch := bf_epoch st; bf_canon_tip := bf_canon_tip st; bf_output := o ++ bf_output st |}.

Lemma drain_loop_app fuel : forall e o out,
  drain_loop fuel e (o ++ out) = ((drain_loop fuel e out).1, o ++ (drain_loop fuel e out).2).
Proof.
  induction fuel as [|fuel IH]; intros e o out; [done|]. simpl.
  destruct (ep_buffer e !! ep_cursor e) as [[fb|]|]; [|done|done]. by rewrite <-app_assoc, IH.
Qed.

Lemma drain_prepend o st : drain (prepend o st) = prepend o (drain st).
Proof.
  unfold drain, prepend. cbn [bf_epoch bf_canon_tip bf_output]. generalize MAX_FLASHBLOCKS as n. intros n.
  destruct (bf_epoch st) as [e|] eqn:He; [|by rewrite He].
  case_bool_decide; [|by rewrite He]. rewrite drain_loop_app. by destruct (drain_loop n e (bf_output st)).
Qed.

Lemma step_prepend o st e : step (prepend o st) e = prepend o (step st e).
Proof.
  unfold step. rewrite <-drain_prepend. f_equal. destruct e; unfold prepend; simpl; [by rewrite app_assoc|done].
Qed.

Lemma foldl_step_prepend o events : forall st, foldl step (prepend o st) events = prepend o (foldl step st events).
Proof. induction events as [|e events IH]; intros st; [done|]. simpl. by rewrite step_prepend, IH. Qed.

Lemma pop_front_Some st e st' : pop_front st = Some (e, st') -> st = prepend [e] st'.
Proof. destruct st as [ep tip [|x out]]; [done|]. by intros [= <- <-]. Qed.

Definition yield (r : Polled ChainEvent) : list ChainEvent := match r with PReady e => [e] | _ => [] end.

Lemma prepend_app o1 o2 st : prepend (o1 ++ o2) st = prepend o1 (prepend o2 st).
Proof. unfold prepend. simpl. by rewrite app_assoc. Qed.

Lemma prepend_nil st : prepend [] st = st.
Proof. by destruct st. Qed.

Lemma poll_inner_steps inner : forall st r st' inner',
  poll_inner st inner = (r, st', inner') ->
  exists consumed, inner = consumed ++ inner' /\ prepend (yield r) st' = foldl step st (ready consumed).
Proof.
  induction inner as [|p inner IH]; intros st r st' inner' H; simpl in H.
  { injection H as <- <- <-. exists []. by rewrite prepend_nil. }
  destruct p as [e| |].
  - destruct (pop_front (step st e)) as [[e' st1]|] eqn:Hp.
    + injection H as <- <- <-. exists [PReady e]. split; [done|]. simpl. symmetry. by apply pop_front_Some.
    + destruct (IH _ _ _ _ H) as (c&->&Hc). by exists (PReady e :: c).
  - destruct (pop_front st) as [[e' st1]|] eqn:Hp.
    + injection H as <- <- <-. exists []. split; [done|]. simpl. symmetry. by apply pop_front_Some.
    + injection H as <- <- <-. exists []. by rewrite prepend_nil.
  - injection H as <- <- <-. exists [PPending]. by rewrite prepend_nil.
Qed.

Lemma poll_next_steps st inner r st' inner' :
  poll_next st inner = (r, st', inner') ->
  exists consumed, inner = consumed ++ inner' /\ prepend (yield r) st' = foldl step st (ready consumed).
Proof.
  unfold poll_next. destruct (pop_front st) as [[e st1]|] eqn:Hp; [|by apply poll_inner_steps].
  intros [= <- <- <-]. exists []. split; [done|]. simpl. symmetry. by apply pop_front_Some.
Qed.

Lemma poll_many_steps n : forall st inner ys st' inner',
  poll_many n st inner = (ys, st', inner') ->
  exists consumed, inner = consumed ++ inner' /\ prepend ys st' = foldl step st (ready consumed).
Proof.
  induction n as [|n IH]; intros st inner ys st' inner' H; simpl in H.
  { injection H as <- <- <-. exists []. by rewrite prepend_nil. }
  destruct (poll_next st inner) as [[r st1] inner1] eqn:Hp.
  destruct (poll_many n st1 inner1) as [[zs st2] inner2] eqn:Hm. injection H as <- <- <-.
  destruct (poll_next_steps _ _ _ _ _ Hp) as (c1&->&H1). destruct (IH _ _ _ _ _ Hm) as (c2&->&H2).
  exists (c1 ++ c2). split; [by rewrite app_assoc|]. unfold ready. rewrite omap_app, foldl_app.
  fold (ready c1) (ready c2). rewrite <-H1, foldl_step_prepend, <-H2.
  destruct r; [exact (prepend_app [_] zs st2)|by rewrite prepend_nil..].
Qed.

(** Every flashblock that polling yields came in, follows, as the last block before it,
    the parent that its base flashblock announced, and follows all flashblocks of its
    payload with a smaller index. *)
Theorem stream_is_anchored n inner ys st' inner' :
  poll_many n buffered_new inner = (ys, st', inner') -> all_anchored (ready inner) ys.
Proof.
  intros (c&->&H)%poll_many_steps. unfold ready. rewrite omap_app. fold (ready c). intros o1 fb o2 ->.
  apply anchored_app. pose proof (inv_anchored _ _ (run_inv (ready c))) as Ha. unfold run in Ha. rewrite <-H in Ha. simpl in Ha.
  rewrite <-app_assoc in Ha. by eapply Ha.
Qed.

(** ** In-order delivery

    [fbs] are the flashblocks of one payload, the base flashblock first. *)

Section delivery.
Context (tip : BlockNumHash) (b : FlashblocksPayloadV1) (base : ExecutionPayloadBaseV1) (ds : list FlashblocksPayloadV1)
  (b_base : fb_base b = Some base) (b_parent : epoch_parent base = tip)
  (ds_base : Forall (fun f => fb_base f = None) ds)
  (same_id : Forall (fun f => fb_payload_id f = fb_payload_id b) ds)
  (in_order : forall i f, (b :: ds) !! i = Some f -> idx f = i)
  (few : (length (b :: ds) <= MAX_FLASHBLOCKS)%nat).

Abbreviation fbs := (b :: ds).

(** The epoch has yielded the flashblocks below [c] and holds those of [R] above. *)
Record holds (e : BlockEpochState) (R : gset nat) (c : nat) : Prop := {
  holds_parent : ep_parent e = tip;
  holds_id : ep_payload_id e = fb_payload_id b;
  holds_cursor : ep_cursor e = c;
  holds_length : length (ep_buffer e) = MAX_FLASHBLOCKS;
  holds_slots : forall i f, ep_buffer e !! i = Some (Some f) <-> (c <= i)%nat /\ i ∈ R /\ fbs !! i = Some f
}.

Lemma take_drop_S {A} (l : list A) c x n :
  l !! c = Some x -> take (S n) (drop c l) = x :: take n (drop (S c) l).
Proof. intros H. by rewrite (drop_S l x c H). Qed.

Lemma drain_loop_holds R fuel : forall e c out,
  (forall i, i ∈ R -> is_Some (fbs !! i)) -> holds e R c -> (MAX_FLASHBLOCKS <= c + fuel)%nat ->
  exists e' c', drain_loop fuel e out = (e', out ++ (Pending <$> take (c' - c) (drop c fbs))) /\
    (c <= c')%nat /\ holds e' R c' /\ (c' ∉ R) /\ (forall i, (c <= i < c')%nat -> i ∈ R).
Proof.
  induction fuel as [|fuel IH]; intros e c out HR [Hp Hid Hc Hl Hs] Hf; simpl.
  { exists e, c. rewrite Nat.sub_diag. rewrite app_nil_r. split; [done|]. split; [done|]. split; [by split|].
    split; [|lia]. intros Hin. destruct (HR c Hin) as [f Hl']. apply lookup_lt_Some in Hl'. lia. }
  rewrite Hc. destruct (ep_buffer e !! c) as [[f|]|] eqn:Hb.
  - pose proof (proj1 (Hs c f) Hb) as (_&Hin&Hf').
    destruct (IH {| ep_parent := ep_parent e; ep_payload_id := ep_payload_id e; ep_cursor := S c;
                    ep_buffer := <[c := None]> (ep_buffer e) |} (S c) (out ++ [Pending f]) HR) as (e'&c'&Hd&Hle&Hh&Hn&Hall).
    + split; cbn [ep_buffer ep_cursor ep_parent ep_payload_id]; [done..|by rewrite length_insert|].
      intros i f'. rewrite list_lookup_insert_Some, Hs. split.
      * intros [(_&?&_)|(Hne&Hle&Hr)]; [done|]. split; [lia|done].
      * intros (Hle&Hr). right. split; [lia|]. split; [lia|done].
    + lia.
    + exists e', c'. rewrite Hd. split.
      * f_equal. rewrite <-app_assoc. f_equal. destruct (c' - c)%nat as [|n] eqn:Hn'; [lia|].
        rewrite (take_drop_S _ c f n Hf'). simpl. f_equal. f_equal. f_equal. lia.
      * split; [lia|]. split; [done|]. split; [done|]. intros i Hi. destruct (decide (i = c)) as [->|]; [done|]. apply Hall. lia.
  - exists e, c. rewrite Nat.sub_diag, app_nil_r. split; [done|]. split; [done|]. split; [by split|]. split; [|lia].
    intros Hin. destruct (HR c Hin) as [f Hf']. assert (ep_buffer e !! c = Some (Some f)) as H by (apply Hs; split; [lia|done]). congruence.
  - exists e, c. rewrite Nat.sub_diag, app_nil_r. split; [done|]. split; [done|]. split; [by split|]. split; [|lia].
    intros Hin. destruct (HR c Hin) as [f Hf']. assert (ep_buffer e !! c = Some (Some f)) as H by (apply Hs; split; [lia|done]). congruence.
Qed.

Lemma epoch_insert_holds e R c j f :
  holds e R c -> fbs !! j = Some f -> j ∉ R -> (c <= j)%nat -> holds (epoch_insert e f) ({[j]} ∪ R) c.
Proof.
  intros [Hp Hid Hc Hl Hs] Hj Hn Hle. pose proof (in_order j f Hj) as Hidx. unfold idx in Hidx.
  assert (fb_payload_id f = ep_payload_id e) as Hf.
  { rewrite Hid. destruct j; simpl in Hj; [by injection Hj as ->|]. rewrite Forall_lookup in same_id. by eapply same_id. }
  unfold epoch_insert. rewrite Hidx. rewrite bool_decide_eq_false_2 by (intros Hne; by apply Hne).
  assert ((MAX_FLASHBLOCKS <=? j)%nat = false) as -> by (apply Nat.leb_gt; apply lookup_lt_Some in Hj; lia).
  rewrite bool_decide_eq_false_2; cbn [orb].
  - split; cbn [ep_buffer ep_cursor ep_parent ep_payload_id]; [done..|by rewrite length_insert|].
    intros i f'. rewrite list_lookup_insert_Some, Hs. split.
    + intros [(<-&[= <-]&_)|(Hne&Hc'&Hr&Hf')]; [set_solver|]. split; [done|]. split; [set_solver|done].
    + intros (Hc'&Hr&Hf'). destruct (decide (j = i)) as [<-|Hne].
      * left. split; [done|]. split; [congruence|]. rewrite Hl. apply lookup_lt_Some in Hj. lia.
      * right. split; [done|]. split; [done|]. split; [set_solver|done].
  - intros [x Hx]. destruct (ep_buffer e !! j) as [[y|]|] eqn:Hb; simpl in Hx; [|done|done].
    apply Hs in Hb as (_&?&_). done.
Qed.

(** What the reducer has done after the flashblocks [R], with or without the block *)
Inductive delivering (R : gset nat) (st : BufferedFlashblocks) : bool -> Prop :=
| delivering_early e : bf_epoch st = Some e -> bf_canon_tip st = None -> bf_output st = [] -> holds e R 0 -> delivering R st false
| delivering_late e c : bf_epoch st = Some e -> bf_canon_tip st = Some tip -> holds e R c -> c ∉ R ->
    (forall i, (i < c)%nat -> i ∈ R) -> bf_output st = Canon tip :: (Pending <$> take c fbs) -> delivering R st true.

Lemma drain_delivering R st e c out :
  (forall i, i ∈ R -> is_Some (fbs !! i)) -> bf_epoch st = Some e -> bf_canon_tip st = Some tip -> holds e R c ->
  (forall i, (i < c)%nat -> i ∈ R) -> bf_output st = out ++ (Pending <$> take c fbs) -> out = [Canon tip] ->
  delivering R (drain st) true.
Proof.
  intros HR He Ht Hh Hall Ho ->. unfold drain. rewrite He, Ht. rewrite bool_decide_eq_true_2 by (f_equal; symmetry; apply Hh).
  destruct (drain_loop_holds R MAX_FLASHBLOCKS e c (bf_output st) HR Hh ltac:(lia)) as (e'&c'&->&Hle&Hh'&Hn&Hall').
  eapply (delivering_late _ _ e' c'); [done|done|exact Hh'|exact Hn| |].
  - intros i Hi. destruct (decide (i < c)%nat); [by apply Hall|apply Hall'; lia].
  - cbn [bf_output]. rewrite Ho. rewrite <-app_assoc. simpl. f_equal. rewrite <-fmap_app. f_equal.
    rewrite take_take_drop. f_equal. lia.
Qed.

Definition within (R : gset nat) : Prop := forall i, i ∈ R -> is_Some (fbs !! i).

Lemma step_delta R st late j f :
  within R -> delivering R st late -> fbs !! j = Some f -> j ∉ R -> fb_base f = None ->
  within ({[j]} ∪ R) /\ delivering ({[j]} ∪ R) (step st (Pending f)) late.
Proof.
  intros HR Hd Hj Hn Hb. assert (HR' : within ({[j]} ∪ R)).
  { intros i [->%elem_of_singleton|Hi]%elem_of_union; [by eexists|by apply HR]. }
  split; [done|]. unfold step. rewrite Hb. destruct Hd as [e He Ht Ho Hh|e c He Ht Hh Hc Hall Ho].
  - apply (delivering_early _ _ (epoch_insert e f)).
    + unfold drain. rewrite He. cbn [fmap option_fmap option_map bf_epoch bf_canon_tip]. rewrite Ht. done.
    + unfold drain. rewrite He. cbn [fmap option_fmap option_map bf_epoch bf_canon_tip]. rewrite Ht. done.
    + unfold drain. rewrite He. cbn [fmap option_fmap option_map bf_epoch bf_canon_tip]. rewrite Ht. done.
    + apply epoch_insert_holds; [done..|lia].
  - assert ((c <= j)%nat) as Hcj by (destruct (decide (c <= j)%nat); [done|destruct Hn; apply Hall; lia]).
    eapply (drain_delivering _ _ (epoch_insert e f) c [Canon tip]); [done|by rewrite He|done|by apply epoch_insert_holds| |done|done].
    intros i Hi. apply elem_of_union. right. by apply Hall.
Qed.

Lemma step_canon R st : within R -> delivering R st false -> delivering R (step st (Canon tip)) true.
Proof.
  intros HR Hd. inversion Hd as [e He Ht Ho Hh|]; subst. unfold step. rewrite He.
  assert (parent_stale tip (ep_parent e) = false) as Hs.
  { rewrite (holds_parent _ _ _ Hh). unfold parent_stale. rewrite Z.ltb_irrefl, Z.eqb_refl, Z.eqb_refl. done. }
  eapply (drain_delivering _ _ e 0 [Canon tip]); [done|cbn [bf_epoch]; by rewrite Hs|done|done|lia| |done].
  cbn [bf_output]. by rewrite Ho.
Qed.

Definition empty_epoch : BlockEpochState :=
  {| ep_parent := tip; ep_payload_id := fb_payload_id b; ep_cursor := 0; ep_buffer := replicate MAX_FLASHBLOCKS None |}.

Lemma base_holds : holds (epoch_insert empty_epoch b) {[0%nat]} 0.
Proof.
  replace ({[0%nat]} : gset nat) with (({[0%nat]} ∪ ∅) : gset nat) by set_solver.
  apply epoch_insert_holds; [|done|set_solver|done]. split; [done..|]. intros i f. split.
  - intros H. apply (proj1 (lookup_replicate MAX_FLASHBLOCKS None (Some f) i)) in H as [? _]. done.
  - set_solver.
Qed.

Lemma base_within : within {[0%nat]}.
Proof. intros i ->%elem_of_singleton. by eexists. Qed.

Lemma step_base_early : delivering {[0%nat]} (step buffered_new (Pending b)) false.
Proof.
  unfold step. rewrite b_base. unfold epoch_try_new. rewrite b_base, b_parent.
  by apply (delivering_early _ _ (epoch_insert empty_epoch b)); [..|apply base_holds].
Qed.

Lemma step_base_late : delivering {[0%nat]} (step (step buffered_new (Canon tip)) (Pending b)) true.
Proof.
  unfold step at 1. rewrite b_base. unfold epoch_try_new. rewrite b_base, b_parent. cbn [step drain bf_canon_tip bf_epoch buffered_new].
  rewrite Z.ltb_irrefl.
  eapply (drain_delivering _ _ (epoch_insert empty_epoch b) 0 [Canon tip]); [apply base_within|done|done|apply base_holds|lia|done|done].
Qed.

(** Indices of a list of flashblocks of the payload *)
Definition indices (l : list FlashblocksPayloadV1) : gset nat := list_to_set (idx <$> l).

Lemma deliver_deltas l : forall R st late,
  within R -> delivering R st late -> NoDup (idx <$> l) ->
  Forall (fun f => fbs !! idx f = Some f /\ (idx f ∉ R) /\ fb_base f = None) l ->
  within (indices l ∪ R) /\ delivering (indices l ∪ R) (foldl step st (Pending <$> l)) late.
Proof.
  induction l as [|f l IH]; intros R st late HR Hd Hnd Hl.
  { unfold indices. simpl. by rewrite (left_id_L ∅ (∪)). }
  apply Forall_cons in Hl as [(Hf&Hn&Hb) Hl]. apply NoDup_cons in Hnd as [Hnf Hnd].
  destruct (step_delta R st late (idx f) f HR Hd Hf Hn Hb) as [HR' Hd'].
  destruct (IH _ _ _ HR' Hd' Hnd) as [Hw Hr].
  - rewrite Forall_forall in Hl |- *. intros g Hg. destruct (Hl g Hg) as (?&?&?). split; [done|]. split; [|done].
    intros [He%elem_of_singleton|?]%elem_of_union; [|done]. apply Hnf. rewrite <-He. by apply list_elem_of_fmap_2.
  - replace (indices (f :: l) ∪ R) with (indices l ∪ ({[idx f]} ∪ R)); [by split|]. unfold indices. simpl. set_solver.
Qed.

Lemma delivered_all l st :
  l ≡ₚ ds -> delivering (indices l ∪ {[0%nat]}) st true -> bf_output st = Canon tip :: (Pending <$> fbs).
Proof.
  intros Hp Hd. inversion Hd as [|e c He Ht Hh Hc Hall Ho]; subst. rewrite Ho. f_equal.
  assert (Hin : forall i, i ∈ indices l ∪ {[0%nat]} <-> (i < length fbs)%nat).
  { intros i. unfold indices. rewrite elem_of_union, elem_of_singleton, elem_of_list_to_set, list_elem_of_fmap. split.
    - intros [(f&->&Hf)| ->]; [|simpl; lia]. rewrite Hp in Hf. apply list_elem_of_lookup in Hf as [k Hk].
      rewrite (in_order (S k) f Hk). apply lookup_lt_Some in Hk. simpl. lia.
    - intros Hi. destruct i as [|i]; [by right|]. left. destruct (lookup_lt_is_Some_2 ds i) as [f Hf]; [simpl in Hi; lia|].
      exists f. split; [symmetry; by apply (in_order (S i))|]. rewrite Hp. by eapply list_elem_of_lookup_2. }
  assert (c = length fbs) as ->; [|by rewrite firstn_all].
  destruct (Nat.lt_trichotomy c (length fbs)) as [Hlt|[Heq|Hgt]]; [by destruct Hc; apply Hin|done|].
  specialize (Hall (length fbs) Hgt). apply Hin in Hall. lia.
Qed.

Lemma deltas_ready l : l ≡ₚ ds ->
  NoDup (idx <$> l) /\ Forall (fun f => fbs !! idx f = Some f /\ (idx f ∉ ({[0%nat]} : gset nat)) /\ fb_base f = None) l.
Proof.
  intros Hp.
  assert (Hidx : forall k f, ds !! k = Some f -> idx f = S k) by (intros k f Hk; by apply (in_order (S k))).
  split.
  - rewrite Hp. apply NoDup_alt. intros i j x Hi Hj. apply list_lookup_fmap_Some in Hi as (f&->&Hf).
    apply list_lookup_fmap_Some in Hj as (g&Hg'&Hg). rewrite (Hidx _ _ Hf), (Hidx _ _ Hg) in Hg'. lia.
  - rewrite Hp. apply Forall_lookup. intros k f Hk. rewrite (Hidx _ _ Hk). split; [done|]. split; [set_solver|].
    rewrite Forall_lookup in ds_base. by eapply ds_base.
Qed.

(** The flashblocks of a payload are delivered in the order of their indices after
    their parent block, whatever the order in which the later ones arrive and whenever
    the block becomes canonical. *)
Theorem delivery_in_order l e1 e2 :
  l ≡ₚ ds -> e1 ++ e2 = Pending b :: (Pending <$> l) ->
  outputs (e1 ++ Canon tip :: e2) = Canon tip :: (Pending <$> fbs).
Proof.
  intros Hp Hsplit. destruct (deltas_ready l Hp) as [Hnd Hl]. unfold outputs, run. apply (delivered_all l); [done|].
  destruct e1 as [|x e1].
  - simpl in Hsplit. subst e2. simpl. by apply deliver_deltas; [apply base_within|apply step_base_late|..].
  - simpl in Hsplit. injection Hsplit as -> Hs. symmetry in Hs. apply fmap_app_inv in Hs as (l1&l2&->&->&->).
    rewrite foldl_app. cbn [foldl]. unfold indices in *. rewrite fmap_app in Hnd. apply NoDup_app in Hnd as (Hnd1&Hdis&Hnd2).
    apply Forall_app in Hl as [Hl1 Hl2].
    destruct (deliver_deltas l1 _ _ _ base_within step_base_early Hnd1 Hl1) as [Hw1 Hd1].
    apply step_canon in Hd1; [|done].
    destruct (deliver_deltas l2 _ _ _ Hw1 Hd1 Hnd2) as [_ Hd2].
    + rewrite Forall_forall in Hl2 |- *. intros f Hf. destruct (Hl2 f Hf) as (?&?&?). split; [done|]. split; [|done].
      intros [Hi|Hi]%elem_of_union; [|done]. apply elem_of_list_to_set in Hi. apply (Hdis (idx f) Hi). by apply list_elem_of_fmap_2.
    + unfold indices in Hd2. rewrite fmap_app, list_to_set_app_L. simpl.
      replace (list_to_set (idx <$> l1) ∪ list_to_set (idx <$> l2) ∪ {[0%nat]} : gset nat)
        with (list_to_set (idx <$> l2) ∪ (list_to_set (idx <$> l1) ∪ {[0%nat]}) : gset nat) by set_solver. exact Hd2.
Qed.
End delivery.

(** ** Examples *)

Definition ex_base : ExecutionPayloadBaseV1 :=
  {| pb_parent_beacon_block_root := 0; pb_parent_hash := 70; pb_fee_recipient := 0; pb_prev_randao := 0;
     pb_block_number := 8; pb_gas_limit := 0; pb_timestamp := 0; pb_extra_data := []; pb_base_fee_per_gas := 0 |}.
Definition ex_fb (i : Z) (base : option ExecutionPayloadBaseV1) : FlashblocksPayloadV1 :=
  {| fb_payload_id := [1]; fb_index := i; fb_diff := zero_diff;
     fb_metadata := {| md_fees := 0; md_flashblock_timestamp := None |}; fb_base := base |}.
Definition ex_tip : BlockNumHash := {| bn_number := 7; bn_hash := 70 |}.

Lemma delivery_in_order_witness :
  outputs [Pending (ex_fb 0 (Some ex_base)); Pending (ex_fb 2 None); Canon ex_tip; Pending (ex_fb 1 None)] =
    [Canon ex_tip; Pending (ex_fb 0 (Some ex_base)); Pending (ex_fb 1 None); Pending (ex_fb 2 None)].
Proof.
  apply (delivery_in_order ex_tip (ex_fb 0 (Some ex_base)) ex_base [ex_fb 1 None; ex_fb 2 None]) with
    (l := [ex_fb 2 None; ex_fb 1 None]) (e1 := [Pending (ex_fb 0 (Some ex_base)); Pending (ex_fb 2 None)]) (e2 := [Pending (ex_fb 1 None)]).
  - reflexivity.
  - reflexivity.
  - repeat constructor.
  - repeat constructor.
  - intros [|[|[|i]]] f H; simpl in H; [injection H as <-; reflexivity..|discriminate H].
  - vm_compute. lia.
  - apply perm_swap.
  - reflexivity.
Defined.

Lemma stream_is_anchored_witness :
  all_anchored [Pending (ex_fb 0 (Some ex_base)); Canon ex_tip] [Canon ex_tip; Pending (ex_fb 0 (Some ex_base))].
Proof.
  apply (stream_is_anchored 3 [PReady (Pending (ex_fb 0 (Some ex_base))); PPending; PReady (Canon ex_tip)]
    [Canon ex_tip; Pending (ex_fb 0 (Some ex_base))] (poll_many 3 buffered_new
      [PReady (Pending (ex_fb 0 (Some ex_base))); PPending; PReady (Canon ex_tip)]).1.2 []).
  reflexivity.
Defined.

(** The reducer has room for twelve flashblocks of a payload; it drops the others,
    although they are not stale and the network accepts indices up to one hundred. *)
Theorem thirteenth_is_dropped :
  outputs (Canon ex_tip :: Pending (ex_fb 0 (Some ex_base)) :: (Pending <$> ((fun i => ex_fb i None) <$> seqZ 1 12))) =
  Canon ex_tip :: Pending (ex_fb 0 (Some ex_base)) :: (Pending <$> ((fun i => ex_fb i None) <$> seqZ 1 11)).
Proof. reflexivity. Qed.
