(* ===== verification/P2pCodec.v ===== *)
(** * Messages of the flashblocks network
    ([src/crates/primitives/src]: [p2p.rs], [primitives.rs], [error.rs])

    Builders send flashblocks in signed messages: the authorizer signs the builder's
    key for a payload, and the builder signs the message with that authorization.  The
    messages are RLP.  A node decodes the body of a message only after it has checked
    the signatures over the bytes that came in.

    RLP of integers, byte strings and derived structs, JSON, Ed25519 and BLAKE3 are
    third-party; they are the records [RlpLib] and [Ed25519].  A slice that would be
    out of bounds is the error [Panicked]; the theorems show that it does not occur. *)

From S2P Require Import Prelude Encoding ProofTypes AccessList Flashblocks.

(** ** Libraries *)

Inductive DecodeError :=
| Panicked
| UnexpectedString
| RlpCustom (message : string)
| RlpOther (message : string).

Record RlpLib := {
  header_encode : bool -> nat -> bytes;
  header_decode : bytes -> result (bool * nat * bytes) DecodeError;
  b64_encode : bytes -> bytes;
  b64_decode : bytes -> result (bytes * bytes) DecodeError;
  u64_encode : Z -> bytes;
  u64_decode : bytes -> result (Z * bytes) DecodeError;
  u32_encode : Z -> bytes;
  u8_decode : bytes -> result (Z * bytes) DecodeError;
  bytes_encode : bytes -> bytes;
  bytes_decode : bytes -> result (bytes * bytes) DecodeError;
  diff_encode : ExecutionPayloadFlashblockDeltaV1 -> bytes;
  diff_decode : bytes -> result (ExecutionPayloadFlashblockDeltaV1 * bytes) DecodeError;
  base_encode : ExecutionPayloadBaseV1 -> bytes;
  base_decode : bytes -> result (ExecutionPayloadBaseV1 * bytes) DecodeError;
  json_to_vec : FlashblockMetadata -> bytes;
  json_from_slice : bytes -> option FlashblockMetadata
}.

Record Ed25519 := {
  VerifyingKey : Type;
  SigningKey : Type;
  Signature : Type;
  vk_eq_dec : EqDecision VerifyingKey;
  sig_eq_dec : EqDecision Signature;
  vk_as_bytes : VerifyingKey -> bytes;
  vk_try_from : bytes -> option VerifyingKey;
  sig_to_bytes : Signature -> bytes;
  sig_try_from : bytes -> option Signature;
  verifying_key : SigningKey -> VerifyingKey;
  ed_sign : SigningKey -> bytes -> Signature;
  ed_verify : VerifyingKey -> bytes -> Signature -> bool;
  blake3 : bytes -> bytes
}.
#[export] Existing Instance vk_eq_dec.
#[export] Existing Instance sig_eq_dec.

Definition USIZE_MAX : Z := 2 ^ 64 - 1.

(** What the sources rely on: a decoder takes back what its encoder wrote and leaves
    the rest, a header announces no more than is there, and no decoder panics. *)
Class RlpLaws (L : RlpLib) := {
  header_law list n rest : Z.of_nat n <= USIZE_MAX -> (n <= length rest)%nat ->
    header_decode L (header_encode L list n ++ rest) = Ok (list, n, rest);
  header_bound buf list n rest : header_decode L buf = Ok (list, n, rest) ->
    (n <= length rest)%nat /\ exists header, buf = header ++ rest;
  header_no_panic buf : header_decode L buf <> Err Panicked;
  b64_law b rest : length b = 8%nat -> b64_decode L (b64_encode L b ++ rest) = Ok (b, rest);
  b64_no_panic buf : b64_decode L buf <> Err Panicked;
  u64_law x rest : u64 x -> u64_decode L (u64_encode L x ++ rest) = Ok (x, rest);
  u64_no_panic buf : u64_decode L buf <> Err Panicked;
  tag_law x rest : 0 <= x <= 2 -> u8_decode L (u32_encode L x ++ rest) = Ok (x, rest);
  tag_length x : 0 <= x <= 2 -> length (u32_encode L x) = 1%nat;
  u8_no_panic buf : u8_decode L buf <> Err Panicked;
  bytes_law b rest : Z.of_nat (length b) <= USIZE_MAX -> bytes_decode L (bytes_encode L b ++ rest) = Ok (b, rest);
  bytes_shorter b : (length b <= length (bytes_encode L b))%nat;
  bytes_suffix buf b rest : bytes_decode L buf = Ok (b, rest) -> exists x, buf = x ++ rest;
  bytes_no_panic buf : bytes_decode L buf <> Err Panicked;
  diff_law d rest : diff_decode L (diff_encode L d ++ rest) = Ok (d, rest);
  diff_no_panic buf : diff_decode L buf <> Err Panicked;
  base_law b rest : base_decode L (base_encode L b ++ rest) = Ok (b, rest);
  base_is_list b : head (base_encode L b) <> Some 0x80 /\ base_encode L b <> [];
  base_no_panic buf : base_decode L buf <> Err Panicked;
  json_law m : json_from_slice L (json_to_vec L m) = Some m
}.

Class EdLaws (C : Ed25519) := {
  vk_law k : vk_try_from C (vk_as_bytes C k) = Some k;
  sig_law s : sig_try_from C (sig_to_bytes C s) = Some s;
  sign_law sk m : ed_verify C (verifying_key C sk) m (ed_sign C sk m) = true
}.

(** ** Data *)

Section messages.
Context (L : RlpLib) (C : Ed25519).

Record Authorization := {
  au_payload_id : PayloadId;
  au_timestamp : Z;
  au_builder_vk : VerifyingKey C;
  au_authorizer_sig : Signature C
}.
#[export] Instance Authorization_eq_dec : EqDecision Authorization.
Proof. solve_decision. Defined.

Inductive AuthorizedMsg :=
| MsgFlashblock (payload : FlashblocksPayloadV1)
| MsgStartPublish
| MsgStopPublish.
#[export] Instance AuthorizedMsg_eq_dec : EqDecision AuthorizedMsg.
Proof. solve_decision. Defined.

Record Authorized := { ad_msg : AuthorizedMsg; ad_authorization : Authorization; ad_actor_sig : Signature C }.
#[export] Instance Authorized_eq_dec : EqDecision Authorized.
Proof. solve_decision. Defined.

Inductive FlashblocksP2PMsg :=
| P2pAuthorized (a : Authorized)
| RequestFlashblocks | AcceptFlashblocks | RejectFlashblocks | CancelFlashblocks.

(** A frame whose body is not decoded yet *)
Record AuthorizedParts := {
  ap_authorization : Authorization;
  ap_actor_sig : Signature C;
  ap_msg : bytes;
  ap_signed : bytes
}.

Inductive FlashblocksP2PMsgParts :=
| PartsAuthorized (parts : AuthorizedParts)
| PartsRequest | PartsAccept | PartsReject | PartsCancel.

Inductive P2pCodecError :=
| InvalidAuthorizerSig | InvalidBuilderSig | InputTooShort | UnknownMessageType | CodecRlp (e : DecodeError).

(** ** Encoding *)

Definition list_of (payload_length : nat) (body : bytes) : bytes := header_encode L true payload_length ++ body.
Definition list_length (payload_length : nat) : nat := (length (header_encode L true payload_length) + payload_length)%nat.

Definition authorization_payload_len (a : Authorization) : nat :=
  (length (b64_encode L (au_payload_id a)) + length (u64_encode L (au_timestamp a)) +
   length (bytes_encode L (vk_as_bytes C (au_builder_vk a))) +
   length (bytes_encode L (sig_to_bytes C (au_authorizer_sig a))))%nat.

(** [Encodable for Authorization] *)
Definition authorization_encode (a : Authorization) : bytes :=
  list_of (authorization_payload_len a)
    (b64_encode L (au_payload_id a) ++ u64_encode L (au_timestamp a) ++ bytes_encode L (vk_as_bytes C (au_builder_vk a)) ++
     bytes_encode L (sig_to_bytes C (au_authorizer_sig a))).
Definition authorization_length (a : Authorization) : nat := list_length (authorization_payload_len a).

Definition payload_payload_len (p : FlashblocksPayloadV1) : nat :=
  (length (b64_encode L (fb_payload_id p)) + length (u64_encode L (fb_index p)) + length (diff_encode L (fb_diff p)) +
   length (bytes_encode L (json_to_vec L (fb_metadata p))) +
   from_option (fun b => length (base_encode L b)) 1 (fb_base p))%nat.

(** [Encodable for FlashblocksPayloadV1] *)
Definition payload_encode (p : FlashblocksPayloadV1) : bytes :=
  list_of (payload_payload_len p)
    (b64_encode L (fb_payload_id p) ++ u64_encode L (fb_index p) ++ diff_encode L (fb_diff p) ++
     bytes_encode L (json_to_vec L (fb_metadata p)) ++ from_option (base_encode L) [0x80] (fb_base p)).
Definition payload_length (p : FlashblocksPayloadV1) : nat := list_length (payload_payload_len p).

(** [Encodable for AuthorizedMsg]; the markers have no body. *)
Definition msg_body_len (m : AuthorizedMsg) : nat :=
  match m with MsgFlashblock p => 1 + payload_length p | MsgStartPublish => 1 + 0 | MsgStopPublish => 1 + 0 end%nat.
Definition msg_encode (m : AuthorizedMsg) : bytes :=
  list_of (msg_body_len m)
    match m with
    | MsgFlashblock p => u32_encode L 0 ++ payload_encode p
    | MsgStartPublish => u32_encode L 1
    | MsgStopPublish => u32_encode L 2
    end.
Definition msg_length (m : AuthorizedMsg) : nat := list_length (msg_body_len m).

(** [Encodable for Authorized] *)
Definition authorized_payload_len (a : Authorized) : nat :=
  (msg_length (ad_msg a) + authorization_length (ad_authorization a) +
   length (bytes_encode L (sig_to_bytes C (ad_actor_sig a))))%nat.
Definition authorized_encode (a : Authorized) : bytes :=
  list_of (authorized_payload_len a)
    (msg_encode (ad_msg a) ++ authorization_encode (ad_authorization a) ++ bytes_encode L (sig_to_bytes C (ad_actor_sig a))).

(** [FlashblocksP2PMsg::encode] *)
Definition p2p_encode (m : FlashblocksP2PMsg) : bytes :=
  match m with
  | P2pAuthorized a => 0 :: authorized_encode a
  | RequestFlashblocks => [1]
  | AcceptFlashblocks => [2]
  | RejectFlashblocks => [3]
  | CancelFlashblocks => [4]
  end.

(** ** Decoding *)

Definition slice_to (n : nat) (buf : bytes) : result bytes DecodeError :=
  if (n <=? length buf)%nat then Ok (take n buf) else Err Panicked.
Definition slice_from (n : nat) (buf : bytes) : result bytes DecodeError :=
  if (n <=? length buf)%nat then Ok (drop n buf) else Err Panicked.
Definition usize_sub (a b : nat) : result nat DecodeError := if (b <=? a)%nat then Ok (a - b)%nat else Err Panicked.

Definition decode_list (not_list : DecodeError) (buf : bytes) : result (nat * bytes) DecodeError :=
  let? '(list, n, buf) := header_decode L buf in
  if list : bool then Ok (n, buf) else Err not_list.

Definition decode_sig (buf : bytes) : result (Signature C * bytes) DecodeError :=
  let? '(sig_bytes, buf) := bytes_decode L buf in
  let? sig := ok_or (sig_try_from C sig_bytes) (RlpCustom "bad signature") in
  Ok (sig, buf).

(** [Decodable for Authorization] *)
Definition authorization_decode (buf : bytes) : result (Authorization * bytes) DecodeError :=
  let? '(n, buf) := decode_list UnexpectedString buf in
  let? body := slice_to n buf in
  let? '(payload_id, body) := b64_decode L body in
  let? '(timestamp, body) := u64_decode L body in
  let? '(pub_bytes, body) := bytes_decode L body in
  let? builder_pub := ok_or (vk_try_from C pub_bytes) (RlpCustom "bad builder_pub") in
  let? '(authorizer_sig, body) := decode_sig body in
  let? buf := slice_from n buf in
  Ok ({| au_payload_id := payload_id; au_timestamp := timestamp; au_builder_vk := builder_pub;
         au_authorizer_sig := authorizer_sig |}, buf).

(** [Decodable for FlashblocksPayloadV1] *)
Definition payload_decode (buf : bytes) : result (FlashblocksPayloadV1 * bytes) DecodeError :=
  let? '(n, buf) := decode_list UnexpectedString buf in
  let? body := slice_to n buf in
  let? '(payload_id, body) := b64_decode L body in
  let? '(index, body) := u64_decode L body in
  let? '(diff, body) := diff_decode L body in
  let? '(meta_bytes, body) := bytes_decode L body in
  let? metadata := ok_or (json_from_slice L meta_bytes) (RlpCustom "bad JSON") in
  let? base := (if bool_decide (head body = Some 0x80) then Ok None
                else let? '(base, body) := base_decode L body in Ok (Some base)) in
  let? buf := slice_from n buf in
  Ok ({| fb_payload_id := payload_id; fb_index := index; fb_diff := diff; fb_metadata := metadata; fb_base := base |}, buf).

(** [Decodable for AuthorizedMsg]: the length the header announces is not used. *)
Definition msg_decode (buf : bytes) : result (AuthorizedMsg * bytes) DecodeError :=
  let? '(n, buf) := decode_list (RlpCustom "AuthorizedMsg must be an RLP list") buf in
  let? '(tag, buf) := u8_decode L buf in
  if tag =? 0 then let? '(p, buf) := payload_decode buf in Ok (MsgFlashblock p, buf)
  else if tag =? 1 then Ok (MsgStartPublish, buf)
  else if tag =? 2 then Ok (MsgStopPublish, buf)
  else Err (RlpCustom "unknown tag").

(** [Decodable for Authorized] *)
Definition authorized_decode (buf : bytes) : result (Authorized * bytes) DecodeError :=
  let? '(n, buf) := decode_list UnexpectedString buf in
  let? body := slice_to n buf in
  let? '(payload, body) := msg_decode body in
  let? '(authorization, body) := authorization_decode body in
  let? '(builder_sig, body) := decode_sig body in
  let? buf := slice_from n buf in
  Ok ({| ad_msg := payload; ad_authorization := authorization; ad_actor_sig := builder_sig |}, buf).

(** [Authorized::parse] *)
Definition authorized_parse (buf : bytes) : result (AuthorizedParts * bytes) DecodeError :=
  let? '(n, buf) := decode_list UnexpectedString buf in
  let? body := slice_to n buf in
  let? '(msg_payload, cursor) := decode_list (RlpCustom "AuthorizedMsg must be an RLP list") body in
  let? consumed := usize_sub (length body) (length cursor) in
  let msg_len := (consumed + msg_payload)%nat in
  let? after_msg := slice_from msg_len body in
  let? '(authorization, rest) := authorization_decode after_msg in
  let? auth_len := usize_sub (length after_msg) (length rest) in
  let signed_len := (msg_len + auth_len)%nat in
  let? '(actor_sig, rest) := decode_sig rest in
  let? buf := slice_from n buf in
  let? msg := slice_to msg_len body in
  let? signed := slice_to signed_len body in
  Ok ({| ap_authorization := authorization; ap_actor_sig := actor_sig; ap_msg := msg; ap_signed := signed |}, buf).

(** [FlashblocksP2PMsg::parse], used for what peers send *)
Definition p2p_parse (buf : bytes) : result FlashblocksP2PMsgParts P2pCodecError :=
  match buf with
  | [] => Err InputTooShort
  | id :: rest =>
      if id =? 0 then
        let? '(parts, rest) := map_err CodecRlp (authorized_parse rest) in
        Ok (PartsAuthorized parts)
      else if id =? 1 then Ok PartsRequest
      else if id =? 2 then Ok PartsAccept
      else if id =? 3 then Ok PartsReject
      else if id =? 4 then Ok PartsCancel
      else Err UnknownMessageType
  end.

(** [FlashblocksP2PMsg::decode] *)
Definition p2p_decode (buf : bytes) : result (FlashblocksP2PMsg * bytes) P2pCodecError :=
  match buf with
  | [] => Err InputTooShort
  | id :: buf =>
      if id =? 0 then
        let? '(payload, buf) := map_err CodecRlp (authorized_decode buf) in
        Ok (P2pAuthorized payload, buf)
      else if id =? 1 then Ok (RequestFlashblocks, buf)
      else if id =? 2 then Ok (AcceptFlashblocks, buf)
      else if id =? 3 then Ok (RejectFlashblocks, buf)
      else if id =? 4 then Ok (CancelFlashblocks, buf)
      else Err UnknownMessageType
  end.

(** ** Signatures *)

(** What the authorizer signs *)
Definition authorization_preimage (payload_id : PayloadId) (timestamp : Z) (vk : VerifyingKey C) : bytes :=
  payload_id ++ rev (be_bytes 8 timestamp) ++ vk_as_bytes C vk.

(** [Authorization::new] *)
Definition authorization_new (payload_id : PayloadId) (timestamp : Z) (authorizer_sk : SigningKey C)
    (actor_vk : VerifyingKey C) : Authorization :=
  {| au_payload_id := payload_id; au_timestamp := timestamp; au_builder_vk := actor_vk;
     au_authorizer_sig := ed_sign C authorizer_sk (blake3 C (authorization_preimage payload_id timestamp actor_vk)) |}.

(** [Authorization::verify] *)
Definition authorization_verify (a : Authorization) (authorizer : VerifyingKey C) : result unit P2pCodecError :=
  if ed_verify C authorizer
       (blake3 C (authorization_preimage (au_payload_id a) (au_timestamp a) (au_builder_vk a))) (au_authorizer_sig a)
  then Ok tt else Err InvalidAuthorizerSig.

(** [Authorized::new] *)
Definition authorized_new (actor_sk : SigningKey C) (authorization : Authorization) (msg : AuthorizedMsg) : Authorized :=
  {| ad_msg := msg; ad_authorization := authorization;
     ad_actor_sig := ed_sign C actor_sk (blake3 C (msg_encode msg ++ authorization_encode authorization)) |}.

(** [Authorized::verify] *)
Definition authorized_verify (a : Authorized) (authorizer : VerifyingKey C) : result unit P2pCodecError :=
  let? _ := authorization_verify (ad_authorization a) authorizer in
  if ed_verify C (au_builder_vk (ad_authorization a))
       (blake3 C (msg_encode (ad_msg a) ++ authorization_encode (ad_authorization a))) (ad_actor_sig a)
  then Ok tt else Err InvalidBuilderSig.

(** [AuthorizedParts::verify] *)
Definition parts_verify (p : AuthorizedParts) (authorizer : VerifyingKey C) : result unit P2pCodecError :=
  let? _ := authorization_verify (ap_authorization p) authorizer in
  if ed_verify C (au_builder_vk (ap_authorization p)) (blake3 C (ap_signed p)) (ap_actor_sig p)
  then Ok tt else Err InvalidBuilderSig.

(** [AuthorizedParts::into_authorized] *)
Definition into_authorized (p : AuthorizedParts) : result Authorized P2pCodecError :=
  let? '(msg, _) := map_err CodecRlp (msg_decode (ap_msg p)) in
  Ok {| ad_msg := msg; ad_authorization := ap_authorization p; ad_actor_sig := ap_actor_sig p |}.

(** ** What is encoded is decoded *)

Section laws.
Context {RL : RlpLaws L} {EL : EdLaws C}.

Definition authorization_wf (a : Authorization) : Prop := length (au_payload_id a) = 8%nat /\ u64 (au_timestamp a).
Definition msg_wf (m : AuthorizedMsg) : Prop :=
  match m with MsgFlashblock p => length (fb_payload_id p) = 8%nat /\ u64 (fb_index p) | _ => True end.
Definition p2p_wf (m : FlashblocksP2PMsg) : Prop :=
  match m with P2pAuthorized a => msg_wf (ad_msg a) /\ authorization_wf (ad_authorization a) | _ => True end.

(** A buffer's length is a [usize]. *)
Definition fits (buf : bytes) : Prop := Z.of_nat (length buf) <= USIZE_MAX.

Lemma fits_app a b : fits (a ++ b) -> fits a /\ fits b.
Proof. unfold fits. rewrite length_app. lia. Qed.

Lemma fits_bytes b : fits (bytes_encode L b) -> fits b.
Proof. unfold fits. pose proof (bytes_shorter b). lia. Qed.

Lemma slice_to_app a b n : n = length a -> slice_to n (a ++ b) = Ok a.
Proof. intros ->. unfold slice_to. rewrite length_app, take_app_length.
  by rewrite (proj2 (Nat.leb_le _ _)) by lia. Qed.

Lemma slice_from_app a b n : n = length a -> slice_from n (a ++ b) = Ok b.
Proof. intros ->. unfold slice_from. rewrite length_app, drop_app_length.
  by rewrite (proj2 (Nat.leb_le _ _)) by lia. Qed.

Lemma decode_list_encode e n body rest :
  n = length body -> fits body -> decode_list e (list_of n body ++ rest) = Ok (n, body ++ rest).
Proof.
  intros -> F. unfold decode_list, list_of. rewrite <- app_assoc, header_law; [done|done|].
  rewrite length_app. lia.
Qed.

Lemma decode_sig_encode sig rest :
  fits (bytes_encode L (sig_to_bytes C sig)) -> decode_sig (bytes_encode L (sig_to_bytes C sig) ++ rest) = Ok (sig, rest).
Proof. intros F%fits_bytes. unfold decode_sig. rewrite (bytes_law _ _ F). cbn. by rewrite sig_law. Qed.

(** The [length] methods announce what [encode] writes. *)
Lemma authorization_payload_len_spec a :
  authorization_payload_len a = length (b64_encode L (au_payload_id a) ++ u64_encode L (au_timestamp a) ++
    bytes_encode L (vk_as_bytes C (au_builder_vk a)) ++ bytes_encode L (sig_to_bytes C (au_authorizer_sig a))).
Proof. unfold authorization_payload_len. rewrite !length_app. lia. Qed.

Lemma payload_payload_len_spec p :
  payload_payload_len p = length (b64_encode L (fb_payload_id p) ++ u64_encode L (fb_index p) ++ diff_encode L (fb_diff p) ++
     bytes_encode L (json_to_vec L (fb_metadata p)) ++ from_option (base_encode L) [0x80] (fb_base p)).
Proof. unfold payload_payload_len. rewrite !length_app. destruct (fb_base p); cbn [from_option length]; lia. Qed.

Lemma list_of_length n body : n = length body -> length (list_of n body) = list_length n.
Proof. intros ->. unfold list_of, list_length. by rewrite length_app. Qed.

Lemma msg_body_len_spec m :
  msg_body_len m = length match m with
                          | MsgFlashblock p => u32_encode L 0 ++ payload_encode p
                          | MsgStartPublish => u32_encode L 1
                          | MsgStopPublish => u32_encode L 2
                          end.
Proof.
  destruct m as [p| |]; cbn [msg_body_len]; [|by rewrite tag_length by lia..].
  rewrite length_app, tag_length by lia. unfold payload_length, payload_encode.
  by rewrite list_of_length by apply payload_payload_len_spec.
Qed.

Lemma authorized_payload_len_spec a :
  authorized_payload_len a = length (msg_encode (ad_msg a) ++ authorization_encode (ad_authorization a) ++
    bytes_encode L (sig_to_bytes C (ad_actor_sig a))).
Proof.
  unfold authorized_payload_len, msg_length, authorization_length. rewrite !length_app.
  unfold msg_encode, authorization_encode.
  rewrite !list_of_length by (apply msg_body_len_spec || apply authorization_payload_len_spec). lia.
Qed.

Lemma fits_list n body : fits (list_of n body) -> fits body.
Proof. unfold list_of. by intros [_ F]%fits_app. Qed.

Lemma authorization_roundtrip a rest :
  authorization_wf a -> fits (authorization_encode a) ->
  authorization_decode (authorization_encode a ++ rest) = Ok (a, rest).
Proof.
  intros [Hid Hts] F%fits_list. unfold authorization_decode, authorization_encode.
  rewrite decode_list_encode by (apply authorization_payload_len_spec || done). cbn [rbind].
  rewrite slice_to_app by apply authorization_payload_len_spec. cbn [rbind].
  apply fits_app in F as [_ [_ [F1 F2]%fits_app]%fits_app].
  rewrite b64_law by done. cbn [rbind]. rewrite u64_law by done. cbn [rbind].
  rewrite bytes_law by by apply fits_bytes. cbn [rbind]. rewrite vk_law. cbn [ok_or rbind].
  rewrite <- (app_nil_r (bytes_encode L (sig_to_bytes C _))), decode_sig_encode by done. cbn [rbind].
  rewrite app_nil_r, slice_from_app by apply authorization_payload_len_spec. by destruct a.
Qed.

Lemma payload_roundtrip p rest :
  msg_wf (MsgFlashblock p) -> fits (payload_encode p) -> payload_decode (payload_encode p ++ rest) = Ok (p, rest).
Proof.
  intros [Hid Hix] F%fits_list. unfold payload_decode, payload_encode.
  rewrite decode_list_encode by (apply payload_payload_len_spec || done). cbn [rbind].
  rewrite slice_to_app by apply payload_payload_len_spec. cbn [rbind].
  apply fits_app in F as [_ [_ [_ [F _]%fits_app]%fits_app]%fits_app].
  rewrite b64_law by done. cbn [rbind]. rewrite u64_law by done. cbn [rbind]. rewrite diff_law. cbn [rbind].
  rewrite bytes_law by by apply fits_bytes. cbn [rbind]. rewrite json_law. cbn [ok_or rbind].
  rewrite slice_from_app by apply payload_payload_len_spec. destruct p as [id ix d md [b|]]; cbn; [|done].
  destruct (base_is_list b) as [Hb _]. rewrite bool_decide_false by done.
  by rewrite <- (app_nil_r (base_encode L b)), base_law.
Qed.

Lemma msg_roundtrip m rest : msg_wf m -> fits (msg_encode m) -> msg_decode (msg_encode m ++ rest) = Ok (m, rest).
Proof.
  intros W F%fits_list. unfold msg_decode, msg_encode.
  rewrite decode_list_encode by (apply msg_body_len_spec || done). cbn [rbind].
  destruct m as [p| |]; [|by rewrite tag_law by lia..].
  rewrite <- app_assoc, tag_law by lia. cbn. apply fits_app in F as [_ F]. by rewrite payload_roundtrip.
Qed.

Lemma authorized_roundtrip a rest :
  p2p_wf (P2pAuthorized a) -> fits (authorized_encode a) -> authorized_decode (authorized_encode a ++ rest) = Ok (a, rest).
Proof.
  intros [W1 W2] F%fits_list. unfold authorized_decode, authorized_encode.
  rewrite decode_list_encode by (apply authorized_payload_len_spec || done). cbn [rbind].
  rewrite slice_to_app by apply authorized_payload_len_spec. cbn [rbind].
  apply fits_app in F as [F1 [F2 F3]%fits_app].
  rewrite msg_roundtrip by done. cbn [rbind]. rewrite authorization_roundtrip by done. cbn [rbind].
  rewrite <- (app_nil_r (bytes_encode L (sig_to_bytes C _))), decode_sig_encode by done. cbn [rbind].
  rewrite app_nil_r, slice_from_app by apply authorized_payload_len_spec. by destruct a.
Qed.

(** ** What a parsed frame is *)

Lemma decode_list_Ok e buf n rest :
  decode_list e buf = Ok (n, rest) -> (n <= length rest)%nat /\ exists header, buf = header ++ rest.
Proof.
  unfold decode_list. intros [[[b k] r] [H E]]%rbind_Ok. destruct b; simplify_eq. by apply header_bound in H.
Qed.

Lemma slice_to_Ok n buf x : slice_to n buf = Ok x <-> (n <= length buf)%nat /\ x = take n buf.
Proof. unfold slice_to. destruct (Nat.leb_spec n (length buf)); split; [|intros [_ ->]| |]; intuition (try done; try lia); by simplify_eq. Qed.

Lemma slice_from_Ok n buf x : slice_from n buf = Ok x <-> (n <= length buf)%nat /\ x = drop n buf.
Proof. unfold slice_from. destruct (Nat.leb_spec n (length buf)); split; [|intros [_ ->]| |]; intuition (try done; try lia); by simplify_eq. Qed.

Lemma usize_sub_Ok a b x : usize_sub a b = Ok x <-> (b <= a)%nat /\ x = (a - b)%nat.
Proof. unfold usize_sub. destruct (Nat.leb_spec b a); split; [|intros [_ ->]| |]; intuition (try done; try lia); by simplify_eq. Qed.

Lemma authorization_decode_suffix buf a rest : authorization_decode buf = Ok (a, rest) -> exists x, buf = x ++ rest.
Proof.
  unfold authorization_decode. intros [[n b] [[Hn [h ->]]%decode_list_Ok H]]%rbind_Ok.
  do 6 (apply rbind_Ok in H as [? [_ H]]; try case_match).
  apply rbind_Ok in H as [r [[_ ->]%slice_from_Ok E]]. simplify_eq.
  exists (h ++ take n b). by rewrite <- app_assoc, take_drop.
Qed.

(** A frame is the message, the authorization and the signature; what is checked against
    the builder's signature is the message and the authorization. *)
Lemma authorized_parse_Ok buf p rest :
  authorized_parse buf = Ok (p, rest) ->
  exists header auth tail tail',
    buf = header ++ ap_msg p ++ auth ++ tail ++ rest /\
    ap_signed p = ap_msg p ++ auth /\
    authorization_decode (auth ++ tail) = Ok (ap_authorization p, tail) /\
    decode_sig tail = Ok (ap_actor_sig p, tail').
Proof.
  unfold authorized_parse. intros [[n b] [[Hn [h ->]]%decode_list_Ok H]]%rbind_Ok.
  apply rbind_Ok in H as [body [[_ ->]%slice_to_Ok H]].
  apply rbind_Ok in H as [[mp cur] [Hm H]]. apply rbind_Ok in H as [k [Hk H]].
  apply rbind_Ok in H as [after [[Hlen ->]%slice_from_Ok H]].
  apply rbind_Ok in H as [[au r] [Ha H]]. apply rbind_Ok in H as [al [[Hal ->]%usize_sub_Ok H]].
  apply rbind_Ok in H as [[sg r'] [Hs H]]. apply rbind_Ok in H as [r'' [[_ ->]%slice_from_Ok H]].
  apply rbind_Ok in H as [msg [[_ ->]%slice_to_Ok H]]. apply rbind_Ok in H as [sd [[_ ->]%slice_to_Ok E]].
  simplify_eq. cbn [ap_msg ap_signed ap_authorization ap_actor_sig].
  set (body := take n b) in *. set (ml := (k + mp)%nat) in *.
  destruct (authorization_decode_suffix _ _ _ Ha) as [x Hx].
  exists h, x, r, r'. repeat split; [| |by rewrite <- Hx|done].
  - f_equal. rewrite (app_assoc x), <- Hx, app_assoc, take_drop. unfold body. by rewrite take_drop.
  - rewrite <- take_take_drop, Hx, length_app. replace (length x + length r - length r)%nat with (length x) by lia.
    by rewrite take_app_length.
Qed.

Lemma authorized_parse_encode a rest :
  p2p_wf (P2pAuthorized a) -> fits (authorized_encode a) ->
  authorized_parse (authorized_encode a ++ rest) =
    Ok ({| ap_authorization := ad_authorization a; ap_actor_sig := ad_actor_sig a; ap_msg := msg_encode (ad_msg a);
           ap_signed := msg_encode (ad_msg a) ++ authorization_encode (ad_authorization a) |}, rest).
Proof.
  intros [W1 W2] F%fits_list. unfold authorized_parse, authorized_encode.
  rewrite decode_list_encode by (apply authorized_payload_len_spec || done). cbn [rbind].
  rewrite slice_to_app by apply authorized_payload_len_spec. cbn [rbind].
  pose proof (fits_app _ _ F) as [F1 [F2 F3]%fits_app].
  unfold msg_encode at 1. rewrite decode_list_encode by (apply msg_body_len_spec || by eapply fits_list). cbn [rbind].
  set (mb := match ad_msg a with MsgFlashblock _ => _ | _ => _ end).
  assert (Hm : msg_encode (ad_msg a) = header_encode L true (length mb) ++ mb).
  { unfold msg_encode, list_of. rewrite msg_body_len_spec. done. }
  set (tail := authorization_encode _ ++ bytes_encode L _).
  rewrite (proj2 (usize_sub_Ok _ _ (length (header_encode L true (length mb))))).
  2: { rewrite Hm, !length_app. lia. }
  cbn [rbind]. rewrite msg_body_len_spec. fold mb.
  rewrite slice_from_app by by rewrite Hm, length_app. cbn [rbind]. unfold tail.
  rewrite authorization_roundtrip by done. cbn [rbind].
  rewrite (proj2 (usize_sub_Ok _ _ (length (authorization_encode (ad_authorization a))))).
  2: { rewrite !length_app. lia. }
  cbn [rbind]. rewrite <- (app_nil_r (bytes_encode L (sig_to_bytes C _))), decode_sig_encode by done. cbn [rbind].
  rewrite app_nil_r, slice_from_app by apply authorized_payload_len_spec. cbn [rbind].
  rewrite slice_to_app by by rewrite Hm, length_app. cbn [rbind].
  rewrite app_assoc, slice_to_app; [done|]. rewrite length_app, Hm, length_app. lia.
Qed.

(** ** No slice is out of bounds *)

Definition calm {A} (r : result A DecodeError) : Prop := r <> Err Panicked.

Lemma calm_bind {A B} (r : result A DecodeError) (k : A -> result B DecodeError) :
  calm r -> (forall a, r = Ok a -> calm (k a)) -> calm (rbind r k).
Proof. unfold calm. destruct r; cbn; [auto|congruence]. Qed.

Lemma calm_Ok {A} (a : A) : calm (Ok a).
Proof. done. Qed.

Lemma calm_ok_or {A} (o : option A) e : e <> Panicked -> calm (ok_or o e).
Proof. unfold calm. destruct o; cbn; congruence. Qed.

Lemma calm_eq {A} (r : result A DecodeError) a : r = Ok a -> calm r.
Proof. by intros ->. Qed.

Lemma calm_decode_list e buf : e <> Panicked -> calm (decode_list e buf).
Proof.
  intros He. apply calm_bind; [apply header_no_panic|]. intros [[[] n] b] _; [done|]. unfold calm. congruence.
Qed.

Lemma calm_decode_sig buf : calm (decode_sig buf).
Proof.
  apply calm_bind; [apply bytes_no_panic|]. intros [b r] _. by apply calm_bind; [by apply calm_ok_or|].
Qed.

Lemma calm_slice_to n buf : (n <= length buf)%nat -> calm (slice_to n buf).
Proof. intros H. by eapply calm_eq, slice_to_Ok. Qed.

Lemma calm_slice_from n buf : (n <= length buf)%nat -> calm (slice_from n buf).
Proof. intros H. by eapply calm_eq, slice_from_Ok. Qed.

Lemma calm_usize_sub a b : (b <= a)%nat -> calm (usize_sub a b).
Proof. intros H. by eapply calm_eq, usize_sub_Ok. Qed.

Ltac calm_step :=
  first
    [ apply calm_Ok
    | apply calm_bind;
      [ first [ by apply calm_decode_list | apply calm_decode_sig | by apply calm_ok_or | apply b64_no_panic
              | apply u64_no_panic | apply u8_no_panic | apply bytes_no_panic | apply diff_no_panic
              | apply base_no_panic | by apply calm_slice_to | by apply calm_slice_from | idtac ]
      | let a := fresh in let E := fresh "E" in intros a E; repeat destruct a as [a ?] ] ].

Lemma calm_authorization_decode buf : calm (authorization_decode buf).
Proof.
  apply calm_bind; [by apply calm_decode_list|]. intros [n b] [Hn _]%decode_list_Ok.
  repeat calm_step.
Qed.

Lemma calm_payload_decode buf : calm (payload_decode buf).
Proof.
  apply calm_bind; [by apply calm_decode_list|]. intros [n b] [Hn _]%decode_list_Ok.
  do 6 calm_step. calm_step; [case_match; repeat calm_step|]. repeat calm_step.
Qed.

Lemma calm_msg_decode buf : calm (msg_decode buf).
Proof.
  do 2 calm_step. case_match; [|by repeat case_match]. apply calm_bind; [apply calm_payload_decode|by intros []].
Qed.

Lemma calm_authorized_parse buf : calm (authorized_parse buf).
Proof.
  apply calm_bind; [by apply calm_decode_list|]. intros [n b] [Hn _]%decode_list_Ok.
  calm_step. apply slice_to_Ok in E as [_ ->].
  apply calm_bind; [by apply calm_decode_list|]. intros [mp cur] [Hm [h Hh]]%decode_list_Ok.
  apply calm_bind; [apply calm_usize_sub; rewrite Hh, length_app; lia|]. intros k [_ ->]%usize_sub_Ok.
  set (ml := (_ - _ + mp)%nat).
  assert (ml <= length (take n b))%nat by (unfold ml; rewrite Hh, length_app; lia).
  calm_step. apply slice_from_Ok in E as [_ ->].
  apply calm_bind; [apply calm_authorization_decode|]. intros [au r] [x Hx]%authorization_decode_suffix.
  apply calm_bind; [apply calm_usize_sub; rewrite Hx, length_app; lia|]. intros al [_ ->]%usize_sub_Ok.
  do 3 calm_step. apply calm_bind; [apply calm_slice_to; rewrite length_drop; lia|]. intros s _. done.
Qed.

Lemma signed_parses payload_id timestamp authorizer_sk actor_sk m rest :
  let a := authorized_new actor_sk
             (authorization_new payload_id timestamp authorizer_sk (verifying_key C actor_sk)) m in
  p2p_wf (P2pAuthorized a) -> fits (p2p_encode (P2pAuthorized a)) ->
  exists parts, p2p_parse (p2p_encode (P2pAuthorized a) ++ rest) = Ok (PartsAuthorized parts) /\
    parts_verify parts (verifying_key C authorizer_sk) = Ok tt /\ into_authorized parts = Ok a.
Proof.
  intros a W F. change (p2p_encode (P2pAuthorized a)) with ([0] ++ authorized_encode a) in *.
  apply fits_app in F as [_ F]. cbn. rewrite authorized_parse_encode by done.
  eexists. split; [done|]. split.
  - unfold parts_verify, authorization_verify, a. cbn. by rewrite !sign_law.
  - unfold into_authorized. cbn [ap_msg ap_authorization ap_actor_sig].
    rewrite <- (app_nil_r (msg_encode _)). unfold authorized_encode in F. apply fits_list, fits_app in F as [F _].
    destruct W as [W _]. rewrite msg_roundtrip by done. by destruct a.
Qed.

(** ** The claims *)

(** C38: A message that is encoded is decoded to the same message, whatever follows it.  The
    path for what peers send, which splits the frame, checks the signatures over the bytes
    as they came in and decodes the body only then, gives the same message, and checks
    exactly the signatures that the decoded message would be checked for. *)
Theorem message_roundtrip m rest :
  p2p_wf m -> fits (p2p_encode m) ->
  p2p_decode (p2p_encode m ++ rest) = Ok (m, rest) /\
  match m with
  | P2pAuthorized a => exists parts, p2p_parse (p2p_encode m ++ rest) = Ok (PartsAuthorized parts) /\
      into_authorized parts = Ok a /\ forall vk, parts_verify parts vk = authorized_verify a vk
  | RequestFlashblocks => p2p_parse (p2p_encode m) = Ok PartsRequest
  | AcceptFlashblocks => p2p_parse (p2p_encode m) = Ok PartsAccept
  | RejectFlashblocks => p2p_parse (p2p_encode m) = Ok PartsReject
  | CancelFlashblocks => p2p_parse (p2p_encode m) = Ok PartsCancel
  end.
Proof.
  intros W F. destruct m as [a| | | |]; try done.
  change (p2p_encode (P2pAuthorized a)) with ([0] ++ authorized_encode a) in *. apply fits_app in F as [_ F].
  cbn. rewrite authorized_roundtrip, authorized_parse_encode by done. split; [done|].
  eexists. split; [done|]. split; [|done]. unfold into_authorized. cbn [ap_msg ap_authorization ap_actor_sig].
  rewrite <- (app_nil_r (msg_encode _)). unfold authorized_encode in F. apply fits_list, fits_app in F as [F _].
  destruct W as [W _]. rewrite msg_roundtrip by done. by destruct a.
Qed.

(** C39: The path for what peers send has no slice out of bounds and no subtraction below zero,
    whatever the bytes are, and neither has the decoding of the body that follows. *)
Theorem parsing_never_panics buf :
  p2p_parse buf <> Err (CodecRlp Panicked) /\
  forall parts, p2p_parse buf = Ok (PartsAuthorized parts) -> into_authorized parts <> Err (CodecRlp Panicked).
Proof.
  split.
  - destruct buf as [|id buf]; [done|]. cbn. repeat case_match; try done.
    pose proof (calm_authorized_parse buf). destruct (authorized_parse buf) as [[]|e]; cbn; [done|].
    intros [= ->]. done.
  - intros parts _. unfold into_authorized. pose proof (calm_msg_decode (ap_msg parts)).
    destruct (msg_decode _) as [[]|e]; cbn; [done|]. intros [= ->]. done.
Qed.

(** A frame that passes the check is three parts on the wire: the message, the authorization
    and a signature.  The authorizer's key signed the payload, timestamp and builder key of
    the authorization, that builder's key signed the first two parts as they are on the
    wire, and the message that the node then acts on is decoded from the first part. *)
Theorem verified_frame_is_signed buf parts vk a :
  p2p_parse buf = Ok (PartsAuthorized parts) -> parts_verify parts vk = Ok tt -> into_authorized parts = Ok a ->
  exists header auth tail rest body,
    buf = 0 :: header ++ ap_msg parts ++ auth ++ tail ++ rest /\
    authorization_decode (auth ++ tail) = Ok (ad_authorization a, tail) /\
    msg_decode (ap_msg parts) = Ok (ad_msg a, body) /\
    ed_verify C vk (blake3 C (authorization_preimage (au_payload_id (ad_authorization a))
      (au_timestamp (ad_authorization a)) (au_builder_vk (ad_authorization a)))) (au_authorizer_sig (ad_authorization a)) = true /\
    ed_verify C (au_builder_vk (ad_authorization a)) (blake3 C (ap_msg parts ++ auth)) (ad_actor_sig a) = true.
Proof.
  intros Hp Hv Hi. destruct buf as [|id buf]; [done|]. cbn in Hp.
  destruct (Z.eqb_spec id 0) as [->|_]; [|by repeat case_match].
  apply rbind_Ok in Hp as [[p r] [Hp E]]. apply map_err_Ok in Hp. simplify_eq.
  destruct (authorized_parse_Ok _ _ _ Hp) as (h & au & t & t' & -> & Hs & Ha & _).
  unfold into_authorized in Hi. apply rbind_Ok in Hi as [[m b] [Hm E]]. apply map_err_Ok in Hm. simplify_eq.
  unfold parts_verify in Hv. apply rbind_Ok in Hv as [[] [Hv1 Hv2]]. unfold authorization_verify in Hv1.
  repeat case_match; try done. exists h, au, t, r, b. cbn [ad_msg ad_authorization ad_actor_sig]. rewrite <- Hs.
  done.
Qed.

(** What a builder sends with an authorization of the authorizer is accepted by every node
    that knows the authorizer's key. *)
Theorem signed_message_accepted payload_id timestamp authorizer_sk actor_sk m rest :
  let a := authorized_new actor_sk
             (authorization_new payload_id timestamp authorizer_sk (verifying_key C actor_sk)) m in
  p2p_wf (P2pAuthorized a) -> fits (p2p_encode (P2pAuthorized a)) ->
  exists parts, p2p_parse (p2p_encode (P2pAuthorized a) ++ rest) = Ok (PartsAuthorized parts) /\
    parts_verify parts (verifying_key C authorizer_sk) = Ok tt /\ into_authorized parts = Ok a.
Proof. apply signed_parses. Qed.
End laws.
End messages.
Arguments au_payload_id {C} _.
Arguments au_timestamp {C} _.
Arguments au_builder_vk {C} _.
Arguments au_authorizer_sig {C} _.
Arguments ad_msg {C} _.
Arguments ad_authorization {C} _.
Arguments ad_actor_sig {C} _.
Arguments ap_authorization {C} _.
Arguments ap_actor_sig {C} _.
Arguments ap_msg {C} _.
Arguments ap_signed {C} _.
Arguments P2pAuthorized {C} _.
Arguments RequestFlashblocks {C}.
Arguments AcceptFlashblocks {C}.
Arguments RejectFlashblocks {C}.
Arguments CancelFlashblocks {C}.
Arguments PartsAuthorized {C} _.
Arguments PartsRequest {C}.
Arguments PartsAccept {C}.
Arguments PartsReject {C}.
Arguments PartsCancel {C}.

(** ** A concrete instance *)

#[export] Instance Change_countable `{Countable V} : Countable (Change V).
Proof.
  apply (inj_countable' (fun c => (block_access_index c, new_value c)) (fun '(a, b) => Build_Change a b)). by intros [].
Defined.
#[export] Instance SlotChanges_countable : Countable SlotChanges.
Proof.
  apply (inj_countable' (fun c => (slot c, slot_changes c)) (fun '(a, b) => Build_SlotChanges a b)). by intros [].
Defined.
#[export] Instance AccountChanges_countable : Countable AccountChanges.
Proof.
  apply (inj_countable' (fun c => (ca_address c, storage_changes c, storage_reads c, balance_changes c, nonce_changes c, code_changes c))
    (fun '(a, b, c, d, e, f) => Build_AccountChanges a b c d e f)). by intros [].
Defined.
#[export] Instance FlashblockAccessList_countable : Countable FlashblockAccessList.
Proof.
  apply (inj_countable' (fun l => (changes l, min_tx_index l, max_tx_index l))
    (fun '(a, b, c) => Build_FlashblockAccessList a b c)). by intros [].
Defined.
#[export] Instance FlashblockAccessListData_countable : Countable FlashblockAccessListData.
Proof.
  apply (inj_countable' (fun l => (access_list l, access_list_hash l)) (fun '(a, b) => Build_FlashblockAccessListData a b)).
  by intros [].
Defined.
#[export] Instance Withdrawal_countable : Countable Withdrawal.
Proof.
  apply (inj_countable' (fun w => (wd_index w, validator_index w, wd_address w, amount w))
    (fun '(a, b, c, d) => Build_Withdrawal a b c d)). by intros [].
Defined.
#[export] Instance Delta_countable : Countable ExecutionPayloadFlashblockDeltaV1.
Proof.
  apply (inj_countable' (fun d => (fd_state_root d, fd_receipts_root d, fd_logs_bloom d, fd_gas_used d, fd_block_hash d,
      fd_transactions d, fd_withdrawals d, fd_withdrawals_root d, fd_access_list_data d))
    (fun '(a, b, c, d, e, f, g, h, i) => Build_ExecutionPayloadFlashblockDeltaV1 a b c d e f g h i)). by intros [].
Defined.
#[export] Instance Base_countable : Countable ExecutionPayloadBaseV1.
Proof.
  apply (inj_countable' (fun b => (pb_parent_beacon_block_root b, pb_parent_hash b, pb_fee_recipient b, pb_prev_randao b,
      pb_block_number b, pb_gas_limit b, pb_timestamp b, pb_extra_data b, pb_base_fee_per_gas b))
    (fun '(a, b, c, d, e, f, g, h, i) => Build_ExecutionPayloadBaseV1 a b c d e f g h i)). by intros [].
Defined.
#[export] Instance Metadata_countable : Countable FlashblockMetadata.
Proof.
  apply (inj_countable' (fun m => (md_fees m, md_flashblock_timestamp m)) (fun '(a, b) => Build_FlashblockMetadata a b)).
  by intros [].
Defined.

(** A prefix code for countable data: a byte per binary digit *)
Fixpoint bits (p : positive) : bytes :=
  match p with xH => [2] | xO p => 0 :: bits p | xI p => 1 :: bits p end.
Fixpoint of_bits (b : bytes) : option (positive * bytes) :=
  match b with
  | [] => None
  | x :: b => if x =? 2 then Some (xH, b) else '(p, r) ← of_bits b; Some (if x =? 0 then xO p else xI p, r)
  end.

Lemma of_bits_bits p rest : of_bits (bits p ++ rest) = Some (p, rest).
Proof. induction p as [p IH|p IH|]; cbn; [by rewrite IH..|done]. Qed.

Definition code {A} `{Countable A} (a : A) : bytes := 0xc1 :: bits (encode a).
Definition uncode {A} `{Countable A} (b : bytes) : result (A * bytes) DecodeError :=
  match '(p, r) ← of_bits (tail b); a ← decode p; Some (a, r) with Some x => Ok x | None => Err (RlpOther "invalid") end.

Lemma uncode_code {A} `{Countable A} (a : A) rest : uncode (code a ++ rest) = Ok (a, rest).
Proof. unfold uncode, code. cbn. rewrite of_bits_bits. cbn. by rewrite decode_encode. Qed.

Lemma uncode_calm {A} `{Countable A} b : uncode b <> (Err Panicked : result (A * bytes) DecodeError).
Proof. unfold uncode. by case_match. Qed.

Lemma of_bits_suffix b p r : of_bits b = Some (p, r) -> exists x, b = x ++ r.
Proof.
  revert p r. induction b as [|x b IH]; [done|]. cbn. case_match; [intros; simplify_eq; by exists [x]|].
  intros p r ([q s] & (y & Hy)%IH & E)%bind_Some. simplify_eq. by exists (x :: y).
Qed.

Definition ex_header_decode (buf : bytes) : result (bool * nat * bytes) DecodeError :=
  let? '(ln, rest) := uncode buf in
  if (snd ln <=? length rest)%nat then Ok (ln, rest) else Err (RlpOther "input too short").

Definition ex_bytes_decode (buf : bytes) : result (bytes * bytes) DecodeError :=
  let? '(_, n, rest) := ex_header_decode buf in
  Ok (take n rest, drop n rest).

Definition ex_rlp : RlpLib := {|
  header_encode list n := code (list, n);
  header_decode := ex_header_decode;
  b64_encode := code; b64_decode := uncode;
  u64_encode := code; u64_decode := uncode;
  u32_encode x := [x];
  u8_decode b := match b with x :: r => Ok (x, r) | [] => Err (RlpOther "input too short") end;
  bytes_encode b := code (false, length b) ++ b;
  bytes_decode := ex_bytes_decode;
  diff_encode := code; diff_decode := uncode;
  base_encode := code; base_decode := uncode;
  json_to_vec := code;
  json_from_slice b := match uncode b with Ok (m, _) => Some m | Err _ => None end
|}.

Lemma ex_header_law list n rest : (n <= length rest)%nat -> ex_header_decode (code (list, n) ++ rest) = Ok (list, n, rest).
Proof. intros H. unfold ex_header_decode. rewrite uncode_code. cbn. by rewrite (proj2 (Nat.leb_le _ _)). Qed.

Lemma ex_header_bound buf list n rest :
  ex_header_decode buf = Ok (list, n, rest) -> (n <= length rest)%nat /\ exists header, buf = header ++ rest.
Proof.
  unfold ex_header_decode. intros [[[l m] r] [H E]]%rbind_Ok. destruct (Nat.leb_spec (snd (l, m)) (length r)); [|done].
  simplify_eq. split; [done|]. unfold uncode in H. destruct buf as [|x b]; [done|].
  destruct (_ ≫= _) as [[? r']|] eqn:Ho; simplify_eq. apply bind_Some in Ho as ([p s] & [y Hy]%of_bits_suffix & Ho).
  apply bind_Some in Ho as (a & _ & Ho). simplify_eq/=. by exists (x :: y).
Qed.

#[export] Instance ex_rlp_laws : RlpLaws ex_rlp.
Proof.
  split; intros; cbn -[code uncode] in *; try apply uncode_code; try apply uncode_calm; try done.
  - by apply ex_header_law.
  - by eapply ex_header_bound.
  - unfold ex_header_decode. destruct (uncode buf) as [[]|e] eqn:E; cbn; [by case_match|]. intros [= ->].
    by eapply uncode_calm.
  - by destruct buf.
  - unfold ex_bytes_decode. rewrite <- app_assoc, ex_header_law by (rewrite length_app; lia). cbn.
    by rewrite take_app_length, drop_app_length.
  - rewrite length_app. lia.
  - unfold ex_bytes_decode in *. apply rbind_Ok in H as [[[l m] r] [[_ [h ->]]%ex_header_bound E]]. simplify_eq.
    exists (h ++ take m r). by rewrite <- app_assoc, take_drop.
  - unfold ex_bytes_decode, ex_header_decode. destruct (uncode buf) as [[[l k] r]|e] eqn:E; cbn; [by destruct (k <=? _)%nat|].
    intros [= ->]. by eapply uncode_calm.
  - rewrite <- (app_nil_r (code m)), uncode_code. done.
Qed.

(** Keys are numbers and a signature is the key and the digest. *)
Definition ex_ed : Ed25519 := {|
  VerifyingKey := Z; SigningKey := Z; Signature := bytes;
  vk_eq_dec := _; sig_eq_dec := _;
  vk_as_bytes k := [k];
  vk_try_from b := match b with [k] => Some k | _ => None end;
  sig_to_bytes s := s; sig_try_from := Some;
  verifying_key k := k;
  ed_sign k m := k :: m;
  ed_verify k m s := bool_decide (s = k :: m);
  blake3 b := b
|}.
#[export] Instance ex_ed_laws : EdLaws ex_ed.
Proof. split; intros; try done. cbn. by apply bool_decide_true. Qed.

Definition ex_gossip : FlashblocksPayloadV1 := {|
  fb_payload_id := [3; 1; 1; 1; 1; 1; 1; 1]; fb_index := 4;
  fb_diff := {| fd_state_root := 1; fd_receipts_root := 2; fd_logs_bloom := []; fd_gas_used := 21000; fd_block_hash := 3;
    fd_transactions := [[2; 5]]; fd_withdrawals := []; fd_withdrawals_root := 4; fd_access_list_data := None |};
  fb_metadata := {| md_fees := 8; md_flashblock_timestamp := Some 5 |};
  fb_base := None
|}.
Definition ex_authorization : Authorization ex_ed := authorization_new ex_ed [3; 1; 1; 1; 1; 1; 1; 1] 100 9 7.
Definition ex_message : Authorized ex_ed := authorized_new ex_rlp ex_ed 7 ex_authorization (MsgFlashblock ex_gossip).

Lemma message_roundtrip_witness :
  p2p_decode ex_rlp ex_ed (p2p_encode ex_rlp ex_ed (P2pAuthorized ex_message) ++ [5]) = Ok (P2pAuthorized ex_message, [5]).
Proof.
  apply (message_roundtrip ex_rlp ex_ed (P2pAuthorized ex_message) [5]).
  - split; split; vm_compute; try done; split; done.
  - unfold fits. vm_compute. done.
Defined.

Lemma parsing_never_panics_witness : p2p_parse ex_rlp ex_ed [0; 193; 1; 1] <> Err (CodecRlp Panicked).
Proof. apply (parsing_never_panics ex_rlp ex_ed). Defined.

Lemma signed_message_accepted_witness :
  exists parts, p2p_parse ex_rlp ex_ed (p2p_encode ex_rlp ex_ed (P2pAuthorized ex_message) ++ []) = Ok (PartsAuthorized parts) /\
    parts_verify ex_ed parts 9 = Ok tt /\ into_authorized ex_rlp ex_ed parts = Ok ex_message.
Proof.
  apply (signed_message_accepted ex_rlp ex_ed [3; 1; 1; 1; 1; 1; 1; 1] 100 9 7 (MsgFlashblock ex_gossip) []).
  - split; split; vm_compute; try done; split; done.
  - unfold fits. vm_compute. done.
Defined.

Lemma verified_frame_is_signed_witness :
  exists auth, ed_verify ex_ed 7 (msg_encode ex_rlp (MsgFlashblock ex_gossip) ++ auth) (ad_actor_sig ex_message) = true.
Proof.
  destruct (verified_frame_is_signed ex_rlp ex_ed (p2p_encode ex_rlp ex_ed (P2pAuthorized ex_message))
    {| ap_authorization := ex_authorization; ap_actor_sig := ad_actor_sig ex_message;
       ap_msg := msg_encode ex_rlp (MsgFlashblock ex_gossip);
       ap_signed := msg_encode ex_rlp (MsgFlashblock ex_gossip) ++ authorization_encode ex_rlp ex_ed ex_authorization |}
    9 ex_message) as (h & auth & t & r & b & _ & _ & _ & _ & H).
  - vm_compute. reflexivity.
  - vm_compute. reflexivity.
  - vm_compute. reflexivity.
  - exists auth. exact H.
Defined.

(** The message may announce more bytes than its body has: the rest is signed but not
    decoded.  Encoding what was decoded then gives other bytes than the ones that were
    signed, and the message that a node would pass on does not verify. *)
Definition ex_padded_msg : bytes := header_encode ex_rlp true 2 ++ [1; 255].
Definition ex_padded_sig : bytes := 7 :: ex_padded_msg ++ authorization_encode ex_rlp ex_ed ex_authorization.
Definition ex_padded_frame : bytes :=
  let body := ex_padded_msg ++ authorization_encode ex_rlp ex_ed ex_authorization ++ bytes_encode ex_rlp ex_padded_sig in
  0 :: header_encode ex_rlp true (length body) ++ body.

Theorem padded_message_not_relayed :
  exists parts a, p2p_parse ex_rlp ex_ed ex_padded_frame = Ok (PartsAuthorized parts) /\ parts_verify ex_ed parts 9 = Ok tt /\
    into_authorized ex_rlp ex_ed parts = Ok a /\ authorized_verify ex_rlp ex_ed a 9 = Err InvalidBuilderSig.
Proof.
  eexists _, {| ad_msg := MsgStartPublish; ad_authorization := ex_authorization; ad_actor_sig := ex_padded_sig |}.
  split; [vm_compute; reflexivity|]. split; [vm_compute; reflexivity|]. split; vm_compute; reflexivity.
Qed.
