(* ===== verification/P2pPeers.v ===== *)
(** * Peers of the flashblocks network
    ([src/crates/p2p/src/protocol]: [handler.rs], [connection.rs]; the options are in
    [src/crates/cli/src/cli/p2p.rs])

    A node asks some of its peers for flashblocks and serves those that ask it.  The
    receive side keeps a score per peer and replaces the worst from time to time; control
    messages are limited per peer.  All operations run under one lock, so each is a
    program over the state; clocks, the random generator, the channels to the peers and
    the reputation of the peers are calls. *)

From S2P Require Import Prelude Program Encoding ProofTypes AccessList Flashblocks P2pCodec.

(** ** Data *)

Abbreviation PeerId := Z (only parsing).
(** The sending half of a connection's queue *)
Abbreviation Channel := Z (only parsing).

Definition MISSED_FLASHBLOCK_PENALTY_NS : Z := 1000000000.
Definition RECEIVE_FLASHBLOCK_GRACE_WINDOW : nat := 50.
Definition MAX_CONTROL_MSGS_PER_WINDOW : Z := 10.
(** In nanoseconds *)
Definition CONTROL_MSG_WINDOW : Z := 30 * 1000000000.
Definition RECEIVE_REQUEST_TIMEOUT_SECS : Z := 2.

(** Arithmetic that wraps around *)
Definition wrap_u64 (x : Z) : Z := x mod 2 ^ 64.
Definition wrap_u32 (x : Z) : Z := x mod 2 ^ 32.
Definition wrap_i64 (x : Z) : Z := (x + 2 ^ 63) mod 2 ^ 64 - 2 ^ 63.

Record Score := { sc_value : option Z; sc_window : Z }.
#[export] Instance Score_eq_dec : EqDecision Score.
Proof. solve_decision. Defined.

Definition score_new (window : Z) : Score := {| sc_value := None; sc_window := Z.max window 1 |}.

(** [Score::record] *)
Definition score_record (s : Score) (sample : Z) : Score :=
  {| sc_value := Some match sc_value s with
                      | Some current =>
                          Z.quot (wrap_i64 (wrap_i64 (current * (sc_window s - 1)) + sample)) (sc_window s)
                      | None => sample
                      end;
     sc_window := sc_window s |}.

Inductive ReceiveStatus := NotReceiving | Receiving (score : Score) | Requesting.
#[export] Instance ReceiveStatus_eq_dec : EqDecision ReceiveStatus.
Proof. solve_decision. Defined.

Record PeerState := {
  trusted : bool;
  send_enabled : bool;
  receive_status : ReceiveStatus;
  receive_status_timestamp : Z;
  outbound_tx : option Channel;
  control_msg_count : Z;
  control_msg_window_start : Z
}.

Definition set_receive (s : ReceiveStatus) (t : Z) (p : PeerState) : PeerState :=
  {| trusted := trusted p; send_enabled := send_enabled p; receive_status := s; receive_status_timestamp := t;
     outbound_tx := outbound_tx p; control_msg_count := control_msg_count p;
     control_msg_window_start := control_msg_window_start p |}.
Definition set_score (s : Score) (p : PeerState) : PeerState := set_receive (Receiving s) (receive_status_timestamp p) p.
Definition set_send (b : bool) (p : PeerState) : PeerState :=
  {| trusted := trusted p; send_enabled := b; receive_status := receive_status p;
     receive_status_timestamp := receive_status_timestamp p; outbound_tx := outbound_tx p;
     control_msg_count := control_msg_count p; control_msg_window_start := control_msg_window_start p |}.
Definition set_control (count start : Z) (p : PeerState) : PeerState :=
  {| trusted := trusted p; send_enabled := send_enabled p; receive_status := receive_status p;
     receive_status_timestamp := receive_status_timestamp p; outbound_tx := outbound_tx p;
     control_msg_count := count; control_msg_window_start := start |}.
(** [FlashblocksPeerState::set_trusted], without the label of the metrics *)
Definition set_trusted (b : bool) (p : PeerState) : PeerState :=
  {| trusted := b; send_enabled := send_enabled p; receive_status := receive_status p;
     receive_status_timestamp := receive_status_timestamp p; outbound_tx := outbound_tx p;
     control_msg_count := control_msg_count p; control_msg_window_start := control_msg_window_start p |}.

(** A connection that has just been made *)
Definition peer_new (now : Z) (tx : Channel) : PeerState :=
  {| trusted := false; send_enabled := false; receive_status := NotReceiving; receive_status_timestamp := 0;
     outbound_tx := Some tx; control_msg_count := 0; control_msg_window_start := now |}.

Record ObservedPayload := {
  ob_payload_id : PayloadId;
  ob_timestamp : Z;
  ob_flashblock_index : Z;
  received_peers : gset PeerId;
  send_peers : gset PeerId
}.

Record FanoutArgs := {
  max_send_peers : nat;
  max_receive_peers : nat;
  rotation_interval : Z;
  score_samples : Z;
  force_receive_peers : list PeerId
}.

Inductive ReputationChangeKind := BadMessage | AlreadySeenTransaction.
#[export] Instance ReputationChangeKind_eq_dec : EqDecision ReputationChangeKind.
Proof. solve_decision. Defined.

Inductive PeerKind := Basic | Static | Trusted.

(** ** Calls *)

Inductive P2pCall :=
| UtcSecs
| UtcNanos
| InstantNow
| RandomIndex (more : nat)
| TrySend (tx : Channel) (frame : bytes)
| ReputationChange (peer : PeerId) (kind : ReputationChangeKind)
| GetPeerById (peer : PeerId)
| Sleep (ms : Z)
| Broadcast (fb : FlashblocksPayloadV1)
| RecordFb (fb : FlashblocksPayloadV1).
#[export] Instance P2pCall_eq_dec : EqDecision P2pCall.
Proof. solve_decision. Defined.

(** [random_range(0..n)] is below [n]. *)
Definition p2p_sig : Sig := {|
  call := P2pCall;
  reply c := match c with
             | UtcSecs | UtcNanos | InstantNow => Z
             | RandomIndex more => fin (S more)
             | TrySend _ _ => bool
             | ReputationChange _ _ | Sleep _ | Broadcast _ | RecordFb _ => unit
             | GetPeerById _ => result (option PeerKind) unit
             end
|}.

Abbreviation P2p := (prog p2p_sig).

Definition net (c : P2pCall) : P2p (reply p2p_sig c) := Call (S := p2p_sig) c Ret.

(** ** Operations *)

Section peers.
(** The order in which a hash map is iterated over is not specified. *)
Context (order : gmap PeerId PeerState -> list (PeerId * PeerState)).
Context (args : FanoutArgs).

Abbreviation Peers := (gmap PeerId PeerState) (only parsing).

Definition now_secs : P2p Z := do t <- net UtcSecs; Ret (wrap_u64 t).

Definition send_frame (tx : option Channel) (frame : bytes) : P2p bool :=
  match tx with Some tx => net (TrySend tx frame) | None => Ret false end.

(** [send_to_all_peers] *)
Definition send_to_all_peers (peers : Peers) (frame : bytes) : P2p unit :=
  fold_prog (fun p _ => do _ <- send_frame (outbound_tx (snd p)) frame; Ret tt) (order peers) tt.

(** [send_direct] *)
Definition send_direct (peers : Peers) (peer_id : PeerId) (frame : bytes) : P2p unit :=
  match peers !! peer_id with
  | Some conn => do _ <- send_frame (outbound_tx conn) frame; Ret tt
  | None => Ret tt
  end.

(** The frames of the control messages, as [FlashblocksP2PMsg::encode] writes them *)
Definition REQUEST : bytes := [1].
Definition ACCEPT : bytes := [2].
Definition REJECT : bytes := [3].
Definition CANCEL : bytes := [4].

Definition same_flashblock (payload_id : PayloadId) (index : Z) (o : ObservedPayload) : bool :=
  bool_decide (ob_payload_id o = payload_id) && (ob_flashblock_index o =? index).

(** The first element that satisfies [f] is changed by [g]. *)
Fixpoint update_first {A} (f : A -> bool) (g : A -> A) (l : list A) : list A :=
  match l with [] => [] | x :: l => if f x then g x :: l else x :: update_first f g l end.

Definition add_received (peer : PeerId) (o : ObservedPayload) : ObservedPayload :=
  {| ob_payload_id := ob_payload_id o; ob_timestamp := ob_timestamp o; ob_flashblock_index := ob_flashblock_index o;
     received_peers := {[ peer ]} ∪ received_peers o; send_peers := send_peers o |}.
Definition add_sent (peer : PeerId) (o : ObservedPayload) : ObservedPayload :=
  {| ob_payload_id := ob_payload_id o; ob_timestamp := ob_timestamp o; ob_flashblock_index := ob_flashblock_index o;
     received_peers := received_peers o; send_peers := {[ peer ]} ∪ send_peers o |}.

(** A peer that should have delivered an expired flashblock is scored for it. *)
Definition score_missed (evicted : ObservedPayload) (peer : PeerId) (p : PeerState) : PeerState :=
  match receive_status p with
  | Receiving score =>
      if (wrap_u64 (receive_status_timestamp p + 2) <=? ob_timestamp evicted) &&
         bool_decide (peer ∉ received_peers evicted) && bool_decide (peer ∉ send_peers evicted)
      then set_score (score_record score MISSED_FLASHBLOCK_PENALTY_NS) p else p
  | _ => p
  end.

(** [note_peer_received_flashblock]: whether this peer delivers this flashblock for the
    first time *)
Definition note_peer_received_flashblock (timestamp : Z) (fb : FlashblocksPayloadV1) (peer : PeerId)
    (peers : Peers) (observed : list ObservedPayload) : bool * Peers * list ObservedPayload :=
  let same := same_flashblock (fb_payload_id fb) (fb_index fb) in
  match List.find same observed with
  | Some o => (bool_decide (peer ∉ received_peers o), peers, update_first same (add_received peer) observed)
  | None =>
      let '(peers, observed) :=
        match observed with
        | evicted :: rest =>
            if (RECEIVE_FLASHBLOCK_GRACE_WINDOW <=? length observed)%nat
            then (map_imap (fun k p => Some (score_missed evicted k p)) peers, rest)
            else (peers, observed)
        | [] => (peers, observed)
        end in
      (true, peers, observed ++
        [{| ob_payload_id := fb_payload_id fb; ob_timestamp := timestamp; ob_flashblock_index := fb_index fb;
            received_peers := {[ peer ]}; send_peers := ∅ |}])
  end.

(** [peer_received_flashblock] *)
Definition peer_received_flashblock (peer : PeerId) (payload_id : PayloadId) (index : Z)
    (observed : list ObservedPayload) : bool :=
  match List.find (same_flashblock payload_id index) observed with
  | Some o => bool_decide (peer ∈ received_peers o)
  | None => false
  end.

(** [send_flashblock_to_send_set] *)
Definition send_flashblock_to_send_set (peers : Peers) (payload_id : PayloadId) (index : Z) (frame : bytes)
    (observed : list ObservedPayload) : P2p (list ObservedPayload) :=
  fold_prog (fun p observed =>
    if negb (send_enabled (snd p)) || peer_received_flashblock (fst p) payload_id index observed then Ret observed
    else
      do _ <- send_frame (outbound_tx (snd p)) frame;
      Ret (update_first (same_flashblock payload_id index) (add_sent (fst p)) observed)) (order peers) observed.

(** [check_control_rate_limit] with the clock read: whether the limit is exceeded *)
Definition rate_limit (now : Z) (p : PeerState) : bool * PeerState :=
  let reset := CONTROL_MSG_WINDOW <? Z.max 0 (now - control_msg_window_start p) in
  let count := wrap_u32 ((if reset then 0 else control_msg_count p) + 1) in
  (MAX_CONTROL_MSGS_PER_WINDOW <? count, set_control count (if reset then now else control_msg_window_start p) p).

Definition check_control_rate_limit (peers : Peers) (peer_id : PeerId) : P2p (bool * Peers) :=
  match peers !! peer_id with
  | None => Ret (true, peers)
  | Some p =>
      do now <- net InstantNow;
      let '(exceeded, p) := rate_limit now p in
      Ret (exceeded, <[peer_id := p]> peers)
  end.

Definition is_receiving (p : PeerState) : bool := match receive_status p with Receiving _ => true | _ => false end.
Definition is_requesting (p : PeerState) : bool := match receive_status p with Requesting => true | _ => false end.
Definition is_idle (p : PeerState) : bool := match receive_status p with NotReceiving => true | _ => false end.
Definition is_active (p : PeerState) : bool := is_receiving p || is_requesting p.

Definition num_receive_peers (peers : Peers) : nat := length (List.filter (fun p => is_receiving (snd p)) (order peers)).
Definition num_receive_or_requesting_peers (peers : Peers) : nat :=
  length (List.filter (fun p => is_active (snd p)) (order peers)).

(** [receive_retry_cooldown_secs] *)
Definition receive_retry_cooldown_secs : Z := Z.max (rotation_interval args) 1.

(** [available_receive_candidates] *)
Definition is_candidate (now : Z) (p : PeerState) : bool :=
  is_idle p && ((receive_status_timestamp p =? 0) ||
                (wrap_u64 (receive_status_timestamp p + receive_retry_cooldown_secs) <=? now)).
Definition available_receive_candidates (peers : Peers) : P2p (list (PeerId * bool)) :=
  do now <- now_secs;
  Ret ((fun p => (fst p, trusted (snd p))) <$> List.filter (fun p => is_candidate now (snd p)) (order peers)).

(** [begin_requesting_peer] *)
Definition begin_requesting_peer (peers : Peers) (peer_id : PeerId) : P2p Peers :=
  match peers !! peer_id with
  | None => Ret peers
  | Some p =>
      do timestamp <- now_secs;
      let peers := <[peer_id := set_receive Requesting timestamp p]> peers in
      do _ <- send_direct peers peer_id REQUEST;
      Ret peers
  end.

(** The [while] loop of [maybe_request_receive_peers]; [fuel] bounds its rounds. *)
Fixpoint request_loop (fuel : nat) (peers : Peers) : P2p Peers :=
  match fuel with
  | O => Ret peers
  | S fuel =>
      if (num_receive_or_requesting_peers peers <? max_receive_peers args)%nat then
        do candidates <- available_receive_candidates peers;
        match candidates with
        | [] => Ret peers
        | c :: rest =>
            do rand <- net (RandomIndex (length rest));
            do peers <- begin_requesting_peer peers (fst (nth (fin_to_nat rand) (c :: rest) c));
            request_loop fuel peers
        end
      else Ret peers
  end.

(** [maybe_request_receive_peers] *)
Definition request_forced (force_peer : PeerId) (peers : Peers) : P2p Peers :=
  match peers !! force_peer with
  | Some p => if is_idle p then begin_requesting_peer peers force_peer else Ret peers
  | None => Ret peers
  end.
Definition maybe_request_receive_peers (peers : Peers) : P2p Peers :=
  do peers <- fold_prog request_forced (force_receive_peers args) peers;
  request_loop (S (size peers)) peers.

(** [expire_stale_receive_requests] *)
Definition is_stale (now : Z) (p : PeerState) : bool :=
  is_requesting p && (wrap_u64 (receive_status_timestamp p + RECEIVE_REQUEST_TIMEOUT_SECS) <=? now).
Definition expire_stale_receive_requests (peers : Peers) : P2p Peers :=
  do now <- now_secs;
  let cleared := (fun p => if is_stale now p then set_receive NotReceiving now p else p) <$> peers in
  if existsb (fun p => is_stale now (snd p)) (order peers) then maybe_request_receive_peers cleared else Ret cleared.

(** [worst_receive_peer] *)
Definition worse (lhs rhs : PeerId * option Z) : bool :=
  match snd lhs, snd rhs with
  | None, None => false
  | None, Some _ => true
  | Some _, None => false
  | Some l, Some r => r <? l
  end.
Definition worst_receive_peer (peers : Peers) : option PeerId :=
  fst <$> max_by worse (omap (fun p =>
    if bool_decide (fst p ∈ force_receive_peers args) then None
    else match receive_status (snd p) with Receiving score => Some (fst p, sc_value score) | _ => None end) (order peers)).

(** [maybe_start_rotation] *)
Definition maybe_start_rotation (peers : Peers) : P2p Peers :=
  if (num_receive_peers peers <? max_receive_peers args)%nat then Ret peers
  else
    match worst_receive_peer peers with
    | None => Ret peers
    | Some evict =>
        do candidates <- available_receive_candidates peers;
        match candidates with
        | [] => Ret peers
        | c :: rest =>
            do rand <- net (RandomIndex (length rest));
            let candidate := fst (nth (fin_to_nat rand) (c :: rest) c) in
            do evict_timestamp <- now_secs;
            let peers := alter (set_receive NotReceiving evict_timestamp) evict peers in
            do _ <- send_direct peers evict CANCEL;
            begin_requesting_peer peers candidate
        end
    end.

(** One round of the rotation task *)
Definition rotation_tick (peers : Peers) : P2p Peers :=
  do peers <- expire_stale_receive_requests peers;
  do peers <- maybe_request_receive_peers peers;
  maybe_start_rotation peers.

(** [handle_request]; [Err] is a peer to be penalised. *)
Definition handle_request (peers : Peers) (peer_id : PeerId) : P2p (result unit unit * Peers) :=
  do (exceeded, peers) <- check_control_rate_limit peers peer_id;
  if exceeded then Ret (Err tt, peers)
  else
    match peers !! peer_id with
    | None => Ret (Ok tt, peers)
    | Some p =>
        if send_enabled p then Ret (Err tt, peers)
        else
          let send_count := length (List.filter (fun p => send_enabled (snd p)) (order peers)) in
          if negb (trusted p) && (max_send_peers args <=? send_count)%nat then
            do _ <- send_direct peers peer_id REJECT;
            Ret (Ok tt, peers)
          else
            let peers := <[peer_id := set_send true p]> peers in
            do _ <- send_direct peers peer_id ACCEPT;
            Ret (Ok tt, peers)
    end.

(** [handle_accept] *)
Definition handle_accept (peers : Peers) (peer_id : PeerId) : P2p (result unit unit * Peers) :=
  do (exceeded, peers) <- check_control_rate_limit peers peer_id;
  if exceeded then Ret (Err tt, peers)
  else
    match peers !! peer_id with
    | None => Ret (Ok tt, peers)
    | Some p =>
        if is_requesting p
        then Ret (Ok tt, <[peer_id := set_score (score_new (score_samples args)) p]> peers)
        else Ret (Err tt, peers)
    end.

(** [handle_reject] *)
Definition handle_reject (peers : Peers) (peer_id : PeerId) : P2p (result unit unit * Peers) :=
  do (exceeded, peers) <- check_control_rate_limit peers peer_id;
  if exceeded then Ret (Err tt, peers)
  else
    match peers !! peer_id with
    | None => Ret (Ok tt, peers)
    | Some p =>
        if is_requesting p then
          do now <- now_secs;
          do peers <- maybe_request_receive_peers (<[peer_id := set_receive NotReceiving now p]> peers);
          Ret (Ok tt, peers)
        else Ret (Err tt, peers)
    end.

(** [handle_cancel] *)
Definition handle_cancel (peers : Peers) (peer_id : PeerId) : P2p (result unit unit * Peers) :=
  do (exceeded, peers) <- check_control_rate_limit peers peer_id;
  if exceeded then Ret (Err tt, peers)
  else
    match peers !! peer_id with
    | None => Ret (Ok tt, peers)
    | Some p => if send_enabled p then Ret (Ok tt, <[peer_id := set_send false p]> peers) else Ret (Err tt, peers)
    end.

(** [on_peer_connected], the part under the lock; [local] is the node's own id. *)
Definition on_peer_connected (local : PeerId) (peers : Peers) (peer_id : PeerId) (tx : Channel) : P2p Peers :=
  if peer_id =? local then Ret peers
  else
    do now <- net InstantNow;
    maybe_request_receive_peers (<[peer_id := peer_new now tx]> peers).

(** The task that asks the network whether the peer is trusted, and then sets the flag *)
Definition MAX_RETRIES : nat := 5.
Fixpoint resolve_trust (attempts : nat) (peer_id : PeerId) : P2p (option bool) :=
  match attempts with
  | O => Ret (Some false)
  | S attempts =>
      do info <- net (GetPeerById peer_id);
      match info, attempts with
      | Ok (Some kind), _ => Ret (Some match kind with Basic => false | _ => true end)
      | _, O => Ret None
      | _, _ => do _ <- net (Sleep 1000); resolve_trust attempts peer_id
      end
  end.
Definition apply_trust (b : option bool) (peer_id : PeerId) (peers : Peers) : Peers :=
  match b with Some b => alter (set_trusted b) peer_id peers | None => peers end.

(** [on_peer_disconnected] *)
Definition on_peer_disconnected (peers : Peers) (peer_id : PeerId) : P2p Peers :=
  maybe_request_receive_peers (delete peer_id peers).
End peers.

(** ** Counting peers *)

Abbreviation Peers := (gmap PeerId PeerState) (only parsing).

Definition count (P : PeerId -> PeerState -> bool) (m : Peers) : nat :=
  length (List.filter (fun p => P (fst p) (snd p)) (map_to_list m)).

Lemma filter_perm {A} (f : A -> bool) l k : l ≡ₚ k -> List.filter f l ≡ₚ List.filter f k.
Proof.
  induction 1 as [|x l k _ IH|x y l|]; cbn; [done| | |by etrans].
  - case_match; [by f_equiv|done].
  - repeat case_match; try done. constructor.
Qed.

Lemma count_insert_new P m k v : m !! k = None -> count P (<[k := v]> m) = (Nat.b2n (P k v) + count P m)%nat.
Proof.
  intros H. unfold count. rewrite (filter_perm _ _ _ (map_to_list_insert m k v H)). cbn. by destruct (P k v).
Qed.

Lemma count_delete P m k v : m !! k = Some v -> count P m = (Nat.b2n (P k v) + count P (delete k m))%nat.
Proof.
  intros H. rewrite <- (insert_delete_id m k v H) at 1. apply count_insert_new, lookup_delete_eq.
Qed.

Lemma count_update P m k v0 v :
  m !! k = Some v0 -> (count P (<[k := v]> m) + Nat.b2n (P k v0) = count P m + Nat.b2n (P k v))%nat.
Proof.
  intros H. rewrite (count_delete P m k v0 H), <- insert_delete_eq, count_insert_new by apply lookup_delete_eq. lia.
Qed.

Lemma elem_of_filtered P (m : Peers) k v :
  (k, v) ∈ List.filter (fun p => P (fst p) (snd p)) (map_to_list m) <-> m !! k = Some v /\ P k v = true.
Proof. by rewrite list_elem_of_In, filter_In, <- list_elem_of_In, elem_of_map_to_list. Qed.

Lemma NoDup_filter_fst {A B} (f : A * B -> bool) l : NoDup l.*1 -> NoDup (List.filter f l).*1.
Proof.
  induction l as [|[a b] l IH]; cbn; [done|]. intros [Hn Hl]%NoDup_cons. case_match; cbn; [|by apply IH].
  apply NoDup_cons; split; [|by apply IH]. contradict Hn.
  apply list_elem_of_fmap in Hn as ([a' b'] & -> & Hn). apply list_elem_of_fmap. exists (a', b'). split; [done|].
  apply list_elem_of_In, filter_In in Hn as [Hn _]. by apply list_elem_of_In.
Qed.

Lemma count_le P Q m m' :
  (forall k v', m' !! k = Some v' -> Q k v' = true -> exists v, m !! k = Some v /\ P k v = true) ->
  (count Q m' <= count P m)%nat.
Proof.
  intros H. unfold count. rewrite <- !(length_fmap fst).
  apply submseteq_length, NoDup_submseteq.
  - apply NoDup_filter_fst, NoDup_fst_map_to_list.
  - intros k ([k' v'] & -> & [H1 H2]%elem_of_filtered)%list_elem_of_fmap. cbn.
    destruct (H _ _ H1 H2) as (v & Hv & HP). apply list_elem_of_fmap. exists (k', v). by rewrite elem_of_filtered.
Qed.

(** ** Asking peers for flashblocks *)

Section receive.
Context (order : Peers -> list (PeerId * PeerState)) (Horder : forall m, order m ≡ₚ map_to_list m).
Context (args : FanoutArgs).

Lemma count_order f (m : Peers) : length (List.filter (fun p => f (snd p)) (order m)) = count (fun _ => f) m.
Proof. unfold count. by rewrite (filter_perm _ _ _ (Horder m)). Qed.

Lemma elem_of_order m k p : (k, p) ∈ order m <-> m !! k = Some p.
Proof. by rewrite (Horder m), elem_of_map_to_list. Qed.

(** Receiving from a peer that is not forced, or asking it *)
Definition chosen (k : PeerId) (p : PeerState) : bool := negb (bool_decide (k ∈ force_receive_peers args)) && is_active p.

(** Some idle peers have been asked. *)
Definition asked (m m' : Peers) : Prop := forall k,
  m' !! k = m !! k \/ exists p t, m !! k = Some p /\ is_idle p = true /\ m' !! k = Some (set_receive Requesting t p).

Lemma asked_refl m : asked m m.
Proof. by left. Qed.

Lemma asked_trans m1 m2 m3 : asked m1 m2 -> asked m2 m3 -> asked m1 m3.
Proof.
  intros H1 H2 k. destruct (H1 k) as [E1|(p & t & E1 & Hi & E1')], (H2 k) as [E2|(q & u & E2 & Hj & E2')].
  - left. by rewrite E2.
  - right. exists q, u. by rewrite <- E1.
  - right. exists p, t. by rewrite E2.
  - rewrite E1' in E2. by simplify_eq.
Qed.

Lemma asked_one m k p t : m !! k = Some p -> is_idle p = true -> asked m (<[k := set_receive Requesting t p]> m).
Proof.
  intros H Hi j. destruct (decide (j = k)) as [->|Hj]; [right; exists p, t; by rewrite lookup_insert_eq|].
  left. by rewrite lookup_insert_ne.
Qed.

Lemma wp_any {A} (p : P2p A) Q : (forall t a, Q t a) -> wp p Q.
Proof. intros H. apply wp_runs. auto. Qed.

Lemma begin_requesting_spec m k p (Q : list (event p2p_sig) -> Peers -> Prop) :
  m !! k = Some p -> (forall t x, Q t (<[k := set_receive Requesting x p]> m)) -> wp (begin_requesting_peer m k) Q.
Proof.
  intros H HQ. unfold begin_requesting_peer. rewrite H. cbn. intros x. apply wp_bind, wp_any. intros t _. cbn.
  apply HQ.
Qed.

Lemma idle_active p : is_active p = negb (is_idle p).
Proof. unfold is_active, is_receiving, is_requesting, is_idle. by destruct (receive_status p). Qed.

Lemma active_set_requesting t p : is_active (set_receive Requesting t p) = true.
Proof. done. Qed.

(** Asking one idle peer *)
Lemma ask_counts m k p t :
  m !! k = Some p -> is_idle p = true ->
  let m' := <[k := set_receive Requesting t p]> m in
  count (fun _ => is_active) m' = S (count (fun _ => is_active) m) /\
  count (fun _ => is_idle) m = S (count (fun _ => is_idle) m') /\
  count chosen m' = (count chosen m + Nat.b2n (negb (bool_decide (k ∈ force_receive_peers args))))%nat.
Proof.
  intros H Hi m'. pose proof (idle_active p) as Ha. rewrite Hi in Ha. cbn in Ha.
  pose proof (count_update (fun _ => is_active) m k p (set_receive Requesting t p) H) as H1.
  pose proof (count_update (fun _ => is_idle) m k p (set_receive Requesting t p) H) as H2.
  pose proof (count_update chosen m k p (set_receive Requesting t p) H) as H3. fold m' in H1, H2, H3.
  cbn beta in H1, H2. unfold chosen at 2 4 in H3. rewrite Ha in H1, H3. rewrite Hi in H2.
  rewrite active_set_requesting in H1, H3. change (is_idle (set_receive Requesting t p)) with false in H2.
  rewrite andb_false_r, andb_true_r in H3. cbn [Nat.b2n] in H1, H2, H3. lia.
Qed.

Lemma chosen_active m : (count chosen m <= count (fun _ => is_active) m)%nat.
Proof.
  apply count_le. intros k v Hk [_ H]%andb_true_iff. eauto.
Qed.

Lemma candidate_idle now p : is_candidate args now p = true -> is_idle p = true.
Proof. by intros [? _]%andb_true_iff. Qed.

(** A candidate that is picked at random was idle. *)
Lemma pick_idle now m c rest (rand : fin (S (length rest))) :
  (fun p => (fst p, trusted (snd p))) <$> List.filter (fun p => is_candidate args now (snd p)) (order m) = c :: rest ->
  exists p, m !! fst (nth (fin_to_nat rand) (c :: rest) c) = Some p /\ is_idle p = true.
Proof.
  intros Hc. assert (nth (fin_to_nat rand) (c :: rest) c ∈ c :: rest) as Hin.
  { rewrite list_elem_of_In. apply nth_In. cbn. apply fin_to_nat_lt. }
  rewrite <- Hc in Hin at 2. apply list_elem_of_fmap in Hin as ([k' p] & E & Hin).
  rewrite list_elem_of_In, filter_In, <- list_elem_of_In, elem_of_order in Hin. rewrite E. cbn.
  destruct Hin as [Hin Hcand]. exists p. split; [done|]. by apply candidate_idle in Hcand.
Qed.

(** The loop ends: every round takes one peer out of the idle ones.  It ends because
    there are enough peers or because no candidate was left when it last looked. *)
Lemma request_loop_spec fuel m (Q : list (event p2p_sig) -> Peers -> Prop) :
  (count (fun _ => is_idle) m < fuel)%nat ->
  (forall t m', asked m m' ->
     ((count chosen m <= max_receive_peers args)%nat -> (count chosen m' <= max_receive_peers args)%nat) ->
     ((max_receive_peers args <= count (fun _ => is_active) m')%nat \/
      exists now, ev (S := p2p_sig) UtcSecs now ∈ t /\
        forall k p, m' !! k = Some p -> is_candidate args (wrap_u64 now) p = false) -> Q t m') ->
  wp (request_loop order args fuel m) Q.
Proof.
  revert m Q. induction fuel as [|fuel IH]; intros m Q Hf HQ; [lia|]. cbn [request_loop].
  unfold num_receive_or_requesting_peers. rewrite (count_order is_active).
  destruct (Nat.ltb_spec (count (fun _ => is_active) m) (max_receive_peers args)) as [Hlt|Hge].
  2: { apply HQ; [apply asked_refl|done|by left]. }
  unfold available_receive_candidates, now_secs, net. cbn [bind wp reply p2p_sig].
  intros now. destruct (_ <$> _) as [|c rest] eqn:Hc; cbn [bind wp].
  { apply HQ; [apply asked_refl|done|]. right. exists now. split; [set_solver|]. intros k p Hk.
    destruct (is_candidate args _ p) eqn:E; [|done]. apply fmap_nil_inv in Hc.
    assert ((k, p) ∈ List.filter (fun q => is_candidate args (wrap_u64 now) (snd q)) (order m)) as Hin.
    { rewrite list_elem_of_In, filter_In, <- list_elem_of_In. by rewrite elem_of_order. }
    rewrite Hc in Hin. set_solver. }
  intros rand. set (k := fst _).
  destruct (pick_idle _ _ _ _ rand Hc) as (p & Hk & Hi). fold k in Hk.
  apply wp_bind, (begin_requesting_spec _ _ p); [done|]. intros t x.
  destruct (ask_counts m k p x Hk Hi) as (H1 & H2 & H3). pose proof (chosen_active m).
  apply IH; [lia|]. intros t' m' Ha Hb Hd. apply HQ.
  - eapply asked_trans; [by apply asked_one|done].
  - intros Hm. apply Hb. rewrite H3. destruct (bool_decide _); cbn; lia.
  - destruct Hd as [Hd|(n & Hin & Hn)]; [by left|]. right. exists n. split; [|done]. set_solver.
Qed.

Lemma count_size P m : (count P m <= size m)%nat.
Proof. unfold count. rewrite <- length_map_to_list. apply List.filter_length_le. Qed.

Lemma request_forced_spec l m (Q : list (event p2p_sig) -> Peers -> Prop) :
  l ⊆ force_receive_peers args ->
  (forall t m', asked m m' -> count chosen m' = count chosen m ->
     (forall k p, k ∈ l -> m' !! k = Some p -> is_idle p = false) -> Q t m') ->
  wp (fold_prog request_forced l m) Q.
Proof.
  revert m Q. induction l as [|k l IH]; intros m Q Hl HQ; cbn [fold_prog].
  { apply HQ; [apply asked_refl|done|]. set_solver. }
  assert (Hstep : forall t m1, asked m m1 -> count chosen m1 = count chosen m ->
    (forall p, m1 !! k = Some p -> is_idle p = false) ->
    wp (fold_prog request_forced l m1) (fun t' b => Q (t ++ t') b)).
  { intros t m1 Ha Hc Hk. apply IH; [set_solver|]. intros t' m' Ha' Hc' Hl'. apply HQ; [by eapply asked_trans|congruence|].
    intros j p [->|Hj]%elem_of_cons Hp; [|by eapply Hl']. destruct (Ha' k) as [E|(q & u & E & Hq & E')].
    - apply Hk. by rewrite <- E.
    - by rewrite (Hk q E) in Hq. }
  apply wp_bind. unfold request_forced. destruct (m !! k) as [p|] eqn:Hk; [destruct (is_idle p) eqn:Hi|].
  - apply (begin_requesting_spec _ _ p); [done|]. intros t x. apply Hstep; [by apply asked_one| |].
    + destruct (ask_counts m k p x Hk Hi) as (_ & _ & H3). rewrite H3, bool_decide_true by set_solver. cbn. lia.
    + intros q. rewrite lookup_insert_eq. by intros [= <-].
  - apply Hstep; [apply asked_refl|done|]. intros q. rewrite Hk. congruence.
  - apply Hstep; [apply asked_refl|done|]. intros q. by rewrite Hk.
Qed.

(** What [maybe_request_receive_peers] does *)
Definition filled (t : list (event p2p_sig)) (m : Peers) : Prop :=
  (max_receive_peers args <= count (fun _ => is_active) m)%nat \/
  exists now, ev (S := p2p_sig) UtcSecs now ∈ t /\ forall k p, m !! k = Some p -> is_candidate args (wrap_u64 now) p = false.

Lemma maybe_request_spec m (Q : list (event p2p_sig) -> Peers -> Prop) :
  (forall t m', asked m m' -> (forall k p, k ∈ force_receive_peers args -> m' !! k = Some p -> is_idle p = false) ->
     ((count chosen m <= max_receive_peers args)%nat -> (count chosen m' <= max_receive_peers args)%nat) ->
     filled t m' -> Q t m') ->
  wp (maybe_request_receive_peers order args m) Q.
Proof.
  intros HQ. unfold maybe_request_receive_peers. apply wp_bind, request_forced_spec; [done|]. intros t m1 Ha Hc Hf.
  apply request_loop_spec; [pose proof (count_size (fun _ => is_idle) m1); lia|]. intros t' m' Ha' Hb Hd. apply HQ.
  - by eapply asked_trans.
  - intros k p Hk Hp. destruct (Ha' k) as [E|(q & u & E & Hq & E')]; [apply (Hf k); [done|by rewrite <- E]|].
    by rewrite (Hf k q Hk E) in Hq.
  - rewrite <- Hc. exact Hb.
  - destruct Hd as [Hd|(n & Hin & Hn)]; [by left|]. right. exists n. split; [|done]. set_solver.
Qed.

(** Every peer of [m'] with [f] is one of [m] with [f]. *)
Definition kept (f : PeerState -> bool) (m m' : Peers) : Prop := forall k p', m' !! k = Some p' -> f p' = true ->
  exists p, m !! k = Some p /\ f p = true.

Lemma kept_chosen m m' : kept is_active m m' -> (count chosen m' <= count chosen m)%nat.
Proof.
  intros H. apply count_le. intros k p' Hk Hc. unfold chosen in *. apply andb_true_iff in Hc as [Hf Ha].
  destruct (H k p' Hk Ha) as (p & Hp & Hpa). exists p. by rewrite Hf, Hpa.
Qed.

Lemma kept_refl f m : kept f m m.
Proof. intros k p. eauto. Qed.

Lemma kept_trans f m1 m2 m3 : kept f m1 m2 -> kept f m2 m3 -> kept f m1 m3.
Proof. intros H1 H2 k p Hk Ha. destruct (H2 k p Hk Ha) as (q & Hq & Hqa). by eapply H1. Qed.

Lemma kept_insert f m k p q : m !! k = Some p -> (f q = true -> f p = true) -> kept f m (<[k := q]> m).
Proof.
  intros Hk Hq j r. destruct (decide (j = k)) as [->|Hj].
  - rewrite lookup_insert_eq. intros [= <-] Ha. eauto.
  - rewrite lookup_insert_ne by done. eauto.
Qed.

Lemma kept_new f m k q : f q = false -> kept f m (<[k := q]> m).
Proof.
  intros Hq j r. destruct (decide (j = k)) as [->|Hj].
  - rewrite lookup_insert_eq. intros [= <-]. congruence.
  - rewrite lookup_insert_ne by done. eauto.
Qed.

Lemma kept_alter f m k g : (forall p, f (g p) = true -> f p = true) -> kept f m (alter g k m).
Proof.
  intros Hf j q. destruct (decide (j = k)) as [->|Hj].
  - rewrite lookup_alter_eq. intros (p & -> & ->)%fmap_Some Ha. eauto.
  - rewrite lookup_alter_ne by done. eauto.
Qed.

Lemma kept_imap f m g : (forall k p, f (g k p) = true -> f p = true) -> kept f m (map_imap (fun k p => Some (g k p)) m).
Proof. intros Hg j p. rewrite map_lookup_imap. intros (q & Hq & [= <-])%bind_Some Hf. eauto. Qed.

Lemma kept_delete f m k : kept f m (delete k m).
Proof. intros j p [_ H]%lookup_delete_Some. eauto. Qed.

Lemma asked_kept_send m m' : asked m m' -> kept send_enabled m m'.
Proof.
  intros Ha k p' Hk Hs. destruct (Ha k) as [E|(p & t & E & _ & E')]; [rewrite <- E; eauto|].
  rewrite E' in Hk. injection Hk as <-. eauto.
Qed.

(** ** Rotation *)

(** A peer that has not been scored yet counts as the worst. *)
Lemma worst_receive_peer_Some m e :
  worst_receive_peer order args m = Some e ->
  exists p s, m !! e = Some p /\ receive_status p = Receiving s /\ (e ∉ force_receive_peers args) /\
    forall k q u, m !! k = Some q -> receive_status q = Receiving u -> (k ∉ force_receive_peers args) ->
      worse (k, sc_value u) (e, sc_value s) = false.
Proof.
  unfold worst_receive_peer. intros ([e' v] & Hm & ->)%fmap_Some.
  apply max_by_Some in Hm as [Hin Hall].
  2, 3, 4: unfold worse; intros; cbn in *; repeat case_match; try done; rewrite ?Z.ltb_ge, ?Z.ltb_lt in *; lia.
  apply list_elem_of_omap in Hin as ([k p] & Hk & E). cbn in E. case_bool_decide; [done|].
  destruct (receive_status p) eqn:Hp; simplify_eq. apply elem_of_order in Hk. exists p, score.
  repeat split; [done..|]. intros k q u Hq Hu Hf.
  rewrite Forall_forall in Hall. apply (Hall (k, sc_value u)). apply list_elem_of_omap. exists (k, q).
  split; [by apply elem_of_order|]. cbn. rewrite bool_decide_false by done. by rewrite Hu.
Qed.

(** Rotation changes nothing, or drops the worst peer and asks one that was idle. *)
Definition rotated (m m' : Peers) : Prop :=
  m' = m \/ exists e pe te c pc tc,
    worst_receive_peer order args m = Some e /\ m !! e = Some pe /\ m !! c = Some pc /\ is_idle pc = true /\ c <> e /\
    m' = <[c := set_receive Requesting tc pc]> (<[e := set_receive NotReceiving te pe]> m).

Lemma rotation_spec m (Q : list (event p2p_sig) -> Peers -> Prop) :
  (forall t m', rotated m m' -> Q t m') -> wp (maybe_start_rotation order args m) Q.
Proof.
  intros HQ. unfold maybe_start_rotation. case_match; [apply HQ; by left|].
  destruct (worst_receive_peer order args m) as [e|] eqn:He; [|apply HQ; by left].
  destruct (worst_receive_peer_Some m e He) as (pe & s & Hpe & Hs & _).
  unfold available_receive_candidates, now_secs, net. cbn [bind wp reply p2p_sig].
  intros now. destruct (_ <$> _) as [|c rest] eqn:Hc; cbn [bind wp]; [apply HQ; by left|].
  intros rand te. set (k := fst _).
  destruct (pick_idle _ _ _ _ rand Hc) as (p & Hk & Hi). fold k in Hk.
  assert (k <> e) as Hne. { intros E. rewrite E, Hpe in Hk. simplify_eq. unfold is_idle in Hi. by rewrite Hs in Hi. }
  apply wp_bind, wp_any. intros t _. rewrite (alter_alt_Some _ _ _ pe) by done.
  apply (begin_requesting_spec _ _ p); [by rewrite lookup_insert_ne|]. intros t' x. apply HQ. right.
  by exists e, pe, (wrap_u64 te), k, p, x.
Qed.

Lemma rotated_chosen m m' : rotated m m' -> (count chosen m' <= count chosen m)%nat.
Proof.
  intros [->|(e & pe & te & c & pc & tc & He & Hpe & Hpc & Hi & Hne & ->)]; [done|].
  destruct (worst_receive_peer_Some m e He) as (p & s & Hp & Hs & Hf & _).
  rewrite Hpe in Hp. injection Hp as <-.
  set (m1 := <[e := _]> m). assert (Hc1 : m1 !! c = Some pc) by (unfold m1; by rewrite lookup_insert_ne).
  destruct (ask_counts m1 c pc tc Hc1 Hi) as (_ & _ & ->).
  pose proof (count_update chosen m e pe (set_receive NotReceiving te pe) Hpe) as H. fold m1 in H.
  unfold chosen at 2 4 in H. rewrite bool_decide_false in H by done. unfold is_active, is_receiving in H.
  rewrite Hs in H. cbn in H. destruct (bool_decide (c ∈ _)); cbn; lia.
Qed.

(** ** Control messages *)

Lemma check_control_spec m k (Q : list (event p2p_sig) -> bool * Peers -> Prop) :
  (m !! k = None -> Q [] (true, m)) ->
  (forall p now, m !! k = Some p ->
     Q [ev (S := p2p_sig) InstantNow now] (fst (rate_limit now p), <[k := snd (rate_limit now p)]> m)) ->
  wp (check_control_rate_limit m k) Q.
Proof.
  intros H1 H2. unfold check_control_rate_limit. destruct (m !! k) as [p|] eqn:E;
  [|by apply H1]. cbn. intros now. by apply H2.
Qed.

(** The results of the handlers; [limited] is the peer with the message counted. *)
Section handlers.
Context (m : Peers) (k : PeerId) (Q : list (event p2p_sig) -> result unit unit * Peers -> Prop).
Let limited now p := snd (rate_limit now p).
Context (Hnone : m !! k = None -> Q [] (Err tt, m)).
Context (Hcounted : forall t p now r, m !! k = Some p -> Q t (r, <[k := limited now p]> m)).

Lemma handle_request_spec :
  (forall t p now, m !! k = Some p -> send_enabled p = false ->
     trusted p = true \/ (count (fun _ => send_enabled) (<[k := limited now p]> m) < max_send_peers args)%nat ->
     Q t (Ok tt, <[k := set_send true (limited now p)]> m)) ->
  wp (handle_request order args m k) Q.
Proof.
  intros HQ. unfold handle_request. apply wp_bind, check_control_spec; [exact Hnone|].
  intros p now Hp. fold (limited now p). destruct (fst _); [by apply Hcounted|]. rewrite lookup_insert_eq.
  destruct (send_enabled _) eqn:Hs; [by apply Hcounted|]. rewrite (count_order send_enabled).
  destruct (negb _ && _) eqn:Hb; apply wp_bind, wp_any; intros; cbn; [by apply Hcounted|].
  rewrite insert_insert_eq. apply HQ; [done|done|]. apply andb_false_iff in Hb as [Hb|Hb].
  - left. by apply negb_false_iff in Hb.
  - right. by apply Nat.leb_gt in Hb.
Qed.

Lemma handle_accept_spec :
  (forall t p now, m !! k = Some p -> is_requesting p = true ->
     Q t (Ok tt, <[k := set_score (score_new (score_samples args)) (limited now p)]> m)) ->
  wp (handle_accept args m k) Q.
Proof.
  intros HQ. unfold handle_accept. apply wp_bind, check_control_spec; [exact Hnone|].
  intros p now Hp. fold (limited now p). destruct (fst _); [by apply Hcounted|]. rewrite lookup_insert_eq.
  destruct (is_requesting _) eqn:Hs; [|by apply Hcounted]. cbn. rewrite insert_insert_eq. by apply HQ.
Qed.

Lemma handle_cancel_spec :
  (forall t p now, m !! k = Some p -> Q t (Ok tt, <[k := set_send false (limited now p)]> m)) ->
  wp (handle_cancel m k) Q.
Proof.
  intros HQ. unfold handle_cancel. apply wp_bind, check_control_spec; [exact Hnone|].
  intros p now Hp. fold (limited now p). destruct (fst _); [by apply Hcounted|]. rewrite lookup_insert_eq.
  destruct (send_enabled _) eqn:Hs; [|by apply Hcounted]. cbn. rewrite insert_insert_eq. by apply HQ.
Qed.

Lemma handle_reject_spec :
  (forall t p now x, m !! k = Some p -> is_requesting p = true ->
     wp (maybe_request_receive_peers order args (<[k := set_receive NotReceiving x (limited now p)]> m))
       (fun t' m' => Q (t ++ t') (Ok tt, m'))) ->
  wp (handle_reject order args m k) Q.
Proof.
  intros HQ. unfold handle_reject. apply wp_bind, check_control_spec; [exact Hnone|].
  intros p now Hp. fold (limited now p). destruct (fst _); [by apply Hcounted|]. rewrite lookup_insert_eq.
  destruct (is_requesting _) eqn:Hs; [|by apply Hcounted].
  unfold now_secs, net. cbn [bind wp reply p2p_sig]. intros x. apply wp_bind. rewrite insert_insert_eq.
  eapply wp_mono; [apply (HQ [ev (S := p2p_sig) InstantNow now; ev (S := p2p_sig) UtcSecs x] p now); done|].
  intros t m' H. cbn [wp]. by rewrite app_nil_r.
Qed.
End handlers.

(** [f] does not see the count of control messages. *)
Lemma kept_counted f m k p now :
  f (snd (rate_limit now p)) = f p -> m !! k = Some p -> kept f m (<[k := snd (rate_limit now p)]> m).
Proof. intros Hf H. eapply kept_insert; [exact H|]. by rewrite Hf. Qed.

Lemma score_missed_same f e k p :
  (forall s, receive_status p = Receiving s -> f (set_score (score_record s MISSED_FLASHBLOCK_PENALTY_NS) p) = f p) ->
  f (score_missed e k p) = f p :> bool.
Proof.
  unfold score_missed. intros H. destruct (receive_status p) as [|s|] eqn:E; [done| |done]. case_match; [by apply H|done].
Qed.

Lemma note_kept f ts fb k m obs :
  (forall p s x, receive_status p = Receiving x -> f (set_score s p) = f p) ->
  kept f m (snd (fst (note_peer_received_flashblock ts fb k m obs))).
Proof.
  intros Hf. unfold note_peer_received_flashblock. destruct (List.find _ obs); [apply kept_refl|].
  destruct obs as [|e rest]; [apply kept_refl|].
  destruct (RECEIVE_FLASHBLOCK_GRACE_WINDOW <=? _)%nat; cbn [fst snd]; [|apply kept_refl].
  apply kept_imap. intros j p. rewrite score_missed_same; [done|]. intros s Hs. by eapply Hf.
Qed.

(** ** All that happens to the peers *)

Definition record_latency (latency : Z) (p : PeerState) : PeerState :=
  match receive_status p with Receiving s => set_score (score_record s latency) p | _ => p end.

Inductive fan_step (m : Peers) : Peers -> Prop :=
| fs_connect local k tx tr m' : runs (on_peer_connected order args local m k tx) tr m' -> fan_step m m'
| fs_disconnect k tr m' : runs (on_peer_disconnected order args m k) tr m' -> fan_step m m'
| fs_trust k b : fan_step m (apply_trust b k m)
| fs_tick tr m' : runs (rotation_tick order args m) tr m' -> fan_step m m'
| fs_request k tr r m' : runs (handle_request order args m k) tr (r, m') -> fan_step m m'
| fs_accept k tr r m' : runs (handle_accept args m k) tr (r, m') -> fan_step m m'
| fs_reject k tr r m' : runs (handle_reject order args m k) tr (r, m') -> fan_step m m'
| fs_cancel k tr r m' : runs (handle_cancel m k) tr (r, m') -> fan_step m m'
| fs_note k ts fb obs : fan_step m (snd (fst (note_peer_received_flashblock ts fb k m obs)))
| fs_latency k x : fan_step m (alter (record_latency x) k m).

Lemma wp_use {A} (p : P2p A) Q tr a : runs p tr a -> wp p Q -> Q tr a.
Proof. rewrite wp_runs. auto. Qed.

(** Receiving from peers that are not forced, or asking them, within the limit *)
Definition bounded (m : Peers) : Prop := (count chosen m <= max_receive_peers args)%nat.

Lemma kept_bounded m m' : kept is_active m m' -> bounded m -> bounded m'.
Proof. unfold bounded. intros H%kept_chosen. lia. Qed.

Lemma maybe_request_bounded m (Q : list (event p2p_sig) -> Peers -> Prop) :
  bounded m -> (forall t m', bounded m' -> Q t m') -> wp (maybe_request_receive_peers order args m) Q.
Proof. intros Hb HQ. apply maybe_request_spec. intros t m' _ _ H _. by apply HQ, H. Qed.

Lemma rotation_tick_bounded m : bounded m -> wp (rotation_tick order args m) (fun _ m' => bounded m').
Proof.
  intros Hb. unfold rotation_tick. apply wp_bind. unfold expire_stale_receive_requests, now_secs, net.
  cbn [bind wp reply p2p_sig]. intros x. set (m1 := _ <$> m). assert (Hb1 : bounded m1).
  { eapply kept_bounded; [|exact Hb]. intros k p. unfold m1. rewrite lookup_fmap.
    intros (q & Hq & ->)%fmap_Some. case_match; [done|eauto]. }
  assert (Hrest : forall m2, bounded m2 -> wp (do peers <- maybe_request_receive_peers order args m2;
      maybe_start_rotation order args peers) (fun (t' : list (event p2p_sig)) m' => bounded m')).
  { intros m2 Hb2. apply wp_bind, maybe_request_bounded; [done|]. intros t' m3 Hb3. apply rotation_spec.
    intros t'' m4 H%rotated_chosen. unfold bounded in *. lia. }
  case_match; [|by apply Hrest]. apply maybe_request_bounded; [done|]. auto.
Qed.

Lemma fan_step_bounded m m' : fan_step m m' -> bounded m -> bounded m'.
Proof.
  intros Hs Hb. assert (Hc : forall (t : list (event p2p_sig)) k p now (r : result unit unit),
    m !! k = Some p -> bounded (<[k := snd (rate_limit now p)]> m)).
  { intros t k p now r Hp. eapply kept_bounded; [|exact Hb]. by apply kept_counted. }
  destruct Hs as [l k tx tr m' H|k tr m' H|k b|tr m' H|k tr r m' H|k tr r m' H|k tr r m' H|k tr r m' H|k ts fb obs|k x].
  - apply (wp_use _ (fun _ m' => bounded m') _ _ H). unfold on_peer_connected. case_match; [done|]. cbn. intros now.
    apply maybe_request_bounded; [|auto]. eapply kept_bounded; [by apply kept_new|done].
  - apply (wp_use _ (fun _ m' => bounded m') _ _ H). apply maybe_request_bounded; [|auto].
    eapply kept_bounded; [by apply kept_delete|done].
  - destruct b as [b|]; [|done]. eapply kept_bounded; [|exact Hb]. by apply kept_alter.
  - by apply (wp_use _ _ _ _ H), rotation_tick_bounded.
  - apply (wp_use _ (fun _ r => bounded (snd r)) _ _ H), handle_request_spec; [done|by eauto|].
    intros. eapply kept_bounded; [|exact Hb]. by eapply kept_insert.
  - apply (wp_use _ (fun _ r => bounded (snd r)) _ _ H), handle_accept_spec; [done|by eauto|].
    intros t p now Hp Hr. eapply kept_bounded; [|exact Hb]. eapply kept_insert; [done|].
    intros _. unfold is_active. by rewrite Hr, orb_true_r.
  - apply (wp_use _ (fun _ r => bounded (snd r)) _ _ H), handle_reject_spec; [done|by eauto|].
    intros t p now y Hp Hr. apply maybe_request_bounded; [|auto].
    eapply kept_bounded; [|exact Hb]. by eapply kept_insert.
  - apply (wp_use _ (fun _ r => bounded (snd r)) _ _ H), handle_cancel_spec; [done|by eauto|].
    intros. eapply kept_bounded; [|exact Hb]. by eapply kept_insert.
  - eapply kept_bounded; [|exact Hb]. apply note_kept. intros p s y Hp. unfold is_active, is_receiving. by rewrite Hp.
  - eapply kept_bounded; [|exact Hb]. apply kept_alter. intros p. unfold record_latency, is_active, is_receiving.
    by destruct (receive_status p) eqn:E; rewrite ?E.
Qed.

(** ** The claims *)

(** Whatever peers connect, leave, answer or send, the node never receives from more than
    [max_receive_peers] peers outside the forced ones, requests that are not answered yet
    included. *)
Theorem receive_set_bounded m : rtc fan_step ∅ m -> (count chosen m <= max_receive_peers args)%nat.
Proof.
  intros H. change (bounded m). assert (bounded ∅) as H0. { unfold bounded, count. rewrite map_to_list_empty. cbn. lia. }
  revert H0. induction H as [|m1 m2 m3 H1 _ IH]; [done|]. intros H0. by apply IH, (fan_step_bounded m1).
Qed.

(** The loop that asks for more peers ends, after at most one round per peer.  Only idle
    peers are asked; every connected forced peer is then asked or already sending, and
    either the receive set is full or no peer was left that could have been asked when the
    clock was last read. *)
Theorem requests_fill_receive_set m tr m' :
  runs (maybe_request_receive_peers order args m) tr m' ->
  asked m m' /\ (forall k p, k ∈ force_receive_peers args -> m' !! k = Some p -> is_active p = true) /\ filled tr m'.
Proof.
  intros H. apply (wp_use _ (fun tr m' => asked m m' /\
    (forall k p, k ∈ force_receive_peers args -> m' !! k = Some p -> is_active p = true) /\ filled tr m') _ _ H).
  apply maybe_request_spec. intros t m1 Ha Hf _ Hd. repeat split; [done| |done]. intros k p Hk Hp.
  rewrite idle_active, (Hf k p); done.
Qed.

(** Rotation happens only when the receive set is full.  It drops the peer with the worst
    score among those that are not forced, a peer without a score being the worst, and
    asks a peer that was idle. *)
Theorem rotation_drops_worst m tr m' :
  runs (maybe_start_rotation order args m) tr m' -> m' <> m ->
  (max_receive_peers args <= count (fun _ => is_receiving) m)%nat /\
  exists e pe s te c pc tc,
    m !! e = Some pe /\ receive_status pe = Receiving s /\ (e ∉ force_receive_peers args) /\
    (forall k q u, m !! k = Some q -> receive_status q = Receiving u -> (k ∉ force_receive_peers args) ->
       worse (k, sc_value u) (e, sc_value s) = false) /\
    m !! c = Some pc /\ receive_status pc = NotReceiving /\
    m' = <[c := set_receive Requesting tc pc]> (<[e := set_receive NotReceiving te pe]> m).
Proof.
  intros H Hne. split.
  - unfold maybe_start_rotation, num_receive_peers in H. rewrite (count_order is_receiving) in H.
    destruct (Nat.ltb_spec (count (fun _ => is_receiving) m) (max_receive_peers args)); [|done].
    cbn in H. by destruct H as [_ ->].
  - apply (wp_use _ (fun _ m' => rotated m m') _ _) in H; [|by apply rotation_spec].
    destruct H as [->|(e & pe & te & c & pc & tc & He & Hpe & Hpc & Hi & _ & ->)]; [done|].
    destruct (worst_receive_peer_Some m e He) as (p & s & Hp & Hs & Hf & Hw). rewrite Hpe in Hp. injection Hp as <-.
    exists e, pe, s, te, c, pc, tc. repeat split; try done. unfold is_idle in Hi. by destruct (receive_status pc).
Qed.

Lemma maybe_request_send m (Q : list (event p2p_sig) -> Peers -> Prop) :
  (forall t m', kept send_enabled m m' -> Q t m') -> wp (maybe_request_receive_peers order args m) Q.
Proof. intros HQ. apply maybe_request_spec. intros t m' Ha _ _ _. by apply HQ, asked_kept_send. Qed.

Lemma rotated_send m m' : rotated m m' -> kept send_enabled m m'.
Proof.
  intros [->|(e & pe & te & c & pc & tc & _ & He & Hc & _ & Hne & ->)]; [apply kept_refl|].
  eapply kept_trans; [by apply (kept_insert _ m e pe (set_receive NotReceiving te pe))|].
  apply (kept_insert _ _ c pc); [by rewrite lookup_insert_ne|done].
Qed.

Lemma rotation_tick_send m : wp (rotation_tick order args m) (fun _ m' => kept send_enabled m m').
Proof.
  unfold rotation_tick. apply wp_bind. unfold expire_stale_receive_requests, now_secs, net.
  cbn [bind wp reply p2p_sig]. intros x. set (m1 := _ <$> m). assert (Hb1 : kept send_enabled m m1).
  { intros k p. unfold m1. rewrite lookup_fmap. intros (q & Hq & ->)%fmap_Some. case_match; eauto. }
  assert (Hrest : forall m2, kept send_enabled m m2 -> wp (do peers <- maybe_request_receive_peers order args m2;
      maybe_start_rotation order args peers) (fun (t' : list (event p2p_sig)) m' => kept send_enabled m m')).
  { intros m2 Hb2. apply wp_bind, maybe_request_send. intros t' m3 Hb3. apply rotation_spec.
    intros t'' m4 H%rotated_send. eapply kept_trans; [exact Hb2|]. by eapply kept_trans. }
  case_match; [|by apply Hrest]. apply maybe_request_send. intros t m2 H2. apply Hrest. by eapply kept_trans.
Qed.

(** The node starts to serve a peer only when that peer asks for it, and only if it is
    trusted or fewer than [max_send_peers] peers are being served. *)
Theorem serving_is_granted m m' k p' :
  fan_step m m' -> m' !! k = Some p' -> send_enabled p' = true ->
  (exists p, m !! k = Some p /\ send_enabled p = true) \/
  (exists tr p, runs (handle_request order args m k) tr (Ok tt, m') /\ m !! k = Some p /\
     (trusted p = true \/ (count (fun _ => send_enabled) m < max_send_peers args)%nat)).
Proof.
  intros Hs Hk Hp'. assert (Hkept : kept send_enabled m m' -> exists p, m !! k = Some p /\ send_enabled p = true).
  { intros H. by eapply H. }
  destruct Hs as [l j tx tr m' H|j tr m' H|j b|tr m' H|j tr r m' H|j tr r m' H|j tr r m' H|j tr r m' H|j ts fb obs|j x].
  - left. apply Hkept, (wp_use _ (fun _ m' => kept send_enabled m m') _ _ H). unfold on_peer_connected.
    case_match; [apply kept_refl|]. cbn. intros now. apply maybe_request_send. intros t m1. apply kept_trans.
    by apply kept_new.
  - left. apply Hkept, (wp_use _ (fun _ m' => kept send_enabled m m') _ _ H). apply maybe_request_send.
    intros t m1. apply kept_trans, kept_delete.
  - left. apply Hkept. destruct b as [b|]; [by apply kept_alter|apply kept_refl].
  - left. by apply Hkept, (wp_use _ (fun _ m' => kept send_enabled m m') _ _ H), rotation_tick_send.
  - pose proof (wp_use _ (fun _ r => kept send_enabled m (snd r) \/ exists p now, m !! j = Some p /\
        (trusted p = true \/ (count (fun _ => send_enabled) (<[j := snd (rate_limit now p)]> m) < max_send_peers args)%nat) /\
        r = (Ok tt, <[j := set_send true (snd (rate_limit now p))]> m)) _ _ H) as Hr.
    destruct Hr as [Hr|(p & now & Hp & Ht & Hr)].
    { apply handle_request_spec; [intros; left; apply kept_refl|intros; left; by apply kept_counted|].
      intros t p now Hp _ Ht. right. eauto. }
    { left. by apply Hkept. }
    simplify_eq. destruct (decide (k = j)) as [->|Hne].
    + right. exists tr, p. repeat split; [done|done|]. destruct Ht as [Ht|Ht]; [by left|right].
      pose proof (count_update (fun _ => send_enabled) m j p (snd (rate_limit now p)) Hp) as Hc. cbn beta in Hc.
      change (send_enabled (snd (rate_limit now p))) with (send_enabled p) in Hc. lia.
    + left. rewrite lookup_insert_ne in Hk by done. eauto.
  - left. apply Hkept, (wp_use _ (fun _ r => kept send_enabled m (snd r)) _ _ H), handle_accept_spec;
      intros; [apply kept_refl|by apply kept_counted|by eapply kept_insert].
  - left. apply Hkept, (wp_use _ (fun _ r => kept send_enabled m (snd r)) _ _ H), handle_reject_spec;
      intros; [apply kept_refl|by apply kept_counted|]. apply maybe_request_send. intros ? m1. apply kept_trans.
    by eapply kept_insert.
  - left. apply Hkept, (wp_use _ (fun _ r => kept send_enabled m (snd r)) _ _ H), handle_cancel_spec;
      intros; [apply kept_refl|by apply kept_counted|by eapply kept_insert].
  - left. apply Hkept, note_kept. done.
  - left. apply Hkept, kept_alter. intros p. unfold record_latency. by destruct (receive_status p).
Qed.
End receive.

(** ** The limit on control messages *)

(** Which of the messages at the given times pass *)
Fixpoint passes (p : PeerState) (times : list Z) : nat :=
  match times with
  | [] => 0
  | t :: times => (Nat.b2n (negb (fst (rate_limit t p))) + passes (snd (rate_limit t p)) times)%nat
  end.

(** Without a reset only the rest of the window's allowance passes. *)
Lemma passes_window p times :
  0 <= control_msg_count p -> control_msg_count p + Z.of_nat (length times) < 2 ^ 32 ->
  Forall (fun t => t - control_msg_window_start p <= CONTROL_MSG_WINDOW) times ->
  Z.of_nat (passes p times) <= Z.max 0 (MAX_CONTROL_MSGS_PER_WINDOW - control_msg_count p).
Proof.
  revert p. induction times as [|t times IH]; intros p H0 Hlen Hall; [cbn; lia|].
  apply Forall_cons in Hall as [Ht Hall]. cbn [passes length] in *. rewrite Nat2Z.inj_succ in Hlen.
  specialize (IH (snd (rate_limit t p))). unfold rate_limit in *. cbn [fst snd] in *.
  assert ((CONTROL_MSG_WINDOW <? Z.max 0 (t - control_msg_window_start p)) = false) as Hr.
  { apply Z.ltb_ge. unfold CONTROL_MSG_WINDOW in *. lia. }
  rewrite Hr in *. cbn [control_msg_count set_control control_msg_window_start] in *.
  unfold wrap_u32 in *. rewrite Z.mod_small in * by lia. unfold MAX_CONTROL_MSGS_PER_WINDOW in *.
  destruct (Z.ltb_spec 10 (control_msg_count p + 1)); cbn [negb Nat.b2n];
    specialize (IH ltac:(lia) ltac:(lia) Hall); lia.
Qed.

Lemma passes_two_windows p a times :
  0 <= control_msg_count p -> control_msg_count p + Z.of_nat (length times) < 2 ^ 32 ->
  Forall (fun t => a <= t <= a + CONTROL_MSG_WINDOW) times ->
  Z.of_nat (passes p times) <= Z.max 0 (MAX_CONTROL_MSGS_PER_WINDOW - control_msg_count p) + MAX_CONTROL_MSGS_PER_WINDOW.
Proof.
  revert p. induction times as [|t times IH]; intros p H0 Hlen Hall; [cbn; unfold MAX_CONTROL_MSGS_PER_WINDOW; lia|].
  pose proof Hall as [Ht Hall']%Forall_cons. cbn [length] in Hlen. rewrite Nat2Z.inj_succ in Hlen.
  destruct (CONTROL_MSG_WINDOW <? Z.max 0 (t - control_msg_window_start p)) eqn:Hr.
  - pose proof (passes_window (snd (rate_limit t p)) times) as Hw. cbn [passes]. unfold rate_limit in *. rewrite Hr in *.
    cbn [fst snd control_msg_count set_control control_msg_window_start] in *. change (wrap_u32 (0 + 1)) with 1 in *.
    change (MAX_CONTROL_MSGS_PER_WINDOW <? 1) with false. cbn [negb Nat.b2n].
    specialize (Hw ltac:(lia) ltac:(lia)). unfold MAX_CONTROL_MSGS_PER_WINDOW in *.
    assert (Z.of_nat (passes (set_control 1 t p) times) <= 9); [|lia].
    etrans; [apply Hw|lia]. eapply Forall_impl; [exact Hall'|]. cbn. lia.
  - specialize (IH (snd (rate_limit t p))). cbn [passes]. unfold rate_limit in *. rewrite Hr in *.
    cbn [fst snd control_msg_count set_control control_msg_window_start] in *.
    unfold wrap_u32 in *. rewrite Z.mod_small in * by lia. unfold MAX_CONTROL_MSGS_PER_WINDOW in *.
    destruct (Z.ltb_spec 10 (control_msg_count p + 1)); cbn [negb Nat.b2n];
      specialize (IH ltac:(lia) ltac:(lia) Hall'); lia.
Qed.

(** Of the control messages that a peer sends within any thirty seconds, at most twenty
    are acted on, whatever came before. *)
Theorem control_rate_bounded p a times :
  0 <= control_msg_count p -> control_msg_count p + Z.of_nat (length times) < 2 ^ 32 ->
  Forall (fun t => a <= t <= a + CONTROL_MSG_WINDOW) times ->
  Z.of_nat (passes p times) <= 2 * MAX_CONTROL_MSGS_PER_WINDOW.
Proof.
  intros H0 H1 H2. pose proof (passes_two_windows p a times H0 H1 H2). unfold MAX_CONTROL_MSGS_PER_WINDOW in *. lia.
Qed.

(** ** Scores *)

Lemma wrap_i64_small x : - 2 ^ 63 <= x < 2 ^ 63 -> wrap_i64 x = x.
Proof. intros H. unfold wrap_i64. rewrite Z.mod_small; lia. Qed.

(** A new score lies between the old one and the sample, as long as the products fit into
    64 bits. *)
Theorem score_is_average s v sample B :
  sc_value s = Some v -> 1 <= sc_window s -> - B <= v <= B -> - B <= sample <= B -> B * sc_window s < 2 ^ 63 ->
  exists v', sc_value (score_record s sample) = Some v' /\ Z.min v sample <= v' <= Z.max v sample.
Proof.
  intros Hv Hw HB1 HB2 Hfit. unfold score_record. rewrite Hv. cbn [sc_value]. eexists. split; [done|].
  set (w := sc_window s) in *. rewrite (wrap_i64_small (v * (w - 1))) by nia.
  rewrite wrap_i64_small by nia. split.
  - rewrite <- (Z.quot_mul (Z.min v sample) w) by lia. apply Z.quot_le_mono; nia.
  - rewrite <- (Z.quot_mul (Z.max v sample) w) by lia. apply Z.quot_le_mono; nia.
Qed.

(** ** Examples *)

Definition ex_world : handler p2p_sig unit := fun c w =>
  (match c return reply p2p_sig c with
   | UtcSecs => 1000
   | UtcNanos => 1000000000000
   | InstantNow => 5
   | RandomIndex _ => Fin.F1
   | TrySend _ _ => true
   | ReputationChange _ _ | Sleep _ | Broadcast _ | RecordFb _ => tt
   | GetPeerById _ => Ok None
   end, w).
Definition ex_args : FanoutArgs :=
  {| max_send_peers := 1; max_receive_peers := 1; rotation_interval := 30; score_samples := 10; force_receive_peers := [7] |}.

Definition ex_connect (m : Peers) (k tx : Z) : P2p Peers := on_peer_connected map_to_list ex_args 0 m k tx.
Definition ex_m1 : Peers := value_of ex_world (ex_connect ∅ 1 11) tt.
Definition ex_m2 : Peers := value_of ex_world (ex_connect ex_m1 2 12) tt.
Definition ex_accept : P2p (result unit unit * Peers) := handle_accept ex_args ex_m2 1.
Definition ex_m3 : Peers := snd (value_of ex_world ex_accept tt).

Lemma ex_order m : map_to_list m ≡ₚ map_to_list (m : Peers).
Proof. done. Qed.

Lemma receive_set_bounded_witness : (count (chosen ex_args) ex_m2 <= 1)%nat.
Proof.
  apply (receive_set_bounded map_to_list ex_order ex_args ex_m2).
  eapply rtc_l; [exact (fs_connect map_to_list ex_args ∅ 0 1 11 _ _ (interp_runs ex_world (ex_connect ∅ 1 11) tt))|].
  eapply rtc_l; [exact (fs_connect map_to_list ex_args ex_m1 0 2 12 _ _ (interp_runs ex_world (ex_connect ex_m1 2 12) tt))|].
  apply rtc_refl.
Defined.

Lemma requests_fill_receive_set_witness :
  filled ex_args (trace_of ex_world (maybe_request_receive_peers map_to_list ex_args {[ 1 := peer_new 5 11 ]}) tt)
    (value_of ex_world (maybe_request_receive_peers map_to_list ex_args {[ 1 := peer_new 5 11 ]}) tt).
Proof.
  apply (requests_fill_receive_set map_to_list ex_order ex_args {[ 1 := peer_new 5 11 ]}).
  apply (interp_runs ex_world (maybe_request_receive_peers map_to_list ex_args {[ 1 := peer_new 5 11 ]}) tt).
Defined.

Lemma rotation_drops_worst_witness : (1 <= count (fun _ => is_receiving) ex_m3)%nat.
Proof.
  apply (rotation_drops_worst map_to_list ex_order ex_args ex_m3 _ _
    (interp_runs ex_world (maybe_start_rotation map_to_list ex_args ex_m3) tt)).
  intros H. apply (f_equal (lookup 2)) in H. vm_compute in H. discriminate H.
Defined.

Lemma serving_is_granted_witness :
  exists p, ex_m3 !! 2 = Some p /\ (trusted p = true \/ (count (fun _ => send_enabled) ex_m3 < 1)%nat).
Proof.
  destruct (serving_is_granted map_to_list ex_order ex_args ex_m3
    (snd (value_of ex_world (handle_request map_to_list ex_args ex_m3 2) tt)) 2
    (set_send true (set_control 1 5 (peer_new 5 12)))) as [(p & Hp & Hs)|(tr & p & _ & Hp & H)].
  - eapply fs_request. rewrite <- surjective_pairing. apply (interp_runs ex_world (handle_request map_to_list ex_args ex_m3 2) tt).
  - vm_compute. reflexivity.
  - reflexivity.
  - vm_compute in Hp. injection Hp as <-. discriminate Hs.
  - exists p. split; [exact Hp|exact H].
Defined.

Lemma control_rate_bounded_witness :
  Z.of_nat (passes (peer_new 0 1) (replicate 15 100)) <= 20.
Proof.
  apply (control_rate_bounded (peer_new 0 1) 100 (replicate 15 100)); [cbn; lia|cbn; lia|].
  apply Forall_replicate. unfold CONTROL_MSG_WINDOW. lia.
Defined.

Lemma score_is_average_witness :
  exists v', sc_value (score_record {| sc_value := Some 100; sc_window := 10 |} 200) = Some v' /\ 100 <= v' <= 200.
Proof. apply (score_is_average {| sc_value := Some 100; sc_window := 10 |} 100 200 1000); [reflexivity|cbn; lia..]. Defined.

(** The window is fixed and not sliding: twenty messages within one nanosecond pass. *)
Theorem burst_of_twenty :
  passes (peer_new 0 1) (replicate 10 CONTROL_MSG_WINDOW ++ replicate 10 (CONTROL_MSG_WINDOW + 1)) = 20%nat.
Proof. vm_compute. reflexivity. Qed.

(** A forced peer that rejects the request is asked again at once, without the pause that
    other peers get. *)
Definition ex_rejecting : Peers := {[ 7 := set_receive Requesting 1000 (peer_new 5 17) ]}.
Theorem forced_peer_asked_again :
  last (trace_of ex_world (handle_reject map_to_list ex_args ex_rejecting 7) tt) =
    Some (ev (S := p2p_sig) (TrySend 17 REQUEST) true).
Proof. vm_compute. reflexivity. Qed.
