(* ===== verification/P2pHandler.v ===== *)
(** * Flashblocks between the network and the node
    ([src/crates/p2p/src/protocol]: [handler.rs], [connection.rs], [error.rs])

    Flashblocks arrive from peers in any order and leave towards the node in order.  The
    builders agree on who publishes by messages: a builder that wants to publish announces
    it and waits until the others have stopped.  The node's state is one record under one
    lock; a frame from a peer is one program over it. *)

From S2P Require Import Prelude Program Encoding ProofTypes AccessList Flashblocks P2pCodec P2pPeers.

Definition MAX_FRAME : Z := 2 ^ 24.
Definition MAX_FLASHBLOCK_INDEX : Z := 100.
Definition MAX_PUBLISH_WAIT_SEC : Z := 2.
Definition AUTHORIZATION_TIMESTAMP_GRACE_SEC : Z := 10.

(** ** State *)

Section node.
Context (L : RlpLib) (C : Ed25519).
Context (order : gmap PeerId PeerState -> list (PeerId * PeerState)).

Inductive PublishingStatus :=
| Publishing (authorization : Authorization C)
| WaitingToPublish (authorization : Authorization C) (active_publishers : list (VerifyingKey C * Z))
| NotPublishing (active_publishers : list (VerifyingKey C * Z)).

Record P2PState := {
  publishing_status : PublishingStatus;
  st_payload_id : PayloadId;
  st_payload_timestamp : Z;
  st_flashblock_timestamp : Z;
  st_flashblock_index : nat;
  st_flashblocks : list (option FlashblocksPayloadV1);
  st_observed : list ObservedPayload;
  st_peers : gmap PeerId PeerState
}.

Definition p2p_default : P2PState :=
  {| publishing_status := NotPublishing []; st_payload_id := replicate 8 0; st_payload_timestamp := 0;
     st_flashblock_timestamp := 0; st_flashblock_index := 0; st_flashblocks := []; st_observed := []; st_peers := ∅ |}.

Definition set_status (s : PublishingStatus) (st : P2PState) : P2PState :=
  {| publishing_status := s; st_payload_id := st_payload_id st; st_payload_timestamp := st_payload_timestamp st;
     st_flashblock_timestamp := st_flashblock_timestamp st; st_flashblock_index := st_flashblock_index st;
     st_flashblocks := st_flashblocks st; st_observed := st_observed st; st_peers := st_peers st |}.
Definition set_cache (index : nat) (l : list (option FlashblocksPayloadV1)) (st : P2PState) : P2PState :=
  {| publishing_status := publishing_status st; st_payload_id := st_payload_id st;
     st_payload_timestamp := st_payload_timestamp st; st_flashblock_timestamp := st_flashblock_timestamp st;
     st_flashblock_index := index; st_flashblocks := l; st_observed := st_observed st; st_peers := st_peers st |}.
Definition set_peers (o : list ObservedPayload) (p : gmap PeerId PeerState) (st : P2PState) : P2PState :=
  {| publishing_status := publishing_status st; st_payload_id := st_payload_id st;
     st_payload_timestamp := st_payload_timestamp st; st_flashblock_timestamp := st_flashblock_timestamp st;
     st_flashblock_index := st_flashblock_index st; st_flashblocks := st_flashblocks st; st_observed := o; st_peers := p |}.

(** What a node is configured with *)
Record NodeCtx := {
  authorizer_vk : VerifyingKey C;
  fanout_args : FanoutArgs;
  has_recorder : bool;
  builder_sk : option (SigningKey C)
}.
Context (ctx : NodeCtx).

Inductive FlashblocksP2PError := NotClearedToPublish | ExpiredAuthorization | MissingBuilderSk.

(** ** Publishing a flashblock *)

(** A payload that is newer than all before takes over the cache. *)
Definition new_payload (a : Authorization C) (st : P2PState) : P2PState :=
  if st_payload_timestamp st <? au_timestamp a then
    {| publishing_status := publishing_status st; st_payload_id := au_payload_id a; st_payload_timestamp := au_timestamp a;
       st_flashblock_timestamp := st_flashblock_timestamp st; st_flashblock_index := 0;
       st_flashblocks := replicate (length (st_flashblocks st)) None;
       st_observed := st_observed st; st_peers := st_peers st |}
  else st.

(** [resize_with] to at least [n] slots *)
Definition grow (n : nat) (l : list (option FlashblocksPayloadV1)) : list (option FlashblocksPayloadV1) :=
  l ++ replicate (n - length l) None.

(** The loop that broadcasts what is in order; [fuel] bounds its rounds. *)
Fixpoint deliver (fuel : nat) (now : Z) (st : P2PState) : P2p P2PState :=
  match fuel, st_flashblocks st !! st_flashblock_index st with
  | S fuel, Some (Some fb) =>
      do _ <- (if has_recorder ctx then net (RecordFb fb) else Ret tt);
      do _ <- net (Broadcast fb);
      deliver fuel now
        {| publishing_status := publishing_status st; st_payload_id := st_payload_id st;
           st_payload_timestamp := st_payload_timestamp st; st_flashblock_timestamp := now;
           st_flashblock_index := S (st_flashblock_index st); st_flashblocks := st_flashblocks st;
           st_observed := st_observed st; st_peers := st_peers st |}
  | _, _ => Ret st
  end.

(** [FlashblocksP2PCtx::publish]; [fb] is the message of [a]. *)
Definition publish (st : P2PState) (a : Authorized C) (fb : FlashblocksPayloadV1) : P2p P2PState :=
  if negb (bool_decide (au_payload_id (ad_authorization a) = fb_payload_id fb)) then Ret st
  else
    let st := new_payload (ad_authorization a) st in
    if negb (bool_decide (fb_payload_id fb = st_payload_id st)) then Ret st
    else if MAX_FLASHBLOCK_INDEX <? fb_index fb then Ret st
    else
      let i := Z.to_nat (fb_index fb) in
      let cache := grow (S i) (st_flashblocks st) in
      match cache !! i with
      | Some None =>
          let st := set_cache (st_flashblock_index st) (<[i := Some fb]> cache) st in
          let frame := p2p_encode L C (P2pAuthorized a) in
          if MAX_FRAME <? Z.of_nat (length frame) then Ret st
          else
            do observed <- send_flashblock_to_send_set order (st_peers st) (fb_payload_id fb) (fb_index fb) frame (st_observed st);
            do now <- net UtcNanos;
            let st := set_peers observed (st_peers st) st in
            deliver (S (length (st_flashblocks st))) now st
      | _ => Ret (set_cache (st_flashblock_index st) cache st)
      end.

(** [publish_new] *)
Definition publish_new (st : P2PState) (a : Authorized C) (fb : FlashblocksPayloadV1)
    : P2p (result unit FlashblocksP2PError * P2PState) :=
  match publishing_status st with
  | Publishing authorization =>
      if negb (bool_decide (authorization = ad_authorization a)) then Ret (Err ExpiredAuthorization, st)
      else do st <- publish st a fb; Ret (Ok tt, st)
  | _ => Ret (Err NotClearedToPublish, st)
  end.

(** ** Who publishes *)

Definition announce (sk : SigningKey C) (authorization : Authorization C) (m : AuthorizedMsg) : bytes :=
  p2p_encode L C (P2pAuthorized (authorized_new L C sk authorization m)).

Definition most_recent_publisher (l : list (VerifyingKey C * Z)) : Z := foldr Z.max 0 (snd <$> l).

(** [start_publishing] *)
Definition start_publishing (st : P2PState) (new : Authorization C) : P2p (result unit FlashblocksP2PError * P2PState) :=
  match builder_sk ctx with
  | None => Ret (Err MissingBuilderSk, st)
  | Some sk =>
      match publishing_status st with
      | Publishing authorization =>
          Ret (Ok tt, if au_timestamp authorization <? au_timestamp new then set_status (Publishing new) st else st)
      | WaitingToPublish authorization active =>
          Ret (Ok tt, if wrap_u64 (most_recent_publisher active + MAX_PUBLISH_WAIT_SEC) <=? au_timestamp new
                      then set_status (Publishing new) st else set_status (WaitingToPublish new active) st)
      | NotPublishing active =>
          do _ <- send_to_all_peers order (st_peers st) (announce sk new MsgStartPublish);
          Ret (Ok tt, set_status match active with [] => Publishing new | _ => WaitingToPublish new active end st)
      end
  end.

(** [stop_publishing] *)
Definition stop_publishing (st : P2PState) : P2p (result unit FlashblocksP2PError * P2PState) :=
  match builder_sk ctx with
  | None => Ret (Err MissingBuilderSk, st)
  | Some sk =>
      match publishing_status st with
      | Publishing authorization =>
          do _ <- send_to_all_peers order (st_peers st) (announce sk authorization MsgStopPublish);
          Ret (Ok tt, set_status (NotPublishing []) st)
      | WaitingToPublish authorization active =>
          do _ <- send_to_all_peers order (st_peers st) (announce sk authorization MsgStopPublish);
          Ret (Ok tt, set_status (NotPublishing active) st)
      | NotPublishing _ => Ret (Ok tt, st)
      end
  end.

(** A publisher is recorded with its latest timestamp. *)
Definition note_publisher (vk : VerifyingKey C) (timestamp : Z) (l : list (VerifyingKey C * Z)) : list (VerifyingKey C * Z) :=
  if bool_decide (vk ∈ l.*1) then update_first (fun p => bool_decide (fst p = vk)) (fun _ => (vk, timestamp)) l
  else l ++ [(vk, timestamp)].

(** The first entry of a publisher is removed. *)
Fixpoint drop_publisher (vk : VerifyingKey C) (l : list (VerifyingKey C * Z)) : list (VerifyingKey C * Z) :=
  match l with [] => [] | p :: l => if bool_decide (fst p = vk) then l else p :: drop_publisher vk l end.

(** [handle_start_publish] *)
Definition handle_start_publish (st : P2PState) (peer : PeerId) (a : Authorization C) : P2p P2PState :=
  match builder_sk ctx with
  | None => Ret st
  | Some sk =>
      if au_timestamp a <? st_payload_timestamp st then do _ <- net (ReputationChange peer BadMessage); Ret st
      else
        match publishing_status st with
        | Publishing ours =>
            do _ <- send_to_all_peers order (st_peers st) (announce sk ours MsgStopPublish);
            Ret (set_status (NotPublishing [(au_builder_vk a, au_timestamp a)]) st)
        | WaitingToPublish ours active =>
            Ret (set_status (WaitingToPublish ours (note_publisher (au_builder_vk a) (au_timestamp a) active)) st)
        | NotPublishing active =>
            Ret (set_status (NotPublishing (note_publisher (au_builder_vk a) (au_timestamp a) active)) st)
        end
  end.

(** [handle_stop_publish] *)
Definition handle_stop_publish (st : P2PState) (peer : PeerId) (a : Authorization C) : P2p P2PState :=
  if au_timestamp a <? st_payload_timestamp st then do _ <- net (ReputationChange peer BadMessage); Ret st
  else
    Ret match publishing_status st with
        | Publishing _ => st
        | WaitingToPublish ours active =>
            let active := drop_publisher (au_builder_vk a) active in
            set_status match active with [] => Publishing ours | _ => WaitingToPublish ours active end st
        | NotPublishing active => set_status (NotPublishing (drop_publisher (au_builder_vk a) active)) st
        end.

(** ** Frames from peers *)

(** [handle_flashblocks_payload_v1]: the other publishers are recorded, unless this node
    publishes itself. *)
Definition note_active (a : Authorization C) (s : PublishingStatus) : PublishingStatus :=
  match s with
  | Publishing _ => s
  | WaitingToPublish ours active => WaitingToPublish ours (note_publisher (au_builder_vk a) (au_timestamp a) active)
  | NotPublishing active => NotPublishing (note_publisher (au_builder_vk a) (au_timestamp a) active)
  end.

Definition handle_flashblocks_payload_v1 (st : P2PState) (peer : PeerId) (a : Authorized C) (fb : FlashblocksPayloadV1)
    : P2p P2PState :=
  let authorization := ad_authorization a in
  let bad := do _ <- net (ReputationChange peer BadMessage); Ret st in
  if au_timestamp authorization <? Z.max 0 (st_payload_timestamp st - AUTHORIZATION_TIMESTAMP_GRACE_SEC) then bad
  else if MAX_FLASHBLOCK_INDEX <? fb_index fb then Ret st
  else
    match st_peers st !! peer with
    | None => Ret st
    | Some p =>
        match receive_status p with
        | Requesting => bad
        | NotReceiving =>
            if wrap_u64 (receive_status_timestamp p + 2) <? au_timestamp authorization then bad else Ret st
        | Receiving _ =>
            let '(first, peers, observed) :=
              note_peer_received_flashblock (au_timestamp authorization) fb peer (st_peers st) (st_observed st) in
            let st := set_peers observed peers st in
            if negb first then do _ <- net (ReputationChange peer AlreadySeenTransaction); Ret st
            else
              let st := set_status (note_active authorization (publishing_status st)) st in
              do st <- match md_flashblock_timestamp (fb_metadata fb) with
                       | None => Ret st
                       | Some t =>
                           do now <- net UtcNanos;
                           Ret (set_peers (st_observed st) (alter (record_latency (wrap_i64 (now - t))) peer (st_peers st)) st)
                       end;
              publish st a fb
        end
    end.

(** A frame from a peer, as [poll_next] of the connection handles it; the flag says that
    the connection goes on. *)
Definition control (peer : PeerId) (h : gmap PeerId PeerState -> PeerId -> P2p (result unit unit * gmap PeerId PeerState))
    (st : P2PState) : P2p (bool * P2PState) :=
  do (r, peers) <- h (st_peers st) peer;
  do _ <- match r with Err _ => net (ReputationChange peer BadMessage) | Ok _ => Ret tt end;
  Ret (true, set_peers (st_observed st) peers st).

Definition on_frame (st : P2PState) (peer : PeerId) (buf : bytes) : P2p (bool * P2PState) :=
  match p2p_parse L C buf with
  | Err _ => do _ <- net (ReputationChange peer BadMessage); Ret (false, st)
  | Ok (PartsAuthorized parts) =>
      if bool_decide (Some (au_builder_vk (ap_authorization parts)) = verifying_key C <$> builder_sk ctx) then Ret (true, st)
      else
        match parts_verify C parts (authorizer_vk ctx) with
        | Err _ => do _ <- net (ReputationChange peer BadMessage); Ret (true, st)
        | Ok _ =>
            match into_authorized L C parts with
            | Err _ => do _ <- net (ReputationChange peer BadMessage); Ret (true, st)
            | Ok a =>
                do st <- match ad_msg a with
                         | MsgFlashblock fb => handle_flashblocks_payload_v1 st peer a fb
                         | MsgStartPublish => handle_start_publish st peer (ad_authorization a)
                         | MsgStopPublish => handle_stop_publish st peer (ad_authorization a)
                         end;
                Ret (true, st)
            end
        end
  | Ok PartsRequest => control peer (handle_request order (fanout_args ctx)) st
  | Ok PartsAccept => control peer (handle_accept (fanout_args ctx)) st
  | Ok PartsReject => control peer (handle_reject order (fanout_args ctx)) st
  | Ok PartsCancel => control peer handle_cancel st
  end.

(** ** Streams *)

Fixpoint map_while_some {A} (l : list (option A)) : list A :=
  match l with Some x :: l => x :: map_while_some l | _ => [] end.

(** The part of [flashblock_stream] that is taken from the cache *)
Definition stream_snapshot (st : P2PState) : list FlashblocksPayloadV1 := map_while_some (st_flashblocks st).

(** [next_flashblock_from_state] *)
Definition next_flashblock_from_state (st : P2PState) (cursor : option (PayloadId * nat)) : option FlashblocksPayloadV1 :=
  match cursor with
  | Some (payload_id, next_index) =>
      if bool_decide (payload_id = st_payload_id st) then mjoin (st_flashblocks st !! next_index)
      else mjoin (head (st_flashblocks st))
  | None => mjoin (head (st_flashblocks st))
  end.

(** One item of [live_flashblock_stream], and the cursor after it *)
Definition live_next (st : P2PState) (cursor : option (PayloadId * nat))
    : option (FlashblocksPayloadV1 * option (PayloadId * nat)) :=
  fb ← next_flashblock_from_state st cursor;
  Some (fb, Some (fb_payload_id fb, S (Z.to_nat (fb_index fb)))).

(** ** What publishing does to the cache *)

Definition broadcast_of (e : event p2p_sig) : option FlashblocksPayloadV1 :=
  match projT1 e with Broadcast fb => Some fb | _ => None end.
Definition broadcasts (tr : list (event p2p_sig)) : list FlashblocksPayloadV1 := omap broadcast_of tr.

Lemma broadcasts_app t1 t2 : broadcasts (t1 ++ t2) = broadcasts t1 ++ broadcasts t2.
Proof. apply omap_app. Qed.

Lemma leading_lookup {A} (l : list (option A)) i x : map_while_some l !! i = Some x -> l !! i = Some (Some x).
Proof.
  revert i. induction l as [|[y|] l IH]; intros [|i]; cbn; try done; [by intros [= ->]|apply IH].
Qed.

Lemma leading_next {A} (l : list (option A)) x : l !! length (map_while_some l) <> Some (Some x).
Proof. induction l as [|[y|] l IH]; cbn; [done|exact IH|done]. Qed.

Lemma leading_length {A} (l : list (option A)) : (length (map_while_some l) <= length l)%nat.
Proof. induction l as [|[y|] l IH]; cbn; lia. Qed.

Lemma leading_more {A} (l : list (option A)) i x :
  (i <= length (map_while_some l))%nat -> l !! i = Some (Some x) -> map_while_some l !! i = Some x.
Proof.
  intros Hi Hx. destruct (decide (i = length (map_while_some l))) as [->|Hne]; [by apply leading_next in Hx|].
  destruct (lookup_lt_is_Some_2 (map_while_some l) i) as [y Hy]; [lia|].
  pose proof (leading_lookup _ _ _ Hy). congruence.
Qed.

Lemma leading_end {A} (l : list (option A)) i :
  (i <= length (map_while_some l))%nat -> (forall x, l !! i <> Some (Some x)) -> i = length (map_while_some l).
Proof.
  intros Hi Hx. destruct (decide (i = length (map_while_some l))) as [|Hne]; [done|].
  destruct (lookup_lt_is_Some_2 (map_while_some l) i) as [y Hy]; [lia|]. by apply leading_lookup, Hx in Hy.
Qed.

(** The loop broadcasts what is in order from the index on, and stops at the first gap. *)
Lemma deliver_spec fuel now st (Q : list (event p2p_sig) -> P2PState -> Prop) :
  (st_flashblock_index st <= length (map_while_some (st_flashblocks st)))%nat ->
  (length (st_flashblocks st) < fuel + st_flashblock_index st)%nat ->
  (forall t st', broadcasts t = drop (st_flashblock_index st) (map_while_some (st_flashblocks st)) ->
     st_flashblock_index st' = length (map_while_some (st_flashblocks st)) ->
     st_flashblocks st' = st_flashblocks st -> st_payload_id st' = st_payload_id st ->
     st_payload_timestamp st' = st_payload_timestamp st -> publishing_status st' = publishing_status st ->
     st_peers st' = st_peers st -> st_observed st' = st_observed st -> Q t st') ->
  wp (deliver fuel now st) Q.
Proof.
  revert st Q. induction fuel as [|fuel IH]; intros st Q Hi Hf HQ.
  { pose proof (leading_length (st_flashblocks st)). lia. }
  cbn [deliver]. destruct (st_flashblocks st !! st_flashblock_index st) as [[fb|]|] eqn:Hl.
  2, 3: rewrite (leading_end _ _ Hi) in HQ by congruence; apply HQ; try done; [by rewrite drop_ge by lia|];
    by apply leading_end; [|congruence].
  pose proof (leading_more _ _ _ Hi Hl) as Hm. pose proof (lookup_lt_Some _ _ _ Hm) as Hlt.
  assert (Hgo : forall t0 : list (event p2p_sig), broadcasts t0 = [] -> wp (do _ <- net (Broadcast fb);
      deliver fuel now {| publishing_status := publishing_status st; st_payload_id := st_payload_id st;
           st_payload_timestamp := st_payload_timestamp st; st_flashblock_timestamp := now;
           st_flashblock_index := S (st_flashblock_index st); st_flashblocks := st_flashblocks st;
           st_observed := st_observed st; st_peers := st_peers st |}) (fun t st' => Q (t0 ++ t) st')).
  { intros t0 H0. cbn [bind net wp]. intros u. apply IH; cbn; [lia|lia|]. intros t st' Hb H1 H2 H3 H4 H5 H6 H7.
    apply HQ; try done. rewrite broadcasts_app, H0.
    change (broadcasts (ev _ _ :: t)) with (fb :: broadcasts t). rewrite Hb. symmetry. by apply drop_S. }
  apply wp_bind. destruct (has_recorder ctx); cbn [net wp]; [intros u; by apply (Hgo [ev (S := p2p_sig) (RecordFb fb) u])|].
  by apply (Hgo []).
Qed.

Lemma send_set_quiet peers id ix frame obs :
  wp (send_flashblock_to_send_set order peers id ix frame obs) (fun t _ => broadcasts t = []).
Proof.
  unfold send_flashblock_to_send_set. generalize (order peers) as l. intros l. revert obs.
  induction l as [|p l IH]; intros obs; cbn [fold_prog]; [done|]. apply wp_bind. case_match; cbn [wp]; [apply IH|].
  apply wp_bind. unfold send_frame. destruct (outbound_tx _); cbn [net wp]; [intros b|]; cbn; apply IH.
Qed.

(** The cache of the current payload: its id, the index of the next flashblock to
    broadcast, and the slots.  Publishing [fb] is a sequence of small steps. *)
Definition cache : Type := PayloadId * nat * list (option FlashblocksPayloadV1).
Definition cache_of (st : P2PState) : cache := (st_payload_id st, st_flashblock_index st, st_flashblocks st).

Inductive cstep (fb : FlashblocksPayloadV1) : cache -> list FlashblocksPayloadV1 -> cache -> Prop :=
| cs_reset pid i l pid' : cstep fb (pid, i, l) [] (pid', 0%nat, replicate (length l) None)
| cs_grow pid i l n : cstep fb (pid, i, l) [] (pid, i, grow n l)
| cs_store pid i l : fb_payload_id fb = pid -> l !! Z.to_nat (fb_index fb) = Some None ->
    cstep fb (pid, i, l) [] (pid, i, <[Z.to_nat (fb_index fb) := Some fb]> l)
| cs_send pid i l x : l !! i = Some (Some x) -> cstep fb (pid, i, l) [x] (pid, S i, l).

Inductive csteps (fb : FlashblocksPayloadV1) : cache -> list FlashblocksPayloadV1 -> cache -> Prop :=
| css_nil c : csteps fb c [] c
| css_cons c1 b1 c2 b2 c3 : cstep fb c1 b1 c2 -> csteps fb c2 b2 c3 -> csteps fb c1 (b1 ++ b2) c3.

Lemma csteps_quiet fb c1 c2 b c3 : cstep fb c1 [] c2 -> csteps fb c2 b c3 -> csteps fb c1 b c3.
Proof. intros H1 H2. by apply (css_cons fb c1 [] c2 b c3). Qed.

Lemma csteps_one fb c1 c2 : cstep fb c1 [] c2 -> csteps fb c1 [] c2.
Proof. intros H. eapply csteps_quiet; [exact H|constructor]. Qed.

Lemma deliver_steps fb fuel now st (Q : list (event p2p_sig) -> P2PState -> Prop) :
  (forall t st', csteps fb (cache_of st) (broadcasts t) (cache_of st') -> publishing_status st' = publishing_status st -> Q t st') ->
  wp (deliver fuel now st) Q.
Proof.
  revert st Q. induction fuel as [|fuel IH]; intros st Q HQ; [apply HQ; [constructor|done]|].
  cbn [deliver]. destruct (st_flashblocks st !! st_flashblock_index st) as [[x|]|] eqn:Hl;
    [|apply HQ; [constructor|done]..].
  apply wp_bind. assert (Hgo : forall t0 : list (event p2p_sig), broadcasts t0 = [] -> wp (do _ <- net (Broadcast x);
      deliver fuel now {| publishing_status := publishing_status st; st_payload_id := st_payload_id st;
           st_payload_timestamp := st_payload_timestamp st; st_flashblock_timestamp := now;
           st_flashblock_index := S (st_flashblock_index st); st_flashblocks := st_flashblocks st;
           st_observed := st_observed st; st_peers := st_peers st |}) (fun t st' => Q (t0 ++ t) st')).
  { intros t0 H0. cbn [bind net wp]. intros u. apply IH. intros t st' Hc Hs. apply HQ; [|done].
    rewrite broadcasts_app, H0, app_nil_l. change (broadcasts (ev _ _ :: t)) with ([x] ++ broadcasts t).
    eapply css_cons; [by apply cs_send|]. exact Hc. }
  destruct (has_recorder ctx); cbn [net wp]; [intros u; by apply (Hgo [ev (S := p2p_sig) (RecordFb x) u])|].
  by apply (Hgo []).
Qed.

Lemma new_payload_step fb a st c b :
  csteps fb (cache_of (new_payload a st)) b c -> csteps fb (cache_of st) b c.
Proof. unfold new_payload. case_match; [|done]. apply csteps_quiet. apply cs_reset. Qed.

Lemma publish_steps st a fb (Q : list (event p2p_sig) -> P2PState -> Prop) :
  (forall t st', csteps fb (cache_of st) (broadcasts t) (cache_of st') -> publishing_status st' = publishing_status st -> Q t st') ->
  wp (publish st a fb) Q.
Proof.
  intros HQ. unfold publish. case_match; [apply HQ; [constructor|done]|].
  set (st1 := new_payload (ad_authorization a) st).
  assert (Hs : publishing_status st1 = publishing_status st) by (unfold st1, new_payload; by case_match).
  assert (HQ1 : forall t st', csteps fb (cache_of st1) (broadcasts t) (cache_of st') ->
    publishing_status st' = publishing_status st1 -> Q t st').
  { intros t st' Hc Hp. apply HQ; [|congruence]. by eapply new_payload_step. }
  clearbody st1. case_match eqn:Hid; [apply HQ1; [constructor|done]|].
  case_match; [apply HQ1; [constructor|done]|].
  set (cache := grow _ (st_flashblocks st1)).
  assert (Hgrow : forall b c, csteps fb (st_payload_id st1, st_flashblock_index st1, cache) b c -> csteps fb (cache_of st1) b c).
  { intros b c. apply csteps_quiet. apply cs_grow. }
  destruct (cache !! Z.to_nat (fb_index fb)) as [[x|]|] eqn:Hl; [apply HQ1; [apply Hgrow; constructor|done]| |
    apply HQ1; [apply Hgrow; constructor|done]].
  assert (Hstore : forall b c, csteps fb (st_payload_id st1, st_flashblock_index st1, <[Z.to_nat (fb_index fb) := Some fb]> cache) b c ->
    csteps fb (cache_of st1) b c).
  { intros b c Hc. apply Hgrow. eapply csteps_quiet; [|exact Hc]. apply cs_store; [|done].
    apply negb_false_iff, bool_decide_eq_true in Hid. done. }
  case_match; [apply HQ1; [apply Hstore; constructor|done]|].
  apply wp_bind. eapply wp_mono; [apply send_set_quiet|]. intros t obs Ht. cbn [bind net wp]. intros now.
  apply (deliver_steps fb). intros t' st' Hc Hp. apply HQ1; [|done].
  rewrite broadcasts_app, Ht. apply Hstore. exact Hc.
Qed.

(** ** Order *)

(** [index as usize] *)
Abbreviation slot_of fb := (Z.to_nat (fb_index fb)).

(** Every flashblock is the first of a payload or follows its predecessor. *)
Definition in_order (l : list FlashblocksPayloadV1) : Prop := forall before fb after, l = before ++ fb :: after ->
  slot_of fb = 0%nat \/ exists prev, last before = Some prev /\ fb_payload_id prev = fb_payload_id fb /\
    slot_of fb = S (slot_of prev).

Lemma in_order_snoc l fb : in_order l ->
  (slot_of fb = 0%nat \/ exists prev, last l = Some prev /\ fb_payload_id prev = fb_payload_id fb /\ slot_of fb = S (slot_of prev)) ->
  in_order (l ++ [fb]).
Proof.
  intros Hl Hfb before x after. destruct after as [|y after _] using rev_ind.
  - intros [-> [= ->]]%app_inj_tail. exact Hfb.
  - rewrite app_comm_cons, app_assoc. intros [-> _]%app_inj_tail. by eapply Hl.
Qed.

(** [O] says where a flashblock comes from; [sent] is what has been broadcast so far. *)
Definition cache_inv (O : FlashblocksPayloadV1 -> Prop) (sent : list FlashblocksPayloadV1) (c : cache) : Prop :=
  let '(pid, i, l) := c in
  (forall j x, l !! j = Some (Some x) -> slot_of x = j /\ fb_payload_id x = pid /\ O x) /\
  (i = 0%nat \/ exists x, last sent = Some x /\ l !! (i - 1)%nat = Some (Some x)) /\
  in_order sent /\ Forall O sent.

Lemma grow_lookup n l j x : grow n l !! j = Some (Some x) -> l !! j = Some (Some x).
Proof.
  unfold grow. destruct (decide (j < length l)%nat); [by rewrite lookup_app_l by done|].
  rewrite lookup_app_r by lia. by intros [? _]%lookup_replicate.
Qed.

Lemma grow_lookup_old n l j v : l !! j = Some v -> grow n l !! j = Some v.
Proof. intros H. unfold grow. by rewrite lookup_app_l by (eapply lookup_lt_Some; eassumption). Qed.

Lemma cstep_inv (O : FlashblocksPayloadV1 -> Prop) fb sent c b c' :
  cstep fb c b c' -> O fb -> cache_inv O sent c -> cache_inv O (sent ++ b) c'.
Proof.
  intros Hs Ho. destruct Hs as [pid i l pid'|pid i l n|pid i l Hid Hl|pid i l x Hl]; intros (H1 & H2 & H3 & H4);
    rewrite ?app_nil_r; refine (conj _ (conj _ (conj _ _))); try done.
  - by intros j x [? _]%lookup_replicate.
  - by left.
  - intros j x H%grow_lookup. by apply H1.
  - destruct H2 as [->|(x & Hx & Hi)]; [by left|right]. exists x. split; [done|]. by apply grow_lookup_old.
  - intros j x. destruct (decide (j = slot_of fb)) as [->|]; [|rewrite list_lookup_insert_ne by done; apply H1].
    rewrite list_lookup_insert_eq by (by eapply lookup_lt_Some). by intros [= <-].
  - destruct H2 as [->|(x & Hx & Hi)]; [by left|right]. exists x. split; [done|].
    rewrite list_lookup_insert_ne; [done|]. intros E. rewrite E, Hi in Hl. done.
  - right. exists x. rewrite last_snoc. cbn. by rewrite Nat.sub_0_r.
  - destruct (H1 i x Hl) as (Hx1 & Hx2 & _). apply in_order_snoc; [done|].
    destruct H2 as [->|(y & Hy & Hi)]; [by left|]. destruct (H1 _ _ Hi) as (Hy1 & Hy2 & _). destruct i as [|i]; [by left|].
    right. exists y. repeat split; [done|congruence|]. rewrite Hx1, Hy1. lia.
  - apply Forall_app. split; [done|]. repeat constructor. by eapply H1.
Qed.

Lemma csteps_inv (O : FlashblocksPayloadV1 -> Prop) fb sent c b c' :
  csteps fb c b c' -> O fb -> cache_inv O sent c -> cache_inv O (sent ++ b) c'.
Proof.
  intros Hs Ho. revert sent. induction Hs as [c|c1 b1 c2 b2 c3 H1 _ IH]; intros sent Hc; [by rewrite app_nil_r|].
  rewrite app_assoc. apply IH. by eapply cstep_inv.
Qed.

(** ** Programs that broadcast nothing *)

Definition quiet {A} (p : P2p A) : Prop := wp p (fun t _ => broadcasts t = []).

Lemma quiet_runs {A} (p : P2p A) t a : quiet p -> runs p t a -> broadcasts t = [].
Proof. intros Hq H. by apply (wp_use _ (fun t _ => broadcasts t = []) _ _ H). Qed.

Lemma quiet_ret {A} (a : A) : quiet (Ret a).
Proof. done. Qed.

Lemma quiet_bind {A B} (p : P2p A) (f : A -> P2p B) : quiet p -> (forall a, quiet (f a)) -> quiet (bind p f).
Proof.
  intros Hp Hf. apply wp_bind. eapply wp_mono; [exact Hp|]. intros t a Ht. eapply wp_mono; [apply Hf|].
  intros t' b Ht'. by rewrite broadcasts_app, Ht, Ht'.
Qed.

Lemma quiet_net c : (forall fb, c <> Broadcast fb) -> quiet (net c).
Proof. intros Hc r. cbn. destruct c; try done. by specialize (Hc fb). Qed.

Lemma quiet_fold {K T} (body : K -> T -> P2p T) l s : (forall k s, quiet (body k s)) -> quiet (fold_prog body l s).
Proof. intros H. revert s. induction l as [|k l IH]; intros s; cbn [fold_prog]; [done|]. by apply quiet_bind. Qed.

Lemma quiet_send_frame tx frame : quiet (send_frame tx frame).
Proof. destruct tx; [by apply quiet_net|done]. Qed.

Lemma quiet_direct peers k frame : quiet (send_direct peers k frame).
Proof. unfold send_direct. case_match; [|done]. by apply quiet_bind; [apply quiet_send_frame|]. Qed.

Lemma quiet_all peers frame : quiet (send_to_all_peers order peers frame).
Proof. apply quiet_fold. intros k s. by apply quiet_bind; [apply quiet_send_frame|]. Qed.

Lemma quiet_now : quiet now_secs.
Proof. by apply quiet_bind; [apply quiet_net|]. Qed.

Lemma quiet_begin peers k : quiet (begin_requesting_peer peers k).
Proof.
  unfold begin_requesting_peer. case_match; [|done]. apply quiet_bind; [apply quiet_now|]. intros t.
  by apply quiet_bind; [apply quiet_direct|].
Qed.

Lemma quiet_candidates args peers : quiet (available_receive_candidates order args peers).
Proof. by apply quiet_bind; [apply quiet_now|]. Qed.

Lemma quiet_request_loop args fuel peers : quiet (request_loop order args fuel peers).
Proof.
  revert peers. induction fuel as [|fuel IH]; intros peers; cbn [request_loop]; [done|].
  destruct (_ <? _)%nat; [|done]. apply quiet_bind; [apply quiet_candidates|]. intros [|c rest]; [done|].
  apply quiet_bind; [by apply quiet_net|]. intros r. apply quiet_bind; [apply quiet_begin|apply IH].
Qed.

Lemma quiet_maybe_request args peers : quiet (maybe_request_receive_peers order args peers).
Proof.
  apply quiet_bind; [|intros; apply quiet_request_loop]. apply quiet_fold. intros k s. unfold request_forced.
  repeat case_match; try done. apply quiet_begin.
Qed.

Lemma quiet_check peers k : quiet (check_control_rate_limit peers k).
Proof. unfold check_control_rate_limit. case_match; [|done]. by apply quiet_bind; [apply quiet_net|]. Qed.

Lemma quiet_tick args peers : quiet (rotation_tick order args peers).
Proof.
  apply quiet_bind; [|intros m; apply quiet_bind; [apply quiet_maybe_request|]; intros m'].
  - apply quiet_bind; [apply quiet_now|]. intros x. case_match; [apply quiet_maybe_request|done].
  - unfold maybe_start_rotation. destruct (_ <? _)%nat; [done|]. case_match; [|done].
    apply quiet_bind; [apply quiet_candidates|]. intros [|c rest]; [done|].
    apply quiet_bind; [by apply quiet_net|]. intros r. apply quiet_bind; [apply quiet_now|]. intros x.
    apply quiet_bind; [apply quiet_direct|]. intros _. apply quiet_begin.
Qed.

Lemma quiet_connected args local peers k tx : quiet (on_peer_connected order args local peers k tx).
Proof. unfold on_peer_connected. case_match; [done|]. apply quiet_bind; [by apply quiet_net|]. intros; apply quiet_maybe_request. Qed.

(** The start that the handlers of control messages share *)
Lemma quiet_limited peers k (f : gmap PeerId PeerState -> PeerState -> P2p (result unit unit * gmap PeerId PeerState)) :
  (forall m p, quiet (f m p)) ->
  quiet (do (exceeded, m) <- check_control_rate_limit peers k;
         if exceeded then Ret (Err tt, m) else match m !! k with None => Ret (Ok tt, m) | Some p => f m p end).
Proof.
  intros Hf. apply quiet_bind; [apply quiet_check|]. intros [[] m]; [done|]. destruct (m !! k); [apply Hf|done].
Qed.

Lemma quiet_request args peers k : quiet (handle_request order args peers k).
Proof.
  apply quiet_limited. intros m p. destruct (send_enabled p); [done|].
  cbv zeta. destruct (negb (trusted p) && _); (apply quiet_bind; [apply quiet_direct|done]).
Qed.
Lemma quiet_accept args peers k : quiet (handle_accept args peers k).
Proof. apply quiet_limited. intros m p. by destruct (is_requesting p). Qed.
Lemma quiet_reject args peers k : quiet (handle_reject order args peers k).
Proof.
  apply quiet_limited. intros m p. destruct (is_requesting p); [|done]. apply quiet_bind; [apply quiet_now|]. intros x.
  apply quiet_bind; [apply quiet_maybe_request|done].
Qed.
Lemma quiet_cancel peers k : quiet (handle_cancel peers k).
Proof. apply quiet_limited. intros m p. by destruct (send_enabled p). Qed.

(** ** Runs of a node *)

(** The authorization that the node publishes with or waits for *)
Definition held (s : PublishingStatus) : option (Authorization C) :=
  match s with Publishing a | WaitingToPublish a _ => Some a | NotPublishing _ => None end.

(** A frame whose signatures are right and that carries the flashblock *)
Definition carries_verified (buf : bytes) (fb : FlashblocksPayloadV1) : Prop :=
  exists parts a, p2p_parse L C buf = Ok (PartsAuthorized parts) /\ parts_verify C parts (authorizer_vk ctx) = Ok tt /\
    into_authorized L C parts = Ok a /\ ad_msg a = MsgFlashblock fb.

(** A step that publishes nothing and takes no new authorization *)
Definition inert (st st' : P2PState) : Prop :=
  cache_of st' = cache_of st /\ (held (publishing_status st') = None \/ held (publishing_status st') = held (publishing_status st)).

Lemma inert_refl st : inert st st.
Proof. split; [done|by right]. Qed.

Lemma control_inert peer h st :
  (forall m k, quiet (h m k)) -> wp (control peer h st) (fun t r => broadcasts t = [] /\ inert st (snd r)).
Proof.
  intros Hh. unfold control. apply wp_bind. eapply wp_mono; [apply Hh|]. intros t [r m] Ht.
  destruct r; cbn; rewrite ?app_nil_r; [|intros u; rewrite broadcasts_app, Ht]; by split; [|split; [|right]].
Qed.

(** A flashblock message: either it is not published, or it is. *)
Lemma handle_flashblock_spec st peer a fb (Q : list (event p2p_sig) -> P2PState -> Prop) :
  (forall t st', broadcasts t = [] -> inert st st' -> Q t st') ->
  (forall t st', csteps fb (cache_of st) (broadcasts t) (cache_of st') ->
     held (publishing_status st') = held (publishing_status st) -> Q t st') ->
  wp (handle_flashblocks_payload_v1 st peer a fb) Q.
Proof.
  intros Hq Hp. assert (Hbad : wp (do _ <- net (ReputationChange peer BadMessage); Ret st) Q).
  { cbn. intros u. apply Hq; [done|apply inert_refl]. }
  assert (Hst : wp (Ret st) Q) by (apply Hq; [done|apply inert_refl]).
  unfold handle_flashblocks_payload_v1. case_match; [exact Hbad|]. case_match; [exact Hst|].
  destruct (st_peers st !! peer) as [p|]; [|exact Hst]. destruct (receive_status p); [case_match; done| |done].
  destruct (note_peer_received_flashblock _ _ _ _ _) as [[first peers] observed].
  destruct first; cbn [negb]. 2: { cbn. intros u. apply Hq; [done|]. split; [done|by right]. }
  set (st1 := set_status _ _). assert (Hh : held (publishing_status st1) = held (publishing_status st)).
  { unfold st1. cbn. unfold note_active. by destruct (publishing_status st). }
  apply wp_bind. assert (Hpub : forall t0 st2, broadcasts t0 = [] -> cache_of st2 = cache_of st ->
    publishing_status st2 = publishing_status st1 -> wp (publish st2 a fb) (fun t st' => Q (t0 ++ t) st')).
  { intros t0 st2 Ht0 Hc Hs. apply publish_steps. intros t st' Hcs Hs'. apply Hp; [|congruence].
    by rewrite broadcasts_app, Ht0, <- Hc. }
  destruct (md_flashblock_timestamp _); [|by apply (Hpub [])]. cbn [bind net wp]. intros now.
  by apply (Hpub [ev (S := p2p_sig) UtcNanos now]).
Qed.

Lemma handle_start_inert st peer a :
  wp (handle_start_publish st peer a) (fun t st' => broadcasts t = [] /\ inert st st').
Proof.
  unfold handle_start_publish. destruct (builder_sk ctx); [|by split; [|apply inert_refl]].
  case_match; [cbn; intros _; by split; [|apply inert_refl]|]. destruct (publishing_status st) eqn:Hs.
  - apply wp_bind. eapply wp_mono; [apply quiet_all|]. intros t u Ht. cbn. rewrite app_nil_r.
    split; [done|]. split; [done|by left].
  - cbn. split; [done|]. split; [done|]. right. by rewrite Hs.
  - cbn. split; [done|]. split; [done|]. by left.
Qed.

Lemma handle_stop_inert st peer a :
  wp (handle_stop_publish st peer a) (fun t st' => broadcasts t = [] /\ inert st st').
Proof.
  unfold handle_stop_publish. case_match; [cbn; intros _; by split; [|apply inert_refl]|]. cbn. split; [done|].
  destruct (publishing_status st) eqn:Hs; [apply inert_refl| |by split; [|left]].
  split; [done|]. right. rewrite Hs. cbn. by destruct (drop_publisher _ _).
Qed.

Lemma on_frame_spec st peer buf (Q : list (event p2p_sig) -> bool * P2PState -> Prop) :
  (forall t b st', broadcasts t = [] -> inert st st' -> Q t (b, st')) ->
  (forall t st' fb, carries_verified buf fb -> csteps fb (cache_of st) (broadcasts t) (cache_of st') ->
     held (publishing_status st') = held (publishing_status st) -> Q t (true, st')) ->
  wp (on_frame st peer buf) Q.
Proof.
  intros Hq Hp. unfold on_frame.
  assert (Hbad : forall b, wp (do _ <- net (ReputationChange peer BadMessage); Ret (b, st)) Q).
  { intros b. cbn. intros u. apply Hq; [done|apply inert_refl]. }
  assert (Hctl : forall h, (forall m k, quiet (h m k)) -> wp (control peer h st) Q).
  { intros h Hh. eapply wp_mono; [by apply control_inert|]. intros t [b st'] [Ht Hi]. by apply Hq. }
  destruct (p2p_parse L C buf) as [[parts| | | |]|] eqn:Hparse;
    [|apply Hctl; intros; apply quiet_request|apply Hctl; intros; apply quiet_accept|
     apply Hctl; intros; apply quiet_reject|apply Hctl; intros; apply quiet_cancel|apply Hbad].
  case_match; [apply Hq; [done|apply inert_refl]|].
  destruct (parts_verify C parts _) as [[]|] eqn:Hv; [|apply Hbad].
  destruct (into_authorized L C parts) as [a|] eqn:Hi; [|apply Hbad]. apply wp_bind.
  assert (Hret : forall p : P2p P2PState, wp p (fun t st' => broadcasts t = [] /\ inert st st') ->
    wp p (fun t st' => wp (Ret (true, st')) (fun t' b => Q (t ++ t') b))).
  { intros p H'. eapply wp_mono; [exact H'|]. intros t st' [Ht Hs]. cbn. rewrite app_nil_r. by apply Hq. }
  destruct (ad_msg a) as [fb| |] eqn:Hm; [|apply Hret, handle_start_inert|apply Hret, handle_stop_inert].
  apply handle_flashblock_spec; intros t st' H1 H2; cbn; rewrite app_nil_r; [by apply Hq|].
  apply (Hp t st' fb); [|done|done]. by exists parts, a.
Qed.

Inductive label :=
| LFrame (peer : PeerId) (buf : bytes)
| LPublish (a : Authorized C)
| LStart (a : Authorization C)
| LStop
| LPeers.

Inductive node_step (st : P2PState) : label -> list (event p2p_sig) -> P2PState -> Prop :=
| ns_frame peer buf tr b st' : runs (on_frame st peer buf) tr (b, st') -> node_step st (LFrame peer buf) tr st'
| ns_publish a fb tr r st' :
    ad_msg a = MsgFlashblock fb -> runs (publish_new st a fb) tr (r, st') -> node_step st (LPublish a) tr st'
| ns_start a tr r st' : runs (start_publishing st a) tr (r, st') -> node_step st (LStart a) tr st'
| ns_stop tr r st' : runs (stop_publishing st) tr (r, st') -> node_step st LStop tr st'
| ns_connect local k tx tr m :
    runs (on_peer_connected order (fanout_args ctx) local (st_peers st) k tx) tr m ->
    node_step st LPeers tr (set_peers (st_observed st) m st)
| ns_disconnect k tr m :
    runs (on_peer_disconnected order (fanout_args ctx) (st_peers st) k) tr m ->
    node_step st LPeers tr (set_peers (st_observed st) m st)
| ns_trust k b : node_step st LPeers [] (set_peers (st_observed st) (apply_trust b k (st_peers st)) st)
| ns_tick tr m :
    runs (rotation_tick order (fanout_args ctx) (st_peers st)) tr m ->
    node_step st LPeers tr (set_peers (st_observed st) m st).

(** What happened, what the node did, and the state it is in *)
Inductive node_run : list label -> list (event p2p_sig) -> P2PState -> Prop :=
| nr_init : node_run [] [] p2p_default
| nr_step ls tr st l t st' : node_run ls tr st -> node_step st l t st' -> node_run (ls ++ [l]) (tr ++ t) st'.

(** Where a flashblock comes from: a verified frame, or the node's own builder with an
    authorization that the node was told to start with *)
Definition origin (ls : list label) (fb : FlashblocksPayloadV1) : Prop :=
  (exists peer buf, LFrame peer buf ∈ ls /\ carries_verified buf fb) \/
  (exists a, LPublish a ∈ ls /\ LStart (ad_authorization a) ∈ ls /\ ad_msg a = MsgFlashblock fb).

Definition run_inv (ls : list label) (tr : list (event p2p_sig)) (st : P2PState) : Prop :=
  cache_inv (origin ls) (broadcasts tr) (cache_of st) /\
  forall a, held (publishing_status st) = Some a -> LStart a ∈ ls.

Lemma origin_mono ls l fb : origin ls fb -> origin (ls ++ [l]) fb.
Proof.
  intros [(k & buf & H & Hc)|(a & H1 & H2 & H3)]; [left; exists k, buf|right; exists a]; set_solver.
Qed.

Lemma cache_inv_mono (O O' : FlashblocksPayloadV1 -> Prop) sent c :
  (forall fb, O fb -> O' fb) -> cache_inv O sent c -> cache_inv O' sent c.
Proof.
  intros HO. destruct c as [[pid i] l]. intros (H1 & H2 & H3 & H4). repeat split; try done.
  - by eapply H1.
  - by eapply H1.
  - by apply HO; eapply H1.
  - by eapply Forall_impl.
Qed.

Lemma run_inv_inert ls tr st l t st' :
  run_inv ls tr st -> broadcasts t = [] -> inert st st' -> run_inv (ls ++ [l]) (tr ++ t) st'.
Proof.
  intros [Hc Hh] Ht [Hs Hi]. split.
  - rewrite broadcasts_app, Ht, app_nil_r, Hs. eapply cache_inv_mono; [apply origin_mono|done].
  - intros a Ha. destruct Hi as [Hi|Hi]; [congruence|]. rewrite Hi in Ha. apply Hh in Ha. set_solver.
Qed.

Lemma run_inv_publish ls tr st l t st' fb :
  run_inv ls tr st -> origin (ls ++ [l]) fb -> csteps fb (cache_of st) (broadcasts t) (cache_of st') ->
  held (publishing_status st') = held (publishing_status st) -> run_inv (ls ++ [l]) (tr ++ t) st'.
Proof.
  intros [Hc Hh] Ho Hcs Hi. split.
  - rewrite broadcasts_app. eapply csteps_inv; [done|done|]. eapply cache_inv_mono; [apply origin_mono|done].
  - intros a Ha. rewrite Hi in Ha. apply Hh in Ha. set_solver.
Qed.

Lemma start_publishing_spec st a (Q : list (event p2p_sig) -> result unit FlashblocksP2PError * P2PState -> Prop) :
  (forall t r st', broadcasts t = [] -> cache_of st' = cache_of st ->
     held (publishing_status st') = Some a \/ publishing_status st' = publishing_status st -> Q t (r, st')) ->
  wp (start_publishing st a) Q.
Proof.
  intros HQ. unfold start_publishing. destruct (builder_sk ctx); [|apply HQ; try done; by right].
  destruct (publishing_status st) eqn:Hs.
  - case_match; apply HQ; try done; [by left|by right].
  - case_match; apply HQ; try done; by left.
  - apply wp_bind. eapply wp_mono; [apply quiet_all|]. intros t u Ht. cbn. rewrite app_nil_r. apply HQ; [done|done|].
    left. cbn. by destruct active_publishers.
Qed.

Lemma stop_publishing_inert st : wp (stop_publishing st) (fun t r => broadcasts t = [] /\ inert st (snd r)).
Proof.
  unfold stop_publishing. destruct (builder_sk ctx); [|by split; [|apply inert_refl]].
  destruct (publishing_status st) eqn:Hs; [| |by split; [|apply inert_refl]];
    (apply wp_bind; eapply wp_mono; [apply quiet_all|]; intros t u Ht; cbn; rewrite app_nil_r; split; [done|];
     split; [done|by left]).
Qed.

Lemma publish_new_spec st a fb (Q : list (event p2p_sig) -> result unit FlashblocksP2PError * P2PState -> Prop) :
  (forall r, r <> Ok tt -> Q [] (r, st)) ->
  (publishing_status st = Publishing (ad_authorization a) -> wp (publish st a fb) (fun t st' => Q t (Ok tt, st'))) ->
  wp (publish_new st a fb) Q.
Proof.
  intros H1 H2. unfold publish_new. destruct (publishing_status st) eqn:Hs; [|by apply H1..].
  case_bool_decide; cbn [negb]; [|by apply H1]. subst. apply wp_bind.
  eapply wp_mono; [by apply H2|]. intros t st' H. cbn. by rewrite app_nil_r.
Qed.

Lemma peers_inert st o m : inert st (set_peers o m st).
Proof. split; [done|by right]. Qed.

Lemma node_step_inv ls tr st l t st' :
  run_inv ls tr st -> node_step st l t st' -> run_inv (ls ++ [l]) (tr ++ t) st'.
Proof.
  intros Hr Hs. destruct Hs as [peer buf t b st' H|a fb t r st' Hm H|a t r st' H|t r st' H|local k tx t m H|k t m H|k b|t m H].
  - apply (wp_use _ (fun t x => run_inv (ls ++ [LFrame peer buf]) (tr ++ t) (snd x)) _ _ H), on_frame_spec; cbn [snd].
    + intros. by eapply run_inv_inert.
    + intros t' st2 fb Hc Hcs Hh. eapply run_inv_publish; [done| |done|done]. left. exists peer, buf. set_solver.
  - apply (wp_use _ (fun t x => run_inv (ls ++ [LPublish a]) (tr ++ t) (snd x)) _ _ H), publish_new_spec; cbn [snd].
    + intros. eapply run_inv_inert; [done|done|apply inert_refl].
    + intros Hp. apply publish_steps. intros t' st2 Hcs Hs. eapply run_inv_publish; [done| |done|congruence].
      right. exists a. destruct Hr as [_ Hh]. rewrite Hp in Hh. specialize (Hh _ eq_refl). set_solver.
  - apply (wp_use _ (fun t x => run_inv (ls ++ [LStart a]) (tr ++ t) (snd x)) _ _ H), start_publishing_spec; cbn [snd].
    intros t' r' st2 Ht Hc Hs. destruct Hs as [Hs|Hs]; [|eapply run_inv_inert; [done|done|]; by split; [|right; rewrite Hs]].
    destruct Hr as [Hci _]. split.
    + rewrite broadcasts_app, Ht, app_nil_r, Hc. eapply cache_inv_mono; [apply origin_mono|done].
    + intros a'. rewrite Hs. intros [= <-]. set_solver.
  - destruct (wp_use _ _ _ _ H (stop_publishing_inert st)) as [Ht Hi]. by eapply run_inv_inert.
  - eapply run_inv_inert; [done|by eapply quiet_runs, H; apply quiet_connected|apply peers_inert].
  - eapply run_inv_inert; [done|by eapply quiet_runs, H; apply quiet_maybe_request|apply peers_inert].
  - eapply run_inv_inert; [done|done|apply peers_inert].
  - eapply run_inv_inert; [done|by eapply quiet_runs, H; apply quiet_tick|apply peers_inert].
Qed.

Lemma node_run_inv ls tr st : node_run ls tr st -> run_inv ls tr st.
Proof.
  induction 1 as [|ls tr st l t st' _ IH Hs]; [|by eapply node_step_inv]. split; [|done].
  repeat split; try done; [by left|]. intros before fb after H. by destruct before.
Qed.

(** ** The claims *)

(** C8: Whatever frames arrive in whatever order, and whatever the node itself publishes, the
    flashblocks that it hands on form one sequence in order: each is the first of a
    payload or the successor, in the same payload, of the one handed on before it. *)
Theorem broadcast_in_order ls tr st : node_run ls tr st -> in_order (broadcasts tr).
Proof. intros H. apply node_run_inv in H as [H _]. by destruct H as (_ & _ & H & _). Qed.

(** Every flashblock that the node hands on came in a frame whose authorization is signed
    by the authorizer and whose content is signed by the authorized builder, or from the
    node's own builder under an authorization it was told to publish with. *)
Theorem broadcast_has_origin ls tr st fb : node_run ls tr st -> fb ∈ broadcasts tr -> origin ls fb.
Proof.
  intros H Hin. apply node_run_inv in H as [H _]. destruct H as (_ & _ & _ & H). rewrite Forall_forall in H. by apply H.
Qed.

(** The state of the cache in a run: what has been handed on is at its front. *)
Definition index_ok (st : P2PState) : Prop :=
  (st_flashblock_index st <= length (map_while_some (st_flashblocks st)))%nat.

Lemma new_payload_index a st : index_ok st -> index_ok (new_payload a st).
Proof. unfold index_ok, new_payload. case_match; cbn; [lia|done]. Qed.

Lemma leading_store (l : list (option FlashblocksPayloadV1)) i fb : l !! i = Some None ->
  (length (map_while_some l) <= length (map_while_some (<[i := Some fb]> l)))%nat.
Proof.
  revert i. induction l as [|[y|] l IH]; intros i H; [done| |cbn; lia]. destruct i as [|i]; [done|].
  specialize (IH i H). change (<[S i := Some fb]> (Some y :: l)) with (Some y :: <[i := Some fb]> l).
  cbn [map_while_some length]. lia.
Qed.

Lemma leading_grow n l : (length (map_while_some l) <= length (map_while_some (grow n l)))%nat.
Proof.
  unfold grow. generalize (replicate (n - length l) (None : option FlashblocksPayloadV1)) as k. intros k.
  induction l as [|[y|] l IH]; cbn; lia.
Qed.

(** A flashblock that belongs to the current payload, or starts a newer one, and that is
    new and small enough, is stored; then everything that is now in order and was not
    handed on yet is handed on, in order.  Any other flashblock hands on nothing. *)
Theorem publish_delivers st a fb tr st' :
  let st1 := new_payload (ad_authorization a) st in
  let i := Z.to_nat (fb_index fb) in
  let stored := <[i := Some fb]> (grow (S i) (st_flashblocks st1)) in
  index_ok st -> runs (publish st a fb) tr st' ->
  if bool_decide (au_payload_id (ad_authorization a) = fb_payload_id fb) && bool_decide (fb_payload_id fb = st_payload_id st1) &&
     (fb_index fb <=? MAX_FLASHBLOCK_INDEX) && bool_decide (grow (S i) (st_flashblocks st1) !! i = Some None) &&
     (Z.of_nat (length (p2p_encode L C (P2pAuthorized a))) <=? MAX_FRAME)
  then
    st_flashblocks st' = stored /\ st_flashblock_index st' = length (map_while_some stored) /\
    broadcasts tr = drop (st_flashblock_index st1) (map_while_some stored)
  else broadcasts tr = [].
Proof.
  intros st1 i stored Hi H. apply (new_payload_index (ad_authorization a)) in Hi. fold st1 in Hi.
  apply (wp_use _ (fun tr st' => if _ && _ && _ && _ && _ then st_flashblocks st' = stored /\
    st_flashblock_index st' = length (map_while_some stored) /\
    broadcasts tr = drop (st_flashblock_index st1) (map_while_some stored) else broadcasts tr = []) _ _ H).
  clear H tr st'. unfold publish. fold st1 i.
  case_bool_decide; cbn [negb andb]; [|done]. case_bool_decide; cbn [negb andb]; [|done].
  rewrite Z.ltb_antisym. destruct (fb_index fb <=? MAX_FLASHBLOCK_INDEX); cbn [negb andb]; [|done].
  set (c := grow (S i) (st_flashblocks st1)) in *. destruct (c !! i) as [[x|]|] eqn:Hc; cbn [andb];
    rewrite ?(bool_decide_false (Some (Some x) = Some None)), ?(bool_decide_false (None = Some None)) by done; try done.
  rewrite bool_decide_true by done. rewrite Z.ltb_antisym. destruct (_ <=? MAX_FRAME); cbn [negb andb]; [|done].
  apply wp_bind. eapply wp_mono; [apply send_set_quiet|]. intros t obs Ht. cbn [bind net wp]. intros now.
  apply deliver_spec; cbn [st_flashblocks st_flashblock_index set_peers set_cache]; fold stored.
  - unfold index_ok in Hi. pose proof (leading_grow (S i) (st_flashblocks st1)). pose proof (leading_store c i fb Hc).
    unfold stored. fold c in H1 |- *. lia.
  - lia.
  - intros t' st' H1 H2 H3 _ _ _ _ _. rewrite broadcasts_app, Ht. cbn. by rewrite H2, H3.
Qed.

(** A frame that cannot be parsed, or whose signatures are wrong, changes nothing: the peer
    is penalised, and the connection ends in the first case. *)
Theorem unverified_frame_ignored st peer buf tr b st' :
  match p2p_parse L C buf with
  | Err _ => True
  | Ok (PartsAuthorized parts) =>
      Some (au_builder_vk (ap_authorization parts)) <> verifying_key C <$> builder_sk ctx /\
      parts_verify C parts (authorizer_vk ctx) <> Ok tt
  | Ok _ => False
  end ->
  runs (on_frame st peer buf) tr (b, st') ->
  st' = st /\ tr = [ev (S := p2p_sig) (ReputationChange peer BadMessage) tt] /\
  (b = false <-> exists e, p2p_parse L C buf = Err e).
Proof.
  intros Hbad H. unfold on_frame in H.
  destruct (p2p_parse L C buf) as [[parts| | | |]|e] eqn:Hp; try done.
  - destruct Hbad as [Hk Hv]. rewrite bool_decide_false in H by done.
    destruct (parts_verify C parts _) as [[]|e] eqn:He; [done|]. cbn in H.
    destruct H as ([] & t & -> & -> & [= -> ->]). repeat split; try done. by intros [].
  - cbn in H. destruct H as ([] & t & -> & -> & [= -> ->]). repeat split; try done. eauto.
Qed.

Lemma send_all_spec peers frame (Q : list (event p2p_sig) -> unit -> Prop) :
  (forall m : gmap PeerId PeerState, order m ≡ₚ map_to_list m) ->
  (forall t, (forall k p tx, peers !! k = Some p -> outbound_tx p = Some tx ->
     exists ok, ev (S := p2p_sig) (TrySend tx frame) ok ∈ t) -> Q t tt) ->
  wp (send_to_all_peers order peers frame) Q.
Proof.
  intros Horder HQ. unfold send_to_all_peers.
  assert (Hl : forall l : list (PeerId * PeerState), wp (fold_prog (fun p _ => do _ <- send_frame (outbound_tx p.2) frame; Ret tt) l tt)
    (fun (t : list (event p2p_sig)) _ => forall k p tx, (k, p) ∈ l -> outbound_tx p = Some tx -> exists ok, ev (S := p2p_sig) (TrySend tx frame) ok ∈ t)).
  { induction l as [|[k p] l IH]; cbn [fold_prog]; [set_solver|]. apply wp_bind, wp_bind. unfold send_frame. cbn [snd].
    destruct (outbound_tx p) as [tx|] eqn:Htx; cbn [net wp]; [intros ok|]; (eapply wp_mono; [exact IH|]; intros t u H).
    - intros k' p' tx' [[= -> ->]|Hin]%elem_of_cons Hp.
      + rewrite Htx in Hp. injection Hp as <-. exists ok. set_solver.
      + destruct (H k' p' tx' Hin Hp) as [ok' Hok]. exists ok'. set_solver.
    - intros k' p' tx' [[= -> ->]|Hin]%elem_of_cons Hp; [congruence|]. by eapply H. }
  eapply wp_mono; [apply Hl|]. intros t [] H. apply HQ. intros k p tx Hk Hp. apply (H k p tx); [|done].
  by rewrite (Horder peers), elem_of_map_to_list.
Qed.
End node.

(** ** Handing over between two builders *)

Section handover.
Context (L : RlpLib) (C : Ed25519) {RL : RlpLaws L} {EL : EdLaws C}.
Context (order : gmap PeerId PeerState -> list (PeerId * PeerState)).
Context (Horder : forall m : gmap PeerId PeerState, order m ≡ₚ map_to_list m).
Context (azk : SigningKey C).

Definition granted (sk : SigningKey C) (payload_id : PayloadId) (timestamp : Z) : Authorization C :=
  authorization_new C payload_id timestamp azk (verifying_key C sk).

(** A message that is signed as it should be is handled. *)
Lemma on_frame_signed ctx st peer sk payload_id timestamp m (Q : list (event p2p_sig) -> bool * P2PState C -> Prop) :
  let a := authorized_new L C sk (granted sk payload_id timestamp) m in
  authorizer_vk C ctx = verifying_key C azk -> verifying_key C <$> builder_sk C ctx <> Some (verifying_key C sk) ->
  p2p_wf C (P2pAuthorized a) -> fits (p2p_encode L C (P2pAuthorized a)) ->
  wp match m with
     | MsgFlashblock fb => handle_flashblocks_payload_v1 L C order ctx st peer a fb
     | MsgStartPublish => handle_start_publish L C order ctx st peer (granted sk payload_id timestamp)
     | MsgStopPublish => handle_stop_publish C st peer (granted sk payload_id timestamp)
     end (fun t st' => Q t (true, st')) ->
  wp (on_frame L C order ctx st peer (p2p_encode L C (P2pAuthorized a))) Q.
Proof.
  intros a Hvk Hown W F HQ.
  destruct (signed_parses L C payload_id timestamp azk sk m [] W F) as (parts & Hparse & Hv & Hi).
  rewrite app_nil_r in Hparse. unfold on_frame. fold a in Hparse, Hi. unfold a, granted in Hparse |- *. rewrite Hparse.
  assert (Hap : ap_authorization parts = granted sk payload_id timestamp).
  { unfold into_authorized in Hi. apply rbind_Ok in Hi as [[m' r] [_ Hi]]. by injection Hi as _ Hi _. }
  rewrite bool_decide_false by (rewrite Hap; cbn; congruence). rewrite Hvk, Hv.
  unfold a, granted in Hi. rewrite Hi. cbn [ad_msg authorized_new ad_authorization]. apply wp_bind.
  eapply wp_mono; [exact HQ|]. intros t st' H. cbn. by rewrite app_nil_r.
Qed.

(** A builder that is told to publish while another one publishes waits; its announcement
    makes the other one stop; and when the other one's message arrives it publishes.  In
    between neither publishes, and each message goes to every connected peer. *)
Theorem handover ctxA ctxB skA skB idA tA idB tB t0 stA stB peerA peerB tr1 r1 stB1 tr2 b2 stA1 tr3 b3 stB2 :
  let frame1 := announce L C skB (granted skB idB tB) MsgStartPublish in
  let frame2 := announce L C skA (granted skA idA tA) MsgStopPublish in
  builder_sk C ctxA = Some skA -> builder_sk C ctxB = Some skB -> verifying_key C skA <> verifying_key C skB ->
  authorizer_vk C ctxA = verifying_key C azk -> authorizer_vk C ctxB = verifying_key C azk ->
  length idA = 8%nat -> length idB = 8%nat -> u64 tA -> u64 tB -> fits frame1 -> fits frame2 ->
  publishing_status C stA = Publishing C (granted skA idA tA) ->
  publishing_status C stB = NotPublishing C [(verifying_key C skA, t0)] ->
  st_payload_timestamp C stA <= tB -> st_payload_timestamp C stB <= tA ->
  runs (start_publishing L C order ctxB stB (granted skB idB tB)) tr1 (r1, stB1) ->
  runs (on_frame L C order ctxA stA peerB frame1) tr2 (b2, stA1) ->
  runs (on_frame L C order ctxB stB1 peerA frame2) tr3 (b3, stB2) ->
  publishing_status C stB1 = WaitingToPublish C (granted skB idB tB) [(verifying_key C skA, t0)] /\
  (forall k p tx, st_peers C stB !! k = Some p -> outbound_tx p = Some tx ->
     exists ok, ev (S := p2p_sig) (TrySend tx frame1) ok ∈ tr1) /\
  publishing_status C stA1 = NotPublishing C [(verifying_key C skB, tB)] /\
  (forall k p tx, st_peers C stA !! k = Some p -> outbound_tx p = Some tx ->
     exists ok, ev (S := p2p_sig) (TrySend tx frame2) ok ∈ tr2) /\
  publishing_status C stB2 = Publishing C (granted skB idB tB).
Proof.
  intros frame1 frame2 HskA HskB Hne HvA HvB HidA HidB HtA HtB F1 F2 HsA HsB HpA HpB R1 R2 R3.
  assert (H1 : publishing_status C stB1 = WaitingToPublish C (granted skB idB tB) [(verifying_key C skA, t0)] /\
    st_payload_timestamp C stB1 = st_payload_timestamp C stB /\
    forall k p tx, st_peers C stB !! k = Some p -> outbound_tx p = Some tx -> exists ok, ev (S := p2p_sig) (TrySend tx frame1) ok ∈ tr1).
  { apply (wp_use _ (fun tr1 r => publishing_status C (snd r) = WaitingToPublish C (granted skB idB tB) [(verifying_key C skA, t0)] /\
      st_payload_timestamp C (snd r) = st_payload_timestamp C stB /\
      forall k p tx, st_peers C stB !! k = Some p -> outbound_tx p = Some tx -> exists ok, ev (S := p2p_sig) (TrySend tx frame1) ok ∈ tr1) _ _ R1).
    unfold start_publishing. rewrite HskB, HsB. apply wp_bind, send_all_spec; [exact Horder|]. intros t Ht. cbn.
    repeat split. intros k p tx Hk Hp. rewrite app_nil_r. by eapply Ht. }
  destruct H1 as (H1 & Hts & Hsent). split; [done|]. split; [done|].
  assert (H2 : publishing_status C stA1 = NotPublishing C [(verifying_key C skB, tB)] /\
    forall k p tx, st_peers C stA !! k = Some p -> outbound_tx p = Some tx -> exists ok, ev (S := p2p_sig) (TrySend tx frame2) ok ∈ tr2).
  { apply (wp_use _ (fun tr2 r => publishing_status C (snd r) = NotPublishing C [(verifying_key C skB, tB)] /\
      forall k p tx, st_peers C stA !! k = Some p -> outbound_tx p = Some tx -> exists ok, ev (S := p2p_sig) (TrySend tx frame2) ok ∈ tr2) _ _ R2).
    apply on_frame_signed; [done|by rewrite HskA; cbn; congruence|done|done|].
    unfold handle_start_publish. rewrite HskA, HsA. cbn [au_timestamp granted authorization_new].
    destruct (Z.ltb_spec tB (st_payload_timestamp C stA)); [lia|].
    apply wp_bind, send_all_spec; [exact Horder|]. intros t Ht. cbn. split; [done|].
    intros k p tx Hk Hp. rewrite app_nil_r. by eapply Ht. }
  destruct H2 as (H2 & Hsent2). split; [done|]. split; [done|].
  apply (wp_use _ (fun _ r => publishing_status C (snd r) = Publishing C (granted skB idB tB)) _ _ R3).
  apply on_frame_signed; [done|by rewrite HskB; cbn; congruence|done|done|].
  unfold handle_stop_publish. cbn [au_timestamp granted authorization_new]. rewrite Hts.
  destruct (Z.ltb_spec tA (st_payload_timestamp C stB)); [lia|]. cbn. rewrite H1. cbn.
  by rewrite bool_decide_true.
Qed.
End handover.

(** ** Examples *)

Definition ex_ctx (sk : option Z) : NodeCtx ex_ed :=
  {| authorizer_vk := (9 : VerifyingKey ex_ed); fanout_args := ex_args; has_recorder := true;
     builder_sk := (sk : option (SigningKey ex_ed)) |}.
Definition ex_first : FlashblocksPayloadV1 :=
  {| fb_payload_id := fb_payload_id ex_gossip; fb_index := 0; fb_diff := fb_diff ex_gossip;
     fb_metadata := fb_metadata ex_gossip; fb_base := fb_base ex_gossip |}.
Definition ex_first_message : Authorized ex_ed := authorized_new ex_rlp ex_ed 7 ex_authorization (MsgFlashblock ex_first).
Definition ex_frame : bytes := p2p_encode ex_rlp ex_ed (P2pAuthorized ex_first_message).

Definition ex_on_frame (st : P2PState ex_ed) (buf : bytes) : P2p (bool * P2PState ex_ed) :=
  on_frame ex_rlp ex_ed map_to_list (ex_ctx None) st 1 buf.
Definition ex_s1 : P2PState ex_ed := set_peers ex_ed [] ex_m1 (p2p_default ex_ed).
Definition ex_s2 : P2PState ex_ed := snd (value_of ex_world (ex_on_frame ex_s1 ACCEPT) tt).
Definition ex_s3 : P2PState ex_ed := snd (value_of ex_world (ex_on_frame ex_s2 ex_frame) tt).
Definition ex_t1 : list (event p2p_sig) := trace_of ex_world (ex_connect ∅ 1 11) tt.
Definition ex_t2 : list (event p2p_sig) := trace_of ex_world (ex_on_frame ex_s1 ACCEPT) tt.
Definition ex_t3 : list (event p2p_sig) := trace_of ex_world (ex_on_frame ex_s2 ex_frame) tt.
Definition ex_trace : list (event p2p_sig) := (([] ++ ex_t1) ++ ex_t2) ++ ex_t3.
Definition ex_labels : list (label ex_ed) := (([] ++ [LPeers ex_ed]) ++ [LFrame ex_ed 1 ACCEPT]) ++ [LFrame ex_ed 1 ex_frame].

Lemma ex_frame_runs st buf :
  runs (ex_on_frame st buf) (trace_of ex_world (ex_on_frame st buf) tt)
    (fst (value_of ex_world (ex_on_frame st buf) tt), snd (value_of ex_world (ex_on_frame st buf) tt)).
Proof. rewrite <- surjective_pairing. apply interp_runs. Qed.

Lemma ex_step st buf :
  node_step ex_rlp ex_ed map_to_list (ex_ctx None) st (LFrame ex_ed 1 buf) (trace_of ex_world (ex_on_frame st buf) tt)
    (snd (value_of ex_world (ex_on_frame st buf) tt)).
Proof. eapply ns_frame, ex_frame_runs. Qed.

Lemma ex_run : node_run ex_rlp ex_ed map_to_list (ex_ctx None) ex_labels ex_trace ex_s3.
Proof.
  unfold ex_labels, ex_trace. eapply nr_step; [eapply nr_step; [eapply nr_step; [apply nr_init|]|]|].
  - exact (ns_connect ex_rlp ex_ed map_to_list (ex_ctx None) (p2p_default ex_ed) 0 1 11 ex_t1 ex_m1
      (interp_runs ex_world (ex_connect ∅ 1 11) tt)).
  - exact (ex_step ex_s1 ACCEPT).
  - exact (ex_step ex_s2 ex_frame).
Qed.

Lemma broadcast_in_order_witness : in_order (broadcasts ex_trace).
Proof. apply (broadcast_in_order ex_rlp ex_ed map_to_list (ex_ctx None) ex_labels ex_trace ex_s3). exact ex_run. Defined.

Lemma broadcast_has_origin_witness : origin ex_rlp ex_ed (ex_ctx None) ex_labels ex_first.
Proof.
  apply (broadcast_has_origin ex_rlp ex_ed map_to_list (ex_ctx None) ex_labels ex_trace ex_s3 ex_first); [exact ex_run|].
  assert (broadcasts ex_trace = [ex_first]) as -> by (vm_compute; reflexivity). apply list_elem_of_here.
Defined.

Lemma publish_delivers_witness :
  broadcasts (trace_of ex_world (publish ex_rlp ex_ed map_to_list (ex_ctx None) ex_s2 ex_first_message ex_first) tt) = [ex_first].
Proof.
  pose proof (publish_delivers ex_rlp ex_ed map_to_list (ex_ctx None) ex_s2 ex_first_message ex_first _ _
    ltac:(vm_compute; lia)
    (interp_runs ex_world (publish ex_rlp ex_ed map_to_list (ex_ctx None) ex_s2 ex_first_message ex_first) tt)) as H.
  cbv zeta in H. rewrite bool_decide_true, bool_decide_true, bool_decide_true in H by (vm_compute; reflexivity).
  destruct H as (_ & _ & H). rewrite H. vm_compute. reflexivity.
Defined.

Lemma unverified_frame_ignored_witness :
  snd (value_of ex_world (ex_on_frame ex_s2 [9]) tt) = ex_s2.
Proof.
  refine (proj1 (unverified_frame_ignored ex_rlp ex_ed map_to_list (ex_ctx None) ex_s2 1 [9] _ _ _ _ (ex_frame_runs ex_s2 [9]))).
  vm_compute. exact I.
Defined.

Definition ex_stA : P2PState ex_ed := set_status ex_ed (Publishing ex_ed (granted ex_ed 9 7 [1; 1; 1; 1; 1; 1; 1; 1] 10)) ex_s1.
Definition ex_stB : P2PState ex_ed := set_status ex_ed (NotPublishing ex_ed [(7 : VerifyingKey ex_ed, 10)]) ex_s1.
Definition ex_startB : P2p (result unit FlashblocksP2PError * P2PState ex_ed) :=
  start_publishing ex_rlp ex_ed map_to_list (ex_ctx (Some 8)) ex_stB (granted ex_ed 9 8 [2; 1; 1; 1; 1; 1; 1; 1] 12).
Definition ex_frame1 : bytes := announce ex_rlp ex_ed 8 (granted ex_ed 9 8 [2; 1; 1; 1; 1; 1; 1; 1] 12) MsgStartPublish.
Definition ex_frame2 : bytes := announce ex_rlp ex_ed 7 (granted ex_ed 9 7 [1; 1; 1; 1; 1; 1; 1; 1] 10) MsgStopPublish.
Definition ex_atA : P2p (bool * P2PState ex_ed) := on_frame ex_rlp ex_ed map_to_list (ex_ctx (Some 7)) ex_stA 1 ex_frame1.
Definition ex_stB1 : P2PState ex_ed := snd (value_of ex_world ex_startB tt).
Definition ex_atB : P2p (bool * P2PState ex_ed) := on_frame ex_rlp ex_ed map_to_list (ex_ctx (Some 8)) ex_stB1 1 ex_frame2.

Lemma ex_both {A B} (p : P2p (A * B)) :
  runs p (trace_of ex_world p tt) (fst (value_of ex_world p tt), snd (value_of ex_world p tt)).
Proof. rewrite <- surjective_pairing. apply interp_runs. Qed.

Lemma handover_witness :
  publishing_status ex_ed (snd (value_of ex_world ex_atB tt)) =
    Publishing ex_ed (granted ex_ed 9 8 [2; 1; 1; 1; 1; 1; 1; 1] 12).
Proof.
  destruct (handover ex_rlp ex_ed map_to_list ex_order 9 (ex_ctx (Some 7)) (ex_ctx (Some 8)) 7 8
    [1; 1; 1; 1; 1; 1; 1; 1] 10 [2; 1; 1; 1; 1; 1; 1; 1] 12 10 ex_stA ex_stB 1 1
    (trace_of ex_world ex_startB tt) (fst (value_of ex_world ex_startB tt)) ex_stB1
    (trace_of ex_world ex_atA tt) (fst (value_of ex_world ex_atA tt)) (snd (value_of ex_world ex_atA tt))
    (trace_of ex_world ex_atB tt) (fst (value_of ex_world ex_atB tt)) (snd (value_of ex_world ex_atB tt)))
    as (_ & _ & _ & _ & H); [reflexivity..|discriminate|reflexivity|reflexivity|reflexivity|reflexivity|
      unfold u64, U64_MAX; lia|unfold u64, U64_MAX; lia|vm_compute; discriminate|vm_compute; discriminate|
      reflexivity|reflexivity|vm_compute; discriminate|vm_compute; discriminate| | | |exact H].
  - apply (ex_both ex_startB).
  - apply (ex_both ex_atA).
  - apply (ex_both ex_atB).
Defined.

(** [flashblock_stream] takes its snapshot, releases the lock and subscribes to the channel
    after that.  A flashblock that is handed on in between is in neither part, and the
    stream then goes on with its successor. *)
Definition ex_second : FlashblocksPayloadV1 :=
  {| fb_payload_id := fb_payload_id ex_gossip; fb_index := 1; fb_diff := fb_diff ex_gossip;
     fb_metadata := fb_metadata ex_gossip; fb_base := fb_base ex_gossip |}.
Definition ex_second_frame : bytes :=
  p2p_encode ex_rlp ex_ed (P2pAuthorized (authorized_new ex_rlp ex_ed 7 ex_authorization (MsgFlashblock ex_second))).

Theorem stream_misses_flashblock :
  stream_snapshot ex_ed ex_s2 = [] /\ broadcasts ex_t3 = [ex_first] /\
  broadcasts (trace_of ex_world (ex_on_frame ex_s3 ex_second_frame) tt) = [ex_second] /\
  ~ in_order (stream_snapshot ex_ed ex_s2 ++ broadcasts (trace_of ex_world (ex_on_frame ex_s3 ex_second_frame) tt)).
Proof.
  assert (broadcasts (trace_of ex_world (ex_on_frame ex_s3 ex_second_frame) tt) = [ex_second]) as -> by (vm_compute; reflexivity).
  assert (stream_snapshot ex_ed ex_s2 = []) as -> by (vm_compute; reflexivity).
  split; [done|]. split; [vm_compute; reflexivity|]. split; [done|].
  intros H. destruct (H [] ex_second [] eq_refl) as [E|(p & E & _)]; [vm_compute in E|]; done.
Qed.
