(* ===== verification/Reverts.v ===== *)
(** * The state changes of a block that is built in pieces
    ([src/crates/evm/src/utils.rs])

    Every flashblock is executed on a fresh bundle on top of what was committed; the two
    are then joined and the reverts of all pieces flattened into those of one block.
    [BundleState::extend] is revm's and a parameter. *)

From S2P Require Import Prelude Encoding ProofTypes.

(** ** revm's data *)

Section reverts.
Context {Info Code : Type}.

Inductive AccountInfoRevert := DoNothing | DeleteIt | RevertTo (i : Info).
Inductive RevertToSlot := SlotSome (v : Z) | SlotDestroyed.
Inductive AccountStatus :=
| LoadedNotExisting | Loaded | LoadedEmptyEIP161 | InMemoryChange | Changed | Destroyed | DestroyedChanged | DestroyedAgain.

Record AccountRevert := {
  rv_account : AccountInfoRevert;
  rv_storage : gmap Z RevertToSlot;
  rv_previous_status : AccountStatus;
  rv_wipe_storage : bool
}.
Definition Reverts : Type := list (list (Address * AccountRevert)).

Record BundleAccount := {
  ba_info : option Info;
  ba_storage : gmap Z (Z * Z);       (* original and present value *)
  ba_status : AccountStatus
}.
Record BundleState := {
  bs_state : gmap Address BundleAccount;
  bs_contracts : gmap B256 Code;
  bs_reverts : Reverts
}.
Record CacheAccount := { ca_account : option (Info * gmap Z Z); ca_status : AccountStatus }.
Record CacheState := { cs_accounts : gmap Address CacheAccount; cs_contracts : gmap B256 Code }.

(** ** [flatten_reverts] *)

(** The revert of an account that has one already *)
Definition merge_revert (entry r : AccountRevert) : AccountRevert :=
  {| rv_account := match rv_account entry with DoNothing => rv_account r | x => x end;
     rv_storage := rv_storage entry ∪ rv_storage r;
     rv_previous_status := rv_previous_status entry;
     rv_wipe_storage := rv_wipe_storage entry || rv_wipe_storage r |}.

Definition flatten_step (m : gmap Address AccountRevert) (x : Address * AccountRevert) : gmap Address AccountRevert :=
  match m !! fst x with
  | None => <[fst x := snd x]> m
  | Some entry => <[fst x := merge_revert entry (snd x)]> m
  end.
Definition per_account (reverts : Reverts) : gmap Address AccountRevert := foldl flatten_step ∅ (concat reverts).

(** The map becomes a list in the order of its iteration. *)
Context (order : gmap Address AccountRevert -> list (Address * AccountRevert))
  (Horder : forall m, order m ≡ₚ map_to_list m).

Definition flatten_reverts (reverts : Reverts) : Reverts := [order (per_account reverts)].

(** ** The bundle of the whole block *)

(** [CacheAccount::from(&BundleAccount)] of revm: the present values *)
Definition cache_account (a : BundleAccount) : CacheAccount :=
  {| ca_account := (fun i => (i, snd <$> ba_storage a)) <$> ba_info a; ca_status := ba_status a |}.

Definition cache_prestate_from_bundle (b : BundleState) : CacheState :=
  {| cs_accounts := (fun a =>
       let c := cache_account a in
       match ca_status c with
       | DestroyedChanged => {| ca_account := ca_account c; ca_status := InMemoryChange |}
       | _ => c
       end) <$> bs_state b;
     cs_contracts := bs_contracts b |}.

Context (extend : BundleState -> BundleState -> BundleState).

Definition extend_flashblock_bundle (committed next : BundleState) : BundleState :=
  let b := extend committed next in
  {| bs_state := bs_state b; bs_contracts := bs_contracts b; bs_reverts := flatten_reverts (bs_reverts b) |}.

(** [effective_gas_limit] *)
Definition effective_gas_limit (protocol_gas_limit : Z) (configured : option Z) : Z :=
  match configured with Some c => Z.min c protocol_gas_limit | None => protocol_gas_limit end.

(** ** What a revert undoes *)

(** An account as the chain before a block has it *)
Definition Plain : Type := option Info * gmap Z Z.

Definition slot_value (r : RevertToSlot) : Z := match r with SlotSome v => v | SlotDestroyed => 0 end.
Definition undo_account (r : AccountRevert) (p : Plain) : Plain :=
  (match rv_account r with DoNothing => fst p | DeleteIt => None | RevertTo i => Some i end,
   (slot_value <$> rv_storage r) ∪ snd p).
Definition undo (s : Address -> Plain) (x : Address * AccountRevert) : Address -> Plain :=
  fun a => if decide (a = fst x) then undo_account (snd x) (s a) else s a.

(** Undoing a block: its last transition first *)
Definition undo_block (reverts : Reverts) (s : Address -> Plain) : Address -> Plain := foldl undo s (rev (concat reverts)).

Lemma undo_merge entry r p : undo_account (merge_revert entry r) p = undo_account entry (undo_account r p).
Proof.
  unfold undo_account, merge_revert. cbn. f_equal; [by destruct (rv_account entry)|].
  rewrite map_fmap_union, assoc_L; [done|apply _].
Qed.

(** Undoing everything that was merged for one address *)
Definition undo_map (m : gmap Address AccountRevert) (s : Address -> Plain) : Address -> Plain :=
  fun a => match m !! a with Some r => undo_account r (s a) | None => s a end.

Lemma undo_flatten_step m x s a : undo_map (flatten_step m x) s a = undo_map m (undo s x) a.
Proof.
  unfold undo_map, flatten_step, undo. destruct x as [b r]. cbn.
  destruct (decide (a = b)) as [->|Hne].
  - destruct (m !! b) as [entry|] eqn:Hm; rewrite lookup_insert_eq; [apply undo_merge|done].
  - destruct (m !! b) as [entry|] eqn:Hm; by rewrite lookup_insert_ne.
Qed.

Lemma undo_map_ext m s s' : (forall a, s a = s' a) -> forall a, undo_map m s a = undo_map m s' a.
Proof. intros H a. unfold undo_map. by rewrite H. Qed.

Lemma undo_flatten l : forall m s a, undo_map (foldl flatten_step m l) s a = undo_map m (foldl undo s (rev l)) a.
Proof.
  induction l as [|x l IH]; intros m s a; [done|]. cbn [foldl rev]. rewrite IH, undo_flatten_step, foldl_app. done.
Qed.

Lemma undo_other l s a : a ∉ l.*1 -> foldl undo s l a = s a.
Proof.
  revert s. induction l as [|[b r] l IH]; intros s Ha; [done|]. cbn in *. apply not_elem_of_cons in Ha as [Hb Ha].
  rewrite IH by done. unfold undo. cbn. by rewrite decide_False.
Qed.

Lemma undo_nodup l s a r : NoDup l.*1 -> (a, r) ∈ l -> foldl undo s l a = undo_account r (s a).
Proof.
  revert s. induction l as [|[b r'] l IH]; intros s Hn Hin; [by apply elem_of_nil in Hin|].
  cbn in Hn. apply NoDup_cons in Hn as [Hb Hn]. cbn [foldl]. apply elem_of_cons in Hin as [[= <- <-]|Hin].
  - rewrite undo_other by done. unfold undo. cbn. by rewrite decide_True.
  - rewrite (IH _ Hn Hin). unfold undo. cbn. rewrite decide_False; [done|]. intros ->. apply Hb.
    by apply (list_elem_of_fmap_2 fst) in Hin.
Qed.

Lemma undo_order m s a : foldl undo s (rev (order m)) a = undo_map m s a.
Proof.
  assert (rev (order m) ≡ₚ map_to_list m) as Hp by (by rewrite <- Permutation_rev, Horder).
  assert (NoDup (rev (order m)).*1) as Hn by (rewrite Hp; apply NoDup_fst_map_to_list).
  unfold undo_map. destruct (m !! a) as [r|] eqn:Hm.
  - apply undo_nodup; [done|]. rewrite Hp. by apply elem_of_map_to_list.
  - apply undo_other. rewrite Hp. intros ([b r] & -> & Hin)%list_elem_of_fmap. apply elem_of_map_to_list in Hin. cbn in Hm. congruence.
Qed.

(** Flattening loses nothing: undoing the one transition that is left gives the same
    accounts, balances and slots as undoing all transitions of the block from the last
    to the first, in whatever order the map of accounts is iterated; and the one
    transition has every account once. *)
Theorem flatten_reverts_undoes reverts s a :
  undo_block (flatten_reverts reverts) s a = undo_block reverts s a /\
  NoDup (concat (flatten_reverts reverts)).*1 /\ length (flatten_reverts reverts) = 1%nat.
Proof.
  unfold undo_block, flatten_reverts. cbn [concat]. rewrite app_nil_r. split; [|split; [|done]].
  - rewrite undo_order. unfold per_account. rewrite undo_flatten. unfold undo_map. by rewrite lookup_empty.
  - rewrite Horder. apply NoDup_fst_map_to_list.
Qed.

(** The status and the wipe of an account over several transitions *)
Lemma flatten_step_lookup l : forall m a,
  foldl flatten_step m l !! a =
  let later := snd <$> filter (fun x => fst x = a) l in
  match m !! a, later with
  | Some e, _ => Some (foldl merge_revert e later)
  | None, r :: later => Some (foldl merge_revert r later)
  | None, [] => None
  end.
Proof.
  induction l as [|[b r] l IH]; intros m a; [cbn; by destruct (m !! a)|]. cbn [foldl]. rewrite IH. rewrite filter_cons. cbn.
  unfold flatten_step. cbn. destruct (decide (b = a)) as [->|Hne].
  - destruct (m !! a) as [e|] eqn:Hm; by rewrite lookup_insert_eq.
  - destruct (m !! b) as [e|]; by rewrite lookup_insert_ne.
Qed.

Lemma foldl_merge_status l : forall e, rv_previous_status (foldl merge_revert e l) = rv_previous_status e /\
  rv_wipe_storage (foldl merge_revert e l) = rv_wipe_storage e || existsb rv_wipe_storage l.
Proof.
  induction l as [|r l IH]; intros e; cbn; [by rewrite orb_false_r|]. destruct (IH (merge_revert e r)) as [-> ->]. cbn.
  by rewrite orb_assoc.
Qed.

(** An account that was changed in several transitions keeps the status it had before
    the first of them, and is wiped if any of them wiped it. *)
Theorem flattened_status reverts a r later :
  snd <$> filter (fun x => fst x = a) (concat reverts) = r :: later ->
  exists e, (a, e) ∈ concat (flatten_reverts reverts) /\ rv_previous_status e = rv_previous_status r /\
    rv_wipe_storage e = existsb rv_wipe_storage (r :: later).
Proof.
  intros Hl. pose proof (flatten_step_lookup (concat reverts) ∅ a) as Hf. rewrite Hl, lookup_empty in Hf. cbn in Hf.
  exists (foldl merge_revert r later). split; [|by destruct (foldl_merge_status later r) as [-> ->]].
  unfold flatten_reverts. cbn. rewrite app_nil_r, Horder.
  by apply elem_of_map_to_list.
Qed.

(** What a flashblock starts from: the present value of every slot, and no account that
    counts as destroyed and changed, so that joining the bundles keeps what was
    committed. *)
Theorem prestate_is_present b a acc :
  bs_state b !! a = Some acc ->
  exists c, cs_accounts (cache_prestate_from_bundle b) !! a = Some c /\
    ca_account c = (fun i => (i, snd <$> ba_storage acc)) <$> ba_info acc /\
    ca_status c <> DestroyedChanged /\
    (ba_status acc <> DestroyedChanged -> ca_status c = ba_status acc).
Proof.
  intros Ha. cbn. rewrite lookup_fmap, Ha. cbn. eexists. split; [done|].
  destruct acc as [info storage []]; cbn; split_and!; (done || (intros; congruence)).
Qed.
End reverts.
Arguments BundleState Info Code : clear implicits.

(** Three transitions of one account: the slot goes back to its first value, the info
    to the first that is known. *)
Definition ex_reverts : Reverts (Info := Z) :=
  [[(1, {| rv_account := DoNothing; rv_storage := {[0 := SlotSome 1]}; rv_previous_status := Loaded; rv_wipe_storage := false |})];
   [(1, {| rv_account := RevertTo 5; rv_storage := {[0 := SlotSome 2; 1 := SlotSome 3]};
           rv_previous_status := Changed; rv_wipe_storage := true |})];
   [(1, {| rv_account := DeleteIt; rv_storage := ∅; rv_previous_status := Changed; rv_wipe_storage := false |})]].

Lemma flatten_reverts_undoes_witness :
  undo_block (flatten_reverts map_to_list ex_reverts) (fun _ => (Some 9, ∅)) 1 = (Some 5, {[0 := 1; 1 := 3]}).
Proof.
  destruct (flatten_reverts_undoes map_to_list (fun m => reflexivity _) ex_reverts (fun _ => (Some 9, ∅)) 1) as (-> & _).
  by vm_compute.
Defined.

Lemma flattened_status_witness :
  exists e, (1, e) ∈ concat (flatten_reverts map_to_list ex_reverts) /\ rv_previous_status e = Loaded /\ rv_wipe_storage e = true.
Proof. by apply (flattened_status map_to_list (fun m => reflexivity _) ex_reverts 1 _ _ eq_refl). Defined.

Definition ex_bundle : BundleState Z unit :=
  {| bs_state := {[1 := {| ba_info := Some 4; ba_storage := {[0 := (3, 8)]}; ba_status := DestroyedChanged |}]};
     bs_contracts := ∅; bs_reverts := [] |}.

Lemma prestate_is_present_witness :
  exists c, cs_accounts (cache_prestate_from_bundle ex_bundle) !! 1 = Some c /\
    ca_account c = Some (4, {[0 := 8]}) /\ ca_status c <> DestroyedChanged.
Proof.
  destruct (prestate_is_present ex_bundle 1 {| ba_info := Some 4; ba_storage := {[0 := (3, 8)]}; ba_status := DestroyedChanged |})
    as (c & Hc & Ha & Hs & _); [by vm_compute|].
  exists c. split; [exact Hc|]. split; [|exact Hs]. rewrite Ha. by vm_compute.
Defined.
