(* ===== verification/PayloadJob.v ===== *)
(** * Building payloads and publishing them piece by piece
    ([src/crates/payload/src]: [job.rs], [generator.rs]; [src/crates/rpc/src/engine.rs])

    A job builds one block again and again.  At fixed intervals it commits to the best
    build so far and publishes what is new in it as a flashblock; the next build starts
    from what was committed.  [poll] drives it; timers, the build tasks, the clearance of
    the network and the publishing are calls. *)

From S2P Require Import Prelude Program Encoding ProofTypes AccessList Flashblocks P2pCodec P2pPeers.

(** ** Data *)

(** reth's [OpBuiltPayload]: the block, and its execution where it was executed *)
Section payload.
Context {Tx Bundle Receipt : Type}.

Record Executed := {
  xc_transactions : list (Tx * Address);
  xc_gas_used : Z;
  xc_blob_gas_used : option Z;
  xc_bundle : Bundle;
  xc_receipts : list Receipt
}.
Record OpBuiltPayload := { op_id : PayloadId; op_block : Block Tx; op_fees : Z; op_executed : option Executed }.
End payload.
Arguments Executed Tx Bundle Receipt : clear implicits.
Arguments OpBuiltPayload Tx Bundle Receipt : clear implicits.

Section job.
Context {Tx Bundle Receipt : Type} (encoded_2718 : Tx -> bytes) (keccak256 : bytes -> B256)
  (rlp_access_list : FlashblockAccessList -> bytes) (C : Ed25519).

#[local] Abbreviation Built := (OpBuiltPayload Tx Bundle Receipt).

(** reth's [PayloadState] *)
Inductive PayloadState := Missing | Best (p : Built) | Frozen (p : Built).
Definition state_payload (s : PayloadState) : option Built :=
  match s with Missing => None | Best p | Frozen p => Some p end.
Definition is_frozen (s : PayloadState) : bool := match s with Frozen _ => true | _ => false end.

Inductive CommittedPayloadState :=
| CommittedFrozen (p : Built) (al : option FlashblockAccessListData)
| CommittedBest (p : Built) (al : option FlashblockAccessListData)
| CommittedEmpty.
Definition committed_payload (s : CommittedPayloadState) : option Built :=
  match s with CommittedFrozen p _ | CommittedBest p _ => Some p | CommittedEmpty => None end.
Definition committed_access_list (s : CommittedPayloadState) : option FlashblockAccessListData :=
  match s with CommittedFrozen _ al | CommittedBest _ al => al | CommittedEmpty => None end.
Definition committed_is_frozen (s : CommittedPayloadState) : bool :=
  match s with CommittedFrozen _ _ => true | _ => false end.

(** [CommittedPayloadState::from]; [None] is its panic on a missing payload. *)
Definition committed_from (s : PayloadState) (al : option FlashblockAccessList) : option CommittedPayloadState :=
  let data := (fun l => {| access_list := l; access_list_hash := hash_of keccak256 rlp_access_list l |}) <$> al in
  match s with
  | Frozen p => Some (CommittedFrozen p data)
  | Best p => Some (CommittedBest p data)
  | Missing => None
  end.

(** reth's [BuildOutcome], without the cached reads *)
Inductive Outcome := Better (p : Built) | Aborted (fees : Z) | Freeze (p : Built) | Cancelled.

Inductive MissingPayloadBehaviour := AwaitInProgress | RaceEmptyPayload | RacePayload.

(** The fields of [FlashblocksPayloadJob] that are not caches, handles or timers *)
Record Job := {
  jb_config : PayloadConfig;
  jb_best : PayloadState * option FlashblockAccessList;
  jb_committed : CommittedPayloadState;
  jb_pending : bool;
  jb_authorization : option (Authorization C);
  jb_block_index : Z
}.

(** ** Calls *)

Inductive job_call :=
| PollDeadline
| PollRecommit
| PollClearance
| PollFlashblockDeadline
| NowNanos
| SpawnBuild (best committed : option Built)
| ResetTimers
| PollPending
| PublishBuilt (a : Authorization C) (fb : FlashblocksPayloadV1) (p : Built)
| OnMissingPayload
| SpawnFallback
| BuildEmptyPayload.

Definition JobSig : Sig := {|
  call := job_call;
  reply c := match c with
             | PollDeadline | PollRecommit | PollClearance | PollFlashblockDeadline => bool
             | NowNanos => Z
             | SpawnBuild _ _ | ResetTimers | SpawnFallback => unit
             | PollPending => option (result (Outcome * option FlashblockAccessList) string)
             | PublishBuilt _ _ _ => result unit string
             | OnMissingPayload => MissingPayloadBehaviour
             | BuildEmptyPayload => result Built string
             end
|}.
Definition ask (c : job_call) : prog JobSig (reply JobSig c) := Call (S := JobSig) c Ret.

(** ** The job *)

Definition set_best (b : PayloadState * option FlashblockAccessList) (j : Job) : Job :=
  {| jb_config := jb_config j; jb_best := b; jb_committed := jb_committed j; jb_pending := jb_pending j;
     jb_authorization := jb_authorization j; jb_block_index := jb_block_index j |}.
Definition set_committed (c : CommittedPayloadState) (i : Z) (j : Job) : Job :=
  {| jb_config := jb_config j; jb_best := jb_best j; jb_committed := c; jb_pending := jb_pending j;
     jb_authorization := jb_authorization j; jb_block_index := i |}.
Definition set_pending (b : bool) (j : Job) : Job :=
  {| jb_config := jb_config j; jb_best := jb_best j; jb_committed := jb_committed j; jb_pending := b;
     jb_authorization := jb_authorization j; jb_block_index := jb_block_index j |}.

(** [spawn_build_job] *)
Definition spawn_build_job (j : Job) : prog JobSig Job :=
  do _ <- ask (SpawnBuild (state_payload (fst (jb_best j))) (committed_payload (jb_committed j)));
  Ret (set_pending true j).

(** [publish_payload]: what is new since the committed payload *)
Definition publish_payload (j : Job) (p : Built) (al : option FlashblockAccessList) (a : Authorization C)
    : prog JobSig (result unit string) :=
  let prev := op_block <$> committed_payload (jb_committed j) in
  do now <- ask NowNanos;
  ask (PublishBuilt a (flashblock_new encoded_2718 keccak256 rlp_access_list now (op_block p) (op_fees p) (jb_config j)
    (jb_block_index j) (tx_offset prev) (withdrawals_offset prev) al) p).

(** Whether a build is the block that is committed already *)
Definition is_committed (j : Job) (p : Built) : bool :=
  match committed_payload (jb_committed j) with Some c => bl_hash (op_block c) =? bl_hash (op_block p) | None => false end.

(** The interval is over: the best payload is committed to and published, if it is new. *)
Definition commit_best (j : Job) (p : Built) : prog JobSig Job :=
  let al := snd (jb_best j) in
  do j <- (if is_committed j p then Ret j
           else
             do _ <- match jb_authorization j with Some a => publish_payload j p al a | None => Ret (Ok tt) end;
             Ret match committed_from (fst (jb_best j)) al with
                 | Some c => set_committed c (wrap_u64 (jb_block_index j + 1)) j
                 | None => j
                 end);
  do j <- spawn_build_job j;
  do _ <- ask ResetTimers;
  Ret j.

Inductive Polled := JobPending (j : Job) | JobReady | JobPanicked.

(** The result of a build task *)
Definition finish_build (j : Job) (r : Outcome * option FlashblockAccessList) : Polled :=
  let '(outcome, al) := r in
  match outcome with
  | Better p => JobPending (if is_committed j p then j else set_best (Best p, al) j)
  | Freeze p =>
      let j := if is_committed j p then j
               else match committed_from (Frozen p) al with Some c => set_committed c (jb_block_index j) j | None => j end in
      JobPending (set_best (Frozen p, al) j)
  | Aborted _ => JobPending j
  | Cancelled => JobPanicked
  end.

Definition poll_pending (j : Job) : prog JobSig Polled :=
  if jb_pending j then
    do r <- ask PollPending;
    Ret match r with
        | None => JobPending j
        | Some (Err _) => JobPending (set_pending false j)
        | Some (Ok o) => finish_build (set_pending false j) o
        end
  else Ret (JobPending j).

(** [Future::poll] of the job *)
Definition poll (j : Job) : prog JobSig Polled :=
  do deadline <- ask PollDeadline;
  if deadline then Ret JobReady
  else
    do recommit <- ask PollRecommit;
    do j <- (if recommit && negb (is_frozen (fst (jb_best j))) && negb (jb_pending j) then spawn_build_job j else Ret j);
    do cleared <- match jb_authorization j with Some _ => ask PollClearance | None => Ret true end;
    do due <- ask PollFlashblockDeadline;
    do j <- match state_payload (fst (jb_best j)) with
            | Some p => if cleared && due && negb (is_frozen (fst (jb_best j))) then commit_best j p else Ret j
            | None => Ret j
            end;
    poll_pending j.

(** [best_payload] *)
Definition best_payload (j : Job) : prog JobSig (result Built string) :=
  match committed_payload (jb_committed j) with
  | Some p => Ret (Ok p)
  | None => ask BuildEmptyPayload
  end.

Inductive PayloadKind := Earliest | WaitForPending.

(** reth's [ResolveBestPayload]: the payload to return, and what it may still wait for *)
Record Resolve := { rs_best : option Built; rs_maybe_better : bool; rs_empty : bool }.

(** [resolve_kind] *)
Definition resolve_kind (j : Job) (kind : PayloadKind) : prog JobSig (Resolve * Job) :=
  let empty := match jb_committed j with CommittedEmpty => true | _ => false end in
  do j <- (if empty && negb (jb_pending j) then spawn_build_job j else Ret j);
  let no_tx_pool := from_option id false (cf_no_tx_pool (jb_config j)) in
  let better := no_tx_pool && jb_pending j in
  let j := if no_tx_pool then set_pending false j else j in
  do (better, has_empty, j) <-
    (if empty then
       do b <- ask OnMissingPayload;
       match b with
       | AwaitInProgress =>
           if better then Ret (better, false, j) else Ret (jb_pending j, false, set_pending false j)
       | RaceEmptyPayload | RacePayload => do _ <- ask SpawnFallback; Ret (better, true, j)
       end
     else Ret (better, false, j));
  Ret ({| rs_best := committed_payload (jb_committed j); rs_maybe_better := better;
          rs_empty := has_empty && match kind with WaitForPending => false | _ => true end |}, j).

(** The first build is started right away; then the job is polled. *)
Fixpoint polls (n : nat) (j : Job) : prog JobSig Polled :=
  match n with
  | O => Ret (JobPending j)
  | S n =>
      do r <- poll j;
      match r with JobPending j => polls n j | _ => Ret r end
  end.
Definition run_job (n : nat) (j : Job) : prog JobSig Polled :=
  do j <- spawn_build_job j;
  polls n j.

(** ** What is published *)

Definition publication_of (e : event JobSig) : option (Authorization C * FlashblocksPayloadV1) :=
  match projT1 e with PublishBuilt a fb _ => Some (a, fb) | _ => None end.
Definition publications (tr : list (event JobSig)) : list (Authorization C * FlashblocksPayloadV1) := omap publication_of tr.
Definition spawn_of (e : event JobSig) : option (option Built) :=
  match projT1 e with SpawnBuild _ c => Some c | _ => None end.
Definition last_spawn (tr : list (event JobSig)) : option (option Built) := last (omap spawn_of tr).

(** The contract of the builder: a better payload contains what was committed when its
    build was started. *)
Definition better_of (e : event JobSig) : option Built :=
  match e with
  | existT PollPending (Some (Ok (Better p, _))) => Some p
  | _ => None
  end.
Fixpoint builds_from (c : option (option Built)) (tr : list (event JobSig)) : Prop :=
  match tr with
  | [] => True
  | e :: tr =>
      match better_of e, c with Some p, Some c => grows (op_block <$> c) (op_block p) | _, _ => True end /\
      builds_from match spawn_of e with Some c => Some c | None => c end tr
  end.
Definition builds_extend (tr : list (event JobSig)) : Prop := builds_from None tr.

Lemma builds_from_app t1 : forall c t2,
  builds_from c (t1 ++ t2) <->
  builds_from c t1 /\ builds_from match last_spawn t1 with Some c => Some c | None => c end t2.
Proof.
  induction t1 as [|e t1 IH]; intros c t2; [cbn; tauto|]. cbn [app builds_from]. rewrite IH.
  assert (last_spawn (e :: t1) = match last_spawn t1 with Some c => Some c | None => spawn_of e end) as ->.
  { unfold last_spawn. cbn. destruct (spawn_of e); [rewrite last_cons|]; by destruct (last (omap spawn_of t1)). }
  destruct (last_spawn t1), (spawn_of e); tauto.
Qed.

Lemma builds_extend_prefix t1 t2 : builds_extend (t1 ++ t2) -> builds_extend t1.
Proof. intros [H _]%builds_from_app. exact H. Qed.

Lemma builds_extend_better tr e p c :
  builds_extend (tr ++ [e]) -> better_of e = Some p -> last_spawn tr = Some c -> grows (op_block <$> c) (op_block p).
Proof. intros [_ H]%builds_from_app Hp Hc. rewrite Hc in H. cbn in H. rewrite Hp in H. apply H. Qed.

Section runs.
Context (config : PayloadConfig) (a : Authorization C) (prev : option (Block Tx)) (i0 : Z).

(** The block that the next flashblock is cut from *)
Definition tip (pieces : list (Piece (Tx := Tx))) : option (Block Tx) :=
  match last pieces with Some p => Some (pc_block p) | None => prev end.

Record job_inv (tr : list (event JobSig)) (j : Job) (pieces : list (Piece (Tx := Tx))) : Prop := {
  ji_config : jb_config j = config;
  ji_auth : jb_authorization j = Some a;
  ji_pubs : publications tr = (fun fb => (a, fb)) <$> published encoded_2718 keccak256 rlp_access_list config prev i0 pieces;
  ji_grow : growing prev pieces;
  ji_index : jb_block_index j = i0 + Z.of_nat (length pieces);
  ji_tip : op_block <$> committed_payload (jb_committed j) = tip pieces \/ is_frozen (fst (jb_best j)) = true /\ jb_pending j = false;
  ji_spawn : jb_pending j = true -> last_spawn tr = Some (committed_payload (jb_committed j));
  ji_best : forall p, fst (jb_best j) = Best p ->
    is_committed j p = true \/ grows (op_block <$> committed_payload (jb_committed j)) (op_block p)
}.

Lemma published_snoc l : forall q i p,
  published encoded_2718 keccak256 rlp_access_list config q i (l ++ [p]) =
  published encoded_2718 keccak256 rlp_access_list config q i l ++
  published encoded_2718 keccak256 rlp_access_list config (match last l with Some x => Some (pc_block x) | None => q end)
    (i + Z.of_nat (length l)) [p].
Proof.
  induction l as [|x l IH]; intros q i p; [cbn [length]; by rewrite Z.add_0_r|]. cbn [app published]. rewrite IH.
  f_equal. f_equal. rewrite last_cons. cbn [length]. replace (i + Z.of_nat (S (length l))) with (i + 1 + Z.of_nat (length l)) by lia.
  by destruct (last l).
Qed.

Lemma growing_snoc (l : list (Piece (Tx := Tx))) : forall (q : option (Block Tx)) p,
  growing q (l ++ [p]) <-> growing q l /\ grows (match last l with Some x => Some (pc_block x) | None => q end) (pc_block p).
Proof.
  induction l as [|x l IH]; intros q p; [cbn; naive_solver|]. cbn [app growing]. rewrite IH, last_cons.
  destruct (last l); naive_solver.
Qed.

(** Calls that neither publish nor start a build *)
Lemma job_inv_other tr j pieces e :
  publication_of e = None -> spawn_of e = None -> job_inv tr j pieces -> job_inv (tr ++ [e]) j pieces.
Proof.
  intros Hp Hs [H1 H2 H3 H4 H5 H6 H7 H8].
  assert (last_spawn (tr ++ [e]) = last_spawn tr) as Hl.
  { unfold last_spawn. rewrite omap_app. cbn. by rewrite Hs, app_nil_r. }
  split; try done; [|by rewrite Hl]. unfold publications. rewrite omap_app. cbn. by rewrite Hp, app_nil_r.
Qed.

Lemma job_inv_spawn tr j pieces :
  op_block <$> committed_payload (jb_committed j) = tip pieces -> job_inv tr j pieces ->
  job_inv (tr ++ [ev (S := JobSig) (SpawnBuild (state_payload (fst (jb_best j))) (committed_payload (jb_committed j))) tt])
    (set_pending true j) pieces.
Proof.
  intros Ht [H1 H2 H3 H4 H5 H6 H7 H8]. split; try done.
  - unfold publications. rewrite omap_app. cbn. by rewrite app_nil_r.
  - by left.
  - intros _. unfold last_spawn. rewrite omap_app. cbn. by rewrite last_snoc.
Qed.

Lemma job_inv_frozen tr j pieces :
  is_frozen (fst (jb_best j)) = false -> job_inv tr j pieces -> op_block <$> committed_payload (jb_committed j) = tip pieces.
Proof. intros Hf H. destruct (ji_tip _ _ _ H) as [Ht|[Hc _]]; [done|congruence]. Qed.

(** Committing to a payload that is new publishes one more piece. *)
Lemma job_inv_publish tr j pieces p al now r :
  jb_best j = (Best p, al) -> is_committed j p = false -> i0 + Z.of_nat (length pieces) + 1 < 2 ^ 64 -> 0 <= i0 ->
  job_inv tr j pieces ->
  let prev' := op_block <$> committed_payload (jb_committed j) in
  let fb := flashblock_new encoded_2718 keccak256 rlp_access_list now (op_block p) (op_fees p) (jb_config j)
    (jb_block_index j) (tx_offset prev') (withdrawals_offset prev') al in
  let data := (fun l => {| access_list := l; access_list_hash := hash_of keccak256 rlp_access_list l |}) <$> al in
  let piece := {| pc_now := now; pc_block := op_block p; pc_fees := op_fees p; pc_access_list := al |} in
  let j' := set_committed (CommittedBest p data) (wrap_u64 (jb_block_index j + 1)) j in
  let tr' := (tr ++ [ev (S := JobSig) NowNanos now]) ++ [ev (S := JobSig) (PublishBuilt a fb p) r] in
  (forall t, job_inv (tr' ++ [ev (S := JobSig) (SpawnBuild t (Some p)) tt]) (set_pending true j') (pieces ++ [piece])).
Proof.
  intros Hb Hc Hlen Hi Hinv prev' fb data piece j' tr' t.
  pose proof (job_inv_frozen tr j pieces ltac:(by rewrite Hb) Hinv) as Htip.
  destruct Hinv as [H1 H2 H3 H4 H5 H6 H7 H8]. split; try done.
  - unfold tr', publications. rewrite !omap_app. cbn. rewrite !app_nil_r. unfold publications in H3. rewrite H3.
    rewrite published_snoc, fmap_app. f_equal. cbn. unfold fb, prev'. rewrite H1, H5, Htip. done.
  - apply growing_snoc. split; [done|]. change (grows (tip pieces) (op_block p)). rewrite <- Htip.
    destruct (H8 p) as [H8'|H8']; [by rewrite Hb|congruence|done].
  - cbn. unfold wrap_u64. rewrite Z.mod_small by (rewrite H5; lia). rewrite length_app, H5. cbn [length]. lia.
  - left. unfold tip. by rewrite last_snoc.
  - intros _. unfold last_spawn. rewrite omap_app. cbn. by rewrite last_snoc.
  - intros q Hq. left. cbn in Hq. rewrite Hb in Hq. injection Hq as <-. unfold is_committed. cbn. apply Z.eqb_refl.
Qed.

(** The result of a build task *)
Lemma job_inv_finish tr j pieces o al j' :
  jb_pending j = true -> job_inv tr j pieces ->
  builds_extend (tr ++ [ev (S := JobSig) PollPending (Some (Ok (o, al)))]) ->
  finish_build (set_pending false j) (o, al) = JobPending j' ->
  job_inv (tr ++ [ev (S := JobSig) PollPending (Some (Ok (o, al)))]) j' pieces.
Proof.
  intros Hp Hinv Hext Hf. pose proof (ji_spawn _ _ _ Hinv Hp) as Hs.
  apply (job_inv_other _ _ _ (ev (S := JobSig) PollPending (Some (Ok (o, al))))) in Hinv; [|done|done].
  assert (Htip : op_block <$> committed_payload (jb_committed j) = tip pieces).
  { destruct (ji_tip _ _ _ Hinv) as [|[_ ?]]; [done|congruence]. }
  destruct Hinv as [H1 H2 H3 H4 H5 H6 H7 H8]. destruct o as [p|fees|p|]; cbn in Hf; [| | |done]; injection Hf as <-.
  - destruct (is_committed (set_pending false j) p) eqn:Hc; split; try done; [by left|by left|].
    intros q Hq. cbn in Hq. injection Hq as <-. right. by eapply builds_extend_better.
  - split; try done. by left.
  - destruct (is_committed (set_pending false j) p) eqn:Hc; split; try done; by right.
Qed.

(** What a poll keeps; [k] bounds the number of flashblocks. *)
Definition kept (k : nat) (tr : list (event JobSig)) (j : Job) : Prop :=
  jb_authorization j = Some a /\
  (builds_extend tr -> exists pieces, (length pieces <= k)%nat /\ job_inv tr j pieces).
Definition polled_ok (k : nat) (tr : list (event JobSig)) (r : Polled) : Prop :=
  match r with
  | JobPending j => kept k tr j
  | _ => builds_extend tr -> exists pieces, (length pieces <= k)%nat /\ growing prev pieces /\
      publications tr = (fun fb => (a, fb)) <$> published encoded_2718 keccak256 rlp_access_list config prev i0 pieces
  end.

Lemma polled_published k tr r : polled_ok k tr r -> builds_extend tr ->
  exists pieces, growing prev pieces /\
    publications tr = (fun fb => (a, fb)) <$> published encoded_2718 keccak256 rlp_access_list config prev i0 pieces.
Proof.
  intros H Hx. destruct r as [j| |]; [destruct H as [_ H]| |]; destruct (H Hx) as (pieces & _ & Hi); exists pieces; [|done..].
  split; [by eapply ji_grow|by eapply ji_pubs].
Qed.

Lemma kept_other k tr j e : publication_of e = None -> spawn_of e = None -> kept k tr j -> kept k (tr ++ [e]) j.
Proof.
  intros Hp Hs [Ha H]. split; [done|]. intros Hx. destruct (H (builds_extend_prefix _ _ Hx)) as (pieces & Hk & Hi). exists pieces. split; [done|].
  by apply job_inv_other.
Qed.

Lemma kept_mono k k' tr j : (k <= k')%nat -> kept k tr j -> kept k' tr j.
Proof. intros Hk [Ha H]. split; [done|]. intros Hx. destruct (H Hx) as (pieces & Hl & Hi). exists pieces. split; [lia|done]. Qed.

Lemma spawn_kept k tr j :
  is_frozen (fst (jb_best j)) = false -> kept k tr j -> wp_after tr (spawn_build_job j) (fun t j' => kept k t j').
Proof.
  intros Hf [Ha H]. apply wp_after_bind, wp_after_call. intros []. apply wp_after_ret, wp_after_ret. split; [done|]. intros Hx.
  destruct (H (builds_extend_prefix _ _ Hx)) as (pieces & Hk & Hi). exists pieces. split; [done|].
  apply job_inv_spawn; [|done]. by eapply job_inv_frozen.
Qed.

Lemma commit_best_kept k tr j p al :
  jb_best j = (Best p, al) -> 0 <= i0 -> i0 + Z.of_nat k + 1 < 2 ^ 64 -> kept k tr j ->
  wp_after tr (commit_best j p) (fun t j' => kept (S k) t j').
Proof.
  intros Hb H0 Hlen H. unfold commit_best. apply wp_after_bind. destruct (is_committed j p) eqn:Hc.
  - apply wp_after_ret, wp_after_bind. eapply wp_after_mono; [apply (spawn_kept k); [by rewrite Hb|done]|]. intros t j' Hj.
    apply wp_after_bind, wp_after_call. intros []. apply wp_after_ret, wp_after_ret. apply (kept_mono k); [lia|].
    by apply kept_other.
  - destruct H as [Ha H]. rewrite Ha, Hb. apply wp_after_bind. unfold publish_payload. apply wp_after_bind, wp_after_call. intros now.
    apply wp_after_ret, wp_after_call. intros r. apply wp_after_ret, wp_after_ret. cbn [fst snd committed_from].
    apply wp_after_bind, wp_after_bind, wp_after_call. intros []. apply wp_after_ret, wp_after_ret.
    apply wp_after_bind, wp_after_call. intros []. apply wp_after_ret, wp_after_ret. apply kept_other; [done|done|].
    split; [done|]. intros Hx. destruct H as (pieces & Hk & Hi); [by do 3 apply builds_extend_prefix in Hx|].
    eexists. split; [|apply (job_inv_publish tr j pieces p al now r Hb Hc); [lia|done|done]].
    rewrite length_app. cbn. lia.
Qed.

Lemma finish_build_auth j o j' : finish_build j o = JobPending j' -> jb_authorization j' = jb_authorization j.
Proof.
  destruct o as [[p|fees|p|] al]; cbn; intros [= <-]; [by destruct (is_committed j p)|done|by destruct (is_committed j p)].
Qed.

Lemma poll_pending_kept k tr j : kept k tr j -> wp_after tr (poll_pending j) (polled_ok k).
Proof.
  intros Hj. unfold poll_pending. destruct (jb_pending j) eqn:Hp; [|by apply wp_after_ret].
  apply wp_after_bind, wp_after_call. intros r. apply wp_after_ret, wp_after_ret.
  destruct r as [[[o al]|e]|]; [| |by apply kept_other]; destruct Hj as [Ha H].
  - destruct (finish_build (set_pending false j) (o, al)) as [j'| |] eqn:Hf;
      [split; [by rewrite (finish_build_auth _ _ _ Hf)|]| |]; intros Hx;
      destruct (H (builds_extend_prefix _ _ Hx)) as (pieces & Hk & Hi); exists pieces; split; try done.
    + by eapply job_inv_finish.
    + destruct o; discriminate Hf.
    + split; [by eapply ji_grow|]. eapply ji_pubs. by apply (job_inv_other tr j).
  - split; [done|]. intros Hx. destruct (H (builds_extend_prefix _ _ Hx)) as (pieces & Hk & Hi). exists pieces. split; [done|].
    apply job_inv_other; [done|done|]. pose proof (ji_tip _ _ _ Hi) as Ht. rewrite Hp in Ht. 
    destruct Hi as [H1 H2 H3 H4 H5 H6 H7 H8]. split; try done. by destruct Ht as [|[_ ?]]; [left|].
Qed.

Lemma poll_kept k tr j :
  0 <= i0 -> i0 + Z.of_nat k + 1 < 2 ^ 64 -> kept k tr j -> wp_after tr (poll j) (polled_ok (S k)).
Proof.
  intros H0 Hlen H. unfold poll. apply wp_after_bind, wp_after_call. intros deadline. apply wp_after_ret.
  apply (kept_other k tr j (ev (S := JobSig) PollDeadline deadline)) in H; [|done|done]. destruct deadline.
  { apply wp_after_ret. intros Hx. destruct H as [_ H]. destruct (H Hx) as (pieces & Hk & Hi). exists pieces.
    split; [lia|]. split; [by eapply ji_grow|by eapply ji_pubs]. }
  apply wp_after_bind, wp_after_call. intros recommit. apply wp_after_ret, wp_after_bind.
  eapply (wp_after_mono _ _ (fun t j' => kept k t j')).
  { apply (kept_other _ _ _ (ev (S := JobSig) PollRecommit recommit)) in H; [|done|done].
    destruct recommit, (is_frozen (fst (jb_best j))) eqn:Hf, (jb_pending j); cbn [andb negb]; try by apply wp_after_ret.
    by apply spawn_kept. }
  clear H j. intros t j H. apply wp_after_bind. destruct (H) as [Ha _]. rewrite Ha. apply wp_after_call. intros cleared.
  apply wp_after_ret, wp_after_bind, wp_after_call. intros due. apply wp_after_ret, wp_after_bind.
  apply (kept_other _ _ _ (ev (S := JobSig) PollClearance cleared)) in H; [|done|done].
  apply (kept_other _ _ _ (ev (S := JobSig) PollFlashblockDeadline due)) in H; [|done|done].
  eapply wp_after_mono; [|intros t' j'; apply poll_pending_kept].
  destruct (jb_best j) as [[|p|p] al] eqn:Hb; cbn [fst state_payload is_frozen]; rewrite ?andb_false_r, ?andb_true_r;
    try (apply wp_after_ret; apply (kept_mono k); [lia|done]).
  destruct (cleared && due); [|apply wp_after_ret; apply (kept_mono k); [lia|done]]. by eapply commit_best_kept.
Qed.

Lemma polls_kept n : forall k tr j,
  0 <= i0 -> i0 + Z.of_nat (k + n) + 1 < 2 ^ 64 -> kept k tr j -> wp_after tr (polls n j) (polled_ok (k + n)).
Proof.
  induction n as [|n IH]; intros k tr j H0 Hlen H; cbn [polls].
  { apply wp_after_ret. by rewrite Nat.add_0_r. }
  apply wp_after_bind. eapply wp_after_mono; [by apply (poll_kept k); [done|lia|done]|]. intros t [j'| |] Hr.
  - replace (k + S n)%nat with (S k + n)%nat by lia. apply IH; [done|lia|done].
  - apply wp_after_ret. intros Hx. destruct (Hr Hx) as (ps & ? & ?). exists ps. split; [lia|done].
  - apply wp_after_ret. intros Hx. destruct (Hr Hx) as (ps & ? & ?). exists ps. split; [lia|done].
Qed.

(** From a job as the generator hands it out *)
Lemma run_job_kept n j :
  0 <= i0 -> i0 + Z.of_nat n + 1 < 2 ^ 64 -> jb_config j = config -> jb_authorization j = Some a ->
  jb_block_index j = i0 -> op_block <$> committed_payload (jb_committed j) = prev ->
  (forall p, fst (jb_best j) = Best p -> is_committed j p = true) ->
  wp (run_job n j) (polled_ok n).
Proof.
  intros H0 Hlen Hc Ha Hi Hp Hb. change (wp_after [] (run_job n j) (polled_ok n)).
  unfold run_job, spawn_build_job. apply wp_after_bind, wp_after_bind, wp_after_call. intros []. apply wp_after_ret, wp_after_ret.
  apply (polls_kept n 0); [done|cbn; lia|]. split; [done|]. intros _. exists []. split; [done|]. split; try done.
  - cbn. lia.
  - by left.
  - intros p Hq. left. by apply Hb.
Qed.
End runs.

(** Without an authorization nothing is published. *)
Definition silent (tr : list (event JobSig)) (r : Polled) : Prop :=
  publications tr = [] /\ match r with JobPending j => jb_authorization j = None | _ => True end.

Lemma publications_app t1 t2 : publications (t1 ++ t2) = publications t1 ++ publications t2.
Proof. apply omap_app. Qed.

Lemma poll_silent j : jb_authorization j = None -> wp (poll j) silent.
Proof.
  intros Ha. unfold poll. intros []; [done|]. intros recommit. cbn [bind]. apply wp_bind.
  apply (wp_mono _ (fun t j' => publications t = [] /\ jb_authorization j' = None)).
  { destruct (_ && _); [by intros []|done]. }
  intros t1 j1 [Ht1 Ha1]. rewrite Ha1. cbn [bind]. intros due. cbn [bind]. apply wp_bind.
  apply (wp_mono _ (fun t j' => publications t = [] /\ jb_authorization j' = None)).
  { destruct (state_payload (fst (jb_best j1))) as [p|]; [|done]. destruct (_ && _); [|done]. unfold commit_best. apply wp_bind.
    apply (wp_mono _ (fun t j' => publications t = [] /\ jb_authorization j' = None)).
    { destruct (is_committed j1 p); [done|]. rewrite Ha1. cbn. by destruct (committed_from _ _). }
    intros t2 j2 [Ht2 Ha2] [] []. cbn. by rewrite publications_app, Ht2. }
  intros t2 j2 [Ht2 Ha2]. unfold poll_pending. apply (wp_mono _ silent).
  { destruct (jb_pending j2); [|done]. intros [[o|e]|]; [|done|done]. split; [done|].
    destruct (finish_build (set_pending false j2) o) as [j3| |] eqn:Hf; [|done|done]. by rewrite (finish_build_auth _ _ _ Hf). }
  intros t3 r [Ht3 Hr]. split; [|done]. cbn. rewrite !publications_app. cbn. by rewrite !publications_app, Ht1, Ht2, Ht3.
Qed.

Lemma polls_silent n : forall j, jb_authorization j = None -> wp (polls n j) (fun tr _ => publications tr = []).
Proof.
  induction n as [|n IH]; intros j Ha; [done|]. cbn [polls]. apply wp_bind. eapply wp_mono; [by apply poll_silent|].
  intros t [j'| |] [Ht Hr]; [|cbn; by rewrite app_nil_r..]. eapply wp_mono; [by apply IH|]. intros t' r Ht'.
  by rewrite publications_app, Ht, Ht'.
Qed.

Definition fresh_job (config : PayloadConfig) (a : Authorization C) : Job :=
  {| jb_config := config; jb_best := (Missing, None); jb_committed := CommittedEmpty; jb_pending := false;
     jb_authorization := Some a; jb_block_index := 0 |}.

(** C13: Whatever the timers, the network and the build tasks do: what an authorized job has
    published are the flashblocks 0, 1, 2, ... of builds that grow, all under its own
    authorization; folded together they are the last build that was published, and as
    long as the job is building, that is the payload it is committed to. *)
Theorem job_publishes_committed n config a tr r :
  Z.of_nat n + 1 < 2 ^ 64 -> runs (run_job n (fresh_job config a)) tr r -> builds_extend tr ->
  exists pieces,
    publications tr = (fun fb => (a, fb)) <$> published encoded_2718 keccak256 rlp_access_list config None 0 pieces /\
    growing None pieces /\
    (forall last_piece, last pieces = Some last_piece ->
       exists f, reduce (snd <$> publications tr) = Ok f /\ carries encoded_2718 f last_piece /\
         fb_payload_id f = cf_payload_id config) /\
    match r with
    | JobPending j => is_frozen (fst (jb_best j)) = false ->
        op_block <$> committed_payload (jb_committed j) = pc_block <$> last pieces /\
        jb_block_index j = Z.of_nat (length pieces)
    | _ => True
    end.
Proof.
  intros Hn Hr Hx.
  pose proof (proj1 (wp_runs _ _) (run_job_kept config a None 0 n (fresh_job config a) ltac:(lia) ltac:(lia) eq_refl eq_refl
    eq_refl eq_refl ltac:(done)) _ _ Hr) as H.
  assert (exists pieces, publications tr = (fun fb => (a, fb)) <$>
      published encoded_2718 keccak256 rlp_access_list config None 0 pieces /\ growing None pieces /\
      match r with
      | JobPending j => is_frozen (fst (jb_best j)) = false ->
          op_block <$> committed_payload (jb_committed j) = pc_block <$> last pieces /\
          jb_block_index j = Z.of_nat (length pieces)
      | _ => True
      end) as (pieces & Hp & Hg & Hm).
  { destruct r as [j| |]; [destruct H as [_ H]| |]; destruct (H Hx) as (pieces & _ & Hi); exists pieces; [|naive_solver..].
    refine (conj (ji_pubs _ _ _ _ _ _ _ Hi) (conj (ji_grow _ _ _ _ _ _ _ Hi) _)). intros Hf.
    split; [|by rewrite (ji_index _ _ _ _ _ _ _ Hi)]. rewrite (job_inv_frozen _ _ _ _ _ _ _ Hf Hi). unfold tip.
    by destruct (last pieces). }
  exists pieces. refine (conj Hp (conj Hg (conj _ Hm))). intros lp Hl.
  rewrite Hp, <- list_fmap_compose. change (compose snd (fun fb => (a, fb))) with (@id FlashblocksPayloadV1). rewrite list_fmap_id.
  destruct pieces as [|x l]; [done|].
  destruct (published_reduce encoded_2718 keccak256 rlp_access_list config x l Hg) as (f & Hf & Hc & _ & Hid).
  exists f. refine (conj Hf (conj _ Hid)). rewrite last_cons in Hl.
  destruct (last l); cbn in Hc; by injection Hl as <-.
Qed.

(** A poll with the interval over, clearance to publish and a build that is not
    committed yet publishes what the build adds to the committed payload, commits to it
    and starts the next build from it. *)
Theorem due_build_published j p al a tr r :
  jb_best j = (Best p, al) -> is_committed j p = false -> jb_authorization j = Some a -> runs (poll j) tr r ->
  (forall b, ev (S := JobSig) PollDeadline b ∈ tr -> b = false) ->
  (forall b, ev (S := JobSig) PollClearance b ∈ tr -> b = true) ->
  (forall b, ev (S := JobSig) PollFlashblockDeadline b ∈ tr -> b = true) ->
  let prev := op_block <$> committed_payload (jb_committed j) in
  exists now, last_spawn tr = Some (Some p) /\
    publications tr = [(a, flashblock_new encoded_2718 keccak256 rlp_access_list now (op_block p) (op_fees p) (jb_config j)
      (jb_block_index j) (tx_offset prev) (withdrawals_offset prev) al)].
Proof.
  intros Hb Hc Ha Hr. revert tr r Hr. refine (proj1 (wp_runs (poll j) _) _). unfold poll.
  intros deadline. destruct deadline; [intros Hd; specialize (Hd true ltac:(set_solver)); discriminate Hd|].
  intros recommit. cbn [bind]. apply wp_bind. rewrite Hb. cbn [is_frozen fst negb].
  apply (wp_mono _ (fun t j' => (exists b, j' = set_pending b j) /\ publications t = [])).
  { destruct (recommit && true && negb (jb_pending j)); [intros []; by split; [exists true|]|].
    split; [exists (jb_pending j); by destruct j|done]. }
  intros t j' [[b ->] Ht]. cbn [jb_authorization set_pending jb_best]. rewrite Ha. intros cleared due.
  destruct cleared; [|apply wp_runs; intros ? ? _ _ Hx; specialize (Hx false ltac:(set_solver)); discriminate Hx].
  destruct due; [|apply wp_runs; intros ? ? _ _ _ Hx; specialize (Hx false ltac:(set_solver)); discriminate Hx].
  cbn [jb_best set_pending]. rewrite Hb. cbn [fst state_payload is_frozen andb negb]. apply wp_bind. unfold commit_best.
  change (is_committed (set_pending b j) p) with (is_committed j p). rewrite Hc. cbn [jb_authorization set_pending jb_best].
  rewrite Ha, Hb. intros now r [] []. cbn [poll_pending set_pending jb_pending]. intros o _ _ _. exists now. split.
  - unfold last_spawn. cbn. rewrite omap_app. cbn. by rewrite last_snoc.
  - unfold publications in *. cbn. rewrite omap_app. cbn. by rewrite Ht.
Qed.

(** A frozen job is over: polling it neither builds nor publishes, and the payload it
    froze is what it resolves to. *)
Theorem frozen_job_idle n j p al tr r kind tr' rs j' :
  jb_best j = (Frozen p, al) -> jb_pending j = false -> committed_payload (jb_committed j) = Some p ->
  runs (polls n j) tr r -> runs (resolve_kind j kind) tr' (rs, j') ->
  (r = JobReady \/ r = JobPending j) /\ publications tr = [] /\ last_spawn tr = None /\
  rs_best rs = Some p /\ tr' = [] /\ best_payload j = Ret (Ok p).
Proof.
  intros Hb Hp Hc Hr Hres.
  assert (wp (polls n j) (fun tr r => (r = JobReady \/ r = JobPending j) /\ publications tr = [] /\ omap spawn_of tr = [])) as H.
  { clear Hr. induction n as [|n IH]; [by split; [right|]|]. cbn [polls]. apply wp_bind. unfold poll. intros [].
    { by split; [left|]. }
    intros recommit. cbn [bind]. rewrite Hb. cbn [fst is_frozen negb]. rewrite andb_false_r. cbn [andb]. cbn [bind].
    apply wp_bind. rewrite Hb. cbn [fst state_payload is_frozen negb].
    apply (wp_mono _ (fun t (_ : bool) => publications t = [] /\ omap spawn_of t = [])).
    { by destruct (jb_authorization j). }
    intros t cleared [Ht1 Ht2] due. cbn [bind]. rewrite andb_false_r. unfold poll_pending. cbn [bind]. rewrite Hp. cbn [wp].
    eapply wp_mono; [exact IH|]. intros t' r' (Hr & Hp' & Hs'). split; [done|]. unfold publications in *.
    cbn. rewrite !omap_app. cbn. rewrite Ht1, Ht2, Hp', Hs'. done. }
  destruct (proj1 (wp_runs _ _) H _ _ Hr) as (Hr' & Hpub & Hsp). split; [done|]. split; [done|].
  split; [unfold last_spawn; by rewrite Hsp|]. revert Hres. unfold resolve_kind, best_payload.
  destruct (jb_committed j) eqn:Hj; [| |done]; injection Hc as ->; cbn; rewrite Hp, andb_false_r;
  intros [-> [= -> _]]; (split; [|done]); by destruct (from_option id false (cf_no_tx_pool (jb_config j))); cbn; rewrite Hj.
Qed.
End job.

(** ** Examples *)

Definition ex_built (k : nat) : OpBuiltPayload bytes unit unit :=
  {| op_id := cf_payload_id ex_config; op_block := ex_block (take (S k) [[1]; [2]; [3]]) (50 + Z.of_nat k); op_fees := 0;
     op_executed := None |}.

(** Every interval is over at once, and each build adds a transaction; [ok] says
    whether publishing works. *)
Definition ex_host (ok : bool) : handler (JobSig (Tx := bytes) (Bundle := unit) (Receipt := unit) ex_ed) nat :=
  fun c k =>
    match c with
    | PollDeadline _ | PollRecommit _ => (false, k)
    | PollClearance _ | PollFlashblockDeadline _ => (true, k)
    | NowNanos _ => (7, k)
    | SpawnBuild _ _ _ | ResetTimers _ | SpawnFallback _ => (tt, k)
    | PollPending _ => (Some (Ok (Better (ex_built k), None)), S k)
    | PublishBuilt _ _ _ _ => (if ok then Ok tt else Err "not cleared to publish"%string, k)
    | OnMissingPayload _ => (AwaitInProgress, k)
    | BuildEmptyPayload _ => (Ok (ex_built 0), k)
    end.

Definition ex_job_run (n : nat) := run_job (Bundle := unit) (Receipt := unit) id be_val (fun _ => []) ex_ed n (fresh_job ex_ed ex_config ex_authorization).

Lemma job_publishes_committed_witness :
  exists f, reduce (snd <$> publications ex_ed (trace_of (ex_host true) (ex_job_run 3) 0%nat)) = Ok f /\
    fd_transactions (fb_diff f) = [[1]; [2]].
Proof.
  destruct (job_publishes_committed id be_val (fun _ => []) ex_ed 3 ex_config ex_authorization _ _
    ltac:(lia) (interp_runs (ex_host true) (ex_job_run 3) 0%nat)) as (pieces & Hp & _ & Hf & Hm).
  - vm_compute. repeat split; try (by exists []); try (by eexists [_]).
  - assert (exists j, value_of (ex_host true) (ex_job_run 3) 0%nat = JobPending ex_ed j /\ is_frozen (fst (jb_best ex_ed j)) = false /\
      committed_payload (jb_committed ex_ed j) = Some (ex_built 1)) as (j & Hj & Hfr & Hcp).
    { eexists. split; [vm_compute; reflexivity|]. split; vm_compute; reflexivity. }
    rewrite Hj in Hm. destruct (Hm Hfr) as [Hl _]. rewrite Hcp in Hl.
    destruct (last pieces) as [x|]; [|discriminate Hl]. injection Hl as Hx.
    destruct (Hf x eq_refl) as (f & Hr & Hc & _). exists f. split; [exact Hr|].
    rewrite (carries_transactions _ _ _ Hc), <- Hx. reflexivity.
Defined.

Definition ex_job : Job (Tx := bytes) (Bundle := unit) (Receipt := unit) ex_ed :=
  {| jb_config := ex_config; jb_best := (Best (ex_built 1), None); jb_committed := CommittedBest (ex_built 0) None;
     jb_pending := true; jb_authorization := Some ex_authorization; jb_block_index := 1 |}.
Definition ex_poll := poll id be_val (fun _ => []) ex_ed ex_job.

Definition ex_replies (c : call (JobSig (Tx := bytes) (Bundle := unit) (Receipt := unit) ex_ed)) : reply _ c -> Prop :=
  match c with
  | PollDeadline _ => fun b => b = false
  | PollClearance _ | PollFlashblockDeadline _ => fun b => b = true
  | _ => fun _ => True
  end.
Lemma ex_host_replies {A} (p : prog _ A) w e : e ∈ trace_of (ex_host true) p w -> ex_replies (projT1 e) (projT2 e).
Proof.
  intros He. assert (forall c w, ex_replies c (ex_host true c w).1) as H by (by intros [] ?).
  exact (proj1 (Forall_forall _ _) (trace_Forall (ex_host true) ex_replies p w H) e He).
Qed.

Lemma due_build_published_witness :
  exists fb, publications ex_ed (trace_of (ex_host true) ex_poll 2%nat) = [(ex_authorization, fb)] /\
    fb_index fb = 1 /\ fd_transactions (fb_diff fb) = [[2]].
Proof.
  destruct (due_build_published id be_val (fun _ => []) ex_ed ex_job (ex_built 1) None ex_authorization _ _
    eq_refl eq_refl eq_refl (interp_runs (ex_host true) ex_poll 2%nat)) as (now & _ & Hp).
  1-3: intros b Hb; exact (ex_host_replies _ _ _ Hb).
  eexists. split; [exact Hp|]. split; vm_compute; reflexivity.
Defined.

Definition ex_frozen : Job (Tx := bytes) (Bundle := unit) (Receipt := unit) ex_ed :=
  {| jb_config := ex_config; jb_best := (Frozen (ex_built 1), None); jb_committed := CommittedFrozen (ex_built 1) None;
     jb_pending := false; jb_authorization := Some ex_authorization; jb_block_index := 1 |}.

Lemma frozen_job_idle_witness :
  publications ex_ed (trace_of (ex_host true) (polls id be_val (fun _ => []) ex_ed 5 ex_frozen) 0%nat) = [] /\
  best_payload ex_ed ex_frozen = Ret (Ok (ex_built 1)).
Proof.
  destruct (frozen_job_idle id be_val (fun _ => []) ex_ed 5 ex_frozen (ex_built 1) None _ _ Earliest _ _ _ eq_refl eq_refl eq_refl
    (interp_runs (ex_host true) (polls id be_val (fun _ => []) ex_ed 5 ex_frozen) 0%nat) (conj eq_refl eq_refl))
    as (_ & Hp & _ & _ & _ & Hb).
  split; [exact Hp|exact Hb].
Defined.

(** A flashblock that could not be published is committed to all the same: the next one
    is cut after it, so its transactions are in no flashblock that was sent, and the
    index that peers wait for is never used again. *)
Theorem failed_publish_leaves_gap :
  (fun x : Authorization ex_ed * FlashblocksPayloadV1 => (fb_index (snd x), fd_transactions (fb_diff (snd x)))) <$>
    publications ex_ed (trace_of (ex_host false) (ex_job_run 3) 0%nat) = [(0, [[1]]); (1, [[2]])].
Proof. vm_compute. reflexivity. Qed.
