(* ===== verification/Validator.v ===== *)
(** * Executing and checking a flashblock
    ([src/crates/validator/src]: [validator.rs], [execution_strategy.rs];
    [src/crates/evm/src/execution/bal.rs])

    A validator executes the transactions of a flashblock on top of the payload it has
    so far and accepts the flashblock only if the result is the block that the builder
    announced.  With an access list the transactions are executed in parallel, each
    against the values that the list claims, and then committed one after the other.
    The virtual machine, the state provider, the trie and the assembly of blocks are
    calls; decoding and recovery of transactions, hashing and the properties of a
    transaction are parameters. *)

From S2P Require Import Prelude Program Encoding ProofTypes AccessList Flashblocks Reverts P2pCodec PayloadJob.

Inductive BalValidationError :=
| ReceivedBalHashMismatch (expected got : B256)
| BalHashMismatch (expected got : B256) (expected_bal got_bal : FlashblockAccessList)
| BalIndexMismatch (index : string) (expected got : Z)
| StateRootMismatch (expected got : B256)
| ReceiptsRootMismatch (expected got : B256)
| MissingAccessListData.

(** alloy's and reth's errors, as far as the source makes them *)
Inductive ExecutionError :=
| ExecutionMessage (message : string)
| TransactionGasLimitMoreThanAvailableBlockGas (transaction_gas_limit block_available_gas : Z)
| TransactionDaFootprintAboveGasLimit (transaction_da_footprint available_block_da_footprint : Z).

Inductive BalExecutorError :=
| BlockExecutionError (e : ExecutionError)
| MissingExecutedBlock
| BalInvalid (e : BalValidationError)
| BalOther (message : string)
| BalPanicked.

(** ** The index of a transaction in the access list *)

Record BlockAccessIndexCounter := { current_index : Z; start_index : Z }.
Definition counter_new (start : Z) : BlockAccessIndexCounter := {| current_index := start; start_index := start |}.
Definition counter_inc (c : BlockAccessIndexCounter) : BlockAccessIndexCounter :=
  {| current_index := current_index c + 1; start_index := start_index c |}.
Definition counter_finish (c : BlockAccessIndexCounter) : Z * Z := (start_index c, current_index c).

Section validator.
Context {Tx Receipt Info Code : Type}.
#[local] Abbreviation Bundle := (BundleState Info Code).
#[local] Abbreviation Built := (OpBuiltPayload Tx Bundle Receipt).
Context (decode_2718_canonical : bytes -> result Tx string) (recover_signer : Tx -> result Address string)
  (gas_refund_entries : Tx -> list Z) (gas_limit : Tx -> Z) (is_deposit : Tx -> bool)
  (effective_tip_per_gas : Tx -> Z -> option Z)
  (keccak256 : bytes -> B256) (rlp_access_list : FlashblockAccessList -> bytes)
  (is_empty : Account -> bool) (basic_account : Address -> result (option Account) string) (storage_post_states : AccountChanges -> list (Z * Z))
  (from_bundle_state : Bundle -> HashedPostState)
  (order : gmap Address (AccountRevert (Info := Info)) -> list (Address * AccountRevert (Info := Info)))
  (extend : Bundle -> Bundle -> Bundle)
  (L1_BLOCK_CONTRACT : Address) (OP_L1_BLOCK_BAL_READ_SLOTS : list Z).

(** ** What was committed *)

(** [pre_refund_gas_used] *)
Definition pre_refund_gas_used (gas_used : Z) (transactions : list (Tx * Address)) : Z :=
  let refunded := foldl (saturating_add U64_MAX) 0 (mjoin ((fun tx => gas_refund_entries (fst tx)) <$> transactions)) in
  saturating_add U64_MAX gas_used refunded.

Record CommittedState := {
  is_first : bool;
  cm_gas_used : Z;
  cm_evm_gas_used : Z;
  cm_blob_gas_used : Z;
  cm_fees : Z;
  cm_bundle : Bundle;
  cm_receipts : list (Z * Receipt);
  cm_transactions : list (Z * (Tx * Address))
}.

Definition enumerate {A} (l : list A) : list (Z * A) := imap (fun i a => (Z.of_nat i, a)) l.

(** [CommittedState::try_from] *)
Definition committed_state (value : option Built) : result CommittedState BalExecutorError :=
  match value with
  | Some p =>
      match op_executed p with
      | None => Err MissingExecutedBlock
      | Some x =>
          Ok {| is_first := false; cm_transactions := enumerate (xc_transactions x); cm_receipts := enumerate (xc_receipts x);
                cm_gas_used := xc_gas_used x; cm_evm_gas_used := pre_refund_gas_used (xc_gas_used x) (xc_transactions x);
                cm_blob_gas_used := from_option id 0 (xc_blob_gas_used x); cm_fees := op_fees p; cm_bundle := xc_bundle x |}
      end
  | None =>
      Ok {| is_first := true; cm_transactions := []; cm_receipts := []; cm_gas_used := 0; cm_evm_gas_used := 0;
            cm_blob_gas_used := 0; cm_fees := 0; cm_bundle := {| bs_state := ∅; bs_contracts := ∅; bs_reverts := [] |} |}
  end.

(** [decode_transactions_with_indices] *)
Definition decode_transaction (x : Z * bytes) : result (Z * (Tx * Address)) BalExecutorError :=
  let '(i, raw) := x in
  let? tx := map_err BalOther (decode_2718_canonical raw) in
  let? signer := map_err BalOther (recover_signer tx) in
  Ok (i, (tx, signer)).
Definition decode_transactions_with_indices (encoded : list bytes) (start : Z)
    : result (list (Z * (Tx * Address))) BalExecutorError :=
  collect_results decode_transaction (imap (fun i raw => (start + Z.of_nat i, raw)) encoded).

(** ** Calls *)

(** What the executor reports of one executed transaction *)
Record TxResult := { tr_is_deposit : bool; tr_is_post_exec : bool; tr_blob_gas_used : Z }.
(** After a commit: the gas of the transaction, and the counters of the executor *)
Record GasOutput := { tx_gas_used : Z; ex_evm_gas_used : Z; ex_da_footprint_used : Z }.
Record ExecutionResult := { er_receipts : list Receipt; er_gas_used : Z; er_blob_gas_used : option Z }.

Inductive val_call :=
| StateByBlockHash (parent : B256)
| BalTryFrom (l : list AccountChanges)
| PrepareStateRoot (parent : B256) (st : HashedPostState)
| FinishStateRoot
| SetBalIndex (i : Z)
| StartExecutor (gas_used evm_gas_used da_footprint_used : Z) (receipts : list Receipt) (bundle : CacheState (Info := Info) (Code := Code))
| ApplyPreExecutionChanges
| ExecuteWorker (i : Z) (tx : Tx * Address)
| ExecuteTransaction (tx : Tx * Address)
| RecordReads (a : Address) (slots : list Z)
| CommitTransaction (r : TxResult)
| FinishExecutor
| TakeBuiltBal
| TakeBundle
| AssembleBlock (transactions : list (Tx * Address)) (r : ExecutionResult) (bundle : Bundle) (state_root : B256).

Definition ValSig : Sig := {|
  call := val_call;
  reply c := match c with
             | StateByBlockHash _ | BalTryFrom _ | PrepareStateRoot _ _ | ApplyPreExecutionChanges => result unit string
             | FinishStateRoot => result (B256 * HashedPostState) string
             | SetBalIndex _ | StartExecutor _ _ _ _ _ => unit
             | ExecuteWorker _ _ => result TxResult string
             | ExecuteTransaction _ => result (option Z) string
             | RecordReads _ _ => bool
             | CommitTransaction _ => GasOutput
             | FinishExecutor => result ExecutionResult string
             | TakeBuiltBal => option (list AccountChanges)
             | TakeBundle => Bundle
             | AssembleBlock _ _ _ _ => result (Block Tx) string
             end
|}.
Definition val (c : val_call) : prog ValSig (reply ValSig c) := Call (S := ValSig) c Ret.
Definition exec_err (s : string) : BalExecutorError := BlockExecutionError (ExecutionMessage s).
Definition val_try {A} (wrap : string -> BalExecutorError) (p : prog ValSig (result A string)) : prog ValSig (result A BalExecutorError) :=
  do r <- p; Ret (map_err wrap r).

(** [record_op_l1_block_bal_reads] *)
Definition record_op_l1_block_bal_reads : prog ValSig (result unit BalExecutorError) :=
  do ok <- val (RecordReads L1_BLOCK_CONTRACT OP_L1_BLOCK_BAL_READ_SLOTS);
  Ret (if ok : bool then Ok tt else Err (exec_err "missing BAL builder state"%string)).

(** ** The environment of a flashblock *)

Record ValidationEnv := {
  ve_parent_hash : B256;
  ve_basefee : Z;
  ve_gas_limit : Z;
  ve_is_jovian : bool;
  ve_is_regolith : bool
}.
Context (env : ValidationEnv).

(** [validate_min_tx_index], [validate_max_tx_index] *)
Definition validate_min_tx_index (min offset : Z) (cs : CommittedState) : result unit BalExecutorError :=
  let expected := if is_first cs then 0 else offset in
  if min =? expected then Ok tt else Err (BalInvalid (BalIndexMismatch "min" expected min)).
Definition validate_max_tx_index (max offset : Z) (transactions : list (Z * (Tx * Address))) : result unit BalExecutorError :=
  let expected := match last transactions with Some (i, _) => i + 1 | None => offset end in
  if max =? expected then Ok tt else Err (BalInvalid (BalIndexMismatch "max" expected max)).

(** ** With an access list *)

(** [execute_workers]: one worker per transaction.  The outputs are collected in the
    order of the transactions, so that sorting them by their index changes nothing. *)
Fixpoint execute_workers (l : list (Z * (Tx * Address))) : prog ValSig (result (list (Z * (Tx * Address) * TxResult)) BalExecutorError) :=
  match l with
  | [] => Ret (Ok [])
  | (i, tx) :: l =>
      do? _ <- val_try (fun e => BalOther ("failed to create worker state provider: " ++ e)%string) (val (StateByBlockHash (ve_parent_hash env)));
      do? r <- val_try exec_err (val (ExecuteWorker i tx));
      do? rs <- execute_workers l;
      Ret (Ok ((i, tx, r) :: rs))
  end.

Definition tip_fee (tx : Tx * Address) (gas : Z) : result Z BalExecutorError :=
  if is_deposit (fst tx) then Ok 0
  else match effective_tip_per_gas (fst tx) (ve_basefee env) with
       | None => Err BalPanicked
       | Some tip => Ok (gas * tip)
       end.

(** The checks before a transaction is committed; the workers start from an empty block. *)
Definition admissible (evm_gas_used da_footprint_used : Z) (tx : Tx * Address) (r : TxResult) : result unit BalExecutorError :=
  let available := saturating_sub (ve_gas_limit env) evm_gas_used in
  if (ve_is_regolith env || negb (tr_is_deposit r)) && (available <? gas_limit (fst tx)) then
    Err (BlockExecutionError (TransactionGasLimitMoreThanAvailableBlockGas (gas_limit (fst tx)) available))
  else
    let available_da := saturating_sub (ve_gas_limit env) da_footprint_used in
    if ve_is_jovian env && negb (tr_is_deposit r) && negb (tr_is_post_exec r) && (available_da <? tr_blob_gas_used r) then
      Err (BlockExecutionError (TransactionDaFootprintAboveGasLimit (tr_blob_gas_used r) available_da))
    else Ok tt.

(** The loop that commits the outputs of the workers in their order *)
Fixpoint commit_outputs (l : list (Z * (Tx * Address) * TxResult)) (evm_gas_used da_footprint_used fees : Z)
    : prog ValSig (result Z BalExecutorError) :=
  match l with
  | [] => Ret (Ok fees)
  | (i, tx, r) :: l =>
      do? _ <- Ret (admissible evm_gas_used da_footprint_used tx r);
      do _ <- val (SetBalIndex i);
      do? _ <- (if is_deposit (fst tx) then Ret (Ok tt) else record_op_l1_block_bal_reads);
      do g <- val (CommitTransaction r);
      do? fee <- Ret (tip_fee tx (tx_gas_used g));
      commit_outputs l (ex_evm_gas_used g) (ex_da_footprint_used g) (fees + fee)
  end.

(** What both strategies hand out *)
Definition built_payload (id : PayloadId) (block : Block Tx) (fees : Z) (transactions : list (Tx * Address))
    (r : ExecutionResult) (bundle : Bundle) : Built :=
  {| op_id := id; op_block := block; op_fees := fees;
     op_executed := Some {| xc_transactions := transactions; xc_gas_used := er_gas_used r; xc_blob_gas_used := er_blob_gas_used r;
                            xc_bundle := bundle; xc_receipts := er_receipts r |} |}.

Definition start_executor (cs : CommittedState) : prog ValSig unit :=
  val (StartExecutor (cm_gas_used cs) (cm_evm_gas_used cs) (cm_blob_gas_used cs) (snd <$> cm_receipts cs)
    (cache_prestate_from_bundle (cm_bundle cs))).

(** The checks of the finished block against the announced one *)
Definition check_block (block : Block Tx) (diff : ExecutionPayloadFlashblockDeltaV1) (received computed : FlashblockAccessList)
    : result unit BalExecutorError :=
  if negb (bl_receipts_root block =? fd_receipts_root diff) then
    Err (BalInvalid (ReceiptsRootMismatch (fd_receipts_root diff) (bl_receipts_root block)))
  else if negb (bl_state_root block =? fd_state_root diff) then
    Err (BalInvalid (StateRootMismatch (fd_state_root diff) (bl_state_root block)))
  else if negb (bl_hash block =? fd_block_hash diff) then
    Err (BalInvalid (BalHashMismatch (fd_block_hash diff) (bl_hash block) received computed))
  else Ok tt.

Definition flatten_bundle (b : Bundle) : Bundle :=
  {| bs_state := bs_state b; bs_contracts := bs_contracts b; bs_reverts := flatten_reverts order (bs_reverts b) |}.

(** The end of [execute_block]: the recorded access list, the bundle, the root and the
    block *)
Definition finish_block (diff : ExecutionPayloadFlashblockDeltaV1) (cs : CommittedState) (id : PayloadId)
    (data : FlashblockAccessListData) (outputs : list (Z * (Tx * Address) * TxResult)) (fees : Z)
    : prog ValSig (result Built BalExecutorError) :=
  let al := access_list data in
  let expected := access_list_hash data in
  do _ <- val (SetBalIndex (max_tx_index al));
  do? result <- val_try exec_err (val FinishExecutor);
  do built <- val TakeBuiltBal;
  do? computed_changes <- Ret (ok_or built (exec_err "missing BAL builder state"%string));
  let computed := {| changes := computed_changes; min_tx_index := min_tx_index al; max_tx_index := max_tx_index al |} in
  let computed_hash := hash_of keccak256 rlp_access_list computed in
  if negb (computed_hash =? expected) then Ret (Err (BalInvalid (BalHashMismatch expected computed_hash al computed)))
  else
    do next <- val TakeBundle;
    let bundle := extend_flashblock_bundle order extend (cm_bundle cs) (flatten_bundle next) in
    do? root <- val_try exec_err (val FinishStateRoot);
    let all := (snd <$> cm_transactions cs) ++ ((fun o => snd (fst o)) <$> outputs) in
    do? block <- val_try exec_err (val (AssembleBlock all result bundle (fst root)));
    do? _ <- Ret (check_block block diff al computed);
    Ret (Ok (built_payload id block (cm_fees cs + fees) all result bundle)).

(** [BalBlockValidator::execute_block] *)
Definition execute_block (diff : ExecutionPayloadFlashblockDeltaV1) (cs : CommittedState) (id : PayloadId)
    : prog ValSig (result Built BalExecutorError) :=
  do? data <- Ret (ok_or (fd_access_list_data diff) (BalInvalid MissingAccessListData));
  let al := access_list data in
  let expected := access_list_hash data in
  let received_hash := hash_of keccak256 rlp_access_list al in
  if negb (received_hash =? expected) then Ret (Err (BalInvalid (ReceivedBalHashMismatch expected received_hash)))
  else
    let offset := Z.of_nat (length (cm_transactions cs)) + 1 in
    do? _ <- Ret (validate_min_tx_index (min_tx_index al) offset cs);
    do? transactions <- Ret (decode_transactions_with_indices (fd_transactions diff) offset);
    do? _ <- Ret (validate_max_tx_index (max_tx_index al) offset transactions);
    do? _ <- val_try BalOther (val (BalTryFrom (changes al)));
    do? _ <- val_try BalOther (val (StateByBlockHash (ve_parent_hash env)));
    do? predicted <- Ret (map_err BalOther (into_hashed_post_state keccak256 is_empty storage_post_states basic_account
      (changes al) (from_bundle_state (cm_bundle cs))));
    do? _ <- val_try exec_err (val (PrepareStateRoot (ve_parent_hash env) predicted));
    do _ <- val (SetBalIndex (min_tx_index al));
    do _ <- start_executor cs;
    do? _ <- (if is_first cs then do _ <- val (SetBalIndex 0); val_try exec_err (val ApplyPreExecutionChanges) else Ret (Ok tt));
    do? outputs <- execute_workers transactions;
    do? fees <- commit_outputs outputs (cm_evm_gas_used cs) (cm_blob_gas_used cs) 0;
    finish_block diff cs id data outputs fees.

(** ** Without an access list *)

Fixpoint execute_serially (l : list (Z * (Tx * Address))) (done : list (Tx * Address)) (fees : Z)
    : prog ValSig (result (list (Tx * Address) * Z) BalExecutorError) :=
  match l with
  | [] => Ret (Ok (done, fees))
  | (_, tx) :: l =>
      do? gas <- val_try exec_err (val (ExecuteTransaction tx));
      match gas with
      | None => execute_serially l done fees
      | Some gas => do? fee <- Ret (tip_fee tx gas); execute_serially l (done ++ [tx]) (fees + fee)
      end
  end.

(** [FlashblocksLegacyExecutionStrategy::execute] *)
Definition execute_legacy (diff : ExecutionPayloadFlashblockDeltaV1) (cs : CommittedState) (id : PayloadId)
    : prog ValSig (result Built BalExecutorError) :=
  do? _ <- val_try BalOther (val (StateByBlockHash (ve_parent_hash env)));
  do _ <- start_executor cs;
  do? _ <- (if is_first cs then val_try exec_err (val ApplyPreExecutionChanges) else Ret (Ok tt));
  do? transactions <- Ret (decode_transactions_with_indices (fd_transactions diff) (Z.of_nat (length (cm_transactions cs))));
  do? executed <- execute_serially transactions (snd <$> cm_transactions cs) 0;
  let '(all, fees) := executed in
  do? _ <- val_try BalOther (val (StateByBlockHash (ve_parent_hash env)));
  do? result <- val_try exec_err (val FinishExecutor);
  do next <- val TakeBundle;
  let bundle := extend_flashblock_bundle order extend (cm_bundle cs) next in
  do? _ <- val_try exec_err (val (PrepareStateRoot (ve_parent_hash env) (from_bundle_state bundle)));
  do? root <- val_try exec_err (val FinishStateRoot);
  do? block <- val_try exec_err (val (AssembleBlock all result bundle (fst root)));
  Ret (Ok (built_payload id block (cm_fees cs + fees) all result bundle)).

(** ** The validator *)

(** [validate_payload] *)
Definition validate_payload (block : Block Tx) (diff : ExecutionPayloadFlashblockDeltaV1) : result unit BalExecutorError :=
  if negb (bl_hash block =? fd_block_hash diff) then Err (BalOther "Block hash mismatch"%string) else Ok tt.

(** [validate_flashblock_with_state], with the strategy that the coordinator picks *)
Definition validate_flashblock_with_state (diff : ExecutionPayloadFlashblockDeltaV1) (id : PayloadId) (state : option Built)
    : prog ValSig (result Built BalExecutorError) :=
  do? cs <- Ret (committed_state state);
  do? next <- (match fd_access_list_data diff with
               | Some _ => execute_block diff cs id
               | None => execute_legacy diff cs id
               end);
  do? _ <- Ret (ok_or (op_executed next) MissingExecutedBlock);
  do? _ <- Ret (validate_payload (op_block next) diff);
  Ret (Ok next).

(** ** What acceptance means *)

Lemma collect_results_fmap {A B E X} (f : A -> result B E) (g : B -> X) (h : A -> X) l bs :
  (forall a b, f a = Ok b -> g b = h a) -> collect_results f l = Ok bs -> g <$> bs = h <$> l.
Proof.
  intros Hf. revert bs. induction l as [|a l IH]; intros bs; cbn; [by intros [= <-]|].
  intros (b & Hb & (bs' & Hbs & [= <-])%rbind_Ok)%rbind_Ok. cbn. by rewrite (Hf _ _ Hb), (IH _ Hbs).
Qed.

(** Stepping through a fallible program *)
Ltac step_ret e := apply wp_try; cbn [wp]; destruct e eqn:?; [|done].
Ltac step_call r := apply wp_try; unfold val_try, val; cbn [bind wp reply ValSig map_err]; intros [r|?]; [|done]; cbn [map_err].

Lemma workers_outputs l : wp (execute_workers l) (fun _ r => match r with Ok outs => fst <$> outs = l | Err _ => True end).
Proof.
  induction l as [|[i tx] l IH]; [done|]. cbn [execute_workers]. step_call u. step_call r. apply wp_try. eapply wp_mono; [exact IH|]. intros t [outs|e]; [|done].
  by intros <-.
Qed.

Ltac in_trace := cbn [app];
  repeat first [apply list_elem_of_here | apply list_elem_of_further | apply elem_of_app; right].

(** The block that was assembled, and from what *)
Record assembled (tr : list (event ValSig)) (id : PayloadId) (p : Built) (x : Executed Tx Bundle Receipt) (root : B256) : Prop := {
  as_id : op_id p = id;
  as_executed : op_executed p = Some x;
  as_block : exists r, ev (S := ValSig) (AssembleBlock (xc_transactions x) r (xc_bundle x) root) (Ok (op_block p)) ∈ tr
}.

Definition accepted_bal (diff : ExecutionPayloadFlashblockDeltaV1) (cs : CommittedState) (id : PayloadId)
    (data : FlashblockAccessListData) (tr : list (event ValSig)) (p : Built) : Prop :=
  exists x root hashed transactions computed predicted,
    assembled tr id p x root /\
    hash_of keccak256 rlp_access_list (access_list data) = access_list_hash data /\
    decode_transactions_with_indices (fd_transactions diff) (Z.of_nat (length (cm_transactions cs)) + 1) = Ok transactions /\
    xc_transactions x = (snd <$> cm_transactions cs) ++ (snd <$> transactions) /\
    ev (S := ValSig) TakeBuiltBal (Some computed) ∈ tr /\
    hash_of keccak256 rlp_access_list {| changes := computed; min_tx_index := min_tx_index (access_list data);
      max_tx_index := max_tx_index (access_list data) |} = access_list_hash data /\
    into_hashed_post_state keccak256 is_empty storage_post_states basic_account (changes (access_list data))
      (from_bundle_state (cm_bundle cs)) = Ok predicted /\
    ev (S := ValSig) (PrepareStateRoot (ve_parent_hash env) predicted) (Ok tt) ∈ tr /\
    ev (S := ValSig) FinishStateRoot (Ok (root, hashed)) ∈ tr /\
    bl_state_root (op_block p) = fd_state_root diff /\ bl_receipts_root (op_block p) = fd_receipts_root diff /\
    bl_hash (op_block p) = fd_block_hash diff.

Lemma check_block_Ok block diff al al' :
  check_block block diff al al' = Ok tt <->
  bl_receipts_root block = fd_receipts_root diff /\ bl_state_root block = fd_state_root diff /\ bl_hash block = fd_block_hash diff.
Proof.
  unfold check_block.
  destruct (Z.eqb_spec (bl_receipts_root block) (fd_receipts_root diff)); [|split; [done|by intros (? & _)]].
  destruct (Z.eqb_spec (bl_state_root block) (fd_state_root diff)); [|split; [done|by intros (_ & ? & _)]].
  destruct (Z.eqb_spec (bl_hash block) (fd_block_hash diff)); [done|split; [done|by intros (_ & _ & ?)]].
Qed.

Lemma execute_block_accepts diff cs id data :
  fd_access_list_data diff = Some data ->
  wp (execute_block diff cs id) (fun tr r => match r with Ok p => accepted_bal diff cs id data tr p | Err _ => True end).
Proof.
  intros Hd. unfold execute_block. rewrite Hd. apply wp_try. cbn [wp ok_or].
  destruct (Z.eqb_spec (hash_of keccak256 rlp_access_list (access_list data)) (access_list_hash data)) as [Hh|]; [|done]. cbn [negb].
  step_ret (validate_min_tx_index (min_tx_index (access_list data)) (Z.of_nat (length (cm_transactions cs)) + 1) cs).
  step_ret (decode_transactions_with_indices (fd_transactions diff) (Z.of_nat (length (cm_transactions cs)) + 1)).
  step_ret (validate_max_tx_index (max_tx_index (access_list data)) (Z.of_nat (length (cm_transactions cs)) + 1) a0).
  step_call u1. step_call u2.
  apply wp_try. cbn [wp]. destruct (into_hashed_post_state _ _ _ _ _ _) as [predicted|] eqn:Hpre; [|done]. cbn [map_err].
  step_call u3. intros [] []. 
  apply wp_try. eapply (wp_mono _ (fun _ _ => True)).
  { destruct (is_first cs); [|done]. intros [] r. done. }
  intros t1 [?|?] _; [|done]. apply wp_try. eapply wp_mono; [apply workers_outputs|]. intros t2 [outs|?]; [|done]. intros Hout.
  apply wp_try. apply (wp_mono _ (fun _ _ => True)); [by apply wp_runs|]. intros t3 [fees|?] _; [|done]. unfold finish_block. intros []. cbn [bind].
  step_call res. intros [computed|]; [|done]. cbn [bind]. apply wp_try. cbn [wp ok_or].
  match goal with |- context [negb (?x =? ?y)] => destruct (Z.eqb_spec x y) as [Hc|]; [|done] end. cbn [negb].
  intros next. cbn [bind]. step_call root. step_call blk.
  apply wp_try. cbn [wp]. destruct (check_block _ _ _ _) as [[]|] eqn:Hcb; [|done]. apply check_block_Ok in Hcb as (Hr & Hs & Hb).
  destruct root as [root hashed]. cbn [wp fst].
  eexists _, root, hashed, _, computed, predicted. refine (conj _ (conj Hh (conj _ _))); [split; [done|done|]| |].
  - eexists. cbn [xc_transactions xc_bundle]. in_trace.
  - eassumption.
  - split; [|split; [|split; [exact Hc|split; [exact Hpre|split; [|split; [|done]]]]]].
    + cbn [xc_transactions]. f_equal. rewrite <- Hout, <- list_fmap_compose. done.
    + in_trace.
    + destruct u3. in_trace.
    + in_trace.
Qed.

Lemma execute_legacy_executed diff cs id :
  wp (execute_legacy diff cs id) (fun tr r => match r with Ok p => exists x root, assembled tr id p x root | Err _ => True end).
Proof.
  unfold execute_legacy. step_call u1. intros []. cbn [bind].
  apply wp_try. apply (wp_mono _ (fun _ _ => True)); [by apply wp_runs|]. intros t1 [?|?] _; [|done].
  step_ret (decode_transactions_with_indices (fd_transactions diff) (Z.of_nat (length (cm_transactions cs)))).
  apply wp_try. apply (wp_mono _ (fun _ _ => True)); [by apply wp_runs|]. intros t2 [[all fees]|?] _; [|done].
  step_call u2. step_call res. intros next. cbn [bind]. step_call u3. step_call root. step_call blk. cbn [wp].
  eexists _, (fst root). split; [done|done|]. eexists. cbn [xc_transactions xc_bundle]. in_trace.
Qed.

Lemma validated_flashblock diff id state tr p :
  runs (validate_flashblock_with_state diff id state) tr (Ok p) ->
  op_id p = id /\ bl_hash (op_block p) = fd_block_hash diff /\
  exists cs, committed_state state = Ok cs /\
    match fd_access_list_data diff with
    | Some data => accepted_bal diff cs id data tr p
    | None => exists x root, assembled tr id p x root
    end.
Proof.
  intros Hr. cut (wp (validate_flashblock_with_state diff id state) (fun tr r => match r with
    | Ok p => bl_hash (op_block p) = fd_block_hash diff /\ exists cs, committed_state state = Ok cs /\
        match fd_access_list_data diff with
        | Some data => accepted_bal diff cs id data tr p
        | None => exists x root, assembled tr id p x root
        end
    | Err _ => True end)).
  { intros H. destruct (proj1 (wp_runs _ _) H _ _ Hr) as (Hh & cs & Hc & Hm). split; [|split; [done|by exists cs]].
    destruct (fd_access_list_data diff); [destruct Hm as (x & root & ? & ? & ? & ? & Ha & _)|destruct Hm as (x & root & Ha)];
      by apply Ha. }
  unfold validate_flashblock_with_state. step_ret (committed_state state). apply wp_try.
  eapply (wp_mono _ (fun t r => match r with Ok p => match fd_access_list_data diff with
    | Some data => accepted_bal diff a id data t p | None => exists x root, assembled t id p x root end | Err _ => True end)).
  { destruct (fd_access_list_data diff) eqn:Hd; [by apply execute_block_accepts|apply execute_legacy_executed]. }
  intros t [q|]; [|done]. intros Hq. step_ret (ok_or (op_executed q) MissingExecutedBlock).
  unfold validate_payload. destruct (Z.eqb_spec (bl_hash (op_block q)) (fd_block_hash diff)) as [Hb|]; [|done]. cbn.
  split; [exact Hb|]. exists a. split; [done|]. by rewrite app_nil_r.
Qed.


(** ** Gas *)

Definition commit_of (e : event ValSig) : option GasOutput :=
  match e with existT (CommitTransaction _) g => Some g | _ => None end.
Definition commits (tr : list (event ValSig)) : list GasOutput := omap commit_of tr.

(** What the executor documents of its counters: a transaction adds no more than its
    gas limit to the one, and no more than its footprint to the other. *)
Fixpoint spends (evm da : Z) (l : list (Z * (Tx * Address) * TxResult)) (gs : list GasOutput) : Prop :=
  match l, gs with
  | (_, tx, r) :: l, g :: gs =>
      ex_evm_gas_used g <= evm + gas_limit (fst tx) /\
      ex_da_footprint_used g <= da + (if tr_is_deposit r || tr_is_post_exec r then 0 else tr_blob_gas_used r) /\
      spends (ex_evm_gas_used g) (ex_da_footprint_used g) l gs
  | _, _ => True
  end.

Lemma admissible_Ok evm da tx r :
  admissible evm da tx r = Ok tt ->
  (ve_is_regolith env || negb (tr_is_deposit r) = true -> gas_limit (fst tx) <= Z.max (ve_gas_limit env - evm) 0) /\
  (ve_is_jovian env && negb (tr_is_deposit r) && negb (tr_is_post_exec r) = true ->
     tr_blob_gas_used r <= Z.max (ve_gas_limit env - da) 0).
Proof.
  unfold admissible, saturating_sub. destruct (ve_is_regolith env || negb (tr_is_deposit r)); cbn [andb].
  - destruct (Z.ltb_spec (Z.max (ve_gas_limit env - evm) 0) (gas_limit (fst tx))); [done|].
    destruct (ve_is_jovian env && negb (tr_is_deposit r) && negb (tr_is_post_exec r)); cbn [andb]; [|done].
    destruct (Z.ltb_spec (Z.max (ve_gas_limit env - da) 0) (tr_blob_gas_used r)); [done|]. done.
  - destruct (ve_is_jovian env && negb (tr_is_deposit r) && negb (tr_is_post_exec r)); cbn [andb]; [|done].
    destruct (Z.ltb_spec (Z.max (ve_gas_limit env - da) 0) (tr_blob_gas_used r)); [done|]. done.
Qed.

Lemma commit_outputs_bounded l : forall evm da fees,
  ve_is_regolith env = true -> ve_is_jovian env = true ->
  wp (commit_outputs l evm da fees) (fun tr r => match r with
    | Ok _ => length (commits tr) = length l /\
        (evm <= ve_gas_limit env -> da <= ve_gas_limit env -> spends evm da l (commits tr) ->
         Forall (fun g => ex_evm_gas_used g <= ve_gas_limit env /\ ex_da_footprint_used g <= ve_gas_limit env) (commits tr))
    | Err _ => True end).
Proof.
  induction l as [|[[i tx] r] l IH]; intros evm da fees Hr Hj; cbn [commit_outputs].
  { split; [done|]. constructor. }
  apply wp_try. cbn [wp]. destruct (admissible evm da tx r) as [[]|] eqn:Ha; [|done]. apply admissible_Ok in Ha as [Hgas Hda].
  rewrite Hr in Hgas. specialize (Hgas eq_refl). rewrite Hj in Hda. cbn [andb] in Hda.
  intros []. cbn [bind]. apply wp_try.
  apply (wp_mono _ (fun t _ => commits t = [])).
  { destruct (is_deposit (fst tx)); [done|]. by intros []. }
  intros t [?|?] Ht; [|done]. intros g. cbn [bind]. apply wp_try. cbn [wp].
  destruct (tip_fee tx (tx_gas_used g)) as [fee|]; [|done].
  eapply wp_mono; [by apply IH|]. intros t' [?|?]; [|done]. cbn [app]. unfold commits in *. cbn. rewrite omap_app. cbn.
  rewrite Ht. cbn. intros [-> Hf]. split; [done|]. intros He Hd (Hs1 & Hs2 & Hs).
  assert (ex_evm_gas_used g <= ve_gas_limit env) by lia.
  assert (ex_da_footprint_used g <= ve_gas_limit env).
  { destruct (tr_is_deposit r), (tr_is_post_exec r); cbn in *; lia. }
  constructor; [done|]. by apply Hf.
Qed.

(** C28: The validator never commits a block over its limits: although the workers execute
    every transaction as if it were alone in the block, no commit takes the gas or the
    data footprint of the block beyond the gas limit. *)
Theorem commits_within_limits l evm da fees tr total :
  runs (commit_outputs l evm da fees) tr (Ok total) -> ve_is_regolith env = true -> ve_is_jovian env = true ->
  evm <= ve_gas_limit env -> da <= ve_gas_limit env -> spends evm da l (commits tr) ->
  length (commits tr) = length l /\
  Forall (fun g => ex_evm_gas_used g <= ve_gas_limit env /\ ex_da_footprint_used g <= ve_gas_limit env) (commits tr).
Proof.
  intros Hr Hreg Hj He Hd Hs. destruct (proj1 (wp_runs _ _) (commit_outputs_bounded l evm da fees Hreg Hj) _ _ Hr) as [Hl Hf].
  split; [done|]. by apply Hf.
Qed.

(** ** The builder's side of the indices *)

Record BalBlockBuilder := { bb_transactions : list (Tx * Address); bb_counter : BlockAccessIndexCounter }.

(** [BalBlockBuilder::new] *)
Definition bal_builder_new (transactions : list (Tx * Address)) : prog ValSig BalBlockBuilder :=
  let start := match transactions with [] => 0 | _ => Z.of_nat (length transactions) + 1 end in
  do _ <- val (SetBalIndex start);
  Ret {| bb_transactions := transactions; bb_counter := counter_new start |}.

(** [prepare_database] *)
Definition prepare_database (b : BalBlockBuilder) : prog ValSig BalBlockBuilder :=
  let c := counter_inc (bb_counter b) in
  do _ <- val (SetBalIndex (current_index c));
  Ret {| bb_transactions := bb_transactions b; bb_counter := c |}.

(** [apply_pre_execution_changes] *)
Definition bal_apply_pre_execution_changes (b : BalBlockBuilder) : prog ValSig (result BalBlockBuilder BalExecutorError) :=
  do? _ <- val_try exec_err (val ApplyPreExecutionChanges);
  do b <- prepare_database b; Ret (Ok b).

(** [execute_transaction_with_commit_condition] *)
Definition bal_execute_transaction (b : BalBlockBuilder) (tx : Tx * Address) : prog ValSig (result BalBlockBuilder BalExecutorError) :=
  do? gas <- val_try exec_err (val (ExecuteTransaction tx));
  match gas with
  | None => Ret (Ok b)
  | Some _ =>
      do? _ <- (if is_deposit (fst tx) then Ret (Ok tt) else record_op_l1_block_bal_reads);
      do b <- prepare_database {| bb_transactions := bb_transactions b ++ [tx]; bb_counter := bb_counter b |};
      Ret (Ok b)
  end.

(** A build: the pre-execution changes of a first flashblock, then the transactions *)
Fixpoint bal_execute_all (l : list (Tx * Address)) (b : BalBlockBuilder) : prog ValSig (result BalBlockBuilder BalExecutorError) :=
  match l with
  | [] => Ret (Ok b)
  | tx :: l => do? b <- bal_execute_transaction b tx; bal_execute_all l b
  end.
Definition bal_build (cs : CommittedState) (l : list (Tx * Address)) : prog ValSig (result BalBlockBuilder BalExecutorError) :=
  do b <- bal_builder_new (snd <$> cm_transactions cs);
  do? b <- (if is_first cs then bal_apply_pre_execution_changes b else Ret (Ok b));
  bal_execute_all l b.

(** The index under which each transaction that was kept was executed *)
Fixpoint executed_at (current : Z) (tr : list (event ValSig)) : list (Z * (Tx * Address)) :=
  match tr with
  | [] => []
  | existT (SetBalIndex i) _ :: tr => executed_at i tr
  | existT (ExecuteTransaction tx) (Ok (Some _)) :: tr => (current, tx) :: executed_at current tr
  | _ :: tr => executed_at current tr
  end.
Definition numbered {A} (start : Z) (l : list A) : list (Z * A) := imap (fun i a => (start + Z.of_nat i, a)) l.

Lemma numbered_cons {A} start (a : A) l : numbered start (a :: l) = (start, a) :: numbered (start + 1) l.
Proof.
  unfold numbered. cbn. f_equal; [f_equal; lia|]. apply imap_ext. intros i x _. cbn. f_equal. lia.
Qed.

Lemma numbered_last {A} start (l : list A) : last (numbered start l) = (fun a => (start + Z.of_nat (length l) - 1, a)) <$> last l.
Proof.
  induction l as [|a l _] using rev_ind; [done|]. unfold numbered. rewrite imap_app. cbn. rewrite !last_snoc. cbn.
  rewrite length_app. cbn. repeat f_equal. lia.
Qed.

(** Executing transactions: what is kept is numbered from the current index on. *)
Definition built_from (b : BalBlockBuilder) (tr : list (event ValSig)) (b' : BalBlockBuilder) : Prop :=
  exists added, bb_transactions b' = bb_transactions b ++ added /\
    bb_counter b' = {| current_index := current_index (bb_counter b) + Z.of_nat (length added); start_index := start_index (bb_counter b) |} /\
    forall rest, executed_at (current_index (bb_counter b)) (tr ++ rest) =
      numbered (current_index (bb_counter b)) added ++ executed_at (current_index (bb_counter b')) rest.

Lemma bal_execute_transaction_built b tx :
  wp (bal_execute_transaction b tx) (fun tr r => match r with Ok b' => built_from b tr b' | Err _ => True end).
Proof.
  unfold bal_execute_transaction. step_call gas. destruct gas as [gas|].
  - apply wp_try. apply (wp_mono _ (fun t _ => forall c rest, executed_at c (t ++ rest) = executed_at c rest)).
    { destruct (is_deposit (fst tx)); [done|]. by intros []. }
    intros t [?|?] Ht; [|done]. intros []. exists [tx]. cbn [bb_transactions bb_counter counter_inc length]. split; [done|].
    split; [f_equal; lia|]. intros rest. cbn [app executed_at]. rewrite <- app_assoc, Ht. unfold numbered. cbn. do 2 f_equal. lia.
  - exists []. cbn. rewrite app_nil_r, Z.add_0_r. split; [done|]. split; [by destruct (bb_counter b)|done].
Qed.

Lemma built_from_trans b tr b' tr' b'' : built_from b tr b' -> built_from b' tr' b'' -> built_from b (tr ++ tr') b''.
Proof.
  intros (x & Hx & Hc & He) (y & Hy & Hc' & He'). exists (x ++ y). rewrite Hy, Hx, <- app_assoc. split; [done|].
  rewrite Hc', Hc. cbn. split; [rewrite length_app; f_equal; lia|]. intros rest. rewrite <- app_assoc, He, He', Hc', Hc. cbn.
  rewrite app_assoc. f_equal. unfold numbered. rewrite imap_app. f_equal. apply imap_ext. intros i a _. cbn. f_equal. lia.
Qed.

Lemma bal_execute_all_built l : forall b,
  wp (bal_execute_all l b) (fun tr r => match r with Ok b' => built_from b tr b' | Err _ => True end).
Proof.
  induction l as [|tx l IH]; intros b; cbn [bal_execute_all].
  { exists []. cbn. rewrite app_nil_r, Z.add_0_r. split; [done|]. split; [by destruct (bb_counter b)|done]. }
  apply wp_try. eapply wp_mono; [apply bal_execute_transaction_built|]. intros t [b'|]; [|done]. intros Hb.
  eapply wp_mono; [apply IH|]. intros t' [b''|]; [|done]. by apply built_from_trans.
Qed.

(** The whole build *)
Lemma bal_build_indices cs l :
  (is_first cs = true /\ cm_transactions cs = [] \/ is_first cs = false /\ cm_transactions cs <> []) ->
  wp (bal_build cs l) (fun tr r => match r with
    | Ok b => exists added, bb_transactions b = (snd <$> cm_transactions cs) ++ added /\
        executed_at 0 tr = numbered (Z.of_nat (length (cm_transactions cs)) + 1) added /\
        counter_finish (bb_counter b) =
          (if is_first cs then 0 else Z.of_nat (length (cm_transactions cs)) + 1,
           Z.of_nat (length (cm_transactions cs)) + 1 + Z.of_nat (length added))
    | Err _ => True end).
Proof.
  intros Hcs. unfold bal_build, bal_builder_new. intros []. cbn [bind]. apply wp_try. destruct Hcs as [[-> ->]|[-> Hne]].
  - unfold bal_apply_pre_execution_changes. step_call u. intros []. cbn [bind wp].
    eapply wp_mono; [apply bal_execute_all_built|]. intros t [b|]; [|done]. intros (added & Ht & Hc & He).
    exists added. split; [done|]. cbn in *. split; [|unfold counter_finish; rewrite Hc; cbn; f_equal; lia].
    specialize (He []). by rewrite !app_nil_r in He.
  - cbn [wp]. eapply wp_mono; [apply bal_execute_all_built|]. intros t [b|]; [|done]. intros (added & Ht & Hc & He).
    exists added. split; [done|]. cbn [bb_counter counter_new current_index start_index] in *.
    assert (match snd <$> cm_transactions cs with [] => 0 | _ => Z.of_nat (length (snd <$> cm_transactions cs)) + 1 end =
      Z.of_nat (length (cm_transactions cs)) + 1) as Hs.
    { rewrite length_fmap. by destruct (cm_transactions cs). }
    rewrite Hs in *. split; [|unfold counter_finish; by rewrite Hc]. specialize (He []). cbn in *. by rewrite !app_nil_r in He.
Qed.

Lemma decode_numbered (encoded_2718 : Tx -> bytes) l : forall start,
  Forall (fun x => decode_2718_canonical (encoded_2718 (fst x)) = Ok (fst x) /\ recover_signer (fst x) = Ok (snd x)) l ->
  decode_transactions_with_indices ((fun x => encoded_2718 (fst x)) <$> l) start = Ok (numbered start l).
Proof.
  unfold decode_transactions_with_indices.
  induction l as [|[tx a] l IH]; intros start H; [done|]. apply Forall_cons in H as [[Hd Hr] Hl]. cbn in Hd, Hr.
  rewrite fmap_cons. change (imap (fun i raw => (start + Z.of_nat i, raw))) with (numbered (A := bytes) start).
  rewrite !numbered_cons. cbn [collect_results decode_transaction fst].
  rewrite Hd. cbn [map_err rbind]. rewrite Hr. cbn [map_err rbind]. specialize (IH (start + 1) Hl). unfold numbered at 1. by rewrite IH.
Qed.

(** The builder and the validator count alike: the transactions that a build keeps are
    recorded in the access list under the index at which the validator executes them,
    and the bounds of the list are the ones that the validator asks for. *)
Theorem access_indices_agree (encoded_2718 : Tx -> bytes) state cs l tr b :
  committed_state state = Ok cs -> is_first cs = true \/ cm_transactions cs <> [] ->
  runs (bal_build cs l) tr (Ok b) ->
  Forall (fun x => decode_2718_canonical (encoded_2718 (fst x)) = Ok (fst x) /\ recover_signer (fst x) = Ok (snd x)) (bb_transactions b) ->
  exists added, bb_transactions b = (snd <$> cm_transactions cs) ++ added /\
    let offset := Z.of_nat (length (cm_transactions cs)) + 1 in
    decode_transactions_with_indices ((fun x => encoded_2718 (fst x)) <$> added) offset = Ok (executed_at 0 tr) /\
    validate_min_tx_index (fst (counter_finish (bb_counter b))) offset cs = Ok tt /\
    validate_max_tx_index (snd (counter_finish (bb_counter b))) offset (executed_at 0 tr) = Ok tt.
Proof.
  intros Hcs Hne Hr Hdec.
  assert (is_first cs = true /\ cm_transactions cs = [] \/ is_first cs = false /\ cm_transactions cs <> []) as Hc.
  { destruct state as [p|]; cbn in Hcs; [destruct (op_executed p); [|done]|]; injection Hcs as <-; cbn in *; [|by left].
    right. split; [done|]. by destruct Hne. }
  destruct (proj1 (wp_runs _ _) (bal_build_indices cs l Hc) _ _ Hr) as (added & Hb & He & Hf). exists added. split; [done|].
  rewrite Hb in Hdec. apply Forall_app in Hdec as [_ Hdec]. rewrite He, Hf. cbn [fst snd]. split; [by apply decode_numbered|].
  unfold validate_min_tx_index, validate_max_tx_index. rewrite numbered_last. split; [by rewrite Z.eqb_refl|].
  destruct added as [|x added] using rev_ind; cbn.
  - rewrite Z.add_0_r, Z.eqb_refl. done.
  - rewrite last_snoc. cbn. rewrite (proj2 (Z.eqb_eq _ _)) by lia. done.
Qed.
End validator.

(** ** Examples *)

Definition ex_env : ValidationEnv :=
  {| ve_parent_hash := 6; ve_basefee := 1; ve_gas_limit := 30; ve_is_jovian := true; ve_is_regolith := true |}.
Definition ex_list (l : FlashblockAccessList) : bytes := [min_tx_index l; max_tx_index l].
Definition ex_hashed : HashedPostState := {| accounts := ∅; storages := ∅ |}.
Definition ex_validate := validate_flashblock_with_state (Tx := bytes) (Receipt := unit) (Info := Z) (Code := unit)
  (fun b => Ok b) (fun tx => Ok (be_val tx)) (fun _ => []) (fun _ => 10) (fun _ => false) (fun _ _ => Some 1)
  be_val ex_list (fun _ => false) (fun _ => Ok None) (fun _ => []) (fun _ => ex_hashed) map_to_list (fun _ b => b) 9 [1] ex_env.
Definition ex_ValSig : Sig := ValSig (Tx := bytes) (Receipt := unit) (Info := Z) (Code := unit).

(** An executor that spends the limit of every transaction, and an assembler that hands
    out the block with the hash 60 *)
Definition ex_evm : handler ex_ValSig Z :=
  fun c used =>
    match c with
    | StateByBlockHash _ | BalTryFrom _ | PrepareStateRoot _ _ | ApplyPreExecutionChanges => (Ok tt, used)
    | FinishStateRoot => (Ok (61, ex_hashed), used)
    | SetBalIndex _ => (tt, used)
    | StartExecutor _ evm _ _ _ => (tt, evm)
    | ExecuteWorker _ _ => (Ok {| tr_is_deposit := false; tr_is_post_exec := false; tr_blob_gas_used := 10 |}, used)
    | ExecuteTransaction _ => (Ok (Some 10), used)
    | RecordReads _ _ => (true, used)
    | CommitTransaction _ => ({| tx_gas_used := 10; ex_evm_gas_used := used + 10; ex_da_footprint_used := used + 10 |}, used + 10)
    | FinishExecutor => (Ok {| er_receipts := []; er_gas_used := used; er_blob_gas_used := Some used |}, used)
    | TakeBuiltBal => (Some [], used)
    | TakeBundle => ({| bs_state := ∅; bs_contracts := ∅; bs_reverts := [] |}, used)
    | AssembleBlock txs _ _ _ => (Ok (ex_block (fst <$> txs) 60), used)
    end.

(** The first flashblock of a payload with two transactions *)
Definition ex_diff (n : Z) : ExecutionPayloadFlashblockDeltaV1 :=
  let al := {| changes := []; min_tx_index := 0; max_tx_index := n + 1 |} in
  {| fd_state_root := 61; fd_receipts_root := 62; fd_logs_bloom := []; fd_gas_used := 20; fd_block_hash := 60;
     fd_transactions := replicate (Z.to_nat n) [5]; fd_withdrawals := []; fd_withdrawals_root := 0;
     fd_access_list_data := Some {| access_list := al; access_list_hash := be_val (ex_list al) |} |}.


(** Three transactions fill the block; the fourth is refused. *)
Definition ex_outputs (n : nat) : list (Z * (bytes * Address) * TxResult) :=
  replicate n (1, ([5], 5), {| tr_is_deposit := false; tr_is_post_exec := false; tr_blob_gas_used := 10 |}).
Definition ex_commit (n : nat) : prog ex_ValSig _ := commit_outputs (Receipt := unit) (Info := Z) (Code := unit) (fun _ => 10) (fun _ => false) (fun _ _ => Some 1) 9 [1]
  ex_env (ex_outputs n) 0 0 0.

Lemma commits_within_limits_witness :
  value_of ex_evm (ex_commit 3) 0 = Ok 30 /\
  Forall (fun g => ex_evm_gas_used g <= 30 /\ ex_da_footprint_used g <= 30) (commits (trace_of ex_evm (ex_commit 3) 0)) /\
  value_of ex_evm (ex_commit 4) 0 = Err (BlockExecutionError (TransactionGasLimitMoreThanAvailableBlockGas 10 0)).
Proof.
  split; [vm_compute; reflexivity|]. split; [|vm_compute; reflexivity].
  apply (commits_within_limits (Receipt := unit) (Info := Z) (Code := unit) (fun _ : bytes => 10) (fun _ => false) (fun _ _ => Some 1) 9 [1] ex_env (ex_outputs 3) 0 0 0
    (trace_of ex_evm (ex_commit 3) 0) 30 (interp_runs ex_evm (ex_commit 3) 0)); [done|done|by vm_compute|by vm_compute|].
  vm_compute. repeat split; discriminate.
Defined.

Definition ex_committed (n : nat) : option (OpBuiltPayload bytes (BundleState Z unit) unit) :=
  Some {| op_id := [3]; op_block := ex_block [] 50; op_fees := 0;
          op_executed := Some {| xc_transactions := replicate n ([5], 5); xc_gas_used := 0; xc_blob_gas_used := None;
            xc_bundle := {| bs_state := ∅; bs_contracts := ∅; bs_reverts := [] |}; xc_receipts := [] |} |}.
Definition ex_state (n : nat) : CommittedState (Tx := bytes) (Receipt := unit) (Info := Z) (Code := unit) :=
  match committed_state (fun _ => []) (ex_committed n) with
  | Ok cs => cs
  | Err _ => {| is_first := true; cm_gas_used := 0; cm_evm_gas_used := 0; cm_blob_gas_used := 0; cm_fees := 0;
                cm_bundle := {| bs_state := ∅; bs_contracts := ∅; bs_reverts := [] |}; cm_receipts := []; cm_transactions := [] |}
  end.
Definition ex_build (n : nat) : prog ex_ValSig _ := bal_build (fun _ => false) 9 [1] (ex_state n) [([7], 7); ([8], 8)].

Lemma access_indices_agree_witness :
  executed_at 0 (trace_of ex_evm (ex_build 2) 0) = [(3, ([7], 7)); (4, ([8], 8))] /\
  exists b, value_of ex_evm (ex_build 2) 0 = Ok b /\
    validate_min_tx_index (fst (counter_finish (bb_counter b))) 3 (ex_state 2) = Ok tt.
Proof.
  split; [vm_compute; reflexivity|].
  assert (exists b, value_of ex_evm (ex_build 2) 0 = Ok b /\ bb_transactions b = [([5], 5); ([5], 5); ([7], 7); ([8], 8)]) as (b & Hb & Ht).
  { eexists. split; [vm_compute; reflexivity|]. reflexivity. }
  exists b. split; [exact Hb|].
  destruct (access_indices_agree (Receipt := unit) (Info := Z) (Code := unit) (fun x => Ok x) (fun tx => Ok (be_val tx)) (fun _ => []) (fun _ => false) 9 [1]
    (fun b : bytes => b) (ex_committed 2) (ex_state 2) [([7], 7); ([8], 8)] (trace_of ex_evm (ex_build 2) 0) b eq_refl) as (added & _ & _ & Hm & _).
  - right. by vm_compute.
  - rewrite <- Hb. exact (interp_runs ex_evm (ex_build 2) 0).
  - rewrite Ht. repeat constructor.
  - exact Hm.
Defined.

(** On top of a payload that has no transactions the two disagree: the builder counts
    from zero, the validator expects one. *)
Theorem empty_payload_indices_differ :
  exists b, value_of ex_evm (ex_build 0) 0 = Ok b /\ fst (counter_finish (bb_counter b)) = 0 /\
    validate_min_tx_index 0 1 (ex_state 0) = Err (BalInvalid (BalIndexMismatch "min" 1 0)).
Proof. eexists. split; [vm_compute; reflexivity|]. split; reflexivity. Qed.
