(* ===== verification/Coordinator.v ===== *)
(** * The coordinator of flashblock execution
    ([src/crates/validator/src/coordinator.rs])

    The coordinator holds the flashblocks of the current payload and the payload they
    execute to.  Flashblocks from the network are validated one at a time and then
    pushed; the node's own builds are pushed when they are published.  Every region
    under the lock is one definition on the state; [process_flashblock] is their
    composition with the validator. *)

From S2P Require Import Prelude Program Encoding ProofTypes AccessList Flashblocks Reverts P2pCodec PayloadJob Validator.

Section coordinator.
Context {Tx Receipt Info Code : Type} (C : Ed25519).
#[local] Abbreviation Bundle := (BundleState Info Code).
#[local] Abbreviation Built := (OpBuiltPayload Tx Bundle Receipt).

(** ** State *)

Record Coordinator := {
  co_flashblocks : list Flashblock;
  co_latest : option (Built * Z);
  co_events : bool
}.
Definition coordinator_new : Coordinator := {| co_flashblocks := flashblocks_default; co_latest := None; co_events := false |}.
Definition register_payload_events (co : Coordinator) : Coordinator :=
  {| co_flashblocks := co_flashblocks co; co_latest := co_latest co; co_events := true |}.
Definition set_latest (l : option (Built * Z)) (co : Coordinator) : Coordinator :=
  {| co_flashblocks := co_flashblocks co; co_latest := l; co_events := co_events co |}.
Definition set_flashblocks (l : list Flashblock) (co : Coordinator) : Coordinator :=
  {| co_flashblocks := l; co_latest := co_latest co; co_events := co_events co |}.

Inductive CoordinatorError :=
| CoFlashblocks (e : FlashblocksError)
| CoHeaderNotFound (hash : B256)
| CoProvider (message : string)
| CoEvmEnv (message : string)
| CoValidation (e : BalExecutorError)
| CoPublish (message : string)
| CoPanicked.

(** ** The regions under the lock *)

(** The first read: what is known already, and the base of the flashblock *)
Inductive CheckResult :=
| AlreadyProcessed (p : Built)
| CheckFailed (e : CoordinatorError)
| Checked (base : ExecutionPayloadBaseV1) (is_new : bool).
Definition check (co : Coordinator) (fb : Flashblock) : CheckResult :=
  let fresh :=
    match is_new_payload (co_flashblocks co) fb with
    | None => CheckFailed CoPanicked
    | Some (Err e) => CheckFailed (CoFlashblocks e)
    | Some (Ok is_new) =>
        match (if is_new : bool then fb_base fb else fbs_base (co_flashblocks co)) with
        | Some base => Checked base is_new
        | None => CheckFailed CoPanicked
        end
    end in
  match co_latest co with
  | Some (p, i) => if bool_decide (op_id p = fb_payload_id fb) && (fb_index fb <=? i) then AlreadyProcessed p else fresh
  | None => fresh
  end.

(** A new payload starts without a latest one. *)
Definition begin_epoch (is_new : bool) (co : Coordinator) : Coordinator := if is_new then set_latest None co else co.

(** The last write: the payload, then the flashblock *)
Definition commit (co : Coordinator) (fb : Flashblock) (p : Built) : result unit CoordinatorError * Coordinator :=
  let co := set_latest (Some (p, fb_index fb)) co in
  match push (co_flashblocks co) fb with
  | None => (Err CoPanicked, co)
  | Some (Err e) => (Err (CoFlashblocks e), co)
  | Some (Ok (l, _)) => (Ok tt, set_flashblocks l co)
  end.

(** [publish_built_payload], up to the network *)
Definition push_built (co : Coordinator) (fb : Flashblock) (p : Built) : result unit CoordinatorError * Coordinator :=
  match push (co_flashblocks co) fb with
  | None => (Err CoPanicked, co)
  | Some (Err e) => (Err (CoFlashblocks e), co)
  | Some (Ok (l, _)) => (Ok tt, set_latest (Some (p, fb_index fb)) (set_flashblocks l co))
  end.

(** [event_hook]: a canonical block clears a pending block that is not above it. *)
Definition event_hook (tip_hash tip_number : Z) (pending : option (Block Tx)) : option (Block Tx) :=
  match pending with
  | Some b => if (bl_hash b =? tip_hash) || (bl_number b <=? tip_number) then None else Some b
  | None => None
  end.

(** [resolve_pending]: whether it resolves on the broadcast payloads *)
Definition resolve_pending (hash : B256) (registered : bool) (broadcast : list Built) : bool :=
  registered && existsb (fun p => bl_hash (op_block p) =? hash) broadcast.

(** [CoordinatorSnapshot] *)
Definition snapshot (co : Coordinator) : list Flashblock * option (Built * Z) := (co_flashblocks co, co_latest co).

(** ** Calls *)

Inductive co_call :=
| SealedHeaderByHash (hash : B256)
| NextEvmEnv (base : ExecutionPayloadBaseV1)
| SendPending (p : option Built)
| BroadcastPayload (p : Built)
| PublishNew (a : Authorization C) (fb : Flashblock).
Definition CoSig : Sig := {|
  call := co_call;
  reply c := match c with
             | SealedHeaderByHash _ => result (option unit) string
             | NextEvmEnv _ => result ValidationEnv string
             | SendPending _ | BroadcastPayload _ => unit
             | PublishNew _ _ => result unit string
             end
|}.
Definition NodeSig : Sig := CoSig ⊕ ValSig (Tx := Tx) (Receipt := Receipt) (Info := Info) (Code := Code).
Definition node (c : co_call) : prog NodeSig (reply CoSig c) := lift (Call (S := CoSig) c Ret).

(** The validator of a flashblock in its environment *)
Context (validate : ValidationEnv -> ExecutionPayloadFlashblockDeltaV1 -> PayloadId -> option Built ->
  prog (ValSig (Tx := Tx) (Receipt := Receipt) (Info := Info) (Code := Code)) (result Built BalExecutorError)).

(** The executed block of a payload, if it has one *)
Definition executed_block (p : Built) : option Built := match op_executed p with Some _ => Some p | None => None end.

(** [process_flashblock]; the state is returned in every case. *)
Definition process_flashblock (co : Coordinator) (fb : Flashblock) : prog NodeSig (result unit CoordinatorError * Coordinator) :=
  match check co fb with
  | AlreadyProcessed p => do _ <- node (SendPending (executed_block p)); Ret (Ok tt, co)
  | CheckFailed e => Ret (Err e, co)
  | Checked base is_new =>
      let co := begin_epoch is_new co in
      let latest := fst <$> co_latest co in
      do header <- node (SealedHeaderByHash (pb_parent_hash base));
      match header with
      | Err e => Ret (Err (CoProvider e), co)
      | Ok None => Ret (Err (CoHeaderNotFound (pb_parent_hash base)), co)
      | Ok (Some _) =>
          do env <- node (NextEvmEnv base);
          match env with
          | Err e => Ret (Err (CoEvmEnv e), co)
          | Ok env =>
              do r <- lift (validate env (fb_diff fb) (fb_payload_id fb) latest);
              match r with
              | Err e => Ret (Err (CoValidation e), co)
              | Ok p =>
                  match commit co fb p with
                  | (Err e, co) => Ret (Err e, co)
                  | (Ok _, co) =>
                      do _ <- node (SendPending (executed_block p));
                      do _ <- (if co_events co then node (BroadcastPayload p) else Ret tt);
                      Ret (Ok tt, co)
                  end
              end
          end
      end
  end.

(** [publish_built_payload] *)
Definition publish_built_payload (co : Coordinator) (a : Authorization C) (fb : Flashblock) (p : Built)
    : prog NodeSig (result unit CoordinatorError * Coordinator) :=
  match push_built co fb p with
  | (Err e, co) => Ret (Err e, co)
  | (Ok _, co) => do r <- node (PublishNew a fb); Ret (map_err CoPublish r, co)
  end.

(** [run_flashblock_processor]: the permit lets one flashblock in at a time; an error is
    logged and the next flashblock processed. *)
Fixpoint run_flashblock_processor (co : Coordinator) (fbs : list Flashblock)
    : prog NodeSig (list (result unit CoordinatorError) * Coordinator) :=
  match fbs with
  | [] => Ret ([], co)
  | fb :: fbs =>
      do (r, co) <- process_flashblock co fb;
      do (rs, co) <- run_flashblock_processor co fbs;
      Ret (r :: rs, co)
  end.

(** ** The invariant

    The flashblocks are well formed, and the latest payload is what one of them
    announced. *)

Record co_ok (co : Coordinator) : Prop := {
  co_collection : flashblocks_ok (co_flashblocks co);
  co_latest_ok : forall p i, co_latest co = Some (p, i) ->
    exists k fb, co_flashblocks co !! k = Some fb /\ fb_index fb = i /\ fb_payload_id fb = op_id p /\
      fd_block_hash (fb_diff fb) = bl_hash (op_block p)
}.

Lemma push_Ok l fb l' reset :
  flashblocks_ok l -> push l fb = Some (Ok (l', reset)) ->
  flashblocks_ok l' /\ l' = (if reset then [fb] else l ++ [fb]) /\ exists k, l' !! k = Some fb.
Proof.
  intros Hl Hp. destruct (push_spec l fb Hl) as (r & Hr & H). rewrite Hp in Hr. injection Hr as <-. destruct H as (Hok & -> & _).
  split; [done|]. split; [done|]. destruct reset; [by exists 0%nat|]. exists (length l). by apply list_lookup_middle.
Qed.

Lemma push_built_ok co fb p r co' :
  co_ok co -> op_id p = fb_payload_id fb -> bl_hash (op_block p) = fd_block_hash (fb_diff fb) ->
  push_built co fb p = (r, co') -> co_ok co' /\ (r = Ok tt -> co_latest co' = Some (p, fb_index fb)).
Proof.
  intros [Hc Hl] Hid Hh. unfold push_built. destruct (push (co_flashblocks co) fb) as [[[l reset]|e]|] eqn:Hp; intros [= <- <-]; [|by split..].
  destruct (push_Ok _ _ _ _ Hc Hp) as (Hok & _ & k & Hk). split; [|done]. split; [done|]. intros q i [= <- <-].
  exists k, fb. by cbn.
Qed.

Lemma begin_epoch_ok co is_new : co_ok co -> co_ok (begin_epoch is_new co).
Proof. intros [Hc Hl]. destruct is_new; [|by split]. by split. Qed.

(** After a check on the same flashblocks, the push does not fail. *)
Lemma commit_after_check co fb base is_new p :
  co_ok co -> check co fb = Checked base is_new -> op_id p = fb_payload_id fb -> bl_hash (op_block p) = fd_block_hash (fb_diff fb) ->
  exists co', commit (begin_epoch is_new co) fb p = (Ok tt, co') /\ co_ok co' /\ co_latest co' = Some (p, fb_index fb) /\
    co_flashblocks co' = (if is_new then [fb] else co_flashblocks co ++ [fb]) /\ co_events co' = co_events co.
Proof.
  intros [Hc Hl] Hchk Hid Hh.
  assert (is_new_payload (co_flashblocks co) fb = Some (Ok is_new)) as Hn.
  { revert Hchk. unfold check. destruct (co_latest co) as [[q i]|]; [destruct (_ && _); [done|]|];
      destruct (is_new_payload (co_flashblocks co) fb) as [[b|e]|]; try done; destruct (if b then _ else _); try done; by intros [= -> ->]. }
  assert (co_flashblocks (begin_epoch is_new co) = co_flashblocks co) as Hf by (by destruct is_new).
  assert (push (co_flashblocks co) fb = Some (Ok ((if is_new then [] else co_flashblocks co) ++ [fb], is_new))) as Hp.
  { unfold push. by rewrite Hn. }
  unfold commit. cbn [co_flashblocks set_latest]. rewrite Hf, Hp. eexists. split; [done|].
  destruct (push_Ok _ _ _ _ Hc Hp) as (Hok & He & k & Hk). split; [|cbn; split_and!; [done|by rewrite He|by destruct is_new]].
  split; [done|]. intros q i [= <- <-]. exists k, fb. by cbn.
Qed.

(** What the coordinator relies on: a validated payload has the identity and the hash
    that the flashblock announced. *)
Class FlashblockValidator : Prop := {
  validator_sound env diff id st tr p :
    runs (validate env diff id st) tr (Ok p) -> op_id p = id /\ bl_hash (op_block p) = fd_block_hash diff
}.
Context {Hval : FlashblockValidator}.

(** The outcome of processing a flashblock: it was known, it was added with its payload,
    or nothing was added. *)
Definition processed (co : Coordinator) (fb : Flashblock) (r : result unit CoordinatorError) (co' : Coordinator) : Prop :=
  co_ok co' /\
  match r with
  | Ok _ =>
      (exists p, check co fb = AlreadyProcessed p /\ co' = co) \/
      exists base is_new p, check co fb = Checked base is_new /\
        co_flashblocks co' = (if is_new then [fb] else co_flashblocks co ++ [fb]) /\
        co_latest co' = Some (p, fb_index fb) /\ op_id p = fb_payload_id fb /\ bl_hash (op_block p) = fd_block_hash (fb_diff fb)
  | Err _ => co_flashblocks co' = co_flashblocks co /\ (co_latest co' = co_latest co \/ co_latest co' = None)
  end.

Lemma process_flashblock_spec co fb :
  co_ok co -> wp (process_flashblock co fb) (fun _ x => processed co fb (fst x) (snd x)).
Proof.
  intros Hco. unfold process_flashblock. destruct (check co fb) as [p|e|base is_new] eqn:Hchk.
  - intros []. split; [done|]. left. by exists p.
  - split; [done|]. split; [done|by left].
  - pose proof (begin_epoch_ok co is_new Hco) as Hb.
    assert (forall e, processed co fb (Err e) (begin_epoch is_new co)) as Herr.
    { intros e. split; [done|]. split; [by destruct is_new|]. destruct is_new; [by right|by left]. }
    intros [[u|]|e]; cbn [lift bind prj sub_inl sub_refl]; [|apply Herr|apply Herr].
    intros [env|e]; cbn [lift bind prj sub_inl sub_refl]; [|apply Herr]. apply wp_bind, wp_lift. intros tr0 tr [p|e] Hr _; [|apply Herr].
    destruct (validator_sound _ _ _ _ _ _ Hr) as [Hid Hh].
    destruct (commit_after_check co fb base is_new p Hco Hchk Hid Hh) as (co' & -> & Hok & Hl & Hf & _).
    assert (processed co fb (Ok tt) co') as Hfin. { split; [done|]. right. by exists base, is_new, p. }
    intros []. cbn [lift bind prj sub_inl sub_refl]. destruct (co_events co'); [intros []; exact Hfin|exact Hfin].
Qed.

(** ** Any sequence of operations *)

Inductive co_op := OpProcess (fb : Flashblock) | OpPublish (a : Authorization C) (fb : Flashblock) (p : Built).
Definition run_op (co : Coordinator) (op : co_op) : prog NodeSig (result unit CoordinatorError * Coordinator) :=
  match op with
  | OpProcess fb => process_flashblock co fb
  | OpPublish a fb p => publish_built_payload co a fb p
  end.
Fixpoint run_ops (co : Coordinator) (ops : list co_op) : prog NodeSig Coordinator :=
  match ops with
  | [] => Ret co
  | op :: ops => do (_, co) <- run_op co op; run_ops co ops
  end.

Lemma publish_built_payload_spec co a fb p :
  co_ok co -> op_id p = fb_payload_id fb -> bl_hash (op_block p) = fd_block_hash (fb_diff fb) ->
  wp (publish_built_payload co a fb p) (fun _ x => co_ok (snd x)).
Proof.
  intros Hco Hid Hh. unfold publish_built_payload. destruct (push_built co fb p) as [r co'] eqn:Hp.
  destruct (push_built_ok _ _ _ _ _ Hco Hid Hh Hp) as [Hok _]. destruct r; [by intros ?|done].
Qed.

Lemma run_ops_ok ops : forall co, co_ok co ->
  (forall a fb p, OpPublish a fb p ∈ ops -> op_id p = fb_payload_id fb /\ bl_hash (op_block p) = fd_block_hash (fb_diff fb)) ->
  wp (run_ops co ops) (fun _ co' => co_ok co').
Proof.
  induction ops as [|op ops IH]; intros co Hco Hops; [done|]. cbn [run_ops]. apply wp_bind.
  apply (wp_mono _ (fun _ x => co_ok (snd x))).
  - destruct op as [fb|a fb p]; cbn [run_op].
    + eapply wp_mono; [by apply process_flashblock_spec|]. by intros t x [H _].
    + apply publish_built_payload_spec; [done|apply (Hops a fb p)..]; set_solver.
  - intros t [r co'] Hco'. apply IH; [done|]. intros a fb p Hin. apply (Hops a). set_solver.
Qed.

(** C20: Whatever flashblocks arrive, whatever the node publishes itself and whatever fails
    on the way: as long as the operations do not overlap, the collection of flashblocks
    stays well formed, and the latest payload is the block that one of them announced,
    under its index. *)
Theorem coordinator_consistent ops co tr co' :
  co_ok co ->
  (forall a fb p, OpPublish a fb p ∈ ops -> op_id p = fb_payload_id fb /\ bl_hash (op_block p) = fd_block_hash (fb_diff fb)) ->
  runs (run_ops co ops) tr co' -> co_ok co'.
Proof. intros Hco Hops Hr. exact (proj1 (wp_runs _ _) (run_ops_ok ops co Hco Hops) _ _ Hr). Qed.

(** ** A receiver that follows a builder *)

Lemma check_next co l fb : co_ok co -> co_flashblocks co = l -> flashblocks_ok (l ++ [fb]) -> l <> [] ->
  (forall p i, co_latest co = Some (p, i) -> i < Z.of_nat (length l)) -> exists base, check co fb = Checked base false.
Proof.
  intros Hco Hl Hok Hne Hlat. pose proof (co_collection _ Hco) as Hc. rewrite Hl in Hc.
  assert (fb_index fb = Z.of_nat (length l)) as Hi.
  { apply (ok_index _ Hok (length l)). by apply list_lookup_middle. }
  assert (fbs_payload_id l = Some (fb_payload_id fb)) as Hid.
  { rewrite <- (ok_id _ Hok fb) by set_solver. by destruct l. }
  destruct (is_new_payload_spec l fb Hc) as (r & Hr & Hspec).
  assert (r = Ok false) as ->. { destruct r as [[]|]; [destruct Hspec; congruence|done|by destruct Hspec as [_ []]]. }
  destruct (ok_base _ Hc) as [base Hb]. exists base. unfold check. rewrite Hl, Hr, Hb.
  destruct (co_latest co) as [[p i]|] eqn:Hlt; [|done]. specialize (Hlat p i eq_refl).
  destruct (Z.leb_spec (fb_index fb) i); [lia|]. by rewrite andb_false_r.
Qed.

Lemma check_first co fb : co_ok co -> succeeds (co_flashblocks co) fb -> exists base, check co fb = Checked base true.
Proof.
  intros Hco Hs. pose proof (co_collection _ Hco) as Hc. destruct (is_new_payload_spec _ fb Hc) as (r & Hr & Hspec).
  destruct (Hs) as (Hid & Hi & base & current & Hb & _).
  assert (r = Ok true) as ->. { destruct r as [[]|]; [done|by destruct Hspec|by destruct Hspec as [[] _]]. }
  exists base. unfold check. rewrite Hr, Hb. destruct (co_latest co) as [[p i]|] eqn:Hlt; [|done].
  destruct (co_latest_ok _ Hco p i Hlt) as (k & fb' & Hk & _ & Hp & _).
  rewrite bool_decide_eq_false_2; [done|]. intros Heq. apply Hid.
  rewrite (ok_id _ Hc fb') by (by eapply list_elem_of_lookup_2). congruence.
Qed.

(** The pieces of a payload that follow those that were processed *)
Lemma follow_rest fbs : forall co l,
  co_ok co -> co_flashblocks co = l -> l <> [] -> flashblocks_ok (l ++ fbs) ->
  (exists q fb, co_latest co = Some (q, Z.of_nat (length l) - 1) /\ last l = Some fb /\ op_id q = fb_payload_id fb /\
     bl_hash (op_block q) = fd_block_hash (fb_diff fb)) ->
  wp (run_flashblock_processor co fbs) (fun _ x => Forall (fun r => r = Ok tt) (fst x) ->
    co_flashblocks (snd x) = l ++ fbs /\
    exists q fb i, co_latest (snd x) = Some (q, i) /\ last (l ++ fbs) = Some fb /\ op_id q = fb_payload_id fb /\
      bl_hash (op_block q) = fd_block_hash (fb_diff fb)).
Proof.
  induction fbs as [|fb fbs IH]; intros co l Hco Hl Hne Hok (q & fb0 & Hlat & Hlast & Hq); cbn [run_flashblock_processor].
  { intros _. cbn. rewrite app_nil_r. split; [done|]. by eauto 6. }
  assert (flashblocks_ok (l ++ [fb])) as Hok1.
  { split; [destruct l; [done|apply Hok]| |].
    - intros f Hf. rewrite <- (ok_id _ Hok f) by set_solver. by destruct l.
    - intros i f Hf. apply (ok_index _ Hok i). replace (l ++ fb :: fbs) with ((l ++ [fb]) ++ fbs) by (by rewrite <- app_assoc).
      by apply lookup_app_l_Some. }
  destruct (check_next co l fb Hco Hl Hok1 Hne) as [base Hchk].
  { intros p i Hpi. rewrite Hlat in Hpi. injection Hpi as _ <-. lia. }
  apply wp_bind. eapply wp_mono; [by apply process_flashblock_spec|]. intros t [r co'] [Hco' Hr]. cbn [fst snd] in *.
  destruct r as [[]|e].
  - destruct Hr as [(p & Hp & _)|(base' & is_new & p & Hc & Hf & Hlt & Hid & Hh)]; [congruence|].
    rewrite Hchk in Hc. injection Hc as <- <-. rewrite Hl in Hf. apply wp_bind.
    eapply wp_mono; [apply (IH co' (l ++ [fb]) Hco' Hf)|].
    + by destruct l.
    + by rewrite <- app_assoc.
    + exists p, fb. rewrite last_snoc, length_app. cbn. split; [|done]. rewrite Hlt. do 2 f_equal.
      rewrite (ok_index _ Hok1 (length l) fb) by (by apply list_lookup_middle). lia.
    + intros t' [rs co''] H. cbn in *. intros [_ Hrs]%Forall_cons. rewrite <- app_assoc in H. by apply H.
  - apply wp_bind, wp_runs. intros t' [rs co''] _. cbn. intros [Hx _]%Forall_cons. discriminate Hx.
Qed.

Lemma reduce_last_hash l f fb : reduce l = Ok f -> last l = Some fb -> fd_block_hash (fb_diff f) = fd_block_hash (fb_diff fb).
Proof.
  destruct l as [|acc l]; [done|]. cbn [reduce]. intros [= <-]. destruct l as [|x l _] using rev_ind; [by intros [= ->]|].
  rewrite foldl_app, app_comm_cons, last_snoc. by intros [= ->].
Qed.

Context (encoded_2718 : Tx -> bytes) (keccak256 : bytes -> B256) (rlp_access_list : FlashblockAccessList -> bytes).

Lemma follow_builder config p l co tr rs co' :
  let fbs := published encoded_2718 keccak256 rlp_access_list config None 0 (p :: l) in
  let final := from_option id p (last l) in
  co_ok co -> growing None (p :: l) -> (forall fb, head fbs = Some fb -> succeeds (co_flashblocks co) fb) ->
  runs (run_flashblock_processor co fbs) tr (rs, co') -> Forall (fun r => r = Ok tt) rs ->
  co_flashblocks co' = fbs /\
  (exists q i, co_latest co' = Some (q, i) /\ op_id q = cf_payload_id config /\ bl_hash (op_block q) = bl_hash (pc_block final)) /\
  exists f, reduce (co_flashblocks co') = Ok f /\ carries encoded_2718 f final.
Proof.
  intros fbs final Hco Hg Hs Hr Hrs. pose proof (published_ok encoded_2718 keccak256 rlp_access_list config p l) as Hok.
  destruct (published_reduce encoded_2718 keccak256 rlp_access_list config p l Hg) as (f & Hf & Hcar & _).
  cut (co_flashblocks co' = fbs /\ exists q fb i, co_latest co' = Some (q, i) /\ last fbs = Some fb /\
    op_id q = fb_payload_id fb /\ bl_hash (op_block q) = fd_block_hash (fb_diff fb)).
  { intros (-> & q & fb & i & Hl & Hlast & Hid & Hh). split; [done|]. split; [|by exists f]. exists q, i. split; [done|].
    pose proof Hlast as Hk. rewrite last_lookup in Hk. destruct (published_lookup _ _ _ _ _ _ _ _ _ Hk) as [_ Hcid].
    split; [congruence|]. unfold final. rewrite Hh, <- (carries_hash _ _ _ Hcar). symmetry. by apply (reduce_last_hash fbs). }
  revert Hrs. change ((fun x : list (result unit CoordinatorError) * Coordinator => Forall (fun r => r = Ok tt) (fst x) ->
    co_flashblocks (snd x) = fbs /\ exists q fb i, co_latest (snd x) = Some (q, i) /\ last fbs = Some fb /\
    op_id q = fb_payload_id fb /\ bl_hash (op_block q) = fd_block_hash (fb_diff fb)) (rs, co')).
  refine (proj1 (wp_runs _ (fun _ x => _ x)) _ _ _ Hr). clear Hr rs co' tr.
  unfold fbs in *. cbn [published run_flashblock_processor] in *. set (first := flashblock_new _ _ _ _ _ _ _ _ _ _ _) in *.
  destruct (check_first co first Hco (Hs first eq_refl)) as [base Hchk]. apply wp_bind.
  eapply wp_mono; [by apply process_flashblock_spec|]. intros t [r co'] [Hco' Hr]. cbn [fst snd] in *. destruct r as [[]|e].
  - destruct Hr as [(q & Hq & _)|(base' & is_new & q & Hc & Hcf & Hlt & Hid & Hh)]; [congruence|].
    rewrite Hchk in Hc. injection Hc as <- <-. apply wp_bind.
    eapply wp_mono; [apply (follow_rest _ co' [first] Hco' Hcf); [done|exact Hok|by exists q, first]|].
    intros t' [rs co''] H. cbn in *. intros [_ Hrs]%Forall_cons. by apply H.
  - apply wp_bind, wp_runs. intros t' [rs co''] _. cbn. intros [Hx _]%Forall_cons. discriminate Hx.
Qed.

(** A receiver that validates every flashblock of a payload ends up with the builder's
    block: it holds exactly the published flashblocks, they fold into the last build,
    and its latest payload has the hash of that build. *)
Theorem receiver_follows_builder config p l co tr rs co' :
  let fbs := published encoded_2718 keccak256 rlp_access_list config None 0 (p :: l) in
  let final := from_option id p (last l) in
  co_ok co -> growing None (p :: l) -> (forall fb, head fbs = Some fb -> succeeds (co_flashblocks co) fb) ->
  runs (run_flashblock_processor co fbs) tr (rs, co') -> Forall (fun r => r = Ok tt) rs ->
  co_flashblocks co' = fbs /\
  (exists q i, co_latest co' = Some (q, i) /\ op_id q = cf_payload_id config /\ bl_hash (op_block q) = bl_hash (pc_block final)) /\
  exists f, reduce (co_flashblocks co') = Ok f /\ carries encoded_2718 f final.
Proof. apply follow_builder. Qed.
End coordinator.

(** The validator of this repository is one. *)
#[export] Instance validate_flashblock_is_validator {Tx Receipt Info Code} decode recover refunds limit deposit tip keccak256 rlp
    empty basic post from order extend l1 slots :
  FlashblockValidator (fun env => validate_flashblock_with_state (Tx := Tx) (Receipt := Receipt) (Info := Info) (Code := Code)
    decode recover refunds limit deposit tip keccak256 rlp empty basic post from order extend l1 slots env).
Proof.
  split. intros env diff id st tr p Hr. destruct (validated_flashblock _ _ _ _ _ _ _ _ _ _ _ _ _ _ _ _ _ _ _ _ _ _ Hr) as (Hid & Hh & _).
  by split.
Qed.

(** ** Examples *)

#[local] Abbreviation ExBuilt := (OpBuiltPayload bytes (BundleState Z unit) unit).
Definition ex_validator (env : ValidationEnv) := validate_flashblock_with_state (Tx := bytes) (Receipt := unit) (Info := Z) (Code := unit)
  (fun b => Ok b) (fun tx => Ok (be_val tx)) (fun _ => []) (fun _ => 10) (fun _ => false) (fun _ _ => Some 1)
  be_val ex_list (fun _ => false) (fun _ => Ok None) (fun _ => []) (fun _ => ex_hashed) map_to_list (fun _ b => b) 9 [1] env.

(** The transactions of a block are the names of its pieces: one, two or three of them
    give the hashes 50, 60 and 70. *)
Definition ex_assemble : handler (ValSig (Tx := bytes) (Receipt := unit) (Info := Z) (Code := unit)) Z :=
  fun c used =>
    match c with
    | AssembleBlock txs _ _ _ => (Ok (ex_block (fst <$> txs) (40 + 10 * Z.of_nat (length txs))), used)
    | c => ex_evm c used
    end.
Definition ex_chain : handler (CoSig (Tx := bytes) (Receipt := unit) (Info := Z) (Code := unit) ex_ed) unit :=
  fun c w =>
    match c with
    | SealedHeaderByHash _ _ => (Ok (Some tt), w)
    | NextEvmEnv _ _ => (Ok ex_env, w)
    | SendPending _ _ | BroadcastPayload _ _ => (tt, w)
    | PublishNew _ _ _ => (Ok tt, w)
    end.
Definition ex_node := beside ex_chain ex_assemble.
Definition ex_start : Coordinator (Tx := bytes) (Receipt := unit) (Info := Z) (Code := unit) := coordinator_new.

Lemma ex_start_ok : co_ok ex_start.
Proof. split; [apply flashblocks_default_ok|done]. Qed.

Definition ex_pieces : list (Piece (Tx := bytes)) := [ex_piece [[1]; [2]] 60; ex_piece [[1]; [2]; [3]] 70].
Definition ex_fbs : list Flashblock := published id be_val ex_list ex_config None 0 (ex_piece [[1]] 50 :: ex_pieces).
Definition ex_follow := run_flashblock_processor ex_ed ex_validator ex_start ex_fbs.

Lemma receiver_follows_builder_witness :
  exists co q i, snd (value_of ex_node ex_follow ((), 0)) = co /\ co_flashblocks co = ex_fbs /\
    co_latest co = Some (q, i) /\ bl_hash (op_block q) = 70.
Proof.
  assert (exists co, value_of ex_node ex_follow ((), 0) = ([Ok tt; Ok tt; Ok tt], co)) as [co Hco].
  { eexists. vm_compute. reflexivity. }
  destruct (receiver_follows_builder ex_ed ex_validator id be_val ex_list ex_config (ex_piece [[1]] 50) ex_pieces ex_start
    (trace_of ex_node ex_follow ((), 0)) [Ok tt; Ok tt; Ok tt] co ex_start_ok) as (Hf & (q & i & Hl & _ & Hh) & _).
  - exact (conj I (conj (conj (prefix_app_r [[1]] [[1]] [[2]] (reflexivity _)) (reflexivity _))
      (conj (conj (prefix_app_r [[1]; [2]] [[1]; [2]] [[3]] (reflexivity _)) (reflexivity _)) I))).
  - intros fb [= <-]. split; [by vm_compute|]. split; [done|]. eexists _, _. split; [reflexivity|]. split; [reflexivity|]. by vm_compute.
  - rewrite <- Hco. exact (interp_runs ex_node ex_follow ((), 0)).
  - repeat constructor.
  - exists co, q, i. rewrite Hco. split; [reflexivity|]. split; [exact Hf|]. split; [exact Hl|exact Hh].
Defined.

Definition ex_own (hash : Z) : ExBuilt :=
  {| op_id := cf_payload_id ex_config; op_block := ex_block [[1]] hash; op_fees := 0; op_executed := None |}.
Definition ex_own_piece (prev : option (Block bytes)) (i hash : Z) : Flashblock :=
  flashblock_new id be_val ex_list 0 (ex_block [[1]] hash) 0 ex_config i (tx_offset prev) 0 None.

(** The node publishes the first piece itself and receives the second. *)
Definition ex_ops : list (co_op (Tx := bytes) (Receipt := unit) (Info := Z) (Code := unit) ex_ed) :=
  [OpPublish ex_ed ex_authorization (ex_own_piece None 0 50) (ex_own 50); OpProcess ex_ed (ex_own_piece (Some (ex_block [[1]] 50)) 1 50)].

Lemma coordinator_consistent_witness :
  co_ok (value_of ex_node (run_ops ex_ed ex_validator ex_start ex_ops) ((), 0)).
Proof.
  apply (coordinator_consistent ex_ed ex_validator ex_ops ex_start
    (trace_of ex_node (run_ops ex_ed ex_validator ex_start ex_ops) ((), 0))).
  - exact ex_start_ok.
  - intros a fb p [[= -> -> ->]|[Hx|Hx%elem_of_nil]%elem_of_cons]%elem_of_cons; [by split|discriminate Hx|done].
  - apply interp_runs.
Defined.

(** The lock is released while a flashblock is validated.  If the node publishes a build
    of its own under the same index meanwhile, the validated payload is still recorded
    as the latest one before the push of its flashblock fails: the latest payload is
    then announced by no flashblock. *)
Theorem overlapping_publish_orphans_payload :
  let co := snd (push_built ex_start (ex_own_piece None 0 50) (ex_own 50)) in
  let received := ex_own_piece (Some (ex_block [[1]] 50)) 1 60 in
  let co1 := snd (push_built co (ex_own_piece (Some (ex_block [[1]] 50)) 1 61) (ex_own 61)) in
  let co2 := snd (commit co1 received (ex_own 60)) in
  (exists base, check co received = Checked base false) /\
  fst (commit co1 received (ex_own 60)) = Err (CoFlashblocks NotContiguous) /\
  co_latest co2 = Some (ex_own 60, 1) /\
  Forall (fun fb => fd_block_hash (fb_diff fb) <> bl_hash (op_block (ex_own 60))) (co_flashblocks co2).
Proof.
  vm_compute. split; [eexists; reflexivity|]. split; [reflexivity|]. split; [reflexivity|]. repeat constructor; discriminate.
Qed.
