(* ===== verification/Generator.v ===== *)
(** * Starting a payload job
    ([src/crates/payload/src/generator.rs], [src/crates/rpc/src/engine.rs])

    A fork choice update with payload attributes starts a job.  The engine interface
    passes the authorization on to the generator, which waits for one that authorization_fits the
    payload, announces itself as a publisher and continues from the flashblocks that
    another builder has published for the same payload.  The chain, the watch channel,
    the network and reth's own engine interface are calls. *)

From S2P Require Import Prelude Program Encoding ProofTypes AccessList Flashblocks Reverts P2pCodec P2pPeers P2pHandler PayloadJob Validator Coordinator.

(** ** Deadlines, in nanoseconds *)

Record GeneratorConfig := {
  gc_interval : Z;
  gc_recommitment_interval : Z;
  gc_max_payload_tasks : Z;
  gc_deadline : Z
}.
Definition generator_config_default : GeneratorConfig :=
  {| gc_interval := 200 * 10 ^ 6; gc_recommitment_interval := 50 * 10 ^ 6; gc_max_payload_tasks := 4; gc_deadline := 2 * 10 ^ 9 |}.

Definition duration_until (now unix_timestamp_secs : Z) : Z := saturating_sub (unix_timestamp_secs * 10 ^ 9) now.
Definition max_job_duration (cfg : GeneratorConfig) (now unix_timestamp : Z) : Z :=
  gc_deadline cfg + Z.min (duration_until now unix_timestamp) (gc_deadline cfg * 3).

(** A job ends: not before its timestamp by a clock that is at most three deadlines
    behind, and never later than four deadlines from now. *)
Lemma max_job_duration_bounds cfg now timestamp :
  0 <= gc_deadline cfg ->
  gc_deadline cfg <= max_job_duration cfg now timestamp <= 4 * gc_deadline cfg /\
  (timestamp * 10 ^ 9 <= now + 3 * gc_deadline cfg -> timestamp * 10 ^ 9 + gc_deadline cfg <= now + max_job_duration cfg now timestamp).
Proof. unfold max_job_duration, duration_until, saturating_sub. lia. Qed.

Section generator.
Context {Tx Receipt Info Code : Type} (C : Ed25519).
#[local] Abbreviation Bundle := (BundleState Info Code).
#[local] Abbreviation Built := (OpBuiltPayload Tx Bundle Receipt).
Context (encoded_2718 : Tx -> bytes) (keccak256 : bytes -> B256) (rlp_access_list : FlashblockAccessList -> bytes).

Record PayloadAttributes := {
  at_timestamp : Z;
  at_prev_randao : B256;
  at_suggested_fee_recipient : Address;
  at_parent_beacon_block_root : option B256;
  at_no_tx_pool : option bool
}.
Definition payload_config (parent_hash : B256) (at_ : PayloadAttributes) (id : PayloadId) : PayloadConfig :=
  {| cf_payload_id := id; cf_parent_hash := parent_hash; cf_parent_beacon_block_root := at_parent_beacon_block_root at_;
     cf_suggested_fee_recipient := at_suggested_fee_recipient at_; cf_prev_randao := at_prev_randao at_;
     cf_timestamp := at_timestamp at_; cf_no_tx_pool := at_no_tx_pool at_ |}.

Inductive PayloadBuilderError :=
| MissingParentHeader (hash : B256)
| GeneratorOther (message : string).

(** The fields of the generator that decide what a job may publish *)
Record Generator := {
  override_authorizer_sk : option (SigningKey C);
  force_publish : bool
}.

(** ** Continuing what is published *)

(** [check_for_pre_state]: the payload so far, the next index, and its access list *)
Definition position_of (hash : B256) (l : list Flashblock) : option nat :=
  fst <$> list_find (fun fb => fd_block_hash (fb_diff fb) = hash) l.
Definition check_for_pre_state (snap : list Flashblock * option (Built * Z)) (id : PayloadId)
    : result (option (Built * Z * option FlashblockAccessList)) PayloadBuilderError :=
  let '(flashblocks, latest) := snap in
  match latest with
  | Some (latest, _) =>
      if bool_decide (op_id latest = id) then
        match position_of (bl_hash (op_block latest)) flashblocks with
        | None => Err (GeneratorOther "No flashblock matching payload hash"%string)
        | Some pos =>
            match reduce (take (S pos) flashblocks) with
            | Err _ => Err (GeneratorOther "Failed to reduce flashblocks"%string)
            | Ok f => Ok (Some (latest, wrap_u64 (fb_index f + 1), access_list <$> fd_access_list_data (fb_diff f)))
            end
        end
      else Ok None
  | None => Ok None
  end.

(** ** Calls *)

Inductive gen_call :=
| LatestHeader
| GenHeaderByHash (hash : B256)
| CoordinatorSnapshot
| AuthorizationChanges
| BuilderSk
| StartPublishing (a : Authorization C).
Definition GenSig : Sig := {|
  call := gen_call;
  reply c := match c with
             | LatestHeader | GenHeaderByHash _ => result (option B256) string
             | CoordinatorSnapshot => (list Flashblock * option (Built * Z))%type
             | AuthorizationChanges => list (option (Authorization C))
             | BuilderSk => option (SigningKey C)
             | StartPublishing _ => result unit string
             end
|}.
Definition GeneratorSig : Sig := GenSig ⊕ JobSig (Tx := Tx) (Bundle := Bundle) (Receipt := Receipt) C.
Definition gen (c : gen_call) : prog GeneratorSig (reply GenSig c) := lift (Call (S := GenSig) c Ret).

(** ** The authorization *)

(** What the generator waits for: an authorization of this payload, or the word that
    there is none *)
Definition authorization_fits (id : PayloadId) (a : option (Authorization C)) : bool :=
  match a with
  | Some a => bool_decide (au_payload_id a = payload_id_with_version id 4) || bool_decide (au_payload_id a = payload_id_with_version id 3)
  | None => true
  end.
(** [wait_for] on the values that the channel takes from its next change until it is
    closed *)
Definition wait_for (id : PayloadId) (l : list (option (Authorization C))) : result (option (Authorization C)) PayloadBuilderError :=
  match list_find (fun a => authorization_fits id a = true) l with
  | Some (_, a) => Ok a
  | None => Err (GeneratorOther "channel closed"%string)
  end.

(** The authorization of the job, with the key that overrides it *)
Definition job_authorization (g : Generator) (id : PayloadId) (timestamp : Z) (sk : option (SigningKey C))
    (a : option (Authorization C)) : option (Authorization C) :=
  let can_override := force_publish g || bool_decide (is_Some a) in
  match override_authorizer_sk g, sk, can_override with
  | Some authorizer, Some sk, true => Some (authorization_new C id timestamp authorizer (verifying_key C sk))
  | _, _, _ => a
  end.

(** The job that continues a payload, or starts one *)
Definition initial_job (config : PayloadConfig) (a : option (Authorization C))
    (pre : option (Built * Z * option FlashblockAccessList)) : Job (Tx := Tx) (Bundle := Bundle) (Receipt := Receipt) C :=
  match pre with
  | Some (p, index, al) =>
      let data := (fun l => {| access_list := l; access_list_hash := hash_of keccak256 rlp_access_list l |}) <$> al in
      {| jb_config := config; jb_best := (Frozen p, al); jb_committed := CommittedFrozen p data; jb_pending := false;
         jb_authorization := a; jb_block_index := index |}
  | None =>
      {| jb_config := config; jb_best := (Missing, None); jb_committed := CommittedEmpty; jb_pending := false;
         jb_authorization := a; jb_block_index := 0 |}
  end.

(** [new_payload_job] *)
Definition new_payload_job (g : Generator) (parent_hash : B256) (at_ : PayloadAttributes) (id : PayloadId)
    : prog GeneratorSig (result (Job (Tx := Tx) (Bundle := Bundle) (Receipt := Receipt) C) PayloadBuilderError) :=
  let id := force_op_payload_id_v3 id in
  do header <- (if parent_hash =? 0 then gen LatestHeader else gen (GenHeaderByHash parent_hash));
  match header with
  | Err e => Ret (Err (GeneratorOther e))
  | Ok None => Ret (Err (MissingParentHeader parent_hash))
  | Ok (Some header_hash) =>
      let config := payload_config header_hash at_ id in
      do snap <- gen CoordinatorSnapshot;
      match check_for_pre_state snap id with
      | Err e => Ret (Err e)
      | Ok pre =>
          do l <- gen AuthorizationChanges;
          match wait_for id l with
          | Err e => Ret (Err e)
          | Ok a =>
              do sk <- gen BuilderSk;
              let a := job_authorization g id (at_timestamp at_) sk a in
              do started <- match a with Some a => gen (StartPublishing a) | None => Ret (Ok tt) end;
              match started with
              | Err e => Ret (Err (GeneratorOther e))
              | Ok _ =>
                  do j <- lift (spawn_build_job C (initial_job config a pre));
                  Ret (Ok j)
              end
          end
      end
  end.

(** ** Finding what is published *)

Lemma position_of_spec hash l :
  (exists k fb, l !! k = Some fb /\ fd_block_hash (fb_diff fb) = hash) ->
  exists pos fb, position_of hash l = Some pos /\ l !! pos = Some fb /\ fd_block_hash (fb_diff fb) = hash.
Proof.
  intros (k & fb & Hk & Hh). unfold position_of.
  destruct (list_find_elem_of (fun fb => fd_block_hash (fb_diff fb) = hash) l fb) as [[pos fb'] Hf];
    [by eapply list_elem_of_lookup_2|done|].
  rewrite Hf. apply list_find_Some in Hf as (Hl & Hp & _). by exists pos, fb'.
Qed.

Lemma reduce_last_index l f fb : reduce l = Ok f -> last l = Some fb -> fb_index f = fb_index fb.
Proof.
  destruct l as [|acc l]; [done|]. cbn [reduce]. intros [= <-]. destruct l as [|x l _] using rev_ind; [by intros [= ->]|].
  rewrite foldl_app, app_comm_cons, last_snoc. by intros [= ->].
Qed.

Lemma last_take {A} (l : list A) k x : l !! k = Some x -> last (take (S k) l) = Some x.
Proof.
  intros H. rewrite last_lookup, length_take. pose proof (lookup_lt_Some _ _ _ H). rewrite lookup_take_lt by lia.
  replace (pred (S k `min` length l)) with k by lia. done.
Qed.

(** With a well-formed collection, a payload in progress is continued after a flashblock
    that announced it. *)
Lemma pre_state_spec (co : Coordinator (Tx := Tx) (Receipt := Receipt) (Info := Info) (Code := Code)) id q i :
  co_ok co -> co_latest co = Some (q, i) -> op_id q = id -> Z.of_nat (length (co_flashblocks co)) < 2 ^ 64 ->
  exists pos fb al, position_of (bl_hash (op_block q)) (co_flashblocks co) = Some pos /\ co_flashblocks co !! pos = Some fb /\
    fd_block_hash (fb_diff fb) = bl_hash (op_block q) /\
    check_for_pre_state (snapshot co) id = Ok (Some (q, Z.of_nat pos + 1, al)).
Proof.
  intros Hco Hq Hid Hlen. destruct (co_latest_ok _ Hco q i Hq) as (k & fb0 & Hk & _ & _ & Hh).
  destruct (position_of_spec (bl_hash (op_block q)) (co_flashblocks co)) as (pos & fb & Hp & Hl & Hfb); [by eauto|].
  pose proof (lookup_lt_Some _ _ _ Hl). pose proof (last_take _ _ _ Hl) as Hlast.
  assert (exists f, reduce (take (S pos) (co_flashblocks co)) = Ok f) as [f Hf].
  { destruct (take (S pos) (co_flashblocks co)) as [|x t]; [done|]. by eexists. }
  exists pos, fb, (access_list <$> fd_access_list_data (fb_diff f)). split; [done|]. split; [done|]. split; [done|].
  unfold snapshot, check_for_pre_state. rewrite Hq, bool_decide_eq_true_2 by done. rewrite Hp, Hf.
  rewrite (reduce_last_index _ _ _ Hf Hlast), (ok_index _ (co_collection _ Hco) pos fb Hl).
  unfold wrap_u64. rewrite Z.mod_small by lia. done.
Qed.

(** A node that has executed flashblocks of a payload can take it over: the search for
    what was published never fails, and the job continues right after the flashblock
    that announced the payload it holds. *)
Theorem pre_state_found (co : Coordinator (Tx := Tx) (Receipt := Receipt) (Info := Info) (Code := Code)) id q i :
  co_ok co -> co_latest co = Some (q, i) -> op_id q = id -> Z.of_nat (length (co_flashblocks co)) < 2 ^ 64 ->
  exists pos fb al, co_flashblocks co !! pos = Some fb /\ fd_block_hash (fb_diff fb) = bl_hash (op_block q) /\
    check_for_pre_state (snapshot co) id = Ok (Some (q, fb_index fb + 1, al)).
Proof.
  intros Hco Hq Hid Hlen. destruct (pre_state_spec co id q i Hco Hq Hid Hlen) as (pos & fb & al & _ & Hl & Hh & Hc).
  exists pos, fb, al. split; [done|]. split; [done|]. by rewrite (ok_index _ (co_collection _ Hco) pos fb Hl).
Qed.

(** ** Taking over *)

Lemma published_app config l1 : forall q i l2,
  published encoded_2718 keccak256 rlp_access_list config q i (l1 ++ l2) =
  published encoded_2718 keccak256 rlp_access_list config q i l1 ++
  published encoded_2718 keccak256 rlp_access_list config (match last l1 with Some x => Some (pc_block x) | None => q end)
    (i + Z.of_nat (length l1)) l2.
Proof.
  induction l1 as [|x l1 IH]; intros q i l2; [cbn [length]; by rewrite Z.add_0_r|]. cbn [app published]. rewrite IH.
  f_equal. f_equal. rewrite last_cons. cbn [length]. replace (i + Z.of_nat (S (length l1))) with (i + 1 + Z.of_nat (length l1)) by lia.
  by destruct (last l1).
Qed.

Lemma growing_app (l1 : list (Piece (Tx := Tx))) : forall (q : option (Block Tx)) l2,
  growing q (l1 ++ l2) <-> growing q l1 /\ growing (match last l1 with Some x => Some (pc_block x) | None => q end) l2.
Proof.
  induction l1 as [|x l1 IH]; intros q l2; [cbn; naive_solver|]. cbn [app growing]. rewrite IH, last_cons.
  destruct (last l1); naive_solver.
Qed.

Lemma published_length config l : forall q i, length (published encoded_2718 keccak256 rlp_access_list config q i l) = length l.
Proof. induction l as [|x l IH]; intros q i; cbn; [done|]. by rewrite IH. Qed.

Lemma published_hash config l : forall q i k fb,
  published encoded_2718 keccak256 rlp_access_list config q i l !! k = Some fb ->
  exists x, l !! k = Some x /\ fd_block_hash (fb_diff fb) = bl_hash (pc_block x).
Proof.
  induction l as [|x l IH]; intros q i k fb Hk; [done|]. destruct k as [|k]; cbn in Hk.
  - injection Hk as <-. by exists x.
  - by apply IH in Hk.
Qed.

(** C23: Another builder takes a payload over in the middle: having executed the flashblocks
    published so far, its job publishes exactly the next pieces of the same block, and
    the flashblocks of both builders together fold into the last build. *)
Theorem takeover_continues (co : Coordinator (Tx := Tx) (Receipt := Receipt) (Info := Info) (Code := Code)) config x l q i pre n a tr r :
  let before := published encoded_2718 keccak256 rlp_access_list config None 0 (x :: l) in
  let so_far := from_option id x (last l) in
  co_ok co -> co_flashblocks co = before -> co_latest co = Some (q, i) ->
  growing None (x :: l) -> NoDup ((fun p => bl_hash (pc_block p)) <$> x :: l) ->
  op_id q = cf_payload_id config -> op_block q = pc_block so_far ->
  Z.of_nat (length (x :: l)) + Z.of_nat n + 1 < 2 ^ 64 ->
  check_for_pre_state (snapshot co) (cf_payload_id config) = Ok pre ->
  runs (run_job encoded_2718 keccak256 rlp_access_list C n (initial_job config (Some a) pre)) tr r -> builds_extend C tr ->
  exists pieces f, publications C tr = (fun fb => (a, fb)) <$>
      published encoded_2718 keccak256 rlp_access_list config (Some (pc_block so_far)) (Z.of_nat (length (x :: l))) pieces /\
    before ++ (snd <$> publications C tr) = published encoded_2718 keccak256 rlp_access_list config None 0 ((x :: l) ++ pieces) /\
    growing None ((x :: l) ++ pieces) /\
    reduce (before ++ (snd <$> publications C tr)) = Ok f /\
    carries encoded_2718 f (from_option id x (last (l ++ pieces))).
Proof.
  intros before so_far Hco Hf Hq Hg Hnd Hid Hblk Hn Hpre Hr Hx.
  assert (last (x :: l) = Some so_far) as Hlast. { rewrite last_cons. unfold so_far. by destruct (last l). }
  destruct (pre_state_spec co _ q i Hco Hq Hid) as (pos & fb & al & _ & Hl & Hh & Hc).
  { rewrite Hf. unfold before. rewrite published_length. lia. }
  assert (pos = length l) as ->.
  { rewrite Hf in Hl. destruct (published_hash _ _ _ _ _ _ Hl) as (y & Hy & Hhy). rewrite last_lookup in Hlast. cbn in Hlast.
    apply (NoDup_lookup _ pos (length l) (bl_hash (op_block q)) Hnd).
    - rewrite list_lookup_fmap, Hy. cbn. congruence.
    - rewrite list_lookup_fmap. cbn. rewrite Hlast. cbn. by rewrite Hblk. }
  rewrite Hc in Hpre. injection Hpre as <-.
  pose proof (proj1 (wp_runs _ _) (run_job_kept encoded_2718 keccak256 rlp_access_list C config a (Some (pc_block so_far)) (Z.of_nat (length l) + 1) n
    (initial_job config (Some a) (Some (q, Z.of_nat (length l) + 1, al))) ltac:(lia) ltac:(cbn [length] in Hn; lia) eq_refl eq_refl eq_refl
    ltac:(cbn; by rewrite Hblk) ltac:(done)) _ _ Hr) as H.
  destruct (polled_published _ _ _ _ _ _ _ _ _ _ _ H Hx) as (pieces & Hgp & Hpub).
  replace (Z.of_nat (length l) + 1) with (0 + Z.of_nat (length (x :: l))) in Hpub by (cbn [length]; lia).
  assert (growing None ((x :: l) ++ pieces)) as Hgall. { apply growing_app. by rewrite Hlast. }
  destruct (published_reduce encoded_2718 keccak256 rlp_access_list config x (l ++ pieces) Hgall) as (f & Hred & Hcar & _).
  assert (before ++ (snd <$> publications C tr) = published encoded_2718 keccak256 rlp_access_list config None 0 ((x :: l) ++ pieces)) as Hall.
  { rewrite published_app, Hlast, Hpub, <- list_fmap_compose.
    change (compose snd (fun fb => (a, fb))) with (@id Flashblock). by rewrite list_fmap_id. }
  exists pieces, f. split; [exact Hpub|]. split; [exact Hall|]. split; [done|]. split; [by rewrite Hall|done].
Qed.

(** ** Who may publish *)

(** Where an authorization comes from: the channel, or the key that overrides it *)
Definition authorized_by (g : Generator) (id : PayloadId) (timestamp : Z) (tr : list (event GeneratorSig)) (a : Authorization C) : Prop :=
  (exists l, saw (S := GenSig) AuthorizationChanges l tr /\ Some a ∈ l /\
     (au_payload_id a = payload_id_with_version id 4 \/ au_payload_id a = payload_id_with_version id 3)) \/
  exists authorizer sk, override_authorizer_sk g = Some authorizer /\ saw (S := GenSig) BuilderSk (Some sk) tr /\
    a = authorization_new C id timestamp authorizer (verifying_key C sk).

Lemma wait_for_Ok id l a : wait_for id l = Ok (Some a) ->
  Some a ∈ l /\ (au_payload_id a = payload_id_with_version id 4 \/ au_payload_id a = payload_id_with_version id 3).
Proof.
  unfold wait_for. destruct (list_find _ l) as [[k x]|] eqn:Hf; [|done]. intros [= ->].
  apply list_find_Some in Hf as (Hk & Hfit & _). split; [by eapply list_elem_of_lookup_2|]. cbn in Hfit.
  apply orb_true_iff in Hfit as [H%bool_decide_eq_true|H%bool_decide_eq_true]; [by left|by right].
Qed.

Lemma new_payload_job_spec g parent_hash at_ id :
  wp (new_payload_job g parent_hash at_ id) (fun tr r => match r with
    | Ok j => cf_payload_id (jb_config C j) = force_op_payload_id_v3 id /\
        match jb_authorization C j with
        | Some a => saw (S := GenSig) (StartPublishing a) (Ok tt) tr /\
            authorized_by g (force_op_payload_id_v3 id) (at_timestamp at_) tr a
        | None => True
        end
    | Err _ => True end).
Proof.
  unfold new_payload_job. apply wp_bind. apply (wp_mono _ (fun _ _ => True)); [by apply wp_runs|].
  intros t [[h|]|e] _; [|done|done]. intros snap. cbn [lift bind prj sub_inl sub_refl].
  destruct (check_for_pre_state snap (force_op_payload_id_v3 id)) as [pre|e]; [|done]. intros l. cbn [lift bind prj sub_inl sub_refl].
  destruct (wait_for (force_op_payload_id_v3 id) l) as [a|e] eqn:Hw; [|done]. intros sk. cbn [lift bind prj sub_inl sub_refl].
  destruct (job_authorization g (force_op_payload_id_v3 id) (at_timestamp at_) sk a) as [b|] eqn:Ha.
  - intros [[]|e]; [|done]. cbn [lift bind prj sub_inl sub_refl]. intros []. cbn [wp].
    assert (forall j, j = initial_job (payload_config h at_ (force_op_payload_id_v3 id)) (Some b) pre ->
      cf_payload_id (jb_config C j) = force_op_payload_id_v3 id /\ jb_authorization C j = Some b) as Hj.
    { intros j ->. by destruct pre as [[[p k] al]|]. }
    destruct (Hj _ eq_refl) as [Hid Hau]. cbn. rewrite Hid, Hau. split; [done|].
    split; [exists (Ok tt); split; [set_solver|done]|].
    unfold job_authorization in Ha. destruct (override_authorizer_sk g) as [authorizer|] eqn:Ho.
    + destruct sk as [sk|]; [destruct (force_publish g || _) eqn:Hcan|].
      * injection Ha as <-. right. exists authorizer, sk. split; [done|]. split; [|done]. exists (Some sk). split; [set_solver|done].
      * subst a. left. exists l. split; [|by apply wait_for_Ok]. exists l. split; [set_solver|done].
      * subst a. left. exists l. split; [|by apply wait_for_Ok]. exists l. split; [set_solver|done].
    + subst a. left. exists l. split; [|by apply wait_for_Ok]. exists l. split; [set_solver|done].
  - intros []. cbn. by destruct pre as [[[p k] al]|].
Qed.

(** A job publishes only what it was authorized to: the node announced itself as a
    publisher under the very authorization of the job, which came from the engine
    interface for this payload or was signed with the overriding key for its identifier
    and timestamp; a job without one publishes nothing, however long it is polled. *)
Theorem job_is_authorized g parent_hash at_ id tr j :
  runs (new_payload_job g parent_hash at_ id) tr (Ok j) ->
  match jb_authorization C j with
  | Some a => saw (S := GenSig) (StartPublishing a) (Ok tt) tr /\
      authorized_by g (force_op_payload_id_v3 id) (at_timestamp at_) tr a
  | None => forall n tr' r, runs (polls encoded_2718 keccak256 rlp_access_list C n j) tr' r -> publications C tr' = []
  end.
Proof.
  intros Hr. destruct (proj1 (wp_runs _ _) (new_payload_job_spec g parent_hash at_ id) _ _ Hr) as [_ H].
  destruct (jb_authorization C j) eqn:Ha; [done|]. intros n tr' r Hp.
  exact (proj1 (wp_runs _ _) (polls_silent encoded_2718 keccak256 rlp_access_list C n j Ha) _ _ Hp).
Qed.

(** The generator takes an authorization for the fourth version of a payload's
    identifier, but the flashblocks of the job carry the third: the network layer
    reports success for each of them and publishes nothing. *)
Theorem v4_authorization_publishes_nothing (L : RlpLib) peer_order (ctx : NodeCtx C) st sk a v rest fb :
  au_payload_id a = payload_id_with_version (v :: rest) 4 -> fb_payload_id fb = force_op_payload_id_v3 (v :: rest) ->
  publishing_status C st = Publishing C a ->
  authorization_fits (force_op_payload_id_v3 (v :: rest)) (Some a) = true /\
  publish_new L C peer_order ctx st (authorized_new L C sk a (MsgFlashblock fb)) fb = Ret (Ok tt, st).
Proof.
  intros Ha Hf Hs. split.
  - unfold authorization_fits. rewrite Ha. cbn. by rewrite bool_decide_eq_true_2.
  - unfold publish_new. rewrite Hs. cbn [ad_authorization authorized_new]. rewrite bool_decide_eq_true_2 by done. cbn [negb].
    unfold publish. cbn [ad_authorization authorized_new]. rewrite Ha, Hf, bool_decide_eq_false_2; [done|]. by cbn.
Qed.
End generator.

(** ** The engine interface *)

Section engine.
Context {Attrs Status : Type} (C : Ed25519).

Record ForkchoiceUpdated := { fu_status : Status; fu_payload_id : option PayloadId }.

Inductive engine_call :=
| SendAuthorization (a : option (Authorization C))
| InnerForkChoiceUpdatedV3 (attrs : option Attrs)
| InnerGetPayload (id : PayloadId).
Definition EngineSig : Sig := {|
  call := engine_call;
  reply c := match c with
             | SendAuthorization _ => unit
             | InnerForkChoiceUpdatedV3 _ => result ForkchoiceUpdated string
             | InnerGetPayload _ => result Status string
             end
|}.
Definition engine (c : engine_call) : prog EngineSig (reply EngineSig c) := Call (S := EngineSig) c Ret.

(** Whether the node builds flashblocks *)
Context (to_jobs_generator : bool).

Definition force_response (r : ForkchoiceUpdated) : ForkchoiceUpdated :=
  {| fu_status := fu_status r; fu_payload_id := force_op_payload_id_v3 <$> fu_payload_id r |}.

(** [fork_choice_updated_v3] of the plain interface: no authorization *)
Definition fork_choice_updated_v3 (attrs : option Attrs) : prog EngineSig (result ForkchoiceUpdated string) :=
  do _ <- match attrs with
          | Some _ => if to_jobs_generator then engine (SendAuthorization None) else Ret tt
          | None => Ret tt
          end;
  do? r <- engine (InnerForkChoiceUpdatedV3 attrs);
  Ret (Ok (force_response r)).

(** [flashblocks_fork_choice_updated_v3] *)
Definition flashblocks_fork_choice_updated_v3 (attrs : option Attrs) (a : option (Authorization C))
    : prog EngineSig (result ForkchoiceUpdated string) :=
  match attrs, a with
  | Some _, None | None, Some _ => Ret (Err "Both payload attributes and authorization must be provided together"%string)
  | _, _ =>
      do _ <- match a with
              | Some a => if to_jobs_generator then engine (SendAuthorization (Some a)) else Ret tt
              | None => Ret tt
              end;
      do? r <- engine (InnerForkChoiceUpdatedV3 attrs);
      Ret (Ok (force_response r))
  end.

(** [get_payload_v3], [get_payload_v4], [get_payload_v5] *)
Definition get_payload (id : PayloadId) : prog EngineSig (result Status string) :=
  engine (InnerGetPayload (op_reth_payload_id_v4_lookup id)).

(** What the sequencer gets for an authorized update: the authorization was handed to
    the generator before reth was asked, exactly once; the identifier that it gets back
    is the one under which the flashblocks are published; and asking for the payload
    under that identifier asks reth for its own. *)
Theorem authorized_update attrs a tr r :
  to_jobs_generator = true -> runs (flashblocks_fork_choice_updated_v3 (Some attrs) (Some a)) tr (Ok r) ->
  exists inner, tr = [ev (S := EngineSig) (SendAuthorization (Some a)) tt;
                      ev (S := EngineSig) (InnerForkChoiceUpdatedV3 (Some attrs)) (Ok inner)] /\
    forall id, fu_payload_id inner = Some id -> id !! 0%nat = Some OP_ENGINE_PAYLOAD_ID_V4 ->
      fu_payload_id r = Some (force_op_payload_id_v3 id) /\
      get_payload (force_op_payload_id_v3 id) = engine (InnerGetPayload id).
Proof.
  intros Hj. unfold flashblocks_fork_choice_updated_v3. rewrite Hj. intros Hr. revert Hr.
  assert (wp (flashblocks_fork_choice_updated_v3 (Some attrs) (Some a)) (fun tr r => match r with
    | Ok r => exists inner, tr = [ev (S := EngineSig) (SendAuthorization (Some a)) tt;
        ev (S := EngineSig) (InnerForkChoiceUpdatedV3 (Some attrs)) (Ok inner)] /\ r = force_response inner
    | Err _ => True end)) as H.
  { unfold flashblocks_fork_choice_updated_v3. rewrite Hj. intros [] [inner|e]; [|done]. by exists inner. }
  intros Hr. pose proof (proj1 (wp_runs _ _) H tr (Ok r)) as Hw. unfold flashblocks_fork_choice_updated_v3 in Hw. rewrite Hj in Hw.
  destruct (Hw Hr) as (inner & -> & ->). exists inner. split; [done|]. intros id Hid Hv. cbn. rewrite Hid. split; [done|].
  unfold get_payload. by rewrite payload_id_lookup.
Qed.
End engine.

(** ** Examples *)

Definition ex_before : list (Piece (Tx := bytes)) := [ex_piece [[1]; [2]] 60].
Definition ex_taken : OpBuiltPayload bytes (BundleState Z unit) unit :=
  {| op_id := cf_payload_id ex_config; op_block := ex_block [[1]; [2]] 60; op_fees := 0; op_executed := None |}.
Definition ex_co : Coordinator (Tx := bytes) (Receipt := unit) (Info := Z) (Code := unit) :=
  {| co_flashblocks := published id be_val ex_list ex_config None 0 (ex_piece [[1]] 50 :: ex_before);
     co_latest := Some (ex_taken, 1); co_events := false |}.

Lemma ex_co_ok : co_ok ex_co.
Proof.
  split; [apply published_ok|]. intros p i [= <- <-]. eexists 1%nat, _. split; [reflexivity|]. done.
Qed.

Lemma pre_state_found_witness :
  exists al, check_for_pre_state (snapshot ex_co) (cf_payload_id ex_config) = Ok (Some (ex_taken, 2, al)).
Proof.
  destruct (pre_state_found ex_co (cf_payload_id ex_config) ex_taken 1 ex_co_ok eq_refl eq_refl ltac:(vm_compute; reflexivity))
    as (pos & fb & al & Hl & Hh & Hc).
  exists al. destruct pos as [|[|pos]]; [|injection Hl as <-; exact Hc|discriminate Hl].
  injection Hl as <-. discriminate Hh.
Defined.

(** Builds that add a third transaction *)
Definition ex_third : OpBuiltPayload bytes (BundleState Z unit) unit :=
  {| op_id := cf_payload_id ex_config; op_block := ex_block [[1]; [2]; [3]] 70; op_fees := 0; op_executed := None |}.
Definition ex_next : handler (JobSig (Tx := bytes) (Bundle := BundleState Z unit) (Receipt := unit) ex_ed) unit :=
  fun c w =>
    match c with
    | PollDeadline _ | PollRecommit _ => (false, w)
    | PollClearance _ | PollFlashblockDeadline _ => (true, w)
    | NowNanos _ => (7, w)
    | SpawnBuild _ _ _ | ResetTimers _ | SpawnFallback _ => (tt, w)
    | PollPending _ => (Some (Ok (Better ex_third, None)), w)
    | PublishBuilt _ _ _ _ => (Ok tt, w)
    | OnMissingPayload _ => (AwaitInProgress, w)
    | BuildEmptyPayload _ => (Ok ex_third, w)
    end.
Definition ex_pre : option (OpBuiltPayload bytes (BundleState Z unit) unit * Z * option FlashblockAccessList) :=
  Some (ex_taken, 2, None).
Definition ex_takeover := run_job id be_val ex_list ex_ed 2 (initial_job ex_ed be_val ex_list ex_config (Some ex_authorization) ex_pre).

Lemma takeover_continues_witness :
  exists f, reduce (co_flashblocks ex_co ++ (snd <$> publications ex_ed (trace_of ex_next ex_takeover ()))) = Ok f /\
    (snd <$> publications ex_ed (trace_of ex_next ex_takeover ())) <> [].
Proof.
  destruct (takeover_continues ex_ed id be_val ex_list ex_co ex_config (ex_piece [[1]] 50) ex_before ex_taken 1 ex_pre 2 ex_authorization
    (trace_of ex_next ex_takeover ()) (value_of ex_next ex_takeover ()) ex_co_ok eq_refl eq_refl) as (pieces & f & _ & _ & _ & Hr & _).
  - exact (conj I (conj (conj (prefix_app_r [[1]] [[1]] [[2]] (reflexivity _)) (reflexivity _)) I)).
  - vm_compute. repeat constructor; set_solver.
  - reflexivity.
  - reflexivity.
  - vm_compute. reflexivity.
  - vm_compute. reflexivity.
  - apply interp_runs.
  - vm_compute. repeat split; [by exists [[3]]|by exists []|by exists []|by exists []].
  - exists f. split; [exact Hr|]. vm_compute. discriminate.
Defined.

Definition ex_attrs : PayloadAttributes :=
  {| at_timestamp := 1000; at_prev_randao := 2; at_suggested_fee_recipient := 1; at_parent_beacon_block_root := None; at_no_tx_pool := None |}.
Definition ex_gen : handler (GenSig (Tx := bytes) (Receipt := unit) (Info := Z) (Code := unit) ex_ed) unit :=
  fun c w =>
    match c with
    | LatestHeader _ | GenHeaderByHash _ _ => (Ok (Some 6), w)
    | CoordinatorSnapshot _ => (snapshot ex_co, w)
    | AuthorizationChanges _ => ([Some ex_authorization], w)
    | BuilderSk _ => (Some (7 : SigningKey ex_ed), w)
    | StartPublishing _ _ => (Ok tt, w)
    end.
Definition ex_generator : Generator ex_ed := {| override_authorizer_sk := None; force_publish := false |}.
Definition ex_new_job := new_payload_job (Tx := bytes) (Receipt := unit) (Info := Z) (Code := unit) ex_ed be_val ex_list ex_generator 6 ex_attrs
  [4; 1; 1; 1; 1; 1; 1; 1].

Lemma job_is_authorized_witness :
  saw (S := GenSig ex_ed) (StartPublishing ex_ed ex_authorization) (Ok tt) (trace_of (beside ex_gen ex_next) ex_new_job ((), ())).
Proof.
  assert (exists j, value_of (beside ex_gen ex_next) ex_new_job ((), ()) = Ok j /\ jb_authorization ex_ed j = Some ex_authorization)
    as (j & Hj & Ha).
  { eexists. split; [vm_compute; reflexivity|]. reflexivity. }
  pose proof (job_is_authorized ex_ed id be_val ex_list ex_generator 6 ex_attrs [4; 1; 1; 1; 1; 1; 1; 1]
    (trace_of (beside ex_gen ex_next) ex_new_job ((), ())) j ltac:(rewrite <- Hj; exact (interp_runs _ _ _))) as H.
  rewrite Ha in H. exact (proj1 H).
Defined.

Definition ex_engine : handler (EngineSig (Attrs := unit) (Status := unit) ex_ed) unit :=
  fun c w =>
    match c with
    | SendAuthorization _ _ => (tt, w)
    | InnerForkChoiceUpdatedV3 _ _ => (Ok {| fu_status := tt; fu_payload_id := Some [4; 1; 1; 1; 1; 1; 1; 1] |}, w)
    | InnerGetPayload _ _ => (Ok tt, w)
    end.
Definition ex_update := flashblocks_fork_choice_updated_v3 (Attrs := unit) (Status := unit) ex_ed true (Some tt) (Some ex_authorization).

Definition ex_inner (tr : list (event (EngineSig (Attrs := unit) (Status := unit) ex_ed))) : option ForkchoiceUpdated :=
  match tr with
  | [_; existT (InnerForkChoiceUpdatedV3 _ _) (Ok i)] => Some i
  | _ => None
  end.

Lemma authorized_update_witness :
  get_payload (Attrs := unit) (Status := unit) ex_ed [3; 1; 1; 1; 1; 1; 1; 1] = engine ex_ed (InnerGetPayload ex_ed [4; 1; 1; 1; 1; 1; 1; 1]).
Proof.
  destruct (authorized_update (Status := unit) ex_ed true tt ex_authorization (trace_of ex_engine ex_update ())
    {| fu_status := tt; fu_payload_id := Some [3; 1; 1; 1; 1; 1; 1; 1] |} eq_refl (interp_runs ex_engine ex_update ())) as (inner & Ht & H).
  apply (f_equal ex_inner) in Ht. injection Ht as <-. destruct (H [4; 1; 1; 1; 1; 1; 1; 1] eq_refl eq_refl) as [_ Hg]. exact Hg.
Defined.
