(* ===== verification/Pipeline.v ===== *)
(** * From the builder to the receivers

    The parts together: a builder's job cuts its builds into flashblocks
    ([PayloadJob]), the network carries them as signed frames through any peers in any
    order ([P2pHandler]), and a receiver hands them on in order and executes them
    ([Coordinator], [Validator]). *)

From S2P Require Import Prelude Program Encoding ProofTypes AccessList Flashblocks Reverts P2pCodec P2pPeers P2pHandler PayloadJob Validator Coordinator Generator.

(** ** A stretch of the stream *)

#[local] Abbreviation slot_of fb := (Z.to_nat (fb_index fb)).

(** From its first piece on, a payload is handed on by counting. *)
Record stretch (l : list Flashblock) (id : PayloadId) (seg : list Flashblock) : Prop := {
  st_part : exists before after, l = before ++ seg ++ after;
  st_id : forall fb, fb ∈ seg -> fb_payload_id fb = id;
  st_first : forall i fb, seg !! i = Some fb -> slot_of fb = 0%nat <-> i = 0%nat
}.

Lemma stretch_slots l id seg : in_order l -> stretch l id seg -> forall i fb, seg !! i = Some fb -> slot_of fb = i.
Proof.
  intros Ho [(before & after & ->) _ Hf]. induction i as [|i IH]; intros fb Hi; [by apply (Hf 0%nat)|].
  destruct (lookup_lt_is_Some_2 seg i) as [prev Hp]; [apply lookup_lt_Some in Hi; lia|].
  destruct (Ho (before ++ take (S i) seg) fb (drop (S (S i)) seg ++ after)) as [H0|(prev' & Hl & _ & Hs)].
  - rewrite <- app_assoc. f_equal. rewrite <- (take_drop (S i) seg) at 1. rewrite (drop_S seg fb (S i) Hi). by rewrite <- app_assoc.
  - by apply (Hf (S i)) in H0.
  - rewrite (take_S_r seg i prev Hp), app_assoc, last_snoc in Hl. injection Hl as <-. by rewrite Hs, (IH prev Hp).
Qed.

(** What counts from zero and comes from a list that counts from zero is its front. *)
Lemma front_of (l seg : list Flashblock) :
  (forall k fb, l !! k = Some fb -> fb_index fb = Z.of_nat k) ->
  (forall i fb, seg !! i = Some fb -> slot_of fb = i /\ fb ∈ l) -> seg = take (length seg) l.
Proof.
  intros Hl Hs. apply list_eq. intros i. destruct (seg !! i) as [fb|] eqn:Hi.
  - pose proof (lookup_lt_Some _ _ _ Hi). destruct (Hs i fb Hi) as [Hslot [k Hk]%list_elem_of_lookup].
    pose proof (Hl k fb Hk) as Hix. rewrite lookup_take_lt by done. replace i with k by lia. done.
  - rewrite lookup_take_ge by (by apply lookup_ge_None). done.
Qed.

Lemma published_take {Tx} (encoded_2718 : Tx -> bytes) keccak256 rlp_access_list config l : forall n q i,
  take n (published encoded_2718 keccak256 rlp_access_list config q i l) =
  published encoded_2718 keccak256 rlp_access_list config q i (take n l).
Proof. induction l as [|x l IH]; intros [|n] q i; cbn; [done|done|done|]. by rewrite IH. Qed.

Lemma growing_take {Tx} (l : list (Piece (Tx := Tx))) : forall n q, growing q l -> growing q (take n l).
Proof. induction l as [|x l IH]; intros [|n] q; cbn; try done. intros [? ?]. split; [done|]. by apply IH. Qed.

Section pipeline.
Context {Tx Receipt Info Code : Type} (L : RlpLib) (C : Ed25519).
Context (encoded_2718 : Tx -> bytes) (keccak256 : bytes -> B256) (rlp_access_list : FlashblockAccessList -> bytes).

(** The builder *)
Context (config : PayloadConfig) (a : Authorization C) (n : nat) (job_tr : list (event (JobSig (Tx := Tx) (Bundle := BundleState Info Code) (Receipt := Receipt) C))) (job_r : Polled (Tx := Tx) (Bundle := BundleState Info Code) (Receipt := Receipt) C)
  (Hn : Z.of_nat n + 1 < 2 ^ 64)
  (Hjob : runs (run_job encoded_2718 keccak256 rlp_access_list C n (fresh_job C config a)) job_tr job_r)
  (Hbuilds : builds_extend C job_tr).

(** The receiver *)
Context (peer_order : gmap PeerId PeerState -> list (PeerId * PeerState)) (ctx : NodeCtx C)
  (ls : list (label C)) (tr : list (event p2p_sig)) (st : P2PState C)
  (Hnode : node_run L C peer_order ctx ls tr st).

(** Nobody but the builder signs for this payload. *)
Context (Hsigned : forall fb, origin L C ctx ls fb -> fb_payload_id fb = cf_payload_id config -> (a, fb) ∈ publications C job_tr).

(** Its coordinator *)
Context (validate : ValidationEnv -> ExecutionPayloadFlashblockDeltaV1 -> PayloadId -> option (OpBuiltPayload Tx (BundleState Info Code) Receipt) ->
  prog (ValSig (Tx := Tx) (Receipt := Receipt) (Info := Info) (Code := Code)) (result (OpBuiltPayload Tx (BundleState Info Code) Receipt) BalExecutorError))
  {Hval : FlashblockValidator validate}.

(** C1: Whatever the network does to the frames, what the receiver hands on of the payload
    is a front of what the builder published, and after executing it the receiver holds
    the block that the builder was committed to at that point: the same transactions,
    roots and hash. *)
Theorem receiver_has_committed_block seg co co_tr rs co' :
  stretch (broadcasts tr) (cf_payload_id config) seg -> seg <> [] ->
  co_ok co -> (forall fb, head seg = Some fb -> succeeds (co_flashblocks co) fb) ->
  runs (run_flashblock_processor C validate co seg) co_tr (rs, co') -> Forall (fun r => r = Ok tt) rs ->
  exists pieces x f q i,
    publications C job_tr = (fun fb => (a, fb)) <$> published encoded_2718 keccak256 rlp_access_list config None 0 pieces /\
    seg = take (length seg) (snd <$> publications C job_tr) /\
    pieces !! pred (length seg) = Some x /\
    reduce (co_flashblocks co') = Ok f /\ carries encoded_2718 f x /\
    co_latest co' = Some (q, i) /\ bl_hash (op_block q) = bl_hash (pc_block x).
Proof.
  intros Hseg Hne Hco Hs Hr Hrs. pose proof (node_run_inv _ _ _ _ _ _ _ Hnode) as [(_ & _ & Ho & Hor) _].
  pose proof (proj1 (wp_runs _ _) (run_job_kept encoded_2718 keccak256 rlp_access_list C config a None 0 n (fresh_job C config a)
    ltac:(lia) ltac:(lia) eq_refl eq_refl eq_refl eq_refl ltac:(done)) _ _ Hjob) as H.
  destruct (polled_published _ _ _ _ _ _ _ _ _ _ _ H Hbuilds) as (pieces & Hg & Hpub).
  assert (snd <$> publications C job_tr = published encoded_2718 keccak256 rlp_access_list config None 0 pieces) as Hsnd.
  { rewrite Hpub, <- list_fmap_compose. change (compose snd (fun fb => (a, fb))) with (@id Flashblock). by rewrite list_fmap_id. }
  assert (seg = take (length seg) (snd <$> publications C job_tr)) as Hfront.
  { rewrite Hsnd. apply front_of.
    - intros k fb Hk. destruct (published_lookup _ _ _ _ _ _ _ _ _ Hk) as [-> _]. lia.
    - intros i fb Hi. split; [by eapply stretch_slots|]. rewrite <- Hsnd. apply list_elem_of_fmap. exists (a, fb). split; [done|].
      pose proof (list_elem_of_lookup_2 _ _ _ Hi) as Hin. apply Hsigned; [|by eapply st_id].
      rewrite Forall_forall in Hor. apply Hor. destruct (st_part _ _ _ Hseg) as (b & c & ->). set_solver. }
  assert (seg = published encoded_2718 keccak256 rlp_access_list config None 0 (take (length seg) pieces)) as Heq.
  { rewrite <- published_take, <- Hsnd. exact Hfront. }
  assert (length (take (length seg) pieces) = length seg) as Hlen.
  { rewrite Heq at 2. clear. generalize (take (length seg) pieces) as l. intros l.
    enough (forall q i, length (published encoded_2718 keccak256 rlp_access_list config q i l) = length l) as -> by done.
    induction l as [|x l IH]; intros q i; cbn; [done|]. by rewrite IH. }
  destruct (take (length seg) pieces) as [|x l] eqn:Htake; [by destruct seg|].
  assert (growing None (x :: l)) as Hgx. { rewrite <- Htake. by apply growing_take. }
  rewrite Heq in Hs, Hr.
  destruct (follow_builder C validate encoded_2718 keccak256 rlp_access_list config x l co co_tr rs co' Hco Hgx Hs Hr Hrs)
    as (_ & (q & i & Hl & _ & Hh) & f & Hf & Hc).
  exists pieces, (from_option id x (last l)), f, q, i. split; [done|]. split; [done|]. split; [|done].
  assert (last (take (length seg) pieces) = Some (from_option id x (last l))) as Hlast.
  { rewrite Htake, last_cons. by destruct (last l). }
  rewrite last_lookup, Htake, Hlen, <- Htake, lookup_take_lt in Hlast by (destruct seg; cbn; [done|lia]). exact Hlast.
Qed.
End pipeline.

(** ** An example: one flashblock over one peer *)

Definition pl_config : PayloadConfig :=
  {| cf_payload_id := au_payload_id ex_authorization; cf_parent_hash := 6; cf_parent_beacon_block_root := None;
     cf_suggested_fee_recipient := 1; cf_prev_randao := 2; cf_timestamp := 1000; cf_no_tx_pool := None |}.
Definition pl_job := run_job (Bundle := BundleState Z unit) (Receipt := unit) id be_val ex_list ex_ed 2 (fresh_job ex_ed pl_config ex_authorization).
Definition pl_fb : Flashblock := flashblock_new id be_val ex_list 7 (op_block ex_third) 0 pl_config 0 0 0 None.
Definition pl_frame : bytes := p2p_encode ex_rlp ex_ed (P2pAuthorized (authorized_new ex_rlp ex_ed 7 ex_authorization (MsgFlashblock pl_fb))).
Definition pl_trace : list (event p2p_sig) := (([] ++ ex_t1) ++ ex_t2) ++ trace_of ex_world (ex_on_frame ex_s2 pl_frame) tt.
Definition pl_labels : list (label ex_ed) := (([] ++ [LPeers ex_ed]) ++ [LFrame ex_ed 1 ACCEPT]) ++ [LFrame ex_ed 1 pl_frame].
Definition pl_state : P2PState ex_ed := snd (value_of ex_world (ex_on_frame ex_s2 pl_frame) tt).

Lemma pl_run : node_run ex_rlp ex_ed map_to_list (ex_ctx None) pl_labels pl_trace pl_state.
Proof.
  unfold pl_labels, pl_trace. eapply nr_step; [eapply nr_step; [eapply nr_step; [apply nr_init|]|]|].
  - exact (ns_connect ex_rlp ex_ed map_to_list (ex_ctx None) (p2p_default ex_ed) 0 1 11 ex_t1 ex_m1
      (interp_runs ex_world (ex_connect ∅ 1 11) tt)).
  - exact (ex_step ex_s1 ACCEPT).
  - exact (ex_step ex_s2 pl_frame).
Qed.

Lemma pl_publications : publications ex_ed (trace_of ex_next pl_job ()) = [(ex_authorization, pl_fb)].
Proof. vm_compute. reflexivity. Qed.

Definition pl_carried (buf : bytes) : option Flashblock :=
  match p2p_parse ex_rlp ex_ed buf with
  | Ok (PartsAuthorized parts) =>
      match into_authorized ex_rlp ex_ed parts with
      | Ok m => match ad_msg m with MsgFlashblock fb => Some fb | _ => None end
      | Err _ => None
      end
  | _ => None
  end.
Lemma pl_carried_spec buf fb : carries_verified ex_rlp ex_ed (ex_ctx None) buf fb -> pl_carried buf = Some fb.
Proof. intros (parts & m & Hp & _ & Hi & Hm). unfold pl_carried. by rewrite Hp, Hi, Hm. Qed.

Lemma pl_signed fb :
  origin ex_rlp ex_ed (ex_ctx None) pl_labels fb -> fb_payload_id fb = cf_payload_id pl_config ->
  (ex_authorization, fb) ∈ publications ex_ed (trace_of ex_next pl_job ()).
Proof.
  rewrite pl_publications. intros [(peer & buf & Hin & Hc%pl_carried_spec)|(m & Hin & _)] _.
  - assert (buf = ACCEPT \/ buf = pl_frame) as [->| ->].
    { unfold pl_labels in Hin. cbn [app] in Hin. apply elem_of_cons in Hin as [Hin|Hin]; [discriminate Hin|].
      apply elem_of_cons in Hin as [[= _ ->]|Hin]; [by left|]. apply elem_of_cons in Hin as [[= _ ->]|Hin]; [by right|].
      by apply elem_of_nil in Hin. }
    + vm_compute in Hc. discriminate Hc.
    + assert (pl_carried pl_frame = Some pl_fb) as Hf by (vm_compute; reflexivity). rewrite Hf in Hc. injection Hc as <-.
      apply list_elem_of_here.
  - unfold pl_labels in Hin. cbn [app] in Hin. set_solver.
Qed.

Definition pl_follow := run_flashblock_processor ex_ed ex_validator ex_start [pl_fb].

Lemma receiver_has_committed_block_witness :
  exists f q i, reduce (co_flashblocks (snd (value_of ex_node pl_follow ((), 0)))) = Ok f /\
    co_latest (snd (value_of ex_node pl_follow ((), 0))) = Some (q, i) /\
    bl_hash (op_block q) = fd_block_hash (fb_diff f).
Proof.
  assert (exists co, value_of ex_node pl_follow ((), 0) = ([Ok tt], co)) as [co Hco].
  { eexists. vm_compute. reflexivity. }
  destruct (receiver_has_committed_block ex_rlp ex_ed id be_val ex_list pl_config ex_authorization 2
    (trace_of ex_next pl_job ()) (value_of ex_next pl_job ()) ltac:(vm_compute; reflexivity) (interp_runs ex_next pl_job ())
    ltac:(vm_compute; repeat split; (exact I || by exists [])) map_to_list (ex_ctx None) pl_labels pl_trace pl_state pl_run pl_signed ex_validator
    [pl_fb] ex_start (trace_of ex_node pl_follow ((), 0)) [Ok tt] co) as (pieces & x & f & q & i & _ & _ & _ & Hf & Hc & Hl & Hh).
  - assert (broadcasts pl_trace = [pl_fb]) as -> by (vm_compute; reflexivity). split; [by exists [], []| |].
    + by intros fb ->%list_elem_of_singleton.
    + intros k fb [-> <-]%list_lookup_singleton_Some. done.
  - discriminate.
  - exact ex_start_ok.
  - intros fb [= <-]. split; [by vm_compute|]. split; [done|]. eexists _, _. split; [reflexivity|]. split; [reflexivity|]. by vm_compute.
  - rewrite <- Hco. exact (interp_runs ex_node pl_follow ((), 0)).
  - repeat constructor.
  - exists f, q, i. rewrite Hco. split; [exact Hf|]. split; [exact Hl|]. rewrite Hh. symmetry. apply (carries_hash _ _ _ Hc).
Defined.
