(* ===== verification/Solidity.v ===== *)
(** * What the contracts use of Solidity

    Checked arithmetic on [uint256], reverts, and mappings.  A function of a contract
    that may revert is a function to [result _ (revert E)]; a revert leaves the state
    as it was, so only [Ok] carries a new one. *)

From S2P Require Import Prelude.

(** A revert is a panic (checked arithmetic, since 0.8) or one of the errors [E] that
    the contract declares. *)
Inductive revert (E : Type) := Panic | Custom (e : E).
Arguments Panic {E}.
Arguments Custom {E} e.

#[export] Instance revert_eq_dec `{EqDecision E} : EqDecision (revert E).
Proof. solve_decision. Defined.

Definition uadd {E} (a b : Z) : result Z (revert E) := if a + b <=? U256_MAX then Ok (a + b) else Err Panic.
Definition usub {E} (a b : Z) : result Z (revert E) := if b <=? a then Ok (a - b) else Err Panic.
Definition umul {E} (a b : Z) : result Z (revert E) := if a * b <=? U256_MAX then Ok (a * b) else Err Panic.

(** [if (!b) revert e();] *)
Definition require {E} (b : bool) (e : E) : result unit (revert E) := if b then Ok tt else Err (Custom e).

(** The revert of a contract that is called bubbles up. *)
Definition bubble {E F} (f : E -> F) (r : revert E) : revert F :=
  match r with Panic => Panic | Custom e => Custom (f e) end.

Lemma uadd_Ok {E} a b c : uadd (E := E) a b = Ok c <-> c = a + b /\ a + b <= U256_MAX.
Proof. unfold uadd. destruct (Z.leb_spec (a + b) U256_MAX); naive_solver lia. Qed.
Lemma usub_Ok {E} a b c : usub (E := E) a b = Ok c <-> c = a - b /\ b <= a.
Proof. unfold usub. destruct (Z.leb_spec b a); naive_solver lia. Qed.
Lemma umul_Ok {E} a b c : umul (E := E) a b = Ok c <-> c = a * b /\ a * b <= U256_MAX.
Proof. unfold umul. destruct (Z.leb_spec (a * b) U256_MAX); naive_solver lia. Qed.
Lemma require_Ok {E} b (e : E) u : require b e = Ok u <-> b = true.
Proof. destruct b, u; naive_solver. Qed.

(** Takes the hypothesis that a function returned apart, step by step. *)
Ltac inv_ok :=
  repeat match goal with
  | H : rbind _ _ = Ok _ |- _ => apply rbind_Ok in H as (?&?&?)
  | H : require _ _ = Ok _ |- _ => apply require_Ok in H
  | H : uadd _ _ = Ok _ |- _ => apply uadd_Ok in H as [-> ?]
  | H : usub _ _ = Ok _ |- _ => apply usub_Ok in H as [-> ?]
  | H : umul _ _ = Ok _ |- _ => apply umul_Ok in H as [-> ?]
  | H : map_err _ _ = Ok _ |- _ => apply map_err_Ok in H
  | H : ok_or _ _ = Ok _ |- _ => apply ok_or_Ok in H
  | H : Ok _ = Ok _ |- _ => injection H as H; subst
  | H : Err _ = Ok _ |- _ => discriminate H
  | H : negb _ = true |- _ => apply negb_true_iff in H
  | H : negb _ = false |- _ => apply negb_false_iff in H
  | H : (_ && _)%bool = true |- _ => apply andb_true_iff in H as [? ?]
  | H : (_ || _)%bool = false |- _ => apply orb_false_iff in H as [? ?]
  | H : (_ =? _) = true |- _ => apply Z.eqb_eq in H
  | H : (_ =? _) = false |- _ => apply Z.eqb_neq in H
  | H : (_ <=? _) = true |- _ => apply Z.leb_le in H
  | H : (_ <=? _) = false |- _ => apply Z.leb_gt in H
  | H : (_ <? _) = true |- _ => apply Z.ltb_lt in H
  | H : (_ <? _) = false |- _ => apply Z.ltb_ge in H
  | H : bool_decide _ = true |- _ => apply bool_decide_eq_true in H
  | H : bool_decide _ = false |- _ => apply bool_decide_eq_false in H
  | H : tt = tt |- _ => clear H
  | x : unit |- _ => destruct x
  end.

(** ** Mappings: a key without an entry has the value zero *)

Definition mget (m : gmap Z Z) (k : Z) : Z := default 0 (m !! k).

(** [m[k] += v], with the check of overflow *)
Definition credit {E} (m : gmap Z Z) (k v : Z) : result (gmap Z Z) (revert E) :=
  let? s := uadd (mget m k) v in Ok (<[k := s]> m).

Definition total_with {A} (f : A -> Z) (m : gmap Z A) : Z := map_fold (fun _ a acc => f a + acc) 0 m.
Definition total : gmap Z Z -> Z := total_with id.

Lemma mget_insert m k v j : mget (<[k := v]> m) j = if bool_decide (j = k) then v else mget m j.
Proof. unfold mget. case_bool_decide; subst; by rewrite ?lookup_insert_eq, ?lookup_insert_ne by done. Qed.

Lemma total_with_empty {A} (f : A -> Z) : total_with f ∅ = 0.
Proof. apply map_fold_empty. Qed.

Lemma total_with_fresh {A} (f : A -> Z) m k a :
  m !! k = None -> total_with f (<[k := a]> m) = f a + total_with f m.
Proof. intros H. unfold total_with. rewrite map_fold_insert_L; [done|intros; lia|done]. Qed.

Lemma total_with_delete {A} (f : A -> Z) m k :
  total_with f (delete k m) = total_with f m - from_option f 0 (m !! k).
Proof.
  destruct (m !! k) as [a|] eqn:H; simpl.
  - rewrite <-(insert_delete_id m k a H) at 2. rewrite total_with_fresh by apply lookup_delete_eq. lia.
  - rewrite delete_id by done. lia.
Qed.

Lemma total_with_insert {A} (f : A -> Z) m k a :
  total_with f (<[k := a]> m) = total_with f m - from_option f 0 (m !! k) + f a.
Proof.
  rewrite <-insert_delete_eq, total_with_fresh, total_with_delete by apply lookup_delete_eq. lia.
Qed.

Lemma total_insert m k v : total (<[k := v]> m) = total m - mget m k + v.
Proof. unfold total, mget. rewrite total_with_insert. by destruct (m !! k). Qed.

Lemma total_with_nonneg {A} (f : A -> Z) m :
  (forall k a, m !! k = Some a -> 0 <= f a) -> 0 <= total_with f m.
Proof.
  induction m as [|k a m Hk IH] using map_ind; intros H; [rewrite total_with_empty; lia|].
  rewrite total_with_fresh by done.
  assert (0 <= f a) by (apply (H k); by rewrite lookup_insert_eq).
  assert (0 <= total_with f m); [|lia]. apply IH. intros j b Hj. apply (H j).
  rewrite lookup_insert_ne; [done|]. congruence.
Qed.

(** One entry is at most the sum. *)
Lemma total_with_entry {A} (f : A -> Z) m k a :
  (forall j b, m !! j = Some b -> 0 <= f b) -> m !! k = Some a -> f a <= total_with f m.
Proof.
  intros H Hk. assert (0 <= total_with f (delete k m)) as Hd.
  { apply total_with_nonneg. intros j b [_ Hj]%lookup_delete_Some. by eapply H. }
  rewrite total_with_delete, Hk in Hd. simpl in Hd. lia.
Qed.

Definition sum_of {A} (f : A -> Z) (l : list A) : Z := foldr (fun a acc => f a + acc) 0 l.

Lemma sum_of_app {A} (f : A -> Z) l k : sum_of f (l ++ k) = sum_of f l + sum_of f k.
Proof. induction l as [|a l IH]; simpl; [done|]. rewrite IH. lia. Qed.

(** A list of distinct keys that covers the entries sums to the total. *)
Lemma total_covered m l : NoDup l -> (forall k, mget m k <> 0 -> k ∈ l) -> sum_of (mget m) l = total m.
Proof.
  revert m. induction l as [|k l IH]; intros m Hnd Hc; simpl.
  - enough (forall j a, m !! j = Some a -> a = 0) as H0.
    { clear Hc. induction m as [|j a m Hj IH] using map_ind; [done|]. rewrite total_insert.
      rewrite (H0 j a) by apply lookup_insert_eq. unfold mget. rewrite Hj. simpl.
      rewrite <-IH; [lia|]. intros i b Hi. apply (H0 i). rewrite lookup_insert_ne; [done|congruence]. }
    intros j a Hj. destruct (decide (a = 0)) as [|Hne]; [done|]. exfalso.
    assert (j ∈ @nil Z) by (apply Hc; unfold mget; by rewrite Hj). set_solver.
  - apply NoDup_cons in Hnd as [Hk Hnd].
    assert (forall j, mget (delete k m) j = if bool_decide (j = k) then 0 else mget m j) as Hd.
    { intros j. unfold mget. case_bool_decide; subst; by rewrite ?lookup_delete_eq, ?lookup_delete_ne by done. }
    assert (total (delete k m) = total m - mget m k) as Ht.
    { unfold total, mget. rewrite total_with_delete. by destruct (m !! k). }
    rewrite <-(IH (delete k m)) in Ht; [|done|].
    + assert (sum_of (mget (delete k m)) l = sum_of (mget m) l) as He; [|lia].
      clear -Hk Hd. induction l as [|j l IH]; simpl; [done|]. rewrite Hd.
      rewrite IH by set_solver. case_bool_decide; [set_solver|done].
    + intros j. rewrite Hd. case_bool_decide; [done|]. intros Hj%Hc. set_solver.
Qed.

Lemma credit_Ok {E} m k v m' :
  credit (E := E) m k v = Ok m' <-> m' = <[k := mget m k + v]> m /\ mget m k + v <= U256_MAX.
Proof.
  unfold credit, uadd. destruct (Z.leb_spec (mget m k + v) U256_MAX); simpl; naive_solver lia.
Qed.

Lemma credit_fits {E} m k v : mget m k + v <= U256_MAX -> credit (E := E) m k v = Ok (<[k := mget m k + v]> m).
Proof. intros. by apply credit_Ok. Qed.
Lemma uadd_fits {E} a b : a + b <= U256_MAX -> uadd (E := E) a b = Ok (a + b).
Proof. intros. by apply uadd_Ok. Qed.
Lemma usub_fits {E} a b : b <= a -> usub (E := E) a b = Ok (a - b).
Proof. intros. by apply usub_Ok. Qed.
Lemma umul_fits {E} a b : a * b <= U256_MAX -> umul (E := E) a b = Ok (a * b).
Proof. intros. by apply umul_Ok. Qed.

Lemma total_credit m k v : total (<[k := mget m k + v]> m) = total m + v.
Proof. rewrite total_insert. lia. Qed.
