(* ===== verification/StakingVault.v ===== *)
(** * The vault of bonds ([src/pkg/contracts/src/dispute/ERC20StakingVault.sol])

    The vault keeps a one-to-one ledger of an ERC-20 token: balances that are available,
    withdrawals that wait for their delay, and the pots of the dispute games.  Its
    functions are given with every guard; the token, the factory of games, the proxy's
    admin and the system's configuration are other contracts, whose answers are the
    record [VaultEnv] and the class [ERC20].  [ledger] is what the vault owes, and each
    function's effect on it is a lemma; the solvency of the vault is proved in
    [DisputeSystem.v], where the games call it. *)

From S2P Require Import Prelude Encoding ProofTypes Solidity.

(** ** The contracts around the vault *)

(** What the vault calls of an ERC-20 token: [None] is a revert.  The second argument of
    a transfer is the caller. *)
Class ERC20 (T : Type) := {
  balanceOf : T -> Address -> Z;
  safeTransfer : T -> Address -> Address -> Z -> option T;
  safeTransferFrom : T -> Address -> Address -> Address -> Z -> option T
}.

(** What the standard documents of a transfer by [vault]: balances are [uint256]s, and
    the sender's balance falls by no more than the amount. *)
Class ERC20Laws (T : Type) `{!ERC20 T} (vault : Address) : Prop := {
  balance_range (t : T) a : u256 (balanceOf t a);
  transfer_debits (t t' : T) to amount :
    safeTransfer t vault to amount = Some t' -> balanceOf t vault - amount <= balanceOf t' vault
}.

(** The answers that the vault gets in a call: the block's time, the pause of the system,
    the ERC-1967 admin with its owner, the factory, the size of an account's code, and
    Solady's address of a clone with arguments. *)
Record VaultEnv := {
  block_timestamp : Z;
  system_paused : bool;
  admin_slot : Address;
  admin_owner : Address;
  factory_owner : Address;
  getGameUUID : Z -> B256 -> bytes -> B256;
  gameImpls : Z -> Address;
  factory_games : Z -> B256 -> bytes -> Address;
  predictDeterministicAddress : Address -> bytes -> B256 -> Address -> Address;
  code_length : Address -> Z
}.

(** What the vault asks the game that calls it. *)
Record GameView := {
  view_gameType : Z;
  view_factory : Address;
  view_bondVault : Address;
  view_rootClaim : B256;
  view_extraData : bytes;
  view_gameCreator : Address;
  view_l1Head : B256;
  view_proposerBond : Z;
  view_challenger : Address;
  view_challengerBond : Z
}.

(** ** State *)

Record GameBond := { proposerBond : Z; challengerBond : Z; settled : bool }.
Record WithdrawalRequest := { request_amount : Z; request_timestamp : Z }.
Record Payout := { recipient : Address; amount : Z }.

Record Vault := {
  token : Address;
  systemConfig : Address;
  disputeGameFactory : Address;
  availableBalance : gmap Address Z;
  withdrawals : gmap Address WithdrawalRequest;
  gameBonds : gmap Address GameBond
}.

Definition no_bond : GameBond := {| proposerBond := 0; challengerBond := 0; settled := false |}.
Definition no_request : WithdrawalRequest := {| request_amount := 0; request_timestamp := 0 |}.
Definition bond_of (v : Vault) (game : Address) : GameBond := default no_bond (gameBonds v !! game).
Definition request_of (v : Vault) (account : Address) : WithdrawalRequest := default no_request (withdrawals v !! account).

Definition set_available (b : gmap Address Z) (v : Vault) : Vault :=
  {| token := token v; systemConfig := systemConfig v; disputeGameFactory := disputeGameFactory v;
     availableBalance := b; withdrawals := withdrawals v; gameBonds := gameBonds v |}.
Definition set_request (account : Address) (r : WithdrawalRequest) (v : Vault) : Vault :=
  {| token := token v; systemConfig := systemConfig v; disputeGameFactory := disputeGameFactory v;
     availableBalance := availableBalance v; withdrawals := <[account := r]> (withdrawals v); gameBonds := gameBonds v |}.
Definition set_bond (game : Address) (b : GameBond) (v : Vault) : Vault :=
  {| token := token v; systemConfig := systemConfig v; disputeGameFactory := disputeGameFactory v;
     availableBalance := availableBalance v; withdrawals := withdrawals v; gameBonds := <[game := b]> (gameBonds v) |}.

Inductive VaultError :=
| ChallengerBondAlreadyLocked (game : Address)
| ExactTransferRequired (expected actual : Z)
| GameAlreadySettled (game : Address)
| GameBondAlreadyInitialized (game : Address)
| GameNotRegistered (game : Address)
| InsufficientBalance (account : Address) (available required : Z)
| InvalidPayoutTotal (expected actual : Z)
| InvalidAccount
| InvalidAmount
| InvalidVaultConfiguration
| InvalidWithdrawal
| NotProxyAdminOwner (caller : Address)
| OwnerMismatch (factoryOwner proxyAdminOwner : Address)
| UnexpectedGameAddress (expected actual : Address)
| WithdrawalDelayNotMet (availableAt : Z)
| WithdrawalPaused
| TokenReverted.
#[export] Instance VaultError_eq_dec : EqDecision VaultError.
Proof. solve_decision. Defined.

(** The loop of [settle] that credits the payouts. *)
Fixpoint pay {E} (b : gmap Address Z) (payouts : list Payout) : result (gmap Address Z) (revert E) :=
  match payouts with
  | [] => Ok b
  | p :: rest => let? b' := credit b (recipient p) (amount p) in pay b' rest
  end.

Section vault.
Context {T : Type} `{!ERC20 T}.

(** The vault's own address and the delay fixed in its constructor. *)
Context (this : Address) (DELAY_SECONDS : Z).
Implicit Types (v : Vault) (t : T) (env : VaultEnv).

#[local] Abbreviation res A := (result A (revert VaultError)).

(** ** Ownership *)

Definition proxyAdminOwner env : res Address :=
  let? _ := require (negb (admin_slot env =? 0)) InvalidVaultConfiguration in Ok (admin_owner env).

Definition onlyProxyAdminOrOwner env (sender : Address) : res unit :=
  let? _ := require (negb (admin_slot env =? 0)) InvalidVaultConfiguration in
  require (negb (negb (sender =? admin_slot env) && negb (sender =? admin_owner env))) (NotProxyAdminOwner sender).

Definition ownersAligned env : res unit :=
  let? vaultOwner := proxyAdminOwner env in
  require (factory_owner env =? vaultOwner) (OwnerMismatch (factory_owner env) vaultOwner).

(** OpenZeppelin's [initializer] lets the body run once; the body is this. *)
Definition initialize env v (sender token_ systemConfig_ disputeGameFactory_ : Address) : res Vault :=
  let? _ := onlyProxyAdminOrOwner env sender in
  let? _ := require (negb ((token_ =? 0) || (code_length env token_ =? 0) || (systemConfig_ =? 0)
      || (code_length env systemConfig_ =? 0) || (disputeGameFactory_ =? 0)
      || (code_length env disputeGameFactory_ =? 0))) InvalidVaultConfiguration in
  Ok {| token := token_; systemConfig := systemConfig_; disputeGameFactory := disputeGameFactory_;
        availableBalance := availableBalance v; withdrawals := withdrawals v; gameBonds := gameBonds v |}.

(** ** Deposits and withdrawals *)

Definition deposit v t (sender account : Address) (amount : Z) : res (Vault * T) :=
  let? _ := require (negb (account =? 0)) InvalidAccount in
  let? _ := require (negb (amount =? 0)) InvalidAmount in
  let balanceBefore := balanceOf t this in
  let? t' := ok_or (safeTransferFrom t this sender this amount) (Custom TokenReverted) in
  let? received := usub (balanceOf t' this) balanceBefore in
  let? _ := require (received =? amount) (ExactTransferRequired amount received) in
  let? b := credit (availableBalance v) account amount in
  Ok (set_available b v, t').

Definition _debitAvailable v (account : Address) (amount : Z) : res Vault :=
  let available := mget (availableBalance v) account in
  let? _ := require (amount <=? available) (InsufficientBalance account available amount) in
  let? rest := usub available amount in
  Ok (set_available (<[account := rest]> (availableBalance v)) v).

(** The event has the time at which the withdrawal is due, a checked sum. *)
Definition requestWithdrawal env v (sender : Address) (amount : Z) : res Vault :=
  let? _ := require (negb (amount =? 0)) InvalidWithdrawal in
  let? v' := _debitAvailable v sender amount in
  let? queued := uadd (request_amount (request_of v' sender)) amount in
  let? _ := uadd (block_timestamp env) DELAY_SECONDS in
  Ok (set_request sender {| request_amount := queued; request_timestamp := block_timestamp env |} v').

Definition withdraw env v t (sender : Address) (amount : Z) : res (Vault * T) :=
  let? _ := require (negb (amount =? 0)) InvalidWithdrawal in
  let? _ := require (negb (system_paused env)) WithdrawalPaused in
  let request := request_of v sender in
  let? _ := require (negb ((request_amount request <? amount) || (request_timestamp request =? 0))) InvalidWithdrawal in
  let? availableAt := uadd (request_timestamp request) DELAY_SECONDS in
  let? _ := require (negb (block_timestamp env <? availableAt)) (WithdrawalDelayNotMet availableAt) in
  let? rest := usub (request_amount request) amount in
  let timestamp := if rest =? 0 then 0 else request_timestamp request in
  let? t' := ok_or (safeTransfer t this sender amount) (Custom TokenReverted) in
  Ok (set_request sender {| request_amount := rest; request_timestamp := timestamp |} v, t').

(** ** Bonds *)

(** [abi.encodePacked(gameCreator, rootClaim, l1Head, extraData)] *)
Definition clone_data (game : GameView) : bytes :=
  be_bytes 20 (view_gameCreator game) ++ abi_word (view_rootClaim game) ++ abi_word (view_l1Head game)
    ++ view_extraData game.

Definition expectedGame env v (game : GameView) : Address :=
  let uuid := getGameUUID env (view_gameType game) (view_rootClaim game) (view_extraData game) in
  predictDeterministicAddress env (gameImpls env MULTI_PROOF_GAME_TYPE) (clone_data game) uuid (disputeGameFactory v).

Definition lockProposerBond env v (sender : Address) (game : GameView) : res Vault :=
  let? _ := ownersAligned env in
  let? _ := require (negb (negb (view_gameType game =? MULTI_PROOF_GAME_TYPE)
      || negb (view_factory game =? disputeGameFactory v) || negb (view_bondVault game =? this)))
      (GameNotRegistered sender) in
  let? _ := require (expectedGame env v game =? sender) (UnexpectedGameAddress (expectedGame env v game) sender) in
  let? _ := require (proposerBond (bond_of v sender) =? 0) (GameBondAlreadyInitialized sender) in
  let? _ := require (negb (view_proposerBond game =? 0)) InvalidVaultConfiguration in
  let? v' := _debitAvailable v (view_gameCreator game) (view_proposerBond game) in
  Ok (set_bond sender {| proposerBond := view_proposerBond game; challengerBond := 0; settled := false |} v').

Definition _registeredGame env (gameAddress : Address) (game : GameView) : res unit :=
  let? _ := require (view_gameType game =? MULTI_PROOF_GAME_TYPE) (GameNotRegistered gameAddress) in
  let registered := factory_games env (view_gameType game) (view_rootClaim game) (view_extraData game) in
  require (negb (negb (registered =? gameAddress) || negb (view_bondVault game =? this))) (GameNotRegistered gameAddress).

Definition lockChallengerBond env v (sender : Address) (game : GameView) : res Vault :=
  let? _ := ownersAligned env in
  let? _ := _registeredGame env sender game in
  let bond := bond_of v sender in
  let? _ := require (negb (proposerBond bond =? 0)) (GameNotRegistered sender) in
  let? _ := require (negb (negb (challengerBond bond =? 0) || settled bond)) (ChallengerBondAlreadyLocked sender) in
  let? _ := require (negb ((view_challenger game =? 0) || (view_challengerBond game =? 0))) InvalidVaultConfiguration in
  let? v' := _debitAvailable v (view_challenger game) (view_challengerBond game) in
  Ok (set_bond sender {| proposerBond := proposerBond bond; challengerBond := view_challengerBond game;
                         settled := settled bond |} v').

(** The loop of [settle] that adds the payouts up. *)
Fixpoint payout_sum (acc : Z) (payouts : list Payout) : res Z :=
  match payouts with
  | [] => Ok acc
  | p :: rest => let? acc' := uadd acc (amount p) in payout_sum acc' rest
  end.

Definition settle env v (sender : Address) (game : GameView) (payouts : list Payout) : res Vault :=
  let? _ := _registeredGame env sender game in
  let bond := bond_of v sender in
  let? _ := require (negb (proposerBond bond =? 0)) (GameNotRegistered sender) in
  let? _ := require (negb (settled bond)) (GameAlreadySettled sender) in
  let? payoutTotal := payout_sum 0 payouts in
  let? expected := uadd (proposerBond bond) (challengerBond bond) in
  let? _ := require (payoutTotal =? expected) (InvalidPayoutTotal expected payoutTotal) in
  let? b := pay (availableBalance v) payouts in
  Ok (set_bond sender {| proposerBond := proposerBond bond; challengerBond := challengerBond bond; settled := true |}
        (set_available b v)).

End vault.

(** ** What the vault owes *)

Definition pot (b : GameBond) : Z := if settled b then 0 else proposerBond b + challengerBond b.

(** Available balances, queued withdrawals and pots. *)
Definition ledger (v : Vault) : Z :=
  total (availableBalance v) + total_with request_amount (withdrawals v) + total_with pot (gameBonds v).

(** Amounts are unsigned; a recorded bond is that of a proposer. *)
Record vault_ok (v : Vault) : Prop := {
  available_nonneg a x : availableBalance v !! a = Some x -> 0 <= x;
  requests_nonneg a r : withdrawals v !! a = Some r -> 0 <= request_amount r;
  bonds_positive g b : gameBonds v !! g = Some b -> 0 < proposerBond b /\ 0 <= challengerBond b
}.

Lemma mget_nonneg m a : (forall k x, m !! k = Some x -> 0 <= x) -> 0 <= mget m a.
Proof. intros H. unfold mget. destruct (m !! a) as [x|] eqn:E; simpl; [by eapply H|lia]. Qed.

Lemma pot_nonneg v g b : vault_ok v -> gameBonds v !! g = Some b -> 0 <= pot b.
Proof. intros H Hb%(bonds_positive _ H). unfold pot. case_match; lia. Qed.

Lemma insert_all {A} (P : A -> Prop) (m : gmap Z A) k a :
  P a -> (forall j x, m !! j = Some x -> P x) -> forall j x, <[k := a]> m !! j = Some x -> P x.
Proof. intros Ha H j x. rewrite lookup_insert. case_decide; naive_solver. Qed.

Lemma ledger_parts v : vault_ok v ->
  0 <= total (availableBalance v) /\ 0 <= total_with request_amount (withdrawals v) /\ 0 <= total_with pot (gameBonds v).
Proof.
  intros H. split; [apply total_with_nonneg; intros ???; by eapply available_nonneg|].
  split; apply total_with_nonneg; intros ? ? Hk; [by eapply requests_nonneg|by eapply pot_nonneg].
Qed.

Lemma available_le_ledger v a : vault_ok v -> mget (availableBalance v) a <= total (availableBalance v).
Proof.
  intros H. unfold mget. destruct (availableBalance v !! a) as [x|] eqn:E; simpl.
  - unfold total. change x with (id x). eapply total_with_entry; [|exact E]. intros. by eapply available_nonneg.
  - by apply ledger_parts.
Qed.

Lemma debit_spec v account x v' : vault_ok v -> 0 <= x -> _debitAvailable v account x = Ok v' ->
  vault_ok v' /\ ledger v' = ledger v - x /\
  v' = set_available (<[account := mget (availableBalance v) account - x]> (availableBalance v)) v.
Proof.
  intros H Hx E. unfold _debitAvailable in E. inv_ok. split; [|split; [|done]].
  - destruct H as [Ha Hr Hb]. split; simpl; [|done|done].
    apply insert_all; [lia|done].
  - unfold ledger. simpl. rewrite total_insert. lia.
Qed.

Section specs.
Context {T : Type} `{!ERC20 T}.
Context (this : Address) (DELAY_SECONDS : Z).
Implicit Types (v : Vault) (t : T) (env : VaultEnv).

Lemma deposit_spec v t sender account x v' t' : vault_ok v -> 0 <= x ->
  deposit this v t sender account x = Ok (v', t') ->
  vault_ok v' /\ ledger v' = ledger v + x /\ balanceOf t' this = balanceOf t this + x /\
  gameBonds v' = gameBonds v /\ disputeGameFactory v' = disputeGameFactory v.
Proof.
  intros H Hx E. unfold deposit in E. inv_ok. simplify_eq.
  match goal with H : credit _ _ _ = Ok _ |- _ => apply credit_Ok in H as [-> ?] end.
  split; [|split; [|split; [lia|done]]].
  - destruct H as [Ha Hr Hb]. split; simpl; [|done|done].
    apply insert_all; [|done]. pose proof (mget_nonneg _ account Ha). lia.
  - unfold ledger. simpl. rewrite total_credit. lia.
Qed.

Lemma request_spec env v sender x v' : vault_ok v -> 0 <= x ->
  requestWithdrawal DELAY_SECONDS env v sender x = Ok v' ->
  vault_ok v' /\ ledger v' = ledger v /\ gameBonds v' = gameBonds v /\ disputeGameFactory v' = disputeGameFactory v.
Proof.
  intros H Hx E. unfold requestWithdrawal in E. inv_ok.
  match goal with H : _debitAvailable _ _ _ = Ok _ |- _ => apply debit_spec in H as (Hok&Hled&->); [|done|done] end.
  assert (0 <= request_amount (request_of v sender)) as Hq.
  { unfold request_of. destruct (withdrawals v !! sender) eqn:E; simpl; [by eapply requests_nonneg|done]. }
  split; [|split; [|done]].
  - destruct Hok as [Ha Hr Hb]. split; simpl; [done| |done].
    refine (insert_all (fun r => 0 <= request_amount r) _ _ _ _ Hr). simpl in *.
    unfold request_of in *. simpl. lia.
  - unfold ledger in *. simpl in *. rewrite total_with_insert. unfold request_of. simpl.
    destruct (withdrawals v !! sender); simpl in *; lia.
Qed.

Lemma withdraw_spec env v t sender x v' t' : vault_ok v ->
  withdraw this DELAY_SECONDS env v t sender x = Ok (v', t') ->
  vault_ok v' /\ ledger v' = ledger v - x /\ safeTransfer t this sender x = Some t' /\
  gameBonds v' = gameBonds v /\ disputeGameFactory v' = disputeGameFactory v.
Proof.
  intros H E. unfold withdraw in E. inv_ok. simplify_eq. split; [|split; [|done]].
  - destruct H as [Ha Hr Hb]. split; simpl; [done| |done].
    refine (insert_all (fun r => 0 <= request_amount r) _ _ _ _ Hr). simpl. lia.
  - unfold ledger. simpl. rewrite total_with_insert. unfold request_of. simpl.
    destruct (withdrawals v !! sender); simpl in *; lia.
Qed.

Lemma lock_proposer_spec env v sender game v' : vault_ok v -> 0 <= view_proposerBond game ->
  lockProposerBond this env v sender game = Ok v' ->
  vault_ok v' /\ ledger v' = ledger v /\ disputeGameFactory v' = disputeGameFactory v /\
  gameBonds v !! sender = None /\ expectedGame env v game = sender /\
  gameBonds v' = <[sender := {| proposerBond := view_proposerBond game; challengerBond := 0; settled := false |}]>
                   (gameBonds v).
Proof.
  intros H Hx E. unfold lockProposerBond, bond_of in E. inv_ok.
  match goal with H : _debitAvailable _ _ _ = Ok _ |- _ => apply debit_spec in H as (Hok&Hled&->); [|done|done] end.
  assert (gameBonds v !! sender = None) as Hn.
  { destruct (gameBonds v !! sender) eqn:Eb; [|done]. simpl in *. apply (bonds_positive _ H) in Eb. lia. }
  split; [|split; [|repeat split; done]].
  - destruct Hok as [Ha Hr Hb]. split; simpl; [done|done|].
    refine (insert_all (fun b => 0 < proposerBond b /\ 0 <= challengerBond b) _ _ _ _ Hb). simpl. lia.
  - unfold ledger in *. simpl in *. rewrite total_with_insert, Hn. simpl. unfold pot. simpl. lia.
Qed.

Lemma lock_challenger_spec env v sender game v' : vault_ok v -> 0 <= view_challengerBond game ->
  lockChallengerBond this env v sender game = Ok v' ->
  vault_ok v' /\ ledger v' = ledger v /\ disputeGameFactory v' = disputeGameFactory v /\
  exists p, gameBonds v !! sender = Some {| proposerBond := p; challengerBond := 0; settled := false |} /\
    gameBonds v' = <[sender := {| proposerBond := p; challengerBond := view_challengerBond game; settled := false |}]>
                     (gameBonds v).
Proof.
  intros H Hx E. unfold lockChallengerBond, bond_of in E. inv_ok.
  match goal with H : _debitAvailable _ _ _ = Ok _ |- _ => apply debit_spec in H as (Hok&Hled&->); [|done|done] end.
  destruct (gameBonds v !! sender) as [[p c s]|] eqn:Eb; simpl in *; [|done]. subst c s.
  pose proof (bonds_positive _ H _ _ Eb) as [Hp _]. simpl in Hp.
  split; [|split; [|split; [done|by exists p]]].
  - destruct Hok as [Ha Hr Hb]. split; simpl; [done|done|].
    refine (insert_all (fun b => 0 < proposerBond b /\ 0 <= challengerBond b) _ _ _ _ Hb). simpl. lia.
  - unfold ledger in *. simpl in *. rewrite total_with_insert, Eb. simpl. unfold pot. simpl. lia.
Qed.

(** ** Settlement *)

Lemma payout_sum_Ok payouts : forall acc, Forall (fun p => 0 <= amount p) payouts ->
  acc + sum_of amount payouts <= U256_MAX -> payout_sum acc payouts = Ok (acc + sum_of amount payouts).
Proof.
  induction payouts as [|p ps IH]; simpl; intros acc Hp Hb; [f_equal; lia|].
  apply Forall_cons in Hp as [Hp Hps].
  assert (0 <= sum_of amount ps) by (clear -Hps; induction Hps; simpl; lia).
  unfold uadd. rewrite (proj2 (Z.leb_le _ _)) by lia. simpl. rewrite IH by (done || lia). f_equal. lia.
Qed.

Lemma payout_sum_value payouts : forall acc s, payout_sum acc payouts = Ok s -> s = acc + sum_of amount payouts.
Proof.
  induction payouts as [|p ps IH]; simpl; intros acc s E; inv_ok; [lia|].
  match goal with H : payout_sum _ _ = Ok _ |- _ => apply IH in H end. lia.
Qed.

Lemma pay_total {Er} payouts : forall b b', pay (E := Er) b payouts = Ok b' -> total b' = total b + sum_of amount payouts.
Proof.
  induction payouts as [|p ps IH]; simpl; intros b b' E; inv_ok; [lia|].
  match goal with H : credit _ _ _ = Ok _ |- _ => apply credit_Ok in H as [-> ?] end.
  match goal with H : pay _ _ = Ok _ |- _ => apply IH in H end. rewrite total_credit in *. lia.
Qed.

(** Who is paid: each account gets the sum of its payouts. *)
Definition paid_to (a : Address) (payouts : list Payout) : Z :=
  sum_of (fun p => if recipient p =? a then amount p else 0) payouts.

Lemma pay_spec {Er} payouts : forall b b', pay (E := Er) b payouts = Ok b' ->
  forall a, mget b' a = mget b a + paid_to a payouts.
Proof.
  unfold paid_to. induction payouts as [|p ps IH]; simpl; intros b b' E a; inv_ok; [lia|].
  match goal with H : credit _ _ _ = Ok _ |- _ => apply credit_Ok in H as [-> ?] end.
  match goal with H : pay _ _ = Ok _ |- _ => rewrite (IH _ _ H a) end.
  rewrite mget_insert. case_bool_decide as Ha.
  - subst. rewrite Z.eqb_refl. lia.
  - rewrite (proj2 (Z.eqb_neq _ _)) by congruence. lia.
Qed.

Lemma pay_nonneg {Er} payouts : forall b b', Forall (fun p => 0 <= amount p) payouts -> pay (E := Er) b payouts = Ok b' ->
  (forall a x, b !! a = Some x -> 0 <= x) -> forall a x, b' !! a = Some x -> 0 <= x.
Proof.
  induction payouts as [|p ps IH]; simpl; intros b b' Hp E H; inv_ok; [done|].
  apply Forall_cons in Hp as [Hp Hps].
  match goal with H : credit _ _ _ = Ok _ |- _ => apply credit_Ok in H as [-> ?] end.
  eapply IH; [done|done|]. apply insert_all; [|done]. pose proof (mget_nonneg _ (recipient p) H). lia.
Qed.

(** The loop does not overflow if what is owed fits a [uint256]. *)
Lemma pay_succeeds {Er} payouts : forall b, Forall (fun p => 0 <= amount p) payouts ->
  (forall a x, b !! a = Some x -> 0 <= x) -> total b + sum_of amount payouts <= U256_MAX ->
  exists b', pay (E := Er) b payouts = Ok b'.
Proof.
  induction payouts as [|p ps IH]; simpl; intros b Hp H Hs; [by eexists|].
  apply Forall_cons in Hp as [Hp Hps].
  assert (0 <= sum_of amount ps) by (clear -Hps; induction Hps; simpl; lia).
  assert (mget b (recipient p) <= total b) as Hle.
  { unfold mget, total. destruct (b !! recipient p) eqn:Eb; simpl.
    - change z with (id z). eapply total_with_entry; [|done]. done.
    - apply total_with_nonneg. done. }
  rewrite credit_fits by lia. simpl.
  apply IH; [done| |rewrite total_credit; lia].
  apply insert_all; [|done]. pose proof (mget_nonneg _ (recipient p) H). lia.
Qed.

Lemma settle_spec env v sender game payouts v' : vault_ok v -> Forall (fun p => 0 <= amount p) payouts ->
  settle this env v sender game payouts = Ok v' ->
  vault_ok v' /\ ledger v' = ledger v /\ disputeGameFactory v' = disputeGameFactory v /\
  (forall a, mget (availableBalance v') a = mget (availableBalance v) a + paid_to a payouts) /\
  withdrawals v' = withdrawals v /\
  exists b, gameBonds v !! sender = Some b /\ settled b = false /\ sum_of amount payouts = pot b /\
    gameBonds v' = <[sender := {| proposerBond := proposerBond b; challengerBond := challengerBond b; settled := true |}]>
                     (gameBonds v).
Proof.
  intros H Hp E. unfold settle, bond_of in E. inv_ok.
  destruct (gameBonds v !! sender) as [[p c s]|] eqn:Eb; simpl in *; [|done]. subst s.
  match goal with H : payout_sum _ _ = Ok _ |- _ => apply payout_sum_value in H; rewrite Z.add_0_l in H end. subst.
  pose proof (bonds_positive _ H _ _ Eb) as [? ?]. simpl in *.
  match goal with H : pay _ _ = Ok _ |- _ => rename H into Hpay end.
  split; [|split; [|split; [done|split; [by eapply pay_spec|split; [done|]]]]].
  - destruct H as [Ha Hr Hb]. split; simpl; [by eapply pay_nonneg|done|].
    refine (insert_all (fun b => 0 < proposerBond b /\ 0 <= challengerBond b) _ _ _ _ Hb). simpl. lia.
  - unfold ledger. simpl. rewrite total_with_insert, Eb, (pay_total payouts _ _ Hpay). simpl. unfold pot. simpl. lia.
  - eexists. split; [done|]. split; [done|]. by split.
Qed.

(** A settlement of the pot by the registered game goes through if the vault's debts fit a [uint256]. *)
Lemma settle_succeeds env v sender game payouts b :
  vault_ok v -> Forall (fun p => 0 <= amount p) payouts -> ledger v <= U256_MAX ->
  view_gameType game = MULTI_PROOF_GAME_TYPE -> view_bondVault game = this ->
  factory_games env (view_gameType game) (view_rootClaim game) (view_extraData game) = sender ->
  gameBonds v !! sender = Some b -> settled b = false -> sum_of amount payouts = pot b ->
  exists v', settle this env v sender game payouts = Ok v'.
Proof.
  intros H Hp Hl Hty Hv Hr Hb Hs Hsum. unfold settle, _registeredGame, bond_of. rewrite Hr, Hty, Hv, !Z.eqb_refl, Hb.
  destruct (bonds_positive _ H _ _ Hb) as [Hp0 Hc0]. simpl. rewrite Hs.
  assert (pot b = proposerBond b + challengerBond b) as Hpot by (unfold pot; by rewrite Hs).
  rewrite (proj2 (Z.eqb_neq _ _)) by lia. simpl.
  destruct (ledger_parts _ H) as (Ha0&Hr0&Hg0).
  assert (pot b <= total_with pot (gameBonds v)) as Hle.
  { eapply total_with_entry; [|done]. intros ? ? Hj. by eapply pot_nonneg. }
  unfold ledger in Hl.
  rewrite payout_sum_Ok by (done || lia). simpl. unfold uadd. rewrite (proj2 (Z.leb_le _ _)) by lia. simpl.
  rewrite (proj2 (Z.eqb_eq _ _)) by lia. simpl.
  destruct (pay_succeeds (Er := VaultError) payouts (availableBalance v)) as [b' ->]; [done|by intros; eapply available_nonneg|lia|].
  simpl. by eexists.
Qed.

End specs.
