(* ===== verification/MultiProofGame.v ===== *)
(** * The dispute game ([src/pkg/contracts/src/dispute/MultiProofGame.sol], [lib/LibProof.sol])

    A game is a clone: its code has the immutables that the constructor fixed
    ([Immutables]), its arguments are bytes appended to the clone ([args]), and its storage
    is the record [Game].  Each function of the contract is a definition with all its
    guards, in the order of the source; functions that call the vault ([StakingVault.v])
    take it and return it.  The anchor state registry, the other games and the verifiers
    are contracts that answer in a call ([GameEnv]).  Events are not modelled; the
    functions that return a status return the one in the new state.

    The statuses, lanes and commitments are those of the services ([ProofTypes.v]), which
    are generated from this contract's interface. *)

From S2P Require Import Prelude Encoding ProofTypes Aggregation Solidity StakingVault.

(** ** [LibProof] *)

Definition has (bitmap : Z) (lane : ProofLane) : bool := negb (Z.land bitmap (mask lane) =? 0).
Definition set (bitmap : Z) (lane : ProofLane) : Z := Z.lor bitmap (mask lane).

(** [ProofLane(laneId)]: the conversion of a number to the enumeration. *)
Definition lane_of_id (laneId : Z) : option ProofLane := find (fun l => lane_u8 l =? laneId) all_lanes.

Definition count (bitmap : Z) : Z :=
  foldl (fun accepted lane => if has bitmap lane then accepted + 1 else accepted) 0 all_lanes.
Definition hasThreshold (bitmap threshold : Z) : bool := threshold <=? count bitmap.

(** ** State *)

Record GameConfig := {
  cfg_rollupConfigHash : B256;
  cfg_blockInterval : Z;
  cfg_challengePeriod : Z;
  cfg_proofPeriod : Z;
  cfg_proposerBond : Z;
  cfg_challengerBond : Z;
  cfg_protocolFeeRecipient : Address;
  cfg_proofThreshold : Z;
  cfg_aggregationVKey : B256;
  cfg_rangeVKeyCommitment : B256;
  cfg_teeImageId : B256;
  cfg_validityProofVerifier : Address;
  cfg_teeVerifier : Address;
  cfg_securityCouncil : Address;
  cfg_anchorStateRegistry : Address;
  cfg_bondVault : Address
}.

Record Immutables := {
  imm_threshold : Z;
  imm_domainHash : B256;
  imm_rollupConfigHash : B256;
  imm_blockInterval : Z;
  imm_challengePeriod : Z;
  imm_proofPeriod : Z;
  imm_proposerBond : Z;
  imm_challengerBond : Z;
  imm_protocolFeeRecipient : Address;
  imm_aggregationVKey : B256;
  imm_rangeVKeyCommitment : B256;
  imm_teeImageId : B256;
  imm_validityProofVerifier : Address;
  imm_teeVerifier : Address;
  imm_securityCouncil : Address;
  imm_disputeGameFactory : Address;
  imm_anchorStateRegistry : Address;
  imm_bondVault : Address
}.

Inductive BondDistributionMode := UNDECIDED | NORMAL | REFUND.
#[export] Instance BondDistributionMode_eq_dec : EqDecision BondDistributionMode.
Proof. solve_decision. Defined.

Record Game := {
  createdAt : Z;
  resolvedAt : Z;
  game_status : GameStatus;
  initialized : bool;
  l1OriginNumber : Z;
  claimData : ClaimData;
  normalModeCredit : gmap Address Z;
  refundModeCredit : gmap Address Z;
  bondDistributionMode : BondDistributionMode;
  wasRespectedGameTypeWhenCreated : bool;
  totalBonds : Z;
  laneRecipient : gmap Z Address
}.

(** The storage of a clone before [initialize]. *)
Definition fresh_claim : ClaimData :=
  {| claim_status := Unchallenged; claim_challenger := 0; claim_deadline := 0; claim_proof_bitmap := 0;
     claim_invalidation_reason := NoReason |}.
Definition fresh_game : Game :=
  {| createdAt := 0; resolvedAt := 0; game_status := InProgress; initialized := false; l1OriginNumber := 0;
     claimData := fresh_claim; normalModeCredit := ∅; refundModeCredit := ∅; bondDistributionMode := UNDECIDED;
     wasRespectedGameTypeWhenCreated := false; totalBonds := 0; laneRecipient := ∅ |}.

Definition with_claim (c : ClaimData) (g : Game) : Game :=
  {| createdAt := createdAt g; resolvedAt := resolvedAt g; game_status := game_status g; initialized := initialized g;
     l1OriginNumber := l1OriginNumber g; claimData := c; normalModeCredit := normalModeCredit g;
     refundModeCredit := refundModeCredit g; bondDistributionMode := bondDistributionMode g;
     wasRespectedGameTypeWhenCreated := wasRespectedGameTypeWhenCreated g; totalBonds := totalBonds g;
     laneRecipient := laneRecipient g |}.
Definition with_deposit (credits : gmap Address Z) (bonds : Z) (g : Game) : Game :=
  {| createdAt := createdAt g; resolvedAt := resolvedAt g; game_status := game_status g; initialized := initialized g;
     l1OriginNumber := l1OriginNumber g; claimData := claimData g; normalModeCredit := normalModeCredit g;
     refundModeCredit := credits; bondDistributionMode := bondDistributionMode g;
     wasRespectedGameTypeWhenCreated := wasRespectedGameTypeWhenCreated g; totalBonds := bonds;
     laneRecipient := laneRecipient g |}.
Definition with_recipient (laneId : Z) (a : Address) (g : Game) : Game :=
  {| createdAt := createdAt g; resolvedAt := resolvedAt g; game_status := game_status g; initialized := initialized g;
     l1OriginNumber := l1OriginNumber g; claimData := claimData g; normalModeCredit := normalModeCredit g;
     refundModeCredit := refundModeCredit g; bondDistributionMode := bondDistributionMode g;
     wasRespectedGameTypeWhenCreated := wasRespectedGameTypeWhenCreated g; totalBonds := totalBonds g;
     laneRecipient := <[laneId := a]> (laneRecipient g) |}.
Definition with_mode (m : BondDistributionMode) (g : Game) : Game :=
  {| createdAt := createdAt g; resolvedAt := resolvedAt g; game_status := game_status g; initialized := initialized g;
     l1OriginNumber := l1OriginNumber g; claimData := claimData g; normalModeCredit := normalModeCredit g;
     refundModeCredit := refundModeCredit g; bondDistributionMode := m;
     wasRespectedGameTypeWhenCreated := wasRespectedGameTypeWhenCreated g; totalBonds := totalBonds g;
     laneRecipient := laneRecipient g |}.
(** The end of [resolve]: outcome, reason, credits and time. *)
Definition resolved_as (s : GameStatus) (reason : InvalidationReason) (credits : gmap Address Z) (now : Z) (g : Game) : Game :=
  {| createdAt := createdAt g; resolvedAt := now; game_status := s; initialized := initialized g;
     l1OriginNumber := l1OriginNumber g;
     claimData := {| claim_status := Resolved; claim_challenger := claim_challenger (claimData g);
                     claim_deadline := claim_deadline (claimData g);
                     claim_proof_bitmap := claim_proof_bitmap (claimData g); claim_invalidation_reason := reason |};
     normalModeCredit := credits; refundModeCredit := refundModeCredit g;
     bondDistributionMode := bondDistributionMode g;
     wasRespectedGameTypeWhenCreated := wasRespectedGameTypeWhenCreated g; totalBonds := totalBonds g;
     laneRecipient := laneRecipient g |}.

Inductive GameError :=
| AlreadyInitialized
| BadExtraData
| NotDisputeGameFactory (caller : Address)
| IncorrectBondAmount
| GamePaused
| InvalidDomainHash (expected actual : B256)
| InvalidParentGame
| InvalidL2BlockNumber (expected actual : Z)
| UnexpectedRootClaim (claim : B256)
| GameNotRetryable (uuid : B256)
| ClaimAlreadyResolved
| GameOver
| ClaimAlreadyChallenged
| InvalidProof (lane : ProofLane) (rootId : B256)
| InvalidLane (lane : Z)
| DuplicateProofLane (lane : ProofLane) (rootId : B256) (bitmap : Z)
| ParentGameNotResolved
| GameNotOver
| ImpossibleProposalStatus
| InvalidBondDistributionMode
| GameNotFinalized
| TimestampOutOfBounds (value : Z)
| InvalidActivationParameters
| InconsistentSystemConfiguration
| VerifierReverted
| VaultReverted (e : VaultError).
#[export] Instance GameError_eq_dec : EqDecision GameError.
Proof. solve_decision. Defined.

(** ** The contracts around a game *)

(** What a game asks of another game: the standard getters, and those of a multi-proof
    game ([resolutionStatus] is resolvable, outcome and reason). *)
Record Peer := {
  peer_gameType : Z;
  peer_status : GameStatus;
  peer_rootClaim : B256;
  peer_l2SequenceNumber : Z;
  peer_resolutionStatus : bool * GameStatus * InvalidationReason;
  peer_wasRespected : bool
}.

(** The answers in a call: those that the vault gets, the block's number, the anchor state
    registry, the other games, and the verifiers ([None] is a revert). *)
Record GameEnv := {
  vault_env : VaultEnv;
  block_number : Z;
  registry_paused : bool;
  isGameRegistered : Address -> bool;
  isGameRespected : Address -> bool;
  isGameBlacklisted : Address -> bool;
  isGameRetired : Address -> bool;
  isGameFinalized : Address -> bool;
  isGameProper : Address -> bool;
  anchorGame : Address;
  getStartingAnchorRoot : B256 * Z;
  respectedGameType : Z;
  peers : Address -> Peer;
  verify : Address -> bytes -> B256 -> bytes -> option bool
}.
Definition now (env : GameEnv) : Z := block_timestamp (vault_env env).

(** What the constructor asks of the registry and of the vault. *)
Record Deployment := {
  registry_factory : Address -> Address;
  registry_systemConfig : Address -> Address;
  l2ChainId : Address -> Z;
  vault_systemConfig : Address -> Address;
  vault_factory : Address -> Address
}.

Definition CHALLENGER_REWARD_BPS : Z := 5000.
Definition BPS : Z := 10000.

#[local] Abbreviation res A := (result A (revert GameError)).

Definition activation_ok (c : GameConfig) : bool :=
  negb ((cfg_blockInterval c =? 0) || (cfg_challengePeriod c =? 0) || (cfg_proofPeriod c <=? cfg_challengePeriod c)
    || (cfg_proposerBond c =? 0) || (U256_MAX / CHALLENGER_REWARD_BPS <? cfg_proposerBond c)
    || (cfg_challengerBond c =? 0) || (cfg_proofThreshold c <? 2)
    || (Z.of_nat PROOF_LANE_COUNT <? cfg_proofThreshold c) || (cfg_protocolFeeRecipient c =? 0)
    || (cfg_aggregationVKey c =? 0) || (cfg_rangeVKeyCommitment c =? 0)
    || (cfg_teeImageId c =? 0) || (cfg_anchorStateRegistry c =? 0)
    || (cfg_bondVault c =? 0) || (cfg_validityProofVerifier c =? 0)
    || (cfg_teeVerifier c =? 0) || (cfg_securityCouncil c =? 0)).

Section game.
(** The hash function is a parameter. *)
Variable keccak256 : bytes -> B256.

(** [LibProof.domainHash] and [LibProof.rootId] *)
Definition domainHash (chainId proofSystemVersion : Z) (configHash : B256) (interval : Z) : B256 :=
  keccak256 (abi_word chainId ++ abi_word proofSystemVersion ++ abi_word configHash ++ abi_word interval).
Definition proposal_rootId (domain : B256) (parent : Address) (claim : B256) (l2BlockNumber : Z)
    (l1OriginHash : B256) (originNumber : Z) : B256 :=
  keccak256 (abi_word domain ++ abi_word parent ++ abi_word claim ++ abi_word l2BlockNumber
    ++ abi_word l1OriginHash ++ abi_word originNumber).

Definition constructor (d : Deployment) (config : GameConfig) : res Immutables :=
  let? _ := require (activation_ok config) InvalidActivationParameters in
  let factory := registry_factory d (cfg_anchorStateRegistry config) in
  let system := registry_systemConfig d (cfg_anchorStateRegistry config) in
  let chainId := l2ChainId d system in
  let? _ := require (negb ((factory =? 0) || (chainId =? 0))) InvalidActivationParameters in
  let? _ := require (negb (negb (vault_systemConfig d (cfg_bondVault config) =? system)
      || negb (vault_factory d (cfg_bondVault config) =? factory))) InconsistentSystemConfiguration in
  Ok {| imm_threshold := cfg_proofThreshold config;
        imm_domainHash := domainHash chainId PROOF_SYSTEM_VERSION (cfg_rollupConfigHash config) (cfg_blockInterval config);
        imm_rollupConfigHash := cfg_rollupConfigHash config;
        imm_blockInterval := cfg_blockInterval config;
        imm_challengePeriod := cfg_challengePeriod config;
        imm_proofPeriod := cfg_proofPeriod config;
        imm_proposerBond := cfg_proposerBond config;
        imm_challengerBond := cfg_challengerBond config;
        imm_protocolFeeRecipient := cfg_protocolFeeRecipient config;
        imm_aggregationVKey := cfg_aggregationVKey config;
        imm_rangeVKeyCommitment := cfg_rangeVKeyCommitment config;
        imm_teeImageId := cfg_teeImageId config;
        imm_validityProofVerifier := cfg_validityProofVerifier config;
        imm_teeVerifier := cfg_teeVerifier config;
        imm_securityCouncil := cfg_securityCouncil config;
        imm_disputeGameFactory := factory;
        imm_anchorStateRegistry := cfg_anchorStateRegistry config;
        imm_bondVault := cfg_bondVault config |}.

(** The code of the clone, its address and its arguments. *)
Context (imm : Immutables) (self : Address) (args : bytes).
Implicit Types (env : GameEnv) (g : Game) (v : Vault).

(** ** Arguments of the clone *)

Definition getArgBytes (offset n : nat) : bytes := take n (drop offset args).
Definition getArgUint256 (offset : nat) : Z := be_val (getArgBytes offset 32).

Definition gameCreator : Address := be_val (getArgBytes 0 20).
Definition rootClaim : B256 := getArgUint256 20.
Definition game_l1Head : B256 := getArgUint256 52.
Definition proposalDomainHash : B256 := getArgUint256 84.
Definition l2SequenceNumber : Z := getArgUint256 116.
Definition parentRef : res Address :=
  let rawParentRef := getArgUint256 148 in
  let? _ := require (negb (ADDRESS_MAX <? rawParentRef)) BadExtraData in Ok rawParentRef.
Definition game_attempt : Z := getArgUint256 180.
Definition extraData : bytes := getArgBytes 84 128.

Definition _toTimestamp (value : Z) : res Z :=
  let? _ := require (negb (U64_MAX <? value)) (TimestampOutOfBounds value) in Ok value.

(** What the vault sees of this game. *)
Definition view g : GameView :=
  {| view_gameType := MULTI_PROOF_GAME_TYPE; view_factory := imm_disputeGameFactory imm;
     view_bondVault := imm_bondVault imm; view_rootClaim := rootClaim; view_extraData := extraData;
     view_gameCreator := gameCreator; view_l1Head := game_l1Head; view_proposerBond := imm_proposerBond imm;
     view_challenger := claim_challenger (claimData g); view_challengerBond := imm_challengerBond imm |}.

(** ** Views *)

Definition gameOver env g : bool :=
  (claim_deadline (claimData g) <=? now env) || hasThreshold (claim_proof_bitmap (claimData g)) (imm_threshold imm).

Definition challengeDeadline g : res Z := let? t := uadd (createdAt g) (imm_challengePeriod imm) in _toTimestamp t.
Definition proofDeadline g : res Z := let? t := uadd (createdAt g) (imm_proofPeriod imm) in _toTimestamp t.

Definition rootId g : res B256 :=
  let? parent := parentRef in
  Ok (proposal_rootId (imm_domainHash imm) parent rootClaim l2SequenceNumber game_l1Head (l1OriginNumber g)).

Definition startingProposal env : res (B256 * Z) :=
  let? parent := parentRef in
  if parent =? imm_anchorStateRegistry imm then Ok (getStartingAnchorRoot env)
  else Ok (peer_rootClaim (peers env parent), peer_l2SequenceNumber (peers env parent)).

(** The uninitialized status is [IN_PROGRESS], the first of the enumeration. *)
Definition _parentResolution env : res (GameStatus * bool) :=
  let? parent := parentRef in
  if parent =? imm_anchorStateRegistry imm then Ok (DefenderWins, false)
  else
    let parentBlacklisted := isGameBlacklisted env parent in
    Ok (if parentBlacklisted then InProgress else peer_status (peers env parent), parentBlacklisted).

(** The condition that [resolve], [submitProofLane] and [resolutionStatus] share. *)
Definition parent_invalid (p : GameStatus * bool) : bool := snd p || bool_decide (fst p = ChallengerWins).

Definition proven g : bool :=
  bool_decide (claim_status (claimData g) = UnchallengedAndValidProofProvided)
  || bool_decide (claim_status (claimData g) = ChallengedAndValidProofProvided).

Definition resolutionStatus env g : res (bool * GameStatus * InvalidationReason) :=
  if negb (bool_decide (game_status g = InProgress))
  then Ok (false, game_status g, claim_invalidation_reason (claimData g))
  else
    let? parent := _parentResolution env in
    if parent_invalid parent then Ok (true, ChallengerWins, InvalidParent)
    else
      let parentResolved := negb (bool_decide (fst parent = InProgress)) in
      if negb (gameOver env g) then Ok (false, InProgress, NoReason)
      else if negb (proven g) then Ok (parentResolved, ChallengerWins, ProofTimeout)
      else if negb parentResolved then Ok (false, InProgress, NoReason)
      else Ok (true, DefenderWins, NoReason).

(** ** Creation *)

Definition _isValidGame env (game : Address) : bool :=
  if negb (isGameRegistered env game) || negb (isGameRespected env game)
     || isGameBlacklisted env game || isGameRetired env game
  then false
  else if negb (peer_gameType (peers env game) =? MULTI_PROOF_GAME_TYPE)
  then negb (bool_decide (peer_status (peers env game) = ChallengerWins))
  else let '(_, outcome, _) := peer_resolutionStatus (peers env game) in
       negb (bool_decide (outcome = ChallengerWins)).

Definition _isValidParent env (parent : Address) : bool :=
  if parent =? imm_anchorStateRegistry imm then anchorGame env =? 0 else _isValidGame env parent.

Definition _depositBond g (refundRecipient : Address) (x : Z) : res Game :=
  let? credits := credit (refundModeCredit g) refundRecipient x in
  let? bonds := uadd (totalBonds g) x in
  Ok (with_deposit credits bonds g).

(** The extra data and the UUID of the attempt before this one. *)
Definition previousExtraData (parent : Address) (previous : Z) : bytes :=
  abi_word (imm_domainHash imm) ++ abi_word l2SequenceNumber ++ abi_word parent ++ abi_word previous.
Definition previousUuid (parent : Address) (previous : Z) : B256 :=
  keccak256 (abi_word MULTI_PROOF_GAME_TYPE ++ abi_word rootClaim ++ abi_word 96
    ++ abi_bytes_tail (previousExtraData parent previous)).

Definition check_retry env (parent : Address) : res unit :=
  if 0 <? game_attempt then
    let? attempt := usub game_attempt 1 in
    let uuid := previousUuid parent attempt in
    let previous := factory_games (vault_env env) MULTI_PROOF_GAME_TYPE rootClaim (previousExtraData parent attempt) in
    let? _ := require (negb (previous =? 0)) (GameNotRetryable uuid) in
    let '(_, previousOutcome, previousReason) := peer_resolutionStatus (peers env previous) in
    require (negb (peer_wasRespected (peers env previous)
      && (negb (bool_decide (previousOutcome = ChallengerWins)) || negb (bool_decide (previousReason = ProofTimeout)))))
      (GameNotRetryable uuid)
  else Ok tt.

Definition game_initialize env g v (sender : Address) (value data_length : Z) : res (Game * Vault) :=
  let? _ := require (negb (initialized g)) AlreadyInitialized in
  let? _ := require (data_length =? 218) BadExtraData in
  let? _ := require (sender =? imm_disputeGameFactory imm) (NotDisputeGameFactory sender) in
  let? _ := require (value =? 0) IncorrectBondAmount in
  let? _ := require (negb (registry_paused env)) GamePaused in
  let? _ := require (proposalDomainHash =? imm_domainHash imm) (InvalidDomainHash (imm_domainHash imm) proposalDomainHash) in
  let? parent := parentRef in
  let? _ := require (_isValidParent env parent) InvalidParentGame in
  let? start := startingProposal env in
  let? expected := uadd (snd start) (imm_blockInterval imm) in
  let? _ := require (l2SequenceNumber =? expected) (InvalidL2BlockNumber expected l2SequenceNumber) in
  let? _ := require (negb (U64_MAX <? l2SequenceNumber)) (UnexpectedRootClaim rootClaim) in
  let? _ := check_retry env parent in
  let? origin := usub (block_number env) 1 in
  let? due := uadd (now env) (imm_challengePeriod imm) in
  let? deadline := _toTimestamp due in
  let claim := {| claim_status := Unchallenged; claim_challenger := 0; claim_deadline := deadline;
                  claim_proof_bitmap := 0; claim_invalidation_reason := NoReason |} in
  let g1 := with_claim claim g in
  let? v' := map_err (bubble VaultReverted) (lockProposerBond (imm_bondVault imm) (vault_env env) v self (view g1)) in
  let? g2 := _depositBond g1 gameCreator (imm_proposerBond imm) in
  let? created := _toTimestamp (now env) in
  Ok ({| createdAt := created; resolvedAt := resolvedAt g2; game_status := game_status g2; initialized := true;
         l1OriginNumber := origin mod 2 ^ 64; claimData := claimData g2; normalModeCredit := normalModeCredit g2;
         refundModeCredit := refundModeCredit g2; bondDistributionMode := bondDistributionMode g2;
         wasRespectedGameTypeWhenCreated := respectedGameType env =? MULTI_PROOF_GAME_TYPE;
         totalBonds := totalBonds g2; laneRecipient := laneRecipient g2 |}, v').

(** ** Challenge and proofs *)

Definition challenge env g v (sender : Address) : res (Game * Vault) :=
  let? _ := require (bool_decide (game_status g = InProgress)) ClaimAlreadyResolved in
  let? _ := require (negb (gameOver env g)) GameOver in
  let? _ := require (claim_challenger (claimData g) =? 0) ClaimAlreadyChallenged in
  let? deadline := proofDeadline g in
  let g1 := with_claim {| claim_status := Challenged; claim_challenger := sender; claim_deadline := deadline;
                          claim_proof_bitmap := claim_proof_bitmap (claimData g);
                          claim_invalidation_reason := claim_invalidation_reason (claimData g) |} g in
  let? v' := map_err (bubble VaultReverted) (lockChallengerBond (imm_bondVault imm) (vault_env env) v self (view g1)) in
  let? g2 := _depositBond g1 sender (imm_challengerBond imm) in
  Ok (g2, v').

Definition _transition env : res TransitionPublicValues :=
  let? start := startingProposal env in
  Ok {| l1Head := game_l1Head; l2PreRoot := fst start; l2PreBlockNumber := snd start mod 2 ^ 64;
        l2PostRoot := rootClaim; l2PostBlockNumber := l2SequenceNumber mod 2 ^ 64;
        rollupConfigHash := imm_rollupConfigHash imm |}.

(** The verifier of a lane, the identifier and the public values that it checks. *)
Definition _verificationCallFor (lane : ProofLane) (root : B256) (transition : TransitionPublicValues)
    : Address * B256 * bytes :=
  match lane with
  | ValidityProof => (imm_validityProofVerifier imm, imm_aggregationVKey imm,
      aggregation_abi_encode {| transitionPublicValues := transition; multiBlockVKey := imm_rangeVKeyCommitment imm |})
  | TeeAttestation => (imm_teeVerifier imm, imm_teeImageId imm, transition_abi_encode transition)
  | SecurityCouncil => (imm_securityCouncil imm, 0, abi_word root)
  end.

(** [rest] is the calldata after the payload, which the load of the header may touch. *)
Definition submitProofLane env g (proof rest : bytes) : res Game :=
  let? _ := require (bool_decide (game_status g = InProgress)) ClaimAlreadyResolved in
  let? parent := _parentResolution env in
  let? _ := require (negb (parent_invalid parent)) InvalidParentGame in
  let? _ := require (negb (gameOver env g)) GameOver in
  let? root := rootId g in
  let? _ := require (negb (Z.of_nat (length proof) <? Z.of_nat PROOF_HEADER_LENGTH)) (InvalidProof ValidityProof root) in
  let '(laneId, recipient, payload) := decodeCompact proof rest in
  let? lane := ok_or (lane_of_id laneId) (Custom (InvalidLane laneId)) in
  let bitmap := claim_proof_bitmap (claimData g) in
  let? _ := require (negb (has bitmap lane)) (DuplicateProofLane lane root bitmap) in
  let? transition := _transition env in
  let '(verifier, verifierId, publicValues) := _verificationCallFor lane root transition in
  let? accepted := ok_or (verify env verifier payload verifierId publicValues) (Custom VerifierReverted) in
  let? _ := require accepted (InvalidProof lane root) in
  let bitmap' := set bitmap lane in
  let challenger := claim_challenger (claimData g) in
  let status' :=
    if hasThreshold bitmap' (imm_threshold imm)
    then if challenger =? 0 then UnchallengedAndValidProofProvided else ChallengedAndValidProofProvided
    else if challenger =? 0 then UnchallengedAndValidProofProvided
    else claim_status (claimData g) in
  Ok (with_recipient laneId recipient
        (with_claim {| claim_status := status'; claim_challenger := challenger;
                       claim_deadline := claim_deadline (claimData g); claim_proof_bitmap := bitmap';
                       claim_invalidation_reason := claim_invalidation_reason (claimData g) |} g)).

(** ** Resolution *)

(** The loop of [_creditDefenderWins] over the lanes. *)
Fixpoint credit_lanes (bitmap share : Z) (recipients : gmap Z Address) (lanes : list ProofLane)
    (credits : gmap Address Z) (distributed : Z) : res (gmap Address Z * Z) :=
  match lanes with
  | [] => Ok (credits, distributed)
  | lane :: lanes' =>
      if has bitmap lane then
        let? credits' := credit credits (mget recipients (lane_u8 lane)) share in
        let? distributed' := uadd distributed share in
        credit_lanes bitmap share recipients lanes' credits' distributed'
      else credit_lanes bitmap share recipients lanes' credits distributed
  end.

Definition _creditDefenderWins g : res (gmap Address Z) :=
  let bitmap := claim_proof_bitmap (claimData g) in
  let stake := if claim_challenger (claimData g) =? 0 then 0 else imm_challengerBond imm in
  let share := stake / (count bitmap + 1) in
  let? '(credits, distributed) :=
    if negb (share =? 0) then credit_lanes bitmap share (laneRecipient g) all_lanes (normalModeCredit g) 0
    else Ok (normalModeCredit g, 0) in
  let? rest := usub (totalBonds g) distributed in
  credit credits gameCreator rest.

Definition credit_invalid_parent g : res (gmap Address Z) :=
  let? credits := credit (normalModeCredit g) gameCreator (imm_proposerBond imm) in
  if negb (claim_challenger (claimData g) =? 0)
  then credit credits (claim_challenger (claimData g)) (imm_challengerBond imm)
  else Ok credits.

Definition credit_timeout g : res (gmap Address Z) :=
  let? challengerCredit :=
    if claim_challenger (claimData g) =? 0 then Ok 0
    else let? reward := umul (imm_proposerBond imm) CHALLENGER_REWARD_BPS in
         uadd (imm_challengerBond imm) (reward / BPS) in
  let? credits :=
    if negb (challengerCredit =? 0) then credit (normalModeCredit g) (claim_challenger (claimData g)) challengerCredit
    else Ok (normalModeCredit g) in
  let? rest := usub (totalBonds g) challengerCredit in
  credit credits (imm_protocolFeeRecipient imm) rest.

Definition resolve env g : res Game :=
  let? _ := require (bool_decide (game_status g = InProgress)) ClaimAlreadyResolved in
  let? parent := _parentResolution env in
  let? '(outcome, reason, credits) :=
    if parent_invalid parent
    then let? credits := credit_invalid_parent g in Ok (ChallengerWins, InvalidParent, credits)
    else if bool_decide (fst parent = InProgress) then Err (Custom ParentGameNotResolved)
    else
      let? _ := require (gameOver env g) GameNotOver in
      if proven g
      then let? credits := _creditDefenderWins g in
           Ok (DefenderWins, claim_invalidation_reason (claimData g), credits)
      else if bool_decide (claim_status (claimData g) = Unchallenged)
              || bool_decide (claim_status (claimData g) = Challenged)
      then let? credits := credit_timeout g in Ok (ChallengerWins, ProofTimeout, credits)
      else Err (Custom ImpossibleProposalStatus) in
  let? at_ := _toTimestamp (now env) in
  Ok (resolved_as outcome reason credits at_ g).

(** ** Settlement *)

Definition _settlementCandidates g : list Address :=
  [gameCreator; claim_challenger (claimData g); imm_protocolFeeRecipient imm]
    ++ map (fun lane => mget (laneRecipient g) (lane_u8 lane)) all_lanes.

(** The loop over the candidates; [payouts] holds the entries written so far. *)
Fixpoint collect_payouts (credited : Address -> Z) (candidates : list Address) (payouts : list Payout) : list Payout :=
  match candidates with
  | [] => payouts
  | candidate :: rest =>
      if existsb (fun p => recipient p =? candidate) payouts then collect_payouts credited rest payouts
      else if credited candidate =? 0 then collect_payouts credited rest payouts
      else collect_payouts credited rest (payouts ++ [{| recipient := candidate; amount := credited candidate |}])
  end.

Definition _settlementCredits g : list Payout :=
  let candidates := _settlementCandidates g in
  let credited := if bool_decide (bondDistributionMode g = REFUND) then mget (refundModeCredit g)
                  else mget (normalModeCredit g) in
  let payouts := collect_payouts credited candidates [] in
  payouts ++ replicate (length candidates - length payouts) {| recipient := 0; amount := 0 |}.

(** The call of [setAnchorState], whose failure is ignored, changes only the registry;
    [isGameProper] answers after it. *)
Definition closeGame env g v : res (Game * Vault) :=
  if bool_decide (bondDistributionMode g = REFUND) || bool_decide (bondDistributionMode g = NORMAL) then Ok (g, v)
  else
    let? _ := require (bool_decide (bondDistributionMode g = UNDECIDED)) InvalidBondDistributionMode in
    let? _ := require (negb (registry_paused env)) GamePaused in
    let? _ := require (isGameFinalized env self) GameNotFinalized in
    let g' := with_mode (if isGameProper env self then NORMAL else REFUND) g in
    let? v' := map_err (bubble VaultReverted)
                 (settle (imm_bondVault imm) (vault_env env) v self (view g') (_settlementCredits g')) in
    Ok (g', v').

End game.
