(* ===== verification/GameRules.v ===== *)
(** * The rules of a dispute game: what its functions keep and do

    The invariant [game_ok] of the storage of a game: phase, deadline, bonds and credits.
    Every function of [MultiProofGame.v] keeps it, [resolve] succeeds exactly when
    [resolutionStatus] says so, and a settlement pays out the pot. *)

From S2P Require Import Prelude Encoding ProofTypes Aggregation Solidity StakingVault MultiProofGame.

(** ** Lanes *)

Lemma has_lane_set b lane : has b lane = lane_set b lane.
Proof. unfold has. by rewrite land_mask, negb_involutive. Qed.

(** The contract counts lanes as the services do. *)
Lemma count_proof_count b : count b = proof_count b.
Proof.
  rewrite proof_count_unfold. unfold count, all_lanes. simpl. rewrite !has_lane_set.
  destruct (lane_set b ValidityProof), (lane_set b TeeAttestation), (lane_set b SecurityCouncil); done.
Qed.

Lemma count_set b lane : count (set b lane) = count b + (if has b lane then 0 else 1).
Proof. unfold set. rewrite !count_proof_count, proof_count_lor_mask, has_lane_set. done. Qed.

Lemma has_set b lane lane' : has (set b lane) lane' = has b lane' || bool_decide (lane = lane').
Proof. unfold set. by rewrite !has_lane_set, lane_set_lor, lane_set_mask. Qed.

Lemma count_bounds b : 0 <= count b <= 3.
Proof. rewrite count_proof_count. apply proof_count_bounds. Qed.

Lemma lane_of_id_Some i lane : lane_of_id i = Some lane <-> i = lane_u8 lane.
Proof.
  unfold lane_of_id, all_lanes. cbn [find lane_u8].
  destruct (Z.eqb_spec 0 i), (Z.eqb_spec 1 i), (Z.eqb_spec 2 i), lane; simpl; (split; [intros [=]|intros ->]); (done || lia).
Qed.

(** ** Payouts *)

Lemma collect_spec credited candidates : forall payouts,
  NoDup (map recipient payouts) ->
  Forall (fun p => amount p = credited (recipient p) /\ credited (recipient p) <> 0) payouts ->
  let out := collect_payouts credited candidates payouts in
  NoDup (map recipient out) /\
  Forall (fun p => amount p = credited (recipient p) /\ credited (recipient p) <> 0) out /\
  (forall a, a ∈ map recipient payouts \/ (a ∈ candidates /\ credited a <> 0) -> a ∈ map recipient out) /\
  (length out <= length payouts + length candidates)%nat.
Proof.
  induction candidates as [|c cs IH]; intros payouts Hnd Hp; simpl.
  - split; [done|]. split; [done|]. split; [|lia]. intros a [?|[?%elem_of_nil _]]; done.
  - destruct (existsb _ payouts) eqn:Ex; [|destruct (Z.eqb_spec (credited c) 0) as [H0|H0]].
    + destruct (IH payouts Hnd Hp) as (?&?&Hin&?). split; [done|]. split; [done|]. split; [|simpl in *; lia].
      intros a [Ha|[[->|Ha]%elem_of_cons Hc]]; apply Hin; [by left| |by right].
      left. apply existsb_exists in Ex as (p&Hpin&Hpe%Z.eqb_eq). subst.
      apply list_elem_of_fmap. exists p. by rewrite list_elem_of_In.
    + destruct (IH payouts Hnd Hp) as (?&?&Hin&?). split; [done|]. split; [done|]. split; [|simpl in *; lia].
      intros a [Ha|[[->|Ha]%elem_of_cons Hc]]; apply Hin; [by left|done|by right].
    + destruct (IH (payouts ++ [{| recipient := c; amount := credited c |}])) as (?&?&Hin&Hlen).
      * rewrite map_app. apply NoDup_app. split; [done|]. split; [|apply NoDup_singleton]. simpl.
        intros a Ha ->%list_elem_of_singleton. apply list_elem_of_fmap in Ha as (p&->&Hpin).
        enough (existsb (fun q => recipient q =? recipient p) payouts = true) by congruence.
        apply existsb_exists. exists p. rewrite <-list_elem_of_In. split; [done|apply Z.eqb_refl].
      * apply Forall_app. split; [done|]. by repeat constructor.
      * split; [done|]. split; [done|]. split; [|rewrite length_app in Hlen; simpl in *; lia].
        intros a Ha. apply Hin. rewrite map_app, elem_of_app. simpl.
        destruct Ha as [Ha|[[->|Ha]%elem_of_cons Hc]]; [by left; left|left; right; set_solver|by right].
Qed.

(** Credits among the candidates are paid completely, each account its own. *)
Lemma collect_pays (m : gmap Z Z) candidates n :
  (forall a, mget m a <> 0 -> a ∈ candidates) -> (forall a, 0 <= mget m a) ->
  let payouts := collect_payouts (mget m) candidates [] ++ replicate n {| recipient := 0; amount := 0 |} in
  Forall (fun p => 0 <= amount p) payouts /\ sum_of amount payouts = total m /\
  forall a, paid_to a payouts = mget m a.
Proof.
  intros Hc Hpos. destruct (collect_spec (mget m) candidates []) as (Hnd&Hf&Hin&_); [constructor|constructor|].
  set (out := collect_payouts (mget m) candidates []) in *. cbv zeta.
  assert (sum_of amount (replicate n {| recipient := 0; amount := 0 |}) = 0) as Hz0 by (induction n; simpl; lia).
  assert (forall a, paid_to a (replicate n {| recipient := 0; amount := 0 |}) = 0) as Hzp.
  { intros a. unfold paid_to. clear. induction n as [|n IH]; simpl; [done|]. rewrite IH. by destruct a. }
  split; [|split].
  - apply Forall_app. split; [|apply Forall_replicate; simpl; lia].
    eapply Forall_impl; [exact Hf|]. intros p [-> _]. apply Hpos.
  - rewrite sum_of_app, Hz0, Z.add_0_r, <-(total_covered m (map recipient out)); [|done|].
    + clear -Hf. induction Hf as [|p ps [Hp _] _ IH]; simpl; [done|]. by rewrite Hp, IH.
    + intros a Ha. apply Hin. right. auto.
  - intros a. specialize (Hzp a). unfold paid_to in *. rewrite sum_of_app, Hzp, Z.add_0_r.
    assert (a ∈ map recipient out \/ mget m a = 0) as Ha.
    { destruct (decide (mget m a = 0)); [by right|left]. apply Hin. right. auto. }
    clear -Hnd Hf Ha. revert Ha. induction Hf as [|p ps [Hp _] _ IH]; simpl; intros Ha.
    + destruct Ha as [Ha|Ha]; [by apply elem_of_nil in Ha|done].
    + apply NoDup_cons in Hnd as [Hni Hnd]. specialize (IH Hnd). destruct (Z.eqb_spec (recipient p) a) as [<-|Hne].
      * enough (sum_of (fun q => if recipient q =? recipient p then amount q else 0) ps = 0) by lia.
        clear -Hni. induction ps as [|q qs IH]; simpl in *; [done|].
        rewrite (proj2 (Z.eqb_neq _ _)); [rewrite IH; [lia|]|]; set_solver.
      * rewrite IH; [lia|]. destruct Ha as [[->|Ha]%elem_of_cons|Ha]; [done|by left|by right].
Qed.

(** ** Immutables *)

Record imm_ok (imm : Immutables) : Prop := {
  threshold_range : 2 <= imm_threshold imm <= 3;
  periods : 0 < imm_challengePeriod imm < imm_proofPeriod imm /\ imm_proofPeriod imm <= U64_MAX;
  interval_positive : 0 < imm_blockInterval imm;
  proposer_bond_range : 0 < imm_proposerBond imm <= U256_MAX / CHALLENGER_REWARD_BPS;
  challenger_bond_range : 0 < imm_challengerBond imm <= U256_MAX
}.

(** The fields of the configuration have their types. *)
Definition config_typed (c : GameConfig) : Prop :=
  u256 (cfg_blockInterval c) /\ u64 (cfg_challengePeriod c) /\ u64 (cfg_proofPeriod c) /\
  u256 (cfg_proposerBond c) /\ u256 (cfg_challengerBond c) /\ u8 (cfg_proofThreshold c).

(** The constructor admits only such immutables. *)
Lemma constructor_imm_ok keccak256 d c imm :
  config_typed c -> constructor keccak256 d c = Ok imm ->
  imm_ok imm /\ imm_bondVault imm = cfg_bondVault c /\ imm_protocolFeeRecipient imm <> 0.
Proof.
  intros (Ti&Tc&Tp&Tb&Tcb&Tt) E. unfold constructor, activation_ok in E. inv_ok.
  unfold u256, u64, u8 in *. change (Z.of_nat PROOF_LANE_COUNT) with 3 in *.
  split; [|done]. split; simpl; lia.
Qed.

(** ** Awards

    Who gets how much of the bonds, by outcome: the abstract rule. *)

Section rules.
Context (imm : Immutables) (args : bytes).
Implicit Types (env : GameEnv) (g : Game).

#[local] Abbreviation challenger_of g := (claim_challenger (claimData g)).
#[local] Abbreviation bitmap_of g := (claim_proof_bitmap (claimData g)).
#[local] Abbreviation creator := (gameCreator args).

Definition bonds_of g : Z := imm_proposerBond imm + (if challenger_of g =? 0 then 0 else imm_challengerBond imm).

Definition lane_share g : Z := (if challenger_of g =? 0 then 0 else imm_challengerBond imm) / (count (bitmap_of g) + 1).
Definition lanes_of g : list ProofLane := List.filter (has (bitmap_of g)) all_lanes.
Definition lane_awards g : list Payout :=
  if lane_share g =? 0 then []
  else map (fun lane => {| recipient := mget (laneRecipient g) (lane_u8 lane); amount := lane_share g |}) (lanes_of g).

Definition challenger_award g : Z :=
  if challenger_of g =? 0 then 0
  else imm_challengerBond imm + imm_proposerBond imm * CHALLENGER_REWARD_BPS / BPS.

(** The bonds as they were paid in. *)
Definition deposits g : list Payout :=
  {| recipient := creator; amount := imm_proposerBond imm |}
  :: (if challenger_of g =? 0 then [] else [{| recipient := challenger_of g; amount := imm_challengerBond imm |}]).

Definition awards g (o : GameStatus) (r : InvalidationReason) : list Payout :=
  match o, r with
  | DefenderWins, _ =>
      lane_awards g ++ [{| recipient := creator; amount := totalBonds g - sum_of amount (lane_awards g) |}]
  | ChallengerWins, InvalidParent => deposits g
  | ChallengerWins, _ =>
      (if challenger_of g =? 0 then [] else [{| recipient := challenger_of g; amount := challenger_award g |}])
      ++ [{| recipient := imm_protocolFeeRecipient imm; amount := totalBonds g - challenger_award g |}]
  | InProgress, _ => []
  end.

(** ** The invariant *)

Definition phase_ok g : Prop :=
  let c := claimData g in
  match game_status g with
  | InProgress => claim_invalidation_reason c = NoReason /\
      match claim_status c with
      | Unchallenged => challenger_of g = 0 /\ count (bitmap_of g) = 0
      | Challenged => challenger_of g <> 0 /\ count (bitmap_of g) < imm_threshold imm
      | UnchallengedAndValidProofProvided => challenger_of g = 0 /\ 1 <= count (bitmap_of g)
      | ChallengedAndValidProofProvided => challenger_of g <> 0 /\ imm_threshold imm <= count (bitmap_of g)
      | Resolved => False
      end
  | DefenderWins => claim_status c = Resolved /\ claim_invalidation_reason c = NoReason /\
      (if challenger_of g =? 0 then 1 else imm_threshold imm) <= count (bitmap_of g)
  | ChallengerWins => claim_status c = Resolved /\
      (claim_invalidation_reason c = InvalidParent \/
       claim_invalidation_reason c = ProofTimeout /\
       count (bitmap_of g) < (if challenger_of g =? 0 then 1 else imm_threshold imm))
  end.

Record game_ok (time : Z) g : Prop := {
  parent_read : is_ok (parentRef args) = true;
  created_past : 0 <= createdAt g <= time;
  deadline_of_phase : claim_deadline (claimData g)
    = createdAt g + (if challenger_of g =? 0 then imm_challengePeriod imm else imm_proofPeriod imm);
  phase : phase_ok g;
  bonds_total : totalBonds g = bonds_of g /\ totalBonds g <= U256_MAX;
  refund_credits a : mget (refundModeCredit g) a = paid_to a (deposits g);
  refund_total : total (refundModeCredit g) = totalBonds g;
  normal_credits a : mget (normalModeCredit g) a
    = paid_to a (awards g (game_status g) (claim_invalidation_reason (claimData g)));
  normal_total : total (normalModeCredit g)
    = sum_of amount (awards g (game_status g) (claim_invalidation_reason (claimData g)));
  decided_resolved : bondDistributionMode g <> UNDECIDED -> game_status g <> InProgress
}.

(** ** Awards are the pot *)

Lemma count_lanes b : count b = Z.of_nat (length (List.filter (has b) all_lanes)).
Proof.
  unfold count, all_lanes. simpl.
  destruct (has b ValidityProof), (has b TeeAttestation), (has b SecurityCouncil); done.
Qed.

Lemma share_bounds g : imm_ok imm ->
  0 <= lane_share g /\ lane_share g * count (bitmap_of g) <= (if challenger_of g =? 0 then 0 else imm_challengerBond imm).
Proof.
  intros Hi. pose proof (count_bounds (bitmap_of g)). unfold lane_share.
  pose proof (challenger_bond_range _ Hi).
  set (stake := if challenger_of g =? 0 then 0 else imm_challengerBond imm).
  assert (0 <= stake) by (subst stake; case_match; lia).
  pose proof (Z.mul_div_le stake (count (bitmap_of g) + 1) ltac:(lia)).
  assert (0 <= stake / (count (bitmap_of g) + 1)) by (apply Z.div_pos; lia). nia.
Qed.

Lemma lane_awards_sum g : sum_of amount (lane_awards g) = lane_share g * count (bitmap_of g).
Proof.
  unfold lane_awards. destruct (Z.eqb_spec (lane_share g) 0) as [->|_]; [done|].
  rewrite count_lanes. unfold lanes_of. induction (List.filter _ all_lanes) as [|l ls IH]; simpl; lia.
Qed.

Lemma lane_awards_nonneg g : imm_ok imm -> Forall (fun p => 0 <= amount p) (lane_awards g).
Proof.
  intros [H0 _]%(share_bounds g). unfold lane_awards. case_match; [constructor|].
  apply Forall_map, Forall_true. done.
Qed.

Lemma reward_bounds : imm_ok imm ->
  0 <= imm_proposerBond imm * CHALLENGER_REWARD_BPS <= U256_MAX /\
  0 <= imm_proposerBond imm * CHALLENGER_REWARD_BPS / BPS <= imm_proposerBond imm.
Proof.
  intros H. pose proof (proposer_bond_range _ H) as [Hp Hm]. unfold CHALLENGER_REWARD_BPS, BPS in *.
  pose proof (Z.mul_div_le U256_MAX 5000 ltac:(lia)). split; [lia|].
  split; [apply Z.div_pos; lia|]. apply Z.div_le_upper_bound; lia.
Qed.

Lemma challenger_award_le g : imm_ok imm -> totalBonds g = bonds_of g -> 0 <= challenger_award g <= totalBonds g.
Proof.
  intros Hi ->. pose proof (reward_bounds Hi) as [_ ?]. pose proof (challenger_bond_range _ Hi).
  pose proof (proposer_bond_range _ Hi). unfold challenger_award, bonds_of. case_match; lia.
Qed.

Lemma awards_nonneg g o r : imm_ok imm -> totalBonds g = bonds_of g -> Forall (fun p => 0 <= amount p) (awards g o r).
Proof.
  intros Hi Hb. pose proof (challenger_award_le g Hi Hb). pose proof (share_bounds g Hi) as [? Hs].
  pose proof (challenger_bond_range _ Hi). pose proof (proposer_bond_range _ Hi).
  destruct o; simpl; [constructor| |].
  - destruct r; unfold deposits; destruct (challenger_of g =? 0); simpl; rewrite !Forall_cons; simpl; repeat split; (constructor || lia).
  - apply Forall_app. split; [by apply lane_awards_nonneg|]. repeat constructor. simpl.
    rewrite lane_awards_sum, Hb. unfold bonds_of. lia.
Qed.

Lemma awards_sum g o r : totalBonds g = bonds_of g -> o <> InProgress -> sum_of amount (awards g o r) = totalBonds g.
Proof.
  intros Hb Ho. destruct o; [done| |].
  - unfold awards. destruct r; rewrite ?sum_of_app; unfold challenger_award, deposits; rewrite ?Hb; unfold bonds_of;
      destruct (challenger_of g =? 0); simpl; lia.
  - simpl. rewrite sum_of_app. simpl. lia.
Qed.

Lemma paid_to_nonzero a l : paid_to a l <> 0 -> a ∈ map recipient l.
Proof.
  unfold paid_to. induction l as [|p l IH]; simpl; [done|].
  destruct (Z.eqb_spec (recipient p) a); set_solver.
Qed.

Lemma paid_to_nonneg a l : Forall (fun p => 0 <= amount p) l -> 0 <= paid_to a l.
Proof. unfold paid_to. induction 1; simpl; [lia|]. case_match; lia. Qed.

Lemma awards_candidates g o r a : a ∈ map recipient (awards g o r) -> a ∈ _settlementCandidates imm args g.
Proof.
  unfold _settlementCandidates. destruct o; simpl; [set_solver| |].
  - destruct r; unfold deposits; case_match; set_solver.
  - rewrite map_app. simpl. unfold lane_awards, lanes_of. intros [Ha|?]%elem_of_app; [|set_solver].
    case_match; [set_solver|]. rewrite map_map in Ha. simpl in Ha.
    apply list_elem_of_fmap in Ha as (lane&->&_). destruct lane; simpl; set_solver.
Qed.

(** ** The functions that credit follow the rule *)

Lemma credit_invalid_parent_pay g :
  credit_invalid_parent imm args g = pay (normalModeCredit g) (awards g ChallengerWins InvalidParent).
Proof.
  unfold credit_invalid_parent. simpl. unfold deposits. simpl. destruct (credit _ creator _) as [m|]; simpl; [|done].
  destruct (challenger_of g =? 0); simpl; [done|]. by destruct (credit m _ _).
Qed.

Lemma credit_timeout_pay g : imm_ok imm -> totalBonds g = bonds_of g -> totalBonds g <= U256_MAX ->
  credit_timeout imm g = pay (normalModeCredit g) (awards g ChallengerWins ProofTimeout).
Proof.
  intros Hi Hb Hm. pose proof (reward_bounds Hi) as [? ?]. pose proof (challenger_bond_range _ Hi).
  pose proof (challenger_award_le g Hi Hb) as [_ Hle]. unfold credit_timeout. simpl.
  unfold challenger_award in *. destruct (challenger_of g =? 0); simpl.
  - rewrite usub_fits by lia. simpl. by destruct (credit _ _ _).
  - rewrite umul_fits by lia. simpl. rewrite uadd_fits by lia. simpl.
    rewrite (proj2 (Z.eqb_neq _ _)) by lia. simpl. destruct (credit _ (challenger_of g) _) as [m|]; simpl; [|done].
    rewrite usub_fits by lia. simpl. by destruct (credit m _ _).
Qed.

Lemma credit_lanes_pay b share recipients lanes : forall credits d,
  0 <= share -> d + share * Z.of_nat (length (List.filter (has b) lanes)) <= U256_MAX ->
  credit_lanes b share recipients lanes credits d
  = rbind (pay credits (map (fun lane => {| recipient := mget recipients (lane_u8 lane); amount := share |})
                          (List.filter (has b) lanes)))
      (fun c => Ok (c, d + share * Z.of_nat (length (List.filter (has b) lanes)))).
Proof.
  induction lanes as [|l ls IH]; simpl; intros credits d Hs Hd; [f_equal; f_equal; lia|].
  destruct (has b l); simpl in *; [|by apply IH].
  destruct (credit credits _ _) as [m|]; simpl; [|done]. rewrite uadd_fits by nia. simpl.
  rewrite IH by (done || nia). destruct (pay m _); simpl; [|done]. f_equal. f_equal. lia.
Qed.

Lemma pay_app {E} l k : forall b, pay (E := E) b (l ++ k) = rbind (pay b l) (fun c => pay c k).
Proof. induction l as [|p l IH]; intros b; simpl; [done|]. destruct (credit b _ _); simpl; [apply IH|done]. Qed.

Lemma credit_defender_pay g : imm_ok imm -> totalBonds g = bonds_of g -> totalBonds g <= U256_MAX ->
  _creditDefenderWins imm args g = pay (normalModeCredit g) (awards g DefenderWins NoReason).
Proof.
  intros Hi Hb Hm. destruct (share_bounds g Hi) as [Hs0 Hs]. pose proof (proposer_bond_range _ Hi).
  assert (lane_share g * count (bitmap_of g) <= totalBonds g) as Hle by (rewrite Hb; unfold bonds_of; lia).
  unfold _creditDefenderWins. fold (lane_share g). cbn [awards]. rewrite pay_app, lane_awards_sum. unfold lane_awards.
  destruct (Z.eqb_spec (lane_share g) 0) as [E0|_]; cbn [negb].
  - simpl. rewrite E0, Z.mul_0_l, usub_fits by lia. simpl. by destruct (credit _ _ _).
  - rewrite count_lanes in Hle |- *. rewrite credit_lanes_pay by (done || lia). unfold lanes_of.
    destruct (pay _ _); cbn [rbind]; [|done]. rewrite Z.add_0_l, usub_fits by lia.
    cbn [rbind pay recipient amount]. by destruct (credit _ _ _).
Qed.

(** ** Resolution *)

Lemma proven_phase g : proven g = true <->
  claim_status (claimData g) = UnchallengedAndValidProofProvided \/ claim_status (claimData g) = ChallengedAndValidProofProvided.
Proof. unfold proven. by rewrite orb_true_iff, !bool_decide_eq_true. Qed.

(** The resolution as a function of the status, and the status decides it. *)
Lemma resolve_status time env g : imm_ok imm -> game_ok time g -> 0 <= now env <= U64_MAX -> game_status g = InProgress ->
  forall o r, resolutionStatus imm args env g = Ok (true, o, r) ->
  resolve imm args env g
  = rbind (pay (normalModeCredit g) (awards g o r)) (fun credits => Ok (resolved_as o r credits (now env) g)).
Proof.
  intros Hi Hg Hn Hp o r. destruct (bonds_total _ _ Hg) as [Hb Hm].
  pose proof (phase _ _ Hg) as Hph. unfold phase_ok in Hph. rewrite Hp in Hph. destruct Hph as [Hr Hph].
  unfold resolutionStatus, resolve, _toTimestamp. rewrite Hp. simpl.
  rewrite (proj2 (Z.ltb_ge _ _)) by lia. simpl.
  destruct (_parentResolution imm args env) as [parent|]; simpl; [|done].
  destruct (parent_invalid parent).
  { intros [= <- <-]. rewrite credit_invalid_parent_pay. by destruct (pay _ _). }
  destruct (gameOver imm env g); simpl; [|done].
  destruct (proven g) eqn:Hpr; simpl.
  - case_bool_decide; simpl; [done|]. intros [= <- <-]. rewrite credit_defender_pay, Hr by done. by destruct (pay _ _).
  - case_bool_decide; simpl; [done|]. intros [= <- <-].
    assert (claim_status (claimData g) = Unchallenged \/ claim_status (claimData g) = Challenged) as Hs.
    { pose proof (proj2 (proven_phase g)) as Hnp. rewrite Hpr in Hnp. destruct (claim_status _); naive_solver. }
    assert (bool_decide (claim_status (claimData g) = Unchallenged)
            || bool_decide (claim_status (claimData g) = Challenged) = true) as ->
      by (rewrite orb_true_iff, !bool_decide_eq_true; done).
    rewrite credit_timeout_pay by done. by destruct (pay _ _).
Qed.

(** What [resolve] does has been announced. *)
Lemma resolve_announced env g g' : resolve imm args env g = Ok g' ->
  exists o r, resolutionStatus imm args env g = Ok (true, o, r) /\ game_status g = InProgress.
Proof.
  unfold resolve, resolutionStatus. intros E. apply rbind_Ok in E as (?&Hs%require_Ok&E). rewrite Hs. simpl.
  apply bool_decide_eq_true in Hs. apply rbind_Ok in E as (parent&->&E). simpl. destruct (parent_invalid parent); [by repeat eexists|].
  case_bool_decide; simpl in *; [done|]. destruct (gameOver imm env g); simpl in *; [|done].
  destruct (proven g); simpl in *; by repeat eexists.
Qed.

Lemma resolve_pays time g o r : imm_ok imm -> game_ok time g -> game_status g = InProgress ->
  exists credits, pay (E := GameError) (normalModeCredit g) (awards g o r) = Ok credits.
Proof.
  intros Hi Hg Hp. destruct (bonds_total _ _ Hg) as [Hb Hm].
  apply pay_succeeds; [by apply awards_nonneg| |].
  - intros a x Hx. pose proof (normal_credits _ _ Hg a) as Hz. rewrite Hp in Hz. unfold mget in Hz. rewrite Hx in Hz.
    simpl in Hz. lia.
  - pose proof (normal_total _ _ Hg) as ->. rewrite Hp. simpl. destruct o; [by vm_compute| |];
      rewrite awards_sum by done; lia.
Qed.

(** ** Every function keeps the invariant *)

Lemma game_ok_later time time' g : time <= time' -> game_ok time g -> game_ok time' g.
Proof. intros Ht []. split; try done. lia. Qed.

Lemma gameOver_false env g : gameOver imm env g = false <->
  now env < claim_deadline (claimData g) /\ count (bitmap_of g) < imm_threshold imm.
Proof. unfold gameOver, hasThreshold. by rewrite orb_false_iff, Z.leb_gt, Z.leb_gt. Qed.

Lemma resolve_keeps time env g g' : imm_ok imm -> game_ok time g -> time <= now env <= U64_MAX ->
  resolve imm args env g = Ok g' ->
  game_ok (now env) g' /\ exists o r credits, o <> InProgress /\
    resolutionStatus imm args env g = Ok (true, o, r) /\ game_status g = InProgress /\
    g' = resolved_as o r credits (now env) g.
Proof.
  intros Hi Hg Hn E. destruct (resolve_announced _ _ _ E) as (o&r&Hst&Hp).
  pose proof (created_past _ _ Hg) as Hc0.
  assert (0 <= now env <= U64_MAX) as Hn' by lia. rewrite (resolve_status _ _ _ Hi Hg Hn' Hp _ _ Hst) in E.
  apply rbind_Ok in E as (credits&Hpay&[= <-]).
  destruct (bonds_total _ _ Hg) as [Hb Hm]. pose proof (phase _ _ Hg) as Hph. unfold phase_ok in Hph.
  rewrite Hp in Hph. destruct Hph as [Hr Hph].
  assert (o <> InProgress /\ phase_ok (resolved_as o r credits (now env) g)) as [Ho Hph'].
  { unfold resolutionStatus in Hst. rewrite Hp in Hst. simpl in Hst.
    destruct (_parentResolution imm args env) as [parent|]; simpl in Hst; [|done]. unfold phase_ok. simpl.
    destruct (parent_invalid parent); [injection Hst as <- <-; by auto|].
    destruct (gameOver imm env g); simpl in Hst; [|done].
    pose proof (proven_phase g) as Hpr. destruct (proven g); simpl in Hst.
    - case_bool_decide; simpl in *; [done|]. injection Hst as <- <-. split; [done|]. split; [done|]. split; [done|].
      destruct (proj1 Hpr eq_refl) as [Hs|Hs]; rewrite Hs in Hph; destruct (Z.eqb_spec (challenger_of g) 0); naive_solver lia.
    - case_bool_decide; simpl in *; [done|]. injection Hst as <- <-. split; [done|]. split; [done|]. right. split; [done|].
      destruct (claim_status _); destruct (Z.eqb_spec (challenger_of g) 0); naive_solver lia. }
  split; [|by exists o, r, credits].
  destruct Hg as [H1 H2 H3 H4 H5 H6 H7 H8 H9 H10]. split; simpl; try done.
  - lia.
  - intros a. rewrite (pay_spec _ _ _ Hpay a), H8, Hp. done.
  - rewrite (pay_total _ _ _ Hpay), H9, Hp. done.
Qed.

Lemma deposit_spec_game g a x g' : _depositBond g a x = Ok g' ->
  g' = with_deposit (<[a := mget (refundModeCredit g) a + x]> (refundModeCredit g)) (totalBonds g + x) g /\
  totalBonds g + x <= U256_MAX.
Proof.
  unfold _depositBond. intros E. inv_ok.
  match goal with H : credit _ _ _ = Ok _ |- _ => apply credit_Ok in H as [-> _] end. done.
Qed.

Lemma challenge_keeps self time env g v sender g' v' : imm_ok imm -> game_ok time g -> time <= now env -> sender <> 0 ->
  challenge imm self args env g v sender = Ok (g', v') ->
  game_ok (now env) g' /\ game_status g = InProgress /\ challenger_of g = 0 /\ now env < claim_deadline (claimData g) /\
  game_status g' = InProgress /\ challenger_of g' = sender /\ bitmap_of g' = bitmap_of g /\
  laneRecipient g' = laneRecipient g /\ l1OriginNumber g' = l1OriginNumber g /\
  bondDistributionMode g' = bondDistributionMode g /\ claim_status (claimData g') = Challenged /\
  wasRespectedGameTypeWhenCreated g' = wasRespectedGameTypeWhenCreated g /\
  exists g1, view imm args g1 = view imm args g' /\
    lockChallengerBond (imm_bondVault imm) (vault_env env) v self (view imm args g1) = Ok v'.
Proof.
  intros Hi Hg Hn Hs E. unfold challenge in E. inv_ok. simplify_eq.
  match goal with H : gameOver _ _ _ = false |- _ => apply gameOver_false in H as [Hd Hc] end.
  match goal with H : _depositBond _ _ _ = Ok _ |- _ => apply deposit_spec_game in H as [-> Hfit] end.
  match goal with H : proofDeadline _ _ = Ok _ |- _ => unfold proofDeadline, _toTimestamp in H end. inv_ok.
  match goal with H : game_status g = InProgress |- _ => rename H into Hp end.
  match goal with H : claim_challenger _ = 0 |- _ => rename H into Hz end.
  split; [|repeat (split; [done|]); by eexists].
  destruct Hg as [K1 K2 K3 K4 [K5 K5'] K6 K7 K8 K9 K10]. simpl in Hfit.
  pose proof (challenger_bond_range _ Hi). unfold phase_ok, bonds_of in *. rewrite Hp, Hz in *. simpl in *.
  split; simpl; rewrite ?Hp; try done.
  - lia.
  - by rewrite (proj2 (Z.eqb_neq _ _)) by done.
  - unfold phase_ok. simpl. rewrite Hp. naive_solver.
  - split; [|lia]. unfold bonds_of. simpl. rewrite (proj2 (Z.eqb_neq _ _)) by done. lia.
  - intros a. rewrite mget_insert. unfold deposits, paid_to in *. simpl in *. rewrite Hz in K6. simpl in K6.
    rewrite (proj2 (Z.eqb_neq sender 0)) by done. cbn [sum_of foldr recipient amount].
    destruct (Z.eqb_spec sender a); case_bool_decide; subst; try done; rewrite K6; lia.
  - rewrite total_credit. lia.
Qed.

(** A proof is accepted for a lane that has none, on the word of the lane's verifier about the
    statement of this game. *)
Definition accepts (keccak256 : bytes -> B256) env g (lane : ProofLane) (payload : bytes) : Prop :=
  exists root transition, rootId keccak256 imm args g = Ok root /\ _transition imm args env = Ok transition /\
    let '(verifier, verifierId, publicValues) := _verificationCallFor imm lane root transition in
    verify env verifier payload verifierId publicValues = Some true.

Lemma submit_keeps keccak256 time env g proof rest g' : imm_ok imm -> game_ok time g -> time <= now env ->
  submitProofLane keccak256 imm args env g proof rest = Ok g' ->
  game_ok (now env) g' /\ game_status g = InProgress /\ now env < claim_deadline (claimData g) /\
  game_status g' = InProgress /\ challenger_of g' = challenger_of g /\ l1OriginNumber g' = l1OriginNumber g /\
  bondDistributionMode g' = bondDistributionMode g /\ claim_deadline (claimData g') = claim_deadline (claimData g) /\
  wasRespectedGameTypeWhenCreated g' = wasRespectedGameTypeWhenCreated g /\
  exists lane a payload, has (bitmap_of g) lane = false /\ bitmap_of g' = set (bitmap_of g) lane /\
    decodeCompact proof rest = (lane_u8 lane, a, payload) /\
    laneRecipient g' = <[lane_u8 lane := a]> (laneRecipient g) /\ accepts keccak256 env g lane payload.
Proof.
  intros Hi Hg Hn E. unfold submitProofLane in E.
  destruct (decodeCompact proof rest) as [[laneId a] payload] eqn:Hdec. inv_ok.
  match goal with H : lane_of_id _ = Some ?l |- _ => apply lane_of_id_Some in H as ->; rename l into lane end.
  destruct (_verificationCallFor imm lane _ _) as [[vf vid] pv] eqn:Hcall. inv_ok. subst.
  match goal with H : gameOver _ _ _ = false |- _ => apply gameOver_false in H as [Hd Hc] end.
  match goal with H : game_status g = InProgress |- _ => rename H into Hp end.
  match goal with H : has _ lane = false |- _ => rename H into Hl end.
  split; [|repeat (split; [done|]); exists lane, a, payload; repeat (split; [done|])].
  2: { do 2 eexists. split; [done|]. split; [done|]. by rewrite Hcall. }
  destruct Hg as [K1 K2 K3 K4 K5 K6 K7 K8 K9 K10]. pose proof (threshold_range _ Hi).
  pose proof (count_bounds (bitmap_of g)).
  split; simpl; try done; [lia| |by intros ?; rewrite K8, Hp|by rewrite K9, Hp].
  unfold phase_ok in *. simpl. rewrite Hp in *. destruct K4 as [K4 K4']. split; [done|].
  pose proof (count_set (bitmap_of g) lane) as Hcs. rewrite Hl in Hcs. unfold hasThreshold.
  destruct (Z.leb_spec (imm_threshold imm) (count (set (bitmap_of g) lane)));
    destruct (Z.eqb_spec (challenger_of g) 0); try (split; [done|lia]).
  destruct (claim_status (claimData g)); naive_solver lia.
Qed.

Lemma initialize_keeps keccak256 self env v sender value data_length g v' : imm_ok imm -> 0 <= now env ->
  game_initialize keccak256 imm self args env fresh_game v sender value data_length = Ok (g, v') ->
  game_ok (now env) g /\ game_status g = InProgress /\ challenger_of g = 0 /\ bitmap_of g = 0 /\
  bondDistributionMode g = UNDECIDED /\ createdAt g = now env /\
  sender = imm_disputeGameFactory imm /\ proposalDomainHash args = imm_domainHash imm /\
  l2SequenceNumber args <= U64_MAX /\
  (exists parent, parentRef args = Ok parent /\ _isValidParent imm env parent = true /\
    check_retry keccak256 imm args env parent = Ok tt) /\
  (exists root n, startingProposal imm args env = Ok (root, n) /\ l2SequenceNumber args = n + imm_blockInterval imm) /\
  exists g1, view imm args g1 = view imm args g /\
    lockProposerBond (imm_bondVault imm) (vault_env env) v self (view imm args g1) = Ok v'.
Proof.
  intros Hi Hn E. unfold game_initialize in E. inv_ok. simplify_eq.
  match goal with H : _depositBond _ _ _ = Ok _ |- _ => apply deposit_spec_game in H as [-> Hfit] end.
  repeat match goal with H : _toTimestamp _ = Ok _ |- _ => unfold _toTimestamp in H; inv_ok end.
  match goal with H : parentRef _ = Ok _ |- _ => rename H into Hpar end.
  match goal with H : startingProposal _ _ _ = Ok ?x |- _ => rename H into Hst; destruct x as [root n] end. simpl in *.
  split; [|repeat (split; [done|]); split; [by eexists|]; split; [by do 2 eexists|]; by eexists].
  pose proof (proposer_bond_range _ Hi). split; simpl; try done.
  - by rewrite Hpar.
  - unfold bonds_of. simpl. split; lia.
  - intros a. rewrite mget_insert. unfold paid_to. cbn [sum_of foldr deposits recipient amount].
    destruct (Z.eqb_spec creator a); case_bool_decide; subst; try done; change (mget ∅ ?x) with 0; simpl; lia.
  - by rewrite total_credit.
Qed.

(** ** Settlement *)

(** The credits that a game in [mode] pays out. *)
Definition credits_in (mode : BondDistributionMode) g : gmap Z Z :=
  if bool_decide (mode = REFUND) then refundModeCredit g else normalModeCredit g.

Lemma settlement_spec time g mode : imm_ok imm -> game_ok time g -> game_status g <> InProgress ->
  let payouts := _settlementCredits imm args (with_mode mode g) in
  Forall (fun p => 0 <= amount p) payouts /\ sum_of amount payouts = totalBonds g /\
  forall a, paid_to a payouts = mget (credits_in mode g) a.
Proof.
  intros Hi Hg Hs. destruct (bonds_total _ _ Hg) as [Hb Hm].
  destruct (collect_pays (credits_in mode g) (_settlementCandidates imm args g)
    (length (_settlementCandidates imm args g)
     - length (collect_payouts (mget (credits_in mode g)) (_settlementCandidates imm args g) []))%nat) as (H1&H2&H3).
  - intros a. unfold credits_in. case_bool_decide.
    + rewrite (refund_credits _ _ Hg a). intros Ha%paid_to_nonzero.
      by eapply (awards_candidates g ChallengerWins InvalidParent).
    + rewrite (normal_credits _ _ Hg a). intros Ha%paid_to_nonzero. by eapply awards_candidates.
  - intros a. unfold credits_in. case_bool_decide.
    + rewrite (refund_credits _ _ Hg a). by apply paid_to_nonneg, (awards_nonneg g ChallengerWins InvalidParent).
    + rewrite (normal_credits _ _ Hg a). by apply paid_to_nonneg, awards_nonneg.
  - assert (total (credits_in mode g) = totalBonds g) as Ht.
    { unfold credits_in. case_bool_decide; [by apply (refund_total _ _ Hg)|].
      rewrite (normal_total _ _ Hg). by apply awards_sum. }
    rewrite Ht in H2. unfold _settlementCredits. unfold credits_in in *. simpl.
    case_bool_decide; by repeat split.
Qed.

Lemma with_mode_ok time g mode : game_ok time g -> game_status g <> InProgress -> game_ok time (with_mode mode g).
Proof. intros []. by split. Qed.

End rules.
