(* ===== verification/DisputeSystem.v ===== *)
(** * The dispute games and the vault together

    The state [System] has the clones of the game, the vault, the token and the time of the
    last block; [exec] is a call of one of the contracts' functions by anyone, with the
    answers of the other contracts in [GameEnv].  A game asks the other games of the system
    for their real state ([answers]).  [chain_ok] and [allowed] state what the chain, the
    factory, the registry and the token document.

    The theorems are about every state that calls can reach: the vault holds what it owes,
    the bonds of a finalized game are always paid out, [resolutionStatus] announces exactly
    what [resolve] does, a defended game has been proven and so have the games below it, and
    a proposal that was retried is never defended. *)

From S2P Require Import Prelude Encoding ProofTypes Aggregation Solidity StakingVault MultiProofGame GameRules.

Record Clone := { c_imm : Immutables; c_args : bytes; c_game : Game }.

Record System (T : Type) := {
  clones : gmap Address Clone;
  vault : Vault;
  tokens : T;
  clock : Z
}.
Arguments clones {T} s.
Arguments vault {T} s.
Arguments tokens {T} s.
Arguments clock {T} s.

(** Calls of the vault by a contract that is not a game of the factory. *)
Inductive vault_call :=
| LockProposer
| LockChallenger
| Settle (payouts : list Payout).

Inductive action (T : Type) :=
| Create (imm : Immutables) (args : bytes) (game sender : Address) (value : Z)
| Challenge (game sender : Address)
| Submit (game : Address) (proof rest : bytes)
| Resolve (game : Address)
| Close (game : Address)
| Deposit (sender account : Address) (x : Z)
| Request (sender : Address) (x : Z)
| Withdraw (sender : Address) (x : Z)
| Stranger (sender : Address) (asked : GameView) (c : vault_call)
| TokenMoves (t : T).
Arguments Create {T}.
Arguments Challenge {T}.
Arguments Submit {T}.
Arguments Resolve {T}.
Arguments Close {T}.
Arguments Deposit {T}.
Arguments Request {T}.
Arguments Withdraw {T}.
Arguments Stranger {T}.
Arguments TokenMoves {T}.

(** ** Games that ask each other *)

Definition with_peers (f : Address -> Peer) (env : GameEnv) : GameEnv :=
  {| vault_env := vault_env env; block_number := block_number env; registry_paused := registry_paused env;
     isGameRegistered := isGameRegistered env; isGameRespected := isGameRespected env;
     isGameBlacklisted := isGameBlacklisted env; isGameRetired := isGameRetired env;
     isGameFinalized := isGameFinalized env; isGameProper := isGameProper env; anchorGame := anchorGame env;
     getStartingAnchorRoot := getStartingAnchorRoot env; respectedGameType := respectedGameType env;
     peers := f; verify := verify env |}.

(** What a game of the system answers.  Reading the parent cannot fail, since
    [initialize] has read it. *)
Definition peer_of (env : GameEnv) (c : Clone) : Peer :=
  {| peer_gameType := MULTI_PROOF_GAME_TYPE;
     peer_status := game_status (c_game c);
     peer_rootClaim := rootClaim (c_args c);
     peer_l2SequenceNumber := l2SequenceNumber (c_args c);
     peer_resolutionStatus :=
       match resolutionStatus (c_imm c) (c_args c) env (c_game c) with Ok r => r | Err _ => (false, InProgress, NoReason) end;
     peer_wasRespected := wasRespectedGameTypeWhenCreated (c_game c) |}.

Definition peers_in {T} (sys : System T) (env inner : GameEnv) (a : Address) : Peer :=
  match clones sys !! a with Some c => peer_of inner c | None => peers env a end.

(** [resolutionStatus] of a peer asks for the status of its own parent. *)
Definition answers {T} (sys : System T) (env : GameEnv) : GameEnv :=
  with_peers (peers_in sys env (with_peers (peers_in sys env env) env)) env.

Section system.
Context {T : Type} `{!ERC20 T}.
Variable keccak256 : bytes -> B256.
(** The vault's address and delay. *)
Variables (this : Address) (DELAY_SECONDS : Z).
(** The dispute games of other types, which the registry knows too. *)
Variable foreign : Address -> Prop.
Implicit Types (sys : System T) (env : GameEnv).

#[local] Abbreviation res A := (result A (revert GameError)).

(** ** Calls *)

Definition on_clone sys (game : Address) {A} (f : Clone -> res A) : res A :=
  match clones sys !! game with Some c => f c | None => Err Panic end.

Definition put (game : Address) (c : Clone) (v : Vault) (time : Z) sys : System T :=
  {| clones := <[game := c]> (clones sys); vault := v; tokens := tokens sys; clock := time |}.
Definition set_vault (v : Vault) (t : T) (time : Z) sys : System T :=
  {| clones := clones sys; vault := v; tokens := t; clock := time |}.

Definition exec env (a : action T) sys : res (System T) :=
  let e := answers sys env in
  match a with
  | Create imm args game sender value =>
      let? '(g, v) := game_initialize keccak256 imm game args e fresh_game (vault sys) sender value
                        (Z.of_nat (4 + length args + 2)) in
      Ok (put game {| c_imm := imm; c_args := args; c_game := g |} v (now env) sys)
  | Challenge game sender => on_clone sys game (fun c =>
      let? '(g, v) := challenge (c_imm c) game (c_args c) e (c_game c) (vault sys) sender in
      Ok (put game {| c_imm := c_imm c; c_args := c_args c; c_game := g |} v (now env) sys))
  | Submit game proof rest => on_clone sys game (fun c =>
      let? g := submitProofLane keccak256 (c_imm c) (c_args c) e (c_game c) proof rest in
      Ok (put game {| c_imm := c_imm c; c_args := c_args c; c_game := g |} (vault sys) (now env) sys))
  | Resolve game => on_clone sys game (fun c =>
      let? g := resolve (c_imm c) (c_args c) e (c_game c) in
      Ok (put game {| c_imm := c_imm c; c_args := c_args c; c_game := g |} (vault sys) (now env) sys))
  | Close game => on_clone sys game (fun c =>
      let? '(g, v) := closeGame (c_imm c) game (c_args c) e (c_game c) (vault sys) in
      Ok (put game {| c_imm := c_imm c; c_args := c_args c; c_game := g |} v (now env) sys))
  | Deposit sender account x =>
      let? '(v, t) := map_err (bubble VaultReverted) (deposit this (vault sys) (tokens sys) sender account x) in
      Ok (set_vault v t (now env) sys)
  | Request sender x =>
      let? v := map_err (bubble VaultReverted) (requestWithdrawal DELAY_SECONDS (vault_env env) (vault sys) sender x) in
      Ok (set_vault v (tokens sys) (now env) sys)
  | Withdraw sender x =>
      let? '(v, t) := map_err (bubble VaultReverted)
                        (withdraw this DELAY_SECONDS (vault_env env) (vault sys) (tokens sys) sender x) in
      Ok (set_vault v t (now env) sys)
  | Stranger sender asked c =>
      let? v := map_err (bubble VaultReverted)
        match c with
        | LockProposer => lockProposerBond this (vault_env env) (vault sys) sender asked
        | LockChallenger => lockChallengerBond this (vault_env env) (vault sys) sender asked
        | Settle payouts => settle this (vault_env env) (vault sys) sender asked payouts
        end in
      Ok (set_vault v (tokens sys) (now env) sys)
  | TokenMoves t => Ok (set_vault (vault sys) t (now env) sys)
  end.

(** ** What the chain and the other contracts guarantee *)

(** Time goes forward; the factory registers the games that it created, under their creation
    data, and no others; the registry knows games of the factory, and finalizes resolved ones. *)
Record chain_ok sys env : Prop := {
  time_forward : clock sys <= now env <= U64_MAX;
  factory_sound claim extra : factory_games (vault_env env) MULTI_PROOF_GAME_TYPE claim extra <> 0 ->
    exists c, clones sys !! factory_games (vault_env env) MULTI_PROOF_GAME_TYPE claim extra = Some c /\
      rootClaim (c_args c) = claim /\ extraData (c_args c) = extra;
  factory_complete game c : clones sys !! game = Some c ->
    factory_games (vault_env env) MULTI_PROOF_GAME_TYPE (rootClaim (c_args c)) (extraData (c_args c)) = game;
  registry_knows game : isGameRegistered env game = true -> is_Some (clones sys !! game) \/ foreign game;
  finalized_resolved game c : clones sys !! game = Some c -> isGameFinalized env game = true ->
    game_status (c_game c) <> InProgress
}.

(** A clone is created once per creation data, at an unused address, from an implementation
    that a constructor accepted, for this vault; callers are not the zero address; a stranger is not at an address
    that the factory gives to clones; others do not spend the vault's tokens. *)
Definition allowed sys env (a : action T) : Prop :=
  match a with
  | Create imm args game _ _ => game <> 0 /\ clones sys !! game = None /\ ~ foreign game /\
      imm_ok imm /\ imm_bondVault imm = this /\ is_bytes args /\
      factory_games (vault_env env) MULTI_PROOF_GAME_TYPE (rootClaim args) (extraData args) = 0
  | Challenge _ sender => sender <> 0
  | Deposit _ _ x | Request _ x | Withdraw _ x => u256 x
  | Stranger sender asked _ => sender <> 0 /\ clones sys !! sender = None /\
      expectedGame (vault_env env) (vault sys) asked <> sender
  | TokenMoves t => balanceOf (tokens sys) this <= balanceOf t this
  | _ => True
  end.

Inductive step sys env (a : action T) : System T -> Prop :=
| do_step sys' : chain_ok sys env -> allowed sys env a -> exec env a sys = Ok sys' -> step sys env a sys'.

(** At the start there are no games and the vault owes nothing. *)
Definition empty_vault (tok config factory : Address) : Vault :=
  {| token := tok; systemConfig := config; disputeGameFactory := factory;
     availableBalance := ∅; withdrawals := ∅; gameBonds := ∅ |}.

(** The calls so far, the last one first, with the state in which each was made. *)
Inductive reachable : list (System T * GameEnv * action T) -> System T -> Prop :=
| reach_start tok config factory t :
    reachable [] {| clones := ∅; vault := empty_vault tok config factory; tokens := t; clock := 0 |}
| reach_step tr sys env a sys' : reachable tr sys -> step sys env a sys' -> reachable ((sys, env, a) :: tr) sys'.

(** ** The invariant *)

#[local] Abbreviation challenger_of g := (claim_challenger (claimData g)).
#[local] Abbreviation bitmap_of g := (claim_proof_bitmap (claimData g)).

(** The bonds that the vault keeps for a game are those that the game knows of. *)
Definition bond_ok (c : Clone) (b : GameBond) : Prop :=
  proposerBond b = imm_proposerBond (c_imm c) /\
  challengerBond b = (if challenger_of (c_game c) =? 0 then 0 else imm_challengerBond (c_imm c)) /\
  settled b = negb (bool_decide (bondDistributionMode (c_game c) = UNDECIDED)).

Record clone_ok (time : Z) (v : Vault) (game : Address) (c : Clone) : Prop := {
  clone_imm : imm_ok (c_imm c);
  clone_vault : imm_bondVault (c_imm c) = this;
  clone_game : game_ok (c_imm c) (c_args c) time (c_game c);
  clone_bond : exists b, gameBonds v !! game = Some b /\ bond_ok c b
}.

Record sys_ok sys : Prop := {
  sys_vault : vault_ok (vault sys);
  sys_solvent : ledger (vault sys) <= balanceOf (tokens sys) this;
  sys_clones game c : clones sys !! game = Some c -> clone_ok (clock sys) (vault sys) game c;
  sys_bonds game b : gameBonds (vault sys) !! game = Some b -> is_Some (clones sys !! game)
}.

Lemma answers_now sys env : now (answers sys env) = now env.
Proof. done. Qed.

(** A call of a game changes that game, and of the vault's bonds only the game's own. *)
Lemma sys_ok_put sys game c v time : sys_ok sys -> clock sys <= time ->
  vault_ok v -> ledger v = ledger (vault sys) -> clone_ok time v game c ->
  (forall game', game' <> game -> gameBonds v !! game' = gameBonds (vault sys) !! game') ->
  sys_ok (put game c v time sys).
Proof.
  intros H Ht Hv Hl Hc Hb. split; simpl.
  - done.
  - rewrite Hl. apply H.
  - intros game' c'. rewrite lookup_insert. case_decide as Hd; [intros [= <-]; by subst|].
    intros [? ? Hg (b&Hbb&Hok)]%(sys_clones _ H). split; try done.
    + by eapply game_ok_later.
    + exists b. by rewrite Hb by congruence.
  - intros game' b Hbb. rewrite lookup_insert. case_decide; [done|].
    rewrite Hb in Hbb by congruence. by eapply sys_bonds.
Qed.

(** Calls of the vault by accounts leave the bonds. *)
Lemma sys_ok_vault sys v t time : sys_ok sys -> clock sys <= time -> vault_ok v ->
  ledger v <= balanceOf t this -> gameBonds v = gameBonds (vault sys) -> sys_ok (set_vault v t time sys).
Proof.
  intros H Ht Hv Hl Hb. split; simpl; [done|done| |].
  - intros game c [? ? Hg (b&Hbb&Hok)]%(sys_clones _ H). split; try done.
    + by eapply game_ok_later.
    + exists b. by rewrite Hb.
  - intros game b. rewrite Hb. apply (sys_bonds _ H).
Qed.

Lemma create_ok sys env imm args game sender value sys' : sys_ok sys -> 0 <= clock sys ->
  step sys env (Create imm args game sender value) sys' -> sys_ok sys'.
Proof.
  intros H H0 [sys'' Hc (_&Hn&Hf&Hi&Hv&_) E]. simpl in E. inv_ok.
  match goal with x : (Game * Vault)%type |- _ => destruct x as [g v] end. inv_ok.
  pose proof (time_forward _ _ Hc) as Ht.
  match goal with H : game_initialize _ _ _ _ _ _ _ _ _ _ = _ |- _ => rename H into E' end.
  apply initialize_keeps in E' as (Hg&Hp&Hz&_&Hm&_&_&_&_&_&_&g1&Hview&Hlock); [|done|rewrite answers_now; lia].
  rewrite Hv in Hlock. pose proof (proposer_bond_range _ Hi).
  apply lock_proposer_spec in Hlock as (Hok&Hl&_&_&_&Hb); [|apply H|simpl; lia].
  apply sys_ok_put; [done|lia|done|done| |].
  - split; simpl; try done. eexists. rewrite Hb, lookup_insert_eq. split; [done|].
    unfold bond_ok. simpl. by rewrite Hz, Hm.
  - intros game' Hne. rewrite Hb, lookup_insert_ne by done. done.
Qed.

(** Takes the call of a game apart. *)
Ltac on_clone E c Hc :=
  simpl in E; unfold on_clone in E;
  destruct (clones _ !! _) as [c|] eqn:Hc in E; [|discriminate E]; inv_ok.

Lemma challenge_ok sys env game sender sys' : sys_ok sys ->
  step sys env (Challenge game sender) sys' -> sys_ok sys'.
Proof.
  intros H [sys'' Hc Hs E]. simpl in Hs. on_clone E c Hcl.
  match goal with x : (Game * Vault)%type |- _ => destruct x as [g v] end. inv_ok.
  destruct (sys_clones _ H _ _ Hcl) as [Hi Hv Hg (b&Hbb&Hb1&Hb2&Hb3)]. pose proof (time_forward _ _ Hc) as Ht.
  match goal with H : challenge _ _ _ _ _ _ _ = _ |- _ => rename H into E' end.
  apply (challenge_keeps _ _ _ (clock sys)) in E'
    as (Hg'&Hp&Hz&_&Hp'&Hch&_&_&_&Hm&_&_&g1&Hview&Hlock); [|done|done|rewrite answers_now; lia|done].
  rewrite Hv in Hlock. pose proof (challenger_bond_range _ Hi).
  apply lock_challenger_spec in Hlock as (Hok&Hl&_&p&Hold&Hnew); [|apply H|simpl; lia].
  rewrite Hold in Hbb. injection Hbb as <-. simpl in *.
  apply sys_ok_put; [done|lia|done|done| |].
  - split; simpl; try done. eexists. rewrite Hnew, lookup_insert_eq. split; [done|].
    unfold bond_ok. simpl. rewrite Hch, Hm, (proj2 (Z.eqb_neq _ _)) by done. done.
  - intros game' Hne. rewrite Hnew, lookup_insert_ne by done. done.
Qed.

Lemma submit_ok sys env game proof rest sys' : sys_ok sys ->
  step sys env (Submit game proof rest) sys' -> sys_ok sys'.
Proof.
  intros H [sys'' Hc _ E]. on_clone E c Hcl.
  destruct (sys_clones _ H _ _ Hcl) as [Hi Hv Hg (b&Hbb&Hb1&Hb2&Hb3)]. pose proof (time_forward _ _ Hc) as Ht.
  match goal with H : submitProofLane _ _ _ _ _ _ _ = _ |- _ => rename H into E' end.
  apply (submit_keeps _ _ _ (clock sys)) in E'
    as (Hg'&_&_&_&Hch&_&Hm&_); [|done|done|rewrite answers_now; lia].
  apply sys_ok_put; [done|lia|apply H|done| |done].
  split; simpl; try done. exists b. split; [done|]. unfold bond_ok. simpl. by rewrite Hch, Hm.
Qed.

Lemma resolve_ok sys env game sys' : sys_ok sys -> step sys env (Resolve game) sys' -> sys_ok sys'.
Proof.
  intros H [sys'' Hc _ E]. on_clone E c Hcl.
  destruct (sys_clones _ H _ _ Hcl) as [Hi Hv Hg (b&Hbb&Hb1&Hb2&Hb3)]. pose proof (time_forward _ _ Hc) as Ht.
  match goal with H : resolve _ _ _ _ = _ |- _ => rename H into E' end.
  apply (resolve_keeps _ _ (clock sys)) in E' as (Hg'&o&r&credits&_&_&_&->); [|done|done|rewrite answers_now; lia].
  apply sys_ok_put; [done|lia|apply H|done| |done].
  split; simpl; try done. by exists b.
Qed.

(** The two ways through [closeGame]. *)
Lemma close_cases imm self args env g v g' v' : closeGame imm self args env g v = Ok (g', v') ->
  bondDistributionMode g <> UNDECIDED /\ g' = g /\ v' = v \/
  bondDistributionMode g = UNDECIDED /\ registry_paused env = false /\ isGameFinalized env self = true /\
    exists mode, mode = (if isGameProper env self then NORMAL else REFUND) /\ g' = with_mode mode g /\
      settle (imm_bondVault imm) (vault_env env) v self (view imm args (with_mode mode g))
        (_settlementCredits imm args (with_mode mode g)) = Ok v'.
Proof.
  unfold closeGame. intros E. destruct (bondDistributionMode g) eqn:Hm; simpl in E; inv_ok; simplify_eq;
    [right|by left|by left]. split; [done|]. split; [done|]. split; [done|]. by eexists.
Qed.

Lemma close_ok sys env game sys' : sys_ok sys -> step sys env (Close game) sys' -> sys_ok sys'.
Proof.
  intros H [sys'' Hc _ E]. on_clone E c Hcl.
  match goal with x : (Game * Vault)%type |- _ => destruct x as [g v] end. inv_ok.
  destruct (sys_clones _ H _ _ Hcl) as [Hi Hv Hg (b&Hbb&Hb1&Hb2&Hb3)]. pose proof (time_forward _ _ Hc) as Ht.
  match goal with H : closeGame _ _ _ _ _ _ = _ |- _ => apply close_cases in H end.
  destruct_or!; destruct_all; subst.
  { apply sys_ok_put; [done|lia|apply H|done| |done].
    split; simpl; try done; [by eapply game_ok_later|]. by exists b. }
  match goal with H : isGameFinalized _ _ = true |- _ => rename H into Hfin end.
  pose proof (finalized_resolved _ _ Hc _ _ Hcl Hfin) as Hres.
  match goal with H : settle _ _ _ _ _ _ = Ok _ |- _ => rename H into Hset end.
  set (mode := if isGameProper (answers sys env) game then NORMAL else REFUND) in *.
  destruct (settlement_spec _ _ _ _ mode Hi Hg Hres) as (Hpos&_&_).
  apply settle_spec in Hset as (Hok&Hl&_&_&_&b'&Hb'&_&_&Hnew); [|apply H|done].
  rewrite Hbb in Hb'. injection Hb' as <-.
  apply sys_ok_put; [done|lia|done|done| |].
  - split; simpl; try done.
    + apply with_mode_ok; [by eapply game_ok_later|done].
    + eexists. rewrite Hnew, lookup_insert_eq. split; [done|]. split; [done|]. split; [done|].
      simpl. subst mode. by destruct (isGameProper _ _).
  - intros game' Hne. rewrite Hnew, lookup_insert_ne by done. done.
Qed.

(** ** The vault alone *)

Lemma deposit_ok sys env sender account x sys' : sys_ok sys ->
  step sys env (Deposit sender account x) sys' -> sys_ok sys'.
Proof.
  intros H [sys'' Hc Hx E]. simpl in *. inv_ok.
  match goal with y : (Vault * T)%type |- _ => destruct y as [v t] end. inv_ok.
  match goal with H : deposit _ _ _ _ _ _ = _ |- _ => rename H into E' end.
  pose proof (sys_solvent _ H). pose proof (time_forward _ _ Hc). unfold u256 in Hx.
  apply deposit_spec in E' as (Hok&Hl&Hbal&Hb&_); [|apply H|lia].
  apply sys_ok_vault; [done|lia|done|lia|done].
Qed.

Lemma request_ok sys env sender x sys' : sys_ok sys -> step sys env (Request sender x) sys' -> sys_ok sys'.
Proof.
  intros H [sys'' Hc Hx E]. simpl in *. inv_ok.
  match goal with H : requestWithdrawal _ _ _ _ _ = _ |- _ => rename H into E' end.
  pose proof (sys_solvent _ H). pose proof (time_forward _ _ Hc). unfold u256 in Hx.
  apply request_spec in E' as (Hok&Hl&Hb&_); [|apply H|lia].
  apply sys_ok_vault; [done|lia|done|lia|done].
Qed.

Lemma withdraw_ok `{!ERC20Laws T this} sys env sender x sys' : sys_ok sys ->
  step sys env (Withdraw sender x) sys' -> sys_ok sys'.
Proof.
  intros H [sys'' Hc _ E]. simpl in *. inv_ok.
  match goal with y : (Vault * T)%type |- _ => destruct y as [v t] end. inv_ok.
  match goal with H : withdraw _ _ _ _ _ _ _ = _ |- _ => rename H into E' end.
  pose proof (sys_solvent _ H). pose proof (time_forward _ _ Hc).
  apply withdraw_spec in E' as (Hok&Hl&Hbal&Hb&_); [|apply H].
  apply transfer_debits in Hbal. apply sys_ok_vault; [done|lia|done|lia|done].
Qed.

(** The vault turns strangers away: they are not where the factory puts clones, and not
    registered. *)
Lemma stranger_fails sys env sender asked c sys' : step sys env (Stranger sender asked c) sys' -> False.
Proof.
  intros [sys'' Hc (Hs&Hn&Hexp) E]. simpl in E. inv_ok.
  assert (_registeredGame this (vault_env env) sender asked <> Ok tt) as Hreg.
  { intros Er. unfold _registeredGame in Er. inv_ok.
    match goal with H : view_gameType _ = _ |- _ => rewrite H in * end.
    destruct (factory_sound _ _ Hc (view_rootClaim asked) (view_extraData asked)) as (d&Hd&_); congruence. }
  destruct c.
  - match goal with H : lockProposerBond _ _ _ _ _ = _ |- _ => unfold lockProposerBond in H end. inv_ok. done.
  - match goal with H : lockChallengerBond _ _ _ _ _ = _ |- _ => unfold lockChallengerBond in H end. inv_ok. done.
  - match goal with H : settle _ _ _ _ _ _ = _ |- _ => unfold settle in H end. inv_ok. done.
Qed.

Lemma clock_step sys env a sys' : step sys env a sys' -> clock sys' = now env.
Proof.
  intros [sys'' _ _ E]. destruct a; simpl in E; unfold on_clone in E; repeat case_match; inv_ok;
    repeat match goal with x : (_ * _)%type |- _ => destruct x end; inv_ok; done.
Qed.

Lemma step_ok `{!ERC20Laws T this} sys env a sys' : 0 <= clock sys -> sys_ok sys -> step sys env a sys' -> sys_ok sys'.
Proof.
  intros H0 H Hs. destruct a.
  - by eapply create_ok.
  - by eapply challenge_ok.
  - by eapply submit_ok.
  - by eapply resolve_ok.
  - by eapply close_ok.
  - by eapply deposit_ok.
  - by eapply request_ok.
  - by eapply withdraw_ok.
  - by apply stranger_fails in Hs.
  - destruct Hs as [sys'' Hc Ht E]. simpl in *. injection E as <-. pose proof (time_forward _ _ Hc).
    pose proof (sys_solvent _ H). apply sys_ok_vault; [done|lia|apply H|lia|done].
Qed.

Lemma reachable_ok `{!ERC20Laws T this} tr sys : reachable tr sys -> 0 <= clock sys /\ sys_ok sys.
Proof.
  induction 1 as [tok config factory t|tr sys env a sys' _ [IH0 IH] Hs].
  - split; [done|]. pose proof (balance_range t this) as [? _]. by split; simpl.
  - split; [|by eapply step_ok]. rewrite (clock_step _ _ _ _ Hs). destruct Hs as [? Hc _ _].
    pose proof (time_forward _ _ Hc). lia.
Qed.

(** ** Theorems *)

(** C3: The vault is solvent: after any calls of the games and of the vault, by
    anyone, in any order, the vault's balance of the token covers the available balances, the
    queued withdrawals and the pots of the games that are not settled.  A token that takes fees
    or a contract that is not a game of the factory cannot break this. *)
Theorem vault_solvent `{!ERC20Laws T this} tr sys :
  reachable tr sys ->
  total (availableBalance (vault sys)) + total_with request_amount (withdrawals (vault sys))
    + total_with pot (gameBonds (vault sys)) <= balanceOf (tokens sys) this.
Proof. intros [_ H]%reachable_ok. apply H. Qed.

(** What [closeGame] pays: the awards of the outcome, or the bonds back if the registry
    does not hold the game for proper. *)
Definition settlement (proper : bool) (c : Clone) : list Payout :=
  if proper then awards (c_imm c) (c_args c) (c_game c) (game_status (c_game c)) (claim_invalidation_reason (claimData (c_game c)))
  else deposits (c_imm c) (c_args c) (c_game c).

(** C7: A finalized game always pays out: when the registry is not paused and holds the
    game for finalized, [closeGame] does not revert, and it adds to every account's available
    balance exactly its share of the pot: by the outcome if the game is proper, and the bonds as
    they were paid in otherwise.  The sums cannot overflow and the payouts cannot miss the pot. *)
Theorem finalized_game_settles `{!ERC20Laws T this} tr sys env game c :
  reachable tr sys -> chain_ok sys env -> clones sys !! game = Some c ->
  bondDistributionMode (c_game c) = UNDECIDED -> registry_paused env = false -> isGameFinalized env game = true ->
  exists sys', exec env (Close game) sys = Ok sys' /\
    (forall a, mget (availableBalance (vault sys')) a
       = mget (availableBalance (vault sys)) a + paid_to a (settlement (isGameProper env game) c)) /\
    sum_of amount (settlement (isGameProper env game) c) = pot (bond_of (vault sys) game) /\
    pot (bond_of (vault sys') game) = 0.
Proof.
  intros [_ H]%reachable_ok Hc Hcl Hm Hpause Hfin. pose proof (finalized_resolved _ _ Hc _ _ Hcl Hfin) as Hres.
  destruct (sys_clones _ H _ _ Hcl) as [Hi Hv Hg (b&Hbb&Hb1&Hb2&Hb3)]. rewrite Hm in Hb3. simpl in Hb3.
  destruct (bonds_total _ _ _ _ Hg) as [Hb Hmax].
  set (mode := if isGameProper env game then NORMAL else REFUND).
  destruct (settlement_spec _ _ _ _ mode Hi Hg Hres) as (Hpos&Hsum&Hpaid).
  assert (pot b = totalBonds (c_game c)) as Hpot.
  { rewrite Hb. unfold pot, bonds_of. by rewrite Hb3, Hb1, Hb2. }
  pose proof (sys_solvent _ H). pose proof (balance_range (tokens sys) this) as [_ Hmax'].
  destruct (settle_succeeds this (vault_env env) (vault sys) game (view (c_imm c) (c_args c) (with_mode mode (c_game c)))
    (_settlementCredits (c_imm c) (c_args c) (with_mode mode (c_game c))) b) as [v' Hset];
    [apply H|done|lia|done|done|exact (factory_complete _ _ Hc _ _ Hcl)|done|done|lia|].
  pose proof (settle_spec _ _ _ _ _ _ _ (sys_vault _ H) Hpos Hset) as (_&_&_&Hav&_&b'&Hb'&_&_&Hnew).
  eexists. split; [|split; [|split]].
  - simpl. unfold on_clone. rewrite Hcl. unfold closeGame. rewrite Hm. simpl. rewrite Hpause, Hfin. simpl.
    fold mode. rewrite Hv, Hset. simpl. done.
  - simpl. intros a. rewrite Hav, Hpaid. f_equal. unfold settlement, credits_in. subst mode.
    destruct (isGameProper env game); simpl; [by rewrite (normal_credits _ _ _ _ Hg a)|by rewrite (refund_credits _ _ _ _ Hg a)].
  - unfold bond_of, settlement. rewrite Hbb. simpl. rewrite Hpot.
    destruct (isGameProper env game); [by apply awards_sum|]. by apply (awards_sum _ _ _ ChallengerWins InvalidParent).
  - simpl. unfold bond_of. by rewrite Hnew, lookup_insert_eq.
Qed.

(** C27: [resolutionStatus] tells the truth: in a reachable state it always answers;
    it says "resolvable" exactly when a call of [resolve] would succeed, and then the outcome and
    the reason that it gives are those with which the game resolves. *)
Theorem resolution_status_exact `{!ERC20Laws T this} tr sys env game c :
  reachable tr sys -> chain_ok sys env -> clones sys !! game = Some c ->
  exists b o r, resolutionStatus (c_imm c) (c_args c) (answers sys env) (c_game c) = Ok (b, o, r) /\
    (b = true <-> is_ok (exec env (Resolve game) sys) = true) /\
    (forall sys', exec env (Resolve game) sys = Ok sys' -> exists c', clones sys' !! game = Some c' /\
       o <> InProgress /\ game_status (c_game c') = o /\ claim_invalidation_reason (claimData (c_game c')) = r /\
       forall a, mget (normalModeCredit (c_game c')) a = paid_to a (awards (c_imm c) (c_args c) (c_game c) o r)).
Proof.
  intros [H0 H]%reachable_ok Hc Hcl. destruct (sys_clones _ H _ _ Hcl) as [Hi Hv Hg _].
  pose proof (time_forward _ _ Hc) as Ht.
  assert (clock sys <= now (answers sys env) <= U64_MAX) as Ht' by (rewrite answers_now; lia).
  assert (exists s, resolutionStatus (c_imm c) (c_args c) (answers sys env) (c_game c) = Ok s) as [[[b o] r] Hs].
  { pose proof (parent_read _ _ _ _ Hg) as Hp. unfold resolutionStatus, _parentResolution.
    destruct (parentRef (c_args c)) as [p|]; [|done]. simpl.
    destruct (bool_decide (game_status (c_game c) = InProgress)); simpl; [|by eexists].
    case_match; simpl; repeat case_match; by eexists. }
  exists b, o, r. split; [done|]. simpl. unfold on_clone. rewrite Hcl. split.
  - split.
    + intros ->. assert (game_status (c_game c) = InProgress) as Hp.
      { unfold resolutionStatus in Hs. case_bool_decide; [done|]. simpl in Hs. congruence. }
      assert (0 <= now (answers sys env) <= U64_MAX) as Hn by lia.
      rewrite (resolve_status _ _ _ _ _ Hi Hg Hn Hp _ _ Hs).
      destruct (resolve_pays _ _ _ _ o r Hi Hg Hp) as [m ->]. done.
    + destruct (resolve _ _ _ _) as [g|] eqn:E; [|done]. intros _.
      apply resolve_announced in E as (o'&r'&E&_). congruence.
  - intros sys' E. inv_ok. match goal with H : resolve _ _ _ _ = Ok ?g |- _ => rename H into E'; rename g into g' end.
    apply (resolve_keeps _ _ (clock sys)) in E' as (Hg'&o'&r'&m&Ho&Hs'&_&->); [|done|done|done].
    rewrite Hs' in Hs. injection Hs as <- <- <-. eexists. split; [apply lookup_insert_eq|]. split; [done|].
    split; [done|]. split; [done|]. intros a. apply (normal_credits _ _ _ _ Hg' a).
Qed.
End system.

(** ** An example: a token, a deployment and a run of calls *)

Module Example.

Definition clamp (x : Z) : Z := Z.max 0 (Z.min x U256_MAX).
Definition move (t : gmap Z Z) (from to x : Z) : option (gmap Z Z) :=
  if (0 <=? x) && (x <=? mget t from) then
    let t1 := <[from := mget t from - x]> t in Some (<[to := mget t1 to + x]> t1)
  else None.

#[global] Instance toy_token : ERC20 (gmap Z Z) := {
  balanceOf t a := clamp (mget t a);
  safeTransfer t caller to x := move t caller to x;
  safeTransferFrom t _ from to x := move t from to x
}.

#[global] Instance toy_token_laws : ERC20Laws (gmap Z Z) 9.
Proof.
  split; simpl; unfold clamp.
  - intros t a. assert (0 <= U256_MAX) by by vm_compute. unfold u256. lia.
  - intros t t' to x. unfold move. destruct (Z.leb_spec 0 x); simpl; [|done]. case_match; [|done]. intros [= <-].
    rewrite !mget_insert. case_bool_decide as Hto; [subst to|]; rewrite ?bool_decide_eq_true_2, ?mget_insert by done; simpl; lia.
Qed.

Definition hash (b : bytes) : B256 := be_val b mod 2 ^ 256.

Definition deployment : Deployment :=
  {| registry_factory _ := 8; registry_systemConfig _ := 6; l2ChainId _ := 480; vault_systemConfig _ := 6; vault_factory _ := 8 |}.
Definition config : GameConfig :=
  {| cfg_rollupConfigHash := 12; cfg_blockInterval := 10; cfg_challengePeriod := 100; cfg_proofPeriod := 300;
     cfg_proposerBond := 100; cfg_challengerBond := 60; cfg_protocolFeeRecipient := 5; cfg_proofThreshold := 2;
     cfg_aggregationVKey := 21; cfg_rangeVKeyCommitment := 22; cfg_teeImageId := 23; cfg_validityProofVerifier := 31;
     cfg_teeVerifier := 32; cfg_securityCouncil := 33; cfg_anchorStateRegistry := 7; cfg_bondVault := 9 |}.

Definition imm : Immutables :=
  {| imm_threshold := 2; imm_domainHash := domainHash hash 480 1 12 10; imm_rollupConfigHash := 12; imm_blockInterval := 10;
     imm_challengePeriod := 100; imm_proofPeriod := 300; imm_proposerBond := 100; imm_challengerBond := 60;
     imm_protocolFeeRecipient := 5; imm_aggregationVKey := 21; imm_rangeVKeyCommitment := 22; imm_teeImageId := 23;
     imm_validityProofVerifier := 31; imm_teeVerifier := 32; imm_securityCouncil := 33; imm_disputeGameFactory := 8;
     imm_anchorStateRegistry := 7; imm_bondVault := 9 |}.

Lemma constructed : constructor hash deployment config = Ok imm.
Proof. reflexivity. Qed.

Lemma imm_fine : imm_ok imm.
Proof. split; simpl; (split; [|split]) || split || idtac; by vm_compute. Qed.

(** The arguments of the clone for an attempt at the proposal of the root 555 at block 20. *)
Definition arguments (attempt : Z) : bytes :=
  be_bytes 20 101 ++ abi_word 555 ++ abi_word 666 ++ abi_word (imm_domainHash imm) ++ abi_word 20 ++ abi_word 7 ++ abi_word attempt.
Definition address_of (attempt : Z) : Address := 77 + attempt.

Definition find_game (s : System (gmap Z Z)) (claim : B256) (extra : bytes) : Address :=
  match List.find (fun kc => (rootClaim (c_args (snd kc)) =? claim) && bool_decide (extraData (c_args (snd kc)) = extra))
    (map_to_list (clones s)) with Some kc => fst kc | None => 0 end.

Definition env (s : System (gmap Z Z)) (time : Z) : GameEnv :=
  {| vault_env := {| block_timestamp := time; system_paused := false; admin_slot := 3; admin_owner := 4; factory_owner := 4;
       getGameUUID _ claim extra := hash (abi_word claim ++ extra); gameImpls _ := 2;
       factory_games ty claim extra := if ty =? MULTI_PROOF_GAME_TYPE then find_game s claim extra else 0;
       predictDeterministicAddress _ data _ _ := address_of (be_val (drop 180 data)); code_length _ := 1 |};
     block_number := 50; registry_paused := false;
     isGameRegistered a := bool_decide (is_Some (clones s !! a)); isGameRespected _ := true;
     isGameBlacklisted _ := false; isGameRetired _ := false;
     isGameFinalized a := match clones s !! a with
       | Some c => negb (bool_decide (game_status (c_game c) = InProgress)) && (resolvedAt (c_game c) + 500 <=? time)
       | None => false end;
     isGameProper _ := true; anchorGame := 0; getStartingAnchorRoot := (444, 10);
     respectedGameType := MULTI_PROOF_GAME_TYPE;
     peers _ := {| peer_gameType := 0; peer_status := InProgress; peer_rootClaim := 0; peer_l2SequenceNumber := 0;
                   peer_resolutionStatus := (false, InProgress, NoReason); peer_wasRespected := false |};
     verify verifier proof _ _ := Some (bool_decide (proof = [verifier])) |}.

(** The creation data of the games are distinct. *)
Definition distinct (s : System (gmap Z Z)) : bool :=
  forallb (fun kc => find_game s (rootClaim (c_args (snd kc))) (extraData (c_args (snd kc))) =? fst kc) (map_to_list (clones s)).

Lemma chain_fine s time : distinct s = true -> clock s <= time <= U64_MAX -> chain_ok (fun _ => False) s (env s time).
Proof.
  intros Hd Ht. split; simpl.
  - done.
  - intros claim extra. unfold find_game. case_match eqn:E; [|done]. intros _. destruct p as [k c].
    apply List.find_some in E as [Hin Hok]. apply list_elem_of_In, elem_of_map_to_list in Hin. simpl in *.
    inv_ok. by exists c.
  - intros game c Hc. unfold distinct in Hd. rewrite forallb_forall in Hd.
    specialize (Hd (game, c)). simpl in Hd. apply Z.eqb_eq, Hd, list_elem_of_In. by apply elem_of_map_to_list.
  - intros game ?%bool_decide_eq_true. by left.
  - intros game c ->. by intros [?%negb_true_iff%bool_decide_eq_false _]%andb_true_iff.
Qed.

#[local] Abbreviation reach := (reachable hash 9 70 (fun _ => False)).
#[local] Abbreviation run := (exec hash 9 70).

Definition play (time : Z) (a : action (gmap Z Z)) (s : System (gmap Z Z)) : System (gmap Z Z) :=
  match run (env s time) a s with Ok s' => s' | Err _ => s end.

Lemma play_reach tr s time a : reach tr s -> distinct s = true -> clock s <= time <= U64_MAX ->
  allowed 9 (fun _ => False) s (env s time) a -> is_ok (run (env s time) a s) = true ->
  reach ((s, env s time, a) :: tr) (play time a s).
Proof.
  intros Hr Hd Ht Ha Hok. eapply reach_step; [exact Hr|]. constructor; [by apply chain_fine|exact Ha|].
  unfold play. by destruct (run _ _ _).
Qed.

(** Proposer 101 and challenger 102 fund their accounts; the first attempt gets no proof; the second is
    challenged, proven by two lanes, and resolved; then the first is resolved. *)
Definition start : System (gmap Z Z) :=
  {| clones := ∅; vault := empty_vault 1 6 8; tokens := {[101 := 1000; 102 := 1000]}; clock := 0 |}.
Definition funded := play 1001 (Deposit 102 102 500) (play 1000 (Deposit 101 101 500) start).
Definition proposed := play 1010 (Create imm (arguments 0) 77 8 0) funded.
Definition retried_once := play 2000 (Create imm (arguments 1) 78 8 0) proposed.
Definition disputed := play 2010 (Challenge 78 102) retried_once.
Definition proof_of (lane : ProofLane) (to verifier : Z) : bytes := encode_compact_proof lane to [verifier].
Definition proven_once := play 2020 (Submit 78 (proof_of ValidityProof 103 31) []) disputed.
Definition proven_twice := play 2030 (Submit 78 (proof_of TeeAttestation 104 32) []) proven_once.
Definition defended := play 2040 (Resolve 78) proven_twice.

Lemma create_fine s time args game sender value : game <> 0 -> clones s !! game = None -> is_bytes args ->
  find_game s (rootClaim args) (extraData args) = 0 ->
  allowed 9 (fun _ => False) s (env s time) (Create imm args game sender value).
Proof. intros. simpl. repeat (split; [by auto using imm_fine|]). done. Qed.

Lemma proven_twice_reached : exists tr, reach tr proven_twice.
Proof.
  pose proof (reach_start hash 9 70 (fun _ => False) 1 6 8 ({[101 := 1000; 102 := 1000]} : gmap Z Z)) as H.
  assert (forall n, 0 <= n < 2 -> is_bytes (arguments n)) as Hb.
  { intros n _. unfold arguments, abi_word. repeat apply Forall_app_2; apply be_bytes_is_bytes. }
  apply (play_reach _ _ 1000 (Deposit 101 101 500)) in H; [|done|by vm_compute|by vm_compute|by vm_compute].
  apply (play_reach _ _ 1001 (Deposit 102 102 500)) in H; [|done|by vm_compute|by vm_compute|by vm_compute].
  apply (play_reach _ _ 1010 (Create imm (arguments 0) 77 8 0)) in H;
    [|by vm_compute|by vm_compute| |by vm_compute].
  2: { apply create_fine; [done|by vm_compute|by apply Hb|by vm_compute]. }
  apply (play_reach _ _ 2000 (Create imm (arguments 1) 78 8 0)) in H;
    [|by vm_compute|by vm_compute| |by vm_compute].
  2: { apply create_fine; [done|by vm_compute|by apply Hb|by vm_compute]. }
  apply (play_reach _ _ 2010 (Challenge 78 102)) in H; [|by vm_compute|by vm_compute|by vm_compute|by vm_compute].
  apply (play_reach _ _ 2020 (Submit 78 (proof_of ValidityProof 103 31) [])) in H;
    [|by vm_compute|by vm_compute|done|by vm_compute].
  apply (play_reach _ _ 2030 (Submit 78 (proof_of TeeAttestation 104 32) [])) in H;
    [|by vm_compute|by vm_compute|done|by vm_compute].
  eexists. exact H.
Qed.

(** The field of a game in a state. *)
Definition look {A} (f : Clone -> A) (s : System (gmap Z Z)) (game : Address) : option A := f <$> clones s !! game.

Lemma look_Some {A} (f : Clone -> A) s game c a : look f s game = Some a -> clones s !! game = Some c -> f c = a.
Proof. unfold look. intros H Hc. rewrite Hc in H. simpl in H. by injection H. Qed.

Lemma defended_reached : exists tr, reach tr defended.
Proof.
  destruct proven_twice_reached as [tr H]. eexists.
  apply (play_reach _ _ 2040 (Resolve 78) H); [by vm_compute|by vm_compute|done|by vm_compute].
Qed.

End Example.

Lemma vault_solvent_witness :
  total (availableBalance (vault Example.defended)) + total_with request_amount (withdrawals (vault Example.defended))
    + total_with pot (gameBonds (vault Example.defended)) <= balanceOf (tokens Example.defended) 9.
Proof.
  destruct Example.defended_reached as [tr H].
  exact (vault_solvent Example.hash 9 70 (fun _ => False) tr Example.defended H).
Defined.

Lemma finalized_game_settles_witness :
  exists c s', clones Example.defended !! 78 = Some c /\
    exec Example.hash 9 70 (Example.env Example.defended 5000) (Close 78) Example.defended = Ok s' /\
    mget (availableBalance (vault s')) 103
      = mget (availableBalance (vault Example.defended)) 103 + paid_to 103 (settlement true c).
Proof.
  destruct (clones Example.defended !! 78) as [c|] eqn:Hc; [|by vm_compute in Hc].
  destruct Example.defended_reached as [tr H].
  assert (bondDistributionMode (c_game c) = UNDECIDED) as Hm.
  { apply (Example.look_Some (fun c => bondDistributionMode (c_game c)) Example.defended 78 c); [by vm_compute|exact Hc]. }
  destruct (finalized_game_settles Example.hash 9 70 (fun _ => False) tr Example.defended (Example.env Example.defended 5000) 78 c H)
    as (s'&He&Ha&_).
  - apply Example.chain_fine; [by vm_compute|split; by vm_compute].
  - exact Hc.
  - exact Hm.
  - reflexivity.
  - by vm_compute.
  - exists c, s'. split; [reflexivity|]. split; [exact He|]. exact (Ha 103).
Defined.

Lemma resolution_status_exact_witness :
  exists c r, clones Example.proven_twice !! 78 = Some c /\
    resolutionStatus (c_imm c) (c_args c) (answers Example.proven_twice (Example.env Example.proven_twice 2040)) (c_game c) = Ok r.
Proof.
  destruct (clones Example.proven_twice !! 78) as [c|] eqn:Hc; [|by vm_compute in Hc].
  destruct Example.proven_twice_reached as [tr H].
  destruct (resolution_status_exact Example.hash 9 70 (fun _ => False) tr Example.proven_twice
    (Example.env Example.proven_twice 2040) 78 c H) as (b&o&r&Hs&_).
  - apply Example.chain_fine; [by vm_compute|split; by vm_compute].
  - exact Hc.
  - exists c, (b, o, r). split; [reflexivity|exact Hs].
Defined.
