(* ===== verification/DisputeSafety.v ===== *)
(** * Safety of the dispute games: proofs, lineage and retries

    What calls do to one game over time ([changes]), and what follows for every reachable state
    of the system: the lanes of a game were accepted by their verifiers for the statement of this
    game; a defended game rests on defended games down to the anchor; an attempt that was
    retried is lost. *)

From S2P Require Import Prelude Encoding ProofTypes Aggregation Solidity StakingVault MultiProofGame GameRules DisputeSystem.

Section safety.
Context {T : Type} `{!ERC20 T}.
Variable keccak256 : bytes -> B256.
Variables (this : Address) (DELAY_SECONDS : Z) (foreign : Address -> Prop).
Context `{!ERC20Laws T this}.
Implicit Types (sys : System T) (env : GameEnv).

#[local] Abbreviation step_to := (step keccak256 this DELAY_SECONDS foreign).
#[local] Abbreviation reached := (reachable keccak256 this DELAY_SECONDS foreign).
#[local] Abbreviation challenger_of g := (claim_challenger (claimData g)).
#[local] Abbreviation bitmap_of g := (claim_proof_bitmap (claimData g)).

Lemma step_laws sys env a sys' : step_to sys env a sys' -> chain_ok foreign sys env /\ allowed this foreign sys env a.
Proof. by intros []. Qed.

(** ** What a call does to one game *)

Inductive changes sys env (a : action T) (game : Address) (c : Clone) : Game -> Prop :=
| unchanged : changes sys env a game c (c_game c)
| challenged sender v v' g : a = Challenge game sender -> sender <> 0 ->
    challenge (c_imm c) game (c_args c) (answers sys env) (c_game c) v sender = Ok (g, v') -> changes sys env a game c g
| submitted proof rest g : a = Submit game proof rest ->
    submitProofLane keccak256 (c_imm c) (c_args c) (answers sys env) (c_game c) proof rest = Ok g ->
    changes sys env a game c g
| resolved g : a = Resolve game -> resolve (c_imm c) (c_args c) (answers sys env) (c_game c) = Ok g ->
    changes sys env a game c g
| closed v v' g : a = Close game ->
    closeGame (c_imm c) game (c_args c) (answers sys env) (c_game c) v = Ok (g, v') -> changes sys env a game c g.

Lemma step_changes sys env a sys' game c : step_to sys env a sys' -> clones sys !! game = Some c ->
  exists g, clones sys' !! game = Some {| c_imm := c_imm c; c_args := c_args c; c_game := g |} /\
    changes sys env a game c g.
Proof.
  intros [sys'' Hc Ha E] Hcl.
  assert (exists g, Some c = Some {| c_imm := c_imm c; c_args := c_args c; c_game := g |} /\ changes sys env a game c g)
    as Hsame by (exists (c_game c); split; [by destruct c|constructor]).
  destruct a as [imm args x sender value|x sender|x proof rest|x|x| | | | |];
    simpl in E; unfold on_clone in E; try (destruct (clones sys !! x) as [d|] eqn:Hd; [|done]); inv_ok;
    repeat match goal with y : (_ * _)%type |- _ => destruct y end; inv_ok; simpl;
    try (by rewrite Hcl).
  - rewrite lookup_insert. case_decide as Hx; [subst; destruct Ha as (_&?&_); congruence|]. by rewrite Hcl.
  - rewrite lookup_insert. case_decide as Hx; [subst; simplify_eq; eexists; split; [done|by eapply challenged]|by rewrite Hcl].
  - rewrite lookup_insert. case_decide as Hx; [subst; simplify_eq; eexists; split; [done|by eapply submitted]|by rewrite Hcl].
  - rewrite lookup_insert. case_decide as Hx; [subst; simplify_eq; eexists; split; [done|by eapply resolved]|by rewrite Hcl].
  - rewrite lookup_insert. case_decide as Hx; [subst; simplify_eq; eexists; split; [done|by eapply closed]|by rewrite Hcl].
Qed.

(** A game that is in the new state was there, or has just been created. *)
Lemma step_origin sys env a sys' game c : step_to sys env a sys' -> clones sys' !! game = Some c ->
  is_Some (clones sys !! game) \/ exists sender value v', a = Create (c_imm c) (c_args c) game sender value /\
    clones sys !! game = None /\
    game_initialize keccak256 (c_imm c) game (c_args c) (answers sys env) fresh_game (vault sys) sender value
      (Z.of_nat (4 + length (c_args c) + 2)) = Ok (c_game c, v').
Proof.
  intros [sys'' Hc Ha E] Hcl.
  destruct a as [imm args x sender value|x sender|x proof rest|x|x| | | | |];
    simpl in E; unfold on_clone in E; try (destruct (clones sys !! x) as [d|] eqn:Hd; [|done]); inv_ok;
    repeat match goal with y : (_ * _)%type |- _ => destruct y end; inv_ok; simpl in Hcl;
    try (left; by rewrite Hcl);
    rewrite lookup_insert in Hcl; case_decide as Hx; try (left; by rewrite ?Hcl, <-?Hx, ?Hd).
  subst. injection Hcl as <-. right. do 3 eexists. split; [done|]. split; [apply Ha|done].
Qed.

Lemma reached_ok tr sys : reached tr sys -> 0 <= clock sys /\ sys_ok this sys.
Proof. intros H. by apply reachable_ok in H. Qed.

(** ** What stays *)

Record later (g g' : Game) : Prop := {
  later_origin : l1OriginNumber g' = l1OriginNumber g;
  later_respected : wasRespectedGameTypeWhenCreated g' = wasRespectedGameTypeWhenCreated g;
  later_final : game_status g <> InProgress -> game_status g' = game_status g /\ bitmap_of g' = bitmap_of g /\
    challenger_of g' = challenger_of g
}.

Lemma changes_later sys env a game c g : sys_ok this sys -> chain_ok foreign sys env ->
  clones sys !! game = Some c -> changes sys env a game c g -> later (c_game c) g.
Proof.
  intros H Hc Hcl Hch. destruct (sys_clones _ _ H _ _ Hcl) as [Hi Hv Hg _]. pose proof (time_forward _ _ _ Hc) as Ht.
  destruct Hch as [|sender v v' g _ Hs E|proof rest g _ E|g _ E|v v' g _ E].
  - by split.
  - apply (challenge_keeps _ _ _ (clock sys)) in E as (_&Hp&_&_&_&_&_&_&?&_&_&?&_); [|done|done|rewrite answers_now; lia|done].
    by split.
  - apply (submit_keeps _ _ _ (clock sys)) in E as (_&Hp&_&_&_&?&_&_&?&_); [|done|done|rewrite answers_now; lia].
    by split.
  - apply (resolve_keeps _ _ (clock sys)) in E as (_&o&r&m&_&_&Hp&->); [|done|done|rewrite answers_now; lia].
    by split.
  - apply close_cases in E. destruct_or!; destruct_all; subst; by split.
Qed.

(** A lane is new only by an accepted proof. *)
Lemma changes_lanes sys env a game c g lane : sys_ok this sys -> chain_ok foreign sys env ->
  clones sys !! game = Some c -> changes sys env a game c g -> has (bitmap_of g) lane = true ->
  has (bitmap_of (c_game c)) lane = true \/
  exists proof rest to payload, a = Submit game proof rest /\ decodeCompact proof rest = (lane_u8 lane, to, payload) /\
    accepts (c_imm c) (c_args c) keccak256 (answers sys env) (c_game c) lane payload.
Proof.
  intros H Hc Hcl Hch. destruct (sys_clones _ _ H _ _ Hcl) as [Hi Hv Hg _]. pose proof (time_forward _ _ _ Hc) as Ht.
  destruct Hch as [|sender v v' g _ Hs E|proof rest g -> E|g _ E|v v' g _ E].
  - by left.
  - apply (challenge_keeps _ _ _ (clock sys)) in E as (_&_&_&_&_&_&->&_); [by left|done|done|rewrite answers_now; lia|done].
  - apply (submit_keeps _ _ _ (clock sys)) in E as (_&_&_&_&_&_&_&_&_&lane'&to&payload&_&->&Hdec&_&Hacc);
      [|done|done|rewrite answers_now; lia].
    rewrite has_set. intros [?|<-%bool_decide_eq_true]%orb_true_iff; [by left|]. right. by do 4 eexists.
  - apply (resolve_keeps _ _ (clock sys)) in E as (_&o&r&m&_&_&_&->); [by left|done|done|rewrite answers_now; lia].
  - apply close_cases in E. destruct_or!; destruct_all; subst; by left.
Qed.

(** A game becomes defended on top of a defended parent. *)
Lemma changes_defended sys env a game c g : sys_ok this sys -> chain_ok foreign sys env ->
  clones sys !! game = Some c -> changes sys env a game c g -> game_status g = DefenderWins ->
  game_status (c_game c) = DefenderWins \/
  exists p, parentRef (c_args c) = Ok p /\
    (p = imm_anchorStateRegistry (c_imm c) \/ peer_status (peers (answers sys env) p) = DefenderWins).
Proof.
  intros H Hc Hcl Hch. destruct (sys_clones _ _ H _ _ Hcl) as [Hi Hv Hg _]. pose proof (time_forward _ _ _ Hc) as Ht.
  destruct Hch as [|sender v v' g _ Hs E|proof rest g _ E|g _ E|v v' g _ E].
  - by left.
  - apply (challenge_keeps _ _ _ (clock sys)) in E as (_&_&_&_&->&_); [done|done|done|rewrite answers_now; lia|done].
  - apply (submit_keeps _ _ _ (clock sys)) in E as (_&_&_&->&_); [done|done|done|rewrite answers_now; lia].
  - apply (resolve_keeps _ _ (clock sys)) in E as (_&o&r&m&_&Hs&Hp&->); [|done|done|rewrite answers_now; lia].
    simpl. intros ->. right. unfold resolutionStatus, _parentResolution in Hs. rewrite Hp in Hs. simpl in Hs.
    destruct (parentRef (c_args c)) as [p|]; simpl in Hs; [|done]. exists p. split; [done|].
    destruct (Z.eqb_spec p (imm_anchorStateRegistry (c_imm c))); simpl in Hs; [by left|right].
    unfold parent_invalid in Hs. simpl in Hs. destruct (isGameBlacklisted env p); simpl in Hs; [done|].
    destruct (peer_status _); simpl in Hs; repeat case_match; by simplify_eq.
  - apply close_cases in E. destruct_or!; destruct_all; subst; by left.
Qed.

(** A game that is lost, or out of time without a proof, stays lost. *)
Definition doomed (time : Z) (g : Game) : Prop :=
  game_status g = ChallengerWins \/
  game_status g = InProgress /\ proven g = false /\ claim_deadline (claimData g) <= time.

Lemma changes_doomed sys env a game c g : sys_ok this sys -> chain_ok foreign sys env ->
  clones sys !! game = Some c -> changes sys env a game c g -> doomed (clock sys) (c_game c) -> doomed (now env) g.
Proof.
  intros H Hc Hcl Hch Hd. destruct (sys_clones _ _ H _ _ Hcl) as [Hi Hv Hg _]. pose proof (time_forward _ _ _ Hc) as Ht.
  pose proof (changes_later _ _ _ _ _ _ H Hc Hcl Hch) as Hl.
  destruct Hd as [Hd|(Hp&Hpr&Hd)].
  { left. rewrite <-Hd. apply (later_final _ _ Hl). congruence. }
  destruct Hch as [|sender v v' g _ Hs E|proof rest g _ E|g _ E|v v' g _ E].
  - right. split; [done|]. split; [done|lia].
  - apply (challenge_keeps _ _ _ (clock sys)) in E as (_&_&_&Hlt&_); [|done|done|rewrite answers_now; lia|done].
    rewrite answers_now in Hlt. lia.
  - apply (submit_keeps _ _ _ (clock sys)) in E as (_&_&Hlt&_); [|done|done|rewrite answers_now; lia].
    rewrite answers_now in Hlt. lia.
  - apply (resolve_keeps _ _ (clock sys)) in E as (_&o&r&m&_&Hs&_&->); [|done|done|rewrite answers_now; lia].
    left. simpl. unfold resolutionStatus in Hs. rewrite Hp, Hpr in Hs. simpl in Hs.
    destruct (_parentResolution _ _ _) as [q|]; simpl in Hs; [|done]. repeat case_match; by simplify_eq.
  - apply close_cases in E. right. destruct_or!; destruct_all; subst; (split; [done|]; split; [done|simpl; lia]).
Qed.

(** ** Lineage and proofs *)

(** The transition that a game claims on top of the game [d]. *)
Definition claimed_transition (c d : Clone) : TransitionPublicValues :=
  {| l1Head := game_l1Head (c_args c); l2PreRoot := rootClaim (c_args d);
     l2PreBlockNumber := l2SequenceNumber (c_args d) mod 2 ^ 64; l2PostRoot := rootClaim (c_args c);
     l2PostBlockNumber := l2SequenceNumber (c_args c) mod 2 ^ 64; rollupConfigHash := imm_rollupConfigHash (c_imm c) |}.

(** In a call of the past, the verifier of [lane] accepted a proof of the game's statement: its
    root identifier and the transition [t]. *)
Definition lane_seen (tr : list (System T * GameEnv * action T)) (game : Address) (c : Clone) (lane : ProofLane)
    (t : TransitionPublicValues) : Prop :=
  exists sys env proof rest to payload root, (sys, env, Submit game proof rest) ∈ tr /\
    decodeCompact proof rest = (lane_u8 lane, to, payload) /\
    rootId keccak256 (c_imm c) (c_args c) (c_game c) = Ok root /\
    let '(verifier, verifierId, publicValues) := _verificationCallFor (c_imm c) lane root t in
    verify env verifier payload verifierId publicValues = Some true.

Record lineage_ok tr sys : Prop := {
  args_bytes game c : clones sys !! game = Some c -> is_bytes (c_args c) /\ length (c_args c) = 212%nat;
  not_foreign game c : clones sys !! game = Some c -> ~ foreign game;
  rooted game c : clones sys !! game = Some c -> exists p, parentRef (c_args c) = Ok p /\
    (p = imm_anchorStateRegistry (c_imm c) \/ foreign p \/
     exists d, clones sys !! p = Some d /\
       l2SequenceNumber (c_args c) = l2SequenceNumber (c_args d) + imm_blockInterval (c_imm c) /\
       (game_status (c_game c) = DefenderWins -> game_status (c_game d) = DefenderWins));
  lanes_seen game c lane : clones sys !! game = Some c -> has (bitmap_of (c_game c)) lane = true ->
    exists t, lane_seen tr game c lane t /\
      forall p d, parentRef (c_args c) = Ok p -> p <> imm_anchorStateRegistry (c_imm c) -> ~ foreign p ->
        clones sys !! p = Some d -> t = claimed_transition c d
}.

Lemma created_facts sys env c game sender value v' : sys_ok this sys -> chain_ok foreign sys env -> 0 <= clock sys ->
  allowed this foreign sys env (Create (c_imm c) (c_args c) game sender value) ->
  game_initialize keccak256 (c_imm c) game (c_args c) (answers sys env) fresh_game (vault sys) sender value
    (Z.of_nat (4 + length (c_args c) + 2)) = Ok (c_game c, v') ->
  length (c_args c) = 212%nat /\ is_bytes (c_args c) /\ game_status (c_game c) = InProgress /\ bitmap_of (c_game c) = 0 /\
  proposalDomainHash (c_args c) = imm_domainHash (c_imm c) /\
  exists p, parentRef (c_args c) = Ok p /\ check_retry keccak256 (c_imm c) (c_args c) (answers sys env) p = Ok tt /\
    (p = imm_anchorStateRegistry (c_imm c) \/ foreign p \/
     exists d, clones sys !! p = Some d /\
       l2SequenceNumber (c_args c) = l2SequenceNumber (c_args d) + imm_blockInterval (c_imm c)).
Proof.
  intros H Hc H0 (_&_&_&Hi&_&Hby&_) E. pose proof (time_forward _ _ _ Hc) as Ht.
  assert (length (c_args c) = 212%nat) as Hlen by (unfold game_initialize in E; inv_ok; lia).
  apply initialize_keeps in E as (_&Hp&_&Hb&_&_&_&Hdom&_&(p&Hpar&Hvalid&Hretry)&(root&n&Hst&Hseq)&_);
    [|done|rewrite answers_now; lia].
  repeat (split; [done|]). exists p. split; [done|]. split; [done|].
  unfold startingProposal in Hst. rewrite Hpar in Hst. simpl in Hst. unfold _isValidParent, _isValidGame in Hvalid.
  destruct (Z.eqb_spec p (imm_anchorStateRegistry (c_imm c))); [by left|right]. simpl in Hvalid.
  destruct (isGameRegistered env p) eqn:Hreg; simpl in Hvalid; [|done].
  destruct (registry_knows _ _ _ Hc p Hreg) as [[d Hd]|?]; [right|by left].
  exists d. split; [done|]. simpl in Hst. unfold peers_in in Hst. rewrite Hd in Hst. simpl in Hst. by injection Hst as <- <-.
Qed.

Lemma accepted_transition sys env c p d : parentRef (c_args c) = Ok p ->
  p <> imm_anchorStateRegistry (c_imm c) -> clones sys !! p = Some d ->
  _transition (c_imm c) (c_args c) (answers sys env) = Ok (claimed_transition c d).
Proof.
  intros Hp Hne Hd. unfold _transition, startingProposal. rewrite Hp. simpl.
  rewrite (proj2 (Z.eqb_neq _ _)) by done. simpl. unfold peers_in. by rewrite Hd.
Qed.

(** A game of the new state, as it was before: the same code and arguments. *)
Lemma step_before sys env a sys' game c' : step_to sys env a sys' -> clones sys' !! game = Some c' ->
  (exists c, clones sys !! game = Some c /\ c_imm c' = c_imm c /\ c_args c' = c_args c /\
     changes sys env a game c (c_game c')) \/
  exists sender value v', a = Create (c_imm c') (c_args c') game sender value /\ clones sys !! game = None /\
    game_initialize keccak256 (c_imm c') game (c_args c') (answers sys env) fresh_game (vault sys) sender value
      (Z.of_nat (4 + length (c_args c') + 2)) = Ok (c_game c', v').
Proof.
  intros Hs Hc'. destruct (step_origin _ _ _ _ _ _ Hs Hc') as [[c Hc]|?]; [left|by right].
  destruct (step_changes _ _ _ _ _ _ Hs Hc) as (g&Hg&Hch). rewrite Hc' in Hg. injection Hg as ->.
  exists c. by repeat split.
Qed.

Lemma parent_before tr sys env a sys' game c p d' : step_to sys env a sys' -> lineage_ok tr sys ->
  clones sys !! game = Some c -> parentRef (c_args c) = Ok p -> p <> imm_anchorStateRegistry (c_imm c) -> ~ foreign p ->
  clones sys' !! p = Some d' -> exists d, clones sys !! p = Some d /\ c_args d' = c_args d.
Proof.
  intros Hs Hl Hc Hp Hne Hf Hd'. destruct (step_before _ _ _ _ _ _ Hs Hd') as [(d&Hd&_&Ha&_)|(?&?&?&_&Hn&_)]; [by exists d|].
  destruct (rooted _ _ Hl _ _ Hc) as (p'&Hp'&Hcase). rewrite Hp in Hp'. injection Hp' as <-.
  destruct Hcase as [?|[?|(d&Hd&_)]]; [done|done|congruence].
Qed.

Lemma lane_seen_later tr e game c c' lane t : c_imm c' = c_imm c -> c_args c' = c_args c ->
  l1OriginNumber (c_game c') = l1OriginNumber (c_game c) ->
  lane_seen tr game c lane t -> lane_seen (e :: tr) game c' lane t.
Proof.
  intros Hi Ha Ho (sys&env&proof&rest&to&payload&root&Hin&Hdec&Hroot&Hv).
  exists sys, env, proof, rest, to, payload, root. rewrite Hi, Ha. split; [by right|]. split; [done|].
  split; [|done]. unfold rootId in *. by rewrite Ho.
Qed.

Lemma rooted_step tr sys env a sys' : reached tr sys -> lineage_ok tr sys -> step_to sys env a sys' ->
  forall game c', clones sys' !! game = Some c' -> exists p, parentRef (c_args c') = Ok p /\
    (p = imm_anchorStateRegistry (c_imm c') \/ foreign p \/
     exists d', clones sys' !! p = Some d' /\
       l2SequenceNumber (c_args c') = l2SequenceNumber (c_args d') + imm_blockInterval (c_imm c') /\
       (game_status (c_game c') = DefenderWins -> game_status (c_game d') = DefenderWins)).
Proof.
  intros [H0 H]%reached_ok Hl Hs game c' Hc'. destruct (step_laws _ _ _ _ Hs) as [Hch Hal].
  destruct (step_before _ _ _ _ _ _ Hs Hc') as [(c&Hc&Hi&Ha&Hx)|(sender&value&v'&->&_&E)].
  - destruct (rooted _ _ Hl _ _ Hc) as (p&Hp&Hcase). rewrite Ha, Hi. exists p. split; [done|].
    destruct (decide (p = imm_anchorStateRegistry (c_imm c))) as [|Hne]; [by left|right].
    destruct Hcase as [?|[?|(d&Hd&Hseq&Hdef)]]; [done|by left|right].
    destruct (step_changes _ _ _ _ _ _ Hs Hd) as (gd&Hd'&Hxd). eexists. split; [done|]. split; [done|]. simpl.
    pose proof (changes_later _ _ _ _ _ _ H Hch Hd Hxd) as Hlat. intros Hw.
    assert (game_status (c_game d) = DefenderWins) as Hdd.
    { destruct (changes_defended _ _ _ _ _ _ H Hch Hc Hx Hw) as [?|(p'&Hp'&Hcase)]; [by apply Hdef|].
      rewrite Hp in Hp'. injection Hp' as <-. destruct Hcase as [?|Hst]; [done|].
      simpl in Hst. unfold peers_in in Hst. by rewrite Hd in Hst. }
    rewrite <-Hdd. apply (later_final _ _ Hlat). congruence.
  - destruct (created_facts _ _ _ _ _ _ _ H Hch H0 Hal E) as (_&_&Hst&_&_&p&Hp&_&Hcase). exists p. split; [done|].
    destruct Hcase as [?|[?|(d&Hd&Hseq)]]; [by left|by right; left|right; right].
    destruct (step_changes _ _ _ _ _ _ Hs Hd) as (gd&Hd'&_). eexists. split; [done|]. split; [done|]. congruence.
Qed.

Lemma lanes_step tr sys env a sys' : reached tr sys -> lineage_ok tr sys -> step_to sys env a sys' ->
  forall game c' lane, clones sys' !! game = Some c' -> has (bitmap_of (c_game c')) lane = true ->
    exists t, lane_seen ((sys, env, a) :: tr) game c' lane t /\
      forall p d', parentRef (c_args c') = Ok p -> p <> imm_anchorStateRegistry (c_imm c') -> ~ foreign p ->
        clones sys' !! p = Some d' -> t = claimed_transition c' d'.
Proof.
  intros [H0 H]%reached_ok Hl Hs game c' lane Hc' Hhas. destruct (step_laws _ _ _ _ Hs) as [Hch Hal].
  destruct (step_before _ _ _ _ _ _ Hs Hc') as [(c&Hc&Hi&Ha&Hx)|(sender&value&v'&->&_&E)].
  - pose proof (changes_later _ _ _ _ _ _ H Hch Hc Hx) as Hlat.
    destruct (changes_lanes _ _ _ _ _ _ _ H Hch Hc Hx Hhas) as [Hold|(proof&rest&to&payload&->&Hdec&Hacc)].
    + destruct (lanes_seen _ _ Hl _ _ _ Hc Hold) as (t&Hseen&Ht). exists t.
      split; [by eapply lane_seen_later, Hseen; try done; apply (later_origin _ _ Hlat)|].
      rewrite Ha, Hi. intros p d' Hp Hne Hf Hd'.
      destruct (parent_before _ _ _ _ _ _ _ _ _ Hs Hl Hc Hp Hne Hf Hd') as (d&Hd&Had).
      rewrite (Ht p d Hp Hne Hf Hd). unfold claimed_transition. by rewrite Had, Ha, Hi.
    + destruct Hacc as (root&t&Hroot&Htr&Hv). exists t. split.
      * exists sys, env, proof, rest, to, payload, root. split; [left|]. split; [done|]. rewrite Hi, Ha.
        split; [|done]. unfold rootId in *. by rewrite (later_origin _ _ Hlat).
      * rewrite Ha, Hi. intros p d' Hp Hne Hf Hd'.
        destruct (parent_before _ _ _ _ _ _ _ _ _ Hs Hl Hc Hp Hne Hf Hd') as (d&Hd&Had).
        rewrite (accepted_transition _ _ _ _ _ Hp Hne Hd) in Htr. injection Htr as <-.
        unfold claimed_transition. by rewrite Had, Ha, Hi.
  - destruct (created_facts _ _ _ _ _ _ _ H Hch H0 Hal E) as (_&_&_&Hb&_). rewrite Hb in Hhas.
    by destruct lane.
Qed.

Lemma lineage_step tr sys env a sys' : reached tr sys -> lineage_ok tr sys -> step_to sys env a sys' ->
  lineage_ok ((sys, env, a) :: tr) sys'.
Proof.
  intros Hr Hl Hs. split; [| |by eapply rooted_step|by eapply lanes_step]; intros game c' Hc'.
  2: { destruct (step_before _ _ _ _ _ _ Hs Hc') as [(c&Hc&_)|(sender&value&v'&->&_&_)];
         [by eapply not_foreign|by destruct (step_laws _ _ _ _ Hs) as [_ (_&_&?&_)]]. }
  destruct (step_before _ _ _ _ _ _ Hs Hc') as [(c&Hc&_&->&_)|(sender&value&v'&->&_&E)].
  - by apply (args_bytes _ _ Hl game).
  - destruct (reached_ok _ _ Hr) as [H0 H]. destruct (step_laws _ _ _ _ Hs) as [Hch Hal].
    by destruct (created_facts _ _ _ _ _ _ _ H Hch H0 Hal E) as (?&?&_).
Qed.

Lemma reached_lineage tr sys : reached tr sys -> lineage_ok tr sys.
Proof.
  induction 1 as [tok config factory t|tr sys env a sys' Hr IH Hs]; [by split|]. by apply lineage_step.
Qed.

(** Distinct lanes, as many as the game needs, that verifiers accepted for the transition [t]. *)
Definition proven_by tr (game : Address) (c : Clone) (P : TransitionPublicValues -> Prop) : Prop :=
  exists lanes : list ProofLane, NoDup lanes /\
    (if challenger_of (c_game c) =? 0 then 1 else imm_threshold (c_imm c)) <= Z.of_nat (length lanes) /\
    forall lane, lane ∈ lanes -> exists t, P t /\ lane_seen tr game c lane t.

(** A defended game on a chain of defended games that starts at the registry's anchor or at a game of
    another type; each advances the chain by its interval, and was proven for exactly the transition from
    the root of the one below. *)
Inductive supported tr sys : Address -> Prop :=
| supported_base game c p : clones sys !! game = Some c -> game_status (c_game c) = DefenderWins ->
    parentRef (c_args c) = Ok p -> p = imm_anchorStateRegistry (c_imm c) \/ foreign p ->
    proven_by tr game c (fun _ => True) -> supported tr sys game
| supported_step game c p d : clones sys !! game = Some c -> game_status (c_game c) = DefenderWins ->
    parentRef (c_args c) = Ok p -> clones sys !! p = Some d ->
    l2SequenceNumber (c_args c) = l2SequenceNumber (c_args d) + imm_blockInterval (c_imm c) ->
    proven_by tr game c (fun t => t = claimed_transition c d) -> supported tr sys p -> supported tr sys game.

Lemma defended_lanes tr sys game c (P : TransitionPublicValues -> Prop) : sys_ok this sys ->
  clones sys !! game = Some c -> game_status (c_game c) = DefenderWins ->
  (forall lane, has (bitmap_of (c_game c)) lane = true -> exists t, P t /\ lane_seen tr game c lane t) ->
  proven_by tr game c P.
Proof.
  intros H Hc Hw Hl. destruct (sys_clones _ _ H _ _ Hc) as [_ _ Hg _].
  pose proof (phase _ _ _ _ Hg) as Hph. unfold phase_ok in Hph. rewrite Hw in Hph. destruct Hph as (_&_&Hn).
  exists (lanes_of (c_game c)). split; [|split].
  - unfold lanes_of. apply NoDup_ListNoDup, List.NoDup_filter, NoDup_ListNoDup. unfold all_lanes.
    repeat (constructor; [set_solver|]). constructor.
  - unfold lanes_of. by rewrite <-count_lanes.
  - intros lane [Hin Hhas]%list_elem_of_In%List.filter_In. by apply Hl.
Qed.


(** ** Retries *)

Lemma arg_u256 args n : is_bytes args -> u256 (getArgUint256 args n).
Proof.
  intros Hb. unfold getArgUint256, getArgBytes.
  assert (is_bytes (take 32 (drop n args))) as Hs by (apply Forall_take, Forall_drop; done).
  pose proof (be_val_bound _ Hs). assert (length (take 32 (drop n args)) <= 32)%nat by (rewrite length_take; lia).
  assert (256 ^ Z.of_nat (length (take 32 (drop n args))) <= 256 ^ 32) by (apply Z.pow_le_mono_r; lia).
  change (256 ^ 32) with (U256_MAX + 1) in *. unfold u256. lia.
Qed.

Lemma extraData_words args : is_bytes args -> length args = 212%nat ->
  extraData args = abi_word (proposalDomainHash args) ++ abi_word (l2SequenceNumber args)
    ++ abi_word (getArgUint256 args 148) ++ abi_word (game_attempt args).
Proof.
  intros Hb Hlen. unfold proposalDomainHash, l2SequenceNumber, game_attempt, getArgUint256, getArgBytes, abi_word.
  rewrite !be_bytes_val by (try (apply Forall_take, Forall_drop; done); rewrite length_take, length_drop; lia).
  unfold extraData, getArgBytes. change 128%nat with (32 + 96)%nat. rewrite <-take_take_drop. f_equal.
  rewrite drop_drop. change 96%nat with (32 + 64)%nat. rewrite <-take_take_drop. f_equal.
  rewrite drop_drop. change 64%nat with (32 + 32)%nat. rewrite <-take_take_drop. f_equal. by rewrite drop_drop.
Qed.

Lemma parentRef_raw args p : parentRef args = Ok p -> p = getArgUint256 args 148 /\ p <= ADDRESS_MAX.
Proof. unfold parentRef. intros. by inv_ok. Qed.

(** The same proposal but for the attempt. *)
Definition same_proposal (c d : Clone) : Prop :=
  rootClaim (c_args d) = rootClaim (c_args c) /\ proposalDomainHash (c_args d) = proposalDomainHash (c_args c) /\
  l2SequenceNumber (c_args d) = l2SequenceNumber (c_args c) /\ getArgUint256 (c_args d) 148 = getArgUint256 (c_args c) 148.

(** A game whose answer is a timeout of proofs is lost. *)
Lemma timeout_doomed imm args time env g b : imm_ok imm -> game_ok imm args time g ->
  resolutionStatus imm args env g = Ok (b, ChallengerWins, ProofTimeout) -> doomed (now env) g.
Proof.
  intros Hi Hg Hs. unfold resolutionStatus in Hs. case_bool_decide as Hp; simpl in Hs; [|left; congruence].
  destruct (_parentResolution imm args env) as [q|]; simpl in Hs; [|done]. destruct (parent_invalid q); [congruence|].
  destruct (gameOver imm env g) eqn:Ho; simpl in Hs; [|done].
  destruct (proven g) eqn:Hpr; simpl in Hs; [by destruct (bool_decide _)|]. right. split; [done|]. split; [done|].
  unfold gameOver, hasThreshold in Ho. apply orb_true_iff in Ho as [Ho%Z.leb_le|Ho%Z.leb_le]; [done|]. exfalso.
  pose proof (phase _ _ _ _ Hg) as Hph. unfold phase_ok in Hph. rewrite Hp in Hph. destruct Hph as [_ Hph].
  pose proof (threshold_range _ Hi). unfold proven in Hpr.
  destruct (claim_status (claimData g)); simpl in *; try done; lia.
Qed.

Record retries_ok sys : Prop := {
  domain_own game c : clones sys !! game = Some c -> proposalDomainHash (c_args c) = imm_domainHash (c_imm c);
  games_nonzero game c : clones sys !! game = Some c -> game <> 0;
  games_distinct x y c d : clones sys !! x = Some c -> clones sys !! y = Some d ->
    rootClaim (c_args c) = rootClaim (c_args d) -> extraData (c_args c) = extraData (c_args d) -> x = y;
  retried game c : clones sys !! game = Some c -> 0 < game_attempt (c_args c) ->
    exists p y d, parentRef (c_args c) = Ok p /\ clones sys !! y = Some d /\ rootClaim (c_args d) = rootClaim (c_args c) /\
      extraData (c_args d) = previousExtraData (c_imm c) (c_args c) p (game_attempt (c_args c) - 1) /\
      (wasRespectedGameTypeWhenCreated (c_game d) = true -> doomed (clock sys) (c_game d))
}.

Lemma retry_checked sys env c p : sys_ok this sys -> chain_ok foreign sys env ->
  check_retry keccak256 (c_imm c) (c_args c) (answers sys env) p = Ok tt -> 0 < game_attempt (c_args c) ->
  exists y d, clones sys !! y = Some d /\ rootClaim (c_args d) = rootClaim (c_args c) /\
    extraData (c_args d) = previousExtraData (c_imm c) (c_args c) p (game_attempt (c_args c) - 1) /\
    (wasRespectedGameTypeWhenCreated (c_game d) = true -> doomed (now env) (c_game d)).
Proof.
  intros H Hc E Hpos. unfold check_retry in E. rewrite (proj2 (Z.ltb_lt _ _)) in E by done.
  rewrite usub_fits in E by lia. cbn [rbind] in E.
  set (extra := previousExtraData (c_imm c) (c_args c) p (game_attempt (c_args c) - 1)) in *.
  set (y := factory_games (vault_env (answers sys env)) MULTI_PROOF_GAME_TYPE (rootClaim (c_args c)) extra) in *.
  apply rbind_Ok in E as (?&Hy%require_Ok&E).
  destruct (factory_sound _ _ _ Hc (rootClaim (c_args c)) extra) as (d&Hd&Hcl&Hex).
  { change (y <> 0). apply negb_true_iff, Z.eqb_neq in Hy. done. }
  change (clones sys !! y = Some d) in Hd. exists y, d. repeat (split; [done|]). intros Hres.
  destruct (sys_clones _ _ H _ _ Hd) as [Hi _ Hg _].
  simpl in E. unfold peers_in in E. rewrite Hd in E. simpl in E. rewrite Hres in E. simpl in E.
  match type of E with context [resolutionStatus _ _ ?i _] => set (inner := i) in E end.
  destruct (resolutionStatus (c_imm d) (c_args d) inner (c_game d)) as [[[b o] r]|] eqn:Hs; [|by apply require_Ok in E].
  apply require_Ok in E. apply negb_true_iff, orb_false_iff in E as [Ho Hr].
  apply negb_false_iff, bool_decide_eq_true in Ho as ->. apply negb_false_iff, bool_decide_eq_true in Hr as ->.
  change (now env) with (now inner). by eapply timeout_doomed.
Qed.

(** The earlier attempt of a game is still there after a call, and still lost. *)
Lemma retried_later sys env a sys' y d : sys_ok this sys -> step_to sys env a sys' -> clones sys !! y = Some d ->
  (wasRespectedGameTypeWhenCreated (c_game d) = true ->
     doomed (clock sys) (c_game d) \/ (doomed (now env) (c_game d) /\ exists i b x u w, a = Create i b x u w)) ->
  exists d', clones sys' !! y = Some d' /\ c_args d' = c_args d /\
    (wasRespectedGameTypeWhenCreated (c_game d') = true -> doomed (clock sys') (c_game d')).
Proof.
  intros H Hs Hd Hdoom. destruct (step_laws _ _ _ _ Hs) as [Hch _]. destruct (step_changes _ _ _ _ _ _ Hs Hd) as (g&Hd'&Hx).
  exists {| c_imm := c_imm d; c_args := c_args d; c_game := g |}. repeat (split; [done|]). simpl. intros Hres.
  pose proof (changes_later _ _ _ _ _ _ H Hch Hd Hx) as Hlat. rewrite (later_respected _ _ Hlat) in Hres.
  rewrite (clock_step _ _ _ _ _ _ _ _ Hs). destruct (Hdoom Hres) as [Hdm|(Hdm&i&b&x&u&w&->)].
  - by eapply changes_doomed.
  - by inversion Hx.
Qed.

Lemma retries_step tr sys env a sys' : reached tr sys -> retries_ok sys -> step_to sys env a sys' -> retries_ok sys'.
Proof.
  intros [H0 H]%reached_ok Hr Hs. destruct (step_laws _ _ _ _ Hs) as [Hch Hal]. split.
  - intros game c' Hc'. destruct (step_before _ _ _ _ _ _ Hs Hc') as [(c&Hc&->&->&_)|(sender&value&v'&->&_&E)].
    + by eapply domain_own.
    + by destruct (created_facts _ _ _ _ _ _ _ H Hch H0 Hal E) as (_&_&_&_&?&_).
  - intros game c' Hc'. destruct (step_before _ _ _ _ _ _ Hs Hc') as [(c&Hc&_)|(sender&value&v'&->&_&_)].
    + by eapply games_nonzero.
    + apply Hal.
  - assert (forall x y c' d d0, clones sys' !! x = Some c' -> clones sys !! x = None -> clones sys !! y = Some d ->
      c_args d0 = c_args d -> rootClaim (c_args c') = rootClaim (c_args d0) -> extraData (c_args c') = extraData (c_args d0) ->
      False) as Hnew.
    { intros x y c' d d0 Hc' Hn Hd Ha Hrc Hex.
      destruct (step_before _ _ _ _ _ _ Hs Hc') as [(c&Hc&_)|(sender&value&v'&->&_&_)]; [congruence|].
      destruct Hal as (_&_&_&_&_&_&Hfree). rewrite Hrc, Hex, Ha, (factory_complete _ _ _ Hch _ _ Hd) in Hfree.
      by apply (games_nonzero _ Hr _ _ Hd). }
    intros x y c' d' Hc' Hd' Hrc Hex.
    destruct (step_before _ _ _ _ _ _ Hs Hc') as [(c&Hc&_&Hac&_)|(?&?&?&Ea&Hnc&_)];
      destruct (step_before _ _ _ _ _ _ Hs Hd') as [(d&Hd&_&Had&_)|(?&?&?&Eb&Hnd&_)].
    + rewrite Hac, Had in *. by eapply games_distinct.
    + exfalso. by eapply (Hnew y x d' c c').
    + exfalso. by eapply (Hnew x y c' d d').
    + rewrite Ea in Eb. by injection Eb.
  - intros game c' Hc' Hpos. destruct (step_before _ _ _ _ _ _ Hs Hc') as [(c&Hc&Hi&Ha&_)|(sender&value&v'&->&_&E)].
    + rewrite Ha in Hpos. destruct (retried _ Hr _ _ Hc Hpos) as (p&y&d&Hp&Hd&Hrc&Hex&Hdoom).
      destruct (retried_later _ _ _ _ _ _ H Hs Hd) as (d'&Hd'&Had&Hdoom'); [by left; auto|].
      exists p, y, d'. by rewrite Ha, Hi, Had.
    + destruct (created_facts _ _ _ _ _ _ _ H Hch H0 Hal E) as (_&_&_&_&_&p&Hp&Hretry&_).
      destruct (retry_checked _ _ _ _ H Hch Hretry Hpos) as (y&d&Hd&Hrc&Hex&Hdoom).
      destruct (retried_later _ _ _ _ _ _ H Hs Hd) as (d'&Hd'&Had&Hdoom'); [by right; eauto 10|].
      exists p, y, d'. by rewrite Had.
Qed.

Lemma reached_retries tr sys : reached tr sys -> retries_ok sys.
Proof. induction 1 as [tok config factory t|tr sys env a sys' Hr IH Hs]; [by split|]. by eapply retries_step. Qed.

(** C21: A proposal that was retried is never defended: if two games of the system make the
    same proposal, then the one of the lower attempt, if its type was respected when it was created, is not
    and will not be resolved for its proposer.  So of the attempts at a proposal at most one wins. *)
Theorem retried_never_defended tr sys x y c d :
  reached tr sys -> clones sys !! x = Some c -> clones sys !! y = Some d -> same_proposal c d ->
  game_attempt (c_args d) < game_attempt (c_args c) -> wasRespectedGameTypeWhenCreated (c_game d) = true ->
  game_status (c_game d) <> DefenderWins.
Proof.
  intros Hr Hc Hd Hsame Hlt Hres. pose proof (reached_retries _ _ Hr) as Hret. pose proof (reached_lineage _ _ Hr) as Hl.
  remember (Z.to_nat (game_attempt (c_args c) - game_attempt (c_args d))) as n eqn:Hn. revert x c Hc Hsame Hlt Hn.
  induction (lt_wf n) as [n _ IH]. intros x c Hc Hsame Hlt ->. destruct (args_bytes _ _ Hl _ _ Hd) as [Hbd Hld].
  destruct (args_bytes _ _ Hl _ _ Hc) as [Hbc Hlc].
  assert (0 <= game_attempt (c_args d)) as H0 by (apply (arg_u256 _ 180 Hbd)).
  destruct (retried _ Hret _ _ Hc ltac:(lia)) as (p&z&e&Hp&He&Hrc&Hex&Hdoom).
  destruct (args_bytes _ _ Hl _ _ He) as [Hbe Hle]. destruct (parentRef_raw _ _ Hp) as [Hpr _].
  assert (u256 (game_attempt (c_args c) - 1)) as Hu.
  { pose proof (arg_u256 _ 180 Hbc) as [? ?]. unfold u256, game_attempt in *. lia. }
  rewrite (extraData_words _ Hbe Hle) in Hex. unfold previousExtraData in Hex.
  rewrite <-(domain_own _ Hret _ _ Hc), Hpr in Hex.
  apply app_word_inj in Hex as [Hed Hex]; [|by apply arg_u256..].
  apply app_word_inj in Hex as [Hel Hex]; [|by apply arg_u256..].
  apply app_word_inj in Hex as [Hep Hex]; [|by apply arg_u256..].
  apply abi_word_inj in Hex; [|by apply arg_u256|done].
  destruct Hsame as (S1&S2&S3&S4).
  destruct (decide (game_attempt (c_args d) = game_attempt (c_args c) - 1)) as [Heq|Hneq].
  - assert (y = z) as ->.
    { eapply (games_distinct _ Hret); [done|done|congruence|]. rewrite !extraData_words by done. congruence. }
    assert (d = e) as -> by congruence. destruct (Hdoom Hres) as [?|(?&_)]; congruence.
  - eapply (IH (Z.to_nat (game_attempt (c_args e) - game_attempt (c_args d)))); [|done| | |done]; [lia| |lia].
    repeat split; congruence.
Qed.
End safety.


Lemma retried_never_defended_witness : exists d,
  clones Example.defended !! 77 = Some d /\ game_status (c_game d) <> DefenderWins.
Proof.
  destruct (clones Example.defended !! 78) as [c|] eqn:Hc; [|by vm_compute in Hc].
  destruct (clones Example.defended !! 77) as [d|] eqn:Hd; [|by vm_compute in Hd].
  destruct Example.defended_reached as [tr H]. exists d. split; [reflexivity|].
  assert (c_args c = Example.arguments 1) as Hac.
  { apply (Example.look_Some c_args Example.defended 78 c); [by vm_compute|exact Hc]. }
  assert (c_args d = Example.arguments 0) as Had.
  { apply (Example.look_Some c_args Example.defended 77 d); [by vm_compute|exact Hd]. }
  apply (retried_never_defended Example.hash 9 70 (fun _ => False) tr Example.defended 78 77 c d H Hc Hd).
  - unfold same_proposal. rewrite Hac, Had. repeat split; by vm_compute.
  - rewrite Hac, Had. by vm_compute.
  - apply (Example.look_Some (fun c => wasRespectedGameTypeWhenCreated (c_game c)) Example.defended 77 d);
      [by vm_compute|exact Hd].
Defined.
