(* ===== verification/NitroContracts.v ===== *)
(** * The contracts of the Nitro lane ([src/pkg/contracts/src/dispute/nitro], [sp1], [council])

    The verifier of attestations with its list of approved images, the registry of enclave
    keys, and the verifiers that the lanes of a game call.  The validation of the COSE
    document against its certificates ([NitroValidator]), OpenZeppelin's recovery of signers,
    the SP1 gateway and the council's safe are other contracts: arguments of the definitions.

    [active_signers_attested] says of every state that calls reach where an active key comes
    from; that the verifier of the lane accepts what such a key signs is used in [GameClients.v]. *)

From S2P Require Import Prelude Encoding ProofTypes Aggregation NitroWire NitroEnclave Solidity MultiProofGame.

(** ** Attestations ([NitroAttestationVerifier.sol]) *)

(** What the validation of a document points at: byte strings of the document by start and
    length, [None] where CBOR has null. *)
Record Ptrs := {
  cabundle : list (nat * nat);
  ptr_timestamp : Z;
  pcrs : list (option (nat * nat));
  ptr_publicKey : option (nat * nat)
}.

Definition MAX_AGE : Z := 60 * 60.
Definition CLOCK_SKEW_TOLERANCE : Z := 5 * 60.
Definition MAX_CABUNDLE_LEN : nat := 8.

Inductive SignerStatus := SignerUnknown | SignerActive | SignerRevoked.
#[export] Instance SignerStatus_eq_dec : EqDecision SignerStatus.
Proof. solve_decision. Defined.

(** Of the attestation verifier, the approved images; of the registry, keys and their images. *)
Record Nitro := {
  verifier_owner : Address;
  registry_owner : Address;
  approvedPCRSets : gmap B256 bool;
  signerStatus : gmap Address SignerStatus;
  signerImageId : gmap Address B256
}.

Inductive NitroError :=
| AttestationStale (age : Z)
| AttestationFromFuture (drift : Z)
| CabundleTooLong (found : nat)
| InsufficientPcrs (found : nat)
| MissingPcr (index : nat)
| PCRSetNotApproved (pcr0 pcr1 pcr2 : B256)
| InvalidEmbeddedPublicKey
| InvalidDocument
| InvalidPublicKey
| OwnableUnauthorizedAccount (account : Address)
| SignerNotRegistered
| SignerAlreadyRegistered
| SignerRevokedPermanently.

Section nitro.
Variable keccak256 : bytes -> B256.

(** [NitroValidator.validateAttestationWithHints] and [LibBytes.slice]; [None] is a revert. *)
Variable validateAttestationWithHints : bytes -> bytes -> bytes -> option Ptrs.
Variable slice : bytes -> nat -> nat -> option bytes.

#[local] Abbreviation res A := (result A (revert NitroError)).
Implicit Types s : Nitro.

Definition onlyOwner (owner sender : Address) : res unit :=
  require (sender =? owner) (OwnableUnauthorizedAccount sender).

Definition _pcrSetHash (pcr0 pcr1 pcr2 : B256) : B256 := keccak256 (abi_word pcr0 ++ abi_word pcr1 ++ abi_word pcr2).
Definition isPCRSetApproved s (pcr0 pcr1 pcr2 : B256) : bool :=
  default false (approvedPCRSets s !! _pcrSetHash pcr0 pcr1 pcr2).

Definition set_approved (h : B256) (b : bool) s : Nitro :=
  {| verifier_owner := verifier_owner s; registry_owner := registry_owner s; approvedPCRSets := <[h := b]> (approvedPCRSets s);
     signerStatus := signerStatus s; signerImageId := signerImageId s |}.

Definition approvePCRSet s (sender : Address) (pcr0 pcr1 pcr2 : B256) : res Nitro :=
  let? _ := onlyOwner (verifier_owner s) sender in
  if isPCRSetApproved s pcr0 pcr1 pcr2 then Ok s else Ok (set_approved (_pcrSetHash pcr0 pcr1 pcr2) true s).

Definition revokePCRSet s (sender : Address) (pcr0 pcr1 pcr2 : B256) : res Nitro :=
  let? _ := onlyOwner (verifier_owner s) sender in
  if isPCRSetApproved s pcr0 pcr1 pcr2 then Ok (set_approved (_pcrSetHash pcr0 pcr1 pcr2) false s) else Ok s.

(** [timestampMs] is in milliseconds, the block's time in seconds. *)
Definition _checkFreshness (now timestampMs : Z) : res unit :=
  let docSeconds := timestampMs / 1000 in
  if now <? docSeconds
  then require (negb (CLOCK_SKEW_TOLERANCE <? docSeconds - now)) (AttestationFromFuture (docSeconds - now))
  else require (negb (MAX_AGE <? now - docSeconds)) (AttestationStale (now - docSeconds)).

(** Bytes of the calldata from [start]; [rest] follows the document, zeros follow the calldata. *)
Definition _hashPcr (tbs rest : bytes) (ptr : nat * nat) : B256 :=
  let '(start, len) := ptr in
  keccak256 (take len (drop start (tbs ++ rest) ++ replicate len 0)).

Definition pcr_at (pcrs : list (option (nat * nat))) (i : nat) : res (nat * nat) :=
  ok_or (nth i pcrs None) (Custom (MissingPcr i)).

Definition _verifyValidated s (now : Z) (tbs rest : bytes) (ptrs : Ptrs) : res (bytes * B256 * B256 * B256) :=
  let? _ := require (length (cabundle ptrs) <=? MAX_CABUNDLE_LEN)%nat (CabundleTooLong (length (cabundle ptrs))) in
  let? _ := _checkFreshness now (ptr_timestamp ptrs) in
  let? _ := require (negb (length (pcrs ptrs) <? 3)%nat) (InsufficientPcrs (length (pcrs ptrs))) in
  let? p0 := pcr_at (pcrs ptrs) 0 in
  let? p1 := pcr_at (pcrs ptrs) 1 in
  let? p2 := pcr_at (pcrs ptrs) 2 in
  let pcr0 := _hashPcr tbs rest p0 in
  let pcr1 := _hashPcr tbs rest p1 in
  let pcr2 := _hashPcr tbs rest p2 in
  let? _ := require (isPCRSetApproved s pcr0 pcr1 pcr2) (PCRSetNotApproved pcr0 pcr1 pcr2) in
  let? key := ok_or (ptr_publicKey ptrs) (Custom InvalidEmbeddedPublicKey) in
  let? _ := require (snd key =? 65)%nat InvalidEmbeddedPublicKey in
  let? publicKey := ok_or (slice tbs (fst key) 65) Panic in
  let? _ := require (nth 0 publicKey 0 =? 4) InvalidEmbeddedPublicKey in
  Ok (publicKey, pcr0, pcr1, pcr2).

Definition verifyAttestation s (now : Z) (tbs signature hints rest : bytes) : res (bytes * B256 * B256 * B256) :=
  let? ptrs := ok_or (validateAttestationWithHints tbs signature hints) (Custom InvalidDocument) in
  _verifyValidated s now tbs rest ptrs.

(** ** Keys ([NitroEnclaveKeyRegistry.sol]) *)

Definition status_of s (signer : Address) : SignerStatus := default SignerUnknown (signerStatus s !! signer).

(** The hash of the coordinates, of which an address keeps the last 20 bytes. *)
Definition _signerAddress (publicKey : bytes) : Address := keccak256 (take 64 (drop 1 publicKey)) mod 2 ^ 160.

Definition set_signer (signer : Address) (st : SignerStatus) (image : B256) s : Nitro :=
  {| verifier_owner := verifier_owner s; registry_owner := registry_owner s; approvedPCRSets := approvedPCRSets s;
     signerStatus := <[signer := st]> (signerStatus s); signerImageId := <[signer := image]> (signerImageId s) |}.
Definition set_status (signer : Address) (st : SignerStatus) s : Nitro :=
  {| verifier_owner := verifier_owner s; registry_owner := registry_owner s; approvedPCRSets := approvedPCRSets s;
     signerStatus := <[signer := st]> (signerStatus s); signerImageId := signerImageId s |}.

Definition registerKey s (now : Z) (tbs signature hints rest : bytes) : res (Address * Nitro) :=
  let? '(publicKey, pcr0, _, _) := verifyAttestation s now tbs signature hints rest in
  let? _ := require (negb (negb (length publicKey =? 65)%nat || negb (nth 0 publicKey 0 =? 4))) InvalidPublicKey in
  let signer := _signerAddress publicKey in
  let? _ := require (negb (signer =? 0)) InvalidPublicKey in
  let? _ := require (negb (bool_decide (status_of s signer = SignerRevoked))) SignerRevokedPermanently in
  let? _ := require (negb (bool_decide (status_of s signer = SignerActive))) SignerAlreadyRegistered in
  Ok (signer, set_signer signer SignerActive pcr0 s).

Definition revokeSigner s (sender signer : Address) : res Nitro :=
  let? _ := onlyOwner (registry_owner s) sender in
  let? _ := require (bool_decide (status_of s signer = SignerActive)) SignerNotRegistered in
  Ok (set_status signer SignerRevoked s).

Definition isSignerRegisteredForImage s (signer : Address) (imageId : B256) : bool :=
  bool_decide (status_of s signer = SignerActive) && (mget (signerImageId s) signer =? imageId).

(** ** The verifiers of the lanes *)

(** [NitroProofVerifier.verify]; [tryRecover] is OpenZeppelin's, [None] an error. *)
Definition nitro_verify (tryRecover : B256 -> bytes -> option Address) s
    (proof : bytes) (verifierId : B256) (publicValues : bytes) : bool :=
  if (verifierId =? 0) || negb (length publicValues =? 6 * 32)%nat then false
  else match tryRecover (keccak256 publicValues) proof with
       | Some recovered => isSignerRegisteredForImage s recovered verifierId
       | None => false
       end.

(** [SP1ValidityVerifier.verify]: the gateway reverts on an invalid proof. *)
Definition sp1_verify (verifyProof : B256 -> bytes -> bytes -> option unit)
    (proof : bytes) (verifierId : B256) (publicValues : bytes) : bool :=
  match verifyProof verifierId publicValues proof with Some _ => true | None => false end.

(** [SecurityCouncilVerifier]: the digest that the council's safe signs, and its check. *)
Definition ERC1271_MAGIC_VALUE : Z := 0x1626ba7e.
Definition attestationDigest (typehash : B256) (chainid : Z) (this : Address) (root : B256) : B256 :=
  keccak256 (abi_word typehash ++ abi_word chainid ++ abi_word this ++ abi_word root).
Definition council_verify (typehash : B256) (chainid : Z) (this : Address)
    (isValidSignature : B256 -> bytes -> option Z) (proof : bytes) (verifierId : B256) (publicValues : bytes) : bool :=
  if negb (verifierId =? 0) || negb (length publicValues =? 32)%nat then false
  else match isValidSignature (attestationDigest typehash chainid this (be_val publicValues)) proof with
       | Some magic => magic =? ERC1271_MAGIC_VALUE
       | None => false
       end.

(** ** Calls *)

Inductive nitro_action :=
| ApprovePCRSet (sender : Address) (pcr0 pcr1 pcr2 : B256)
| RevokePCRSet (sender : Address) (pcr0 pcr1 pcr2 : B256)
| RegisterKey (now : Z) (tbs signature hints rest : bytes)
| RevokeSigner (sender signer : Address).

Definition nitro_exec (a : nitro_action) s : res Nitro :=
  match a with
  | ApprovePCRSet sender pcr0 pcr1 pcr2 => approvePCRSet s sender pcr0 pcr1 pcr2
  | RevokePCRSet sender pcr0 pcr1 pcr2 => revokePCRSet s sender pcr0 pcr1 pcr2
  | RegisterKey now tbs signature hints rest => let? r := registerKey s now tbs signature hints rest in Ok (snd r)
  | RevokeSigner sender signer => revokeSigner s sender signer
  end.

(** From a fresh deployment; the calls that succeeded, the last one first, with the states
    that they were made in. *)
Inductive nitro_reachable : list (Nitro * nitro_action) -> Nitro -> Prop :=
| nitro_start o1 o2 : nitro_reachable []
    {| verifier_owner := o1; registry_owner := o2; approvedPCRSets := ∅; signerStatus := ∅; signerImageId := ∅ |}
| nitro_step tr s a s' : nitro_reachable tr s -> nitro_exec a s = Ok s' -> nitro_reachable ((s, a) :: tr) s'.

(** A document was validated, fresh and of an approved image, and certifies the key of [signer]. *)
Definition attests_signer s (a : nitro_action) (signer : Address) (image : B256) : Prop :=
  exists now tbs signature hints rest ptrs publicKey pcr1 pcr2, a = RegisterKey now tbs signature hints rest /\
    validateAttestationWithHints tbs signature hints = Some ptrs /\
    now - MAX_AGE <= ptr_timestamp ptrs / 1000 <= now + CLOCK_SKEW_TOLERANCE /\
    isPCRSetApproved s image pcr1 pcr2 = true /\
    length publicKey = 65%nat /\ nth 0 publicKey 0 = 4 /\ signer = _signerAddress publicKey /\
    exists start, ptr_publicKey ptrs = Some (start, 65%nat) /\ slice tbs start 65 = Some publicKey.

Lemma freshness_spec now ts u :
  _checkFreshness now ts = Ok u <-> now - MAX_AGE <= ts / 1000 <= now + CLOCK_SKEW_TOLERANCE.
Proof.
  unfold _checkFreshness, MAX_AGE, CLOCK_SKEW_TOLERANCE.
  destruct (Z.ltb_spec now (ts / 1000)); rewrite require_Ok, negb_true_iff, Z.ltb_ge; lia.
Qed.

Lemma registerKey_spec s now tbs signature hints rest r :
  registerKey s now tbs signature hints rest = Ok r ->
  exists image, attests_signer s (RegisterKey now tbs signature hints rest) (fst r) image /\ fst r <> 0 /\
    status_of s (fst r) = SignerUnknown /\ snd r = set_signer (fst r) SignerActive image s.
Proof.
  unfold registerKey, verifyAttestation, _verifyValidated, pcr_at. intros E.
  apply rbind_Ok in E as ([[[pk p0] p1] p2]&Ev&E). inv_ok. simplify_eq. simpl.
  match goal with x : (nat * nat)%type, H : ptr_publicKey _ = Some ?x |- _ => destruct x as [st ln] end. simpl in *.
  repeat match goal with H : (_ =? _)%nat = true |- _ => apply Nat.eqb_eq in H end.
  repeat match goal with H : (_ =? _)%nat = false |- _ => apply Nat.eqb_neq in H end. subst.
  eexists. split; [|split; [done|split; [by destruct (status_of s _)|done]]].
  do 9 eexists. split; [done|]. split; [done|]. split; [by apply (proj1 (freshness_spec _ _ tt))|]. split; [done|].
  split; [done|]. split; [done|]. split; [done|]. by eexists.
Qed.

(** The life of a key: where it was attested, and whether it was revoked since. *)
Definition revoked_in (tr : list (Nitro * nitro_action)) (signer : Address) : Prop :=
  exists s sender, (s, RevokeSigner sender signer) ∈ tr.

Lemma status_insert s signer st image x :
  status_of (set_signer signer st image s) x = (if decide (signer = x) then st else status_of s x) /\
  mget (signerImageId (set_signer signer st image s)) x = (if decide (signer = x) then image else mget (signerImageId s) x) /\
  status_of (set_status signer st s) x = (if decide (signer = x) then st else status_of s x).
Proof.
  unfold status_of, mget. simpl. rewrite !lookup_insert. case_decide; done.
Qed.

Definition key_history (tr : list (Nitro * nitro_action)) s : Prop := forall signer,
  match status_of s signer with
  | SignerUnknown => ~ revoked_in tr signer
  | SignerActive => ~ revoked_in tr signer /\
      exists s0 a, (s0, a) ∈ tr /\ attests_signer s0 a signer (mget (signerImageId s) signer)
  | SignerRevoked => revoked_in tr signer
  end.

Lemma revoked_cons e tr signer : revoked_in tr signer -> revoked_in (e :: tr) signer.
Proof. intros (s&sender&H). exists s, sender. by right. Qed.

Lemma revoked_cons_other s a tr signer : (forall sender, a <> RevokeSigner sender signer) ->
  revoked_in ((s, a) :: tr) signer -> revoked_in tr signer.
Proof. intros Ha (s'&sender&[[= -> <-]|H]%elem_of_cons); [by destruct (Ha sender)|by exists s', sender]. Qed.

Lemma key_history_same tr s s' a : key_history tr s -> signerStatus s' = signerStatus s -> signerImageId s' = signerImageId s ->
  (forall sender signer, a <> RevokeSigner sender signer) -> key_history ((s, a) :: tr) s'.
Proof.
  intros H Hs Hi Ha signer. specialize (H signer). unfold status_of in *. rewrite Hs, Hi.
  destruct (default SignerUnknown (signerStatus s !! signer)).
  - by intros ?%revoked_cons_other.
  - destruct H as [Hn (s0&b&Hin&?)]. split; [by intros ?%revoked_cons_other|]. exists s0, b. split; [by right|done].
  - by apply revoked_cons.
Qed.

Lemma nitro_history tr s : nitro_reachable tr s -> key_history tr s.
Proof.
  induction 1 as [o1 o2|tr s a s' Hr IH E].
  { intros signer. unfold status_of. simpl. rewrite lookup_empty. simpl. intros (?&?&[]%elem_of_nil). }
  destruct a as [sender p0 p1 p2|sender p0 p1 p2|now tbs signature hints rest|sender signer]; simpl in E.
  - unfold approvePCRSet in E. inv_ok. case_match; inv_ok; by apply key_history_same.
  - unfold revokePCRSet in E. inv_ok. case_match; inv_ok; by apply key_history_same.
  - apply rbind_Ok in E as (r&Ereg&[= <-]). apply registerKey_spec in Ereg as (image&Hatt&_&Hst&->).
    intros x. destruct (status_insert s (fst r) SignerActive image x) as (->&->&_).
    pose proof (IH x) as Hx. case_decide as Hd; [subst|].
    + rewrite Hst in Hx. split; [by intros ?%revoked_cons_other|]. do 2 eexists. split; [by left|done].
    + destruct (status_of s x).
      * by intros ?%revoked_cons_other.
      * destruct Hx as [Hn (s0&b&Hin&?)]. split; [by intros ?%revoked_cons_other|]. exists s0, b. split; [by right|done].
      * by apply revoked_cons.
  - unfold revokeSigner in E. inv_ok. intros x. simpl. destruct (status_insert s signer SignerRevoked 0 x) as (_&_&->).
    pose proof (IH x) as Hx. case_decide as Hd; [subst; exists s, sender; by left|].
    destruct (status_of s x).
    + intros Hrev. apply Hx. eapply revoked_cons_other; [|exact Hrev]. congruence.
    + destruct Hx as [Hn (s0&b&Hin&?)]. split; [|exists s0, b; split; [by right|done]].
      intros Hrev. apply Hn. eapply revoked_cons_other; [|exact Hrev]. congruence.
    + by apply revoked_cons.
Qed.


(** ** What the enclave signs *)

Section enclave.
Context (ec : Secp) (tryRecover : B256 -> bytes -> option Address).

(** A normalized signature has the lower [s]; the recovery of OpenZeppelin takes such signatures, with
    27 or 28 for the parity, and gives the address of the key. *)
Record EcdsaLaws : Prop := {
  normalized_low sig sig' : normalize_s ec sig = Some sig' -> normalize_s ec sig' = None;
  recovers_signer h sig id key : 0 <= id < 2 -> normalize_s ec sig = None ->
    recover_from_prehash ec (be_bytes 32 h) sig id = Ok key ->
    tryRecover h (ec_to_bytes ec sig ++ [id + 27]) = Some (_signerAddress key)
}.

Lemma signature_recovered (secp : SecpLaws ec) (laws : EcdsaLaws) key t signature :
  sign_transition_public_values keccak256 ec key t = Ok signature -> nth 64 signature 0 <= 28 ->
  tryRecover (keccak256 (transition_abi_encode t)) signature = Some (_signerAddress (encoded_public_key ec key)).
Proof.
  intros Hs Hv. pose proof Hs as Hr. unfold sign_transition_public_values, context in Hs.
  apply rbind_Ok in Hs as ([sig0 id0]&Hsig%map_err_Ok&Hb). apply (recover_signed ec secp) in Hsig as [Hid Hrec].
  assert (exists sig id, signature = ec_to_bytes ec sig ++ [id + 27] /\ 0 <= id < 4 /\ normalize_s ec sig = None /\
    recover_from_prehash ec (transition_commitment keccak256 t) sig id = Ok (encoded_public_key ec key))
    as (sig&id&->&Hid'&Hlow&Hrec').
  { destruct (normalize_s ec sig0) as [sig'|] eqn:Hn; injection Hb as <-.
    - exists sig', (Z.lxor id0 1). split; [done|]. split; [by apply lxor_parity|].
      split; [by eapply normalized_low|]. by eapply (recover_normalized ec secp).
    - by exists sig0, id0. }
  destruct (read_signature ec secp sig) as [_ Hlen].
  rewrite app_nth2, Hlen in Hv by lia. simpl in Hv. apply (recovers_signer laws); [lia|done|done].
Qed.

Lemma nitro_verify_signed (secp : SecpLaws ec) (laws : EcdsaLaws) s key t signature image :
  sign_transition_public_values keccak256 ec key t = Ok signature -> nth 64 signature 0 <= 28 -> image <> 0 ->
  isSignerRegisteredForImage s (_signerAddress (encoded_public_key ec key)) image = true ->
  nitro_verify tryRecover s signature image (transition_abi_encode t) = true.
Proof.
  intros Hs Hv Hi Hreg. unfold nitro_verify. rewrite (proj2 (Z.eqb_neq _ _)) by done.
  assert (length (transition_abi_encode t) = (6 * 32)%nat) as ->.
  { unfold transition_abi_encode. by rewrite !length_app, !abi_word_length. }
  rewrite Nat.eqb_refl. simpl. by rewrite (signature_recovered secp laws key t).
Qed.
End enclave.
End nitro.

(** ** An example: a document of 113 bytes, with the three PCRs and the key *)

Module NitroExample.
Definition hash (b : bytes) : B256 := be_val b mod 2 ^ 256.
Definition key : bytes := 4 :: replicate 64 1.
Definition document : bytes := replicate 16 7 ++ replicate 16 8 ++ replicate 16 9 ++ key.
Definition ptrs : Ptrs :=
  {| cabundle := [(0, 1)%nat]; ptr_timestamp := 1000500; pcrs := [Some (0, 16); Some (16, 16); Some (32, 16)]%nat;
     ptr_publicKey := Some (48, 65)%nat |}.
Definition validate (tbs signature hints : bytes) : option Ptrs := if bool_decide (signature = [1]) then Some ptrs else None.
Definition sub (b : bytes) (start n : nat) : option bytes :=
  if (start + n <=? length b)%nat then Some (take n (drop start b)) else None.
Definition pcr (n : Z) : B256 := hash (replicate 16 n).
Definition fresh : Nitro :=
  {| verifier_owner := 1; registry_owner := 2; approvedPCRSets := ∅; signerStatus := ∅; signerImageId := ∅ |}.
Definition approve : nitro_action := ApprovePCRSet 1 (pcr 7) (pcr 8) (pcr 9).
Definition register : nitro_action := RegisterKey 1020 document [1] [] [].
Definition after (a : nitro_action) (s : Nitro) : Nitro :=
  match nitro_exec hash validate sub a s with Ok s' => s' | Err _ => s end.
Definition registered : Nitro := after register (after approve fresh).

Lemma registered_reached : nitro_reachable hash validate sub [(after approve fresh, register); (fresh, approve)] registered.
Proof. repeat (econstructor; [|by vm_compute]). constructor. Qed.
End NitroExample.

