(* ===== verification/GameClients.v ===== *)
(** * The services and the contracts of the proof system

    What the Rust services encode, the contracts read: the creation data of a proposal, the
    identifiers, and the proof payloads.  The services' side is [ProofTypes.v],
    [Aggregation.v] and [NitroEnclave.v]; the contracts' side is [MultiProofGame.v] and
    [NitroContracts.v]. *)

From S2P Require Import Prelude Encoding ProofTypes Aggregation NitroWire NitroEnclave.
From S2P Require Import Solidity StakingVault MultiProofGame GameRules DisputeSystem NitroContracts.

(** The arguments that the factory appends to the clone of a proposal. *)
Definition proposal_args (creator : Address) (c : ProposalCommitment) (l1_head domain : B256) : bytes :=
  be_bytes 20 creator ++ abi_word (root_claim c) ++ abi_word l1_head ++ extra_data c domain.

Lemma arg_word pre w post n : length pre = n -> u256 w -> getArgUint256 (pre ++ abi_word w ++ post) n = w.
Proof.
  intros <- Hw. unfold getArgUint256, getArgBytes. rewrite drop_app_length, take_app_length' by (by rewrite abi_word_length).
  unfold abi_word. rewrite be_val_bytes. apply Z.mod_small. change (256 ^ Z.of_nat 32) with (U256_MAX + 1).
  unfold u256 in Hw. lia.
Qed.

(** The services' commitment of the game with these arguments. *)
Definition commitment_of (c : ProposalCommitment) (l1_head : B256) (g : Game) : RootCommitment :=
  {| proposal := c; l1_origin_hash := l1_head; l1_origin_number := l1OriginNumber g |}.


(** ** Proof payloads *)

Section payloads.
Variable keccak256 : bytes -> B256.
Context (imm : Immutables) (args : bytes).
Implicit Types (env : GameEnv) (g : Game).

(** A proof for [lane] can be submitted: the game is in progress and not over, its parent is not
    invalid, and the lane has no proof yet; [root] and [t] are the statement to prove. *)
Record open_lane env g (lane : ProofLane) (root : B256) (t : TransitionPublicValues) : Prop := {
  lane_in_progress : game_status g = InProgress;
  lane_parent : exists p, _parentResolution imm args env = Ok p /\ parent_invalid p = false;
  lane_time : gameOver imm env g = false;
  lane_free : has (claim_proof_bitmap (claimData g)) lane = false;
  lane_root : rootId keccak256 imm args g = Ok root;
  lane_transition : _transition imm args env = Ok t
}.

(** The payload that the defender sends is taken apart as it was put together; then the verifier decides. *)
Lemma submit_encoded env g lane root t to proof rest b :
  open_lane env g lane root t -> address to -> is_bytes proof -> is_bytes rest ->
  (let '(verifier, verifierId, publicValues) := _verificationCallFor imm lane root t in
   verify env verifier proof verifierId publicValues = Some b) ->
  match submitProofLane keccak256 imm args env g (encode_compact_proof lane to proof) rest with
  | Ok g' => b = true /\ claim_proof_bitmap (claimData g') = set (claim_proof_bitmap (claimData g)) lane /\
      mget (laneRecipient g') (lane_u8 lane) = to
  | Err e => b = false /\ e = Custom (InvalidProof lane root)
  end.
Proof.
  intros [Hp (p&Hpar&Hinv) Ht Hf Hr Htr] Hto Hpb Hrb Hv. unfold submitProofLane.
  destruct (compact_proof_roundtrip lane to proof rest Hto Hpb Hrb) as [Hdec Hlen].
  rewrite Hp, Hpar, bool_decide_eq_true_2 by done. cbn [require rbind]. rewrite Hinv, Ht, Hr.
  cbn [require rbind negb]. rewrite (proj2 (Z.ltb_ge _ _)) by lia. cbn [require rbind negb].
  rewrite Hdec, (proj2 (lane_of_id_Some (lane_u8 lane) lane) eq_refl). cbn [ok_or rbind]. rewrite Hf, Htr.
  cbn [require rbind negb]. destruct (_verificationCallFor imm lane root t) as [[vf vid] pv]. rewrite Hv.
  cbn [ok_or rbind]. destruct b; cbn [require rbind]; [|done].
  split; [done|]. split; [done|]. cbn [laneRecipient with_recipient]. rewrite mget_insert. by rewrite bool_decide_eq_true_2.
Qed.

(** C10: What an enclave proves, the game accepts: let the enclave sign the transition that an
    open game claims, with a key that the registry holds active for the image the game is pinned to
    and with a parity that the contracts know (27 or 28).
    Then the payload that the defender encodes from this signature is accepted on the TEE lane, counts as
    one more lane, and records the defender's recipient. *)
Theorem enclave_proof_accepted ec tryRecover registry env g root t key signature to rest :
  SecpLaws ec -> EcdsaLaws keccak256 ec tryRecover ->
  (forall proof id pv, verify env (imm_teeVerifier imm) proof id pv = Some (nitro_verify keccak256 tryRecover registry proof id pv)) ->
  imm_teeImageId imm <> 0 -> open_lane env g TeeAttestation root t -> address to -> is_bytes signature -> is_bytes rest ->
  sign_transition_public_values keccak256 ec key t = Ok signature -> nth 64 signature 0 <= 28 ->
  isSignerRegisteredForImage registry (_signerAddress keccak256 (encoded_public_key ec key)) (imm_teeImageId imm) = true ->
  exists g', submitProofLane keccak256 imm args env g (encode_compact_proof TeeAttestation to signature) rest = Ok g' /\
    count (claim_proof_bitmap (claimData g')) = count (claim_proof_bitmap (claimData g)) + 1 /\
    has (claim_proof_bitmap (claimData g')) TeeAttestation = true /\ mget (laneRecipient g') (lane_u8 TeeAttestation) = to.
Proof.
  intros secp laws Hver Himg Hopen Hto Hsb Hrb Hsign Hv Hreg.
  pose proof (submit_encoded env g TeeAttestation root t to signature rest true Hopen Hto Hsb Hrb) as Hsub.
  cbn [_verificationCallFor] in Hsub. rewrite Hver, (nitro_verify_signed _ _ _ secp laws registry key) in Hsub by done.
  specialize (Hsub eq_refl). destruct (submitProofLane _ _ _ _ _ _ _) as [g'|]; [|by destruct Hsub].
  destruct Hsub as (_&Hb&Hto'). exists g'. split; [done|]. rewrite Hb, count_set, has_set, (lane_free _ _ _ _ _ Hopen).
  rewrite bool_decide_eq_true_2, orb_true_r by done. done.
Qed.
End payloads.


(** ** An example: an enclave whose key is registered for image 23, and a game that claims its transition *)

Module ClientExample.
Definition ec : Secp :=
  {| SigningKey := unit; key_from_bytes _ := Ok tt; encoded_public_key _ := NitroExample.key; EcSignature := unit;
     sign_prehash_recoverable _ _ := Ok (tt, 1); normalize_s _ := None; ec_to_bytes _ := replicate 64 0;
     ec_from_slice _ := Ok tt; recover_from_prehash _ _ _ := Ok NitroExample.key |}.

Lemma ec_laws : SecpLaws ec.
Proof. split; simpl; [|done|by intros []]. intros k m s id [= <- <-]. split; [lia|done]. Qed.

Definition recover (h : B256) (signature : bytes) : option Address := Some (_signerAddress Example.hash NitroExample.key).

Lemma recover_laws : EcdsaLaws Example.hash ec recover.
Proof. split; simpl; [done|]. by intros h sig id key _ _ [= <-]. Qed.

Definition registry : Nitro :=
  {| verifier_owner := 1; registry_owner := 2; approvedPCRSets := ∅;
     signerStatus := {[_signerAddress Example.hash NitroExample.key := SignerActive]};
     signerImageId := {[_signerAddress Example.hash NitroExample.key := 23]} |}.

Definition env : GameEnv :=
  let e := Example.env Example.proposed 1020 in
  {| vault_env := vault_env e; block_number := block_number e; registry_paused := false;
     isGameRegistered := isGameRegistered e; isGameRespected := isGameRespected e;
     isGameBlacklisted := isGameBlacklisted e; isGameRetired := isGameRetired e;
     isGameFinalized := isGameFinalized e; isGameProper := isGameProper e; anchorGame := anchorGame e;
     getStartingAnchorRoot := getStartingAnchorRoot e; respectedGameType := respectedGameType e; peers := peers e;
     verify _ proof id pv := Some (nitro_verify Example.hash recover registry proof id pv) |}.

Definition game : Game :=
  with_claim {| claim_status := Unchallenged; claim_challenger := 0; claim_deadline := 1110; claim_proof_bitmap := 0;
                claim_invalidation_reason := NoReason |} fresh_game.
Definition transition : TransitionPublicValues :=
  {| l1Head := 666; l2PreRoot := 444; l2PreBlockNumber := 10; l2PostRoot := 555; l2PostBlockNumber := 20; rollupConfigHash := 12 |}.
Definition signature : bytes := replicate 64 0 ++ [28].
Definition root : B256 := match rootId Example.hash Example.imm (Example.arguments 0) game with Ok r => r | Err _ => 0 end.

Lemma lane_open : open_lane Example.hash Example.imm (Example.arguments 0) env game TeeAttestation root transition.
Proof. split; [done|exists (DefenderWins, false); split; by vm_compute|by vm_compute..]. Qed.
End ClientExample.

Lemma enclave_proof_accepted_witness : exists g',
  submitProofLane Example.hash Example.imm (Example.arguments 0) ClientExample.env ClientExample.game
    (encode_compact_proof TeeAttestation 103 ClientExample.signature) [] = Ok g' /\
  mget (laneRecipient g') (lane_u8 TeeAttestation) = 103.
Proof.
  destruct (enclave_proof_accepted Example.hash Example.imm (Example.arguments 0) ClientExample.ec ClientExample.recover
    ClientExample.registry ClientExample.env ClientExample.game ClientExample.root ClientExample.transition tt
    ClientExample.signature 103 [] ClientExample.ec_laws ClientExample.recover_laws) as (g'&Hg&_&_&Hto).
  - reflexivity.
  - by vm_compute.
  - exact ClientExample.lane_open.
  - split; by vm_compute.
  - unfold ClientExample.signature. apply Forall_app. split; [apply Forall_replicate; lia|repeat constructor; lia].
  - constructor.
  - reflexivity.
  - by vm_compute.
  - by vm_compute.
  - exists g'. split; [exact Hg|exact Hto].
Defined.
