(* ===== verification/PbhContracts.v ===== *)
(** * The contracts of priority blockspace ([src/pkg/contracts/src/pbh], [src/lib])

    The external nullifiers as the contract reads them, the entry point that verifies the PBH
    payloads of a bundle before it relays it, the aggregator that the ERC-4337 entry point calls
    back, and the Safe module that lets a proof ride behind the signatures.  World ID, the
    ERC-4337 entry point, the Safe and the calendar library are other code: arguments. *)

From S2P Require Import Prelude Encoding ProofTypes Pbh PbhPool Solidity.

(** ** External nullifiers ([PBHExternalNullifier.sol]) *)

Inductive PbhError :=
| InvalidExternalNullifierMonth
| InvalidExternalNullifier (externalNullifier signalHash : Z) (reason : string)
| InvalidNullifier (nullifierHash signalHash : Z)
| AddressZero
| InvalidNumPbhPerMonth
| StorageCollision
| InvalidHashedOps
| InvalidPBHGasLimit (gasLimit : Z)
| InvalidAggregatedSignature (payloads userOps : nat)
| UnauthorizedBuilder
| InvalidAuthorizedBuilders
| OwnableUnauthorizedAccount (account : Address)
| OwnableInvalidOwner (account : Address)
| ProofRejected
| EntryPointReverted
| ReentrantCall
| InvalidSignatureLength (expected actual : Z)
| InvalidProofSize
| UninitializedNonceKey
| InvalidInitialization
| MalformedCalldata.

#[local] Abbreviation res A := (result A (revert PbhError)).

Definition sol_V1 : Z := 1.

Definition sol_encode (version pbhNonce month year : Z) : res Z :=
  let? _ := require ((0 <? month) && (month <? 13)) InvalidExternalNullifierMonth in
  Ok (Z.lor (Z.lor (Z.lor (Z.shiftl year 32) (Z.shiftl month 24)) (Z.shiftl pbhNonce 8)) version).

(** version, nonce, month and year *)
Definition sol_decode (externalNullifier : Z) : Z * Z * Z * Z :=
  (Z.land externalNullifier 0xFF, Z.land (Z.shiftr externalNullifier 8) 0xFFFF,
   Z.land (Z.shiftr externalNullifier 24) 0xFF, Z.land (Z.shiftr externalNullifier 32) 0xFFFF).

Section calendar.
(** [BokkyPooBahsDateTimeLibrary] *)
Variables getYear getMonth : Z -> Z.

Definition verify_nullifier (now externalNullifier numPbhPerMonth signalHash : Z) : res unit :=
  let bad := InvalidExternalNullifier externalNullifier signalHash in
  let? _ := require (externalNullifier <=? 2 ^ 48 - 1) (bad "Leading zeros") in
  let '(version, pbhNonce, month, year) := sol_decode externalNullifier in
  let? _ := require (version =? sol_V1) (bad "Invalid Version") in
  let? _ := require (year =? getYear now) (bad "Invalid Year") in
  let? _ := require (month =? getMonth now) (bad "Invalid Month") in
  require (pbhNonce <? numPbhPerMonth) (bad "Invalid PBH Nonce").

(** The decoder of the node and the library of the contract read the same fields. *)
Lemma sol_decode_rust value e : 0 <= value <= 2 ^ 48 - 1 ->
  decode_nullifier value = Ok e <->
  sol_decode value = (sol_V1, en_nonce e, en_month e, en_year e).
Proof.
  intros Hv. unfold decode_nullifier, sol_decode, sol_V1. change (Z.shiftl 1 48) with (2 ^ 48).
  rewrite (proj2 (Z.ltb_ge _ _)) by lia. change 0xFFFF with (Z.ones 16). rewrite !Z.land_ones by lia.
  destruct e as [[] y m n]. simpl prefix_u8. cbn [en_nonce en_month en_year].
  destruct (Z.eqb_spec (Z.land value 255) 1) as [->|Hne]; cbn [negb]; split; intros H; simplify_eq; done.
Qed.

Lemma verify_nullifier_spec now value limit signalHash date :
  0 <= value -> getYear now = year date -> getMonth now = month date ->
  verify_nullifier now value limit signalHash = Ok tt <->
  exists e, decode_nullifier value = Ok e /\ date_marker e = date /\ en_nonce e < limit.
Proof.
  intros H0 Hy Hm. unfold verify_nullifier. split.
  - intros E. apply rbind_Ok in E as (?&Hr%require_Ok%Z.leb_le&E).
    destruct (sol_decode value) as [[[v n] m] y] eqn:Hd. inv_ok. subst.
    exists {| en_version := V1; en_year := getYear now; en_month := getMonth now; en_nonce := n |}.
    split; [by apply sol_decode_rust|]. split; [|done]. unfold date_marker. simpl. rewrite Hy, Hm. by destruct date.
  - intros (e&He&Hdate&Hn). assert (value <= 2 ^ 48 - 1) as Hr.
    { apply nullifier_codec in He as [Hok <-]; [|done]. rewrite encode_nullifier_sum by done.
      unfold nullifier_ok, u16, u8, U16_MAX, U8_MAX in Hok. lia. }
    apply sol_decode_rust in He; [|lia]. rewrite He, Hy, Hm, <-Hdate. unfold date_marker. simpl.
    rewrite (proj2 (Z.leb_le _ _)), (proj2 (Z.ltb_lt _ _)) by lia. simpl. by rewrite !Z.eqb_refl.
Qed.

(** The node and the contract accept the same external nullifiers: for a 256-bit value, when
    their calendars agree on the month, the check of the contract passes exactly when the node
    decodes the value and its own check of the period and of the nonce passes. *)
Theorem nullifier_checks_agree sem now value limit signalHash date :
  u256 value -> getYear now = year date -> getMonth now = month date ->
  verify_nullifier now value limit signalHash = Ok tt <->
  exists e, decode_nullifier value = Ok e /\
    forall p, external_nullifier p = e -> validate_external_nullifier sem p date limit = Ok tt.
Proof.
  intros [H0 _] Hy Hm. rewrite (verify_nullifier_spec now value limit signalHash date) by done.
  split; intros (e&He&Hc); exists e; (split; [done|]).
  - intros p <-. destruct Hc as [Hd Hn]. unfold validate_external_nullifier. rewrite bool_decide_true by done.
    cbn [negb]. by rewrite (proj2 (Z.leb_gt _ _)).
  - specialize (Hc {| external_nullifier := e; nullifier_hash := 0; pbh_root := 0; pbh_proof := [] |} eq_refl).
    unfold validate_external_nullifier in Hc. cbn [external_nullifier] in Hc.
    destruct (bool_decide_reflect (date_marker e = date)); [|done]. cbn [negb] in Hc.
    destruct (Z.leb_spec limit (en_nonce e)); [done|]. done.
Qed.
End calendar.

Lemma nullifier_checks_agree_witness :
  exists e, decode_nullifier (encode_nullifier (v1 1 2025 29)) = Ok e /\
    forall p, external_nullifier p = e ->
      validate_external_nullifier {| ProofError := unit; decompress_proof := fun _ => None;
        verify_proof := fun _ _ _ _ _ _ => Ok true; hash_to_field := fun _ => 0 |} p {| year := 2025; month := 1 |} 30 = Ok tt.
Proof.
  apply (nullifier_checks_agree (fun _ => 2025) (fun _ => 1) _ 0 _ 30 0 {| year := 2025; month := 1 |}).
  - by split; vm_compute.
  - done.
  - done.
  - by vm_compute.
Defined.

(** ** Payloads and operations *)

Record UserOp := {
  uo_sender : Address; uo_nonce : Z; uo_initCode : bytes; uo_callData : bytes; uo_accountGasLimits : Z;
  uo_preVerificationGas : Z; uo_gasFees : Z; uo_paymasterAndData : bytes; uo_signature : bytes
}.
Record OpsGroup := { og_userOps : list UserOp; og_aggregator : Address; og_signature : bytes }.

Definition with_signature (op : UserOp) (sig : bytes) : UserOp :=
  {| uo_sender := uo_sender op; uo_nonce := uo_nonce op; uo_initCode := uo_initCode op; uo_callData := uo_callData op;
     uo_accountGasLimits := uo_accountGasLimits op; uo_preVerificationGas := uo_preVerificationGas op;
     uo_gasFees := uo_gasFees op; uo_paymasterAndData := uo_paymasterAndData op; uo_signature := sig |}.

(** [abi.encode] of a list of operations: offsets to the operations, and in each of them
    offsets to its byte strings. *)
Definition dynamic_fields (op : UserOp) : list bytes :=
  map abi_bytes_tail [uo_initCode op; uo_callData op; uo_paymasterAndData op; uo_signature op].
Definition offset_of (start : Z) (parts : list bytes) (i : nat) : bytes :=
  abi_word (start + Z.of_nat (length (concat (take i parts)))).
Definition encode_op (op : UserOp) : bytes :=
  let off := offset_of 288 (dynamic_fields op) in
  abi_word (uo_sender op) ++ abi_word (uo_nonce op) ++ off 0%nat ++ off 1%nat ++ abi_word (uo_accountGasLimits op) ++
  abi_word (uo_preVerificationGas op) ++ abi_word (uo_gasFees op) ++ off 2%nat ++ off 3%nat ++ concat (dynamic_fields op).
Definition encode_ops (ops : list UserOp) : bytes :=
  let parts := map encode_op ops in
  abi_word 32 ++ abi_word (Z.of_nat (length ops)) ++
  concat (map (offset_of (32 * Z.of_nat (length ops)) parts) (seq 0 (length ops))) ++ concat parts.

(** ABI coding of [PBHPayload[]]: an offset, a count, and eleven words per payload. *)
Definition payload_words (p : IPBHPayload) : list Z := [i_root p; i_pbhExternalNullifier p; i_nullifierHash p] ++ i_proof p.
Definition encode_payload (p : IPBHPayload) : bytes := concat (map abi_word (payload_words p)).
Definition encode_payloads (ps : list IPBHPayload) : bytes :=
  abi_word 32 ++ abi_word (Z.of_nat (length ps)) ++ concat (map encode_payload ps).

Definition word_at (b : bytes) (i : nat) : Z := be_val (take 32 (drop i b)).
Definition decode_payload (b : bytes) : IPBHPayload :=
  {| i_root := word_at b 0; i_pbhExternalNullifier := word_at b 32; i_nullifierHash := word_at b 64;
     i_proof := map (fun i => word_at b (32 * i)) (seq 3 8) |}.
Fixpoint decode_list (n : nat) (b : bytes) : list IPBHPayload :=
  match n with O => [] | S n' => decode_payload b :: decode_list n' (drop 352 b) end.

(** The checks of the decoder that the compiler generates; [None] is a revert. *)
Definition decode_payloads (b : bytes) : option (list IPBHPayload) :=
  let size := Z.of_nat (length b) in
  if size <? 32 then None
  else
    let offset := word_at b 0 in
    if (U64_MAX <? offset) || (size <=? offset + 31) then None
    else
      let count := word_at b (Z.to_nat offset) in
      if (U64_MAX <? count) || (size <? offset + 32 + count * 352) then None
      else Some (decode_list (Z.to_nat count) (drop (Z.to_nat offset + 32) b)).

(** ** The signatures of a Safe ([SafeModuleSignatures.sol]) *)

Definition ECDSA_SIGNATURE_LENGTH : Z := 65.
Definition TIMESTAMP_BYTES : Z := 12.
Definition PROOF_DATA_LENGTH : Z := 352.

Definition slice_from (b : bytes) (i : Z) : res bytes :=
  if i <=? Z.of_nat (length b) then Ok (drop (Z.to_nat i) b) else Err Panic.

(** [uint256(bytes32(b[i:]))]: a slice of less than a word is padded *)
Definition word_from (b : bytes) (i : Z) : res Z :=
  let? t := slice_from b i in Ok (be_val (take 32 (t ++ replicate 32 0))).

(** The round of the loop for signature [i] *)
Definition signature_round (signatures : bytes) (expectedLength : Z) (i : nat) : res Z :=
  let signaturePos := Z.of_nat i * ECDSA_SIGNATURE_LENGTH in
  let? signatureType := ok_or (signatures !! Z.to_nat (signaturePos + 0x40)) Panic in
  if signatureType =? 0 then
    let? signatureOffset := word_from signatures (signaturePos + 0x20) in
    let? length := word_from signatures signatureOffset in
    let? n := uadd 0x20 length in
    uadd expectedLength n
  else Ok expectedLength.

Fixpoint signature_loop (signatures : bytes) (expectedLength : Z) (rounds : list nat) : res Z :=
  match rounds with
  | [] => Ok expectedLength
  | i :: rounds => let? expectedLength := signature_round signatures expectedLength i in signature_loop signatures expectedLength rounds
  end.

Definition signatureLength (signatures : bytes) (threshold : Z) : res Z :=
  let? expectedLength := umul ECDSA_SIGNATURE_LENGTH threshold in
  let size := Z.of_nat (length signatures) in
  if size <? expectedLength then Err (Custom (InvalidSignatureLength expectedLength size))
  else signature_loop signatures expectedLength (seq 0 (Z.to_nat threshold)).

(** The signature of the operation and the data of the proof *)
Definition extractProof (signatures : bytes) (threshold : Z) : res (bytes * bytes) :=
  let size := Z.of_nat (length signatures) in
  let least := TIMESTAMP_BYTES + ECDSA_SIGNATURE_LENGTH + PROOF_DATA_LENGTH in
  let? _ := require (least <=? size) (InvalidSignatureLength least size) in
  let? n := signatureLength (drop (Z.to_nat TIMESTAMP_BYTES) signatures) threshold in
  let? length := uadd TIMESTAMP_BYTES n in
  let? whole := uadd length PROOF_DATA_LENGTH in
  let? _ := require (size =? whole) (InvalidSignatureLength whole size) in
  Ok (take (Z.to_nat length) signatures, take (Z.to_nat PROOF_DATA_LENGTH) (drop (Z.to_nat length) signatures)).

(** ** The entry point ([PBHEntryPointImplV1.sol]) *)

(** The hash of the chain, World ID's [verifyProof] at an address, and the hash of
    [UserOperationLib]; the block and the caller are [Msg]. *)
Record PbhEnv := {
  keccak256 : bytes -> B256;
  verifyProof : Address -> Z -> Z -> Z -> Z -> list Z -> bool;
  year_at : Z -> Z; month_at : Z -> Z;
  userop_hash : UserOp -> B256; chainid : Z
}.
Record Msg := { sender : Address; timestamp : Z; block_number : Z; block_gaslimit : Z }.

(** The storage, and the transient storage with the guard against reentry. *)
Record EntryPoint := {
  initialized : bool; worldId : Address; entryPoint : Address; numPbhPerMonth : Z; nullifierHashes : gmap Z Z;
  authorizedBuilder : gset Address; pbhGasLimit : Z; owner : Address; tstorage : gmap Z Z; entered : bool
}.

Record PbhEvent := { ev_sender : Address; ev_userOpHash : B256; ev_payload : IPBHPayload }.

Definition uninitialized : EntryPoint :=
  {| initialized := false; worldId := 0; entryPoint := 0; numPbhPerMonth := 0; nullifierHashes := ∅;
     authorizedBuilder := ∅; pbhGasLimit := 0; owner := 0; tstorage := ∅; entered := false |}.

Definition set_tstorage (st : EntryPoint) (t : gmap Z Z) (e : bool) : EntryPoint :=
  {| initialized := initialized st; worldId := worldId st; entryPoint := entryPoint st; numPbhPerMonth := numPbhPerMonth st;
     nullifierHashes := nullifierHashes st; authorizedBuilder := authorizedBuilder st; pbhGasLimit := pbhGasLimit st;
     owner := owner st; tstorage := t; entered := e |}.
Definition set_config (st : EntryPoint) (w : Address) (n g : Z) (o : Address) : EntryPoint :=
  {| initialized := initialized st; worldId := w; entryPoint := entryPoint st; numPbhPerMonth := n;
     nullifierHashes := nullifierHashes st; authorizedBuilder := authorizedBuilder st; pbhGasLimit := g;
     owner := o; tstorage := tstorage st; entered := entered st |}.
Definition set_ledger (st : EntryPoint) (m : gmap Z Z) (b : gset Address) : EntryPoint :=
  {| initialized := initialized st; worldId := worldId st; entryPoint := entryPoint st; numPbhPerMonth := numPbhPerMonth st;
     nullifierHashes := m; authorizedBuilder := b; pbhGasLimit := pbhGasLimit st;
     owner := owner st; tstorage := tstorage st; entered := entered st |}.

(** [keccak256(value) >> 8] *)
Definition hashToField (env : PbhEnv) (value : bytes) : Z := Z.shiftr (keccak256 env value) 8.
Definition signal_of (env : PbhEnv) (op : UserOp) : Z :=
  hashToField env (be_bytes 20 (uo_sender op) ++ be_bytes 32 (uo_nonce op) ++ uo_callData op).
Definition hash_ops (env : PbhEnv) (ops : list UserOp) : B256 := keccak256 env (encode_ops ops).
Definition getUserOpHash (env : PbhEnv) (st : EntryPoint) (op : UserOp) : B256 :=
  keccak256 env (abi_word (userop_hash env op) ++ abi_word (entryPoint st) ++ abi_word (chainid env)).

Definition gas_limit_ok (m : Msg) (g : Z) : res unit :=
  require (negb ((g =? 0) || (block_gaslimit m <? g))) (InvalidPBHGasLimit g).

Definition add_builders (builders : list Address) : res (gset Address) :=
  if existsb (fun b => b =? 0) builders then Err (Custom AddressZero) else Ok (list_to_set builders).

Definition initialize (m : Msg) (st : EntryPoint) (_worldId _entryPoint : Address) (_numPbhPerMonth _pbhGasLimit : Z)
    (_authorizedBuilders : list Address) (_owner : Address) : res EntryPoint :=
  let? _ := require (negb (initialized st)) InvalidInitialization in
  let? _ := require (negb (_entryPoint =? 0)) AddressZero in
  let? _ := require (negb (_numPbhPerMonth =? 0)) InvalidNumPbhPerMonth in
  let? _ := require (negb (bool_decide (_authorizedBuilders = []))) InvalidAuthorizedBuilders in
  let? builders := add_builders _authorizedBuilders in
  (* [__Ownable_init] *)
  let? _ := require (negb (_owner =? 0)) (OwnableInvalidOwner _owner) in
  let? _ := gas_limit_ok m _pbhGasLimit in
  Ok {| initialized := true; worldId := _worldId; entryPoint := _entryPoint; numPbhPerMonth := _numPbhPerMonth;
        nullifierHashes := nullifierHashes st; authorizedBuilder := builders ∪ authorizedBuilder st;
        pbhGasLimit := _pbhGasLimit; owner := _owner; tstorage := tstorage st; entered := entered st |}.

Definition _verifyPbh (env : PbhEnv) (m : Msg) (st : EntryPoint) (signalHash : Z) (p : IPBHPayload) : res unit :=
  let? _ := require (mget (nullifierHashes st) (i_nullifierHash p) =? 0) (InvalidNullifier (i_nullifierHash p) signalHash) in
  let? _ := verify_nullifier (year_at env) (month_at env) (timestamp m) (i_pbhExternalNullifier p) (numPbhPerMonth st) signalHash in
  if negb (worldId st =? 0) then
    require (verifyProof env (worldId st) (i_root p) signalHash (i_nullifierHash p) (i_pbhExternalNullifier p) (i_proof p)) ProofRejected
  else Ok tt.

(** The inner loop: the operations with their payloads *)
Fixpoint verify_ops (env : PbhEnv) (m : Msg) (st : EntryPoint) (l : list (IPBHPayload * UserOp)) : res (list PbhEvent) :=
  match l with
  | [] => Ok []
  | (p, op) :: l =>
      let? _ := _verifyPbh env m st (signal_of env op) p in
      let? events := verify_ops env m st l in
      Ok ({| ev_sender := uo_sender op; ev_userOpHash := getUserOpHash env st op; ev_payload := p |} :: events)
  end.

(** One round of the outer loop *)
Definition verify_group (env : PbhEnv) (m : Msg) (st : EntryPoint) (g : OpsGroup) : res (EntryPoint * list PbhEvent) :=
  let hashedOps := hash_ops env (og_userOps g) in
  let? _ := require (mget (tstorage st) hashedOps =? 0) StorageCollision in
  let st := set_tstorage st (<[hashedOps := hashedOps]> (tstorage st)) (entered st) in
  let? pbhPayloads := ok_or (decode_payloads (og_signature g)) (Custom MalformedCalldata) in
  let? _ := require (length pbhPayloads =? length (og_userOps g))%nat
              (InvalidAggregatedSignature (length pbhPayloads) (length (og_userOps g))) in
  let? events := verify_ops env m st (zip pbhPayloads (og_userOps g)) in
  Ok (st, events).

Fixpoint verify_bundle (env : PbhEnv) (m : Msg) (st : EntryPoint) (gs : list OpsGroup) : res (EntryPoint * list PbhEvent) :=
  match gs with
  | [] => Ok (st, [])
  | g :: gs =>
      let? r := verify_group env m st g in
      let? rest := verify_bundle env m (fst r) gs in
      Ok (fst rest, snd r ++ snd rest)
  end.

(** Up to the call of the entry point, and after it *)
Definition begin_handle (env : PbhEnv) (m : Msg) (st : EntryPoint) (gs : list OpsGroup) : res (EntryPoint * list PbhEvent) :=
  let? _ := require (negb (entered st)) ReentrantCall in
  verify_bundle env m (set_tstorage st (tstorage st) true) gs.
Definition end_handle (st : EntryPoint) : EntryPoint := set_tstorage st (tstorage st) false.

(** [handle] is [handleAggregatedOps] of the ERC-4337 entry point: [None] is a revert,
    and otherwise it leaves this contract in the state that the calls back to it made. *)
Definition handleAggregatedOps (handle : EntryPoint -> list OpsGroup -> Address -> option EntryPoint) (env : PbhEnv) (m : Msg)
    (st : EntryPoint) (gs : list OpsGroup) (beneficiary : Address) : res (EntryPoint * list PbhEvent) :=
  let? r := begin_handle env m st gs in
  let? st := ok_or (handle (fst r) gs beneficiary) (Custom EntryPointReverted) in
  Ok (end_handle st, snd r).

Definition validateSignaturesCallback (st : EntryPoint) (hashedOps : B256) : res unit :=
  require (mget (tstorage st) hashedOps =? hashedOps) InvalidHashedOps.

Definition onlyOwner (m : Msg) (st : EntryPoint) : res unit := require (sender m =? owner st) (OwnableUnauthorizedAccount (sender m)).

Definition setNumPbhPerMonth (m : Msg) (st : EntryPoint) (_numPbhPerMonth : Z) : res EntryPoint :=
  let? _ := onlyOwner m st in
  let? _ := require (negb (_numPbhPerMonth =? 0)) InvalidNumPbhPerMonth in
  Ok (set_config st (worldId st) _numPbhPerMonth (pbhGasLimit st) (owner st)).
Definition setWorldId (m : Msg) (st : EntryPoint) (_worldId : Address) : res EntryPoint :=
  let? _ := onlyOwner m st in Ok (set_config st _worldId (numPbhPerMonth st) (pbhGasLimit st) (owner st)).
Definition setPBHGasLimit (m : Msg) (st : EntryPoint) (_pbhGasLimit : Z) : res EntryPoint :=
  let? _ := onlyOwner m st in
  let? _ := gas_limit_ok m _pbhGasLimit in
  Ok (set_config st (worldId st) (numPbhPerMonth st) _pbhGasLimit (owner st)).
Definition addBuilder (m : Msg) (st : EntryPoint) (builder : Address) : res EntryPoint :=
  let? _ := onlyOwner m st in
  let? _ := require (negb (builder =? 0)) AddressZero in
  Ok (set_ledger st (nullifierHashes st) ({[builder]} ∪ authorizedBuilder st)).
Definition removeBuilder (m : Msg) (st : EntryPoint) (builder : Address) : res EntryPoint :=
  let? _ := onlyOwner m st in Ok (set_ledger st (nullifierHashes st) (authorizedBuilder st ∖ {[builder]})).

Definition spend_all (number : Z) (hashes : list Z) (m : gmap Z Z) : gmap Z Z := foldl (fun m h => <[h := number]> m) m hashes.
Definition spendNullifierHashes (m : Msg) (st : EntryPoint) (hashes : list Z) : res EntryPoint :=
  let? _ := require (bool_decide (sender m ∈ authorizedBuilder st)) UnauthorizedBuilder in
  Ok (set_ledger st (spend_all (block_number m) hashes (nullifierHashes st)) (authorizedBuilder st)).

(** -1 when every hash is spent *)
Fixpoint first_unspent (st : EntryPoint) (i : Z) (hashes : list Z) : Z :=
  match hashes with
  | [] => -1
  | h :: hashes => if mget (nullifierHashes st) h =? 0 then i else first_unspent st (i + 1) hashes
  end.
Definition getFirstUnspentNullifierHash (st : EntryPoint) (hashes : list Z) : Z := first_unspent st 0 hashes.

(** [tempIndexes] and [unspentCount] *)
Definition unspent_round (st : EntryPoint) (t : list Z * nat) (ih : nat * Z) : list Z * nat :=
  if mget (nullifierHashes st) (snd ih) =? 0 then (<[snd t := Z.of_nat (fst ih)]> (fst t), S (snd t)) else t.
Definition getUnspentNullifierHashes (st : EntryPoint) (hashes : list Z) : list Z :=
  let t := foldl (unspent_round st) (replicate (length hashes) 0, 0%nat) (zip (seq 0 (length hashes)) hashes) in
  take (snd t) (fst t).

(** ** The aggregator ([PBHSignatureAggregator.sol]) *)

Record Aggregator := { pbhEntryPoint : Address; agg_worldID : Address }.

Definition aggregator_new (_pbhEntryPoint _worldID : Address) : res Aggregator :=
  let? _ := require (negb (_pbhEntryPoint =? 0)) AddressZero in
  let? _ := require (negb (_worldID =? 0)) AddressZero in
  Ok {| pbhEntryPoint := _pbhEntryPoint; agg_worldID := _worldID |}.

Section aggregator.
(** The Safe of an account *)
Variable getThreshold : Address -> Z.

Definition validateSignatures (env : PbhEnv) (st : EntryPoint) (ops : list UserOp) : res unit :=
  validateSignaturesCallback st (hash_ops env ops).

Definition validateUserOpSignature (env : PbhEnv) (m : Msg) (ag : Aggregator) (st : EntryPoint) (op : UserOp) : res bytes :=
  let? parts := extractProof (uo_signature op) (getThreshold (uo_sender op)) in
  let pbhPayload := decode_payload (snd parts) in
  let signalHash := signal_of env op in
  let? _ := _verifyPbh env m st signalHash pbhPayload in
  let? _ := if worldId st =? 0 then
              require (verifyProof env (agg_worldID ag) (i_root pbhPayload) signalHash (i_nullifierHash pbhPayload)
                         (i_pbhExternalNullifier pbhPayload) (i_proof pbhPayload)) ProofRejected
            else Ok tt in
  Ok (fst parts).

Fixpoint collect_payloads (ops : list UserOp) : res (list IPBHPayload) :=
  match ops with
  | [] => Ok []
  | op :: ops =>
      let? parts := extractProof (uo_signature op) (getThreshold (uo_sender op)) in
      let? ps := collect_payloads ops in
      Ok (decode_payload (snd parts) :: ps)
  end.
Definition aggregateSignatures (ops : list UserOp) : res bytes :=
  let? pbhPayloads := collect_payloads ops in Ok (encode_payloads pbhPayloads).

(** ** The module of the Safe ([PBH4337Module.sol]) *)

Record PbhModule := { PBH_SIGNATURE_AGGREGATOR : Address; PBH_NONCE_KEY : Z }.

Definition module_new (entryPoint _pbhSignatureAggregator : Address) (_pbhNonceKey : Z) : res PbhModule :=
  let? _ := require (negb (_pbhSignatureAggregator =? 0)) AddressZero in
  let? _ := require (negb (entryPoint =? 0)) AddressZero in
  let? _ := require (negb (_pbhNonceKey =? 0)) UninitializedNonceKey in
  Ok {| PBH_SIGNATURE_AGGREGATOR := _pbhSignatureAggregator; PBH_NONCE_KEY := _pbhNonceKey |}.

(** [Safe4337Module] and the Safe: the operation's data with the times and the signatures
    ([None] is a revert), the check of the length, and that of the signatures. *)
Record Safe := {
  _getSafeOp : UserOp -> option (bytes * Z * Z * bytes);
  _checkSignaturesLength : bytes -> Z -> bool;
  checkSignatures : Address -> B256 -> bytes -> bytes -> bool;
  _packValidationData : Address -> Z -> Z -> Z
}.

(** What the Safe module documents: the data and the times come from the first twelve bytes
    of the signature and the other fields, and the signatures are what follows. *)
Record SafeLaws (safe : Safe) := {
  safe_op : UserOp -> bytes -> bytes * Z * Z;
  safe_op_sig op a b : safe_op (with_signature op a) b = safe_op op b;
  safe_op_spec op : (12 <= length (uo_signature op))%nat ->
    _getSafeOp safe op =
      Some (safe_op op (take 12 (uo_signature op)), drop 12 (uo_signature op))
}.

Definition _validateSignatures (env : PbhEnv) (safe : Safe) (md : PbhModule) (op : UserOp) : res Z :=
  let key := Z.shiftr (uo_nonce op) 64 mod 2 ^ 192 in
  match _getSafeOp safe op with
  | None => Err Panic
  | Some (operationData, validAfter, validUntil, signatures) =>
      let isPBH := Z.shiftr key 152 =? PBH_NONCE_KEY md in
      let threshold := getThreshold (uo_sender op) in
      let? tail := slice_from (uo_signature op) TIMESTAMP_BYTES in
      let? n := signatureLength tail threshold in
      let? expectedLength := uadd TIMESTAMP_BYTES n in
      let size := Z.of_nat (length (uo_signature op)) in
      let? signatures :=
        if isPBH && (expectedLength <? size) then
          if negb (size - expectedLength =? PROOF_DATA_LENGTH) then Err (Custom InvalidProofSize)
          else Ok (drop (Z.to_nat TIMESTAMP_BYTES) (take (Z.to_nat expectedLength) (uo_signature op)))
        else Ok signatures in
      let validSignature := _checkSignaturesLength safe signatures threshold &&
        checkSignatures safe (uo_sender op) (keccak256 env operationData) operationData signatures in
      let authorizer := if isPBH && validSignature then PBH_SIGNATURE_AGGREGATOR md
                        else if validSignature then 0 else 1 in
      Ok (_packValidationData safe authorizer validAfter validUntil)
  end.
End aggregator.
