(* ===== verification/PbhRules.v ===== *)
(** * What the contracts of priority blockspace guarantee

    The encodings that tie a bundle to its hash and an aggregated signature to its payloads;
    that the aggregator passes only bundles the entry point verified in the same transaction;
    that a spent nullifier stays spent; and that what the bundler and the pool accept off
    chain is what the contracts accept. *)

From S2P Require Import Prelude Encoding ProofTypes Pbh PbhPool Solidity PbhContracts.

(** ** Encodings *)

(** The types of the fields; the length of a byte string is a word. *)
Definition dyn_ok (b : bytes) : Prop := u256 (Z.of_nat (length b)).
Record op_typed (op : UserOp) : Prop := {
  op_words : Forall u256 [uo_sender op; uo_nonce op; uo_accountGasLimits op; uo_preVerificationGas op; uo_gasFees op];
  op_bytes : Forall dyn_ok [uo_initCode op; uo_callData op; uo_paymasterAndData op; uo_signature op]
}.

Lemma abi_pad_length l k : length l = length k -> length (abi_pad l) = length (abi_pad k).
Proof. intros H. unfold abi_pad. by rewrite !length_app, !length_replicate, H. Qed.

Lemma bytes_tail_inj a b l k : dyn_ok a -> dyn_ok b ->
  abi_bytes_tail a ++ l = abi_bytes_tail b ++ k -> a = b /\ l = k.
Proof.
  intros Ha Hb. unfold abi_bytes_tail. rewrite <-!app_assoc. intros [Hlen H]%app_word_inj; [|done..].
  apply Nat2Z.inj in Hlen. apply app_inj_1 in H as [H ->]; [|by apply abi_pad_length].
  unfold abi_pad in H. by apply app_inj_1 in H as [-> _].
Qed.

Lemma skip_word n m l k : abi_word n ++ l = abi_word m ++ k -> l = k.
Proof. intros H. by apply app_inj_1 in H as [_ H]; [|by rewrite !abi_word_length]. Qed.

Lemma encode_op_inj a b l k : op_typed a -> op_typed b -> encode_op a ++ l = encode_op b ++ k -> a = b /\ l = k.
Proof.
  intros [Ha Ha'] [Hb Hb']. rewrite !Forall_cons in Ha; rewrite !Forall_cons in Ha'; rewrite !Forall_cons in Hb; rewrite !Forall_cons in Hb'. unfold encode_op, dynamic_fields. cbn [map concat].
  rewrite !app_nil_r, <-!app_assoc. unfold offset_of.
  intros [E1 [E2 H%skip_word%skip_word]%app_word_inj]%app_word_inj; [|naive_solver..].
  apply app_word_inj in H as [E3 [E4 [E5 H%skip_word%skip_word]%app_word_inj]%app_word_inj]; [|naive_solver..].
  apply bytes_tail_inj in H as [E6 [E7 [E8 [E9 ->]%bytes_tail_inj]%bytes_tail_inj]%bytes_tail_inj]; [|naive_solver..].
  split; [|done]. destruct a, b; simpl in *. by subst.
Qed.

Lemma encode_list_inj xs : forall ys, length xs = length ys -> Forall op_typed xs -> Forall op_typed ys ->
  concat (map encode_op xs) = concat (map encode_op ys) -> xs = ys.
Proof.
  induction xs as [|x xs IH]; intros [|y ys] Hlen Hx Hy H; try done. inversion_clear Hx. inversion_clear Hy.
  cbn [map concat] in H. apply encode_op_inj in H as [-> H]; [|done..]. f_equal. apply IH; [|done..]. by injection Hlen.
Qed.

Lemma offsets_length start parts n : forall s, length (concat (map (offset_of start parts) (seq s n))) = (32 * n)%nat.
Proof.
  induction n as [|n IH]; intros s; [done|]. cbn [seq map concat].
  rewrite length_app, IH. unfold offset_of. rewrite abi_word_length. lia.
Qed.

(** A list of operations can be read off its encoding. *)
Lemma encode_ops_inj xs ys : Forall op_typed xs -> Forall op_typed ys ->
  u256 (Z.of_nat (length xs)) -> u256 (Z.of_nat (length ys)) -> encode_ops xs = encode_ops ys -> xs = ys.
Proof.
  intros Hx Hy Hlx Hly. unfold encode_ops. intros [Hlen%Nat2Z.inj H]%skip_word%app_word_inj; [|done..].
  apply app_inj_1 in H as [_ H]; [|by rewrite !offsets_length, Hlen]. by apply encode_list_inj.
Qed.

Definition payload_typed (p : IPBHPayload) : Prop := Forall u256 (payload_words p) /\ length (i_proof p) = 8%nat.

Lemma word_val n : u256 n -> be_val (abi_word n) = n.
Proof.
  intros Hn. unfold abi_word. rewrite be_val_bytes. apply Z.mod_small. unfold u256, U256_MAX in Hn.
  change (256 ^ Z.of_nat 32) with (2 ^ 256). lia.
Qed.

Lemma word_at_app a n l i : length a = i -> u256 n -> word_at (a ++ abi_word n ++ l) i = n.
Proof.
  intros <- Hn. unfold word_at. rewrite drop_app_length. rewrite take_app_length' by (by rewrite abi_word_length).
  by apply word_val.
Qed.

Lemma words_length ws : length (concat (map abi_word ws)) = (32 * length ws)%nat.
Proof. induction ws as [|w ws IH]; [done|]. cbn [map concat length]. rewrite length_app, abi_word_length, IH. lia. Qed.

Lemma words_at ws l k w : Forall u256 ws -> ws !! k = Some w -> word_at (concat (map abi_word ws) ++ l) (32 * k) = w.
Proof.
  intros Hw Hk. rewrite <-(take_drop_middle ws k w Hk), map_app, concat_app. cbn [map concat]. rewrite <-!app_assoc.
  apply word_at_app; [|by eapply Forall_lookup_1]. rewrite words_length, length_take.
  apply lookup_lt_Some in Hk. lia.
Qed.

Lemma encode_payload_length p : payload_typed p -> length (encode_payload p) = 352%nat.
Proof. intros [_ H]. unfold encode_payload. rewrite words_length. unfold payload_words. rewrite length_app, H. done. Qed.

Lemma decode_encode_payload p l : payload_typed p -> decode_payload (encode_payload p ++ l) = p.
Proof.
  intros [Hw Hlen]. destruct p as [r e n proof]. cbn [i_proof] in Hlen.
  do 9 (destruct proof as [|? proof]; try done). unfold decode_payload, encode_payload.
  pose proof (fun k w => words_at _ l k w Hw) as Hat. cbn [seq map].
  rewrite (Hat 0%nat _ eq_refl : word_at _ 0 = _), (Hat 1%nat _ eq_refl : word_at _ 32 = _),
    (Hat 2%nat _ eq_refl : word_at _ 64 = _). f_equal.
  repeat (f_equal; [by apply Hat|]). f_equal. by apply Hat.
Qed.

Lemma payloads_length ps : Forall payload_typed ps -> length (concat (map encode_payload ps)) = (352 * length ps)%nat.
Proof.
  induction 1 as [|p ps Hp Hps IH]; [done|]. cbn [map concat length]. rewrite length_app, encode_payload_length, IH by done. lia.
Qed.

Lemma decode_payload_list ps : Forall payload_typed ps -> decode_list (length ps) (concat (map encode_payload ps)) = ps.
Proof.
  induction 1 as [|p ps Hp Hps IH]; [done|]. cbn [map concat length decode_list].
  rewrite decode_encode_payload by done. by rewrite drop_app_length', IH by (by rewrite encode_payload_length).
Qed.

(** The entry point reads the payloads that the aggregator encoded. *)
Lemma payloads_roundtrip ps : Forall payload_typed ps -> Z.of_nat (length ps) <= U64_MAX ->
  decode_payloads (encode_payloads ps) = Some ps.
Proof.
  intros Hps Hn. unfold decode_payloads.
  assert (length (encode_payloads ps) = 64 + 352 * length ps)%nat as Hlen.
  { unfold encode_payloads. rewrite !length_app, !abi_word_length, payloads_length by done. lia. }
  assert (word_at (encode_payloads ps) 0 = 32) as H0 by (by apply (word_at_app [])).
  assert (word_at (encode_payloads ps) 32 = Z.of_nat (length ps)) as H1.
  { apply word_at_app; [by rewrite abi_word_length|]. unfold u256, U256_MAX. unfold U64_MAX in Hn. lia. }
  rewrite Hlen, H0. change (Z.to_nat 32) with 32%nat. rewrite H1.
  rewrite (proj2 (Z.ltb_ge _ 32)), (proj2 (Z.leb_gt _ _)), (proj2 (Z.ltb_ge U64_MAX (Z.of_nat _))),
    (proj2 (Z.ltb_ge _ (32 + 32 + _))) by lia. cbn [orb]. change (U64_MAX <? 32) with false. cbn [orb].
  rewrite Nat2Z.id. f_equal. unfold encode_payloads. rewrite app_assoc, drop_app_length'.
  - by apply decode_payload_list.
  - by rewrite length_app, !abi_word_length.
Qed.

Lemma word_at_nonneg b i : is_bytes b -> 0 <= word_at b i.
Proof. intros Hb. unfold word_at. apply be_val_bound. by apply Forall_take, Forall_drop. Qed.

Lemma decode_list_nonneg n : forall b, is_bytes b -> Forall (fun p => 0 <= i_pbhExternalNullifier p) (decode_list n b).
Proof.
  induction n as [|n IH]; intros b Hb; cbn [decode_list]; constructor; [by apply word_at_nonneg|]. by apply IH, Forall_drop.
Qed.

Lemma decode_payloads_nonneg b ps : is_bytes b -> decode_payloads b = Some ps -> Forall (fun p => 0 <= i_pbhExternalNullifier p) ps.
Proof.
  intros Hb. unfold decode_payloads. destruct (_ <? 32); [done|]. destruct (_ || _); [done|]. destruct (_ || _); [done|].
  intros [= <-]. by apply decode_list_nonneg, Forall_drop.
Qed.

(** ** The entry point in a chain of calls *)

Inductive call :=
| Initialize (_worldId _entryPoint : Address) (_numPbhPerMonth _pbhGasLimit : Z) (_authorizedBuilders : list Address) (_owner : Address)
| SetNumPbhPerMonth (n : Z)
| SetWorldId (a : Address)
| SetPBHGasLimit (g : Z)
| AddBuilder (a : Address)
| RemoveBuilder (a : Address)
| SpendNullifierHashes (hashes : list Z).

Definition exec (m : Msg) (st : EntryPoint) (c : call) : result EntryPoint (revert PbhError) :=
  match c with
  | Initialize w e n g bs o => initialize m st w e n g bs o
  | SetNumPbhPerMonth n => setNumPbhPerMonth m st n
  | SetWorldId a => setWorldId m st a
  | SetPBHGasLimit g => setPBHGasLimit m st g
  | AddBuilder a => addBuilder m st a
  | RemoveBuilder a => removeBuilder m st a
  | SpendNullifierHashes hashes => spendNullifierHashes m st hashes
  end.

Section chain.
Context (env : PbhEnv).

(** A group that was verified, and where *)
Record Entry := { en_state : EntryPoint; en_msg : Msg; en_group : OpsGroup }.

Definition group_typed (g : OpsGroup) : Prop :=
  Forall op_typed (og_userOps g) /\ u256 (Z.of_nat (length (og_userOps g))) /\ is_bytes (og_signature g).

(** The calls that are not reverted, in their order; the call of the ERC-4337 entry point is
    what happens between the two ends of [handleAggregatedOps].  The second component has
    the groups that were verified in the transaction.  The library of ownership may change the
    owner, and a transaction starts with an empty transient storage. *)
Inductive step : EntryPoint * list Entry -> EntryPoint * list Entry -> Prop :=
| step_begin st es m gs st' events : 0 < block_number m -> Forall group_typed gs ->
    begin_handle env m st gs = Ok (st', events) ->
    step (st, es) (st', es ++ map (fun g => {| en_state := st; en_msg := m; en_group := g |}) gs)
| step_end st es : entered st = true -> step (st, es) (end_handle st, es)
| step_call st es m c st' : 0 < block_number m -> exec m st c = Ok st' -> step (st, es) (st', es)
| step_owner st es o : step (st, es) (set_config st (worldId st) (numPbhPerMonth st) (pbhGasLimit st) o, es)
| step_transaction st es : step (st, es) (set_tstorage st ∅ false, []).

Definition reached : EntryPoint * list Entry -> Prop := rtc step (uninitialized, []).

(** The payload entitles the operation: its nullifier is not spent, its external nullifier is
    of the month of the block and below the limit, and World ID accepts the proof unless that is
    left to the builder. *)
Definition entitles (m : Msg) (st : EntryPoint) (p : IPBHPayload) (op : UserOp) : Prop :=
  mget (nullifierHashes st) (i_nullifierHash p) = 0 /\
  (exists e, decode_nullifier (i_pbhExternalNullifier p) = Ok e /\
     en_year e = year_at env (timestamp m) /\ en_month e = month_at env (timestamp m) /\ en_nonce e < numPbhPerMonth st) /\
  (worldId st <> 0 ->
   verifyProof env (worldId st) (i_root p) (signal_of env op) (i_nullifierHash p) (i_pbhExternalNullifier p) (i_proof p) = true).

Lemma verifyPbh_spec m st p op : 0 <= i_pbhExternalNullifier p ->
  _verifyPbh env m st (signal_of env op) p = Ok tt <-> entitles m st p op.
Proof.
  intros H0. unfold _verifyPbh, entitles. set (now := timestamp m).
  assert (verify_nullifier (year_at env) (month_at env) now (i_pbhExternalNullifier p) (numPbhPerMonth st) (signal_of env op) = Ok tt <->
    exists e, decode_nullifier (i_pbhExternalNullifier p) = Ok e /\
      en_year e = year_at env now /\ en_month e = month_at env now /\ en_nonce e < numPbhPerMonth st) as Hn.
  { rewrite (verify_nullifier_spec _ _ now _ _ _ {| year := year_at env now; month := month_at env now |}) by done.
    unfold date_marker. split.
    - intros (e&?&Hd&?). exists e. injection Hd as Hy Hm. by rewrite Hy, Hm.
    - intros (e&?&Hy&Hm&?). exists e. by rewrite Hy, Hm. }
  rewrite <-Hn. destruct (Z.eqb_spec (mget (nullifierHashes st) (i_nullifierHash p)) 0); cbn [require rbind]; [|naive_solver].
  destruct (verify_nullifier _ _ _ _ _ _) as [[]|]; cbn [rbind]; [|naive_solver].
  destruct (Z.eqb_spec (worldId st) 0); cbn [negb]; [naive_solver|].
  unfold require. destruct (verifyProof _ _ _ _ _ _ _); naive_solver.
Qed.

Lemma verify_ops_spec m st l : Forall (fun '(p, op) => 0 <= i_pbhExternalNullifier p) l ->
  (exists events, verify_ops env m st l = Ok events) <-> Forall (fun '(p, op) => entitles m st p op) l.
Proof.
  induction 1 as [|[p op] l Hp Hl IH]; cbn [verify_ops]; [naive_solver|].
  rewrite Forall_cons, <-IH, <-verifyPbh_spec by done. split.
  - intros (ev&E). inv_ok. naive_solver.
  - intros [-> [ev E]]. cbn [rbind]. rewrite E. cbn [rbind]. by eexists.
Qed.

Lemma entitles_ledger m st st' p op : nullifierHashes st = nullifierHashes st' -> numPbhPerMonth st = numPbhPerMonth st' ->
  worldId st = worldId st' -> entitles m st p op <-> entitles m st' p op.
Proof. intros E1 E2 E3. unfold entitles. by rewrite E1, E2, E3. Qed.

(** What a verified group is: one payload for each operation, that entitles it. *)
Definition group_ok (m : Msg) (st : EntryPoint) (g : OpsGroup) : Prop :=
  exists ps, decode_payloads (og_signature g) = Some ps /\ Forall2 (entitles m st) ps (og_userOps g).

Definition store_group (t : gmap Z Z) (g : OpsGroup) : gmap Z Z :=
  <[hash_ops env (og_userOps g) := hash_ops env (og_userOps g)]> t.

Lemma group_zip m st ps ops : length ps = length ops -> Forall (fun '(p, op) => entitles m st p op) (zip ps ops) <-> Forall2 (entitles m st) ps ops.
Proof.
  revert ops. induction ps as [|p ps IH]; intros [|op ops] Hlen; try done; cbn [zip zip_with].
  rewrite Forall_cons, Forall2_cons, IH; [done|]. by injection Hlen.
Qed.

Lemma zip_nonneg (ps : list IPBHPayload) (ops : list UserOp) : Forall (fun p => 0 <= i_pbhExternalNullifier p) ps ->
  Forall (fun '(p, op) => 0 <= i_pbhExternalNullifier p) (zip ps ops).
Proof. intros H. revert ops. induction H; intros [|op ops]; cbn [zip zip_with]; constructor; [done|]. apply IHForall. Qed.

(** A group passes when its hash is new in the transaction and its payloads entitle it. *)
Lemma verify_group_spec m st g st' : is_bytes (og_signature g) ->
  (exists events, verify_group env m st g = Ok (st', events)) <->
  mget (tstorage st) (hash_ops env (og_userOps g)) = 0 /\ group_ok m st g /\
  st' = set_tstorage st (store_group (tstorage st) g) (entered st).
Proof.
  intros Hb. unfold verify_group, group_ok. set (st1 := set_tstorage st _ _).
  assert (forall p op, entitles m st1 p op <-> entitles m st p op) as Hst by (intros; by apply entitles_ledger).
  destruct (Z.eqb_spec (mget (tstorage st) (hash_ops env (og_userOps g))) 0); cbn [require rbind]; [|naive_solver].
  destruct (decode_payloads (og_signature g)) as [ps|] eqn:Hd; cbn [ok_or rbind]; [|naive_solver].
  destruct (Nat.eqb_spec (length ps) (length (og_userOps g))) as [Hlen|Hlen]; cbn [require rbind].
  2: { split; [naive_solver|]. intros (_&(?&[= <-]&Hf)&_). by apply Forall2_length in Hf. }
  pose proof (verify_ops_spec m st1 _ (zip_nonneg ps (og_userOps g) (decode_payloads_nonneg _ _ Hb Hd))) as Hv.
  rewrite group_zip in Hv by done.
  assert (Forall2 (entitles m st1) ps (og_userOps g) <-> Forall2 (entitles m st) ps (og_userOps g)) as Hiff.
  { split; intros Hf; apply (Forall2_impl _ _ _ _ Hf); naive_solver. }
  rewrite Hiff in Hv. clear Hiff. split.
  - intros (events&E). inv_ok. simplify_eq. split; [done|]. split; [|done]. exists ps. split; [done|]. apply Hv. by eexists.
  - intros (_&(?&[= <-]&Hf)&->). destruct (proj2 Hv Hf) as [events ->]. by eexists.
Qed.

Lemma verify_bundle_spec m gs : forall st st' events, Forall (fun g => is_bytes (og_signature g)) gs ->
  verify_bundle env m st gs = Ok (st', events) ->
  Forall (group_ok m st) gs /\ st' = set_tstorage st (foldl store_group (tstorage st) gs) (entered st).
Proof.
  induction gs as [|g gs IH]; intros st st' events Hb; cbn [verify_bundle foldl].
  { intros [= <- _]. split; [constructor|by destruct st]. }
  inversion_clear Hb as [|? ? Hg Hgs]. intros ([st1 ev1]&Hv&([st2 ev2]&Hr&[= <- _])%rbind_Ok)%rbind_Ok.
  destruct (proj1 (verify_group_spec m st g st1 Hg) (ex_intro _ _ Hv)) as (_&Hok&->).
  apply IH in Hr as [Hf ->]; [|done]. split; [|done]. constructor; [done|].
  apply (Forall_impl _ _ _ Hf). intros g' (ps&Hd&Hp). exists ps. split; [done|].
  apply (Forall2_impl _ _ _ _ Hp). intros p op. by apply entitles_ledger.
Qed.

Lemma stored_hash gs h : forall t, mget (foldl store_group t gs) h = h <->
  mget t h = h \/ exists g, g ∈ gs /\ hash_ops env (og_userOps g) = h.
Proof.
  induction gs as [|g gs IH]; intros t; cbn [foldl]; [set_solver|].
  rewrite IH. unfold store_group at 1. rewrite mget_insert. setoid_rewrite elem_of_cons. case_bool_decide; naive_solver.
Qed.

(** The transient storage has the hashes of the groups verified in the transaction. *)
Definition chain_inv (s : EntryPoint * list Entry) : Prop :=
  (forall h, h <> 0 -> mget (tstorage (fst s)) h = h <->
     exists e, e ∈ snd s /\ hash_ops env (og_userOps (en_group e)) = h) /\
  Forall (fun e => group_typed (en_group e) /\ group_ok (en_msg e) (en_state e) (en_group e)) (snd s).

Lemma exec_tstorage m st c st' : exec m st c = Ok st' -> tstorage st' = tstorage st.
Proof.
  destruct c; cbn [exec]; unfold initialize, setNumPbhPerMonth, setWorldId, setPBHGasLimit, addBuilder, removeBuilder, spendNullifierHashes;
    intros E; inv_ok; done.
Qed.

Lemma groups_bytes gs : Forall group_typed gs -> Forall (fun g => is_bytes (og_signature g)) gs.
Proof. intros H. apply (Forall_impl _ _ _ H). by intros g (_&_&?). Qed.

Lemma begin_handle_spec m st gs st' events : Forall (fun g => is_bytes (og_signature g)) gs ->
  begin_handle env m st gs = Ok (st', events) ->
  Forall (group_ok m st) gs /\ st' = set_tstorage st (foldl store_group (tstorage st) gs) true.
Proof.
  intros Ht E. unfold begin_handle in E. inv_ok. apply verify_bundle_spec in H0 as [Hf ->].
  - split; [|done]. apply (Forall_impl _ _ _ Hf). intros g (ps&Hd&Hp). exists ps. split; [done|].
    apply (Forall2_impl _ _ _ _ Hp). intros p op. by apply entitles_ledger.
  - done.
Qed.

Lemma chain_step_inv s s' : step s s' -> chain_inv s -> chain_inv s'.
Proof.
  unfold chain_inv. intros [st es m gs st' events _ Ht E|st es _|st es m c st' _ E|st es o|st es] [I1 I2]; cbn [fst snd] in *.
  - apply begin_handle_spec in E as [Hf ->]; [|by apply groups_bytes]. cbn [set_tstorage tstorage]. split.
    + intros h Hh. rewrite stored_hash, I1 by done. setoid_rewrite elem_of_app. setoid_rewrite list_elem_of_fmap. naive_solver.
    + apply Forall_app_2; [done|]. apply Forall_fmap, Forall_forall. intros g Hg. rewrite Forall_forall in Ht, Hf. cbn. by split; [apply Ht|apply Hf].
  - done.
  - apply exec_tstorage in E as ->. done.
  - done.
  - split; [|constructor]. intros h Hh. cbn. unfold mget. rewrite lookup_empty. cbn. split; [congruence|]. intros (?&?%elem_of_nil&_). done.
Qed.

Lemma chain_reached_inv s : reached s -> chain_inv s.
Proof.
  intros H. unfold reached in H. remember (uninitialized, []) as s0 eqn:Hs.
  assert (chain_inv s0) as H0.
  { subst. split; [|constructor]. intros h Hh. cbn. unfold mget. rewrite lookup_empty. cbn. split; [congruence|]. intros (?&?%elem_of_nil&_). done. }
  clear Hs. induction H as [|s1 s2 s3 Hs _ IH]; [done|]. by apply IH, (chain_step_inv s1).
Qed.

(** C12: The aggregator lets a list of operations through exactly when the entry point verified that
    list in the same transaction: for any state that calls can reach, in the middle of a
    transaction included, the check passes if and only if a group with these operations was
    verified, each of them entitled by its own payload; the hash has no collision here. *)
Theorem aggregator_passes_verified st es ops :
  reached (st, es) -> Forall op_typed ops -> u256 (Z.of_nat (length ops)) -> hash_ops env ops <> 0 ->
  (forall x, keccak256 env x = keccak256 env (encode_ops ops) -> x = encode_ops ops) ->
  validateSignatures env st ops = Ok tt <->
  exists e ps, e ∈ es /\ og_userOps (en_group e) = ops /\ decode_payloads (og_signature (en_group e)) = Some ps /\
    Forall2 (entitles (en_msg e) (en_state e)) ps ops.
Proof.
  intros [I1 I2]%chain_reached_inv Ht Hl Hz Hk. cbn [fst snd] in *. unfold validateSignatures, validateSignaturesCallback.
  rewrite require_Ok, Z.eqb_eq, I1 by done. split.
  - intros (e&He&Hh). rewrite Forall_forall in I2. destruct (I2 e He) as [(Hty&Hle&_) (ps&Hd&Hf)].
    assert (og_userOps (en_group e) = ops) as Hops by (apply encode_ops_inj; [done..|by apply Hk]).
    exists e, ps. by rewrite <-Hops.
  - intros (e&ps&He&<-&_). by exists e.
Qed.

(** ** Spent nullifiers *)

Lemma spend_all_get number hashes h : forall m,
  mget (spend_all number hashes m) h = if bool_decide (h ∈ hashes) then number else mget m h.
Proof.
  unfold spend_all. induction hashes as [|x hashes IH]; intros m; cbn [foldl]; [done|]. rewrite IH, mget_insert.
  repeat case_bool_decide; set_solver.
Qed.

Lemma exec_keeps_spent m st c st' h : 0 < block_number m -> exec m st c = Ok st' ->
  mget (nullifierHashes st) h <> 0 -> mget (nullifierHashes st') h <> 0.
Proof.
  intros Hb. destruct c; cbn [exec]; unfold initialize, setNumPbhPerMonth, setWorldId, setPBHGasLimit, addBuilder, removeBuilder, spendNullifierHashes;
    intros E; inv_ok; try done.
  cbn [set_ledger nullifierHashes]. rewrite spend_all_get. case_bool_decide; [lia|done].
Qed.

Lemma step_keeps_spent s s' h : step s s' -> mget (nullifierHashes (fst s)) h <> 0 -> mget (nullifierHashes (fst s')) h <> 0.
Proof.
  intros [st es m gs st' events _ Ht E|st es _|st es m c st' Hb E|st es o|st es]; cbn [fst]; try done.
  - by apply begin_handle_spec in E as [_ ->]; [|apply groups_bytes].
  - by eapply exec_keeps_spent.
Qed.

Lemma steps_keep_spent s s' h : rtc step s s' -> mget (nullifierHashes (fst s)) h <> 0 -> mget (nullifierHashes (fst s')) h <> 0.
Proof. induction 1 as [|s1 s2 s3 Hs _ IH]; [done|]. intros. by eapply IH, step_keeps_spent. Qed.

(** C32: A nullifier that a builder has spent is spent for good: whatever calls come after, a
    bundle with a payload of that nullifier is refused as a whole, in every block and
    whatever the ERC-4337 entry point would do. *)
Theorem spent_nullifier_refused m st st1 es s' hashes h handle m' gs g ps p beneficiary :
  0 < block_number m -> spendNullifierHashes m st hashes = Ok st1 -> h ∈ hashes -> rtc step (st1, es) s' ->
  Forall group_typed gs -> g ∈ gs -> decode_payloads (og_signature g) = Some ps -> p ∈ ps -> i_nullifierHash p = h ->
  exists e, handleAggregatedOps handle env m' (fst s') gs beneficiary = Err e.
Proof.
  intros Hb Hs Hin Hsteps Ht Hg Hd Hp Hh.
  assert (mget (nullifierHashes (fst s')) h <> 0) as Hspent.
  { apply (steps_keep_spent _ _ _ Hsteps). unfold spendNullifierHashes in Hs. inv_ok. cbn.
    rewrite spend_all_get, bool_decide_true by done. lia. }
  destruct (handleAggregatedOps handle env m' (fst s') gs beneficiary) as [r|e] eqn:E; [|by exists e]. exfalso.
  unfold handleAggregatedOps in E. apply rbind_Ok in E as ([st2 ev]&E&_). apply begin_handle_spec in E as [Hf _]; [|by apply groups_bytes].
  rewrite Forall_forall in Hf. destruct (Hf g Hg) as (ps'&Hd'&Hall). simplify_eq.
  apply list_elem_of_lookup in Hp as [k Hk]. destruct (Forall2_lookup_l _ _ _ _ _ Hall Hk) as (op&_&Hen&_). done.
Qed.

(** A whole call of [handleAggregatedOps] is a sequence of steps, if what the ERC-4337 entry
    point does in it is one. *)
Lemma handle_steps handle m st es gs beneficiary st' events : 0 < block_number m -> Forall group_typed gs ->
  (forall st1 es1 st2, handle st1 gs beneficiary = Some st2 -> entered st1 = true ->
     exists es2, rtc step (st1, es1) (st2, es2) /\ entered st2 = true) ->
  handleAggregatedOps handle env m st gs beneficiary = Ok (st', events) -> exists es', rtc step (st, es) (st', es').
Proof.
  intros Hb Ht Hh E. unfold handleAggregatedOps in E. apply rbind_Ok in E as ([st1 ev]&E&(st2&H2%ok_or_Ok&[= <- _])%rbind_Ok).
  cbn [fst] in H2. destruct (begin_handle_spec _ _ _ _ _ (groups_bytes _ Ht) E) as [_ Hst].
  edestruct Hh as (es2&Hsteps&Hent); [exact H2|by rewrite Hst|]. exists es2.
  eapply rtc_l; [by eapply step_begin|]. etrans; [exact Hsteps|]. by apply rtc_once, step_end.
Qed.

(** ** Bundles that pass *)

Lemma verify_bundle_complete m gs : forall st, Forall (fun g => is_bytes (og_signature g)) gs -> Forall (group_ok m st) gs ->
  NoDup (map (fun g => hash_ops env (og_userOps g)) gs) ->
  Forall (fun g => mget (tstorage st) (hash_ops env (og_userOps g)) = 0) gs ->
  exists r, verify_bundle env m st gs = Ok r.
Proof.
  induction gs as [|g gs IH]; intros st Hb Hok Hnd Hfr; cbn [verify_bundle]; [by eexists|].
  inversion_clear Hb as [|? ? Hbg Hbs]. inversion_clear Hok as [|? ? Hg Hgs]. inversion_clear Hfr as [|? ? Hf Hfs].
  cbn [map] in Hnd. apply NoDup_cons in Hnd as [Hnin Hnd].
  destruct (proj2 (verify_group_spec m st g _ Hbg) (conj Hf (conj Hg eq_refl))) as [ev ->]. cbn [rbind fst snd].
  edestruct (IH (set_tstorage st (store_group (tstorage st) g) (entered st))) as [r ->]; [done| |done| |by eexists].
  - apply (Forall_impl _ _ _ Hgs). intros g' (ps&Hd&Hp). exists ps. split; [done|].
    apply (Forall2_impl _ _ _ _ Hp). intros p op. by apply entitles_ledger.
  - apply Forall_forall. intros g' Hg'. rewrite Forall_forall in Hfs. cbn [set_tstorage tstorage]. unfold store_group.
    rewrite mget_insert, bool_decide_false; [by apply Hfs|]. intros Heq. apply Hnin. rewrite <-Heq.
    apply list_elem_of_fmap. by exists g'.
Qed.

Lemma begin_handle_complete m st gs : entered st = false -> Forall (fun g => is_bytes (og_signature g)) gs ->
  Forall (group_ok m st) gs -> NoDup (map (fun g => hash_ops env (og_userOps g)) gs) ->
  Forall (fun g => mget (tstorage st) (hash_ops env (og_userOps g)) = 0) gs -> exists r, begin_handle env m st gs = Ok r.
Proof.
  intros He Hb Hok Hnd Hfr. unfold begin_handle. rewrite He. cbn [negb require rbind].
  apply verify_bundle_complete; [done| |done..]. apply (Forall_impl _ _ _ Hok). intros g (ps&Hd&Hp). exists ps. split; [done|].
  apply (Forall2_impl _ _ _ _ Hp). intros p op. by apply entitles_ledger.
Qed.
End chain.

(** ** From the pool to the chain *)

(** An operation and a group as the pool reads them; it does not look at the other fields. *)
Definition pool_op (op : UserOp) : PackedUserOperation :=
  {| op_sender := uo_sender op; op_nonce := uo_nonce op; op_callData := uo_callData op;
     op_rest := [uo_initCode op; abi_word (uo_accountGasLimits op); abi_word (uo_preVerificationGas op); abi_word (uo_gasFees op);
                 uo_paymasterAndData op; uo_signature op] |}.
Definition pool_group (g : OpsGroup) : UserOpsPerAggregator :=
  {| userOps := map pool_op (og_userOps g); aggregator := og_aggregator g; agg_signature := og_signature g |}.

Section pool.
Context (env : PbhEnv) (sem : Semaphore) (now : nat -> Z * DateMarker) (pick : list (PBHValidationError sem) -> nat).

Lemma decode_all_payloads l r : decode_all sem l = Ok r ->
  Forall2 (fun x y => payload_try_from (fst x) = Ok (fst y)) l r.
Proof.
  revert r. induction l as [|[p op] l IH]; intros r; cbn [decode_all]; [intros [= <-]; constructor|].
  intros (q&Hq%map_err_Ok&(rest&Hr&[= <-])%rbind_Ok)%rbind_Ok. constructor; [done|]. by apply IH.
Qed.

(** What the pool has checked of the payload that it read as [q] *)
Definition in_period (m : Msg) (st : EntryPoint) (q : PBHPayload) : Prop :=
  en_year (external_nullifier q) = year_at env (timestamp m) /\ en_month (external_nullifier q) = month_at env (timestamp m) /\
  en_nonce (external_nullifier q) < numPbhPerMonth st.

Lemma pool_entitles m st p q op : worldId st = 0 -> payload_try_from p = Ok q -> in_period m st q ->
  mget (nullifierHashes st) (nullifier_hash q) = 0 -> entitles env m st p op.
Proof.
  intros Hw Hp (Hy&Hm&Hn) Hs. unfold payload_try_from in Hp. apply rbind_Ok in Hp as (e&He&[= <-]). cbn in *.
  split; [done|]. split; [by exists e|]. by intros ?.
Qed.

Lemma pool_group_ok m st roots i seen g qs seen' : worldId st = 0 ->
  (forall k, (now k).1 <= numPbhPerMonth st /\ (now k).2 = {| year := year_at env (timestamp m); month := month_at env (timestamp m) |}) ->
  validate_group sem decode_payloads now pick roots i seen (pool_group g) = Ok (qs, seen') ->
  Forall (fun q => mget (nullifierHashes st) (nullifier_hash q) = 0) qs -> group_ok env m st g.
Proof.
  intros Hw Hnow Hv Hs. pose proof Hv as Hc. apply (group_spec sem (fun _ => None) decode_payloads []) in Hc as (Hc&_). unfold validate_group in Hv.
  apply rbind_Ok in Hv as (ps&Hd%ok_or_Ok&Hv). cbn [pool_group agg_signature userOps] in *. rewrite length_map in Hv.
  destruct (Nat.eqb_spec (length ps) (length (og_userOps g))) as [Hlen|]; [|done]. cbn [negb] in Hv.
  apply rbind_Ok in Hv as (pops&Hp&(?&_&(?&_&[= <- _])%rbind_Ok)%rbind_Ok). exists ps. split; [done|].
  apply decode_all_payloads in Hp. apply Forall2_same_length_lookup_2; [done|]. intros k p op Hk Hop.
  assert (zip ps (map pool_op (og_userOps g)) !! k = Some (p, pool_op op)) as Hz.
  { apply lookup_zip_with_Some. exists p, (pool_op op). split; [done|]. split; [done|]. by rewrite list_lookup_fmap, Hop. }
  destruct (Forall2_lookup_l _ _ _ _ _ Hp Hz) as ([q op']&Hq&Htry). cbn [fst] in Htry.
  assert (pops.*1 !! k = Some q) as Hq1 by (by rewrite list_lookup_fmap, Hq).
  pose proof (Forall_lookup_1 _ _ _ _ Hs Hq1) as Hspent. apply (pool_entitles m st p q op); [done..| |done].
  destruct (Forall2_lookup_l _ _ _ _ _ Hc Hq1) as (?&_&_&_&j&Hdate&Hnonce). destruct (Hnow j) as [Hlim Hd2].
  rewrite Hd2 in Hdate. unfold date_marker in Hdate. injection Hdate as Hy Hm. unfold in_period. split; [done|]. split; [done|]. lia.
Qed.

Lemma pool_groups_ok m st roots gs : worldId st = 0 ->
  (forall k, (now k).1 <= numPbhPerMonth st /\ (now k).2 = {| year := year_at env (timestamp m); month := month_at env (timestamp m) |}) ->
  forall acc seen ps, validate_groups sem decode_payloads now pick roots acc seen (map pool_group gs) = Ok ps ->
  Forall (fun q => mget (nullifierHashes st) (nullifier_hash q) = 0) ps ->
  Forall (fun q => mget (nullifierHashes st) (nullifier_hash q) = 0) acc /\ Forall (group_ok env m st) gs.
Proof.
  intros Hw Hnow. induction gs as [|g gs IH]; intros acc seen ps; cbn [map validate_groups]; [by intros [= <-]|].
  intros ([qs seen1]&Hg&Hr)%rbind_Ok Hs. destruct (IH _ _ _ Hr Hs) as [[Hacc Hqs]%Forall_app Hgs].
  split; [done|]. constructor; [|done]. by eapply pool_group_ok.
Qed.

(** C18: A bundle that the pool of the node validated is verified by the entry point: if the
    contract has the limit and the month that the pool used, leaves the proofs to the builder, and
    none of the nullifiers is spent, then the groups pass, and the aggregator lets each of
    them through in the same transaction. *)
Theorem pool_bundle_verified m st roots gs ps :
  worldId st = 0 -> entered st = false ->
  (forall k, (now k).1 <= numPbhPerMonth st /\ (now k).2 = {| year := year_at env (timestamp m); month := month_at env (timestamp m) |}) ->
  validate_groups sem decode_payloads now pick roots [] ∅ (map pool_group gs) = Ok ps ->
  Forall (fun q => mget (nullifierHashes st) (nullifier_hash q) = 0) ps ->
  Forall group_typed gs -> NoDup (map (fun g => hash_ops env (og_userOps g)) gs) ->
  Forall (fun g => mget (tstorage st) (hash_ops env (og_userOps g)) = 0) gs ->
  exists st' events, begin_handle env m st gs = Ok (st', events) /\
    Forall (fun g => validateSignatures env st' (og_userOps g) = Ok tt) gs.
Proof.
  intros Hw He Hnow Hv Hs Ht Hnd Hfr. destruct (pool_groups_ok m st roots gs Hw Hnow _ _ _ Hv Hs) as [_ Hok].
  destruct (begin_handle_complete env m st gs) as [[st' ev] Hb]; [done| |done..|].
  { by apply groups_bytes. }
  exists st', ev. split; [done|]. apply begin_handle_spec in Hb as [_ ->]; [|by apply groups_bytes].
  apply Forall_forall. intros g Hg. unfold validateSignatures, validateSignaturesCallback.
  apply require_Ok, Z.eqb_eq, stored_hash. right. by exists g.
Qed.
End pool.

(** ** Proofs that ride behind the signatures *)

(** A contract signature's length field is within the signatures. *)
Definition in_range (s : bytes) (threshold : Z) : Prop :=
  forall i : nat, Z.of_nat i < threshold -> s !! Z.to_nat (Z.of_nat i * 65 + 64) = Some 0 ->
    0 <= be_val (take 32 (drop (Z.to_nat (Z.of_nat i * 65 + 32)) s)) /\
    be_val (take 32 (drop (Z.to_nat (Z.of_nat i * 65 + 32)) s)) + 32 <= Z.of_nat (length s).

Lemma word_from_in s i : 0 <= i -> i + 32 <= Z.of_nat (length s) -> word_from s i = Ok (be_val (take 32 (drop (Z.to_nat i) s))).
Proof.
  intros H0 H. unfold word_from, slice_from. rewrite (proj2 (Z.leb_le _ _)) by lia. cbn [rbind]. do 2 f_equal.
  rewrite take_app_le; [done|]. rewrite length_drop. lia.
Qed.

Lemma word_from_app s x i : 0 <= i -> i + 32 <= Z.of_nat (length s) -> word_from (s ++ x) i = word_from s i.
Proof.
  intros H0 H. rewrite !word_from_in by (rewrite ?length_app; lia). do 2 f_equal.
  rewrite drop_app_le by lia. rewrite take_app_le; [done|]. rewrite length_drop. lia.
Qed.

Lemma signature_loop_app s x threshold rounds : in_range s threshold -> 65 * threshold <= Z.of_nat (length s) ->
  Forall (fun i => Z.of_nat i < threshold) rounds ->
  forall n, signature_loop (s ++ x) n rounds = signature_loop s n rounds.
Proof.
  intros Hr Hlen. induction 1 as [|i rounds Hi Hrs IH]; intros n; cbn [signature_loop]; [done|].
  assert (signature_round (s ++ x) n i = signature_round s n i) as ->.
  2: { destruct (signature_round s n i); [apply IH|done]. }
  unfold signature_round, ECDSA_SIGNATURE_LENGTH. rewrite lookup_app_l by lia.
  destruct (s !! Z.to_nat (Z.of_nat i * 65 + 0x40)) as [b|] eqn:Hb; cbn [ok_or rbind]; [|done].
  destruct (Z.eqb_spec b 0) as [->|]; [|done]. destruct (Hr i Hi Hb) as [H0 H1].
  rewrite word_from_app, word_from_in by lia. cbn [rbind]. by rewrite word_from_app.
Qed.

Lemma signatureLength_app s x threshold n : 0 <= threshold -> in_range s threshold ->
  signatureLength s threshold = Ok n -> signatureLength (s ++ x) threshold = Ok n.
Proof.
  intros H0 Hr. unfold signatureLength. intros (e&He&H)%rbind_Ok. rewrite He. cbn [rbind]. apply umul_Ok in He as [-> _].
  unfold ECDSA_SIGNATURE_LENGTH in *. destruct (Z.ltb_spec (Z.of_nat (length s)) (65 * threshold)); [done|].
  rewrite length_app, (proj2 (Z.ltb_ge _ _)) by lia. rewrite signature_loop_app with (threshold := threshold); [done..|].
  apply Forall_seq. lia.
Qed.

(** C30: The module gives the same answer with and without the proof: for a PBH operation whose
    signatures fill their expected length, appending the 352 bytes of a proof changes nothing
    of what [_validateSignatures] returns, so the bundler's simulation and the execution agree. *)
Theorem proof_rides_along getThreshold env safe (laws : SafeLaws safe) md op sig proof :
  Z.shiftr (Z.shiftr (uo_nonce op) 64 mod 2 ^ 192) 152 = PBH_NONCE_KEY md ->
  (12 <= length sig)%nat -> length proof = 352%nat -> 0 <= getThreshold (uo_sender op) ->
  in_range (drop 12 sig) (getThreshold (uo_sender op)) ->
  signatureLength (drop 12 sig) (getThreshold (uo_sender op)) = Ok (Z.of_nat (length sig) - 12) ->
  _validateSignatures getThreshold env safe md (with_signature op (sig ++ proof)) =
  _validateSignatures getThreshold env safe md (with_signature op sig).
Proof.
  intros Hkey Hlen Hp Ht Hr Hs. unfold _validateSignatures. rewrite !(safe_op_spec _ laws) by (cbn; rewrite ?length_app; lia).
  rewrite !(safe_op_sig _ laws). cbn [with_signature uo_signature uo_nonce uo_sender].
  rewrite take_app_le by lia. destruct (safe_op _ laws op (take 12 sig)) as [[data va] vu].
  unfold slice_from, TIMESTAMP_BYTES. rewrite length_app, !(proj2 (Z.leb_le _ _)) by lia. cbn [rbind].
  change (Z.to_nat 12) with 12%nat. rewrite drop_app_le by lia. rewrite (signatureLength_app _ _ _ _ Ht Hr Hs), Hs. cbn [rbind].
  destruct (uadd 12 (Z.of_nat (length sig) - 12)) as [e|] eqn:He; cbn [rbind]; [|done]. apply uadd_Ok in He as [-> _].
  rewrite Hkey, Z.eqb_refl. cbn [andb]. rewrite Hp, (proj2 (Z.ltb_lt _ (Z.of_nat (length sig + 352)))), (proj2 (Z.ltb_ge _ (Z.of_nat (length sig)))) by lia.
  unfold PROOF_DATA_LENGTH. rewrite (proj2 (Z.eqb_eq _ 352)) by lia. cbn [negb rbind].
  replace (Z.to_nat (12 + (Z.of_nat (length sig) - 12))) with (length sig) by lia. by rewrite take_app_length.
Qed.

(** ** Bundles of operations that the aggregator validated *)

Lemma extractProof_spec s threshold a b : extractProof s threshold = Ok (a, b) -> s = a ++ b /\ length b = 352%nat.
Proof.
  unfold extractProof. intros E. inv_ok. change (Z.to_nat PROOF_DATA_LENGTH) with 352%nat.
  unfold PROOF_DATA_LENGTH, TIMESTAMP_BYTES, ECDSA_SIGNATURE_LENGTH in *. simplify_eq.
  match goal with |- _ = take ?k _ ++ _ /\ _ => assert (length (drop k s) = 352%nat) as Hl by (rewrite length_drop; lia) end.
  rewrite (take_ge (drop _ s)) by lia. by rewrite take_drop.
Qed.

Lemma decode_payload_typed b : is_bytes b -> payload_typed (decode_payload b).
Proof.
  intros Hb. assert (forall i, u256 (word_at b i)) as Hw.
  { intros i. pose proof (be_val_bound (take 32 (drop i b)) ltac:(by apply Forall_take, Forall_drop)) as [H0 H1].
    unfold word_at, u256, U256_MAX. split; [done|].
    assert (256 ^ Z.of_nat (length (take 32 (drop i b))) <= 256 ^ 32) as H2.
    { apply Z.pow_le_mono_r; [lia|]. rewrite length_take. lia. }
    change (256 ^ 32) with (2 ^ 256) in H2. lia. }
  split; [|done]. unfold payload_words, decode_payload. cbn [i_root i_pbhExternalNullifier i_nullifierHash i_proof].
  repeat constructor; try apply Hw.
Qed.

Lemma encode_payloads_bytes ps : is_bytes (encode_payloads ps).
Proof.
  assert (forall l : list bytes, Forall is_bytes l -> is_bytes (concat l)) as Hc.
  { induction 1; [constructor|]. by apply Forall_app_2. }
  unfold encode_payloads, abi_word. apply Forall_app_2; [apply be_bytes_is_bytes|]. apply Forall_app_2; [apply be_bytes_is_bytes|].
  apply Hc, Forall_fmap, Forall_true. intros p. change (is_bytes (encode_payload p)). unfold encode_payload.
  apply Hc, Forall_fmap, Forall_true. intros w. apply (be_bytes_is_bytes 32).
Qed.

Section bundler.
Context (getThreshold : Address -> Z) (env : PbhEnv) (m : Msg) (ag : Aggregator) (st : EntryPoint).

(** The payload that rides behind the signature of an operation, and what validation found. *)
Lemma validated_payload op sig : is_bytes (uo_signature op) -> validateUserOpSignature getThreshold env m ag st op = Ok sig ->
  exists b, extractProof (uo_signature op) (getThreshold (uo_sender op)) = Ok (sig, b) /\ payload_typed (decode_payload b) /\
    entitles env m st (decode_payload b) (with_signature op sig).
Proof.
  intros Hb E. unfold validateUserOpSignature in E. apply rbind_Ok in E as ([a b]&Hx&E). cbn [fst snd] in E. inv_ok.
  exists b. destruct (extractProof_spec _ _ _ _ Hx) as [Hs _]. rewrite Hs in Hb. apply Forall_app in Hb as [_ Hb].
  split; [done|]. split; [by apply decode_payload_typed|].
  apply verifyPbh_spec; [by apply word_at_nonneg|]. done.
Qed.

Lemma collect_validated ops sigs : Forall (fun op => is_bytes (uo_signature op)) ops ->
  Forall2 (fun op sig => validateUserOpSignature getThreshold env m ag st op = Ok sig) ops sigs ->
  exists ps, collect_payloads getThreshold ops = Ok ps /\ Forall payload_typed ps /\ length ps = length ops /\
    Forall2 (entitles env m st) ps (zip_with with_signature ops sigs).
Proof.
  intros Hb Hv. induction Hv as [|op sig ops sigs Hop Hv IH]; cbn [collect_payloads zip_with].
  { exists []. split; [done|]. split; [constructor|]. split; [done|constructor]. }
  inversion_clear Hb as [|? ? Hb1 Hb2]. destruct (IH Hb2) as (ps&->&Hty&Hlen&Hen).
  destruct (validated_payload op sig Hb1 Hop) as (b&->&Ht&He). cbn [rbind snd]. eexists. split; [done|].
  split; [by constructor|]. split; [cbn; by rewrite Hlen|]. by constructor.
Qed.

(** A bundle of operations that the aggregator validated one by one is verified on chain: their
    signatures aggregate, the entry point accepts the operations with the proofs stripped and the
    aggregated signature, and the aggregator's callback passes for them. *)
Theorem validated_bundle_verified ops sigs :
  entered st = false -> Forall (fun op => is_bytes (uo_signature op)) ops -> Z.of_nat (length ops) <= U64_MAX ->
  Forall2 (fun op sig => validateUserOpSignature getThreshold env m ag st op = Ok sig) ops sigs ->
  mget (tstorage st) (hash_ops env (zip_with with_signature ops sigs)) = 0 ->
  exists aggregated st' events, aggregateSignatures getThreshold ops = Ok aggregated /\
    begin_handle env m st [{| og_userOps := zip_with with_signature ops sigs; og_aggregator := pbhEntryPoint ag; og_signature := aggregated |}] =
      Ok (st', events) /\
    validateSignatures env st' (zip_with with_signature ops sigs) = Ok tt.
Proof.
  intros He Hb Hn Hv Hfr. destruct (collect_validated ops sigs Hb Hv) as (ps&Hc&Hty&Hlen&Hen).
  set (g := {| og_userOps := zip_with with_signature ops sigs; og_aggregator := pbhEntryPoint ag; og_signature := encode_payloads ps |}).
  assert (Forall (fun g => is_bytes (og_signature g)) [g]) as Hgb by (constructor; [apply encode_payloads_bytes|constructor]).
  destruct (begin_handle_complete env m st [g]) as [[st' ev] Hbegin]; [done|done| | |by constructor|].
  { constructor; [|constructor]. exists ps. split; [|done]. apply payloads_roundtrip; [done|]. by rewrite Hlen. }
  { apply NoDup_singleton. }
  exists (encode_payloads ps), st', ev. unfold aggregateSignatures. rewrite Hc. split; [done|]. split; [done|].
  apply begin_handle_spec in Hbegin as [_ ->]; [|done]. apply require_Ok, Z.eqb_eq, stored_hash. right. exists g.
  split; [by apply list_elem_of_singleton|done].
Qed.
End bundler.

(** ** The views of the ledger *)

Definition unspent (st : EntryPoint) (h : Z) : Prop := mget (nullifierHashes st) h = 0.

Lemma first_unspent_spec st hashes : forall i, 0 <= i ->
  (first_unspent st i hashes = -1 /\ Forall (fun h => ~ unspent st h) hashes) \/
  exists k h, first_unspent st i hashes = i + Z.of_nat k /\ hashes !! k = Some h /\ unspent st h /\
    Forall (fun h => ~ unspent st h) (take k hashes).
Proof.
  induction hashes as [|h hashes IH]; intros i Hi; cbn [first_unspent]; [by left|].
  destruct (Z.eqb_spec (mget (nullifierHashes st) h) 0) as [Hz|Hz].
  - right. exists 0%nat, h. split; [lia|]. split; [done|]. split; [done|constructor].
  - destruct (IH (i + 1) ltac:(lia)) as [[-> Hf]|(k&h'&->&Hk&Hu&Hf)]; [left; split; [done|by constructor]|].
    right. exists (S k), h'. split; [lia|]. split; [done|]. split; [done|]. by constructor.
Qed.

(** The indexes of the unspent hashes from [i] *)
Fixpoint unspent_from (st : EntryPoint) (i : nat) (hashes : list Z) : list Z :=
  match hashes with
  | [] => []
  | h :: hashes => (if mget (nullifierHashes st) h =? 0 then [Z.of_nat i] else []) ++ unspent_from st (S i) hashes
  end.

Lemma unspent_rounds st hashes : forall i done rest, (length hashes <= length rest)%nat ->
  let t := foldl (unspent_round st) (done ++ rest, length done) (zip (seq i (length hashes)) hashes) in
  take (snd t) (fst t) = done ++ unspent_from st i hashes.
Proof.
  induction hashes as [|h hashes IH]; intros i done rest Hlen; cbn [length seq zip zip_with foldl unspent_from].
  { cbn [fst snd]. by rewrite take_app_length, app_nil_r. }
  destruct rest as [|x rest]; [cbn in Hlen; lia|]. cbn in Hlen.
  change (unspent_round st (done ++ x :: rest, length done) (i, h)) with
    (if mget (nullifierHashes st) h =? 0 then (<[length done := Z.of_nat i]> (done ++ x :: rest), S (length done))
     else (done ++ x :: rest, length done)). destruct (mget (nullifierHashes st) h =? 0).
  - rewrite insert_app_r_alt, Nat.sub_diag by lia. cbn [insert list_insert].
    specialize (IH (S i) (done ++ [Z.of_nat i]) rest ltac:(lia)). rewrite length_app, Nat.add_1_r, <-!app_assoc in IH.
    exact IH.
  - apply IH. cbn. lia.
Qed.

(** The two loops over the hashes compute the indexes of the unspent ones, in order. *)
Lemma getUnspent_spec st hashes : getUnspentNullifierHashes st hashes = unspent_from st 0 hashes.
Proof.
  unfold getUnspentNullifierHashes. pose proof (unspent_rounds st hashes 0 [] (replicate (length hashes) 0)) as H.
  cbn [app length] in H. apply H. by rewrite length_replicate.
Qed.

(** ** An example: one operation of one human *)

Module PbhExample.
Definition msg : Msg := {| sender := 70; timestamp := 1735700000; block_number := 5; block_gaslimit := 30000000 |}.
Definition payload : IPBHPayload :=
  {| i_root := 1; i_pbhExternalNullifier := encode_nullifier (v1 1 2025 0); i_nullifierHash := 9; i_proof := [1; 2; 3; 4; 5; 6; 7; 8] |}.

(** The times and one signature of an owner *)
Definition sig : bytes := replicate 76 3 ++ [27].
Definition key : Z := 0x7062687478.
Definition op : UserOp :=
  {| uo_sender := 5; uo_nonce := Z.shiftl key 216; uo_initCode := []; uo_callData := [1]; uo_accountGasLimits := 0;
     uo_preVerificationGas := 0; uo_gasFees := 0; uo_paymasterAndData := []; uo_signature := sig ++ encode_payload payload |}.
Definition stripped : UserOp := with_signature op sig.
(** A hash without a collision at the encoding of the bundle *)
Definition env : PbhEnv :=
  {| keccak256 := fun b => if bool_decide (b = encode_ops [stripped]) then 0x700 else 0x800;
     verifyProof := fun _ root _ _ _ _ => root =? 1;
     year_at := fun _ => 2025; month_at := fun _ => 1; userop_hash := fun op => uo_nonce op; chainid := 480 |}.
Definition group : OpsGroup := {| og_userOps := [stripped]; og_aggregator := 61; og_signature := encode_payloads [payload] |}.

Definition get {A E} (d : A) (r : result A E) : A := match r with Ok a => a | Err _ => d end.
Definition ready : EntryPoint := get uninitialized (initialize msg uninitialized 0 40 30 1000000 [70] 71).
Definition begun : EntryPoint := fst (get (ready, []) (begin_handle env msg ready [group])).

Lemma typed : group_typed group.
Proof.
  split; [|split; [by split|]].
  - repeat constructor; by vm_compute.
  - apply encode_payloads_bytes.
Qed.

Lemma ready_reached : reached env (ready, []).
Proof.
  apply rtc_once. eapply (step_call _ _ _ msg (Initialize 0 40 30 1000000 [70] 71)); [done|]. by vm_compute.
Qed.

Lemma begun_reached : reached env (begun, [{| en_state := ready; en_msg := msg; en_group := group |}]).
Proof.
  eapply rtc_r; [exact ready_reached|].
  apply (step_begin env ready [] msg [group] begun (snd (get (ready, []) (begin_handle env msg ready [group])))); [done| |by vm_compute].
  constructor; [exact typed|constructor].
Qed.

Definition spent : EntryPoint := get uninitialized (spendNullifierHashes msg ready [9]).
Definition sem : Semaphore :=
  {| ProofError := unit; decompress_proof := fun _ => None; verify_proof := fun root _ _ _ _ _ => Ok (root =? 1);
     hash_to_field := fun b => Z.shiftr (keccak256 env b) 8 |}.
Definition now (_ : nat) : Z * DateMarker := (30, {| year := 2025; month := 1 |}).
Definition proved : PBHPayload :=
  {| external_nullifier := v1 1 2025 0; nullifier_hash := 9; pbh_root := 1; pbh_proof := [1; 2; 3; 4; 5; 6; 7; 8] |}.

(** A Safe of one owner whose signature is the byte 3 *)
Definition safe : Safe :=
  {| _getSafeOp := fun op =>
       let s := uo_signature op in
       if (12 <=? length s)%nat then Some (uo_callData op, be_val (take 6 s), be_val (take 6 (drop 6 (take 12 s))), drop 12 s) else None;
     _checkSignaturesLength := fun s t => Z.of_nat (length s) =? 65 * t;
     checkSignatures := fun _ _ _ s => bool_decide (take 64 s = replicate 64 3);
     _packValidationData := fun a x y => a + 2 ^ 160 * y + 2 ^ 208 * x |}.
Definition safe_laws : SafeLaws safe.
Proof.
  refine {| safe_op := fun op s => (uo_callData op, be_val (take 6 s), be_val (take 6 (drop 6 s))) |}; [done|].
  intros o Ho. unfold safe. cbn [_getSafeOp]. rewrite (proj2 (Nat.leb_le _ _)) by done. by rewrite take_take.
Defined.
Definition md : PbhModule := {| PBH_SIGNATURE_AGGREGATOR := 61; PBH_NONCE_KEY := key |}.
Definition ag : Aggregator := {| pbhEntryPoint := 60; agg_worldID := 50 |}.
Definition one (_ : Address) : Z := 1.

Lemma no_collision x : keccak256 env x = keccak256 env (encode_ops [stripped]) -> x = encode_ops [stripped].
Proof. unfold env. cbn [keccak256]. rewrite (bool_decide_true (encode_ops _ = _)) by done. case_bool_decide; [done|]. discriminate. Qed.

Lemma sig_in_range : in_range (drop 12 sig) 1.
Proof. intros i Hi. assert (i = 0%nat) as -> by lia. by vm_compute. Qed.
End PbhExample.

Lemma aggregator_passes_verified_witness :
  exists e ps, e ∈ [{| en_state := PbhExample.ready; en_msg := PbhExample.msg; en_group := PbhExample.group |}] /\
    og_userOps (en_group e) = [PbhExample.stripped] /\ decode_payloads (og_signature (en_group e)) = Some ps /\
    Forall2 (entitles PbhExample.env (en_msg e) (en_state e)) ps [PbhExample.stripped].
Proof.
  apply (proj1 (aggregator_passes_verified PbhExample.env PbhExample.begun _ [PbhExample.stripped] PbhExample.begun_reached
    (proj1 PbhExample.typed) (proj1 (proj2 PbhExample.typed)) ltac:(by vm_compute) PbhExample.no_collision)).
  by vm_compute.
Defined.

Lemma spent_nullifier_refused_witness :
  exists e, handleAggregatedOps (fun st _ _ => Some st) PbhExample.env PbhExample.msg PbhExample.spent [PbhExample.group] 1 = Err e.
Proof.
  apply (spent_nullifier_refused PbhExample.env PbhExample.msg PbhExample.ready PbhExample.spent [] (PbhExample.spent, []) [9] 9
    _ _ _ PbhExample.group [PbhExample.payload] PbhExample.payload).
  - done.
  - by vm_compute.
  - by apply list_elem_of_singleton.
  - apply rtc_refl.
  - constructor; [exact PbhExample.typed|constructor].
  - by apply list_elem_of_singleton.
  - by vm_compute.
  - by apply list_elem_of_singleton.
  - done.
Defined.

Lemma pool_bundle_verified_witness :
  exists st' events, begin_handle PbhExample.env PbhExample.msg PbhExample.ready [PbhExample.group] = Ok (st', events) /\
    Forall (fun g => validateSignatures PbhExample.env st' (og_userOps g) = Ok tt) [PbhExample.group].
Proof.
  apply (pool_bundle_verified PbhExample.env PbhExample.sem PbhExample.now (fun _ => 0%nat) PbhExample.msg PbhExample.ready [1]
    [PbhExample.group] [PbhExample.proved]).
  - by vm_compute.
  - by vm_compute.
  - intros k. split; by vm_compute.
  - by vm_compute.
  - repeat constructor.
  - constructor; [exact PbhExample.typed|constructor].
  - apply NoDup_singleton.
  - constructor; [by vm_compute|constructor].
Defined.

Lemma proof_rides_along_witness :
  _validateSignatures PbhExample.one PbhExample.env PbhExample.safe PbhExample.md PbhExample.op =
  _validateSignatures PbhExample.one PbhExample.env PbhExample.safe PbhExample.md PbhExample.stripped.
Proof.
  apply (proof_rides_along PbhExample.one PbhExample.env PbhExample.safe PbhExample.safe_laws PbhExample.md PbhExample.op
    PbhExample.sig (encode_payload PbhExample.payload)).
  - by vm_compute.
  - apply Nat.leb_le. by vm_compute.
  - by vm_compute.
  - done.
  - exact PbhExample.sig_in_range.
  - by vm_compute.
Defined.

Lemma validated_bundle_verified_witness :
  exists aggregated st' events, aggregateSignatures PbhExample.one [PbhExample.op] = Ok aggregated /\
    begin_handle PbhExample.env PbhExample.msg PbhExample.ready
      [{| og_userOps := [PbhExample.stripped]; og_aggregator := 60; og_signature := aggregated |}] = Ok (st', events) /\
    validateSignatures PbhExample.env st' [PbhExample.stripped] = Ok tt.
Proof.
  apply (validated_bundle_verified PbhExample.one PbhExample.env PbhExample.msg PbhExample.ag PbhExample.ready [PbhExample.op] [PbhExample.sig]).
  - by vm_compute.
  - constructor; [|constructor]. apply Forall_app_2; [by repeat constructor|]. apply Forall_concat, Forall_fmap, Forall_true.
    intros w. apply (be_bytes_is_bytes 32).
  - by vm_compute.
  - constructor; [by vm_compute|constructor].
  - by vm_compute.
Defined.
