(* ===== verification/FeeContracts.v ===== *)
(** * The contracts that share out and burn the fees ([src/pkg/contracts/src/fees])

    [FeeRecipient] sends a share of the ETH that it receives to [FeeEscrow], which sells its
    balance to whoever burns enough WLD for it.  Accounts, the token, the oracles and the
    caller's callback are other code: the world [W] with the functions of [Chain]. *)

From S2P Require Import Prelude Encoding ProofTypes Solidity.

Definition U128_MAX : Z := 2 ^ 128 - 1.

(** A price of ChainLink: [int192], and until when it holds *)
Record PriceFeedData := { fd_price : Z; fd_expiresAt : Z }.

(** Balances, a call that carries ETH ([None]: it failed), a token's [safeTransfer], the callback of
    the buyer with its ETH, its amount and the address that receives the WLD, and the oracles. *)
Record Chain (W : Type) := {
  eth : W -> Address -> Z;
  wld : W -> Address -> Z;
  call_value : W -> Address -> Address -> Z -> option W;
  token_balance : W -> Address -> Address -> Z;
  token_transfer : W -> Address -> Address -> Address -> Z -> option W;
  burnCallback : W -> Address -> Address -> Z -> Z -> Address -> option W;
  priceFeed : W -> Address -> PriceFeedData;
  decimals : W -> Address -> Z
}.
Arguments eth {W}. Arguments wld {W}. Arguments call_value {W}. Arguments token_balance {W}. Arguments token_transfer {W}.
Arguments burnCallback {W}. Arguments priceFeed {W}. Arguments decimals {W}.

Inductive FeeError :=
| InvalidAddress
| BurnTooSoon
| NothingToBurn
| InsufficientBurn (actualBurn expectedBurn : Z)
| StalePrice
| ETHTransferFailed
| TokenTransferFailed
| CallbackReverted
| NotFeeOwner (account : Address).

#[local] Abbreviation res A := (result A (revert FeeError)).

Definition fee_SCALE : Z := 100000.
Definition SLIPPAGE_TOLERANCE_BASIS_POINTS : Z := 30.
Definition DEAD_ADDRESS : Address := 0xdEaD.

Section contracts.
Context {W : Type} (ch : Chain W).

(** [call(gas(), to, amount, 0, 0, 0, 0)] *)
Definition _safeTransferETH (self : Address) (w : W) (to : Address) (amount : Z) : res W :=
  ok_or (call_value ch w self to amount) (Custom ETHTransferFailed).

(** ** [FeeRecipient.sol] *)

Record FeeRecipient := {
  FEE_BURN_ESCROW : Address; feeVaultRecipient : Address; distributionRatio : Z; recipient_owner : Address; recipient_self : Address
}.

Definition only (o sender : Address) : res unit := require (sender =? o) (NotFeeOwner sender).

(** Both [receive] and [fallback] *)
Definition distribute (r : FeeRecipient) (w : W) (value : Z) : res W :=
  let? n := umul value (distributionRatio r) in
  _safeTransferETH (recipient_self r) w (FEE_BURN_ESCROW r) (n / fee_SCALE).

Definition recipient_withdraw (r : FeeRecipient) (w : W) (sender : Address) : res W :=
  let? _ := only (recipient_owner r) sender in
  _safeTransferETH (recipient_self r) w (feeVaultRecipient r) (eth ch w (recipient_self r)).
Definition recipient_withdraw_token (r : FeeRecipient) (w : W) (sender token : Address) : res W :=
  let? _ := only (recipient_owner r) sender in
  ok_or (token_transfer ch w token (recipient_self r) (feeVaultRecipient r) (token_balance ch w token (recipient_self r))) (Custom TokenTransferFailed).

(** ** [FeeEscrow.sol] *)

Record FeeEscrow := {
  WLD_USDC_SCALE : Z; ETH_USDC_SCALE : Z; WLD_USD_ORACLE : Address; ETH_USD_ORACLE : Address;
  lastBuybackTimestamp : Z; minimumInterval : Z; escrow_owner : Address; escrow_self : Address
}.

Definition escrow_new (w : W) (now : Z) (self wld_oracle eth_oracle owner_ : Address) (minimumInterval_ : Z) : res FeeEscrow :=
  let? _ := require (negb (owner_ =? 0)) InvalidAddress in
  let? ws := if 10 ^ decimals ch w wld_oracle <=? U256_MAX then Ok (10 ^ decimals ch w wld_oracle) else Err Panic in
  let? es := if 10 ^ decimals ch w eth_oracle <=? U256_MAX then Ok (10 ^ decimals ch w eth_oracle) else Err Panic in
  Ok {| WLD_USDC_SCALE := ws; ETH_USDC_SCALE := es; WLD_USD_ORACLE := wld_oracle; ETH_USD_ORACLE := eth_oracle;
        lastBuybackTimestamp := now; minimumInterval := minimumInterval_; escrow_owner := owner_; escrow_self := self |}.

(** [uint128(int128(p))] *)
Definition low128 (p : Z) : Z := p mod 2 ^ 128.

(** The words of the assembly block, which wrap around; a division by zero is zero. *)
Definition evm_mul (a b : Z) : Z := (a * b) mod 2 ^ 256.
Definition evm_shl (k a : Z) : Z := Z.shiftl a k mod 2 ^ 256.
Definition evm_div (a b : Z) : Z := if b =? 0 then 0 else a / b.

Definition price (e : FeeEscrow) (w : W) (now : Z) : res Z :=
  let wldUsdData := priceFeed ch w (WLD_USD_ORACLE e) in
  let ethUsdData := priceFeed ch w (ETH_USD_ORACLE e) in
  let? _ := require (negb ((fd_expiresAt wldUsdData <? now) || (fd_expiresAt ethUsdData <? now) ||
                           (fd_price wldUsdData <=? 0) || (fd_price ethUsdData <=? 0))) StalePrice in
  let wldUsdPrice := low128 (fd_price wldUsdData) in
  let ethUsdPrice := low128 (fd_price ethUsdData) in
  let numerator := evm_shl 64 (evm_mul ethUsdPrice (WLD_USDC_SCALE e)) in
  let denominator := evm_mul wldUsdPrice (ETH_USDC_SCALE e) in
  Ok (low128 (Z.shiftr (evm_div numerator denominator) 64)).

Definition with_last (e : FeeEscrow) (t : Z) : FeeEscrow :=
  {| WLD_USDC_SCALE := WLD_USDC_SCALE e; ETH_USDC_SCALE := ETH_USDC_SCALE e; WLD_USD_ORACLE := WLD_USD_ORACLE e;
     ETH_USD_ORACLE := ETH_USD_ORACLE e; lastBuybackTimestamp := t; minimumInterval := minimumInterval e;
     escrow_owner := escrow_owner e; escrow_self := escrow_self e |}.

(** The caller's callback runs in the middle; the guard keeps it from another burn. *)
Definition executeBurn (e : FeeEscrow) (w : W) (now : Z) (sender : Address) : res (FeeEscrow * W) :=
  let? due := uadd (lastBuybackTimestamp e) (minimumInterval e) in
  let? _ := require (due <? now) BurnTooSoon in
  let? currentPrice := price e w now in
  let balance := eth ch w (escrow_self e) in
  let? a := umul currentPrice balance in
  let? b := umul a (fee_SCALE - SLIPPAGE_TOLERANCE_BASIS_POINTS) in
  let expectedBurn := b / fee_SCALE in
  let? _ := require (negb (balance =? 0)) NothingToBurn in
  let burnBalanceBefore := wld ch w DEAD_ADDRESS in
  let? w := ok_or (burnCallback ch w (escrow_self e) sender balance expectedBurn DEAD_ADDRESS) (Custom CallbackReverted) in
  let burnBalanceAfter := wld ch w DEAD_ADDRESS in
  let? totalBurned := usub burnBalanceAfter burnBalanceBefore in
  let? _ := require (negb (totalBurned <? expectedBurn)) (InsufficientBurn totalBurned expectedBurn) in
  Ok (with_last e now, w).

Definition setInterval (e : FeeEscrow) (sender : Address) (newInterval : Z) : res FeeEscrow :=
  let? _ := only (escrow_owner e) sender in
  Ok {| WLD_USDC_SCALE := WLD_USDC_SCALE e; ETH_USDC_SCALE := ETH_USDC_SCALE e; WLD_USD_ORACLE := WLD_USD_ORACLE e;
        ETH_USD_ORACLE := ETH_USD_ORACLE e; lastBuybackTimestamp := lastBuybackTimestamp e; minimumInterval := newInterval;
        escrow_owner := escrow_owner e; escrow_self := escrow_self e |}.
Definition escrow_withdraw (e : FeeEscrow) (w : W) (sender to : Address) (amount : Z) : res W :=
  let? _ := only (escrow_owner e) sender in _safeTransferETH (escrow_self e) w to amount.
Definition escrow_withdraw_token (e : FeeEscrow) (w : W) (sender token to : Address) (amount : Z) : res W :=
  let? _ := only (escrow_owner e) sender in ok_or (token_transfer ch w token (escrow_self e) to amount) (Custom TokenTransferFailed).
Definition setOracles (e : FeeEscrow) (sender wld_oracle eth_oracle : Address) : res FeeEscrow :=
  let? _ := only (escrow_owner e) sender in
  Ok {| WLD_USDC_SCALE := WLD_USDC_SCALE e; ETH_USDC_SCALE := ETH_USDC_SCALE e; WLD_USD_ORACLE := wld_oracle;
        ETH_USD_ORACLE := eth_oracle; lastBuybackTimestamp := lastBuybackTimestamp e; minimumInterval := minimumInterval e;
        escrow_owner := escrow_owner e; escrow_self := escrow_self e |}.
Definition setWLDUSDOracle (e : FeeEscrow) (sender oracle : Address) : res FeeEscrow := setOracles e sender oracle (ETH_USD_ORACLE e).
Definition setETHUSDOracle (e : FeeEscrow) (sender oracle : Address) : res FeeEscrow := setOracles e sender (WLD_USD_ORACLE e) oracle.

(** ** What a burn costs *)

(** The prices fit the words: they are positive [int128]s, and the products leave room for the shift. *)
Definition prices_fit (e : FeeEscrow) (w : W) : Prop :=
  let p := fd_price (priceFeed ch w (WLD_USD_ORACLE e)) in
  let q := fd_price (priceFeed ch w (ETH_USD_ORACLE e)) in
  p < 2 ^ 127 /\ q < 2 ^ 127 /\ 0 < WLD_USDC_SCALE e /\ 0 < ETH_USDC_SCALE e /\
  q * WLD_USDC_SCALE e < 2 ^ 128 /\ p * ETH_USDC_SCALE e < 2 ^ 256.

Lemma shift_div n d : 0 <= n -> 0 < d -> Z.shiftr (Z.shiftl n 64 / d) 64 = n / d.
Proof.
  intros Hn Hd. rewrite Z.shiftr_div_pow2, Z.shiftl_mul_pow2 by lia.
  rewrite Z.div_div, (Z.mul_comm d) by lia. rewrite Z.mul_comm. rewrite Z.div_mul_cancel_l; lia.
Qed.

(** The shifts cancel: the price is a whole number of WLD for one ETH, rounded down. *)
Lemma price_whole e w now p : prices_fit e w -> price e w now = Ok p ->
  p = fd_price (priceFeed ch w (ETH_USD_ORACLE e)) * WLD_USDC_SCALE e /
      (fd_price (priceFeed ch w (WLD_USD_ORACLE e)) * ETH_USDC_SCALE e).
Proof.
  unfold price, prices_fit. set (P := fd_price (priceFeed ch w (WLD_USD_ORACLE e))).
  set (Q := fd_price (priceFeed ch w (ETH_USD_ORACLE e))). intros (H1&H2&H3&H4&H5&H6) E. inv_ok.
  unfold low128, evm_mul, evm_shl, evm_div. rewrite !(Z.mod_small P), !(Z.mod_small Q) by lia.
  rewrite (Z.mod_small (Q * _)), (Z.mod_small (P * _)) by nia.
  rewrite (Z.mod_small (Z.shiftl _ _)) by (rewrite Z.shiftl_mul_pow2 by lia; nia).
  rewrite (proj2 (Z.eqb_neq _ 0)) by nia. rewrite shift_div by nia. apply Z.mod_small. split; [apply Z.div_pos; nia|].
  apply Z.div_lt_upper_bound; nia.
Qed.

(** a burn sells the whole balance for no less than the tolerated price: at the time
    of the burn the interval has passed and the prices hold, and the dead address receives at least the
    whole-number price of the balance less the tolerance. *)
Theorem burn_pays_price e w now sender e' w' :
  prices_fit e w -> executeBurn e w now sender = Ok (e', w') ->
  let rate := fd_price (priceFeed ch w (ETH_USD_ORACLE e)) * WLD_USDC_SCALE e /
              (fd_price (priceFeed ch w (WLD_USD_ORACLE e)) * ETH_USDC_SCALE e) in
  let balance := eth ch w (escrow_self e) in
  lastBuybackTimestamp e + minimumInterval e < now /\ lastBuybackTimestamp e' = now /\ balance <> 0 /\
  burnCallback ch w (escrow_self e) sender balance (rate * balance * 99970 / 100000) DEAD_ADDRESS = Some w' /\
  rate * balance * 99970 / 100000 <= wld ch w' DEAD_ADDRESS - wld ch w DEAD_ADDRESS.
Proof.
  intros Hfit E. unfold executeBurn in E. apply rbind_Ok in E as (due&Hdue&E). apply rbind_Ok in E as (?&Hnow&E).
  apply rbind_Ok in E as (p&Hp&E). apply (price_whole e w now p Hfit) in Hp. subst p.
  unfold fee_SCALE, SLIPPAGE_TOLERANCE_BASIS_POINTS in E. inv_ok. cbn [with_last lastBuybackTimestamp]. done.
Qed.
End contracts.
