(* ===== verification/Simulate.v ===== *)
(** * Simulation of user operations: the inspector ([src/crates/rpc/src/simulate.rs])

    The EVM calls the hooks of the inspector when a frame starts and ends and on a
    self-destruct.  An execution is a tree of frames ([item]); the hooks see it in order.
    The effects of a frame wait in a stack until the frames around it have ended.  The trace
    is the tree in preorder, from which the cause of a failure is selected by depth alone. *)

From S2P Require Import Prelude Encoding ProofTypes.

(** ** Frames and traces *)

Inductive TraceKind := KCall | KCallCode | KDelegateCall | KStaticCall | KCreate | KCreate2.
Inductive TraceOutcome := Success | Reverted | Halted.
#[export] Instance TraceOutcome_eq_dec : EqDecision TraceOutcome.
Proof. solve_decision. Defined.

(** [revm]'s results: three are [is_ok], and [Revert] is the instruction. *)
Inductive InstructionResult := Stop | Return | SelfDestruct | Revert | Exceptional (name : string).
Definition result_is_ok (r : InstructionResult) : bool := match r with Stop | Return | SelfDestruct => true | _ => false end.
Definition is_revert (r : InstructionResult) : bool := match r with Revert => true | _ => false end.

Record RawTrace := {
  rt_kind : TraceKind; rt_from : Address; rt_to : option Address; rt_selector : option bytes; rt_value : Z; rt_depth : nat;
  rt_outcome : option TraceOutcome; rt_revert_output : option bytes; rt_halt_reason : option InstructionResult
}.
Record NativeTransfer := { nt_from : Address; nt_to : Address; nt_value : Z }.
(** deployer and deployed address *)
Definition ContractCreation : Type := Address * Address.

Record Effects := {
  fx_transfers : list NativeTransfer; fx_creations : list ContractCreation; fx_destructs : list Address
}.
Definition no_effects : Effects := {| fx_transfers := []; fx_creations := []; fx_destructs := [] |}.
Definition extend (a b : Effects) : Effects :=
  {| fx_transfers := fx_transfers a ++ fx_transfers b; fx_creations := fx_creations a ++ fx_creations b;
     fx_destructs := fx_destructs a ++ fx_destructs b |}.

Record PendingFrame := { pf_effects : Effects; pf_trace_index : nat }.

(** The top of the stack is the head of the list. *)
Record SimulationInspector := {
  traces : list RawTrace; committed : Effects; pending_frames : list PendingFrame; trace_error : option string
}.
Definition inspector_default : SimulationInspector :=
  {| traces := []; committed := no_effects; pending_frames := []; trace_error := None |}.

Definition with_error (s : SimulationInspector) (e : string) : SimulationInspector :=
  {| traces := traces s; committed := committed s; pending_frames := pending_frames s;
     trace_error := Some (default e (trace_error s)) |}.

(** ** The hooks *)

Inductive CallScheme := SchemeCall | SchemeCallCode | SchemeDelegateCall | SchemeStaticCall.
Inductive CallInput := InBytes (b : bytes) | InShared (start len : nat).
(** [ci_transfer] is [value.transfer()]. *)
Record CallInputs := {
  ci_input : CallInput; ci_scheme : CallScheme; ci_caller : Address; ci_target : Address; ci_transfer : option Z
}.
Inductive CreateScheme := SchemeCreate | SchemeCustom | SchemeCreate2.
Record CreateInputs := { cr_scheme : CreateScheme; cr_caller : Address; cr_value : Z }.

Definition call_kind (s : CallScheme) : TraceKind :=
  match s with
  | SchemeCall => KCall | SchemeCallCode => KCallCode | SchemeDelegateCall => KDelegateCall | SchemeStaticCall => KStaticCall
  end.
Definition create_kind (s : CreateScheme) : TraceKind :=
  match s with SchemeCreate | SchemeCustom => KCreate | SchemeCreate2 => KCreate2 end.

Definition push_frame (s : SimulationInspector) (t : RawTrace) (fx : Effects) : SimulationInspector :=
  {| traces := traces s ++ [t]; committed := committed s;
     pending_frames := {| pf_effects := fx; pf_trace_index := length (traces s) |} :: pending_frames s;
     trace_error := trace_error s |}.

Section hooks.
(** The bytes of a range of the shared memory *)
Context (shared_memory_buffer_slice : nat -> nat -> option bytes).

Definition selector_of (input : CallInput) : bytes :=
  match input with
  | InBytes b => if (4 <=? length b)%nat then take 4 b else [0; 0; 0; 0]
  | InShared start len =>
      if (4 <=? len)%nat then default [0; 0; 0; 0] (shared_memory_buffer_slice start (start + 4)) else [0; 0; 0; 0]
  end.

(** The effects a call starts with *)
Definition call_effects (inputs : CallInputs) : Effects :=
  {| fx_transfers :=
       match ci_transfer inputs with
       | Some value => if 0 <? value then [{| nt_from := ci_caller inputs; nt_to := ci_target inputs; nt_value := value |}] else []
       | None => []
       end;
     fx_creations := []; fx_destructs := [] |}.

Definition call_trace (inputs : CallInputs) (depth : nat) : RawTrace :=
  {| rt_kind := call_kind (ci_scheme inputs); rt_from := ci_caller inputs; rt_to := Some (ci_target inputs);
     rt_selector := Some (selector_of (ci_input inputs)); rt_value := default 0 (ci_transfer inputs); rt_depth := depth;
     rt_outcome := None; rt_revert_output := None; rt_halt_reason := None |}.
Definition create_trace (inputs : CreateInputs) (depth : nat) : RawTrace :=
  {| rt_kind := create_kind (cr_scheme inputs); rt_from := cr_caller inputs; rt_to := None; rt_selector := None;
     rt_value := cr_value inputs; rt_depth := depth; rt_outcome := None; rt_revert_output := None; rt_halt_reason := None |}.

Definition hook_call (s : SimulationInspector) (inputs : CallInputs) : SimulationInspector :=
  push_frame s (call_trace inputs (length (pending_frames s))) (call_effects inputs).
Definition hook_create (s : SimulationInspector) (inputs : CreateInputs) : SimulationInspector :=
  push_frame s (create_trace inputs (length (pending_frames s))) no_effects.

Definition commit_or_bubble (s : SimulationInspector) (frame : Effects) : SimulationInspector :=
  match pending_frames s with
  | parent :: rest =>
      {| traces := traces s; committed := committed s;
         pending_frames := {| pf_effects := extend (pf_effects parent) frame; pf_trace_index := pf_trace_index parent |} :: rest;
         trace_error := trace_error s |}
  | [] => {| traces := traces s; committed := extend (committed s) frame; pending_frames := []; trace_error := trace_error s |}
  end.

Definition outcome_of (result : InstructionResult) : TraceOutcome :=
  if result_is_ok result then Success else if is_revert result then Reverted else Halted.

(** The update of the entry in [record_trace_outcome] *)
Definition outcome_trace (t : RawTrace) (result : InstructionResult) (output : bytes) : RawTrace :=
  {| rt_kind := rt_kind t; rt_from := rt_from t; rt_to := rt_to t; rt_selector := rt_selector t; rt_value := rt_value t;
     rt_depth := rt_depth t; rt_outcome := Some (outcome_of result);
     rt_revert_output := if is_revert result && negb (bool_decide (output = [])) then Some output else rt_revert_output t;
     rt_halt_reason := if is_revert result && negb (bool_decide (output = [])) then rt_halt_reason t
                       else if bool_decide (outcome_of result = Halted) then Some result else rt_halt_reason t |}.
Definition with_to (t : RawTrace) (a : option Address) : RawTrace :=
  {| rt_kind := rt_kind t; rt_from := rt_from t; rt_to := a; rt_selector := rt_selector t; rt_value := rt_value t;
     rt_depth := rt_depth t; rt_outcome := rt_outcome t; rt_revert_output := rt_revert_output t; rt_halt_reason := rt_halt_reason t |}.

(** [record_trace_outcome], with what the caller does to the entry it returns *)
Definition record_trace_outcome (s : SimulationInspector) (trace_index : nat) (result : InstructionResult) (output : bytes)
    (after : RawTrace -> RawTrace) : SimulationInspector :=
  match traces s !! trace_index with
  | None => with_error s "simulation inspector frame referenced a missing trace entry"
  | Some t =>
      {| traces := <[trace_index := after (outcome_trace t result output)]> (traces s); committed := committed s;
         pending_frames := pending_frames s; trace_error := trace_error s |}
  end.

Definition pop (s : SimulationInspector) (rest : list PendingFrame) : SimulationInspector :=
  {| traces := traces s; committed := committed s; pending_frames := rest; trace_error := trace_error s |}.

Definition call_end (s : SimulationInspector) (result : InstructionResult) (output : bytes) : SimulationInspector :=
  match pending_frames s with
  | [] => with_error s "simulation inspector CALL ended without a pending frame"
  | frame :: rest =>
      let s := record_trace_outcome (pop s rest) (pf_trace_index frame) result output id in
      if negb (result_is_ok result) then s else commit_or_bubble s (pf_effects frame)
  end.

(** What [create_end] adds to the frame *)
Definition created (inputs : CreateInputs) (address : option Address) : Effects :=
  {| fx_transfers := [];
     fx_creations := match address with Some addr => [(cr_caller inputs, addr)] | None => [] end; fx_destructs := [] |}.

Definition create_end (s : SimulationInspector) (inputs : CreateInputs) (result : InstructionResult) (output : bytes)
    (address : option Address) : SimulationInspector :=
  match pending_frames s with
  | [] => with_error s "simulation inspector CREATE ended without a pending frame"
  | frame :: rest =>
      let s := record_trace_outcome (pop s rest) (pf_trace_index frame) result output
                 (fun t => if result_is_ok result then with_to t address else t) in
      if negb (result_is_ok result) then s else commit_or_bubble s (extend (pf_effects frame) (created inputs address))
  end.

Definition destroyed (contract : Address) : Effects := {| fx_transfers := []; fx_creations := []; fx_destructs := [contract] |}.
Definition selfdestruct (s : SimulationInspector) (contract : Address) : SimulationInspector := commit_or_bubble s (destroyed contract).

(** ** Executions *)

(** What happens in a frame, in order: calls and creations, each with what happens in it and
    how it ends, and self-destructs. *)
Inductive item :=
| Call (inputs : CallInputs) (body : list item) (result : InstructionResult) (output : bytes)
| Create (inputs : CreateInputs) (body : list item) (result : InstructionResult) (output : bytes) (address : option Address)
| Destroy (contract : Address).

(** The hooks that the EVM calls *)
Fixpoint run (s : SimulationInspector) (i : item) : SimulationInspector :=
  match i with
  | Call inputs body result output => call_end (foldl run (hook_call s inputs) body) result output
  | Create inputs body result output address => create_end (foldl run (hook_create s inputs) body) inputs result output address
  | Destroy contract => selfdestruct s contract
  end.

Definition extends (l : list Effects) : Effects := foldr extend no_effects l.

(** What the execution leaves behind: a frame that does not succeed leaves nothing, whatever
    succeeded in it. *)
Fixpoint landed (i : item) : Effects :=
  match i with
  | Call inputs body result _ =>
      if result_is_ok result then extend (call_effects inputs) (extends (map landed body)) else no_effects
  | Create inputs body result _ address =>
      if result_is_ok result then extend (extends (map landed body)) (created inputs address) else no_effects
  | Destroy contract => destroyed contract
  end.

(** The frames of the execution as a tree of entries *)
Inductive tree := Node (t : RawTrace) (children : list tree).

Fixpoint frames (depth : nat) (i : item) : list tree :=
  match i with
  | Call inputs body result output =>
      [Node (outcome_trace (call_trace inputs depth) result output) (concat (map (frames (S depth)) body))]
  | Create inputs body result output address =>
      let t := outcome_trace (create_trace inputs depth) result output in
      [Node (if result_is_ok result then with_to t address else t) (concat (map (frames (S depth)) body))]
  | Destroy _ => []
  end.

Fixpoint flatten (t : tree) : list RawTrace :=
  match t with Node e children => e :: concat (map flatten children) end.
Definition flatten_all (l : list tree) : list RawTrace := concat (map flatten l).

(** ** The inspector reports what landed *)

Lemma extend_nil_l a : extend no_effects a = a.
Proof. by destruct a. Qed.
Lemma extend_nil_r a : extend a no_effects = a.
Proof. unfold extend. cbn. rewrite !app_nil_r. by destruct a. Qed.
Lemma extend_assoc a b c : extend a (extend b c) = extend (extend a b) c.
Proof. unfold extend. cbn. by rewrite !app_assoc. Qed.

(** The inspector with more entries and with the effects of something that succeeded *)
Definition grow (s : SimulationInspector) (ts : list RawTrace) (fx : Effects) : SimulationInspector :=
  commit_or_bubble {| traces := traces s ++ ts; committed := committed s; pending_frames := pending_frames s; trace_error := trace_error s |} fx.

Lemma grow_grow s ts fx ts' fx' : grow (grow s ts fx) ts' fx' = grow s (ts ++ ts') (extend fx fx').
Proof.
  unfold grow, commit_or_bubble. destruct (pending_frames s) as [|p rest] eqn:Hp; cbn; by rewrite ?extend_assoc, ?app_assoc.
Qed.

Lemma grow_nil s : grow s [] no_effects = s.
Proof.
  unfold grow, commit_or_bubble. destruct s as [ts c [|[fx i] rest] e]; cbn; by rewrite ?extend_nil_r, ?app_nil_r.
Qed.

(** A frame that ends: the entry it pushed is found where it was pushed. *)
Lemma record_pushed s t rest ts fx result output after :
  record_trace_outcome (pop (grow (push_frame s t fx) ts no_effects) rest) (length (traces s)) result output after =
  {| traces := traces s ++ after (outcome_trace t result output) :: ts; committed := committed s;
     pending_frames := rest; trace_error := trace_error s |}.
Proof.
  unfold record_trace_outcome, grow, push_frame. cbn. rewrite <-app_assoc. cbn [app].
  rewrite list_lookup_middle by done. cbn. f_equal. by rewrite insert_app_r_alt, Nat.sub_diag by lia.
Qed.

Lemma item_ind' (P : item -> Prop) :
  (forall inputs body result output, Forall P body -> P (Call inputs body result output)) ->
  (forall inputs body result output address, Forall P body -> P (Create inputs body result output address)) ->
  (forall contract, P (Destroy contract)) -> forall i, P i.
Proof.
  intros Hcall Hcreate Hdestroy. fix IH 1. intros [inputs body result output|inputs body result output address|contract].
  - apply Hcall. induction body; constructor; [apply IH|done].
  - apply Hcreate. induction body; constructor; [apply IH|done].
  - apply Hdestroy.
Qed.

Definition depth_of (s : SimulationInspector) : nat := length (pending_frames s).

Lemma grow_depth s ts fx : depth_of (grow s ts fx) = depth_of s.
Proof. unfold grow, commit_or_bubble, depth_of. by destruct (pending_frames s). Qed.

Definition runs_as (i : item) : Prop :=
  forall s, run s i = grow s (flatten_all (frames (depth_of s) i)) (landed i).

Lemma run_body body : Forall runs_as body -> forall s,
  foldl run s body = grow s (flatten_all (concat (map (frames (depth_of s)) body))) (extends (map landed body)).
Proof.
  induction 1 as [|i body Hi Hb IH]; intros s; cbn [foldl map concat extends foldr]; [by rewrite grow_nil|].
  rewrite IH, Hi, grow_grow, grow_depth. unfold flatten_all. by rewrite map_app, concat_app.
Qed.

Lemma grow_pushed s t fx ts fx' :
  grow (push_frame s t fx) ts fx' = grow (push_frame s t (extend fx fx')) ts no_effects.
Proof. unfold grow, push_frame, commit_or_bubble. cbn. by rewrite extend_nil_r. Qed.

Lemma pushed_top s t fx ts : pending_frames (grow (push_frame s t fx) ts no_effects) =
  {| pf_effects := fx; pf_trace_index := length (traces s) |} :: pending_frames s.
Proof. unfold grow, push_frame, commit_or_bubble. cbn. by rewrite extend_nil_r. Qed.

Lemma run_spec i : runs_as i.
Proof.
  induction i as [inputs body result output IH|inputs body result output address IH|contract] using item_ind'; intros s; cbn [run landed frames].
  - rewrite (run_body body IH). unfold hook_call. rewrite grow_pushed. unfold call_end. rewrite pushed_top, record_pushed.
    cbn [pf_effects depth_of push_frame pending_frames length]. unfold flatten_all. cbn [map concat flatten]. rewrite app_nil_r. fold (depth_of s).
    destruct (result_is_ok result); cbn [negb].
    + done.
    + unfold grow, commit_or_bubble, id. destruct (pending_frames s) as [|[fx k] rest]; cbn; by rewrite ?extend_nil_r.
  - rewrite (run_body body IH). unfold hook_create. rewrite grow_pushed, extend_nil_l. unfold create_end. rewrite pushed_top, record_pushed.
    cbn [pf_effects depth_of push_frame pending_frames length]. unfold flatten_all. cbn [map concat flatten]. rewrite app_nil_r. fold (depth_of s).
    destruct (result_is_ok result); cbn [negb].
    + done.
    + unfold grow, commit_or_bubble. destruct (pending_frames s) as [|[fx k] rest]; cbn; by rewrite ?extend_nil_r.
  - unfold grow, flatten_all. cbn. rewrite app_nil_r. by destruct s.
Qed.

(** C25: The inspector of a simulation ends with exactly what the execution left behind: its transfers,
    creations and self-destructs are those of frames that succeeded inside frames that all
    succeeded, in order; its trace has every frame in preorder with its depth and outcome; and it never
    finds its stack or its trace inconsistent. *)
Theorem inspector_reports_landed i :
  run inspector_default i =
  {| traces := flatten_all (frames 0 i); committed := landed i; pending_frames := []; trace_error := None |}.
Proof. rewrite run_spec. unfold grow, commit_or_bubble. cbn. by rewrite extend_nil_l. Qed.
End hooks.

(** ** The cause of a failure *)

Definition EXECUTE_USER_OP_SELECTOR : bytes := [0x7b; 0xb3; 0x74; 0x28].
Definition EXEC_TRANSACTION_FROM_MODULE_SELECTOR : bytes := [0x46; 0x87; 0x21; 0xa7].
Definition EXECUTION_FAILED_SELECTOR : bytes := [0xac; 0xfd; 0xb4; 0x44].

Inductive FrameFailure := FailRevert (output : bytes) | FailHalt (reason : InstructionResult).

Definition is_module_call (t : RawTrace) : bool :=
  bool_decide (rt_outcome t = Some Success) && bool_decide (rt_selector t = Some EXEC_TRANSACTION_FROM_MODULE_SELECTOR).
Definition has_failed (t : RawTrace) : bool :=
  match rt_outcome t with Some Reverted | Some Halted => true | _ => false end.
Definition is_wrapped (t : RawTrace) (output : bytes) : bool :=
  bool_decide (output = EXECUTION_FAILED_SELECTOR) && bool_decide (rt_selector t = Some EXECUTE_USER_OP_SELECTOR).

(** The loops over the entries after a frame; [i] is the index of the first. *)
Fixpoint last_child_from (parent_depth i : nat) (l : list RawTrace) (last : option nat) : option nat :=
  match l with
  | [] => last
  | t :: l =>
      if (rt_depth t <=? parent_depth)%nat then last
      else last_child_from parent_depth (S i) l (if (rt_depth t =? S parent_depth)%nat then Some i else last)
  end.
Definition last_direct_child (ts : list RawTrace) (parent : nat) (t : RawTrace) : option nat :=
  last_child_from (rt_depth t) (S parent) (drop (S parent) ts) None.

(** The first successful module call below a frame *)
Fixpoint module_call_from (frame_depth i : nat) (l : list RawTrace) : option nat :=
  match l with
  | [] => None
  | t :: l =>
      if (rt_depth t <=? frame_depth)%nat then None
      else if is_module_call t then Some i else module_call_from frame_depth (S i) l
  end.

(** [None] is the failure of an index or of the fuel; inside it, [None] is the answer. *)
Definition answer : Type := option (option FrameFailure).

Section loop.
(** The recursive calls *)
Context (frame_failure safe_transaction_failure : nat -> answer).

Fixpoint target_failure_from (parent_depth i : nat) (l : list RawTrace) : answer :=
  match l with
  | [] => Some None
  | t :: l =>
      if (rt_depth t <=? parent_depth)%nat then Some None
      else if (rt_depth t =? S parent_depth)%nat then
        if is_module_call t then
          match safe_transaction_failure i with
          | None => None
          | Some (Some candidate) => Some (Some candidate)
          | Some None => target_failure_from parent_depth (S i) l
          end
        else if has_failed t then frame_failure i
        else target_failure_from parent_depth (S i) l
      else target_failure_from parent_depth (S i) l
  end.
End loop.

(** The two functions call each other, always at a later index: [fuel] bounds the calls. *)
Fixpoint frame_failure (fuel : nat) (ts : list RawTrace) (index : nat) : answer :=
  match fuel with
  | O => None
  | S fuel =>
      match ts !! index with
      | None => None
      | Some frame =>
          match rt_outcome frame with
          | Some Success | None => Some None
          | Some Halted => Some (FailHalt <$> rt_halt_reason frame)
          | Some Reverted =>
              match rt_revert_output frame with
              | Some output =>
                  if is_wrapped frame output then
                    match module_call_from (rt_depth frame) (S index) (drop (S index) ts) with
                    | None => Some (Some (FailRevert output))
                    | Some descendant =>
                        match safe_transaction_failure fuel ts descendant with
                        | None => None
                        | Some failure => Some (Some (default (FailRevert output) failure))
                        end
                    end
                  else Some (Some (FailRevert output))
              | None =>
                  match last_direct_child ts index frame with
                  | None => Some None
                  | Some child => frame_failure fuel ts child
                  end
              end
          end
      end
  end
with safe_transaction_failure (fuel : nat) (ts : list RawTrace) (index : nat) : answer :=
  match fuel with
  | O => None
  | S fuel =>
      match ts !! index with
      | None => None
      | Some frame =>
          target_failure_from (frame_failure fuel ts) (safe_transaction_failure fuel ts) (rt_depth frame) (S index) (drop (S index) ts)
      end
  end.

Definition terminal_failure (ts : list RawTrace) : answer :=
  match ts with [] => Some None | _ => frame_failure (length ts) ts 0 end.

(** *** The same on the tree *)

(** What is known of a frame: the cause of its failure; as a module call, the failure of its
    target; and that answer for the first successful module call among it and its descendants. *)
Record Causes := { ca_entry : RawTrace; ca_failure : option FrameFailure; ca_target : option FrameFailure;
                   ca_module : option (option FrameFailure) }.

(** The first child that failed, looking into module calls; a child that failed ends the search. *)
Fixpoint target_of (children : list Causes) : option FrameFailure :=
  match children with
  | [] => None
  | c :: children =>
      if is_module_call (ca_entry c) then
        match ca_target c with Some failure => Some failure | None => target_of children end
      else if has_failed (ca_entry c) then ca_failure c
      else target_of children
  end.
Fixpoint first_module (children : list Causes) : option (option FrameFailure) :=
  match children with
  | [] => None
  | c :: children => match ca_module c with Some r => Some r | None => first_module children end
  end.

Definition failure_of (t : RawTrace) (children : list Causes) : option FrameFailure :=
  match rt_outcome t with
  | Some Success | None => None
  | Some Halted => FailHalt <$> rt_halt_reason t
  | Some Reverted =>
      match rt_revert_output t with
      | Some output =>
          if is_wrapped t output then Some (default (FailRevert output) (default None (first_module children)))
          else Some (FailRevert output)
      | None => match last children with Some c => ca_failure c | None => None end
      end
  end.

Fixpoint causes (t : tree) : Causes :=
  match t with
  | Node e children =>
      let cs := map causes children in
      {| ca_entry := e; ca_failure := failure_of e cs; ca_target := target_of cs;
         ca_module := if is_module_call e then Some (target_of cs) else first_module cs |}
  end.

(** *** The selection by depth is the selection on the tree *)

Definition entry (t : tree) : RawTrace := match t with Node e _ => e end.
Definition children (t : tree) : list tree := match t with Node _ cs => cs end.

Lemma tree_ind' (P : tree -> Prop) : (forall e cs, Forall P cs -> P (Node e cs)) -> forall t, P t.
Proof. intros H. fix IH 1. intros [e cs]. apply H. induction cs; constructor; [apply IH|done]. Qed.

(** The depths of the entries are those of the tree. *)
Inductive depth_ok : nat -> tree -> Prop :=
| depth_node d e cs : rt_depth e = d -> Forall (depth_ok (S d)) cs -> depth_ok d (Node e cs).

Lemma depth_inv d t : depth_ok d t -> rt_depth (entry t) = d /\ Forall (depth_ok (S d)) (children t).
Proof. by intros []. Qed.

(** What follows a subtree in preorder starts no deeper than its root. *)
Definition post_ok (d : nat) (l : list RawTrace) : Prop := match l with [] => True | t :: _ => (rt_depth t <= d)%nat end.

Lemma post_ok_mono d d' l : (d <= d')%nat -> post_ok d l -> post_ok d' l.
Proof. destruct l; cbn; lia. Qed.

Lemma flatten_head t : flatten t = entry t :: flatten_all (children t).
Proof. by destruct t. Qed.

Lemma flatten_all_cons t l : flatten_all (t :: l) = flatten t ++ flatten_all l.
Proof. done. Qed.
Lemma flatten_all_app l k : flatten_all (l ++ k) = flatten_all l ++ flatten_all k.
Proof. unfold flatten_all. by rewrite map_app, concat_app. Qed.

Lemma deep d t : depth_ok d t -> Forall (fun e => d <= rt_depth e)%nat (flatten t).
Proof.
  revert d. induction t as [e cs IH] using tree_ind'. intros d Hd. apply depth_inv in Hd as [He Hc]. cbn [entry children] in *.
  rewrite flatten_head. constructor; [cbn; lia|]. cbn [children]. clear He. induction cs as [|c cs IHcs]; [constructor|].
  rewrite flatten_all_cons. inversion_clear IH as [|? ? H1 H2]. inversion_clear Hc as [|? ? H3 H4].
  apply Forall_app_2; [|by apply IHcs]. apply (Forall_impl _ _ _ (H1 _ H3)). lia.
Qed.

Lemma post_children d cs post : Forall (depth_ok (S d)) cs -> post_ok d post -> post_ok (S d) (flatten_all cs ++ post).
Proof.
  intros Hc Hp. destruct Hc as [|c cs Hc Hcs]; cbn [app]; [by apply (post_ok_mono d); [lia|]|].
  rewrite flatten_all_cons, flatten_head. cbn. destruct (depth_inv _ _ Hc) as [-> _]. lia.
Qed.

(** The entries below the children of a frame are passed over. *)
Lemma last_child_skip d xs rest : Forall (fun e => S (S d) <= rt_depth e)%nat xs -> forall i l,
  last_child_from d i (xs ++ rest) l = last_child_from d (i + length xs) rest l.
Proof.
  induction 1 as [|x xs Hx Hxs IH]; intros i l; cbn [app length]; [by rewrite Nat.add_0_r|]. cbn [last_child_from].
  rewrite (proj2 (Nat.leb_gt _ _)), (proj2 (Nat.eqb_neq _ _)) by lia. rewrite IH. f_equal. lia.
Qed.

Lemma target_skip F G d xs rest : Forall (fun e => S (S d) <= rt_depth e)%nat xs -> forall i,
  target_failure_from F G d i (xs ++ rest) = target_failure_from F G d (i + length xs) rest.
Proof.
  induction 1 as [|x xs Hx Hxs IH]; intros i; cbn [app length]; [by rewrite Nat.add_0_r|]. cbn [target_failure_from].
  rewrite (proj2 (Nat.leb_gt _ _)), (proj2 (Nat.eqb_neq _ _)) by lia. rewrite IH. f_equal. lia.
Qed.

Lemma below_child d c : depth_ok (S d) c -> Forall (fun e => S (S d) <= rt_depth e)%nat (flatten_all (children c)).
Proof.
  intros [_ H]%depth_inv. induction H as [|x l Hx Hl IH]; [constructor|]. rewrite flatten_all_cons. apply Forall_app_2; [by apply deep|done].
Qed.

Lemma last_child_spec d cs c post : Forall (depth_ok (S d)) (cs ++ [c]) -> post_ok d post -> forall i l,
  last_child_from d i (flatten_all (cs ++ [c]) ++ post) l = Some (i + length (flatten_all cs))%nat.
Proof.
  intros Hc Hp. induction cs as [|x cs IH]; intros i l; cbn [app] in *.
  - inversion_clear Hc as [|? ? Hc' _]. rename Hc' into Hc. destruct (depth_inv _ _ Hc) as [Hd _]. rewrite flatten_all_cons, flatten_head.
    change (flatten_all []) with (@nil RawTrace). rewrite app_nil_r. cbn [app last_child_from length].
    rewrite Hd, (proj2 (Nat.leb_gt _ _)), Nat.eqb_refl by lia. rewrite last_child_skip by (by apply below_child).
    rewrite Nat.add_0_r. destruct post as [|t post]; cbn [last_child_from]; [done|]. cbn in Hp. by rewrite (proj2 (Nat.leb_le _ _)).
  - inversion_clear Hc as [|? ? Hx Hcs]. destruct (depth_inv _ _ Hx) as [Hd _]. rewrite !flatten_all_cons, flatten_head.
    cbn [app]. rewrite <-!app_assoc. cbn [last_child_from]. rewrite Hd, (proj2 (Nat.leb_gt _ _)), Nat.eqb_refl by lia.
    rewrite last_child_skip by (by apply below_child). rewrite IH by done. f_equal. cbn [length]. rewrite length_app. lia.
Qed.

Lemma last_child_none d post i : post_ok d post -> last_child_from d i post None = None.
Proof. destruct post as [|t post]; cbn; [done|]. intros H. by rewrite (proj2 (Nat.leb_le _ _)). Qed.

(** A subtree found at an index of the list *)
Record found (l : list RawTrace) (i : nat) (j : nat) (r : option FrameFailure) (size : nat) : Prop := {
  found_at : exists t pre post d, l = pre ++ flatten t ++ post /\ j = (i + length pre)%nat /\ depth_ok d t /\ post_ok d post /\
    r = ca_target (causes t) /\ (length (flatten t) <= size)%nat
}.

Lemma found_after l i j r size xs size' : found l (i + length xs) j r size -> (size <= size')%nat -> found (xs ++ l) i j r size'.
Proof.
  intros [(t&pre&post&d&->&->&Hd&Hp&Hr&Hs)] Hle. constructor. exists t, (xs ++ pre), post, d.
  rewrite <-app_assoc. split; [done|]. rewrite length_app. split; [lia|]. repeat (split; [done|]). lia.
Qed.

Lemma post_siblings k cs rest : Forall (depth_ok k) cs -> post_ok k rest -> post_ok k (flatten_all cs ++ rest).
Proof.
  intros [|c cs' Hc _] Hp; [done|]. rewrite flatten_all_cons, flatten_head. cbn. by destruct (depth_inv _ _ Hc) as [-> _].
Qed.

(** The search finds the first module call of a list of subtrees, or passes them over. *)
Definition searched (d i : nat) (l rest : list RawTrace) (r : option (option FrameFailure)) : Prop :=
  match r with
  | None => module_call_from d i (l ++ rest) = module_call_from d (i + length l) rest
  | Some r => exists j, module_call_from d i (l ++ rest) = Some j /\ found (l ++ rest) i j r (length l)
  end.

Lemma search_list d k cs : Forall (fun t => forall i rest, post_ok k rest -> searched d i (flatten t) rest (ca_module (causes t))) cs ->
  Forall (depth_ok k) cs -> forall i rest, post_ok k rest -> searched d i (flatten_all cs) rest (first_module (map causes cs)).
Proof.
  induction 1 as [|t cs Ht Hcs IH]; intros Hd i rest Hp; cbn [map first_module]; [cbn; by rewrite Nat.add_0_r|].
  inversion_clear Hd as [|? ? Hd1 Hd2]. rewrite flatten_all_cons. specialize (Ht i _ (post_siblings _ _ _ Hd2 Hp)).
  specialize (IH Hd2 (i + length (flatten t))%nat rest Hp). unfold searched in *. rewrite length_app, <-app_assoc.
  destruct (ca_module (causes t)) as [r|].
  - destruct Ht as (j&Hj&[(t'&pre&post&d'&Heq&?&?&?&?&?)]). exists j. split; [done|]. constructor. exists t', pre, post, d'.
    repeat (split; [done|]). lia.
  - rewrite Ht. destruct (first_module (map causes cs)) as [r|].
    + destruct IH as (j&Hj&Hf). exists j. split; [done|]. apply (found_after _ _ _ _ _ _ _ Hf). lia.
    + rewrite IH. f_equal. lia.
Qed.

Lemma search_tree d t : forall k, depth_ok k t -> (d < k)%nat -> forall i rest, post_ok k rest ->
  searched d i (flatten t) rest (ca_module (causes t)).
Proof.
  induction t as [e cs IH] using tree_ind'. intros k Hd Hlt i rest Hp. destruct (depth_inv _ _ Hd) as [He Hc]. cbn [entry children] in *.
  cbn [causes ca_module]. destruct (is_module_call e) eqn:Hm; unfold searched.
  - exists i. split; [rewrite flatten_head; cbn [app entry module_call_from]; by rewrite He, (proj2 (Nat.leb_gt _ _)), Hm by lia|].
    constructor. exists (Node e cs), [], rest, k. rewrite Nat.add_0_r. done.
  - assert (searched d (S i) (flatten_all cs) rest (first_module (map causes cs))) as Hs.
    { apply (search_list d (S k)); [|done|by apply (post_ok_mono k); [lia|]]. rewrite Forall_forall in IH, Hc |- *.
      intros t Ht i' rest' Hp'. apply (IH t Ht (S k)); [by apply Hc|lia|done]. }
    assert (flatten (Node e cs) = [e] ++ flatten_all cs) as -> by done. rewrite <-!app_assoc.
    assert (forall l, module_call_from d i ([e] ++ l) = module_call_from d (S i) l) as Hstep.
    { intros l. cbn [app module_call_from]. by rewrite He, (proj2 (Nat.leb_gt _ _)), Hm by lia. }
    rewrite Hstep. unfold searched in Hs. destruct (first_module (map causes cs)) as [r|].
    + destruct Hs as (j&Hj&Hf). exists j. split; [done|]. apply (found_after _ _ _ _ (length (flatten_all cs)) [e]); [|cbn; lia].
      cbn [length]. by rewrite Nat.add_1_r.
    + rewrite Hs. f_equal. cbn [app length]. lia.
Qed.

(** What the two functions compute at the index of a subtree *)
Definition computes (fuel : nat) (t : tree) : Prop :=
  forall ts pre post d, depth_ok d t -> post_ok d post -> ts = pre ++ flatten t ++ post ->
    frame_failure fuel ts (length pre) = Some (ca_failure (causes t)) /\
    safe_transaction_failure fuel ts (length pre) = Some (ca_target (causes t)).

Lemma target_spec fuel d cs ts : Forall (computes fuel) cs -> Forall (depth_ok (S d)) cs -> forall pre post,
  post_ok d post -> ts = pre ++ flatten_all cs ++ post ->
  target_failure_from (frame_failure fuel ts) (safe_transaction_failure fuel ts) d (length pre) (flatten_all cs ++ post) =
    Some (target_of (map causes cs)).
Proof.
  induction 1 as [|c cs Hc Hcs IH]; intros Hd pre post Hp Hts; cbn [map target_of].
  { change (flatten_all []) with (@nil RawTrace). cbn [app]. destruct post as [|t post]; cbn [target_failure_from]; [done|].
    cbn in Hp. by rewrite (proj2 (Nat.leb_le _ _)). }
  inversion_clear Hd as [|? ? Hd1 Hd2]. destruct (depth_inv _ _ Hd1) as [He _]. rewrite flatten_all_cons, <-app_assoc in Hts |- *.
  destruct (Hc ts pre (flatten_all cs ++ post) (S d) Hd1) as [Hf Hs]; [by apply post_children|done|].
  assert (target_failure_from (frame_failure fuel ts) (safe_transaction_failure fuel ts) d (S (length pre))
    (flatten_all (children c) ++ flatten_all cs ++ post) = Some (target_of (map causes cs))) as Hrest.
  { rewrite target_skip by (by apply below_child).
    replace (S (length pre) + length (flatten_all (children c)))%nat with (length (pre ++ flatten c))
      by (rewrite length_app, flatten_head; cbn [length]; lia).
    apply IH; [done|done|]. by rewrite <-app_assoc. }
  rewrite flatten_head. cbn [app target_failure_from]. rewrite He, (proj2 (Nat.leb_gt _ _)), Nat.eqb_refl by lia.
  assert (ca_entry (causes c) = entry c) as -> by (by destruct c).
  destruct (is_module_call (entry c)).
  - rewrite Hs. destruct (ca_target (causes c)); [done|exact Hrest].
  - destruct (has_failed (entry c)); [exact Hf|exact Hrest].
Qed.

Lemma failure_spec fuel e cs : (forall t, (length (flatten t) <= fuel)%nat -> computes fuel t) ->
  (length (flatten (Node e cs)) <= S fuel)%nat -> computes (S fuel) (Node e cs).
Proof.
  intros IH Hsize ts pre post d Hd Hp Hts. destruct (depth_inv _ _ Hd) as [He Hc]. cbn [entry children] in *.
  rewrite flatten_head in Hsize, Hts. cbn [entry children length] in Hsize, Hts.
  assert (ts !! length pre = Some e) as Hlook by (rewrite Hts; cbn [app]; by apply list_lookup_middle).
  assert (drop (S (length pre)) ts = flatten_all cs ++ post) as Hdrop.
  { rewrite Hts. cbn [app]. change (e :: ?l) with ([e] ++ l). rewrite app_assoc, drop_app_length'; [done|]. rewrite length_app. cbn. lia. }
  assert (ts = (pre ++ [e]) ++ flatten_all cs ++ post) as Hts' by (by rewrite Hts, <-app_assoc).
  assert (Forall (computes fuel) cs) as Hcs.
  { apply Forall_forall. intros c Hin. apply IH. apply list_elem_of_split in Hin as (l1&l2&->).
    rewrite flatten_all_app, flatten_all_cons, !length_app in Hsize. lia. }
  assert (length (pre ++ [e]) = S (length pre)) as Hlen by (rewrite length_app; cbn; lia).
  cbn [frame_failure safe_transaction_failure causes ca_failure ca_target]. rewrite Hlook, Hdrop, He. split.
  - unfold failure_of. destruct (rt_outcome e) as [[| |]|]; try done. destruct (rt_revert_output e) as [output|].
    + destruct (is_wrapped e output); [|done].
      assert (searched d (S (length pre)) (flatten_all cs) post (first_module (map causes cs))) as Hs.
      { apply (search_list d (S d)); [|done|by apply (post_ok_mono d); [lia|]]. rewrite Forall_forall in Hc |- *.
        intros t Ht i rest Hr. apply (search_tree d t (S d)); [by apply Hc|lia|done]. }
      unfold searched in Hs. destruct (first_module (map causes cs)) as [r|].
      * destruct Hs as (j&->&[(t&pre'&post'&d'&Heq&->&Hd'&Hp'&->&Hle)]).
        destruct (IH t ltac:(lia) ts ((pre ++ [e]) ++ pre') post' d' Hd' Hp') as [_ Hsafe]; [by rewrite <-app_assoc, <-Heq|].
        rewrite length_app, Hlen in Hsafe. by rewrite Hsafe.
      * rewrite Hs. destruct post as [|t post]; cbn [module_call_from]; [done|]. cbn in Hp. by rewrite (proj2 (Nat.leb_le _ _)).
    + unfold last_direct_child. rewrite Hdrop, He. destruct cs as [|c cs _] using rev_ind.
      { cbn [map last]. by rewrite last_child_none. }
      rewrite last_child_spec by done. rewrite map_app. cbn [map]. rewrite last_snoc. rewrite Forall_app in Hcs. destruct Hcs as [_ Hcc].
      inversion_clear Hcc as [|? ? Hcc' _]. rewrite Forall_app in Hc. destruct Hc as [_ Hc]. inversion_clear Hc as [|? ? Hcd _].
      rewrite <-Hlen, <-length_app. eapply (Hcc' ts _ post (S d)); [done|by apply (post_ok_mono d); [lia|]|].
      rewrite Hts', flatten_all_app, flatten_all_cons. change (flatten_all []) with (@nil RawTrace). by rewrite app_nil_r, <-!app_assoc.
  - rewrite <-Hlen. by apply target_spec.
Qed.

Lemma computes_all fuel : forall t, (length (flatten t) <= fuel)%nat -> computes fuel t.
Proof.
  induction fuel as [|fuel IH]; intros [e cs] Hsize; [cbn in Hsize; lia|]. by apply failure_spec.
Qed.

Lemma frames_depth slice i : forall d, Forall (depth_ok d) (frames slice d i).
Proof.
  induction i as [inputs body result output IH|inputs body result output address IH|contract] using item_ind'; intros d; cbn [frames]; [| |constructor].
  - constructor; [|constructor]. constructor; [done|]. apply Forall_concat, Forall_fmap, Forall_forall. intros b Hb.
    rewrite Forall_forall in IH. by apply IH.
  - constructor; [|constructor]. constructor; [by destruct (result_is_ok result)|]. apply Forall_concat, Forall_fmap, Forall_forall. intros b Hb.
    rewrite Forall_forall in IH. by apply IH.
Qed.

(** C15: The cause of a failure that is selected from the flat trace by depths is the one that the tree
    of calls gives: the search always ends with an answer, and for the whole transaction it is the
    cause of the root frame, as [failure_of] explains it from its children. *)
Theorem terminal_failure_on_tree slice inputs body result output :
  let root := Call inputs body result output in
  terminal_failure (traces (run slice inspector_default root)) =
  Some (failure_of (outcome_trace (call_trace slice inputs 0) result output)
          (map causes (concat (map (frames slice 1) body)))).
Proof.
  intros root. rewrite run_spec. set (t := Node (outcome_trace (call_trace slice inputs 0) result output) (concat (map (frames slice 1) body))).
  assert (traces (grow inspector_default (flatten_all (frames slice (depth_of inspector_default) root)) (landed root)) = flatten t) as ->.
  { cbn. by rewrite app_nil_r. }
  assert (depth_ok 0 t) as Hd by (pose proof (frames_depth slice root 0) as H; by inversion_clear H).
  destruct (computes_all _ t (le_n _) (flatten t) [] [] 0%nat Hd I) as [H _]; [by rewrite app_nil_r|]. exact H.
Qed.
