(* ===== verification/SimulateApi.v ===== *)
(** * Simulation of user operations: logs, reasons and the call ([src/crates/rpc/src/simulate.rs],
    [simulate_consts.rs])

    The rows that are read off the logs, the map of contract management, the decoding of
    revert data, the metadata of tokens, and [simulate_blocking], which puts them together with
    the inspector of [Simulate].  The node, the EVM and the [lru] cache are arguments.  Numbers that
    the response prints in decimal or hexadecimal are kept as numbers. *)

From S2P Require Import Prelude Encoding ProofTypes Attestation Simulate.

(** ** Assets *)

Inductive AssetType := Native | Erc20 | Erc721 | Erc1155.
Record AssetInfo := { as_address : Address; as_symbol : bytes; as_name : bytes; as_decimals : Z; as_type : AssetType }.
Record AssetChange := {
  ac_type : AssetType; ac_from : Address; ac_to : Address; ac_raw_amount : Z; ac_token_id : option Z; ac_asset : AssetInfo
}.
Record ExposureChange := {
  ec_owner : Address; ec_spender : Address; ec_raw_amount : Z; ec_approved_for_all : bool; ec_asset : AssetInfo
}.
Record Log := { lg_address : Address; lg_topics : list B256; lg_data : bytes }.

Definition MAX_SIMULATION_GAS : Z := 8000000.
Definition MAX_BATCH_TRANSFERS : Z := 1000.
Definition MAX_LOG_ASSET_CHANGES : nat := 1000.
Definition MAX_METADATA_STRING_BYTES : Z := 256.

Definition TRANSFER_TOPIC : B256 := 0xddf252ad1be2c89b69c2b068fc378daa952ba7f163c4a11628f55a4df523b3ef.
Definition TRANSFER_SINGLE_TOPIC : B256 := 0xc3d58168c5ae7397731d063d5bbf3d657854427343f4c083240f7aacaa2d0f62.
Definition TRANSFER_BATCH_TOPIC : B256 := 0x4a39dc06d4c0dbc64b70af90fd698a233a518aa5d07e595d983b8c0526c8f7fb.
Definition APPROVAL_TOPIC : B256 := 0x8c5be1e5ebec7d5bd14f71427d1e84f3dd0314c0f7b2291e5b200ac8c7c3b925.
Definition APPROVAL_FOR_ALL_TOPIC : B256 := 0x17307eab39ab6107e8899845ad3d59bd9653f200f220920489ca2b5937696c31.

(** [Address::from_slice(&topic[12..])] *)
Definition address_from_topic (topic : B256) : Address := topic mod 2 ^ 160.
Definition placeholder_asset (contract : Address) (t : AssetType) : AssetInfo :=
  {| as_address := contract; as_symbol := []; as_name := []; as_decimals := 0; as_type := t |}.
Definition topic (l : Log) (i : nat) : B256 := nth i (lg_topics l) 0.

(** [data.get(a..b)] *)
Definition get_range (data : bytes) (a b : Z) : option bytes :=
  if (a <=? b) && (b <=? Z.of_nat (length data)) then Some (take (Z.to_nat (b - a)) (drop (Z.to_nat a) data)) else None.
(** [+] on [usize] wraps around in a release build. *)
Definition usize_add (a b : Z) : Z := (a + b) mod 2 ^ 64.
(** [U256::from_be_slice(s).try_into::<usize>()] *)
Definition as_usize (s : bytes) : option Z := to_u64 (be_val s).

(** The loop over the pairs, from [i] *)
Fixpoint batch_pairs (data : bytes) (ids_offset values_offset : Z) (i n : nat) : option (list (Z * Z)) :=
  match n with
  | O => Some []
  | S n =>
      let id_start := usize_add (usize_add ids_offset 32) (Z.of_nat i * 32) in
      let val_start := usize_add (usize_add values_offset 32) (Z.of_nat i * 32) in
      id_slice ← get_range data id_start (usize_add id_start 32);
      val_slice ← get_range data val_start (usize_add val_start 32);
      rest ← batch_pairs data ids_offset values_offset (S i) n;
      Some ((be_val id_slice, be_val val_slice) :: rest)
  end.

(** The length at an offset *)
Definition length_at (data : bytes) (offset : Z) : option Z := get_range data offset (usize_add offset 32) ≫= as_usize.

Definition decode_batch_transfer_data (data : bytes) : result (option (list (Z * Z))) string :=
  if (length data <? 128)%nat then Ok None
  else
    match as_usize (take 32 data), as_usize (take 32 (drop 32 data)) with
    | Some ids_offset, Some values_offset =>
        match length_at data ids_offset, length_at data values_offset with
        | Some ids_len, Some values_len =>
            if negb (ids_len =? values_len) then Ok None
            else if MAX_BATCH_TRANSFERS <? ids_len then Err "erc1155 batch transfer exceeds maximum of 1000 entries"
            else Ok (batch_pairs data ids_offset values_offset 0 (Z.to_nat ids_len))
        | _, _ => Ok None
        end
    | _, _ => Ok None
    end.

Definition ensure_log_asset_change_capacity (current additional : nat) : result unit string :=
  if (MAX_LOG_ASSET_CHANGES <? current + additional)%nat then Err "log asset change limit exceeded" else Ok tt.

Definition asset_row (t : AssetType) (log : Log) (from to : Address) (amount : Z) (id : option Z) : AssetChange :=
  {| ac_type := t; ac_from := from; ac_to := to; ac_raw_amount := amount; ac_token_id := id;
     ac_asset := placeholder_asset (lg_address log) t |}.

(** The rows of one log, before their number is checked *)
Definition rows_of_log (log : Log) : result (list AssetChange) string :=
  let from i := address_from_topic (topic log i) in
  let n := length (lg_topics log) in
  let size := length (lg_data log) in
  if (n =? 0)%nat then Ok []
  else if topic log 0 =? TRANSFER_TOPIC then
    if (n =? 4)%nat then Ok [asset_row Erc721 log (from 1%nat) (from 2%nat) 1 (Some (topic log 3))]
    else if (n =? 3)%nat && (32 <=? size)%nat then
      Ok [asset_row Erc20 log (from 1%nat) (from 2%nat) (be_val (take 32 (lg_data log))) None]
    else Ok []
  else if (topic log 0 =? TRANSFER_SINGLE_TOPIC) && (n =? 4)%nat && (64 <=? size)%nat then
    Ok [asset_row Erc1155 log (from 2%nat) (from 3%nat) (be_val (take 32 (drop 32 (lg_data log)))) (Some (be_val (take 32 (lg_data log))))]
  else if (topic log 0 =? TRANSFER_BATCH_TOPIC) && (n =? 4)%nat then
    let? pairs := decode_batch_transfer_data (lg_data log) in
    Ok (map (fun '(id, value) => asset_row Erc1155 log (from 2%nat) (from 3%nat) value (Some id)) (default [] pairs))
  else Ok [].

(** For a log without rows the check passes: the rows so far are within the limit. *)
Fixpoint parse_asset_changes_from (changes : list AssetChange) (logs : list Log) : result (list AssetChange) string :=
  match logs with
  | [] => Ok changes
  | log :: logs =>
      let? rows := rows_of_log log in
      let? _ := ensure_log_asset_change_capacity (length changes) (length rows) in
      parse_asset_changes_from (changes ++ rows) logs
  end.
Definition parse_asset_changes (logs : list Log) : result (list AssetChange) string := parse_asset_changes_from [] logs.

Definition exposure_row (log : Log) (t : AssetType) (amount : Z) (all : bool) : ExposureChange :=
  {| ec_owner := address_from_topic (topic log 1); ec_spender := address_from_topic (topic log 2); ec_raw_amount := amount;
     ec_approved_for_all := all; ec_asset := placeholder_asset (lg_address log) t |}.

Definition exposure_of_log (log : Log) : list ExposureChange :=
  let n := length (lg_topics log) in
  if (n =? 0)%nat then []
  else if topic log 0 =? APPROVAL_TOPIC then
    if (n =? 3)%nat && (32 <=? length (lg_data log))%nat then [exposure_row log Erc20 (be_val (take 32 (lg_data log))) false]
    else if (n =? 4)%nat then [exposure_row log Erc721 1 false]
    else []
  else if (topic log 0 =? APPROVAL_FOR_ALL_TOPIC) && (n =? 3)%nat then
    let approved := match lg_data log !! 31%nat with Some b => negb (b =? 0) | None => false end in
    [exposure_row log Erc721 (if approved then U256_MAX else 0) approved]
  else [].
Definition parse_exposure_changes (logs : list Log) : list ExposureChange := concat (map exposure_of_log logs).

(** ** Contract management *)

Inductive ContractManagementType := ContractCreation | SelfDestructed | ProxyUpgrade | OwnershipChange | ModuleChange | Authorization.
#[export] Instance ContractManagementType_eq_dec : EqDecision ContractManagementType.
Proof. solve_decision. Defined.
Record ContractManagementAction := { cm_type : ContractManagementType; cm_deployer : option Address }.
Definition action (t : ContractManagementType) : ContractManagementAction := {| cm_type := t; cm_deployer := None |}.

Definition UPGRADED_TOPIC : B256 := 0xbc7cd75a20ee27fd9adebab32041f755214dbc6bffa90cc0225b39da2e5c2d3b.
Definition BEACON_UPGRADED_TOPIC : B256 := 0x1cf3b03a6cf19fa2baba4df148e9dcabedea7f8a5c07840e207e5c089be95d3e.
Definition ADMIN_CHANGED_TOPIC : B256 := 0x7e644d79422f17c01e4894b5f4f588d331ebfa28653d42ae832dc59e38c9798f.
Definition OWNERSHIP_TRANSFERRED_TOPIC : B256 := 0x8be0079c531659141344cd1fd0a4f28419497f9722a3daafe3b4186f6b6457e0.
Definition SAFE_ADDED_OWNER_TOPIC : B256 := 0x9465fa0c962cc76958e6373a993326400c1c94f8be2fe3a952adfa7f60b2ea26.
Definition SAFE_REMOVED_OWNER_TOPIC : B256 := 0xf8d49fc529812e9a7c5c50e69c20f0dccc0db8fa95c98bc58cc9a4f1c1299eaf.
Definition SAFE_CHANGED_THRESHOLD_TOPIC : B256 := 0x610f7ff2b304ae8903c3de74c60c6ab1f7d6226b3f52c5161905bb5ad4039c93.
Definition SAFE_ENABLED_MODULE_TOPIC : B256 := 0xecdf3a3effea5783a3c4c2140e677577666428d44ed9d474a0b3a4c9943f8440.
Definition SAFE_DISABLED_MODULE_TOPIC : B256 := 0xaab4fa2b463f581b2b32cb3b7e3b704b9ce37cc209b5fb4d77e593ace4054276.
Definition DIAMOND_CUT_TOPIC : B256 := 0x8faa70878671ccd212d20771b795c50af8fd3ff6cf27f4bde57e5d4de0aeb673.
Definition EIP1967_IMPLEMENTATION_SLOT : B256 := 0x360894a13ba1a3210667c828492db98dca3e2076cc3735a920a3ca505d382bbc.
Definition EIP1967_BEACON_SLOT : B256 := 0xa3f0ad74e5423aebfd80d3ef4346578335a9a72aeaee59ff6cb3582b35133d50.
Definition EIP1967_ADMIN_SLOT : B256 := 0xb53127684a568b3173ae13b9f8a6016e243e63b6e8ee1178d6a717850b5d6103.
Definition EIP1822_PROXIABLE_SLOT : B256 := 0xc5f16f0fcc639fa48a6947836d9850f504798523bf8c9a3a87d5876cf622bcf7.
Definition OZ_LEGACY_IMPLEMENTATION_SLOT : B256 := 0x7050c9e0f4ca769c69bd3a8ef740bc37934f8e2c036e5a723fd8ee048ed3f8c3.

Definition one_of (l : list B256) (x : B256) : bool := existsb (Z.eqb x) l.

Definition event_type (log : Log) : option ContractManagementType :=
  match lg_topics log with
  | [] => None
  | topic0 :: _ =>
      if one_of [UPGRADED_TOPIC; BEACON_UPGRADED_TOPIC; DIAMOND_CUT_TOPIC] topic0 then Some ProxyUpgrade
      else if topic0 =? ADMIN_CHANGED_TOPIC then Some OwnershipChange
      else if topic0 =? OWNERSHIP_TRANSFERRED_TOPIC then
        if (2 <=? length (lg_topics log))%nat && (address_from_topic (topic log 1) =? 0) then None else Some OwnershipChange
      else if one_of [SAFE_ADDED_OWNER_TOPIC; SAFE_REMOVED_OWNER_TOPIC; SAFE_CHANGED_THRESHOLD_TOPIC] topic0 then Some OwnershipChange
      else if one_of [SAFE_ENABLED_MODULE_TOPIC; SAFE_DISABLED_MODULE_TOPIC] topic0 then Some ModuleChange
      else None
  end.
Definition parse_contract_management_events (logs : list Log) : list (Address * ContractManagementAction) :=
  omap (fun log => (fun t => (lg_address log, action t)) <$> event_type log) logs.

Record Slot := { sl_key : Z; sl_original : Z; sl_present : Z }.
(** The state diff, in the order in which the hash maps are iterated *)
Definition StateDiff : Type := list (Address * list Slot).

Definition slot_type (s : Slot) : option ContractManagementType :=
  if sl_original s =? sl_present s then None
  else if one_of [EIP1967_IMPLEMENTATION_SLOT; EIP1967_BEACON_SLOT; EIP1822_PROXIABLE_SLOT; OZ_LEGACY_IMPLEMENTATION_SLOT] (sl_key s) then
    Some ProxyUpgrade
  else if sl_key s =? EIP1967_ADMIN_SLOT then Some OwnershipChange
  else None.
Definition parse_contract_management_state_diff (state : StateDiff) : list (Address * ContractManagementAction) :=
  concat (map (fun '(addr, slots) => omap (fun s => (fun t => (addr, action t)) <$> slot_type s) slots) state).

(** [entry(target).or_default().push(action)] *)
Definition push_action (m : gmap Address (list ContractManagementAction)) (ta : Address * ContractManagementAction)
    : gmap Address (list ContractManagementAction) :=
  <[fst ta := default [] (m !! fst ta) ++ [snd ta]]> m.

Definition recorded (m : gmap Address (list ContractManagementAction)) (ta : Address * ContractManagementAction) : bool :=
  existsb (fun a => bool_decide (cm_type a = cm_type (snd ta))) (default [] (m !! fst ta)).

Definition assemble_contract_management (creations : list (Address * Address)) (destructs : list Address) (logs : list Log)
    (state : StateDiff) : gmap Address (list ContractManagementAction) :=
  let created_in_tx : gset Address := list_to_set (creations.*2) in
  let m := foldl push_action ∅
    (map (fun '(deployer, deployed) => (deployed, {| cm_type := ContractCreation; cm_deployer := Some deployer |})) creations) in
  let m := foldl push_action m (map (fun a => (a, action SelfDestructed)) destructs) in
  let m := foldl (fun m ta => if bool_decide (fst ta ∈ created_in_tx) then m else push_action m ta) m (parse_contract_management_events logs) in
  foldl (fun m ta => if bool_decide (fst ta ∈ created_in_tx) then m else if recorded m ta then m else push_action m ta) m
    (parse_contract_management_state_diff state).

(** ** Reasons *)

(** [from_utf8]: the well-formed sequences of bytes *)
Definition cont (b : Z) : bool := (128 <=? b) && (b <=? 191).
Definition between (lo hi b : Z) : bool := (lo <=? b) && (b <=? hi).
Fixpoint utf8_ok (l : bytes) : bool :=
  match l with
  | [] => true
  | a :: l1 =>
      if between 0 127 a then utf8_ok l1
      else match l1 with
      | [] => false
      | b :: l2 =>
          if between 194 223 a && cont b then utf8_ok l2
          else match l2 with
          | [] => false
          | c :: l3 =>
              if ((a =? 224) && between 160 191 b || between 225 236 a && cont b || (a =? 237) && between 128 159 b ||
                  between 238 239 a && cont b) && cont c then utf8_ok l3
              else match l3 with
              | [] => false
              | d :: l4 =>
                  if ((a =? 240) && between 144 191 b || between 241 243 a && cont b || (a =? 244) && between 128 143 b) &&
                     cont c && cont d then utf8_ok l4
                  else false
              end
          end
      end
  end.

Definition bytes_of (s : string) : bytes := map (fun c => Z.of_N (Ascii.N_of_ascii c)) (String.list_ascii_of_string s).
Definition hex_reason (output : bytes) : bytes := bytes_of ("0x" +:+ hex_encode output)%string.

Definition ERROR_STRING_SELECTOR : bytes := [0x08; 0xc3; 0x79; 0xa0].
Definition PANIC_UINT256_SELECTOR : bytes := [0x4e; 0x48; 0x7b; 0x71].

(** [s[a..b]]: [None] is a panic. *)
Definition slice : bytes -> Z -> Z -> option bytes := get_range.

(** The string of an [Error(string)]: [None] is a panic, [Some None] falls through. *)
Definition error_string (output : bytes) : option (option bytes) :=
  head ← slice output 4 36;
  let offset := default 0 (as_usize head) in
  match checked_add offset 4 with
  | None => Some None
  | Some abs_offset =>
      match checked_add abs_offset 32 with
      | None => Some None
      | Some str_start =>
          if negb (str_start <=? Z.of_nat (length output)) then Some None
          else
            lens ← slice output abs_offset str_start;
            let len := default 0 (as_usize lens) in
            match checked_add str_start len with
            | None => Some None
            | Some str_end =>
                if negb (str_end <=? Z.of_nat (length output)) then Some None
                else s ← slice output str_start str_end; Some (if utf8_ok s then Some s else None)
            end
      end
  end.

Definition panic_reason (code : Z) : string :=
  match find (fun p => fst p =? code)
    [(0x00, "generic compiler panic"%string); (0x01, "assertion failed"%string); (0x11, "arithmetic overflow/underflow"%string);
     (0x12, "division by zero"%string); (0x21, "invalid enum value"%string); (0x22, "invalid storage byte array"%string);
     (0x31, "pop on empty array"%string); (0x32, "array index out of bounds"%string); (0x41, "out of memory"%string);
     (0x51, "uninitialized function pointer"%string)] with
  | Some p => snd p
  | None => "unknown panic"%string
  end.

Definition decode_revert_reason (output : bytes) : option bytes :=
  let n := length output in
  if (n <? 4)%nat then Some (hex_reason output)
  else if bool_decide (output = EXECUTION_FAILED_SELECTOR) then Some (bytes_of "ExecutionFailed()")
  else
    let selector := take 4 output in
    text ← (if bool_decide (selector = ERROR_STRING_SELECTOR) && (68 <=? n)%nat then error_string output else Some None);
    match text with
    | Some s => Some s
    | None =>
        if bool_decide (selector = PANIC_UINT256_SELECTOR) && (36 <=? n)%nat then
          code ← slice output 4 36;
          Some (bytes_of ("Panic(" +:+ panic_reason (default 0xFF (as_usize code)) +:+ ")")%string)
        else Some (hex_reason output)
    end.

(** [{reason:?}] of an instruction result *)
Definition halt_text (r : InstructionResult) : bytes :=
  bytes_of match r with
  | Stop => "Stop" | Return => "Return" | SelfDestruct => "SelfDestruct" | Revert => "Revert" | Exceptional name => name
  end.

Definition decode_abi_string (data : bytes) : option bytes :=
  if (length data <? 64)%nat then None
  else
    offset ← as_usize (take 32 data);
    str_start ← checked_add offset 32;
    if Z.of_nat (length data) <? str_start then None
    else
      lens ← get_range data offset str_start;
      len ← as_usize lens;
      if MAX_METADATA_STRING_BYTES <? len then None
      else
        str_end ← checked_add str_start len;
        if Z.of_nat (length data) <? str_end then None
        else s ← get_range data str_start str_end; if utf8_ok s then Some s else None.

(** ** Names of methods *)

Definition NAME_SELECTOR : bytes := [0x06; 0xfd; 0xde; 0x03].
Definition SYMBOL_SELECTOR : bytes := [0x95; 0xd8; 0x9b; 0x41].
Definition DECIMALS_SELECTOR : bytes := [0x31; 0x3c; 0xe5; 0x67].

Definition selector_to_name (selector : bytes) : option string :=
  snd <$> find (fun p => bool_decide (fst p = selector))
    [(NAME_SELECTOR, "name"%string); (SYMBOL_SELECTOR, "symbol"%string); (DECIMALS_SELECTOR, "decimals"%string);
     ([0xa9; 0x05; 0x9c; 0xbb], "transfer"%string); ([0x23; 0xb8; 0x72; 0xdd], "transferFrom"%string);
     ([0x09; 0x5e; 0xa7; 0xb3], "approve"%string); ([0x42; 0x84; 0x2e; 0x0e], "safeTransferFrom"%string);
     ([0xb8; 0x8d; 0x4f; 0xde], "safeTransferFrom"%string); ([0xa2; 0x2c; 0xb4; 0x65], "setApprovalForAll"%string);
     ([0xf2; 0x42; 0x43; 0x2a], "safeTransferFrom"%string); ([0x2e; 0xb2; 0xc2; 0xd6], "safeBatchTransferFrom"%string);
     ([0xb6; 0x1d; 0x27; 0xf6], "execute"%string); ([0x51; 0x94; 0x54; 0x47], "executeBatch"%string);
     ([0x8d; 0x80; 0xff; 0x0a], "multiSend"%string); (EXECUTE_USER_OP_SELECTOR, "executeUserOp"%string);
     (EXEC_TRANSACTION_FROM_MODULE_SELECTOR, "execTransactionFromModule"%string);
     ([0x0d; 0x58; 0x2f; 0x13], "addOwnerWithThreshold"%string); ([0xf8; 0xdc; 0x5d; 0xd9], "removeOwner"%string);
     ([0xe3; 0x18; 0xb5; 0x2b], "swapOwner"%string); ([0x69; 0x4e; 0x80; 0xc3], "changeThreshold"%string);
     ([0x61; 0x0b; 0x59; 0x25], "enableModule"%string); ([0xe0; 0x09; 0xcf; 0xde], "disableModule"%string);
     ([0xe1; 0x9a; 0x9d; 0xd9], "setGuard"%string); ([0xf0; 0x8a; 0x03; 0x23], "setFallbackHandler"%string);
     ([0xe3; 0x19; 0xf3; 0x23], "setModuleGuard"%string); ([0xb6; 0x31; 0x28; 0x05], "setup"%string);
     ([0x87; 0x51; 0x7c; 0x45], "permit"%string)].

(** ** Metadata

    Another request may use the cache between the steps that hold its lock; one request is modelled. *)

(** The [lru] cache behind its lock: [get] also marks the entry as used. *)
Class LruCache (C : Type) := {
  cache_contains : C -> Address -> bool;
  cache_get : C -> Address -> option AssetInfo * C;
  cache_put : C -> Address -> AssetInfo -> C;
  cache_pop : C -> Address -> C
}.

Section metadata.
Context `{!LruCache C}.
(** A view of a token on the simulated state: the output of a call that succeeded *)
Context (call_view : Address -> bytes -> option bytes).

Definition token_info (t : Address * AssetType) : AssetInfo :=
  {| as_address := fst t;
     as_symbol := default [] (call_view (fst t) SYMBOL_SELECTOR ≫= decode_abi_string);
     as_name := default [] (call_view (fst t) NAME_SELECTOR ≫= decode_abi_string);
     as_decimals := default 0 (call_view (fst t) DECIMALS_SELECTOR ≫= (fun b => b !! 31%nat)); as_type := snd t |}.

Definition run_metadata_calls (tokens : list (Address * AssetType)) : list (Address * AssetInfo) :=
  map (fun t => (fst t, token_info t)) tokens.

Definition asset_metadata_is_resolved (a : AssetInfo) : bool :=
  negb (bool_decide (as_symbol a = [])) || negb (bool_decide (as_name a = [])).

Definition apply_cached_metadata (cached a : AssetInfo) : AssetInfo :=
  {| as_address := as_address a; as_symbol := as_symbol cached; as_name := as_name cached; as_decimals := as_decimals cached;
     as_type := as_type a |}.

(** The tokens that are not cached, or were created by the simulation, once each *)
Fixpoint unresolved (cache : C) (force_refresh seen : gset Address) (assets : list AssetInfo) : list (Address * AssetType) :=
  match assets with
  | [] => []
  | a :: assets =>
      if bool_decide (as_symbol a = []) && (bool_decide (as_address a ∈ force_refresh) || negb (cache_contains cache (as_address a)))
         && bool_decide (as_address a ∉ seen)
      then (as_address a, as_type a) :: unresolved cache force_refresh ({[as_address a]} ∪ seen) assets
      else unresolved cache force_refresh seen assets
  end.

Definition refresh (cache : C) (force_refresh : gset Address) (to_resolve : list (Address * AssetType)) : C :=
  let cache := foldl cache_pop cache (filter (fun a => a ∈ force_refresh) (to_resolve.*1)) in
  foldl (fun cache r => if asset_metadata_is_resolved (snd r) then cache_put cache (fst r) (snd r) else cache) cache
    (run_metadata_calls to_resolve).

(** The last two loops *)
Fixpoint apply_all (cache : C) (assets : list AssetInfo) : list AssetInfo * C :=
  match assets with
  | [] => ([], cache)
  | a :: assets =>
      let '(info, cache) := cache_get cache (as_address a) in
      let '(rest, cache) := apply_all cache assets in
      (match info with Some info => apply_cached_metadata info a | None => a end :: rest, cache)
  end.

Definition with_asset (c : AssetChange) (a : AssetInfo) : AssetChange :=
  {| ac_type := ac_type c; ac_from := ac_from c; ac_to := ac_to c; ac_raw_amount := ac_raw_amount c; ac_token_id := ac_token_id c;
     ac_asset := a |}.
Definition with_exposed (c : ExposureChange) (a : AssetInfo) : ExposureChange :=
  {| ec_owner := ec_owner c; ec_spender := ec_spender c; ec_raw_amount := ec_raw_amount c; ec_approved_for_all := ec_approved_for_all c;
     ec_asset := a |}.

Definition resolve_all_metadata (cache : C) (force_refresh : gset Address) (assets : list AssetChange) (exposures : list ExposureChange)
    : list AssetChange * list ExposureChange * C :=
  let to_resolve := unresolved cache force_refresh ∅ (map ac_asset assets ++ map ec_asset exposures) in
  let cache := match to_resolve with [] => cache | _ => refresh cache force_refresh to_resolve end in
  let '(infos, cache) := apply_all cache (map ac_asset assets) in
  let '(infos', cache) := apply_all cache (map ec_asset exposures) in
  (zip_with with_asset assets infos, zip_with with_exposed exposures infos', cache).

Lemma apply_all_length assets : forall cache, length (fst (apply_all cache assets)) = length assets.
Proof.
  induction assets as [|a assets IH]; intros cache; cbn [apply_all]; [done|].
  destruct (cache_get cache (as_address a)) as [info cache1]. specialize (IH cache1). destruct (apply_all cache1 assets). cbn in *. by rewrite IH.
Qed.

(** A change without its metadata *)
Definition bare (c : AssetChange) : AssetType * Address * Address * Z * option Z := (ac_type c, ac_from c, ac_to c, ac_raw_amount c, ac_token_id c).
Definition bare_exposed (c : ExposureChange) : Address * Address * Z * bool := (ec_owner c, ec_spender c, ec_raw_amount c, ec_approved_for_all c).

Lemma metadata_keeps cache force assets exposures :
  map bare (fst (fst (resolve_all_metadata cache force assets exposures))) = map bare assets /\
  map bare_exposed (snd (fst (resolve_all_metadata cache force assets exposures))) = map bare_exposed exposures.
Proof.
  unfold resolve_all_metadata. set (c1 := match unresolved _ _ _ _ with [] => _ | _ => _ end).
  pose proof (apply_all_length (map ac_asset assets) c1) as H1. destruct (apply_all c1 (map ac_asset assets)) as [infos c2].
  pose proof (apply_all_length (map ec_asset exposures) c2) as H2. destruct (apply_all c2 (map ec_asset exposures)) as [infos' c3].
  cbn [fst snd] in *. rewrite length_map in H1, H2. clear c1. split.
  - revert infos H1. induction assets as [|a assets IH]; intros [|i infos] H; try done. cbn [zip_with map]. f_equal. apply IH. by injection H.
  - revert infos' H2. induction exposures as [|e exposures IH]; intros [|i infos'] H; try done. cbn [zip_with map]. f_equal. apply IH. by injection H.
Qed.
End metadata.

(** ** The trace and the native transfers of the response *)

Definition reason_text (output : bytes) : bytes := default [] (decode_revert_reason output).

Record TraceEntry := {
  te_kind : TraceKind; te_from : Address; te_to : option Address; te_method : option string; te_selector : option bytes;
  te_value : Z; te_depth : nat; te_outcome : TraceOutcome; te_revert_reason : option bytes
}.

Definition trace_entry (t : RawTrace) : result TraceEntry string :=
  let? outcome := ok_or (rt_outcome t) "simulation inspector trace frame did not complete"%string in
  Ok {| te_kind := rt_kind t; te_from := rt_from t; te_to := rt_to t; te_method := rt_selector t ≫= selector_to_name;
        te_selector := rt_selector t; te_value := rt_value t; te_depth := rt_depth t; te_outcome := outcome;
        te_revert_reason := match rt_revert_output t with
                            | Some output => Some (reason_text output)
                            | None => halt_text <$> rt_halt_reason t
                            end |}.
Fixpoint entries (l : list RawTrace) : result (list TraceEntry) string :=
  match l with
  | [] => Ok []
  | t :: l => let? e := trace_entry t in let? rest := entries l in Ok (e :: rest)
  end.
Definition trace_entries (s : SimulationInspector) : result (list TraceEntry) string :=
  match trace_error s with Some error => Err error | None => entries (traces s) end.

Definition native_row (t : NativeTransfer) : AssetChange :=
  {| ac_type := Native; ac_from := nt_from t; ac_to := nt_to t; ac_raw_amount := nt_value t; ac_token_id := None;
     ac_asset := {| as_address := 0; as_symbol := bytes_of "ETH"; as_name := bytes_of "Ether"; as_decimals := 18; as_type := Native |} |}.
Definition take_native_asset_changes (s : SimulationInspector) : list AssetChange := map native_row (fx_transfers (committed s)).

Definition failure_text (f : FrameFailure) : bytes := match f with FailRevert output => reason_text output | FailHalt reason => halt_text reason end.
Definition terminal_revert_reason (s : SimulationInspector) : option bytes := failure_text <$> default None (terminal_failure (traces s)).

(** ** The call *)

Inductive SimError := InvalidParams (m : string) | Internal (m : string).
Inductive SimulationStatus := SimSuccess | SimRevert.
Inductive ExecutionStatus := ExSuccess | ExRevert (output : bytes) | ExHalt (reason : bytes).

Record CfgEnv := {
  disable_block_gas_limit : bool; disable_eip3607 : bool; disable_base_fee : bool; disable_balance_check : bool;
  disable_fee_charge : bool; disable_nonce_check : bool; chain_id : Z
}.
Definition relax_cfg_for_simulation (c : CfgEnv) : CfgEnv :=
  {| disable_block_gas_limit := true; disable_eip3607 := true; disable_base_fee := true; disable_balance_check := true;
     disable_fee_charge := true; disable_nonce_check := true; chain_id := chain_id c |}.

Record SimTx := { st_caller : Address; st_to : Address; st_data : bytes; st_value : Z; st_gas_limit : Z; st_gas_price : Z; st_chain_id : Z }.

(** What the EVM returns: the result with its gas and logs, the state diff, and the execution whose hooks it called *)
Record Execution := { ex_status : ExecutionStatus; ex_gas_used : Z; ex_logs : list Log; ex_state : StateDiff; ex_root : item }.

Record SimRequest := {
  rq_sender : Address; rq_call_data : bytes; rq_entry_point : Address; rq_call_gas_limit : option Z; rq_block : option Z
}.
Record SimResult := {
  sr_status : SimulationStatus; sr_revert_reason : option bytes; sr_block_number : Z; sr_gas_used : Z;
  sr_asset_changes : list AssetChange; sr_exposure_changes : list ExposureChange; sr_trace : list TraceEntry;
  sr_contract_management : gmap Address (list ContractManagementAction)
}.

(** The node: a block by its identifier ([None]: latest), the configuration at a header, the state at
    a block, the execution of a transaction with its shared memory, and a view after it. *)
Record SimNode (St : Type) := {
  sealed_header_by_id : option Z -> result (option (Z * B256)) string;
  evm_env : Z * B256 -> result CfgEnv string;
  state_by_block_id : B256 -> result St string;
  transact : CfgEnv -> St -> SimTx -> result Execution string;
  memory_slice : nat -> nat -> option bytes;
  view_after : St -> StateDiff -> Address -> bytes -> option bytes
}.
Arguments sealed_header_by_id {St}. Arguments evm_env {St}. Arguments state_by_block_id {St}. Arguments transact {St}.
Arguments memory_slice {St}. Arguments view_after {St}.

Definition gas_limit_of (request : SimRequest) : result Z SimError :=
  match rq_call_gas_limit request with
  | None => Ok MAX_SIMULATION_GAS
  | Some g =>
      match to_u64 g with
      | None => Err (InvalidParams "callGasLimit exceeds maximum")
      | Some g => if MAX_SIMULATION_GAS <? g then Err (InvalidParams "callGasLimit exceeds maximum") else Ok g
      end
  end.

Section simulate.
Context {St : Type} (node : SimNode St) `{!LruCache C}.

(** Steps 8 to 12, after the execution *)
Definition response (cache : C) (state : St) (block_number : Z) (ex : Execution) : result (SimResult * C) SimError :=
  let status := match ex_status ex with ExSuccess => SimSuccess | _ => SimRevert end in
  let halt_reason := match ex_status ex with ExHalt reason => Some reason | _ => None end in
  let? asset_changes := map_err InvalidParams (parse_asset_changes (ex_logs ex)) in
  let exposure_changes := parse_exposure_changes (ex_logs ex) in
  let inspector := run (memory_slice node) inspector_default (ex_root ex) in
  let terminal := terminal_revert_reason inspector in
  let? trace := map_err (fun e => Internal ("simulation inspector failed: " +:+ e)%string) (trace_entries inspector) in
  let asset_changes := asset_changes ++ take_native_asset_changes inspector in
  let creations := fx_creations (committed inspector) in
  let outer := match ex_status ex with ExRevert output => Some (reason_text output) | _ => None end in
  let revert_reason :=
    match status with
    | SimSuccess => None
    | SimRevert => match halt_reason with Some r => Some r | None => match terminal with Some r => Some r | None => outer end end
    end in
  let '(assets, exposures, cache) :=
    resolve_all_metadata (view_after node state (ex_state ex)) cache (list_to_set (creations.*2)) asset_changes exposure_changes in
  Ok ({| sr_status := status; sr_revert_reason := revert_reason; sr_block_number := block_number; sr_gas_used := ex_gas_used ex;
         sr_asset_changes := assets; sr_exposure_changes := exposures; sr_trace := trace;
         sr_contract_management := assemble_contract_management creations (fx_destructs (committed inspector)) (ex_logs ex) (ex_state ex) |},
      cache).

Definition simulate_blocking (cache : C) (request : SimRequest) : result (SimResult * C) SimError :=
  let? found := map_err Internal (sealed_header_by_id node (rq_block request)) in
  let? header := ok_or found (InvalidParams "Block not found") in
  let? cfg := map_err Internal (evm_env node header) in
  let cfg := relax_cfg_for_simulation cfg in
  let? state := map_err Internal (state_by_block_id node (snd header)) in
  let? gas_limit := gas_limit_of request in
  let tx := {| st_caller := rq_entry_point request; st_to := rq_sender request; st_data := rq_call_data request; st_value := 0;
               st_gas_limit := gas_limit; st_gas_price := 0; st_chain_id := chain_id cfg |} in
  let? ex := map_err Internal (transact node cfg state tx) in
  response cache state (fst header) ex.
End simulate.
