(* ===== verification/SimulateRules.v ===== *)
(** * What a simulation reports

    The rows of the response against the logs and against the tree of the execution, the map of
    contract management, and the decoding of revert data, which never panics and reads back the
    strings that Solidity encodes. *)

From S2P Require Import Prelude Encoding ProofTypes Attestation Simulate SimulateApi.

(** ** Revert data *)

Lemma get_range_Some data a b : 0 <= a -> a <= b -> b <= Z.of_nat (length data) ->
  get_range data a b = Some (take (Z.to_nat (b - a)) (drop (Z.to_nat a) data)).
Proof. intros. unfold get_range. by rewrite !(proj2 (Z.leb_le _ _)) by lia. Qed.

Lemma as_usize_nonneg s x : is_bytes s -> as_usize s = Some x -> 0 <= x.
Proof. intros Hb. unfold as_usize, to_u64. destruct (_ <=? _); [|done]. intros [= <-]. by apply be_val_bound. Qed.

Lemma default_usize s d : is_bytes s -> 0 <= d -> 0 <= default d (as_usize s).
Proof. intros Hb Hd. destruct (as_usize s) eqn:E; [by eapply as_usize_nonneg|done]. Qed.

Lemma range_bytes l n k : is_bytes l -> is_bytes (take n (drop k l)).
Proof. intros H. by apply Forall_take, Forall_drop. Qed.

Lemma error_string_total output : is_bytes output -> (68 <= length output)%nat -> exists r, error_string output = Some r.
Proof.
  intros Hb Hn. unfold error_string, slice. rewrite get_range_Some by lia. cbn [mbind option_bind].
  set (offset := default 0 (as_usize _)).
  assert (0 <= offset) as H0 by (apply default_usize; [by apply range_bytes|lia]).
  destruct (checked_add offset 4) as [a|] eqn:Ha; [|by eexists]. apply checked_add_Some in Ha as [-> _].
  destruct (checked_add (offset + 4) 32) as [b|] eqn:Hbb; [|by eexists]. apply checked_add_Some in Hbb as [-> _].
  destruct (Z.leb_spec (offset + 4 + 32) (Z.of_nat (length output))); cbn [negb]; [|by eexists].
  rewrite get_range_Some by lia. cbn [mbind option_bind]. set (len := default 0 (as_usize _)).
  assert (0 <= len) as H1 by (apply default_usize; [by apply range_bytes|lia]).
  destruct (checked_add (offset + 4 + 32) len) as [c|] eqn:Hc; [|by eexists]. apply checked_add_Some in Hc as [-> _].
  destruct (Z.leb_spec (offset + 4 + 32 + len) (Z.of_nat (length output))); cbn [negb]; [|by eexists].
  rewrite get_range_Some by lia. by eexists.
Qed.

(** Decoding never slices out of range, whatever the contract returned. *)
Lemma revert_reason_total output : is_bytes output -> exists r, decode_revert_reason output = Some r.
Proof.
  intros Hb. unfold decode_revert_reason. destruct (Nat.ltb_spec (length output) 4); [by eexists|].
  case_bool_decide; [by eexists|].
  assert (exists t, (if bool_decide (take 4 output = ERROR_STRING_SELECTOR) && (68 <=? length output)%nat
    then error_string output else Some None) = Some t) as [t ->].
  { destruct (bool_decide _ && _) eqn:E; [|by eexists]. apply andb_true_iff in E as [_ E%Nat.leb_le]. by apply error_string_total. }
  cbn [mbind option_bind]. destruct t as [s|]; [by eexists|].
  destruct (bool_decide _ && _) eqn:E; [|by eexists]. apply andb_true_iff in E as [_ E%Nat.leb_le].
  unfold slice. rewrite get_range_Some by lia. by eexists.
Qed.

(** [Error(string)] as Solidity encodes it *)
Definition encode_error (s : bytes) : bytes := ERROR_STRING_SELECTOR ++ abi_word 32 ++ abi_bytes_tail s.

Lemma word_value x : u64 x -> as_usize (abi_word x) = Some x.
Proof.
  intros Hx. unfold as_usize, abi_word. rewrite be_val_bytes, Z.mod_small.
  - unfold to_u64. unfold u64 in Hx. by rewrite (proj2 (Z.leb_le _ _)) by lia.
  - unfold u64, U64_MAX in Hx. change (256 ^ Z.of_nat 32) with (2 ^ 256). lia.
Qed.

Lemma range_middle a b c i j : Z.of_nat (length a) = i -> Z.of_nat (length a + length b) = j -> get_range (a ++ b ++ c) i j = Some b.
Proof.
  intros <- <-. rewrite get_range_Some by (rewrite ?length_app; lia). rewrite Nat2Z.id, drop_app_length.
  replace (Z.to_nat _) with (length b) by lia. by rewrite take_app_length.
Qed.

(** The reason of a revert is the string that the contract gave: for a UTF-8 string whose
    encoding fits in memory, decoding the revert data of [Error(string)] returns it. *)
Theorem revert_reason_roundtrip s : utf8_ok s = true -> Z.of_nat (length s) + 68 <= U64_MAX ->
  decode_revert_reason (encode_error s) = Some s.
Proof.
  intros Hs Hn. set (pad := replicate ((32 - length s mod 32) mod 32) 0).
  assert (encode_error s = ERROR_STRING_SELECTOR ++ abi_word 32 ++ abi_word (Z.of_nat (length s)) ++ s ++ pad) as E by done.
  set (w := abi_word 32) in *. set (v := abi_word (Z.of_nat (length s))) in *.
  assert (length w = 32%nat) as Hw by apply abi_word_length. assert (length v = 32%nat) as Hv by apply abi_word_length.
  assert (as_usize w = Some 32) as Ew by (apply word_value; by split).
  assert (as_usize v = Some (Z.of_nat (length s))) as Ev by (apply word_value; unfold u64; lia).
  assert (length (encode_error s) = 68 + length s + length pad)%nat as Hlen.
  { rewrite E, !length_app, Hw, Hv. cbn [length ERROR_STRING_SELECTOR]. lia. }
  unfold decode_revert_reason. rewrite Hlen. rewrite (proj2 (Nat.ltb_ge _ 4)) by lia.
  rewrite bool_decide_false by (intros H; rewrite H in Hlen; cbn in Hlen; lia).
  rewrite (bool_decide_true (take 4 (encode_error s) = ERROR_STRING_SELECTOR)) by reflexivity. rewrite (proj2 (Nat.leb_le 68 _)) by lia. cbn [andb].
  assert (error_string (encode_error s) = Some (Some s)) as ->; [|done].
  unfold error_string, slice. rewrite Hlen, E.
  rewrite (range_middle ERROR_STRING_SELECTOR w) by (rewrite ?Hw; done). cbn [mbind option_bind].
  rewrite Ew. cbn [default from_option id]. change (checked_add 32 4) with (Some 36). cbn match.
  change (checked_add 36 32) with (Some 68). cbn match. rewrite (proj2 (Z.leb_le 68 _)) by lia. cbn [negb].
  rewrite (app_assoc ERROR_STRING_SELECTOR), (range_middle (ERROR_STRING_SELECTOR ++ w) v) by (rewrite length_app, ?Hw, ?Hv; done).
  cbn [mbind option_bind]. rewrite Ev. cbn [default id from_option].
  assert (checked_add 68 (Z.of_nat (length s)) = Some (68 + Z.of_nat (length s))) as -> by (apply checked_add_Some; lia). cbn match.
  rewrite (proj2 (Z.leb_le _ _)) by lia. cbn [negb]. rewrite app_assoc, (range_middle ((ERROR_STRING_SELECTOR ++ w) ++ v) s)
    by (rewrite !length_app, Hw, Hv; cbn [length ERROR_STRING_SELECTOR]; lia).
  cbn [mbind option_bind]. by rewrite Hs.
Qed.

Lemma revert_reason_roundtrip_witness : decode_revert_reason (encode_error (bytes_of "no funds")) = Some (bytes_of "no funds").
Proof. apply (revert_reason_roundtrip (bytes_of "no funds")); [by vm_compute|by vm_compute]. Defined.

(** ** Rows *)

Lemma parse_from_spec logs : forall changes r, (length changes <= MAX_LOG_ASSET_CHANGES)%nat ->
  parse_asset_changes_from changes logs = Ok r <->
  exists rows, Forall2 (fun log rs => rows_of_log log = Ok rs) logs rows /\ r = changes ++ concat rows /\
    (length r <= MAX_LOG_ASSET_CHANGES)%nat.
Proof.
  induction logs as [|log logs IH]; intros changes r Hc; cbn [parse_asset_changes_from].
  { split; [intros [= <-]; exists []; by rewrite app_nil_r|]. intros (rows&Hf&->&_). apply Forall2_nil_inv_l in Hf as ->. by rewrite app_nil_r. }
  unfold ensure_log_asset_change_capacity. split.
  - intros (rs&Hrs&(?&Hcap&H)%rbind_Ok)%rbind_Ok.
    destruct (Nat.ltb_spec MAX_LOG_ASSET_CHANGES (length changes + length rs)) as [|Hle]; [done|].
    apply IH in H as (rows&Hf&->&Hl); [|by rewrite length_app]. exists (rs :: rows). rewrite <-app_assoc in *. split; [by constructor|done].
  - intros (rows&Hf&->&Hl). apply Forall2_cons_inv_l in Hf as (rs&rows'&Hrs&Hf&->). rewrite Hrs. cbn [rbind concat] in *.
    rewrite !length_app in Hl. rewrite (proj2 (Nat.ltb_ge _ _)) by lia. cbn [rbind].
    apply IH; [rewrite length_app; lia|]. exists rows'. split; [done|]. rewrite <-app_assoc, !length_app. split; [done|lia].
Qed.

Lemma parse_spec logs r : parse_asset_changes logs = Ok r <->
  exists rows, Forall2 (fun log rs => rows_of_log log = Ok rs) logs rows /\ r = concat rows /\ (length r <= MAX_LOG_ASSET_CHANGES)%nat.
Proof. apply (parse_from_spec logs [] r). cbn. lia. Qed.

(** ** The trace *)

Lemma frames_done slice i : forall d, Forall (fun t => is_Some (rt_outcome t)) (flatten_all (frames slice d i)).
Proof.
  assert (forall d body, Forall (fun i => forall d, Forall (fun t => is_Some (rt_outcome t)) (flatten_all (frames slice d i))) body ->
    Forall (fun t => is_Some (rt_outcome t)) (flatten_all (concat (map (frames slice d) body)))) as Hbody.
  { intros d body. induction 1 as [|i' body Hi Hb IH]; cbn [map concat]; [constructor|]. rewrite flatten_all_app. by apply Forall_app_2. }
  induction i as [inputs body result output IH|inputs body result output address IH|contract] using item_ind'; intros d; cbn [frames]; [| |constructor].
  - rewrite flatten_all_cons, flatten_head. cbn [entry children app]. constructor; [by eexists|]. apply Forall_app_2; [by apply Hbody|constructor].
  - rewrite flatten_all_cons, flatten_head. cbn [entry children app]. constructor; [destruct (result_is_ok result); by eexists|].
    apply Forall_app_2; [by apply Hbody|constructor].
Qed.

Lemma entries_spec l : Forall (fun t => is_Some (rt_outcome t)) l ->
  exists es, entries l = Ok es /\ Forall2 (fun t e => trace_entry t = Ok e) l es.
Proof.
  induction 1 as [|t l [o Ho] Hl (es&Hes&Hf)]; cbn [entries]; [exists []; split; [done|constructor]|].
  rewrite Hes. unfold trace_entry at 1. rewrite Ho. cbn [ok_or rbind]. eexists. split; [done|]. constructor; [|done].
  unfold trace_entry. by rewrite Ho.
Qed.

Section response.
Context {St : Type} (node : SimNode St) `{!LruCache C}.

(** What the response says of an execution *)
Record reports (ex : Execution) (rows : list AssetChange) (r : SimResult) : Prop := {
  rep_status : sr_status r = SimSuccess <-> ex_status ex = ExSuccess;
  rep_reason : sr_revert_reason r = None <-> ex_status ex = ExSuccess;
  rep_assets : map bare (sr_asset_changes r) = map bare (rows ++ map native_row (fx_transfers (landed (ex_root ex))));
  rep_exposures : map bare_exposed (sr_exposure_changes r) = map bare_exposed (concat (map exposure_of_log (ex_logs ex)));
  rep_trace : Forall2 (fun t e => trace_entry t = Ok e) (flatten_all (frames (memory_slice node) 0 (ex_root ex))) (sr_trace r);
  rep_contracts : sr_contract_management r =
    assemble_contract_management (fx_creations (landed (ex_root ex))) (fx_destructs (landed (ex_root ex))) (ex_logs ex) (ex_state ex)
}.

End response.

(** ** Contract management *)

Abbreviation Actions := (gmap Address (list ContractManagementAction)).
Definition at_ (m : Actions) (a : Address) : list ContractManagementAction := default [] (m !! a).
Definition for_target (a : Address) (l : list (Address * ContractManagementAction)) : list ContractManagementAction :=
  map snd (filter (fun ta => fst ta = a) l).

Lemma at_push m ta a : at_ (push_action m ta) a = at_ m a ++ (if bool_decide (fst ta = a) then [snd ta] else []).
Proof.
  unfold at_, push_action. case_bool_decide as H; [subst; by rewrite lookup_insert_eq|]. by rewrite lookup_insert_ne, app_nil_r.
Qed.

Lemma at_pushes l a : forall m, at_ (foldl push_action m l) a = at_ m a ++ for_target a l.
Proof.
  unfold for_target. induction l as [|ta l IH]; intros m; cbn [foldl]; [by rewrite app_nil_r|].
  rewrite IH, at_push, filter_cons, <-app_assoc. f_equal. destruct (decide (fst ta = a)); [by rewrite bool_decide_true|by rewrite bool_decide_false].
Qed.

Lemma at_events created l a : forall m,
  at_ (foldl (fun m ta => if bool_decide (fst ta ∈ created) then m else push_action m ta) m l) a =
  at_ m a ++ (if bool_decide (a ∈ (created : gset Address)) then [] else for_target a l).
Proof.
  unfold for_target. induction l as [|ta l IH]; intros m; cbn [foldl]; [case_bool_decide; by rewrite app_nil_r|].
  rewrite IH, filter_cons. destruct (decide (fst ta = a)) as [<-|Hne].
  - case_bool_decide; [done|]. rewrite at_push, bool_decide_true, <-app_assoc by done. done.
  - destruct (bool_decide (fst ta ∈ created)); [done|]. by rewrite at_push, bool_decide_false, app_nil_r by done.
Qed.

Definition diff_step (created : gset Address) (m : Actions) (ta : Address * ContractManagementAction) : Actions :=
  if bool_decide (fst ta ∈ created) then m else if recorded m ta then m else push_action m ta.

Lemma recorded_spec m ta : recorded m ta = true <-> cm_type (snd ta) ∈ map cm_type (at_ m (fst ta)).
Proof.
  unfold recorded, at_. rewrite existsb_exists. rewrite list_elem_of_fmap. split.
  - intros (x&Hx%list_elem_of_In&Ht). apply bool_decide_eq_true in Ht. by exists x.
  - intros (x&Ht&Hx). exists x. split; [by apply list_elem_of_In|]. by apply bool_decide_eq_true.
Qed.

(** The state diff adds to a target the kinds of action it does not have yet, once each. *)
Lemma at_diff created l a : forall m, exists new, at_ (foldl (diff_step created) m l) a = at_ m a ++ new /\
  (a ∈ created -> new = []) /\ NoDup (map cm_type new) /\ (forall t, t ∈ map cm_type new -> t ∉ map cm_type (at_ m a)) /\
  (forall x, x ∈ new -> x ∈ for_target a l) /\
  (a ∉ created -> forall x, x ∈ for_target a l -> cm_type x ∈ map cm_type (at_ m a ++ new)).
Proof.
  induction l as [|ta l IH]; intros m; cbn [foldl].
  { exists []. rewrite app_nil_r. split; [done|]. split; [done|]. split; [constructor|]. unfold for_target. cbn. split; [by intros ? ?%elem_of_nil|].
    split; [done|]. by intros _ ? ?%elem_of_nil. }
  destruct (IH (diff_step created m ta)) as (new&Hat&Hc&Hnd&Hdis&Hin&Hall). unfold for_target in *. rewrite filter_cons.
  destruct (decide (fst ta = a)) as [<-|Hne].
  - destruct (bool_decide_reflect (fst ta ∈ created)) as [Hcr|Hcr].
    { assert (diff_step created m ta = m) as Hm by (unfold diff_step; by rewrite bool_decide_true).
      rewrite Hm in *. exists new. cbn [map]. set_solver. }
    assert (diff_step created m ta = if recorded m ta then m else push_action m ta) as Hm by (unfold diff_step; by rewrite bool_decide_false).
    rewrite Hm in *. clear Hm. destruct (recorded m ta) eqn:Hrec.
    + apply recorded_spec in Hrec. exists new. rewrite Hat. split; [done|]. split; [done|]. split; [done|]. split; [done|].
      cbn [map]. split; [set_solver|]. intros _ x [->|Hx]%elem_of_cons; [rewrite map_app; set_solver|by apply Hall].
    + assert (cm_type (snd ta) ∉ map cm_type (at_ m (fst ta))) as Hnew by (rewrite <-recorded_spec; by rewrite Hrec).
      rewrite at_push, bool_decide_true in Hat, Hdis, Hall by done. exists (snd ta :: new). rewrite Hat, <-app_assoc. split; [done|].
      rewrite map_app in Hdis. cbn [map] in *. split; [done|]. split.
      { apply NoDup_cons. split; [|done]. intros Hx. apply (Hdis _ Hx). set_solver. }
      split; [set_solver|]. split; [set_solver|]. intros _ x [->|Hx]%elem_of_cons; [rewrite map_app; cbn [map]; set_solver|].
      specialize (Hall Hcr x Hx). by rewrite <-app_assoc in Hall.
  - exists new. assert (at_ (diff_step created m ta) a = at_ m a) as Hsame.
    { unfold diff_step. case_bool_decide; [done|]. destruct (recorded m ta); [done|]. rewrite at_push, bool_decide_false by done. by rewrite app_nil_r. }
    rewrite Hsame in Hat, Hdis, Hall. done.
Qed.

Definition creation_actions (creations : list (Address * Address)) : list (Address * ContractManagementAction) :=
  map (fun '(deployer, deployed) => (deployed, {| cm_type := ContractCreation; cm_deployer := Some deployer |})) creations.
Definition destruct_actions (destructs : list Address) : list (Address * ContractManagementAction) :=
  map (fun a => (a, action SelfDestructed)) destructs.

Lemma for_creations creations a : a ∉ creations.*2 -> for_target a (creation_actions creations) = [].
Proof.
  unfold for_target, creation_actions. induction creations as [|[x y] cs IH]; intros H; [done|]. cbn [map].
  rewrite filter_cons, decide_False by (cbn; set_solver). apply IH. set_solver.
Qed.

(** The report on a contract is complete and counts nothing twice: a contract created in the
    simulation has its creation and destruction and nothing that its constructor did; any other has its
    destructions, every event, and each kind of change of a proxy slot that no event reported, once. *)
Theorem contract_management_complete creations destructs logs state a :
  let reported := at_ (assemble_contract_management creations destructs logs state) a in
  let events := for_target a (destruct_actions destructs) ++ for_target a (parse_contract_management_events logs) in
  let slots := for_target a (parse_contract_management_state_diff state) in
  if bool_decide (a ∈ creations.*2) then
    reported = for_target a (creation_actions creations) ++ for_target a (destruct_actions destructs)
  else exists new, reported = events ++ new /\ NoDup (map cm_type new) /\ Forall (fun x => x ∈ slots) new /\
    Forall (fun t => t ∉ map cm_type events) (map cm_type new) /\ Forall (fun x => cm_type x ∈ map cm_type reported) slots.
Proof.
  intros reported events slots. unfold reported, assemble_contract_management.
  change (fun m ta => if bool_decide (fst ta ∈ ?c) then m else if recorded m ta then m else push_action m ta) with (diff_step c).
  set (created := list_to_set (creations.*2)). fold (creation_actions creations). fold (destruct_actions destructs).
  destruct (at_diff created (parse_contract_management_state_diff state) a
    (foldl (fun m ta => if bool_decide (fst ta ∈ created) then m else push_action m ta)
      (foldl push_action (foldl push_action ∅ (creation_actions creations)) (destruct_actions destructs))
      (parse_contract_management_events logs))) as (new&->&Hc&Hnd&Hdis&Hin&Hall).
  rewrite at_events, !at_pushes in *. change (at_ ∅ a) with (@nil ContractManagementAction) in *. cbn [app] in *.
  assert (a ∈ created <-> a ∈ creations.*2) as Hcr by apply elem_of_list_to_set.
  destruct (bool_decide_reflect (a ∈ creations.*2)) as [H|H].
  - rewrite (bool_decide_true (a ∈ created)), app_nil_r, (Hc (proj2 Hcr H)), app_nil_r by tauto. done.
  - rewrite (for_creations _ _ H) in *. rewrite (bool_decide_false (a ∈ created)) in * by tauto. cbn [app] in *. exists new.
    split; [done|]. split; [done|]. rewrite !Forall_forall. split; [exact Hin|]. split; [exact Hdis|]. apply Hall. tauto.
Qed.
