(* ===== verification/ChainSpec.v ===== *)
(** * The schedule of hard forks ([src/crates/chainspec/src]: [spec.rs], [hardfork.rs])

    The forks that a genesis file configures, their order, and the defaults that World Chain adds.
    reth's [ChainHardforks] is a list of forks with their conditions, in which [insert]
    replaces a condition or appends a fork.  The genesis header and the base fees are computed by
    reth's functions from the schedule. *)

From S2P Require Import Prelude.

(** ** Forks *)

Inductive EthereumHardfork :=
| Frontier | Homestead | Tangerine | SpuriousDragon | Byzantium | Constantinople | Petersburg | Istanbul | MuirGlacier
| Berlin | London | ArrowGlacier | GrayGlacier | Paris | Shanghai | Cancun | Prague | Osaka.
Inductive WorldChainHardfork :=
| Bedrock | Regolith | Canyon | Ecotone | Fjord | Granite | Holocene | Isthmus | Jovian | Karst | Tropo | Strato.
Inductive Fork := Eth (f : EthereumHardfork) | World (f : WorldChainHardfork) | UnknownHardfork (name : string).

#[export] Instance EthereumHardfork_eq_dec : EqDecision EthereumHardfork.
Proof. solve_decision. Defined.
#[export] Instance WorldChainHardfork_eq_dec : EqDecision WorldChainHardfork.
Proof. solve_decision. Defined.
#[export] Instance Fork_eq_dec : EqDecision Fork.
Proof. solve_decision. Defined.

(** The variants that the code names; a fork that is not among them keeps its name. *)
Definition eth_forks : list EthereumHardfork :=
  [Frontier; Homestead; Tangerine; SpuriousDragon; Byzantium; Constantinople; Petersburg; Istanbul; MuirGlacier; Berlin; London;
   ArrowGlacier; GrayGlacier; Paris; Shanghai; Cancun; Prague; Osaka].
Definition world_forks : list WorldChainHardfork :=
  [Bedrock; Regolith; Canyon; Ecotone; Fjord; Granite; Holocene; Isthmus; Jovian; Karst; Tropo; Strato].

Definition eth_name (f : EthereumHardfork) : string :=
  match f with
  | Frontier => "Frontier" | Homestead => "Homestead" | Tangerine => "Tangerine" | SpuriousDragon => "SpuriousDragon"
  | Byzantium => "Byzantium" | Constantinople => "Constantinople" | Petersburg => "Petersburg" | Istanbul => "Istanbul"
  | MuirGlacier => "MuirGlacier" | Berlin => "Berlin" | London => "London" | ArrowGlacier => "ArrowGlacier"
  | GrayGlacier => "GrayGlacier" | Paris => "Paris" | Shanghai => "Shanghai" | Cancun => "Cancun" | Prague => "Prague" | Osaka => "Osaka"
  end.
Definition world_name (f : WorldChainHardfork) : string :=
  match f with
  | Bedrock => "Bedrock" | Regolith => "Regolith" | Canyon => "Canyon" | Ecotone => "Ecotone" | Fjord => "Fjord" | Granite => "Granite"
  | Holocene => "Holocene" | Isthmus => "Isthmus" | Jovian => "Jovian" | Karst => "Karst" | Tropo => "Tropo" | Strato => "Strato"
  end.
Definition fork_name (f : Fork) : string := match f with Eth f => eth_name f | World f => world_name f | UnknownHardfork n => n end.

Definition lower (c : Ascii.ascii) : Ascii.ascii :=
  let n := Ascii.nat_of_ascii c in if ((65 <=? n) && (n <=? 90))%nat then Ascii.ascii_of_nat (n + 32) else c.
Definition eq_ignore_ascii_case (a b : string) : bool :=
  bool_decide (map lower (String.list_ascii_of_string a) = map lower (String.list_ascii_of_string b)).

Definition convert_op_hardfork (fork : Fork) : option Fork :=
  let name := fork_name fork in
  match find (fun w => bool_decide (world_name w = name)) (take 10 world_forks) with
  | Some w => Some (World w)
  | None =>
      if bool_decide (name = "Interop"%string) then None
      else if eq_ignore_ascii_case name "tropo" then Some (World Tropo)
      else if eq_ignore_ascii_case name "strato" then Some (World Strato)
      else match find (fun e => bool_decide (eth_name e = name)) eth_forks with
           | Some e => Some (Eth e)
           | None => Some (UnknownHardfork name)
           end
  end.

(** ** Conditions *)

Inductive ForkCondition := Block (n : Z) | TTD (fork_block : option Z) | Timestamp (t : Z) | Never.
#[export] Instance ForkCondition_eq_dec : EqDecision ForkCondition.
Proof. solve_decision. Defined.

Abbreviation Hardforks := (list (Fork * ForkCondition)).

Definition has_name (f : Fork) (x : Fork * ForkCondition) : bool := bool_decide (fork_name (fst x) = fork_name f).

(** [ChainHardforks::fork] and [ChainHardforks::insert] *)
Definition fork (l : Hardforks) (f : Fork) : ForkCondition := from_option snd Never (find (has_name f) l).
Definition insert (l : Hardforks) (f : Fork) (c : ForkCondition) : Hardforks :=
  if existsb (has_name f) l then map (fun x => if has_name f x then (fst x, c) else x) l else l ++ [(f, c)].

Definition fork_activation_order (c : ForkCondition) : Z * Z :=
  match c with
  | Block b | TTD (Some b) => (0, b)
  | TTD None => (1, 0)
  | Timestamp t => (2, t)
  | Never => (3, U64_MAX)
  end.
(** The order of the pairs, as one number: the second is a [u64]. *)
Definition activation_key (x : Fork * ForkCondition) : Z :=
  let '(a, b) := fork_activation_order (snd x) in a * 2 ^ 64 + b.

(** The loop over the canonical order: [configured.remove(pos)] *)
Fixpoint remove_first (p : Fork * ForkCondition -> bool) (l : Hardforks) : Hardforks :=
  match l with [] => [] | x :: l => if p x then l else x :: remove_first p l end.
Fixpoint take_world (order : list WorldChainHardfork) (configured : Hardforks) : Hardforks * Hardforks :=
  match order with
  | [] => ([], configured)
  | w :: order =>
      match find (has_name (World w)) configured with
      | Some x => let r := take_world order (remove_first (has_name (World w)) configured) in (x :: fst r, snd r)
      | None => take_world order configured
      end
  end.

Definition order_world_hardforks (configured : Hardforks) : Hardforks :=
  let r := take_world world_forks configured in sort_by_key activation_key (fst r ++ snd r).

(** ** Chain specifications *)

(** The extra fields are those that deserialise. *)
Record Genesis := {
  g_block : EthereumHardfork -> option Z; g_bedrock : option Z; g_merge_netsplit : option Z;
  g_regolith : option Z; g_canyon : option Z; g_ecotone : option Z; g_fjord : option Z; g_granite : option Z; g_holocene : option Z;
  g_isthmus : option Z; g_jovian : option Z; g_karst : option Z; g_tropo : option Z; g_strato : option Z
}.

Definition block_forks (g : Genesis) : list (Fork * option Z) :=
  (Eth Frontier, Some 0) ::
  map (fun f => (Eth f, g_block g f))
    [Homestead; Tangerine; SpuriousDragon; Byzantium; Constantinople; Petersburg; Istanbul; MuirGlacier; Berlin; London;
     ArrowGlacier; GrayGlacier] ++
  [(World Bedrock, g_bedrock g)].
Definition time_forks (g : Genesis) : list (Fork * option Z) :=
  [(Eth Shanghai, g_canyon g); (Eth Cancun, g_ecotone g); (Eth Prague, g_isthmus g); (Eth Osaka, g_karst g);
   (World Regolith, g_regolith g); (World Canyon, g_canyon g); (World Ecotone, g_ecotone g); (World Fjord, g_fjord g);
   (World Granite, g_granite g); (World Holocene, g_holocene g); (World Isthmus, g_isthmus g); (World Jovian, g_jovian g);
   (World Karst, g_karst g); (World Tropo, g_tropo g); (World Strato, g_strato g)].

Definition given (c : Z -> ForkCondition) (l : list (Fork * option Z)) : Hardforks := omap (fun '(f, o) => (fun x => (f, c x)) <$> o) l.
Definition configured (g : Genesis) : Hardforks :=
  given Block (block_forks g) ++ [(Eth Paris, TTD (g_merge_netsplit g))] ++ given Timestamp (time_forks g).

Definition convert_all (l : Hardforks) : Hardforks := omap (fun x => (fun f => (f, snd x)) <$> convert_op_hardfork (fst x)) l.

Definition set_fork (l : Hardforks) (f : Fork) (c : ForkCondition) : Hardforks :=
  match convert_op_hardfork f with
  | None => l
  | Some f => order_world_hardforks (convert_all (insert l f c))
  end.

Definition JOVIAN_UPGRADE_TIMESTAMP_SEPOLIA : Z := 1777161600.
Definition JOVIAN_UPGRADE_TIMESTAMP_MAINNET : Z := 1777593600.
Definition KARST_UPGRADE_TIMESTAMP_SEPOLIA : Z := 1788868800.
Definition KARST_UPGRADE_TIMESTAMP_MAINNET : Z := 1789992000.

Inductive NamedChain := WorldMainnet | WorldSepolia | OtherChain.

Definition set_missing_world_fork (l : Hardforks) (f : WorldChainHardfork) (t : Z) : Hardforks :=
  match fork l (World f) with Never => set_fork l (World f) (Timestamp t) | _ => l end.

Definition set_missing_karst_forks (l : Hardforks) (t : Z) : Hardforks :=
  let l := set_missing_world_fork l Karst t in
  match fork l (Eth Osaka), fork l (World Karst) with
  | Never, Timestamp t => set_fork l (Eth Osaka) (Timestamp t)
  | _, _ => l
  end.

Definition apply_world_chain_defaults (c : NamedChain) (l : Hardforks) : Hardforks :=
  match c with
  | WorldMainnet => set_missing_karst_forks (set_missing_world_fork l Jovian JOVIAN_UPGRADE_TIMESTAMP_MAINNET) KARST_UPGRADE_TIMESTAMP_MAINNET
  | WorldSepolia => set_missing_karst_forks (set_missing_world_fork l Jovian JOVIAN_UPGRADE_TIMESTAMP_SEPOLIA) KARST_UPGRADE_TIMESTAMP_SEPOLIA
  | OtherChain => l
  end.

Definition from_genesis (c : NamedChain) (g : Genesis) : Hardforks :=
  apply_world_chain_defaults c (order_world_hardforks (configured g)).

(** [active_at_timestamp] of reth, and the rule for the next base fee: [None] is the OP stack's rule
    before Holocene. *)
Definition active_at_timestamp (c : ForkCondition) (t : Z) : bool := match c with Timestamp a => a <=? t | _ => false end.
Inductive BaseFeeRule := JovianRule | HoloceneRule | InnerRule.
Definition next_block_base_fee (l : Hardforks) (parent_timestamp : Z) : BaseFeeRule :=
  if active_at_timestamp (fork l (World Jovian)) parent_timestamp then JovianRule
  else if active_at_timestamp (fork l (World Holocene)) parent_timestamp then HoloceneRule
  else InnerRule.

(** ** Stable sorting *)

Section stable.
Context {A : Type} (key : A -> Z).

Definition class (k : Z) (l : list A) : list A := filter (fun x => key x = k) l.

Lemma class_app k l l' : class k (l ++ l') = class k l ++ class k l'.
Proof. apply filter_app. Qed.

Lemma class_insert k x l : class k (insert_by key x l) = class k (x :: l).
Proof.
  induction l as [|y l IH]; cbn [insert_by]; [done|]. destruct (Z.leb_spec (key x) (key y)); [done|].
  unfold class in *. rewrite filter_cons, IH, !filter_cons. repeat case_decide; try done. lia.
Qed.

(** A stable sort keeps the order of elements with equal keys. *)
Lemma class_sort k l : class k (sort_by_key key l) = class k l.
Proof. induction l as [|x l IH]; cbn [sort_by_key]; [done|]. rewrite class_insert. unfold class in *. by rewrite !filter_cons, IH. Qed.

Lemma class_elem k x l : x ∈ class k l <-> key x = k /\ x ∈ l.
Proof. unfold class. by rewrite list_elem_of_filter. Qed.

Lemma sorted_unique l : forall l', key_sorted key l -> key_sorted key l' -> (forall k, class k l = class k l') -> l = l'.
Proof.
  induction l as [|x l IH]; intros [|y l'] Hl Hl' Hk; [done|..].
  - specialize (Hk (key y)). unfold class in Hk. rewrite filter_cons, decide_True in Hk by done. done.
  - specialize (Hk (key x)). unfold class in Hk. rewrite filter_cons, decide_True in Hk by done. done.
  - apply key_sorted_strongly in Hl as Hs, Hl' as Hs'. apply StronglySorted_inv in Hs as [_ Hx], Hs' as [_ Hy].
    rewrite Forall_forall in Hx, Hy.
    assert (x ∈ y :: l') as Hin by (apply (class_elem (key x)); rewrite <-Hk; apply class_elem; set_solver).
    assert (y ∈ x :: l) as Hin' by (apply (class_elem (key y)); rewrite Hk; apply class_elem; set_solver).
    assert (key x = key y) as Heq.
    { apply elem_of_cons in Hin as [->|Hin]; [done|]. apply elem_of_cons in Hin' as [->|Hin']; [done|].
      specialize (Hx _ Hin'). specialize (Hy _ Hin). lia. }
    assert (x = y) as <-.
    { specialize (Hk (key x)). unfold class in Hk. rewrite !filter_cons, !decide_True in Hk by done. by injection Hk. }
    f_equal. apply IH; [by inversion Hl|by inversion Hl'|]. intros k. specialize (Hk k). unfold class in *.
    rewrite !filter_cons in Hk. case_decide; [by injection Hk|done].
Qed.

Lemma sort_ext l l' : (forall k, class k l = class k l') -> sort_by_key key l = sort_by_key key l'.
Proof. intros H. apply sorted_unique; [apply sort_by_key_sorted..|]. intros k. by rewrite !class_sort. Qed.
End stable.

(** ** The order of a schedule *)

Definition known (f : Fork) : Prop := match f with UnknownHardfork _ => False | _ => True end.
Definition names_ok (l : Hardforks) : Prop := NoDup (map fst l) /\ Forall (fun x => known (fst x)) l.
Definition is_world (x : Fork * ForkCondition) : Prop := match fst x with World _ => True | _ => False end.
#[export] Instance is_world_dec x : Decision (is_world x).
Proof. unfold is_world. destruct (fst x); apply _. Defined.
Definition others (l : Hardforks) : Hardforks := filter (fun x => ~ is_world x) l.

Lemma name_inj f g : known f -> known g -> fork_name f = fork_name g -> f = g.
Proof. destruct f as [[]|[]|], g as [[]|[]|]; cbn; intros Hf Hg H; try done. Qed.

Lemma convert_known f : known f -> convert_op_hardfork f = Some f.
Proof. destruct f as [[]|[]|]; [reflexivity..|done]. Qed.

Lemma convert_all_known l : Forall (fun x => known (fst x)) l -> convert_all l = l.
Proof.
  unfold convert_all. induction 1 as [|[f c] l Hx Hl IH]; [done|]. cbn [omap list_omap fst snd]. rewrite convert_known by done.
  cbn. f_equal. exact IH.
Qed.

Lemma has_name_spec f x : known f -> known (fst x) -> has_name f x = bool_decide (fst x = f).
Proof. intros Hf Hx. unfold has_name. apply bool_decide_ext. split; [by apply name_inj|by intros ->]. Qed.

Lemma find_spec f l x : known f -> names_ok l -> find (has_name f) l = Some x <-> x ∈ l /\ fst x = f.
Proof.
  intros Hf [Hn Hk]. induction l as [|y l IH]; cbn [find]; [split; [done|by intros [?%elem_of_nil _]]|].
  cbn [map] in Hn. apply NoDup_cons in Hn as [Hy Hn]. inversion_clear Hk as [|? ? Hky Hkl]. rewrite has_name_spec by done.
  case_bool_decide as H.
  - split; [intros [= <-]; set_solver|]. intros [[->|Hx]%elem_of_cons Hfx]; [done|]. exfalso. apply Hy. apply list_elem_of_fmap. exists x. by rewrite Hfx.
  - rewrite IH by done. split; [set_solver|]. intros [[->|Hx]%elem_of_cons Hfx]; [done|done].
Qed.

Lemma find_perm f l l' : known f -> names_ok l -> names_ok l' -> l ≡ₚ l' -> find (has_name f) l = find (has_name f) l'.
Proof. intros Hf Hl Hl' Hp. apply option_eq. intros x. rewrite !find_spec by done. by rewrite Hp. Qed.

Lemma names_perm l l' : l ≡ₚ l' -> names_ok l -> names_ok l'.
Proof. intros Hp [Hn Hk]. split; [|by rewrite <-Hp]. change (NoDup (fst <$> l')). by rewrite <-Hp. Qed.

Lemma remove_perm p l x : find p l = Some x -> l ≡ₚ x :: remove_first p l.
Proof.
  induction l as [|y l IH]; cbn [find remove_first]; [done|]. destruct (p y); [by intros [= ->]|]. intros H. rewrite (IH H) at 1.
  apply Permutation_swap.
Qed.

Lemma remove_others w l x : known (World w) -> Forall (fun x => known (fst x)) l -> find (has_name (World w)) l = Some x ->
  is_world x /\ others (remove_first (has_name (World w)) l) = others l.
Proof.
  intros Hw Hk. unfold others. induction Hk as [|y l Hy Hl IH]; cbn [find remove_first]; [done|].
  rewrite has_name_spec by done. case_bool_decide as H.
  - intros [= <-]. assert (is_world y) as Hyw by (unfold is_world; by rewrite H). split; [done|]. rewrite filter_cons, decide_False by tauto. done.
  - intros Hx. destruct (IH Hx) as [Hxw He]. split; [done|]. by rewrite !filter_cons, He.
Qed.

Lemma take_world_spec ws : forall l, NoDup ws -> names_ok l ->
  fst (take_world ws l) = omap (fun w => find (has_name (World w)) l) ws /\
  fst (take_world ws l) ++ snd (take_world ws l) ≡ₚ l /\
  Forall is_world (fst (take_world ws l)) /\ others (snd (take_world ws l)) = others l.
Proof.
  induction ws as [|w ws IH]; intros l Hws Hl; cbn [take_world omap list_omap]; [by repeat split|]. apply NoDup_cons in Hws as [Hw Hws].
  destruct (find (has_name (World w)) l) as [x|] eqn:Hx; [|by apply IH].
  pose proof (remove_perm _ _ _ Hx) as Hp. destruct (remove_others w l x I (proj2 Hl) Hx) as [Hxw Hoth].
  assert (names_ok (remove_first (has_name (World w)) l)) as Hl'.
  { destruct (names_perm _ _ Hp Hl) as [Hn Hk]. cbn [map] in Hn. apply NoDup_cons in Hn as [_ Hn]. inversion_clear Hk. by split. }
  destruct (IH _ Hws Hl') as (H1&H2&H3&H4). cbn [fst snd]. split; [|split; [|split; [by constructor|by rewrite H4]]].
  - f_equal. rewrite H1. apply list_omap_ext. apply Forall_Forall2_diag, Forall_forall. intros w' Hw'.
    apply option_eq. intros y. rewrite !find_spec by done.
    assert (y ∈ l <-> y ∈ x :: remove_first (has_name (World w)) l) as -> by (by rewrite <-Hp).
    split; [set_solver|]. intros [[->|Hy]%elem_of_cons Hyw]; [|done].
    apply find_spec in Hx as [_ Hx]; [|done..]. rewrite Hx in Hyw. injection Hyw as ->. done.
  - cbn [app]. by rewrite H2, <-Hp.
Qed.

#[local] Opaque take_world.

Lemma world_forks_nodup : NoDup world_forks.
Proof. refine (bool_decide_eq_true_1 _ _). vm_compute. reflexivity. Qed.

Lemma in_world_forks w : w ∈ world_forks.
Proof. apply list_elem_of_In. destruct w; cbn; tauto. Qed.

Lemma order_perm l : names_ok l -> order_world_hardforks l ≡ₚ l.
Proof. intros Hl. unfold order_world_hardforks. rewrite sort_by_key_perm. by apply take_world_spec; [apply world_forks_nodup|]. Qed.

Lemma class_others k l : class activation_key k (others l) = others (class activation_key k l).
Proof.
  unfold class, others. rewrite !list_filter_filter. apply list_filter_iff. tauto.
Qed.

Lemma others_all l : Forall (fun x => ~ is_world x) l -> others l = l.
Proof. unfold others. induction 1 as [|x l Hx Hl IH]; [done|]. by rewrite filter_cons, decide_True, IH. Qed.

Lemma others_world l : Forall is_world l -> others l = [].
Proof. unfold others. induction 1; [done|]. rewrite filter_cons, decide_False by tauto. done. Qed.

(** After the loop no fork of World Chain is left. *)
Lemma rest_others l : names_ok l -> snd (take_world world_forks l) = others l.
Proof.
  intros Hl. destruct (take_world_spec world_forks l world_forks_nodup Hl) as (H1&H2&H3&H4). rewrite <-H4. symmetry.
  apply others_all, Forall_forall. intros x Hx Hxw. destruct x as [[e|w|n] c]; try done.
  pose proof (names_perm _ _ (symmetry H2) Hl) as [Hn _]. rewrite map_app in Hn. apply NoDup_app in Hn as (_&Hn&_).
  apply (Hn (World w)); [|apply list_elem_of_fmap; by exists (World w, c)].
  rewrite H1. apply list_elem_of_fmap. exists (World w, c). split; [done|]. apply list_elem_of_omap. exists w.
  split; [apply in_world_forks|]. apply find_spec; [done..|]. split; [|done]. rewrite <-H2. apply elem_of_app. by right.
Qed.

(** The order depends on the conditions of World Chain's forks and on the order of the others with equal keys. *)
Lemma order_ext l l' : names_ok l -> names_ok l' ->
  (forall w, find (has_name (World w)) l = find (has_name (World w)) l') ->
  (forall k, class activation_key k (others l) = class activation_key k (others l')) ->
  order_world_hardforks l = order_world_hardforks l'.
Proof.
  intros Hl Hl' Hw Hk. unfold order_world_hardforks. apply sort_ext. intros k. rewrite !class_app, !rest_others, Hk by done. f_equal. f_equal.
  rewrite !(proj1 (take_world_spec _ _ world_forks_nodup Hl)), !(proj1 (take_world_spec _ _ world_forks_nodup Hl')).
  apply list_omap_ext, Forall_Forall2_diag, Forall_forall. intros w _. apply Hw.
Qed.

Lemma others_order k l : names_ok l -> class activation_key k (others (order_world_hardforks l)) = class activation_key k (others l).
Proof.
  intros Hl. rewrite class_others. unfold order_world_hardforks. rewrite class_sort, <-class_others.
  destruct (take_world_spec world_forks l world_forks_nodup Hl) as (_&_&H3&H4).
  unfold others at 1. rewrite filter_app. fold (others (fst (take_world world_forks l))). rewrite others_world by done.
  cbn [app]. fold (others (snd (take_world world_forks l))). by rewrite H4.
Qed.

Lemma find_None f l : known f -> names_ok l -> find (has_name f) l = None <-> f ∉ map fst l.
Proof.
  intros Hf Hl. rewrite eq_None_not_Some. rewrite list_elem_of_fmap. split; intros H.
  - intros (x&->&Hx). apply H. exists x. by apply find_spec.
  - intros [x [Hx Hfx]%find_spec]; [|done..]. apply H. by exists x.
Qed.

Lemma names_snoc l f c : known f -> names_ok l -> find (has_name f) l = None -> names_ok (l ++ [(f, c)]).
Proof.
  intros Hf Hl Hn. pose proof (proj1 (find_None f l Hf Hl) Hn) as Hnin. destruct Hl as [Hnd Hk]. split.
  - rewrite map_app. apply NoDup_app. split; [done|]. split; [|apply NoDup_singleton]. intros x Hx. cbn. set_solver.
  - apply Forall_app_2; [done|]. by repeat constructor.
Qed.

Lemma insert_missing l f c : known f -> names_ok l -> find (has_name f) l = None -> insert l f c = l ++ [(f, c)].
Proof.
  intros Hf Hl Hn. unfold insert. replace (existsb (has_name f) l) with false; [done|]. symmetry. apply not_true_iff_false.
  intros (x&Hx&Hp)%existsb_exists. pose proof (find_none _ _ Hn _ Hx). congruence.
Qed.

Lemma find_snoc f l x : find (has_name f) (l ++ [x]) = match find (has_name f) l with Some y => Some y | None => if has_name f x then Some x else None end.
Proof. induction l as [|y l IH]; cbn [app find]; [done|]. by destruct (has_name f y). Qed.

(** Setting a missing fork orders the schedule as if it had been configured from the start. *)
Lemma set_missing l f c : known f -> names_ok l -> find (has_name f) l = None ->
  set_fork (order_world_hardforks l) f c = order_world_hardforks (l ++ [(f, c)]).
Proof.
  intros Hf Hl Hn. pose proof (order_perm l Hl) as Hp. pose proof (names_perm _ _ (symmetry Hp) Hl) as Ho.
  assert (find (has_name f) (order_world_hardforks l) = None) as Hno by (by rewrite (find_perm f _ l)).
  unfold set_fork. rewrite convert_known, insert_missing by done. rewrite convert_all_known by (by apply names_snoc).
  apply order_ext; [by apply names_snoc..| |].
  - intros w. rewrite !find_snoc. by rewrite (find_perm (World w) _ l) by done.
  - intros k. unfold others. rewrite !filter_app, !class_app. f_equal. by apply others_order.
Qed.

(** ** From a genesis file *)

Lemma given_app c l k : given c (l ++ k) = given c l ++ given c k.
Proof. apply omap_app. Qed.

Lemma given_names c l : map fst (given c l) `sublist_of` map fst l.
Proof.
  induction l as [|[f [x|]] l IH]; cbn [given omap list_omap map fst]; [constructor|..].
  - cbn. by apply sublist_skip.
  - cbn. by apply sublist_cons.
Qed.

Definition all_forks : list Fork := map fst (block_forks {| g_block := fun _ => None; g_bedrock := None; g_merge_netsplit := None; g_regolith := None;
  g_canyon := None; g_ecotone := None; g_fjord := None; g_granite := None; g_holocene := None; g_isthmus := None; g_jovian := None;
  g_karst := None; g_tropo := None; g_strato := None |}) ++ [Eth Paris] ++
  [Eth Shanghai; Eth Cancun; Eth Prague; Eth Osaka; World Regolith; World Canyon; World Ecotone; World Fjord; World Granite; World Holocene;
   World Isthmus; World Jovian; World Karst; World Tropo; World Strato].

Lemma configured_ok g : names_ok (configured g).
Proof.
  assert (map fst (configured g) `sublist_of` all_forks) as Hs.
  { unfold configured, all_forks. rewrite !map_app. apply sublist_app; [exact (given_names Block (block_forks g))|]. apply sublist_app; [done|].
    exact (given_names Timestamp (time_forks g)). }
  assert (NoDup all_forks) as Hn by (refine (bool_decide_eq_true_1 _ _); vm_compute; reflexivity).
  split; [by eapply sublist_NoDup|]. apply Forall_forall. intros x Hx.
  assert (fst x ∈ all_forks) as Hin.
  { apply (sublist_subseteq _ _ Hs). apply list_elem_of_fmap. by exists x. }
  assert (Forall known all_forks) as Hk by (by repeat constructor). rewrite Forall_forall in Hk. by apply Hk.
Qed.

Lemma find_given c l f : known f -> Forall (fun p => known (fst p)) l -> NoDup (map fst l) ->
  find (has_name f) (given c l) =
  match find (fun p => bool_decide (fst p = f)) l with Some (_, Some t) => Some (f, c t) | _ => None end.
Proof.
  intros Hf Hk Hn. induction l as [|[f0 o] l IH]; [done|]. inversion_clear Hk as [|? ? Hk0 Hkl]. cbn [map] in Hn. apply NoDup_cons in Hn as [Hnin Hn].
  cbn [find fst]. specialize (IH Hkl Hn). case_bool_decide as H.
  - subst f0. destruct o as [t|]; cbn.
    + rewrite has_name_spec, bool_decide_true by done. done.
    + change (find (has_name f) (given c l) = None). rewrite IH. destruct (find (fun p => bool_decide (fst p = f)) l) as [[f' o']|] eqn:E; [|done].
      apply find_some in E as [Hin Heq]. apply bool_decide_eq_true in Heq. cbn in Heq. subst f'. exfalso. apply Hnin.
      apply list_elem_of_fmap. exists (f, o'). split; [done|]. by apply list_elem_of_In.
  - destruct o as [t|]; cbn; [|exact IH]. rewrite has_name_spec, bool_decide_false by done. exact IH.
Qed.

Lemma find_app_fork f l k : find (has_name f) (l ++ k) = match find (has_name f) l with Some y => Some y | None => find (has_name f) k end.
Proof. induction l as [|y l IH]; cbn [app find]; [done|]. by destruct (has_name f y). Qed.

Lemma table_names l : map fst l `sublist_of` all_forks -> Forall (fun p : Fork * option Z => known (fst p)) l /\ NoDup (map fst l).
Proof.
  intros Hs. assert (NoDup all_forks) as Hn by (refine (bool_decide_eq_true_1 _ _); vm_compute; reflexivity).
  split; [|by eapply sublist_NoDup]. assert (Forall known all_forks) as Hk by (by repeat constructor).
  rewrite Forall_forall in Hk. apply Forall_forall. intros x Hx. apply Hk. apply (sublist_subseteq _ _ Hs). apply list_elem_of_fmap. by exists x.
Qed.

Definition in_table (c : Z -> ForkCondition) (l : list (Fork * option Z)) (f : Fork) : option (Fork * ForkCondition) :=
  match find (fun p => bool_decide (fst p = f)) l with Some (_, Some t) => Some (f, c t) | _ => None end.

Lemma find_configured g f : known f -> find (has_name f) (configured g) =
  match in_table Block (block_forks g) f with
  | Some x => Some x
  | None => if has_name f (Eth Paris, TTD (g_merge_netsplit g)) then Some (Eth Paris, TTD (g_merge_netsplit g)) else in_table Timestamp (time_forks g) f
  end.
Proof.
  intros Hf. unfold configured, in_table. rewrite !find_app_fork.
  destruct (table_names (block_forks g)) as [H1 H2]; [unfold all_forks; apply sublist_inserts_r; exact (reflexivity _)|].
  destruct (table_names (time_forks g)) as [H3 H4]; [unfold all_forks; apply sublist_inserts_l, sublist_inserts_l; exact (reflexivity _)|].
  rewrite !find_given by done. destruct (match find _ (block_forks g) with Some _ => _ | None => _ end); [done|]. cbn [find].
  by destruct (has_name f _).
Qed.

(** The genesis file with times for the forks that it leaves out *)
Definition fill_times (t1 t2 : Z) (g : Genesis) : Genesis :=
  {| g_block := g_block g; g_bedrock := g_bedrock g; g_merge_netsplit := g_merge_netsplit g; g_regolith := g_regolith g;
     g_canyon := g_canyon g; g_ecotone := g_ecotone g; g_fjord := g_fjord g; g_granite := g_granite g; g_holocene := g_holocene g;
     g_isthmus := g_isthmus g; g_jovian := Some (default t1 (g_jovian g)); g_karst := Some (default t2 (g_karst g));
     g_tropo := g_tropo g; g_strato := g_strato g |}.
Definition fill (c : NamedChain) (g : Genesis) : Genesis :=
  match c with
  | WorldMainnet => fill_times JOVIAN_UPGRADE_TIMESTAMP_MAINNET KARST_UPGRADE_TIMESTAMP_MAINNET g
  | WorldSepolia => fill_times JOVIAN_UPGRADE_TIMESTAMP_SEPOLIA KARST_UPGRADE_TIMESTAMP_SEPOLIA g
  | OtherChain => g
  end.

Lemma fork_order l f : known f -> names_ok l -> fork (order_world_hardforks l) f = fork l f.
Proof.
  intros Hf Hl. unfold fork. pose proof (order_perm l Hl) as Hp.
  by rewrite (find_perm f _ l Hf (names_perm _ _ (symmetry Hp) Hl) Hl Hp).
Qed.

Definition set_conditions (l : Hardforks) : Prop := Forall (fun x => snd x <> Never) l.

Lemma configured_set g : set_conditions (configured g).
Proof.
  assert (forall c l, (forall t, c t <> Never) -> Forall (fun x => snd x <> Never) (given c l)) as H.
  { intros c l Hc. apply Forall_forall. intros x ([f [t|]]&_&Hx)%list_elem_of_omap; [|done]. cbn in Hx. injection Hx as <-. apply Hc. }
  unfold set_conditions, configured. apply Forall_app_2; [by apply H|]. apply Forall_app_2; [by repeat constructor|by apply H].
Qed.

Lemma missing_iff l f : known f -> names_ok l -> set_conditions l -> fork l f = Never <-> find (has_name f) l = None.
Proof.
  intros Hf Hl Hs. unfold fork. destruct (find (has_name f) l) as [x|] eqn:E; cbn; [|done]. apply find_spec in E as [Hx _]; [|done..].
  unfold set_conditions in Hs. rewrite Forall_forall in Hs. specialize (Hs x Hx). naive_solver.
Qed.

(** The schedule with a fork that it lacks at the end *)
Definition with_missing (l : Hardforks) (f : Fork) (t : Z) : Hardforks :=
  match find (has_name f) l with Some _ => l | None => l ++ [(f, Timestamp t)] end.

Lemma with_missing_ok l f t : known f -> names_ok l -> set_conditions l -> names_ok (with_missing l f t) /\ set_conditions (with_missing l f t).
Proof.
  intros Hf Hl Hs. unfold with_missing. destruct (find (has_name f) l) eqn:E; [done|]. split; [by apply names_snoc|].
  apply Forall_app_2; [done|]. by repeat constructor.
Qed.

Lemma set_missing_world l w t : names_ok l -> set_conditions l ->
  set_missing_world_fork (order_world_hardforks l) w t = order_world_hardforks (with_missing l (World w) t).
Proof.
  intros Hl Hs. unfold set_missing_world_fork, with_missing. rewrite fork_order by done.
  pose proof (missing_iff l (World w) I Hl Hs) as Hm. destruct (find (has_name (World w)) l) as [x|] eqn:E.
  - destruct (fork l (World w)) eqn:F; try done. discriminate (proj1 Hm eq_refl).
  - rewrite (proj2 Hm eq_refl). by apply set_missing.
Qed.

Lemma set_missing_karst l t : names_ok l -> set_conditions l ->
  (forall x, find (has_name (World Karst)) l = Some x -> exists a, snd x = Timestamp a /\ find (has_name (Eth Osaka)) l = Some (Eth Osaka, Timestamp a)) ->
  (find (has_name (World Karst)) l = None -> find (has_name (Eth Osaka)) l = None) ->
  set_missing_karst_forks (order_world_hardforks l) t =
  order_world_hardforks (match find (has_name (World Karst)) l with Some _ => l | None => l ++ [(World Karst, Timestamp t); (Eth Osaka, Timestamp t)] end).
Proof.
  intros Hl Hs Hsome Hnone. unfold set_missing_karst_forks. rewrite set_missing_world by done.
  destruct (with_missing_ok l (World Karst) t I Hl Hs) as [Hl' Hs']. rewrite !fork_order by done. unfold with_missing in *.
  destruct (find (has_name (World Karst)) l) as [x|] eqn:E.
  - destruct (Hsome x eq_refl) as (a&Hx&Ho). unfold fork. by rewrite Ho.
  - specialize (Hnone eq_refl).
    assert (fork (l ++ [(World Karst, Timestamp t)]) (Eth Osaka) = Never) as -> by (unfold fork; by rewrite find_snoc, Hnone).
    assert (fork (l ++ [(World Karst, Timestamp t)]) (World Karst) = Timestamp t) as -> by (unfold fork; by rewrite find_snoc, E).
    rewrite set_missing; [by rewrite <-app_assoc|done|done|]. by rewrite find_snoc, Hnone.
Qed.

Lemma find_time g f : known f -> in_table Block (block_forks g) f = None -> f <> Eth Paris ->
  find (has_name f) (configured g) = in_table Timestamp (time_forks g) f.
Proof. intros Hf Hb Hp. rewrite find_configured, Hb by done. rewrite has_name_spec by done. rewrite bool_decide_false; [done|]. cbn. congruence. Qed.

Lemma others_given c l : others (given c l) = given c (filter (fun p => ~ is_world (fst p, Never)) l).
Proof.
  unfold others. induction l as [|[f [t|]] l IH]; [done|..].
  - change (given c ((f, Some t) :: l)) with ((f, c t) :: given c l). rewrite !filter_cons, IH. unfold is_world. cbn [fst].
    destruct f; repeat case_decide; try done; tauto.
  - change (given c ((f, None) :: l)) with (given c l). rewrite !filter_cons, IH. by case_decide.
Qed.

Definition eth_before (g : Genesis) : Hardforks :=
  others (given Block (block_forks g)) ++ [(Eth Paris, TTD (g_merge_netsplit g))] ++
  given Timestamp [(Eth Shanghai, g_canyon g); (Eth Cancun, g_ecotone g); (Eth Prague, g_isthmus g)].

Lemma others_configured g : others (configured g) = eth_before g ++ given Timestamp [(Eth Osaka, g_karst g)].
Proof.
  unfold configured, eth_before. unfold others at 1. rewrite !filter_app, <-!app_assoc. f_equal. f_equal.
  fold (others (given Timestamp (time_forks g))). rewrite others_given, <-given_app. reflexivity.
Qed.

Definition timed (f : Fork) (o : option Z) : option (Fork * ForkCondition) := (fun t => (f, Timestamp t)) <$> o.

Lemma find_jovian g : find (has_name (World Jovian)) (configured g) = timed (World Jovian) (g_jovian g).
Proof.
  rewrite find_time; [|exact I|reflexivity|discriminate].
  transitivity (match g_jovian g with Some t => Some (World Jovian, Timestamp t) | None => None end); [reflexivity|by destruct (g_jovian g)].
Qed.
Lemma find_karst g : find (has_name (World Karst)) (configured g) = timed (World Karst) (g_karst g).
Proof.
  rewrite find_time; [|exact I|reflexivity|discriminate].
  transitivity (match g_karst g with Some t => Some (World Karst, Timestamp t) | None => None end); [reflexivity|by destruct (g_karst g)].
Qed.
Lemma find_osaka g : find (has_name (Eth Osaka)) (configured g) = timed (Eth Osaka) (g_karst g).
Proof.
  rewrite find_time; [|exact I|reflexivity|discriminate].
  transitivity (match g_karst g with Some t => Some (Eth Osaka, Timestamp t) | None => None end); [reflexivity|by destruct (g_karst g)].
Qed.

(** Filling in times changes only the two forks. *)
Lemma find_fill t1 t2 g w : w <> Jovian -> w <> Karst ->
  find (has_name (World w)) (configured (fill_times t1 t2 g)) = find (has_name (World w)) (configured g).
Proof. intros Hj Hk. rewrite !find_configured by exact I. destruct w; try reflexivity; congruence. Qed.

(** The configured forks followed by the defaults *)
Definition appended (t1 t2 : Z) (g : Genesis) : Hardforks :=
  configured g ++ match g_jovian g with Some _ => [] | None => [(World Jovian, Timestamp t1)] end ++
  match g_karst g with Some _ => [] | None => [(World Karst, Timestamp t2); (Eth Osaka, Timestamp t2)] end.

Lemma missing_jovian t1 g : with_missing (configured g) (World Jovian) t1 =
  configured g ++ match g_jovian g with Some _ => [] | None => [(World Jovian, Timestamp t1)] end.
Proof. unfold with_missing. rewrite find_jovian. destruct (g_jovian g); cbn [timed fmap option_fmap option_map]; [by rewrite app_nil_r|done]. Qed.

Lemma find_after_jovian t1 g f : has_name f (World Jovian, Timestamp t1) = false ->
  find (has_name f) (with_missing (configured g) (World Jovian) t1) = find (has_name f) (configured g).
Proof.
  intros Hf. rewrite missing_jovian. destruct (g_jovian g); [by rewrite app_nil_r|]. rewrite find_snoc, Hf. by destruct (find _ _).
Qed.

Lemma defaults_appended t1 t2 g :
  set_missing_karst_forks (set_missing_world_fork (order_world_hardforks (configured g)) Jovian t1) t2 = order_world_hardforks (appended t1 t2 g) /\
  names_ok (appended t1 t2 g).
Proof.
  pose proof (configured_ok g) as Hl. pose proof (configured_set g) as Hs. rewrite set_missing_world by done.
  destruct (with_missing_ok _ (World Jovian) t1 I Hl Hs) as [Hl1 Hs1].
  pose proof (find_after_jovian t1 g (World Karst) eq_refl) as Fk. pose proof (find_after_jovian t1 g (Eth Osaka) eq_refl) as Fo.
  rewrite find_karst in Fk. rewrite find_osaka in Fo. rewrite set_missing_karst; [|done|done| |].
  - rewrite Fk. unfold appended. rewrite app_assoc, <-missing_jovian. destruct (g_karst g) as [a|]; cbn [timed fmap option_fmap option_map].
    + by rewrite app_nil_r.
    + split; [done|]. change ([?x; ?y]) with ([x] ++ [y]). rewrite app_assoc. apply names_snoc; [done|by apply names_snoc|]. by rewrite find_snoc, Fo.
  - intros x. rewrite Fk, Fo. destruct (g_karst g) as [a|]; [|done]. intros [= <-]. by exists a.
  - rewrite Fk, Fo. by destruct (g_karst g).
Qed.

Lemma find_appended t1 t2 g w : find (has_name (World w)) (appended t1 t2 g) = find (has_name (World w)) (configured (fill_times t1 t2 g)).
Proof.
  unfold appended. rewrite !find_app_fork. destruct (decide (w = Jovian)) as [->|Hj]; [|destruct (decide (w = Karst)) as [->|Hk]].
  - rewrite !find_jovian. cbn [fill_times g_jovian]. destruct (g_jovian g); [done|]. by destruct (g_karst g).
  - rewrite !find_karst. cbn [fill_times g_karst]. destruct (g_karst g); [done|]. by destruct (g_jovian g).
  - rewrite find_fill by done. destruct (find (has_name (World w)) (configured g)); [done|].
    destruct (g_jovian g), (g_karst g); destruct w; done.
Qed.

Lemma others_appended t1 t2 g : others (appended t1 t2 g) = others (configured (fill_times t1 t2 g)).
Proof.
  unfold appended, others. rewrite !filter_app. fold (others (configured g)). fold (others (configured (fill_times t1 t2 g))).
  rewrite !others_configured. change (eth_before (fill_times t1 t2 g)) with (eth_before g). cbn [fill_times g_karst]. rewrite <-app_assoc. f_equal.
  by destruct (g_jovian g), (g_karst g).
Qed.

(** C35: The defaults act as if they had been in the genesis file: for every genesis file, the schedule
    of the node is that of the file with the missing Jovian and Karst times filled in for World
    Chain and its testnet, Osaka going with Karst, so every time that the file gives is kept. *)
Theorem defaults_as_in_genesis c g : from_genesis c g = order_world_hardforks (configured (fill c g)).
Proof.
  assert (forall t1 t2, set_missing_karst_forks (set_missing_world_fork (order_world_hardforks (configured g)) Jovian t1) t2 =
    order_world_hardforks (configured (fill_times t1 t2 g))) as H.
  { intros t1 t2. destruct (defaults_appended t1 t2 g) as [-> Hok]. apply order_ext; [done|apply configured_ok| |].
    - intros w. apply find_appended.
    - intros k. by rewrite others_appended. }
  destruct c; [apply H|apply H|reflexivity].
Qed.
