(* ===== verification/AdminApi.v ===== *)
(** * Overrides of the log filter ([src/crates/rpc/src/admin.rs])

    [admin_tracingDirectives] replaces the filter and schedules a task that puts the startup filter
    back.  The state is what the mutex guards with the tasks that still sleep; a step is a
    request, the passing of time, or a task that runs after its sleep.  Aborting a task is best effort:
    it may be kept.  The filter itself belongs to [reth_tracing]: whether it accepts a string is [parses].
    A string is a list of characters. *)

From S2P Require Import Prelude.

Abbreviation text := (list Z).

Definition MAX_TTL_SECS : Z := 3600.
Definition MAX_DIRECTIVES_LEN : Z := 1024.

(** [char::is_whitespace] and the length in UTF-8 *)
Definition is_whitespace (c : Z) : bool :=
  (9 <=? c) && (c <=? 13) || (c =? 32) || (c =? 0x85) || (c =? 0xA0) || (c =? 0x1680) || (0x2000 <=? c) && (c <=? 0x200A) ||
  (c =? 0x2028) || (c =? 0x2029) || (c =? 0x202F) || (c =? 0x205F) || (c =? 0x3000).
Fixpoint trim_start (s : text) : text := match s with [] => [] | c :: s' => if is_whitespace c then trim_start s' else s end.
Definition trim (s : text) : text := reverse (trim_start (reverse (trim_start s))).
Definition char_len (c : Z) : Z := if c <? 0x80 then 1 else if c <? 0x800 then 2 else if c <? 0x10000 then 3 else 4.
Definition text_len (s : text) : Z := foldr (fun c n => char_len c + n) 0 s.

Record TracingDirectivesRequest := { directives : text; ttl_secs : Z }.
Record TracingDirectivesResponse := { applied : text; applied_ttl : Z; reverts_to : text }.
Inductive AdminError := BadTtl | EmptyDirectives | LongDirectives | ReloadInactive | BadPattern.

Definition validate (req : TracingDirectivesRequest) : result text AdminError :=
  if (ttl_secs req =? 0) || (MAX_TTL_SECS <? ttl_secs req) then Err BadTtl
  else
    let d := trim (directives req) in
    if bool_decide (d = []) then Err EmptyDirectives
    else if MAX_DIRECTIVES_LEN <? text_len d then Err LongDirectives
    else Ok d.

(** A task that sleeps until [tk_due], with the generation it was scheduled for *)
Record RevertTask := { tk_generation : Z; tk_due : Z }.
Record Admin := { log_filter : text; generation : Z; sleeping : list RevertTask; clock : Z }.

Section admin.
Context (parses : text -> bool) (log_handle_available : bool) (baseline : text).

Definition set_log_vmodule (d : text) : result text AdminError := if parses d then Ok d else Err BadPattern.

(** The region under the lock.  [kept] are the tasks that survive the abort of the previous one. *)
Definition tracing_directives (kept : list RevertTask) (s : Admin) (req : TracingDirectivesRequest)
    : result (Admin * TracingDirectivesResponse) AdminError :=
  let? d := validate req in
  if negb log_handle_available then Err ReloadInactive
  else
    let? f := set_log_vmodule d in
    let g := (generation s + 1) mod 2 ^ 64 in
    Ok ({| log_filter := f; generation := g; sleeping := {| tk_generation := g; tk_due := clock s + ttl_secs req |} :: kept; clock := clock s |},
        {| applied := d; applied_ttl := ttl_secs req; reverts_to := baseline |}).

(** What a task does after its sleep *)
Definition revert (s : Admin) (t : RevertTask) (rest : list RevertTask) : Admin :=
  {| log_filter := if negb (generation s =? tk_generation t) then log_filter s
                   else match set_log_vmodule baseline with Ok f => f | Err _ => log_filter s end;
     generation := generation s; sleeping := rest; clock := clock s |}.

Definition started : Admin := {| log_filter := baseline; generation := 0; sleeping := []; clock := 0 |}.

(** The second component is the time of the last override, and how many there were. *)
Inductive step : Admin * (Z * Z) -> Admin * (Z * Z) -> Prop :=
| step_request s last n kept req s' resp : sublist kept (sleeping s) -> 0 <= ttl_secs req ->
    tracing_directives kept s req = Ok (s', resp) -> step (s, (last, n)) (s', (clock s, n + 1))
| step_time s h t : clock s <= t ->
    step (s, h) ({| log_filter := log_filter s; generation := generation s; sleeping := sleeping s; clock := t |}, h)
| step_revert s h before t after : sleeping s = before ++ t :: after -> tk_due t <= clock s ->
    step (s, h) (revert s t (before ++ after), h).

Definition reached (s : Admin) (last n : Z) : Prop := rtc step (started, (0, 0)) (s, (last, n)).

Record admin_inv (s : Admin) (last n : Z) : Prop := {
  inv_time : last <= clock s;
  inv_count : 0 <= n /\ generation s = n mod 2 ^ 64;
  inv_due : Forall (fun t => tk_due t <= last + MAX_TTL_SECS) (sleeping s);
  inv_filter : log_filter s = baseline \/ exists t, t ∈ sleeping s /\ tk_generation t = generation s;
  inv_unique : n < 2 ^ 64 -> forall t, t ∈ sleeping s -> tk_generation t <= generation s
}.

Lemma validate_ttl req d : 0 <= ttl_secs req -> validate req = Ok d -> 1 <= ttl_secs req <= MAX_TTL_SECS.
Proof.
  unfold validate. intros H0. destruct (Z.eqb_spec (ttl_secs req) 0); cbn [orb]; [done|].
  destruct (Z.ltb_spec MAX_TTL_SECS (ttl_secs req)); [done|]. intros _. lia.
Qed.

Lemma request_inv s last n kept req s' resp : admin_inv s last n -> sublist kept (sleeping s) -> 0 <= ttl_secs req ->
  tracing_directives kept s req = Ok (s', resp) -> admin_inv s' (clock s) (n + 1).
Proof.
  intros [It [Hn Ic] Id If Iu] Hk H0 E. unfold tracing_directives in E. apply rbind_Ok in E as (d&Hd&E).
  pose proof (validate_ttl _ _ H0 Hd). destruct log_handle_available; cbn [negb] in E; [|done].
  apply rbind_Ok in E as (f&_&[= <- _]). constructor; cbn [clock generation sleeping log_filter]; unfold MAX_TTL_SECS in *.
  - lia.
  - split; [lia|]. rewrite Ic. by rewrite Zplus_mod_idemp_l.
  - constructor; [cbn; lia|]. rewrite Forall_forall in Id |- *. intros t Ht. specialize (Id t (sublist_subseteq _ _ Hk t Ht)). lia.
  - right. eexists. split; [apply elem_of_cons; by left|done].
  - intros Hb t [->|Ht]%elem_of_cons; [done|]. specialize (Iu ltac:(lia) t (sublist_subseteq _ _ Hk t Ht)).
    rewrite Ic in *. rewrite (Z.mod_small n) in * by lia. rewrite Z.mod_small by lia. lia.
Qed.

Lemma admin_step_inv s h s' h' : parses baseline = true -> step (s, h) (s', h') -> admin_inv s (fst h) (snd h) -> admin_inv s' (fst h') (snd h').
Proof.
  intros Hb Hs [It Ic Id If Iu].
  inversion Hs as [? last n kept req ? resp Hk Hreq E|? ? t Ht|? ? before t after Hsl Hdue]; subst; cbn [fst snd] in *.
  - by eapply request_inv.
  - constructor; try done. cbn. lia.
  - assert (forall x, x ∈ before ++ after -> x ∈ sleeping s) as Hsub by (intros x; rewrite Hsl; set_solver).
    constructor; cbn [revert clock generation sleeping log_filter]; try done.
    + rewrite Forall_forall in Id |- *. intros x Hx. by apply Id, Hsub.
    + unfold set_log_vmodule. rewrite Hb. destruct (Z.eqb_spec (generation s) (tk_generation t)) as [|Hne]; cbn [negb]; [by left|].
      destruct If as [->|(x&Hx&Hg)]; [by left|]. right. exists x. split; [|done]. rewrite Hsl in Hx. set_solver.
    + intros Hn x Hx. by apply Iu, Hsub.
Qed.

Lemma admin_reached_inv s last n : parses baseline = true -> reached s last n -> admin_inv s last n.
Proof.
  intros Hb H. unfold reached in H. remember (s, (last, n)) as x eqn:Hx. remember (started, (0, 0)) as y eqn:Hy.
  assert (forall a b, rtc step a b -> admin_inv (fst a) (fst (snd a)) (snd (snd a)) -> admin_inv (fst b) (fst (snd b)) (snd (snd b))) as Hr.
  { intros a b. induction 1 as [|[a1 a2] [b1 b2] c Hs _ IH]; [done|]. intros Ha. apply IH. by apply (admin_step_inv _ _ _ _ Hb Hs). }
  specialize (Hr _ _ H). subst. apply Hr. constructor; cbn; try done; [by left|]. intros _ t ?%elem_of_nil. done.
Qed.

(** An override ends on its own: whatever requests were made and in whatever order their tasks
    ran, once an hour has passed since the last override and no task is still due, the filter is the
    one of the startup. *)
Theorem override_expires s last n : parses baseline = true -> reached s last n ->
  last + MAX_TTL_SECS <= clock s -> Forall (fun t => clock s < tk_due t) (sleeping s) -> log_filter s = baseline.
Proof.
  intros Hb [_ _ Id If _]%admin_reached_inv Ht Hd; [|done]. destruct If as [|(t&Hin&_)]; [done|].
  rewrite Forall_forall in Id, Hd. specialize (Id t Hin). specialize (Hd t Hin). lia.
Qed.

(** A task of an earlier override leaves the filter of a later one alone. *)
Lemma later_override_kept s last n before t after kept req s' resp : parses baseline = true -> reached s last n -> n + 1 < 2 ^ 64 ->
  sublist kept (sleeping s) -> tracing_directives kept s req = Ok (s', resp) -> t ∈ sleeping s ->
  log_filter (revert s' t (before ++ after)) = log_filter s'.
Proof.
  intros Hb [_ [Hn0 Ic] _ _ Iu]%admin_reached_inv Hn Hk E Ht; [|done]. specialize (Iu ltac:(lia) t Ht).
  unfold tracing_directives in E. apply rbind_Ok in E as (d&_&E). destruct log_handle_available; cbn [negb] in E; [|done].
  apply rbind_Ok in E as (f&_&[= <- _]). cbn [revert log_filter generation].
  rewrite Ic in *. rewrite (Z.mod_small n) in * by lia. rewrite Z.mod_small by lia.
  by rewrite (proj2 (Z.eqb_neq _ _)) by lia.
Qed.
End admin.
